(* ===== verification/_CoqProject ===== *)
-Q . S2P
Prelude.v
Sql.v
RsiStore.v
WorkPool.v
WorkPoolProofs.v
Continuation.v
ContinuationProofs.v
AgentScheduler.v
RsiWitnesses.v
Text.v
RetainedPrefix.v
RetainedPrefixProofs.v
BenchConfig.v
SloSearch.v
SloSearchProofs.v
Sweep.v
SweepProofs.v
Measurements.v
MeasurementsProofs.v
TimeSeries.v
TimeSeriesProofs.v
Mutation.v
MutationProofs.v
Kube.v
Manifest.v
ManifestProofs.v
Effects.v
Client.v
Status.v
Instances.v
Submission.v
Lifecycle.v
Endpoint.v
Fencing.v
SubmissionProofs.v
InstanceProofs.v
Emits.v
LifecycleProofs.v
Settles.v
TerminationProofs.v
DeploymentWitnesses.v
Prometheus.v
PrometheusProofs.v
Exporters.v
ExporterProofs.v
Accelerators.v
AcceleratorProofs.v
MonitoringWitnesses.v
Network.v
Mccl.v
McclProofs.v
McclNetwork.v
BuildInputs.v
BuildInputsProofs.v
CacheGc.v
CacheGcProofs.v
CachePayloads.v
Scalars.v
Traces.v
Schedule.v
TracesProofs.v
ImageStore.v
Consumers.v
SourceCleanup.v
ImageStoreProofs.v
ConsumerProofs.v
SourceCleanupProofs.v
ReconcileProofs.v
SourceWitnesses.v
Execution.v
Publisher.v
PublisherProofs.v
Volume.v
Publish.v
VolumeProofs.v
PublishProofs.v
CommitProofs.v
PublishWitnesses.v
Replicas.v
ReplicaProofs.v
