(* ===== verification/Prelude.v ===== *)
(** * Foretoken: a verification library

    Foretoken serves language and video models on Kubernetes.  A Go control plane
    and Rust data plane run the services; the Python code of the repository is
    the user's side of the system: the [foretoken] CLI that submits and follows
    deployments, the benchmark package that loads a service and measures it, the
    engine connectors that share KV blocks, and the coordination scripts of the
    agents that develop it.  This library models the state-changing and numeric
    core of that Python code as executable functions and proves the properties
    that make it correct.

    ** Parts of the program and the files that model them

    Shared files.  This file has Python exceptions and results, the state and
    exception monad [M] (a method is a function from a world to a value with the
    new world, or an exception that rolls back), the logic of state relations a
    transaction keeps with its tactic and hint database, boolean reflection as a
    rewrite database, and the lemmas on lists, maps and rationals the components
    share.  [Sql] has tables as lists of rows with the statements
    the scripts issue; [Text] has string splitting and the integer syntax of
    Python; [Kube] has JSON values with [get], [or], [str], [int] and iteration;
    [Effects] has the commands that talk to the cluster: a world with the trace of
    all calls and their replies, results that are returned, raised or unfinished,
    and a Hoare logic over them; [Settles] has its termination logic and the
    scripted cluster of the witnesses; [Network] has
    processes over a shared store with blocking reads, and the theorem that all
    their schedules agree when every key has one writer.

    (1) Agent coordination, [src/.agents/skills/rsi/scripts].  One SQLite
    database is shared by the commands members run, the hooks of their harness
    and a supervisor process.
    - [RsiStore]: the tables and the host (clock, files, identifiers).
    - [WorkPool]: every method of [WorkPool] (work_pool.py): registration,
      submission with dependencies, claims, eligibility, due evaluations,
      completion, hand-off.
    - [Continuation]: every method of [Continuation] and the command dispatch
      (continuation.py); a command is one transaction that commits or rolls back.
    - [AgentScheduler]: [run_once], the loop and [main] of the supervisor
      (agent_scheduler.py) as a process of transactions, between which other processes
      commit theirs; every one of them is a command, and the expiry of a session can
      overwrite its completion.
    - [WorkPoolProofs], [ContinuationProofs]: the pool invariant in every
      database reachable by any interleaving of transactions; what a claim hands
      out, that older work is drained and no ready item is stuck behind a cycle;
      compare-and-set completion and hand-off; the evaluation timer; one dispatch
      per lease, until a listed event ends it; stable session bindings.  [RsiWitnesses] runs the commands on
      concrete databases.

    (2) Retained prefixes, [src/data-plane/model-server/python/connectors].
    - [RetainedPrefix]: the directory of retained.py with discovery, claim,
      cancel, recording, expiry and drain; [offset_tcp_endpoint] of
      prefix_lookup.py.
    - [RetainedPrefixProofs]: a granted offer has one consumer, discovery answers
      with the longest usable prefix, a refused claim is rolled back, a drain is
      final.
    - [Mccl] (python/mccl/calibration.py): the programs of leader and followers
      that measure network ports before the engines start, with the greedy search
      written once over an interface [Rig].  [McclProofs]: the sequential search
      ends, tries only well-formed selections, and its winner is locally optimal.
      [McclNetwork]: the distributed calibration refines that search under every
      schedule.
    - [CacheGc] (python/foretoken_cache_gc.py): the collection of model caches on a
      tree with symbolic links.  [CacheGcProofs], [CachePayloads]: artifacts of live items
      stay, also when a collection fails, and a link that stays still resolves to its payload.

    (3) Benchmarks, [src/benchmarks/src/benchmarks].  A configuration is
    validated, a workload is scheduled, requests are measured, and a sweep or a
    search repeats this.
    - [BenchConfig]: config/benchmark.py; [validate_sound] says what a validated
      configuration guarantees to the runs.
    - [Traces], [Schedule], [TracesProofs]: datasets/traces.py,
      datasets/conversations.py and runs/scheduling.py; which trace events a
      window holds, and that admission, with the sleep before a request and the wait for
      a place, keeps its times, limits and order.
    - [Measurements], [MeasurementsProofs]: results/measurements/requests.py,
      itl.py and video.py; the peak concurrency is the maximal overlap, the
      published counts add up.
    - [TimeSeries], [TimeSeriesProofs]: timeseries.py and progress.py; windows
      published while requests are still running equal those of the saved run.
    - [SloSearch], [SloSearchProofs]: runs/slo.py and
      integrations/evalscope/slo.py; the search terminates and finds the
      threshold, or the peak at which the service saturates below it.
    - [Replicas], [ReplicaProofs]: results/observations/replicas.py; GPUs are attributed to a
      service exactly through verified owners, the GPU time is the sum over the observed instants, and the
      charts show what was observed.
    - [Sweep], [SweepProofs]: sweeps/core.py and results/measurements/sweeps.py;
      expansion is complete, directories are distinct, results survive failures.

    (4) The CLI, [src/cli/foretoken].
    - [Mutation], [MutationProofs]: kubernetes/mutation.py; at most one process
      writes a deployment record, and a dead holder can be recovered.
    - [Manifest], [ManifestProofs]: deployment/manifest.py; what an indexed
      deployment guarantees, and that environment staging is reversible.
    - [Status]: deployment/status.py; a service counts as
      converged only for the generation that was asked for, and a wait ends with the
      first decisive poll.
    - [Scalars]: kubernetes/documents.py; YAML scalars with the
      rules of Go's reader.
    - [Client]: the calls of kubernetes/client.py, over an arbitrary cluster and
      clock (class [Kubectl]).  [Instances]: deployment/instances.py, the record of
      one deployment.  [Submission]: deployment/submission.py, the claim of the
      record, the checks of membership and intent, dependencies and services with
      their retries.  [Lifecycle]: deployment/lifecycle.py, apply with its rollout wait,
      delete and the retirement of temporary deployments.  [Endpoint]: deployment/endpoint.py.
    - [Fencing], [SubmissionProofs], [InstanceProofs], [LifecycleProofs]: for every
      behaviour of the cluster and on every error path, writes name the UID and the
      version of an object the cluster has shown, a service is written right
      after one listing that shows the ownership and every expected intent, an instance
      stays pinned to its UID, retirement deletes only what the submission created and
      only under the lock, and the controller revision is the one of the accepted
      request.  [TerminationProofs]: the commands end when the clock passes every
      deadline.  [DeploymentWitnesses] runs them on a scripted cluster.
    - [BuildInputs], [BuildInputsProofs]: build/inputs.py and
      build/engine_sources.py; the walk over a source tree is exact and ends with
      cyclic links, a snapshot matches its source, an update captures the bytes and
      modes of the source, and versions are kept only for equal files.
    - [Prometheus] (platform/prometheus.py), [Exporters] (accelerators/_exporter.py, discovery.py),
      [Accelerators] (nvidia.py, metax.py): how the CLI finds the Prometheus and the
      device exporter to use, and installs the packaged one.  [PrometheusProofs],
      [ExporterProofs], [AcceleratorProofs]: what is selected really collects and covers the
      device nodes, placements are exact, and the package writes only its own
      objects.  [MonitoringWitnesses] has the concrete clusters.
    - [Execution] (processes/execution.py): commands of several threads under one
      cancellation, as a machine with one step per access to shared state.
      A cancellation always reaches every registered callback, and
      the first failure is the one reported.

    (5) Source builds in the cluster, [src/cli/foretoken/build] and [applications].
    Built images are pinned on nodes and built applications lie on a volume; both
    go only when nobody uses them.
    - [ImageStore] (build/cluster/images.py): pins of images through builder or helper
      Pods.  [Consumers] (build/state.py, applications/files.py, platform/helm.py): who
      uses an image or an application.  [SourceCleanup] (build/state.py): reconciliation
      and uninstallation, which call both.
    - [Publisher] (applications/files.py): the publisher Job with its lock, from the
      workstation's side.  [Volume], [Publish] (applications/publish.py): the
      process inside that Job, on a volume with inodes and hard links.
    - [Emits]: trace logics for commands.  [ImageStoreProofs], [ConsumerProofs], [SourceCleanupProofs],
      [ReconcileProofs], [PublisherProofs]: deletions name UIDs of objects read as owned,
      images in use stay pinned, the images read are those of a declarative relation,
      helper Pods do not outlive their use, and a release is selected only after its Job
      completed.  [SourceWitnesses] applies them.
    - [VolumeProofs]: a logic for what holds at every moment of a run, since the process can be
      killed between two system calls.  [PublishProofs]: a publication appears at once and
      complete with its package, and no older file changes.  [CommitProofs]: retirement removes exactly
      the unkept versions of its owner, and the record of a build follows its applications.  [PublishWitnesses] applies them and has two runs that mislead a later one.

    ** Modelling conventions

    A method that writes is a transaction in [M]; a method that only reads is a
    function of the state; a raised exception is the [Raise] branch of [outcome].
    Concurrency is interleaving at the granularity the code synchronises at: one
    database transaction ([ContinuationProofs]), one call of the API server
    ([Mutation]), one event of the connector ([RetainedPrefixProofs]), one iteration
    of the admission loop ([Schedule]), one call
    of the store ([Network]), one access to shared state ([Execution]), one
    system call ([Volume]).  A command on the cluster is sequential, but the
    cluster may do anything between two of its calls, which is why the theorems on
    commands hold for every [Kubectl].  Dictionaries are [gmap]s, or association
    lists where the code depends on their order.

    Clock readings of the coordination scripts are integers of a fixed unit;
    seconds and metrics of the benchmarks are rationals.  Both are exact where
    binary64 rounds, so the theorems do not speak about rounding error.  Values
    that can be infinite or NaN in the configuration keep these cases.  Integers
    are kept at 64 bits where the code checks the width ([Scalars]).

    ** Recursion and fuel

    Loops over data are structural.  These loops take fuel.  The bisection and
    the doubling of [SloSearch] stop for a bound on the observed peaks
    ([search_terminates] gives the fuel); running out of fuel is a separate
    outcome, so no theorem about a result can be met by it.  The search for a
    free evaluation identifier in [WorkPool] may skip one identifier more than
    there are work items, which [free_evaluation_id_found] proves enough.  The ancestry
    query takes as many rounds as there are dependencies and is proved to reach
    the transitive closure.  The retry and wait loops of deployment commands stop
    at a deadline of the clock: [commands_terminate] gives, for every cluster, fuel
    from which on the result does not change, and [Unfinished] is no result.  The
    calibration search takes one round per port and two more; the followers' loop
    one turn per trial ([calibration_agrees] gives the bound).  The walk over a
    source tree needs one unit more than there are directories
    ([directory_files_exact]).  Following links takes as many steps as the operating
    system allows (the parameter [links_max]); the recursions over Helm documents have the
    depth of Python's stack and raise as Python does.  The waits for Prometheus targets,
    Pods and Jobs stop at their deadlines, like those of deployment commands.

    ** Parameters

    Code outside the repository is an argument of the definitions that use it:
    the host of the scripts, the Codex app-server, the native connector and its
    workers, EvalScope's comparison rules, NumPy's mean and percentile, the
    DDSketch, the load test behind a probe and behind a sweep task, the API
    server ([ApiServer] with its optimistic-concurrency law), the kubectl process
    with its clock ([Kubectl]), kustomize, the YAML codec, the file system with the
    metadata read from it ([fs], once for every time the code looks at it), and the
    probe process and clock of the calibration; the scanner of the model hub, the metrics parser
    and Kubernetes quantities, the JSON and YAML texts ([JsonText], [JsonEncoder], [YamlText]),
    Python's [repr], fresh identifiers, the state files of a workstation and the platform
    removal inside an uninstallation; the order in which a directory is listed, the names of
    temporary directories and the bytes of an archive ([System]), and the download of a
    release.  A theorem names what it assumes of them as hypotheses or as a
    class of laws, and a concrete instance shows that these can hold.

    ** Not modelled

    Argument parsing, printing, plots, W&B and result files; the HTTP clients and
    drivers; dataset downloads other than trace parsing; the cluster builder, its storage and
    the preparation of sources, the installation of the platform with its RDMA and
    leader-worker parts, and profiling, which are sequences of subprocess calls; the locks and
    state files of build/state.py and the stop of process groups in execution.py; rollout
    progress, which only prints; model downloads and engine patches; the dashboards; the Go and
    Rust services.  The timeouts of the calibration's TCP store are left out, and of the
    permission errors of the file system only the refused opening of a read-only file is
    kept.

    ** Further work

    Planning of editable updates (build/editable.py) on top of [BuildInputs]; the state
    files of a workstation below [SourceCleanup]; gateway and platform resources on top of
    [Client]; the remaining benchmark configurations. *)

From stdpp Require Export gmap strings list pretty.
From Stdlib Require Export QArith Qround ZArith Lia Lqa Sorted.
From Stdlib Require OrderedTypeEx.

#[global] Set Default Proof Using "Type".
#[global] Open Scope Z_scope.
#[export] Set Warnings "-register-all".

(** ** Python exceptions and fallible results *)

(** The exceptions the modelled code raises itself or lets through.  The
    message of a [ValueError] is kept where the source writes a literal. *)
Inductive exn :=
  | ValueError (message : string)
  | TypeError (message : string)
  | KeyError (key : string)
  | IndexError
  | RuntimeError (message : string)
  | TimeoutError (message : string)
  | OSError (message : string)
  | NotADirectoryError
  | IntegrityError
  | ZeroDivisionError
  | AttributeError
  | OverflowError
  | VersionConflict (message : string)
  | ServiceUnavailable (message : string)
  | PermissionDenied (message : string)
  | AssertionError
  | StopIteration
  | KeyboardInterrupt
  | DeploymentError (message : string).

(** A Python call either returns a value or raises. *)
Inductive outcome (A : Type) :=
  | Ok (a : A)
  | Raise (e : exn).
Arguments Ok {A} a.
Arguments Raise {A} e.

#[export] Instance exn_eq_dec : EqDecision exn.
Proof. solve_decision. Defined.

#[export] Instance outcome_eq_dec {A} `{EqDecision A} : EqDecision (outcome A).
Proof. solve_decision. Defined.

#[export] Instance outcome_ret : MRet outcome := λ A a, Ok a.
#[export] Instance outcome_bind : MBind outcome := λ A B f m,
  match m with Ok a => f a | Raise e => Raise e end.
#[export] Instance outcome_fmap : FMap outcome := λ A B f m,
  match m with Ok a => Ok (f a) | Raise e => Raise e end.

Lemma outcome_bind_Ok {A B} (m : outcome A) (f : A → outcome B) b :
  m ≫= f = Ok b ↔ ∃ a, m = Ok a ∧ f a = Ok b.
Proof. destruct m; simpl; naive_solver. Qed.

(** [if bad: raise ValueError(message)] *)
Definition reject (bad : bool) (message : string) : outcome unit :=
  if bad then Raise (ValueError message) else Ok tt.

Lemma reject_Ok bad message u : reject bad message = Ok u ↔ bad = false.
Proof. destruct bad, u; simpl; naive_solver. Qed.

Lemma reject_bind_Ok {B} bad message (k : outcome B) b :
  (reject bad message ;; k) = Ok b ↔ bad = false ∧ k = Ok b.
Proof. destruct bad; simpl; naive_solver. Qed.

(** Run a fallible function over a list, stopping at the first exception. *)
Fixpoint outcome_map {A B} (f : A → outcome B) (l : list A) : outcome (list B) :=
  match l with
  | [] => Ok []
  | x :: l => y ← f x; ys ← outcome_map f l; Ok (y :: ys)
  end.

(** Fold a fallible step over a list, stopping at the first exception. *)
Fixpoint outcome_fold {A B} (f : B → A → outcome B) (b : B) (l : list A) : outcome B :=
  match l with
  | [] => Ok b
  | x :: l => b' ← f b x; outcome_fold f b' l
  end.

Lemma outcome_map_Ok {A B} (f : A → outcome B) l ys :
  outcome_map f l = Ok ys ↔ Forall2 (λ x y, f x = Ok y) l ys.
Proof.
  revert ys. induction l as [|x l IH]; intros ys; simpl.
  - split; [by intros [= <-]|by inversion 1].
  - rewrite outcome_bind_Ok. split.
    + intros (y & Hy & (ys' & Hys & [= <-])%outcome_bind_Ok).
      constructor; [done|]. by apply IH.
    + inversion 1 as [|? y ? ys' Hy Hys]; subst. exists y. split; [done|].
      apply outcome_bind_Ok. exists ys'. by rewrite IH.
Qed.

Lemma elem_of_mapped {A B} (f : A → outcome B) l ys y :
  outcome_map f l = Ok ys → y ∈ ys ↔ ∃ x, x ∈ l ∧ f x = Ok y.
Proof.
  revert ys. induction l as [|a l IH]; intros ys; simpl.
  { intros [= <-]. split; [by intros []%not_elem_of_nil|by intros (? & []%not_elem_of_nil & _)]. }
  intros (b & Hb & (bs & Hbs & [= <-])%outcome_bind_Ok)%outcome_bind_Ok.
  rewrite elem_of_cons, (IH _ Hbs). split.
  - intros [->|(x & Hx & Hf)]; [exists a|exists x]; (split; [|done]); [left|by right].
  - intros (x & [->|Hx]%elem_of_cons & Hf); [left; congruence|right; eauto].
Qed.
Lemma mapped_elem {A B} (f : A → outcome B) l ys x :
  outcome_map f l = Ok ys → x ∈ l → ∃ y, f x = Ok y ∧ y ∈ ys.
Proof.
  intros Hys Hx. apply outcome_map_Ok in Hys as Hf. apply list_elem_of_lookup_1 in Hx as [i Hi].
  destruct (Forall2_lookup_l _ _ _ _ _ Hf Hi) as (y & Hy & Hfx). exists y. split; [done|]. by eapply list_elem_of_lookup_2.
Qed.
Lemma elem_of_mapped_concat {A B} (f : A → outcome (list B)) l ys y :
  outcome_map f l = Ok ys → y ∈ concat ys ↔ ∃ x k, x ∈ l ∧ f x = Ok k ∧ y ∈ k.
Proof.
  intros Hys. rewrite list_elem_of_In, in_concat. setoid_rewrite <-list_elem_of_In.
  setoid_rewrite (elem_of_mapped _ _ _ _ Hys). naive_solver.
Qed.

(** An invariant kept by every step is kept by the whole fold. *)
Lemma outcome_fold_inv {A B} (I : B → Prop) (f : B → A → outcome B) l b b' :
  (∀ b x b', x ∈ l → I b → f b x = Ok b' → I b') →
  I b → outcome_fold f b l = Ok b' → I b'.
Proof.
  revert b. induction l as [|x l IH]; intros b Hf Hb; simpl.
  - by intros [= <-].
  - intros (b1 & Hx & Hl)%outcome_bind_Ok.
    eapply IH; [|eapply Hf; [left|done|done]|done].
    intros. eapply Hf; [by right|done|done].
Qed.
(** What one element establishes and the others keep holds in the end. *)
Lemma outcome_fold_reaches {A B} (J : B → Prop) (f : B → A → outcome B) l x b b' :
  x ∈ l → (∀ b b', f b x = Ok b' → J b') → (∀ b y b', y ∈ l → J b → f b y = Ok b' → J b') →
  outcome_fold f b l = Ok b' → J b'.
Proof.
  intros [l1 [l2 ->]]%list_elem_of_split Hx Hk. revert b Hk. induction l1 as [|y l1 IH]; intros b Hk; simpl;
    intros (b1 & Hb & Hl)%outcome_bind_Ok.
  - eapply outcome_fold_inv; [|by eapply Hx|exact Hl]. intros b2 y b3 Hy. apply Hk. by right.
  - eapply IH; [|exact Hl]. intros b2 z b3 Hz. apply Hk. by right.
Qed.

(** Results of the same computation are the same. *)
Ltac same_ok := repeat match goal with
  | H1 : ?x = Ok ?a, H2 : ?x = Ok ?b |- _ => rewrite H1 in H2; injection H2 as <-
  end.
(** Split a successful computation into its steps. *)
Ltac steps H := repeat (let x := fresh "x" in let Hx := fresh "H" x in apply outcome_bind_Ok in H as (x & Hx & H)).

(** Run the steps again. *)
Ltac replay := repeat (apply outcome_bind_Ok; eexists; split; [eassumption|]).

(** ** State and exceptions together *)

(** A transaction over a world [W]: it returns a value with the new world, or
    raises, in which case the caller keeps the old world (the rollback of the
    database transactions of the source). *)
Definition M (W A : Type) : Type := W → outcome (A * W).

#[export] Instance M_ret W : MRet (M W) := λ A a w, Ok (a, w).
#[export] Instance M_bind W : MBind (M W) := λ A B f m w,
  match m w with Ok (a, w') => f a w' | Raise e => Raise e end.

Definition raise {W A} (e : exn) : M W A := λ _, Raise e.
Definition reads {W A} (f : W → A) : M W A := λ w, Ok (f w, w).
Definition writes {W} (f : W → W) : M W unit := λ w, Ok (tt, f w).
Definition lift {W A} (r : outcome A) : M W A := λ w,
  match r with Ok a => Ok (a, w) | Raise e => Raise e end.
Definition when {W} (b : bool) (m : M W unit) : M W unit := if b then m else mret tt.

Fixpoint for_each {W A} (l : list A) (f : A → M W unit) : M W unit :=
  match l with
  | [] => mret tt
  | x :: l => f x ;; for_each l f
  end.

(** Partial correctness: when [m] returns from a world satisfying [P], its
    value and final world satisfy [Q]. *)
Definition triple {W A} (P : W → Prop) (m : M W A) (Q : A → W → Prop) : Prop :=
  ∀ w a w', P w → m w = Ok (a, w') → Q a w'.

(** [m] keeps the invariant [I]. *)
Definition keeps {W A} (I : W → Prop) (m : M W A) : Prop :=
  triple I m (λ _, I).

Section Triples.
Context {W : Type}.
Implicit Types P I : W → Prop.

Lemma triple_ret {A} P (a : A) Q : (∀ w, P w → Q a w) → triple P (mret a) Q.
Proof. intros HQ w a' w' HP [= <- <-]. auto. Qed.

Lemma triple_bind {A B} P (m : M W A) (k : A → M W B) R Q :
  triple P m R → (∀ a, triple (R a) (k a) Q) → triple P (m ≫= k) Q.
Proof.
  intros Hm Hk w b w' HP. unfold mbind, M_bind.
  destruct (m w) as [[a w1]|e] eqn:E; [|done]. intros Hb.
  exact (Hk a w1 b w' (Hm w a w1 HP E) Hb).
Qed.

Lemma triple_raise {A} P e (Q : A → W → Prop) : triple P (raise e) Q.
Proof. by intros w a w' _. Qed.

Lemma triple_reads {A} P (f : W → A) Q :
  (∀ w, P w → Q (f w) w) → triple P (reads f) Q.
Proof. intros HQ w a w' HP [= <- <-]. auto. Qed.

Lemma triple_writes P (f : W → W) Q :
  (∀ w, P w → Q tt (f w)) → triple P (writes f) Q.
Proof. intros HQ w a w' HP [= <- <-]. auto. Qed.

Lemma triple_lift {A} P (r : outcome A) Q :
  (∀ w a, P w → r = Ok a → Q a w) → triple P (lift r) Q.
Proof. intros HQ w a w' HP. unfold lift. destruct r; [|done]. intros [= <- <-]. auto. Qed.

Lemma triple_consequence {A} (P P' : W → Prop) (m : M W A) (Q Q' : A → W → Prop) :
  triple P' m Q' → (∀ w, P w → P' w) → (∀ a w, Q' a w → Q a w) → triple P m Q.
Proof. intros Hm HP HQ w a w' Hw E. eauto. Qed.

Lemma keeps_ret {A} I (a : A) : keeps I (mret a).
Proof. by apply triple_ret. Qed.

Lemma keeps_bind {A B} I (m : M W A) (k : A → M W B) :
  keeps I m → (∀ a, keeps I (k a)) → keeps I (m ≫= k).
Proof. intros. by eapply triple_bind. Qed.

Lemma keeps_raise {A} I e : keeps (A:=A) I (raise e).
Proof. apply triple_raise. Qed.

Lemma keeps_reads {A} I (f : W → A) : keeps I (reads f).
Proof. by apply triple_reads. Qed.

Lemma keeps_writes I f : (∀ w, I w → I (f w)) → keeps I (writes f).
Proof. intros. by apply triple_writes. Qed.

Lemma keeps_lift {A} I (r : outcome A) : keeps I (lift r).
Proof. by apply triple_lift. Qed.

Lemma keeps_when I b m : keeps I m → keeps I (when b m).
Proof. intros. destruct b; [done|apply keeps_ret]. Qed.

Lemma keeps_for_each_in {A} I (l : list A) f :
  (∀ x, x ∈ l → keeps I (f x)) → keeps I (for_each l f).
Proof.
  induction l as [|x l IH]; intros Hf; simpl; [apply keeps_ret|].
  apply keeps_bind; [apply Hf; left|]. intros _. apply IH. intros y Hy. apply Hf. by right.
Qed.

Lemma keeps_for_each {A} I (l : list A) f :
  (∀ x, keeps I (f x)) → keeps I (for_each l f).
Proof. intros Hf. apply keeps_for_each_in. auto. Qed.
End Triples.

Create HintDb keeps discriminated.
#[export] Hint Resolve keeps_ret keeps_raise keeps_reads keeps_lift : keeps.
#[export] Hint Resolve keeps_when keeps_for_each keeps_bind : keeps.

(** Walk a monadic body, leaving the writes that are not in the hint base. *)
Ltac keeps_step :=
  match goal with
  | |- keeps _ (mbind _ _) => apply keeps_bind; [|intros]
  | |- keeps _ (for_each _ _) => apply keeps_for_each; intros
  | |- keeps _ (when _ _) => apply keeps_when
  | |- keeps _ (if ?b then _ else _) => destruct b
  | |- keeps _ (match ?x with _ => _ end) => destruct x
  | |- keeps _ (let '_ := ?x in _) => destruct x
  | |- keeps _ _ => solve [eauto with keeps]
  end.
Ltac keeps_auto := intros; repeat keeps_step.

(** ** Total orders: Python's tuple and string comparison *)

(** Comparison of the keys the source sorts by.  [False < True], integers and
    code points compare as usual, tuples compare lexicographically. *)
Class PyOrd (A : Type) := {
  pcmp : A → A → comparison;
  pcmp_eq : ∀ x y, pcmp x y = Eq ↔ x = y;
  pcmp_antisym : ∀ x y, pcmp x y = CompOpp (pcmp y x);
  pcmp_trans : ∀ x y z, pcmp x y = Lt → pcmp y z = Lt → pcmp x z = Lt;
}.

#[export, refine] Instance bool_ord : PyOrd bool := {| pcmp := Bool.compare |}.
Proof.
  - by intros [] [].
  - by intros [] [].
  - by intros [] [] [].
Defined.

#[export, refine] Instance Z_ord : PyOrd Z := {| pcmp := Z.compare |}.
Proof.
  - apply Z.compare_eq_iff.
  - intros. apply Z.compare_antisym.
  - intros x y z. rewrite !Z.compare_lt_iff. lia.
Defined.

#[export, refine] Instance string_ord : PyOrd string :=
  {| pcmp := OrderedTypeEx.String_as_OT.cmp |}.
Proof.
  - apply OrderedTypeEx.String_as_OT.cmp_eq.
  - apply OrderedTypeEx.String_as_OT.cmp_antisym.
  - intros x y z. rewrite !OrderedTypeEx.String_as_OT.cmp_lt.
    apply OrderedTypeEx.String_as_OT.lt_trans.
Defined.

Definition pair_cmp {A B} `{PyOrd A, PyOrd B} (x y : A * B) : comparison :=
  match pcmp x.1 y.1 with Eq => pcmp x.2 y.2 | c => c end.

Lemma pcmp_refl {A} `{PyOrd A} (x : A) : pcmp x x = Eq.
Proof. by apply pcmp_eq. Qed.

#[export, refine] Instance pair_ord {A B} `{PyOrd A, PyOrd B} : PyOrd (A * B) :=
  {| pcmp := pair_cmp |}.
Proof.
  - intros [a b] [a' b']. unfold pair_cmp; simpl.
    destruct (pcmp a a') eqn:E; [rewrite pcmp_eq| |]; simpl.
    + apply pcmp_eq in E as ->. naive_solver.
    + split; [done|]. intros [= -> ->]. by rewrite pcmp_refl in E.
    + split; [done|]. intros [= -> ->]. by rewrite pcmp_refl in E.
  - intros [a b] [a' b']. unfold pair_cmp; simpl.
    rewrite (pcmp_antisym a a'). destruct (pcmp a' a); simpl; [apply pcmp_antisym|done|done].
  - intros [a b] [a' b'] [a'' b'']. unfold pair_cmp; simpl.
    destruct (pcmp a a') eqn:E1, (pcmp a' a'') eqn:E2; try done; intros H1 H2.
    + apply pcmp_eq in E1 as ->. rewrite E2. by eapply pcmp_trans.
    + apply pcmp_eq in E1 as ->. by rewrite E2.
    + apply pcmp_eq in E2 as ->. by rewrite E1.
    + by rewrite (pcmp_trans _ _ _ E1 E2).
Defined.

Definition pleb {A} `{PyOrd A} (x y : A) : bool :=
  match pcmp x y with Gt => false | _ => true end.
Definition pltb {A} `{PyOrd A} (x y : A) : bool :=
  match pcmp x y with Lt => true | _ => false end.

Lemma pleb_refl {A} `{PyOrd A} (x : A) : pleb x x = true.
Proof. unfold pleb. by rewrite pcmp_refl. Qed.

Lemma pltb_pleb {A} `{PyOrd A} (x y : A) : pltb x y = negb (pleb y x).
Proof. unfold pltb, pleb. rewrite (pcmp_antisym x y). by destruct (pcmp y x). Qed.

Lemma pleb_total {A} `{PyOrd A} (x y : A) : pleb x y = true ∨ pleb y x = true.
Proof.
  unfold pleb. rewrite (pcmp_antisym y x). destruct (pcmp x y); simpl; auto.
Qed.

Lemma pleb_trans {A} `{PyOrd A} (x y z : A) :
  pleb x y = true → pleb y z = true → pleb x z = true.
Proof.
  unfold pleb. destruct (pcmp x y) eqn:E1, (pcmp y z) eqn:E2; try done; intros _ _.
  - apply pcmp_eq in E1 as ->. by rewrite E2.
  - apply pcmp_eq in E1 as ->. by rewrite E2.
  - apply pcmp_eq in E2 as ->. by rewrite E1.
  - by rewrite (pcmp_trans _ _ _ E1 E2).
Qed.

Lemma pleb_Z (x y : Z) : pleb x y = (x <=? y).
Proof. unfold pleb, Z.leb. done. Qed.

(** ** Selection and sorting by a key *)

(** [min(l, key=...)] and [max(l, key=..., default=None)]: the first element
    with an extreme key. *)
Section Select.
Context {A K : Type} `{PyOrd K} (key : A → K).

Definition pick_min (best x : A) : A := if pltb (key x) (key best) then x else best.
Definition pick_max (best x : A) : A := if pltb (key best) (key x) then x else best.

Definition min_by (l : list A) : option A :=
  match l with [] => None | x :: l => Some (foldl pick_min x l) end.
Definition max_by (l : list A) : option A :=
  match l with [] => None | x :: l => Some (foldl pick_max x l) end.

Lemma foldl_pick_min_spec x l :
  let r := foldl pick_min x l in
  r ∈ x :: l ∧ pleb (key r) (key x) = true ∧ (∀ y, y ∈ l → pleb (key r) (key y) = true).
Proof.
  revert x. induction l as [|y l IH]; intros x; simpl.
  - split_and!; [set_solver|apply pleb_refl|set_solver].
  - destruct (IH (pick_min x y)) as (Hin & Hle & Hall).
    assert (pick_min x y = x ∨ pick_min x y = y) as Hxy.
    { unfold pick_min. case_match; auto. }
    assert (pleb (key (pick_min x y)) (key x) = true
          ∧ pleb (key (pick_min x y)) (key y) = true) as [H1 H2].
    { unfold pick_min. destruct (pltb (key y) (key x)) eqn:E; rewrite pltb_pleb in E.
      - apply negb_true_iff in E. split; [|apply pleb_refl].
        destruct (pleb_total (key y) (key x)); congruence.
      - apply negb_false_iff in E. split; [apply pleb_refl|done]. }
    split_and!.
    + destruct Hxy as [Hxy|Hxy]; rewrite Hxy in Hin |- *; set_solver.
    + by eapply pleb_trans.
    + intros z [->|Hz]%elem_of_cons; [by eapply pleb_trans|auto].
Qed.

Lemma min_by_Some l r :
  min_by l = Some r → r ∈ l ∧ ∀ y, y ∈ l → pleb (key r) (key y) = true.
Proof.
  destruct l as [|x l]; [done|]. intros [= <-].
  destruct (foldl_pick_min_spec x l) as (? & ? & ?). split; [done|].
  intros y [->|?]%elem_of_cons; auto.
Qed.

Lemma min_by_None l : min_by l = None ↔ l = [].
Proof. by destruct l. Qed.

Lemma foldl_pick_max_spec x l :
  let r := foldl pick_max x l in
  r ∈ x :: l ∧ pleb (key x) (key r) = true ∧ (∀ y, y ∈ l → pleb (key y) (key r) = true).
Proof.
  revert x. induction l as [|y l IH]; intros x; simpl.
  - split_and!; [set_solver|apply pleb_refl|set_solver].
  - destruct (IH (pick_max x y)) as (Hin & Hle & Hall).
    assert (pick_max x y = x ∨ pick_max x y = y) as Hxy.
    { unfold pick_max. case_match; auto. }
    assert (pleb (key x) (key (pick_max x y)) = true
          ∧ pleb (key y) (key (pick_max x y)) = true) as [H1 H2].
    { unfold pick_max. destruct (pltb (key x) (key y)) eqn:E; rewrite pltb_pleb in E.
      - apply negb_true_iff in E. split; [|apply pleb_refl].
        destruct (pleb_total (key x) (key y)); congruence.
      - apply negb_false_iff in E. split; [apply pleb_refl|done]. }
    split_and!.
    + destruct Hxy as [Hxy|Hxy]; rewrite Hxy in Hin |- *; set_solver.
    + by eapply pleb_trans.
    + intros z [->|Hz]%elem_of_cons; [by eapply pleb_trans|auto].
Qed.

Lemma max_by_Some l r :
  max_by l = Some r → r ∈ l ∧ ∀ y, y ∈ l → pleb (key y) (key r) = true.
Proof.
  destruct l as [|x l]; [done|]. intros [= <-].
  destruct (foldl_pick_max_spec x l) as (? & ? & ?). split; [done|].
  intros y [->|?]%elem_of_cons; auto.
Qed.

Lemma max_by_None l : max_by l = None ↔ l = [].
Proof. by destruct l. Qed.

(** [sorted(l, key=...)]: stable insertion sort. *)
Fixpoint insert_by (x : A) (l : list A) : list A :=
  match l with
  | [] => [x]
  | y :: l' => if pleb (key x) (key y) then x :: l else y :: insert_by x l'
  end.

Definition sort_by (l : list A) : list A := foldr insert_by [] l.

Lemma insert_by_perm x l : insert_by x l ≡ₚ x :: l.
Proof.
  induction l as [|y l IH]; simpl; [done|]. case_match; [done|].
  rewrite IH. apply Permutation_swap.
Qed.

Lemma sort_by_perm l : sort_by l ≡ₚ l.
Proof. induction l as [|x l IH]; simpl; [done|]. by rewrite insert_by_perm, IH. Qed.

Lemma elem_of_sort_by x l : x ∈ sort_by l ↔ x ∈ l.
Proof. by rewrite sort_by_perm. Qed.

Lemma insert_by_sorted x l :
  StronglySorted (λ a b, pleb (key a) (key b) = true) l →
  StronglySorted (λ a b, pleb (key a) (key b) = true) (insert_by x l).
Proof.
  induction 1 as [|y l Hl IH Hy]; simpl; [repeat constructor|].
  destruct (pleb (key x) (key y)) eqn:E.
  - constructor; [by constructor|]. constructor; [done|].
    eapply Forall_impl; [done|]. intros z Hz. by eapply pleb_trans.
  - constructor; [done|]. rewrite insert_by_perm. constructor; [|done].
    destruct (pleb_total (key x) (key y)); congruence.
Qed.

Lemma sort_by_sorted l : StronglySorted (λ a b, pleb (key a) (key b) = true) (sort_by l).
Proof. induction l; simpl; [constructor|by apply insert_by_sorted]. Qed.

Lemma length_sort_by l : length (sort_by l) = length l.
Proof. by rewrite sort_by_perm. Qed.
End Select.

Lemma StronglySorted_app_r {A} (R : A → A → Prop) l k :
  StronglySorted R (l ++ k) → StronglySorted R k.
Proof. induction l as [|x l IH]; [done|]. simpl. inversion 1; auto. Qed.

(** ** Text *)

(** [s.startswith(p)], [s.removeprefix(p)] and [p in s] on byte strings. *)
Definition startswith (p s : string) : bool := String.prefix p s.

Fixpoint drop_chars (n : nat) (s : string) : string :=
  match n, s with
  | O, _ => s
  | S n, EmptyString => EmptyString
  | S n, String _ s => drop_chars n s
  end.

(** The code points [str.strip] removes that occur in ASCII text. *)
Definition is_space (c : Ascii.ascii) : bool :=
  let n := Ascii.nat_of_ascii c in
  (Nat.eqb n 32 || (Nat.leb 9 n && Nat.leb n 13) || (Nat.leb 28 n && Nat.leb n 31))%bool.

Fixpoint lstrip (s : string) : string :=
  match s with
  | String c s' => if is_space c then lstrip s' else s
  | EmptyString => EmptyString
  end.
Fixpoint rstrip (s : string) : string :=
  match s with
  | EmptyString => EmptyString
  | String c s' =>
      match rstrip s' with
      | EmptyString => if is_space c then EmptyString else String c EmptyString
      | t => String c t
      end
  end.
Definition strip (s : string) : string := rstrip (lstrip s).

(** [s.lower()] on ASCII text *)
Definition lower_char (c : Ascii.ascii) : Ascii.ascii :=
  let n := Ascii.nat_of_ascii c in
  if (Nat.leb 65 n && Nat.leb n 90)%bool then Ascii.ascii_of_nat (n + 32) else c.
Fixpoint lower (s : string) : string :=
  match s with EmptyString => EmptyString | String c s => String (lower_char c) (lower s) end.

(** [sep.join(parts)] *)
Fixpoint join (sep : string) (parts : list string) : string :=
  match parts with
  | [] => ""
  | [p] => p
  | p :: ps => p +:+ sep +:+ join sep ps
  end.

Definition str_Z (n : Z) : string := pretty n.
Definition nonempty (s : string) : bool := negb (bool_decide (s = "")).

Lemma append_assoc (s t u : string) : (s +:+ t) +:+ u = s +:+ t +:+ u.
Proof. induction s as [|c s IH]; [done|]. exact (f_equal (String c) IH). Qed.

Lemma append_inj_l (p s t : string) : p +:+ s = p +:+ t → s = t.
Proof. induction p; simpl; [done|]. intros [= ?]. auto. Qed.

Lemma startswith_append (p s : string) : startswith p (p +:+ s) = true.
Proof.
  unfold startswith. induction p as [|c p IH]; [by destruct s|]. simpl.
  destruct (Ascii.ascii_dec c c); [done|congruence].
Qed.

Lemma startswith_split (p s : string) :
  startswith p s = true → s = p +:+ drop_chars (String.length p) s.
Proof.
  unfold startswith. revert s. induction p as [|c p IH]; intros [|d s]; simpl; try done.
  destruct (Ascii.ascii_dec c d) as [->|]; [|done].
  intros Hs. exact (f_equal (String d) (IH s Hs)).
Qed.

Lemma drop_chars_append (p s : string) : drop_chars (String.length p) (p +:+ s) = s.
Proof. by induction p. Qed.

(** ** Boolean filters on lists *)

(** [[x for x in l if p(x)]] *)
Definition keep {A} (p : A → bool) (l : list A) : list A := filter (λ x, p x = true) l.

Lemma elem_of_keep {A} (p : A → bool) l x : x ∈ keep p l ↔ p x = true ∧ x ∈ l.
Proof. unfold keep. by rewrite list_elem_of_filter. Qed.

Lemma keep_cons {A} (p : A → bool) x l :
  keep p (x :: l) = if p x then x :: keep p l else keep p l.
Proof. unfold keep. rewrite filter_cons. destruct (p x); by case_decide. Qed.

Lemma keep_app {A} (p : A → bool) l k : keep p (l ++ k) = keep p l ++ keep p k.
Proof. unfold keep. by rewrite filter_app. Qed.

Lemma keep_nil_Forall {A} (p : A → bool) l : keep p l = [] ↔ ∀ x, x ∈ l → p x = false.
Proof.
  induction l as [|y l IH]; [split; [set_solver|done]|].
  rewrite keep_cons. destruct (p y) eqn:E.
  - split; [done|]. intros H. by rewrite H in E; [|left].
  - rewrite IH. split; [|set_solver]. intros H z [->|]%elem_of_cons; auto.
Qed.

(** [any(p(x) for x in l)] and [all(...)]. *)
Lemma existsb_elem {A} (p : A → bool) l : existsb p l = true ↔ ∃ x, x ∈ l ∧ p x = true.
Proof. rewrite existsb_exists. setoid_rewrite list_elem_of_In. done. Qed.

Lemma existsb_none {A} (p : A → bool) l : existsb p l = false ↔ ∀ x, x ∈ l → p x = false.
Proof.
  rewrite <-not_true_iff_false, existsb_elem. split.
  - intros H x Hx. destruct (p x) eqn:E; [|done]. exfalso. eauto.
  - intros H (x & Hx & Hp). rewrite H in Hp; done.
Qed.

Lemma forallb_elem {A} (p : A → bool) l : forallb p l = true ↔ ∀ x, x ∈ l → p x = true.
Proof. rewrite forallb_forall. setoid_rewrite list_elem_of_In. done. Qed.

(** [x in l] as a boolean. *)
Definition mem {A} `{EqDecision A} (x : A) (l : list A) : bool := bool_decide (x ∈ l).

Lemma mem_true {A} `{EqDecision A} (x : A) l : mem x l = true ↔ x ∈ l.
Proof. apply bool_decide_eq_true. Qed.
Lemma mem_false {A} `{EqDecision A} (x : A) l : mem x l = false ↔ x ∉ l.
Proof. apply bool_decide_eq_false. Qed.

(** [list(dict.fromkeys(l))]: first occurrences, in order. *)
Fixpoint distinct_from {A} `{EqDecision A} (seen l : list A) : list A :=
  match l with
  | [] => []
  | x :: l => if mem x seen then distinct_from seen l else x :: distinct_from (x :: seen) l
  end.
Definition distinct {A} `{EqDecision A} (l : list A) : list A := distinct_from [] l.

Lemma elem_of_distinct_from {A} `{EqDecision A} (x : A) seen l :
  x ∈ distinct_from seen l ↔ x ∈ l ∧ x ∉ seen.
Proof.
  revert seen. induction l as [|y l IH]; intros seen; simpl; [set_solver|].
  destruct (mem y seen) eqn:E.
  - apply mem_true in E. rewrite IH, elem_of_cons. naive_solver.
  - apply mem_false in E. rewrite !elem_of_cons, IH, not_elem_of_cons.
    destruct (decide (x = y)) as [->|]; naive_solver.
Qed.

Lemma elem_of_distinct {A} `{EqDecision A} (x : A) l : x ∈ distinct l ↔ x ∈ l.
Proof.
  unfold distinct. rewrite elem_of_distinct_from.
  pose proof (not_elem_of_nil x). naive_solver.
Qed.

Lemma NoDup_distinct_from {A} `{EqDecision A} (seen l : list A) : NoDup (distinct_from seen l).
Proof.
  revert seen. induction l as [|y l IH]; intros seen; simpl; [constructor|].
  case_match; [done|]. constructor; [|done].
  rewrite elem_of_distinct_from, not_elem_of_cons. naive_solver.
Qed.

Lemma NoDup_distinct {A} `{EqDecision A} (l : list A) : NoDup (distinct l).
Proof. apply NoDup_distinct_from. Qed.

Lemma elem_of_omap_id {A} (l : list (option A)) x : x ∈ omap id l ↔ Some x ∈ l.
Proof. rewrite list_elem_of_omap. split; [intros (y & Hy & E); by simpl in E; subst|by eauto]. Qed.

(** ** Boolean comparison of decidable values *)

Definition eqb {A} `{EqDecision A} (x y : A) : bool := bool_decide (x = y).

Lemma eqb_true {A} `{EqDecision A} (x y : A) : eqb x y = true ↔ x = y.
Proof. apply bool_decide_eq_true. Qed.
Lemma eqb_false {A} `{EqDecision A} (x y : A) : eqb x y = false ↔ x ≠ y.
Proof. apply bool_decide_eq_false. Qed.
Lemma eqb_refl {A} `{EqDecision A} (x : A) : eqb x x = true.
Proof. by apply eqb_true. Qed.

(** Turn boolean hypotheses and goals about [eqb], [mem], [existsb], [&&] and
    the integer comparisons into propositions. *)
Create Rewrite HintDb reflect.
#[export] Hint Rewrite andb_true_iff andb_false_iff orb_true_iff orb_false_iff
  negb_true_iff negb_false_iff : reflect.
#[export] Hint Rewrite @eqb_true @eqb_false @mem_true @mem_false @existsb_elem
  @existsb_none @forallb_elem @elem_of_keep : reflect.
#[export] Hint Rewrite Z.leb_le Z.leb_gt Z.ltb_lt Z.ltb_ge Z.eqb_eq Z.eqb_neq : reflect.

Ltac reflect_in H := autorewrite with reflect in H.
Ltac reflect_goal := autorewrite with reflect.
Ltac reflect_all := repeat (progress autorewrite with reflect in * ).

(** ** Dictionaries in insertion order *)

(** A Python [dict]: iteration follows first insertion; assigning a present key
    keeps its place. *)
Abbreviation dict K V := (list (K * V)) (only parsing).

Section Dict.
Context {K V : Type} `{EqDecision K}.
Implicit Types d : list (K * V).

(** [d.get(k)] *)
Fixpoint dget (k : K) d : option V :=
  match d with
  | [] => None
  | (k', v) :: d => if eqb k' k then Some v else dget k d
  end.

(** [d[k] = v] *)
Fixpoint dset (k : K) (v : V) d : list (K * V) :=
  match d with
  | [] => [(k, v)]
  | (k', v') :: d => if eqb k' k then (k', v) :: d else (k', v') :: dset k v d
  end.

(** [del d[k]] of a present key, [d.pop(k, None)] *)
Definition ddel (k : K) d : list (K * V) := keep (λ e, negb (eqb e.1 k)) d.

(** [k in d] *)
Definition dmem (k : K) d : bool := bool_decide (is_Some (dget k d)).

Lemma dget_elem k v d : dget k d = Some v → (k, v) ∈ d.
Proof.
  induction d as [|[k' v'] d IH]; simpl; [done|]. destruct (eqb k' k) eqn:E.
  - rewrite eqb_true in E. intros [= ->]. subst. left.
  - intros H. right. auto.
Qed.

Lemma dget_None k d : dget k d = None ↔ k ∉ d.*1.
Proof.
  induction d as [|[k' v'] d IH]; simpl; [split; [set_solver|done]|].
  rewrite not_elem_of_cons. destruct (eqb k' k) eqn:E; reflect_in E; [naive_solver|].
  rewrite IH. naive_solver.
Qed.

Lemma elem_dget k v d : NoDup d.*1 → (k, v) ∈ d → dget k d = Some v.
Proof.
  induction d as [|[k' v'] d IH]; simpl; [set_solver|].
  rewrite NoDup_cons. intros [Hk Hnd] [[= -> ->]|Hin]%elem_of_cons.
  - by rewrite eqb_refl.
  - destruct (eqb k' k) eqn:E; [|auto]. rewrite eqb_true in E. subst. exfalso.
    apply Hk, list_elem_of_fmap. by exists (k, v).
Qed.

Lemma dget_dset k k' v d : dget k' (dset k v d) = if eqb k k' then Some v else dget k' d.
Proof.
  induction d as [|[k1 v1] d IH]; simpl; [done|].
  destruct (eqb k1 k) eqn:E; simpl.
  - rewrite eqb_true in E. subst. by destruct (eqb k k').
  - rewrite IH. destruct (eqb k1 k') eqn:E1; [|done].
    rewrite eqb_true in E1. subst. destruct (eqb k k') eqn:E2; [|done].
    rewrite eqb_true in E2. subst. by rewrite eqb_refl in E.
Qed.

Lemma dget_keep (p : K * V → bool) k d :
  NoDup d.*1 → dget k (keep p d) = match dget k d with
                                   | Some v => if p (k, v) then Some v else None
                                   | None => None
                                   end.
Proof.
  induction d as [|[k1 v1] d IH]; simpl; [done|].
  rewrite NoDup_cons, keep_cons. intros [Hk Hnd].
  destruct (eqb k1 k) eqn:E.
  - rewrite eqb_true in E. subst. destruct (p (k, v1)); simpl; [by rewrite eqb_refl|].
    rewrite IH by done. by rewrite (proj2 (dget_None k d)).
  - destruct (p (k1, v1)); simpl; [by rewrite E, IH|by apply IH].
Qed.

Lemma dget_ddel k k' d : NoDup d.*1 → dget k' (ddel k d) = if eqb k k' then None else dget k' d.
Proof.
  intros Hnd. unfold ddel. rewrite dget_keep by done. simpl.
  destruct (eqb k' k) eqn:E, (eqb k k') eqn:E'; reflect_in E; reflect_in E';
    simpl; try congruence; by destruct (dget k' d).
Qed.

Lemma elem_of_dset_keys k k' v d : k' ∈ (dset k v d).*1 ↔ k' = k ∨ k' ∈ d.*1.
Proof.
  induction d as [|[k1 v1] d IH]; simpl; [set_solver|].
  destruct (eqb k1 k) eqn:E; reflect_in E; simpl; rewrite !elem_of_cons; [subst; naive_solver|].
  rewrite IH. naive_solver.
Qed.

Lemma NoDup_dset k v d : NoDup d.*1 → NoDup (dset k v d).*1.
Proof.
  induction d as [|[k1 v1] d IH]; simpl.
  - intros _. by apply NoDup_singleton.
  - rewrite NoDup_cons. intros [Hk Hnd]. destruct (eqb k1 k) eqn:E; reflect_in E; simpl.
    + by constructor.
    + constructor; [|auto]. rewrite elem_of_dset_keys. naive_solver.
Qed.

Lemma Forall_dset (P : K * V → Prop) k v d :
  (∀ k', k' = k → P (k', v)) → Forall P d → Forall P (dset k v d).
Proof.
  intros Hv. induction 1 as [|[k1 v1] d Hx Hd IH]; simpl; [by constructor; auto|].
  destruct (eqb k1 k) eqn:E; constructor; auto. reflect_in E. auto.
Qed.

Lemma dict_keep_keys (p : K * V → bool) d : (keep p d).*1 ⊆ d.*1.
Proof.
  intros k ((k' & v) & -> & [_ Hin]%elem_of_keep)%list_elem_of_fmap.
  apply list_elem_of_fmap. by exists (k', v).
Qed.

Lemma NoDup_dict_keep (p : K * V → bool) d : NoDup d.*1 → NoDup (keep p d).*1.
Proof.
  induction d as [|[k1 v1] d IH]; simpl; [done|]. rewrite NoDup_cons, keep_cons.
  intros [Hk Hnd]. destruct (p (k1, v1)); [|auto]. simpl. constructor; [|auto].
  intros ((k & v) & -> & [_ Hin]%elem_of_keep)%list_elem_of_fmap.
  apply Hk, list_elem_of_fmap. by exists (k, v).
Qed.
End Dict.

(** ** Floats *)

(** Python floats by value: a rational (every finite binary64 is one; arithmetic
    on them is exact here where Python rounds), an infinity or not a number. *)
Inductive flt :=
  | Fin (q : Q)
  | PosInf
  | NegInf
  | NotANumber.

(** [math.isfinite(x)] *)
Definition isfinite (x : flt) : bool := match x with Fin _ => true | _ => false end.

(** [x <= y] and [x < y] *)
Definition fleb (x y : flt) : bool :=
  match x, y with
  | NotANumber, _ | _, NotANumber => false
  | NegInf, _ | _, PosInf => true
  | PosInf, _ | _, NegInf => false
  | Fin p, Fin q => Qle_bool p q
  end.
Definition fltb (x y : flt) : bool :=
  match x, y with
  | NotANumber, _ | _, NotANumber => false
  | _, _ => negb (fleb y x)
  end.
(** [x == y] *)
Definition feqb (x y : flt) : bool := fleb x y && fleb y x.

(** A finite float above zero. *)
Definition positive (x : flt) : Prop := ∃ q, x = Fin q ∧ (0 < q)%Q.

Lemma positive_check x : isfinite x = true → fleb x (Fin 0) = false → positive x.
Proof.
  destruct x as [q| | |]; simpl; try done. intros _ H. exists q. split; [done|].
  apply Qnot_le_lt. rewrite <-Qle_bool_iff. congruence.
Qed.

(** ** JSON-like values *)

(** Values of documents and of loosely typed dictionaries. *)
Inductive json :=
  | JNull
  | JBool (b : bool)
  | JInt (z : Z)
  | JFloat (x : flt)
  | JStr (s : string)
  | JArr (l : list json)
  | JObj (m : list (string * json)).

(** Python truth value *)
Definition truthy (j : json) : bool :=
  match j with
  | JNull => false
  | JBool b => b
  | JInt z => negb (z =? 0)
  | JFloat x => negb (feqb x (Fin 0))
  | JStr s => nonempty s
  | JArr l => match l with [] => false | _ => true end
  | JObj m => match m with [] => false | _ => true end
  end.
