(* ===== verification/Sql.v ===== *)
(** * Relational tables

    The RSI scripts keep their state in SQLite.  A table is the list of its rows
    in insertion order; the statements the scripts issue are [SELECT ... WHERE]
    ([keep]), [UPDATE ... SET ... WHERE] ([update_where], with the cursor's
    [rowcount]) and [INSERT], which a primary key or a foreign key can refuse
    with [IntegrityError].  [upsert] is [INSERT ... ON CONFLICT DO UPDATE] and
    [insert_ignore] is [INSERT OR IGNORE].

    The order in which SQLite returns rows of an unordered [SELECT] is not
    specified; the model takes insertion order. *)

From S2P Require Import Prelude.

Section Tables.
Context {R : Type}.
Implicit Types (t : list R) (p : R → bool) (f : R → R).

Definition update_where p f t : list R := (λ r, if p r then f r else r) <$> t.
Definition rowcount p t : nat := length (keep p t).
Definition delete_where p t : list R := keep (λ r, negb (p r)) t.

(** [fetchone()] of a [SELECT ... WHERE]. *)
Definition select_one p t : option R := head (keep p t).

Lemma elem_of_update_where p f t r :
  r ∈ update_where p f t ↔
    (∃ r0, r0 ∈ t ∧ p r0 = true ∧ r = f r0) ∨ (r ∈ t ∧ p r = false).
Proof.
  unfold update_where. rewrite list_elem_of_fmap. split.
  - intros (r0 & -> & Hr0). destruct (p r0) eqn:E; [left|right]; eauto.
  - intros [(r0 & Hr0 & Hp & ->)|[Hr Hp]]; eexists; (split; [|done]); by rewrite Hp.
Qed.

Lemma update_where_none p f t : (∀ r, r ∈ t → p r = false) → update_where p f t = t.
Proof.
  intros H. unfold update_where. induction t as [|r t IH]; [done|]. csimpl.
  rewrite H by set_solver. f_equal. apply IH. set_solver.
Qed.

Lemma rowcount_zero p t : rowcount p t = 0%nat ↔ ∀ r, r ∈ t → p r = false.
Proof. unfold rowcount. rewrite length_zero_iff_nil. apply keep_nil_Forall. Qed.

Lemma rowcount_nonzero p t : rowcount p t ≠ 0%nat ↔ ∃ r, r ∈ t ∧ p r = true.
Proof.
  unfold rowcount. destruct (keep p t) as [|r l] eqn:E; simpl.
  - split; [done|]. intros (r & Hr & Hp).
    rewrite keep_nil_Forall in E. rewrite (E r Hr) in Hp. done.
  - split; [|done]. intros _. exists r.
    assert (r ∈ keep p t) as Hr by (rewrite E; set_solver).
    apply elem_of_keep in Hr as [? ?]. done.
Qed.

Lemma select_one_Some p t r : select_one p t = Some r → r ∈ t ∧ p r = true.
Proof.
  unfold select_one. intros [l Hl]%head_Some.
  assert (r ∈ keep p t) as Hr by (rewrite Hl; set_solver).
  by apply elem_of_keep in Hr as [? ?].
Qed.

Lemma select_one_None p t : select_one p t = None ↔ ∀ r, r ∈ t → p r = false.
Proof.
  unfold select_one. rewrite head_None. apply keep_nil_Forall.
Qed.

Lemma keep_update_where p f t :
  (∀ r, p r = true → p (f r) = true) → keep p (update_where p f t) = f <$> keep p t.
Proof.
  intros Hf. induction t as [|r t IH]; [done|]. unfold update_where. csimpl.
  rewrite !keep_cons. destruct (p r) eqn:E.
  - rewrite (Hf r E). csimpl. f_equal. apply IH.
  - rewrite E. apply IH.
Qed.

Lemma select_one_update_where p f t :
  (∀ r, p r = true → p (f r) = true) →
  select_one p (update_where p f t) = f <$> select_one p t.
Proof.
  intros Hf. unfold select_one. rewrite keep_update_where by done. by destruct (keep p t).
Qed.

(** ** Primary keys *)

Context {K : Type} `{EqDecision K} (key : R → K).

Definition keys t : list K := key <$> t.
Definition has_key (k : K) t : bool := existsb (λ r, eqb (key r) k) t.

(** [INSERT INTO]: refused when the primary key is taken. *)
Definition insert_row (r : R) t : outcome (list R) :=
  if has_key (key r) t then Raise IntegrityError else Ok (t ++ [r]).

(** [INSERT OR IGNORE INTO] *)
Definition insert_ignore (r : R) t : list R :=
  if has_key (key r) t then t else t ++ [r].

(** [INSERT ... ON CONFLICT(key) DO UPDATE SET ...] *)
Definition upsert (r : R) f t : list R :=
  if has_key (key r) t then update_where (λ r', eqb (key r') (key r)) f t else t ++ [r].

Lemma has_key_true k t : has_key k t = true ↔ k ∈ keys t.
Proof.
  unfold has_key, keys. rewrite existsb_elem, list_elem_of_fmap.
  setoid_rewrite eqb_true. naive_solver.
Qed.

Lemma has_key_false k t : has_key k t = false ↔ k ∉ keys t.
Proof. rewrite <-has_key_true, not_true_iff_false. done. Qed.

Lemma keys_app t t' : keys (t ++ t') = keys t ++ keys t'.
Proof. apply fmap_app. Qed.

Lemma keys_update_where p f t :
  (∀ r, p r = true → key (f r) = key r) → keys (update_where p f t) = keys t.
Proof.
  intros Hf. unfold keys, update_where. rewrite <-list_fmap_compose.
  apply list_fmap_ext. intros i r _. simpl. destruct (p r) eqn:E; auto.
Qed.

Lemma keys_keep_sub p t k : k ∈ keys (keep p t) → k ∈ keys t.
Proof.
  unfold keys. rewrite !list_elem_of_fmap. intros (r & -> & Hr).
  apply elem_of_keep in Hr as [_ ?]. eauto.
Qed.

Lemma NoDup_keys_keep p t : NoDup (keys t) → NoDup (keys (keep p t)).
Proof.
  induction t as [|r t IH]; [done|]. unfold keys; csimpl. fold (keys t).
  rewrite NoDup_cons. intros [Hr Ht]. rewrite keep_cons. destruct (p r); [|auto].
  csimpl. rewrite NoDup_cons. split; [|by apply IH].
  intros ?. apply Hr. by eapply keys_keep_sub.
Qed.

Lemma insert_row_Ok r t t' : insert_row r t = Ok t' ↔ (key r ∉ keys t) ∧ t' = t ++ [r].
Proof.
  unfold insert_row. destruct (has_key (key r) t) eqn:E.
  - apply has_key_true in E. naive_solver.
  - apply has_key_false in E. naive_solver.
Qed.

Lemma NoDup_keys_snoc r t : NoDup (keys t) → key r ∉ keys t → NoDup (keys (t ++ [r])).
Proof.
  intros. rewrite keys_app. apply NoDup_app. split_and!; [done| |by apply NoDup_singleton].
  set_solver.
Qed.

Lemma NoDup_keys_insert_ignore r t : NoDup (keys t) → NoDup (keys (insert_ignore r t)).
Proof.
  intros. unfold insert_ignore. destruct (has_key _ _) eqn:E; [done|].
  apply NoDup_keys_snoc; [done|]. by apply has_key_false.
Qed.

Lemma NoDup_keys_upsert r f t :
  (∀ r', key (f r') = key r') → NoDup (keys t) → NoDup (keys (upsert r f t)).
Proof.
  intros. unfold upsert. destruct (has_key _ _) eqn:E.
  - rewrite keys_update_where; auto.
  - apply NoDup_keys_snoc; [done|]. by apply has_key_false.
Qed.

(** With unique keys, the row of a key is the row. *)
Lemma unique_row t r r' :
  NoDup (keys t) → r ∈ t → r' ∈ t → key r = key r' → r = r'.
Proof.
  unfold keys. intros Hnd Hr Hr' Hk.
  apply list_elem_of_lookup in Hr as [i Hi], Hr' as [j Hj].
  assert (i = j) as ->; [|naive_solver].
  eapply (NoDup_lookup (key <$> t)); [done| |]; rewrite list_lookup_fmap.
  - by rewrite Hi.
  - rewrite Hj. simpl. by rewrite Hk.
Qed.

Lemma select_one_key t r :
  NoDup (keys t) → r ∈ t → select_one (λ r', eqb (key r') (key r)) t = Some r.
Proof.
  intros Hnd Hr. destruct (select_one _ t) as [r'|] eqn:E.
  - apply select_one_Some in E as [Hr' Hk]. rewrite eqb_true in Hk.
    rewrite (unique_row t r' r Hnd Hr' Hr Hk). done.
  - rewrite select_one_None in E. specialize (E r Hr). by rewrite eqb_refl in E.
Qed.
End Tables.
