(* ===== verification/RsiStore.v ===== *)
(** * The RSI coordination database

    Data of [.agents/skills/rsi/scripts]: the tables that [Continuation.create]
    and [WorkPool.create] declare, the host operations the scripts call, and the
    world a database transaction runs in.

    The two leading columns [(harness, session)] of every table are one field of
    type [identity].  Enumerated [TEXT] columns are inductive types with one
    constructor per literal the scripts write; nullable columns are options.
    [REAL] columns and [time.time()] values are integers counting a fixed unit
    (every finite binary64 is an integer number of units of 2^-1074 s); sums of
    clock values are exact where Python rounds. *)

From S2P Require Import Prelude Sql.

(** ** Host interface *)

(** What the scripts ask of the operating system: successive readings of
    [time.time()], successive [uuid.uuid4().hex] values, how a float is printed,
    [Path.resolve(strict=True)] and [Path.is_file()]. *)
Class Host := {
  time_at : nat → Z;
  uuid_at : nat → string;
  show_time : Z → string;
  resolve_strict : string → option string;
  is_file : string → bool;
}.

(** ** Enumerations *)

Abbreviation identity := (string * string)%type.

Inductive role := Explorer | Worker | Experimenter.
Inductive kind := KExplorer | KWorker | KExperimenter | KReview | KEvaluation.
Inductive session_state := SActive | SPaused | SComplete | SExpired.
Inductive member_state := MWorking | MWaiting | MDone | MExpired | MFailed.
Inductive dispatch_state := DPending | DDispatching | DRunning | DReleased.
Inductive work_state := Ready | Active | Done | Cancelled.

#[export] Instance role_eq_dec : EqDecision role.
Proof. solve_decision. Defined.
#[export] Instance kind_eq_dec : EqDecision kind.
Proof. solve_decision. Defined.
#[export] Instance session_state_eq_dec : EqDecision session_state.
Proof. solve_decision. Defined.
#[export] Instance member_state_eq_dec : EqDecision member_state.
Proof. solve_decision. Defined.
#[export] Instance dispatch_state_eq_dec : EqDecision dispatch_state.
Proof. solve_decision. Defined.
#[export] Instance work_state_eq_dec : EqDecision work_state.
Proof. solve_decision. Defined.

Definition kind_of_role (r : role) : kind :=
  match r with Explorer => KExplorer | Worker => KWorker | Experimenter => KExperimenter end.
Definition role_name (r : role) : string :=
  match r with Explorer => "explorer" | Worker => "worker" | Experimenter => "experimenter" end.
Definition session_state_name (s : session_state) : string :=
  match s with
  | SActive => "active" | SPaused => "paused" | SComplete => "complete" | SExpired => "expired"
  end.

(** [CAPABILITIES] *)
Definition CAPABILITIES (r : role) : list kind := [kind_of_role r; KEvaluation].

(** ** Rows *)

Record session_row := Session {
  s_id : identity;
  s_task : string;
  s_deadline : option Z;
  s_started : option Z;
  s_state : session_state;
  s_reason : option string;
  s_review_pending : bool;
}.

Record member_row := Member {
  m_id : identity;
  m_agent : string;
  m_role : role;
  m_state : member_state;
  m_next_step : option string;
  m_reason : option string;
  m_notice : option string;
  m_responsibility : option string;
  m_thread_id : option string;
  m_dispatch_state : dispatch_state;
  m_lease_owner : option string;
  m_lease_until : option Z;
  m_dispatch_id : option string;
  m_turn_id : option string;
  m_last_error : option string;
}.

Record work_row := Work {
  w_id : identity;
  w_name : string;
  w_kind : kind;
  w_description : string;
  w_creator : string;
  w_topic : string;
  w_environment : string;
  w_state : work_state;
  w_owner : option string;
  w_previous_owner : option string;
  w_result : option string;
  w_reason : option string;
  w_created : Z;
}.

Record schedule_row := Schedule {
  e_id : identity;
  e_interval : Z;
  e_count : Z;
  e_next_due : Z;
}.

Record heartbeat_row := Heartbeat {
  h_id : identity;
  h_owner : string;
  h_state : string;
  h_last_seen : Z;
  h_last_error : option string;
}.

(** Rows of [capabilities] (agent, kind), [work_participants] and [exclusions]
    (work, agent), and [dependencies] (work, dependency), with their identity. *)
Abbreviation capability_row := (identity * (string * kind))%type.
Abbreviation link_row := (identity * (string * string))%type.

Record db := Db {
  sessions : list session_row;
  members : list member_row;
  capabilities : list capability_row;
  work : list work_row;
  participants : list link_row;
  dependencies : list link_row;
  exclusions : list link_row;
  schedules : list schedule_row;
  heartbeats : list heartbeat_row;
}.

Definition empty_db : db := Db [] [] [] [] [] [] [] [] [].

(** Primary keys. *)
Definition member_key (m : member_row) : identity * string := (m_id m, m_agent m).
Definition work_key (w : work_row) : identity * string := (w_id w, w_name w).
Definition heartbeat_key (h : heartbeat_row) : identity * string := (h_id h, h_owner h).

(** ** Column updates *)

Definition session_set (state : session_state) (reason : option string) (review : bool)
    (s : session_row) : session_row :=
  Session (s_id s) (s_task s) (s_deadline s) (s_started s) state reason review.
Definition session_set_started (started : option Z) (s : session_row) : session_row :=
  Session (s_id s) (s_task s) (s_deadline s) started (s_state s) (s_reason s) (s_review_pending s).
Definition session_set_review (review : bool) (s : session_row) : session_row :=
  session_set (s_state s) (s_reason s) review s.

Definition member_lifecycle (state : member_state) (next_step reason notice : option string)
    (m : member_row) : member_row :=
  Member (m_id m) (m_agent m) (m_role m) state next_step reason notice (m_responsibility m)
    (m_thread_id m) (m_dispatch_state m) (m_lease_owner m) (m_lease_until m) (m_dispatch_id m)
    (m_turn_id m) (m_last_error m).
Definition member_dispatch (ds : dispatch_state) (lease_owner : option string)
    (lease_until : option Z) (dispatch_id turn_id last_error : option string)
    (m : member_row) : member_row :=
  Member (m_id m) (m_agent m) (m_role m) (m_state m) (m_next_step m) (m_reason m) (m_notice m)
    (m_responsibility m) (m_thread_id m) ds lease_owner lease_until dispatch_id turn_id last_error.

Definition work_set (state : work_state) (owner previous_owner result reason : option string)
    (w : work_row) : work_row :=
  Work (w_id w) (w_name w) (w_kind w) (w_description w) (w_creator w) (w_topic w)
    (w_environment w) state owner previous_owner result reason (w_created w).
Definition work_redescribe (k : kind) (description : string) (w : work_row) : work_row :=
  Work (w_id w) (w_name w) k description (w_creator w) (w_topic w) (w_environment w) (w_state w)
    (w_owner w) (w_previous_owner w) (w_result w) (w_reason w) (w_created w).

Definition on_sessions (f : list session_row → list session_row) (d : db) : db :=
  Db (f (sessions d)) (members d) (capabilities d) (work d) (participants d) (dependencies d)
    (exclusions d) (schedules d) (heartbeats d).
Definition on_members (f : list member_row → list member_row) (d : db) : db :=
  Db (sessions d) (f (members d)) (capabilities d) (work d) (participants d) (dependencies d)
    (exclusions d) (schedules d) (heartbeats d).
Definition on_capabilities (f : list capability_row → list capability_row) (d : db) : db :=
  Db (sessions d) (members d) (f (capabilities d)) (work d) (participants d) (dependencies d)
    (exclusions d) (schedules d) (heartbeats d).
Definition on_work (f : list work_row → list work_row) (d : db) : db :=
  Db (sessions d) (members d) (capabilities d) (f (work d)) (participants d) (dependencies d)
    (exclusions d) (schedules d) (heartbeats d).
Definition on_participants (f : list link_row → list link_row) (d : db) : db :=
  Db (sessions d) (members d) (capabilities d) (work d) (f (participants d)) (dependencies d)
    (exclusions d) (schedules d) (heartbeats d).
Definition on_dependencies (f : list link_row → list link_row) (d : db) : db :=
  Db (sessions d) (members d) (capabilities d) (work d) (participants d) (f (dependencies d))
    (exclusions d) (schedules d) (heartbeats d).
Definition on_exclusions (f : list link_row → list link_row) (d : db) : db :=
  Db (sessions d) (members d) (capabilities d) (work d) (participants d) (dependencies d)
    (f (exclusions d)) (schedules d) (heartbeats d).
Definition on_schedules (f : list schedule_row → list schedule_row) (d : db) : db :=
  Db (sessions d) (members d) (capabilities d) (work d) (participants d) (dependencies d)
    (exclusions d) (f (schedules d)) (heartbeats d).
Definition on_heartbeats (f : list heartbeat_row → list heartbeat_row) (d : db) : db :=
  Db (sessions d) (members d) (capabilities d) (work d) (participants d) (dependencies d)
    (exclusions d) (schedules d) (f (heartbeats d)).

(** ** The world of a transaction *)

(** The database, and how many clock readings and identifiers have been taken. *)
Record world := World {
  the_db : db;
  clock_reads : nat;
  uuid_reads : nat;
}.

Definition with_db (f : db → db) (w : world) : world :=
  World (f (the_db w)) (clock_reads w) (uuid_reads w).

Definition query {A} (f : db → A) : M world A := reads (λ w, f (the_db w)).
Definition execute (f : db → db) : M world unit := writes (with_db f).
(** A statement that a constraint can refuse. *)
Definition execute_checked (f : db → outcome db) : M world unit := λ w,
  match f (the_db w) with
  | Ok d => Ok (tt, with_db (λ _, d) w)
  | Raise e => Raise e
  end.

Definition now `{Host} : M world Z := λ w,
  Ok (time_at (clock_reads w), World (the_db w) (S (clock_reads w)) (uuid_reads w)).
Definition uuid4 `{Host} : M world string := λ w,
  Ok (uuid_at (uuid_reads w), World (the_db w) (clock_reads w) (S (uuid_reads w))).

(** A predicate on the database, as a predicate on worlds. *)
Definition on_db (I : db → Prop) (w : world) : Prop := I (the_db w).

Lemma keeps_execute (I : db → Prop) f :
  (∀ d, I d → I (f d)) → keeps (on_db I) (execute f).
Proof. intros Hf. apply keeps_writes. intros w. apply Hf. Qed.

Lemma keeps_execute_checked (I : db → Prop) f :
  (∀ d d', I d → f d = Ok d' → I d') → keeps (on_db I) (execute_checked f).
Proof.
  intros Hf w a w' HI. unfold execute_checked.
  destruct (f (the_db w)) eqn:E; [|done]. intros [= <- <-]. by eapply Hf.
Qed.

Lemma keeps_now `{Host} (I : db → Prop) : keeps (on_db I) now.
Proof. by intros w a w' HI [= <- <-]. Qed.

Lemma keeps_uuid4 `{Host} (I : db → Prop) : keeps (on_db I) uuid4.
Proof. by intros w a w' HI [= <- <-]. Qed.

Lemma keeps_query {A} (I : db → Prop) (f : db → A) : keeps (on_db I) (query f).
Proof. apply keeps_reads. Qed.

#[export] Hint Resolve keeps_now keeps_uuid4 keeps_query : keeps.
