(* ===== verification/WorkPool.v ===== *)
(** * The shared work pool ([work_pool.py])

    Every method of [class WorkPool]: registration, submission with
    dependencies, periodic evaluations, atomic claims, readiness, eligibility,
    notices, completion and hand-off.  A method that writes is a transaction
    [M world]; a method that only reads is a function of the database. *)

From S2P Require Import Prelude Sql RsiStore.

(** The migration of [WorkPool.create]: a ready item has no current owner. *)
Definition create_pool (d : db) : db :=
  on_work (update_where
    (λ w, eqb (w_state w) Ready && bool_decide (is_Some (w_owner w)))
    (λ w, work_set (w_state w) None
            (match w_previous_owner w with Some p => Some p | None => w_owner w end)
            (w_result w) (w_reason w) w)) d.

Section Pool.
Context `{Host}.
(** [self.identity] *)
Variable me : identity.

(** [WHERE harness=? AND session=? AND id=?] *)
Definition is_work (name : string) (w : work_row) : bool :=
  eqb (w_id w) me && eqb (w_name w) name.
Definition is_member (agent : string) (m : member_row) : bool :=
  eqb (m_id m) me && eqb (m_agent m) agent.

(** [WorkPool.active] *)
Definition active : M world session_row :=
  found ← query (λ d, select_one (λ s, eqb (s_id s) me) (sessions d));
  match found with
  | None => raise (ValueError "This RSI session has not been activated")
  | Some task =>
      if negb (eqb (s_state task) SActive)
      then raise (ValueError ("RSI task is " +:+ session_state_name (s_state task)))
      else match s_deadline task with
           | None => mret task
           | Some deadline =>
               t ← now;
               if deadline <=? t then raise (ValueError "The task deadline has passed")
               else mret task
           end
  end.

Definition default_responsibility (r : role) (responsibility : string) : string :=
  if nonempty responsibility then responsibility
  else "Continue the complete " +:+ role_name r +:+ " responsibility for the active RSI task, using the latest retained configuration and recording every result and dependency.".

(** The [ON CONFLICT ... DO UPDATE] clause of [register]. *)
Definition reregister (r : role) (responsibility thread_id : string) (m : member_row) : member_row :=
  Member (m_id m) (m_agent m) r MWorking None None None
    (if nonempty responsibility then Some responsibility else m_responsibility m)
    (if nonempty thread_id then Some thread_id else m_thread_id m)
    (if eqb (m_dispatch_state m) DRunning then DRunning else DPending)
    None None None None None.

(** [WorkPool.register] *)
Definition register (agent : string) (r : role) (accepts : list kind)
    (responsibility thread_id : string) : M world unit :=
  _ ← active;
  let duty := default_responsibility r responsibility in
  execute (on_members (upsert member_key
    (Member me agent r MWorking None None None (Some duty) (Some thread_id) DPending
       None None None None None)
    (reregister r duty thread_id))) ;;
  execute (on_capabilities (delete_where (λ c, eqb c.1 me && eqb c.2.1 agent))) ;;
  execute (on_capabilities (λ t, t ++
    ((λ k, (me, (agent, k))) <$> distinct (CAPABILITIES r ++ accepts)))).

(** [INSERT INTO dependencies]: primary key, then the two foreign keys. *)
Definition insert_dependency (name dep : string) (d : db) : outcome db :=
  t ← insert_row id (me, (name, dep)) (dependencies d);
  if has_key work_key (me, name) (work d) && has_key work_key (me, dep) (work d)
  then Ok (on_dependencies (λ _, t) d) else Raise IntegrityError.

(** [WorkPool.submit] *)
Definition submit (name : string) (k : kind) (description agent topic environment : string)
    (after exclude : list string) : M world unit :=
  _ ← active;
  if mem name after then raise (ValueError "Work cannot depend on itself") else
  created ← now;
  execute_checked (λ d,
    t ← insert_row work_key
          (Work me name k description agent topic environment Ready None None None None created)
          (work d);
    Ok (on_work (λ _, t) d)) ;;
  for_each after (λ dep, execute_checked (insert_dependency name dep)) ;;
  for_each (distinct exclude) (λ who, execute_checked (λ d,
    t ← insert_row id (me, (name, who)) (exclusions d);
    Ok (on_exclusions (λ _, t) d))).

Definition is_scheduled_evaluation (w : work_row) : bool :=
  eqb (w_id w) me && eqb (w_kind w) KEvaluation && eqb (w_creator w) "evaluation_schedule".

(** [WorkPool.schedule] *)
Definition schedule (interval count : Z) : M world unit :=
  task ← active;
  if (interval <=? 0) || (count <? 0)
  then raise (ValueError "Evaluation interval must be positive and count must be nonnegative")
  else match s_started task with
       | None => raise (ValueError "Original task start is unknown; activate with --started-at before scheduling")
       | Some started =>
           when (count =? 0) (execute (on_work (update_where
             (λ w, is_scheduled_evaluation w && eqb (w_state w) Ready)
             (λ w, work_set Cancelled (w_owner w) (w_previous_owner w) (w_result w)
                     (Some "Evaluator count is zero") w)))) ;;
           execute (on_schedules (upsert e_id
             (Schedule me interval count (started + interval))
             (λ e, Schedule (e_id e) interval count (e_next_due e))))
       end.

(** The identifiers [due_evaluations] tries: [evaluation:due:index], then with
    [:retry1], [:retry2], ... *)
Definition evaluation_id (due index : Z) (retry : nat) : string :=
  "evaluation:" +:+ show_time due +:+ ":" +:+ str_Z index +:+
  match retry with O => "" | _ => ":retry" +:+ str_Z (Z.of_nat retry) end.

(** The [while] loop: the first identifier not taken.  [fuel] bounds the number
    of taken identifiers it may skip. *)
Fixpoint free_evaluation_id (fuel : nat) (due index : Z) (retry : nat) (t : list work_row)
    : option string :=
  let name := evaluation_id due index retry in
  if existsb (is_work name) t then
    match fuel with
    | O => None
    | S fuel => free_evaluation_id fuel due index (S retry) t
    end
  else Some name.

Definition evaluation_description (task : string) : string :=
  "Create one fresh Evaluator without inherited history for " +:+ task +:+ ". Give only the task, Evaluator role and working directory. Deliver findings directly to their owners; finish this item with the completed assessment's path, not the child's dispatch notice.".

(** [WorkPool.due_evaluations] *)
Definition due_evaluations (task : session_row) : M world unit :=
  found ← query (λ d, select_one (λ e, eqb (e_id e) me) (schedules d));
  match found with
  | None => mret tt
  | Some sch =>
      if e_count sch =? 0 then mret tt else
      t ← now;
      if t <? e_next_due sch then mret tt else
      pending ← query (λ d, existsb (λ w, is_scheduled_evaluation w &&
                  (eqb (w_state w) Ready || eqb (w_state w) Active)) (work d));
      if (pending : bool) then mret tt else
      let due := e_next_due sch in
      for_each (seqZ 0 (e_count sch)) (λ index,
        free ← query (λ d, free_evaluation_id (S (length (work d))) due index 0 (work d));
        match free with
        | None => raise (RuntimeError "no free evaluation identifier")
        | Some name =>
            submit name KEvaluation (evaluation_description (s_task task))
              "evaluation_schedule" "" "" [] []
        end) ;;
      t' ← now;
      let elapsed := (t' - due) `div` e_interval sch + 1 in
      execute (on_schedules (update_where (λ e, eqb (e_id e) me)
        (λ e, Schedule (e_id e) (e_interval e) (e_count e) (due + elapsed * e_interval sch))))
  end.

(** ** Readiness and eligibility *)

(** Some dependency of [w] is not done. *)
Definition blocked (d : db) (w : work_row) : bool :=
  existsb (λ l, eqb l.1 (w_id w) && eqb l.2.1 (w_name w) &&
    existsb (λ p, eqb (w_id p) l.1 && eqb (w_name p) l.2.2 && negb (eqb (w_state p) Done))
      (work d)) (dependencies d).

(** [WorkPool.ready] *)
Definition ready (d : db) : list work_row :=
  sort_by (λ w, (w_created w, w_name w))
    (keep (λ w, eqb (w_id w) me && eqb (w_state w) Ready && negb (blocked d w)) (work d)).

(** The recursive [ancestry] query of [contributors]: rounds of the join until
    every dependency edge has had a chance to fire. *)
Definition direct_dependencies (d : db) (ids : list string) : list string :=
  (λ l, l.2.2) <$> keep (λ l, eqb l.1 me && mem l.2.1 ids) (dependencies d).
Definition ancestry_round (d : db) (ids : list string) : list string :=
  ids ++ distinct_from ids (direct_dependencies d ids).
Definition ancestry (d : db) (name : string) : list string :=
  Nat.iter (length (dependencies d)) (ancestry_round d) [name].

(** [WorkPool.contributors] *)
Definition contributors (d : db) (name : string) : list string :=
  let ids := ancestry d name in
  (λ p, p.2.2) <$> keep (λ p, eqb p.1 me && mem p.2.1 ids &&
    existsb (λ w, eqb (w_id w) p.1 && eqb (w_name w) p.2.1 &&
      (eqb (w_kind w) KWorker || eqb (w_kind w) KExperimenter)) (work d)) (participants d).

(** [WorkPool.eligible] *)
Definition eligible (d : db) (w : work_row) (agent : string) (caps : list kind) : bool :=
  let excluded := existsb (λ l, eqb l (me, (w_name w, agent))) (exclusions d) in
  mem (w_kind w) caps && negb excluded &&
  (negb (eqb (w_kind w) KReview) || negb (mem agent (contributors d (w_name w)))).

(** [SELECT kind FROM capabilities WHERE ... agent=?] *)
Definition capable (d : db) (agent : string) : list kind :=
  (λ c, c.2.2) <$> keep (λ c, eqb c.1 me && eqb c.2.1 agent) (capabilities d).

(** The work rows [agent] takes part in. *)
Definition participates (d : db) (agent : string) (w : work_row) : bool :=
  eqb (w_id w) me && existsb (λ l, eqb l (me, (w_name w, agent))) (participants d).
Definition involvement (d : db) (agent : string) : list work_row :=
  keep (participates d agent) (work d).

Definition topics_of (l : list work_row) : list string := keep nonempty (w_topic <$> l).
Definition environments_of (l : list work_row) : list string := keep nonempty (w_environment <$> l).

(** [SELECT MAX(w.created)] over the agent's work *)
Definition frontier (d : db) (agent : string) : option Z :=
  max_by id (w_created <$> involvement d agent).

(** [older or eligible] *)
Definition claim_candidates (d : db) (agent : string) (caps : list kind) : list work_row :=
  let ok := keep (λ w, eligible d w agent caps) (ready d) in
  let older := keep (λ w, match frontier d agent with
                          | Some f => w_created w <? f
                          | None => false
                          end) ok in
  match older with [] => ok | _ => older end.

Definition claim_key (topics environments : list string) (w : work_row)
    : bool * bool * Z * string :=
  (negb (mem (w_topic w) topics), negb (mem (w_environment w) environments),
   w_created w, w_name w).

(** The row [claim] selects, if any. *)
Definition claim_choice (d : db) (agent : string) (caps : list kind) : option work_row :=
  let history := keep (λ w, eqb (w_state w) Active || eqb (w_state w) Done)
                   (involvement d agent) in
  min_by (claim_key (topics_of history) (environments_of history))
    (claim_candidates d agent caps).

Definition activate_work (agent name : string) : db → db :=
  on_work (update_where (λ w, is_work name w && eqb (w_state w) Ready)
    (λ w, work_set Active (Some agent) (w_previous_owner w) (w_result w) (w_reason w) w)).

(** [claim]'s answer: the claimed row and the results of its dependencies. *)
Definition dependency_results (d : db) (name : string) : list (string * option string) :=
  l ← keep (λ l, eqb l.1 me && eqb l.2.1 name) (dependencies d);
  (λ p, (w_name p, w_result p)) <$> keep (is_work l.2.2) (work d).

(** [WorkPool.claim] *)
Definition claim (agent : string)
    : M world (option (work_row * list (string * option string))) :=
  task ← active;
  due_evaluations task ;;
  caps ← query (λ d, capable d agent);
  if bool_decide (caps = []) then raise (ValueError "Register this member before claiming work") else
  member ← query (λ d, select_one (is_member agent) (members d));
  if negb (match member with Some m => eqb (m_state m) MWorking | None => false end)
  then raise (ValueError "Register or resume this member before claiming work") else
  choice ← query (λ d, claim_choice d agent caps);
  match choice with
  | None => mret None
  | Some row =>
      execute (activate_work agent (w_name row)) ;;
      execute (on_participants (insert_ignore id (me, (w_name row, agent)))) ;;
      execute (on_members (update_where (is_member agent)
        (λ m, member_lifecycle MWorking (m_next_step m) (m_reason m) (m_notice m) m))) ;;
      deps ← query (λ d, dependency_results d (w_name row));
      mret (Some (work_set Active (Some agent) (w_previous_owner row) (w_result row)
                    (w_reason row) row, deps))
  end.

(** ** Notices *)

(** What [notifications] knows of a candidate member. *)
Record candidate := Candidate {
  c_agent : string;
  c_state : member_state;
  c_caps : list kind;
  c_topics : list string;
  c_environments : list string;
  c_active : Z;
}.

Definition owns_active (agent : string) (w : work_row) : bool :=
  eqb (w_id w) me && eqb (w_owner w) (Some agent) && eqb (w_state w) Active.

Definition candidate_of (d : db) (m : member_row) : candidate :=
  let history := involvement d (m_agent m) in
  Candidate (m_agent m) (m_state m) (capable d (m_agent m)) (topics_of history)
    (environments_of history) (Z.of_nat (rowcount (owns_active (m_agent m)) (work d))).

Definition candidates (d : db) (sender : string) : list candidate :=
  candidate_of d <$> keep (λ m, eqb (m_id m) me &&
    (eqb (m_state m) MWorking || eqb (m_state m) MWaiting) && negb (eqb (m_agent m) sender))
    (members d).

Definition notice_key (w : work_row) (c : candidate) : bool * bool * bool * bool * Z * string :=
  (negb (eqb (w_creator w) (c_agent c)), negb (eqb (c_state c) MWaiting),
   negb (mem (w_topic w) (c_topics c)), negb (mem (w_environment w) (c_environments c)),
   c_active c, c_agent c).

(** The members told about [w]: the best placed one, and an idle alternative. *)
Definition recipients (d : db) (cs : list candidate) (w : work_row) : list string :=
  let ok := keep (λ c, eligible d w (c_agent c) (c_caps c) &&
                   (negb (eqb (c_state c) MWaiting) || eqb (w_creator w) (c_agent c))) cs in
  match sort_by (notice_key w) ok with
  | [] => []
  | first :: _ as ordered =>
      let idle := head (keep (λ c, eqb (c_state c) MWorking && (c_active c =? 0)) ordered) in
      c_agent first ::
      match idle with
      | Some c => if eqb (c_agent c) (c_agent first) then [] else [c_agent c]
      | None => []
      end
  end.

(** [routed.setdefault(agent, []).append(work)] *)
Fixpoint route (agent name : string) (r : list (string * list string))
    : list (string * list string) :=
  match r with
  | [] => [(agent, [name])]
  | (a, l) :: r => if eqb a agent then (a, l ++ [name]) :: r else (a, l) :: route agent name r
  end.

(** [WorkPool.notifications] *)
Definition notifications (d : db) (work_ids : list string) (sender : string)
    : list (string * list string) :=
  let cs := candidates d sender in
  foldl (λ routed w,
    if mem (w_name w) work_ids
    then foldl (λ r agent, route agent (w_name w) r) routed (recipients d cs w)
    else routed) [] (ready d).

(** [WorkPool.dependants] *)
Definition dependants (d : db) (name : string) : list string :=
  (λ l, l.2.1) <$> keep (λ l, eqb l.1 me && eqb l.2.2 name) (dependencies d).

(** ** Completion and hand-off *)

Definition owned_active (name agent : string) (w : work_row) : bool :=
  is_work name w && eqb (w_state w) Active && eqb (w_owner w) (Some agent).

(** [WorkPool.finish] *)
Definition finish (name agent result : string) : M world unit :=
  match resolve_strict result with
  | None => raise (OSError result)
  | Some path =>
      count ← query (λ d, rowcount (owned_active name agent) (work d));
      execute (on_work (update_where (owned_active name agent)
        (λ w, work_set Done (w_owner w) (w_previous_owner w) (Some path) None w))) ;;
      if bool_decide (count = 0%nat)
      then raise (ValueError "Only the active owner can finish this work") else mret tt
  end.

(** [from_agent or agent] *)
Definition handoff_from (agent : string) (from_agent : option string) : string :=
  match from_agent with
  | Some a => if nonempty a then a else agent
  | None => agent
  end.

(** [WorkPool.handoff] *)
Definition handoff (name agent reason : string) (from_agent : option string) : M world unit :=
  let previous := handoff_from agent from_agent in
  count ← query (λ d, rowcount (owned_active name previous) (work d));
  execute (on_work (update_where (owned_active name previous)
    (λ w, work_set Ready None (Some previous) (w_result w) (Some reason) w))) ;;
  if bool_decide (count = 0%nat)
  then raise (ValueError "The expected active owner no longer owns this work") else mret tt.

(** [WorkPool.idle_action]: the [action] field, the task and the instruction. *)
Definition idle_action (agent : string) : M world (string * string * string) :=
  task ← active;
  member ← query (λ d, select_one (is_member agent) (members d));
  let name := match member with Some m => role_name (m_role m) | None => "member" end in
  mret ("research", s_task task,
    "Continue your " +:+ name +:+ " responsibility from the latest retained configuration and unresolved task questions. Claim eligible ready work first; if none is ready, choose the next substantive investigation or validation within the task scope, record the evidence, and submit the next implementation or experiment stage when needed. An empty queue is not a dependency. Release as waiting only for a concrete unavailable prerequisite, or done only when this responsibility is actually answered.").

(** [WorkPool.item] and [WorkPool.status] *)
Definition item (d : db) (name : string) : option work_row := select_one (is_work name) (work d).
Definition pool_status (d : db) : list work_row :=
  sort_by (λ w, (w_created w, w_name w)) (keep (λ w, eqb (w_id w) me) (work d)).
End Pool.
