(* ===== verification/WorkPoolProofs.v ===== *)
(** * Correctness of the work pool

    The recursive ancestry query computes the transitive closure of the
    dependencies; the pool's invariant (unique work, owners exactly on claimed
    work, dependencies that point backwards, finished dependencies under claimed
    work, independent reviewers) is kept by every operation; what a claim hands
    out; the evaluation timer; compare-and-set completion and hand-off. *)

From S2P Require Import Prelude Sql RsiStore WorkPool.

(** ** The ancestry query *)

Section Ancestry.
Variable me : identity.
Variable d : db.

(** [a] depends directly on [b]. *)
Definition depends (a b : string) : Prop := (me, (a, b)) ∈ dependencies d.

Lemma elem_of_direct_dependencies ids b :
  b ∈ direct_dependencies me d ids ↔ ∃ a, a ∈ ids ∧ depends a b.
Proof.
  unfold direct_dependencies, depends. rewrite list_elem_of_fmap. split.
  - intros ([i [a b']] & -> & Hl). reflect_in Hl. simpl in *.
    destruct Hl as [[-> Ha] Hl]. eauto.
  - intros (a & Ha & Hd). exists (me, (a, b)). split; [done|].
    reflect_goal. simpl. auto.
Qed.

Lemma elem_of_ancestry_round ids b :
  b ∈ ancestry_round me d ids ↔ b ∈ ids ∨ ∃ a, a ∈ ids ∧ depends a b.
Proof.
  unfold ancestry_round.
  rewrite elem_of_app, elem_of_distinct_from, elem_of_direct_dependencies.
  destruct (decide (b ∈ ids)); naive_solver.
Qed.

(** The set of identifiers is closed under the dependencies. *)
Definition closed (ids : list string) : Prop :=
  ∀ a b, a ∈ ids → depends a b → b ∈ ids.

Lemma ancestry_round_closed ids : closed ids → ancestry_round me d ids = ids.
Proof.
  intros Hc. unfold ancestry_round.
  assert (distinct_from ids (direct_dependencies me d ids) = []) as ->.
  { destruct (distinct_from _ _) as [|b l] eqn:E; [done|].
    assert (b ∈ distinct_from ids (direct_dependencies me d ids)) as Hb
      by (rewrite E; set_solver).
    rewrite elem_of_distinct_from, elem_of_direct_dependencies in Hb. naive_solver. }
  by rewrite app_nil_r.
Qed.

Lemma ancestry_round_grows ids :
  closed ids ∨ (S (length ids) ≤ length (ancestry_round me d ids))%nat.
Proof.
  unfold ancestry_round. rewrite length_app.
  destruct (distinct_from _ _) as [|b l] eqn:E; simpl; [left|right; lia].
  intros a b Ha Hd. destruct (decide (b ∈ ids)) as [|Hb]; [done|].
  assert (b ∈ distinct_from ids (direct_dependencies me d ids)) as Hin.
  { rewrite elem_of_distinct_from, elem_of_direct_dependencies. eauto. }
  rewrite E in Hin. set_solver.
Qed.

Lemma NoDup_ancestry_round ids : NoDup ids → NoDup (ancestry_round me d ids).
Proof.
  intros Hnd. unfold ancestry_round. apply NoDup_app. split_and!; [done| |].
  - intros x Hx. rewrite elem_of_distinct_from. naive_solver.
  - apply NoDup_distinct_from.
Qed.

Lemma iter_round_facts n name :
  let ids := Nat.iter n (ancestry_round me d) [name] in
  NoDup ids ∧ (∀ b, b ∈ ids → b = name ∨ b ∈ (λ l, l.2.2) <$> dependencies d) ∧
  (closed ids ∨ (S n ≤ length ids)%nat).
Proof.
  induction n as [|n (Hnd & Hsub & Hc)]; simpl.
  - split_and!; [by apply NoDup_singleton| |right; lia].
    intros b ->%list_elem_of_singleton. auto.
  - split_and!.
    + by apply NoDup_ancestry_round.
    + intros b [Hb|(a & _ & Hd)]%elem_of_ancestry_round; [auto|]. right.
      apply list_elem_of_fmap. exists (me, (a, b)). auto.
    + destruct Hc as [Hc|Hlen].
      { left. by rewrite ancestry_round_closed. }
      destruct (ancestry_round_grows (Nat.iter n (ancestry_round me d) [name])) as [Hc|Hg].
      { left. by rewrite ancestry_round_closed. }
      right. lia.
Qed.

Lemma ancestry_closed name : closed (ancestry me d name).
Proof.
  unfold ancestry.
  destruct (iter_round_facts (length (dependencies d)) name) as (Hnd & Hsub & [Hc|Hlen]);
    [done|]. set (ids := Nat.iter _ _ _) in *.
  destruct (ancestry_round_grows ids) as [Hc|Hg]; [done|]. exfalso.
  assert (length (ancestry_round me d ids)
          ≤ length (name :: ((λ l, l.2.2) <$> dependencies d)))%nat as Hle.
  { apply submseteq_length, NoDup_submseteq; [by apply NoDup_ancestry_round|].
    intros b [Hb|(a & _ & Hd)]%elem_of_ancestry_round.
    - destruct (Hsub b Hb) as [->|]; set_solver.
    - right. apply list_elem_of_fmap. exists (me, (a, b)). auto. }
  simpl in Hle. rewrite length_fmap in Hle. lia.
Qed.

Lemma iter_round_sound n name b :
  b ∈ Nat.iter n (ancestry_round me d) [name] → rtc depends name b.
Proof.
  revert b. induction n as [|n IH]; intros b; simpl.
  - intros ->%list_elem_of_singleton. done.
  - intros [Hb|(a & Ha & Hd)]%elem_of_ancestry_round; [auto|].
    eapply rtc_r; [by apply IH|done].
Qed.

Lemma iter_round_start n name : name ∈ Nat.iter n (ancestry_round me d) [name].
Proof.
  induction n as [|n IH]; simpl; [set_solver|]. apply elem_of_ancestry_round. auto.
Qed.

(** The bounded rounds compute exactly the reflexive transitive closure. *)
Lemma elem_of_ancestry name b : b ∈ ancestry me d name ↔ rtc depends name b.
Proof.
  split; [apply iter_round_sound|]. intros Hr.
  assert (∀ a, a ∈ ancestry me d name → rtc depends a b → b ∈ ancestry me d name) as Hgen.
  { intros a Ha Hab. clear Hr. induction Hab as [|a c b Hac Hcb IH]; [done|].
    apply IH. by eapply ancestry_closed. }
  eapply Hgen; [|done]. apply iter_round_start.
Qed.

Lemma elem_of_contributors name a :
  a ∈ contributors me d name ↔
    ∃ b w, rtc depends name b ∧ (me, (b, a)) ∈ participants d ∧ w ∈ work d ∧
           w_id w = me ∧ w_name w = b ∧ (w_kind w = KWorker ∨ w_kind w = KExperimenter).
Proof.
  unfold contributors. rewrite list_elem_of_fmap. split.
  - intros ([i [b a']] & -> & Hp). reflect_in Hp. simpl in *.
    destruct Hp as [[[-> Hb] (w & Hw & Hk)] Hp]. reflect_in Hk.
    exists b, w. rewrite elem_of_ancestry in Hb. naive_solver.
  - intros (b & w & Hb & Hp & Hw & Hid & Hnm & Hk).
    exists (me, (b, a)). split; [done|]. reflect_goal. simpl. split; [|done].
    split; [split; [done|by apply elem_of_ancestry]|].
    exists w. split; [done|]. reflect_goal. naive_solver.
Qed.
End Ancestry.

(** ** The pool invariant *)

Definition claimed (w : work_row) : Prop := w_state w = Active ∨ w_state w = Done.

(** Owners sit exactly on claimed work, and are recorded as participants. *)
Definition owner_ok (parts : list link_row) (w : work_row) : Prop :=
  match w_state w with
  | Ready | Cancelled => w_owner w = None
  | Active => ∃ a, w_owner w = Some a ∧ (w_id w, (w_name w, a)) ∈ parts
  | Done => (∃ a, w_owner w = Some a ∧ (w_id w, (w_name w, a)) ∈ parts) ∧ is_Some (w_result w)
  end.

(** Every direct dependency of [w] is done. *)
Definition deps_done (d : db) (w : work_row) : Prop :=
  ∀ p, p ∈ work d → w_id p = w_id w →
    depends (w_id w) d (w_name w) (w_name p) → w_state p = Done.

Record pool_wf (d : db) : Prop := {
  pool_unique : NoDup (keys work_key (work d));
  pool_owner : ∀ w, w ∈ work d → owner_ok (participants d) w;
  (* a dependency points to work that was submitted earlier *)
  pool_backward : ∀ l, l ∈ dependencies d → ∃ i j,
    keys work_key (work d) !! i = Some (l.1, l.2.1) ∧
    keys work_key (work d) !! j = Some (l.1, l.2.2) ∧ (j < i)%nat;
  pool_deps : ∀ w, w ∈ work d → claimed w → deps_done d w;
  (* whoever reviews did not contribute to what is reviewed *)
  pool_review : ∀ w a, w ∈ work d → claimed w → w_kind w = KReview →
    w_owner w = Some a → a ∉ contributors (w_id w) d (w_name w);
}.

Lemma pool_wf_empty : pool_wf empty_db.
Proof. split; simpl; try (intros *; by rewrite ?elem_of_nil). constructor. Qed.

Lemma key_row d i k : keys work_key (work d) !! i = Some k → ∃ w, w ∈ work d ∧ work_key w = k.
Proof.
  unfold keys. rewrite list_lookup_fmap. intros (w & Hw & ->)%fmap_Some.
  exists w. split; [by eapply list_elem_of_lookup_2|done].
Qed.

(** The target of a dependency is a row. *)
Lemma dependency_target d me a b :
  pool_wf d → depends me d a b → ∃ w, w ∈ work d ∧ w_id w = me ∧ w_name w = b.
Proof.
  intros Hwf Hd. destruct (pool_backward _ Hwf _ Hd) as (i & j & _ & Hj & _).
  apply key_row in Hj as (w & Hw & [= ? ?]). eauto.
Qed.

(** Everything below claimed work is claimed. *)
Lemma ancestor_claimed_from d me a b :
  pool_wf d → rtc (depends me d) a b →
  ∀ w wb, w ∈ work d → w_id w = me → w_name w = a → claimed w →
          wb ∈ work d → w_id wb = me → w_name wb = b → claimed wb.
Proof.
  intros Hwf. induction 1 as [a|a c b Hac Hcb IH]; intros w wb Hw Hid Hn Hc Hwb Hidb Hnb.
  - assert (wb = w) as ->; [|done].
    apply (unique_row work_key (work d)); [apply Hwf|done|done|].
    unfold work_key. congruence.
  - destruct (dependency_target _ _ _ _ Hwf Hac) as (wc & Hwc & Hidc & Hnc).
    apply (IH wc wb); try done. right. subst.
    apply (pool_deps d Hwf w); try done; congruence.
Qed.

(** Everything strictly below work whose dependencies are done is claimed. *)
Lemma ancestor_claimed d w b wb :
  pool_wf d → w ∈ work d → deps_done d w →
  rtc (depends (w_id w) d) (w_name w) b →
  wb ∈ work d → w_id wb = w_id w → w_name wb = b → wb = w ∨ claimed wb.
Proof.
  intros Hwf Hw Hc Hr Hwb Hid Hnb. inversion Hr as [Heq|? c ? Hac Hcb]; subst.
  - left. apply (unique_row work_key (work d)); [apply Hwf|done|done|].
    unfold work_key. congruence.
  - right. destruct (dependency_target _ _ _ _ Hwf Hac) as (wc & Hwc & Hidc & Hnc).
    eapply (ancestor_claimed_from d (w_id w) c (w_name wb)); try done.
    right. apply (Hc wc); try done; congruence.
Qed.

(** *** Preservation by updates of work rows

    One lemma covers claims, completion, hand-off, re-description and
    cancellation: rows that are done never change, a row becomes claimed only
    when its dependencies are done and its new owner may review it, and new
    participants appear only on work that was not claimed. *)
Section UpdateWork.
Variables (d : db) (p : work_row → bool) (f : work_row → work_row) (parts : list link_row).

Definition updated : db := on_participants (λ _, parts) (on_work (update_where p f) d).

Hypothesis Hwf : pool_wf d.
Hypothesis Hkey : ∀ w, work_key (f w) = work_key w.
Hypothesis Hparts : ∀ l, l ∈ participants d → l ∈ parts.
Hypothesis Howner : ∀ w, w ∈ work d → p w = true → owner_ok parts (f w).
Hypothesis Hdone : ∀ w, w ∈ work d → p w = true → w_state w ≠ Done.
Hypothesis Hnew : ∀ w, w ∈ work d → p w = true → claimed (f w) →
  deps_done d w ∧
  (w_kind (f w) = KReview → ∀ a, w_owner (f w) = Some a → a ∉ contributors (w_id w) d (w_name w)).
Hypothesis Hkind : ∀ w, w ∈ work d → p w = true → claimed w → w_kind (f w) = w_kind w.
Hypothesis Hfresh : ∀ l, l ∈ parts → l ∈ participants d ∨
  ∃ w, w ∈ work d ∧ p w = true ∧ ¬ claimed w ∧ l.1 = w_id w ∧ l.2.1 = w_name w.

Local Lemma updated_keys : keys work_key (work updated) = keys work_key (work d).
Proof using Hkey. apply keys_update_where. auto. Qed.

(** Where an updated row comes from. *)
Local Lemma updated_origin w : w ∈ work updated → ∃ w0,
  w0 ∈ work d ∧ w_id w = w_id w0 ∧ w_name w = w_name w0 ∧
  ((p w0 = true ∧ w = f w0) ∨ (p w0 = false ∧ w = w0)).
Proof using Hkey.
  simpl. rewrite elem_of_update_where. intros [(w0 & H0 & Hp & ->)|[Hw Hp]].
  - exists w0. pose proof (Hkey w0) as Hk. unfold work_key in Hk. injection Hk as ? ?.
    split_and!; auto.
  - exists w. split_and!; auto.
Qed.

Local Lemma updated_done w : w ∈ work d → w_state w = Done → w ∈ work updated.
Proof using Hdone.
  intros Hw Hs. simpl. rewrite elem_of_update_where. right. split; [done|].
  destruct (p w) eqn:E; [|done]. exfalso. by eapply Hdone.
Qed.

Local Lemma updated_deps w w0 :
  w0 ∈ work d → w_id w = w_id w0 → w_name w = w_name w0 →
  deps_done d w0 → deps_done updated w.
Proof using Hkey Hdone.
  intros Hw0 Hid Hn Hd q Hq Hidq Hdep.
  destruct (updated_origin q Hq) as (q0 & Hq0 & Hidq0 & Hnq0 & Hcase).
  assert (w_state q0 = Done) as Hs.
  { apply Hd; [done|congruence|]. unfold depends in *. simpl in Hdep. congruence. }
  destruct Hcase as [[Hp ->]|[_ ->]]; [|done]. exfalso. by eapply Hdone.
Qed.

Local Lemma updated_contributors w w0 a :
  w0 ∈ work d → w_id w = w_id w0 → w_name w = w_name w0 → w ∈ work updated →
  w_kind w = KReview → deps_done d w0 →
  a ∈ contributors (w_id w) updated (w_name w) → a ∈ contributors (w_id w0) d (w_name w0).
Proof using Hwf Hkey Hkind Hfresh.
  intros Hw0 Hid Hn Hw Hk Hd Ha. rewrite Hid, Hn in Ha.
  apply elem_of_contributors in Ha as (b & v & Hr & Hp & Hv & Hidv & Hnv & Hkv).
  destruct (updated_origin v Hv) as (v0 & Hv0 & Hidv0 & Hnv0 & Hcase).
  simpl in Hr, Hp. change (rtc (depends (w_id w0) d) (w_name w0) b) in Hr.
  assert (v0 = w0 ∨ claimed v0) as [->|Hc].
  { eapply (ancestor_claimed d w0 b v0); try done; congruence. }
  - exfalso. assert (v = w) as ->; [|destruct Hkv; congruence].
    apply (unique_row work_key (work updated)); [|done|done|unfold work_key; congruence].
    rewrite updated_keys. apply Hwf.
  - apply elem_of_contributors. exists b, v0. split; [done|]. split.
    + destruct (Hfresh _ Hp) as [|(u & Hu & _ & Hnc & Hidu & Hnu)]; [done|].
      exfalso. apply Hnc. assert (u = v0) as ->; [|done].
      apply (unique_row work_key (work d)); [apply Hwf|done|done|].
      unfold work_key. simpl in *. congruence.
    + split_and!; [done|congruence|congruence|].
      destruct Hcase as [[Hpv ->]|[_ ->]]; [|done]. by rewrite (Hkind v0) in Hkv.
Qed.

Lemma pool_wf_update : pool_wf updated.
Proof using Hwf Hkey Hparts Howner Hdone Hnew Hkind Hfresh.
  assert (∀ w w0, w ∈ work updated → w0 ∈ work d → claimed w →
    ((p w0 = true ∧ w = f w0) ∨ (p w0 = false ∧ w = w0)) → deps_done d w0) as Hdeps.
  { intros w w0 Hw Hw0 Hc [[Hp ->]|[_ ->]]; [by eapply Hnew|by apply (pool_deps d Hwf)]. }
  split.
  - rewrite updated_keys. apply Hwf.
  - intros w Hw. destruct (updated_origin w Hw) as (w0 & Hw0 & Hid & Hn & [[Hp ->]|[_ ->]]).
    + by apply Howner.
    + pose proof (pool_owner d Hwf w0 Hw0) as Ho. unfold owner_ok in *.
      simpl. destruct (w_state w0); naive_solver.
  - intros l Hl. destruct (pool_backward d Hwf l Hl) as (i & j & ? & ? & ?).
    exists i, j. by rewrite updated_keys.
  - intros w Hw Hc. destruct (updated_origin w Hw) as (w0 & Hw0 & Hid & Hn & Hcase).
    eapply updated_deps; eauto.
  - intros w a Hw Hc Hk Ha. destruct (updated_origin w Hw) as (w0 & Hw0 & Hid & Hn & Hcase).
    pose proof (Hdeps w w0 Hw Hw0 Hc Hcase) as Hdd.
    intros Hin. eapply updated_contributors in Hin; eauto.
    destruct Hcase as [[Hp ->]|[_ ->]].
    + by eapply (Hnew w0).
    + by eapply (pool_review d Hwf w0).
Qed.
End UpdateWork.

(** *** Preservation by submission *)

Lemma pool_wf_append d row t :
  pool_wf d → insert_row work_key row (work d) = Ok t →
  w_state row = Ready → w_owner row = None → pool_wf (on_work (λ _, t) d).
Proof.
  intros Hwf Hins Hs Ho. rewrite insert_row_Ok in Hins. destruct Hins as [Hk ->].
  assert (∀ w, w ∈ work d ++ [row] → claimed w → w ∈ work d) as Hold.
  { intros w [Hw| ->%list_elem_of_singleton]%elem_of_app [Hc|Hc]; try done; congruence. }
  assert (∀ me a b, depends me d a b → (me, b) ≠ work_key row) as Htgt.
  { intros me a b Hd Heq. apply Hk. destruct (dependency_target _ _ _ _ Hwf Hd) as (v & Hv & <- & <-).
    rewrite <-Heq. unfold keys. apply list_elem_of_fmap. by exists v. }
  split; simpl.
  - apply NoDup_keys_snoc; [apply Hwf|done].
  - intros w [Hw| ->%list_elem_of_singleton]%elem_of_app; [by apply (pool_owner d Hwf)|].
    unfold owner_ok. by rewrite Hs.
  - intros l Hl. destruct (pool_backward d Hwf l Hl) as (i & j & Hi & Hj & ?).
    exists i, j. rewrite keys_app. split_and!; [| |done]; by apply lookup_app_l_Some.
  - intros w Hw Hc q Hq Hid Hd. pose proof (Hold w Hw Hc) as Hw0.
    apply elem_of_app in Hq as [Hq| ->%list_elem_of_singleton].
    + by apply (pool_deps d Hwf w Hw0 Hc).
    + exfalso. eapply Htgt; [exact Hd|]. unfold work_key. congruence.
  - intros w a Hw Hc Hkd Ha Hin. pose proof (Hold w Hw Hc) as Hw0.
    apply (pool_review d Hwf w a Hw0 Hc Hkd Ha).
    apply elem_of_contributors in Hin as (b & v & Hr & Hp & Hv & Hid & Hn & Hkv).
    apply elem_of_contributors. exists b, v. simpl in Hv. split_and!; try done.
    apply elem_of_app in Hv as [Hv| ->%list_elem_of_singleton]; [done|]. exfalso.
    change (rtc (depends (w_id w) d) (w_name w) b) in Hr.
    apply rtc_inv_r in Hr as [Heq|(c & _ & Hd)].
    + apply Hk. unfold keys. apply list_elem_of_fmap. exists w. unfold work_key. split; [congruence|done].
    + eapply Htgt; [exact Hd|]. unfold work_key. congruence.
Qed.

(** The work just submitted: the last row, still unclaimed. *)
Definition last_ready (me : identity) (name : string) (d : db) : Prop :=
  ∃ t r, work d = t ++ [r] ∧ work_key r = (me, name) ∧ w_state r = Ready.

Lemma pool_wf_insert_dependency me name dep d d' :
  pool_wf d → last_ready me name d → dep ≠ name →
  insert_dependency me name dep d = Ok d' → pool_wf d'.
Proof.
  intros Hwf (t & r & Ht & Hkr & Hs) Hne. unfold insert_dependency.
  intros (deps & Hins & Hfk)%outcome_bind_Ok. rewrite insert_row_Ok in Hins.
  destruct Hins as [_ ->]. destruct (has_key _ (me, name) _ && _) eqn:E; [|done].
  injection Hfk as <-. rewrite andb_true_iff, !has_key_true in E. destruct E as [_ Hdep].
  assert (r ∈ work d) as Hrin by (rewrite Ht; set_solver).
  set (d' := on_dependencies _ _).
  assert (∀ w, w ∈ work d → claimed w → work_key w ≠ (me, name)) as Hunc.
  { intros w Hw Hc Hk. assert (w = r) as ->.
    { apply (unique_row work_key (work d)); [apply Hwf|done|done|congruence]. }
    destruct Hc; congruence. }
  assert (∀ i a b, depends i d' a b → depends i d a b ∨ (i = me ∧ a = name ∧ b = dep)) as Hedge.
  { intros i a b. unfold depends. simpl.
    rewrite elem_of_app, list_elem_of_singleton. naive_solver. }
  assert (∀ w b, w ∈ work d → claimed w → rtc (depends (w_id w) d') (w_name w) b →
    rtc (depends (w_id w) d) (w_name w) b) as Hrtc.
  { intros w b Hw Hc. revert b.
    apply (rtc_ind_r (rtc (depends (w_id w) d) (w_name w))); [done|]. intros b c Hb Hbc IH.
    apply Hedge in Hbc as [Hbc|(Hme & -> & ->)]; [by eapply rtc_r|]. exfalso.
    eapply (Hunc r); [done| |done].
    unfold work_key in Hkr. injection Hkr as Hidr Hnr.
    eapply (ancestor_claimed_from d (w_id w) (w_name w) name Hwf IH w r); try done; congruence. }
  split.
  - apply Hwf.
  - apply (pool_owner d Hwf).
  - intros l [Hl| ->%list_elem_of_singleton]%elem_of_app; [by apply (pool_backward d Hwf)|].
    simpl. unfold id; simpl. apply list_elem_of_lookup in Hdep as [j Hj].
    assert (keys work_key (work d) !! length t = Some (me, name)) as Hi.
    { rewrite Ht, keys_app. unfold keys. rewrite lookup_app_r; rewrite length_fmap; [|lia].
      rewrite Nat.sub_diag. simpl. by rewrite Hkr. }
    exists (length t), j. split_and!; [done|done|].
    pose proof (lookup_lt_Some _ _ _ Hj) as Hlt. unfold keys in Hlt.
    rewrite Ht, length_fmap, length_app in Hlt. simpl in Hlt.
    destruct (decide (j = length t)) as [->|]; [|lia]. exfalso. congruence.
  - intros w Hw Hc q Hq Hid Hd. apply Hedge in Hd as [Hd|(Hme & Hn & _)].
    + by apply (pool_deps d Hwf w Hw Hc).
    + exfalso. apply (Hunc w Hw Hc). unfold work_key. congruence.
  - intros w a Hw Hc Hk Ha Hin. apply (pool_review d Hwf w a Hw Hc Hk Ha).
    apply elem_of_contributors in Hin as (b & v & Hr & Hp & Hv & Hidv & Hnv & Hkv).
    apply elem_of_contributors. exists b, v. split_and!; try done. by apply Hrtc.
Qed.

(** *** Every operation keeps the invariant *)

Section Operations.
Context `{Host}.
Variable me : identity.

Lemma keeps_active (I : db → Prop) : keeps (on_db I) (active me).
Proof. unfold active. keeps_auto. Qed.
#[local] Hint Resolve keeps_active : keeps.

(** Tables outside the pool's own do not matter to its invariant. *)
Lemma pool_wf_frame d d' :
  work d' = work d → participants d' = participants d → dependencies d' = dependencies d →
  pool_wf d → pool_wf d'.
Proof.
  destruct d, d'; simpl. intros -> -> -> [H1 H2 H3 H4 H5]. by split.
Qed.

Lemma keeps_frame f :
  (∀ d, work (f d) = work d ∧ participants (f d) = participants d ∧
        dependencies (f d) = dependencies d) →
  keeps (on_db pool_wf) (execute f).
Proof. intros Hf. apply keeps_execute. intros d. destruct (Hf d) as (? & ? & ?). by apply pool_wf_frame. Qed.

Lemma register_keeps agent r accepts resp thread :
  keeps (on_db pool_wf) (register me agent r accepts resp thread).
Proof.
  unfold register. apply keeps_bind; [auto with keeps|]. intros _. cbv zeta.
  repeat (apply keeps_bind; [|intros _]); by apply keeps_frame.
Qed.

Lemma submit_keeps name k desc agent topic env after exclude :
  keeps (on_db pool_wf) (submit me name k desc agent topic env after exclude).
Proof.
  unfold submit. apply keeps_bind; [auto with keeps|]. intros _.
  destruct (mem name after) eqn:Hmem; [auto with keeps|]. rewrite mem_false in Hmem.
  apply keeps_bind; [auto with keeps|]. intros created.
  eapply triple_bind with
    (R := λ _, on_db (λ d, pool_wf d ∧ last_ready me name d)).
  - intros w [] w' Hwf. unfold execute_checked.
    destruct (insert_row _ _ _) as [t|] eqn:E; [|done]. intros [= <-].
    split; [eapply pool_wf_append; eauto|].
    rewrite insert_row_Ok in E. destruct E as [_ ->]. red. simpl. eauto.
  - intros _. eapply triple_bind with (R := λ _, on_db pool_wf).
    + eapply triple_consequence; [|done|].
      * apply keeps_for_each_in. intros dep Hdep. apply keeps_execute_checked.
        intros d d' [Hwf Hl] Hins. split.
        { eapply pool_wf_insert_dependency; eauto. by intros ->. }
        unfold insert_dependency in Hins. apply outcome_bind_Ok in Hins as (t & _ & Hins).
        case_match; [|done]. by injection Hins as <-.
      * by intros _ w [? _].
    + intros _. apply keeps_for_each. intros who. apply keeps_execute_checked.
      intros d d' Hwf (t & _ & [= <-])%outcome_bind_Ok. by apply (pool_wf_frame d).
Qed.
#[local] Hint Resolve register_keeps submit_keeps : keeps.

(** Edits of unclaimed work that leave it unclaimed. *)
Lemma pool_wf_edit_ready d p f :
  pool_wf d → (∀ w, work_key (f w) = work_key w) →
  (∀ w, p w = true → w_state w = Ready) →
  (∀ w, p w = true → w_owner w = None →
        (w_state (f w) = Ready ∨ w_state (f w) = Cancelled) ∧ w_owner (f w) = None) →
  pool_wf (on_work (update_where p f) d).
Proof.
  intros Hwf Hkey Hp Hf.
  apply (pool_wf_frame (updated d p f (participants d))); try done.
  assert (∀ w, w ∈ work d → p w = true →
    (w_state (f w) = Ready ∨ w_state (f w) = Cancelled) ∧ w_owner (f w) = None) as Hf'.
  { intros w Hw Hpw. apply Hf; [done|]. pose proof (pool_owner d Hwf w Hw) as Ho.
    unfold owner_ok in Ho. by rewrite (Hp w Hpw) in Ho. }
  apply pool_wf_update; try done; unfold claimed.
  - intros w Hw Hpw. destruct (Hf' w Hw Hpw) as [[E|E] Ho]; unfold owner_ok; by rewrite E.
  - intros w Hw Hpw. rewrite (Hp w Hpw). done.
  - intros w Hw Hpw Hc. destruct (Hf' w Hw Hpw) as [[E|E] _]; rewrite E in Hc; naive_solver.
  - intros w Hw Hpw Hc. rewrite (Hp w Hpw) in Hc. naive_solver.
  - auto.
Qed.

Lemma schedule_keeps interval count : keeps (on_db pool_wf) (schedule me interval count).
Proof.
  unfold schedule. keeps_auto.
  - apply keeps_execute. intros d Hwf. apply pool_wf_edit_ready; try done.
    + intros w Hw. reflect_in Hw. naive_solver.
    + intros w _ Ho. simpl. auto.
  - by apply keeps_frame.
Qed.

Lemma due_evaluations_keeps task : keeps (on_db pool_wf) (due_evaluations me task).
Proof. unfold due_evaluations. keeps_auto. by apply keeps_frame. Qed.
#[local] Hint Resolve due_evaluations_keeps : keeps.

Lemma elem_of_ready d w :
  w ∈ ready me d ↔ w ∈ work d ∧ w_id w = me ∧ w_state w = Ready ∧ deps_done d w.
Proof.
  unfold ready. rewrite elem_of_sort_by. reflect_goal.
  assert (blocked d w = false ↔ deps_done d w) as ->; [|naive_solver].
  unfold blocked, deps_done, depends. rewrite existsb_none. split.
  - intros Hb p Hp Hid Hd. specialize (Hb _ Hd). simpl in Hb. reflect_in Hb.
    destruct Hb as [[Hb|Hb]|Hb]; [done|done|]. specialize (Hb p Hp). reflect_in Hb. naive_solver.
  - intros Hd [i [a b]] Hl. simpl. apply andb_false_iff.
    destruct (decide (i = w_id w ∧ a = w_name w)) as [[-> ->]|Hne].
    + right. apply existsb_none. intros p Hp.
      destruct (decide (w_id p = w_id w ∧ w_name p = b)) as [[Hid <-]|Hne].
      * rewrite (Hd p Hp Hid Hl). by rewrite andb_false_r.
      * apply andb_false_iff. left. apply andb_false_iff. rewrite !eqb_false.
        destruct (decide (w_id p = w_id w)); naive_solver.
    + left. apply andb_false_iff. rewrite !eqb_false. destruct (decide (i = w_id w)); naive_solver.
Qed.

(** What [eligible] grants. *)
Lemma eligible_true d w agent caps :
  eligible me d w agent caps = true ↔
    w_kind w ∈ caps ∧ ((me, (w_name w, agent)) ∉ exclusions d) ∧
    (w_kind w = KReview → agent ∉ contributors me d (w_name w)).
Proof.
  unfold eligible. reflect_goal. split.
  - intros [[Hk Hx] Hr]. split_and!; [done| |naive_solver].
    intros Hin. specialize (Hx _ Hin). by rewrite eqb_refl in Hx.
  - intros (Hk & Hx & Hr). split_and!; [done| |].
    + intros l Hl. rewrite eqb_false. by intros ->.
    + destruct (decide (w_kind w = KReview)); [right; auto|left; done].
Qed.

Lemma claim_choice_ready d agent caps row :
  claim_choice me d agent caps = Some row → row ∈ ready me d ∧ eligible me d row agent caps = true.
Proof.
  unfold claim_choice. intros [Hin _]%min_by_Some. unfold claim_candidates in Hin.
  assert (row ∈ keep (λ w, eligible me d w agent caps) (ready me d)) as Hk.
  { case_match eqn:E; [done|]. rewrite <-E in Hin. rewrite elem_of_keep in Hin. naive_solver. }
  rewrite elem_of_keep in Hk. naive_solver.
Qed.

(** The writes of a successful claim. *)
Definition claim_effect (agent name : string) (d : db) : db :=
  on_members (update_where (is_member me agent)
      (λ m, member_lifecycle MWorking (m_next_step m) (m_reason m) (m_notice m) m))
    (on_participants (insert_ignore id (me, (name, agent))) (activate_work me agent name d)).

Lemma claim_effect_wf d agent caps row :
  pool_wf d → row ∈ ready me d → eligible me d row agent caps = true →
  pool_wf (claim_effect agent (w_name row) d).
Proof.
  intros Hwf Hrow Hel. apply elem_of_ready in Hrow as (Hin & Hid & Hst & Hdd).
  apply eligible_true in Hel as (_ & _ & Hrev).
  assert (∀ w, w ∈ work d → is_work me (w_name row) w && eqb (w_state w) Ready = true → w = row)
    as Huniq.
  { intros w Hw Hp. reflect_in Hp. unfold is_work in Hp. reflect_in Hp.
    apply (unique_row work_key (work d)); [apply Hwf|done|done|]. unfold work_key. destruct Hp as [[? ?] ?]. congruence. }
  assert (is_work me (w_name row) row && eqb (w_state row) Ready = true) as Hprow.
  { unfold is_work. reflect_goal. auto. }
  apply (pool_wf_frame (updated d (λ w, is_work me (w_name row) w && eqb (w_state w) Ready)
    (λ w, work_set Active (Some agent) (w_previous_owner w) (w_result w) (w_reason w) w)
    (insert_ignore id (me, (w_name row, agent)) (participants d)))); try done.
  assert (∀ l, l ∈ insert_ignore id (me, (w_name row, agent)) (participants d) ↔
    l ∈ participants d ∨ l = (me, (w_name row, agent))) as Hins.
  { intros l. unfold insert_ignore. destruct (has_key _ _ _) eqn:E.
    - apply has_key_true in E. unfold keys in E. apply list_elem_of_fmap in E as (l' & Hl' & ?).
      unfold id in Hl'. simpl in Hl'. split; [auto|]. intros [?|Heq]; [done|by rewrite Heq, Hl'].
    - rewrite elem_of_app, list_elem_of_singleton. done. }
  apply pool_wf_update; try done.
  - intros l Hl. apply Hins. auto.
  - intros w Hw Hp. rewrite (Huniq w Hw Hp). red. simpl. exists agent. split; [done|].
    apply Hins. right. by rewrite Hid.
  - intros w Hw Hp. rewrite (Huniq w Hw Hp), Hst. done.
  - intros w Hw Hp _. rewrite (Huniq w Hw Hp). simpl. split; [done|].
    intros Hk a [= <-]. rewrite Hid. auto.
  - intros l [Hl| ->]%Hins; [auto|]. right. exists row. simpl. split_and!; try done.
    unfold claimed. rewrite Hst. naive_solver.
Qed.

Lemma claim_keeps agent : keeps (on_db pool_wf) (claim me agent).
Proof.
  unfold claim. apply keeps_bind; [auto with keeps|]. intros task.
  apply keeps_bind; [auto with keeps|]. intros _.
  apply keeps_bind; [auto with keeps|]. intros caps.
  case_bool_decide; [auto with keeps|].
  apply keeps_bind; [auto with keeps|]. intros member.
  case_match; [auto with keeps|].
  eapply triple_bind with (R := λ choice, on_db (λ d, pool_wf d ∧ ∀ row, choice = Some row →
    row ∈ ready me d ∧ eligible me d row agent caps = true)).
  - apply triple_reads. intros w Hwf. split; [done|]. intros row. apply claim_choice_ready.
  - intros [row|]; [|apply triple_ret; by intros w [? _]].
    intros w a w' [Hwf Hrow] [= <- <-]. destruct (Hrow row eq_refl).
    by eapply claim_effect_wf.
Qed.

Lemma owned_active_true name agent w :
  owned_active me name agent w = true ↔
    w_id w = me ∧ w_name w = name ∧ w_state w = Active ∧ w_owner w = Some agent.
Proof. unfold owned_active, is_work. reflect_goal. naive_solver. Qed.

Lemma finish_keeps name agent result : keeps (on_db pool_wf) (finish me name agent result).
Proof.
  unfold finish. keeps_auto. apply keeps_execute. intros d Hwf.
  apply (pool_wf_frame (updated d (owned_active me name agent) (λ w, work_set Done (w_owner w)
    (w_previous_owner w) (Some s) None w) (participants d))); try done.
  apply pool_wf_update; try done; try (by auto).
  - intros w Hw (Hid & Hn & Hs & Ho)%owned_active_true.
    pose proof (pool_owner d Hwf w Hw) as Hok. red in Hok |- *. rewrite Hs in Hok. simpl. eauto.
  - intros w Hw (Hid & Hn & Hs & Ho)%owned_active_true. by rewrite Hs.
  - intros w Hw (Hid & Hn & Hs & Ho)%owned_active_true _.
    split; [apply (pool_deps d Hwf); [done|by left]|]. simpl.
    intros Hk who Hwho. apply (pool_review d Hwf); try done. by left.
Qed.

Lemma handoff_keeps name agent reason from :
  keeps (on_db pool_wf) (handoff me name agent reason from).
Proof.
  unfold handoff. cbv zeta. generalize (handoff_from agent from). intros previous.
  keeps_auto. apply keeps_execute. intros d Hwf.
  apply (pool_wf_frame (updated d (owned_active me name previous) (λ w, work_set Ready None
    (Some previous) (w_result w) (Some reason) w) (participants d))); try done.
  apply pool_wf_update; try done; try (by auto).
  - intros w Hw (Hid & Hn & Hs & Ho)%owned_active_true. by rewrite Hs.
  - intros w Hw _ [Hc|Hc]; by simpl in Hc.
Qed.

Lemma idle_action_keeps agent : keeps (on_db pool_wf) (idle_action me agent).
Proof. unfold idle_action. keeps_auto. Qed.
End Operations.

(** ** What the operations do *)

Section Claims.
Context `{Host}.
Variable me : identity.

(** The two reads that precede the choice, the choice, and the writes. *)
Lemma claim_inv agent w row deps w' :
  claim me agent w = Ok (Some (row, deps), w') →
  ∃ task w0 w1 row0,
    active me w = Ok (task, w0) ∧ due_evaluations me task w0 = Ok (tt, w1) ∧
    claim_choice me (the_db w1) agent (capable me (the_db w1) agent) = Some row0 ∧
    the_db w' = claim_effect me agent (w_name row0) (the_db w1) ∧
    row = work_set Active (Some agent) (w_previous_owner row0) (w_result row0) (w_reason row0) row0.
Proof.
  unfold claim, mbind, M_bind. destruct (active me w) as [[task w0]|] eqn:E0; [|done].
  destruct (due_evaluations me task w0) as [[[] w1]|] eqn:E1; [|done]. simpl.
  case_bool_decide; [done|]. case_match; [done|]. simpl.
  destruct (claim_choice _ _ _ _) as [row0|] eqn:E2; simpl; [|done].
  intros [= <- _ <-]. by exists task, w0, w1, row0.
Qed.

Lemma active_same_db w task w0 : active me w = Ok (task, w0) → the_db w0 = the_db w.
Proof. intros E. exact (keeps_active me (λ d, d = the_db w) w task w0 eq_refl E). Qed.

(** Work that is not ready is left alone by submission and by claims. *)
Lemma submit_keeps_row x name k desc agent topic env after exclude :
  keeps (on_db (λ d, x ∈ work d)) (submit me name k desc agent topic env after exclude).
Proof.
  unfold submit. apply keeps_bind; [apply keeps_active|]. intros _.
  case_match; [auto with keeps|]. apply keeps_bind; [auto with keeps|]. intros created.
  apply keeps_bind; [|intros _; apply keeps_bind; [|intros _]].
  - apply keeps_execute_checked. intros d d' Hx (t & Hins & [= <-])%outcome_bind_Ok.
    rewrite insert_row_Ok in Hins. destruct Hins as [_ ->]. simpl. set_solver.
  - apply keeps_for_each. intros dep. apply keeps_execute_checked. unfold insert_dependency.
    intros d d' Hx (t & _ & Hins)%outcome_bind_Ok. case_match; [|done]. by injection Hins as <-.
  - apply keeps_for_each. intros who. apply keeps_execute_checked.
    by intros d d' Hx (t & _ & [= <-])%outcome_bind_Ok.
Qed.

Lemma due_evaluations_keeps_row x task :
  keeps (on_db (λ d, x ∈ work d)) (due_evaluations me task).
Proof.
  unfold due_evaluations. pose proof submit_keeps_row. keeps_auto.
  by apply keeps_execute.
Qed.

(** C2: a claim hands out one item of this session that was ready, whose
    dependencies are all done, whose kind the member can do, from which it is
    not excluded and, for a review, to which it contributed nothing; the item
    becomes active and owned by the claimer, and every item that was not ready
    (in particular another member's active work) is left as it was. *)
Theorem claim_sound agent w row deps w' :
  pool_wf (the_db w) → claim me agent w = Ok (Some (row, deps), w') →
  let d' := the_db w' in
  row ∈ work d' ∧ w_id row = me ∧ w_state row = Active ∧ w_owner row = Some agent ∧
  deps_done d' row ∧ w_kind row ∈ capable me d' agent ∧
  ((me, (w_name row, agent)) ∉ exclusions d') ∧
  (w_kind row = KReview → agent ∉ contributors me d' (w_name row)) ∧
  (∀ x, x ∈ work (the_db w) → w_state x ≠ Ready → x ∈ work d').
Proof.
  intros Hwf Hc. pose proof (claim_keeps me agent w _ w' Hwf Hc) as Hwf'. simpl in Hwf'.
  apply claim_inv in Hc as (task & w0 & w1 & row0 & E0 & E1 & E2 & E3 & ->).
  apply active_same_db in E0.
  apply claim_choice_ready in E2 as [(Hin & Hid & Hst & Hdd)%elem_of_ready Hel].
  apply eligible_true in Hel as (Hk & Hx & Hrev). cbv zeta.
  assert (∀ x, x ∈ work (the_db w1) → w_state x ≠ Ready → x ∈ work (the_db w')) as Hkeep.
  { intros x Hx1 Hs. rewrite E3. simpl. rewrite elem_of_update_where. right. split; [done|].
    apply andb_false_iff. right. by apply eqb_false. }
  set (row := work_set _ _ _ _ _ row0).
  assert (row ∈ work (the_db w')) as Hrow.
  { rewrite E3. simpl. rewrite elem_of_update_where. left. exists row0. split_and!; [done| |done].
    unfold is_work. reflect_goal. auto. }
  split_and!; try done.
  - apply (pool_deps _ Hwf' row Hrow). by left.
  - rewrite E3. done.
  - rewrite E3. done.
  - intros Hkr. rewrite <-Hid.
    apply (pool_review _ Hwf' row agent Hrow); [by left|done|done].
  - intros x Hx0 Hs. apply Hkeep; [|done].
    eapply (due_evaluations_keeps_row x task w0); [|done]. red. by rewrite E0.
Qed.

(** ** Old work is not starved *)

(** The eligible ready items older than the newest work the member has taken. *)
Definition older_cohort (d : db) (agent : string) (caps : list kind) : list work_row :=
  keep (λ w, match frontier me d agent with Some f => w_created w <? f | None => false end)
    (keep (λ w, eligible me d w agent caps) (ready me d)).

Lemma claim_choice_cohort d agent caps row :
  claim_choice me d agent caps = Some row → older_cohort d agent caps ≠ [] →
  row ∈ older_cohort d agent caps.
Proof.
  unfold claim_choice. intros [Hin _]%min_by_Some Hne.
  unfold claim_candidates in Hin. fold (older_cohort d agent caps) in Hin.
  destruct (older_cohort d agent caps); [done|]. done.
Qed.

Lemma elem_of_involvement d agent w :
  w ∈ involvement me d agent ↔
    w ∈ work d ∧ w_id w = me ∧ (me, (w_name w, agent)) ∈ participants d.
Proof.
  unfold involvement, participates. reflect_goal. split.
  - intros [[Hid (l & Hl & He)] Hw]. reflect_in He. subst l. auto.
  - intros (Hw & Hid & Hl). split_and!; [done| |done]. eexists. split; [done|]. apply eqb_refl.
Qed.

Lemma frontier_Some d agent f :
  frontier me d agent = Some f ↔
    (∃ w, w ∈ involvement me d agent ∧ w_created w = f) ∧
    (∀ w, w ∈ involvement me d agent → w_created w ≤ f).
Proof.
  unfold frontier. split.
  - intros [Hin Hmax]%max_by_Some. apply list_elem_of_fmap in Hin as (w & -> & Hw).
    split; [eauto|]. intros v Hv.
    assert (w_created v ∈ w_created <$> involvement me d agent) as Hv'
      by (apply list_elem_of_fmap; eauto).
    specialize (Hmax _ Hv'). unfold id in Hmax. rewrite pleb_Z in Hmax. lia.
  - intros [(w & Hw & <-) Hmax]. destruct (max_by _ _) as [f'|] eqn:E.
    + apply max_by_Some in E as [Hin Hm]. apply list_elem_of_fmap in Hin as (v & -> & Hv).
      f_equal. specialize (Hmax v Hv).
      assert (w_created w ∈ w_created <$> involvement me d agent) as Hw'
        by (apply list_elem_of_fmap; eauto).
      specialize (Hm _ Hw'). unfold id in Hm. rewrite pleb_Z in Hm. lia.
    + rewrite max_by_None in E. apply fmap_nil_inv in E. rewrite E in Hw. set_solver.
Qed.

Lemma claim_effect_work d agent name x :
  x ∈ work (claim_effect me agent name d) → w_state x = Ready → x ∈ work d ∧ (w_id x, w_name x) ≠ (me, name).
Proof.
  simpl. rewrite elem_of_update_where. intros [(x0 & _ & _ & ->)|[Hx Hp]]; [done|].
  intros Hs. split; [done|]. intros [= Hid Hn]. unfold is_work in Hp.
  by rewrite Hid, Hn, Hs, !eqb_refl in Hp.
Qed.

(** Rows keep their identity, name and kind under a claim. *)
Lemma claim_effect_row d agent name x :
  x ∈ work d → ∃ x', x' ∈ work (claim_effect me agent name d) ∧ w_id x' = w_id x ∧
    w_name x' = w_name x ∧ w_kind x' = w_kind x ∧ w_created x' = w_created x ∧
    (x' = x ∨ w_state x' = Active).
Proof.
  intros Hx. simpl. destruct (is_work me name x && eqb (w_state x) Ready) eqn:E.
  - eexists. split; [rewrite elem_of_update_where; left; exists x; eauto|]. simpl. split_and!; auto.
  - exists x. split_and!; auto. rewrite elem_of_update_where. auto.
Qed.

Lemma claim_effect_origin d agent name x' :
  x' ∈ work (claim_effect me agent name d) → ∃ x, x ∈ work d ∧ w_id x' = w_id x ∧
    w_name x' = w_name x ∧ w_created x' = w_created x.
Proof.
  simpl. rewrite elem_of_update_where. intros [(x & Hx & _ & ->)|[Hx _]]; eauto.
Qed.

Lemma elem_of_claim_participants d agent name l :
  l ∈ participants (claim_effect me agent name d) ↔
    l ∈ participants d ∨ l = (me, (name, agent)).
Proof.
  simpl. unfold insert_ignore. destruct (has_key _ _ _) eqn:E.
  - apply has_key_true in E. unfold keys in E. apply list_elem_of_fmap in E as (l' & Hl' & Hin).
    unfold id in Hl'. simpl in Hl'. subst l'. naive_solver.
  - rewrite elem_of_app, list_elem_of_singleton. done.
Qed.

Lemma claim_effect_frontier d agent row f :
  pool_wf d → row ∈ work d → w_id row = me → w_created row < f → frontier me d agent = Some f →
  frontier me (claim_effect me agent (w_name row) d) agent = Some f.
Proof.
  intros Hwf Hrow Hid Hlt. rewrite !frontier_Some. intros [(w & Hw & Hf) Hmax].
  set (d' := claim_effect me agent (w_name row) d). split.
  - apply elem_of_involvement in Hw as (Hw & Hidw & Hp).
    destruct (claim_effect_row d agent (w_name row) w Hw) as (w' & Hw' & Hi & Hn & _ & Hc & _).
    exists w'. split; [|congruence]. apply elem_of_involvement. split_and!; [done|congruence|].
    apply elem_of_claim_participants. left. congruence.
  - intros v' (Hv' & Hiv & Hpv)%elem_of_involvement.
    destruct (claim_effect_origin _ _ _ _ Hv') as (v & Hv & Hi & Hn & Hc).
    apply elem_of_claim_participants in Hpv as [Hpv|[= Hnm]].
    + rewrite Hc. apply Hmax, elem_of_involvement. rewrite <-Hi, <-Hn. auto.
    + assert (v = row) as ->; [|lia].
      apply (unique_row work_key (work d)); [apply Hwf|done|done|]. unfold work_key. congruence.
Qed.

(** Ready and eligible after a claim means ready and eligible before it. *)
Lemma claim_effect_ready d agent name x :
  x ∈ ready me (claim_effect me agent name d) →
  x ∈ ready me d ∧ (w_id x, w_name x) ≠ (me, name).
Proof.
  intros (Hx & Hid & Hs & Hdd)%elem_of_ready.
  destruct (claim_effect_work _ _ _ _ Hx Hs) as [Hx0 Hne]. split; [|done].
  apply elem_of_ready. split_and!; [done..|]. intros q Hq Hidq Hdep.
  destruct (claim_effect_row d agent name q Hq) as (q' & Hq' & Hi & Hn & _ & _ & Hcase).
  assert (w_state q' = Done) as Hdone.
  { apply Hdd; [done|congruence|]. unfold depends in *. simpl. by rewrite Hn. }
  destruct Hcase as [->|]; congruence.
Qed.

Lemma claim_effect_eligible d agent name x caps :
  eligible me (claim_effect me agent name d) x agent caps = true →
  eligible me d x agent caps = true.
Proof.
  rewrite !eligible_true. intros (Hk & Hx & Hr). split_and!; [done|done|].
  intros Hrev Hin. apply (Hr Hrev).
  apply elem_of_contributors in Hin as (b & v & Hrt & Hp & Hv & Hid & Hn & Hkv).
  destruct (claim_effect_row d agent name v Hv) as (v' & Hv' & Hi & Hnv & Hkk & _).
  apply elem_of_contributors. exists b, v'. split; [exact Hrt|].
  split; [apply elem_of_claim_participants; auto|]. rewrite Hi, Hnv, Hkk. auto.
Qed.

Lemma NoDup_ready d : pool_wf d → NoDup (ready me d).
Proof.
  intros Hwf. unfold ready. rewrite sort_by_perm. apply NoDup_filter.
  eapply NoDup_fmap_1, Hwf.
Qed.

(** C5: affinity cannot starve cold work.  While a member has eligible ready
    items older than the newest work it ever took, each of its claims comes
    from that cohort, keeps the bound that defines it, and makes it strictly
    smaller. *)
Theorem claim_drains_older_cohort d agent caps row f :
  pool_wf d → frontier me d agent = Some f → older_cohort d agent caps ≠ [] →
  claim_choice me d agent caps = Some row →
  let d' := claim_effect me agent (w_name row) d in
  row ∈ older_cohort d agent caps ∧ frontier me d' agent = Some f ∧
  (length (older_cohort d' agent caps) < length (older_cohort d agent caps))%nat.
Proof.
  intros Hwf Hf Hne Hch. cbv zeta. set (d' := claim_effect me agent (w_name row) d).
  pose proof (claim_choice_cohort _ _ _ _ Hch Hne) as Hrow.
  apply claim_choice_ready in Hch as [Hrd _]. apply elem_of_ready in Hrd as (Hin & Hid & _).
  assert (w_created row < f) as Hlt.
  { unfold older_cohort in Hrow. rewrite elem_of_keep, Hf in Hrow. lia. }
  assert (frontier me d' agent = Some f) as Hf' by (by apply claim_effect_frontier).
  split_and!; [done|done|].
  assert (NoDup (row :: older_cohort d' agent caps)) as Hnd.
  { constructor.
    - unfold older_cohort. rewrite !elem_of_keep. intros (_ & _ & Hr).
      apply claim_effect_ready in Hr as [_ Hr]. apply Hr. by rewrite Hid.
    - apply NoDup_filter, NoDup_filter, NoDup_ready.
      eapply claim_effect_wf; [done| |]; unfold older_cohort in Hrow; rewrite !elem_of_keep in Hrow; naive_solver. }
  apply (submseteq_length (row :: older_cohort d' agent caps)), NoDup_submseteq; [done|].
  intros x [->|Hx]%elem_of_cons; [done|]. unfold older_cohort in *.
  rewrite !elem_of_keep, Hf' in Hx. rewrite !elem_of_keep, Hf. destruct Hx as (Hc & He & Hr).
  split_and!; [done|by eapply claim_effect_eligible|by eapply claim_effect_ready].
Qed.
End Claims.

(** ** The dependency graph never deadlocks *)

Lemma depends_backward d me a b i j :
  pool_wf d → depends me d a b →
  keys work_key (work d) !! i = Some (me, a) → keys work_key (work d) !! j = Some (me, b) →
  (j < i)%nat.
Proof.
  intros Hwf Hd Hi Hj. destruct (pool_backward d Hwf _ Hd) as (i' & j' & Hi' & Hj' & Hlt).
  simpl in *. pose proof (pool_unique d Hwf) as Hnd.
  rewrite (NoDup_lookup _ _ _ _ Hnd Hi Hi'), (NoDup_lookup _ _ _ _ Hnd Hj Hj'). done.
Qed.

Lemma row_position d w : w ∈ work d → ∃ i, keys work_key (work d) !! i = Some (work_key w).
Proof.
  intros [i Hi]%list_elem_of_lookup. exists i. unfold keys. by rewrite list_lookup_fmap, Hi.
Qed.

(** C37: a ready item is never stuck behind a cycle: following dependencies
    from it always reaches an item that can be claimed now, is being worked on,
    or was cancelled. *)
Theorem ready_work_has_actionable_ancestor d me w :
  pool_wf d → w ∈ work d → w_id w = me → w_state w = Ready →
  ∃ v, v ∈ work d ∧ w_id v = me ∧ rtc (depends me d) (w_name w) (w_name v) ∧
       (v ∈ ready me d ∨ w_state v = Active ∨ w_state v = Cancelled).
Proof.
  intros Hwf Hw Hid Hs. destruct (row_position d w Hw) as [i Hi]. revert w Hw Hid Hs Hi.
  induction i as [i IH] using lt_wf_ind. intros w Hw Hid Hs Hi.
  destruct (blocked d w) eqn:Hb.
  - unfold blocked in Hb. rewrite existsb_elem in Hb. destruct Hb as ([i' [a b]] & Hl & Hb).
    simpl in Hb. reflect_in Hb. destruct Hb as [[-> ->] (p & Hp & Hpb)]. reflect_in Hpb.
    destruct Hpb as [[Hidp <-] Hnd].
    assert (depends me d (w_name w) (w_name p)) as Hdep by (unfold depends; by rewrite <-Hid).
    destruct (row_position d p Hp) as [j Hj].
    destruct (w_state p) eqn:Hsp; [|exists p|congruence|exists p].
    + destruct (IH j) with (w := p) as (v & Hv & Hiv & Hr & Hcase); try done.
      * eapply (depends_backward d me (w_name w) (w_name p)); try done;
          unfold work_key in *; congruence.
      * congruence.
      * exists v. split_and!; try done. by eapply rtc_l.
    + split_and!; [done|congruence|by apply rtc_once|auto].
    + split_and!; [done|congruence|by apply rtc_once|auto].
  - exists w. split_and!; try done. left. unfold ready. rewrite elem_of_sort_by, elem_of_keep.
    rewrite Hb, Hs, Hid, eqb_refl. done.
Qed.

(** ** Free identifiers for evaluations *)

Section Evaluations.
Context `{Host}.
Variable me : identity.

Lemma evaluation_id_inj due index r r' :
  evaluation_id due index r = evaluation_id due index r' → r = r'.
Proof.
  unfold evaluation_id. intros E. do 4 apply append_inj_l in E.
  destruct r as [|r], r' as [|r']; [done|done|done|].
  apply append_inj_l in E. unfold str_Z in E. apply (inj pretty) in E. lia.
Qed.

Lemma free_evaluation_id_None fuel due index r t i :
  free_evaluation_id me fuel due index r t = None → (r ≤ i ≤ r + fuel)%nat →
  evaluation_id due index i ∈ w_name <$> t.
Proof.
  revert r. induction fuel as [|fuel IH]; intros r; simpl;
    destruct (existsb _ t) eqn:E; try done.
  all: rewrite existsb_elem in E; destruct E as (w & Hw & Hn);
    unfold is_work in Hn; reflect_in Hn; intros Hf Hi.
  - assert (i = r) as -> by lia. apply list_elem_of_fmap. exists w. naive_solver.
  - destruct (decide (i = r)) as [->|]; [apply list_elem_of_fmap; exists w; naive_solver|].
    apply (IH (S r)); [done|lia].
Qed.

(** The search for a free evaluation identifier terminates: one more try
    than there are rows always finds one, and what it finds is free. *)
Theorem free_evaluation_id_found due index t :
  ∃ name, free_evaluation_id me (S (length t)) due index 0 t = Some name ∧
          ∀ w, w ∈ t → w_id w = me → w_name w ≠ name.
Proof.
  destruct (free_evaluation_id _ _ _ _ _ _) as [name|] eqn:E.
  - exists name. split; [done|]. intros w Hw Hid Hn. revert E. generalize (S (length t)), 0%nat.
    intros fuel. induction fuel as [|fuel IH]; intros r; simpl.
    all: destruct (existsb _ t) eqn:Ex; [first [done|apply IH]|]; intros [= Hnm].
    all: rewrite existsb_none in Ex; specialize (Ex w Hw); unfold is_work in Ex;
      rewrite Hnm, Hid, Hn, !eqb_refl in Ex; done.
  - exfalso. set (names := evaluation_id due index <$> seq 0 (S (S (length t)))).
    assert (NoDup names) as Hnd.
    { apply NoDup_fmap_2_strong; [|apply NoDup_seq]. intros ?? _ _. apply evaluation_id_inj. }
    assert (length names ≤ length (w_name <$> t))%nat as Hlen.
    { apply submseteq_length, NoDup_submseteq; [done|].
      intros n (i & -> & Hi)%list_elem_of_fmap. apply elem_of_seq in Hi.
      eapply free_evaluation_id_None; [exact E|lia]. }
    unfold names in Hlen. rewrite !length_fmap, length_seq in Hlen. lia.
Qed.

#[local] Arguments free_evaluation_id : simpl never.

(** The row a plain submission appends. *)
Definition submitted (k : kind) (agent : string) (row : work_row) : Prop :=
  w_id row = me ∧ w_kind row = k ∧ w_creator row = agent ∧ w_state row = Ready.

Lemma submit_bare_effect name k desc agent w w' :
  submit me name k desc agent "" "" [] [] w = Ok (tt, w') →
  schedules (the_db w') = schedules (the_db w) ∧ (clock_reads w ≤ clock_reads w')%nat ∧
  ∃ row, work (the_db w') = work (the_db w) ++ [row] ∧ submitted k agent row.
Proof.
  unfold submit, mbind, M_bind. destruct (active me w) as [[task w0]|] eqn:E; [|done].
  assert (the_db w0 = the_db w ∧ (clock_reads w ≤ clock_reads w0)%nat) as [Hd Hc].
  { revert E. unfold active, mbind, M_bind. simpl. destruct (select_one _ _); [|done].
    destruct (negb _); [done|]. destruct (s_deadline _); simpl; [|by intros [= _ <-]].
    case_match; [done|]. intros [= _ <-]. simpl. split; [done|lia]. }
  simpl. unfold execute_checked. simpl. unfold insert_row.
  destruct (has_key _ _ _); simpl; [done|]. intros [= <-]. simpl.
  rewrite Hd. split_and!; [done|lia|]. eexists. split; [done|]. by split_and!.
Qed.

Lemma evaluation_batch_effect due task l w w' :
  for_each l (λ index,
    free ← query (λ d, free_evaluation_id me (S (length (work d))) due index 0 (work d));
    match free with
    | None => raise (RuntimeError "no free evaluation identifier")
    | Some name => submit me name KEvaluation (evaluation_description task)
                     "evaluation_schedule" "" "" [] []
    end) w = Ok (tt, w') →
  schedules (the_db w') = schedules (the_db w) ∧ (clock_reads w ≤ clock_reads w')%nat ∧
  ∃ news, work (the_db w') = work (the_db w) ++ news ∧ length news = length l ∧
          Forall (submitted KEvaluation "evaluation_schedule") news.
Proof.
  revert w. induction l as [|index l IH]; intros w; simpl.
  - intros [= <-]. split_and!; [done|done|]. exists []. by rewrite app_nil_r.
  - unfold mbind at 1, M_bind at 1. unfold mbind at 1, M_bind at 1. simpl.
    destruct (free_evaluation_id _ _ _ _ _ _) as [name|]; [|done].
    destruct (submit _ _ _ _ _ _ _ _ _ w) as [[[] w1]|] eqn:E; [|done].
    apply submit_bare_effect in E as (Hs & Hc & row & Hw & Hrow).
    intros (Hs' & Hc' & news & Hw' & Hlen & Hn)%IH.
    split_and!; [congruence|lia|]. exists (row :: news).
    rewrite Hw', Hw, <-app_assoc. split_and!; [done|simpl; lia|by constructor].
Qed.

(** A pending scheduled evaluation, the guard of a new round. *)
Definition pending_evaluation (d : db) : bool :=
  existsb (λ w, is_scheduled_evaluation me w && (eqb (w_state w) Ready || eqb (w_state w) Active))
    (work d).

Lemma due_evaluations_pending task w w' :
  pending_evaluation (the_db w) = true → due_evaluations me task w = Ok (tt, w') →
  the_db w' = the_db w.
Proof.
  intros Hp. unfold due_evaluations, mbind, M_bind. simpl.
  destruct (select_one _ _) as [sch|]; [|by intros [= <-]].
  destruct (e_count sch =? 0); [by intros [= <-]|]. simpl.
  destruct (_ <? e_next_due sch); [by intros [= <-]|]. simpl.
  fold (pending_evaluation (the_db w)). rewrite Hp. by intros [= <-].
Qed.

(** When an evaluation round is due and none is pending, one batch of
    [count] ready evaluations is published, the timer moves to the first instant
    of the original grid after the clock (missed rounds are skipped, not
    accumulated), and asking again at once changes nothing. *)
Theorem due_evaluations_round task w w' sch :
  (∀ i j, (i ≤ j)%nat → time_at i ≤ time_at j) →
  select_one (λ e, eqb (e_id e) me) (schedules (the_db w)) = Some sch →
  0 < e_interval sch → 0 < e_count sch → e_next_due sch ≤ time_at (clock_reads w) →
  pending_evaluation (the_db w) = false →
  due_evaluations me task w = Ok (tt, w') →
  ∃ news k,
    work (the_db w') = work (the_db w) ++ news ∧ length news = Z.to_nat (e_count sch) ∧
    Forall (submitted KEvaluation "evaluation_schedule") news ∧ 1 ≤ k ∧
    select_one (λ e, eqb (e_id e) me) (schedules (the_db w')) =
      Some (Schedule (e_id sch) (e_interval sch) (e_count sch)
              (e_next_due sch + k * e_interval sch)) ∧
    e_next_due sch + (k - 1) * e_interval sch ≤ time_at (pred (clock_reads w'))
      < e_next_due sch + k * e_interval sch ∧
    (∀ task' w'', due_evaluations me task' w' = Ok (tt, w'') → the_db w'' = the_db w').
Proof.
  intros Hmono Hsch Hint Hcnt Hdue Hpend. unfold due_evaluations.
  unfold mbind at 1, M_bind at 1. simpl. rewrite Hsch.
  rewrite (proj2 (Z.eqb_neq (e_count sch) 0)) by lia.
  unfold mbind at 1, M_bind at 1. simpl. rewrite (proj2 (Z.ltb_ge _ _)) by lia.
  unfold mbind at 1, M_bind at 1. simpl. fold (pending_evaluation (the_db w)). rewrite Hpend.
  unfold mbind at 1, M_bind at 1.
  destruct (for_each _ _ _) as [[[] w1]|] eqn:E; [|done]. intros [= <-]. simpl.
  apply evaluation_batch_effect in E as (Hs & Hc & news & Hw & Hlen & Hnews). simpl in *.
  set (t' := time_at (clock_reads w1)).
  assert (e_next_due sch ≤ t') as Ht'.
  { etransitivity; [exact Hdue|]. apply Hmono. lia. }
  pose proof (Z.div_pos (t' - e_next_due sch) (e_interval sch) ltac:(lia) Hint) as Hq.
  pose proof (Z.mul_div_le (t' - e_next_due sch) (e_interval sch) Hint) as Hlo.
  pose proof (Z.mul_succ_div_gt (t' - e_next_due sch) (e_interval sch) Hint) as Hhi.
  exists news, ((t' - e_next_due sch) `div` e_interval sch + 1).
  split_and!; [done| |done|lia| |lia|lia|].
  - rewrite Hlen, length_seqZ. done.
  - rewrite select_one_update_where by done. by rewrite Hs, Hsch.
  - intros task' w'' E. apply due_evaluations_pending in E; [exact E|]. simpl.
    unfold pending_evaluation. apply existsb_elem. destruct news as [|row news].
    { simpl in Hlen. rewrite length_seqZ in Hlen. lia. }
    apply Forall_cons in Hnews as [(Hid & Hk & Hcr & Hst) _].
    exists row. simpl. rewrite Hw. split; [set_solver|].
    unfold is_scheduled_evaluation. by rewrite Hid, Hk, Hcr, Hst, !eqb_refl.
Qed.
End Evaluations.

(** ** Completion and hand-off are compare-and-set *)

Section CompareAndSet.
Context `{Host}.
Variable me : identity.

(** Hand-off succeeds exactly when the named owner still owns the active
    item; then that item alone becomes ready again, unowned, remembering the
    owner it came from, and that owner still counts as a contributor to
    implementation work, so it cannot review it. *)
Theorem handoff_compare_and_set name agent reason from w :
  pool_wf (the_db w) →
  let owner := handoff_from agent from in
  match handoff me name agent reason from w with
  | Ok (_, w') => ∃ x x', x ∈ work (the_db w) ∧ owned_active me name owner x = true ∧
      x' = work_set Ready None (Some owner) (w_result x) (Some reason) x ∧
      x' ∈ work (the_db w') ∧
      (∀ y, y ∈ work (the_db w') ↔ y = x' ∨ (y ∈ work (the_db w) ∧ y ≠ x)) ∧
      (w_kind x = KWorker ∨ w_kind x = KExperimenter →
       owner ∈ contributors me (the_db w') name)
  | Raise e => e = ValueError "The expected active owner no longer owns this work" ∧
      ∀ x, x ∈ work (the_db w) → owned_active me name owner x = false
  end.
Proof.
  intros Hwf. cbv zeta. unfold handoff. cbv zeta. generalize (handoff_from agent from).
  intros owner. unfold mbind, M_bind. simpl. case_bool_decide as Hc; simpl.
  { split; [done|]. by apply rowcount_zero. }
  apply rowcount_nonzero in Hc as (x & Hx & Hp). pose proof Hp as (Hid & Hn & Hs & Ho)%owned_active_true.
  set (f := λ x0 : work_row, work_set Ready None (Some owner) (w_result x0) (Some reason) x0).
  assert (∀ y, y ∈ update_where (owned_active me name owner) f (work (the_db w)) ↔
    y = f x ∨ (y ∈ work (the_db w) ∧ y ≠ x)) as Hupd.
  { intros y. rewrite elem_of_update_where. split.
    - intros [(x0 & Hx0 & Hp0 & ->)|[Hy Hpy]].
      + left. f_equal. apply owned_active_true in Hp0 as (? & ? & _).
        apply (unique_row work_key (work (the_db w))); [apply Hwf|done|done|].
        unfold work_key. congruence.
      + right. split; [done|]. intros ->. congruence.
    - intros [->|[Hy Hne]]; [left; eauto|]. right. split; [done|].
      destruct (owned_active me name owner y) eqn:E; [|done]. exfalso. apply Hne.
      apply owned_active_true in E as (? & ? & _).
      apply (unique_row work_key (work (the_db w))); [apply Hwf|done|done|].
      unfold work_key. congruence. }
  exists x, (f x). split_and!; [done|done|done| |done|].
  - apply Hupd. auto.
  - intros Hk. apply elem_of_contributors. exists name, (f x). simpl.
    split_and!; [done| | |done|done|done].
    + pose proof (pool_owner _ Hwf x Hx) as Hok. unfold owner_ok in Hok. rewrite Hs in Hok.
      destruct Hok as (a & Ha & Hin). rewrite <-Hid, <-Hn. congruence.
    + apply Hupd. auto.
Qed.

(** Finishing succeeds exactly when the result path exists and the caller
    owns the active item; the item becomes done with that result and keeps its
    owner, every other row stays, and an item once done is never claimed,
    finished or handed off again. *)
Theorem finish_compare_and_set name agent result w :
  pool_wf (the_db w) →
  match finish me name agent result w with
  | Ok (_, w') => ∃ x path, resolve_strict result = Some path ∧
      x ∈ work (the_db w) ∧ owned_active me name agent x = true ∧
      (∀ y, y ∈ work (the_db w') ↔
        y = work_set Done (Some agent) (w_previous_owner x) (Some path) None x ∨
        (y ∈ work (the_db w) ∧ y ≠ x)) ∧
      (∀ other, rowcount (owned_active me name other) (work (the_db w')) = 0%nat) ∧
      (∀ y, y ∈ ready me (the_db w') → w_name y ≠ name)
  | Raise e =>
      (resolve_strict result = None ∧ e = OSError result) ∨
      (is_Some (resolve_strict result) ∧
       e = ValueError "Only the active owner can finish this work" ∧
       ∀ x, x ∈ work (the_db w) → owned_active me name agent x = false)
  end.
Proof.
  intros Hwf. unfold finish. destruct (resolve_strict result) as [path|]; simpl; [|auto].
  unfold mbind, M_bind. simpl. case_bool_decide as Hc; simpl.
  { right. split_and!; [eauto|done|]. by apply rowcount_zero. }
  apply rowcount_nonzero in Hc as (x & Hx & Hp). pose proof Hp as (Hid & Hn & Hs & Ho)%owned_active_true.
  set (f := λ x0 : work_row, work_set Done (w_owner x0) (w_previous_owner x0) (Some path) None x0).
  assert (∀ y, y ∈ work (the_db w) → w_id y = me → w_name y = name → y = x) as Huniq.
  { intros y Hy Hi Hm. apply (unique_row work_key (work (the_db w))); [apply Hwf|done|done|].
    unfold work_key. congruence. }
  assert (∀ y, y ∈ update_where (owned_active me name agent) f (work (the_db w)) ↔
    y = f x ∨ (y ∈ work (the_db w) ∧ y ≠ x)) as Hupd.
  { intros y. rewrite elem_of_update_where. split.
    - intros [(x0 & Hx0 & Hp0 & ->)|[Hy Hpy]].
      + left. f_equal. apply owned_active_true in Hp0 as (? & ? & _). auto.
      + right. split; [done|]. intros ->. congruence.
    - intros [->|[Hy Hne]]; [left; eauto|]. right. split; [done|].
      destruct (owned_active me name agent y) eqn:E; [|done]. exfalso. apply Hne.
      apply owned_active_true in E as (? & ? & _). auto. }
  assert (f x = work_set Done (Some agent) (w_previous_owner x) (Some path) None x) as Hfx
    by (unfold f; by rewrite Ho).
  exists x, path. split_and!; [done|done|done| | |].
  - intros y. rewrite <-Hfx. apply Hupd.
  - intros other. apply rowcount_zero. intros y Hy. apply not_true_iff_false.
    intros (Hi & Hm & Hst & _)%owned_active_true. apply Hupd in Hy as [->|[Hy Hne]]; [done|].
    apply Hne. auto.
  - intros y (Hy & Hi & Hst & _)%elem_of_ready Hm. apply Hupd in Hy as [->|[Hy Hne]]; [done|].
    apply Hne. auto.
Qed.
End CompareAndSet.
