(* ===== verification/Continuation.v ===== *)
(** * Task lifecycle and member continuation ([continuation.py])

    Every method of [class Continuation], and the command dispatch of [main].
    A command is one transaction: [BEGIN IMMEDIATE], the method, then commit, or
    rollback when the method raises. *)

From Stdlib Require Import Ascii.
From S2P Require Import Prelude Sql RsiStore WorkPool.

(** ** SQL text helpers *)

(** [CAST(text AS INTEGER)]: the integer the text starts with, 0 when there is
    none, clamped to 64 bits. *)
Fixpoint leading_digits (acc : Z) (s : string) : Z :=
  match s with
  | String c s' =>
      let n := Z.of_nat (Ascii.nat_of_ascii c) in
      if (48 <=? n) && (n <=? 57) then leading_digits (acc * 10 + (n - 48)) s' else acc
  | EmptyString => acc
  end.
Definition cast_integer (s : string) : Z :=
  let v := match lstrip s with
           | String "-"%char s' => - leading_digits 0 s'
           | String "+"%char s' => leading_digits 0 s'
           | s' => leading_digits 0 s'
           end in
  Z.max (- 2 ^ 63) (Z.min (2 ^ 63 - 1) v).

(** [notice LIKE 'hook guard:%'] (ASCII case-insensitive; [NULL] does not match). *)
Definition guard_notice (m : member_row) : bool :=
  match m_notice m with Some n => startswith "hook guard:" (lower n) | None => false end.

(** [error[:2000]] *)
Fixpoint take_chars (n : nat) (s : string) : string :=
  match n, s with
  | S n, String c s => String c (take_chars n s)
  | _, _ => EmptyString
  end.

Definition newline : string := String "010"%char "".

(** ** Arguments *)

Inductive release_state := RWaiting | RDone | RExpired | RFailed | RPaused | RComplete.
#[export] Instance release_state_eq_dec : EqDecision release_state.
Proof. solve_decision. Defined.

Inductive hook_kind :=
  Interrupt | SubagentStop | TeammateIdle | Stop | PostToolUse | SessionEnd | OtherEvent.
#[export] Instance hook_kind_eq_dec : EqDecision hook_kind.
Proof. solve_decision. Defined.

Definition hook_kind_name (k : hook_kind) : string :=
  match k with
  | Interrupt => "Interrupt" | SubagentStop => "SubagentStop" | TeammateIdle => "TeammateIdle"
  | Stop => "Stop" | PostToolUse => "PostToolUse" | SessionEnd => "SessionEnd" | OtherEvent => ""
  end.

(** The fields of a native hook event the script reads; absent text is [""]. *)
Record hook_event := Event {
  ev_kind : hook_kind;
  ev_agent_id : string;
  ev_teammate_name : string;
  ev_stop_hook_active : bool;
}.

Inductive hook_answer :=
  | Proceed                                       (* {} *)
  | Block (reason : string)                       (* {"decision": "block", ...} *)
  | AdditionalContext (message : string).         (* {"hookSpecificOutput": ...} *)

(** What [supervisor_prepare] leases out. *)
Record lease := Lease {
  l_agent : string;
  l_thread : string;
  l_dispatch : string;
  l_prompt : string;
}.

Definition is_stop (k : hook_kind) : bool :=
  eqb k SubagentStop || eqb k TeammateIdle || eqb k Stop.

Section Continuation.
Context `{Host}.
(** [(harness, session)] *)
Variable me : identity.

Definition is_session (s : session_row) : bool := eqb (s_id s) me.
Definition of_session (m : member_row) : bool := eqb (m_id m) me.

(** [Continuation.session] *)
Definition session : M world session_row :=
  found ← query (λ d, select_one is_session (sessions d));
  match found with
  | None => raise (ValueError "This RSI session has not been activated")
  | Some s => mret s
  end.

(** *** [Continuation.queue] *)

Definition next_prefix (agent : string) : string := "next:" +:+ agent +:+ ":".

Definition is_next (agent : string) (w : work_row) : bool :=
  eqb (w_id w) me && eqb (w_creator w) agent && startswith (next_prefix agent) (w_name w).

Definition by_age (l : list work_row) : list work_row :=
  sort_by (λ w, (w_created w, w_name w)) l.

Definition active_next (d : db) (agent : string) : list work_row :=
  by_age (keep (λ w, is_next agent w && eqb (w_state w) Active) (work d)).
Definition pending_next (d : db) (agent : string) : list work_row :=
  by_age (keep (λ w, is_next agent w && eqb (w_state w) Ready &&
    bool_decide (w_owner w = None) && bool_decide (w_previous_owner w = None)) (work d)).

Definition latest_next (d : db) (agent : string) : option Z :=
  max_by id ((λ w, cast_integer (drop_chars (String.length (next_prefix agent)) (w_name w)))
    <$> keep (is_next agent) (work d)).

Definition new_next_name (d : db) (agent : string) : string :=
  next_prefix agent +:+ str_Z (default 0 (latest_next d agent) + 1).

Definition queue (agent : string) (r : role) (next_step : string) : M world string :=
  accepts ← query (λ d, capable me d agent);
  register me agent r accepts "" "" ;;
  same ← query (λ d, first ← head (active_next d agent);
                     if eqb (w_description first) next_step then Some (w_name first) else None);
  match same with Some name => mret name | None =>
  pending ← query (λ d, pending_next d agent);
  match pending with
  | first :: duplicates =>
      execute (on_work (update_where (is_work me (w_name first))
        (work_redescribe (kind_of_role r) next_step))) ;;
      for_each duplicates (λ dup, execute (on_work (update_where (is_work me (w_name dup))
        (λ w, work_set Cancelled (w_owner w) (w_previous_owner w) (w_result w)
                (Some "Replaced legacy next step") w)))) ;;
      mret (w_name first)
  | [] =>
      name ← query (λ d, new_next_name d agent);
      submit me name (kind_of_role r) next_step agent "" "" [] [] ;;
      mret name
  end
  end.

(** *** [Continuation.activate] *)

(** The checks and writes on a session that already exists, before queued
    legacy steps are replayed. *)
Definition resume_session (existing : session_row) (task : string)
    (deadline started_at : option Z) : M world unit :=
  if negb (eqb (s_task existing) task)
  then raise (ValueError "This session is already bound to a different task") else
  if eqb (s_state existing) SComplete
  then raise (ValueError "A completed RSI session cannot be resumed") else
  if bool_decide (is_Some deadline) && negb (eqb deadline (s_deadline existing))
  then raise (ValueError "Resuming must preserve the original deadline") else
  match started_at with
  | Some _ =>
      if bool_decide (is_Some (s_started existing)) && negb (eqb started_at (s_started existing))
      then raise (ValueError "Resuming must preserve the original task start")
      else execute (on_sessions (update_where is_session (session_set_started started_at)))
  | None => mret tt
  end ;;
  match s_deadline existing with
  | Some dl =>
      t ← now;
      if dl <=? t then raise (ValueError "The original task deadline has passed") else mret tt
  | None => mret tt
  end ;;
  execute (on_sessions (update_where is_session (session_set SActive None false))).

Definition replay_queued : M world unit :=
  queued ← query (λ d, keep (λ m, of_session m && bool_decide (is_Some (m_next_step m))) (members d));
  for_each queued (λ m,
    _ ← queue (m_agent m) (m_role m) (default "" (m_next_step m)); mret tt) ;;
  execute (on_members (update_where of_session
    (λ m, member_lifecycle (m_state m) None (m_reason m) (m_notice m) m))).

Definition activate (task_path : string) (deadline started_at : option Z) : M world unit :=
  match resolve_strict task_path with
  | None => raise (OSError task_path)
  | Some task =>
      if negb (is_file task) then raise (ValueError "The task must be a file") else
      found ← query (λ d, select_one is_session (sessions d));
      match found with
      | Some existing => resume_session existing task deadline started_at ;; replay_queued
      | None =>
          match deadline with
          | Some dl =>
              t ← now;
              if dl <=? t then raise (ValueError "The task deadline has passed") else mret tt
          | None => mret tt
          end ;;
          match started_at with Some s => mret s | None => now end ≫= λ started,
          execute_checked (λ d,
            t ← insert_row s_id (Session me task deadline (Some started) SActive None false)
                  (sessions d);
            Ok (on_sessions (λ _, t) d))
      end
  end.

(** *** [Continuation.release] *)

Definition release_member (state : member_state) (reason : string) (m : member_row) : member_row :=
  member_dispatch DReleased None None None None (m_last_error m)
    (member_lifecycle state None (Some reason) None m).

Definition release_member_state (s : release_state) : option member_state :=
  match s with
  | RWaiting => Some MWaiting | RDone => Some MDone | RExpired => Some MExpired
  | RFailed => Some MFailed | RPaused | RComplete => None
  end.
Definition release_session_state (s : release_state) : option session_state :=
  match s with RPaused => Some SPaused | RComplete => Some SComplete | _ => None end.

Definition release (agent : string) (state : release_state) (reason : string) : M world unit :=
  task ← session;
  if bool_decide (strip reason = "")
  then raise (ValueError "Release requires an outcome or dependency and resume condition") else
  if eqb (s_state task) SComplete then
    if negb (nonempty agent) && eqb state RComplete then mret tt
    else raise (ValueError "A completed RSI session cannot be changed")
  else if nonempty agent then
    match release_member_state state with
    | None => raise (ValueError "A member can be released as waiting, done, expired or failed")
    | Some ms =>
        owned ← query (λ d, keep (owns_active me agent) (work d));
        if negb (bool_decide (owned = []))
        then raise (ValueError ("Finish or hand off owned work before releasing the member: "
               +:+ join ", " (w_name <$> owned))) else
        count ← query (λ d, rowcount (is_member me agent) (members d));
        execute (on_members (update_where (is_member me agent) (release_member ms reason))) ;;
        if bool_decide (count = 0%nat)
        then raise (ValueError "The member is not registered for this RSI session") else mret tt
    end
  else
    match release_session_state state with
    | None => raise (ValueError "A task can be released as paused or complete")
    | Some ss =>
        execute (on_sessions (update_where is_session (session_set ss (Some reason) false))) ;;
        execute (on_members (update_where of_session
          (λ m, member_dispatch DReleased None None None None (m_last_error m)
                  (member_lifecycle (m_state m) None (m_reason m) None m))))
    end.

(** [Continuation.expire] *)
Definition expire (reason : string) : M world unit :=
  execute (on_sessions (update_where is_session (session_set SExpired (Some reason) false))) ;;
  execute (on_members (update_where of_session (release_member MExpired reason))).

(** [Continuation.status]: the task, its members by role and agent, its work and
    its schedulers. *)
Definition status (d : db)
    : option (session_row * list member_row * list work_row * list heartbeat_row) :=
  match select_one is_session (sessions d) with
  | None => None
  | Some task =>
      Some (task, sort_by (λ m, (role_name (m_role m), m_agent m)) (keep of_session (members d)),
            pool_status me d,
            sort_by h_owner (keep (λ h, eqb (h_id h) me) (heartbeats d)))
  end.

(** [Continuation.scheduler_heartbeat] *)
Definition scheduler_heartbeat (owner state : string) (error : option string) : M world unit :=
  t ← now;
  let message := match error with
                 | Some e => if nonempty e then Some (take_chars 2000 e) else None
                 | None => None
                 end in
  execute_checked (λ d,
    if has_key s_id me (sessions d)
    then Ok (on_heartbeats (upsert heartbeat_key (Heartbeat me owner state t message)
               (λ h, Heartbeat (h_id h) (h_owner h) state t message)) d)
    else Raise IntegrityError).

(** *** Supervisor *)

Definition active_session (d : db) : option session_row :=
  select_one (λ s, is_session s && eqb (s_state s) SActive) (sessions d).

(** [Continuation.supervisor_candidates], for this session *)
Definition supervisor_candidates (d : db) : list member_row :=
  match active_session d with
  | None => []
  | Some _ => keep (λ m, of_session m && eqb (m_state m) MWorking &&
                match m_thread_id m with Some t => nonempty t | None => false end) (members d)
  end.

Definition is_working (agent : string) (m : member_row) : bool :=
  is_member me agent m && eqb (m_state m) MWorking.

(** A turn was started for this member and its propagation lease still runs. *)
Definition propagating (now : Z) (m : member_row) : bool :=
  (eqb (m_dispatch_state m) DDispatching || eqb (m_dispatch_state m) DRunning) &&
  match m_turn_id m, m_lease_until m with
  | Some t, Some l => nonempty t && negb (l =? 0) && (now <? l)
  | _, _ => false
  end.

(** The guard of the leasing [UPDATE]. *)
Definition leasable (now : Z) (m : member_row) : bool :=
  negb (eqb (m_dispatch_state m) DDispatching) ||
  match m_lease_until m with Some l => l <=? now | None => true end.

Definition dispatch_prompt (task : string) (m : member_row) (dispatch : string) : string :=
  "Continue the complete RSI responsibility for " +:+ task +:+ " as " +:+ role_name (m_role m)
  +:+ "." +:+ newline +:+ "Persistent responsibility: "
  +:+ (match m_responsibility m with
       | Some r => if nonempty r then r else "continue the latest retained research responsibility and record evidence."
       | None => "continue the latest retained research responsibility and record evidence."
       end)
  +:+ newline +:+ "Dispatch id: " +:+ dispatch +:+ ". Inspect existing work, jobs and evidence before acting. Do not release as idle or needs_assignment; release only for a concrete dependency, done, pause, expiry or explicit failure.".

(** [Continuation.supervisor_prepare] *)
Definition supervisor_prepare (agent supervisor thread_status : string) (lease_seconds : Z)
    : M world (option lease) :=
  t ← now;
  found ← query (λ d, match active_session d with
                      | None => None
                      | Some s => m ← select_one (is_working agent) (members d); Some (s, m)
                      end);
  match found with
  | None => mret None
  | Some (s, m) =>
      match m_thread_id m with
      | None => mret None
      | Some thread =>
          if negb (nonempty thread) then mret None else
          if match s_deadline s with Some dl => dl <=? t | None => false end
          then expire "deadline" ;; mret None else
          let st := if nonempty thread_status then thread_status else "unknown" in
          if eqb st "active" then
            execute (on_members (update_where (is_working agent)
              (λ m, member_dispatch DRunning None None (m_dispatch_id m) (m_turn_id m) None m))) ;;
            mret None
          else if negb (eqb st "idle" || eqb st "notLoaded") then
            execute (on_members (update_where (is_member me agent)
              (λ m, member_dispatch (m_dispatch_state m) (m_lease_owner m) (m_lease_until m)
                      (m_dispatch_id m) (m_turn_id m)
                      (Some ("app-server thread status: " +:+ st)) m))) ;;
            mret None
          else if propagating t m then mret None
          else
            dispatch ← uuid4;
            count ← query (λ d, rowcount (λ m, is_working agent m && leasable t m) (members d));
            execute (on_members (update_where (λ m, is_working agent m && leasable t m)
              (member_dispatch DDispatching (Some supervisor) (Some (t + lease_seconds))
                 (Some dispatch) None None))) ;;
            if bool_decide (count = 0%nat) then mret None
            else mret (Some (Lease agent thread dispatch (dispatch_prompt (s_task s) m dispatch)))
      end
  end.

(** The member still holds exactly this lease. *)
Definition holds_lease (agent supervisor dispatch : string) (m : member_row) : bool :=
  is_working agent m && eqb (m_dispatch_state m) DDispatching &&
  eqb (m_lease_owner m) (Some supervisor) && eqb (m_dispatch_id m) (Some dispatch).

(** [Continuation.supervisor_started] *)
Definition supervisor_started (agent supervisor dispatch turn : string) (lease_seconds : Z)
    : M world bool :=
  t ← now;
  count ← query (λ d, rowcount (holds_lease agent supervisor dispatch) (members d));
  execute (on_members (update_where (holds_lease agent supervisor dispatch)
    (λ m, member_dispatch DRunning None (Some (t + lease_seconds)) (m_dispatch_id m)
            (Some turn) None m))) ;;
  mret (negb (bool_decide (count = 0%nat))).

(** [Continuation.supervisor_failed] *)
Definition supervisor_failed (agent supervisor dispatch error : string) : M world bool :=
  count ← query (λ d, rowcount (holds_lease agent supervisor dispatch) (members d));
  execute (on_members (update_where (holds_lease agent supervisor dispatch)
    (λ m, member_dispatch DPending None None (m_dispatch_id m) (m_turn_id m)
            (Some (take_chars 2000 error)) m))) ;;
  mret (negb (bool_decide (count = 0%nat))).

(** The transaction in which [agent_scheduler.run_once] notes that it could not
    read a member's thread status. *)
Definition record_status_error (agent error : string) : M world unit :=
  execute (on_members (update_where (is_member me agent)
    (λ m, member_dispatch (m_dispatch_state m) (m_lease_owner m) (m_lease_until m)
            (m_dispatch_id m) (m_turn_id m) (Some (take_chars 2000 error)) m))).

(** *** [Continuation.hook] *)

(** Which member an event speaks for. *)
Definition hook_agent (d : db) (e : hook_event) : string :=
  if nonempty (ev_agent_id e) && nonempty (ev_teammate_name e)
  then if bool_decide (is_Some (select_one (is_member me (ev_agent_id e)) (members d)))
       then ev_agent_id e else ev_teammate_name e
  else if nonempty (ev_agent_id e) then ev_agent_id e else ev_teammate_name e.

Definition owned_names (d : db) (agent : string) : list string :=
  w_name <$> keep (owns_active me agent) (work d).

(** A stop that the harness did not continue: leave a notice for the lead. *)
Definition guard_stop (agent : string) (k : hook_kind) : M world unit :=
  execute (on_members (update_where (is_working agent)
    (λ m, member_dispatch DPending None None None None (m_last_error m) m))) ;;
  member ← query (λ d, select_one (is_member me agent) (members d));
  match member with
  | Some m =>
      if eqb (m_state m) MWorking then
        owned ← query (λ d, owned_names d agent);
        let listed := join ", " owned in
        let detail := if nonempty listed then listed else "no currently owned item" in
        execute (on_members (update_where (is_member me agent) (λ m,
          member_lifecycle (m_state m) (m_next_step m) (m_reason m)
            (Some ("hook guard: " +:+ hook_kind_name k +:+ " did not continue; inspect "
                   +:+ detail)) m))) ;;
        execute (on_sessions (update_where is_session (session_set_review true)))
      else mret tt
  | None => mret tt
  end.

Definition clear_guards : db → db := λ d,
  on_members (update_where (λ m, of_session m && guard_notice m)
    (λ m, member_lifecycle (m_state m) (m_next_step m) (m_reason m) None m))
    (on_sessions (update_where is_session (session_set_review false)) d).

Definition guard_report (pending : list member_row) : string :=
  "RSI continuation fallback observed guarded member stops: "
  +:+ join "; " ((λ m, m_agent m +:+ ": " +:+ default "" (m_notice m)) <$> pending)
  +:+ ". Inspect the owned work and resume or hand it off through the shared pool. A due Evaluator dispatch, if any, was materialized in the same transaction.".

(** The last stage: a working member is asked to continue. *)
Definition continue_member (task : session_row) (agent : string) : M world hook_answer :=
  member ← query (λ d, select_one (is_member me agent) (members d));
  match member with
  | None => mret Proceed
  | Some m =>
      if negb (eqb (m_state m) MWorking) then mret Proceed else
      execute (on_members (update_where (is_member me agent)
        (member_dispatch DPending None None None None None))) ;;
      owned ← query (λ d, owned_names d agent);
      (if bool_decide (owned = []) then
         action ← idle_action me agent;
         mret ("Claim eligible ready work first. If none is ready: " +:+ action.2)
       else mret ("Continue the work you own: " +:+ join ", " owned +:+ ". Finish with the original evidence or hand off the same work with its live job and recovery references. Inspect existing jobs before launching anything again."))
      ≫= λ instruction,
      mret (Block ("Continue your RSI " +:+ role_name (m_role m) +:+ " responsibility for "
        +:+ s_task task +:+ ". " +:+ instruction +:+ " Binding: " +:+ me.1 +:+ "/" +:+ me.2
        +:+ "/" +:+ agent +:+ ". Advance within the task's budget without lead approval. Release as waiting only for a dependency that no ready work can resolve, or done when your responsibility is complete."))
  end.

Definition hook (e : hook_event) : M world hook_answer :=
  found ← query (λ d, select_one is_session (sessions d));
  match found with
  | None => mret Proceed
  | Some task =>
      if negb (eqb (s_state task) SActive) then mret Proceed else
      match s_deadline task with
      | Some dl => t ← now; mret (dl <=? t)
      | None => mret false
      end ≫= λ passed : bool,
      if passed then expire "deadline" ;; mret Proceed else
      if eqb (ev_kind e) Interrupt && negb (nonempty (ev_agent_id e)) then
        execute (on_sessions (update_where is_session
          (session_set SPaused (Some "Interrupt") false))) ;;
        mret Proceed
      else
      agent ← query (λ d, hook_agent d e);
      when (is_stop (ev_kind e) || eqb (ev_kind e) PostToolUse) (due_evaluations me task) ;;
      if ev_stop_hook_active e then
        when (nonempty agent && is_stop (ev_kind e)) (guard_stop agent (ev_kind e)) ;;
        mret Proceed
      else
      pending ← query (λ d, keep (λ m, of_session m && guard_notice m) (members d));
      if negb (nonempty agent) && negb (bool_decide (pending = [])) &&
         (eqb (ev_kind e) PostToolUse || eqb (ev_kind e) Stop)
      then
        execute clear_guards ;;
        mret (if eqb (ev_kind e) PostToolUse then AdditionalContext (guard_report pending)
              else Block (guard_report pending))
      else
      if eqb (ev_kind e) PostToolUse || eqb (ev_kind e) SessionEnd ||
         (eqb (ev_kind e) Stop && negb (nonempty agent)) then mret Proceed else
      if negb (is_stop (ev_kind e)) || negb (nonempty agent) then mret Proceed else
      continue_member task agent
  end.
End Continuation.

(** ** Commands *)

(** The transactions on the database: the subcommands of [main], and those of
    the scheduler ([agent_scheduler.py]), whose expiry is [CExpire]. *)
Inductive command :=
  | CActivate (task : string) (deadline started_at : option Z)
  | CRegister (agent : string) (r : role) (accept : list kind) (responsibility thread_id : string)
  | CSubmit (name : string) (k : kind) (description agent topic environment : string)
      (after exclude : list string)
  | CClaim (agent : string)
  | CFinish (name agent result : string)
  | CHandoff (name agent reason : string) (from_agent : option string)
  | CSchedule (interval count : Z)
  | CQueue (agent : string) (r : role) (next_step : string)
  | CRelease (agent : string) (state : release_state) (reason : string)
  | CHook (e : hook_event)
  | CPrepare (agent supervisor thread_status : string) (lease_seconds : Z)
  | CStarted (agent supervisor dispatch turn : string) (lease_seconds : Z)
  | CFailed (agent supervisor dispatch error : string)
  | CHeartbeat (owner state : string) (error : option string)
  | CStatusError (agent error : string)
  | CExpire (reason : string).

Section Commands.
Context `{Host}.

(** The transaction of a command, its printed result left out; [main] runs
    [WorkPool.create] before every one, the scheduler once when it starts. *)
Definition run_command (me : identity) (c : command) : M world unit :=
  execute create_pool ;;
  match c with
  | CActivate task deadline started => activate me task deadline started
  | CRegister agent r accept duty thread => register me agent r accept duty thread
  | CSubmit name k desc agent topic env after exclude =>
      submit me name k desc agent topic env after exclude
  | CClaim agent => claim me agent ≫= λ r, match r with
      | Some _ => mret tt
      | None => _ ← idle_action me agent; mret tt
      end
  | CFinish name agent result => finish me name agent result
  | CHandoff name agent reason from => handoff me name agent reason from
  | CSchedule interval count => schedule me interval count
  | CQueue agent r next => _ ← queue me agent r next; mret tt
  | CRelease agent state reason => release me agent state reason
  | CHook e => _ ← hook me e; mret tt
  | CPrepare agent sup st secs => _ ← supervisor_prepare me agent sup st secs; mret tt
  | CStarted agent sup di turn secs => _ ← supervisor_started me agent sup di turn secs; mret tt
  | CFailed agent sup di err => _ ← supervisor_failed me agent sup di err; mret tt
  | CHeartbeat owner st err => scheduler_heartbeat me owner st err
  | CStatusError agent err => record_status_error me agent err
  | CExpire reason => expire me reason
  end.

(** One committed transaction of some process, at any clock, among the commands
    that satisfy [P]. *)
Definition step_by (P : command → Prop) (d d' : db) : Prop :=
  ∃ me c w w', P c ∧ the_db w = d ∧ run_command me c w = Ok (tt, w') ∧ the_db w' = d'.
Definition db_step : db → db → Prop := step_by (λ _, True).

(** Everything but the expiry of [agent_scheduler.main], which does not look at
    the state it overwrites. *)
Definition guarded_step : db → db → Prop := step_by (λ c, ∀ reason, c ≠ CExpire reason).

Definition reachable (d : db) : Prop := rtc db_step empty_db d.

(** The claim loop of [main]: every pass is one transaction; when nothing was
    claimed the idle action is the result if it is [research] or the wait is
    over, otherwise the loop sleeps and tries again. *)
Inductive claim_result :=
  | Claimed (row : work_row) (deps : list (string * option string))
  | Idle (action task instruction : string).

Definition claim_pass (me : identity) (agent : string) (waited_out : bool)
    : M world (option claim_result) :=
  r ← claim me agent;
  match r with
  | Some (row, deps) => mret (Some (Claimed row deps))
  | None =>
      a ← idle_action me agent;
      if eqb a.1.1 "research" || waited_out then mret (Some (Idle a.1.1 a.1.2 a.2)) else mret None
  end.
End Commands.
