(* ===== verification/ContinuationProofs.v ===== *)
(** * Correctness of the RSI task lifecycle

    The pool invariant and key uniqueness hold in every database any sequence of
    commands, hooks and supervisor transactions can produce; a session keeps its
    task, deadline and start, and a complete session never changes; a member is
    dispatched at most once per lease; hooks and the claim loop. *)

From S2P Require Import Prelude Sql RsiStore WorkPool WorkPoolProofs Continuation.

Section Sessions.
Context `{Host}.
Variable me : identity.

(** ** Pool operations never touch the session table *)

(** Close the writes of a body that leaves the predicate's table alone. *)
Ltac untouched :=
  keeps_auto;
  try (apply keeps_execute; done);
  try (apply keeps_execute_checked; unfold insert_dependency; intros ? ?;
       repeat (intros ?%outcome_bind_Ok || case_match || destruct_and? || naive_solver)).

Lemma active_sessions (Q : list session_row → Prop) :
  keeps (on_db (λ d, Q (sessions d))) (active me).
Proof. apply keeps_active. Qed.
#[local] Hint Resolve active_sessions : keeps.

Lemma submit_sessions Q name k desc agent topic env after exclude :
  keeps (on_db (λ d, Q (sessions d))) (submit me name k desc agent topic env after exclude).
Proof.
  unfold submit. keeps_auto; apply keeps_execute_checked; unfold insert_dependency;
    intros d d' HQ (t & Ht & E)%outcome_bind_Ok; try (by injection E as <-).
  case_match; [|done]. by injection E as <-.
Qed.
#[local] Hint Resolve submit_sessions : keeps.

Lemma register_sessions Q agent r accepts resp thread :
  keeps (on_db (λ d, Q (sessions d))) (register me agent r accepts resp thread).
Proof. unfold register. cbv zeta. untouched. Qed.

Lemma due_evaluations_sessions Q task :
  keeps (on_db (λ d, Q (sessions d))) (due_evaluations me task).
Proof. unfold due_evaluations. untouched. Qed.
#[local] Hint Resolve register_sessions due_evaluations_sessions : keeps.

Lemma schedule_sessions Q interval count :
  keeps (on_db (λ d, Q (sessions d))) (schedule me interval count).
Proof. unfold schedule. untouched. Qed.

Lemma idle_action_sessions Q agent : keeps (on_db (λ d, Q (sessions d))) (idle_action me agent).
Proof. unfold idle_action. untouched. Qed.
#[local] Hint Resolve idle_action_sessions : keeps.

Lemma claim_sessions Q agent : keeps (on_db (λ d, Q (sessions d))) (claim me agent).
Proof. unfold claim, activate_work. untouched. Qed.

Lemma finish_sessions Q name agent result :
  keeps (on_db (λ d, Q (sessions d))) (finish me name agent result).
Proof. unfold finish. untouched. Qed.

Lemma handoff_sessions Q name agent reason from :
  keeps (on_db (λ d, Q (sessions d))) (handoff me name agent reason from).
Proof. unfold handoff. cbv zeta. untouched. Qed.

Lemma queue_sessions Q agent r next : keeps (on_db (λ d, Q (sessions d))) (queue me agent r next).
Proof. unfold queue. untouched. Qed.
#[local] Hint Resolve queue_sessions : keeps.

Lemma replay_queued_sessions Q : keeps (on_db (λ d, Q (sessions d))) (replay_queued me).
Proof. unfold replay_queued. untouched. Qed.

(** ** What may happen to a session row *)

(** Whether a complete session must stay as it is. *)
Variable frozen : bool.

(** Identity, task and deadline are fixed, a known start stays, and a complete
    session may be frozen. *)
Definition session_le (s s' : session_row) : Prop :=
  s_id s' = s_id s ∧ s_task s' = s_task s ∧ s_deadline s' = s_deadline s ∧
  (s_started s = None ∨ s_started s' = s_started s) ∧
  (frozen = true → s_state s = SComplete → s' = s).

Lemma session_le_refl s : session_le s s.
Proof. unfold session_le. naive_solver. Qed.

Lemma session_le_trans s s' s'' : session_le s s' → session_le s' s'' → session_le s s''.
Proof.
  intros (H1 & H2 & H3 & H4 & H5) (K1 & K2 & K3 & K4 & K5).
  assert (frozen = true → s_state s = SComplete → s'' = s) as Hc.
  { intros Hf Hs. pose proof (H5 Hf Hs) as ->. auto. }
  split_and!; try congruence; [|done].
  destruct H4 as [|H4]; [auto|]. destruct K4 as [K4|K4]; [left|right]; congruence.
Qed.

(** Session identities are unique, and [t] evolved from a table that held [s0],
    when one is given. *)
Definition evolved (s0 : option session_row) (t : list session_row) : Prop :=
  NoDup (keys s_id t) ∧ ∀ s1, s0 = Some s1 → ∃ s, s ∈ t ∧ session_le s1 s.

(** No row of this session is complete. *)
Definition not_complete (t : list session_row) : Prop :=
  ∀ s, s ∈ t → s_id s = me → s_state s ≠ SComplete.

Lemma evolved_update s0 t f :
  evolved s0 t → (∀ s, s_id (f s) = s_id s) →
  (∀ s, s ∈ t → s_id s = me → session_le s (f s)) → evolved s0 (update_where (is_session me) f t).
Proof.
  intros [Hnd He] Hid Hf. split; [by rewrite keys_update_where|].
  intros s1 Hs1. destruct (He s1 Hs1) as (s & Hs & Hle).
  destruct (is_session me s) eqn:E.
  - exists (f s). split; [rewrite elem_of_update_where; left; eauto|].
    eapply session_le_trans; [done|]. apply Hf; [done|]. unfold is_session in E.
    by rewrite eqb_true in E.
  - exists s. split; [rewrite elem_of_update_where; auto|done].
Qed.

Lemma select_session_state t s :
  NoDup (keys s_id t) → select_one (is_session me) t = Some s →
  s ∈ t ∧ s_id s = me ∧ ∀ s', s' ∈ t → s_id s' = me → s' = s.
Proof.
  intros Hnd [Hs Hid]%select_one_Some. unfold is_session in Hid. rewrite eqb_true in Hid.
  split_and!; [done|done|]. intros s' Hs' Hid'. apply (unique_row s_id t); try done. congruence.
Qed.

(** Changing state, reason and review flag of a session that is not complete. *)
Lemma evolved_set s0 t st reason review :
  evolved s0 t → not_complete t →
  evolved s0 (update_where (is_session me) (session_set st reason review) t).
Proof.
  intros He Hn. apply evolved_update; [done|done|]. intros s Hs Hid.
  unfold session_le. simpl. split_and!; auto. intros _ Hc. exfalso. by eapply Hn.
Qed.

Lemma evolved_set_review s0 t review :
  evolved s0 t → not_complete t →
  evolved s0 (update_where (is_session me) (session_set_review review) t).
Proof.
  intros He Hn. apply evolved_update; [done|done|]. intros s Hs Hid.
  unfold session_le, session_set_review. simpl. split_and!; auto. intros _ Hc. exfalso. by eapply Hn.
Qed.

Lemma not_complete_update t f :
  not_complete t → (∀ s, s_id (f s) = s_id s) →
  (∀ s, s ∈ t → s_id s = me → s_state (f s) ≠ SComplete) →
  not_complete (update_where (is_session me) f t).
Proof.
  intros Hn Hid Hf s. rewrite elem_of_update_where. intros [(s1 & Hs1 & Hp & ->)|[Hs Hp]].
  - intros _. unfold is_session in Hp. rewrite eqb_true in Hp. auto.
  - auto.
Qed.

(** ** Session evolution through every operation *)

Section Evolution.
Variable s0 : option session_row.

Definition evolving (d : db) : Prop := evolved s0 (sessions d).
Definition evolving_live (d : db) : Prop := evolved s0 (sessions d) ∧ not_complete (sessions d).

(** Reading the session row tells whether it is live. *)
Lemma triple_found :
  triple (on_db evolving) (query (λ d, select_one (is_session me) (sessions d)))
    (λ found, on_db (λ d, evolving d ∧
       ∀ s, found = Some s → s_state s ≠ SComplete → evolving_live d)).
Proof.
  apply triple_reads. intros w He. split; [done|]. intros s E Hs. split; [apply He|].
  intros s' Hs' Hid. destruct (select_session_state _ _ (proj1 He) E) as (_ & _ & Hu).
  by rewrite (Hu s' Hs' Hid).
Qed.

Lemma live_evolving {A} (m : M world A) :
  keeps (on_db evolving_live) m → triple (on_db evolving_live) m (λ _, on_db evolving).
Proof. intros Hm. eapply triple_consequence; [exact Hm|done|]. by intros _ w [? _]. Qed.

Lemma live_set st reason review :
  st ≠ SComplete → keeps (on_db evolving_live)
    (execute (on_sessions (update_where (is_session me) (session_set st reason review)))).
Proof.
  intros Hst. apply keeps_execute. intros d [He Hn]. split; [by apply evolved_set|].
  apply not_complete_update; auto.
Qed.

Lemma live_set_review review :
  keeps (on_db evolving_live)
    (execute (on_sessions (update_where (is_session me) (session_set_review review)))).
Proof.
  apply keeps_execute. intros d [He Hn]. split; [by apply evolved_set_review|].
  apply not_complete_update; auto.
Qed.

Lemma live_members f : keeps (on_db evolving_live) (execute (on_members f)).
Proof. by apply keeps_execute. Qed.
#[local] Hint Resolve live_set_review live_members : keeps.

Lemma expire_live reason : keeps (on_db evolving_live) (expire me reason).
Proof. unfold expire. keeps_auto. by apply live_set. Qed.
#[local] Hint Resolve expire_live : keeps.

Lemma due_evaluations_live task : keeps (on_db evolving_live) (due_evaluations me task).
Proof. exact (due_evaluations_sessions (λ t, evolved s0 t ∧ not_complete t) task). Qed.
Lemma idle_action_live agent : keeps (on_db evolving_live) (idle_action me agent).
Proof. exact (idle_action_sessions (λ t, evolved s0 t ∧ not_complete t) agent). Qed.
#[local] Hint Resolve due_evaluations_live idle_action_live : keeps.

Lemma guard_stop_live agent k : keeps (on_db evolving_live) (guard_stop me agent k).
Proof. unfold guard_stop. cbv zeta. keeps_auto. Qed.

Lemma clear_guards_live : keeps (on_db evolving_live) (execute (clear_guards me)).
Proof.
  apply keeps_execute. intros d [He Hn]. split; simpl; [by apply evolved_set_review|].
  apply not_complete_update; auto.
Qed.

Lemma continue_member_live task agent : keeps (on_db evolving_live) (continue_member me task agent).
Proof. unfold continue_member. keeps_auto. Qed.
#[local] Hint Resolve guard_stop_live clear_guards_live continue_member_live : keeps.

Lemma hook_evolving e : keeps (on_db evolving) (hook me e).
Proof.
  unfold hook. eapply triple_bind; [apply triple_found|]. intros [task|].
  2: { apply triple_ret. by intros w [? _]. }
  destruct (negb (eqb (s_state task) SActive)) eqn:E.
  { apply triple_ret. by intros w [? _]. }
  rewrite negb_false_iff, eqb_true in E.
  eapply triple_consequence with (P' := on_db evolving_live); [apply live_evolving| |done].
  - keeps_auto. by apply live_set.
  - intros w [_ Hl]. apply (Hl task); [done|congruence].
Qed.

Lemma resume_session_live existing task deadline started :
  triple (on_db (λ d, evolving_live d ∧ select_one (is_session me) (sessions d) = Some existing))
    (resume_session me existing task deadline started) (λ _, on_db evolving_live).
Proof.
  unfold resume_session. repeat (case_match; [apply triple_raise|]).
  eapply triple_bind with (R := λ _, on_db evolving_live).
  - destruct started as [started|]; [|apply triple_ret; by intros w [? _]].
    destruct (bool_decide (is_Some (s_started existing)) && _) eqn:E; [apply triple_raise|].
    apply triple_writes. intros w [[He Hn] Hsel]. split; [|by apply not_complete_update].
    destruct (select_session_state _ _ (proj1 He) Hsel) as (_ & _ & Hu).
    apply evolved_update; [done|done|]. intros s Hs Hid. rewrite (Hu s Hs Hid).
    unfold session_le. simpl. split_and!; auto.
    + rewrite andb_false_iff, negb_false_iff, bool_decide_eq_false, eqb_true in E.
      destruct E as [E|E]; [left|right; done]. by apply eq_None_not_Some.
    + intros _ Hc. exfalso. rewrite <-(Hu s Hs Hid) in Hc. by eapply Hn.
  - intros _. change (keeps (on_db evolving_live)
      (match s_deadline existing with
       | Some dl => t ← now; if dl <=? t
           then raise (ValueError "The original task deadline has passed") else mret tt
       | None => mret tt
       end ;; execute (on_sessions (update_where (is_session me) (session_set SActive None false))))).
    keeps_auto. by apply live_set.
Qed.

Lemma activate_evolving task deadline started :
  keeps (on_db evolving) (activate me task deadline started).
Proof.
  unfold activate. destruct (resolve_strict task) as [path|]; [|apply keeps_raise].
  case_match; [apply keeps_raise|].
  eapply triple_bind with (R := λ found, on_db (λ d, evolving d ∧
    found = select_one (is_session me) (sessions d))); [by apply triple_reads|].
  intros [existing|].
  - intros w a w' [He Hsel] E. unfold mbind, M_bind in E.
    destruct (resume_session _ _ _ _ _ w) as [[[] w1]|] eqn:E1; [|done].
    assert (on_db evolving_live w1) as Hl.
    { destruct (decide (s_state existing = SComplete)) as [Hc|Hc].
      - exfalso. revert E1. unfold resume_session. case_match; [done|]. by rewrite Hc, eqb_refl.
      - eapply resume_session_live; [|done]. split; [|done]. split; [done|].
        intros s' Hs' Hid. destruct (select_session_state _ _ (proj1 He) (eq_sym Hsel)) as (_ & _ & Hu).
        by rewrite (Hu s' Hs' Hid). }
    apply (replay_queued_sessions (evolved s0) w1 a w'); [apply Hl|done].
  - eapply triple_consequence with (P' := on_db evolving) (Q' := λ _, on_db evolving);
      [|by intros w [? _]|done].
    change (keeps (on_db evolving)
      (match deadline with
       | Some dl => t ← now; if dl <=? t then raise (ValueError "The task deadline has passed")
           else mret tt
       | None => mret tt
       end ;; (match started with Some s => mret s | None => now end ≫= λ st,
       execute_checked (λ d, t ← insert_row s_id (Session me path deadline (Some st) SActive None false)
          (sessions d); Ok (on_sessions (λ _, t) d))))).
    keeps_auto. all: apply keeps_execute_checked;
      intros d d' [Hnd Hev] (t & Ht & [= <-])%outcome_bind_Ok;
      rewrite insert_row_Ok in Ht; destruct Ht as [Hk ->].
    all: split; [by apply NoDup_keys_snoc|]; intros s1 Hs1;
      destruct (Hev s1 Hs1) as (s & Hs & Hle); exists s; split; [simpl; set_solver|done].
Qed.

Lemma release_evolving agent st reason : keeps (on_db evolving) (release me agent st reason).
Proof.
  unfold release, session. eapply triple_bind.
  { eapply triple_bind; [apply triple_found|]. intros [task|]; [|apply triple_raise].
    apply triple_ret with (Q := λ s, on_db (λ d, evolving d ∧ (s_state s ≠ SComplete → evolving_live d))).
    intros w [He Hl]. split; [done|]. intros. by apply (Hl task). }
  intros task. case_bool_decide; [apply triple_raise|].
  destruct (eqb (s_state task) SComplete) eqn:E.
  { case_match; [|apply triple_raise]. apply triple_ret. by intros w [? _]. }
  rewrite eqb_false in E. case_match.
  - eapply triple_consequence with (P' := on_db evolving) (Q' := λ _, on_db evolving);
      [|by intros w [? _]|done].
    case_match; [|apply triple_raise]. change (keeps (on_db evolving)
      (owned ← query (λ d, keep (owns_active me agent) (work d));
       if negb (bool_decide (owned = [])) then raise (ValueError ("Finish or hand off owned work before releasing the member: " +:+ join ", " (w_name <$> owned)))
       else count ← query (λ d, rowcount (is_member me agent) (members d));
       execute (on_members (update_where (is_member me agent) (release_member m reason))) ;;
       if bool_decide (count = 0%nat) then raise (ValueError "The member is not registered for this RSI session") else mret tt)).
    keeps_auto. by apply keeps_execute.
  - case_match; [|apply triple_raise].
    eapply triple_bind with (R := λ _, on_db evolving).
    + apply triple_writes. intros w [_ Hl]. destruct (Hl E) as [He Hn]. by apply evolved_set.
    + intros _. by apply triple_writes.
Qed.

Lemma supervisor_prepare_evolving agent sup st secs :
  keeps (on_db evolving) (supervisor_prepare me agent sup st secs).
Proof.
  unfold supervisor_prepare. apply keeps_bind; [auto with keeps|]. intros t.
  eapply triple_bind with (R := λ found, on_db (λ d, evolving d ∧
    (is_Some found → evolving_live d))).
  { apply triple_reads. intros w He. split; [done|]. intros [x Hx].
    destruct (active_session me (the_db w)) as [s|] eqn:E; [|done]. split; [apply He|].
    unfold active_session in E. apply select_one_Some in E as [Hs Hp]. reflect_in Hp.
    unfold is_session in Hp. reflect_in Hp. intros s' Hs' Hid.
    rewrite (unique_row s_id _ s' s (proj1 He) Hs' Hs); naive_solver congruence. }
  intros [[s m]|]; [|apply triple_ret; by intros w [? _]].
  eapply triple_consequence with (P' := on_db evolving_live) (Q' := λ _, on_db evolving);
    [apply live_evolving|intros w [_ Hl]; by apply Hl|done].
  cbv zeta. keeps_auto.
Qed.

Lemma keeps_members_evolving f : keeps (on_db evolving) (execute (on_members f)).
Proof. by apply keeps_execute. Qed.
#[local] Hint Resolve keeps_members_evolving : keeps.

(** The scheduler's expiry writes the session whatever its state. *)
Lemma expire_evolving reason : frozen = false → keeps (on_db evolving) (expire me reason).
Proof.
  intros Hf. unfold expire. keeps_auto. apply keeps_execute. intros d He.
  apply evolved_update; [done|done|]. intros s Hs Hid. unfold session_le. simpl. rewrite Hf.
  split_and!; auto. done.
Qed.

Lemma run_command_evolving c :
  (frozen = true → ∀ reason, c ≠ CExpire reason) → keeps (on_db evolving) (run_command me c).
Proof.
  intros Hc. unfold run_command. apply keeps_bind; [by apply keeps_execute|]. intros _.
  destruct c.
  - apply activate_evolving.
  - apply (register_sessions (evolved s0)).
  - apply (submit_sessions (evolved s0)).
  - apply keeps_bind; [apply (claim_sessions (evolved s0))|]. intros [[? ?]|]; [auto with keeps|].
    apply keeps_bind; [apply (idle_action_sessions (evolved s0))|auto with keeps].
  - apply (finish_sessions (evolved s0)).
  - apply (handoff_sessions (evolved s0)).
  - apply (schedule_sessions (evolved s0)).
  - apply keeps_bind; [apply (queue_sessions (evolved s0))|auto with keeps].
  - apply release_evolving.
  - apply keeps_bind; [apply hook_evolving|auto with keeps].
  - apply keeps_bind; [apply supervisor_prepare_evolving|auto with keeps].
  - unfold supervisor_started. keeps_auto.
  - unfold supervisor_failed. keeps_auto.
  - unfold scheduler_heartbeat. cbv zeta. keeps_auto. apply keeps_execute_checked.
    intros d d' He. case_match; [|done]. by intros [= <-].
  - unfold record_status_error. auto with keeps.
  - apply expire_evolving. destruct frozen; [|done]. by destruct (Hc eq_refl reason).
Qed.
End Evolution.
End Sessions.

(** ** The pool invariant in every reachable database *)

Section Reachable.
Context `{Host}.

Lemma create_pool_wf d : pool_wf d → create_pool d = d.
Proof.
  intros Hwf. unfold create_pool, on_work. rewrite update_where_none; [by destruct d|].
  intros w Hw. apply andb_false_iff.
  destruct (eqb (w_state w) Ready) eqn:E; [right|auto]. rewrite eqb_true in E.
  pose proof (pool_owner d Hwf w Hw) as Ho. red in Ho. rewrite E in Ho. rewrite Ho.
  by apply bool_decide_eq_false, is_Some_None.
Qed.

Lemma keeps_other_tables f :
  (∀ d, work (f d) = work d ∧ participants (f d) = participants d ∧
        dependencies (f d) = dependencies d) →
  keeps (on_db pool_wf) (execute f).
Proof. apply keeps_frame. Qed.

Section WithIdentity.
Variable me : identity.

Lemma members_pool f : keeps (on_db pool_wf) (execute (on_members f)).
Proof. by apply keeps_frame. Qed.
Lemma sessions_pool f : keeps (on_db pool_wf) (execute (on_sessions f)).
Proof. by apply keeps_frame. Qed.
#[local] Hint Resolve members_pool sessions_pool : keeps.
#[local] Hint Resolve keeps_active register_keeps submit_keeps due_evaluations_keeps
  idle_action_keeps claim_keeps finish_keeps handoff_keeps schedule_keeps : keeps.

Lemma expire_pool reason : keeps (on_db pool_wf) (expire me reason).
Proof. unfold expire. keeps_auto. Qed.
#[local] Hint Resolve expire_pool : keeps.

(** Pending next steps are unclaimed. *)
Lemma elem_of_pending_next d agent w :
  w ∈ pending_next me d agent ↔ w ∈ work d ∧ is_next me agent w = true ∧ w_state w = Ready ∧
    w_owner w = None ∧ w_previous_owner w = None.
Proof.
  unfold pending_next, by_age. rewrite elem_of_sort_by, elem_of_keep, !andb_true_iff, eqb_true,
    !bool_decide_eq_true. naive_solver.
Qed.

(** Editing, by name, one unclaimed row. *)
Lemma pool_wf_edit_row d name f row :
  pool_wf d → (∀ w, work_key (f w) = work_key w) →
  row ∈ work d → w_id row = me → w_name row = name → w_state row = Ready →
  (∀ w, (w_state (f w) = w_state w ∨ w_state (f w) = Cancelled) ∧ w_owner (f w) = w_owner w) →
  pool_wf (on_work (update_where (is_work me name) f) d).
Proof.
  intros Hwf Hkey Hrow Hid Hn Hs Hf.
  assert (update_where (is_work me name) f (work d) =
          update_where (λ w, is_work me name w && eqb (w_state w) Ready) f (work d)) as E.
  { apply list_fmap_ext. intros i w Hw. apply list_elem_of_lookup_2 in Hw.
    destruct (is_work me name w) eqn:Ew; simpl; [|done]. unfold is_work in Ew. reflect_in Ew.
    assert (w = row) as ->; [|by rewrite Hs].
    apply (unique_row work_key (work d)); [apply Hwf|done|done|]. unfold work_key.
    destruct Ew. congruence. }
  apply (pool_wf_frame (on_work (update_where (λ w, is_work me name w && eqb (w_state w) Ready) f) d));
    [by simpl; rewrite E|done|done|].
  apply pool_wf_edit_ready; [done|done| |].
  - intros w Hw. reflect_in Hw. naive_solver.
  - intros w Hw Ho. reflect_in Hw. destruct (Hf w) as [[E1|E1] E2]; rewrite E2; split; auto;
      left; rewrite E1; naive_solver.
Qed.

(** The writes on pending next steps keep them editable one after another. *)
Definition editable (rows : list work_row) (d : db) : Prop :=
  pool_wf d ∧ ∀ r, r ∈ rows → ∃ r', r' ∈ work d ∧ work_key r' = work_key r ∧ w_id r' = me ∧
    w_state r' = Ready.

Lemma editable_edit r rows f :
  (∀ w, work_key (f w) = work_key w) →
  (∀ w, (w_state (f w) = w_state w ∨ w_state (f w) = Cancelled) ∧ w_owner (f w) = w_owner w) →
  (∀ r', r' ∈ rows → work_key r' ≠ work_key r) →
  triple (on_db (editable (r :: rows)))
    (execute (on_work (update_where (is_work me (w_name r)) f))) (λ _, on_db (editable rows)).
Proof.
  intros Hkey Hf Hne. apply triple_writes. intros w [Hwf Hed].
  destruct (Hed r) as (r0 & Hr0 & Hk0 & Hid0 & Hs0); [set_solver|].
  injection Hk0 as Hi0 Hn0. split.
  - by eapply pool_wf_edit_row with (row := r0).
  - intros r' Hr'. destruct (Hed r') as (r1 & Hr1 & Hk1 & Hid1 & Hs1); [set_solver|].
    exists r1. split_and!; try done. simpl. rewrite elem_of_update_where. right. split; [done|].
    apply not_true_iff_false. unfold is_work. rewrite andb_true_iff, !eqb_true.
    intros [_ Hn1]. apply (Hne r' Hr'). rewrite <-Hk1. unfold work_key. congruence.
Qed.

Definition cancel_duplicate (dup : work_row) : M world unit :=
  execute (on_work (update_where (is_work me (w_name dup))
    (λ w, work_set Cancelled (w_owner w) (w_previous_owner w) (w_result w)
            (Some "Replaced legacy next step") w))).

Lemma cancel_duplicates_keeps rest :
  NoDup (work_key <$> rest) →
  triple (on_db (editable rest)) (for_each rest cancel_duplicate) (λ _, on_db pool_wf).
Proof.
  induction rest as [|x rest IH]; intros Hnd; simpl.
  { apply triple_ret. by intros ? [? _]. }
  apply NoDup_cons in Hnd as [Hx Hrest].
  eapply triple_bind; [apply editable_edit; [done|by intros; split; [right|]|]|intros []; auto].
  intros r' Hr' Heq. apply Hx. rewrite <-Heq. by apply list_elem_of_fmap_2.
Qed.

Lemma queue_keeps agent r next : keeps (on_db pool_wf) (queue me agent r next).
Proof.
  unfold queue. apply keeps_bind; [auto with keeps|]. intros accepts.
  apply keeps_bind; [auto with keeps|]. intros _.
  apply keeps_bind; [auto with keeps|]. intros [same|]; [auto with keeps|].
  eapply triple_bind with (R := λ pending, on_db (λ d, editable pending d ∧
    NoDup (work_key <$> pending))).
  { apply triple_reads. intros w Hwf. split; [split; [done|]|].
    - intros x (Hx & Hn & Hs & _)%elem_of_pending_next. exists x. split_and!; try done.
      unfold is_next in Hn. reflect_in Hn. naive_solver.
    - unfold pending_next, by_age. rewrite sort_by_perm. apply NoDup_keys_keep, Hwf. }
  intros [|first rest].
  { eapply triple_consequence with (P' := on_db pool_wf) (Q' := λ _, on_db pool_wf);
      [|intros w [[? _] _]; done|done].
    change (keeps (on_db pool_wf) (name ← query (λ d, new_next_name me d agent);
      submit me name (kind_of_role r) next agent "" "" [] [] ;; mret name)). keeps_auto. }
  intros w a w' [Hed Hnd] E. apply NoDup_cons in Hnd as [Hfirst Hrest].
  revert w a w' Hed E. change (triple (on_db (editable (first :: rest)))
    (execute (on_work (update_where (is_work me (w_name first)) (work_redescribe (kind_of_role r) next))) ;;
     for_each rest cancel_duplicate ;; mret (w_name first)) (λ _, on_db pool_wf)).
  eapply triple_bind; [apply editable_edit; [done|by intros; split; [left|]|]|].
  { intros r' Hr' Heq. apply Hfirst. rewrite <-Heq. by apply list_elem_of_fmap_2. }
  intros []. eapply triple_bind; [by apply cancel_duplicates_keeps|].
  intros []. apply keeps_ret.
Qed.
#[local] Hint Resolve queue_keeps : keeps.

Lemma activate_keeps task deadline started :
  keeps (on_db pool_wf) (activate me task deadline started).
Proof.
  unfold activate, resume_session, replay_queued. keeps_auto.
  all: apply keeps_execute_checked; intros d d' Hwf (t & _ & [= <-])%outcome_bind_Ok;
    by apply (pool_wf_frame d).
Qed.

Lemma hook_keeps e : keeps (on_db pool_wf) (hook me e).
Proof.
  unfold hook, guard_stop, continue_member. cbv zeta. keeps_auto. by apply keeps_frame.
Qed.

Lemma run_command_keeps c : keeps (on_db pool_wf) (run_command me c).
Proof.
  unfold run_command. apply keeps_bind.
  { apply keeps_execute. intros d Hwf. by rewrite create_pool_wf. }
  intros _. destruct c; auto with keeps.
  - apply activate_keeps.
  - keeps_auto.
  - unfold release, session. keeps_auto.
  - apply keeps_bind; [apply hook_keeps|auto with keeps].
  - unfold supervisor_prepare. cbv zeta. keeps_auto.
  - unfold supervisor_started. keeps_auto.
  - unfold supervisor_failed. keeps_auto.
  - unfold scheduler_heartbeat. cbv zeta. keeps_auto. apply keeps_execute_checked.
    intros d d' Hwf. case_match; [|done]. intros [= <-]. by apply (pool_wf_frame d).
  - unfold record_status_error. auto with keeps.
Qed.
End WithIdentity.

Lemma pool_wf_step d d' : db_step d d' → pool_wf d → pool_wf d'.
Proof. intros (me & c & w & w' & _ & <- & E & <-) Hwf. by apply (run_command_keeps me c w tt w'). Qed.

Lemma pool_wf_reachable d : reachable d → pool_wf d.
Proof.
  unfold reachable. intros Hr.
  apply (rtc_ind_r (R := db_step) pool_wf empty_db); [apply pool_wf_empty| |done].
  intros d1 d2 _ Hs Hwf. by eapply pool_wf_step.
Qed.

(** C1: in every database that any interleaving of commands, hooks and
    supervisor transactions can produce, work items are unique, an item has an
    owner exactly when it is claimed, dependencies point to earlier items, claimed
    items have all their dependencies done, and nobody reviews work they
    contributed to. *)
Theorem reachable_pool_wf d : reachable d → pool_wf d.
Proof. apply pool_wf_reachable. Qed.

(** Sessions evolve along any sequence of steps; a complete one stays frozen
    when the scheduler's expiry is not among them. *)
Lemma evolved_steps frozen (P : command → Prop) s0 d d' :
  (∀ c, P c → frozen = true → ∀ reason, c ≠ CExpire reason) →
  rtc (step_by P) d d' → evolved frozen s0 (sessions d) → evolved frozen s0 (sessions d').
Proof.
  intros HP Hs He. apply (rtc_ind_r (R := step_by P) (λ d, evolved frozen s0 (sessions d)) d); [done| |done].
  intros d1 d2 _ (me & c & w & w' & Hc & <- & E & <-) He1.
  apply (run_command_evolving me frozen s0 c (HP c Hc) w tt w' He1 E).
Qed.

Lemma sessions_unique d : reachable d → NoDup (keys s_id (sessions d)).
Proof.
  intros Hr. apply (evolved_steps false (λ _, True) None empty_db d); [done|exact Hr|].
  split; [constructor|done].
Qed.

Lemma evolved_self frozen d s : reachable d → s ∈ sessions d → evolved frozen (Some s) (sessions d).
Proof.
  intros Hr Hin. split; [by apply sessions_unique|]. intros s1 [= <-]. exists s.
  split; [done|apply session_le_refl].
Qed.

(** C4: whatever commands, hooks and supervisors do, a session keeps its task
    and its deadline and a recorded start is never changed; and no transaction
    other than the scheduler's expiry ever writes a session that was released as
    complete. *)
Theorem session_binding_stable d s :
  reachable d → s ∈ sessions d →
  (∀ d', rtc db_step d d' →
     ∃ s', s' ∈ sessions d' ∧ s_id s' = s_id s ∧ s_task s' = s_task s ∧
        s_deadline s' = s_deadline s ∧ (s_started s = None ∨ s_started s' = s_started s)) ∧
  (∀ d', rtc guarded_step d d' → s_state s = SComplete → s ∈ sessions d').
Proof.
  intros Hr Hin. split; intros d' Hs.
  - destruct (evolved_steps false (λ _, True) _ d d' (λ c _ E, ltac:(done)) Hs (evolved_self false d s Hr Hin)) as [_ He].
    destruct (He s eq_refl) as (s' & Hs' & H1 & H2 & H3 & H4 & _). by exists s'.
  - intros Hc. destruct (evolved_steps true _ _ d d' (λ c Hc _, Hc) Hs (evolved_self true d s Hr Hin)) as [_ He].
    destruct (He s eq_refl) as (s' & Hs' & _ & _ & _ & _ & Hfr). by rewrite <-(Hfr eq_refl Hc).
Qed.
End Reachable.

(** ** Members are unique *)

Section Members.
Context `{Host}.
Variable me : identity.

Definition members_unique (d : db) : Prop := NoDup (keys member_key (members d)).

Lemma members_update p f :
  (∀ m, member_key (f m) = member_key m) →
  keeps (on_db members_unique) (execute (on_members (update_where p f))).
Proof.
  intros Hf. apply keeps_execute. intros d Hd. red. simpl. by rewrite keys_update_where.
Qed.

Lemma members_other f :
  (∀ d, members (f d) = members d) → keeps (on_db members_unique) (execute f).
Proof. intros Hf. apply keeps_execute. intros d Hd. red. by rewrite Hf. Qed.

Ltac uniq :=
  keeps_auto;
  try (by apply members_update);
  try (by apply members_other);
  try (apply keeps_execute_checked; unfold insert_dependency;
       intros d d' Hd (t & _ & E)%outcome_bind_Ok;
       first [by injection E as <-|case_match; [by injection E as <-|done]]).

#[local] Hint Resolve keeps_active : keeps.

Lemma submit_members name k desc agent topic env after exclude :
  keeps (on_db members_unique) (submit me name k desc agent topic env after exclude).
Proof. unfold submit. uniq. Qed.
#[local] Hint Resolve submit_members : keeps.

Lemma register_members agent r accepts resp thread :
  keeps (on_db members_unique) (register me agent r accepts resp thread).
Proof.
  unfold register. cbv zeta. uniq. apply keeps_execute. intros d Hd.
  by apply NoDup_keys_upsert.
Qed.
Lemma due_evaluations_members task : keeps (on_db members_unique) (due_evaluations me task).
Proof. unfold due_evaluations. uniq. Qed.
Lemma idle_action_members agent : keeps (on_db members_unique) (idle_action me agent).
Proof. unfold idle_action. uniq. Qed.
#[local] Hint Resolve register_members due_evaluations_members idle_action_members : keeps.

Lemma claim_members agent : keeps (on_db members_unique) (claim me agent).
Proof. unfold claim, activate_work. uniq. Qed.
Lemma queue_members agent r next : keeps (on_db members_unique) (queue me agent r next).
Proof. unfold queue. uniq. Qed.
Lemma expire_members reason : keeps (on_db members_unique) (expire me reason).
Proof. unfold expire. uniq. Qed.
#[local] Hint Resolve claim_members queue_members expire_members : keeps.

Lemma hook_members e : keeps (on_db members_unique) (hook me e).
Proof.
  unfold hook, guard_stop, continue_member. cbv zeta. uniq.
  apply keeps_execute. intros d Hd. red. simpl. by rewrite keys_update_where.
Qed.

Lemma supervisor_prepare_members agent sup st secs :
  keeps (on_db members_unique) (supervisor_prepare me agent sup st secs).
Proof. unfold supervisor_prepare. cbv zeta. uniq. Qed.
Lemma supervisor_started_members agent sup di turn secs :
  keeps (on_db members_unique) (supervisor_started me agent sup di turn secs).
Proof. unfold supervisor_started. uniq. Qed.
#[local] Hint Resolve supervisor_prepare_members supervisor_started_members : keeps.

Lemma run_command_members c : keeps (on_db members_unique) (run_command me c).
Proof.
  unfold run_command. apply keeps_bind; [by apply members_other|]. intros _.
  destruct c; auto with keeps.
  - unfold activate, resume_session, replay_queued. uniq.
  - uniq.
  - unfold finish. uniq.
  - unfold handoff. cbv zeta. uniq.
  - unfold schedule. uniq.
  - unfold release, session. uniq.
  - apply keeps_bind; [apply hook_members|auto with keeps].
  - unfold supervisor_failed. uniq.
  - unfold scheduler_heartbeat. cbv zeta. uniq. apply keeps_execute_checked.
    intros d d' Hd. case_match; [|done]. by intros [= <-].
  - unfold record_status_error. uniq.
Qed.

(** ** One dispatch per lease *)

(** What a granted lease records. *)
Lemma prepare_granted agent sup st secs w l w' :
  supervisor_prepare me agent sup st secs w = Ok (Some l, w') →
  clock_reads w' = S (clock_reads w) ∧ ∃ m, m ∈ members (the_db w') ∧ is_working me agent m = true ∧
    m_dispatch_state m = DDispatching ∧ m_lease_owner m = Some sup ∧
    m_dispatch_id m = Some (l_dispatch l) ∧ m_turn_id m = None ∧
    m_lease_until m = Some (time_at (clock_reads w) + secs).
Proof.
  unfold supervisor_prepare, mbind, M_bind. simpl.
  destruct (active_session _ _) as [s|]; [|done].
  destruct (select_one (is_working me agent) _) as [m|]; simpl; [|done].
  destruct (m_thread_id m) as [thread|]; [|done].
  destruct (negb (nonempty thread)); [done|].
  destruct (match s_deadline s with Some dl => _ | None => _ end); [done|].
  destruct (eqb _ "active"); [done|]. destruct (negb (eqb _ "idle" || _)); [done|].
  destruct (propagating _ m); [done|]. simpl.
  case_bool_decide as Hc; [done|]. intros [= <- <-]. simpl. split; [done|].
  apply rowcount_nonzero in Hc as (m1 & Hm1 & Hp). eexists. split.
  - apply elem_of_update_where. left. eauto.
  - apply andb_true_iff in Hp as [Hp _]. done.
Qed.

End Members.

(** ** What can happen to a dispatched member *)

(** The dispatch columns of a member *)
Record dispatch := Dispatch {
  x_state : dispatch_state;
  x_owner : option string;
  x_until : option Z;
  x_id : option string;
  x_turn : option string;
}.
Definition dispatch_of (m : member_row) : dispatch :=
  Dispatch (m_dispatch_state m) (m_lease_owner m) (m_lease_until m) (m_dispatch_id m) (m_turn_id m).

Section Leases.
Context `{Host}.
(** The member, and the dispatch it was given *)
Variables (me : identity) (agent : string) (x : dispatch).

(** The transactions that may end the dispatch: the session is activated or the member registered again, the member
    itself stops, a supervisor finds its thread active, or the holder of the lease reports that the turn started or
    failed. *)
Definition ends_dispatch (who : identity) (c : command) : Prop :=
  who = me ∧ match c with
  | CActivate _ _ _ => True
  | CRegister a _ _ _ _ | CQueue a _ _ => a = agent
  | CHook e => is_stop (ev_kind e) = true ∧ (ev_agent_id e = agent ∨ ev_teammate_name e = agent)
  | CPrepare a _ status _ => a = agent ∧ status = "active"
  | CStarted a sup di _ _ | CFailed a sup di _ => a = agent ∧ x_owner x = Some sup ∧ x_id x = Some di
  | _ => False
  end.

(** The member has that dispatch, or it is not dispatching and cannot be dispatched. *)
Definition inactive (ss : list session_row) : Prop := ∀ s, s ∈ ss → s_id s = me → s_state s ≠ SActive.
Definition pinned (ms : list member_row) (ss : list session_row) : Prop :=
  ∀ m, m ∈ ms → member_key m = (me, agent) →
    dispatch_of m = x ∨ m_dispatch_state m ≠ DDispatching ∧ (inactive ss ∨ m_state m ≠ MWorking).
Abbreviation J := (on_db (λ d, pinned (members d) (sessions d))).

(** What a write may do to the row *)
Definition spares (m m' : member_row) : Prop :=
  dispatch_of m' = dispatch_of m ∧ m_state m' = m_state m ∨ m_dispatch_state m' ≠ DDispatching ∧ m_state m' ≠ MWorking.
Lemma pinned_update p f ms ss :
  pinned ms ss → (∀ m, member_key (f m) = member_key m) →
  (∀ m, m ∈ ms → p m = true → member_key m = (me, agent) → dispatch_of m = x ∨ m_dispatch_state m ≠ DDispatching → spares m (f m)) →
  pinned (update_where p f ms) ss.
Proof.
  intros Hp Hk Hf m [(m0 & Hm0 & Hpm & ->)|[Hm _]]%elem_of_update_where Hkey; [|by apply Hp]. rewrite Hk in Hkey.
  pose proof (Hp m0 Hm0 Hkey) as Hold. destruct (Hf m0 Hm0 Hpm Hkey ltac:(naive_solver)) as [[Hd Hs]|Hd]; [|by right; naive_solver].
  unfold dispatch_of in Hd. injection Hd as Hd1 Hd2 Hd3 Hd4 Hd5. destruct Hold as [Hold|[Hnd Hw]]; [left|right].
  - rewrite <-Hold. unfold dispatch_of. congruence.
  - rewrite Hd1, Hs. done.
Qed.
Lemma pinned_members p f :
  (∀ m, member_key (f m) = member_key m) →
  (∀ m, p m = true → member_key m = (me, agent) → dispatch_of m = x ∨ m_dispatch_state m ≠ DDispatching → spares m (f m)) →
  keeps J (execute (on_members (update_where p f))).
Proof. intros Hk Hf. apply keeps_execute. intros d Hd. apply pinned_update; auto. Qed.
Lemma inactive_update p f ss :
  inactive ss → (∀ s, s_id (f s) = s_id s) → (∀ s, p s = true → s_id s = me → s_state (f s) = SActive → s_state s = SActive) →
  inactive (update_where p f ss).
Proof.
  intros Hi Hid Hf s [(s0 & Hs0 & Hp & ->)|[Hs _]]%elem_of_update_where Hs1; [|by apply Hi]. rewrite Hid in Hs1.
  intros Ha. apply (Hi s0 Hs0 Hs1). by apply Hf.
Qed.
Lemma pinned_inactive ms ss ss' : (inactive ss → inactive ss') → pinned ms ss → pinned ms ss'.
Proof. intros Hi Hp m Hm Hk. destruct (Hp m Hm Hk) as [?|[? [?|?]]]; [by left|right; auto..]. Qed.
Lemma pinned_sessions p f :
  (∀ s, s_id (f s) = s_id s) → (∀ s, p s = true → s_id s = me → s_state (f s) = SActive → s_state s = SActive) →
  keeps J (execute (on_sessions (update_where p f))).
Proof. intros Hid Hf. apply keeps_execute. intros d. apply pinned_inactive. intros Hi. by apply inactive_update. Qed.

Section Runner.
Variable who : identity.

(** Work, schedules and evaluations do not touch members or sessions. *)
Section Frame.
Variable Q : list member_row → list session_row → Prop.
Abbreviation K := (on_db (λ d, Q (members d) (sessions d))).
Ltac apart :=
  keeps_auto;
  try (apply keeps_execute; done);
  try (apply keeps_execute_checked; unfold insert_dependency; intros ? ?;
       repeat (intros ?%outcome_bind_Ok || case_match || destruct_and? || naive_solver)).
#[local] Hint Resolve keeps_active : keeps.
Lemma submit_apart name k desc a topic env after exclude : keeps K (submit who name k desc a topic env after exclude).
Proof.
  unfold submit. keeps_auto; apply keeps_execute_checked; unfold insert_dependency;
    intros d d' HQ (t & Ht & E)%outcome_bind_Ok; try (by injection E as <-).
  case_match; [|done]. by injection E as <-.
Qed.
#[local] Hint Resolve submit_apart : keeps.
Lemma due_evaluations_apart task : keeps K (due_evaluations who task).
Proof. unfold due_evaluations. apart. Qed.
Lemma idle_action_apart a : keeps K (idle_action who a).
Proof. unfold idle_action. apart. Qed.
Lemma schedule_apart interval count : keeps K (schedule who interval count).
Proof. unfold schedule. apart. Qed.
Lemma finish_apart name a result : keeps K (finish who name a result).
Proof. unfold finish. apart. Qed.
Lemma handoff_apart name a reason from : keeps K (handoff who name a reason from).
Proof. unfold handoff. cbv zeta. apart. Qed.
Lemma work_apart f : (∀ d, members (f d) = members d ∧ sessions (f d) = sessions d) → keeps K (execute f).
Proof. intros Hf. apply keeps_execute. intros d. destruct (Hf d) as [-> ->]. done. Qed.
End Frame.
#[local] Hint Resolve keeps_active submit_apart due_evaluations_apart idle_action_apart schedule_apart finish_apart handoff_apart : keeps.

Abbreviation elsewhere a := ((who, a) ≠ (me, agent)).
Lemma register_pinned a r accepts resp thread : elsewhere a → keeps J (register who a r accepts resp thread).
Proof.
  intros Hne. unfold register. cbv zeta. keeps_auto; try by apply work_apart.
  apply keeps_execute. intros d Hd. unfold upsert. simpl. destruct (has_key _ _ _).
  - apply pinned_update; [done|done|]. intros m _ Hm Hk. rewrite eqb_true, Hk in Hm. exfalso. apply Hne. symmetry. exact Hm.
  - intros m [Hm|Hm]%elem_of_app Hk; [by apply Hd|]. apply list_elem_of_singleton in Hm as ->. exfalso. by apply Hne.
Qed.
Lemma queue_pinned a r next : elsewhere a → keeps J (queue who a r next).
Proof.
  intros Hne. unfold queue. keeps_auto; try (by apply work_apart); try (by apply register_pinned); by eapply submit_apart.
Qed.
(** The member that claims is working already. *)
Lemma claim_pinned a : triple (on_db (λ d, members_unique d ∧ pinned (members d) (sessions d))) (claim who a) (λ _, J).
Proof.
  set (Q := λ ms ss, NoDup (keys member_key ms) ∧ pinned ms ss).
  set (Q' := λ ms ss, (∀ m, m ∈ ms → member_key m = (who, a) → m_state m = MWorking) ∧ pinned ms ss).
  change (triple (on_db (λ d, Q (members d) (sessions d))) (claim who a) (λ _, J)). unfold claim.
  eapply triple_bind; [apply (keeps_active who (λ d, Q (members d) (sessions d)))|]. intros task.
  eapply triple_bind; [apply (due_evaluations_apart Q)|]. intros ?.
  eapply triple_bind; [apply (keeps_query (λ d, Q (members d) (sessions d)))|]. intros caps. destruct (bool_decide (caps = [])); [apply triple_raise|].
  apply (triple_bind _ _ _ (λ member, on_db (λ d, (match member with Some m => eqb (m_state m) MWorking | None => false end = true →
    ∀ m, m ∈ members d → member_key m = (who, a) → m_state m = MWorking) ∧ pinned (members d) (sessions d)))).
  { apply triple_reads. intros w [Hu Hp]. split; [|done]. destruct (select_one _ _) as [m0|] eqn:E; [|done]. intros Hs m Hm Hk. rewrite eqb_true in Hs.
    apply select_one_Some in E as [Hm0 Hk0]. unfold is_member in Hk0. reflect_in Hk0. rewrite <-Hs. f_equal.
    apply (unique_row member_key (members (the_db w))); try done. rewrite Hk. unfold member_key. naive_solver congruence. }
  intros member. destruct (match member with Some m => _ | None => _ end) eqn:Em; cbn [negb]; [|apply triple_raise].
  eapply triple_consequence with (P' := on_db (λ d, Q' (members d) (sessions d))) (Q' := λ _, J); [|intros w [Hw Hp]; split; auto|done].
  eapply triple_bind; [apply (keeps_query (λ d, Q' (members d) (sessions d)))|]. intros [row|]; [|apply triple_ret; by intros w [_ ?]].
  eapply triple_bind; [by apply (work_apart Q')|]. intros []. eapply triple_bind; [by apply (work_apart Q')|]. intros [].
  eapply triple_bind with (R := λ _, J); [|intros []; eapply triple_bind; [apply (keeps_query (λ d, pinned (members d) (sessions d)))|intros ?; by apply triple_ret]].
  apply triple_writes. intros w [Hw Hp]. apply pinned_update; [done..|]. intros m Hm Hi Hk _. left. split; [done|]. simpl. symmetry. apply Hw; [done|].
  unfold is_member in Hi. reflect_in Hi. unfold member_key. naive_solver congruence.
Qed.

(** Close a write that does not select the row, keeps its dispatch and state, or releases it. *)
Ltac spared :=
  first [ by apply work_apart
        | let m := fresh "m" in let Hm := fresh "Hm" in
          apply pinned_members; [done|]; intros m Hm ? _;
          unfold is_working, of_session, is_member, member_key in *; autorewrite with reflect in Hm; destruct_and?;
          first [ by left | by right | exfalso; naive_solver congruence ]
        | apply pinned_sessions; [done|]; let H := fresh in intros ? ? _ H; first [exact H | done] ].
Lemma expire_pinned reason : keeps J (expire who reason).
Proof. unfold expire. keeps_auto; spared. Qed.
#[local] Hint Resolve expire_pinned : keeps.
(** A task that is released is inactive before its members are released. *)
Lemma release_task_pinned ss reason : ss ≠ SActive →
  keeps J (execute (on_sessions (update_where (is_session who) (session_set ss (Some reason) false))) ;;
    execute (on_members (update_where (of_session who)
      (λ m, member_dispatch DReleased None None None None (m_last_error m) (member_lifecycle (m_state m) None (m_reason m) None m))))).
Proof.
  intros Hss. eapply triple_bind with (R := λ _, on_db (λ d, (who = me → inactive (sessions d)) ∧ pinned (members d) (sessions d))).
  - apply triple_writes. intros w Hp. split.
    + intros -> s Hs Hid. simpl in Hs. apply elem_of_update_where in Hs as [(s0 & _ & _ & ->)|[_ Hs]]; [done|].
      unfold is_session in Hs. rewrite Hid, eqb_refl in Hs. done.
    + revert Hp. apply pinned_inactive. intros Hi. by apply inactive_update.
  - intros []. apply triple_writes. intros w [Hi Hp] m Hm Hk. simpl in Hm |- *.
    apply elem_of_update_where in Hm as [(m0 & _ & Hof & ->)|[Hm _]]; [|by apply Hp]. right. split; [done|]. left. apply Hi.
    unfold of_session in Hof. rewrite eqb_true in Hof. injection Hk as Hk _. simpl in Hk. congruence.
Qed.
Lemma release_pinned a st reason : keeps J (release who a st reason).
Proof.
  unfold release, session. repeat (apply keeps_bind; [keeps_auto|intros ?]). destruct (bool_decide _); [keeps_auto|].
  destruct (eqb (s_state _) SComplete); [keeps_auto|]. destruct (nonempty a).
  - destruct (release_member_state st) as [ms|] eqn:Ems; [|keeps_auto]. keeps_auto. apply pinned_members; [done|]. intros m _ _ _. right.
    split; [done|]. by destruct st; simplify_eq/=.
  - destruct (release_session_state st) as [ss|] eqn:Ess; [|keeps_auto]. apply release_task_pinned. by destruct st; simplify_eq/=.
Qed.
Lemma activate_pinned task deadline started : who ≠ me → keeps J (activate who task deadline started).
Proof.
  intros Hne. assert (∀ a, elsewhere a) as Hel by (intros a; congruence).
  assert (∀ f, (∀ s, s_id (f s) = s_id s) → keeps J (execute (on_sessions (update_where (is_session who) f)))) as Hs.
  { intros f Hf. apply pinned_sessions; [done|]. intros s Hs Hid. unfold is_session in Hs. rewrite eqb_true in Hs. congruence. }
  unfold activate, resume_session, replay_queued. keeps_auto; try (by apply Hs); try (by apply queue_pinned); try spared.
  apply keeps_execute_checked. intros d d' Hp (t & Ht & [= <-])%outcome_bind_Ok. revert Hp. apply pinned_inactive. intros Hi s1 Hin Hid. simpl in Hin.
  unfold insert_row in Ht. case_match; [done|]. injection Ht as <-. apply elem_of_app in Hin as [Hin|Hin]; [by apply Hi|].
  apply list_elem_of_singleton in Hin as ->. done.
Qed.

Lemma clear_guards_pinned : keeps J (execute (clear_guards who)).
Proof.
  apply keeps_execute. intros d Hp. unfold clear_guards. apply pinned_update; [|done|by left].
  revert Hp. apply pinned_inactive. intros Hi. by apply inactive_update.
Qed.
Lemma hook_agent_cases d e : hook_agent who d e = ev_agent_id e ∨ hook_agent who d e = ev_teammate_name e.
Proof. unfold hook_agent. repeat case_match; auto. Qed.
Lemma guard_stop_pinned a k : elsewhere a → keeps J (guard_stop who a k).
Proof. intros Hne. unfold guard_stop. cbv zeta. keeps_auto; spared. Qed.
Lemma continue_member_pinned task a : elsewhere a → keeps J (continue_member who task a).
Proof. intros Hne. unfold continue_member. keeps_auto; spared. Qed.
Lemma hook_pinned e :
  ¬ (who = me ∧ is_stop (ev_kind e) = true ∧ (ev_agent_id e = agent ∨ ev_teammate_name e = agent)) → keeps J (hook who e).
Proof.
  intros Hno.
  assert (∀ d, is_stop (ev_kind e) = true → elsewhere (hook_agent who d e)) as Hel.
  { intros d Hs [= Hw Ha]. apply Hno. split_and!; [done..|]. rewrite <-Ha. destruct (hook_agent_cases d e); auto. }
  unfold hook. apply keeps_bind; [keeps_auto|]. intros [task|]; [|keeps_auto]. destruct (negb (eqb _ SActive)); [keeps_auto|].
  apply keeps_bind; [destruct (s_deadline task); keeps_auto|]. intros [|]; [keeps_auto|].
  destruct (_ && negb (nonempty (ev_agent_id e))); [keeps_auto; spared|].
  eapply triple_bind with (R := λ a, on_db (λ d, (is_stop (ev_kind e) = true → elsewhere a) ∧ pinned (members d) (sessions d))).
  { apply triple_reads. intros w Hp. split; [apply Hel|done]. }
  intros a w r w' [Ha Hp] Hr. revert w r w' Hp Hr.
  match goal with |- ∀ w r w', _ → ?m w = _ → _ => change (keeps J m) end.
  destruct (is_stop (ev_kind e)) eqn:Es.
  - pose proof (guard_stop_pinned a (ev_kind e) (Ha eq_refl)) as Hguard. pose proof (continue_member_pinned task a (Ha eq_refl)) as Hcontinue.
    keeps_auto; auto using clear_guards_pinned.
  - assert (∀ k, keeps J (when (nonempty a && false) (guard_stop who a k))) as Hwhen by (intros k; rewrite andb_false_r; apply keeps_ret).
    cbn [negb orb]. repeat first [apply Hwhen | keeps_step]; auto using clear_guards_pinned.
Qed.

(** *** The supervisor *)

Lemma started_pinned a sup di turn secs :
  ¬ (who = me ∧ a = agent ∧ x_owner x = Some sup ∧ x_id x = Some di) → keeps J (supervisor_started who a sup di turn secs).
Proof.
  intros Hno. unfold supervisor_started. keeps_auto. apply pinned_members; [done|]. intros m Hm Hk Hx. exfalso. apply Hno.
  unfold holds_lease, is_working, is_member in Hm. autorewrite with reflect in Hm. injection Hk as Hk1 Hk2.
  destruct Hx as [<-|Hx]; [|naive_solver]. unfold dispatch_of. simpl. naive_solver congruence.
Qed.
Lemma failed_pinned a sup di error :
  ¬ (who = me ∧ a = agent ∧ x_owner x = Some sup ∧ x_id x = Some di) → keeps J (supervisor_failed who a sup di error).
Proof.
  intros Hno. unfold supervisor_failed. keeps_auto. apply pinned_members; [done|]. intros m Hm Hk Hx. exfalso. apply Hno.
  unfold holds_lease, is_working, is_member in Hm. autorewrite with reflect in Hm. injection Hk as Hk1 Hk2.
  destruct Hx as [<-|Hx]; [|naive_solver]. unfold dispatch_of. simpl. naive_solver congruence.
Qed.
Lemma prepare_elsewhere a sup st secs : elsewhere a → keeps J (supervisor_prepare who a sup st secs).
Proof. intros Hne. unfold supervisor_prepare. cbv zeta. keeps_auto; spared. Qed.
End Runner.

(** The member cannot be leased before [until]. *)
Variable until : Z.
Hypothesis guarded : ∀ m now, dispatch_of m = x → now < until → leasable now m = false ∨ propagating now m = true.
Lemma propagating_dispatch now m m' : dispatch_of m = dispatch_of m' → propagating now m = propagating now m'.
Proof. unfold dispatch_of, propagating. by intros [= -> _ -> _ ->]. Qed.
(** Where the session is active, a working row has the dispatch. *)
Lemma working_dispatch d m s :
  pinned (members d) (sessions d) → active_session me d = Some s → m ∈ members d → is_working me agent m = true → dispatch_of m = x.
Proof.
  intros Hp [Hs Ha]%select_one_Some Hm Hw. unfold is_working, is_member in Hw. unfold is_session in Ha. autorewrite with reflect in *.
  destruct (Hp m Hm) as [?|[_ [Hi|Hi]]]; [unfold member_key; naive_solver congruence|done| |naive_solver].
  exfalso. destruct Ha. by apply (Hi s).
Qed.
Lemma prepare_pinned sup st secs :
  triple (λ w, J w ∧ time_at (clock_reads w) < until) (supervisor_prepare me agent sup st secs) (λ r w, r = None ∧ (st ≠ "active" → J w)).
Proof using guarded.
  assert (∀ R : world → Prop, (∀ w, R w → J w) → triple R (mret None : M world (option lease)) (λ r w, r = None ∧ (st ≠ "active" → J w))) as Hnone.
  { intros R HR. apply triple_ret. intros w Hw. split; [done|]. intros _. by apply HR. }
  unfold supervisor_prepare. cbv zeta. eapply triple_bind with (R := λ t w, J w ∧ t < until); [intros w t w' Hw [= <- <-]; exact Hw|]. intros t.
  set (F := λ d, ∀ m, m ∈ members d → is_working me agent m = true → dispatch_of m = x).
  eapply triple_bind with (R := λ found w, J w ∧ t < until ∧ ∀ s m, found = Some (s, m) → F (the_db w) ∧ dispatch_of m = x).
  { apply triple_reads. intros w [Hw Ht]. split_and!; [done..|]. intros s m. destruct (active_session me (the_db w)) as [s1|] eqn:Es; [|done].
    destruct (select_one _ _) as [m1|] eqn:Em; [|done]. intros [= <- <-]. apply select_one_Some in Em as [Hm Hwork].
    split; [intros m2 Hm2 Hw2|]; by eapply working_dispatch. }
  intros [[s m]|]; [|apply Hnone; tauto]. destruct (m_thread_id m) as [thread|]; [|apply Hnone; tauto].
  destruct (negb (nonempty thread)); [apply Hnone; tauto|].
  destruct (match s_deadline s with Some dl => _ | None => _ end).
  { eapply triple_bind with (R := λ _, J); [|intros ?; by apply Hnone]. eapply triple_consequence; [apply expire_pinned|tauto|done]. }
  destruct (eqb _ "active") eqn:Ea.
  { rewrite eqb_true in Ea. assert (st = "active") as -> by (destruct (nonempty st); [done|discriminate]).
    eapply triple_bind with (R := λ _ _, True); [by apply triple_writes|]. intros ?. apply triple_ret. intros w _. split; [done|]. intros Hst. by destruct Hst. }
  destruct (negb _).
  { eapply triple_bind with (R := λ _, J); [|intros ?; by apply Hnone]. eapply triple_consequence with (P' := J) (Q' := λ _, J); [|intros w Hw; exact (proj1 Hw)|done].
    apply pinned_members; [done|]. by left. }
  destruct (propagating t m) eqn:Ep; [apply Hnone; tauto|].
  eapply triple_consequence with (P' := λ w, J w ∧ t < until ∧ F (the_db w) ∧ dispatch_of m = x) (Q' := λ r w, r = None ∧ (st ≠ "active" → J w)); [|naive_solver|done].
  eapply triple_bind with (R := λ _ w, J w ∧ t < until ∧ F (the_db w) ∧ dispatch_of m = x); [by intros w ? w' Hw [= <- <-]|]. intros dispatch.
  eapply triple_bind with (R := λ count w, count = 0%nat ∧ J w ∧ ∀ m1, m1 ∈ members (the_db w) → is_working me agent m1 && leasable t m1 = false).
  { apply triple_reads. intros w (Hw & Ht & HF & Hm). assert (∀ m1, m1 ∈ members (the_db w) → is_working me agent m1 && leasable t m1 = false) as Hall.
    { intros m1 Hm1. destruct (is_working me agent m1) eqn:E1; [simpl|done]. pose proof (HF m1 Hm1 E1) as Hx.
      destruct (guarded m1 t Hx Ht) as [?|Hpr]; [done|]. rewrite (propagating_dispatch t m1 m) in Hpr by congruence. congruence. }
    split_and!; [by apply rowcount_zero|done|done]. }
  intros count. eapply triple_bind with (R := λ _ w, count = 0%nat ∧ J w).
  { apply triple_writes. intros w (Hc & Hw & Hall). split; [done|]. apply pinned_update; [done..|]. intros m1 Hm1 Hp. rewrite Hall in Hp; done. }
  intros ?. destruct (bool_decide (count = 0%nat)) eqn:Ec; [apply Hnone; tauto|]. intros w r w' [Hc _]. apply bool_decide_eq_false in Ec. done.
Qed.

(** Every transaction that does not end the dispatch keeps it. *)
Lemma run_command_pinned who c w w' :
  ¬ ends_dispatch who c → time_at (clock_reads w) < until → members_unique (the_db w) → J w →
  run_command who c w = Ok (tt, w') → J w'.
Proof using guarded.
  intros Hno Ht Hu Hw Hr.
  assert (triple (λ w, (time_at (clock_reads w) < until ∧ members_unique (the_db w)) ∧ J w) (run_command who c) (λ _, J)) as Hrun; [|by eapply Hrun].
  unfold run_command. eapply triple_bind with (R := λ _ w, (time_at (clock_reads w) < until ∧ members_unique (the_db w)) ∧ J w).
  { apply triple_writes. intros w1 Hw1. exact Hw1. }
  intros _. assert (∀ (m : M world unit), keeps J m → triple (λ w, (time_at (clock_reads w) < until ∧ members_unique (the_db w)) ∧ J w) m (λ _, J)) as Hk.
  { intros m Hm. eapply triple_consequence; [exact Hm|by intros ? [_ ?]|done]. }
  destruct c; unfold ends_dispatch in Hno.
  - apply Hk, activate_pinned. naive_solver.
  - apply Hk, register_pinned. naive_solver.
  - apply Hk. apply (submit_apart who (λ ms ss, pinned ms ss)).
  - eapply triple_bind; [eapply triple_consequence; [apply claim_pinned|intros w1 [[_ ?] ?]; by split|done]|]. intros [?|].
    + apply keeps_ret.
    + eapply triple_bind; [apply (idle_action_apart who (λ ms ss, pinned ms ss))|]. intros ?. apply keeps_ret.
  - apply Hk, (finish_apart who (λ ms ss, pinned ms ss)).
  - apply Hk, (handoff_apart who (λ ms ss, pinned ms ss)).
  - apply Hk, (schedule_apart who (λ ms ss, pinned ms ss)).
  - apply Hk. apply keeps_bind; [apply queue_pinned; naive_solver|keeps_auto].
  - apply Hk, release_pinned.
  - apply Hk. apply keeps_bind; [apply hook_pinned; naive_solver|keeps_auto].
  - destruct (decide ((who, agent0) = (me, agent))) as [[= -> ->]|Hne].
    + eapply triple_bind with (R := λ _, J); [|intros ?; by apply triple_ret]. eapply triple_consequence; [apply prepare_pinned|naive_solver|].
      intros ? w1 [_ Hp]. apply Hp. naive_solver.
    + apply Hk. apply keeps_bind; [by apply prepare_elsewhere|keeps_auto].
  - apply Hk. apply keeps_bind; [apply started_pinned; naive_solver|keeps_auto].
  - apply Hk. apply keeps_bind; [apply failed_pinned; naive_solver|keeps_auto].
  - apply Hk. unfold scheduler_heartbeat. cbv zeta. keeps_auto. apply keeps_execute_checked. intros d d' Hp. case_match; [|done]. by intros [= <-].
  - apply Hk. unfold record_status_error. apply pinned_members; [done|]. by left.
  - apply Hk, expire_pinned.
Qed.

(** Transactions begun before [until] that do not end the dispatch, in any number and of any process *)
Definition undisturbed (d d' : db) : Prop :=
  ∃ who c w w', ¬ ends_dispatch who c ∧ time_at (clock_reads w) < until ∧ the_db w = d ∧ run_command who c w = Ok (tt, w') ∧ the_db w' = d'.
Lemma undisturbed_pinned d d' :
  rtc undisturbed d d' → members_unique d → pinned (members d) (sessions d) → members_unique d' ∧ pinned (members d') (sessions d').
Proof using guarded.
  intros Hs Hu Hp. apply (rtc_ind_r (R := undisturbed) (λ d, members_unique d ∧ pinned (members d) (sessions d)) d); [done| |done].
  intros d1 d2 _ (who & c & w & w' & Hno & Ht & <- & Hr & <-) [Hu1 Hp1]. split; [by eapply run_command_members|by eapply run_command_pinned].
Qed.
End Leases.

Section Dispatch.
Context `{Host}.

Lemma reachable_members d : reachable d → members_unique d.
Proof.
  intros Hr. apply (rtc_ind_r (R := db_step) members_unique empty_db); [constructor| |done].
  intros d1 d2 _ (me & c & w & w' & _ & <- & E & <-) Hu. by eapply run_command_members.
Qed.
(** With one row for the member, what holds of it is pinned. *)
Lemma unique_pinned me agent x d m :
  members_unique d → m ∈ members d → is_member me agent m = true → dispatch_of m = x → pinned me agent x (members d) (sessions d).
Proof.
  intros Hu Hm Hi Hx m' Hm' Hk. left. rewrite <-Hx. f_equal. apply (unique_row member_key (members d)); try done.
  unfold is_member in Hi. reflect_in Hi. rewrite Hk. unfold member_key. naive_solver congruence.
Qed.
(** A lease, and a started turn, keep the member from being leased. *)
Lemma lease_guards sup until di m now :
  dispatch_of m = Dispatch DDispatching (Some sup) (Some until) di None → now < until → leasable now m = false ∨ propagating now m = true.
Proof. intros [= Hs _ Hu _ _] Hlt. left. unfold leasable. rewrite Hs, Hu. simpl. lia. Qed.
Lemma turn_guards until di turn m now :
  nonempty turn = true → 0 < until → dispatch_of m = Dispatch DRunning None (Some until) di (Some turn) → now < until →
  leasable now m = false ∨ propagating now m = true.
Proof.
  intros Hn Hp [= Hs _ Hu _ Ht] Hlt. right. unfold propagating. rewrite Hs, Hu, Ht, Hn. simpl.
  rewrite andb_true_iff, negb_true_iff, Z.eqb_neq, Z.ltb_lt. lia.
Qed.
(** The row that a holder's report updates *)
Lemma started_row me agent sup di turn secs w w' :
  supervisor_started me agent sup di turn secs w = Ok (true, w') →
  ∃ m, m ∈ members (the_db w') ∧ is_member me agent m = true ∧
    dispatch_of m = Dispatch DRunning None (Some (time_at (clock_reads w) + secs)) (Some di) (Some turn).
Proof.
  intros [= Hr <-]. apply negb_true_iff, bool_decide_eq_false in Hr. apply rowcount_nonzero in Hr as (m & Hm & Hh).
  eexists. split; [apply elem_of_update_where; left; by exists m|]. unfold holds_lease, is_working in Hh. autorewrite with reflect in Hh.
  destruct Hh as [[[[Hi _] _] _] Hdi]. split; [exact Hi|]. unfold dispatch_of. simpl. by rewrite Hdi.
Qed.

(** C3: a member is dispatched at most once per lease.  After a supervisor leases a member, whatever transactions any processes
    commit before the lease runs out, as long as none of them ends the dispatch (the session is activated or the
    member registered again, the member itself stops, a supervisor finds its thread active, or the holder reports): no
    supervisor can lease it before the lease runs out, and only the holder of that very lease can record
    the started turn, which it can at once.  Once it has, the member cannot be leased before the propagation
    lease runs out, again through any transactions that do not end the dispatch. *)
Theorem dispatch_exclusive me agent sup st secs w l w1 :
  reachable (the_db w) →
  supervisor_prepare me agent sup st secs w = Ok (Some l, w1) →
  let until := time_at (clock_reads w) + secs in
  let leased := Dispatch DDispatching (Some sup) (Some until) (Some (l_dispatch l)) None in
  (∀ turn secs' w2, the_db w2 = the_db w1 → ∃ w3, supervisor_started me agent sup (l_dispatch l) turn secs' w2 = Ok (true, w3)) ∧
  ∀ d2, rtc (undisturbed me agent leased until) (the_db w1) d2 →
    (∀ sup' st' secs' w2 r w3, the_db w2 = d2 → time_at (clock_reads w2) < until →
       supervisor_prepare me agent sup' st' secs' w2 = Ok (r, w3) → r = None) ∧
    (∀ sup' di turn secs' w2 r w3, the_db w2 = d2 → (sup', di) ≠ (sup, l_dispatch l) →
       supervisor_started me agent sup' di turn secs' w2 = Ok (r, w3) → r = false ∧ the_db w3 = d2) ∧
    (∀ turn secs' w2 w3, the_db w2 = d2 → nonempty turn = true → 0 < time_at (clock_reads w2) + secs' →
       supervisor_started me agent sup (l_dispatch l) turn secs' w2 = Ok (true, w3) →
       let until' := time_at (clock_reads w2) + secs' in
       let started := Dispatch DRunning None (Some until') (Some (l_dispatch l)) (Some turn) in
       ∀ d4, rtc (undisturbed me agent started until') (the_db w3) d4 →
       ∀ sup' st' secs'' w4 r w5, the_db w4 = d4 → time_at (clock_reads w4) < until' →
         supervisor_prepare me agent sup' st' secs'' w4 = Ok (r, w5) → r = None).
Proof.
  intros Hu%reachable_members E until leased. pose proof (supervisor_prepare_members me agent sup st secs w _ w1 Hu E) as Hu1.
  apply prepare_granted in E as (_ & m & Hm & Hw & Hst & Hown & Hdi & Hturn & Hun). split.
  { intros turn secs' w2 Hd. eexists. unfold supervisor_started, mbind, M_bind. simpl. rewrite bool_decide_eq_false_2; [done|].
    apply rowcount_nonzero. exists m. rewrite Hd. split; [done|]. unfold holds_lease. by rewrite Hw, Hst, Hown, Hdi, !eqb_refl. }
  intros d2 Hs. pose proof (lease_guards sup until (Some (l_dispatch l))) as Hguard.
  destruct (undisturbed_pinned me agent leased until Hguard _ _ Hs Hu1) as [Hu2 Hp2].
  { apply (unique_pinned _ _ _ _ m); [done..| |by unfold dispatch_of; rewrite Hst, Hown, Hun, Hdi, Hturn]. unfold is_working in Hw. by apply andb_true_iff in Hw as [? _]. }
  split_and!.
  - intros sup' st' secs' w2 r w3 <- Ht E. by eapply (prepare_pinned me agent leased until Hguard).
  - intros sup' di turn secs' w2 r w3 <- Hne [= <- <-].
    assert (∀ m', m' ∈ members (the_db w2) → holds_lease me agent sup' di m' = false) as Hno.
    { intros m' Hm'. apply not_true_iff_false. unfold holds_lease, is_working, is_member. rewrite !andb_true_iff, !eqb_true.
      intros [[[[[Hi Ha] _] Hds] Ho] Hd]. destruct (Hp2 m' Hm') as [Hx|[? _]]; [unfold member_key; congruence| |done].
      injection Hx as ? ? ? ? ?. apply Hne. congruence. }
    split; [rewrite bool_decide_eq_true_2; [done|by apply rowcount_zero]|].
    simpl. unfold on_members. rewrite update_where_none; [by destruct (the_db w2)|done].
  - intros turn secs' w2 w3 <- Hne Hpos E until' started d4 Hs4 sup' st' secs'' w4 r w5 <- Ht E5.
    destruct (started_row _ _ _ _ _ _ _ _ E) as (m3 & Hm3 & Hi3 & Hx3).
    pose proof (λ m now, turn_guards until' (Some (l_dispatch l)) turn m now Hne Hpos) as Hguard'.
    destruct (undisturbed_pinned me agent started until' Hguard' _ _ Hs4) as [_ Hp4].
    + by apply (supervisor_started_members me agent sup (l_dispatch l) turn secs' w2 true w3).
    + apply (unique_pinned _ _ _ _ m3); try done. by apply (supervisor_started_members me agent sup (l_dispatch l) turn secs' w2 true w3).
    + by eapply (prepare_pinned me agent started until' Hguard').
Qed.
End Dispatch.

(** ** The claim loop and the completed-session guard *)

Section Loops.
Context `{Host}.

(** One pass of the claim command always has a result: when nothing can be
    claimed it is the idle action, whatever the requested wait, so the polling
    loop behind the wait option is never entered. *)
Theorem claim_pass_never_waits me agent w r w' :
  claim_pass me agent false w = Ok (r, w') → r ≠ None.
Proof.
  unfold claim_pass, mbind, M_bind. destruct (claim me agent w) as [[[[row deps]|] w1]|]; [|..|done].
  - by intros [= <- _].
  - destruct (idle_action me agent w1) as [[[[a t] i] w2]|] eqn:E; [|done]. simpl.
    assert (a = "research") as ->.
    { revert E. unfold idle_action, mbind, M_bind. destruct (active me w1) as [[task w3]|]; [|done].
      simpl. by intros [= <- _ _ _]. }
    rewrite eqb_refl. simpl. by intros [= <- _].
Qed.
End Loops.
