(* ===== verification/AgentScheduler.v ===== *)
(** * The supervisor of persisted responsibilities ([agent_scheduler.py])

    [run_once] reconciles the native status of each working member and starts a turn for each
    member it manages to lease; [main] keeps the scheduler's heartbeat, stops with the task and expires it at
    its deadline.  The scheduler is a process: each of its transactions is committed on its own, other processes
    commit theirs in between, and the Codex app-server, outside the repository, may answer
    anything. *)

From S2P Require Import Prelude Sql RsiStore WorkPool WorkPoolProofs Continuation ContinuationProofs.

(** ** Processes *)

(** The calls of [AppServerClient] *)
Inductive request :=
  | Connect
  | ThreadStatus (thread : string)
  | Resume (thread : string)
  | StartTurn (thread prompt : string).

(** A process asks the app-server, and runs transactions; it continues with what they return or raise. *)
Inductive proc (A : Type) : Type :=
  | Return (a : A)
  | Fail (e : exn)
  | Ask (q : request) (k : outcome string → proc A)
  | Commit (X : Type) (t : M world X) (k : outcome X → proc A).
Arguments Return {A} _.
Arguments Fail {A} _.
Arguments Ask {A} _ _.
Arguments Commit {A} _ _ _.

Fixpoint then_ {A B} (p : proc A) (h : A → proc B) : proc B :=
  match p with
  | Return a => h a
  | Fail e => Fail e
  | Ask q k => Ask q (λ r, then_ (k r) h)
  | Commit X t k => Commit X t (λ r, then_ (k r) h)
  end.
#[export] Instance proc_ret : MRet proc := @Return.
#[export] Instance proc_bind : MBind proc := λ A B h p, then_ p h.
Definition given {A} (r : outcome A) : proc A := match r with Ok a => Return a | Raise e => Fail e end.
Definition ask (q : request) : proc string := Ask q given.
(** [connection.execute("BEGIN IMMEDIATE")], the statements, and the commit *)
Definition commit {X} (t : M world X) : proc X := Commit X t given.
(** [except Exception] *)
Fixpoint catch {A} (p : proc A) (h : exn → proc A) : proc A :=
  match p with
  | Return a => Return a
  | Fail e => h e
  | Ask q k => Ask q (λ r, catch (k r) h)
  | Commit X t k => Commit X t (λ r, catch (k r) h)
  end.

(** A run: before each transaction [others] may do theirs; a transaction that raises is rolled back.  The list holds the
    databases before and after the transactions. *)
Inductive exec (others : world → world → Prop) {A} : proc A → world → list db → outcome A → world → Prop :=
  | exec_return a w : exec others (Return a) w [] (Ok a) w
  | exec_fail e w : exec others (Fail e) w [] (Raise e) w
  | exec_ask q k answer w tr r w' : exec others (k answer) w tr r w' → exec others (Ask q k) w tr r w'
  | exec_commit X t k w w1 x w2 tr r w' :
      others w w1 → t w1 = Ok (x, w2) → exec others (k (Ok x)) w2 tr r w' →
      exec others (Commit X t k) w (the_db w1 :: the_db w2 :: tr) r w'
  | exec_rollback X t k w w1 e tr r w' :
      others w w1 → t w1 = Raise e → exec others (k (Raise e)) w1 tr r w' →
      exec others (Commit X t k) w (the_db w1 :: tr) r w'.

(** ** The scheduler *)

(** [except (OSError, RuntimeError, TimeoutError)], and [str(error)] *)
Definition client_error (e : exn) : option string :=
  match e with
  | OSError m | RuntimeError m | TimeoutError m => Some m
  | _ => None
  end.

Section Scheduler.
Context `{Host}.
Variable me : identity.
Variable owner : string.
Variable lease_seconds : Z.

(** [client.resume(...)] then [client.start(...)] *)
Definition start_turn (l : lease) : proc string :=
  _ ← ask (Resume (l_thread l)); ask (StartTurn (l_thread l) (l_prompt l)).
(** The clause for the client's errors *)
Definition on_client_error {A} (p : proc A) (handle : string → proc A) : proc A :=
  catch p (λ e, match client_error e with None => Fail e | Some message => handle message end).

(** The status of a member's thread; a client failure is recorded and reads as [systemError]. *)
Definition member_status (m : member_row) : proc string :=
  on_client_error (ask (ThreadStatus (default "" (m_thread_id m)))) (λ message,
    _ ← commit (record_status_error me (m_agent m) message); mret "systemError").
(** One member: status, lease, start, and the transaction that records it.  The result tells whether a
    turn was attempted. *)
Definition reconcile_member (m : member_row) : proc bool :=
  status ← member_status m;
  action ← commit (supervisor_prepare me (m_agent m) owner status lease_seconds);
  match action with
  | None => mret false
  | Some l =>
      started ← on_client_error (turn ← start_turn l; mret (Some turn)) (λ message,
        _ ← commit (supervisor_failed me (m_agent m) owner (l_dispatch l) message); mret None);
      match started with
      | None => mret true
      | Some turn => _ ← commit (supervisor_started me (m_agent m) owner (l_dispatch l) turn lease_seconds); mret true
      end
  end.
Fixpoint reconcile_all (ms : list member_row) : proc Z :=
  match ms with
  | [] => mret 0
  | m :: ms =>
      attempted ← reconcile_member m;
      rest ← reconcile_all ms;
      mret ((if (attempted : bool) then 1 else 0) + rest)
  end.
(** [run_once] *)
Definition run_once : proc Z :=
  ms ← commit (query (λ d, supervisor_candidates me d));
  reconcile_all ms.

(** The body of [main]'s loop; [false] ends it. *)
Definition scheduler_round (once : bool) : proc bool :=
  _ ← commit (scheduler_heartbeat me owner "running" None);
  active ← commit (query (λ d, select_one (is_session me) (sessions d)));
  match active with
  | None => mret false
  | Some s =>
      if negb (eqb (s_state s) SActive) then mret false else
      passed ← match s_deadline s with
               | Some dl => t ← commit now; mret (dl <=? t)
               | None => mret false
               end;
      if (passed : bool) then _ ← commit (expire me "deadline"); mret false else
      _ ← run_once;
      _ ← commit (scheduler_heartbeat me owner "running" None);
      mret (negb once)
  end.
(** The first rounds of the loop; [false] while it still runs *)
Fixpoint rounds (n : nat) (once : bool) : proc bool :=
  match n with
  | O => mret false
  | S n => more ← scheduler_round once; if (more : bool) then rounds n once else mret true
  end.
(** [main] from the connected database on: the heartbeats around the loop, also of one that fails; [str_exn] is
    [str(error)]. *)
Definition main (str_exn : exn → string) (n : nat) (once : bool) : proc bool :=
  _ ← commit (session me);
  _ ← commit (scheduler_heartbeat me owner "starting" None);
  ended ← catch
    (_ ← ask Connect;
     _ ← commit (scheduler_heartbeat me owner "running" None);
     rounds n once)
    (λ e, let failure := str_exn e in
          catch (_ ← commit (scheduler_heartbeat me owner "failed" (Some failure)); Fail e)
            (λ e', _ ← commit (scheduler_heartbeat me owner (if nonempty failure then "failed" else "stopped") (Some failure)); Fail e'));
  if (ended : bool) then _ ← commit (scheduler_heartbeat me owner "stopped" None); mret true else mret false.
End Scheduler.

(** ** Every transaction is a command *)

Section Refinement.
Context `{Host}.

(** What a transaction does to a well-formed database is one command, or nothing. *)
Definition a_command {X} (t : M world X) : Prop :=
  ∀ w x w', pool_wf (the_db w) → t w = Ok (x, w') → rtc db_step (the_db w) (the_db w').
Fixpoint only_commands {A} (p : proc A) : Prop :=
  match p with
  | Return _ | Fail _ => True
  | Ask _ k => ∀ r, only_commands (k r)
  | Commit X t k => a_command t ∧ ∀ r, only_commands (k r)
  end.

Lemma a_command_run me c : a_command (run_command me c).
Proof. intros w [] w' _ E. apply rtc_once. by exists me, c, w, w'. Qed.
(** The migration of [WorkPool.create] changes nothing in a well-formed pool. *)
Lemma create_first {X} (t : M world X) w : pool_wf (the_db w) → (execute create_pool ;; t) w = t w.
Proof.
  intros Hwf. destruct w as [d n u]. change (t (World (create_pool d) n u) = t (World d n u)). by rewrite (create_pool_wf d Hwf).
Qed.
Lemma a_command_unit me c (t : M world unit) : run_command me c = (execute create_pool ;; t) → a_command t.
Proof. intros Hc w [] w' Hwf E. apply (a_command_run me c w tt w' Hwf). by rewrite Hc, create_first. Qed.
Lemma a_command_of {X} me c (t : M world X) : run_command me c = (execute create_pool ;; (_ ← t; mret tt)) → a_command t.
Proof.
  intros Hc w x w' Hwf E. apply (a_command_run me c w tt w' Hwf). rewrite Hc, create_first by done. unfold mbind, M_bind. by rewrite E.
Qed.
Lemma a_command_read {X} (t : M world X) : (∀ w x w', t w = Ok (x, w') → the_db w' = the_db w) → a_command t.
Proof. intros Ht w x w' _ E. by rewrite (Ht w x w' E). Qed.

Lemma only_commands_bind {A B} (p : proc A) (h : A → proc B) : only_commands p → (∀ a, only_commands (h a)) → only_commands (p ≫= h).
Proof.
  intros Hp Hh. change (only_commands (then_ p h)). induction p as [a|e|q k IH|X t k IH]; simpl in *; [done|done| |].
  - intros r. by apply IH.
  - destruct Hp as [Ht Hp]. split; [done|]. intros r. by apply IH.
Qed.
Lemma only_commands_catch {A} (p : proc A) (h : exn → proc A) : only_commands p → (∀ e, only_commands (h e)) → only_commands (catch p h).
Proof.
  intros Hp Hh. induction p as [a|e|q k IH|X t k IH]; simpl in *; [done|done| |].
  - intros r. by apply IH.
  - destruct Hp as [Ht Hp]. split; [done|]. intros r. by apply IH.
Qed.
Lemma only_commands_commit {X} (t : M world X) : a_command t → only_commands (commit t).
Proof. intros Ht. split; [done|]. by intros []. Qed.
Lemma only_commands_ask q : only_commands (ask q).
Proof. by intros []. Qed.

Lemma heartbeat_command me owner st err : a_command (scheduler_heartbeat me owner st err).
Proof. by apply (a_command_unit me (CHeartbeat owner st err)). Qed.
Lemma expire_command me reason : a_command (expire me reason).
Proof. by apply (a_command_unit me (CExpire reason)). Qed.
Lemma status_error_command me agent error : a_command (record_status_error me agent error).
Proof. by apply (a_command_unit me (CStatusError agent error)). Qed.
Lemma prepare_command me agent sup st secs : a_command (supervisor_prepare me agent sup st secs).
Proof. by apply (a_command_of me (CPrepare agent sup st secs)). Qed.
Lemma started_command me agent sup di turn secs : a_command (supervisor_started me agent sup di turn secs).
Proof. by apply (a_command_of me (CStarted agent sup di turn secs)). Qed.
Lemma failed_command me agent sup di err : a_command (supervisor_failed me agent sup di err).
Proof. by apply (a_command_of me (CFailed agent sup di err)). Qed.
Lemma query_command {X} (f : db → X) : a_command (query f).
Proof. apply a_command_read. by intros w x w' [= _ <-]. Qed.
Lemma now_command : a_command now.
Proof. apply a_command_read. by intros w x w' [= _ <-]. Qed.
Lemma session_command me : a_command (session me).
Proof.
  apply a_command_read. intros w x w'. unfold session, mbind, M_bind. simpl. destruct (select_one _ _); [|done]. by intros [= _ <-].
Qed.
Create HintDb commands.
#[local] Hint Resolve heartbeat_command expire_command status_error_command prepare_command started_command failed_command
  query_command now_command session_command : commands.
Ltac commands_step :=
  match goal with
  | |- only_commands (mbind _ _) => apply only_commands_bind; [|intros]
  | |- only_commands (catch _ _) => apply only_commands_catch; [|intros]
  | |- only_commands (commit _) => apply only_commands_commit; solve [auto with commands]
  | |- only_commands (ask _) => apply only_commands_ask
  | |- only_commands (mret _) => exact I
  | |- only_commands (Fail _) => exact I
  | |- only_commands (if ?b then _ else _) => destruct b
  | |- only_commands (match ?x with _ => _ end) => destruct x
  | |- only_commands _ => solve [auto with commands]
  end.
Ltac commands_auto := repeat commands_step.

Lemma reconcile_member_commands me owner secs m : only_commands (reconcile_member me owner secs m).
Proof. unfold reconcile_member, member_status, on_client_error, start_turn. commands_auto. Qed.
#[local] Hint Resolve reconcile_member_commands : commands.
Lemma reconcile_all_commands me owner secs ms : only_commands (reconcile_all me owner secs ms).
Proof. induction ms as [|m ms IH]; cbn [reconcile_all]; commands_auto. Qed.
#[local] Hint Resolve reconcile_all_commands : commands.
Lemma scheduler_round_commands me owner secs once : only_commands (scheduler_round me owner secs once).
Proof. unfold scheduler_round, run_once. commands_auto. Qed.
#[local] Hint Resolve scheduler_round_commands : commands.
Lemma rounds_commands me owner secs n once : only_commands (rounds me owner secs n once).
Proof. induction n as [|n IH]; cbn [rounds]; commands_auto. Qed.
#[local] Hint Resolve rounds_commands : commands.
Lemma main_commands me owner secs str_exn n once : only_commands (main me owner secs str_exn n once).
Proof. unfold main. cbv zeta. commands_auto. Qed.

(** Other processes run commands. *)
Definition interference (w w' : world) : Prop := rtc db_step (the_db w) (the_db w').
Lemma exec_steps {A} (p : proc A) w tr r w' :
  exec interference p w tr r w' → only_commands p → reachable (the_db w) →
  rtc db_step (the_db w) (the_db w') ∧ Forall reachable tr.
Proof.
  induction 1 as [a w|e w|q k answer w tr r w' _ IH|X t k w w1 x w2 tr r w' Ho Ht _ IH|X t k w w1 e tr r w' Ho Ht _ IH]; intros Hp Hr; simpl in *.
  - done.
  - done.
  - by apply IH.
  - destruct Hp as [Hc Hp]. assert (reachable (the_db w1)) as H1 by (unfold reachable, interference in *; by etransitivity).
    pose proof (Hc w1 x w2 (pool_wf_reachable _ H1) Ht) as Hs. assert (reachable (the_db w2)) as H2 by (unfold reachable, interference in *; by etransitivity).
    destruct (IH (Hp _) H2) as [Hs2 Htr]. split; [|by repeat constructor]. etransitivity; [exact Ho|]. by etransitivity.
  - destruct Hp as [Hc Hp]. assert (reachable (the_db w1)) as H1 by (unfold reachable, interference in *; by etransitivity).
    destruct (IH (Hp _) H1) as [Hs2 Htr]. split; [by etransitivity|by constructor].
Qed.

End Refinement.

(** ** The deadline *)

Section Race.
Context `{Host}.
Variables (me : identity) (owner : string) (lease_seconds : Z).

(** One transaction of a run in which nothing happens before it, and one before which something does *)
Lemma exec_commit_after (others : world → world → Prop) {A X} (t : M world X) (h : X → proc A) w w1 x w2 tr r w' :
  others w w1 → t w1 = Ok (x, w2) → exec others (h x) w2 tr r w' →
  exec others (commit t ≫= h) w (the_db w1 :: the_db w2 :: tr) r w'.
Proof. intros Ho Ht He. by apply (exec_commit others X t _ w w1 x). Qed.

Lemma heartbeat_runs st err w s :
  select_one (is_session me) (sessions (the_db w)) = Some s →
  ∃ w', scheduler_heartbeat me owner st err w = Ok (tt, w') ∧ sessions (the_db w') = sessions (the_db w) ∧ clock_reads w' = S (clock_reads w).
Proof.
  intros [Hs Hid]%select_one_Some. unfold is_session in Hid. rewrite eqb_true in Hid.
  unfold scheduler_heartbeat, mbind, M_bind, execute_checked. simpl.
  rewrite (proj2 (has_key_true s_id me (sessions (the_db w)))); [by eexists|].
  apply list_elem_of_fmap. by exists s.
Qed.
Lemma release_task_runs reason w s :
  select_one (is_session me) (sessions (the_db w)) = Some s → s_state s = SActive → strip reason ≠ "" →
  ∃ w', release me "" RComplete reason w = Ok (tt, w') ∧
    sessions (the_db w') = update_where (is_session me) (session_set SComplete (Some reason) false) (sessions (the_db w)).
Proof.
  intros Hs Ha Hr. unfold release, session, mbind, M_bind. simpl. rewrite Hs. simpl. rewrite (bool_decide_false _ Hr), Ha. simpl. by eexists.
Qed.

(** C40: the scheduler can overwrite a completed task.  The deadline check of a round and the expiry are separate
    transactions: when the deadline of an active session has passed and another process releases the task as
    complete in between, the round goes on to expire it; the session that was complete ends as expired,
    which no command may do to a completed session. *)
Theorem expiry_overwrites_completion once reason s dl w :
  select_one (is_session me) (sessions (the_db w)) = Some s → s_state s = SActive → s_deadline s = Some dl →
  dl <= time_at (S (clock_reads w)) → strip reason ≠ "" →
  ∃ tr w', exec (λ w1 w2, w2 = w1 ∨ release me "" RComplete reason w1 = Ok (tt, w2)) (scheduler_round me owner lease_seconds once) w tr (Ok false) w' ∧
    (∃ d, d ∈ tr ∧ select_one (is_session me) (sessions d) = Some (session_set SComplete (Some reason) false s)) ∧
    select_one (is_session me) (sessions (the_db w')) = Some (session_set SExpired (Some "deadline") false s).
Proof.
  intros Hs Ha Hd Hdl Hr. destruct (heartbeat_runs "running" None w s Hs) as (w1 & Hb & Hw1 & Hn1).
  set (w2 := World (the_db w1) (S (clock_reads w1)) (uuid_reads w1)).
  destruct (release_task_runs reason w2 s) as (w3 & Hrel & Hw3); [by rewrite <-Hs, <-Hw1|done|done|].
  assert (select_one (is_session me) (sessions (the_db w3)) = Some (session_set SComplete (Some reason) false s)) as Hcomplete.
  { rewrite Hw3. simpl. rewrite Hw1, select_one_update_where, Hs by done. done. }
  destruct (expire me "deadline" w3) as [[[] w4]|] eqn:Ee; [|done].
  assert (select_one (is_session me) (sessions (the_db w4)) = Some (session_set SExpired (Some "deadline") false s)) as Hexpired.
  { injection Ee as <-. simpl. rewrite select_one_update_where, Hcomplete by done. done. }
  eexists _, w4. split; [|split; [|exact Hexpired]].
  - unfold scheduler_round. eapply exec_commit_after; [by left|exact Hb|]. eapply exec_commit_after; [by left|reflexivity|].
    rewrite Hw1, Hs, Ha, Hd. cbn [eqb negb]. change (negb (eqb SActive SActive)) with false. cbv iota.
    eapply (exec_commit _ _ now); [by left|reflexivity|]. cbn [given then_ mret proc_ret]. rewrite <-Hn1 in Hdl. rewrite (proj2 (Z.leb_le _ _) Hdl).
    eapply exec_commit_after; [right; exact Hrel|exact Ee|]. constructor.
  - exists (the_db w3). split; [|done]. do 6 right. left.
Qed.
End Race.
