(* ===== verification/RsiWitnesses.v ===== *)
(** * Runs of the RSI coordination scripts on concrete databases

    A concrete host, a session with two members and a few work items built by
    running the commands themselves, and the instances of the theorems on it. *)

From S2P Require Import Prelude Sql RsiStore WorkPool WorkPoolProofs Continuation ContinuationProofs AgentScheduler.

(** A clock that ticks once per reading, counters as identifiers, and a file
    system in which every path exists. *)
Definition sample_host : Host := {|
  time_at n := Z.of_nat n;
  uuid_at n := pretty n;
  show_time := str_Z;
  resolve_strict p := Some p;
  is_file _ := true;
|}.
#[local] Existing Instance sample_host.

Definition lab : identity := ("codex", "s1").

(** Run commands in order; a command that raises is rolled back. *)
Definition run_or_rollback (w : world) (c : command) : world :=
  match run_command lab c w with Ok (_, w') => w' | Raise _ => w end.
Definition scenario (cs : list command) : world :=
  foldl run_or_rollback (World empty_db 0 0) cs.

Lemma run_or_rollback_keeps (I : db → Prop) w c :
  (∀ c, keeps (on_db I) (run_command lab c)) → I (the_db w) → I (the_db (run_or_rollback w c)).
Proof.
  intros HI Hw. unfold run_or_rollback.
  destruct (run_command lab c w) as [[[] w']|] eqn:E; [|done]. by apply (HI c w tt w').
Qed.

Lemma scenario_keeps (I : db → Prop) cs :
  (∀ c, keeps (on_db I) (run_command lab c)) → I empty_db → I (the_db (scenario cs)).
Proof.
  intros HI H0. unfold scenario. change empty_db with (the_db (World empty_db 0 0)) in H0.
  revert H0. generalize (World empty_db 0 0). induction cs as [|c cs IH]; intros w Hw; [done|].
  simpl. apply IH. by apply run_or_rollback_keeps.
Qed.

Lemma scenario_wf cs : pool_wf (the_db (scenario cs)).
Proof. apply scenario_keeps; [intros; apply run_command_keeps|apply pool_wf_empty]. Qed.

Lemma scenario_unique cs : members_unique (the_db (scenario cs)).
Proof. apply scenario_keeps; [intros; apply run_command_members|constructor]. Qed.

Lemma scenario_steps cs w : rtc db_step (the_db w) (the_db (foldl run_or_rollback w cs)).
Proof.
  revert w. induction cs as [|c cs IH]; intros w; [constructor|]. simpl.
  etrans; [|apply IH]. unfold run_or_rollback.
  destruct (run_command lab c w) as [[[] w']|] eqn:E; [|constructor].
  apply rtc_once. by exists lab, c, w, w'.
Qed.

Lemma scenario_reachable cs : rtc db_step empty_db (the_db (scenario cs)).
Proof. exact (scenario_steps cs (World empty_db 0 0)). Qed.

(** Two members, an implementation item and a review that depends on it. *)
Definition opening : list command :=
  [ CActivate "/task.md" None (Some 0);
    CRegister "ann" Worker [] "" "t1";
    CRegister "bob" Worker [KReview] "" "t2";
    CSubmit "build" KWorker "build it" "ann" "kernel" "" [] [];
    CSubmit "check" KReview "review it" "ann" "kernel" "" ["build"] [];
    CSubmit "extra" KWorker "more" "ann" "" "" [] ["ann"] ].

Definition opened : world := scenario opening.
Definition reviewing : world :=
  scenario (opening ++ [CClaim "ann"; CFinish "build" "ann" "/out"]).

Lemma claim_sound_witness :
  ∃ row deps w', claim lab "bob" reviewing = Ok (Some (row, deps), w') ∧
    w_name row = "check" ∧ deps_done (the_db w') row ∧ w_kind row = KReview ∧
    "bob" ∉ contributors lab (the_db w') "check".
Proof.
  destruct (claim lab "bob" reviewing) as [[[[row deps]|] w']|] eqn:E;
    [|exfalso; vm_compute in E; discriminate..].
  destruct (claim_sound lab "bob" reviewing row deps w' (scenario_wf _) E)
    as (_ & _ & _ & _ & Hd & _ & _ & Hr & _).
  assert (w_name row = "check" ∧ w_kind row = KReview) as [Hn Hk].
  { vm_compute in E. by injection E as <- _ _. }
  exists row, deps, w'. rewrite Hn in Hr. split_and!; auto.
Defined.

(** [bob] takes the newer [extra] while the older [check] is still blocked; once
    [build] is done, [check] is its older cohort. *)
Definition cohort_db : db :=
  the_db (scenario (opening ++ [CClaim "ann"; CClaim "bob"; CFinish "build" "ann" "/out"])).

Lemma claim_drains_older_cohort_witness :
  ∃ row, claim_choice lab cohort_db "bob" [KWorker; KReview] = Some row ∧ w_name row = "check" ∧
    (length (older_cohort lab (claim_effect lab "bob" (w_name row) cohort_db) "bob"
       [KWorker; KReview]) < length (older_cohort lab cohort_db "bob" [KWorker; KReview]))%nat.
Proof.
  destruct (claim_choice lab cohort_db "bob" [KWorker; KReview]) as [row|] eqn:E;
    [|exfalso; vm_compute in E; discriminate].
  destruct (frontier lab cohort_db "bob") as [f|] eqn:Ef; [|exfalso; vm_compute in Ef; discriminate].
  destruct (claim_drains_older_cohort lab cohort_db "bob" [KWorker; KReview] row f
    (scenario_wf _) Ef ltac:(vm_compute; discriminate) E) as (_ & _ & Hlt).
  exists row. split_and!; [done| |exact Hlt]. vm_compute in E. by injection E as <-.
Defined.

Definition row_named (name : string) (d : db) : work_row :=
  default (Work lab "" KWorker "" "" "" "" Done None None None None 0)
    (select_one (is_work lab name) (work d)).

(** In the opening database [check] is ready but blocked; [build] is claimable. *)
Lemma ready_work_has_actionable_ancestor_witness :
  ∃ v, v ∈ work (the_db opened) ∧ rtc (depends lab (the_db opened)) "check" (w_name v) ∧
       (v ∈ ready lab (the_db opened) ∨ w_state v = Active ∨ w_state v = Cancelled).
Proof.
  destruct (ready_work_has_actionable_ancestor (the_db opened) lab
    (row_named "check" (the_db opened)) (scenario_wf _)) as (v & Hv & _ & Hr & Hs).
  - apply list_elem_of_In. vm_compute. auto.
  - vm_compute. reflexivity.
  - vm_compute. reflexivity.
  - exists v. split; [exact Hv|]. split; [exact Hr|exact Hs].
Defined.

(** Two evaluators every ten ticks, asked for at tick 25. *)
Definition overdue : world :=
  let d := the_db (scenario (opening ++ [CSchedule 10 2])) in World d 25 0.

Lemma due_evaluations_round_witness :
  ∃ w', due_evaluations lab (Session lab "/task.md" None None SActive None false) overdue
          = Ok (tt, w') ∧
    length (work (the_db w')) = 5%nat ∧
    ∀ task' w'', due_evaluations lab task' w' = Ok (tt, w'') → the_db w'' = the_db w'.
Proof.
  destruct (due_evaluations lab (Session lab "/task.md" None None SActive None false) overdue)
    as [[[] w']|] eqn:E; [|exfalso; vm_compute in E; discriminate].
  destruct (due_evaluations_round lab (Session lab "/task.md" None None SActive None false) overdue w' (Schedule lab 10 2 10))
    as (news & k & Hw & Hlen & _ & _ & _ & _ & Hagain); [..|exact E|].
  - intros i j Hij. simpl. lia.
  - vm_compute. reflexivity.
  - done.
  - done.
  - vm_compute. discriminate.
  - vm_compute. reflexivity.
  - exists w'. split; [done|]. split; [|exact Hagain]. rewrite Hw, length_app, Hlen. reflexivity.
Defined.

Definition claimed_build : world := scenario (opening ++ [CClaim "ann"]).

(** The handed-off item is free again and its former owner may not review it. *)
Lemma handoff_compare_and_set_witness :
  ∃ w', handoff lab "build" "ann" "blocked" None claimed_build = Ok (tt, w') ∧
    w_previous_owner (row_named "build" (the_db w')) = Some "ann" ∧
    "ann" ∈ contributors lab (the_db w') "build".
Proof.
  pose proof (handoff_compare_and_set lab "build" "ann" "blocked" None claimed_build
    (scenario_wf _)) as Hh. cbv zeta in Hh.
  destruct (handoff lab "build" "ann" "blocked" None claimed_build) as [[[] w']|] eqn:E;
    [|exfalso; vm_compute in E; discriminate].
  exists w'. split; [done|]. destruct Hh as (x & x' & Hx & Ho & -> & _ & _ & Hc).
  split; [vm_compute in E; by injection E as <-|]. apply Hc.
  apply owned_active_true in Ho as (_ & Hn & _).
  assert (x = row_named "build" (the_db claimed_build)) as ->.
  { apply list_elem_of_In in Hx. vm_compute in Hx.
    repeat (destruct Hx as [Hx|Hx]; [subst x; first [reflexivity|discriminate Hn]|]). done. }
  vm_compute. auto.
Defined.

Lemma finish_compare_and_set_witness :
  ∃ w', finish lab "build" "ann" "/out" claimed_build = Ok (tt, w') ∧
    ∀ other, rowcount (owned_active lab "build" other) (work (the_db w')) = 0%nat.
Proof.
  pose proof (finish_compare_and_set lab "build" "ann" "/out" claimed_build
    (scenario_wf _)) as Hf.
  destruct (finish lab "build" "ann" "/out" claimed_build) as [[[] w']|] eqn:E;
    [|exfalso; vm_compute in E; discriminate].
  exists w'. split; [done|]. destruct Hf as (x & path & _ & _ & _ & _ & Hnone & _). exact Hnone.
Defined.

Lemma reachable_pool_wf_witness :
  length (work (the_db reviewing)) = 3%nat ∧ pool_wf (the_db reviewing).
Proof. split; [vm_compute; reflexivity|]. apply reachable_pool_wf, scenario_reachable. Defined.

Definition sample_session : session_row :=
  Session lab "/task.md" None (Some 0) SActive None false.

Definition closed : world := scenario (opening ++ [CRelease "" RComplete "answered"]).
Definition sample_closed : session_row :=
  Session lab "/task.md" None (Some 0) SComplete (Some "answered") false.
Definition stopped : world := run_or_rollback closed (CHeartbeat "sup" "stopped" None).

(** The session is still bound after work was done, and a completed one is the
    same after the scheduler's last heartbeat. *)
Lemma session_binding_stable_witness :
  (∃ s', s' ∈ sessions (the_db reviewing) ∧ s_id s' = lab ∧ s_task s' = "/task.md") ∧
  sample_closed ∈ sessions (the_db stopped).
Proof.
  split.
  - destruct (session_binding_stable (the_db opened) sample_session) as [Hall _].
    + apply scenario_reachable.
    + apply list_elem_of_In. vm_compute. auto.
    + destruct (Hall (the_db reviewing)) as (s' & Hs & Hid & Ht & _).
      { unfold reviewing, scenario. rewrite foldl_app. apply scenario_steps. }
      exists s'. split; [exact Hs|]. split; [exact Hid|exact Ht].
  - apply (session_binding_stable (the_db closed) sample_closed).
    + apply scenario_reachable.
    + apply list_elem_of_In. vm_compute. auto.
    + apply rtc_once. unfold stopped, run_or_rollback.
      destruct (run_command lab (CHeartbeat "sup" "stopped" None) closed) as [[[] w']|] eqn:E;
        [|exfalso; vm_compute in E; discriminate].
      exists lab, (CHeartbeat "sup" "stopped" None), closed, w'. done.
    + reflexivity.
Defined.

(** The first supervisor leases [ann]; after a heartbeat of a second one, this one gets nothing. *)
Lemma dispatch_exclusive_witness :
  ∃ l w1 w2 r w3, supervisor_prepare lab "ann" "sup" "idle" 30 opened = Ok (Some l, w1) ∧
    run_command lab (CHeartbeat "other" "running" None) w1 = Ok (tt, w2) ∧
    supervisor_prepare lab "ann" "other" "idle" 30 w2 = Ok (r, w3) ∧ r = None.
Proof.
  destruct (supervisor_prepare lab "ann" "sup" "idle" 30 opened) as [[[l|] w1]|] eqn:E;
    [|exfalso; vm_compute in E; discriminate..].
  destruct (run_command lab (CHeartbeat "other" "running" None) w1) as [[[] w2]|] eqn:Eh;
    [|exfalso; vm_compute in E; injection E as <- <-; vm_compute in Eh; discriminate].
  destruct (supervisor_prepare lab "ann" "other" "idle" 30 w2) as [[r w3]|] eqn:E2;
    [|exfalso; vm_compute in E; injection E as <- <-; vm_compute in Eh; injection Eh as <-; vm_compute in E2; discriminate].
  destruct (dispatch_exclusive lab "ann" "sup" "idle" 30 opened l w1 (scenario_reachable _) E) as [_ Hex].
  exists l, w1, w2, r, w3. split_and!; [done|done|done|].
  destruct (Hex (the_db w2)) as [Hone _].
  - apply rtc_once. exists lab, (CHeartbeat "other" "running" None), w1, w2. split_and!; try done; [by intros [_ []]|].
    vm_compute in E. injection E as <- <-. vm_compute. reflexivity.
  - eapply (Hone "other" "idle" 30 w2); [done| |exact E2].
    vm_compute in E. injection E as <- <-. vm_compute in Eh. injection Eh as <-. vm_compute. reflexivity.
Defined.

Lemma claim_pass_never_waits_witness :
  ∃ r w', claim_pass lab "ann" false (scenario (firstn 2 opening)) = Ok (r, w') ∧ r ≠ None.
Proof.
  destruct (claim_pass lab "ann" false (scenario (firstn 2 opening))) as [[r w']|] eqn:E;
    [|exfalso; vm_compute in E; discriminate].
  exists r, w'. split; [done|]. exact (claim_pass_never_waits lab "ann" _ r w' E).
Defined.


(** A session past its deadline *)
Definition past_deadline_db : db :=
  Db [Session lab "/task.md" (Some 3) (Some 0) SActive None false] [] [] [] [] [] [] [] [].
Lemma expiry_overwrites_completion_witness :
  ∃ tr w', exec (λ w1 w2, w2 = w1 ∨ release lab "" RComplete "all done" w1 = Ok (tt, w2)) (scheduler_round lab "sup" 30 false) (World past_deadline_db 5 0) tr (Ok false) w' ∧
    select_one (is_session lab) (sessions (the_db w')) = Some (Session lab "/task.md" (Some 3) (Some 0) SExpired (Some "deadline") false).
Proof.
  destruct (expiry_overwrites_completion lab "sup" 30 false "all done" (Session lab "/task.md" (Some 3) (Some 0) SActive None false) 3 (World past_deadline_db 5 0))
    as (tr & w' & He & _ & Hs); [reflexivity|reflexivity|reflexivity|vm_compute; discriminate|vm_compute; discriminate|].
  exists tr, w'. split; [exact He|exact Hs].
Defined.
