(* ===== verification/Text.v ===== *)
(** * Text: the string operations of the Python sources

    [str.partition] and [str.rpartition], [int(text)], and the fact that
    printing an integer and reading it back gives the same integer. *)

From Stdlib Require Import Ascii.
From S2P Require Import Prelude.

(** ** Splitting at a character *)

(** [s.partition(c)]: the text before the first [c] and after it, if any. *)
Fixpoint partition (c : ascii) (s : string) : option (string * string) :=
  match s with
  | EmptyString => None
  | String c' s =>
      if Ascii.eqb c' c then Some ("", s)
      else match partition c s with
           | Some (a, b) => Some (String c' a, b)
           | None => None
           end
  end.

(** [s.endswith(suffix)] and [part in text] *)
Fixpoint endswith (suffix s : string) : bool :=
  eqb s suffix || match s with EmptyString => false | String _ s => endswith suffix s end.
Fixpoint contains (part text : string) : bool :=
  startswith part text ||
  match text with EmptyString => false | String _ text => contains part text end.

(** [s.rpartition(c)]: split at the last [c]. *)
Fixpoint rpartition (c : ascii) (s : string) : option (string * string) :=
  match s with
  | EmptyString => None
  | String c' s =>
      match rpartition c s with
      | Some (a, b) => Some (String c' a, b)
      | None => if Ascii.eqb c' c then Some ("", s) else None
      end
  end.

Fixpoint has_char (c : ascii) (s : string) : bool :=
  match s with
  | EmptyString => false
  | String c' s => Ascii.eqb c' c || has_char c s
  end.

Lemma rpartition_None c s : rpartition c s = None ↔ has_char c s = false.
Proof.
  induction s as [|c' s IH]; simpl; [done|]. destruct (rpartition c s) as [[a b]|].
  - split; [done|]. intros [_ H]%orb_false_iff. apply IH in H. done.
  - rewrite orb_false_iff. destruct (Ascii.eqb c' c); naive_solver.
Qed.

Lemma rpartition_Some c s a b :
  rpartition c s = Some (a, b) → s = a +:+ String c b ∧ has_char c b = false.
Proof.
  revert a b. induction s as [|c' s IH]; intros a b; simpl; [done|].
  destruct (rpartition c s) as [[a' b']|] eqn:E.
  - intros [= <- <-]. destruct (IH a' b' eq_refl) as [-> ?]. done.
  - destruct (Ascii.eqb_spec c' c) as [->|]; [|done]. intros [= <- <-].
    split; [done|]. by apply rpartition_None.
Qed.

Lemma rpartition_app c a b : has_char c b = false → rpartition c (a +:+ String c b) = Some (a, b).
Proof.
  intros Hb. induction a as [|c' a IH].
  - simpl. rewrite (proj2 (rpartition_None c b) Hb). by rewrite Ascii.eqb_refl.
  - change (String c' a +:+ String c b) with (String c' (a +:+ String c b)).
    cbn [rpartition]. by rewrite IH.
Qed.

(** *** Parts between a character *)

(** [text.split(c)] and [text.replace(c, by)] *)
Fixpoint split_char (c : ascii) (s : string) : list string :=
  match s with
  | EmptyString => [""]
  | String d s =>
      if Ascii.eqb d c then "" :: split_char c s
      else match split_char c s with
           | w :: ws => String d w :: ws
           | [] => [String d ""]
           end
  end.
(** [text.split()] *)
Fixpoint split_where (p : ascii → bool) (s : string) : list string :=
  match s with
  | EmptyString => [""]
  | String d s =>
      if p d then "" :: split_where p s
      else match split_where p s with
           | w :: ws => String d w :: ws
           | [] => [String d ""]
           end
  end.
Definition words (s : string) : list string := keep nonempty (split_where is_space s).
Definition replace_char (c : ascii) (by_ s : string) : string := join by_ (split_char c s).

Lemma join_split c s : join (String c "") (split_char c s) = s.
Proof.
  induction s as [|d s IH]; [done|]. simpl. destruct (split_char c s) as [|w ws] eqn:E.
  { exfalso. destruct s as [|d' s]; simpl in E; [done|]. destruct (Ascii.eqb d' c); [done|]. by destruct (split_char c s). }
  destruct (Ascii.eqb d c) eqn:Ed.
  - apply Ascii.eqb_eq in Ed as ->. change (join _ (_ :: w :: ws)) with ("" +:+ String c "" +:+ join (String c "") (w :: ws)).
    rewrite IH. done.
  - destruct ws as [|w' ws]; [simpl in *; by rewrite IH|].
    change (join _ (_ :: w' :: ws)) with (String d w +:+ String c "" +:+ join (String c "") (w' :: ws)).
    change (join _ (w :: w' :: ws)) with (w +:+ String c "" +:+ join (String c "") (w' :: ws)) in IH.
    rewrite <-IH. done.
Qed.

Lemma split_inj c s s' : split_char c s = split_char c s' → s = s'.
Proof. intros E. by rewrite <-(join_split c s), E, join_split. Qed.

(** *** JSON strings *)

Definition hex_digit (n : nat) : ascii := ascii_of_nat (if Nat.ltb n 10 then 48 + n else 55 + n).
(** [json.dumps(text)]; characters are code points below 256. *)
Definition dumps_char (c : ascii) : string :=
  let n := nat_of_ascii c in
  if mem n [34; 92]%nat then String (ascii_of_nat 92) (String c "")
  else if Nat.eqb n 10 then "\n" else if Nat.eqb n 13 then "\r" else if Nat.eqb n 9 then "\t"
  else if Nat.eqb n 8 then "\b" else if Nat.eqb n 12 then "\f"
  else if Nat.leb 32 n && Nat.leb n 126 then String c ""
  else "\u00" +:+ String (lower_char (hex_digit (Nat.div n 16))) (String (lower_char (hex_digit (Nat.modulo n 16))) "").
Definition quotation : string := String (ascii_of_nat 34) "".
Fixpoint dumps_body (s : string) : string :=
  match s with EmptyString => "" | String c s => dumps_char c +:+ dumps_body s end.
Definition dumps (s : string) : string := quotation +:+ dumps_body s +:+ quotation.

(** *** URLs and paths *)

(** [quote(text, safe=safe)] on ASCII text *)
Definition unreserved (c : ascii) : bool :=
  let n := nat_of_ascii c in
  (Nat.leb 48 n && Nat.leb n 57) || (Nat.leb 65 n && Nat.leb n 90) || (Nat.leb 97 n && Nat.leb n 122)
  || mem c ["_"; "."; "-"; "~"]%char.
Fixpoint quote_with (safe : list ascii) (s : string) : string :=
  match s with
  | EmptyString => ""
  | String c s =>
      if unreserved c || mem c safe then String c (quote_with safe s)
      else String "%" (String (hex_digit (Nat.div (nat_of_ascii c) 16))
             (String (hex_digit (Nat.modulo (nat_of_ascii c) 16)) (quote_with safe s)))
  end.

(** [s.rstrip(c)] for one character *)
Fixpoint rstrip_char (c : ascii) (s : string) : string :=
  match s with
  | EmptyString => EmptyString
  | String d s' => match rstrip_char c s' with
                   | EmptyString => if Ascii.eqb d c then EmptyString else String d EmptyString
                   | t => String d t
                   end
  end.

(** [s.removeprefix(p)] when [s.startswith(p)] *)
Definition removeprefix (p s : string) : string := drop_chars (String.length p) s.

(** [PurePosixPath(s).parts] of a relative path *)
Definition posix_parts (s : string) : list string := keep (λ p, nonempty p && negb (eqb p ".")) (split_char "/" s).

(** ** Integers as text *)

Definition digit_value (c : ascii) : option Z :=
  let n := Z.of_nat (nat_of_ascii c) in
  if (48 <=? n) && (n <=? 57) then Some (n - 48) else None.

(** Digits with single underscores between them; [after_digit] says whether a
    digit has just been read. *)
Fixpoint read_digits (acc : Z) (after_digit : bool) (s : string) : option Z :=
  match s with
  | EmptyString => if after_digit then Some acc else None
  | String c s =>
      match digit_value c with
      | Some v => read_digits (acc * 10 + v) true s
      | None => if Ascii.eqb c "_" && after_digit then read_digits acc false s else None
      end
  end.

(** [int(text)] on ASCII text; [None] is the [ValueError]. *)
Definition py_int (text : string) : option Z :=
  match strip text with
  | String "-" s => Z.opp <$> read_digits 0 false s
  | String "+" s => read_digits 0 false s
  | s => read_digits 0 false s
  end.

(** *** Reading back what was printed *)

Definition all_digits (s : string) : bool :=
  (fix go s := match s with
   | EmptyString => true
   | String c s => bool_decide (is_Some (digit_value c)) && go s
   end) s.

Lemma digit_value_pretty x : (x < 10)%N → digit_value (pretty_N_char x) = Some (Z.of_N x).
Proof.
  intros Hx. assert (x = 0 ∨ x = 1 ∨ x = 2 ∨ x = 3 ∨ x = 4 ∨ x = 5 ∨ x = 6 ∨ x = 7 ∨ x = 8 ∨ x = 9)%N
    as Hc by lia.
  by destruct Hc as [->|[->|[->|[->|[->|[->|[->|[->|[->| ->]]]]]]]]].
Qed.

Lemma read_pretty_N_go x s b :
  (0 < x)%N → read_digits 0 b (pretty_N_go x s) = read_digits (Z.of_N x) true s.
Proof.
  revert s b. induction (N.lt_wf_0 x) as [x _ IH]. intros s b Hx.
  rewrite pretty_N_go_step by done.
  pose proof (digit_value_pretty (x `mod` 10) ltac:(apply N.mod_lt; lia)) as Hd.
  pose proof (N.div_mod x 10 ltac:(lia)) as Hdm.
  destruct (decide (x `div` 10 = 0)%N) as [E|E].
  - rewrite E, pretty_N_go_0. simpl. rewrite Hd. f_equal. rewrite E in Hdm. lia.
  - rewrite IH; [|apply N.div_lt; lia|by apply N.neq_0_lt_0]. simpl. rewrite Hd. f_equal. lia.
Qed.

Lemma all_digits_pretty_N_go x s : all_digits s = true → all_digits (pretty_N_go x s) = true.
Proof.
  revert s. induction (N.lt_wf_0 x) as [x _ IH]. intros s Hs.
  destruct (decide (0 < x)%N) as [Hx|Hx].
  - rewrite pretty_N_go_step by done. apply IH; [apply N.div_lt; lia|]. simpl.
    rewrite digit_value_pretty by (apply N.mod_lt; lia). done.
  - replace x with 0%N by lia. by rewrite pretty_N_go_0.
Qed.

Lemma pretty_N_digits x : all_digits (pretty x) = true ∧ read_digits 0 false (pretty x) = Some (Z.of_N x).
Proof.
  unfold pretty, pretty_N. case_decide as Hx; [by subst|]. split.
  - by apply all_digits_pretty_N_go.
  - by rewrite read_pretty_N_go by lia.
Qed.

(** Digits are not spaces, so stripping leaves them alone. *)
Lemma digit_not_space c : is_Some (digit_value c) → is_space c = false.
Proof.
  unfold digit_value, is_space. destruct (_ && _) eqn:E; [|by intros [? [=]]].
  reflect_in E. intros _. rewrite !orb_false_iff, !andb_false_iff.
  rewrite Nat.eqb_neq, !Nat.leb_gt. lia.
Qed.

Lemma rstrip_digits s : all_digits s = true → rstrip s = s.
Proof.
  induction s as [|c s IH]; [done|]. intros [Hc Hs]%andb_true_iff.
  apply bool_decide_eq_true in Hc. simpl. rewrite IH by done.
  destruct s; [|done]. by rewrite digit_not_space.
Qed.

Lemma strip_digits s : all_digits s = true → strip s = s.
Proof.
  intros Hs. unfold strip. destruct s as [|c s]; [done|].
  pose proof Hs as [Hc _]%andb_true_iff. apply bool_decide_eq_true in Hc.
  simpl lstrip. rewrite digit_not_space by done. by apply rstrip_digits.
Qed.

Lemma strip_minus_digits s : all_digits s = true → s ≠ "" → strip (String "-" s) = String "-" s.
Proof.
  intros Hs Hne. unfold strip. simpl. rewrite rstrip_digits by done. by destruct s.
Qed.

Lemma pretty_pos_nonempty p : pretty (N.pos p) ≠ "".
Proof.
  intros E. pose proof (proj2 (pretty_N_digits (N.pos p))) as H. rewrite E in H. done.
Qed.

Lemma py_int_digits s : all_digits s = true → py_int s = read_digits 0 false s.
Proof.
  intros Hs. unfold py_int. rewrite strip_digits by done. destruct s as [|c s]; [done|].
  simpl in Hs. apply andb_true_iff in Hs as [Hc _].
  destruct c as [[] [] [] [] [] [] [] []]; vm_compute in Hc; try discriminate; reflexivity.
Qed.

(** [int(str(n)) = n] *)
Lemma py_int_str_Z n : py_int (str_Z n) = Some n.
Proof.
  destruct n as [|p|p].
  - done.
  - change (str_Z (Z.pos p)) with (pretty (N.pos p)). destruct (pretty_N_digits (N.pos p)) as [Ha Hr].
    by rewrite py_int_digits, Hr.
  - change (str_Z (Z.neg p)) with (String "-" (pretty (N.pos p))).
    destruct (pretty_N_digits (N.pos p)) as [Ha Hr].
    unfold py_int. rewrite strip_minus_digits by (done || apply pretty_pos_nonempty).
    by rewrite Hr.
Qed.

(** A printed natural number holds digits only. *)
Lemma all_digits_str_Z n : 0 ≤ n → all_digits (str_Z n) = true.
Proof.
  intros Hn. destruct n as [|p|p]; [done| |lia]. exact (proj1 (pretty_N_digits (N.pos p))).
Qed.

Lemma all_digits_no_char c s : digit_value c = None → all_digits s = true → has_char c s = false.
Proof.
  intros Hc. induction s as [|c' s IH]; [done|]. intros [Hd Hs]%andb_true_iff. simpl.
  apply orb_false_iff. split; [|auto]. apply bool_decide_eq_true in Hd.
  destruct (Ascii.eqb_spec c' c) as [->|]; [|done]. rewrite Hc in Hd. by destruct Hd.
Qed.

(** *** Printed numbers inside a longer text *)

Lemma pretty_N_go_app x s t : pretty_N_go x (s +:+ t) = pretty_N_go x s +:+ t.
Proof.
  revert s. induction (N.lt_wf_0 x) as [x _ IH]. intros s.
  destruct (decide (0 < x)%N) as [Hx|Hx].
  - rewrite !(pretty_N_go_step x) by done.
    change (String (pretty_N_char (x `mod` 10)) (s +:+ t))
      with (String (pretty_N_char (x `mod` 10)) s +:+ t).
    apply IH, N.div_lt; lia.
  - replace x with 0%N by lia. by rewrite !pretty_N_go_0.
Qed.

Definition no_space (s : string) : bool :=
  (fix go s := match s with
   | EmptyString => true
   | String c s => negb (is_space c) && go s
   end) s.

Lemma rstrip_no_space s : no_space s = true → rstrip s = s.
Proof.
  induction s as [|c s IH]; [done|]. intros [Hc Hs]%andb_true_iff. simpl.
  rewrite IH by done. destruct s; [|done]. apply negb_true_iff in Hc. by rewrite Hc.
Qed.

Lemma strip_no_space s : no_space s = true → strip s = s.
Proof.
  intros Hs. unfold strip. destruct s as [|c s]; [done|].
  pose proof Hs as [Hc _]%andb_true_iff. apply negb_true_iff in Hc. simpl lstrip. rewrite Hc.
  by apply rstrip_no_space.
Qed.

Lemma no_space_app s t : no_space (s +:+ t) = no_space s && no_space t.
Proof.
  induction s as [|c s IH]; [done|].
  change (String c s +:+ t) with (String c (s +:+ t)). simpl. rewrite <-andb_assoc. by f_equal.
Qed.

Lemma no_space_digits s : all_digits s = true → no_space s = true.
Proof.
  induction s as [|c s IH]; [done|]. intros [Hc Hs]%andb_true_iff.
  apply bool_decide_eq_true in Hc. simpl. rewrite digit_not_space by done. by apply IH.
Qed.
