(* ===== verification/RetainedPrefix.v ===== *)
(** * The retained-prefix directory of the P/D connectors

    [data-plane/model-server/python/connectors/retained.py]: the directory of
    token prefixes whose KV blocks a decode engine still holds, and the
    discovery, claim, cancel and drain calls that serve it; with
    [offset_tcp_endpoint] of [prefix_lookup.py].

    The native connector, its scheduler and its workers are outside the
    repository: they are a state [N] with the four calls the directory makes
    ([native]).  [time.perf_counter()] and [uuid.uuid4().hex] are arguments of
    the operations that read them. *)

From Stdlib Require Import Ascii.
From S2P Require Import Prelude Text.

(** ** Data *)

(** [_RetainedPrefix] *)
Record retained_prefix := RetainedPrefix {
  request_id : string;
  token_ids : list Z;
  cache_salt : option string;
  descriptor : list (string * json);
  expires_at : Z;
  consumer_id : option string;
}.

(** The fields of a payload; an operation reads the ones it needs. *)
Record prompt := Prompt {
  prompt_token_ids : list Z;
  prompt_cache_salt : option string;
}.

(** [_RetainedPrefix.matches] *)
Definition matches (p : retained_prefix) (q : prompt) : bool :=
  eqb (cache_salt p) (prompt_cache_salt q) &&
  eqb (token_ids p) (take (length (token_ids p)) (prompt_token_ids q)).

(** The attributes set by [_initialize_retained_prefixes]. *)
Record connector := Connector {
  kv_connector : string;
  instance_id : string;
  dp_rank : Z;
  bidirectional_kv_xfer : bool;
  prefixes : list (string * retained_prefix);
  accepting : bool;
  retain_prefixes : bool;
}.

(** [_initialize_retained_prefixes] *)
Definition initialize (name instance : string) (rank : Z) (enabled retain_sources : bool)
    : connector :=
  Connector name instance rank enabled [] true retain_sources.

Definition on_prefixes (f : list (string * retained_prefix) → list (string * retained_prefix))
    (c : connector) : connector :=
  Connector (kv_connector c) (instance_id c) (dp_rank c) (bidirectional_kv_xfer c)
    (f (prefixes c)) (accepting c) (retain_prefixes c).
Definition stop_accepting (c : connector) : connector :=
  Connector (kv_connector c) (instance_id c) (dp_rank c) (bidirectional_kv_xfer c)
    (prefixes c) false (retain_prefixes c).
Definition set_consumer (who : string) (p : retained_prefix) : retained_prefix :=
  RetainedPrefix (request_id p) (token_ids p) (cache_salt p) (descriptor p) (expires_at p)
    (Some who).

(** The native owner of references and I/O: one answer per worker, or an
    exception of the executor. *)
Record native (N : Type) := Native {
  claim_send_lease : N → string → string → string → outcome (list bool) * N;
  cancel_retained_source : N → string → string → string → outcome (list bool) * N;
  worker_pending_transfers : N → outcome (list (list string));
  scheduler_pending_transfers : N → list string;
}.
Arguments claim_send_lease {N}.
Arguments cancel_retained_source {N}.
Arguments worker_pending_transfers {N}.
Arguments scheduler_pending_transfers {N}.

(** The operations of [handle_utility_call] with the payload fields they read. *)
Inductive utility :=
  | UConfiguration
  | URetainedPrefix (q : prompt)
  | UDrain
  | UClaim (rank : Z) (instance offer consumer : string) (q : prompt)
  | UCancel (rank : Z) (instance offer consumer : string)
  | UOther (operation : string).

Inductive claim_status := Granted | Miss | Released | InUse.
#[export] Instance claim_status_eq_dec : EqDecision claim_status.
Proof. solve_decision. Defined.

Inductive reply :=
  | RConfiguration (name : string) (bidirectional : bool)
  | ROffer (rank : Z) (instance : string) (offer : option (string * nat))
  | RDrain (rank : Z) (instance : string) (active_leases : nat)
  | RStatus (rank : Z) (instance : string) (status : claim_status)
      (granted : option (list (string * json))).

(** ** Operations *)

(** [_expire_available] *)
Definition expire_available (now : Z) (c : connector) : connector :=
  on_prefixes (keep (λ e, bool_decide (is_Some (consumer_id e.2)) || (now <? expires_at e.2))) c.

(** The longest offer a prompt can use; the first of equally long ones. *)
Definition best_offer (q : prompt) (c : connector) : option (string * retained_prefix) :=
  max_by (λ e, Z.of_nat (length (token_ids e.2)))
    (keep (λ e, accepting c && bool_decide (consumer_id e.2 = None) && matches e.2 q)
       (prefixes c)).

(** The descriptor handed to a consumer. *)
Definition granted_descriptor (offer consumer : string) (p : retained_prefix)
    : list (string * json) :=
  dset "remote_consumer_id" (JStr consumer) (dset "remote_read_lease" (JStr offer) (descriptor p)).

Section Connector.
Context {N : Type} (nat_ops : native N).

Abbreviation state := (connector * N)%type.

(** [_claim_source] and [_cancel_source] *)
Definition claim_source (n : N) (request lease consumer : string) : outcome bool * N :=
  let '(r, n) := claim_send_lease nat_ops n request lease consumer in
  (answers ← r; Ok (forallb id answers), n).
Definition cancel_source (n : N) (request lease consumer : string) : outcome bool * N :=
  let '(r, n) := cancel_retained_source nat_ops n request lease consumer in
  (answers ← r; Ok (forallb id answers), n).

(** The [drain] branch. *)
Definition drain (c : connector) (n : N) : outcome reply * state :=
  let c := on_prefixes (keep (λ e, bool_decide (is_Some (consumer_id e.2)))) (stop_accepting c) in
  match worker_pending_transfers nat_ops n with
  | Raise e => (Raise e, (c, n))
  | Ok pending =>
      let all := scheduler_pending_transfers nat_ops n ++ concat pending
                 ++ ((λ e, request_id e.2) <$> prefixes c) in
      (Ok (RDrain (dp_rank c) (instance_id c) (length (distinct all))), (c, n))
  end.

Definition status_reply (c : connector) (s : claim_status) : reply :=
  RStatus (dp_rank c) (instance_id c) s None.

(** The [cancel] branch, for the offer [p] found in the directory. *)
Definition cancel_offer (c : connector) (n : N) (offer consumer : string) (p : retained_prefix)
    : outcome reply * state :=
  match consumer_id p with
  | None => (Ok (status_reply c Released), (on_prefixes (ddel offer) c, n))
  | Some holder =>
      if negb (eqb holder consumer) then (Ok (status_reply c Miss), (c, n)) else
      let '(r, n) := cancel_source n (request_id p) offer consumer in
      match r with
      | Raise e => (Raise e, (c, n))
      | Ok false => (Ok (status_reply c InUse), (c, n))
      | Ok true => (Ok (status_reply c Released), (on_prefixes (ddel offer) c, n))
      end
  end.

(** The [claim] branch, for the offer [p] found in the directory.  The consumer
    is recorded before the workers are asked, so that it can be cleaned up when
    their call raises. *)
Definition claim_offer (c : connector) (n : N) (offer consumer : string) (q : prompt)
    (p : retained_prefix) : outcome reply * state :=
  if negb (accepting c) || bool_decide (is_Some (consumer_id p)) || negb (matches p q)
  then (Ok (status_reply c Miss), (c, n)) else
  let c := on_prefixes (dset offer (set_consumer consumer p)) c in
  let '(r, n) := claim_source n (request_id p) offer consumer in
  match r with
  | Raise e => (Raise e, (c, n))
  | Ok true =>
      (Ok (RStatus (dp_rank c) (instance_id c) Granted
             (Some (granted_descriptor offer consumer p))), (c, n))
  | Ok false =>
      let '(r, n) := cancel_source n (request_id p) offer consumer in
      match r with
      | Raise e => (Raise e, (c, n))
      | Ok _ => (Ok (status_reply c Miss), (on_prefixes (ddel offer) c, n))
      end
  end.

(** [payload["dp_rank"] != self._dp_rank or payload["instance_id"] != self._instance_id] *)
Definition foreign (c : connector) (rank : Z) (instance : string) : bool :=
  negb (eqb rank (dp_rank c)) || negb (eqb instance (instance_id c)).

(** [handle_utility_call] *)
Definition handle_utility_call (now : Z) (u : utility) (s : state) : outcome reply * state :=
  let '(c0, n) := s in
  let c := expire_available now c0 in
  match u with
  | UConfiguration =>
      (Ok (RConfiguration (kv_connector c0) (bidirectional_kv_xfer c0)), s)
  | URetainedPrefix q =>
      (Ok (ROffer (dp_rank c) (instance_id c)
             ((λ e, (e.1, length (token_ids e.2))) <$> best_offer q c)), (c, n))
  | UDrain => drain c n
  | UClaim rank instance offer consumer q =>
      if foreign c rank instance then (Ok (status_reply c Miss), (c, n)) else
      match dget offer (prefixes c) with
      | None => (Ok (status_reply c Miss), (c, n))
      | Some p => claim_offer c n offer consumer q p
      end
  | UCancel rank instance offer consumer =>
      if foreign c rank instance then (Ok (status_reply c Miss), (c, n)) else
      match dget offer (prefixes c) with
      | None => (Ok (status_reply c Released), (c, n))
      | Some p => cancel_offer c n offer consumer p
      end
  | UOther operation => (Raise (ValueError ("Unknown KV utility operation: " +:+ operation)), (c, n))
  end.

(** [update_connector_output], after the native update. *)
Definition update_connector_output (finished : list string) (c : connector) : connector :=
  if bool_decide (finished = []) then c
  else on_prefixes (keep (λ e, negb (mem (request_id e.2) finished))) c.

(** The attributes of a finished request that [_record_prefix] reads. *)
Record request := Request {
  rq_request_id : string;
  rq_all_token_ids : list Z;
  rq_cache_salt : option string;
  rq_lora : bool;            (* lora_request is not None *)
  rq_multimodal : bool;      (* mm_features is not empty *)
  rq_embeds : bool;          (* prompt_embeds is not None *)
}.

(** [descriptor["remote_blocks_expiry_time"]] in clock units of 2^-1074 s, of
    which every finite float is a multiple. *)
Definition clock_value (j : json) : option Z :=
  match j with
  | JFloat (Fin q) => Some (Qfloor (q * inject_Z (2 ^ 1074)))
  | JInt n => Some (n * 2 ^ 1074)
  | _ => None
  end.

(** The prefix a request leaves behind, when it is eligible.  A descriptor whose
    fields do not have their documented types raises. *)
Definition eligible_prefix (r : request) (delay_free : bool)
    (desc : option (list (string * json))) : outcome (option retained_prefix) :=
  match desc with
  | None => Ok None
  | Some m =>
      if negb delay_free || negb (match dget "do_remote_decode" m with
                                  | Some j => truthy j
                                  | None => false
                                  end)
         || rq_lora r || rq_multimodal r || rq_embeds r
      then Ok None else
      match dget "remote_num_tokens" m with
      | None => Raise (KeyError "remote_num_tokens")
      | Some (JInt k) =>
          if negb ((0 <? k) && (k <=? Z.of_nat (length (rq_all_token_ids r)))) then Ok None else
          match dget "remote_blocks_expiry_time" m with
          | None => Raise (KeyError "remote_blocks_expiry_time")
          | Some j => match clock_value j with
                      | None => Raise (TypeError "remote_blocks_expiry_time")
                      | Some t => Ok (Some (RetainedPrefix (rq_request_id r)
                                    (take (Z.to_nat k) (rq_all_token_ids r)) (rq_cache_salt r) m t None))
                      end
          end
      | Some _ => Raise (TypeError "remote_num_tokens")
      end
  end.

(** The directory key of a recorded prefix. *)
Definition lease_id (uuid : string) (m : list (string * json)) : outcome string :=
  match dget "remote_read_lease" m with
  | None | Some JNull => Ok uuid
  | Some (JStr s) => Ok s
  | Some _ => Raise (TypeError "remote_read_lease")
  end.

(** [_record_prefix]: the result of [request_finished] and the new directory. *)
Definition record_prefix (now : Z) (uuid : string) (r : request)
    (result : bool * option (list (string * json))) (c : connector)
    : outcome (bool * option (list (string * json))) * connector :=
  if negb (retain_prefixes c) then (Ok result, c) else
  match eligible_prefix r result.1 result.2 with
  | Raise e => (Raise e, c)
  | Ok None => (Ok (result.1, None), c)
  | Ok (Some p) =>
      if negb (accepting c) then (Ok (result.1, None), c) else
      let c := expire_available now c in
      match lease_id uuid (descriptor p) with
      | Raise e => (Raise e, c)
      | Ok key => (Ok (result.1, None), on_prefixes (dset key p) c)
      end
  end.

(** ** Runs *)

(** What the scheduler and the utility RPC do to a connector, in any order.  The
    native state may change by itself between calls. *)
Inductive event :=
  | EUtility (now : Z) (u : utility)
  | EFinished (finished : list string)
  | ERecord (now : Z) (uuid : string) (r : request) (result : bool * option (list (string * json)))
  | ENative (n : N).

Definition step (s : state) (e : event) : option (outcome reply) * state :=
  match e with
  | EUtility now u => let '(r, s) := handle_utility_call now u s in (Some r, s)
  | EFinished finished => (None, (update_connector_output finished s.1, s.2))
  | ERecord now uuid r result => (None, ((record_prefix now uuid r result s.1).2, s.2))
  | ENative n => (None, (s.1, n))
  end.

(** The events of a run with their answers, and the final state. *)
Fixpoint run (s : state) (es : list event) : list (event * option (outcome reply)) * state :=
  match es with
  | [] => ([], s)
  | e :: es =>
      let '(r, s) := step s e in
      let '(log, s) := run s es in
      ((e, r) :: log, s)
  end.
End Connector.
Arguments EUtility {N}.
Arguments EFinished {N}.
Arguments ERecord {N}.

(** ** Endpoints *)

(** [offset_tcp_endpoint] *)
Definition offset_tcp_endpoint (endpoint : string) (offset : Z) : outcome string :=
  match rpartition ":" endpoint with
  | None => Raise (ValueError "shared KV lookup endpoint must be a TCP endpoint")
  | Some (prefix, raw_port) =>
      if negb (startswith "tcp://" prefix)
      then Raise (ValueError "shared KV lookup endpoint must be a TCP endpoint") else
      match py_int raw_port with
      | None => Raise (ValueError "invalid literal for int() with base 10")
      | Some n =>
          let port := n + offset in
          if (port <? 1) || (65535 <? port)
          then Raise (ValueError "shared KV lookup endpoint port is outside the TCP range")
          else Ok (prefix +:+ ":" +:+ str_Z port)
      end
  end.
