(* ===== verification/RetainedPrefixProofs.v ===== *)
(** * Properties of the retained-prefix directory

    A granted offer belongs to one consumer until it is freed; discovery offers
    the longest usable prefix; a drained connector hands out nothing any more;
    endpoints keep their host. *)

From Stdlib Require Import Ascii.
From S2P Require Import Prelude Text RetainedPrefix.

Section Directory.
Context {N : Type} (ops : native N).
Implicit Types (c : connector) (n : N) (s : connector * N).

(** ** The directory is a dictionary *)

Definition directory_wf c : Prop := NoDup (prefixes c).*1.

Lemma expire_available_wf now c : directory_wf c → directory_wf (expire_available now c).
Proof. apply NoDup_dict_keep. Qed.

(** The directory after a claim or a cancellation of one offer. *)
Lemma claim_offer_state c n o who q p :
  let s' := (claim_offer ops c n o who q p).2 in
  s'.1 = c ∨ s'.1 = on_prefixes (dset o (set_consumer who p)) c ∨
  s'.1 = on_prefixes (ddel o) (on_prefixes (dset o (set_consumer who p)) c).
Proof.
  unfold claim_offer. destruct (_ || _ || _); simpl; [auto|].
  destruct (claim_source _ _ _ _ _) as [[[]|] n1]; simpl; auto.
  destruct (cancel_source _ _ _ _ _) as [[[]|] n2]; simpl; auto.
Qed.

Lemma cancel_offer_state c n o who p :
  let s' := (cancel_offer ops c n o who p).2 in
  s'.1 = c ∨ (s'.1 = on_prefixes (ddel o) c ∧
              (consumer_id p = None ∨ consumer_id p = Some who)).
Proof.
  unfold cancel_offer. destruct (consumer_id p) as [holder|]; simpl; [|auto].
  destruct (eqb holder who) eqn:E; simpl; [|auto]. rewrite eqb_true in E. subst.
  destruct (cancel_source _ _ _ _ _) as [[[]|] n1]; simpl; auto.
Qed.

Lemma drain_state c n :
  (drain ops c n).2.1 =
    on_prefixes (keep (λ e, bool_decide (is_Some (consumer_id e.2)))) (stop_accepting c).
Proof. unfold drain. by destruct (worker_pending_transfers _ _). Qed.

Lemma handle_wf now u s :
  directory_wf s.1 → directory_wf (handle_utility_call ops now u s).2.1.
Proof.
  destruct s as [c0 n]. simpl. intros Hwf0.
  pose proof (expire_available_wf now c0 Hwf0) as Hwf.
  destruct u as [|q| |rank inst o who q|rank inst o who|op]; simpl; try done.
  - rewrite drain_state. by apply NoDup_dict_keep.
  - destruct (foreign _ _ _); [done|]. destruct (dget o _) as [p|] eqn:E; [|done].
    destruct (claim_offer_state (expire_available now c0) n o who q p) as [->|[->| ->]];
      [done|by apply NoDup_dset|]. by apply NoDup_dict_keep, NoDup_dset.
  - destruct (foreign _ _ _); [done|]. destruct (dget o _) as [p|] eqn:E; [|done].
    destruct (cancel_offer_state (expire_available now c0) n o who p) as [->|[-> _]];
      [done|by apply NoDup_dict_keep].
Qed.

Lemma record_prefix_state now uuid r res c :
  let c' := (record_prefix now uuid r res c).2 in
  c' = c ∨ c' = expire_available now c ∨
  ∃ p key m, res.2 = Some m ∧ lease_id uuid m = Ok key ∧ accepting c = true ∧
    eligible_prefix r res.1 res.2 = Ok (Some p) ∧
    c' = on_prefixes (dset key p) (expire_available now c).
Proof.
  unfold record_prefix. destruct (retain_prefixes c); simpl; [|auto].
  destruct (eligible_prefix r res.1 res.2) as [[p|]|] eqn:E; simpl; [|auto|auto].
  destruct (accepting c) eqn:Ha; simpl; [|auto].
  assert (res.2 = Some (descriptor p)) as Hm.
  { revert E. unfold eligible_prefix. destruct (res.2) as [m|]; [|done].
    repeat case_match; try done; by intros [= <-]. }
  destruct (lease_id uuid (descriptor p)) as [key|] eqn:El; simpl; [|auto].
  right. right. exists p, key, (descriptor p). auto.
Qed.

Lemma step_wf s e : directory_wf s.1 → directory_wf (step ops s e).2.1.
Proof.
  destruct e as [now u|fin|now uuid r res|n']; simpl; intros Hwf.
  - pose proof (handle_wf now u s Hwf). by destruct (handle_utility_call _ _ _ _).
  - unfold update_connector_output. case_bool_decide; [done|]. by apply NoDup_dict_keep.
  - destruct (record_prefix_state now uuid r res s.1) as [->|[->|(p & key & m & _ & _ & _ & _ & ->)]];
      [done|by apply expire_available_wf|]. by apply NoDup_dset, expire_available_wf.
  - done.
Qed.

(** ** A granted offer is exclusive *)

(** [o] is claimed by [who], for the request [rid] that holds its blocks. *)
Definition claimed_by (o who rid : string) c : Prop :=
  ∃ p, dget o (prefixes c) = Some p ∧ consumer_id p = Some who ∧ request_id p = rid.

(** The events that may end the claim: its holder cancels it, the native
    connector reports the request as sent, or a new request records under the
    same lease. *)
Definition frees (o who rid : string) (e : event (N := N)) : bool :=
  match e with
  | EUtility _ (UCancel _ _ o' who') => eqb o' o && eqb who' who
  | EFinished finished => mem rid finished
  | ERecord _ uuid _ (_, Some m) => bool_decide (lease_id uuid m = Ok o)
  | _ => false
  end.

(** The answer [r] to [e] gives [o] to somebody, or tells somebody about it. *)
Definition hands_out (o : string) (e : event (N := N)) (r : option (outcome reply)) : Prop :=
  match e, r with
  | EUtility _ (UClaim _ _ o' _ _), Some (Ok (RStatus _ _ Granted _)) => o' = o
  | EUtility _ (URetainedPrefix _), Some (Ok (ROffer _ _ (Some (o', _)))) => o' = o
  | _, _ => False
  end.

Lemma claimed_expire o who rid now c :
  directory_wf c → claimed_by o who rid c → claimed_by o who rid (expire_available now c).
Proof.
  intros Hwf (p & Hp & Hc & Hr). exists p. split; [|done]. simpl.
  rewrite dget_keep, Hp by done. simpl. by rewrite Hc.
Qed.

Lemma claimed_dset o who rid o' p' c :
  o' ≠ o → claimed_by o who rid c → claimed_by o who rid (on_prefixes (dset o' p') c).
Proof.
  intros Hne (p & Hp & Hc). exists p. split; [|done]. simpl. rewrite dget_dset.
  by rewrite (proj2 (eqb_false o' o)).
Qed.

Lemma claimed_ddel o who rid o' c :
  directory_wf c → o' ≠ o → claimed_by o who rid c → claimed_by o who rid (on_prefixes (ddel o') c).
Proof.
  intros Hwf Hne (p & Hp & Hc). exists p. split; [|done]. simpl. rewrite dget_ddel by done.
  by rewrite (proj2 (eqb_false o' o)).
Qed.

Lemma best_offer_Some q c o p :
  best_offer q c = Some (o, p) →
  (o, p) ∈ prefixes c ∧ accepting c = true ∧ consumer_id p = None ∧ matches p q = true.
Proof.
  unfold best_offer. intros [Hin _]%max_by_Some. apply elem_of_keep in Hin as [Hp Hin].
  simpl in Hp. reflect_in Hp. destruct Hp as [[Ha Hc] Hm]. apply bool_decide_eq_true in Hc. auto.
Qed.

(** A claimed offer is not offered to anybody. *)
Lemma claimed_not_offered o who rid q c p :
  directory_wf c → claimed_by o who rid c → best_offer q c = Some (o, p) → False.
Proof.
  intros Hwf (p' & Hp' & Hc & _) (Hin & _ & Hnone & _)%best_offer_Some.
  rewrite (elem_dget o p _ Hwf Hin) in Hp'. congruence.
Qed.

Lemma claimed_handle o who rid now u s :
  directory_wf s.1 → claimed_by o who rid s.1 → frees o who rid (EUtility now u) = false →
  claimed_by o who rid (handle_utility_call ops now u s).2.1 ∧
  ¬ hands_out o (EUtility now u) (Some (handle_utility_call ops now u s).1).
Proof.
  destruct s as [c0 n]. change (c0, n).1 with c0. intros Hwf0 Hcl0 Hf.
  unfold handle_utility_call. cbv beta iota zeta.
  pose proof (expire_available_wf now c0 Hwf0) as Hwf.
  pose proof (claimed_expire o who rid now c0 Hwf0 Hcl0) as Hcl.
  generalize dependent (expire_available now c0). intros c Hwf Hcl.
  destruct u as [|q| |rank inst o' who' q|rank inst o' who'|op]; simpl; try (split; [done|by intros []]).
  - split; [done|]. destruct (best_offer q c) as [[o' p']|] eqn:E; simpl; [|tauto].
    intros ->. by eapply claimed_not_offered.
  - rewrite drain_state. split; [|tauto]. destruct Hcl as (p & Hp & Hc & Hr). exists p.
    split; [|done]. simpl. rewrite dget_keep, Hp by done. simpl. by rewrite Hc.
  - destruct (foreign _ _ _); [split; [done|tauto]|].
    destruct (dget o' (prefixes c)) as [p'|] eqn:E'; [|split; [done|tauto]].
    destruct (decide (o' = o)) as [->|Hne].
    + destruct Hcl as (p & Hp & Hc & Hr). rewrite Hp in E'. injection E' as <-.
      unfold claim_offer. rewrite Hc. rewrite (bool_decide_eq_true_2 (is_Some (Some who))) by eauto.
      rewrite orb_true_r. simpl. split; [by exists p|tauto].
    + split; [|repeat case_match; tauto].
      destruct (claim_offer_state c n o' who' q p') as [->|[->| ->]]; [done|by apply claimed_dset|].
      apply claimed_ddel; [by apply NoDup_dset|done|]. by apply claimed_dset.
  - split; [|repeat case_match; tauto]. destruct (foreign _ _ _); [done|].
    destruct (dget o' (prefixes c)) as [p'|] eqn:E'; [|done].
    destruct (cancel_offer_state c n o' who' p') as [->|[-> Hwho]]; [done|].
    destruct (decide (o' = o)) as [->|Hne]; [|by apply claimed_ddel].
    destruct Hcl as (p & Hp & Hc & Hr). rewrite Hp in E'. injection E' as <-.
    exfalso. simpl in Hf. rewrite eqb_refl in Hf. simpl in Hf. rewrite eqb_false in Hf.
    destruct Hwho; congruence.
Qed.

Lemma claimed_step o who rid s e :
  directory_wf s.1 → claimed_by o who rid s.1 → frees o who rid e = false →
  claimed_by o who rid (step ops s e).2.1 ∧ ¬ hands_out o e (step ops s e).1.
Proof.
  destruct e as [now u|fin|now uuid r res|n']; intros Hwf Hcl Hf.
  - pose proof (claimed_handle o who rid now u s Hwf Hcl Hf) as Hh. simpl.
    by destruct (handle_utility_call _ _ _ _).
  - simpl in *. split; [|tauto]. unfold update_connector_output. case_bool_decide; [done|].
    destruct Hcl as (p & Hp & Hc & <-). exists p. split; [|done]. simpl.
    rewrite dget_keep, Hp by done. simpl. by rewrite Hf.
  - split; [|simpl; tauto]. simpl.
    destruct (record_prefix_state now uuid r res s.1) as
      [->|[->|(p & key & m & Hm & Hkey & _ & _ & ->)]];
      [done|by apply claimed_expire|].
    apply claimed_dset; [|by apply claimed_expire]. intros ->.
    destruct res as [delay d]. simpl in *. subst d. by rewrite bool_decide_eq_false in Hf.
  - split; [done|simpl; tauto].
Qed.

Lemma claimed_run o who rid s es :
  directory_wf s.1 → claimed_by o who rid s.1 → Forall (λ e, frees o who rid e = false) es →
  claimed_by o who rid (run ops s es).2.1 ∧
  ∀ e r, (e, r) ∈ (run ops s es).1 → ¬ hands_out o e r.
Proof.
  revert s. induction es as [|e es IH]; intros s Hwf Hcl Hf; simpl.
  { split; [done|]. intros e r Hin. by apply not_elem_of_nil in Hin. }
  apply Forall_cons in Hf as [He Hes].
  destruct (claimed_step o who rid s e Hwf Hcl He) as [Hcl1 Hno].
  pose proof (step_wf s e Hwf) as Hwf1. destruct (step ops s e) as [r s1]. simpl in *.
  destruct (IH s1 Hwf1 Hcl1 Hes) as [Hcl2 Hlog]. destruct (run ops s1 es) as [log s2]. simpl in *.
  split; [done|]. intros e' r' [[= -> ->]|Hin]%elem_of_cons; auto.
Qed.

(** What a grant implies. *)
Lemma claim_granted now rank inst o who q s r i d s' :
  handle_utility_call ops now (UClaim rank inst o who q) s = (Ok (RStatus r i Granted d), s') →
  let c := expire_available now s.1 in
  rank = dp_rank s.1 ∧ inst = instance_id s.1 ∧ accepting s.1 = true ∧
  ∃ p n1, dget o (prefixes c) = Some p ∧ consumer_id p = None ∧ matches p q = true ∧
    claim_source ops s.2 (request_id p) o who = (Ok true, n1) ∧
    d = Some (granted_descriptor o who p) ∧
    s' = (on_prefixes (dset o (set_consumer who p)) c, n1).
Proof.
  destruct s as [c0 n]. cbv zeta. unfold handle_utility_call, foreign.
  destruct (eqb rank _) eqn:E1, (eqb inst _) eqn:E2; simpl; try done.
  reflect_in E1. reflect_in E2. simpl in E1, E2.
  destruct (dget o _) as [p|] eqn:Ep; [|done]. unfold claim_offer. simpl.
  destruct (accepting c0) eqn:Ea; [|done]. case_bool_decide as Hc; [done|].
  destruct (matches p q) eqn:Em; [|done]. simpl.
  destruct (claim_source _ _ _ _ _) as [[[]|] n1] eqn:Es; simpl; try done.
  - intros [= <- <- <- <-]. split_and!; try done. exists p, n1.
    split_and!; try done. by apply eq_None_not_Some.
  - by destruct (cancel_source _ _ _ _ _) as [[]].
Qed.

(** C18: a granted offer belongs to its consumer alone: whatever discovery,
    claims, cancellations, drains, recordings and native events follow, until
    its holder cancels it, the native connector reports its request as sent, or
    a request records under the same lease, the directory keeps it claimed and
    no answer grants it or offers it to anybody. *)
Theorem grant_is_exclusive now rank inst o who q s r i d s1 :
  directory_wf s.1 →
  handle_utility_call ops now (UClaim rank inst o who q) s = (Ok (RStatus r i Granted d), s1) →
  ∃ rid, claimed_by o who rid s1.1 ∧
    ∀ es, Forall (λ e, frees o who rid e = false) es →
      claimed_by o who rid (run ops s1 es).2.1 ∧
      ∀ e r, (e, r) ∈ (run ops s1 es).1 → ¬ hands_out o e r.
Proof.
  intros Hwf E. pose proof (handle_wf now (UClaim rank inst o who q) s Hwf) as Hwf1.
  rewrite E in Hwf1. simpl in Hwf1.
  apply claim_granted in E as (_ & _ & _ & p & n1 & Hp & _ & _ & _ & _ & ->).
  assert (claimed_by o who (request_id p)
            (on_prefixes (dset o (set_consumer who p)) (expire_available now s.1))) as Hcl.
  { exists (set_consumer who p). split; [|done]. simpl. by rewrite dget_dset, eqb_refl. }
  exists (request_id p). split; [exact Hcl|]. intros es Hes. by apply claimed_run.
Qed.

(** ** Discovery and claims *)

(** Discovery answers with the longest retained prefix a prompt can reuse:
    an unclaimed, unexpired entry of an accepting directory whose tokens start
    the prompt under the same salt, none longer; and it answers nothing only
    when there is none. *)
Theorem offer_is_longest now q s :
  directory_wf s.1 →
  let c := s.1 in
  let usable p := accepting c = true ∧ consumer_id p = None ∧ now < expires_at p ∧
                  cache_salt p = prompt_cache_salt q ∧
                  token_ids p `prefix_of` prompt_token_ids q in
  ∃ answer s', handle_utility_call ops now (URetainedPrefix q) s =
                 (Ok (ROffer (dp_rank c) (instance_id c) answer), s') ∧
  match answer with
  | Some (o, len) => ∃ p, dget o (prefixes c) = Some p ∧ usable p ∧ len = length (token_ids p) ∧
      ∀ o' p', dget o' (prefixes c) = Some p' → usable p' → (length (token_ids p') ≤ len)%nat
  | None => ∀ o' p', dget o' (prefixes c) = Some p' → ¬ usable p'
  end.
Proof.
  destruct s as [c n]. simpl. intros Hwf. eexists _, _. split; [done|].
  assert (∀ p, matches p q = true ↔
    cache_salt p = prompt_cache_salt q ∧ token_ids p `prefix_of` prompt_token_ids q) as Hmatch.
  { intros p. unfold matches. rewrite andb_true_iff, !eqb_true. split.
    - intros [-> Ht]. split; [done|]. rewrite Ht. apply prefix_take.
    - intros [-> [k Hk]]. split; [done|]. rewrite Hk. by rewrite take_app_length. }
  assert (∀ o p, dget o (prefixes c) = Some p → accepting c = true → consumer_id p = None →
    now < expires_at p → matches p q = true →
    (o, p) ∈ keep (λ e : string * retained_prefix, accepting (expire_available now c) &&
      bool_decide (consumer_id e.2 = None) && matches e.2 q) (prefixes (expire_available now c)))
    as Hin.
  { intros o p Hp Ha Hc Hn Hm. simpl. rewrite !elem_of_keep. simpl.
    rewrite Ha, Hm, bool_decide_eq_true_2 by done. split_and!; [done| |by apply dget_elem].
    apply orb_true_iff. right. lia. }
  destruct (best_offer q (expire_available now c)) as [[o p]|] eqn:E; simpl.
  - pose proof (best_offer_Some _ _ _ _ E) as (He & Ha & Hc & Hm). simpl in He.
    apply elem_of_keep in He as [Hexp He]. simpl in Hexp. rewrite Hc in Hexp. simpl in Hexp.
    exists p. split_and!; [by apply elem_dget|done|done|lia|by apply Hmatch|by apply Hmatch|done|].
    intros o' p' Hp' (Ha' & Hc' & Hn' & Hm'%Hmatch).
    unfold best_offer in E. apply max_by_Some in E as [_ Hmax].
    specialize (Hmax _ (Hin o' p' Hp' Ha' Hc' Hn' Hm')). rewrite pleb_Z in Hmax. simpl in Hmax. lia.
  - intros o' p' Hp' (Ha' & Hc' & Hn' & Hm'%Hmatch).
    unfold best_offer in E. apply max_by_None in E.
    specialize (Hin o' p' Hp' Ha' Hc' Hn' Hm'). rewrite E in Hin. by apply not_elem_of_nil in Hin.
Qed.

(** When some worker refuses a claim, what was acquired is given back: the
    native cancellation is called for the same lease and consumer, the offer
    leaves the directory and the consumer is told it missed. *)
Theorem refused_claim_rolls_back now rank inst o who q s p n1 n2 ok :
  directory_wf s.1 →
  foreign s.1 rank inst = false → accepting s.1 = true →
  dget o (prefixes s.1) = Some p → consumer_id p = None → now < expires_at p →
  matches p q = true →
  claim_source ops s.2 (request_id p) o who = (Ok false, n1) →
  cancel_source ops n1 (request_id p) o who = (Ok ok, n2) →
  ∃ c', handle_utility_call ops now (UClaim rank inst o who q) s =
          (Ok (status_reply s.1 Miss), (c', n2)) ∧
    dget o (prefixes c') = None ∧
    ∀ o' p', o' ≠ o → dget o' (prefixes c') = Some p' → dget o' (prefixes s.1) = Some p'.
Proof.
  destruct s as [c n]. simpl. intros Hwf Hf Ha Hp Hc Hn Hm Es Ec.
  pose proof (expire_available_wf now c Hwf) as Hwf1.
  assert (dget o (prefixes (expire_available now c)) = Some p) as Hp1.
  { simpl. rewrite dget_keep, Hp by done. simpl. rewrite Hc. simpl.
    by rewrite (proj2 (Z.ltb_lt _ _) Hn). }
  change (foreign (expire_available now c) rank inst) with (foreign c rank inst).
  simpl in Hp1. rewrite Hf, Hp1. unfold claim_offer. simpl. rewrite Ha, Hc, Hm. simpl.
  rewrite Es, Ec. eexists. split; [done|]. simpl. split.
  - rewrite dget_ddel by (by apply NoDup_dset). by rewrite eqb_refl.
  - intros o' p' Hne. rewrite dget_ddel by (by apply NoDup_dset).
    rewrite (proj2 (eqb_false o o')) by done. rewrite dget_dset.
    rewrite (proj2 (eqb_false o o')) by done. rewrite dget_keep by done.
    destruct (dget o' (prefixes c)); [|done]. by case_match.
Qed.

(** ** Draining is final *)

Lemma handle_accepting now u s :
  accepting s.1 = false → accepting (handle_utility_call ops now u s).2.1 = false ∧
  ((prefixes (handle_utility_call ops now u s).2.1).*1 ⊆ (prefixes s.1).*1).
Proof.
  destruct s as [c n]. intros Ha. simpl in Ha.
  destruct u as [|q| |rank inst o who q|rank inst o who|op]; simpl; try (split; [done|apply dict_keep_keys]).
  - done.
  - rewrite drain_state. split; [done|]. simpl. etrans; apply dict_keep_keys.
  - destruct (foreign _ _ _); [split; [done|apply dict_keep_keys]|].
    destruct (dget o _) as [p|]; [|split; [done|apply dict_keep_keys]].
    unfold claim_offer. simpl. rewrite Ha. simpl. split; [done|apply dict_keep_keys].
  - destruct (foreign _ _ _); [split; [done|apply dict_keep_keys]|].
    destruct (dget o _) as [p|]; [|split; [done|apply dict_keep_keys]].
    destruct (cancel_offer_state (expire_available now c) n o who p) as [->|[-> _]];
      (split; [done|]); [apply dict_keep_keys|]. simpl. etrans; apply dict_keep_keys.
Qed.

Lemma step_accepting s e :
  accepting s.1 = false → accepting (step ops s e).2.1 = false ∧
  ((prefixes (step ops s e).2.1).*1 ⊆ (prefixes s.1).*1) ∧
  ∀ o, ¬ hands_out o e (step ops s e).1.
Proof.
  destruct e as [now u|fin|now uuid r res|n']; intros Ha.
  - pose proof (handle_accepting now u s Ha) as [Ha' Hsub]. simpl.
    destruct (handle_utility_call ops now u s) as [r s'] eqn:E. simpl in *. split_and!; [done|done|].
    intros o. destruct u as [|q| |rank inst o' who q|rank inst o' who|op]; simpl; try tauto.
    + destruct s as [c n]. simpl in E. injection E as <- <-.
      destruct (best_offer q (expire_available now c)) as [[o' p]|] eqn:Eb; simpl; [|tauto].
      apply best_offer_Some in Eb as (_ & Hacc & _). simpl in *. congruence.
    + destruct r as [[]|]; try tauto. destruct status; try tauto.
      apply claim_granted in E as (_ & _ & Hacc & _). congruence.
  - simpl. split_and!; [|..|by intros ?; simpl; tauto].
    + unfold update_connector_output. by case_bool_decide.
    + unfold update_connector_output. case_bool_decide; [done|]. apply dict_keep_keys.
  - simpl. destruct (record_prefix_state now uuid r res s.1) as
      [->|[->|(p & key & m & _ & _ & Hacc & _)]]; [|..|congruence].
    { split_and!; [done|done|by intros ?; simpl; tauto]. }
    split_and!; [done| |by intros ?; simpl; tauto]. apply dict_keep_keys.
  - split_and!; [done|done|by intros ?; simpl; tauto].
Qed.

(** Draining is final: once a connector has drained, every offer left is a
    claimed one, and in whatever follows no offer is made, none is granted and
    none is added, so the directory can only empty. *)
Theorem drain_is_final now s r s1 es :
  handle_utility_call ops now UDrain s = (r, s1) →
  (∀ o p, (o, p) ∈ prefixes s1.1 → is_Some (consumer_id p)) ∧
  ((prefixes (run ops s1 es).2.1).*1 ⊆ (prefixes s1.1).*1) ∧
  (∀ e r o, (e, r) ∈ (run ops s1 es).1 → ¬ hands_out o e r).
Proof.
  destruct s as [c n]. simpl. intros E.
  assert (s1.1 = (drain ops (expire_available now c) n).2.1) as Hs1 by (by rewrite E).
  rewrite drain_state in Hs1. split.
  { intros o p. rewrite Hs1. simpl. rewrite elem_of_keep. simpl.
    rewrite bool_decide_eq_true. by intros [? _]. }
  assert (accepting s1.1 = false) as Ha by (by rewrite Hs1).
  clear -Ha. revert s1 Ha. induction es as [|e es IH]; intros s1 Ha; simpl.
  { split; [done|]. intros e r o Hin. by apply not_elem_of_nil in Hin. }
  destruct (step_accepting s1 e Ha) as (Ha' & Hsub & Hno).
  destruct (step ops s1 e) as [r s2]. simpl in *. destruct (IH s2 Ha') as [Hsub' Hlog].
  destruct (run ops s2 es) as [log s3]. simpl in *. split; [by etrans|].
  intros e' r' o [[= -> ->]|Hin]%elem_of_cons; [apply Hno|by eapply Hlog].
Qed.
End Directory.

(** ** Endpoints *)

(** Offsetting a TCP endpoint changes its port only, to the sum, which is a
    valid port; and offsetting back gives the endpoint with its port printed in
    decimal. *)
Theorem offset_tcp_endpoint_roundtrip endpoint offset moved :
  offset_tcp_endpoint endpoint offset = Ok moved →
  ∃ host port, startswith "tcp://" host = true ∧ 1 ≤ port + offset ≤ 65535 ∧
    rpartition ":" moved = Some (host, str_Z (port + offset)) ∧
    (1 ≤ port ≤ 65535 →
     offset_tcp_endpoint moved (- offset) = Ok (host +:+ ":" +:+ str_Z port)).
Proof.
  unfold offset_tcp_endpoint at 1.
  destruct (rpartition ":" endpoint) as [[host raw]|] eqn:E; [|done].
  destruct (startswith "tcp://" host) eqn:Eh; simpl; [|done].
  destruct (py_int raw) as [port|]; [|done].
  destruct ((port + offset <? 1) || (65535 <? port + offset)) eqn:Er; [done|]. intros [= <-].
  reflect_in Er. exists host, port.
  assert (rpartition ":" (host +:+ ":" +:+ str_Z (port + offset))
            = Some (host, str_Z (port + offset))) as Hp.
  { apply (rpartition_app ":" host (str_Z (port + offset))).
    apply all_digits_no_char; [done|]. apply all_digits_str_Z. lia. }
  split_and!; [done|lia|lia|done|]. intros Hport. unfold offset_tcp_endpoint.
  rewrite Hp, Eh. simpl. rewrite py_int_str_Z. replace (port + offset + - offset) with port by lia.
  by rewrite (proj2 (orb_false_iff _ _)) by (split; lia).
Qed.

(** ** Instances *)

(** A native owner with one worker that grants and revokes everything, and one
    whose second worker refuses every claim. *)
Definition willing_native : native unit := {|
  claim_send_lease n _ _ _ := (Ok [true], n);
  cancel_retained_source n _ _ _ := (Ok [true], n);
  worker_pending_transfers _ := Ok [["r1"]];
  scheduler_pending_transfers _ := ["r1"];
|}.
Definition refusing_native : native nat := {|
  claim_send_lease n _ _ _ := (Ok [true; false], n);
  cancel_retained_source n _ _ _ := (Ok [true; true], S n);
  worker_pending_transfers _ := Ok [];
  scheduler_pending_transfers _ := [];
|}.

Definition sample_prefix (tokens : list Z) : retained_prefix :=
  RetainedPrefix "r1" tokens None [("remote_num_tokens", JInt 2)] 100 None.
Definition sample_connector : connector :=
  Connector "Mooncake" "i" 0 true [("a", sample_prefix [1; 2]); ("b", sample_prefix [1; 2; 3])]
    true true.
Definition sample_prompt : prompt := Prompt [1; 2; 3; 4] None.

Lemma sample_connector_wf : directory_wf sample_connector.
Proof. unfold directory_wf. simpl. repeat constructor; set_solver. Qed.

(** The second claim of [b] misses, and discovery falls back to [a]. *)
Lemma grant_is_exclusive_witness :
  ∃ r i d s1, handle_utility_call willing_native 5 (UClaim 0 "i" "b" "c1" sample_prompt)
                (sample_connector, tt) = (Ok (RStatus r i Granted d), s1) ∧
    ∀ e r, (e, r) ∈ (run willing_native s1
      [EUtility 6 (UClaim 0 "i" "b" "c2" sample_prompt); EUtility 200 (URetainedPrefix sample_prompt);
       EUtility 7 UDrain]).1 → ¬ hands_out "b" e r.
Proof.
  eexists _, _, _, _. split; [vm_compute; reflexivity|].
  edestruct (grant_is_exclusive willing_native 5 0 "i" "b" "c1" sample_prompt
    (sample_connector, tt)) as (rid & Hcl & Hrun); [apply sample_connector_wf|vm_compute; reflexivity|].
  apply Hrun. repeat constructor.
Defined.

Lemma offer_is_longest_witness :
  ∃ answer s', handle_utility_call willing_native 5 (URetainedPrefix sample_prompt)
      (sample_connector, tt) = (Ok (ROffer 0 "i" answer), s') ∧ answer = Some ("b", 3%nat) ∧
    ∀ p', dget "a" (prefixes sample_connector) = Some p' → (length (token_ids p') ≤ 3)%nat.
Proof.
  destruct (offer_is_longest willing_native 5 sample_prompt (sample_connector, tt)
    sample_connector_wf) as (answer & s' & E & Hans).
  exists answer, s'. split; [exact E|]. vm_compute in E. injection E as <- <-.
  split; [done|]. destruct Hans as (p & _ & _ & _ & Hmax). intros p' Hp'.
  apply (Hmax "a" p' Hp'). vm_compute in Hp'. injection Hp' as <-. simpl.
  split_and!; [done|done|done|done|]. by exists [3; 4].
Defined.

Lemma refused_claim_rolls_back_witness :
  ∃ c', handle_utility_call refusing_native 5 (UClaim 0 "i" "b" "c1" sample_prompt)
          (sample_connector, 0%nat) = (Ok (status_reply sample_connector Miss), (c', 1%nat)) ∧
    dget "b" (prefixes c') = None.
Proof.
  destruct (refused_claim_rolls_back refusing_native 5 0 "i" "b" "c1" sample_prompt
    (sample_connector, 0%nat) (sample_prefix [1; 2; 3]) 0%nat 1%nat true sample_connector_wf
    eq_refl eq_refl eq_refl eq_refl eq_refl eq_refl eq_refl eq_refl) as (c' & E & Hn & _).
  exists c'. split; [exact E|exact Hn].
Defined.

Lemma drain_is_final_witness :
  ∃ r s1, handle_utility_call willing_native 5 UDrain (sample_connector, tt) = (r, s1) ∧
    ∀ e r o, (e, r) ∈ (run willing_native s1
      [EUtility 6 (UClaim 0 "i" "b" "c2" sample_prompt); EUtility 7 (URetainedPrefix sample_prompt)]).1
      → ¬ hands_out o e r.
Proof.
  eexists _, _. split; [vm_compute; reflexivity|].
  eapply (drain_is_final willing_native 5 (sample_connector, tt)). vm_compute. reflexivity.
Defined.

Lemma offset_tcp_endpoint_roundtrip_witness :
  offset_tcp_endpoint "tcp://10.0.0.1:5000" 7 = Ok "tcp://10.0.0.1:5007" ∧
  ∃ host port, rpartition ":" "tcp://10.0.0.1:5007" = Some (host, str_Z (port + 7)).
Proof.
  split; [vm_compute; reflexivity|].
  destruct (offset_tcp_endpoint_roundtrip "tcp://10.0.0.1:5000" 7 "tcp://10.0.0.1:5007"
    ltac:(vm_compute; reflexivity)) as (host & port & _ & _ & Hr & _).
  exists host, port. exact Hr.
Defined.
