(* ===== verification/BenchConfig.v ===== *)
(** * Benchmark configuration ([benchmarks/config/benchmark.py])

    The dataclasses of a benchmark command, their validation, the rules that
    span sections, and the snapshot written beside results.  The comparison
    rules of EvalScope are outside the repository and a parameter of the parts
    that use them. *)

From Stdlib Require Import Ascii.
From S2P Require Import Prelude Text.

(** ** Sections *)

Record ModelServiceSource := MkService {
  kustomize_path : string;
  url : string;
  health_url : string;
  model : string;
  api_key : string;
  timeout_seconds : flt;
  max_retries : Z;
  wait_timeout : string;
  service_name : string;
  instance_name : string;
}.

Record HttpLoadSchedule := MkLoad {
  max_concurrency : option Z;
  request_count : option Z;
  arrival_rate : flt;
  arrival_pattern : string;
  burstiness : flt;
  warmup_requests : Z;
  load_duration : option flt;
}.

(** [OutputTokenLimit] *)
Inductive token_limit :=
  | LimitInt (n : Z)
  | LimitList (l : list Z).

Record ChatCompletionsGeneration := MkGeneration {
  max_tokens : token_limit;
  min_output_length : option Z;
  max_output_length : option Z;
  stream : bool;
  top_p : option flt;
  top_k : option Z;
  min_p : option flt;
  temperature : option flt;
  frequency_penalty : option flt;
  presence_penalty : option flt;
  repetition_penalty : option flt;
  extra_body : list (string * json);
}.

Record ChatRequestDataset := MkWorkload {
  dataset_selectors : list string;
  row_offset : Z;
  tokenizer : string;
  random_seed : Z;
  minimum_prompt_tokens : Z;
  maximum_prompt_tokens : Z;
  shared_prefix_tokens : Z;
  apply_chat_template : bool;
  fixed_prompt : string;
  max_turns : option Z;
  conversation_history : string;
  dataset_weights : list flt;
}.

Record ArrivalTraceSchedule := MkTrace {
  trace_selector : string;
  start_offset_seconds : flt;
  trace_duration : option flt;
  synthetic_prefix_reuse : bool;
}.

Record BenchmarkOutputConfig := MkOutputs {
  destinations : list string;
  output_dir : string;
  iteration : string;
}.

Record WandbRunConfig := MkWandb {
  project : string;
  entity : string;
  group : string;
  run_name : string;
}.

Record ParameterSweepConfig := MkSweep {
  sweep_path : string;
  sweep_num_runs : Z;
  experiment_name : string;
  sweep_resume : string;
}.

(** A criterion group: metric names with their criteria.  The type excludes the
    JSON values whose keys or criteria are not text. *)
Abbreviation criteria := (list (string * string))%type.

Record SloTuneConfig := MkSlo {
  slo_params : option (list criteria);
  slo_search : bool;
  slo_num_runs : Z;
  upper_bound : option Z;
  lower_bound : Z;
}.

Record BenchmarkProfileConfig := MkProfile {
  profile_engine : string;
  profile_duration : string;
}.

Record BenchmarkConfig := MkBenchmark {
  service : ModelServiceSource;
  workload : ChatRequestDataset;
  load : HttpLoadSchedule;
  generation : ChatCompletionsGeneration;
  trace : ArrivalTraceSchedule;
  outputs : BenchmarkOutputConfig;
  wandb : WandbRunConfig;
  sweep : ParameterSweepConfig;
  slo : SloTuneConfig;
  profile : option BenchmarkProfileConfig;
  service_choices : list (list (string * string));
}.

(** ** Defaults *)

Definition default_service : ModelServiceSource :=
  MkService "" "" "" "" "EMPTY" (Fin 300) 0 "15m" "" "".
Definition default_load : HttpLoadSchedule :=
  MkLoad (Some 1) (Some 100) (Fin (-1)) "poisson" (Fin 1) 0 None.
Definition default_generation : ChatCompletionsGeneration :=
  MkGeneration (LimitInt 4096) None None true None None None None None None None [].
Definition default_workload : ChatRequestDataset :=
  MkWorkload [] 0 "" 0 0 131072 0 false "" (Some (-1)) "dataset" [].
Definition default_trace : ArrivalTraceSchedule := MkTrace "" (Fin 0) None false.
Definition default_outputs : BenchmarkOutputConfig := MkOutputs ["local"; "wandb"] "results" "".
Definition default_wandb : WandbRunConfig := MkWandb "foretoken-bench" "" "" "".
Definition default_sweep : ParameterSweepConfig := MkSweep "" 1 "" "".
Definition default_slo : SloTuneConfig := MkSlo None false 1 None 1.
Definition default_benchmark : BenchmarkConfig :=
  MkBenchmark default_service default_workload default_load default_generation default_trace
    default_outputs default_wandb default_sweep default_slo None [].

(** ** Metrics a search can constrain *)

(** [SLO_SEARCH_METRICS]: the accepted names with the section and statistic they
    read. *)
Definition SLO_SEARCH_METRICS : list (string * (string * string)) :=
  (m ← ["latency"; "ttft"; "tpot"]; s ← ["avg"; "p50"; "p95"; "p99"];
   [(s +:+ "_" +:+ m, (m, if eqb s "avg" then "mean" else s))])
  ++ [("rps", ("throughput", "requests_per_second"));
      ("tps", ("throughput", "generation_tokens_per_second"));
      ("latency.mean", ("latency", "mean")); ("ttft.mean", ("ttft", "mean"));
      ("tpot.mean", ("tpot", "mean"));
      ("throughput.requests_per_second", ("throughput", "requests_per_second"));
      ("throughput.generation_tokens_per_second", ("throughput", "generation_tokens_per_second"))].

(** [REQUEST metrics] of a plain measurement *)
Definition request_slo_metrics : list string := ["latency"; "ttft"; "tpot"; "itl"].

(** ** Validation of the sections *)

Definition below (bound : Z) (v : option Z) : bool :=
  match v with Some n => n <? bound | None => false end.

(** A duration that is present must be finite and positive. *)
Definition bad_duration (d : option flt) : bool :=
  match d with Some x => negb (isfinite x) || fleb x (Fin 0) | None => false end.

(** [ModelServiceSource.validate] *)
Definition validate_service (require_model : bool) (s : ModelServiceSource) : outcome unit :=
  reject (eqb (nonempty (kustomize_path s)) (nonempty (url s))) "provide either PATH or --url" ;;
  reject (nonempty (instance_name s) && negb (nonempty (kustomize_path s)))
    "--name selects a deployment instance for PATH, not --url" ;;
  reject (negb (isfinite (timeout_seconds s)) || fleb (timeout_seconds s) (Fin 0))
    "--timeout must be finite and > 0" ;;
  reject (max_retries s <? 0) "--max-retries must be >= 0" ;;
  reject (require_model && nonempty (url s) && negb (nonempty (model s)))
    "--model is required with --url".

(** [HttpLoadSchedule.validate]; an absent concurrency cannot be compared. *)
Definition validate_load (l : HttpLoadSchedule) : outcome unit :=
  match max_concurrency l with
  | None => Raise (TypeError "'<' not supported between 'NoneType' and 'int'")
  | Some n => reject (negb (n =? -1) && (n <? 1)) "--max-concurrency must be -1 or >= 1"
  end ;;
  let rate := arrival_rate l in
  reject (negb (isfinite rate) || (negb (feqb rate (Fin (-1))) && fleb rate (Fin 0)))
    "--request-rate must be -1 (send as fast as possible) or > 0" ;;
  reject (below 1 (request_count l)) "--num-prompts must be >= 1" ;;
  reject (negb (mem (arrival_pattern l) ["constant"; "poisson"; "gamma"]))
    "--arrival-pattern must be constant, poisson, or gamma" ;;
  reject (negb (isfinite (burstiness l)) || fleb (burstiness l) (Fin 0))
    "--burstiness must be finite and > 0" ;;
  reject (eqb (arrival_pattern l) "gamma" && feqb rate (Fin (-1)))
    "gamma arrival requires --request-rate > 0" ;;
  reject (eqb (arrival_pattern l) "constant" && feqb rate (Fin (-1)))
    "constant arrival requires --request-rate > 0" ;;
  reject (warmup_requests l <? 0) "--warmup-requests must be >= 0" ;;
  reject (bad_duration (load_duration l)) "--duration must be > 0 seconds" ;;
  reject (bool_decide (is_Some (load_duration l)) && feqb rate (Fin (-1))
          && eqb (max_concurrency l) (Some (-1)))
    "--duration with an unrated workload requires --max-concurrency > 0".

(** The keys of [extra_body] among [names]; only whether there are any matters. *)
Definition has_any (names : list string) (body : list (string * json)) : bool :=
  existsb (λ n, mem n body.*1) names.

(** [ChatCompletionsGeneration.validate] *)
Definition validate_generation (g : ChatCompletionsGeneration) : outcome unit :=
  match min_output_length g, max_output_length g with
  | None, None => Ok tt
  | Some lo, Some hi =>
      reject (negb ((1 <=? lo) && (lo <=? hi))) "output lengths must satisfy 1 <= min <= max" ;;
      reject (has_any ["max_tokens"; "max_completion_tokens"; "min_tokens"; "ignore_eos"; "stop";
                       "stop_token_ids"] (extra_body g))
        "output length control conflicts with --extra-body fields"
  | _, _ => Raise (ValueError "--min-output-length and --max-output-length must be supplied together")
  end ;;
  reject (has_any ["prompt"; "messages"] (extra_body g))
    "request inputs come from the workload, not --extra-body" ;;
  reject (mem "stream" (extra_body g).*1) "stream must be set via --stream/--no-stream, not extra_body".

(** [ChatCompletionsGeneration.request_overrides]: the given sampling fields,
    with [extra_body] applied last. *)
Definition request_overrides (g : ChatCompletionsGeneration) : list (string * json) :=
  let field (name : string) (v : option json) : list (string * json) :=
    match v with Some j => [(name, j)] | None => [] end in
  let sampling :=
    field "top_p" (JFloat <$> top_p g) ++ field "top_k" (JInt <$> top_k g)
    ++ field "min_p" (JFloat <$> min_p g) ++ field "temperature" (JFloat <$> temperature g)
    ++ field "frequency_penalty" (JFloat <$> frequency_penalty g)
    ++ field "presence_penalty" (JFloat <$> presence_penalty g)
    ++ field "repetition_penalty" (JFloat <$> repetition_penalty g) in
  foldl (λ m e, dset e.1 e.2 m) sampling (extra_body g).

(** [ChatRequestDataset.has_multiple_datasets] *)
Definition has_multiple_datasets (w : ChatRequestDataset) : bool :=
  Nat.ltb 1 (length (dataset_selectors w)).

(** [ChatRequestDataset.validate] *)
Definition validate_workload (w : ChatRequestDataset) : outcome unit :=
  reject (match max_turns w with Some n => negb (n =? -1) && (n <? 1) | None => false end)
    "--max-turns must be -1 (complete conversation) or >= 1" ;;
  reject (negb (mem (conversation_history w) ["dataset"; "generated"]))
    "--conversation-history must be dataset or generated" ;;
  reject (negb (bool_decide (NoDup (dataset_selectors w)))) "--dataset sources must be distinct" ;;
  reject (negb (bool_decide (length (dataset_weights w) = 0%nat)) &&
          (negb (bool_decide (length (dataset_weights w) = length (dataset_selectors w))) ||
           existsb (λ x, negb (isfinite x) || fleb x (Fin 0)) (dataset_weights w)))
    "--dataset-weights requires one positive finite weight per --dataset source" ;;
  reject (nonempty (fixed_prompt w) && has_multiple_datasets w)
    "--prompt cannot be combined with multiple --dataset values" ;;
  reject (has_multiple_datasets w && mem "random" (dataset_selectors w))
    "--dataset random cannot be combined with other dataset sources" ;;
  reject (row_offset w <? 0) "--dataset-offset must be >= 0" ;;
  reject (negb ((0 <=? random_seed w) && (random_seed w <=? 4294967295)))
    "--random-seed must be between 0 and 4294967295" ;;
  reject (shared_prefix_tokens w <? 0) "--prefix-length must be >= 0" ;;
  reject (minimum_prompt_tokens w <? 0) "--min-prompt-length must be >= 0" ;;
  reject (maximum_prompt_tokens w <? minimum_prompt_tokens w)
    "--max-prompt-length must be >= --min-prompt-length".

(** [ArrivalTraceSchedule.validate] *)
Definition validate_trace (t : ArrivalTraceSchedule) : outcome unit :=
  if negb (nonempty (trace_selector t))
  then reject (synthetic_prefix_reuse t) "--trace-synthetic-prefix-reuse requires --trace"
  else
    reject (negb (isfinite (start_offset_seconds t)) || fltb (start_offset_seconds t) (Fin 0))
      "--trace-start must be >= 0" ;;
    reject (bad_duration (trace_duration t)) "--trace-duration must be > 0".

(** [BenchmarkOutputConfig] *)
Definition includes (o : BenchmarkOutputConfig) (d : string) : bool := mem d (destinations o).
Definition saves_local (o : BenchmarkOutputConfig) : bool :=
  existsb (includes o) ["local"; "wandb"; "plot"; "experiment"; "raw"].
Definition for_child_run (o : BenchmarkOutputConfig) : BenchmarkOutputConfig :=
  MkOutputs (distinct ("local" :: keep (λ d, negb (eqb d "plot")) (destinations o)))
    (output_dir o) (iteration o).

Definition validate_outputs (o : BenchmarkOutputConfig) : outcome unit :=
  reject (bool_decide (destinations o = [])) "--output must select at least one output option" ;;
  reject (nonempty (iteration o) && negb (includes o "experiment"))
    "--iteration requires --output experiment" ;;
  reject (nonempty (iteration o) &&
          (mem (iteration o) ["."; ".."] || has_char "/" (iteration o) || has_char "\" (iteration o)
           || negb (nonempty (strip (iteration o)))))
    "--iteration must be a directory name, not a path" ;;
  reject (existsb (λ d, negb (mem d ["local"; "wandb"; "plot"; "experiment"; "quiet"; "raw"]))
            (destinations o)) "unknown --output option".

Section Criteria.
(** What EvalScope's [parse_sla_params] raises on or accepts, seen through
    [parse_slo_criteria]. *)
Variable parse_slo_criteria : list criteria → outcome unit.

(** [SloTuneConfig.validate] *)
Definition validate_slo (s : SloTuneConfig) : outcome unit :=
  match slo_params s with
  | None => reject (slo_search s) "--slo-search requires --slo-params"
  | Some params =>
      reject (bool_decide (params = []) || existsb (λ g, bool_decide (length g = 0%nat)) params)
        "--slo-params must be a non-empty JSON array of non-empty objects" ;;
      parse_slo_criteria params ;;
      if negb (slo_search s) then
        reject (negb (bool_decide (length params = 1%nat)))
          "measurement accepts one --slo-params object; use --slo-search for independent searches" ;;
        reject (existsb (λ n, negb (mem n request_slo_metrics)) ((default [] (head params)).*1))
          "request SLO metrics are latency, ttft, tpot and itl; aggregate metrics require --slo-search"
      else
        reject (existsb (λ g, existsb (λ n, negb (dmem n SLO_SEARCH_METRICS)) (g.*1)) params)
          "unsupported SLO search metrics" ;;
        reject (slo_num_runs s <? 1) "--num-runs must be >= 1" ;;
        reject (lower_bound s <? 1) "--slo-lower-bound must be >= 1" ;;
        reject (below (lower_bound s) (upper_bound s))
          "--slo-upper-bound must be >= --slo-lower-bound"
  end.

(** ** The whole configuration *)

Definition set_selectors (l : list string) (w : ChatRequestDataset) : ChatRequestDataset :=
  MkWorkload l (row_offset w) (tokenizer w) (random_seed w) (minimum_prompt_tokens w)
    (maximum_prompt_tokens w) (shared_prefix_tokens w) (apply_chat_template w) (fixed_prompt w)
    (max_turns w) (conversation_history w) (dataset_weights w).
Definition set_prompt (p : string) (w : ChatRequestDataset) : ChatRequestDataset :=
  MkWorkload (dataset_selectors w) (row_offset w) (tokenizer w) (random_seed w)
    (minimum_prompt_tokens w) (maximum_prompt_tokens w) (shared_prefix_tokens w)
    (apply_chat_template w) p (max_turns w) (conversation_history w) (dataset_weights w).

Definition has_trace (b : BenchmarkConfig) : bool := nonempty (trace_selector (trace b)).

(** [BenchmarkConfig.resolved_workload] *)
Definition resolved_workload (b : BenchmarkConfig) : ChatRequestDataset :=
  let w := workload b in
  if has_trace b then w
  else if nonempty (fixed_prompt w) then set_selectors [] w
  else if nonempty (kustomize_path (service b)) && bool_decide (dataset_selectors w = [])
       then set_prompt "Hello" w
       else w.

(** [BenchmarkConfig.is_multi_turn] *)
Definition is_multi_turn (b : BenchmarkConfig) : bool :=
  let w := resolved_workload b in
  negb (has_trace b) && negb (bool_decide (dataset_selectors w = [])) &&
  negb (bool_decide (dataset_selectors w = ["random"])).

(** [BenchmarkConfig.slo_search_start] *)
Definition slo_search_start (b : BenchmarkConfig) : outcome Z :=
  reject (eqb (max_concurrency (load b)) (Some (-1)))
    "--slo-search requires --max-concurrency >= 1" ;;
  let low := lower_bound (slo b) in
  let start := match max_concurrency (load b) with None => low | Some n => Z.max low n end in
  reject ((start <? low) || match upper_bound (slo b) with Some high => high <? start | None => false end)
    "SLO search start must be within [--slo-lower-bound, --slo-upper-bound]" ;;
  Ok start.

(** The rules of [BenchmarkConfig.validate] for a replayed trace. *)
Definition validate_trace_workload (b : BenchmarkConfig) : outcome unit :=
  let w := resolved_workload b in
  let l := load b in
  reject (match max_turns w with None => false | Some n => negb (n =? -1) end)
    "--max-turns cannot be combined with --trace; trace replay uses independent recorded requests" ;;
  reject (negb (bool_decide (length (dataset_selectors w) = 1%nat)))
    "--trace requires exactly one --dataset source" ;;
  let same_dataset := eqb (head (dataset_selectors w)) (Some (trace_selector (trace b))) in
  reject (nonempty (fixed_prompt w))
    "--trace requires --dataset; fixed --prompt payloads are not supported" ;;
  reject (negb (feqb (arrival_rate l) (Fin (-1)))) "--trace uses record timestamps; omit --request-rate" ;;
  reject (negb (slo_search (slo b)) &&
          ((bool_decide (is_Some (request_count l))
            && negb (eqb (request_count l) (request_count default_load)))
           || negb (feqb (arrival_rate l) (arrival_rate default_load))
           || bool_decide (is_Some (load_duration l))))
    "--trace replays the selected trace window; use --trace-duration instead of --num-prompts/--request-rate/--duration" ;;
  reject (same_dataset && negb (row_offset w =? 0))
    "--dataset-offset is not supported when --trace and --dataset use the same source" ;;
  if synthetic_prefix_reuse (trace b) then
    reject (negb (bool_decide (dataset_selectors w = ["random"])))
      "--trace-synthetic-prefix-reuse requires --dataset random" ;;
    reject (negb (shared_prefix_tokens w =? 0))
      "--trace-synthetic-prefix-reuse cannot use --prefix-length"
  else Ok tt.

(** [BenchmarkConfig.validate] *)
Definition validate (b : BenchmarkConfig) : outcome unit :=
  validate_service false (service b) ;;
  reject (bool_decide (is_Some (profile b)) && negb (nonempty (kustomize_path (service b))))
    "--profile requires a Foretoken Kustomize deployment" ;;
  validate_load (load b) ;;
  validate_outputs (outputs b) ;;
  validate_generation (generation b) ;;
  let w := resolved_workload b in
  validate_workload w ;;
  reject (eqb (conversation_history w) "generated" && negb (is_multi_turn b))
    "--conversation-history generated requires a conversation dataset without --trace" ;;
  reject (nonempty (url (service b)) && negb (nonempty (model (service b))) &&
          (negb (has_trace b) &&
           (bool_decide (dataset_selectors w = []) || bool_decide (dataset_selectors w = ["random"]))))
    "--model is required with --url unless dataset rows specify model" ;;
  reject (is_multi_turn b && mem (arrival_pattern (load b)) ["constant"; "gamma"] &&
          feqb (arrival_rate (load b)) (Fin (-1)))
    "multi-turn constant and gamma arrivals require --request-rate > 0" ;;
  validate_trace (trace b) ;;
  reject (has_trace b && negb (eqb (arrival_pattern (load b)) "poisson"))
    "--trace cannot be combined with generated arrival patterns" ;;
  validate_slo (slo b) ;;
  (if slo_search (slo b) then slo_search_start b ;; Ok tt else Ok tt) ;;
  reject (negb (has_trace b) && bool_decide (request_count (load b) = None)
          && negb (bool_decide (is_Some (load_duration (load b)))))
    "--num-prompts is required unless --duration is set" ;;
  reject (negb (has_trace b) && negb (nonempty (fixed_prompt w)) && bool_decide (dataset_selectors w = []))
    "No workload source. Pass --prompt or --dataset" ;;
  if has_trace b then validate_trace_workload b else Ok tt.
End Criteria.

(** ** Snapshots *)

Definition jopt {A} (f : A → json) (v : option A) : json :=
  match v with Some a => f a | None => JNull end.
Definition jstrs (l : list string) : json := JArr (JStr <$> l).
Definition jlimit (t : token_limit) : json :=
  match t with LimitInt n => JInt n | LimitList l => JArr (JInt <$> l) end.
Definition jtexts (m : list (string * string)) : json := JObj ((λ e, (e.1, JStr e.2)) <$> m).

(** [ModelServiceSource.to_dict]: everything but the credential. *)
Definition service_to_dict (s : ModelServiceSource) : list (string * json) :=
  [("name", JStr (service_name s)); ("kustomize_path", JStr (kustomize_path s));
   ("url", JStr (url s)); ("health_url", JStr (health_url s)); ("model", JStr (model s));
   ("timeout", JFloat (timeout_seconds s)); ("max_retries", JInt (max_retries s));
   ("wait_timeout", JStr (wait_timeout s))]
  ++ if nonempty (instance_name s) then [("instance_name", JStr (instance_name s))] else [].

(** [BenchmarkConfig.to_dict] *)
Definition to_dict (b : BenchmarkConfig) : json :=
  let l := load b in
  let w := resolved_workload b in
  let g := generation b in
  let t := trace b in
  JObj [
    ("service", JObj (service_to_dict (service b)));
    ("service_choices", JArr (jtexts <$> service_choices b));
    ("load", JObj [
      ("max_concurrency", jopt JInt (max_concurrency l));
      ("num_prompts", jopt JInt (request_count l));
      ("request_rate", JFloat (arrival_rate l));
      ("arrival_pattern", JStr (arrival_pattern l));
      ("burstiness", JFloat (burstiness l));
      ("warmup_requests", JInt (warmup_requests l));
      ("duration", jopt JFloat (load_duration l))]);
    ("generation", JObj [
      ("max_tokens", jlimit (max_tokens g));
      ("min_output_length", jopt JInt (min_output_length g));
      ("max_output_length", jopt JInt (max_output_length g));
      ("stream", JBool (stream g));
      ("top_p", jopt JFloat (top_p g));
      ("top_k", jopt JInt (top_k g));
      ("min_p", jopt JFloat (min_p g));
      ("temperature", jopt JFloat (temperature g));
      ("frequency_penalty", jopt JFloat (frequency_penalty g));
      ("presence_penalty", jopt JFloat (presence_penalty g));
      ("repetition_penalty", jopt JFloat (repetition_penalty g));
      ("extra_body", JObj (extra_body g))]);
    ("dataset", JObj ([
      ("dataset", jstrs (dataset_selectors w));
      ("dataset_weights", JArr (JFloat <$> dataset_weights w));
      ("dataset_offset", JInt (row_offset w));
      ("tokenizer_path", JStr (tokenizer w));
      ("random_seed", JInt (random_seed w));
      ("min_prompt_length", JInt (minimum_prompt_tokens w));
      ("max_prompt_length", JInt (maximum_prompt_tokens w));
      ("prefix_length", JInt (shared_prefix_tokens w));
      ("apply_chat_template", JBool (apply_chat_template w));
      ("prompt", JStr (fixed_prompt w));
      ("trace_path", JStr (trace_selector t));
      ("trace_start", JFloat (start_offset_seconds t));
      ("trace_duration", jopt JFloat (trace_duration t));
      ("trace_synthetic_prefix_reuse", JBool (synthetic_prefix_reuse t))]
      ++ (if has_trace b then [] else [("max_turns", jopt JInt (max_turns w))])
      ++ (if is_multi_turn b then [("conversation_history", JStr (conversation_history w))] else [])));
    ("output", JObj [
      ("destinations", jstrs (destinations (outputs b)));
      ("output_dir", JStr (output_dir (outputs b)))]);
    ("wandb", JObj [
      ("project", JStr (project (wandb b)));
      ("entity", JStr (entity (wandb b)));
      ("group", JStr (group (wandb b)));
      ("run_name", JStr (run_name (wandb b)))]);
    ("sweep", JObj [
      ("path", JStr (sweep_path (sweep b)));
      ("num_runs", JInt (sweep_num_runs (sweep b)));
      ("experiment_name", JStr (experiment_name (sweep b)))]);
    ("slo", JObj [
      ("search", JBool (slo_search (slo b)));
      ("params", jopt (λ ps, JArr (jtexts <$> ps)) (slo_params (slo b)));
      ("num_runs", JInt (slo_num_runs (slo b)));
      ("upper_bound", jopt JInt (upper_bound (slo b)));
      ("lower_bound", JInt (lower_bound (slo b)))]);
    ("profile", match profile b with
      | Some p => JObj [("engine", JStr (profile_engine p)); ("duration", JStr (profile_duration p))]
      | None => JNull
      end)].

(** ** Command-line values *)

(** [normalize_output_token_limit] *)
Definition normalize_output_token_limit (v : token_limit) : outcome token_limit :=
  let fixed n := reject (n <? 0) "max-tokens must be >= 0" ;; Ok (LimitInt n) in
  match v with
  | LimitInt n => fixed n
  | LimitList [n] => fixed n
  | LimitList [lo; hi] =>
      reject (hi <? lo) "max-tokens range min must be <= max" ;;
      reject (lo <? 0) "max-tokens range values must be >= 0" ;;
      Ok (LimitList [lo; hi])
  | LimitList _ => Raise (ValueError "--max-tokens accepts 1 or 2 values [min max]")
  end.

(** *** Durations *)

(** [\d*]: the value of the longest run of digits, how many there are, the rest. *)
Fixpoint digit_run (acc : Z) (count : nat) (s : string) : Z * nat * string :=
  match s with
  | String c s' =>
      match digit_value c with
      | Some v => digit_run (acc * 10 + v) (S count) s'
      | None => (acc, count, s)
      end
  | EmptyString => (acc, count, s)
  end.

(** [10 ^ e] as a rational *)
Definition pow10 (e : Z) : Q := Qpower (inject_Z 10) e.

(** [[+-]?] *)
Definition read_sign (s : string) : Z * string :=
  match s with
  | String c r => if Ascii.eqb c "-" then (-1, r) else if Ascii.eqb c "+" then (1, r) else (1, s)
  | EmptyString => (1, s)
  end.

(** The optional fraction after [whole]: its digits continue the number. *)
Definition read_fraction (whole : Z) (s : string) : Z * nat * string :=
  match s with
  | String c r => if Ascii.eqb c "." then digit_run whole 0 r else (whole, 0%nat, s)
  | EmptyString => (whole, 0%nat, s)
  end.

(** The optional exponent: its value, when the text continues with one. *)
Definition read_exponent (s : string) : Z * string :=
  match s with
  | String c s' =>
      if Ascii.eqb c "e" || Ascii.eqb c "E" then
        let '(sign, s'') := read_sign s' in
        let '(v, n, rest) := digit_run 0 0 s'' in
        match n with O => (0, s) | _ => (sign * v, rest) end
      else (0, s)
  | EmptyString => (0, s)
  end.

(** The number of the pattern and what follows it; [None] when there is none. *)
Definition read_number (s : string) : option (Q * string) :=
  let '(sign, s) := read_sign s in
  let '(whole, n, rest) := digit_run 0 0 s in
  let '(frac, k, rest) := read_fraction whole rest in
  if bool_decide (n = 0%nat) && bool_decide (k = 0%nat) then None else
  let '(e, rest) := read_exponent rest in
  Some (inject_Z (sign * frac) * pow10 (e - Z.of_nat k), rest)%Q.

(** The scales of [parse_duration_seconds]; [""] is the absent unit. *)
Definition duration_scale (unit : string) : option Q :=
  dget unit [("", 1%Q); ("ms", (1 # 1000)%Q); ("s", 1%Q); ("m", 60%Q); ("min", 60%Q);
             ("h", 3600%Q); ("d", 86400%Q)].

(** [parse_duration_seconds] on text: [\s*] may stand between number and unit. *)
Definition parse_duration_seconds (text : string) : outcome Q :=
  match read_number (strip text) with
  | None => Raise (ValueError "expected a time value such as 30s, 8min or 1h; units: ms, s, m, min, h, d")
  | Some (q, rest) =>
      match duration_scale (lstrip rest) with
      | Some scale => Ok (q * scale)%Q
      | None => Raise (ValueError "expected a time value such as 30s, 8min or 1h; units: ms, s, m, min, h, d")
      end
  end.

(** ** Sweep services *)

(** [Path(path).name]: the last component that is neither empty nor [.]. *)
Fixpoint split_path (cur : string) (s : string) : list string :=
  match s with
  | EmptyString => [cur]
  | String c s => if Ascii.eqb c "/" then cur :: split_path "" s
                  else split_path (cur +:+ String c "") s
  end.
Definition path_name (p : string) : string :=
  default "" (last (keep (λ x, nonempty x && negb (eqb x ".")) (split_path "" p))).

(** The strict [dict[Literal[...], str]] adapter. *)
Definition texts_of (m : list (string * json)) : option (list (string * string)) :=
  mapM (λ e, match e.2 with
             | JStr v => if mem e.1 ["name"; "path"; "url"; "model"; "health_url"]
                         then Some (e.1, v) else None
             | _ => None
             end) m.

(** [service_choice] *)
Definition service_choice (value : json) : outcome (list (string * string)) :=
  match value with
  | JStr text =>
      let path := strip text in
      reject (negb (nonempty path)) "sweep service paths cannot be empty" ;;
      Ok [("name", path_name path); ("path", path)]
  | JObj m =>
      match texts_of m with
      | None => Raise (ValueError "validation error")
      | Some c =>
          let get k := default "" (dget k c) in
          reject (negb (nonempty (strip (get "name"))) ||
                  eqb (nonempty (get "path")) (nonempty (get "url")))
            "sweep service requires a non-empty name and exactly one path or url" ;;
          Ok c
      end
  | _ => Raise (ValueError "validation error")
  end.

(** [select_service]; [resolve] is [(Path.cwd() / Path(path).expanduser()).resolve()]. *)
Definition select_service (resolve : string → string) (s : ModelServiceSource)
    (c : list (string * string)) : outcome ModelServiceSource :=
  match dget "name" c with
  | None => Raise (KeyError "name")
  | Some name =>
      let get k := default "" (dget k c) in
      Ok (MkService (if nonempty (get "path") then resolve (get "path") else "")
            (get "url") (get "health_url") (default (model s) (dget "model" c)) (api_key s)
            (timeout_seconds s) (max_retries s) (wait_timeout s) name
            (if nonempty (get "url") then "" else instance_name s))
  end.

(** ** Properties *)

Lemma outcome_seq_Ok {B} (m : outcome unit) (k : outcome B) b :
  (m ;; k) = Ok b ↔ m = Ok tt ∧ k = Ok b.
Proof. destruct m as [[]|]; simpl; naive_solver. Qed.

(** Split a chain of checks that succeeded into its conditions. *)
Ltac checks H :=
  repeat match type of H with
  | (_ ;; _) = Ok _ => let H1 := fresh H in apply outcome_seq_Ok in H as [H1 H]
  end.
Ltac checks_all :=
  repeat match goal with
  | H : reject _ _ = Ok _ |- _ => apply reject_Ok in H
  end.

(** The number of requests or the time is bounded. *)
Definition bounded_load (l : HttpLoadSchedule) : Prop :=
  (∃ n, request_count l = Some n ∧ 1 ≤ n) ∨ (∃ x, load_duration l = Some x ∧ positive x).

(** A generated schedule can be drawn: a rate is positive or absent, and present
    for the patterns that need one. *)
Definition drawable_load (l : HttpLoadSchedule) : Prop :=
  (feqb (arrival_rate l) (Fin (-1)) = true ∧ arrival_pattern l = "poisson") ∨
  positive (arrival_rate l).

Lemma bad_duration_false x : bad_duration (Some x) = false → positive x.
Proof.
  unfold bad_duration. rewrite orb_false_iff, negb_false_iff. intros [H1 H2].
  by apply positive_check.
Qed.

Lemma validate_load_drawable l : validate_load l = Ok tt → drawable_load l.
Proof.
  unfold validate_load. intros H. checks H. checks_all.
  rewrite orb_false_iff, andb_false_iff, !negb_false_iff in H1. destruct H1 as [Hfin Hrate].
  rewrite negb_false_iff, mem_true in H3. rewrite andb_false_iff, eqb_false in H5, H6.
  unfold drawable_load. destruct (feqb (arrival_rate l) (Fin (-1))) eqn:E.
  - left. split; [done|]. set_solver.
  - right. destruct Hrate as [?|?]; [done|]. by apply positive_check.
Qed.

(** The conditions an SLO search relies on. *)
Definition searchable (b : BenchmarkConfig) : Prop :=
  ∃ params start, slo_params (slo b) = Some params ∧ params ≠ [] ∧
    (∀ g n, g ∈ params → n ∈ g.*1 → is_Some (dget n SLO_SEARCH_METRICS)) ∧
    1 ≤ slo_num_runs (slo b) ∧ slo_search_start b = Ok start ∧
    1 ≤ lower_bound (slo b) ≤ start ∧
    match upper_bound (slo b) with Some high => start ≤ high | None => True end.

Lemma slo_search_start_bounds b start :
  slo_search_start b = Ok start →
  lower_bound (slo b) ≤ start ∧
  match upper_bound (slo b) with Some high => start ≤ high | None => True end.
Proof.
  unfold slo_search_start. intros H. apply outcome_seq_Ok in H as [_ H].
  apply outcome_seq_Ok in H as [H [= <-]]. apply reject_Ok in H.
  rewrite orb_false_iff in H. destruct H as [H1 H2]. split; [lia|].
  destruct (upper_bound (slo b)); [lia|done].
Qed.

Lemma validate_slo_searchable parse b :
  slo_search (slo b) = true → validate_slo parse (slo b) = Ok tt →
  (slo_search_start b ;; Ok tt) = Ok tt → searchable b.
Proof.
  intros Hs H Hst. unfold validate_slo in H. rewrite Hs in H.
  destruct (slo_params (slo b)) as [params|] eqn:Ep; [|done]. checks H. simpl in H.
  checks H. checks_all. destruct (slo_search_start b) as [start|] eqn:Est; [|done].
  apply slo_search_start_bounds in Est as Hb.
  rewrite orb_false_iff, bool_decide_eq_false in H0. exists params, start.
  split_and!; [done|naive_solver| |lia|done|lia|naive_solver|naive_solver].
  intros g n Hg Hn. rewrite existsb_none in H2. specialize (H2 g Hg). simpl in H2.
  rewrite existsb_none in H2. specialize (H2 n Hn).
  apply negb_false_iff, bool_decide_eq_true in H2. done.
Qed.

(** Without a trace, the resolved workload has a prompt or datasets, not both. *)
Lemma resolved_exclusive b :
  has_trace b = false →
  let w := resolved_workload b in
  ¬ (nonempty (fixed_prompt w) = false ∧ dataset_selectors w = []) →
  nonempty (fixed_prompt w) = bool_decide (dataset_selectors w = []).
Proof.
  intros Ht. cbv zeta. unfold resolved_workload. rewrite Ht.
  destruct (nonempty (fixed_prompt (workload b))) eqn:E1; simpl; [intros _; by rewrite E1|].
  destruct (nonempty (kustomize_path (service b))); simpl; [case_bool_decide as E2|]; simpl;
    rewrite ?E1; [intros _; by rewrite E2| |]; intros Hno;
    (rewrite bool_decide_eq_false_2; [done|]); naive_solver.
Qed.

Lemma validate_service_source r s :
  validate_service r s = Ok tt → nonempty (kustomize_path s) ≠ nonempty (url s).
Proof.
  unfold validate_service. intros H. apply outcome_seq_Ok in H as [H _].
  by apply reject_Ok, eqb_false in H.
Qed.

Lemma validate_load_bounded l :
  validate_load l = Ok tt →
  bool_decide (request_count l = None) && negb (bool_decide (is_Some (load_duration l))) = false →
  bounded_load l.
Proof.
  unfold validate_load. intros H Hb. checks H. checks_all.
  destruct (request_count l) as [n|] eqn:En.
  { left. exists n. split; [done|]. unfold below in *. lia. }
  right. destruct (load_duration l) as [x|] eqn:Ex; [|done].
  exists x. split; [done|]. by apply bad_duration_false.
Qed.

Lemma validate_trace_workload_sound b :
  has_trace b = true → validate_trace_workload b = Ok tt →
  (∃ d, dataset_selectors (workload b) = [d]) ∧ fixed_prompt (workload b) = "" ∧
  feqb (arrival_rate (load b)) (Fin (-1)) = true.
Proof.
  intros Ht. unfold validate_trace_workload, resolved_workload. rewrite Ht. simpl.
  intros H. checks H. checks_all.
  repeat match goal with H : negb _ = false |- _ => apply negb_false_iff in H end.
  split_and!; [|..|done].
  - lazymatch goal with H : bool_decide (length _ = _) = true |- _ =>
      apply bool_decide_eq_true in H; revert H end.
    destruct (dataset_selectors (workload b)) as [|d [|]]; [done|by exists d|done].
  - lazymatch goal with H : nonempty _ = false |- _ =>
      by apply negb_false_iff, bool_decide_eq_true in H end.
Qed.

(** A configuration that passes validation can be run: it names exactly one
    service source; its load can be drawn and, without a trace, is bounded and
    feeds from a prompt or from datasets but not both; a trace replay has
    exactly one dataset, no prompt and no generated arrivals; and a search has
    known metrics and a start inside its bounds. *)
Theorem validate_sound parse b :
  validate parse b = Ok tt →
  nonempty (kustomize_path (service b)) ≠ nonempty (url (service b)) ∧
  drawable_load (load b) ∧
  (has_trace b = false →
     bounded_load (load b) ∧
     nonempty (fixed_prompt (resolved_workload b)) =
       bool_decide (dataset_selectors (resolved_workload b) = [])) ∧
  (has_trace b = true →
     (∃ d, dataset_selectors (workload b) = [d]) ∧ fixed_prompt (workload b) = "" ∧
     arrival_pattern (load b) = "poisson" ∧ feqb (arrival_rate (load b)) (Fin (-1)) = true) ∧
  (slo_search (slo b) = true → searchable b).
Proof.
  unfold validate. intros H. checks H.
  lazymatch goal with H : validate_load _ = _ |- _ => apply validate_load_drawable in H as Hload end.
  split_and!; [|done|..].
  - eapply validate_service_source. eassumption.
  - intros Ht. split.
    + eapply validate_load_bounded; [eassumption..|].
      checks_all. rewrite Ht in *. simpl in *. done.
    + apply resolved_exclusive; [done|]. intros [E1 E2]. checks_all. rewrite Ht, E1, E2 in *. done.
  - intros Ht. rewrite Ht in H. apply validate_trace_workload_sound in H; [|done].
    destruct H as (? & ? & ?). split_and!; try done. checks_all. rewrite Ht in *. simpl in *.
    lazymatch goal with H : negb (eqb (arrival_pattern _) _) = false |- _ =>
      by rewrite negb_false_iff, eqb_true in H end.
  - intros Hs. rewrite Hs in *. by eapply validate_slo_searchable.
Qed.

(** *** Durations *)

(** A run of printed digits reads as their number. *)
Lemma digit_run_pretty x s n :
  (0 < x)%N → ∃ k, digit_run 0 n (pretty_N_go x s) = digit_run (Z.of_N x) (S k) s.
Proof.
  revert s. induction (N.lt_wf_0 x) as [x _ IH]. intros s Hx.
  rewrite pretty_N_go_step by done.
  pose proof (digit_value_pretty (x `mod` 10) ltac:(apply N.mod_lt; lia)) as Hd.
  pose proof (N.div_mod x 10 ltac:(lia)) as Hdm.
  destruct (decide (x `div` 10 = 0)%N) as [E|E].
  - exists n. rewrite E, pretty_N_go_0. simpl. rewrite Hd. f_equal. lia.
  - destruct (IH (x `div` 10)%N) with (s := String (pretty_N_char (x `mod` 10)) s) as [k ->];
      [apply N.div_lt; lia|by apply N.neq_0_lt_0|].
    exists (S k). simpl. rewrite Hd. f_equal. lia.
Qed.

(** A printed natural number followed by a text that starts with a letter. *)
Lemma digit_run_str_Z n s :
  0 ≤ n → ∃ k, digit_run 0 0 (str_Z n +:+ s) = digit_run n (S k) s.
Proof.
  intros Hn. destruct n as [|p|p]; [by exists 0%nat| |lia].
  change (str_Z (Z.pos p) +:+ s) with (pretty_N_go (N.pos p) "" +:+ s).
  rewrite <-pretty_N_go_app. by apply digit_run_pretty.
Qed.

(** The units of the pattern start with a letter that no number contains. *)
Lemma duration_scale_unit unit scale :
  duration_scale unit = Some scale →
  no_space unit = true ∧ lstrip unit = unit ∧
  (∀ v k, digit_run v k unit = (v, k, unit)) ∧ read_exponent unit = (0, unit) ∧
  (∀ v, read_fraction v unit = (v, 0%nat, unit)).
Proof.
  intros H. apply dget_elem in H. repeat (apply elem_of_cons in H as [H|H]; [injection H as -> _; done|]).
  by apply not_elem_of_nil in H.
Qed.

Lemma str_Z_head n s : 0 ≤ n → ∃ c r, str_Z n +:+ s = String c r ∧ is_Some (digit_value c).
Proof.
  intros Hn. pose proof (all_digits_str_Z n Hn) as Hd.
  destruct (str_Z n) as [|c r] eqn:E.
  - pose proof (py_int_str_Z n) as Hp. rewrite E in Hp. done.
  - exists c, (r +:+ s). split; [done|]. apply andb_true_iff in Hd as [Hc _].
    by apply bool_decide_eq_true in Hc.
Qed.

(** a whole number of any documented unit reads as that many of it: for
    every natural number and every unit of the table, the text parses to the
    number times the scale of the unit. *)
Theorem parse_duration_units n unit scale :
  0 ≤ n → duration_scale unit = Some scale →
  ∃ q, parse_duration_seconds (str_Z n +:+ unit) = Ok q ∧ (q == inject_Z n * scale)%Q.
Proof.
  intros Hn Hu. destruct (duration_scale_unit _ _ Hu) as (Hsp & Hl & Hrun & Hexp & Hdot).
  unfold parse_duration_seconds. rewrite strip_no_space.
  2:{ rewrite no_space_app, Hsp, no_space_digits; [done|by apply all_digits_str_Z]. }
  assert (read_number (str_Z n +:+ unit) = Some (inject_Z (1 * n) * pow10 (0 - 0), unit)%Q) as ->.
  { destruct (str_Z_head n unit Hn) as (c & r & E & Hc). destruct (digit_run_str_Z n unit Hn) as [k Hk].
    assert (read_sign (str_Z n +:+ unit) = (1, str_Z n +:+ unit)) as Hs.
    { rewrite E. destruct c as [[] [] [] [] [] [] [] []]; try reflexivity; by destruct Hc. }
    unfold read_number. by rewrite Hs, Hk, Hrun, Hdot, Hexp. }
  rewrite Hl, Hu. eexists. split; [done|]. rewrite Z.mul_1_l. unfold pow10. simpl. ring.
Qed.

(** ** Instances *)

(** An SLO search on a Kustomize deployment with the default prompt. *)
Definition sample_benchmark : BenchmarkConfig :=
  MkBenchmark (MkService "deploy" "" "" "" "EMPTY" (Fin 300) 0 "15m" "" "") default_workload
    (MkLoad (Some 4) (Some 100) (Fin (-1)) "poisson" (Fin 1) 0 None) default_generation
    default_trace default_outputs default_wandb default_sweep
    (MkSlo (Some [[("p95_ttft", "<=2s")]]) true 2 (Some 64) 1) None [].

Lemma validate_sound_witness :
  validate (λ _, Ok tt) sample_benchmark = Ok tt ∧ searchable sample_benchmark.
Proof.
  split; [vm_compute; reflexivity|].
  apply (validate_sound (λ _, Ok tt) sample_benchmark); vm_compute; reflexivity.
Defined.

Lemma parse_duration_units_witness :
  parse_duration_seconds "15min" = Ok 900%Q ∧
  ∃ q, parse_duration_seconds "15min" = Ok q ∧ (q == 15 * 60)%Q.
Proof.
  split; [vm_compute; reflexivity|].
  exact (parse_duration_units 15 "min" 60%Q ltac:(lia) eq_refl).
Defined.
