(* ===== verification/SloSearch.v ===== *)
(** * SLO search ([benchmarks/runs/slo.py], [integrations/evalscope/slo.py])

    The search for the highest request concurrency under service-level
    criteria: doubling while the criteria hold and the observed peak grows,
    bisection below the first failed limit.  Running a probe (an HTTP load
    test) and EvalScope's comparison rules are parameters. *)

From Stdlib Require Import Ascii.
From S2P Require Import Prelude Text BenchConfig.

(** ** Criteria *)

(** An EvalScope rule: its target and its comparison. *)
Record rule := Rule {
  target : Q;
  compares : Q → Q → bool;   (* target, value *)
}.
Definition rule_validate (r : rule) (v : Q) : bool := compares r (target r) v.
Definition scale_target (f : Q) (r : rule) : rule := Rule (target r * f)%Q (compares r).

Fixpoint take_chars (n : nat) (s : string) : string :=
  match n, s with
  | S n, String c s => String c (take_chars n s)
  | _, _ => EmptyString
  end.

(** [metric.split(".", 1)[0].rsplit("_", 1)[-1]] *)
Definition metric_base (metric : string) : string :=
  let m := match partition "." metric with Some (a, _) => a | None => metric end in
  match rpartition "_" m with Some (_, b) => b | None => m end.

(** One criterion: the text without its duration suffix and the factor of the
    suffix. *)
Definition strip_unit (metric expression : string) : outcome (string * option Q) :=
  let e := strip expression in
  let drop (suffix : string) (factor : Q) :=
    if negb (mem (metric_base metric) ["latency"; "ttft"; "tpot"; "itl"])
    then Raise (ValueError "Time units are not supported for SLO metric") else
    let rest := take_chars (String.length e - String.length suffix) e in
    if mem (strip rest) ["min"; "max"]
    then Raise (ValueError "SLO duration units require a numeric threshold")
    else Ok (rest, Some factor) in
  if endswith "ms" e then drop "ms" (1 # 1000)%Q
  else if endswith "s" e then drop "s" 1%Q
  else Ok (e, None).

Section Rules.
(** EvalScope's parser. *)
Variable parse_sla_params : list criteria → outcome (list (list (string * rule))).

(** [parse_slo_criteria] *)
Definition normalize_group (g : criteria) : outcome (criteria * list (string * Q)) :=
  outcome_fold (λ acc e,
    r ← strip_unit e.1 e.2;
    Ok (acc.1 ++ [(e.1, r.1)],
        match r.2 with Some f => acc.2 ++ [(e.1, f)] | None => acc.2 end)) ([], []) g.

Definition scale_group (rules : list (string * rule)) (factors : list (string * Q))
    : outcome (list (string * rule)) :=
  outcome_fold (λ rs e,
    match dget e.1 rs with
    | None => Raise (KeyError e.1)
    | Some r => Ok (dset e.1 (scale_target e.2 r) rs)
    end) rules factors.

Definition parse_slo_criteria (params : list criteria) : outcome (list (list (string * rule))) :=
  normalized ← outcome_map normalize_group params;
  rules ← parse_sla_params (normalized.*1);
  (* zip stops at the shorter list; rules without factors are left alone *)
  scaled ← outcome_map (λ e, scale_group e.1 e.2) (zip rules normalized.*2);
  Ok (scaled ++ drop (length normalized) rules).

(** ** Measurements *)

(** The fields of a probe's metrics that the search reads. *)
Record metrics := Metrics {
  multi_turn : bool;
  success_rate : Q;
  peak : Z;
  sections : list (string * list (string * option Q));
  slo_attainment : option Q;
  request_goodput : option Q;
  token_goodput : option Q;
}.

(** [_metric_value] *)
Definition metric_value (m : metrics) (name : string) : outcome (option Q) :=
  match dget name SLO_SEARCH_METRICS with
  | None => Raise (KeyError name)
  | Some (section, statistic) =>
      match dget section (sections m) with
      | None => Raise (KeyError section)
      | Some values =>
          match dget statistic values with
          | None => Raise (KeyError statistic)
          | Some v => Ok v
          end
      end
  end.

Definition qsum (l : list Q) : Q := foldr Qplus 0%Q l.
Definition mean (l : list Q) : Q := (qsum l / inject_Z (Z.of_nat (length l)))%Q.

(** [None] as soon as a sample is missing. *)
Definition all_present {A} (l : list (option A)) : option (list A) := mapM id l.

(** [_average_metric_values] *)
Definition average_metric_values (ms : list metrics) (c : criteria)
    : outcome (list (string * option Q)) :=
  outcome_map (λ e : string * string,
    samples ← outcome_map (λ m, metric_value m e.1) ms;
    Ok (e.1, mean <$> all_present samples)) c.

(** [_mean_optional] *)
Definition mean_optional (l : list (option Q)) : option Q :=
  match l with [] => None | _ => mean <$> all_present l end.

(** [_check_slo] *)
Definition check_slo (c : criteria) (averages : list (string * option Q)) (ms : list metrics)
    : outcome bool :=
  if negb (forallb (λ m, Qeq_bool (success_rate m) 1) ms) then Ok false else
  rules ← parse_slo_criteria [c];
  match head rules with
  | None => Raise IndexError
  | Some group =>
      Ok (forallb (λ e : string * rule, match dget e.1 averages with
                      | Some (Some v) => rule_validate e.2 v
                      | _ => false
                      end) group)
  end.

(** ** The search *)

(** A recorded probe. *)
Record probe := Probe {
  p_limit : Z;
  p_peak : Z;
  p_peaks : list Z;
  p_averages : list (string * option Q);
  p_attainment : option Q;
  p_request_goodput : option Q;
  p_token_goodput : option Q;
  p_satisfied : bool;
}.

(** What [evaluate] keeps in its enclosing function; [best] is the peak and the
    limit of the best run, and the number of the evaluation it belongs to. *)
Record search_state := SearchState {
  probes : list probe;
  best : option (Z * Z * nat);
  conversation_load : bool;
}.

Definition empty_search : search_state := SearchState [] None false.

(** [max(peaks)]; at least one run *)
Definition max_peak (ms : list metrics) : outcome Z :=
  match max_by id (peak <$> ms) with
  | None => Raise (ValueError "max() iterable argument is empty")
  | Some p => Ok p
  end.

(** The peak did not grow although every request of a larger limit succeeded. *)
Definition no_growth (ms : list metrics) (previous : option probe) (value pk : Z) : bool :=
  forallb (λ m, Qeq_bool (success_rate m) 1) ms &&
  match previous with
  | Some p => (p_limit p <? value) && (pk <=? p_peak p)
  | None => false
  end.

Definition better (b : option (Z * Z * nat)) (pk value : Z) : bool :=
  match b with
  | None => true
  | Some (bp, bl, _) => (bp <? pk) || ((pk =? bp) && (value <? bl))
  end.

Section Search.
Variable c : criteria.
(** The repetitions of the [i]-th evaluation at a limit; a run may raise. *)
Variable run_probe : nat → Z → outcome (list metrics).

(** [evaluate]: satisfied, no growth, and the recorded probe. *)
Definition evaluate (value : Z) (s : search_state) : outcome (bool * bool * search_state) :=
  let i := length (probes s) in
  ms ← run_probe i value;
  averages ← average_metric_values ms c;
  satisfied ← check_slo c averages ms;
  pk ← max_peak ms;
  let stalled := no_growth ms (last (probes s)) value pk in
  let best' := if satisfied && better (best s) pk value then Some (pk, value, i) else best s in
  let p := Probe value pk (peak <$> ms) averages (mean_optional (slo_attainment <$> ms))
             (mean_optional (request_goodput <$> ms)) (mean_optional (token_goodput <$> ms))
             satisfied in
  Ok (satisfied, stalled,
      SearchState (probes s ++ [p]) best' (conversation_load s || existsb multi_turn ms)).

Inductive stop_reason := BoundaryFound | UpperBoundReached | NotIncreasing.

(** The doubling loop from a satisfied limit: why it stopped, and the interval
    left for bisection.  [None] means out of fuel. *)
Fixpoint expand (fuel : nat) (low current : Z) (high : option Z) (s : search_state)
    : option (outcome (stop_reason * Z * option Z * search_state)) :=
  match fuel with
  | O => None
  | S fuel =>
      if match high with None => true | Some h => current <? h end then
        let value := match high with None => current * 2 | Some h => Z.min (current * 2) h end in
        match evaluate value s with
        | Raise e => Some (Raise e)
        | Ok (satisfied, stalled, s) =>
            if (stalled : bool) then Some (Ok (NotIncreasing, low, high, s))
            else if negb satisfied then Some (Ok (BoundaryFound, low, Some (value - 1), s))
            else expand fuel (value + 1) value high s
        end
      else Some (Ok (UpperBoundReached, low, high, s))
  end.

(** The bisection loop. *)
Fixpoint bisect (fuel : nat) (low high : Z) (s : search_state)
    : option (outcome (stop_reason * search_state)) :=
  match fuel with
  | O => None
  | S fuel =>
      if low <=? high then
        let value := (low + high) `div` 2 in
        match evaluate value s with
        | Raise e => Some (Raise e)
        | Ok (satisfied, stalled, s) =>
            if (stalled : bool) then Some (Ok (NotIncreasing, s))
            else if satisfied then bisect fuel (value + 1) high s
            else bisect fuel low (value - 1) s
        end
      else Some (Ok (BoundaryFound, s))
  end.

(** [_search_group]: from [start] inside [[lower, upper]]. *)
Definition search_group (fuel : nat) (start lower : Z) (upper : option Z)
    : option (outcome (stop_reason * search_state)) :=
  match evaluate start empty_search with
  | Raise e => Some (Raise e)
  | Ok (satisfied, _, s) =>
      if (satisfied : bool) then
        match expand fuel (start + 1) start upper s with
        | None => None
        | Some (Raise e) => Some (Raise e)
        | Some (Ok (BoundaryFound, low, Some high, s)) => bisect fuel low high s
        | Some (Ok (reason, _, _, s)) => Some (Ok (reason, s))
        end
      else bisect fuel lower (start - 1) s
  end.

(** The summary of a group. *)
Record summary := Summary {
  best_peak : option Z;
  best_limit : option Z;
  last_peak : option Z;
  last_limit : option Z;
  conversations : bool;
  reason : stop_reason;
}.
Definition summarize (r : stop_reason * search_state) : summary :=
  Summary (match best r.2 with Some (p, _, _) => Some p | None => None end)
    (match best r.2 with Some (_, l, _) => Some l | None => None end)
    (p_peak <$> last (probes r.2)) (p_limit <$> last (probes r.2)) (conversation_load r.2) r.1.
End Search.
End Rules.

(** [SloAutoTuneBenchmark.run] after every group was searched: the exit code. *)
Definition exit_code (groups : list summary) : Z :=
  if forallb (λ g, bool_decide (is_Some (best_limit g))) groups then 0 else 1.
