(* ===== verification/SloSearchProofs.v ===== *)
(** * Properties of the SLO search

    The search terminates when the observed peaks are bounded, probes only
    inside the configured bounds, reports the best probe it made, and on a
    service with a concurrency threshold finds that threshold, or the peak at which
    the service saturates below it. *)

From S2P Require Import Prelude Text BenchConfig SloSearch.

Section Search.
Variable parse_sla_params : list criteria → outcome (list (list (string * rule))).
Variable c : criteria.
Variable run_probe : nat → Z → outcome (list metrics).
Abbreviation evaluate := (evaluate parse_sla_params c run_probe).
Abbreviation expand := (expand parse_sla_params c run_probe).
Abbreviation bisect := (bisect parse_sla_params c run_probe).
Abbreviation search_group := (search_group parse_sla_params c run_probe).

(** ** One evaluation *)

Lemma evaluate_Ok v s sat stalled s' :
  evaluate v s = Ok (sat, stalled, s') →
  ∃ ms averages pk p, run_probe (length (probes s)) v = Ok ms ∧
    average_metric_values ms c = Ok averages ∧
    check_slo parse_sla_params c averages ms = Ok sat ∧ max_peak ms = Ok pk ∧
    stalled = no_growth ms (last (probes s)) v pk ∧
    p_limit p = v ∧ p_peak p = pk ∧ p_satisfied p = sat ∧
    probes s' = probes s ++ [p] ∧
    best s' = if sat && better (best s) pk v then Some (pk, v, length (probes s)) else best s.
Proof.
  unfold SloSearch.evaluate. intros (ms & Hms & E)%outcome_bind_Ok.
  apply outcome_bind_Ok in E as (av & Hav & E). apply outcome_bind_Ok in E as (sat' & Hsat & E).
  apply outcome_bind_Ok in E as (pk & Hpk & E). injection E as -> <- <-. simpl.
  exists ms, av, pk. eexists (Probe v pk _ _ _ _ _ sat). split_and!; done.
Qed.

(** Criteria that hold imply that every request succeeded. *)
Lemma check_slo_success averages ms :
  check_slo parse_sla_params c averages ms = Ok true →
  forallb (λ m, Qeq_bool (success_rate m) 1) ms = true.
Proof. unfold check_slo. by destruct (forallb _ ms). Qed.

(** A satisfied larger limit that is not stalled raised the peak. *)
Lemma satisfied_grows v s s' p :
  evaluate v s = Ok (true, false, s') → last (probes s) = Some p → p_limit p < v →
  ∃ p', last (probes s') = Some p' ∧ p_limit p' = v ∧ p_peak p < p_peak p'.
Proof.
  intros (ms & av & pk & p' & _ & _ & Hsat & _ & Hst & Hl & Hp & _ & Hs & _)%evaluate_Ok Hlast Hlt.
  exists p'. rewrite Hs, last_snoc. split_and!; [done|done|]. rewrite Hlast in Hst.
  unfold no_growth in Hst. rewrite (check_slo_success _ _ Hsat) in Hst.
  rewrite (proj2 (Z.ltb_lt _ _) Hlt) in Hst. simpl in Hst. lia.
Qed.

(** ** What every evaluation keeps, the search keeps *)

Section Keeps.
Variable I : search_state → Prop.
Variables lower : Z.
Variable upper : option Z.
Definition in_bounds (v : Z) : Prop :=
  lower ≤ v ∧ match upper with Some h => v ≤ h | None => True end.
Hypothesis step : ∀ v s sat stalled s',
  in_bounds v → I s → evaluate v s = Ok (sat, stalled, s') → I s'.
Hypothesis lower_pos : 1 ≤ lower.

Lemma expand_keeps fuel low current s r low' high' s' :
  in_bounds current → low = current + 1 → I s →
  expand fuel low current upper s = Some (Ok (r, low', high', s')) →
  I s' ∧ lower ≤ low' ∧
  (r = BoundaryFound → ∃ h, high' = Some h ∧ match upper with Some u => h ≤ u | None => True end).
Proof using step lower_pos.
  revert low current s. induction fuel as [|fuel IH]; intros low current s Hb -> Hs; simpl; [done|].
  destruct Hb as [Hb1 Hb2].
  destruct (match upper with None => true | Some h => current <? h end) eqn:Eh.
  2:{ intros [= <- <- <- <-]. split_and!; [done|lia|done]. }
  set (value := match upper with None => current * 2 | Some h => Z.min (current * 2) h end).
  assert (in_bounds value ∧ current < value) as [Hv Hlt].
  { unfold in_bounds, value. destruct upper; lia. }
  destruct (evaluate value s) as [[[sat stalled] s1]|] eqn:E; [|done].
  pose proof (step _ _ _ _ _ Hv Hs E) as Hs1. destruct stalled.
  { intros [= <- <- <- <-]. split_and!; [done|lia|done]. }
  destruct sat; simpl.
  - apply IH; done.
  - intros [= <- <- <- <-]. split_and!; [done|lia|]. intros _. eexists. split; [done|].
    destruct Hv as [_ Hv]. destruct upper; [lia|done].
Qed.

Lemma bisect_keeps fuel low high s r s' :
  lower ≤ low → match upper with Some u => high ≤ u | None => True end → I s →
  bisect fuel low high s = Some (Ok (r, s')) → I s'.
Proof using step.
  revert low high s. induction fuel as [|fuel IH]; intros low high s Hl Hh Hs; simpl; [done|].
  destruct (low <=? high) eqn:E; [|by intros [= _ <-]].
  pose proof (Z.div_le_upper_bound (low + high) 2 high ltac:(lia) ltac:(lia)) as Hd1.
  pose proof (Z.div_le_lower_bound (low + high) 2 low ltac:(lia) ltac:(lia)) as Hd2.
  set (value := (low + high) `div` 2) in *.
  assert (in_bounds value) as Hv by (unfold in_bounds; destruct upper; lia).
  destruct (evaluate value s) as [[[sat stalled] s1]|] eqn:Ev; [|done].
  pose proof (step _ _ _ _ _ Hv Hs Ev) as Hs1. destruct stalled; [by intros [= _ <-]|].
  destruct sat; apply IH; try done; [lia|]. destruct upper; [lia|done].
Qed.

Lemma search_keeps fuel start r s' :
  in_bounds start → I empty_search →
  search_group fuel start lower upper = Some (Ok (r, s')) → I s'.
Proof using step lower_pos.
  intros Hb H0. unfold SloSearch.search_group.
  destruct (evaluate start empty_search) as [[[sat stalled] s]|] eqn:E; [|done].
  pose proof (step _ _ _ _ _ Hb H0 E) as Hs. destruct sat.
  - destruct (expand _ _ _ _ _) as [[[[[r1 low] high] s1]|]|] eqn:Ex; try done.
    apply expand_keeps in Ex as (Hs1 & Hlow & Hr); [|done..].
    destruct r1; [|by intros [= _ <-]..].
    destruct (Hr eq_refl) as (h & -> & Hh). by apply bisect_keeps.
  - apply bisect_keeps; [lia| |done]. destruct Hb as [_ Hb]. destruct upper; [lia|done].
Qed.
End Keeps.

(** ** The reported best *)

(** The best entry names a satisfied probe; every satisfied probe has a lower
    peak, or the same peak at the same or a higher limit. *)
Definition best_ok (s : search_state) : Prop :=
  match best s with
  | None => ∀ p, p ∈ probes s → p_satisfied p = false
  | Some (bp, bl, i) =>
      ∃ p, probes s !! i = Some p ∧ p_peak p = bp ∧ p_limit p = bl ∧ p_satisfied p = true ∧
      ∀ p', p' ∈ probes s → p_satisfied p' = true →
        p_peak p' < bp ∨ (p_peak p' = bp ∧ bl ≤ p_limit p')
  end.

Lemma evaluate_best v s sat stalled s' :
  best_ok s → evaluate v s = Ok (sat, stalled, s') → best_ok s'.
Proof.
  intros Hb (ms & av & pk & p & _ & _ & _ & _ & _ & Hl & Hp & Hsat & Hs & Hbest)%evaluate_Ok.
  unfold best_ok in *. rewrite Hbest, Hs. subst v pk sat.
  assert (∀ p', p' ∈ probes s ++ [p] ↔ p' ∈ probes s ∨ p' = p) as Hin by set_solver.
  assert ((probes s ++ [p]) !! length (probes s) = Some p) as Hnew by (by apply list_lookup_middle).
  destruct (p_satisfied p) eqn:Ep; simpl.
  - destruct (better (best s) (p_peak p) (p_limit p)) eqn:Eb.
    + exists p. split_and!; try done. intros p' [Hp' | ->]%Hin Hsat'; [|lia].
      unfold better in Eb. destruct (best s) as [[[bp bl] i]|]; [|rewrite Hb in Hsat'; done].
      destruct Hb as (q & _ & _ & _ & _ & Hall). specialize (Hall p' Hp' Hsat'). lia.
    + unfold better in Eb. destruct (best s) as [[[bp bl] i]|]; [|done].
      destruct Hb as (q & Hq & Hq1 & Hq2 & Hq3 & Hall). exists q.
      split_and!; try done; [by apply lookup_app_l_Some|].
      intros p' [Hp' | ->]%Hin Hsat'; [by apply Hall|]. lia.
  - destruct (best s) as [[[bp bl] i]|].
    + destruct Hb as (q & Hq & Hq1 & Hq2 & Hq3 & Hall). exists q.
      split_and!; try done; [by apply lookup_app_l_Some|].
      intros p' [Hp' | ->]%Hin Hsat'; [by apply Hall|congruence].
    + intros p' [Hp' | ->]%Hin; [by apply Hb|done].
Qed.

Lemma best_ok_empty : best_ok empty_search.
Proof. intros p Hp. by apply not_elem_of_nil in Hp. Qed.

Lemma search_invariant fuel start lower upper r s :
  1 ≤ lower → in_bounds lower upper start →
  search_group fuel start lower upper = Some (Ok (r, s)) →
  (∀ p, p ∈ probes s → in_bounds lower upper (p_limit p)) ∧ best_ok s.
Proof.
  intros Hl Hb E.
  eapply (search_keeps (λ s, (∀ p, p ∈ probes s → in_bounds lower upper (p_limit p)) ∧ best_ok s)
            lower upper); [|done|done| |exact E].
  - intros v s1 sat stalled s2 Hv [Hin Hbest] Ev. split; [|by eapply evaluate_best].
    apply evaluate_Ok in Ev as (ms & av & pk & p & _ & _ & _ & _ & _ & <- & _ & _ & -> & _).
    intros p' [Hp'|Hp']%elem_of_app; [by apply Hin|].
    apply list_elem_of_singleton in Hp' as ->. done.
  - split; [|apply best_ok_empty]. intros p Hp. by apply not_elem_of_nil in Hp.
Qed.

(** The search probes only concurrency limits inside the configured bounds,
    and reports the satisfied probe with the highest observed request peak, at
    the lowest limit that reached it; it reports none exactly when no probe
    satisfied the criteria. *)
Theorem search_reports_best fuel start lower upper r s :
  1 ≤ lower → in_bounds lower upper start →
  search_group fuel start lower upper = Some (Ok (r, s)) →
  (∀ p, p ∈ probes s → in_bounds lower upper (p_limit p)) ∧
  let m := summarize (r, s) in
  match best_limit m, best_peak m with
  | Some limit, Some pk =>
      (∃ p, p ∈ probes s ∧ p_limit p = limit ∧ p_peak p = pk ∧ p_satisfied p = true) ∧
      ∀ p, p ∈ probes s → p_satisfied p = true →
        p_peak p < pk ∨ (p_peak p = pk ∧ limit ≤ p_limit p)
  | None, None => ∀ p, p ∈ probes s → p_satisfied p = false
  | _, _ => False
  end.
Proof.
  intros Hl Hb E. destruct (search_invariant _ _ _ _ _ _ Hl Hb E) as [Hin Hbest].
  split; [done|]. unfold best_ok in Hbest. simpl. destruct (best s) as [[[bp bl] i]|]; [|done].
  destruct Hbest as (p & Hp & Hpk & Hpl & Hps & Hall). split; [|done].
  exists p. by apply list_elem_of_lookup_2 in Hp.
Qed.

(** ** Termination *)

Lemma expand_mono fuel fuel' low current high s x :
  (fuel ≤ fuel')%nat → expand fuel low current high s = Some x →
  expand fuel' low current high s = Some x.
Proof.
  revert fuel' low current s. induction fuel as [|fuel IH]; intros fuel' low current s Hle; [done|].
  destruct fuel' as [|fuel']; [lia|]. simpl. destruct (match high with None => _ | _ => _ end); [|done].
  destruct (evaluate _ s) as [[[sat stalled] s1]|]; [|done].
  destruct stalled; [done|]. destruct sat; [|done]. simpl. apply IH. lia.
Qed.

Lemma bisect_terminates fuel low high s :
  Z.max 0 (high - low + 1) < Z.of_nat fuel → is_Some (bisect fuel low high s).
Proof.
  revert low high s. induction fuel as [|fuel IH]; intros low high s Hf; [lia|]. simpl.
  destruct (low <=? high) eqn:E; [|done].
  pose proof (Z.div_le_upper_bound (low + high) 2 high ltac:(lia) ltac:(lia)) as Hd1.
  pose proof (Z.div_le_lower_bound (low + high) 2 low ltac:(lia) ltac:(lia)) as Hd2.
  destruct (evaluate _ s) as [[[sat stalled] s1]|]; [|done].
  destruct stalled; [done|]. destruct sat; apply IH; lia.
Qed.

Lemma max_peak_in ms pk : max_peak ms = Ok pk → ∃ m, m ∈ ms ∧ peak m = pk.
Proof.
  unfold max_peak. destruct (max_by id (peak <$> ms)) as [p|] eqn:E; [|done]. intros [= <-].
  apply max_by_Some in E as [(m & -> & Hm)%list_elem_of_fmap _]. eauto.
Qed.

Lemma expand_terminates B fuel low current high s p :
  (∀ i v ms, run_probe i v = Ok ms → ∀ m, m ∈ ms → peak m ≤ B) →
  1 ≤ current → last (probes s) = Some p → p_limit p = current → p_peak p ≤ B →
  B - p_peak p < Z.of_nat fuel → is_Some (expand fuel low current high s).
Proof.
  intros HB. revert low current s p.
  induction fuel as [|fuel IH]; intros low current s p Hc Hl Hp HpB Hf; [lia|]. simpl.
  destruct (match high with None => true | Some h => current <? h end) eqn:Eh; [|done].
  set (value := match high with None => current * 2 | Some h => Z.min (current * 2) h end).
  assert (current < value) as Hlt by (unfold value; destruct high; lia).
  destruct (evaluate value s) as [[[sat stalled] s1]|] eqn:E; [|done].
  destruct stalled; [done|]. destruct sat; [|done]. simpl.
  destruct (satisfied_grows _ _ _ _ E Hl ltac:(lia)) as (p' & Hl' & Hp' & Hgrow).
  eapply IH; [|exact Hl'|..]; [lia|done| |]; last first.
  { lia. }
  apply evaluate_Ok in E as (ms & av & pk & q & Hms & _ & _ & Hpk & _ & _ & Hq & _ & Hs & _).
  rewrite Hs, last_snoc in Hl'. injection Hl' as ->. rewrite Hq.
  apply max_peak_in in Hpk as (m & Hm & <-). by eapply HB.
Qed.

(** The search terminates whenever the measured request peaks are bounded
    (they are, by the number of requests of the workload), even without an upper
    limit: from some amount of fuel on it always has a result, which no longer
    depends on the fuel. *)
Theorem search_terminates B start lower upper :
  (∀ i v ms, run_probe i v = Ok ms → ∀ m, m ∈ ms → peak m ≤ B) → 1 ≤ start →
  ∃ n, ∀ fuel, (n ≤ fuel)%nat → is_Some (search_group fuel start lower upper).
Proof.
  intros HB Hst. unfold SloSearch.search_group.
  destruct (evaluate start empty_search) as [[[sat stalled] s]|] eqn:E; [|by exists 0%nat; eauto].
  destruct sat.
  2:{ exists (S (S (Z.to_nat (start - 1 - lower + 1)))). intros fuel Hf. apply bisect_terminates. lia. }
  apply evaluate_Ok in E as (ms & av & pk & p & Hms & _ & _ & Hpk & _ & Hl & Hp & _ & Hs & _).
  assert (p_peak p ≤ B) as HpB.
  { rewrite Hp. apply max_peak_in in Hpk as (m & Hm & <-). by eapply HB. }
  destruct (expand_terminates B (S (Z.to_nat (B - p_peak p))) (start + 1) start upper s p)
    as [x Hx]; [done|done|by rewrite Hs, last_snoc|done|done|lia|].
  set (n1 := S (Z.to_nat (B - p_peak p))) in Hx.
  destruct x as [[[[r low] high] s1]|e].
  2:{ exists n1. intros fuel Hf. rewrite (expand_mono _ _ _ _ _ _ _ Hf Hx). eauto. }
  exists (n1 + S (S (Z.to_nat (default 0%Z high - low + 1))))%nat. intros fuel Hf.
  rewrite (expand_mono n1 fuel _ _ _ _ _ ltac:(lia) Hx).
  destruct r; [|eauto..]. destruct high as [h|]; [|eauto]. apply bisect_terminates. simpl in Hf. lia.
Qed.

(** ** Exactness on a threshold service *)

Section Threshold.
(** The criteria hold exactly up to [T].  The observed peak never falls as the
    limit grows, and once a larger limit does not raise it, it has saturated: no
    limit beyond raises it either. *)
Variables (T : Z) (f : Z → Z).
Definition saturates : Prop :=
  (∀ v w, 1 ≤ v ≤ w → f v ≤ f w) ∧ (∀ v w x, 1 ≤ v < w → f w ≤ f v → w ≤ x → f x ≤ f v).
Definition threshold_service : Prop := ∀ i v, 1 ≤ v → ∃ ms averages,
  run_probe i v = Ok ms ∧ average_metric_values ms c = Ok averages ∧
  check_slo parse_sla_params c averages ms = Ok (v <=? T) ∧ max_peak ms = Ok (f v).
Hypothesis service : threshold_service.

(** Every probe measured what the service does at its limit. *)
Definition measured (s : search_state) : Prop :=
  ∀ p, p ∈ probes s → p_peak p = f (p_limit p) ∧ p_satisfied p = (p_limit p <=? T).
Definition probed (v : Z) (s : search_state) : Prop := ∃ p, p ∈ probes s ∧ p_limit p = v.
(** A satisfied limit was probed whose peak a larger limit did not exceed. *)
Definition stuck (s : search_state) : Prop := ∃ q v, probed q s ∧ 1 ≤ q ∧ q ≤ T ∧ q < v ∧ f v ≤ f q.

Lemma threshold_evaluate v s :
  1 ≤ v → measured s → ∃ stalled s', evaluate v s = Ok (v <=? T, stalled, s') ∧ measured s' ∧
    p_limit <$> last (probes s') = Some v ∧ (∀ w, probed w s → probed w s') ∧
    (stalled = true → ∃ q, last (probes s) = Some q ∧ p_limit q < v ∧ f v ≤ f (p_limit q)).
Proof using service.
  intros Hv Hm. destruct (service (length (probes s)) v Hv) as (ms & av & Hms & Hav & Hc & Hpk).
  destruct (evaluate v s) as [[[sat stalled] s']|] eqn:E.
  2:{ exfalso. revert E. unfold SloSearch.evaluate. rewrite Hms. simpl. rewrite Hav. simpl.
      rewrite Hc. simpl. by rewrite Hpk. }
  apply evaluate_Ok in E as (ms' & av' & pk & p & Hms' & Hav' & Hc' & Hpk' & Hst & Hl & Hp & Hsat & Hs & _).
  simplify_eq. exists (no_growth ms (last (probes s)) (p_limit p) (p_peak p)), s'. split_and!.
  - congruence.
  - intros q. rewrite Hs. intros [Hq|Hq]%elem_of_app; [by apply Hm|].
    apply list_elem_of_singleton in Hq as ->. split; congruence.
  - by rewrite Hs, last_snoc.
  - intros w (q & Hq & Hw). exists q. rewrite Hs. split; [set_solver|done].
  - unfold no_growth. intros (_ & Hn)%andb_true_iff. destruct (last (probes s)) as [q|] eqn:El; [|done].
    exists q. pose proof (Hm q (last_Some_elem_of _ _ El)) as [Hq _].
    apply andb_true_iff in Hn as [? ?].
    assert (p_peak p = f (p_limit p)) by congruence. split_and!; [done|lia|]. rewrite <-Hq. lia.
Qed.

Lemma last_probed v s : p_limit <$> last (probes s) = Some v → probed v s.
Proof.
  destruct (last (probes s)) as [p|] eqn:E; [|done]. intros [= <-]. exists p.
  split; [by apply last_Some_elem_of|done].
Qed.

(** Bisection ends with [T] probed or the peak saturated, or knows that [T] is
    below every limit. *)
Lemma bisect_exact lower fuel low high s :
  measured s → 1 ≤ lower → lower ≤ low → T ≤ high →
  low = lower ∨ (low - 1 ≤ T ∧ probed (low - 1) s) →
  (∀ q, last (probes s) = Some q → 1 ≤ p_limit q ∧ (p_limit q ≤ T ∨ high < p_limit q)) →
  Z.max 0 (high - low + 1) < Z.of_nat fuel →
  ∃ r s', bisect fuel low high s = Some (Ok (r, s')) ∧ measured s' ∧ (T < lower ∨ probed T s' ∨ stuck s').
Proof using service.
  revert low high s. induction fuel as [|fuel IH]; intros low high s Hm H1 Hl HT Hlow Hlast Hf; [lia|]. simpl.
  destruct (low <=? high) eqn:E.
  - pose proof (Z.div_le_upper_bound (low + high) 2 high ltac:(lia) ltac:(lia)) as Hd1.
    pose proof (Z.div_le_lower_bound (low + high) 2 low ltac:(lia) ltac:(lia)) as Hd2.
    set (v := (low + high) `div` 2) in *.
    destruct (threshold_evaluate v s ltac:(lia) Hm) as (stalled & s1 & -> & Hm1 & Hv & Hkeep & Hst).
    destruct stalled.
    { eexists _, s1. split_and!; [done..|]. right. right. destruct (Hst eq_refl) as (q & Hq & Hqv & Hfq).
      destruct (Hlast q Hq) as [Hq1 Hq2]. exists (p_limit q), v. split_and!; [|done|lia|done|done].
      apply Hkeep. exists q. split; [by apply last_Some_elem_of|done]. }
    destruct (v <=? T) eqn:Ev; apply IH; try done; try lia.
    + right. replace (v + 1 - 1) with v by lia. split; [lia|by apply last_probed].
    + intros q Hq. rewrite Hq in Hv. injection Hv as Hv. lia.
    + destruct Hlow as [?|[? ?]]; auto.
    + intros q Hq. rewrite Hq in Hv. injection Hv as Hv. lia.
  - exists BoundaryFound, s. split_and!; [done|done|]. destruct Hlow as [->|[Hle Hp]]; [left; lia|].
    right. left. by replace T with (low - 1) by lia.
Qed.

(** Doubling ends at the upper limit, just past [T], or with the peak saturated. *)
Lemma expand_exact fuel current high s :
  measured s → 1 ≤ current → current ≤ T → p_limit <$> last (probes s) = Some current →
  match high with Some h => current ≤ h | None => True end →
  T - current < Z.of_nat fuel →
  ∃ r low high' s', expand fuel (current + 1) current high s = Some (Ok (r, low, high', s')) ∧
    measured s' ∧
    ((r = UpperBoundReached ∧ ∃ h, high = Some h ∧ h ≤ T ∧ probed h s') ∨
     (r = NotIncreasing ∧ stuck s') ∨
     (r = BoundaryFound ∧ ∃ h, high' = Some h ∧ T ≤ h ∧ low - 1 ≤ T ∧ h - low < T ∧ current < low ∧
        probed (low - 1) s' ∧ p_limit <$> last (probes s') = Some (h + 1) ∧
        match high with Some u => h < u | None => True end)).
Proof using service.
  revert current s. induction fuel as [|fuel IH]; intros current s Hm Hc HcT Hp Hh Hf; [lia|]. simpl.
  destruct (match high with None => true | Some h => current <? h end) eqn:Eh; last first.
  { eexists _, _, _, _. split; [done|]. split; [done|]. left. split; [done|].
    destruct high as [h|]; [|done]. exists h. split_and!; [done|lia|].
    replace h with current by lia. by apply last_probed. }
  set (v := match high with None => current * 2 | Some h => Z.min (current * 2) h end).
  assert (current < v ≤ current * 2 ∧ match high with Some u => v ≤ u | None => True end)
    as [Hlt Hvu].
  { unfold v. destruct high; lia. }
  destruct (threshold_evaluate v s ltac:(lia) Hm) as (stalled & s1 & -> & Hm1 & Hv & Hkeep & Hst).
  destruct stalled.
  { eexists _, _, _, _. split; [done|]. split; [done|]. right. left. split; [done|].
    destruct (Hst eq_refl) as (q & Hq & Hqv & Hfq). rewrite Hq in Hp. injection Hp as Hp.
    exists current, v. rewrite Hp in Hfq. split_and!; try lia. apply Hkeep. exists q.
    split; [by apply last_Some_elem_of|done]. }
  destruct (v <=? T) eqn:Ev; simpl.
  - destruct (IH v s1) as (r & low & h' & s2 & Heq & Hm2 & Hcase); [done|lia|lia|done|done|lia|].
    eexists _, _, _, _. split; [exact Heq|]. split; [done|].
    destruct Hcase as [?|[?|(? & h & ? & ? & ? & ? & ? & ?)]]; [by left|by right; left|right; right].
    split; [done|]. exists h. split_and!; try done; [lia|naive_solver..].
  - eexists _, _, _, _. split; [done|]. split; [done|]. right. right. split; [done|].
    exists (v - 1). replace (current + 1 - 1) with current by lia. replace (v - 1 + 1) with v by lia.
    split_and!; [done|lia|lia|lia|lia|by apply Hkeep, last_probed|done|]. destruct high; [lia|done].
Qed.

Hypothesis saturation : saturates.

(** The largest limit inside the bounds that satisfies the criteria, if any does. *)
Definition largest (upper : option Z) : Z := match upper with Some u => Z.min T u | None => T end.

(** Once that limit was probed, or the peak saturated below it, the best probe has
    its peak. *)
Lemma best_is_largest lower upper s :
  1 ≤ lower → measured s → best_ok s → (∀ p, p ∈ probes s → in_bounds lower upper (p_limit p)) →
  T < lower ∨ probed (largest upper) s ∨ stuck s →
  match best s with
  | Some (pk, limit, _) => lower ≤ limit ≤ largest upper ∧ pk = f limit ∧ f limit = f (largest upper)
  | None => T < lower
  end.
Proof using saturation.
  intros H1 Hm Hb Hin Hor. set (M := largest upper) in *. destruct saturation as [mono sat].
  assert (M ≤ T) as HMT by (unfold M, largest; destruct upper; lia).
  assert (∀ p, p ∈ probes s → p_limit p ≤ T → lower ≤ p_limit p ≤ M) as HM.
  { intros p Hp Hle. destruct (Hin p Hp) as [? ?]. unfold M, largest. destruct upper; lia. }
  assert (T < lower ∨ ∃ q, q ∈ probes s ∧ p_limit q ≤ T ∧ f M ≤ f (p_limit q)) as [HT|(q & Hq & HqT & Hf)].
  { destruct Hor as [?|[(q & Hq & HqM)|(l & v & (q & Hq & <-) & Hq1 & HqT & Hlt & Hf)]]; [by left|right; exists q..].
    - rewrite HqM. split_and!; [done..|lia].
    - split_and!; [done..|]. destruct (decide (v ≤ M)) as [|Hv]; [by apply (sat _ v); [lia|..]|].
      destruct (HM q Hq HqT). etrans; [apply (mono M v); lia|done]. }
  - unfold best_ok in Hb. destruct (best s) as [[[bp bl] i]|]; [|done].
    destruct Hb as (p & Hp%list_elem_of_lookup_2 & _ & _ & Hs & _). destruct (Hm p Hp) as [_ Hp2].
    rewrite Hs in Hp2. symmetry in Hp2. apply Z.leb_le in Hp2. destruct (HM p Hp Hp2). lia.
  - destruct (Hm q Hq) as [Hq1 Hq2]. rewrite (proj2 (Z.leb_le _ _) HqT) in Hq2.
    unfold best_ok in Hb. destruct (best s) as [[[bp bl] i]|]; [|by rewrite (Hb q Hq) in Hq2].
    destruct Hb as (p & Hp%list_elem_of_lookup_2 & <- & <- & Hs & Hall). destruct (Hm p Hp) as [Hp1 Hp2].
    rewrite Hs in Hp2. symmetry in Hp2. apply Z.leb_le in Hp2. pose proof (HM p Hp Hp2) as Hpb.
    split_and!; [lia..|done|]. specialize (Hall q Hq Hq2). rewrite Hq1, Hp1 in Hall.
    pose proof (mono (p_limit p) M ltac:(lia)). lia.
Qed.

(** C29: on a service whose criteria hold exactly up to a threshold, and whose
    observed peak does not fall as the limit grows and stops growing for good once a
    larger limit does not raise it, the search finishes without error from some amount
    of fuel on.  It reports nothing exactly when the threshold lies below the lower
    bound; otherwise a limit inside the bounds that satisfies the criteria and whose
    peak is that of the largest such limit, the threshold cut at the upper bound.
    When the peak still grows at that limit, it is the limit reported. *)
Theorem search_finds_threshold start lower upper :
  1 ≤ lower → in_bounds lower upper start →
  ∃ n, ∀ fuel, (n ≤ fuel)%nat →
    ∃ r s, search_group fuel start lower upper = Some (Ok (r, s)) ∧
    match best s with
    | Some (pk, limit, _) =>
        lower ≤ limit ≤ largest upper ∧ pk = f limit ∧ pk = f (largest upper) ∧
        ((∀ v, 1 ≤ v < largest upper → f v < f (largest upper)) → limit = largest upper)
    | None => T < lower
    end.
Proof using saturation service.
  intros Hl Hb. exists (S (S (Z.to_nat (Z.max (T - start) (Z.max (start - lower) T))))).
  intros fuel Hf.
  assert (∃ r s, search_group fuel start lower upper = Some (Ok (r, s)) ∧ measured s ∧
    (T < lower ∨ probed (largest upper) s ∨ stuck s)) as (r & s & E & Hm & Hor).
  { unfold SloSearch.search_group. destruct Hb as [Hb1 Hb2].
    destruct (threshold_evaluate start empty_search) as (stalled & s & -> & Hm & Hp & _);
      [lia|intros p Hp; by apply not_elem_of_nil in Hp|]. destruct (start <=? T) eqn:Es.
    - destruct (expand_exact fuel start upper s) as (r & low & h' & s1 & -> & Hm1 & Hcase);
        [done|lia|lia|done|done|lia|].
      destruct Hcase as [(-> & h & -> & HhT & Hph)|[(-> & Hst)|(-> & h & -> & HTh & Hlow & Hsz & Hsl & Hpl & Hlt & Hhu)]].
      + eexists _, _. split; [done|]. split; [done|]. right. left. unfold largest. by rewrite Z.min_r by lia.
      + eexists _, _. split; [done|]. split; [done|]. by right; right.
      + destruct (bisect_exact lower fuel low h s1) as (r & s2 & Heq & Hm2 & Hor); try done; try lia; [auto|..].
        { intros q Hq. rewrite Hq in Hlt. injection Hlt as Hlt. lia. }
        eexists _, _. split; [exact Heq|]. split; [done|]. unfold largest. destruct upper as [u|]; [|done].
        by rewrite Z.min_l by lia.
    - destruct (bisect_exact lower fuel lower (start - 1) s) as (r & s2 & Heq & Hm2 & Hor); try done; try lia; [auto|..].
      { intros q Hq. rewrite Hq in Hp. injection Hp as Hp. lia. }
      eexists _, _. split; [exact Heq|]. split; [done|]. unfold largest. destruct upper as [u|]; [|done].
      by rewrite Z.min_l by lia. }
  exists r, s. split; [done|].
  destruct (search_invariant fuel start lower upper r s Hl Hb E) as [Hin Hbest].
  pose proof (best_is_largest lower upper s Hl Hm Hbest Hin Hor) as Hlast.
  destruct (best s) as [[[pk limit] i]|]; [|done]. destruct Hlast as (Hin' & -> & Heq).
  split_and!; [lia..|done|done|]. intros Hgrow. destruct (decide (limit = largest upper)) as [|Hn]; [done|].
  specialize (Hgrow limit ltac:(lia)). lia.
Qed.
End Threshold.
End Search.

(** ** Instances *)

(** A comparison library with one rule, a value at most 8, and a service whose
    p95 time to first token equals the limit, under a workload of 12 requests. *)
Definition sample_rules (gs : list criteria) : outcome (list (list (string * rule))) :=
  Ok (map (map (λ e : string * string, (e.1, Rule 8 (λ t v, Qle_bool v t)))) gs).
Definition sample_criteria : criteria := [("p95_ttft", "<=8")].
Definition sample_run (i : nat) (v : Z) : outcome (list metrics) :=
  Ok [Metrics false 1 (Z.min v 12) [("ttft", [("p95", Some (inject_Z v))])] None None None].

Lemma sample_threshold : threshold_service sample_rules sample_criteria sample_run 8 (λ v, Z.min v 12).
Proof.
  intros i v _. eexists _, _. split; [done|]. split; [done|]. split; [|done].
  unfold check_slo. simpl. unfold rule_validate. simpl. rewrite andb_true_r. f_equal.
  unfold mean, qsum. simpl.
  apply eq_bool_prop_intro. rewrite !Is_true_true, Qle_bool_iff, Z.leb_le.
  unfold Qle, Qdiv, Qmult, Qplus, Qinv, inject_Z. simpl. lia.
Qed.

Lemma sample_saturates : saturates (λ v, Z.min v 12).
Proof. split; intros; simpl in *; lia. Qed.

Lemma search_finds_threshold_witness :
  (∃ n, ∀ fuel, (n ≤ fuel)%nat →
    ∃ r s, search_group sample_rules sample_criteria sample_run fuel 3 1 (Some 64) = Some (Ok (r, s)) ∧
    match best s with Some (pk, limit, _) => pk = 8 ∧ limit = 8 | None => False end) ∧
  ∃ r s, search_group sample_rules sample_criteria sample_run 20 3 1 (Some 64) = Some (Ok (r, s)) ∧
    best_limit (summarize (r, s)) = Some 8.
Proof.
  split.
  - destruct (search_finds_threshold sample_rules sample_criteria sample_run 8 (λ v, Z.min v 12)
      sample_threshold sample_saturates 3 1 (Some 64)) as [n Hn]; [lia|unfold in_bounds; lia|].
    exists n. intros fuel Hf. destruct (Hn fuel Hf) as (r & s & E & Hb). exists r, s. split; [exact E|].
    destruct (best s) as [[[pk limit] i]|]; [|lia]. unfold largest in Hb. destruct Hb as (_ & _ & -> & Hl).
    split; [reflexivity|]. apply Hl. intros v Hv. lia.
  - eexists _, _. split; vm_compute; reflexivity.
Defined.

Lemma search_reports_best_witness :
  ∃ r s, search_group sample_rules sample_criteria sample_run 20 3 1 None = Some (Ok (r, s)) ∧
    (∀ p, p ∈ probes s → in_bounds 1 None (p_limit p)) ∧ best_limit (summarize (r, s)) = Some 8.
Proof.
  destruct (search_group sample_rules sample_criteria sample_run 20 3 1 None) as [[[r s]|]|] eqn:E;
    [|exfalso; vm_compute in E; discriminate..].
  exists r, s. split; [done|]. split.
  - apply (search_reports_best sample_rules sample_criteria sample_run 20 3 1 None r s);
      [lia|unfold in_bounds; lia|exact E].
  - vm_compute in E. by injection E as <- <-.
Defined.

(** A service that never serves more than 5 requests at once. *)
Definition capped_run (i : nat) (v : Z) : outcome (list metrics) :=
  Ok [Metrics false 1 (Z.min v 5) [("ttft", [("p95", Some 1%Q)])] None None None].

Lemma search_terminates_witness :
  ∃ n, ∀ fuel, (n ≤ fuel)%nat →
    is_Some (search_group sample_rules sample_criteria capped_run fuel 1 1 None).
Proof.
  apply (search_terminates sample_rules sample_criteria capped_run 5); [|lia].
  intros i v ms [= <-] m Hm. apply list_elem_of_singleton in Hm as ->. simpl. lia.
Defined.
