(* ===== verification/Sweep.v ===== *)
(** * Parameter sweeps ([benchmarks/sweeps/core.py], [results/measurements/sweeps.py])

    Expansion of JSONL rows into points, names and directories, the sequential
    execution of the planned tasks with its status inventory, and the summary of
    repetitions.  Adapters, file reading and publication are parameters or left
    out; a point is the JSON dictionary the source builds. *)

From Stdlib Require Import Ascii.
From S2P Require Import Prelude Text.

Abbreviation point := (list (string * json))%type.

(** The axes an adapter accepts, with their converters. *)
Abbreviation axis_fields := (list (string * (json → outcome json)))%type.

(** [{**a, **b}] *)
Definition dupdate (a b : point) : point := foldl (λ m e, dset e.1 e.2 m) a b.

Definition BENCHMARK_NAME : string := "_benchmark_name".
Definition PARAMETER_GROUP : string := "_parameter_group".

(** ** Names *)

Section Names.
(** [str()] of floats, lists and dictionaries. *)
Variable show : json → string.

(** [str(value)] *)
Definition str_of (j : json) : string :=
  match j with
  | JNull => "None"
  | JBool true => "True"
  | JBool false => "False"
  | JInt z => str_Z z
  | JStr s => s
  | j => show j
  end.

Definition is_object (j : json) : bool := match j with JObj _ => true | _ => false end.

(** [_axis_label] *)
Definition axis_label (value : json) : string :=
  match value with
  | JObj m => match dget "name" m with Some n => str_of n | None => str_of value end
  | JArr l =>
      if forallb is_object l then
        join "-" ((λ g, match g with
                        | JObj m => join "+" ((λ e, e.1 +:+ str_of e.2) <$> m)
                        | _ => ""
                        end) <$> l)
      else str_of value
  | _ => str_of value
  end.

(** [sweep_point_name] *)
Definition sweep_point_name (p : point) : string :=
  match dget BENCHMARK_NAME p with
  | Some n => str_of n
  | None =>
      let name := join "-" ((λ e, e.1 +:+ "=" +:+ axis_label e.2) <$>
                    keep (λ e, negb (mem e.1 [BENCHMARK_NAME; PARAMETER_GROUP])) p) in
      if nonempty name then name else "default"
  end.

(** [s.replace("/", "_")] *)
Fixpoint replace_slash (s : string) : string :=
  match s with
  | EmptyString => EmptyString
  | String c s => String (if Ascii.eqb c "/" then "_" else c)%char (replace_slash s)
  end.
(** [s.replace("..", "__")], left to right without overlap *)
Fixpoint replace_dots (s : string) : string :=
  match s with
  | EmptyString => EmptyString
  | String c s' =>
      match s' with
      | String c' s'' =>
          if Ascii.eqb c "." && Ascii.eqb c' "." then String "_" (String "_" (replace_dots s''))
          else String c (replace_dots s')
      | EmptyString => String c EmptyString
      end
  end.
Definition is_quote (c : ascii) : bool :=
  Ascii.eqb c "'" || Ascii.eqb c "034".
(** [s.strip] of single and double quotes *)
Fixpoint lstrip_quotes (s : string) : string :=
  match s with
  | String c s' => if is_quote c then lstrip_quotes s' else s
  | EmptyString => EmptyString
  end.
Fixpoint rstrip_quotes (s : string) : string :=
  match s with
  | EmptyString => EmptyString
  | String c s' =>
      match rstrip_quotes s' with
      | EmptyString => if is_quote c then EmptyString else String c EmptyString
      | t => String c t
      end
  end.

(** [sweep_directory_name] *)
Definition sweep_directory_name (name : string) : string :=
  rstrip_quotes (lstrip_quotes (replace_dots (replace_slash name))).

(** ** Expansion *)

(** [itertools.product], the last axis fastest *)
Fixpoint product {A} (axes : list (list A)) : list (list A) :=
  match axes with
  | [] => [[]]
  | axis :: axes => v ← axis; rest ← product axes; [v :: rest]
  end.

(** [value if isinstance(value, list) else [value]] *)
Definition axis_values (value : json) : list json :=
  match value with JArr l => l | v => [v] end.

(** The axes of a record with their converted values. *)
Definition active_axes (fields : axis_fields) (record : point) : outcome (list (string * list json)) :=
  found ← outcome_map (λ f,
    match dget f.1 record with
    | None => Ok []
    | Some value =>
        match axis_values value with
        | [] => Raise (ValueError "Sweep axis cannot be empty")
        | values =>
            match outcome_map f.2 values with
            | Ok vs => Ok [(f.1, vs)]
            | Raise (ValueError m) => Raise (ValueError ("Invalid sweep axis: " +:+ m))
            | Raise e => Raise e
            end
        end
    end) fields;
  Ok (concat found).

(** The fields of a record that are not axes. *)
Definition rest_fields (fields : axis_fields) (record : point) : point :=
  keep (λ e, negb (mem e.1 (fields.*1)) && negb (mem e.1 [BENCHMARK_NAME; PARAMETER_GROUP])) record.

(** [record.get("_benchmark_name")] when it is not [None] *)
Definition base_name (record : point) : option json :=
  match dget BENCHMARK_NAME record with Some JNull | None => None | Some j => Some j end.

Definition expanded_point (rest : point) (base : option json) (group : string)
    (axes : list string) (values : list json) : point :=
  let p := dset PARAMETER_GROUP (JStr group) (dupdate rest (zip axes values)) in
  match base with
  | None => p
  | Some b =>
      let suffix := join "-" ((λ k, k +:+ "=" +:+ axis_label (default JNull (dget k p))) <$> axes) in
      dset BENCHMARK_NAME
        (JStr (if nonempty suffix then str_of b +:+ "-" +:+ suffix else str_of b)) p
  end.

(** [expand_sweep_point] *)
Definition expand_sweep_point (fields : axis_fields) (record : point) : outcome (list point) :=
  axes ← active_axes fields record;
  let rest := rest_fields fields record in
  let base := base_name record in
  let group := match base with Some b => str_of b | None => sweep_point_name rest end in
  Ok (expanded_point rest base group axes.*1 <$> product axes.*2).

(** [load_sweep_points] over the rows of the file, with their line numbers. *)
Definition load_sweep_points (path : string) (rows : list (Z * json)) (fields : axis_fields)
    (validate_record : point → Z → outcome unit) : outcome (list point) :=
  reject (negb (nonempty path)) "Parameter sweep requires --sweep PATH" ;;
  expanded ← outcome_map (λ row : Z * json,
    match row.2 with
    | JObj record =>
        match (validate_record record row.1 ;; expand_sweep_point fields record) with
        | Raise (ValueError m) => Raise (ValueError ("Invalid sweep at " +:+ path +:+ ":" +:+ str_Z row.1 +:+ ": " +:+ m))
        | r => r
        end
    | _ => Raise (TypeError "Each sweep JSONL line must be an object")
    end) rows;
  let points := concat expanded in
  let names := (λ p, sweep_directory_name (sweep_point_name p)) <$> points in
  reject (negb (bool_decide (NoDup names))) "Duplicate sweep output directories" ;;
  reject (bool_decide (length points = 0%nat)) "Parameter sweep contains no combinations" ;;
  Ok points.

(** ** Execution *)

(** The planned tasks: every combination, [num_runs] times. *)
Definition task (num_runs : Z) (name : string) (combination : point) (run_number : Z) : point :=
  [("combination", JStr name);
   ("parameter_group", JStr (str_of (default JNull (dget PARAMETER_GROUP combination))));
   ("run_number", JInt run_number);
   ("bench", JObj combination);
   ("label", JStr (if 1 <? num_runs then name +:+ "-run" +:+ str_Z run_number else name));
   ("status", JStr "pending"); ("exit_code", JNull)].
Definition all_points (num_runs : Z) (combinations : list point) : list point :=
  e ← imap (λ i p, ("point-" +:+ str_Z (Z.of_nat i + 1), p)) combinations;
  n ← seqZ 0 num_runs;
  [task num_runs e.1 e.2 n].
End Names.

(** How one task ends. *)
Inductive task_result :=
  | TaskDone (exit_code : Z) (metrics : point) (result : string)
  | TaskRaised (interrupt : bool) (error_type : string).

Definition set_status (s : string) (code : json) (p : point) : point :=
  dset "status" (JStr s) (dset "exit_code" code p).
Definition status (p : point) : option json := dget "status" p.
Definition reused (p : point) : bool :=
  match dget "reused" p with Some j => truthy j | None => false end.

(** A saved measurement is imported before anything runs. *)
Definition import_saved (saved : option (Z * point * string)) (p : point) : point :=
  match saved with
  | None => p
  | Some (code, metrics, source) =>
      dset "result" (JStr source)
        (dset "reused" (JBool true)
           (set_status (if code =? 0 then "completed" else "failed") (JInt code) (dupdate p metrics)))
  end.

(** The task after it ran. *)
Definition finish_task (r : task_result) (p : point) : point :=
  match r with
  | TaskDone code metrics source =>
      dset "result" (JStr source)
        (set_status (if code =? 0 then "completed" else "failed") (JInt code)
           (dupdate (set_status "running" JNull p) metrics))
  | TaskRaised interrupt kind =>
      dset "error_type" (JStr kind)
        (set_status (if interrupt then "interrupted" else "failed")
           (JInt (if interrupt then 130 else 1)) (set_status "running" JNull p))
  end.

(** The sequential loop: the inventory when it ends, and the exception that ended
    it.  [execute] is [run_task] of the [i]-th planned task. *)
Fixpoint run_points (execute : nat → task_result) (i : nat) (todo : list point)
    : list point * option string :=
  match todo with
  | [] => ([], None)
  | p :: rest =>
      if reused p then
        let '(ps, raised) := run_points execute (S i) rest in (p :: ps, raised)
      else
        match execute i with
        | TaskDone code metrics source =>
            let '(ps, raised) := run_points execute (S i) rest in
            (finish_task (TaskDone code metrics source) p :: ps, raised)
        | TaskRaised interrupt kind =>
            (finish_task (TaskRaised interrupt kind) p :: rest, Some kind)
        end
  end.

(** [Counter(point["status"] ...)] *)
Definition has_status (s : string) (p : point) : bool :=
  match status p with Some (JStr t) => eqb t s | _ => false end.
Definition count_status (s : string) (points : list point) : nat :=
  length (keep (has_status s) points).

(** The status of the sweep in a checkpoint. *)
Definition sweep_status (finished : bool) (points : list point) : string :=
  if negb finished then "running"
  else if bool_decide (count_status "completed" points = length points) then "completed"
  else if bool_decide (count_status "completed" points = 0%nat) then "failed" else "partial".

(** [int(value)] of a recorded count *)
Definition int_of (j : json) : outcome Z :=
  match j with
  | JInt z => Ok z
  | JBool b => Ok (if b then 1 else 0)
  | JFloat (Fin q) => Ok (Z.quot (Qnum q) (Zpos (Qden q)))
  | JStr s => match py_int s with Some z => Ok z | None => Raise (ValueError s) end
  | _ => Raise (TypeError "int() argument must be a string or a number")
  end.

(** The totals of a checkpoint. *)
Definition total (key : string) (points : list point) : outcome Z :=
  outcome_fold (λ acc p, n ← int_of (default (JInt 0) (dget key p)); Ok (acc + n)) 0 points.
Definition checkpoint (finished : bool) (points : list point) : outcome (list Z * string * list nat) :=
  totals ← outcome_map (λ k, total k points) ["request_num"; "success_num"; "failed_num"];
  Ok (totals, sweep_status finished points,
      (λ s, count_status s points) <$> ["completed"; "failed"; "interrupted"; "running"; "pending"]).

(** The exit code of a sweep that was not interrupted. *)
Definition sweep_exit_code (points : list point) : Z :=
  if eqb (sweep_status true points) "completed" then 0 else 1.

(** ** Summaries of repetitions *)

(** [prefix.rstrip("_")] *)
Fixpoint rstrip_underscore (s : string) : string :=
  match s with
  | EmptyString => EmptyString
  | String c s' =>
      match rstrip_underscore s' with
      | EmptyString => if Ascii.eqb c "_" then EmptyString else String c EmptyString
      | t => String c t
      end
  end.

(** A measured number: finite, or missing. *)
Definition measured (j : json) : option Q :=
  match j with
  | JInt z => Some (inject_Z z)
  | JFloat (Fin q) => Some q
  | _ => None
  end.

Definition skipped_keys : list string :=
  ["combination"; "parameter_group"; "bench"; "label"; "run_number"; "exit_code"].

Definition child_prefix (prefix key : string) : string :=
  if mem prefix ["latency_"; "ttft_"; "tpot_"; "itl_"] && mem key ["mean"; "p50"; "p95"; "p99"]
  then prefix +:+ key +:+ "_seconds_"
  else if eqb prefix "throughput_" then key +:+ "_"
  else prefix +:+ key +:+ "_".

(** [_scalar_metrics] *)
Fixpoint scalar_metrics (value : json) (prefix : string) : list (string * option Q) :=
  match value with
  | JBool _ => []
  | JNull | JInt _ | JFloat _ =>
      if nonempty prefix then [(rstrip_underscore prefix, measured value)] else []
  | JObj m =>
      (fix go (m : list (string * json)) (result : list (string * option Q)) :=
         match m with
         | [] => result
         | (key, child) :: m =>
             if mem key skipped_keys then go m result
             else go m (foldl (λ r e, dset e.1 e.2 r) result
                          (scalar_metrics child (child_prefix prefix key)))
         end) m []
  | _ => []
  end.

Definition qle (x y : Q) : bool := Qle_bool x y.
Fixpoint qinsert (x : Q) (l : list Q) : list Q :=
  match l with
  | [] => [x]
  | y :: l' => if qle x y then x :: l else y :: qinsert x l'
  end.
Definition qsort (l : list Q) : list Q := foldr qinsert [] l.

(** [statistics.mean], [median], [min], [max]; [stdev] is given by its square,
    the sample variance. *)
Definition qsum (l : list Q) : Q := foldr Qplus 0%Q l.
Definition qlen (l : list Q) : Q := inject_Z (Z.of_nat (length l)).
Definition mean (l : list Q) : Q := (qsum l / qlen l)%Q.
Definition median (l : list Q) : Q :=
  let s := qsort l in
  let n := length l in
  let at_ i := default 0%Q (s !! i) in
  if Nat.odd n then at_ (n / 2)%nat
  else ((at_ (n / 2 - 1)%nat + at_ (n / 2)%nat) / 2)%Q.
Definition qmin (x : Q) (l : list Q) : Q := foldl (λ m y, if qle m y then m else y) x l.
Definition qmax (x : Q) (l : list Q) : Q := foldl (λ m y, if qle y m then m else y) x l.
Definition variance (l : list Q) : Q :=
  (qsum ((λ x, (x - mean l) * (x - mean l)) <$> l) / (qlen l - 1))%Q.

(** One row of the summary. *)
Record summary_row := SummaryRow {
  r_combination : string;
  r_parameter_group : option json;
  r_method : string;
  r_bench : option json;
  r_runs : nat;
  r_requested_runs : Z;
  r_failed_runs : nat;
  r_metric : string;
  r_samples : nat;
  r_mean : option Q;
  r_median : option Q;
  r_variance : option Q;
  r_min : option Q;
  r_max : option Q;
}.

(** [point.get("bench", {}).get("service", {}).get("name", "")] *)
Definition method_of (show : json → string) (p : point) : outcome string :=
  let get (k : string) (j : json) : outcome json :=
    match j with
    | JObj m => Ok (default (JObj []) (dget k m))
    | _ => Raise (TypeError "get")
    end in
  bench ← get "bench" (JObj p);
  service ← get "service" bench;
  match service with
  | JObj m => Ok (str_of show (default (JStr "") (dget "name" m)))
  | _ => Raise (TypeError "get")
  end.

(** [groups[key].append(point)] *)
Fixpoint group_add {K V} `{EqDecision K} (k : K) (v : V) (g : list (K * list V)) : list (K * list V) :=
  match g with
  | [] => [(k, [v])]
  | (k', l) :: g => if eqb k' k then (k', l ++ [v]) :: g else (k', l) :: group_add k v g
  end.

Definition group_points (show : json → string) (points : list point)
    : outcome (list (string * string * list point)) :=
  outcome_fold (λ g p,
    m ← method_of show p;
    match dget "combination" p with
    | None => Raise (KeyError "combination")
    | Some c => Ok (group_add (m, str_of show c) p g)
    end) [] points.

(** The samples of a group, by metric, in order of first appearance. *)
Definition add_sample (s : list (string * list Q)) (e : string * option Q) : list (string * list Q) :=
  match e.2 with
  | Some q => group_add e.1 q s
  | None => if dmem e.1 s then s else s ++ [(e.1, [])]
  end.
Definition collect_samples (runs : list point) : list (string * list Q) :=
  foldl (λ s run, foldl add_sample s (scalar_metrics (JObj run) "")) [] runs.

(** [bool(run.get("exit_code")) or bool(run.get("failed_num", 0))] *)
Definition failed_run (p : point) : bool :=
  match dget "exit_code" p with Some j => truthy j | None => false end ||
  match dget "failed_num" p with Some j => truthy j | None => false end.

Definition statistics_row (identity : string → nat → option Q → option Q → option Q → option Q →
    option Q → summary_row) (metric : string) (values : list Q) : summary_row :=
  match values with
  | [] => identity metric 0%nat None None None None None
  | v :: vs => identity metric (length values) (Some (mean values)) (Some (median values))
                 (if Nat.ltb 1 (length values) then Some (variance values) else None)
                 (Some (qmin v vs)) (Some (qmax v vs))
  end.

(** [summarize_sweep] *)
Definition summarize_group (num_runs : option Z) (g : string * string * list point)
    : list summary_row :=
  let '(method, combination, runs) := g in
  let samples := collect_samples runs in
  let identity := SummaryRow combination (first ← head runs; dget "parameter_group" first) method
    (first ← head runs; dget "bench" first) (length (keep (λ r, negb (has_status "pending" r)) runs))
    (default (Z.of_nat (length runs)) num_runs) (length (keep failed_run runs)) in
  match samples with
  | [] => [identity "" 0%nat None None None None None]
  | _ => (λ e, statistics_row identity e.1 e.2) <$> samples
  end.
Definition summarize_sweep (show : json → string) (num_runs : option Z) (points : list point)
    : outcome (list summary_row) :=
  groups ← group_points show points;
  Ok (concat (summarize_group num_runs <$> groups)).
