(* ===== verification/SweepProofs.v ===== *)
(** * Properties of parameter sweeps *)

From Stdlib Require Import Ascii.
From S2P Require Import Prelude Text Sweep.

(** ** Directory names *)

(** [..] occurs in the text. *)
Fixpoint has_dots (s : string) : bool :=
  match s with
  | String c s' =>
      match s' with
      | String c' _ => (Ascii.eqb c "." && Ascii.eqb c' ".") || has_dots s'
      | EmptyString => false
      end
  | EmptyString => false
  end.

Lemma has_dots_step c s :
  has_dots (String c s) =
    match s with String c' _ => Ascii.eqb c "." && Ascii.eqb c' "." | EmptyString => false end
    || has_dots s.
Proof. by destruct s. Qed.

Lemma replace_dots_step c c' s :
  replace_dots (String c (String c' s)) =
    if Ascii.eqb c "." && Ascii.eqb c' "." then String "_" (String "_" (replace_dots s))
    else String c (replace_dots (String c' s)).
Proof. done. Qed.

Lemma replace_slash_no_slash s : has_char "/" (replace_slash s) = false.
Proof.
  induction s as [|c s IH]; [done|]. simpl. rewrite IH, orb_false_r.
  destruct (Ascii.eqb c "/") eqn:E; [done|]. simpl. exact E.
Qed.

(** The first character of the replacement is a dot only if the text began with
    a single one. *)
Lemma replace_dots_spec n s :
  (String.length s ≤ n)%nat →
  has_dots (replace_dots s) = false ∧
  (has_char "/" s = false → has_char "/" (replace_dots s) = false) ∧
  match replace_dots s with
  | String c _ => Ascii.eqb c "." = true → match s with String d _ => d = c | _ => False end
  | EmptyString => True
  end.
Proof.
  revert s. induction n as [|n IH]; intros s Hn.
  { destruct s; [done|simpl in Hn; lia]. }
  destruct s as [|c [|c' s]]; [done|done|].
  rewrite replace_dots_step. destruct (Ascii.eqb c "." && Ascii.eqb c' ".") eqn:E.
  - destruct (IH s) as (H1 & H2 & _); [simpl in Hn; lia|]. split_and!.
    + rewrite !has_dots_step, H1. by destruct (replace_dots s).
    + cbn [has_char]. rewrite !orb_false_iff. intros (_ & _ & Hs). split; [done|]. auto.
    + done.
  - destruct (IH (String c' s)) as (H1 & H2 & H3); [simpl in *; lia|]. split_and!.
    + rewrite has_dots_step, H1, orb_false_r. clear H1 H2.
      generalize dependent (replace_dots (String c' s)). intros [|d t] H3; [done|].
      destruct (Ascii.eqb d ".") eqn:Ed; [|by rewrite andb_false_r].
      rewrite (H3 eq_refl) in E. by rewrite Ed in E.
    + intros Hs. cbn [has_char] in Hs |- *. apply orb_false_iff in Hs as [-> Hs]. by apply H2.
    + done.
Qed.

Lemma lstrip_quotes_suffix (P : string → Prop) s :
  (∀ c t, P (String c t) → P t) → P s → P (lstrip_quotes s).
Proof. intros Hsub. induction s as [|c s IH]; simpl; [done|]. intros Hs. case_match; eauto. Qed.

Lemma rstrip_quotes_cases c s :
  rstrip_quotes (String c s) = EmptyString ∨ rstrip_quotes (String c s) = String c (rstrip_quotes s).
Proof.
  simpl. destruct (rstrip_quotes s) eqn:E; [case_match; auto|auto].
Qed.

Lemma rstrip_quotes_no_char d s : has_char d s = false → has_char d (rstrip_quotes s) = false.
Proof.
  induction s as [|c s IH]; [done|]. cbn [has_char]. intros [Hc Hs]%orb_false_iff.
  destruct (rstrip_quotes_cases c s) as [->| ->]; [done|]. cbn [has_char]. rewrite Hc. by apply IH.
Qed.

Lemma has_dots_cons c s : has_dots (String c s) = false → has_dots s = false.
Proof. rewrite has_dots_step. by intros [_ ?]%orb_false_iff. Qed.

Lemma rstrip_quotes_no_dots s : has_dots s = false → has_dots (rstrip_quotes s) = false.
Proof.
  induction s as [|c s IH]; [done|]. intros Hs.
  destruct (rstrip_quotes_cases c s) as [->| ->]; [done|].
  pose proof (IH (has_dots_cons _ _ Hs)) as Hr.
  destruct s as [|c' s]; [done|].
  destruct (rstrip_quotes_cases c' s) as [E|E]; rewrite E in *; [done|].
  rewrite has_dots_step in Hs |- *. apply orb_false_iff in Hs as [Hs _]. by rewrite Hs, Hr.
Qed.

(** A directory name stays inside its parent directory. *)
Definition safe_name (s : string) : Prop := has_char "/" s = false ∧ has_dots s = false.

Lemma sweep_directory_name_safe name : safe_name (sweep_directory_name name).
Proof.
  unfold sweep_directory_name.
  destruct (replace_dots_spec _ (replace_slash name) (Nat.le_refl _)) as (Hd & Hs & _).
  specialize (Hs (replace_slash_no_slash name)). split.
  - apply rstrip_quotes_no_char.
    apply (lstrip_quotes_suffix (λ t, has_char "/" t = false)); [|done].
    intros c t. cbn [has_char]. by intros [_ ?]%orb_false_iff.
  - apply rstrip_quotes_no_dots.
    apply (lstrip_quotes_suffix (λ t, has_dots t = false)); [|done]. apply has_dots_cons.
Qed.

(** The points of a loaded sweep have pairwise different output directories,
    none of which leaves its parent (no slash, no double dot), and there is at
    least one point. *)
Theorem load_sweep_points_directories show path rows fields check points :
  load_sweep_points show path rows fields check = Ok points →
  points ≠ [] ∧
  NoDup ((λ p, sweep_directory_name (sweep_point_name show p)) <$> points) ∧
  ∀ p, p ∈ points → safe_name (sweep_directory_name (sweep_point_name show p)).
Proof.
  unfold load_sweep_points. intros [_ E]%reject_bind_Ok.
  apply outcome_bind_Ok in E as (ex & _ & E). apply reject_bind_Ok in E as [Hd E].
  apply reject_bind_Ok in E as [Hn E]. injection E as <-.
  apply negb_false_iff, bool_decide_eq_true in Hd. apply bool_decide_eq_false in Hn.
  split_and!; [|done|]; [intros Hnil; by rewrite Hnil in Hn|]. intros p _. apply sweep_directory_name_safe.
Qed.

(** ** Expansion *)

Lemma length_pairs {A} (axis : list A) (rests : list (list A)) :
  length (v ← axis; rest ← rests; [v :: rest]) = (length axis * length rests)%nat.
Proof.
  induction axis as [|v axis IH]; [done|]. rewrite bind_cons, length_app, IH. simpl. f_equal.
  clear. induction rests as [|r rests IH]; [done|]. rewrite bind_cons. simpl. by f_equal.
Qed.

Lemma length_product {A} (axes : list (list A)) :
  length (product axes) = foldr Nat.mul 1%nat (map length axes).
Proof.
  induction axes as [|axis axes IH]; [done|].
  change (length (v ← axis; rest ← product axes; [v :: rest]) =
          (length axis * foldr Nat.mul 1 (map length axes))%nat). by rewrite length_pairs, IH.
Qed.

Lemma elem_of_product {A} (axes : list (list A)) choice :
  choice ∈ product axes ↔ Forall2 (λ v axis, v ∈ axis) choice axes.
Proof.
  revert choice. induction axes as [|axis axes IH]; intros choice; simpl.
  - rewrite list_elem_of_singleton. split; [intros ->; constructor|by inversion 1].
  - rewrite list_elem_of_bind. split.
    + intros (v & Hc & Hv). apply list_elem_of_bind in Hc as (rest & Hc & Hr).
      apply list_elem_of_singleton in Hc as ->. constructor; [done|]. by apply IH.
    + inversion 1 as [|v ? rest ? Hv Hrest]; subst. exists v. split; [|done].
      apply list_elem_of_bind. exists rest. split; [by left|]. by apply IH.
Qed.

Lemma dget_dupdate k (b a : point) :
  NoDup b.*1 → dget k (dupdate a b) = match dget k b with Some v => Some v | None => dget k a end.
Proof.
  unfold dupdate. revert a. induction b as [|[k' v'] b IH]; intros a Hnd; [done|].
  simpl in Hnd. apply NoDup_cons in Hnd as [Hk Hnd]. simpl. rewrite IH by done. rewrite dget_dset.
  destruct (eqb k' k) eqn:E; [|done]. rewrite eqb_true in E. subst.
  by rewrite (proj2 (dget_None k b)).
Qed.

Lemma NoDup_zip_keys (axes : list string) (values : list json) :
  NoDup axes → NoDup (zip axes values).*1.
Proof.
  intros Hnd. revert values. induction Hnd as [|x l Hx Hnd IH]; intros [|w values]; try constructor.
  - intros ((a & b) & Hab & Hin)%list_elem_of_fmap. simpl in Hab. subst.
    by apply elem_of_zip_l in Hin.
  - apply IH.
Qed.

Lemma dget_zip k v (axes : list string) (values : list json) i :
  NoDup axes → axes !! i = Some k → values !! i = Some v → dget k (zip axes values) = Some v.
Proof.
  intros Hnd Hk Hv. apply elem_dget; [by apply NoDup_zip_keys|].
  apply list_elem_of_lookup. exists i. by rewrite lookup_zip_with, Hk, Hv.
Qed.

Lemma dget_zip_None k (axes : list string) (values : list json) :
  k ∉ axes → dget k (zip axes values) = None.
Proof.
  intros Hk. apply dget_None. intros ((a & b) & -> & Hin)%list_elem_of_fmap.
  by apply elem_of_zip_l in Hin.
Qed.

(** Naming a point does not touch its other fields. *)
Lemma expanded_point_field show rest base group axes values k :
  k ≠ BENCHMARK_NAME → k ≠ PARAMETER_GROUP →
  dget k (expanded_point show rest base group axes values) = dget k (dupdate rest (zip axes values)).
Proof.
  intros Hb Hg. unfold expanded_point. destruct base; rewrite ?dget_dset;
    rewrite ?(proj2 (eqb_false BENCHMARK_NAME k)), ?(proj2 (eqb_false PARAMETER_GROUP k)) by done; done.
Qed.

(** The axes of a record are among the axis fields, once each. *)
Lemma active_axes_names (fields : axis_fields) (record : point) axes :
  NoDup fields.*1 → active_axes fields record = Ok axes → NoDup axes.*1 ∧ axes.*1 ⊆ fields.*1.
Proof.
  intros Hnd. unfold active_axes. intros (found & Hf & [= <-])%outcome_bind_Ok.
  apply outcome_map_Ok in Hf. revert Hnd.
  induction Hf as [|f l fs ls Hl Hls IH]; intros Hnd; [split; [constructor|set_solver]|].
  simpl in Hnd. apply NoDup_cons in Hnd as [Hk Hnd]. destruct (IH Hnd) as [IH1 IH2].
  assert (l = [] ∨ ∃ vs, l = [(f.1, vs)]) as [->|[vs ->]].
  { destruct (dget f.1 record) as [j|]; [|left; congruence].
    destruct (axis_values j); [done|]. destruct (outcome_map _ _) as [vs|[]]; try done.
    right. exists vs. congruence. }
  - simpl. split; [done|set_solver].
  - simpl. split; [|set_solver]. constructor; [set_solver|done].
Qed.

(** Expanding a record enumerates its axes completely: there is one point
    per combination of axis values, and for every choice of one value per axis
    there is a point that carries exactly these values and every other field of
    the record. *)
Theorem expand_sweep_point_complete show fields record points :
  NoDup fields.*1 → NoDup record.*1 →
  BENCHMARK_NAME ∉ fields.*1 → PARAMETER_GROUP ∉ fields.*1 →
  expand_sweep_point show fields record = Ok points →
  ∃ axes, active_axes fields record = Ok axes ∧
    length points = foldr Nat.mul 1%nat (map length axes.*2) ∧
    ∀ choice, Forall2 (λ v axis, v ∈ axis) choice axes.*2 →
    ∃ p, p ∈ points ∧
      (∀ i k v, axes.*1 !! i = Some k → choice !! i = Some v → dget k p = Some v) ∧
      (∀ k v, (k, v) ∈ rest_fields fields record → dget k p = Some v).
Proof.
  intros Hnf Hnr Hb Hg. unfold expand_sweep_point. intros (axes & Hax & [= <-])%outcome_bind_Ok.
  destruct (active_axes_names _ _ _ Hnf Hax) as [Hnd Hsub].
  exists axes. split; [done|]. split; [by rewrite length_fmap, length_product|].
  intros choice Hchoice. eexists. split.
  { apply list_elem_of_fmap. exists choice. split; [done|]. by apply elem_of_product. }
  assert (NoDup (zip axes.*1 choice).*1) as Hz by (by apply NoDup_zip_keys). split.
  - intros i k v Hk Hv. pose proof (list_elem_of_lookup_2 _ _ _ Hk) as Hin. apply Hsub in Hin.
    rewrite expanded_point_field by (intros ->; done). rewrite dget_dupdate by done.
    by rewrite (dget_zip k v axes.*1 choice i).
  - intros k v Hkv. unfold rest_fields in Hkv. pose proof Hkv as Hkv'.
    rewrite elem_of_keep in Hkv. simpl in Hkv. reflect_in Hkv.
    destruct Hkv as [[Hk1 Hk2] Hkv].
    rewrite expanded_point_field by (intros ->; apply Hk2; set_solver).
    rewrite dget_dupdate by done. rewrite dget_zip_None by set_solver.
    apply elem_dget; [|done]. by apply NoDup_dict_keep.
Qed.

(** ** Execution *)

Lemma has_status_dset_other k j s p : k ≠ "status" → has_status s (dset k j p) = has_status s p.
Proof.
  intros Hk. unfold has_status, status. rewrite dget_dset. by rewrite (proj2 (eqb_false k "status")).
Qed.

Lemma has_status_set s t code p : has_status s (set_status t code p) = eqb t s.
Proof. unfold has_status, status, set_status. by rewrite dget_dset. Qed.

Lemma finish_task_status code metrics source p :
  has_status "completed" (finish_task (TaskDone code metrics source) p) = (code =? 0).
Proof.
  simpl. rewrite has_status_dset_other by done. rewrite has_status_set. by destruct (code =? 0).
Qed.

(** The [i]-th planned task went from [p] to [p']: an imported task is left
    alone, any other was executed to its end. *)
Definition ran (execute : nat → task_result) (i : nat) (p p' : point) : Prop :=
  if reused p then p' = p
  else ∃ code metrics source, execute i = TaskDone code metrics source ∧
         p' = finish_task (TaskDone code metrics source) p.

Lemma run_points_spec execute i0 pts ps raised :
  run_points execute i0 pts = (ps, raised) →
  match raised with
  | None => length ps = length pts ∧
      ∀ i p p', pts !! i = Some p → ps !! i = Some p' → ran execute (i0 + i) p p'
  | Some kind => ∃ j p b, pts !! j = Some p ∧ reused p = false ∧
      execute (i0 + j)%nat = TaskRaised b kind ∧
      ps !! j = Some (finish_task (TaskRaised b kind) p) ∧
      (∀ i p p', (i < j)%nat → pts !! i = Some p → ps !! i = Some p' → ran execute (i0 + i) p p') ∧
      (∀ i, (j < i)%nat → ps !! i = pts !! i)
  end.
Proof.
  revert i0 ps raised. induction pts as [|p pts IH]; intros i0 ps raised.
  { intros [= <- <-]. split; [done|]. intros i p p' Hi. by rewrite lookup_nil in Hi. }
  cbn [run_points].
  assert (∀ p' ps' raised', (∃ q, run_points execute (S i0) pts = (q, raised') ∧ ps' = p' :: q) →
    ran execute i0 p p' →
    match raised' with
    | None => length ps' = length (p :: pts) ∧
        ∀ i x x', (p :: pts) !! i = Some x → ps' !! i = Some x' → ran execute (i0 + i) x x'
    | Some kind => ∃ j x b, (p :: pts) !! j = Some x ∧ reused x = false ∧
        execute (i0 + j)%nat = TaskRaised b kind ∧
        ps' !! j = Some (finish_task (TaskRaised b kind) x) ∧
        (∀ i x x', (i < j)%nat → (p :: pts) !! i = Some x → ps' !! i = Some x' →
           ran execute (i0 + i) x x') ∧
        (∀ i, (j < i)%nat → ps' !! i = (p :: pts) !! i)
    end) as Hcons.
  { intros p' ps' raised' (q & Hq & ->) Hran. specialize (IH (S i0) q raised' Hq).
    destruct raised' as [kind|].
    - destruct IH as (j & x & b & Hx & Hr & He & Hps & Hbefore & Hafter).
      exists (S j), x, b. rewrite Nat.add_succ_r. split_and!; try done.
      + intros [|i] y y' Hi Hy Hy'; simplify_eq/=; [by rewrite Nat.add_0_r|].
        rewrite Nat.add_succ_r. apply (Hbefore i y y'); [lia|done|done].
      + intros [|i] Hi; [lia|]. apply Hafter. lia.
    - destruct IH as [Hlen Hall]. split; [simpl; congruence|].
      intros [|i] y y' Hy Hy'; simplify_eq/=; [by rewrite Nat.add_0_r|].
      rewrite Nat.add_succ_r. by apply (Hall i y y'). }
  destruct (reused p) eqn:Er.
  - destruct (run_points execute (S i0) pts) as [q r] eqn:E. intros [= <- <-].
    apply (Hcons p); [by exists q|]. unfold ran. by rewrite Er.
  - destruct (execute i0) as [code metrics source|b kind] eqn:Ex.
    + destruct (run_points execute (S i0) pts) as [q r] eqn:E. intros [= <- <-].
      eapply Hcons; [by exists q|]. unfold ran. rewrite Er. eauto.
    + intros [= <- <-]. exists 0%nat, p, b. rewrite Nat.add_0_r. split_and!; try done.
      * intros i y y' Hi. lia.
      * intros [|i] Hi; [lia|done].
Qed.

Lemma count_status_all s points :
  count_status s points = length points ↔ ∀ p, p ∈ points → has_status s p = true.
Proof.
  unfold count_status. induction points as [|p points IH]; [split; [set_solver|done]|].
  rewrite keep_cons. assert (length (keep (has_status s) points) ≤ length points)%nat as Hle.
  { apply length_filter. }
  destruct (has_status s p) eqn:E; simpl.
  - rewrite (inj_iff S), IH. split; [|set_solver]. intros H q [->|]%elem_of_cons; auto.
  - split; [lia|]. intros H. rewrite H in E; [done|left].
Qed.

(** C31: a sweep runs its tasks in order and keeps what it recorded: every
    imported task is left as it was, every task before a failure keeps its own
    result, the failing task is marked failed or interrupted, and the tasks
    after it are untouched.  A sweep that was not interrupted exits with 0
    exactly when every imported task had completed and every executed task
    returned 0. *)
Theorem sweep_records_survive execute pts ps raised :
  run_points execute 0 pts = (ps, raised) →
  match raised with
  | None => length ps = length pts ∧
      (∀ i p p', pts !! i = Some p → ps !! i = Some p' → ran execute i p p') ∧
      (sweep_exit_code ps = 0 ↔ ∀ i p, pts !! i = Some p →
         if reused p then has_status "completed" p = true
         else ∃ metrics source, execute i = TaskDone 0 metrics source)
  | Some kind => ∃ j p b, pts !! j = Some p ∧ reused p = false ∧ execute j = TaskRaised b kind ∧
      ps !! j = Some (finish_task (TaskRaised b kind) p) ∧
      has_status (if b then "interrupted" else "failed") (finish_task (TaskRaised b kind) p) = true ∧
      (∀ i p p', (i < j)%nat → pts !! i = Some p → ps !! i = Some p' → ran execute i p p') ∧
      (∀ i, (j < i)%nat → ps !! i = pts !! i)
  end.
Proof.
  intros E. apply run_points_spec in E. destruct raised as [kind|].
  - destruct E as (j & p & b & Hp & Hr & He & Hps & Hb & Ha). exists j, p, b. split_and!; try done.
    simpl. rewrite has_status_dset_other by done. rewrite has_status_set. by destruct b.
  - destruct E as [Hlen Hall]. split_and!; [done|done|].
    assert (sweep_exit_code ps = 0 ↔ ∀ p, p ∈ ps → has_status "completed" p = true) as ->.
    { rewrite <-count_status_all. unfold sweep_exit_code, sweep_status. simpl.
      repeat case_bool_decide; split; try done; by intros ?. }
    split.
    + intros Hc i p Hp. destruct (lookup_lt_is_Some_2 ps i) as [p' Hp'].
      { rewrite Hlen. by eapply lookup_lt_Some. }
      specialize (Hc p' (list_elem_of_lookup_2 _ _ _ Hp')). specialize (Hall i p p' Hp Hp').
      unfold ran in Hall. change (0 + i)%nat with i in Hall. destruct (reused p); [by subst|].
      destruct Hall as (code & metrics & source & He & ->). rewrite finish_task_status in Hc.
      apply Z.eqb_eq in Hc as ->. eauto.
    + intros Hc p' [i Hp']%list_elem_of_lookup. destruct (lookup_lt_is_Some_2 pts i) as [p Hp].
      { rewrite <-Hlen. by eapply lookup_lt_Some. }
      specialize (Hc i p Hp). specialize (Hall i p p' Hp Hp'). unfold ran in Hall. change (0 + i)%nat with i in Hall.
      destruct (reused p); [by subst|]. destruct Hc as (metrics & source & He).
      destruct Hall as (code & metrics' & source' & He' & ->). rewrite finish_task_status.
      rewrite He in He'. by injection He' as <- _ _.
Qed.

(** ** Statistics *)

Definition within (lo hi x : Q) : Prop := (lo <= x)%Q ∧ (x <= hi)%Q.

Lemma qle_false x y : qle x y = false → (y <= x)%Q.
Proof.
  unfold qle. intros H. apply Qlt_le_weak, Qnot_le_lt. rewrite <-Qle_bool_iff. congruence.
Qed.

Lemma qmin_le l x y : y ∈ x :: l → (qmin x l <= y)%Q.
Proof.
  unfold qmin. revert x y. induction l as [|z l IH]; intros x y Hy; simpl.
  - apply list_elem_of_singleton in Hy as ->. apply Qle_refl.
  - destruct (qle x z) eqn:E.
    + assert (foldl (λ m y, if qle m y then m else y) x l <= x)%Q as Hx by (apply IH; left).
      apply Qle_bool_iff in E. apply elem_of_cons in Hy as [->|[->|Hy]%elem_of_cons]; [done| |].
      * by eapply Qle_trans.
      * apply IH. by right.
    + apply qle_false in E.
      assert (foldl (λ m y, if qle m y then m else y) z l <= z)%Q as Hz by (apply IH; left).
      apply elem_of_cons in Hy as [->|Hy]; [by eapply Qle_trans|by apply IH].
Qed.

Lemma qmax_ge l x y : y ∈ x :: l → (y <= qmax x l)%Q.
Proof.
  unfold qmax. revert x y. induction l as [|z l IH]; intros x y Hy; simpl.
  - apply list_elem_of_singleton in Hy as ->. apply Qle_refl.
  - destruct (qle z x) eqn:E.
    + assert (x <= foldl (λ m y, if qle y m then m else y) x l)%Q as Hx by (apply IH; left).
      apply Qle_bool_iff in E. apply elem_of_cons in Hy as [->|[->|Hy]%elem_of_cons]; [done| |].
      * by eapply Qle_trans.
      * apply IH. by right.
    + apply qle_false in E.
      assert (z <= foldl (λ m y, if qle y m then m else y) z l)%Q as Hz by (apply IH; left).
      apply elem_of_cons in Hy as [->|Hy]; [by eapply Qle_trans|by apply IH].
Qed.

Lemma qlen_cons x l : (qlen (x :: l) == qlen l + 1)%Q.
Proof.
  unfold qlen. simpl length. rewrite Nat2Z.inj_succ, <-Z.add_1_r, inject_Z_plus. reflexivity.
Qed.

Lemma qlen_pos x l : (0 < qlen (x :: l))%Q.
Proof. unfold qlen. simpl length. unfold Qlt. simpl. lia. Qed.

Lemma qsum_within lo hi l :
  (∀ x, x ∈ l → within lo hi x) → (lo * qlen l <= qsum l)%Q ∧ (qsum l <= hi * qlen l)%Q.
Proof.
  induction l as [|x l IH]; intros Hl.
  - unfold qlen. simpl. change (inject_Z 0) with 0%Q. rewrite !Qmult_0_r. split; apply Qle_refl.
  - destruct IH as [IH1 IH2]; [set_solver|]. destruct (Hl x) as [H1 H2]; [left|].
    simpl. rewrite qlen_cons, !Qmult_plus_distr_r, !Qmult_1_r. split.
    + rewrite (Qplus_comm x). by apply Qplus_le_compat.
    + rewrite (Qplus_comm x). by apply Qplus_le_compat.
Qed.

Lemma mean_within lo hi x l :
  (∀ y, y ∈ x :: l → within lo hi y) → within lo hi (mean (x :: l)).
Proof.
  intros Hl. destruct (qsum_within lo hi (x :: l) Hl) as [H1 H2].
  pose proof (qlen_pos x l) as Hpos. unfold mean. split.
  - by apply Qle_shift_div_l.
  - by apply Qle_shift_div_r.
Qed.

Lemma qinsert_perm x l : qinsert x l ≡ₚ x :: l.
Proof.
  induction l as [|y l IH]; simpl; [done|]. case_match; [done|].
  rewrite IH. apply Permutation_swap.
Qed.
Lemma qsort_perm l : qsort l ≡ₚ l.
Proof. induction l as [|x l IH]; simpl; [done|]. by rewrite qinsert_perm, IH. Qed.

(** The elements the median reads are samples. *)
Lemma qsort_at l i :
  (i < length l)%nat → ∃ x, qsort l !! i = Some x ∧ x ∈ l.
Proof.
  intros Hi. destruct (lookup_lt_is_Some_2 (qsort l) i) as [x Hx].
  { by rewrite (Permutation_length (qsort_perm l)). }
  exists x. split; [done|]. rewrite <-qsort_perm. by eapply list_elem_of_lookup_2.
Qed.

Lemma average_within lo hi x y : within lo hi x → within lo hi y → within lo hi ((x + y) / 2)%Q.
Proof. intros [? ?] [? ?]. split; [apply Qle_shift_div_l|apply Qle_shift_div_r]; lra. Qed.

Lemma median_within lo hi x l :
  (∀ y, y ∈ x :: l → within lo hi y) → within lo hi (median (x :: l)).
Proof.
  intros Hl. unfold median. pose proof (Nat.div_lt (length (x :: l)) 2 ltac:(simpl; lia) ltac:(lia)).
  destruct (qsort_at (x :: l) (length (x :: l) / 2)) as (b & -> & Hb); [done|].
  destruct (qsort_at (x :: l) (length (x :: l) / 2 - 1)) as (a & -> & Ha); [lia|].
  destruct (Nat.odd (length (x :: l))); [by apply Hl|]. apply average_within; by apply Hl.
Qed.

Lemma variance_nonneg l : (1 < length l)%nat → (0 <= variance l)%Q.
Proof.
  intros Hl. unfold variance. apply Qle_shift_div_l.
  - unfold qlen. change 1%Q with (inject_Z 1). unfold Qminus. rewrite <-inject_Z_opp, <-inject_Z_plus.
    unfold Qlt. simpl. lia.
  - rewrite Qmult_0_l. generalize (mean l). intros m. clear Hl.
    induction l as [|x l IH]; simpl; [apply Qle_refl|].
    assert (0 <= (x - m) * (x - m))%Q as Hsq.
    { unfold Qle. simpl. rewrite Z.mul_1_r. apply Z.square_nonneg. }
    exact (Qplus_le_compat _ _ _ _ Hsq IH).
Qed.

Definition row_ok (r : summary_row) : Prop :=
  match r_samples r with
  | O => r_mean r = None ∧ r_median r = None ∧ r_variance r = None ∧ r_min r = None ∧ r_max r = None
  | S k => ∃ lo me md hi, r_min r = Some lo ∧ r_mean r = Some me ∧ r_median r = Some md ∧
      r_max r = Some hi ∧ within lo hi me ∧ within lo hi md ∧
      match r_variance r with Some v => (0 <= v)%Q | None => k = 0%nat end
  end.

Lemma statistics_row_ok a b c d e f g metric values :
  row_ok (statistics_row (SummaryRow a b c d e f g) metric values).
Proof.
  destruct values as [|v vs]; [done|]. unfold row_ok. simpl r_samples. cbv iota.
  assert (∀ y, y ∈ v :: vs → within (qmin v vs) (qmax v vs) y) as Hw.
  { intros y Hy. split; [by apply qmin_le|by apply qmax_ge]. }
  eexists _, _, _, _. split_and!; [done..| | |].
  - by apply mean_within.
  - by apply median_within.
  - cbn [r_variance statistics_row]. destruct (Nat.ltb 1 (length (v :: vs))) eqn:E.
    + apply Nat.ltb_lt in E. by apply variance_nonneg.
    + apply Nat.ltb_ge in E. simpl in E. lia.
Qed.

(** Every row of a sweep summary is consistent: without samples all its
    statistics are missing; with samples the mean and the median lie between the
    minimum and the maximum, and the spread is missing exactly for a single
    sample and non-negative otherwise. *)
Theorem summarize_sweep_bounds show num_runs points rows :
  summarize_sweep show num_runs points = Ok rows → ∀ r, r ∈ rows → row_ok r.
Proof.
  unfold summarize_sweep. intros (groups & _ & [= <-])%outcome_bind_Ok r Hr.
  apply list_elem_of_In, in_concat in Hr as (l & Hl & Hr).
  apply list_elem_of_In in Hr. apply list_elem_of_In in Hl.
  apply list_elem_of_fmap in Hl as ([[method comb] runs] & -> & _).
  unfold summarize_group in Hr. destruct (collect_samples runs) as [|s samples].
  - apply list_elem_of_singleton in Hr as ->. done.
  - apply list_elem_of_fmap in Hr as (e & -> & _). apply statistics_row_ok.
Qed.

(** ** Instances *)

Definition sample_show (j : json) : string := "?".
Definition sample_fields : axis_fields :=
  [("rate", λ j, Ok j); ("conc", λ j, match j with JInt _ => Ok j | _ => Raise (ValueError "int") end)].
Definition sample_record : point :=
  [("rate", JArr [JStr "fast"; JStr "slow"]); ("conc", JArr [JInt 1; JInt 2]); ("seed", JInt 7)].

Lemma load_sweep_points_directories_witness :
  ∃ points, load_sweep_points sample_show "s.jsonl" [(1, JObj sample_record)] sample_fields
              (λ _ _, Ok tt) = Ok points ∧ length points = 4%nat ∧
    NoDup ((λ p, sweep_directory_name (sweep_point_name sample_show p)) <$> points).
Proof.
  destruct (load_sweep_points sample_show "s.jsonl" [(1, JObj sample_record)] sample_fields
    (λ _ _, Ok tt)) as [points|] eqn:E; [|exfalso; vm_compute in E; discriminate].
  exists points. split; [done|]. split; [vm_compute in E; by injection E as <-|].
  apply (load_sweep_points_directories sample_show "s.jsonl" [(1, JObj sample_record)] sample_fields
    (λ _ _, Ok tt) points E).
Defined.

Lemma expand_sweep_point_complete_witness :
  ∃ points, expand_sweep_point sample_show sample_fields sample_record = Ok points ∧
    ∃ p, p ∈ points ∧ dget "rate" p = Some (JStr "slow") ∧ dget "seed" p = Some (JInt 7).
Proof.
  destruct (expand_sweep_point sample_show sample_fields sample_record) as [points|] eqn:E;
    [|exfalso; vm_compute in E; discriminate].
  destruct (expand_sweep_point_complete sample_show sample_fields sample_record points)
    as (axes & Hax & _ & Hall); [repeat (constructor; [set_solver|]); constructor..| | |exact E|].
  - simpl. set_solver.
  - simpl. set_solver.
  - vm_compute in Hax. injection Hax as <-.
    destruct (Hall [JStr "slow"; JInt 2]) as (p & Hp & Hv & Hr).
    { repeat constructor; simpl; set_solver. }
    exists points. split; [done|]. exists p. split_and!; [done|by apply (Hv 0%nat)|].
    apply Hr. vm_compute. left.
Defined.

(** Three tasks; the second fails, the third is interrupted. *)
Definition sample_tasks : list point := all_points sample_show 3 [sample_record].
Definition sample_execute (i : nat) : task_result :=
  match i with
  | 0%nat => TaskDone 0 [("success_num", JInt 5)] "a"
  | 1%nat => TaskDone 1 [] "b"
  | _ => TaskRaised true "KeyboardInterrupt"
  end.

Lemma sweep_records_survive_witness :
  ∃ ps, run_points sample_execute 0 sample_tasks = (ps, Some "KeyboardInterrupt") ∧
    ∃ j p b, sample_tasks !! j = Some p ∧ sample_execute j = TaskRaised b "KeyboardInterrupt" ∧
      ∀ i p p', (i < j)%nat → sample_tasks !! i = Some p → ps !! i = Some p' → ran sample_execute i p p'.
Proof.
  destruct (run_points sample_execute 0 sample_tasks) as [ps raised] eqn:E.
  assert (raised = Some "KeyboardInterrupt") as -> by (vm_compute in E; by injection E as _ <-).
  exists ps. split; [done|].
  destruct (sweep_records_survive sample_execute sample_tasks ps (Some "KeyboardInterrupt") E)
    as (j & p & b & Hp & _ & He & _ & _ & Hb & _).
  exists j, p, b. auto.
Defined.

Lemma summarize_sweep_bounds_witness :
  ∃ rows r, summarize_sweep sample_show (Some 2)
      [[("combination", JStr "p"); ("latency", JObj [("mean", JInt 2)])];
       [("combination", JStr "p"); ("latency", JObj [("mean", JInt 4)])]] = Ok rows ∧
    r ∈ rows ∧ r_samples r = 2%nat ∧ row_ok r.
Proof.
  destruct (summarize_sweep sample_show (Some 2)
      [[("combination", JStr "p"); ("latency", JObj [("mean", JInt 2)])];
       [("combination", JStr "p"); ("latency", JObj [("mean", JInt 4)])]]) as [rows|] eqn:E;
    [|exfalso; vm_compute in E; discriminate].
  destruct rows as [|r rows]; [exfalso; vm_compute in E; discriminate|].
  exists (r :: rows), r. split; [done|]. split; [left|].
  split; [vm_compute in E; by injection E as <- _|].
  apply (summarize_sweep_bounds sample_show (Some 2) _ _ E). left.
Defined.
