(* ===== verification/Measurements.v ===== *)
(** * Request measurements ([results/measurements/requests.py], [itl.py], [video.py])

    The record of one request and its aggregation: concurrency events, latency
    percentiles, throughput, request SLO scoring, inter-token latency, and the
    video timings.  Seconds are rationals (exact where Python rounds).

    NumPy, DDSketch and EvalScope are outside the repository.  What is used of
    them is the parameter [numpy] (mean and nearest-rank percentile), the
    parameter [sketch], and the rules of [SloSearch]. *)

From Stdlib Require Import Ascii Qminmax.
From S2P Require Import Prelude Text BenchConfig SloSearch.

(** ** Sorting by a boolean order *)

Section Isort.
Context {A : Type} (leb : A → A → bool).
Fixpoint insort (x : A) (l : list A) : list A :=
  match l with
  | [] => [x]
  | y :: l' => if leb x y then x :: l else y :: insort x l'
  end.
Definition isort (l : list A) : list A := foldr insort [] l.

Lemma insort_perm x l : insort x l ≡ₚ x :: l.
Proof.
  induction l as [|y l IH]; simpl; [done|]. case_match; [done|].
  rewrite IH. apply Permutation_swap.
Qed.
Lemma isort_perm l : isort l ≡ₚ l.
Proof. induction l as [|x l IH]; simpl; [done|]. by rewrite insort_perm, IH. Qed.

Hypothesis leb_total : ∀ x y, leb x y = true ∨ leb y x = true.
Hypothesis leb_trans : ∀ x y z, leb x y = true → leb y z = true → leb x z = true.

Lemma insort_sorted x l :
  StronglySorted (λ a b, leb a b = true) l → StronglySorted (λ a b, leb a b = true) (insort x l).
Proof using leb_total leb_trans.
  induction 1 as [|y l Hl IH Hy]; simpl; [repeat constructor|]. destruct (leb x y) eqn:E.
  - constructor; [by constructor|]. constructor; [done|]. eapply Forall_impl; [done|]. eauto.
  - constructor; [done|]. rewrite insort_perm. constructor; [|done].
    destruct (leb_total x y); congruence.
Qed.
Lemma isort_sorted l : StronglySorted (λ a b, leb a b = true) (isort l).
Proof using leb_total leb_trans. induction l; simpl; [constructor|by apply insort_sorted]. Qed.
End Isort.

(** ** Records *)

(** [ITLSummary] *)
Record ITLSummary := MkITL {
  itl_count : Z;
  itl_mean : option Q;
  itl_max : option Q;
  itl_p50 : option Q;
  itl_p95 : option Q;
  itl_p99 : option Q;
  itl_relative_error : option Q;
}.

(** [RequestMeasurement] *)
Record RequestMeasurement := MkRequest {
  started_at : Q;
  ttft : option Q;
  latency : Q;
  tpot : option Q;
  itl_summary : ITLSummary;
  input_tokens : option Z;
  output_tokens : option Z;
  cached_input_tokens : option Z;
  succeeded : bool;
  conversation_id : option string;
  turn : option Z;
  status_code : option Z;
  error_message : option string;
  dataset : option string;
  request_model : option string;
  priority : option Z;
  request_class : option string;
  target_output_tokens : option Z;
  request_id : option string;
  phase : option string;
  source_id : option string;
  finish_reason : option string;
  response_id : option string;
  response_model : option string;
  content_characters : option Z;
  reasoning_characters : option Z;
  transport_completed : option bool;
  scheduled_at : option Q;
  send_delay : option Q;
}.

Definition finished_at (m : RequestMeasurement) : Q := (started_at m + latency m)%Q.

(** ** Concurrency *)

(** Python's order of [(timestamp, change)] pairs. *)
Definition event_leb (a b : Q * Z) : bool :=
  negb (Qle_bool b.1 a.1) || (Qeq_bool a.1 b.1 && (a.2 <=? b.2)).

Definition request_events (m : RequestMeasurement) : list (Q * Z) :=
  if negb (Qle_bool (latency m) 0) then [(started_at m, 1); (finished_at m, -1)] else [].

(** [request_activity_events] *)
Definition request_activity_events (ms : list RequestMeasurement) : list (Q * Z) :=
  isort event_leb (ms ≫= request_events).

(** The loop that finds the peak: [(active, peak)]. *)
Definition activity_step (s : Z * Z) (e : Q * Z) : Z * Z :=
  let active := s.1 + e.2 in (active, Z.max s.2 active).
Definition peak_active_requests (ms : list RequestMeasurement) : Z :=
  (foldl activity_step (0, 0) (request_activity_events ms)).2.

(** ** Percentiles *)

(** [np.mean] and [np.percentile(..., method="inverted_cdf")] of a non-empty
    list; the percentile is given in per cent. *)
Class numpy := {
  np_mean : list Q → Q;
  np_percentile : list Q → Z → Q;
}.

Record percentiles := Percentiles {
  p_mean : option Q;
  p50 : option Q;
  p95 : option Q;
  p99 : option Q;
}.

(** [percentile_summary] *)
Definition percentile_summary `{numpy} (values : list Q) : percentiles :=
  match values with
  | [] => Percentiles None None None None
  | _ => Percentiles (Some (np_mean values)) (Some (np_percentile values 50))
           (Some (np_percentile values 95)) (Some (np_percentile values 99))
  end.

(** ** Derived values of one request *)

(** [compute_tpot] *)
Definition compute_tpot (lat : Q) (first_token : option Q) (tokens : option Z) : option Q :=
  match first_token, tokens with
  | Some t, Some n =>
      if n =? 1 then Some 0%Q
      else if n - 1 <=? 0 then None
      else Some ((lat - t) / inject_Z (n - 1))%Q
  | _, _ => None
  end.

(** [normalized_generation_throughput]: per user and per GPU. *)
Definition normalized_generation_throughput (tokens_per_second : option Q)
    (configured_concurrency : Z) (average_active : option Q) (gpu_count : option Z)
    : outcome (option Q * option Q) :=
  match tokens_per_second with
  | None => Ok (None, None)
  | Some tps =>
      let user_count := if 0 <? configured_concurrency then Some (inject_Z configured_concurrency)
                        else average_active in
      let per_user := match user_count with
                      | Some u => if negb (Qle_bool u 0) then Some (tps / u)%Q else None
                      | None => None
                      end in
      match gpu_count with
      | None => Ok (per_user, None)
      | Some g => if g <? 1 then Raise (ValueError "gpu_count must be >= 1")
                  else Ok (per_user, Some (tps / inject_Z g)%Q)
      end
  end.

(** ** Request SLOs *)

(** [_SLO_CRITERION]: an optional statistic prefix and a request metric. *)
Inductive slo_metric := MLatency | MTtft | MTpot | MItl.
Definition slo_criterion (name : string) : option slo_metric :=
  let base := foldl (λ n p, if startswith p n then drop_chars (String.length p) n else n) name
                (take 1 (keep (λ p, startswith p name) ["avg_"; "p50_"; "p95_"; "p99_"])) in
  dget base [("latency", MLatency); ("ttft", MTtft); ("tpot", MTpot); ("itl", MItl)].

Definition slo_value (m : RequestMeasurement) (k : slo_metric) : option Q :=
  match k with
  | MLatency => Some (latency m)
  | MTtft => ttft m
  | MTpot => tpot m
  | MItl => itl_max (itl_summary m)
  end.

Record slo_results := SloResults {
  s_criteria : criteria;
  s_request_criteria : option criteria;
  request_slo_met : option (list bool);
  s_attainment : option Q;
  s_request_goodput : option Q;
  s_token_goodput : option Q;
}.

Section Slo.
Variable parse_sla_params : list criteria → outcome (list (list (string * rule))).

(** A request is good when it succeeded and every rule holds on its value. *)
Definition slo_met (checks : list (slo_metric * rule)) (m : RequestMeasurement) : bool :=
  succeeded m && forallb (λ c : slo_metric * rule, match slo_value m c.1 with
                               | Some v => rule_validate c.2 v
                               | None => false
                               end) checks.

(** The token total of the good requests, unknown once one is unknown. *)
Definition add_tokens (acc : option Z) (n : option Z) : option Z :=
  match acc, n with Some a, Some b => Some (a + b) | _, _ => None end.

Definition rate (n : Z) (duration : Q) : option Q :=
  if negb (Qle_bool duration 0) then Some (inject_Z n / duration)%Q else None.

(** [request_slo_results] *)
Definition request_slo_results (ms : list RequestMeasurement) (c : option criteria) (total_time : Q)
    : outcome (option slo_results) :=
  match c with
  | None | Some [] => Ok None
  | Some c =>
      let supported := keep (λ e : string * string, bool_decide (is_Some (slo_criterion e.1))) c in
      match supported with
      | [] => Ok (Some (SloResults c None None None None None))
      | _ =>
          parsed ← parse_slo_criteria parse_sla_params [supported];
          match head parsed with
          | None => Raise IndexError
          | Some rules =>
              checks ← outcome_map (λ e : string * rule,
                match slo_criterion e.1 with
                | Some k => Ok (k, e.2)
                | None => Raise (TypeError "'NoneType' object has no attribute 'group'")
                end) rules;
              let met := slo_met checks <$> ms in
              let good := keep (slo_met checks) ms in
              let tokens := foldl (λ acc m, add_tokens acc (output_tokens m)) (Some 0) good in
              let n := Z.of_nat (length good) in
              Ok (Some (SloResults c (Some supported) (Some met)
                (match ms with
                 | [] => None
                 | _ => Some (inject_Z n / inject_Z (Z.of_nat (length ms)))%Q
                 end)
                (rate n total_time)
                (match tokens with Some t => rate t total_time | None => None end)))
          end
      end
  end.

(** ** Inter-token latency *)

(** [combine_itl_summaries]: a summary with a count also has a mean and a
    maximum. *)
Definition combine_step (acc : Z * Q * option Q) (s : ITLSummary) : outcome (Z * Q * option Q) :=
  let '(count, total, maximum) := acc in
  if itl_count s =? 0 then Ok acc else
  match itl_mean s, itl_max s with
  | Some mean, Some mx =>
      Ok (count + itl_count s, (total + mean * inject_Z (itl_count s))%Q,
          match maximum with None => Some mx | Some m => Some (Qmax m mx) end)
  | _, _ => Raise (TypeError "unsupported operand type(s)")
  end.
Definition combine_itl_summaries (l : list ITLSummary) : outcome ITLSummary :=
  r ← outcome_fold combine_step (0, 0%Q, None) l;
  let '(count, total, maximum) := r in
  Ok (MkITL count (if count =? 0 then None else Some (total / inject_Z count)%Q) maximum
        None None None None).

(** ** The published metrics *)

Record throughput_metrics := Throughput {
  requests_per_second : Q;
  generation_tokens_per_second : option Q;
  prompt_tokens_per_second : option Q;
  total_tokens_per_second : option Q;
  per_user : option Q;
  per_gpu : option Q;
}.

Record request_metrics := RequestMetrics {
  request_num : Z;
  success_num : Z;
  failed_num : Z;
  failure_reasons : list ((option Z * option string) * Z);
  r_success_rate : Q;
  r_stream : bool;
  latency_summary : percentiles;
  ttft_summary : percentiles;
  tpot_summary : percentiles;
  metrics_itl : ITLSummary;
  throughput : throughput_metrics;
  total_output_tokens : option Z;
  avg_input_tokens : option Q;
  avg_output_tokens : option Q;
  avg_cached_input_tokens : option Q;
  benchmark_time : Q;
  request_rate : Q;
  num_prompts : Z;
  reported_max_concurrency : Z;
  concurrency_peak : Z;
  concurrency_mean : option Q;
  metrics_slo : option slo_results;
}.

(** The sum of a column when every row has it. *)
Definition complete_sum (f : RequestMeasurement → option Z) (ms : list RequestMeasurement) : option Z :=
  foldr Z.add 0 <$> all_present (f <$> ms).

(** [Counter(...)]: counts in order of first occurrence. *)
Definition counter_add {K} `{EqDecision K} (c : list (K * Z)) (k : K) : list (K * Z) :=
  dset k (default 0 (dget k c) + 1) c.
Definition counter {K} `{EqDecision K} (l : list K) : list (K * Z) := foldl counter_add [] l.

(** [a / b] raises on a zero divisor *)
Definition true_div (a b : Q) : outcome Q :=
  if Qeq_bool b 0 then Raise ZeroDivisionError else Ok (a / b)%Q.
Definition div_opt (a : option Z) (b : Q) : outcome (option Q) :=
  match a with None => Ok None | Some n => q ← true_div (inject_Z n) b; Ok (Some q) end.
Definition average (total : option Z) (n : Z) : option Q :=
  match total with
  | Some t => if n =? 0 then None else Some (inject_Z t / inject_Z n)%Q
  | None => None
  end.

Context `{numpy}.

(** [summarize_measurements] *)
Definition summarize_measurements (ms : list RequestMeasurement) (total_time : Q) (stream_ : bool)
    (arrival_rate : Q) (request_count_ reported_concurrency : Z) (gpu_count : option Z) (include_normalized : bool)
    (slo_criteria : option criteria) (itl : option ITLSummary) : outcome request_metrics :=
  let successful := keep succeeded ms in
  let ttfts := if stream_ then omap ttft successful else [] in
  let tpots := if stream_ then omap tpot successful else [] in
  let inputs := complete_sum input_tokens successful in
  let outputs_ := complete_sum output_tokens successful in
  let cached := omap cached_input_tokens successful in
  let n := Z.of_nat (length successful) in
  let total := Z.of_nat (length ms) in
  generation ← div_opt outputs_ total_time;
  prompts ← div_opt inputs total_time;
  both ← div_opt (add_tokens inputs outputs_) total_time;
  rps ← true_div (inject_Z n) total_time;
  let average_active :=
    match ms with
    | [] => None
    | _ => if negb (Qle_bool total_time 0)
           then Some (foldr Qplus 0%Q (latency <$> ms) / total_time)%Q else None
    end in
  normalized ← (if include_normalized
                then normalized_generation_throughput generation reported_concurrency average_active gpu_count
                else Ok (None, None));
  slo_ ← request_slo_results ms slo_criteria total_time;
  itl_ ← (if negb stream_ then combine_itl_summaries []
          else match itl with
               | Some s => Ok s
               | None => combine_itl_summaries (itl_summary <$> successful)
               end);
  Ok (RequestMetrics total n (total - n)
        (counter ((λ m, (status_code m, error_message m)) <$> keep (λ m, negb (succeeded m)) ms))
        (if total =? 0 then 0%Q else (inject_Z n / inject_Z total)%Q)
        stream_ (percentile_summary (latency <$> successful)) (percentile_summary ttfts)
        (percentile_summary tpots) itl_
        (Throughput rps generation prompts both normalized.1 normalized.2)
        outputs_ (average inputs n) (average outputs_ n)
        (average (Some (foldr Z.add 0 cached)) (Z.of_nat (length cached)))
        total_time arrival_rate request_count_ reported_concurrency (peak_active_requests ms) average_active slo_).

(** [summarize_measurement_groups]: one summary per label of a dimension. *)
Definition labels (f : RequestMeasurement → option string) (ms : list RequestMeasurement) : list string :=
  sort_by id (distinct (omap f ms)).

Definition summarize_dimension (ms : list RequestMeasurement) (total_time : Q) (stream_ : bool)
    (arrival_rate : Q) (reported_concurrency : Z) (slo_criteria : option criteria)
    (itls : string → option ITLSummary) (f : RequestMeasurement → option string)
    : outcome (list (string * request_metrics)) :=
  outcome_map (λ name,
    let subset := keep (λ m, eqb (f m) (Some name)) ms in
    r ← summarize_measurements subset total_time stream_ arrival_rate (Z.of_nat (length subset))
          reported_concurrency None false slo_criteria (itls name);
    Ok (name, r)) (labels f ms).

Definition summarize_measurement_groups (ms : list RequestMeasurement) (total_time : Q)
    (stream_ : bool) (arrival_rate : Q) (reported_concurrency : Z) (slo_criteria : option criteria)
    (include_single_dataset : bool) (itls : string → string → option ITLSummary)
    : outcome (list (string * list (string * request_metrics))) :=
  let dimension (group_name : string) (f : RequestMeasurement → option string) (single : bool) :=
    match labels f ms with
    | [] => Ok []
    | [_] => if (single : bool)
             then r ← summarize_dimension ms total_time stream_ arrival_rate reported_concurrency slo_criteria
                        (itls group_name) f; Ok [(group_name, r)]
             else Ok []
    | _ => r ← summarize_dimension ms total_time stream_ arrival_rate reported_concurrency slo_criteria
                 (itls group_name) f; Ok [(group_name, r)]
    end in
  a ← dimension "datasets" dataset include_single_dataset;
  b ← dimension "models" request_model false;
  c ← dimension "request_classes" request_class true;
  Ok (a ++ b ++ c).
End Slo.

(** ** Streaming statistics of one request ([ITLStatistics]) *)

(** The sketch: DDSketch's operations that are used. *)
Record sketch (S : Type) := Sketch {
  sk_empty : S;
  sk_add : S → Q → S;
  sk_merge : S → S → S;
  sk_count : S → Z;
  sk_avg : S → Q;
  sk_quantile : S → Q → Q;
}.
Arguments sk_empty {S}.
Arguments sk_add {S}.
Arguments sk_merge {S}.
Arguments sk_count {S}.
Arguments sk_avg {S}.
Arguments sk_quantile {S}.

Section Itl.
Context {S : Type} (sk : sketch S).
(** [math.nextafter(x, math.inf)] *)
Variable nextafter : Q → Q.

Record ITLStatistics := MkStatistics {
  st_sketch : S;
  st_maximum : option Q;
}.
Definition new_statistics : ITLStatistics := MkStatistics (sk_empty sk) None.

Definition join_max (a b : option Q) : option Q :=
  match a, b with
  | None, _ => b
  | Some x, Some y => Some (Qmax x y)
  | Some x, None => Some x
  end.

(** [ITLStatistics.observe], [merge] and [summary] *)
Definition observe_itl (seconds : Q) (s : ITLStatistics) : ITLStatistics :=
  MkStatistics (sk_add sk (st_sketch s) seconds) (join_max (st_maximum s) (Some seconds)).
Definition merge_itl (other s : ITLStatistics) : ITLStatistics :=
  MkStatistics (sk_merge sk (st_sketch s) (st_sketch other))
    (join_max (st_maximum s) (st_maximum other)).

(** The nearest rank of a fraction of [count], as the sketch's quantile. *)
Definition rank_quantile (fraction : Q) (count : Z) : Q :=
  let rank := Qceiling (fraction * inject_Z count) - 1 in
  if 1 <? count then (inject_Z rank / inject_Z (count - 1))%Q else 0%Q.
Definition itl_quantile (s : ITLStatistics) (fraction : Q) : option Q :=
  let count := sk_count sk (st_sketch s) in
  if count =? 0 then None
  else Some (sk_quantile sk (st_sketch s) (Qmin (nextafter (rank_quantile fraction count)) 1)).
Definition summary_itl (s : ITLStatistics) : ITLSummary :=
  let count := sk_count sk (st_sketch s) in
  MkITL count (if count =? 0 then None else Some (sk_avg sk (st_sketch s))) (st_maximum s)
    (itl_quantile s (1 # 2)) (itl_quantile s (95 # 100)) (itl_quantile s (99 # 100))
    (Some (1 # 100)%Q).
End Itl.

(** ** Video timings ([aggregate_video_results]) *)

(** The measured fields of [VideoSampleResult]; [timings] are the ten timing
    fields in the order of [_TIMING_FIELDS]. *)
Record VideoSampleResult := MkVideo {
  video_success : bool;
  timings : list (option Q);
  peak_gpu_memory_mb : option Q;
  reference_tokens : option Z;
  reference_tokens_source : string;
  output_bytes : Z;
}.

Definition TIMING_FIELDS : list string :=
  ["e2e_s"; "queue_wait_s"; "server_generation_s"; "preprocess_s"; "encode_s"; "media_encode_s";
   "denoise_s"; "decode_s"; "postprocess_s"; "denoise_per_step_s"].

Record video_metrics := VideoMetrics {
  v_request_num : Z;
  v_success_num : Z;
  v_failed_num : Z;
  v_success_rate : Q;
  v_timings : list (string * option Q);
  v_peak_memory : option Q;
  v_memory_source : string;
  v_reference_tokens : option Z;
  v_reference_source : string;
  v_output_bytes : Z;
}.

Definition fmean (l : list Q) : option Q :=
  match l with [] => None | _ => Some (mean l) end.
Definition qmaximum (l : list Q) : option Q :=
  match l with [] => None | x :: l => Some (foldl Qmax x l) end.

Definition aggregate_video_results (results : list VideoSampleResult) : video_metrics :=
  let successful := keep video_success results in
  let n := Z.of_nat (length successful) in
  let total := Z.of_nat (length results) in
  let memory := omap peak_gpu_memory_mb successful in
  let with_tokens := keep (λ r, bool_decide (is_Some (reference_tokens r))) successful in
  VideoMetrics total n (total - n)
    (if total =? 0 then 0%Q else (inject_Z n / inject_Z total)%Q)
    (imap (λ i name, (name, fmean (omap (λ r, mjoin (timings r !! i)) successful))) TIMING_FIELDS)
    (qmaximum memory) (match memory with [] => "unavailable" | _ => "response_header" end)
    (max_by id (omap reference_tokens successful))
    (match with_tokens with r :: _ => reference_tokens_source r | [] => "unavailable" end)
    (foldr Z.add 0 (output_bytes <$> successful)).
