(* ===== verification/MeasurementsProofs.v ===== *)
(** * Properties of request measurements

    The sweep over start and finish events computes the largest number of
    requests in flight; percentiles are ordered; combined inter-token summaries
    describe the concatenated samples; the published counts add up. *)

From Stdlib Require Import Ascii Qminmax.
From S2P Require Import Prelude Text BenchConfig SloSearch Measurements.

(** ** Rational comparisons *)

Lemma Qle_bool_false x y : Qle_bool x y = false ↔ (y < x)%Q.
Proof.
  rewrite <-not_true_iff_false, Qle_bool_iff. split; [apply Qnot_le_lt|apply Qlt_not_le].
Qed.

Lemma event_leb_time a b : event_leb a b = true → (a.1 <= b.1)%Q.
Proof.
  unfold event_leb. rewrite orb_true_iff, andb_true_iff, negb_true_iff, Qle_bool_false, Qeq_bool_iff.
  intros [H|[H _]]; [by apply Qlt_le_weak|by rewrite H; apply Qle_refl].
Qed.

Lemma event_leb_total a b : event_leb a b = true ∨ event_leb b a = true.
Proof.
  unfold event_leb. destruct (Qlt_le_dec a.1 b.1) as [H|H].
  - left. apply Qle_bool_false in H. by rewrite H.
  - destruct (Qlt_le_dec b.1 a.1) as [H'|H'].
    + right. apply Qle_bool_false in H'. by rewrite H'.
    + assert (a.1 == b.1)%Q as E by (by apply Qle_antisym).
      rewrite (proj2 (Qeq_bool_iff a.1 b.1) E), (proj2 (Qeq_bool_iff b.1 a.1) (Qeq_sym _ _ E)).
      rewrite !orb_true_iff. lia.
Qed.

Lemma event_leb_trans a b c : event_leb a b = true → event_leb b c = true → event_leb a c = true.
Proof.
  unfold event_leb. rewrite !orb_true_iff, !andb_true_iff, !negb_true_iff, !Qle_bool_false, !Qeq_bool_iff.
  intros [H1|[H1 L1]] [H2|[H2 L2]].
  - left. by eapply Qlt_trans.
  - left. by rewrite <-H2.
  - left. by rewrite H1.
  - right. split; [by rewrite H1|lia].
Qed.

(** ** Peak concurrency *)

(** A request is in flight from its start until just before its finish. *)
Definition in_flight (t : Q) (m : RequestMeasurement) : bool :=
  Qle_bool (started_at m) t && negb (Qle_bool (finished_at m) t).
Definition overlap (t : Q) (ms : list RequestMeasurement) : Z :=
  Z.of_nat (length (keep (in_flight t) ms)).

Definition changes (evs : list (Q * Z)) : Z := foldr (λ e acc, e.2 + acc) 0 evs.
(** The changes up to and including time [t]. *)
Definition changes_upto (t : Q) (evs : list (Q * Z)) : Z :=
  changes (keep (λ e, Qle_bool e.1 t) evs).

Lemma changes_app a b : changes (a ++ b) = changes a + changes b.
Proof. induction a as [|e a IH]; simpl; [done|]. rewrite IH. lia. Qed.

Lemma changes_perm a b : a ≡ₚ b → changes a = changes b.
Proof. induction 1; simpl; lia. Qed.

Lemma changes_upto_perm t a b : a ≡ₚ b → changes_upto t a = changes_upto t b.
Proof. intros H. unfold changes_upto. apply changes_perm. unfold keep. by rewrite H. Qed.

Lemma changes_upto_events t ms : changes_upto t (ms ≫= request_events) = overlap t ms.
Proof.
  unfold overlap, changes_upto. induction ms as [|m ms IH]; [done|].
  rewrite bind_cons, keep_app, changes_app, IH, keep_cons. clear IH.
  unfold request_events, in_flight. destruct (Qle_bool (latency m) 0) eqn:El; simpl.
  - assert (Qle_bool (started_at m) t && negb (Qle_bool (finished_at m) t) = false) as ->; [|simpl; lia].
    apply andb_false_iff. destruct (Qle_bool (started_at m) t) eqn:Es; [right|by left].
    apply negb_false_iff, Qle_bool_iff. apply Qle_bool_iff in El, Es. unfold finished_at. lra.
  - apply Qle_bool_false in El. rewrite !keep_cons. simpl.
    destruct (Qle_bool (started_at m) t) eqn:Es, (Qle_bool (finished_at m) t) eqn:Ef; simpl; try lia.
    exfalso. apply Qle_bool_false in Es. apply Qle_bool_iff in Ef. unfold finished_at in Ef. lra.
Qed.

Lemma activity_cons e evs a p :
  foldl activity_step (a, p) (e :: evs) = foldl activity_step (a + e.2, Z.max p (a + e.2)) evs.
Proof. done. Qed.

(** The loop keeps the sum of the changes and a bound on every partial sum. *)
Lemma activity_ge evs a p :
  p ≤ (foldl activity_step (a, p) evs).2 ∧
  ∀ pre post, evs = pre ++ post → pre ≠ [] → a + changes pre ≤ (foldl activity_step (a, p) evs).2.
Proof.
  revert a p. induction evs as [|e evs IH]; intros a p.
  { split; [simpl; lia|]. intros [|] post; [done|discriminate]. }
  rewrite activity_cons. destruct (IH (a + e.2) (Z.max p (a + e.2))) as [H1 H2].
  split; [lia|]. intros [|e' pre] post E Hne; [done|]. injection E as <- ->.
  destruct pre as [|e'' pre]; [simpl in *; lia|].
  specialize (H2 (e'' :: pre) post eq_refl ltac:(done)).
  change (changes (e :: e'' :: pre)) with (e.2 + changes (e'' :: pre)). lia.
Qed.

Lemma activity_le M evs a p :
  a ≤ M → p ≤ M →
  (∀ pre e post, evs = pre ++ e :: post → 0 < e.2 → a + changes pre + e.2 ≤ M) →
  (foldl activity_step (a, p) evs).2 ≤ M.
Proof.
  revert a p. induction evs as [|e evs IH]; intros a p Ha Hp Hpre; [done|].
  rewrite activity_cons.
  assert (a + e.2 ≤ M).
  { destruct (decide (0 < e.2)); [|lia]. specialize (Hpre [] e evs eq_refl ltac:(done)). simpl in Hpre. lia. }
  apply IH; [done|lia|]. intros pre e' post -> He.
  specialize (Hpre (e :: pre) e' post eq_refl He). simpl in Hpre. lia.
Qed.

(** In a sorted list the events up to [t] are a prefix. *)
Lemma sorted_upto t evs :
  StronglySorted (λ a b, event_leb a b = true) evs →
  ∃ pre post, evs = pre ++ post ∧ changes pre = changes_upto t evs.
Proof.
  induction 1 as [|e evs Hs IH He]; [by exists [], []|].
  unfold changes_upto. rewrite keep_cons. destruct (Qle_bool e.1 t) eqn:E.
  - destruct IH as (pre & post & -> & Hc). exists (e :: pre), post. split; [done|]. simpl.
    unfold changes_upto in Hc. lia.
  - exists [], (e :: evs). split; [done|].
    assert (keep (λ e, Qle_bool e.1 t) evs = []) as ->; [|done].
    apply keep_nil_Forall. intros x Hx. rewrite Forall_forall in He. specialize (He x Hx).
    apply event_leb_time in He. apply Qle_bool_false in E. apply Qle_bool_false. lra.
Qed.

(** Up to a start event, everything at its own time that is still to come is
    another start. *)
Lemma sorted_start_le t c pre post :
  StronglySorted (λ a b, event_leb a b = true) (pre ++ (t, c) :: post) → 0 < c →
  changes pre + c ≤ changes_upto t (pre ++ (t, c) :: post).
Proof.
  intros Hs Hc. unfold changes_upto. rewrite keep_app, keep_cons, changes_app. simpl.
  rewrite (proj2 (Qle_bool_iff t t) (Qle_refl t)). simpl.
  assert (keep (λ e, Qle_bool e.1 t) pre = pre) as ->.
  { assert (∀ x, x ∈ pre → Qle_bool x.1 t = true) as Hpre.
    { intros x Hx. apply Qle_bool_iff.
      apply list_elem_of_split in Hx as (l1 & l2 & ->). rewrite <-app_assoc in Hs. simpl in Hs.
      apply StronglySorted_app_r in Hs. inversion Hs as [|? ? _ Hall]; subst.
      rewrite Forall_forall in Hall. apply (event_leb_time x (t, c)), Hall. set_solver. }
    clear -Hpre. induction pre as [|x pre IH]; [done|]. rewrite keep_cons, Hpre by left.
    f_equal. apply IH. intros y Hy. apply Hpre. by right. }
  apply StronglySorted_app_r in Hs. inversion Hs as [|? ? _ Hall]; subst.
  assert (0 ≤ changes (keep (λ e, Qle_bool e.1 t) post)); [|lia].
  clear -Hall Hc. induction post as [|x post IH]; [done|]. apply Forall_cons in Hall as [Hx Hall].
  rewrite keep_cons. destruct (Qle_bool x.1 t) eqn:E; [|auto]. simpl.
  assert (c ≤ x.2); [|specialize (IH Hall); lia].
  unfold event_leb in Hx. simpl in Hx. rewrite E in Hx. simpl in Hx.
  apply andb_true_iff in Hx as [_ Hx]. lia.
Qed.

(** C32: the reported peak is the largest number of requests that were in flight
    at the same instant: at no time were there more, and no smaller number
    bounds them all. *)
Theorem peak_is_max_overlap ms :
  (∀ t, overlap t ms ≤ peak_active_requests ms) ∧
  (∀ M, 0 ≤ M → (∀ t, overlap t ms ≤ M) → peak_active_requests ms ≤ M).
Proof.
  unfold peak_active_requests, request_activity_events. set (raw := ms ≫= request_events).
  pose proof (isort_perm event_leb raw) as Hp.
  pose proof (isort_sorted event_leb event_leb_total event_leb_trans raw) as Hs.
  set (evs := isort event_leb raw) in *. split.
  - intros t. rewrite <-changes_upto_events. fold raw. rewrite <-(changes_upto_perm t _ _ Hp).
    destruct (sorted_upto t evs Hs) as (pre & post & E & <-).
    destruct (activity_ge evs 0 0) as [H0 Hpre]. destruct pre as [|e pre]; [done|].
    specialize (Hpre (e :: pre) post E ltac:(done)). lia.
  - intros M HM Hov. apply activity_le; [done|done|]. intros pre [t c] post E Hc. simpl in *.
    pose proof Hs as Hs'. rewrite E in Hs'. pose proof (sorted_start_le t c pre post Hs' Hc) as Hle.
    rewrite <-E, (changes_upto_perm t _ _ Hp) in Hle. unfold raw in Hle.
    rewrite changes_upto_events in Hle. specialize (Hov t). lia.
Qed.

(** ** Percentiles *)

Section Percentiles.
Context `{numpy}.

Definition count_le (x : Q) (l : list Q) : Z := Z.of_nat (length (keep (λ y, Qle_bool y x) l)).
Definition count_lt (x : Q) (l : list Q) : Z :=
  Z.of_nat (length (keep (λ y, negb (Qle_bool x y)) l)).

(** NumPy's documented nearest rank: a sample such that at least [p] per cent of
    the samples are at most as large, and fewer than [p] per cent are smaller. *)
Definition nearest_rank : Prop := ∀ l p, l ≠ [] → 0 < p ≤ 100 →
  np_percentile l p ∈ l ∧
  p * Z.of_nat (length l) ≤ 100 * count_le (np_percentile l p) l ∧
  100 * count_lt (np_percentile l p) l < p * Z.of_nat (length l).

Lemma count_le_lt x y l : (x < y)%Q → count_le x l ≤ count_lt y l.
Proof.
  intros Hxy. unfold count_le, count_lt. induction l as [|z l IH]; [done|].
  rewrite !keep_cons. destruct (Qle_bool z x) eqn:E.
  - apply Qle_bool_iff in E. rewrite (proj2 (Qle_bool_false y z)) by lra. simpl. lia.
  - destruct (negb (Qle_bool y z)); simpl; lia.
Qed.

(** the published percentiles of a non-empty list are samples of it and
    ordered: p50 <= p95 <= p99. *)
Theorem percentile_summary_ordered l :
  nearest_rank → l ≠ [] →
  ∃ a b c, p50 (percentile_summary l) = Some a ∧ p95 (percentile_summary l) = Some b ∧
    p99 (percentile_summary l) = Some c ∧ (a ∈ l ∧ b ∈ l ∧ c ∈ l) ∧ (a <= b)%Q ∧ (b <= c)%Q.
Proof.
  intros Hr Hl. assert (∀ p q, 0 < p ≤ q → q ≤ 100 → (np_percentile l p <= np_percentile l q)%Q) as Hmono.
  { intros p q Hp Hq. destruct (Hr l p Hl ltac:(lia)) as (_ & _ & Hlt).
    destruct (Hr l q Hl ltac:(lia)) as (_ & Hle & _).
    destruct (Qlt_le_dec (np_percentile l q) (np_percentile l p)) as [Hqp|]; [|done].
    pose proof (count_le_lt _ _ l Hqp). destruct l as [|x l]; [done|]. simpl length in *. nia. }
  destruct (Hr l 50 Hl ltac:(lia)) as (H1 & _). destruct (Hr l 95 Hl ltac:(lia)) as (H2 & _).
  destruct (Hr l 99 Hl ltac:(lia)) as (H3 & _).
  exists (np_percentile l 50), (np_percentile l 95), (np_percentile l 99).
  destruct l; [done|]. split_and!; try done; apply Hmono; lia.
Qed.
End Percentiles.

(** ** Inter-token latency *)

(** The summary of a list of intervals, as the streaming statistics report it. *)
Definition exact_summary (l : list Q) : ITLSummary :=
  MkITL (Z.of_nat (length l))
    (match l with [] => None | _ => Some (qsum l / inject_Z (Z.of_nat (length l)))%Q end)
    (match l with [] => None | x :: l => Some (foldl Qmax x l) end) None None None None.

Definition opt_Qeq (a b : option Q) : Prop :=
  match a, b with Some x, Some y => (x == y)%Q | None, None => True | _, _ => False end.

Lemma qsum_app a b : (qsum (a ++ b) == qsum a + qsum b)%Q.
Proof. induction a as [|x a IH]; simpl; [ring|]. rewrite IH. ring. Qed.

(** The maximum of a list, with the fold of [exact_summary]. *)
Definition list_max (l : list Q) : option Q :=
  match l with [] => None | x :: l => Some (foldl Qmax x l) end.

Lemma foldl_Qmax_comm x y l : (foldl Qmax (Qmax x y) l == Qmax x (foldl Qmax y l))%Q.
Proof.
  revert x y. induction l as [|z l IH]; intros x y; simpl; [reflexivity|].
  rewrite <-IH. clear IH. assert (Qmax (Qmax x y) z == Qmax x (Qmax y z))%Q as E.
  { symmetry. apply Q.max_assoc. }
  revert E. generalize (Qmax (Qmax x y) z), (Qmax x (Qmax y z)). clear.
  induction l as [|w l IH]; intros a b E; simpl; [done|]. apply IH. by rewrite E.
Qed.

Lemma list_max_app a b :
  opt_Qeq (list_max (a ++ b))
    (match list_max a, list_max b with
     | Some x, Some y => Some (Qmax x y) | Some x, None => Some x | None, m => m
     end).
Proof.
  destruct a as [|x a]; simpl; [destruct b; simpl; [done|reflexivity]|].
  rewrite foldl_app. destruct b as [|y b]; simpl; [reflexivity|]. apply foldl_Qmax_comm.
Qed.

(** What the fold knows after the samples [l]. *)
Definition combined (l : list Q) (acc : Z * Q * option Q) : Prop :=
  acc.1.1 = Z.of_nat (length l) ∧ (acc.1.2 == qsum l)%Q ∧ opt_Qeq acc.2 (list_max l).

Lemma opt_Qeq_trans a b c : opt_Qeq a b → opt_Qeq b c → opt_Qeq a c.
Proof. destruct a, b, c; simpl; try done. intros ->. done. Qed.

Lemma opt_Qeq_sym a b : opt_Qeq a b → opt_Qeq b a.
Proof. by destruct a, b. Qed.

Lemma combine_step_combined l acc k :
  combined l acc → ∃ acc', combine_step acc (exact_summary k) = Ok acc' ∧ combined (l ++ k) acc'.
Proof.
  destruct acc as [[count total] maximum]. intros (Hc & Ht & Hm). simpl in *.
  destruct k as [|x k].
  - simpl. eexists. split; [done|]. rewrite app_nil_r. done.
  - change (exact_summary (x :: k)) with
      (MkITL (Z.of_nat (length (x :: k))) (Some (qsum (x :: k) / inject_Z (Z.of_nat (length (x :: k))))%Q)
         (Some (foldl Qmax x k)) None None None None).
    unfold combine_step. cbn [itl_count itl_mean itl_max].
    rewrite (proj2 (Z.eqb_neq _ 0)) by (simpl; lia). eexists. split; [done|].
    split_and!; cbn [fst snd].
    + rewrite length_app. lia.
    + rewrite qsum_app, <-Ht. rewrite (Qmult_comm (_ / _)), Qmult_div_r; [reflexivity|].
      unfold Qeq. simpl. lia.
    + eapply opt_Qeq_trans; [|apply opt_Qeq_sym, list_max_app].
      destruct maximum as [m|], (list_max l) as [m'|]; simpl in Hm |- *; try done;
        first [rewrite Hm; reflexivity|reflexivity].
Qed.

(** Combining the summaries of requests loses nothing but the percentiles:
    the combined count, mean and maximum are those of all their intervals
    together. *)
Theorem combine_itl_concat (requests : list (list Q)) :
  ∃ s, combine_itl_summaries (exact_summary <$> requests) = Ok s ∧
    let all := concat requests in
    itl_count s = Z.of_nat (length all) ∧
    opt_Qeq (itl_mean s) (itl_mean (exact_summary all)) ∧
    opt_Qeq (itl_max s) (itl_max (exact_summary all)).
Proof.
  assert (∀ l acc, combined l acc → ∃ acc',
    outcome_fold combine_step acc (exact_summary <$> requests) = Ok acc' ∧
    combined (l ++ concat requests) acc') as Hfold.
  { induction requests as [|k rs IH]; intros l acc Hl; simpl.
    - exists acc. by rewrite app_nil_r.
    - destruct (combine_step_combined l acc k Hl) as (acc1 & E1 & H1).
      rewrite E1. simpl. destruct (IH (l ++ k) acc1 H1) as (acc' & E' & H').
      exists acc'. by rewrite app_assoc. }
  destruct (Hfold [] (0, 0%Q, None)) as ([[count total] mx] & E & Hc & Ht & Hm); [done|].
  simpl in Hc, Ht, Hm. unfold combine_itl_summaries. rewrite E. simpl.
  eexists. split; [done|]. simpl. split; [done|]. rewrite Hc.
  destruct (concat requests) as [|x all] eqn:Ea; [done|]. split; [|done].
  rewrite (proj2 (Z.eqb_neq _ 0)) by (simpl; lia). simpl in *. by rewrite Ht.
Qed.

(** ** The published counts *)

Definition counter_total {K} (c : list (K * Z)) : Z := foldr (λ e acc, e.2 + acc) 0 c.

Lemma counter_total_dset {K} `{EqDecision K} (k : K) (v : Z) c :
  counter_total (dset k v c) = counter_total c + v - default 0 (dget k c).
Proof.
  induction c as [|[k' v'] c IH]; simpl; [lia|]. destruct (eqb k' k); simpl; [lia|].
  unfold counter_total in *. lia.
Qed.

Lemma counter_total_counter {K} `{EqDecision K} (l : list K) :
  counter_total (counter l) = Z.of_nat (length l).
Proof.
  unfold counter. assert (∀ c, counter_total (foldl counter_add c l) =
    counter_total c + Z.of_nat (length l)) as Hall; [|by rewrite Hall].
  induction l as [|k l IH]; intros c; simpl; [lia|]. rewrite IH. unfold counter_add.
  rewrite counter_total_dset. lia.
Qed.

Lemma keep_negb_length {A} (p : A → bool) l :
  (length (keep p l) + length (keep (λ x, negb (p x)) l) = length l)%nat.
Proof. induction l as [|x l IH]; [done|]. rewrite !keep_cons. destruct (p x); simpl; lia. Qed.

Lemma rate_bounds n k : 0 ≤ n ≤ k → 0 < k →
  (0 <= inject_Z n / inject_Z k)%Q ∧ (inject_Z n / inject_Z k <= 1)%Q.
Proof.
  intros Hn Hk. assert (0 < inject_Z k)%Q by (unfold Qlt; simpl; lia). split.
  - apply Qle_shift_div_l; [done|]. unfold Qle. simpl. lia.
  - apply Qle_shift_div_r; [done|]. unfold Qle. simpl. lia.
Qed.

(** Only successful requests meet an SLO. *)
Lemma slo_met_length checks ms :
  (length (keep (slo_met checks) ms) ≤ length (keep succeeded ms))%nat.
Proof.
  induction ms as [|m ms IH]; [done|]. rewrite !keep_cons. unfold slo_met at 1.
  destruct (succeeded m); simpl; [destruct (forallb _ _); simpl; lia|lia].
Qed.

Lemma request_slo_attainment parse ms c total_time s a :
  request_slo_results parse ms c total_time = Ok (Some s) → s_attainment s = Some a →
  ∃ checks, ms ≠ [] ∧ a = (inject_Z (Z.of_nat (length (keep (slo_met checks) ms)))
                           / inject_Z (Z.of_nat (length ms)))%Q.
Proof.
  unfold request_slo_results. destruct c as [[|e c]|]; try done.
  set (supported := keep _ (e :: c)). destruct supported as [|x xs]; [by intros [= <-]|].
  intros (parsed & _ & E)%outcome_bind_Ok. destruct (head parsed) as [rules|]; [|done].
  apply outcome_bind_Ok in E as (checks & _ & E). injection E as <-. simpl.
  destruct ms as [|m ms]; [done|]. intros [= <-]. by exists checks.
Qed.

(** The published request metrics add up: successes and failures partition
    the requests, the failure reasons account for every failure, the success
    rate and the SLO attainment are fractions, and a request counts towards the
    SLO only if it succeeded. *)
Theorem summarize_measurements_accounting parse `{numpy} ms total_time stream_ arrival count conc gpus norm c itl r :
  summarize_measurements parse ms total_time stream_ arrival count conc gpus norm c itl = Ok r →
  request_num r = Z.of_nat (length ms) ∧ success_num r + failed_num r = request_num r ∧
  counter_total (failure_reasons r) = failed_num r ∧
  ((0 <= r_success_rate r)%Q ∧ (r_success_rate r <= 1)%Q) ∧
  match metrics_slo r with
  | Some s => match s_attainment s with
              | Some a => (0 <= a)%Q ∧ (a <= r_success_rate r)%Q
              | None => True
              end
  | None => True
  end.
Proof.
  unfold summarize_measurements. intros E.
  repeat (apply outcome_bind_Ok in E as (? & ? & E)). injection E as <-. simpl.
  pose proof (keep_negb_length succeeded ms) as Hlen.
  assert ((0 <= (if Z.of_nat (length ms) =? 0 then 0 else inject_Z (Z.of_nat (length (keep succeeded ms)))
    / inject_Z (Z.of_nat (length ms))))%Q ∧ ((if Z.of_nat (length ms) =? 0 then 0 else
    inject_Z (Z.of_nat (length (keep succeeded ms))) / inject_Z (Z.of_nat (length ms))) <= 1)%Q) as Hrate.
  { destruct (Z.eqb_spec (Z.of_nat (length ms)) 0); [split; lra|]. apply rate_bounds; lia. }
  split_and!; [done|lia|rewrite counter_total_counter, length_fmap; lia|apply Hrate|apply Hrate|].
  lazymatch goal with |- match ?o with _ => _ end => destruct o as [s|] eqn:Es; [|done] end.
  destruct (s_attainment s) as [a|] eqn:Ea; [|done]. subst.
  lazymatch goal with H : request_slo_results _ _ _ _ = _ |- _ =>
    destruct (request_slo_attainment _ _ _ _ _ _ H Ea) as (checks & Hne & ->) end.
  pose proof (slo_met_length checks ms) as Hslo.
  assert (0 < Z.of_nat (length ms)) as Hpos by (destruct ms; [done|simpl; lia]).
  rewrite (proj2 (Z.eqb_neq _ 0)) by lia. split; [apply rate_bounds; lia|].
  unfold Qdiv. apply Qmult_le_compat_r; [rewrite <-Zle_Qle; lia|].
  apply Qinv_le_0_compat. unfold Qle. simpl. lia.
Qed.

(** ** Instances *)

Definition no_itl : ITLSummary := MkITL 0 None None None None None None.
Definition sample_request (start lat : Q) (ok : bool) : RequestMeasurement :=
  MkRequest start (Some 1%Q) lat None no_itl (Some 10) (Some 5) None ok None None
    (if ok then None else Some 500) None None None None None None None None None None None None
    None None None None None.
Definition sample_requests : list RequestMeasurement :=
  [sample_request 0 3 true; sample_request 1 1 true; sample_request 2 2 false].

(** A nearest-rank percentile. *)
Definition sample_numpy : numpy := {|
  np_mean := mean;
  np_percentile l p :=
    default 0%Q (isort Qle_bool l !! Z.to_nat ((p * Z.of_nat (length l) + 99) `div` 100 - 1));
|}.

(** Two requests overlap; the one that starts when another ends does not. *)
Lemma peak_is_max_overlap_witness :
  peak_active_requests sample_requests = 2 ∧ overlap 2 sample_requests ≤ 2.
Proof.
  split; [vm_compute; reflexivity|].
  exact (proj1 (peak_is_max_overlap sample_requests) 2%Q).
Defined.

Lemma Qle_bool_total x y : Qle_bool x y = true ∨ Qle_bool y x = true.
Proof. rewrite !Qle_bool_iff. destruct (Qlt_le_dec x y); [left; by apply Qlt_le_weak|by right]. Qed.
Lemma Qle_bool_trans x y z : Qle_bool x y = true → Qle_bool y z = true → Qle_bool x z = true.
Proof. rewrite !Qle_bool_iff. apply Qle_trans. Qed.

Lemma sorted_counts s k x :
  StronglySorted (λ a b, Qle_bool a b = true) s → s !! k = Some x →
  Z.of_nat k + 1 ≤ count_le x s ∧ count_lt x s ≤ Z.of_nat k.
Proof.
  intros Hs. revert k. induction Hs as [|y s Hs IH Hy]; intros k Hk; [done|].
  rewrite Forall_forall in Hy. unfold count_le, count_lt in *. rewrite !keep_cons.
  destruct k as [|k]; simpl in Hk.
  - injection Hk as ->. rewrite (proj2 (Qle_bool_iff x x) (Qle_refl x)). simpl. split; [lia|].
    assert (keep (λ y, negb (Qle_bool x y)) s = []) as ->; [|done].
    apply keep_nil_Forall. intros z Hz. by rewrite Hy.
  - destruct (IH k Hk) as [H1 H2]. rewrite (Hy x (list_elem_of_lookup_2 _ _ _ Hk)).
    destruct (negb (Qle_bool x y)); simpl; lia.
Qed.

Lemma count_perm x a b : a ≡ₚ b → count_le x a = count_le x b ∧ count_lt x a = count_lt x b.
Proof. intros H. unfold count_le, count_lt, keep. by rewrite H. Qed.

Lemma sample_nearest_rank : nearest_rank (H := sample_numpy).
Proof.
  intros l p Hl Hp. simpl np_percentile.
  pose proof (isort_sorted Qle_bool Qle_bool_total Qle_bool_trans l) as Hs.
  pose proof (isort_perm Qle_bool l) as Hperm. set (s := isort Qle_bool l) in *.
  assert (0 < Z.of_nat (length l)) as Hn by (destruct l; [done|simpl; lia]).
  set (n := Z.of_nat (length l)) in *. set (k := (p * n + 99) `div` 100 - 1).
  assert (p * n ≤ 100 * (k + 1) < p * n + 100) as Hk.
  { unfold k. pose proof (Z.div_mod (p * n + 99) 100). pose proof (Z.mod_pos_bound (p * n + 99) 100). lia. }
  destruct (lookup_lt_is_Some_2 s (Z.to_nat k)) as [x Hx].
  { rewrite (Permutation_length Hperm). unfold n in *. nia. }
  rewrite Hx. simpl. destruct (sorted_counts s _ x Hs Hx) as [H1 H2].
  destruct (count_perm x _ _ Hperm) as [<- <-]. split_and!; [|nia|nia].
  rewrite <-Hperm. by eapply list_elem_of_lookup_2.
Qed.

Lemma percentile_summary_ordered_witness :
  ∃ a b c, p50 (percentile_summary (H := sample_numpy) [3; 1; 2]%Q) = Some a ∧
    p95 (percentile_summary (H := sample_numpy) [3; 1; 2]%Q) = Some b ∧
    p99 (percentile_summary (H := sample_numpy) [3; 1; 2]%Q) = Some c ∧ (a <= b)%Q ∧ (b <= c)%Q.
Proof.
  destruct (percentile_summary_ordered (H := sample_numpy) [3; 1; 2]%Q sample_nearest_rank
    ltac:(discriminate)) as (a & b & c & Ha & Hb & Hc & _ & Hab & Hbc).
  exists a, b, c. auto.
Defined.

Lemma summarize_measurements_accounting_witness :
  ∃ r, summarize_measurements (H := sample_numpy) (λ _, Ok []) sample_requests 4 true 1 3 2 None
         false None None = Ok r ∧ failed_num r = 1 ∧ counter_total (failure_reasons r) = failed_num r.
Proof.
  destruct (summarize_measurements (H := sample_numpy) (λ _, Ok []) sample_requests 4 true 1 3 2 None
    false None None) as [r|] eqn:E; [|exfalso; vm_compute in E; discriminate].
  exists r. split; [done|]. split; [vm_compute in E; by injection E as <-|].
  apply (summarize_measurements_accounting (λ _, Ok []) (H := sample_numpy) sample_requests 4 true 1 3 2
    None false None None r E).
Defined.
