(* ===== verification/TimeSeries.v ===== *)
(** * Time series of a run ([results/measurements/timeseries.py], [progress.py])

    Rows per request, running aggregates, one-second completion windows with
    their time-weighted concurrency, and the live publication of both while a
    run executes.  A row is a dictionary from chart label to number.  The heap
    of [CompletionWindows] is the sorted list of its events. *)

From Stdlib Require Import Ascii Qminmax.
From S2P Require Import Prelude Text BenchConfig SloSearch Measurements.

Abbreviation row := (list (string * Q))%type.

Definition ELAPSED_TIME : string := "Elapsed time (s)".
Definition REQUEST_INDEX : string := "Request index (send order)".

Definition q_of_bool (b : bool) : Q := if b then 1%Q else 0%Q.
Definition q_of_nat (n : nat) : Q := inject_Z (Z.of_nat n).
(** An optional field of a row. *)
Definition opt_field (label : string) (v : option Q) : row :=
  match v with Some q => [(label, q)] | None => [] end.

(** ** One row per request *)

(** The fields of one request at position [index]; [met] is its SLO decision. *)
Definition request_row (stream_ : bool) (index : nat) (met : option bool) (m : RequestMeasurement) : row :=
  [(REQUEST_INDEX, q_of_nat index); ("Requests/E2EL (s)", latency m);
   ("Requests/Success", q_of_bool (succeeded m))]
  ++ opt_field "Requests/SLO met" (q_of_bool <$> met)
  ++ opt_field "Requests/Input tokens" (inject_Z <$> input_tokens m)
  ++ opt_field "Requests/Target output tokens" (inject_Z <$> target_output_tokens m)
  ++ opt_field "Requests/Output tokens" (inject_Z <$> output_tokens m)
  ++ opt_field "Requests/Cached input tokens" (inject_Z <$> cached_input_tokens m)
  ++ (if stream_ && succeeded m then
        opt_field "Requests/TTFT (s)" (ttft m)
        ++ opt_field "Requests/TPOT (ms)" ((λ q, q * 1000)%Q <$> tpot m)
      else []).

(** [sorted(..., key=...)] is stable: an element goes before those with a larger
    key only. *)
Definition by_key (key : RequestMeasurement → Q) (a b : nat * RequestMeasurement) : bool :=
  Qle_bool (key a.2) (key b.2).

(** [request_series]; [slo_met[i]] raises when it is too short. *)
Definition request_series (ms : list RequestMeasurement) (stream_ : bool) (slo_met_ : option (list bool))
    : outcome (list row) :=
  outcome_map (λ e : nat * (nat * RequestMeasurement),
    match slo_met_ with
    | None => Ok (request_row stream_ (S e.1) None e.2.2)
    | Some decisions =>
        match decisions !! e.2.1 with
        | None => Raise IndexError
        | Some d => Ok (request_row stream_ (S e.1) (Some d) e.2.2)
        end
    end) (imap pair (isort (by_key started_at) (imap pair ms))).

(** ** Running aggregates *)

(** [CumulativeMetrics] *)
Record CumulativeMetrics := MkCumulative {
  c_stream : bool;
  c_completed : Z;
  c_succeeded : Z;
  c_input_tokens : option Z;
  c_output_tokens : option Z;
  c_latency : Q;
  c_ttft : Q;
  c_tpot : Q;
  c_itl : Q;
  c_ttft_count : Z;
  c_tpot_count : Z;
  c_itl_count : Z;
}.
Definition new_cumulative (stream_ : bool) : CumulativeMetrics :=
  MkCumulative stream_ 0 0 (Some 0) (Some 0) 0 0 0 0 0 0 0.

Definition add_opt (on : bool) (acc : Q * Z) (v : option Q) : Q * Z :=
  match v with
  | Some q => if on then (acc.1 + q, (acc.2 + 1)%Z)%Q else acc
  | None => acc
  end.

(** [CumulativeMetrics.observe] *)
Definition observe_cumulative (m : RequestMeasurement) (c : CumulativeMetrics)
    : outcome CumulativeMetrics :=
  let completed := c_completed c + 1 in
  if negb (succeeded m) then
    Ok (MkCumulative (c_stream c) completed (c_succeeded c) (c_input_tokens c) (c_output_tokens c)
          (c_latency c) (c_ttft c) (c_tpot c) (c_itl c) (c_ttft_count c) (c_tpot_count c) (c_itl_count c))
  else
    let t := add_opt (c_stream c) (c_ttft c, c_ttft_count c) (ttft m) in
    let p := add_opt (c_stream c) (c_tpot c, c_tpot_count c) (tpot m) in
    let n := itl_count (itl_summary m) in
    itl ← (if c_stream c && negb (n =? 0) then
             match itl_mean (itl_summary m) with
             | Some mean => Ok ((c_itl c + mean * inject_Z n)%Q, c_itl_count c + n)
             | None => Raise (TypeError "unsupported operand type(s)")
             end
           else Ok (c_itl c, c_itl_count c));
    Ok (MkCumulative (c_stream c) completed (c_succeeded c + 1)
          (add_tokens (c_input_tokens c) (input_tokens m))
          (add_tokens (c_output_tokens c) (output_tokens m))
          (c_latency c + latency m)%Q t.1 p.1 itl.1 t.2 p.2 itl.2).

(** [CumulativeMetrics.row] *)
Definition cumulative_row (elapsed : Q) (c : CumulativeMetrics) : row :=
  let per (label : string) (total : option Q) (n : Z) : row :=
    match total with
    | Some t => if n =? 0 then [] else [(label, t / inject_Z n)%Q]
    | None => []
    end in
  let rate_ (label : string) (total : option Z) : row :=
    match total with
    | Some t => if negb (Qle_bool elapsed 0) then [(label, inject_Z t / elapsed)%Q] else []
    | None => []
    end in
  [(ELAPSED_TIME, elapsed);
   ("Cumulative/Completed requests", inject_Z (c_completed c));
   ("Cumulative/Successful requests", inject_Z (c_succeeded c));
   ("Cumulative/Failed requests", inject_Z (c_completed c - c_succeeded c))]
  ++ per "Cumulative/Success rate (%)" (Some (inject_Z (100 * c_succeeded c))) (c_completed c)
  ++ per "Cumulative/Mean E2EL (s)" (Some (c_latency c)) (c_succeeded c)
  ++ per "Cumulative/Mean input tokens" (inject_Z <$> c_input_tokens c) (c_succeeded c)
  ++ per "Cumulative/Mean output tokens" (inject_Z <$> c_output_tokens c) (c_succeeded c)
  ++ rate_ "Cumulative/Request throughput (req/s)" (Some (c_succeeded c))
  ++ rate_ "Cumulative/Input token throughput (tokens/s)" (c_input_tokens c)
  ++ rate_ "Cumulative/Output token throughput (tokens/s)" (c_output_tokens c)
  ++ rate_ "Cumulative/Total token throughput (tokens/s)"
       (add_tokens (c_input_tokens c) (c_output_tokens c))
  ++ per "Cumulative/Mean TTFT (s)" (Some (c_ttft c)) (c_ttft_count c)
  ++ per "Cumulative/Mean TPOT (ms)" (Some (1000 * c_tpot c)%Q) (c_tpot_count c)
  ++ per "Cumulative/Mean ITL (ms)" (Some (1000 * c_itl c)%Q) (c_itl_count c).

(** [cumulative_series]: in completion order *)
Fixpoint cumulative_rows (c : CumulativeMetrics) (ms : list RequestMeasurement) : outcome (list row) :=
  match ms with
  | [] => Ok []
  | m :: ms =>
      c ← observe_cumulative m c;
      rest ← cumulative_rows c ms;
      Ok (cumulative_row (finished_at m) c :: rest)
  end.
Definition cumulative_series (ms : list RequestMeasurement) (stream_ : bool) : outcome (list row) :=
  cumulative_rows (new_cumulative stream_) (isort (by_key finished_at) (imap pair ms)).*2.

(** ** Completion windows *)

(** [int(x)] *)
Definition py_trunc (q : Q) : Z := Z.quot (Qnum q) (Zpos (Qden q)).

(** [CompletionWindows] *)
Record CompletionWindows := MkWindows {
  w_stream : bool;
  w_slo : bool;
  w_completed : gmap Z (list (RequestMeasurement * option bool));
  w_arrivals : gmap Z Z;
  w_events : list (Q * Z);
  w_index : Z;
  w_active : Z;
  w_position : Q;
}.
Definition new_windows (stream_ slo_ : bool) : CompletionWindows :=
  MkWindows stream_ slo_ ∅ ∅ [] 0 0 0.

(** [defaultdict] lookups *)
Definition bucket (k : Z) (m : gmap Z (list (RequestMeasurement * option bool)))
    : list (RequestMeasurement * option bool) := default [] (m !! k).
Definition tally (k : Z) (m : gmap Z Z) : Z := default 0 (m !! k).

(** [CompletionWindows.observe] *)
Definition observe_window (m : RequestMeasurement) (met : option bool) (w : CompletionWindows)
    : CompletionWindows :=
  let b := py_trunc (finished_at m) in
  let a := py_trunc (started_at m) in
  MkWindows (w_stream w) (w_slo w)
    (<[b := bucket b (w_completed w) ++ [(m, met)]]> (w_completed w))
    (<[a := tally a (w_arrivals w) + 1]> (w_arrivals w))
    (foldl (λ h e, insort event_leb e h) (w_events w) (request_events m))
    (w_index w) (w_active w) (w_position w).

(** One emitted window, before it is projected onto chart fields. *)
Record window := Window {
  o_finished : list (RequestMeasurement * option bool);
  o_elapsed : Q;
  o_width : Q;
  o_arrivals : Z;
  o_mean_active : Q;
}.

(** The inner loop: pop the events up to [right], accumulating the area under
    the concurrency curve. *)
Fixpoint pop_events (right area position : Q) (active : Z) (evs : list (Q * Z))
    : Q * Q * Z * list (Q * Z) :=
  match evs with
  | (t, change) :: evs' =>
      if Qle_bool t right
      then pop_events right (area + inject_Z active * (t - position))%Q t (active + change) evs'
      else (area, position, active, evs)
  | [] => (area, position, active, [])
  end.

(** One iteration of the outer loop. *)
Definition emit_window (end_ : Q) (w : CompletionWindows) : window * CompletionWindows :=
  let right := Qmin (inject_Z (w_index w + 1)) end_ in
  let width := (right - inject_Z (w_index w))%Q in
  let '(area, position, active, evs) :=
    pop_events right 0 (w_position w) (w_active w) (w_events w) in
  let area := (area + inject_Z active * (right - position))%Q in
  (Window (bucket (w_index w) (w_completed w)) right width (tally (w_index w) (w_arrivals w))
     (area / width)%Q,
   MkWindows (w_stream w) (w_slo w) (delete (w_index w) (w_completed w))
     (delete (w_index w) (w_arrivals w)) evs (w_index w + 1) active right).

Fixpoint emit_windows (n : nat) (end_ : Q) (w : CompletionWindows) : list window * CompletionWindows :=
  match n with
  | O => ([], w)
  | S n =>
      let '(o, w) := emit_window end_ w in
      let '(os, w) := emit_windows n end_ w in
      (o :: os, w)
  end.

(** A final window that ends on the last second takes that second's bucket. *)
Definition close_last (count : Z) (w : CompletionWindows) : CompletionWindows :=
  MkWindows (w_stream w) (w_slo w)
    (<[count - 1 := bucket (count - 1) (w_completed w) ++ bucket count (w_completed w)]>
       (delete count (w_completed w)))
    (<[count - 1 := tally (count - 1) (w_arrivals w) + tally count (w_arrivals w)]>
       (delete count (w_arrivals w)))
    (w_events w) (w_index w) (w_active w) (w_position w).

(** [CompletionWindows.rows] *)
Definition drain_windows (end_ : Q) (final : bool) (w : CompletionWindows)
    : list window * CompletionWindows :=
  let count := if final then Qceiling end_ else Qfloor end_ in
  let w := if final && negb (Qle_bool end_ 0) && Qeq_bool end_ (inject_Z (py_trunc end_))
           then close_last count w else w in
  emit_windows (Z.to_nat (count - w_index w)) end_ w.

Section Rows.
Context `{numpy}.

(** [completion_window] *)
Definition completion_window (stream_ slo_ : bool) (o : window) : row :=
  let rows := (o_finished o).*1 in
  let successful := keep succeeded rows in
  let n := length rows in
  let k := length successful in
  let width := o_width o in
  let tokens (label : string) (f : RequestMeasurement → option Z) (l : list RequestMeasurement) : row :=
    match complete_sum f l with Some t => [(label, inject_Z t / width)%Q] | None => [] end in
  let stats (label unit : string) (scale : Q) (values : list Q) : row :=
    let p := percentile_summary ((λ v, v * scale)%Q <$> values) in
    let field (name : string) (v : option Q) : row :=
      opt_field ("Time/" +:+ label +:+ " " +:+ name +:+ " (" +:+ unit +:+ ")") v in
    field "p50" (p50 p) ++ field "p95" (p95 p) ++ field "p99" (p99 p) in
  [(ELAPSED_TIME, o_elapsed o); ("Time/Window duration (s)", width);
   ("Time/Started requests per second", inject_Z (o_arrivals o) / width)%Q;
   ("Time/Completed requests in window", q_of_nat n);
   ("Time/Successful requests in window", q_of_nat k);
   ("Time/Failed requests in window", q_of_nat (n - k));
   ("Time/Request throughput (req/s)", q_of_nat k / width)%Q;
   ("Time/Mean in-flight requests", o_mean_active o)]
  ++ tokens "Time/Completed input tokens per second" input_tokens successful
  ++ tokens "Time/Completed output tokens per second" output_tokens successful
  ++ (if Nat.eqb n 0 then [] else [("Time/Failure rate (%)", 100 * q_of_nat (n - k) / q_of_nat n)%Q])
  ++ (if slo_ then
        let passing := (keep (λ e : RequestMeasurement * option bool, default false e.2)
                          (o_finished o)).*1 in
        let g := length passing in
        (if Nat.eqb n 0 then [] else [("Time/SLO attainment (%)", 100 * q_of_nat g / q_of_nat n)%Q])
        ++ [("Time/SLO request goodput (req/s)", q_of_nat g / width)%Q]
        ++ tokens "Time/SLO token goodput (tokens/s)" output_tokens passing
      else [])
  ++ stats "E2EL" "s" 1%Q (latency <$> successful)
  ++ (if stream_ then stats "TTFT" "s" 1%Q (omap ttft successful)
                      ++ stats "TPOT" "ms" 1000%Q (omap tpot successful) else []).

(** The window data of [time_series]. *)
Definition time_windows (ms : list (RequestMeasurement * option bool)) (duration : Q) (stream_ slo_ : bool)
    : list window :=
  match ms with
  | [] => []
  | m :: ms' =>
      let end_ := Qmax duration (foldl Qmax (finished_at m.1) ((λ e, finished_at e.1) <$> ms')) in
      let w := foldl (λ w e, observe_window e.1 e.2 w) (new_windows stream_ slo_) ms in
      (drain_windows end_ true w).1
  end.

(** [time_series] *)
Definition time_series (ms : list RequestMeasurement) (duration : Q) (stream_ : bool)
    (slo_met_ : option (list bool)) : outcome (list row) :=
  decided ← outcome_map (λ e : nat * RequestMeasurement,
    match slo_met_ with
    | None => Ok (e.2, None)
    | Some l => match l !! e.1 with Some d => Ok (e.2, Some d) | None => Raise IndexError end
    end) (imap pair ms);
  let slo_ := bool_decide (is_Some slo_met_) in
  Ok (completion_window stream_ slo_ <$> time_windows decided duration stream_ slo_).

(** ** Live publication ([HttpProgress]) *)

Record HttpProgress := MkProgress {
  h_stream : bool;
  h_criteria : option criteria;
  h_metrics : CumulativeMetrics;
  h_windows : CompletionWindows;
  h_active : list (string * (Z * Q));
  h_request_count : Z;
  h_origin : Q;
}.
Definition new_progress (stream_ : bool) (c : option criteria) : HttpProgress :=
  MkProgress stream_ c (new_cumulative stream_) (new_windows stream_ false) [] 0 0.

Definition start_progress (origin : Q) (h : HttpProgress) : HttpProgress :=
  MkProgress (h_stream h) (h_criteria h) (h_metrics h) (h_windows h) (h_active h)
    (h_request_count h) origin.

Definition request_started (id : string) (timestamp : Q) (h : HttpProgress) : HttpProgress :=
  let n := h_request_count h + 1 in
  MkProgress (h_stream h) (h_criteria h) (h_metrics h) (h_windows h)
    (dset id (n, timestamp - h_origin h)%Q (h_active h)) n (h_origin h).

Definition set_slo (b : bool) (w : CompletionWindows) : CompletionWindows :=
  MkWindows (w_stream w) b (w_completed w) (w_arrivals w) (w_events w) (w_index w) (w_active w)
    (w_position w).

Section Progress.
Variable parse_sla_params : list criteria → outcome (list (list (string * rule))).

(** [HttpProgress.observe]: the published row and the new state. *)
Definition observe_progress (m : RequestMeasurement) (h : HttpProgress) : outcome (row * HttpProgress) :=
  let id := default "" (request_id m) in
  match dget id (h_active h) with
  | None => Raise (KeyError id)
  | Some (index, _) =>
      slo_ ← request_slo_results parse_sla_params [m] (h_criteria h) 1;
      let decisions := match slo_ with Some s => request_slo_met s | None => None end in
      metrics ← observe_cumulative m (h_metrics h);
      met ← match decisions with
            | None => Ok None
            | Some (d :: _) => Ok (Some d)
            | Some [] => Raise IndexError
            end;
      let windows := observe_window m met (set_slo (bool_decide (is_Some decisions)) (h_windows h)) in
      Ok (dset REQUEST_INDEX (inject_Z index) (request_row (h_stream h) 1 met m),
          MkProgress (h_stream h) (h_criteria h) metrics windows (ddel id (h_active h))
            (h_request_count h) (h_origin h))
  end.

(** The earliest start of an unfinished request, or the elapsed time. *)
Definition safe_boundary (elapsed : Q) (h : HttpProgress) : Q :=
  match (λ e : string * (Z * Q), e.2.2) <$> h_active h with
  | [] => elapsed
  | t :: ts => foldl Qmin t ts
  end.

(** [HttpProgress.emit] *)
Definition emit_progress (elapsed : Q) (final : bool) (h : HttpProgress) : list row * HttpProgress :=
  let '(os, w) := drain_windows (safe_boundary elapsed h) final (h_windows h) in
  (cumulative_row elapsed (h_metrics h)
     :: (completion_window (w_stream (h_windows h)) (w_slo (h_windows h)) <$> os),
   MkProgress (h_stream h) (h_criteria h) (h_metrics h) w (h_active h) (h_request_count h) (h_origin h)).
End Progress.
End Rows.
