(* ===== verification/TimeSeriesProofs.v ===== *)
(** * Properties of the completion windows

    Every window that is emitted describes exactly one second of the run: the
    requests that finished in it, the requests that started in it, and the time
    requests spent in flight during it.  Windows emitted while the run executes
    describe the complete run although later requests are not known yet, and the
    windows of a saved run lose nothing. *)

From Stdlib Require Import Ascii Qminmax.
From S2P Require Import Prelude Text BenchConfig SloSearch Measurements MeasurementsProofs TimeSeries.

(** ** The specification of a window *)

(** A request with its SLO decision. *)
Abbreviation decided := (RequestMeasurement * option bool)%type.

Definition in_second (f : RequestMeasurement → Q) (k : Z) (e : decided) : bool :=
  py_trunc (f e.1) =? k.
(** The requests that finish, and the number that start, in second [k]. *)
Definition finished_in (all : list decided) (k : Z) : list decided :=
  keep (in_second finished_at k) all.
Definition started_in (all : list decided) (k : Z) : Z :=
  Z.of_nat (length (keep (in_second started_at k) all)).

Definition clamp (l r t : Q) : Q := Qmax l (Qmin t r).
(** The time a request is in flight between [l] and [r]. *)
Definition residence (l r : Q) (m : RequestMeasurement) : Q :=
  if Qle_bool (latency m) 0 then 0%Q else (clamp l r (finished_at m) - clamp l r (started_at m))%Q.
Definition occupancy (l r : Q) (all : list decided) : Q :=
  qsum ((λ e : decided, residence l r e.1) <$> all).

(** [o] describes the interval from second [k] to [r], when [F] and [G] give the
    completions and arrivals of each second. *)
Record window_spec (F : Z → list decided) (G : Z → Z) (all : list decided) (k : Z) (r : Q)
    (o : window) : Prop := {
  spec_finished : o_finished o = F k;
  spec_arrivals : o_arrivals o = G k;
  spec_elapsed : (o_elapsed o == r)%Q;
  spec_width : (o_width o == r - inject_Z k)%Q;
  spec_mean : (o_mean_active o * o_width o == occupancy (inject_Z k) r all)%Q;
}.

(** ** Areas *)

(** What one event adds to the area under the concurrency curve up to [r]. *)
Definition contribution (l r : Q) (e : Q * Z) : Q := (inject_Z e.2 * (r - clamp l r e.1))%Q.
Definition area_of (l r : Q) (evs : list (Q * Z)) : Q := qsum (contribution l r <$> evs).
Definition events_of (all : list decided) : list (Q * Z) := all.*1 ≫= request_events.

Lemma qsum_cons x l : qsum (x :: l) = (x + qsum l)%Q.
Proof. done. Qed.

Lemma qsum_perm a b : a ≡ₚ b → (qsum a == qsum b)%Q.
Proof.
  induction 1 as [|x a b _ IH|x y a|a b c _ IH1 _ IH2]; simpl; [reflexivity|by rewrite IH|ring|].
  by rewrite IH1.
Qed.

Lemma area_of_app l r a b : (area_of l r (a ++ b) == area_of l r a + area_of l r b)%Q.
Proof. unfold area_of. rewrite fmap_app. apply qsum_app. Qed.

Lemma area_of_perm l r a b : a ≡ₚ b → (area_of l r a == area_of l r b)%Q.
Proof. intros H. apply qsum_perm. by rewrite H. Qed.

Ltac qminmax :=
  repeat match goal with
  | |- context [Qmin ?a ?b] => destruct (Q.min_spec a b) as [[? ->]|[? ->]]
  | |- context [Qmax ?a ?b] => destruct (Q.max_spec a b) as [[? ->]|[? ->]]
  end.

Lemma clamp_le l r t : (l <= r)%Q → (t <= l)%Q → (clamp l r t == l)%Q.
Proof. unfold clamp. intros. qminmax; lra. Qed.
Lemma clamp_in l r t : (l <= t)%Q → (t <= r)%Q → (clamp l r t == t)%Q.
Proof. unfold clamp. intros. qminmax; lra. Qed.
Lemma clamp_ge l r t : (l <= r)%Q → (r <= t)%Q → (clamp l r t == r)%Q.
Proof. unfold clamp. intros. qminmax; lra. Qed.
Lemma clamp_split l m r t : (l <= m)%Q → (m <= r)%Q →
  (clamp l m t + clamp m r t == clamp l r t + m)%Q.
Proof. unfold clamp. intros. qminmax; lra. Qed.

Lemma inject_plus a b : (inject_Z (a + b) == inject_Z a + inject_Z b)%Q.
Proof. by rewrite inject_Z_plus. Qed.

Lemma area_of_past l r evs : (l <= r)%Q → Forall (λ e : Q * Z, e.1 <= l)%Q evs →
  (area_of l r evs == inject_Z (changes evs) * (r - l))%Q.
Proof.
  intros Hlr. unfold area_of. induction 1 as [|e evs He _ IH]; simpl; [ring|].
  unfold contribution at 1. rewrite IH, clamp_le, inject_plus by done. ring.
Qed.
Lemma area_of_future l r evs : (l <= r)%Q → Forall (λ e : Q * Z, r < e.1)%Q evs →
  (area_of l r evs == 0)%Q.
Proof.
  intros Hlr. unfold area_of. induction 1 as [|e evs He _ IH]; simpl; [ring|].
  unfold contribution at 1. rewrite IH, clamp_ge by (done || lra). ring.
Qed.

(** The occupancy of an interval is the area of the events. *)
Lemma occupancy_events l r all : (occupancy l r all == area_of l r (events_of all))%Q.
Proof.
  unfold occupancy, events_of. induction all as [|[m met] all IH]; [reflexivity|].
  rewrite !fmap_cons, bind_cons, area_of_app. simpl. rewrite IH.
  apply Qplus_comp; [|reflexivity]. unfold residence, request_events.
  destruct (Qle_bool (latency m) 0); simpl; [reflexivity|].
  unfold area_of, contribution. simpl. ring.
Qed.

(** ** The inner loop *)

(** It pops the events up to [right] and adds the area below them. *)
Lemma pop_events_spec right area p a evs area' p' a' evs' :
  StronglySorted (λ x y, event_leb x y = true) evs →
  pop_events right area p a evs = (area', p', a', evs') →
  ∃ pre, evs = pre ++ evs' ∧ Forall (λ e : Q * Z, e.1 <= right)%Q pre ∧
    Forall (λ e : Q * Z, right < e.1)%Q evs' ∧ a' = a + changes pre ∧
    (area' + inject_Z a' * (right - p') ==
     area + inject_Z a * (right - p) + qsum ((λ e : Q * Z, inject_Z e.2 * (right - e.1)) <$> pre))%Q.
Proof.
  intros Hs. revert area p a. induction Hs as [|[t c] evs Hs IH Ht]; intros area p a.
  - simpl. intros [= <- <- <- <-]. exists []. simpl. split_and!; [done..|lia|ring].
  - simpl. destruct (Qle_bool t right) eqn:E.
    + intros Hpop. apply IH in Hpop as (pre & -> & Hpre & Hpost & -> & Harea).
      exists ((t, c) :: pre). apply Qle_bool_iff in E. split_and!; [done|by constructor|done|simpl; lia|].
      rewrite Harea, inject_plus, fmap_cons, qsum_cons. cbn [fst snd]. ring.
    + intros [= <- <- <- <-]. exists []. apply Qle_bool_false in E.
      split_and!; [done..| |simpl; lia|simpl; ring].
      constructor; [done|]. eapply Forall_impl; [exact Ht|]. intros e He.
      apply event_leb_time in He. simpl in He. lra.
Qed.

(** ** The state of the windows *)

(** [w] has emitted everything up to position [p]: the events of [all] are the
    ones behind the position, which give the number of requests in flight, and
    the ones still in the heap. *)
Record windows_at (F : Z → list decided) (G : Z → Z) (all : list decided) (p : Q)
    (w : CompletionWindows) : Prop := {
  at_position : (w_position w == p)%Q;
  at_completed : ∀ k, w_index w ≤ k → bucket k (w_completed w) = F k;
  at_arrivals : ∀ k, w_index w ≤ k → tally k (w_arrivals w) = G k;
  at_sorted : StronglySorted (λ x y, event_leb x y = true) (w_events w);
  at_ahead : Forall (λ e : Q * Z, p <= e.1)%Q (w_events w);
  at_events : ∃ past, events_of all ≡ₚ past ++ w_events w ∧
    Forall (λ e : Q * Z, e.1 <= p)%Q past ∧ changes past = w_active w;
}.

Lemma bucket_delete j k m : k ≠ j → bucket k (delete j m) = bucket k m.
Proof. intros. unfold bucket. by rewrite lookup_delete_ne. Qed.
Lemma tally_delete j k m : k ≠ j → tally k (delete j m) = tally k m.
Proof. intros. unfold tally. by rewrite lookup_delete_ne. Qed.

Lemma windows_at_eq F G all p q w : (p == q)%Q → windows_at F G all p w → windows_at F G all q w.
Proof.
  intros E [? ? ? ? Ha (past & ? & Hp & ?)]. constructor; [by rewrite <-E|done..| |].
  - eapply Forall_impl; [exact Ha|]. simpl. intros. by rewrite <-E.
  - exists past. split_and!; [done| |done]. eapply Forall_impl; [exact Hp|]. simpl. intros. by rewrite <-E.
Qed.

Lemma area_pre l r pre : Forall (λ e : Q * Z, l <= e.1)%Q pre → Forall (λ e : Q * Z, e.1 <= r)%Q pre →
  (area_of l r pre == qsum ((λ e : Q * Z, inject_Z e.2 * (r - e.1)) <$> pre))%Q.
Proof.
  intros H1. unfold area_of. induction H1 as [|e pre He _ IH]; intros H2; [reflexivity|].
  apply Forall_cons in H2 as [H2 H2']. simpl. unfold contribution at 1.
  rewrite IH, clamp_in by done. reflexivity.
Qed.

(** One iteration emits the window it should and advances the position to the
    end of the window. *)
Lemma emit_window_spec F G all end_ w :
  windows_at F G all (inject_Z (w_index w)) w → (inject_Z (w_index w) < end_)%Q →
  let r := Qmin (inject_Z (w_index w + 1)) end_ in
  window_spec F G all (w_index w) r (emit_window end_ w).1 ∧
  windows_at F G all r (emit_window end_ w).2 ∧
  w_index (emit_window end_ w).2 = w_index w + 1.
Proof.
  intros [Hpos Hc Ha Hs Hahead (past & Hev & Hpast & Hact)] Hend r.
  set (l := inject_Z (w_index w)) in *.
  assert (l < r)%Q as Hlr.
  { unfold r, l in *. rewrite inject_plus in *. qminmax; change (inject_Z 1) with 1%Q in *; lra. }
  unfold emit_window. fold l r.
  destruct (pop_events r 0 (w_position w) (w_active w) (w_events w)) as [[[area p] a] evs] eqn:E.
  destruct (pop_events_spec _ _ _ _ _ _ _ _ _ Hs E) as (pre & Hsplit & Hpre & Hpost & -> & Harea).
  rewrite Hsplit in Hahead, Hs, Hev. apply Forall_app in Hahead as [Hahead _]. simpl. split_and!.
  - constructor; simpl; [by apply Hc|by apply Ha|reflexivity|reflexivity|].
    assert (~ r - l == 0)%Q by lra. rewrite Harea, occupancy_events, (area_of_perm _ _ _ _ Hev).
    pose proof (area_of_past l r past ltac:(lra) Hpast) as E1.
    pose proof (area_of_future l r evs ltac:(lra) Hpost) as E2.
    pose proof (area_pre l r pre Hahead Hpre) as E3.
    fold l. rewrite !area_of_app, E1, E2, E3, Hact, Hpos. field. done.
  - constructor; simpl.
    + reflexivity.
    + intros k Hk. rewrite bucket_delete by lia. apply Hc. lia.
    + intros k Hk. rewrite tally_delete by lia. apply Ha. lia.
    + by eapply StronglySorted_app_r.
    + eapply Forall_impl; [exact Hpost|]. simpl. intros. lra.
    + exists (past ++ pre). rewrite <-app_assoc. split_and!; [done| |by rewrite changes_app, Hact].
      apply Forall_app. split; [|done]. eapply Forall_impl; [exact Hpast|]. simpl. intros. lra.
  - done.
Qed.

(** ** The outer loop *)

Lemma inject_lt a b : a < b → (inject_Z a < inject_Z b)%Q.
Proof. rewrite <-Zlt_Qlt. done. Qed.
Lemma inject_le a b : a ≤ b → (inject_Z a <= inject_Z b)%Q.
Proof. rewrite <-Zle_Qle. done. Qed.

Lemma emit_windows_spec F G all end_ n w os w' :
  windows_at F G all (inject_Z (w_index w)) w →
  (∀ i : nat, (i < n)%nat → inject_Z (w_index w + Z.of_nat i) < end_)%Q →
  emit_windows n end_ w = (os, w') →
  length os = n ∧ w_index w' = w_index w + Z.of_nat n ∧
  (n ≠ O → windows_at F G all (Qmin (inject_Z (w_index w + Z.of_nat n)) end_) w') ∧
  (∀ (i : nat) o, os !! i = Some o →
     window_spec F G all (w_index w + Z.of_nat i)
       (Qmin (inject_Z (w_index w + Z.of_nat i + 1)) end_) o).
Proof.
  revert w os w'. induction n as [|n IH]; intros w os w' Hw Hlt; simpl.
  { intros [= <- <-]. split_and!; [done|lia|done|]. intros i o Ho. by rewrite lookup_nil in Ho. }
  assert (inject_Z (w_index w) < end_)%Q as H0.
  { specialize (Hlt O ltac:(lia)). by rewrite Z.add_0_r in Hlt. }
  destruct (emit_window_spec F G all end_ w Hw H0) as (Ho & Hw1 & Hidx).
  destruct (emit_window end_ w) as [o1 w1]. simpl in *.
  destruct (emit_windows n end_ w1) as [os1 w2] eqn:E. intros [= <- <-].
  destruct n as [|n].
  { simpl in E. injection E as <- <-. split_and!; [done|lia| |].
    - intros _. exact Hw1.
    - intros [|i] o; [|discriminate]. intros [= <-]. by rewrite Z.add_0_r. }
  assert (Qmin (inject_Z (w_index w + 1)) end_ == inject_Z (w_index w1))%Q as Er.
  { rewrite Hidx. apply Q.min_l. by apply Qlt_le_weak, (Hlt 1%nat ltac:(lia)). }
  eapply windows_at_eq in Hw1; [|exact Er].
  destruct (IH w1 os1 w2 Hw1) as (Hlen & Hi & Hpos & Hall); [|done|].
  { intros i Hi. rewrite Hidx. specialize (Hlt (S i) ltac:(lia)).
    replace (w_index w + 1 + Z.of_nat i) with (w_index w + Z.of_nat (S i)) by lia. done. }
  rewrite Hidx in *. split_and!; [simpl; lia|lia| |].
  - intros _. replace (w_index w + Z.of_nat (S (S n))) with (w_index w + 1 + Z.of_nat (S n)) by lia. auto.
  - intros [|i] o; simpl; [intros [= <-]; by rewrite Z.add_0_r|]. intros Hio. apply Hall in Hio.
    by replace (w_index w + Z.of_nat (S i)) with (w_index w + 1 + Z.of_nat i) by lia.
Qed.

(** ** Observing requests *)

Lemma events_of_app a b : events_of (a ++ b) = events_of a ++ events_of b.
Proof. unfold events_of. by rewrite fmap_app, bind_app. Qed.

Lemma push_events evs h : foldl (λ h e, insort event_leb e h) h evs ≡ₚ h ++ evs.
Proof.
  revert h. induction evs as [|e evs IH]; intros h; simpl; [by rewrite app_nil_r|].
  by rewrite IH, insort_perm, <-Permutation_middle.
Qed.
Lemma push_sorted evs h :
  StronglySorted (λ x y, event_leb x y = true) h →
  StronglySorted (λ x y, event_leb x y = true) (foldl (λ h e, insort event_leb e h) h evs).
Proof.
  revert h. induction evs as [|e evs IH]; intros h Hh; simpl; [done|].
  by apply IH, (insort_sorted event_leb event_leb_total event_leb_trans).
Qed.

Lemma finished_in_snoc all m met k :
  finished_in (all ++ [(m, met)]) k =
  finished_in all k ++ (if py_trunc (finished_at m) =? k then [(m, met)] else []).
Proof. unfold finished_in. by rewrite keep_app, keep_cons. Qed.
Lemma started_in_snoc all m met k :
  started_in (all ++ [(m, met)]) k =
  started_in all k + (if py_trunc (started_at m) =? k then 1 else 0).
Proof.
  unfold started_in. rewrite keep_app, keep_cons, length_app. unfold in_second at 2. simpl.
  destruct (py_trunc (started_at m) =? k); simpl; lia.
Qed.

(** A request that starts at or after the position keeps the state right. *)
Lemma observe_window_at all p w m met :
  windows_at (finished_in all) (started_in all) all p w → (p <= started_at m)%Q →
  windows_at (finished_in (all ++ [(m, met)])) (started_in (all ++ [(m, met)])) (all ++ [(m, met)]) p
    (observe_window m met w).
Proof.
  intros [Hpos Hc Ha Hs Hahead (past & Hev & Hpast & Hact)] Hp. constructor; simpl.
  - done.
  - intros k Hk. rewrite finished_in_snoc, <-Hc by done. unfold bucket.
    destruct (Z.eqb_spec (py_trunc (finished_at m)) k) as [<-|Hne].
    + by rewrite lookup_insert_eq.
    + rewrite lookup_insert_ne by done. by rewrite app_nil_r.
  - intros k Hk. rewrite started_in_snoc, <-Ha by done. unfold tally.
    destruct (Z.eqb_spec (py_trunc (started_at m)) k) as [<-|Hne].
    + by rewrite lookup_insert_eq.
    + rewrite lookup_insert_ne by done. lia.
  - by apply push_sorted.
  - rewrite push_events. apply Forall_app. split; [done|]. unfold request_events.
    destruct (Qle_bool (latency m) 0) eqn:E; simpl; [constructor|].
    apply Qle_bool_false in E. repeat constructor; simpl; [done|]. unfold finished_at. lra.
  - exists past. split_and!; [|done..]. rewrite push_events, events_of_app, Hev, <-app_assoc.
    unfold events_of at 1. simpl. by rewrite app_nil_r.
Qed.

(** ** Later requests do not change an emitted window *)

Lemma py_trunc_floor q : (0 <= q)%Q → py_trunc q = Qfloor q.
Proof.
  destruct q as [n d]. unfold Qle, py_trunc. simpl. intros. apply Z.quot_div_nonneg; lia.
Qed.
Lemma py_trunc_ge z q : 0 ≤ z → (inject_Z z <= q)%Q → z ≤ py_trunc q.
Proof.
  intros Hz Hq. rewrite py_trunc_floor.
  - rewrite <-(Qfloor_Z z). by apply Qfloor_resp_le.
  - apply (inject_le 0) in Hz. change (inject_Z 0) with 0%Q in Hz. lra.
Qed.

Lemma residence_later l r m : (l <= r)%Q → (r <= started_at m)%Q → (residence l r m == 0)%Q.
Proof.
  intros. unfold residence. destruct (Qle_bool (latency m) 0) eqn:E; [reflexivity|].
  apply Qle_bool_false in E. rewrite !clamp_ge by (unfold finished_at; lra). ring.
Qed.

Lemma window_spec_later all m met (k : nat) o :
  window_spec (finished_in all) (started_in all) all (Z.of_nat k) (inject_Z (Z.of_nat k + 1)) o →
  (inject_Z (Z.of_nat k + 1) <= started_at m)%Q → (0 <= latency m)%Q →
  window_spec (finished_in (all ++ [(m, met)])) (started_in (all ++ [(m, met)])) (all ++ [(m, met)])
    (Z.of_nat k) (inject_Z (Z.of_nat k + 1)) o.
Proof.
  intros [Hf Ha He Hw Hm] Hs Hl.
  pose proof (py_trunc_ge (Z.of_nat k + 1) (started_at m) ltac:(lia) Hs) as H1.
  pose proof (py_trunc_ge (Z.of_nat k + 1) (finished_at m) ltac:(lia)
                ltac:(unfold finished_at; lra)) as H2.
  constructor; [| |done..|].
  - rewrite finished_in_snoc. destruct (Z.eqb_spec (py_trunc (finished_at m)) (Z.of_nat k)); [lia|].
    by rewrite app_nil_r.
  - rewrite started_in_snoc. destruct (Z.eqb_spec (py_trunc (started_at m)) (Z.of_nat k)); lia.
  - rewrite Hm. unfold occupancy. rewrite fmap_app, qsum_app, fmap_cons, qsum_cons. cbn [fst].
    rewrite residence_later by (auto using inject_le with lia). cbn. ring.
Qed.

(** ** Saved windows *)

Definition run_end (duration : Q) (ms : list decided) : Q :=
  match ms with
  | [] => duration
  | m :: ms' => Qmax duration (foldl Qmax (finished_at m.1) ((λ e : decided, finished_at e.1) <$> ms'))
  end.

Lemma foldl_Qmax_ge (x : Q) l : (x <= foldl Qmax x l)%Q ∧ Forall (λ y, y <= foldl Qmax x l)%Q l.
Proof.
  revert x. induction l as [|y l IH]; intros x; simpl; [split; [apply Qle_refl|constructor]|].
  destruct (IH (Qmax x y)) as [H1 H2]. split; [|constructor; [|done]].
  - eapply Qle_trans; [apply Q.le_max_l|exact H1].
  - eapply Qle_trans; [apply Q.le_max_r|exact H1].
Qed.

Lemma run_end_ge duration ms :
  (duration <= run_end duration ms)%Q ∧ Forall (λ e : decided, finished_at e.1 <= run_end duration ms)%Q ms.
Proof.
  destruct ms as [|m ms]; simpl; [split; [apply Qle_refl|constructor]|].
  destruct (foldl_Qmax_ge (finished_at m.1) ((λ e : decided, finished_at e.1) <$> ms)) as [H1 H2].
  set (M := foldl _ _ _) in *. pose proof (Q.le_max_r duration M).
  split; [apply Q.le_max_l|]. constructor; [by eapply Qle_trans|].
  rewrite Forall_forall in H2. apply Forall_forall. intros e He. eapply Qle_trans; [|done]. apply H2.
  apply list_elem_of_fmap. by exists e.
Qed.

Lemma observed_at stream_ slo_ ms : Forall (λ e : decided, 0 <= started_at e.1)%Q ms →
  let w := foldl (λ w e, observe_window e.1 e.2 w) (new_windows stream_ slo_) ms in
  w_index w = 0 ∧ windows_at (finished_in ms) (started_in ms) ms 0 w.
Proof.
  induction ms as [|[m met] ms IH] using rev_ind; intros Hall.
  - split; [done|]. constructor; simpl; [reflexivity|intros..| | |].
    + unfold bucket. by rewrite lookup_empty.
    + unfold tally. by rewrite lookup_empty.
    + constructor.
    + constructor.
    + by exists [].
  - apply Forall_app in Hall as [Hall Hm]. apply Forall_cons in Hm as [Hm _].
    destruct (IH Hall) as [Hi Hw]. rewrite foldl_snoc. simpl. split; [exact Hi|].
    by apply observe_window_at.
Qed.

(** [closed b n L] moves the last, empty second into the one before. *)
Definition closed {A} (b : bool) (count : Z) (L : Z → list A) (k : Z) : list A :=
  if b then if k =? count - 1 then L (count - 1) ++ L count else if k =? count then [] else L k
  else L k.
Definition starting_in (all : list decided) (k : Z) : list decided := keep (in_second started_at k) all.

Lemma close_last_at all p count w : w_index w ≤ count - 1 →
  windows_at (finished_in all) (started_in all) all p w →
  windows_at (closed true count (finished_in all))
    (λ k, Z.of_nat (length (closed true count (starting_in all) k))) all p (close_last count w).
Proof.
  intros Hi [Hpos Hc Ha Hs Hahead Hev]. constructor; simpl; [done| | |done..].
  - intros k Hk. unfold closed.
    destruct (Z.eqb_spec k (count - 1)) as [->|].
    { rewrite <-!Hc by lia. unfold bucket. by rewrite lookup_insert_eq. }
    unfold bucket. rewrite lookup_insert_ne by done.
    destruct (Z.eqb_spec k count) as [->|]; [by rewrite lookup_delete_eq|].
    rewrite lookup_delete_ne by done. apply (Hc k Hk).
  - intros k Hk. unfold closed, tally.
    destruct (Z.eqb_spec k (count - 1)) as [->|].
    { rewrite lookup_insert_eq, length_app. simpl. fold (tally (count - 1) (w_arrivals w)).
      fold (tally count (w_arrivals w)). rewrite !Ha by lia. unfold started_in, starting_in. lia. }
    rewrite lookup_insert_ne by done.
    destruct (Z.eqb_spec k count) as [->|]; [by rewrite lookup_delete_eq|].
    rewrite lookup_delete_ne by done. apply (Ha k Hk).
Qed.

Lemma ceiling_gt i q : i < Qceiling q → (inject_Z i < q)%Q.
Proof.
  intros H. eapply Qle_lt_trans; [|apply Qceiling_lt]. apply inject_le. lia.
Qed.

(** Whether the run ends exactly on a second. *)
Definition whole (end_ : Q) : bool := Qeq_bool end_ (inject_Z (py_trunc end_)).

Lemma time_windows_spec ms duration stream_ slo_ :
  ms ≠ [] → (0 < duration)%Q → Forall (λ e : decided, 0 <= started_at e.1)%Q ms →
  let end_ := run_end duration ms in
  let os := time_windows ms duration stream_ slo_ in
  length os = Z.to_nat (Qceiling end_) ∧
  (∀ (i : nat) o, os !! i = Some o →
     window_spec (closed (whole end_) (Qceiling end_) (finished_in ms))
       (λ k, Z.of_nat (length (closed (whole end_) (Qceiling end_) (starting_in ms) k))) ms
       (Z.of_nat i) (Qmin (inject_Z (Z.of_nat i + 1)) end_) o).
Proof.
  intros Hne Hd Hall end_ os. destruct (observed_at stream_ slo_ ms Hall) as [Hi Hw].
  destruct (run_end_ge duration ms) as [Hend _].
  assert (0 < end_)%Q as Hpos by (unfold end_; lra).
  assert (1 ≤ Qceiling end_) as Hcount.
  { destruct (Z.le_gt_cases 1 (Qceiling end_)) as [|Hc]; [done|]. pose proof (Qle_ceiling end_).
    assert (inject_Z (Qceiling end_) <= 0)%Q by (apply (inject_le _ 0); lia). lra. }
  assert (os = (drain_windows end_ true
    (foldl (λ w e, observe_window e.1 e.2 w) (new_windows stream_ slo_) ms)).1) as Eos.
  { unfold os, time_windows, end_. destruct ms; [done|]. reflexivity. }
  set (w := foldl _ _ ms) in *. unfold drain_windows in Eos.
  rewrite (proj2 (Qle_bool_false end_ 0) Hpos) in Eos. simpl in Eos. fold (whole end_) in Eos.
  set (F := closed (whole end_) (Qceiling end_) (finished_in ms)).
  set (G := λ k, Z.of_nat (length (closed (whole end_) (Qceiling end_) (starting_in ms) k))).
  set (w1 := if whole end_ then close_last (Qceiling end_) w else w) in *.
  assert (w_index w1 = 0 ∧ windows_at F G ms (inject_Z (w_index w1)) w1) as [Hi1 Hw1].
  { unfold w1, F, G. destruct (whole end_).
    - split; [done|]. simpl. rewrite Hi. apply close_last_at; [lia|done].
    - by rewrite Hi. }
  rewrite Hi1, Z.sub_0_r in Eos.
  destruct (emit_windows (Z.to_nat (Qceiling end_)) end_ w1) as [os' w'] eqn:E. simpl in Eos. subst os'.
  destruct (emit_windows_spec F G ms end_ (Z.to_nat (Qceiling end_)) w1 os w' Hw1) as (Hlen & _ & _ & Hspec); [|exact E|].
  - intros i Hlt. rewrite Hi1. apply ceiling_gt. lia.
  - split; [done|]. intros i o Ho. specialize (Hspec i o Ho). by rewrite Hi1 in Hspec.
Qed.

(** ** Nothing is lost in a saved run *)

Lemma concat_seconds (f : RequestMeasurement → Q) (all : list decided) (n : nat) :
  Forall (λ e : decided, 0 ≤ py_trunc (f e.1) < Z.of_nat n) all →
  concat ((λ i, keep (in_second f (Z.of_nat i)) all) <$> seq 0 n) ≡ₚ all.
Proof.
  intros Hall.
  assert (concat ((λ i, keep (in_second f (Z.of_nat i)) all) <$> seq 0 n)
            ≡ₚ keep (λ e : decided, py_trunc (f e.1) <? Z.of_nat n) all) as ->.
  - assert (Forall (λ e : decided, 0 ≤ py_trunc (f e.1)) all) as Hpos.
    { eapply Forall_impl; [exact Hall|]. simpl. lia. }
    clear Hall. induction n as [|n IH].
    + simpl. symmetry. apply Permutation_nil_r, keep_nil_Forall. intros e He.
      rewrite Forall_forall in Hpos. by apply Z.ltb_ge, (Hpos e He).
    + rewrite seq_S, fmap_app, concat_app, IH. simpl. rewrite app_nil_r. clear IH.
      induction Hpos as [|e all He _ IHl]; [done|]. rewrite !keep_cons. unfold in_second at 1.
      destruct (Z.ltb_spec (py_trunc (f e.1)) (Z.of_nat n)), (Z.eqb_spec (py_trunc (f e.1)) (Z.of_nat n)),
        (Z.ltb_spec (py_trunc (f e.1)) (Z.of_nat (S n))); try lia.
      * simpl. by rewrite IHl.
      * rewrite <-Permutation_middle. by rewrite IHl.
      * done.
  - induction Hall as [|e all He _ IH]; [done|]. rewrite keep_cons.
    destruct (Z.ltb_spec (py_trunc (f e.1)) (Z.of_nat n)); [by rewrite IH|lia].
Qed.

Lemma concat_closed {A} (b : bool) (n : nat) (L : Z → list A) :
  concat ((λ i, closed b (Z.of_nat (S n)) L (Z.of_nat i)) <$> seq 0 (S n)) =
  concat ((λ i, L (Z.of_nat i)) <$> seq 0 (if b then S (S n) else S n)).
Proof.
  destruct b; [|done]. rewrite !seq_S, !fmap_app, !concat_app. simpl. rewrite !app_nil_r, <-app_assoc.
  f_equal.
  - f_equal. apply list_fmap_ext. intros i x Hx. apply lookup_seq in Hx as [-> Hlt]. rewrite Nat.add_0_l.
    unfold closed. cbv beta.
    destruct (Z.eqb_spec (Z.of_nat i) (Z.of_nat (S n) - 1)), (Z.eqb_spec (Z.of_nat i) (Z.of_nat (S n)));
      [lia..|done].
  - unfold closed. destruct (Z.eqb_spec (Z.of_nat n) (Z.of_nat (S n) - 1)); [|lia].
    by replace (Z.of_nat (S n) - 1) with (Z.of_nat n) by lia.
Qed.

Lemma occupancy_eq l l' r r' all : (l == l')%Q → (r == r')%Q → (occupancy l r all == occupancy l' r' all)%Q.
Proof.
  intros E1 E2. unfold occupancy. induction all as [|e all IH]; [reflexivity|].
  rewrite !fmap_cons, !qsum_cons, IH. apply Qplus_comp; [|reflexivity].
  unfold residence. destruct (Qle_bool _ _); [reflexivity|]. unfold clamp. by rewrite E1, E2.
Qed.
Lemma occupancy_split l m r all : (l <= m)%Q → (m <= r)%Q →
  (occupancy l m all + occupancy m r all == occupancy l r all)%Q.
Proof.
  intros H1 H2. unfold occupancy. induction all as [|e all IH]; [reflexivity|].
  rewrite !fmap_cons, !qsum_cons, <-IH. unfold residence at 1 3 5.
  destruct (Qle_bool _ _); [ring|].
  pose proof (clamp_split l m r (finished_at e.1) H1 H2).
  pose proof (clamp_split l m r (started_at e.1) H1 H2). cbv beta. lra.
Qed.
Lemma occupancy_whole end_ all :
  Forall (λ e : decided, 0 <= started_at e.1 ∧ 0 <= latency e.1 ∧ finished_at e.1 <= end_)%Q all →
  (occupancy 0 end_ all == qsum ((λ e : decided, latency e.1) <$> all))%Q.
Proof.
  unfold occupancy. induction 1 as [|e all (H1 & H2 & H3) _ IH]; [reflexivity|].
  rewrite !fmap_cons, !qsum_cons, IH. apply Qplus_comp; [|reflexivity]. unfold residence.
  destruct (Qle_bool (latency e.1) 0) eqn:E.
  - apply Qle_bool_iff in E. lra.
  - apply Qle_bool_false in E. unfold finished_at in *. rewrite !clamp_in by lra. ring.
Qed.

(** The occupancies of consecutive windows add up. *)
Lemma occupancy_windows end_ all (n : nat) :
  (∀ i : nat, (i < n)%nat → inject_Z (Z.of_nat i) < end_)%Q → (0 < end_)%Q →
  (qsum ((λ i : nat, occupancy (inject_Z (Z.of_nat i)) (Qmin (inject_Z (Z.of_nat i + 1)) end_) all)
     <$> seq 0 n) == occupancy 0 (Qmin (inject_Z (Z.of_nat n)) end_) all)%Q.
Proof.
  intros Hlt Hend. induction n as [|n IH].
  - cbn [seq fmap list_fmap]. rewrite (occupancy_eq 0 0 _ 0); [|reflexivity|apply Q.min_l; cbn; lra].
    unfold occupancy. clear. induction all as [|e all IH]; [reflexivity|].
    rewrite fmap_cons, qsum_cons, <-IH. unfold residence.
    destruct (Qle_bool _ _); [reflexivity|]. unfold clamp. qminmax; try qminmax; cbn; lra.
  - rewrite seq_S, fmap_app, qsum_app, IH by (intros; apply Hlt; lia).
    rewrite fmap_cons, qsum_cons. cbn [fmap list_fmap qsum foldr]. rewrite Nat.add_0_l.
    specialize (Hlt n ltac:(lia)).
    assert (0 <= inject_Z (Z.of_nat n))%Q by (apply (inject_le 0); lia).
    rewrite (occupancy_eq 0 0 _ (inject_Z (Z.of_nat n))); [|reflexivity|apply Q.min_l; lra].
    replace (Z.of_nat (S n)) with (Z.of_nat n + 1) by lia.
    rewrite Qplus_0_r. apply occupancy_split; [done|].
    apply Q.min_glb; [apply inject_le; lia|lra].
Qed.

Lemma fmap_from_lookup {A B} (f : A → B) (g : nat → B) (l : list A) :
  (∀ i x, l !! i = Some x → f x = g i) → f <$> l = g <$> seq 0 (length l).
Proof.
  intros H. apply list_eq. intros i. rewrite !list_lookup_fmap.
  destruct (l !! i) as [x|] eqn:E; simpl.
  - rewrite lookup_seq_lt by (by eapply lookup_lt_Some). simpl. f_equal. eauto.
  - apply lookup_ge_None in E. by rewrite (lookup_ge_None_2 (seq 0 (length l))) by (by rewrite length_seq).
Qed.

Lemma qsum_from_lookup {A} (f : A → Q) (g : nat → Q) (l : list A) (k : nat) :
  (∀ i x, l !! i = Some x → f x == g (k + i)%nat)%Q → (qsum (f <$> l) == qsum (g <$> seq k (length l)))%Q.
Proof.
  revert k. induction l as [|x l IH]; intros k H; [reflexivity|].
  cbn [length seq]. rewrite !fmap_cons, !qsum_cons, (H O x eq_refl), Nat.add_0_r.
  apply Qplus_comp; [reflexivity|]. apply IH. intros i y Hy.
  rewrite (H (S i) y Hy), Nat.add_succ_r. reflexivity.
Qed.

Lemma seconds_bounded (f : RequestMeasurement → Q) end_ (ms : list decided) (n : nat) :
  Qceiling end_ = Z.of_nat (S n) → (0 < end_)%Q →
  Forall (λ e : decided, 0 <= f e.1 ∧ f e.1 <= end_)%Q ms →
  Forall (λ e : decided, 0 ≤ py_trunc (f e.1) < Z.of_nat (if whole end_ then S (S n) else S n)) ms.
Proof.
  intros Hn Hpos Hall. eapply Forall_impl; [exact Hall|]. intros e [H0 H1]. rewrite py_trunc_floor by done. split.
  { rewrite <-(Qfloor_Z 0). by apply Qfloor_resp_le. }
  apply Qfloor_resp_le in H1. pose proof (Qfloor_le end_) as Hf. pose proof (Qle_ceiling end_) as Hc.
  assert (Qfloor end_ ≤ Qceiling end_) by (rewrite Zle_Qle; lra).
  unfold whole. destruct (Qeq_bool end_ _) eqn:E; [lia|].
  assert (Qfloor end_ ≠ Qceiling end_); [|lia]. intros Heq.
  apply Qeq_bool_neq in E. rewrite py_trunc_floor in E by lra. apply E. rewrite <-Heq in Hc. lra.
Qed.

Definition total_arrivals (os : list window) : Z := foldr (λ o acc, o_arrivals o + acc) 0 os.

Lemma total_arrivals_lengths {A} (os : list window) (L : list (list A)) :
  o_arrivals <$> os = (λ l, Z.of_nat (length l)) <$> L → total_arrivals os = Z.of_nat (length (concat L)).
Proof.
  revert L. induction os as [|o os IH]; intros [|l L]; simpl; try done. intros [= Ho Hos].
  rewrite (IH _ Hos), length_app. lia.
Qed.

(** The windows of a saved run account for it completely: together they
    hold every request exactly once (whether it succeeded or not), their arrivals
    count every request, and their mean concurrency, weighted by width, is the
    total time the requests spent in flight. *)
Theorem saved_windows_conserve ms duration stream_ slo_ :
  ms ≠ [] → (0 < duration)%Q →
  Forall (λ e : decided, 0 <= started_at e.1 ∧ 0 <= latency e.1)%Q ms →
  let os := time_windows ms duration stream_ slo_ in
  concat (o_finished <$> os) ≡ₚ ms ∧
  total_arrivals os = Z.of_nat (length ms) ∧
  (qsum ((λ o, o_mean_active o * o_width o) <$> os) == qsum ((λ e : decided, latency e.1) <$> ms))%Q.
Proof.
  intros Hne Hd Hall os. destruct (run_end_ge duration ms) as [Hend Hfin].
  destruct (time_windows_spec ms duration stream_ slo_ Hne Hd) as [Hlen Hspec].
  { eapply Forall_impl; [exact Hall|]. by intros e [? ?]. }
  fold os in Hlen, Hspec. set (end_ := run_end duration ms) in *.
  assert (0 < end_)%Q as Hpos by lra.
  assert (∃ n, Qceiling end_ = Z.of_nat (S n)) as [n Hn].
  { exists (Z.to_nat (Qceiling end_ - 1)). pose proof (Qle_ceiling end_).
    destruct (Z.le_gt_cases 1 (Qceiling end_)); [lia|].
    assert (inject_Z (Qceiling end_) <= 0)%Q by (apply (inject_le _ 0); lia). lra. }
  rewrite Hn, Nat2Z.id in Hlen. rewrite Hn in Hspec.
  assert (Forall (λ e : decided, 0 <= started_at e.1 ∧ 0 <= latency e.1 ∧ finished_at e.1 <= end_)%Q ms)
    as Hms.
  { apply Forall_forall. intros e He. rewrite Forall_forall in Hall, Hfin.
    destruct (Hall e He). split_and!; auto. }
  split_and!.
  - rewrite (fmap_from_lookup _ (λ i, closed (whole end_) (Z.of_nat (S n)) (finished_in ms) (Z.of_nat i))).
    + rewrite Hlen, concat_closed. apply concat_seconds, (seconds_bounded _ end_); [done..|].
      eapply Forall_impl; [exact Hms|]. unfold finished_at. intros e (? & ? & ?). split; [lra|done].
    + intros i o Ho. by destruct (Hspec i o Ho).
  - rewrite (total_arrivals_lengths _
      ((λ i, closed (whole end_) (Z.of_nat (S n)) (starting_in ms) (Z.of_nat i)) <$> seq 0 (S n))).
    + rewrite concat_closed. unfold starting_in. rewrite concat_seconds; [done|].
      apply (seconds_bounded _ end_); [done..|]. eapply Forall_impl; [exact Hms|].
      unfold finished_at. intros e (? & ? & ?). split; [done|lra].
    + rewrite <-list_fmap_compose. replace (seq 0 (S n)) with (seq 0 (length os)) by (by rewrite Hlen).
      apply fmap_from_lookup. intros i o Ho.
      apply (spec_arrivals _ _ _ _ _ _ (Hspec i o Ho)).
  - rewrite <-(occupancy_whole end_) by done.
    assert (∀ i : nat, (i < S n)%nat → inject_Z (Z.of_nat i) < end_)%Q as Hlt.
    { intros i Hi. apply ceiling_gt. lia. }
    rewrite <-(occupancy_eq 0 0 (Qmin (inject_Z (Z.of_nat (S n))) end_) end_);
      [|reflexivity|apply Q.min_r; rewrite <-Hn; apply Qle_ceiling].
    rewrite <-occupancy_windows by done. rewrite <-Hlen. apply qsum_from_lookup. intros i o Ho.
    by destruct (Hspec i o Ho).
Qed.

(** ** Live publication *)

Section Live.
Context `{numpy}.
Variable parse_sla_params : list criteria → outcome (list (list (string * rule))).

(** The decision [observe] attaches to a request. *)
Definition slo_decision (c : option criteria) (m : RequestMeasurement) : option bool :=
  match request_slo_results parse_sla_params [m] c 1 with
  | Ok (Some s) => match request_slo_met s with Some (d :: _) => Some d | _ => None end
  | _ => None
  end.

Abbreviation id_of m := (default "" (request_id m)).

(** A run as the scheduler drives it.  Requests are started under fresh
    identifiers on a clock that does not go back; a completed request started no
    earlier than it was announced; [emit] is called with the current time.  The
    relation collects the observed requests and the emitted windows. *)
Inductive live_run : Q → HttpProgress → list decided → list window → Prop :=
| live_new origin stream_ c :
    live_run 0 (start_progress origin (new_progress stream_ c)) [] []
| live_started now h all os id t :
    live_run now h all os → dget id (h_active h) = None → (now <= t - h_origin h)%Q →
    live_run (t - h_origin h) (request_started id t h) all os
| live_observed now h all os m i s published h' :
    live_run now h all os → dget (id_of m) (h_active h) = Some (i, s) →
    (s <= started_at m)%Q → (0 <= latency m)%Q →
    observe_progress parse_sla_params m h = Ok (published, h') →
    live_run now h' (all ++ [(m, slo_decision (h_criteria h) m)]) os
| live_emitted now h all os elapsed :
    live_run now h all os → (now <= elapsed)%Q →
    live_run elapsed (emit_progress elapsed false h).2 all
      (os ++ (drain_windows (safe_boundary elapsed h) false (h_windows h)).1).

(** What holds between the calls. *)
Record live_inv (now : Q) (h : HttpProgress) (all : list decided) (os : list window) : Prop := {
  live_keys : NoDup (h_active h).*1;
  live_index : w_index (h_windows h) = Z.of_nat (length os);
  live_now : (inject_Z (w_index (h_windows h)) <= now)%Q;
  live_active : ∀ id i s, (id, (i, s)) ∈ h_active h →
    (inject_Z (w_index (h_windows h)) <= s)%Q ∧ (s <= now)%Q;
  live_at : windows_at (finished_in all) (started_in all) all (inject_Z (w_index (h_windows h)))
              (h_windows h);
  live_all : Forall (λ e : decided, 0 <= started_at e.1 ∧ 0 <= latency e.1)%Q all;
  live_windows : ∀ (k : nat) o, os !! k = Some o →
    window_spec (finished_in all) (started_in all) all (Z.of_nat k) (inject_Z (Z.of_nat k + 1)) o;
}.

Lemma observe_progress_windows m h published h' :
  observe_progress parse_sla_params m h = Ok (published, h') →
  h_active h' = ddel (id_of m) (h_active h) ∧ ∃ b,
  h_windows h' = observe_window m (slo_decision (h_criteria h) m) (set_slo b (h_windows h)).
Proof.
  unfold observe_progress, slo_decision. destruct (dget _ _) as [[i s]|]; [|done]. simpl.
  destruct (request_slo_results _ _ _ _) as [slo_|e]; simpl; [|done].
  destruct (observe_cumulative _ _) as [c|e]; simpl; [|done].
  destruct slo_ as [s0|]; simpl; [destruct (request_slo_met s0) as [[|d l]|]; simpl|]; [done|..];
    intros [= <- <-]; simpl; (split; [done|]); eexists; reflexivity.
Qed.

Lemma set_slo_at F G all p b w : windows_at F G all p w → windows_at F G all p (set_slo b w).
Proof. intros []. by constructor. Qed.

Lemma safe_boundary_le elapsed h : (∀ id i s, (id, (i, s)) ∈ h_active h → s <= elapsed)%Q →
  (safe_boundary elapsed h <= elapsed)%Q ∧
  (∀ id i s, (id, (i, s)) ∈ h_active h → safe_boundary elapsed h <= s)%Q.
Proof.
  intros Hs. unfold safe_boundary. destruct (h_active h) as [|[id0 [i0 s0]] l]; simpl.
  { split; [apply Qle_refl|]. intros ? ? ? Hin. by apply elem_of_nil in Hin. }
  assert (∀ x (k : list Q), foldl Qmin x k <= x ∧ ∀ y, y ∈ k → foldl Qmin x k <= y)%Q as Hmin.
  { clear. intros x k. revert x. induction k as [|y k IH]; intros x; simpl.
    - split; [apply Qle_refl|]. intros y Hy. by apply elem_of_nil in Hy.
    - destruct (IH (Qmin x y)) as [H1 H2]. split; [eapply Qle_trans; [exact H1|apply Q.le_min_l]|].
      intros z [->|Hz]%elem_of_cons; [eapply Qle_trans; [exact H1|apply Q.le_min_r]|auto]. }
  destruct (Hmin s0 ((λ e : string * (Z * Q), e.2.2) <$> l)) as [H1 H2]. split.
  - eapply Qle_trans; [exact H1|]. eapply Hs. left.
  - intros id i s [[= -> -> ->]|Hin]%elem_of_cons; [done|]. apply H2, list_elem_of_fmap.
    by exists (id, (i, s)).
Qed.

Lemma emit_keeps_live now h all os elapsed : live_inv now h all os → (now <= elapsed)%Q →
  live_inv elapsed (emit_progress elapsed false h).2 all
    (os ++ (drain_windows (safe_boundary elapsed h) false (h_windows h)).1).
Proof.
  intros [Hk Hi Hn Ha Hat Hall Hos] Hle.
  destruct (safe_boundary_le elapsed h) as [Hb1 Hb2].
  { intros id i s Hin. apply Ha in Hin as [_ Hin]. by eapply Qle_trans. }
  set (B := safe_boundary elapsed h) in *. unfold emit_progress, drain_windows. fold B. simpl.
  set (n := Z.to_nat (Qfloor B - w_index (h_windows h))).
  destruct (emit_windows n B (h_windows h)) as [os' w'] eqn:E. simpl.
  pose proof (Qfloor_le B) as Hfloor.
  destruct (emit_windows_spec _ _ _ B n (h_windows h) os' w' Hat) as (Hlen & Hidx & Hpos & Hspec);
    [|exact E|].
  { intros i Hlt. eapply Qlt_le_trans; [|exact Hfloor]. apply inject_lt. lia. }
  destruct (decide (n = O)) as [Hn0|Hn0].
  { rewrite Hn0 in E. injection E as <- <-. rewrite app_nil_r. constructor; simpl; try done.
    - by eapply Qle_trans.
    - intros id i s Hin. destruct (Ha id i s Hin). split; [done|]. by eapply Qle_trans. }
  assert (w_index w' = Qfloor B) as Hidx' by lia.
  assert (∀ i : nat, (i < n)%nat → Qmin (inject_Z (w_index (h_windows h) + Z.of_nat i + 1)) B ==
            inject_Z (w_index (h_windows h) + Z.of_nat i + 1))%Q as Hfull.
  { intros i Hlt. apply Q.min_l. eapply Qle_trans; [|exact Hfloor]. apply inject_le. lia. }
  constructor; simpl; [done|rewrite length_app; lia| | | |done|].
  - rewrite Hidx'. lra.
  - intros id i s Hin. specialize (Hb2 id i s Hin). destruct (Ha id i s Hin). rewrite Hidx'.
    split; lra.
  - eapply windows_at_eq; [|exact (Hpos Hn0)]. rewrite <-Hidx, Hidx'. by apply Q.min_l.
  - intros k o Ho. apply lookup_app_Some in Ho as [Ho|[Hge Ho]]; [by apply Hos|].
    pose proof (lookup_lt_Some _ _ _ Ho) as Hlt. apply Hspec in Ho.
    destruct Ho as [H1 H2 H3 H4 H5].
    replace (w_index (h_windows h) + Z.of_nat (k - length os)) with (Z.of_nat k) in * by lia.
    specialize (Hfull (k - length os)%nat ltac:(lia)).
    replace (w_index (h_windows h) + Z.of_nat (k - length os)) with (Z.of_nat k) in * by lia.
    constructor; [done|done|by rewrite H3|by rewrite H4, Hfull|].
    rewrite H5. by apply occupancy_eq.
Qed.

Lemma live_run_inv now h all os : live_run now h all os → live_inv now h all os.
Proof.
  induction 1 as [origin stream_ c|now h all os id t _ IH Hid Ht|now h all os m i s published h' _ IH Hid Hs Hl Hobs
    |now h all os elapsed _ IH Hle].
  - destruct (observed_at stream_ false [] (Forall_nil_2 _)) as [_ Hat].
    constructor; simpl; [constructor|done|apply Qle_refl|set_solver|exact Hat|constructor|done].
  - destruct IH as [Hk Hi Hn Ha Hat Hall Hos]. constructor; simpl; try done.
    + by apply NoDup_dset.
    + by eapply Qle_trans.
    + intros id' i s Hin. apply elem_dget in Hin; [|by apply NoDup_dset]. rewrite dget_dset in Hin.
      destruct (eqb id id').
      * injection Hin as <- <-. split; [by eapply Qle_trans|apply Qle_refl].
      * apply dget_elem, Ha in Hin as [? ?]. split; [done|by eapply Qle_trans].
  - destruct IH as [Hk Hi Hn Ha Hat Hall Hos].
    apply observe_progress_windows in Hobs as (Hact & b & Hwin). rewrite <-?Hact.
    pose proof (Ha _ _ _ (dget_elem _ _ _ Hid)) as [Hlow Hup].
    assert (inject_Z (w_index (h_windows h)) <= started_at m)%Q as Hstart by lra.
    assert (w_index (h_windows h') = w_index (h_windows h)) as Hidx by (by rewrite Hwin).
    constructor; rewrite ?Hidx, ?Hact, ?Hwin; try done.
    + by apply NoDup_dict_keep.
    + intros id' i' s' Hin. apply (Ha id' i'). by apply elem_of_keep in Hin as [_ Hin].
    + by apply observe_window_at, Hstart; apply set_slo_at.
    + apply Forall_app. split; [done|]. constructor; [|done]. simpl. split; [|done].
      assert (0 <= inject_Z (w_index (h_windows h)))%Q by (rewrite Hi; apply (inject_le 0); lia). lra.
    + intros k o Ho. apply window_spec_later; [by apply Hos| |done].
      eapply Qle_trans; [|exact Hstart]. apply inject_le. apply lookup_lt_Some in Ho. lia.
  - by apply emit_keeps_live with now.
Qed.
(** C34: a window published while the run executes is final.  Whatever was
    observed after it was emitted, it holds the same requests, arrivals, bounds
    and mean concurrency as the window of the saved run over all requests. *)
Theorem live_windows_match_saved now h all os duration stream_ slo_ (k : nat) o o' :
  live_run now h all os → (0 < duration)%Q →
  os !! k = Some o → time_windows all duration stream_ slo_ !! k = Some o' →
  (S k < length (time_windows all duration stream_ slo_))%nat →
  o_finished o = o_finished o' ∧ o_arrivals o = o_arrivals o' ∧ (o_elapsed o == o_elapsed o')%Q ∧
  (o_width o == o_width o')%Q ∧ (o_mean_active o == o_mean_active o')%Q.
Proof.
  intros Hrun Hd Ho Ho' Hk. apply live_run_inv in Hrun as [_ _ _ _ _ Hall Hos].
  assert (all ≠ []) as Hne by (by intros ->).
  destruct (time_windows_spec all duration stream_ slo_ Hne Hd) as [Hlen Hspec].
  { eapply Forall_impl; [exact Hall|]. by intros e [? ?]. }
  rewrite Hlen in Hk. destruct (Hspec k o' Ho') as [H1 H2 H3 H4 H5].
  destruct (Hos k o Ho) as [G1 G2 G3 G4 G5]. set (end_ := run_end duration all) in *.
  assert (Qmin (inject_Z (Z.of_nat k + 1)) end_ == inject_Z (Z.of_nat k + 1))%Q as Er.
  { apply Q.min_l, Qlt_le_weak, ceiling_gt. lia. }
  assert (∀ L : Z → list decided, closed (whole end_) (Qceiling end_) L (Z.of_nat k) = L (Z.of_nat k)) as Hcl.
  { intros L. unfold closed. destruct (whole end_); [|done].
    destruct (Z.eqb_spec (Z.of_nat k) (Qceiling end_ - 1)), (Z.eqb_spec (Z.of_nat k) (Qceiling end_));
      [lia..|done]. }
  rewrite Hcl in H1, H2. rewrite (occupancy_eq _ _ _ _ _ (Qeq_refl _) Er), <-G5 in H5.
  rewrite Er, inject_plus in H4. rewrite inject_plus in G4. change (inject_Z 1) with 1%Q in *.
  split_and!; [congruence|by rewrite H2, G2|by rewrite H3, G3|by rewrite H4, G4|].
  assert (o_width o == 1)%Q as W by (rewrite G4; ring).
  assert (o_width o' == 1)%Q as W' by (rewrite H4; ring).
  rewrite W, W', !Qmult_1_r in H5. by symmetry.
Qed.
End Live.

(** ** Witnesses *)

Definition sample_decided : list decided :=
  [(sample_request (1 # 4) (1 # 2) true, None); (sample_request (1 # 2) 2 false, None);
   (sample_request (3 # 2) (3 # 2) true, None)].

Lemma saved_windows_conserve_witness :
  concat (o_finished <$> time_windows sample_decided 1 false false) ≡ₚ sample_decided ∧
  total_arrivals (time_windows sample_decided 1 false false) = 3.
Proof.
  destruct (saved_windows_conserve sample_decided 1 false false) as (H1 & H2 & _).
  - discriminate.
  - reflexivity.
  - repeat constructor; vm_compute; discriminate.
  - split; [exact H1|exact H2].
Defined.

(** A run of one request: it starts at 1/2, [emit] is called at 2 while it is in
    flight, it finishes, and [emit] at 3 publishes three windows. *)
Definition one_request : RequestMeasurement := sample_request (1 # 2) 2 true.
Definition no_rules (_ : list criteria) : outcome (list (list (string * rule))) := Ok [].
Definition one_started : HttpProgress :=
  request_started "" (1 # 2) (start_progress 0 (new_progress false None)).
Definition one_waiting : HttpProgress := (emit_progress (H := sample_numpy) 2 false one_started).2.
Definition one_finished : HttpProgress :=
  match observe_progress no_rules one_request one_waiting with
  | Ok (_, h) => h
  | Raise _ => one_waiting
  end.

Lemma one_request_run :
  live_run (H := sample_numpy) no_rules 3 (emit_progress (H := sample_numpy) 3 false one_finished).2
    [(one_request, None)] (drain_windows (safe_boundary 3 one_finished) false (h_windows one_finished)).1.
Proof.
  apply (live_emitted (H := sample_numpy) no_rules 2 one_finished [(one_request, None)] []);
    [|vm_compute; discriminate].
  eapply (live_observed (H := sample_numpy) no_rules 2 one_waiting [] [] one_request 1 (1 # 2));
    [|reflexivity|vm_compute; discriminate|vm_compute; discriminate|reflexivity].
  apply (live_emitted (H := sample_numpy) no_rules (1 # 2) one_started [] []);
    [|vm_compute; discriminate].
  apply (live_started (H := sample_numpy) no_rules 0 (start_progress 0 (new_progress false None)) [] []
           "" (1 # 2));
    [apply live_new|reflexivity|vm_compute; discriminate].
Qed.

Lemma live_windows_match_saved_witness :
  ∃ o o', (drain_windows (safe_boundary 3 one_finished) false (h_windows one_finished)).1 !! 1%nat = Some o ∧
    time_windows [(one_request, None)] 3 false false !! 1%nat = Some o' ∧ (o_mean_active o == o_mean_active o')%Q.
Proof.
  destruct ((drain_windows (safe_boundary 3 one_finished) false (h_windows one_finished)).1 !! 1%nat)
    as [o|] eqn:E; [|exfalso; vm_compute in E; discriminate].
  destruct (time_windows [(one_request, None)] 3 false false !! 1%nat) as [o'|] eqn:E';
    [|exfalso; vm_compute in E'; discriminate].
  exists o, o'. split_and!; [done..|].
  refine (proj2 (proj2 (proj2 (proj2 (live_windows_match_saved (H := sample_numpy) no_rules 3 _ _ _ 3
    false false 1 o o' one_request_run _ E E' _))))).
  - reflexivity.
  - vm_compute. lia.
Defined.
