(* ===== verification/Mutation.v ===== *)
(** * Serialising the mutations of one deployment ([kubernetes/mutation.py])

    CLI processes on several machines coordinate through one annotation of the
    InferenceDeployment record: an empty holder is free, otherwise it names the
    operation that may write.  Each operation also owns a lock file on its own
    machine, which its subprocesses inherit; a holder whose file is unlocked is
    dead and can be recovered by another process of the same machine.

    The API server is outside the repository: [ApiServer] is its interface,
    [ApiServerLaws] states the optimistic concurrency the code relies on.  The
    operations below are the decisions of the methods; [step] runs them for any
    number of processes, one server call at a time, with crashes, lost replies
    and other writers. *)

From S2P Require Import Prelude.

(** ** The record and the API server *)

(** The metadata of an InferenceDeployment that the code reads; the holder and
    service-operation annotations are empty when absent. *)
Record instance := Instance {
  m_uid : string;
  m_version : Z;
  m_deleting : bool;
  m_holder : string;
  m_operation : string;
}.

(** A merge patch of one annotation, with the identity it requires. *)
Inductive change :=
  | SetHolder (operation : string)
  | SetServiceOperation (operation : string).
Record request := Request {
  q_uid : string;
  q_version : Z;
  q_change : change;
}.

#[export] Instance instance_eq_dec : EqDecision instance.
Proof. solve_decision. Defined.
#[export] Instance change_eq_dec : EqDecision change.
Proof. solve_decision. Defined.
#[export] Instance request_eq_dec : EqDecision request.
Proof. solve_decision. Defined.

Definition apply_change (c : change) (version : Z) (m : instance) : instance :=
  match c with
  | SetHolder op => Instance (m_uid m) version (m_deleting m) op (m_operation m)
  | SetServiceOperation op => Instance (m_uid m) version (m_deleting m) (m_holder m) op
  end.

(** The record of the instance, and a patch; [None] is the version conflict. *)
Class ApiServer (S : Type) := {
  server_read : S → option instance;
  server_patch : request → S → option S;
}.

(** A patch that names a UID and a resource version is applied to exactly that
    version, and every write gets a later version. *)
Class ApiServerLaws (S : Type) `{ApiServer S} := {
  patch_applied : ∀ q s s', server_patch q s = Some s' →
    ∃ m v, server_read s = Some m ∧ m_uid m = q_uid q ∧ m_version m = q_version q ∧
      m_version m < v ∧ server_read s' = Some (apply_change (q_change q) v m);
}.

(** ** The methods *)

(** [_read]: pins the UID on first use. *)
Definition read_instance (uid : string) (current : option instance) : outcome (instance * string) :=
  match current with
  | None => Raise (DeploymentError "not found")
  | Some m =>
      if m_deleting m || (nonempty uid && negb (eqb (m_uid m) uid))
      then Raise (DeploymentError "DeploymentSuperseded")
      else Ok (m, m_uid m)
  end.

(** [_set_holder] *)
Definition set_holder (current : instance) (operation : string) : request :=
  Request (m_uid current) (m_version current) (SetHolder operation).

(** The patch of [supersede] *)
Definition supersede_request (current : instance) (operation : string) : request :=
  Request (m_uid current) (m_version current) (SetServiceOperation operation).

(** A lock file: the machine of its directory and its name. *)
Abbreviation lock_file := (nat * string)%type.

(** [_recover_local] up to its patch: the file to lock, when the holder has one
    here and nobody holds its lock. *)
Definition recoverable (machine : nat) (files locks : list lock_file) (current : instance) : bool :=
  let f := (machine, m_holder current) in mem f files && negb (mem f locks).

(** One iteration of [_release]. *)
Inductive release_action :=
  | ReleaseGone
  | ReleaseStolen
  | ReleasePatch (current : instance).
Definition release_next (receipt : instance) (operation : string) (current : option instance)
    : release_action :=
  match current with
  | None => ReleaseGone
  | Some m =>
      if negb (eqb (m_uid m) (m_uid receipt)) then ReleaseGone
      else if negb (eqb (m_holder m) operation) then ReleaseStolen
      else ReleasePatch m
  end.

(** ** Processes *)

(** Where a process is inside [hold]. *)
Inductive phase :=
  | Idle
  | Trying
  | Seen (current : instance)
  | Patching (current : instance)
  | Recovering (current : instance)
  | Holding (receipt : instance) (depth : Z)
  | Releasing (receipt : instance)
  | ReleasePatching (receipt current : instance)
  | Orphaned (receipt : instance)
  | Finished.

Record proc := Proc {
  p_machine : nat;
  p_uid : string;
  p_op : string;
  p_phase : phase;
}.
Definition at_phase (ph : phase) (p : proc) : proc := Proc (p_machine p) (p_uid p) (p_op p) ph.
Definition pinned (uid : string) (p : proc) : proc := Proc (p_machine p) uid (p_op p) (p_phase p).
Definition own_file (p : proc) : lock_file := (p_machine p, p_op p).

Section System.
Context {S : Type} `{ApiServer S}.

(** [past] is the history of the record; it is not program state. *)
Record system := System {
  server : S;
  procs : list proc;
  files : list lock_file;
  locks : list lock_file;
  in_flight : list request;
  past : list instance;
}.

Definition without (f : lock_file) (l : list lock_file) : list lock_file :=
  keep (λ g, negb (eqb g f)) l.

Definition put (i : nat) (p : proc) (st : system) : system :=
  System (server st) (<[i := p]> (procs st)) (files st) (locks st) (in_flight st) (past st).
Definition serve (s : S) (st : system) : system :=
  System s (procs st) (files st) (locks st) (in_flight st)
    (match server_read s with Some m => m :: past st | None => past st end).
Definition add_file (f : lock_file) (st : system) : system :=
  System (server st) (procs st) (f :: files st) (locks st) (in_flight st) (past st).
Definition unlink (f : lock_file) (st : system) : system :=
  System (server st) (procs st) (without f (files st)) (locks st) (in_flight st) (past st).
Definition lock (f : lock_file) (st : system) : system :=
  System (server st) (procs st) (files st) (f :: locks st) (in_flight st) (past st).
Definition unlock (f : lock_file) (st : system) : system :=
  System (server st) (procs st) (files st) (without f (locks st)) (in_flight st) (past st).
Definition send (q : request) (st : system) : system :=
  System (server st) (procs st) (files st) (locks st) (q :: in_flight st) (past st).
Definition receive (q : request) (st : system) : system :=
  System (server st) (procs st) (files st) (locks st) (keep (λ r, negb (eqb r q)) (in_flight st))
    (past st).

(** [hold] leaves through an exception before it owns the record: the lock file
    is closed, and removed unless a patch may still take effect. *)
Definition leave (i : nat) (p : proc) (st : system) : system :=
  unlock (own_file p) (put i (at_phase Finished p) st).
Definition abandon (i : nat) (p : proc) (st : system) : system := unlink (own_file p) (leave i p st).

(** A record created again: a UID of its own and no holder. *)
Definition created (st : system) (m : instance) : Prop :=
  m_holder m = "" ∧ ∀ o, o ∈ past st → m_uid o ≠ m_uid m.

(** The record written by others: controllers and users change or delete it, or
    create it again under a new UID; only [hold] writes the holder. *)
Definition other_write (st : system) (s : S) : Prop :=
  match server_read (server st), server_read s with
  | _, None => True
  | Some m, Some m' =>
      (m_uid m' = m_uid m ∧ m_holder m' = m_holder m ∧ m_version m < m_version m') ∨
      created st m'
  | None, Some m' => created st m'
  end.

(** ** Steps *)

Inductive step (st : system) : system → Prop :=
(* lines 63-68: a fresh operation with its locked file *)
| step_begin i p op :
    procs st !! i = Some p → p_phase p = Idle → op ≠ "" → (∀ q, q ∈ procs st → p_op q ≠ op) →
    (∀ m, m ∈ past st → m_holder m ≠ op) → (∀ m, server_read (server st) = Some m → m_holder m ≠ op) →
    step st (lock (p_machine p, op) (add_file (p_machine p, op)
      (put i (Proc (p_machine p) (p_uid p) op Trying) st)))
(* 74-77: the deadline, a failed read, or the current record *)
| step_timeout i p :
    procs st !! i = Some p → p_phase p = Trying → step st (abandon i p st)
| step_read_failed i p e :
    procs st !! i = Some p → p_phase p = Trying →
    read_instance (p_uid p) (server_read (server st)) = Raise e → step st (abandon i p st)
| step_read i p m uid :
    procs st !! i = Some p → p_phase p = Trying →
    read_instance (p_uid p) (server_read (server st)) = Ok (m, uid) →
    step st (put i (at_phase (Seen m) (pinned uid p)) st)
(* 79-82: somebody holds it and is not recoverable here *)
| step_occupied i p m :
    procs st !! i = Some p → p_phase p = Seen m → m_holder m ≠ "" →
    recoverable (p_machine p) (files st) (locks st) m = false → step st (put i (at_phase Trying p) st)
(* 149-165: recover a dead local holder *)
| step_recover i p m :
    procs st !! i = Some p → p_phase p = Seen m → m_holder m ≠ "" →
    recoverable (p_machine p) (files st) (locks st) m = true →
    step st (lock (p_machine p, m_holder m) (put i (at_phase (Recovering m) p) st))
| step_recovered i p m s :
    procs st !! i = Some p → p_phase p = Recovering m →
    server_patch (set_holder m "") (server st) = Some s →
    step st (unlink (p_machine p, m_holder m) (unlock (p_machine p, m_holder m)
      (serve s (put i (at_phase Trying p) st))))
| step_recover_conflict i p m :
    procs st !! i = Some p → p_phase p = Recovering m →
    server_patch (set_holder m "") (server st) = None →
    step st (unlock (p_machine p, m_holder m) (put i (at_phase Trying p) st))
| step_recover_lost i p m :
    procs st !! i = Some p → p_phase p = Recovering m →
    step st (send (set_holder m "") (unlock (p_machine p, m_holder m) (abandon i p st)))
(* 83-88: take the record *)
| step_patch i p m :
    procs st !! i = Some p → p_phase p = Seen m → m_holder m = "" →
    step st (put i (at_phase (Patching m) p) st)
| step_acquired i p m s r :
    procs st !! i = Some p → p_phase p = Patching m →
    server_patch (set_holder m (p_op p)) (server st) = Some s → server_read s = Some r →
    step st (serve s (put i (at_phase (Holding r 1) p) st))
| step_conflict i p m :
    procs st !! i = Some p → p_phase p = Patching m →
    server_patch (set_holder m (p_op p)) (server st) = None → step st (put i (at_phase Trying p) st)
| step_lost i p m :
    procs st !! i = Some p → p_phase p = Patching m →
    step st (send (set_holder m (p_op p)) (leave i p st))
(* 56-62: nested use *)
| step_enter i p r d :
    procs st !! i = Some p → p_phase p = Holding r d → step st (put i (at_phase (Holding r (d + 1)) p) st)
| step_exit i p r d :
    procs st !! i = Some p → p_phase p = Holding r d → 1 < d →
    step st (put i (at_phase (Holding r (d - 1)) p) st)
(* 103-124: supersede, under the held record; a patch whose reply is lost is a
   write of the same record that leaves the holder alone, as in [step_other] *)
| step_supersede i p r d m uid op s :
    procs st !! i = Some p → p_phase p = Holding r d →
    read_instance (p_uid p) (server_read (server st)) = Ok (m, uid) →
    server_patch (supersede_request m op) (server st) = Some s → step st (serve s st)
(* 92-96 and 167-183: release *)
| step_finish i p r :
    procs st !! i = Some p → p_phase p = Holding r 1 → step st (put i (at_phase (Releasing r) p) st)
| step_release_gone i p r :
    procs st !! i = Some p → p_phase p = Releasing r →
    release_next r (p_op p) (server_read (server st)) = ReleaseGone → step st (abandon i p st)
| step_release_stolen i p r :
    procs st !! i = Some p → p_phase p = Releasing r →
    release_next r (p_op p) (server_read (server st)) = ReleaseStolen → step st (leave i p st)
| step_release_patch i p r m :
    procs st !! i = Some p → p_phase p = Releasing r →
    release_next r (p_op p) (server_read (server st)) = ReleasePatch m →
    step st (put i (at_phase (ReleasePatching r m) p) st)
| step_released i p r m s :
    procs st !! i = Some p → p_phase p = ReleasePatching r m →
    server_patch (set_holder m "") (server st) = Some s → step st (abandon i p (serve s st))
| step_release_conflict i p r m :
    procs st !! i = Some p → p_phase p = ReleasePatching r m →
    server_patch (set_holder m "") (server st) = None → step st (put i (at_phase (Releasing r) p) st)
| step_release_lost i p r m :
    procs st !! i = Some p → p_phase p = ReleasePatching r m →
    step st (send (set_holder m "") (leave i p st))
| step_release_timeout i p r :
    procs st !! i = Some p → p_phase p = Releasing r → step st (leave i p st)
(* the CLI dies: its subprocesses may keep the lock for a while *)
| step_crash i p :
    procs st !! i = Some p → (p_phase p = Trying ∨ ∃ m, p_phase p = Seen m) → step st (leave i p st)
| step_crash_recovering i p m :
    procs st !! i = Some p → p_phase p = Recovering m →
    step st (send (set_holder m "") (unlock (p_machine p, m_holder m) (leave i p st)))
| step_crash_holding i p r d :
    procs st !! i = Some p → p_phase p = Holding r d → step st (put i (at_phase (Orphaned r) p) st)
| step_children_exit i p r :
    procs st !! i = Some p → p_phase p = Orphaned r → step st (leave i p st)
(* requests whose reply was lost take effect later or never *)
| step_deliver q s :
    q ∈ in_flight st → server_patch q (server st) = Some s → step st (serve s (receive q st))
| step_drop q :
    q ∈ in_flight st → step st (receive q st)
| step_other s :
    other_write st s → step st (serve s st).

Definition initial (st : system) : Prop :=
  (∀ p, p ∈ procs st → p_phase p = Idle ∧ p_op p = "") ∧ files st = [] ∧ locks st = [] ∧
  in_flight st = [] ∧ past st = option_list (server_read (server st)).

Inductive reachable : system → Prop :=
| reachable_initial st : initial st → reachable st
| reachable_step st st' : reachable st → step st st' → reachable st'.
End System.
Arguments system S : clear implicits.
