(* ===== verification/MutationProofs.v ===== *)
(** * Mutual exclusion of deployment mutations

    However processes, crashes, lost replies and other writers interleave, at
    most one operation may write a given deployment record, and the holder a
    dead process leaves behind can always be recovered on its machine. *)

From S2P Require Import Prelude Mutation.

Section Proofs.
Context {S : Type} `{ApiServer S} `{!ApiServerLaws S}.
#[local] Set Default Proof Using "All".
Implicit Types st : system S.

(** ** Case analysis of a step *)

Ltac lookups := repeat match goal with
  | Hq : <[_ := _]> _ !! _ = Some _ |- _ =>
      apply list_lookup_insert_Some in Hq as [(? & ? & ?)|(? & Hq)]; subst; simpl in *
  end.
(** The projections of an updated system. *)
Ltac expose := unfold abandon, leave, put, serve, add_file, unlink, lock, unlock, send, receive in *;
  cbn [server procs files locks in_flight past] in *.
Ltac step_cases Hstep := destruct Hstep; expose.

Lemma elem_of_without f g (l : list lock_file) : g ∈ without f l ↔ g ≠ f ∧ g ∈ l.
Proof. unfold without. rewrite elem_of_keep, negb_true_iff, eqb_false. done. Qed.

(** ** The history of the record *)

(** What a write of the server may produce. *)
Definition written st (s : S) : Prop :=
  match server_read s with
  | None => True
  | Some c' => (∃ c, server_read (server st) = Some c ∧ m_uid c' = m_uid c ∧ m_version c < m_version c')
               ∨ created st c'
  end.

Lemma patch_written st q s : server_patch q (server st) = Some s → written st s.
Proof.
  intros Hp. apply patch_applied in Hp as (m & v & Hm & _ & _ & Hv & Hs). unfold written.
  rewrite Hs. left. exists m. split_and!; [done|by destruct (q_change q)..].
Qed.
Lemma other_written st s : other_write st s → written st s.
Proof.
  unfold other_write, written. destruct (server_read (server st)) as [m|], (server_read s) as [m'|];
    naive_solver.
Qed.

Record history st : Prop := {
  hist_current : ∀ c, server_read (server st) = Some c → c ∈ past st;
  hist_version : ∀ c m, server_read (server st) = Some c → m ∈ past st → m_uid m = m_uid c →
    m_version m ≤ m_version c ∧ (m_version m = m_version c → m = c);
}.

(** Steps either leave the server alone or write it. *)
Lemma step_server st st' : step st st' →
  (server st' = server st ∧ past st' = past st) ∨
  (written st (server st') ∧
   past st' = match server_read (server st') with Some m => m :: past st | None => past st end).
Proof.
  intros Hs. step_cases Hs; eauto using patch_written, other_written.
Qed.

Lemma step_history st st' : history st → step st st' → history st'.
Proof.
  intros [Hc Hv] Hs. apply step_server in Hs as [[Es Ep]|[Hw Ep]]; constructor; rewrite Ep, ?Es; try done.
  - intros c Ec. rewrite Ec. left.
  - intros c m Ec. unfold written in Hw. rewrite Ec in *. intros [->|Hm]%elem_of_cons Hu; [done|].
    destruct Hw as [(c0 & Ec0 & Eu & Hlt)|[_ Hfresh]]; [|by destruct (Hfresh m Hm)].
    destruct (Hv c0 m Ec0 Hm ltac:(congruence)) as [Hle _]. split; [|intros]; lia.
Qed.

Lemma reachable_history st : reachable st → history st.
Proof.
  induction 1 as [st (_ & _ & _ & _ & Hp)|st st' _ IH Hs]; [|by eapply step_history].
  constructor; rewrite Hp; intros c; [by intros ->; left|]. intros m ->. simpl.
  by intros ->%list_elem_of_singleton _.
Qed.

(** A patch made from a record of the past meets that record unchanged. *)
Lemma patch_current st m x s : history st → m ∈ past st →
  server_patch (set_holder m x) (server st) = Some s →
  server_read (server st) = Some m ∧
  ∃ v, m_version m < v ∧ server_read s = Some (apply_change (SetHolder x) v m).
Proof.
  intros [_ Hv] Hm (c & v & Ec & Eu & Ev & Hlt & Es)%patch_applied. simpl in *.
  destruct (Hv c m Ec Hm ltac:(done)) as [_ E].
  assert (m = c) as -> by (by apply E). eauto.
Qed.

(** ** What processes have seen *)

Definition observed (ph : phase) : list instance :=
  match ph with
  | Seen m | Patching m | Recovering m => [m]
  | Holding r _ | Releasing r | Orphaned r => [r]
  | ReleasePatching r m => [r; m]
  | _ => []
  end.
Definition seen_past st : Prop :=
  ∀ i p m, procs st !! i = Some p → m ∈ observed (p_phase p) → m ∈ past st.

Lemma read_instance_Ok uid c m u : read_instance uid c = Ok (m, u) → c = Some m.
Proof. destruct c as [c|]; simpl; [|done]. case_match; [done|]. by intros [= -> _]. Qed.
Lemma release_next_patch r op c m : release_next r op c = ReleasePatch m →
  c = Some m ∧ m_uid m = m_uid r ∧ m_holder m = op.
Proof.
  destruct c as [c|]; simpl; [|done]. destruct (eqb (m_uid c) (m_uid r)) eqn:E1; [|done]. simpl.
  destruct (eqb (m_holder c) op) eqn:E2; [|done]. reflect_in E1. reflect_in E2. by intros [= ->].
Qed.

Lemma past_grows st st' m : step st st' → m ∈ past st → m ∈ past st'.
Proof.
  intros [[_ ->]|[_ ->]]%step_server; [done|]. case_match; [by right|done].
Qed.

Lemma step_seen st st' : history st → seen_past st → step st st' → seen_past st'.
Proof.
  intros [Hc _] Hseen Hs j q m Hq Hm.
  assert (m ∈ past st ∨ m ∈ past st') as [?|?]; [|by eapply past_grows|done].
  step_cases Hs; lookups; try (left; by eapply Hseen); try (by apply elem_of_nil in Hm);
    try (left; eapply Hseen; [eassumption|]; by match goal with E : p_phase _ = _ |- _ => rewrite E end).
  - left. apply list_elem_of_singleton in Hm as ->. eapply Hc, read_instance_Ok. eassumption.
  - right. apply list_elem_of_singleton in Hm as ->.
    match goal with E : server_read _ = Some _ |- _ => rewrite E end. left.
  - left. match goal with E : release_next _ _ _ = _ |- _ => apply release_next_patch in E as (E & _) end.
    apply elem_of_cons in Hm as [->|Hm%list_elem_of_singleton]; [|subst; by apply Hc].
    eapply Hseen; [eassumption|]. match goal with E : p_phase _ = _ |- _ => rewrite E end. left.
  - left. apply list_elem_of_singleton in Hm as ->. eapply Hseen; [eassumption|].
    match goal with E : p_phase _ = _ |- _ => rewrite E end. left.
Qed.

(** ** Operations *)

(** A finished operation. *)
Definition dead st (x : string) : Prop :=
  ∃ j q, procs st !! j = Some q ∧ p_op q = x ∧ p_phase q = Finished.

Lemma finished_stays st st' j q : step st st' →
  procs st !! j = Some q → p_phase q = Finished → procs st' !! j = Some q.
Proof.
  intros Hs Hq Hf. step_cases Hs; try done;
    (rewrite list_lookup_insert_ne; [done|]; intros ->; naive_solver congruence).
Qed.
Lemma dead_stays st st' x : step st st' → dead st x → dead st' x.
Proof. intros Hs (j & q & Hq & Hx & Hf). exists j, q. eauto using finished_stays. Qed.

Record operations st : Prop := {
  ops_named : ∀ i p, procs st !! i = Some p → p_op p = "" ↔ p_phase p = Idle;
  ops_unique : ∀ i j p q, procs st !! i = Some p → procs st !! j = Some q →
    p_op p = p_op q → p_op p ≠ "" → i = j;
}.

Lemma dead_finished st x i p : operations st → dead st x → x ≠ "" →
  procs st !! i = Some p → p_op p = x → p_phase p = Finished.
Proof.
  intros [_ Hu] (j & q & Hq & <- & Hf) Hx Hp Ep.
  assert (i = j) as -> by (eapply Hu; [eassumption..|congruence]). congruence.
Qed.

Lemma step_operations st st' : operations st → step st st' → operations st'.
Proof.
  intros [Hn Hu] Hs. constructor.
  - intros j q Hq. step_cases Hs; lookups; try (by eapply Hn); try done.
    all: match goal with Hp : procs _ !! _ = Some ?p, E : p_phase ?p = _ |- p_op ?p = _ ↔ _ =>
           rewrite (Hn _ _ Hp), E; done
         | Hp : procs _ !! _ = Some ?p, E : _ ∨ _ |- p_op ?p = _ ↔ _ =>
           rewrite (Hn _ _ Hp); destruct E as [->|[? ->]]; done end.
  - intros j k q q' Hq Hq' Eq Hne. step_cases Hs; lookups; try done; try (by eapply Hu).
    all: try (exfalso; match goal with Hf : ∀ q, q ∈ procs _ → p_op q ≠ _, Hx : procs _ !! _ = Some ?x |- _ =>
           eapply (Hf x); [by eapply list_elem_of_lookup_2|congruence] end).
Qed.

(** ** Lock files *)

Definition active (ph : phase) : bool := match ph with Idle | Finished => false | _ => true end.

Record locking st : Prop := {
  lock_held : ∀ i p, procs st !! i = Some p → active (p_phase p) = true → own_file p ∈ locks st;
  lock_owner : ∀ f, f ∈ files st → ∃ i p, procs st !! i = Some p ∧ own_file p = f ∧ p_op p ≠ "";
  lock_dead : ∀ i p m, procs st !! i = Some p → p_phase p = Recovering m →
    m_holder m ≠ "" ∧ dead st (m_holder m);
}.

Lemma recoverable_dead st p m : operations st → locking st → m_holder m ≠ "" →
  recoverable (p_machine p) (files st) (locks st) m = true → dead st (m_holder m).
Proof.
  intros [Hn _] [Hl Ho _] Hm [Hf Hnl]%andb_true_iff. rewrite mem_true in Hf.
  apply negb_true_iff in Hnl. destruct (Ho _ Hf) as (j & q & Hq & [= Ek Eo] & _).
  exists j, q. split_and!; [done..|]. destruct (active (p_phase q)) eqn:Ea.
  - apply (Hl _ _ Hq) in Ea. unfold own_file in Ea. rewrite Ek, Eo in Ea.
    rewrite <-mem_true in Ea. congruence.
  - pose proof (Hn _ _ Hq) as Hi. destruct (p_phase q); try done. rewrite Eo in Hi. naive_solver.
Qed.

(** The process the step moves was active. *)
Ltac was_active := solve [match goal with
  | E : p_phase ?p = _ |- active (p_phase ?p) = true => rewrite E; reflexivity
  | E : p_phase ?p = _ ∨ _ |- active (p_phase ?p) = true => destruct E as [->|[? ->]]; reflexivity
  end].

Lemma own_file_at ph p : own_file (at_phase ph p) = own_file p.
Proof. done. Qed.
Lemma own_file_pinned u p : own_file (pinned u p) = own_file p.
Proof. done. Qed.

Lemma own_file_other st i j p q : operations st → procs st !! i = Some p → procs st !! j = Some q →
  i ≠ j → p_op p ≠ "" → own_file q ≠ own_file p.
Proof. intros [_ Hu] Hp Hq Hij Hne [= _ E]. apply Hij. by eapply Hu. Qed.

Lemma active_named st i p : operations st → procs st !! i = Some p → active (p_phase p) = true → p_op p ≠ "".
Proof. intros [Hn _] Hp Ha E. apply (Hn _ _ Hp) in E. by rewrite E in Ha. Qed.

(** Unlocking the file of a dead operation touches no active process. *)
Lemma dead_file_other st x k j q : operations st → dead st x → x ≠ "" → procs st !! j = Some q →
  active (p_phase q) = true → own_file q ≠ (k, x).
Proof.
  intros Ho Hd Hx Hq Ha [= _ E]. rewrite (dead_finished st x j q Ho Hd Hx Hq E) in Ha. done.
Qed.

(** A started process keeps its operation and machine. *)
Lemma named_stays st st' j q : operations st → step st st' → procs st !! j = Some q → p_op q ≠ "" →
  ∃ q', procs st' !! j = Some q' ∧ own_file q' = own_file q.
Proof.
  intros [Hn _] Hs Hq Hne. step_cases Hs; try (by exists q);
    match goal with Hp : procs st !! ?i = Some ?p |- context [<[_ := ?p']> _] =>
      destruct (decide (i = j)) as [->|Hij];
      [exists p'; rewrite list_lookup_insert_eq by (by eapply lookup_lt_Some);
       assert (q = p) as -> by congruence; split; [done|]; try done
      |exists q; by rewrite list_lookup_insert_ne] end.
  exfalso. apply Hne. by apply (Hn _ _ Hq).
Qed.

Lemma new_file st st' f : step st st' → f ∈ files st' → f ∈ files st ∨
  ∃ i p, procs st' !! i = Some p ∧ own_file p = f ∧ p_op p ≠ "".
Proof.
  intros Hs Hf. step_cases Hs; try (by left); try (rewrite ?elem_of_without in Hf; left; naive_solver).
  apply elem_of_cons in Hf as [->|Hf]; [right|by left]. eexists i, _.
  rewrite list_lookup_insert_eq by (by eapply lookup_lt_Some). done.
Qed.

Lemma step_locking st st' : operations st → locking st → step st st' → locking st'.
Proof.
  intros Ho Hlk Hs. pose proof Hlk as [Hl Hw Hd]. constructor.
  - intros j q Hq Ha. step_cases Hs; lookups; try done;
      rewrite ?own_file_at, ?own_file_pinned, ?elem_of_cons, ?elem_of_without; try (by eauto);
      try (apply (Hl _ _ ltac:(eassumption)); was_active);
      try (right; apply (Hl _ _ ltac:(eassumption)); was_active);
      split_and?; try (by eapply Hl); try (eapply Hl; [eassumption|was_active]);
      try (eapply own_file_other; [eassumption..|]; eapply active_named; [eassumption..|was_active]);
      (match goal with Hp : procs _ !! _ = Some ?p, E : p_phase ?p = Recovering _ |- _ =>
         destruct (Hd _ _ _ Hp E) as [? ?] end); (eapply dead_file_other; [eassumption..|]);
      first [assumption|was_active].
  - intros f Hf. destruct (new_file st st' f Hs Hf) as [Hf'|?]; [|done].
    destruct (Hw f Hf') as (j & q & Hq & <- & Hne).
    destruct (named_stays st st' j q Ho Hs Hq Hne) as (q' & Hq' & E). exists j, q'.
    split_and!; [done..|]. by injection E as _ ->.
  - intros j q m Hq Hph. cut (m_holder m ≠ "" ∧ dead st (m_holder m)).
    { intros [? ?]. split; [done|]. by eapply dead_stays. }
    step_cases Hs; lookups; try discriminate; try (by eapply Hd).
    injection Hph as <-. split; [done|]. by eapply recoverable_dead.
Qed.

(** ** Requests *)

Record requests st : Prop := {
  req_patching : ∀ i p m, procs st !! i = Some p → p_phase p = Patching m → m_holder m = "";
  req_release : ∀ i p r m, procs st !! i = Some p → p_phase p = ReleasePatching r m →
    m_uid m = m_uid r ∧ m_holder m = p_op p;
  req_flight : ∀ q, q ∈ in_flight st → ∃ m x, q = set_holder m x ∧ m ∈ past st ∧
    ((m_holder m = "" ∧ dead st x) ∨ (x = "" ∧ dead st (m_holder m)));
}.

Lemma new_request st st' q : seen_past st → operations st → locking st → requests st → step st st' →
  q ∈ in_flight st' → q ∈ in_flight st ∨ ∃ m x, q = set_holder m x ∧ m ∈ past st' ∧
    ((m_holder m = "" ∧ dead st' x) ∨ (x = "" ∧ dead st' (m_holder m))).
Proof.
  intros Hseen Ho Hlk [Hp Hr _] Hs Hq.
  assert (∀ i p, procs st' !! i = Some p → p_phase p = Finished → dead st' (p_op p)) as Hfin.
  { intros i p Hi Hf. by exists i, p. }
  pose proof Hs as Hs'. step_cases Hs; try (by left); rewrite ?elem_of_cons in Hq;
    try (apply elem_of_keep in Hq as [_ Hq]; by left);
    (destruct Hq as [->|?]; [right|by left]);
    match goal with Hi : procs _ !! ?i = Some ?p, E : p_phase ?p = _ |- _ =>
      (eexists _, _; split; [reflexivity|]);
      (split; [eapply Hseen; [exact Hi|]; rewrite E; set_solver|]);
      pose proof (Hfin i _ (list_lookup_insert_eq _ _ _ (lookup_lt_Some _ _ _ Hi)) eq_refl) as Hdead
    end.
  - right. split; [done|]. eapply dead_stays, lock_dead; [exact Hs'|eassumption..].
  - left. split; [by eapply Hp|exact Hdead].
  - right. split; [done|]. edestruct Hr as [_ ->]; [eassumption..|]. exact Hdead.
  - right. split; [done|]. eapply dead_stays, lock_dead; [exact Hs'|eassumption..].
Qed.

Lemma step_requests st st' : seen_past st → operations st → locking st → requests st → step st st' →
  requests st'.
Proof.
  intros Hseen Ho Hlk Hrq Hs. pose proof Hrq as [Hp Hr Hf]. constructor.
  - intros j q m Hq Hph. step_cases Hs; lookups; try discriminate; try (by eapply Hp); congruence.
  - intros j q r m Hq Hph. step_cases Hs; lookups; try discriminate; try (by eapply Hr).
    match goal with E : release_next _ _ _ = _ |- _ => apply release_next_patch in E as (_ & ? & ?) end.
    by injection Hph as <- <-.
  - intros q Hq. destruct (new_request st st' q Hseen Ho Hlk Hrq Hs Hq) as [Hq'|?]; [|done].
    destruct (Hf q Hq') as (m & x & -> & Hm & Hx). exists m, x.
    split_and!; [done|by eapply past_grows|]. destruct Hx as [[? ?]|[? ?]]; eauto using dead_stays.
Qed.

(** ** Writers *)

(** The record a process, or a subprocess it left behind, may write. *)
Definition writing (ph : phase) : option instance :=
  match ph with Holding r _ | Orphaned r => Some r | _ => None end.

Record exclusive st : Prop := {
  excl_holder : ∀ i p r c, procs st !! i = Some p → writing (p_phase p) = Some r →
    server_read (server st) = Some c → m_uid c = m_uid r → m_holder c = p_op p;
  excl_unique : ∀ i j p q r r', procs st !! i = Some p → procs st !! j = Some q →
    writing (p_phase p) = Some r → writing (p_phase q) = Some r' → m_uid r = m_uid r' → i = j;
}.

(** How a step changes the holder of the record. *)
Inductive holder_change st st' (c c' : instance) : Prop :=
| holder_kept : m_holder c' = m_holder c → holder_change st st' c c'
| holder_cleared : m_holder c' = "" → (dead st (m_holder c) ∨
    ∃ i p r, procs st !! i = Some p ∧ p_phase p = ReleasePatching r c ∧ m_holder c = p_op p) →
    holder_change st st' c c'
| holder_taken_late : m_holder c = "" → dead st (m_holder c') →
    set_holder c (m_holder c') ∈ in_flight st → holder_change st st' c c'
| holder_taken i p : m_holder c = "" → procs st !! i = Some p → p_phase p = Patching c →
    procs st' !! i = Some (at_phase (Holding c' 1) p) → m_holder c' = p_op p → holder_change st st' c c'.

(** The record in the phase of a process is observed. *)
Ltac saw := match goal with E : p_phase _ = _ |- _ => rewrite E; simpl; set_solver end.

Lemma step_holder st st' c' : history st → seen_past st → locking st → requests st → step st st' →
  server_read (server st') = Some c' →
  (∃ c, server_read (server st) = Some c ∧ m_uid c' = m_uid c ∧ holder_change st st' c c') ∨ created st c'.
Proof.
  intros Hh Hseen Hlk [Hp Hr Hf] Hs Hc'. pose proof Hs as Hs'.
  step_cases Hs; try (left; exists c'; split_and!; [done..|by constructor]).
  - assert (m ∈ past st) as Hm by (eapply Hseen; [eassumption|]; saw).
    destruct (patch_current st m _ s Hh Hm ltac:(eassumption)) as (Ec & v & Hv & Es).
    left. exists m. assert (c' = apply_change (SetHolder "") v m) as -> by congruence.
    split_and!; [done..|]. apply holder_cleared; [done|]. left. by eapply lock_dead.
  - assert (m ∈ past st) as Hm by (eapply Hseen; [eassumption|]; saw).
    destruct (patch_current st m _ s Hh Hm ltac:(eassumption)) as (Ec & v & Hv & Es).
    left. exists m. assert (c' = apply_change (SetHolder (p_op p)) v m) as -> by congruence.
    split_and!; [done..|]. eapply (holder_taken _ _ _ _ i p); [by eapply Hp|done..| |done]. cbn [procs].
    rewrite list_lookup_insert_eq by (by eapply lookup_lt_Some). congruence.
  - match goal with E : server_patch _ _ = Some _ |- _ => apply patch_applied in E as (c & v & Ec & _ & _ & _ & Es) end.
    left. exists c. cbn [q_change supersede_request] in Es. assert (c' = apply_change (SetServiceOperation op) v c) as -> by congruence.
    split_and!; [done..|]. by constructor.
  - assert (m ∈ past st) as Hm by (eapply Hseen; [eassumption|]; saw).
    destruct (patch_current st m _ s Hh Hm ltac:(eassumption)) as (Ec & v & Hv & Es).
    left. exists m. assert (c' = apply_change (SetHolder "") v m) as -> by congruence.
    split_and!; [done..|]. apply holder_cleared; [done|]. right. exists i, p, r. naive_solver.
  - destruct (Hf q ltac:(done)) as (m & x & -> & Hm & Hx).
    destruct (patch_current st m x s Hh Hm ltac:(eassumption)) as (Ec & v & Hv & Es).
    left. exists m. assert (c' = apply_change (SetHolder x) v m) as -> by congruence.
    split_and!; [done..|]. destruct Hx as [[E Hx]|[-> Hx]]; [by apply holder_taken_late|].
    apply holder_cleared; auto.
  - match goal with E : other_write _ _ |- _ => unfold other_write in E; rewrite Hc' in E end.
    destruct (server_read (server st)) as [c|] eqn:Ec; [|by right].
    match goal with E : _ ∨ _ |- _ => destruct E as [(? & ? & _)|?]; [left|by right] end.
    exists c. split_and!; [done..|]. by constructor.
Qed.

(** Only taking the record makes a new writer. *)
Lemma new_writer st st' i p r : step st st' → procs st' !! i = Some p → writing (p_phase p) = Some r →
  (∃ p0, procs st !! i = Some p0 ∧ writing (p_phase p0) = Some r ∧ p_op p0 = p_op p) ∨
  (∃ p0 m, procs st !! i = Some p0 ∧ p_phase p0 = Patching m ∧ p_op p0 = p_op p ∧
     server_patch (set_holder m (p_op p)) (server st) = Some (server st') ∧
     server_read (server st') = Some r).
Proof.
  intros Hs Hp Hr. step_cases Hs; lookups; try discriminate; try (left; by exists p);
    simpl in Hr; try (left; eexists; split_and!; [eassumption| |done];
      by match goal with E : p_phase _ = _ |- _ => rewrite E end).
  right. injection Hr as <-. by exists p0, m.
Qed.

Lemma patch_holder m x (s s' : S) r :
  server_patch (set_holder m x) s = Some s' → server_read s' = Some r → m_holder r = x.
Proof.
  intros (c & v & _ & _ & _ & _ & Es)%patch_applied Er. rewrite Es in Er. by injection Er as <-.
Qed.

Lemma step_exclusive st st' : history st → seen_past st → operations st → locking st → requests st →
  exclusive st → step st st' → exclusive st'.
Proof.
  intros Hh Hseen Ho Hlk Hrq [Hx Hu] Hs.
  (* a writer of the old state still names the holder *)
  assert (∀ i p r c', procs st !! i = Some p → writing (p_phase p) = Some r →
    server_read (server st') = Some c' → m_uid c' = m_uid r → m_holder c' = p_op p) as Hold.
  { intros i p r c' Hp Hr Ec' Eu.
    assert (p_op p ≠ "") as Hne by (eapply active_named; [done..|]; by destruct (p_phase p)).
    destruct (step_holder st st' c' Hh Hseen Hlk Hrq Hs Ec') as [(c & Ec & Euc & Hch)|[_ Hfresh]].
    - pose proof (Hx i p r c Hp Hr Ec ltac:(congruence)) as Hc.
      destruct Hch as [->|_ [Hd|(j & q & r0 & Hq & Ephq & Eq)]| |j q E]; [done|exfalso..].
      + assert (p_phase p = Finished) as Ef by (eapply dead_finished; [done|exact Hd|congruence|done|done]).
        by rewrite Ef in Hr.
      + assert (i = j) as -> by (eapply ops_unique; [done..|congruence|done]).
        replace q with p in * by congruence. by rewrite Ephq in Hr.
      + congruence.
      + congruence.
    - exfalso. apply (Hfresh r); [|done]. eapply Hseen; [exact Hp|]. destruct (p_phase p); try done;
        injection Hr as ->; left. }
  constructor.
  - intros i p r c' Hp Hr Ec' Eu.
    destruct (new_writer st st' i p r Hs Hp Hr) as [(p0 & Hp0 & Hr0 & <-)|(p0 & m & _ & _ & _ & Hpa & Er)].
    + by eapply Hold.
    + replace c' with r by congruence. by eapply patch_holder.
  - intros i j p q r r' Hp Hq Hr Hr' Eu.
    destruct (new_writer st st' i p r Hs Hp Hr) as [(p0 & Hp0 & Hr0 & E0)|(p0 & m & Hp0 & Hm & E0 & Hpa & Er)],
      (new_writer st st' j q r' Hs Hq Hr') as [(q0 & Hq0 & Hs0 & F0)|(q0 & n & Hq0 & Hn & F0 & Hqa & Fr)].
    + by eapply Hu.
    + pose proof (Hold i p0 r r' Hp0 Hr0 Fr ltac:(done)). pose proof (patch_holder _ _ _ _ _ Hqa Fr).
      eapply ops_unique; [done..|congruence|]. eapply active_named; [done..|]. by destruct (p_phase p0).
    + pose proof (Hold j q0 r' r Hq0 Hs0 Er ltac:(congruence)). pose proof (patch_holder _ _ _ _ _ Hpa Er).
      symmetry. eapply ops_unique; [done..|congruence|]. eapply active_named; [done..|].
      by destruct (p_phase q0).
    + pose proof (patch_holder _ _ _ _ _ Hpa Er). pose proof (patch_holder _ _ _ _ _ Hqa Fr).
      eapply ops_unique; [done..|congruence|]. eapply active_named; [done..|]. by rewrite Hm.
Qed.

(** ** Reachable states *)

Record mutation_inv st : Prop := {
  inv_history : history st;
  inv_seen : seen_past st;
  inv_operations : operations st;
  inv_locking : locking st;
  inv_requests : requests st;
  inv_exclusive : exclusive st;
}.

Lemma reachable_inv st : reachable st → mutation_inv st.
Proof.
  intros Hr. induction Hr as [st Hi|st st' Hr IH Hs].
  - pose proof (reachable_history st (reachable_initial st Hi)).
    destruct Hi as (Hp & Hf & Hl & Hq & _).
    assert (∀ i p, procs st !! i = Some p → p_phase p = Idle ∧ p_op p = "") as Hidle.
    { intros i p Hi. by eapply Hp, list_elem_of_lookup_2. }
    constructor; [done| | | | |].
    + intros i p m Hi Hm. destruct (Hidle i p Hi) as [E _]. rewrite E in Hm. by apply elem_of_nil in Hm.
    + constructor; [intros i p Hi; by destruct (Hidle i p Hi) as [-> ->]|].
      intros i j p q Hi Hj _ Hne. by destruct (Hidle i p Hi).
    + constructor; rewrite ?Hf, ?Hl; [intros i p Hi Ha|set_solver|intros i p m Hi Ha];
        destruct (Hidle i p Hi) as [E _]; by rewrite E in Ha.
    + constructor; rewrite ?Hq; [intros i p|intros i p|set_solver]; intros; destruct (Hidle i p); congruence.
    + constructor; [intros i p r c Hi Hw|intros i j p q r r' Hi Hj Hw];
        destruct (Hidle i p Hi) as [E _]; by rewrite E in Hw.
  - destruct IH as [? ? ? ? ? ?]. constructor; eauto using step_history, step_seen, step_operations,
      step_locking, step_requests, step_exclusive.
Qed.

(** C6: mutual exclusion.  In every reachable state at most one process writes a
    given deployment record (in [hold], or through subprocesses that outlived
    their CLI), and as long as the record lives its holder annotation names that
    process; crashes, lost replies, late patches, recoveries and other writers
    included. *)
Theorem one_writer st i j p q r r' :
  reachable st → procs st !! i = Some p → procs st !! j = Some q →
  writing (p_phase p) = Some r → writing (p_phase q) = Some r' → m_uid r = m_uid r' →
  i = j ∧ (∀ c, server_read (server st) = Some c → m_uid c = m_uid r → m_holder c = p_op p).
Proof.
  intros Hr Hp Hq Hwp Hwq Eu. destruct (reachable_inv st Hr) as [_ _ _ _ _ [Hx Hu]]. split.
  - by eapply Hu.
  - intros c Hc Ec. by eapply Hx.
Qed.

(** ** Nothing is stranded *)

(** Before an operation owns the record, and the record it owned. *)
Definition before (ph : phase) : bool :=
  match ph with Trying | Seen _ | Patching _ | Recovering _ => true | _ => false end.
Definition receipt_of (ph : phase) : option instance :=
  match ph with Holding r _ | Releasing r | ReleasePatching r _ | Orphaned r => Some r | _ => None end.

Record named_by st : Prop := {
  named_before : ∀ i p m, procs st !! i = Some p → before (p_phase p) = true → m ∈ past st →
    m_holder m ≠ p_op p;
  named_after : ∀ i p r m, procs st !! i = Some p → receipt_of (p_phase p) = Some r → m ∈ past st →
    m_holder m = p_op p → m_uid m = m_uid r;
}.

(** The records a step adds to the past. *)
Lemma new_past st st' m : step st st' → m ∈ past st' → m ∈ past st ∨ server_read (server st') = Some m.
Proof.
  intros [[_ ->]|[_ ->]]%step_server; [by left|]. case_match; [|by left].
  intros [->|?]%elem_of_cons; auto.
Qed.

Lemma before_stays st st' i p : step st st' → procs st' !! i = Some p → before (p_phase p) = true →
  (∃ p0, procs st !! i = Some p0 ∧ before (p_phase p0) = true ∧ p_op p0 = p_op p) ∨
  (∀ m, m ∈ past st → m_holder m ≠ p_op p).
Proof.
  intros Hs Hp Hb. step_cases Hs; lookups; try discriminate; try (left; by exists p); try (by right);
    left; eexists; (split_and!; [eassumption| |reflexivity]);
    by match goal with E : p_phase _ = _ |- _ => rewrite E end.
Qed.

Lemma receipt_stays st st' i p r : step st st' → procs st' !! i = Some p →
  receipt_of (p_phase p) = Some r →
  (∃ p0, procs st !! i = Some p0 ∧ receipt_of (p_phase p0) = Some r ∧ p_op p0 = p_op p) ∨
  (∃ p0, procs st !! i = Some p0 ∧ before (p_phase p0) = true ∧ p_op p0 = p_op p ∧
     server_read (server st') = Some r).
Proof.
  intros Hs Hp Hb. step_cases Hs; lookups; try discriminate; try (left; by exists p); simpl in Hb;
    first [left; eexists; (split_and!; [eassumption| |reflexivity]);
           (match goal with E : p_phase _ = _ |- _ => rewrite E end); done
          |right; eexists; (split_and!; [eassumption| |reflexivity|congruence]);
           (match goal with E : p_phase _ = _ |- _ => rewrite E end); done].
Qed.

Lemma step_named st st' : mutation_inv st → named_by st → step st st' → named_by st'.
Proof.
  intros [Hh Hseen Ho Hlk Hrq Hex] [Hb Ha] Hs. pose proof (hist_current st Hh) as Hcur. constructor.
  - intros i p m Hp Hbp Hm. pose proof (step_operations st st' Ho Hs) as Ho'.
    assert (p_op p ≠ "") as Hne by (eapply active_named; [exact Ho'|exact Hp|]; by destruct (p_phase p)).
    assert (∀ o, o ∈ past st → m_holder o ≠ p_op p) as Hold.
    { destruct (before_stays st st' i p Hs Hp Hbp) as [(p0 & Hp0 & Hb0 & <-)|?]; [|done].
      intros o. by apply (Hb i). }
    destruct (new_past st st' m Hs Hm) as [?|Ec]; [by apply Hold|].
    destruct (step_holder st st' m Hh Hseen Hlk Hrq Hs Ec) as [(c & Ecc & _ & Hch)|[-> _]]; [|done].
    destruct Hch as [ -> | -> _ | _ Hd _ | j q _ Hq Ephq Hq' -> ]; [by apply Hold, Hcur|done| |].
    + intros E. apply (dead_stays _ _ _ Hs) in Hd.
      rewrite (dead_finished st' _ i p Ho' Hd ltac:(congruence) Hp (eq_sym E)) in Hbp. done.
    + intros E. assert (i = j) as ->.
      { eapply (ops_unique _ Ho'); [exact Hp|exact Hq'|done|done]. }
      rewrite Hp in Hq'. by injection Hq' as ->.
  - intros i p r m Hp Hrp Hm Em. pose proof (step_operations st st' Ho Hs) as Ho'.
    assert (p_op p ≠ "") as Hne by (eapply active_named; [exact Ho'|exact Hp|]; by destruct (p_phase p)).
    destruct (receipt_stays st st' i p r Hs Hp Hrp) as [(p0 & Hp0 & Hr0 & E0)|(p0 & Hp0 & Hb0 & E0 & Er)].
    + destruct (new_past st st' m Hs Hm) as [?|Ec]; [eapply (Ha i p0); [done..|congruence]|].
      destruct (step_holder st st' m Hh Hseen Hlk Hrq Hs Ec) as [(c & Ecc & -> & Hch)|[E _]]; [|congruence].
      destruct Hch as [E|E _|_ Hd _|j q _ Hq Ephq Hq' E].
      * eapply (Ha i p0); [done|done|by apply Hcur|congruence].
      * congruence.
      * assert (p_phase p0 = Finished) as Ef.
        { eapply (dead_finished st); [exact Ho|exact Hd|congruence|exact Hp0|congruence]. }
        by rewrite Ef in Hr0.
      * assert (i = j) as -> by (eapply (ops_unique _ Ho'); [exact Hp|exact Hq'|simpl; congruence|done]).
        replace q with p0 in * by congruence. by rewrite Ephq in Hr0.
    + destruct (new_past st st' m Hs Hm) as [Hm'|Ec]; [|congruence].
      exfalso. eapply (Hb i p0); [done..|congruence].
Qed.

Ltac saw_receipt := match goal with E : p_phase _ = _ |- _ => rewrite E; reflexivity end.

(** When a step removes a lock file, the record does not name its operation. *)
Lemma file_removed st st' f : mutation_inv st → named_by st → step st st' →
  f ∈ files st → f ∉ files st' →
  (∀ c', server_read (server st') = Some c' → f.2 ≠ "" → m_holder c' ≠ f.2) ∧
  ((∃ i p, procs st !! i = Some p ∧ active (p_phase p) = true ∧ own_file p = f ∧
      ∃ p', procs st' !! i = Some p' ∧ p_phase p' = Finished) ∨
   (dead st f.2 ∧ ∃ m v, server_read (server st') = Some (apply_change (SetHolder "") v m) ∧
      server_read (server st) = Some m ∧ m_version m < v)).
Proof.
  intros [Hh Hseen Ho Hlk Hrq Hex] [Hb Ha] Hs Hf Hf'. pose proof (hist_current st Hh) as Hcur.
  step_cases Hs; rewrite ?not_elem_of_cons, ?elem_of_without in Hf'; try done; try tauto;
    (match type of Hf' with
     | context [(p_machine ?p, m_holder ?m)] => destruct (decide (f = (p_machine p, m_holder m))) as [->|]
     | context [own_file ?p] => destruct (decide (f = own_file p)) as [->|]
     end); try tauto;
    match goal with Hp : procs _ !! ?i = Some ?p, E : p_phase ?p = _ |- _ => (split; [|first
      [left; exists i, p; split_and!; [done|was_active|done|];
       eexists; rewrite list_lookup_insert_eq by (by eapply lookup_lt_Some); done|right]])
    end; cbn [own_file snd]; try (intros c' Ec' _; eapply Hb; [eassumption| |by apply Hcur]; by
      match goal with E : p_phase _ = _ |- _ => rewrite E end).
  - intros c' Ec' Hne. by rewrite (patch_holder _ _ _ _ c' ltac:(eassumption) Ec').
  - split; [by eapply lock_dead|].
    assert (m ∈ past st) as Hm by (eapply Hseen; [eassumption|]; saw).
    destruct (patch_current st m "" s Hh Hm ltac:(eassumption)) as (Ec & v & Hv & Es). by exists m, v.
  - intros c' Ec' Hne E. match goal with R : release_next ?r _ _ = _ |- _ => rename R into Hgone end.
    rewrite Ec' in Hgone. simpl in Hgone.
    assert (m_uid c' = m_uid r) as Eu by (eapply Ha; [eassumption|saw_receipt|by apply Hcur|done]).
    rewrite Eu, E, !eqb_refl in Hgone. done.
  - intros c' Ec' Hne. by rewrite (patch_holder _ _ _ _ c' ltac:(eassumption) Ec').
Qed.

Record filed st : Prop := {
  file_active : ∀ i p, procs st !! i = Some p → active (p_phase p) = true → own_file p ∈ files st;
  file_holder : ∀ i p c, procs st !! i = Some p → server_read (server st) = Some c → p_op p ≠ "" →
    m_holder c = p_op p → own_file p ∈ files st;
  file_flight : ∀ i p m c, procs st !! i = Some p → p_op p ≠ "" → server_read (server st) = Some c →
    set_holder m (p_op p) ∈ in_flight st → m_uid c = m_uid m → m_version c = m_version m →
    own_file p ∈ files st;
}.

Lemma origin st st' i p : step st st' → procs st' !! i = Some p → p_op p ≠ "" →
  own_file p ∈ files st' ∨ ∃ p0, procs st !! i = Some p0 ∧ own_file p0 = own_file p ∧
    (active (p_phase p) = true → active (p_phase p0) = true).
Proof.
  intros Hs Hp Hne. step_cases Hs; lookups; try (right; by exists p); try (left; left);
    right; eexists; (split_and!; [eassumption|done|]); intros _; was_active.
Qed.

Lemma new_acquire st st' m x : step st st' → set_holder m x ∈ in_flight st' → x ≠ "" →
  set_holder m x ∈ in_flight st ∨ ∃ i p, procs st !! i = Some p ∧ active (p_phase p) = true ∧ p_op p = x ∧
    files st' = files st.
Proof.
  intros Hs Hq Hx. step_cases Hs; try (by left); rewrite ?elem_of_cons in Hq;
    try (apply elem_of_keep in Hq as [_ Hq]; by left);
    (destruct Hq as [Hq|?]; [injection Hq as _ _ Hq; subst x; try done|by left]).
  right. exists i, p. split_and!; [done|was_active|done..].
Qed.

(** The file of a process that still runs is not removed. *)
Lemma active_file_stays st st' i p p0 : mutation_inv st → named_by st → step st st' →
  procs st' !! i = Some p → procs st !! i = Some p0 → own_file p0 = own_file p →
  p_op p ≠ "" → active (p_phase p) = true → own_file p ∈ files st → own_file p ∈ files st'.
Proof.
  intros Hinv Hnm Hs Hp Hp0 E0 Hne Ha Hin. destruct (decide (own_file p ∈ files st')) as [|Hout]; [done|].
  exfalso. pose proof Hinv as [_ _ Ho _ _ _].
  destruct (file_removed st st' _ Hinv Hnm Hs Hin Hout) as [_ [(j & q & Hq & Haq & Eq & q' & Hq' & Hf)|[Hd _]]].
  - assert (j = i) as ->.
    { injection E0 as _ Eop. injection Eq as _ Eop'. eapply (ops_unique _ Ho); [exact Hq|exact Hp0|..]; congruence. }
    replace q' with p in * by congruence. by rewrite Hf in Ha.
  - apply (dead_stays _ _ _ Hs) in Hd.
    rewrite (dead_finished st' _ i p (step_operations st st' Ho Hs) Hd Hne Hp eq_refl) in Ha. done.
Qed.

(** The file of the operation the new record names existed before the step. *)
Lemma holder_file_before st st' i p p0 c' : mutation_inv st → filed st → step st st' →
  procs st !! i = Some p0 → own_file p0 = own_file p → p_op p ≠ "" →
  server_read (server st') = Some c' → m_holder c' = p_op p → own_file p ∈ files st.
Proof.
  intros [Hh Hseen Ho Hlk Hrq Hex] [Hfa Hfh Hff] Hs Hp0 E0 Hne Ec' Eh.
  assert (p_op p0 = p_op p) as Eop by (by injection E0). rewrite <-E0.
  destruct (step_holder st st' c' Hh Hseen Hlk Hrq Hs Ec') as [(c & Ec & Euc & Hch)|[E _]]; [|congruence].
  destruct Hch as [E|E _|E Hd Hfl|j q E Hq Ephq Hq' E'].
  - eapply (Hfh i); [done|exact Ec|congruence..].
  - congruence.
  - eapply (Hff i p0 c c); [done|congruence|done| |done..]. congruence.
  - apply (Hfa i); [done|].
    assert (i = j) as -> by (eapply (ops_unique _ Ho); [exact Hp0|exact Hq|congruence..]).
    replace p0 with q by congruence. by rewrite Ephq.
Qed.

(** A request of a dead operation that can still be applied keeps its file. *)
Lemma flight_file_stays st st' i p p0 m c' : mutation_inv st → named_by st → filed st → step st st' →
  procs st !! i = Some p0 → own_file p0 = own_file p → p_op p ≠ "" →
  set_holder m (p_op p) ∈ in_flight st → server_read (server st') = Some c' →
  m_uid c' = m_uid m → m_version c' = m_version m → own_file p ∈ files st'.
Proof.
  intros Hinv Hnm [Hfa Hfh Hff] Hs Hp0 E0 Hne Hold Ec' Eu Ev. pose proof Hinv as [Hh Hseen Ho Hlk Hrq Hex].
  assert (p_op p0 = p_op p) as Eop by (by injection E0).
  destruct (req_flight st Hrq _ Hold) as (m2 & x & [= Eu2 Ev2 <-] & Hm2 & Hx).
  destruct Hx as [[_ Hd]|[E _]]; [|done].
  destruct (step_server st st' Hs) as [[Es _]|[Hw _]].
  - rewrite Es in Ec'. assert (own_file p ∈ files st) as Hin.
    { rewrite <-E0. apply (Hff i p0 m c'); [done|congruence|done| |done..]. by rewrite Eop. }
    destruct (decide (own_file p ∈ files st')) as [|Hout]; [done|]. exfalso.
    destruct (file_removed st st' _ Hinv Hnm Hs Hin Hout) as
      [_ [(j & q & Hqj & Haq & Eq & _)|[_ (m3 & v & E3 & E3' & Hv)]]].
    + rewrite (dead_finished st _ j q Ho Hd Hne Hqj) in Haq; [done|]. by injection Eq.
    + rewrite Es in E3. assert (m3 = apply_change (SetHolder "") v m3) as E by congruence.
      apply (f_equal m_version) in E. simpl in E. lia.
  - exfalso. unfold written in Hw. rewrite Ec' in Hw. destruct Hw as [(c & Ec & Euc & Hlt)|[_ Hfr]].
    + destruct (hist_version st Hh c m2 Ec Hm2 ltac:(congruence)) as [Hle _]. lia.
    + apply (Hfr m2 Hm2). congruence.
Qed.

Lemma step_filed st st' : mutation_inv st → named_by st → filed st → step st st' → filed st'.
Proof.
  intros Hinv Hnm Hfi Hs. pose proof Hinv as [_ _ Ho _ _ _]. pose proof Hfi as [Hfa _ _].
  pose proof (step_operations st st' Ho Hs) as Ho'. constructor.
  - intros i p Hp Ha. assert (p_op p ≠ "") as Hne by (by eapply active_named).
    destruct (origin st st' i p Hs Hp Hne) as [?|(p0 & Hp0 & E0 & Ha0)]; [done|].
    apply (active_file_stays st st' i p p0); try done. rewrite <-E0. apply (Hfa i); auto.
  - intros i p c' Hp Ec' Hne Eh.
    destruct (origin st st' i p Hs Hp Hne) as [?|(p0 & Hp0 & E0 & Ha0)]; [done|].
    assert (own_file p ∈ files st) as Hin by (by eapply (holder_file_before st st' i p p0 c')).
    destruct (decide (own_file p ∈ files st')) as [|Hout]; [done|].
    by destruct (file_removed st st' _ Hinv Hnm Hs Hin Hout) as [Hno _]; destruct (Hno c').
  - intros i p m c' Hp Hne Ec' Hq Eu Ev.
    destruct (origin st st' i p Hs Hp Hne) as [?|(p0 & Hp0 & E0 & _)]; [done|].
    destruct (new_acquire st st' m _ Hs Hq Hne) as [Hold|(j & q & Hqj & Haq & Eq & ->)].
    + by eapply (flight_file_stays st st' i p p0 m c').
    + rewrite <-E0. apply (Hfa i); [done|]. injection E0 as _ Eop.
      assert (i = j) as -> by (eapply (ops_unique _ Ho); [exact Hp0|exact Hqj|congruence..]).
      by replace p0 with q by congruence.
Qed.

Lemma reachable_filed st : reachable st → named_by st ∧ filed st.
Proof.
  intros Hr. induction Hr as [st Hi|st st' Hr [IH1 IH2] Hs].
  - destruct Hi as (Hp & Hf & Hl & Hq & _).
    assert (∀ i p, procs st !! i = Some p → p_phase p = Idle ∧ p_op p = "") as Hidle.
    { intros i p Hi. by eapply Hp, list_elem_of_lookup_2. }
    split; constructor; intros i p; intros; destruct (Hidle i p) as [E1 E2]; try done; by rewrite E1 in *.
  - pose proof (reachable_inv st Hr). eauto using step_named, step_filed.
Qed.

(** Nothing is stranded.  When the record names an operation whose process
    is gone (crashed, or it lost the reply of its last request), the operation's
    lock file still exists on its machine, so that any process of that machine
    that sees the record and finds the file unlocked clears the holder. *)
Theorem dead_holder_recoverable st i p c :
  reachable st → procs st !! i = Some p → p_phase p = Finished →
  server_read (server st) = Some c → m_holder c = p_op p →
  own_file p ∈ files st ∧
  (own_file p ∉ locks st → recoverable (p_machine p) (files st) (locks st) c = true) ∧
  (∀ st' c', step st st' → server_read (server st') = Some c' → m_holder c' = p_op p →
     own_file p ∈ files st').
Proof.
  intros Hr Hp Hf Hc Eh. destruct (reachable_filed st Hr) as [_ Hfi].
  destruct (reachable_inv st Hr) as [_ _ Ho _ _ _].
  assert (p_op p ≠ "") as Hne.
  { intros E. apply (ops_named _ Ho _ _ Hp) in E. congruence. }
  assert (own_file p ∈ files st) as Hin by (by eapply file_holder).
  split_and!; [done| |].
  - intros Hl. unfold recoverable. rewrite Eh. fold (own_file p).
    rewrite (proj2 (mem_true _ _) Hin), (proj2 (mem_false _ _) Hl). done.
  - intros st' c' Hs Hc' Eh'. destruct (reachable_filed st' (reachable_step st st' Hr Hs)) as [_ Hfi'].
    eapply file_holder; [done|by eapply finished_stays|done..].
Qed.
End Proofs.

(** ** Witnesses *)

(** A server that keeps one record and counts its writes. *)
#[local] Instance counting_server : ApiServer (option instance) := {|
  server_read s := s;
  server_patch q s :=
    match s with
    | Some m => if eqb (m_uid m) (q_uid q) && (m_version m =? q_version q)
                then Some (Some (apply_change (q_change q) (m_version m + 1) m)) else None
    | None => None
    end;
|}.
#[local] Instance counting_laws : ApiServerLaws (option instance).
Proof.
  split. intros q [m|] s'; simpl; [|done]. destruct (eqb (m_uid m) (q_uid q)) eqn:E1; [|done].
  destruct (Z.eqb_spec (m_version m) (q_version q)) as [E2|]; [|done]. simpl. intros [= <-].
  reflect_in E1. exists m, (m_version m + 1). split_and!; [done..|lia|done].
Qed.

Definition free_record : instance := Instance "u1" 1 false "" "".
Definition held_record : instance := Instance "u1" 2 false "a1" "".
Definition fresh_procs : list proc := [Proc 0 "" "" Idle; Proc 0 "" "" Idle].
Definition start_state : system (option instance) :=
  System (Some free_record) fresh_procs [] [] [] [free_record].

(** The first process takes the record. *)
Definition first (ph : phase) : proc := Proc 0 "u1" "a1" ph.
Definition trying_state : system (option instance) :=
  lock (0%nat, "a1") (add_file (0%nat, "a1") (put 0 (Proc 0 "" "a1" Trying) start_state)).
Definition seen_state : system (option instance) := put 0 (first (Seen free_record)) trying_state.
Definition patching_state : system (option instance) := put 0 (first (Patching free_record)) seen_state.
Definition holding_state : system (option instance) :=
  serve (Some held_record) (put 0 (first (Holding held_record 1)) patching_state).

Lemma holding_reachable : reachable holding_state.
Proof.
  apply (reachable_step patching_state); [apply (reachable_step seen_state);
    [apply (reachable_step trying_state); [apply (reachable_step start_state);
      [apply reachable_initial|]|]|]|].
  - split_and!; [|done..]. simpl. intros p [->|[->|[]%elem_of_nil]%elem_of_cons]%elem_of_cons; done.
  - apply (step_begin start_state 0 (Proc 0 "" "" Idle) "a1"); [done..| | |]; simpl; [set_solver..|].
    by intros m [= <-].
  - apply (step_read trying_state 0 (Proc 0 "" "a1" Trying) free_record "u1"); reflexivity.
  - apply (step_patch seen_state 0 (first (Seen free_record)) free_record); reflexivity.
  - apply (step_acquired patching_state 0 (first (Patching free_record)) free_record
      (Some held_record) held_record); reflexivity.
Qed.

Lemma one_writer_witness :
  server_read (server holding_state) = Some held_record ∧ m_holder held_record = "a1".
Proof.
  destruct (one_writer holding_state 0 0 (first (Holding held_record 1))
    (first (Holding held_record 1)) held_record held_record holding_reachable
    eq_refl eq_refl eq_refl eq_refl eq_refl) as [_ H].
  split; [reflexivity|]. exact (H held_record eq_refl eq_refl).
Defined.

(** It dies, and its subprocesses exit. *)
Definition orphaned_state : system (option instance) := put 0 (first (Orphaned held_record)) holding_state.
Definition dead_state : system (option instance) := leave 0 (first (Orphaned held_record)) orphaned_state.

Lemma dead_reachable : reachable dead_state.
Proof.
  apply (reachable_step orphaned_state); [apply (reachable_step holding_state); [exact holding_reachable|]|].
  - apply (step_crash_holding holding_state 0 (first (Holding held_record 1)) held_record 1); reflexivity.
  - apply (step_children_exit orphaned_state 0 (first (Orphaned held_record)) held_record); reflexivity.
Qed.

Lemma dead_holder_recoverable_witness :
  recoverable 0 (files dead_state) (locks dead_state) held_record = true.
Proof.
  destruct (dead_holder_recoverable dead_state 0 (first Finished) held_record dead_reachable
    eq_refl eq_refl eq_refl eq_refl) as (_ & H & _).
  apply H. vm_compute. intros Hin. inversion Hin.
Defined.
