(* ===== verification/Kube.v ===== *)
(** * Kubernetes objects as the CLI reads them

    Objects are JSON values; this file has the Python operations the sources
    apply to them ([get], [or], [str], [int], iteration, subscripts), resource
    identities ([kubernetes/client.py]) and the intent predicate of
    [deployment/manifest.py] that readiness depends on. *)

From Stdlib Require Import Ascii.
From S2P Require Import Prelude Text.

(** ** Reading JSON values *)

Definition dict_of (j : json) : option (list (string * json)) :=
  match j with JObj m => Some m | _ => None end.
Definition is_dict (j : json) : bool := match j with JObj _ => true | _ => false end.
Definition is_none (j : json) : bool := match j with JNull => true | _ => false end.

(** [j.get(k, default)]; only dictionaries have it. *)
Definition get_or (k : string) (d : json) (j : json) : outcome json :=
  match j with JObj m => Ok (default d (dget k m)) | _ => Raise AttributeError end.
Definition get (k : string) (j : json) : outcome json := get_or k JNull j.

(** [j[k]] with a string key *)
Definition index (k : string) (j : json) : outcome json :=
  match j with
  | JObj m => match dget k m with Some v => Ok v | None => Raise (KeyError k) end
  | _ => Raise (TypeError "indices must be integers or slices")
  end.

(** [a or b] *)
Definition or_ (a b : json) : json := if truthy a then a else b.

(** [k in j] for a dictionary *)
Definition has_key (k : string) (j : json) : bool :=
  match j with JObj m => dmem k m | _ => false end.

(** [j == "text"] and [j == n] *)
Definition is_str (s : string) (j : json) : bool := match j with JStr t => eqb t s | _ => false end.
Definition is_int (n : Z) (j : json) : bool :=
  match j with
  | JInt z => z =? n
  | JBool b => (if b then 1 else 0) =? n
  | JFloat x => feqb x (Fin (inject_Z n))
  | _ => false
  end.

(** [for x in j] *)
Fixpoint characters (s : string) : list json :=
  match s with EmptyString => [] | String c s => JStr (String c EmptyString) :: characters s end.
Definition elements (j : json) : outcome (list json) :=
  match j with
  | JArr l => Ok l
  | JObj m => Ok (JStr <$> m.*1)
  | JStr s => Ok (characters s)
  | _ => Raise (TypeError "object is not iterable")
  end.

(** [next((x for x in l if p(x)), None)] and [any(p(x) for x in l)] *)
Fixpoint find_first (p : json → outcome bool) (l : list json) : outcome (option json) :=
  match l with
  | [] => Ok None
  | x :: l => b ← p x; if (b : bool) then Ok (Some x) else find_first p l
  end.
Fixpoint any_of (p : json → outcome bool) (l : list json) : outcome bool :=
  match l with
  | [] => Ok false
  | x :: l => b ← p x; if (b : bool) then Ok true else any_of p l
  end.

(** [int(j)] *)
Definition int_of (j : json) : outcome Z :=
  match j with
  | JInt z => Ok z
  | JBool b => Ok (if b then 1 else 0)
  | JFloat (Fin q) => Ok (Z.quot (Qnum q) (Zpos (Qden q)))
  | JFloat NotANumber => Raise (ValueError "cannot convert float NaN to integer")
  | JFloat _ => Raise OverflowError
  | JStr s => match py_int s with Some z => Ok z | None => Raise (ValueError "invalid literal for int()") end
  | _ => Raise (TypeError "int() argument")
  end.

(** [repr] of floats and containers. *)
Class PythonRepr := repr : json → string.

(** [str(j)] *)
Definition str_of `{PythonRepr} (j : json) : string :=
  match j with
  | JNull => "None"
  | JBool true => "True"
  | JBool false => "False"
  | JInt z => str_Z z
  | JStr s => s
  | _ => repr j
  end.

(** A method of strings *)
Definition as_text (j : json) : outcome string := match j with JStr s => Ok s | _ => Raise AttributeError end.
(** [j[0]] *)
Definition first_item (j : json) : outcome json :=
  match j with
  | JArr (x :: _) => Ok x
  | JArr [] => Raise IndexError
  | JStr (String c _) => Ok (JStr (String c ""))
  | JStr EmptyString => Raise IndexError
  | JObj _ => Raise (KeyError "0")
  | _ => Raise (TypeError "object is not subscriptable")
  end.

(** [j.get(k) or {}], iteration over [j.get(k) or []], and [str(j.get(k) or "")] *)
Definition child (k : string) (j : json) : outcome json := v ← get k j; Ok (or_ v (JObj [])).
Definition children_at (k : string) (j : json) : outcome (list json) :=
  v ← get k j; elements (or_ v (JArr [])).
Definition text_at `{PythonRepr} (k : string) (j : json) : outcome string :=
  v ← get k j; Ok (str_of (or_ v (JStr ""))).

(** ** Editing documents *)

(** [d[k] = v], [d.pop(k, None)], [d.setdefault(k, v)] *)
Definition set_key (k : string) (v : json) (d : json) : outcome json :=
  match d with JObj m => Ok (JObj (dset k v m)) | _ => Raise (TypeError "object does not support item assignment") end.
Definition pop_key (k : string) (d : json) : outcome json :=
  match d with JObj m => Ok (JObj (ddel k m)) | _ => Raise AttributeError end.
Definition default_key (k : string) (v : json) (d : json) : outcome json :=
  match d with JObj m => Ok (if dmem k m then d else JObj (dset k v m)) | _ => Raise AttributeError end.

(** Change the value under [k] in place. *)
Definition edit_key (k : string) (f : json → outcome json) (d : json) : outcome json :=
  v ← index k d; v' ← f v; set_key k v' d.
Definition edit_metadata : (json → outcome json) → json → outcome json := edit_key "metadata".

Lemma index_set_key k v d d' : set_key k v d = Ok d' → index k d' = Ok v.
Proof. destruct d; try done. intros [= <-]. simpl. by rewrite dget_dset, eqb_refl. Qed.

Lemma index_set_key_ne k k' v d d' : k ≠ k' → set_key k v d = Ok d' → index k' d' = index k' d.
Proof.
  intros Hne. destruct d; try done. intros [= <-]. simpl. rewrite dget_dset.
  by rewrite (proj2 (eqb_false k k') Hne).
Qed.

Lemma edit_metadata_index f d d' :
  edit_metadata f d = Ok d' → ∃ m m', index "metadata" d = Ok m ∧ f m = Ok m' ∧ index "metadata" d' = Ok m'.
Proof.
  unfold edit_metadata, edit_key. intros (m & Hm & (m' & Hf & Hs)%outcome_bind_Ok)%outcome_bind_Ok.
  exists m, m'. split_and!; [done..|]. by eapply index_set_key.
Qed.

(** ** Identities ([ResourceRef], [resource_ref]) *)

Record ResourceRef := Ref {
  kind : string;
  name : string;
  namespace : string;
}.
#[export] Instance ref_eq_dec : EqDecision ResourceRef.
Proof. solve_decision. Defined.

Definition display_name (r : ResourceRef) : string := kind r +:+ "/" +:+ name r.

Definition resource_ref (value : json) : outcome ResourceRef :=
  metadata ← get "metadata" value;
  if negb (is_dict metadata) then Raise (DeploymentError "Kubernetes object has no metadata") else
  k ← get "kind" value;
  n ← get "name" metadata;
  match k with
  | JStr k =>
      if negb (nonempty k) then Raise (DeploymentError "Kubernetes object has no kind") else
      match n with
      | JStr n =>
          if negb (nonempty n) then Raise (DeploymentError ("Kubernetes " +:+ k +:+ " object has no metadata.name")) else
          ns ← get "namespace" metadata;
          match ns with
          | JNull => Ok (Ref k n "")
          | JStr s => Ok (Ref k n s)
          | _ => Raise (DeploymentError ("Kubernetes " +:+ k +:+ "/" +:+ n +:+ " has an invalid metadata.namespace"))
          end
      | _ => Raise (DeploymentError ("Kubernetes " +:+ k +:+ " object has no metadata.name"))
      end
  | _ => Raise (DeploymentError "Kubernetes object has no kind")
  end.

(** ** Durations ([timeout_seconds]) *)

Definition unit_seconds (c : ascii) : option Z :=
  match c with
  | "s"%char => Some 1
  | "m"%char => Some 60
  | "h"%char => Some 3600
  | _ => None
  end.

(** A sequence of digit groups with a unit; [digits] says whether the current
    group has one. *)
Fixpoint read_duration (total amount : Z) (digits : bool) (s : string) : option Z :=
  match s with
  | EmptyString => if digits then None else Some total
  | String c s =>
      match digit_value c, unit_seconds c with
      | Some v, _ => read_duration total (amount * 10 + v) true s
      | None, Some u => if digits then read_duration (total + amount * u) 0 false s else None
      | None, None => None
      end
  end.
Definition timeout_seconds (value : string) : outcome Z :=
  match value with
  | EmptyString => Raise (DeploymentError "--timeout must use Kubernetes duration syntax, such as 10m or 1h30m")
  | _ => match read_duration 0 0 false value with
         | Some n => Ok n
         | None => Raise (DeploymentError "--timeout must use Kubernetes duration syntax, such as 10m or 1h30m")
         end
  end.

(** ** Execution intent ([service_requires_execution]) *)

(** [value.get("replicas", 1) != 0] *)
Definition has_replicas (value : json) : outcome bool :=
  r ← get_or "replicas" (JInt 1) value; Ok (negb (is_int 0 r)).

Definition service_requires_execution (service : json) : outcome bool :=
  spec0 ← get "spec" service;
  let spec := or_ spec0 (JObj []) in
  suspend ← get_or "suspend" (JBool false) spec;
  if truthy suspend then Ok false else
  k ← index "kind" service;
  if is_str "ModelService" k then
    autoscaling ← get "autoscaling" spec;
    if negb (is_none autoscaling) then Ok true else
    pools ← get "modelPools" spec;
    if truthy pools then l ← elements pools; any_of has_replicas l
    else has_replicas spec
  else has_replicas spec.
