(* ===== verification/Manifest.v ===== *)
(** * Deployment manifests ([deployment/manifest.py])

    Indexing the objects Kustomize renders, projecting them to an instance with
    prefixed names, and the name rules.  The YAML codec is a parameter ([codec]),
    and so is [kubectl kustomize]. *)

From Stdlib Require Import Ascii.
From S2P Require Import Prelude Text Kube.

Definition API_PREFIX : string := "inference.foretoken.io/".
Definition GROUP : string := "inference.foretoken.io".
Definition INSTANCE_KIND : string := "InferenceDeployment".
Definition DEPLOYMENT_UID_LABEL : string := "inference.foretoken.io/deployment-uid".

(** [decode_resources] (a YAML error is [None]) and [encode_resources]. *)
Class Codec := {
  decode : string → option (list json);
  encode : list json → string;
}.

(** ** Data *)

Record RuntimeCacheManifest := RuntimeCache {
  cache_name : string;
  cache_namespace : string;
  directory : string;
  access_mode : string;
  retention_policy : string;
}.

Record ForetokenDeployment := Deployment {
  path : option string;
  rendered : string;
  d_namespace : string;
  frontend : string;
  hostname : string;
  models : list (string * string);
  runtime_caches : list RuntimeCacheManifest;
  objects : list json;
  d_name : string;
  uid : string;
}.

(** [document.get("apiVersion", "").startswith("inference.foretoken.io/")] *)
Definition foretoken_object (document : json) : outcome bool :=
  v ← get_or "apiVersion" (JStr "") document;
  match v with JStr s => Ok (startswith API_PREFIX s) | _ => Raise AttributeError end.

(** [document.get("kind") == kind] *)
Definition of_kind (k : string) (document : json) : outcome bool :=
  v ← get "kind" document; Ok (is_str k v).

Definition metadata_name (document : json) : outcome json :=
  m ← index "metadata" document; index "name" m.

Section Manifest.
Context `{PythonRepr} `{Codec}.

(** [service_refs]: frontends before models, each in document order. *)
Definition refs_of_kind (d : ForetokenDeployment) (k : string) : outcome (list ResourceRef) :=
  refs ← outcome_map (λ document,
    b ← of_kind k document;
    f ← (if (b : bool) then foretoken_object document else Ok false);
    if (f : bool) then n ← metadata_name document; Ok [Ref k (str_of n) (d_namespace d)] else Ok [])
    (objects d);
  Ok (concat refs).
Definition service_refs (d : ForetokenDeployment) : outcome (list ResourceRef) :=
  a ← refs_of_kind d "FrontendService"; b ← refs_of_kind d "ModelService"; Ok (a ++ b).

(** [resource_references] *)
Definition resource_references (d : ForetokenDeployment) : outcome (list json) :=
  refs ← outcome_map (λ document,
    k ← index "kind" document;
    if is_str "Namespace" k || is_str INSTANCE_KIND k then Ok [] else
    v ← index "apiVersion" document;
    n ← metadata_name document;
    Ok [JObj [("apiVersion", v); ("kind", k); ("name", n)]]) (objects d);
  Ok (concat refs).

(** ** [parse_deployment] *)

(** The lists the indexing loop fills. *)
Record parsed := Parsed {
  frontends : list json;
  parsed_models : list (string * string);
  parsed_caches : list RuntimeCacheManifest;
  namespaces : list string;
}.

(** [str(x or "").strip()] *)
Definition text_of (j : json) : string := strip (str_of (or_ j (JStr ""))).

(** A RuntimeCache document. *)
Definition parse_cache (ns : string) (metadata document : json) : outcome RuntimeCacheManifest :=
  n ← get "name" metadata;
  let name := text_of n in
  spec0 ← get "spec" document;
  let spec := or_ spec0 (JObj []) in
  if negb (nonempty name) || negb (nonempty ns) || negb (is_dict spec) then
    Raise (DeploymentError "RuntimeCache requires metadata.name, metadata.namespace, and spec")
  else
  dir ← get_or "directory" (JStr "") spec;
  let bad := DeploymentError ("RuntimeCache/" +:+ name +:+ " directory must be a nonempty path string") in
  match dir with
  | JStr dir =>
      if has_key "directory" spec && negb (nonempty dir) then Raise bad else
      access ← get "accessMode" spec;
      retention ← get "retentionPolicy" spec;
      Ok (RuntimeCache name ns dir (str_of (or_ access (JStr "ReadWriteMany")))
            (str_of (or_ retention (JStr "Retain"))))
  | _ => Raise bad
  end.

(** One iteration of the loop. *)
Definition parse_document (st : parsed) (indexed : nat * json) : outcome parsed :=
  let document := indexed.2 in
  if negb (is_dict document) then
    Raise (DeploymentError ("rendered document " +:+ str_Z (Z.of_nat (S indexed.1)) +:+ " is not a Kubernetes object"))
  else
  metadata0 ← get "metadata" document;
  let metadata := or_ metadata0 (JObj []) in
  api ← get "apiVersion" document;
  k ← get "kind" document;
  if negb (startswith API_PREFIX (str_of (or_ api (JStr "")))) then Ok st else
  ns0 ← get "namespace" metadata;
  let ns := text_of ns0 in
  if is_str "RuntimeCache" k then
    c ← parse_cache ns metadata document;
    Ok (Parsed (frontends st) (parsed_models st) (parsed_caches st ++ [c]) (namespaces st))
  else if is_str "FrontendService" k then
    Ok (Parsed (frontends st ++ [document]) (parsed_models st) (parsed_caches st)
          (distinct (namespaces st ++ [ns])))
  else if is_str "ModelService" k then
    n ← get "name" metadata;
    spec ← get "spec" document;
    m ← get "model" (or_ spec (JObj []));
    let name := text_of n in
    let model := text_of m in
    if negb (nonempty name) || negb (nonempty model) then
      Raise (DeploymentError "each ModelService requires metadata.name and spec.model")
    else Ok (Parsed (frontends st) (dset name model (parsed_models st)) (parsed_caches st)
               (distinct (namespaces st ++ [ns])))
  else Ok st.

Definition parse_deployment (path : option string) (rendered : string) (instance_name : option string)
    (uid : string) : outcome ForetokenDeployment :=
  match decode rendered with
  | None => Raise (DeploymentError "deployment rendered invalid YAML")
  | Some [] => Raise (DeploymentError "deployment rendered no Kubernetes resources")
  | Some documents =>
      st ← outcome_fold parse_document (Parsed [] [] [] []) (imap pair documents);
      match frontends st with
      | [front] =>
          if bool_decide (parsed_models st = []) then
            Raise (DeploymentError "a deployment must render at least one Foretoken ModelService")
          else match namespaces st with
          | [ns] =>
              metadata0 ← get "metadata" front;
              n ← get "name" (or_ metadata0 (JObj []));
              let name := text_of n in
              if negb (nonempty name) then Raise (DeploymentError "FrontendService requires metadata.name")
              else if existsb (λ c, negb (eqb (cache_namespace c) ns)) (parsed_caches st) then
                Raise (DeploymentError
                  "RuntimeCache resources must share the FrontendService and ModelService namespace")
              else if (1 <? length (parsed_caches st))%nat then
                Raise (DeploymentError "a deployment may render at most one RuntimeCache")
              else
              spec ← get "spec" front;
              host ← get "hostname" (or_ spec (JObj []));
              Ok (Deployment path rendered ns name (text_of host) (parsed_models st) (parsed_caches st) documents
                    (match instance_name with
                     | Some i => if nonempty i then i else name
                     | None => name
                     end) uid)
          | _ => Raise (DeploymentError "FrontendService and ModelService resources must share one namespace")
          end
      | _ => Raise (DeploymentError "a deployment must render exactly one Foretoken FrontendService")
      end
  end.

(** [with_objects] *)
Definition with_objects (d : ForetokenDeployment) (objects : list json) : outcome ForetokenDeployment :=
  parse_deployment (path d) (encode objects) (Some (d_name d)) (uid d).

(** ** Instance names *)

Definition is_lower (c : ascii) : bool :=
  let n := nat_of_ascii c in (Nat.leb 97 n && Nat.leb n 122)%bool.
Definition is_digit (c : ascii) : bool := bool_decide (is_Some (digit_value c)).

(** [[-a-z0-9]*[a-z0-9]] after the first letter, or nothing. *)
Fixpoint dns_tail (s : string) : bool :=
  match s with
  | EmptyString => true
  | String c EmptyString => is_lower c || is_digit c
  | String c s => (is_lower c || is_digit c || Ascii.eqb c "-") && dns_tail s
  end.
Definition dns_label (s : string) : bool :=
  match s with EmptyString => false | String c s => is_lower c && dns_tail s end.

(** [validate_instance_name] *)
Definition validate_instance_name (name : string) : outcome string :=
  if (63 <? String.length name)%nat || negb (dns_label name)
  then Raise (DeploymentError "instance name must be a Kubernetes Service name")
  else Ok name.

(** [deployment_path]: a directory that holds a kustomization file. *)
Definition deployment_path (path_ : string) (is_dir : bool) (files : list string) : outcome string :=
  if negb is_dir then Raise (DeploymentError ("deployment directory not found: " +:+ path_))
  else if negb (existsb (λ n, mem n files) ["kustomization.yaml"; "kustomization.yml"; "Kustomization"])
  then Raise (DeploymentError ("deployment directory is not a Kustomize root: " +:+ path_))
  else Ok path_.

(** ** Projection *)

(** The environment scopes of a document: the service specification and its
    pools, when they are dictionaries with [env]; [f] rewrites [env]. *)
Definition with_env (f : json → outcome json) (scope : json) : outcome json :=
  match scope with
  | JObj m =>
      match dget "env" m with
      | Some env => env' ← f env; Ok (JObj (dset "env" env' m))
      | None => Ok scope
      end
  | _ => Ok scope
  end.

Fixpoint map_scopes (f : nat → json → outcome json) (i : nat) (l : list json) : outcome (list json) :=
  match l with
  | [] => Ok []
  | x :: l => y ← with_env (f i) x; ys ← map_scopes f (S i) l; Ok (y :: ys)
  end.

(** The scopes of a specification: itself, then its pools. *)
Definition map_spec (f : nat → json → outcome json) (m : list (string * json))
    : outcome (list (string * json)) :=
  spec ← with_env (f O) (JObj m);
  let m' := default m (dict_of spec) in
  match dget "modelPools" m with
  | Some (JArr pools) => ps ← map_scopes f 1 pools; Ok (dset "modelPools" (JArr ps) m')
  | _ => Ok m'
  end.

(** [_model_environment_scopes] with the rewriting its caller does in place. *)
Definition map_environments (f : string → nat → json → outcome json) (document : json) : outcome json :=
  k ← index "kind" document;
  if negb (is_str "ModelService" k) then Ok document else
  v ← index "apiVersion" document;
  match v with
  | JStr s =>
      if negb (startswith API_PREFIX s) then Ok document else
      spec ← get "spec" document;
      match spec, document with
      | JObj m, JObj doc =>
          let g i env := n ← metadata_name document; f (str_of n) i env in
          m' ← map_spec g m;
          Ok (JObj (dset "spec" (JObj m') doc))
      | _, _ => Ok document
      end
  | _ => Raise AttributeError
  end.

(** A map entry becomes a named list entry and back. *)
Definition stage_entry (e : string * json) : json :=
  JObj [("name", JStr e.1); ((if is_dict e.2 then "reference" else "literal"), e.2)].
Definition stage_env (env : json) : json :=
  match env with JObj m => JArr (stage_entry <$> m) | _ => env end.
Definition unstage_entry (acc : list (string * json)) (entry : json) : outcome (list (string * json)) :=
  n ← index "name" entry;
  v ← (if has_key "reference" entry then index "reference" entry else index "literal" entry);
  Ok (dset (str_of n) v acc).
Definition unstage_env (env : json) : outcome json :=
  entries ← elements env;
  m ← outcome_fold unstage_entry [] entries;
  Ok (JObj m).

(** The values [_model_environment_scopes] yields for a document: the key of each
    scope and its [env]. *)
Definition scope_env (scope : json) : option json :=
  match scope with JObj m => dget "env" m | _ => None end.
Definition environment_scopes (document : json) : list ((string * nat) * json) :=
  match document with
  | JObj doc =>
      match dget "kind" doc, dget "apiVersion" doc, dget "spec" doc, metadata_name document with
      | Some k, Some (JStr api), Some (JObj m), Ok n =>
          if is_str "ModelService" k && startswith API_PREFIX api then
            let pools := match dget "modelPools" m with Some (JArr ps) => ps | _ => [] end in
            omap (λ e : nat * json, (λ env, ((str_of n, e.1), env)) <$> scope_env e.2)
              (imap pair (JObj m :: pools))
          else []
      | _, _, _, _ => []
      end
  | _ => []
  end.

(** [environment_maps]: the scopes whose map is staged, under their new names. *)
Definition staged_scopes (prefix : string) (document : json) : list (string * nat) :=
  (λ e : (string * nat) * json, (prefix +:+ e.1.1, e.1.2))
    <$> keep (λ e : (string * nat) * json, is_dict e.2) (environment_scopes document).

Definition stage_document (document : json) : outcome json :=
  map_environments (λ _ _ env, Ok (stage_env env)) document.
Definition unstage_document (maps : list (string * nat)) (document : json) : outcome json :=
  map_environments (λ name i env, if mem (name, i) maps then unstage_env env else Ok env) document.

(** The readable name of the frontend. *)
Definition anchor_frontend (name : string) (document : json) : outcome json :=
  k ← index "kind" document;
  if negb (is_str "FrontendService" k) then Ok document else
  v ← index "apiVersion" document;
  match v, document with
  | JStr s, JObj doc =>
      if negb (startswith API_PREFIX s) then Ok document else
      m ← index "metadata" document;
      match m with
      | JObj meta => Ok (JObj (dset "metadata" (JObj (dset "name" (JStr name) meta)) doc))
      | _ => Raise (TypeError "object does not support item assignment")
      end
  | JStr _, _ => Ok document
  | _, _ => Raise AttributeError
  end.

(** What the generated kustomization asks for. *)
Record kustomization := Kustomization {
  k_namespace : string;
  k_name_prefix : option string;
  k_uid_label : option string;
}.

Section Projection.
Variable kustomize : kustomization → list json → outcome string.

(** [project_deployment] *)
Definition project_deployment (d : ForetokenDeployment) (prefix uid_ : string) : outcome ForetokenDeployment :=
  let maps := if nonempty prefix then objects d ≫= staged_scopes prefix else [] in
  staged ← (if nonempty prefix then outcome_map stage_document (objects d) else Ok (objects d));
  text ← kustomize (Kustomization (d_namespace d)
                      (if nonempty prefix then Some prefix else None)
                      (if nonempty uid_ then Some uid_ else None)) staged;
  text ← (if nonempty prefix then
            match decode text with
            | None => Raise (ValueError "YAMLError")
            | Some projected =>
                restored ← outcome_map (unstage_document maps) projected;
                anchored ← outcome_map (anchor_frontend (d_name d)) restored;
                Ok (encode anchored)
            end
          else Ok text);
  p ← parse_deployment (path d) text (Some (d_name d)) (if nonempty uid_ then uid_ else uid d);
  foreign ← any_of (λ document,
    m ← index "metadata" document;
    n ← get "namespace" m;
    Ok (negb (is_str (d_namespace d) n))) (objects p);
  if (foreign : bool)
  then Raise (DeploymentError "deployment resources must belong to the current Kubernetes namespace")
  else Ok p.

(** The loop of [load_deployment]: drop namespaces, refuse instance records, and
    move the program's own objects to the current namespace. *)
Definition retain (current : string) (document : json) : outcome (list json) :=
  match document with
  | JObj doc =>
      ns ← of_kind "Namespace" document;
      if (ns : bool) then Ok [] else
      inst ← of_kind INSTANCE_KIND document;
      refused ← (if (inst : bool) then foretoken_object document else Ok false);
      if (refused : bool) then
        Raise (DeploymentError
          "InferenceDeployment is managed by foretoken deploy; declare its service resources instead")
      else
      own ← foretoken_object document;
      if (own : bool) then
        match dget "metadata" doc with
        | None => Ok [JObj (dset "metadata" (JObj [("namespace", JStr current)]) doc)]
        | Some (JObj meta) => Ok [JObj (dset "metadata" (JObj (dset "namespace" (JStr current) meta)) doc)]
        | Some _ => Raise (TypeError "object does not support item assignment")
        end
      else Ok [document]
  | _ => Raise (DeploymentError "deployment rendered a value that is not a Kubernetes object")
  end.

(** [load_deployment] from the rendered text of its directory *)
Definition load_deployment (directory_ current rendered_ : string) (name_ : option string)
    : outcome ForetokenDeployment :=
  match decode rendered_ with
  | None => Raise (DeploymentError "deployment rendered invalid YAML")
  | Some documents =>
      retained ← outcome_map (retain current) documents;
      d ← parse_deployment (Some directory_) (encode (concat retained)) name_ "";
      _ ← validate_instance_name (d_name d);
      project_deployment d (d_name d +:+ "-") ""
  end.
End Projection.
End Manifest.
