(* ===== verification/ManifestProofs.v ===== *)
(** * Properties of deployment manifests

    An indexed deployment has exactly one frontend, at least one model and one
    namespace; the reversible staging of environment maps restores every
    document. *)

From Stdlib Require Import Ascii.
From S2P Require Import Prelude Text Kube Manifest.

(** ** Folds over a prefix *)

Lemma outcome_fold_prefix {A B} (I : list A → B → Prop) (f : B → A → outcome B) l b b' :
  (∀ pre x st st', I pre st → f st x = Ok st' → I (pre ++ [x]) st') →
  I [] b → outcome_fold f b l = Ok b' → I l b'.
Proof.
  intros Hf Hb. change l with ([] ++ l) at 2. revert b Hb. generalize (@nil A) as pre.
  induction l as [|x l IH]; intros pre b Hb; simpl.
  - intros [= <-]. by rewrite app_nil_r.
  - intros (b1 & Hx & Hl)%outcome_bind_Ok. replace (pre ++ x :: l) with ((pre ++ [x]) ++ l)
      by (by rewrite <-app_assoc). eauto.
Qed.

Section Parse.
Context `{PythonRepr} `{Codec}.

(** ** What a document is *)

Definition field_or_null (k : string) (j : json) : json :=
  match j with JObj m => default JNull (dget k m) | _ => JNull end.
Definition part_of (k : string) (j : json) : json := or_ (field_or_null k j) (JObj []).

Definition service (k : string) (document : json) : bool :=
  startswith API_PREFIX (str_of (or_ (field_or_null "apiVersion" document) (JStr ""))) &&
  is_str k (field_or_null "kind" document).
Definition is_service (document : json) : bool :=
  service "FrontendService" document || service "ModelService" document.
Definition namespace_text (document : json) : string :=
  text_of (field_or_null "namespace" (part_of "metadata" document)).
Definition name_text (document : json) : string :=
  text_of (field_or_null "name" (part_of "metadata" document)).
Definition model_text (document : json) : string :=
  text_of (field_or_null "model" (part_of "spec" document)).

Lemma get_field k j v : get k j = Ok v → v = field_or_null k j ∧ is_dict j = true.
Proof. unfold get, get_or. destruct j; try done. by intros [= <-]. Qed.

(** What the loop has collected from the documents [pre]. *)
Record collected (pre : list json) (st : parsed) : Prop := {
  col_dicts : Forall (λ d, is_dict d = true) pre;
  col_frontends : frontends st = keep (service "FrontendService") pre;
  col_namespaces : ∀ ns, ns ∈ namespaces st ↔ ∃ d, d ∈ pre ∧ is_service d = true ∧ namespace_text d = ns;
  col_distinct : NoDup (namespaces st);
  col_models : ∀ n, n ∈ (parsed_models st).*1 ↔ ∃ d, d ∈ pre ∧ service "ModelService" d = true ∧ name_text d = n;
  col_model_text : Forall (λ e : string * string, e.1 ≠ "" ∧ e.2 ≠ "") (parsed_models st);
  col_model_keys : NoDup (parsed_models st).*1;
}.

Lemma nonempty_true s : nonempty s = true ↔ s ≠ "".
Proof. unfold nonempty. rewrite negb_true_iff, bool_decide_eq_false. done. Qed.

Lemma exists_snoc (P : json → Prop) pre document :
  (∃ d, d ∈ pre ++ [document] ∧ P d) ↔ (∃ d, d ∈ pre ∧ P d) ∨ P document.
Proof.
  setoid_rewrite elem_of_app. setoid_rewrite list_elem_of_singleton. naive_solver.
Qed.

(** A document that is no service, a frontend, and a model. *)
Lemma collected_skip pre document st st' : collected pre st → is_dict document = true →
  is_service document = false → frontends st' = frontends st → parsed_models st' = parsed_models st →
  namespaces st' = namespaces st → collected (pre ++ [document]) st'.
Proof.
  intros [Hd Hf Hn Hnd Hm Hmt Hk] Edict Hs E1 E2 E3.
  pose proof Hs as [Hs1 Hs2]%orb_false_iff. constructor; rewrite ?E1, ?E2, ?E3; try done.
  - apply Forall_app. split; [done|]. by constructor.
  - by rewrite keep_app, keep_cons, Hs1, app_nil_r.
  - intros ns. rewrite Hn, exists_snoc. naive_solver congruence.
  - intros n. rewrite Hm, exists_snoc. naive_solver congruence.
Qed.

Lemma collected_frontend pre document st caches : collected pre st → is_dict document = true →
  service "FrontendService" document = true → service "ModelService" document = false →
  collected (pre ++ [document]) (Parsed (frontends st ++ [document]) (parsed_models st) caches
    (distinct (namespaces st ++ [namespace_text document]))).
Proof.
  intros [Hd Hf Hn Hnd Hm Hmt Hk] Edict Hs1 Hs2. constructor; simpl; try done.
  - apply Forall_app. split; [done|]. by constructor.
  - by rewrite keep_app, keep_cons, Hs1, Hf.
  - intros ns. rewrite elem_of_distinct, elem_of_app, list_elem_of_singleton, Hn, exists_snoc.
    unfold is_service at 3. rewrite Hs1. naive_solver.
  - apply NoDup_distinct.
  - intros n. rewrite Hm, exists_snoc. naive_solver congruence.
Qed.

Lemma collected_model pre document st caches : collected pre st → is_dict document = true →
  service "FrontendService" document = false → service "ModelService" document = true →
  name_text document ≠ "" → model_text document ≠ "" →
  collected (pre ++ [document]) (Parsed (frontends st)
    (dset (name_text document) (model_text document) (parsed_models st)) caches
    (distinct (namespaces st ++ [namespace_text document]))).
Proof.
  intros [Hd Hf Hn Hnd Hm Hmt Hk] Edict Hs1 Hs2 Hne1 Hne2. constructor; simpl; try done.
  - apply Forall_app. split; [done|]. by constructor.
  - by rewrite keep_app, keep_cons, Hs1, app_nil_r.
  - intros ns. rewrite elem_of_distinct, elem_of_app, list_elem_of_singleton, Hn, exists_snoc.
    unfold is_service at 3. rewrite Hs1, Hs2. naive_solver.
  - apply NoDup_distinct.
  - intros n. rewrite elem_of_dset_keys, Hm, exists_snoc. naive_solver.
  - apply Forall_dset; [|done]. by intros k' ->.
  - by apply NoDup_dset.
Qed.

Lemma parse_document_collected pre i document st st' :
  collected pre st → parse_document st (i, document) = Ok st' → collected (pre ++ [document]) st'.
Proof.
  intros Hc. unfold parse_document. simpl.
  destruct (is_dict document) eqn:Edict; simpl; [|done].
  intros (metadata & [-> _]%get_field & E)%outcome_bind_Ok.
  apply outcome_bind_Ok in E as (api & [-> _]%get_field & E).
  apply outcome_bind_Ok in E as (k & [-> _]%get_field & E).
  assert (∀ k, service k document =
    startswith API_PREFIX (str_of (or_ (field_or_null "apiVersion" document) (JStr ""))) &&
    is_str k (field_or_null "kind" document)) as Hsv by done.
  destruct (startswith API_PREFIX _); cbn [negb andb] in *.
  2:{ injection E as <-. apply (collected_skip pre document st); [done..| |done|done|done].
      unfold is_service. by rewrite !Hsv. }
  apply outcome_bind_Ok in E as (ns & [-> _]%get_field & E). cbv beta zeta in E.
  destruct (is_str "RuntimeCache" (field_or_null "kind" document)) eqn:E0.
  { apply outcome_bind_Ok in E as (c & _ & [= <-]). apply (collected_skip pre document st); [done..| |done|done|done].
    unfold is_service. rewrite !Hsv. destruct (field_or_null "kind" document); try done. simpl in *.
    rewrite eqb_true in E0. by subst. }
  destruct (is_str "FrontendService" (field_or_null "kind" document)) eqn:E1.
  { injection E as <-. apply collected_frontend; [done|done|by rewrite Hsv|]. rewrite Hsv.
    destruct (field_or_null "kind" document); try done. simpl in *. rewrite eqb_true in E1. by subst. }
  destruct (is_str "ModelService" (field_or_null "kind" document)) eqn:E2.
  - apply outcome_bind_Ok in E as (n & [-> _]%get_field & E).
    apply outcome_bind_Ok in E as (sp & [-> _]%get_field & E).
    apply outcome_bind_Ok in E as (m & [-> _]%get_field & E). cbv beta zeta in E.
    destruct (_ || _) eqn:Ene in E; [done|]. injection E as <-.
    apply orb_false_iff in Ene as [Hn1 Hn2]. apply negb_false_iff in Hn1, Hn2.
    apply collected_model; [done|done|by rewrite Hsv|by rewrite Hsv|by apply nonempty_true..].
  - injection E as <-. apply (collected_skip pre document st); [done..| |done|done|done].
    unfold is_service. by rewrite !Hsv, E1, E2.
Qed.

Lemma imap_pair_snd (l : list json) : (imap pair l).*2 = l.
Proof.
  apply list_eq. intros i. rewrite list_lookup_fmap, list_lookup_imap. by destruct (l !! i).
Qed.

Lemma parse_documents_collected documents st :
  outcome_fold parse_document (Parsed [] [] [] []) (imap pair documents) = Ok st → collected documents st.
Proof.
  intros E. eapply (outcome_fold_prefix (λ pre st, collected pre.*2 st)) in E.
  - by rewrite imap_pair_snd in E.
  - intros pre [i d] st0 st1 Hc Hd. rewrite fmap_app. by eapply parse_document_collected.
  - constructor; simpl; try done; try (by constructor); set_solver.
Qed.

(** An indexed deployment has exactly one frontend service, at least one
    model service with a name and a model of its own, a single namespace shared
    by all services, at most one runtime cache, in that namespace, and a
    non-empty instance name. *)
Theorem parse_deployment_sound path_ text instance_name uid_ d :
  parse_deployment path_ text instance_name uid_ = Ok d →
  decode text = Some (objects d) ∧ Forall (λ o, is_dict o = true) (objects d) ∧
  (∃ front, keep (service "FrontendService") (objects d) = [front] ∧
     frontend d = name_text front ∧ frontend d ≠ "") ∧
  models d ≠ [] ∧ NoDup (models d).*1 ∧
  (∀ n, n ∈ (models d).*1 ↔ ∃ o, o ∈ objects d ∧ service "ModelService" o = true ∧ name_text o = n) ∧
  (∀ o, o ∈ objects d → is_service o = true → namespace_text o = d_namespace d) ∧
  (length (runtime_caches d) ≤ 1)%nat ∧
  Forall (λ c, cache_namespace c = d_namespace d) (runtime_caches d) ∧ d_name d ≠ "".
Proof.
  unfold parse_deployment. destruct (decode text) as [[|doc docs]|] eqn:Edec; [done| |done].
  set (documents := doc :: docs). intros (st & Hst & E)%outcome_bind_Ok.
  apply parse_documents_collected in Hst as [Hd Hf Hn Hnd Hm Hmt Hk]. clearbody documents.
  destruct (frontends st) as [|front [|]] eqn:Ef; try done.
  destruct (bool_decide (parsed_models st = [])) eqn:Em; [done|]. apply bool_decide_eq_false in Em.
  destruct (namespaces st) as [|ns [|]] eqn:Ens; try done.
  apply outcome_bind_Ok in E as (md & [-> _]%get_field & E).
  apply outcome_bind_Ok in E as (n & [-> _]%get_field & E). cbv beta zeta in E.
  fold (name_text front) in E.
  destruct (negb (nonempty _)) eqn:Ene in E; [done|]. apply negb_false_iff, nonempty_true in Ene.
  destruct (existsb _ _) eqn:Ec in E; [done|]. destruct (Nat.ltb_spec 1 (length (parsed_caches st))); [done|].
  apply outcome_bind_Ok in E as (sp & _ & E). apply outcome_bind_Ok in E as (h & _ & [= <-]). simpl.
  split_and!; try done.
  - by exists front.
  - intros o Ho Hs. assert (namespace_text o ∈ [ns]) as Hin by (apply Hn; eauto).
    by apply list_elem_of_singleton in Hin.
  - apply Forall_forall. intros c Hin. rewrite existsb_none in Ec. specialize (Ec c Hin). simpl in Ec.
    apply negb_false_iff in Ec. by rewrite eqb_true in Ec.
  - destruct instance_name as [i|]; [|done]. destruct (nonempty i) eqn:Ei; [by apply nonempty_true|done].
Qed.
End Parse.

(** ** Updating a dictionary *)

Section DictUpdate.
Context {K V : Type} `{EqDecision K}.
Implicit Types d : list (K * V).

Lemma dset_dset k v v' d : dset k v (dset k v' d) = dset k v d.
Proof.
  induction d as [|[k1 v1] d IH]; simpl; [by rewrite eqb_refl|].
  destruct (eqb k1 k) eqn:E; simpl; rewrite E; [done|by rewrite IH].
Qed.
Lemma dset_same k v d : dget k d = Some v → dset k v d = d.
Proof.
  induction d as [|[k1 v1] d IH]; simpl; [done|]. destruct (eqb k1 k); [by intros [= ->]|].
  intros E. by rewrite IH.
Qed.
Lemma dset_comm k k' v v' d : k ≠ k' → is_Some (dget k d) →
  dset k v (dset k' v' d) = dset k' v' (dset k v d).
Proof.
  intros Hne. induction d as [|[k1 v1] d IH]; simpl; [by intros [? ?]|].
  destruct (eqb k1 k) eqn:E1, (eqb k1 k') eqn:E2; simpl; rewrite ?E1, ?E2; try done.
  - reflect_in E1. reflect_in E2. congruence.
  - intros Hs. by rewrite IH.
Qed.
Lemma dget_dset_eq k v d : dget k (dset k v d) = Some v.
Proof. by rewrite dget_dset, eqb_refl. Qed.
Lemma dget_dset_ne k k' v d : k ≠ k' → dget k' (dset k v d) = dget k' d.
Proof. intros Hne. rewrite dget_dset. destruct (eqb k k') eqn:E; [|done]. reflect_in E. congruence. Qed.
End DictUpdate.

(** ** Staged environments *)

Section Staging.
Context `{PythonRepr}.

Definition unique_env (env : json) : Prop := match env with JObj m => NoDup m.*1 | _ => True end.
Definition unique_scope (scope : json) : Prop :=
  match scope_env scope with Some env => unique_env env | None => True end.

Lemma unstage_stage_entry acc k v : unstage_entry acc (stage_entry (k, v)) = Ok (dset k v acc).
Proof. unfold unstage_entry, stage_entry. simpl. by destruct (is_dict v). Qed.

Lemma unstage_entries (m acc : list (string * json)) : NoDup (acc ++ m).*1 →
  outcome_fold unstage_entry acc (stage_entry <$> m) = Ok (acc ++ m).
Proof.
  revert acc. induction m as [|[k v] m IH]; intros acc Hnd; [by rewrite app_nil_r|].
  rewrite fmap_cons. cbn [outcome_fold].
  assert (dset k v acc = acc ++ [(k, v)]) as Eacc.
  { rewrite fmap_app in Hnd. apply NoDup_app in Hnd as (_ & Hdis & _).
    assert (k ∉ acc.*1) as Hk by (intros Hin; apply (Hdis k Hin); left).
    clear -Hk. induction acc as [|[k1 v1] acc IH]; [done|]. simpl in *. apply not_elem_of_cons in Hk as [Hk1 Hk2].
    destruct (eqb k1 k) eqn:E; [reflect_in E; congruence|]. by rewrite IH. }
  rewrite unstage_stage_entry, Eacc. simpl. rewrite IH; by rewrite <-app_assoc.
Qed.

Lemma unstage_stage env : unique_env env → is_dict env = true → unstage_env (stage_env env) = Ok env.
Proof.
  destruct env; try done. simpl. intros Hnd _. unfold unstage_env. simpl. by rewrite unstage_entries.
Qed.

(** One scope: staged, then unstaged exactly when its environment was a map. *)
Lemma scope_restored (b : bool) scope staged (f g : json → outcome json) :
  unique_scope scope → (∀ env, scope_env scope = Some env → b = is_dict env) →
  (∀ env, f env = Ok (stage_env env)) → (∀ env, g env = if b then unstage_env env else Ok env) →
  with_env f scope = Ok staged → with_env g staged = Ok scope.
Proof.
  intros Hu Hb Hf Hg. unfold unique_scope, scope_env in *. destruct scope as [| | | | | |m]; simpl;
    try (intros [= <-]; reflexivity).
  destruct (dget "env" m) as [env|] eqn:E; simpl.
  - rewrite Hf. simpl. intros [= <-]. simpl. rewrite dget_dset_eq, Hg.
    specialize (Hb env eq_refl). subst b. destruct (is_dict env) eqn:Ed.
    + rewrite unstage_stage by done. simpl. by rewrite dset_dset, dset_same.
    + simpl. rewrite dset_dset, dset_same; [done|]. by destruct env.
  - intros [= <-]. simpl. by rewrite E.
Qed.

Lemma scopes_restored (b : nat → bool) l i l' (f g : nat → json → outcome json) :
  Forall unique_scope l →
  (∀ j scope env, l !! j = Some scope → scope_env scope = Some env → b (i + j)%nat = is_dict env) →
  (∀ j env, f j env = Ok (stage_env env)) → (∀ j env, g j env = if b j then unstage_env env else Ok env) →
  map_scopes f i l = Ok l' → map_scopes g i l' = Ok l.
Proof.
  intros Hu. revert i l'. induction Hu as [|scope l Hs _ IH]; intros i l' Hb Hf Hg; simpl; [by intros [= <-]|].
  intros (s' & Hs' & (l1 & Hl1 & [= <-])%outcome_bind_Ok)%outcome_bind_Ok. simpl.
  rewrite (scope_restored (b i) scope s' (f i) (g i)); [|done| |done|done|done].
  - simpl. rewrite (IH (S i) l1); [done| |done|done|done].
    intros j sc env Hj He. rewrite <-(Hb (S j) sc env Hj He). f_equal. lia.
  - intros env He. rewrite <-(Hb O scope env eq_refl He). f_equal. lia.
Qed.

(** The prefix Kustomize puts before the name of an object. *)
Definition prefixed (p : string) (document : json) : option json :=
  match document with
  | JObj doc =>
      match dget "metadata" doc with
      | Some (JObj meta) =>
          match dget "name" meta with
          | Some (JStr n) => Some (JObj (dset "metadata" (JObj (dset "name" (JStr (p +:+ n)) meta)) doc))
          | _ => None
          end
      | _ => None
      end
  | _ => None
  end.

(** Every environment of the document is a dictionary with unique keys. *)
Definition unique_environments (document : json) : Prop :=
  Forall (λ e : (string * nat) * json, unique_env e.2) (environment_scopes document).

Lemma staged_scopes_elem p doc k api m meta n i :
  dget "kind" doc = Some k → is_str "ModelService" k = true → dget "apiVersion" doc = Some (JStr api) →
  startswith API_PREFIX api = true → dget "spec" doc = Some (JObj m) →
  dget "metadata" doc = Some (JObj meta) → dget "name" meta = Some (JStr n) →
  let scopes := JObj m :: match dget "modelPools" m with Some (JArr ps) => ps | _ => [] end in
  ∀ scope env, scopes !! i = Some scope → scope_env scope = Some env →
  mem (p +:+ n, i) (staged_scopes p (JObj doc)) = is_dict env ∧ (unique_environments (JObj doc) → unique_env env).
Proof.
  intros Ek Hk Ea Ha Es Em En scopes scope env Hi He.
  assert (environment_scopes (JObj doc) =
    omap (λ e : nat * json, (λ env, ((n, e.1), env)) <$> scope_env e.2) (imap pair scopes)) as Esc.
  { unfold environment_scopes, metadata_name, index. rewrite Ek, Ea, Es, Em. simpl. rewrite En. simpl.
    by rewrite Hk, Ha. }
  clearbody scopes.
  assert ((n, i, env) ∈ environment_scopes (JObj doc)) as Hin.
  { rewrite Esc. apply list_elem_of_omap. exists (i, scope). simpl. rewrite He. split; [|done].
    apply list_elem_of_lookup. exists i. by rewrite list_lookup_imap, Hi. }
  split.
  - apply eq_true_iff_eq. rewrite mem_true. unfold staged_scopes. rewrite list_elem_of_fmap. split.
    + intros ([[n' j] env'] & [= _ <-] & [Hd Hj]%elem_of_keep). simpl in *.
      rewrite Esc in Hj. apply list_elem_of_omap in Hj as ([j' sc] & Hj & Ej).
      apply list_elem_of_lookup in Hj as [j0 Hj]. rewrite list_lookup_imap in Hj.
      destruct (scopes !! j0) as [sc0|] eqn:Hsc; simpl in Hj; [|done]. injection Hj as -> ->.
      simpl in Ej. destruct (scope_env sc) as [e0|] eqn:He0; [|done]. simpl in Ej. injection Ej as _ -> ->.
      congruence.
    + intros Hd. exists (n, i, env). split; [done|]. by apply elem_of_keep.
  - unfold unique_environments. rewrite Forall_forall. intros Hu. exact (Hu _ Hin).
Qed.

Lemma with_env_dict f m spec : with_env f (JObj m) = Ok spec →
  ∃ m', spec = JObj m' ∧ dget "modelPools" m' = dget "modelPools" m ∧
    (dget "env" m = None → m' = m).
Proof.
  simpl. destruct (dget "env" m) as [env|]; [|intros [= <-]; by exists m].
  intros (env' & _ & [= <-])%outcome_bind_Ok. eexists. split; [done|].
  split; [by rewrite dget_dset_ne|done].
Qed.

(** [with_env] looks at [env] only. *)
Lemma with_env_pools g m m' v : with_env g (JObj m) = Ok (JObj m') → is_Some (dget "modelPools" m) →
  with_env g (JObj (dset "modelPools" v m)) = Ok (JObj (dset "modelPools" v m')).
Proof.
  simpl. rewrite dget_dset_ne by done. destruct (dget "env" m) as [env|].
  - intros (env' & -> & [= <-])%outcome_bind_Ok Hp. simpl. by rewrite (dset_comm "modelPools").
  - by intros [= <-].
Qed.

Lemma spec_restored (b : nat → bool) m m2 (f g : nat → json → outcome json) :
  let scopes := JObj m :: match dget "modelPools" m with Some (JArr ps) => ps | _ => [] end in
  Forall unique_scope scopes →
  (∀ j scope env, scopes !! j = Some scope → scope_env scope = Some env → b j = is_dict env) →
  (∀ j env, f j env = Ok (stage_env env)) → (∀ j env, g j env = if b j then unstage_env env else Ok env) →
  map_spec f m = Ok m2 → map_spec g m2 = Ok m.
Proof.
  intros scopes Hu Hb Hf Hg. unfold map_spec. intros (spec & Hspec & E)%outcome_bind_Ok. cbv zeta in E.
  apply Forall_cons in Hu as [Hu0 Hu].
  pose proof (scope_restored (b O) (JObj m) spec (f O) (g O) Hu0 (λ env, Hb O (JObj m) env eq_refl)
    (Hf O) (Hg O) Hspec) as Hback.
  apply with_env_dict in Hspec as (m1 & -> & Ep & _). simpl in E.
  destruct (dget "modelPools" m) as [pools|] eqn:Epools.
  2:{ injection E as <-. rewrite Hback. simpl. by rewrite Ep. }
  destruct pools; try (injection E as <-; rewrite Hback; simpl; by rewrite Ep).
  apply outcome_bind_Ok in E as (ps & Hps & [= <-]).
  rewrite (with_env_pools (g O) m1 m) by (done || by rewrite Ep). simpl. rewrite dget_dset_eq.
  rewrite (scopes_restored b l 1 ps f g); [|done| |done|done|done].
  - simpl. by rewrite dset_dset, dset_same.
  - intros j scope env Hj He. by apply (Hb (S j) scope env).
Qed.

(** A document without environment scopes is left alone. *)
Definition plain (doc : list (string * json)) : Prop :=
  ∃ k, dget "kind" doc = Some k ∧ (is_str "ModelService" k = false ∨ ∃ s, dget "apiVersion" doc = Some (JStr s) ∧
    (startswith API_PREFIX s = false ∨ ∀ m, dget "spec" doc ≠ Some (JObj m))).

Lemma map_environments_plain f doc : plain doc → map_environments f (JObj doc) = Ok (JObj doc).
Proof.
  intros (k & Ek & Hk). unfold map_environments, index. rewrite Ek. cbn [mbind outcome_bind].
  destruct (is_str "ModelService" k); [|done]. destruct Hk as [|(s & Es & Hs)]; [done|]. simpl. rewrite Es.
  simpl. destruct (startswith API_PREFIX s); [|done]. destruct Hs as [|Hm]; [done|]. simpl.
  destruct (dget "spec" doc) as [[]|]; try done. by destruct (Hm m).
Qed.

(** Staging is reversible.  A document whose environment maps are staged as
    lists of named entries, given a prefixed name, and unstaged again under the
    prefixed names is the document with a prefixed name and nothing else changed,
    for model services with any number of pools and for all other documents. *)
Theorem environment_restored p document staged document' :
  unique_environments document → stage_document document = Ok staged →
  prefixed p document = Some document' →
  ∃ staged', prefixed p staged = Some staged' ∧
    unstage_document (staged_scopes p document) staged' = Ok document'.
Proof.
  intros Hu Hs Hp. destruct document as [| | | | | |doc]; try done. simpl in Hp.
  destruct (dget "metadata" doc) as [[| | | | | |meta]|] eqn:Em; try done.
  destruct (dget "name" meta) as [[| | | |n| |]|] eqn:En; try done. injection Hp as <-.
  set (renamed := JObj (dset "name" (JStr (p +:+ n)) meta)).
  assert (∀ k, k ≠ "metadata" → dget k (dset "metadata" renamed doc) = dget k doc) as Hother.
  { intros k Hk. by rewrite dget_dset_ne. }
  assert (plain doc → ∃ staged', prefixed p staged = Some staged' ∧
    unstage_document (staged_scopes p (JObj doc)) staged' = Ok (JObj (dset "metadata" renamed doc))) as Hplain.
  { intros Hpl. unfold stage_document in Hs. rewrite (map_environments_plain _ doc Hpl) in Hs.
    injection Hs as <-. simpl. rewrite Em, En. eexists. split; [done|]. apply map_environments_plain.
    unfold plain. by rewrite !Hother. }
  unfold stage_document, map_environments in Hs. apply outcome_bind_Ok in Hs as (k & Hk & E).
  unfold index in Hk. destruct (dget "kind" doc) as [k'|] eqn:Ek; [|done]. injection Hk as ->.
  destruct (is_str "ModelService" k) eqn:Ekind; [|apply Hplain; exists k; auto]. simpl in E.
  destruct (dget "apiVersion" doc) as [[| | | |api| |]|] eqn:Eapi; try done. simpl in E.
  destruct (startswith API_PREFIX api) eqn:Epre; [|apply Hplain; exists k; eauto 6]. simpl in E.
  destruct (dget "spec" doc) as [[| | | | | |m]|] eqn:Espec;
    try (apply Hplain; exists k; split; [done|]; right; exists api; split; [done|]; right; congruence).
  simpl in E. apply outcome_bind_Ok in E as (m2 & Hm2 & [= <-]).
  set (spec2 := JObj m2). simpl. rewrite dget_dset_ne, Em, En by done. fold renamed. eexists. split; [done|].
  pose proof (staged_scopes_elem p doc k api m meta n) as Hscopes. cbv zeta in Hscopes.
  set (b i := mem (p +:+ n, i) (staged_scopes p (JObj doc))).
  unfold unstage_document, map_environments, index.
  rewrite !(dget_dset_ne "metadata"), !(dget_dset_ne "spec"), Ek, Eapi by done. cbn [mbind outcome_bind].
  rewrite Ekind. simpl. rewrite Epre. simpl. rewrite (dget_dset_ne "metadata"), dget_dset_eq by done. simpl.
  rewrite (spec_restored b m m2 (λ _ env, metadata_name (JObj doc) ≫= λ _, Ok (stage_env env))); [..|exact Hm2].
  - simpl. rewrite (dset_comm "spec") by (done || by rewrite dget_dset_eq).
    rewrite dset_dset, (dset_same "spec") by done. done.
  - apply Forall_lookup. intros i scope Hi. unfold unique_scope. destruct (scope_env scope) as [env|] eqn:He; [|done].
    by eapply Hscopes.
  - intros i scope env Hi He. by eapply (Hscopes i).
  - intros i env. unfold metadata_name, index. rewrite Em. simpl. by rewrite En.
  - intros i env. unfold metadata_name, index. simpl. rewrite dget_dset_eq. simpl. by rewrite dget_dset_eq.
Qed.
End Staging.

(** ** Witnesses *)

#[local] Instance quiet_repr : PythonRepr := λ _, "".
(** A codec whose texts name two fixed streams. *)
Definition sample_front : json := JObj
  [("apiVersion", JStr "inference.foretoken.io/v1alpha1"); ("kind", JStr "FrontendService");
   ("metadata", JObj [("name", JStr "front"); ("namespace", JStr "ns")])].
Definition sample_model : json := JObj
  [("apiVersion", JStr "inference.foretoken.io/v1alpha1"); ("kind", JStr "ModelService");
   ("metadata", JObj [("name", JStr "m"); ("namespace", JStr "ns")]);
   ("spec", JObj [("model", JStr "qwen"); ("env", JObj [("A", JStr "1"); ("B", JObj [("valueFrom", JObj [])])]);
     ("modelPools", JArr [JObj [("env", JObj [("C", JStr "2")])]; JObj []])])].
#[local] Instance fixed_codec : Codec := {|
  decode s := if bool_decide (s = "sample") then Some [sample_front; sample_model] else None;
  encode _ := "sample";
|}.

Lemma parse_deployment_sound_witness :
  ∃ d, parse_deployment None "sample" None "" = Ok d ∧ d_name d ≠ "" ∧ models d ≠ [].
Proof.
  destruct (parse_deployment None "sample" None "") as [d|] eqn:E; [|exfalso; vm_compute in E; discriminate].
  destruct (parse_deployment_sound None "sample" None "" d E) as (_ & _ & _ & Hm & _ & _ & _ & _ & _ & Hn).
  by exists d.
Defined.

Lemma environment_restored_witness :
  ∃ staged document', stage_document sample_model = Ok staged ∧ prefixed "p-" sample_model = Some document' ∧
  ∃ staged', prefixed "p-" staged = Some staged' ∧
    unstage_document (staged_scopes "p-" sample_model) staged' = Ok document'.
Proof.
  destruct (stage_document sample_model) as [staged|] eqn:E; [|exfalso; vm_compute in E; discriminate].
  destruct (prefixed "p-" sample_model) as [document'|] eqn:E'; [|exfalso; vm_compute in E'; discriminate].
  exists staged, document'. split; [done|]. split; [done|].
  apply (environment_restored "p-" sample_model staged document'); [|exact E|exact E'].
  unfold unique_environments. vm_compute. repeat constructor; rewrite ?list_elem_of_singleton; try set_solver; done.
Defined.
