(* ===== verification/Effects.v ===== *)
(** * Commands with effects that survive exceptions

    The CLI talks to a cluster: what a command has written stays written when a
    later call raises.  [IO] keeps the state on both branches, unlike the
    transactions of [Prelude.M].  Loops without a bound of their own take fuel;
    running out of it is [Unfinished], which is not an exception of the program.
    The file has the combinators and the proof rules: a triple with one
    postcondition for a return and one for an exception, and an invariant rule
    for loops. *)

From S2P Require Import Prelude.

(** The result of a command: returned, raised, or not finished within the fuel. *)
Inductive result (A : Type) :=
  | Returned (a : A)
  | Raised (e : exn)
  | Unfinished.
Arguments Returned {A} a.
Arguments Raised {A} e.
Arguments Unfinished {A}.

Definition IO (W A : Type) : Type := W → result A * W.

#[export] Instance IO_ret W : MRet (IO W) := λ A a w, (Returned a, w).
#[export] Instance IO_bind W : MBind (IO W) := λ A B k m w,
  match m w with
  | (Returned a, w') => k a w'
  | (Raised e, w') => (Raised e, w')
  | (Unfinished, w') => (Unfinished, w')
  end.

Definition throw {W A} (e : exn) : IO W A := λ w, (Raised e, w).
Definition ask {W A} (f : W → A) : IO W A := λ w, (Returned (f w), w).
Definition change {W} (f : W → W) : IO W unit := λ w, (Returned tt, f w).
Definition pure {W A} (r : outcome A) : IO W A := λ w,
  match r with Ok a => (Returned a, w) | Raise e => (Raised e, w) end.
Definition skip_unless {W} (b : bool) (m : IO W unit) : IO W unit := if b then m else mret tt.

(** [try: m except E: h]; [h e = None] when the clause does not match. *)
Definition try_except {W A} (m : IO W A) (h : exn → option (IO W A)) : IO W A := λ w,
  match m w with
  | (Raised e, w') => match h e with Some k => k w' | None => (Raised e, w') end
  | r => r
  end.

(** [try: m finally: c]; an exception of [c] replaces the one of [m]. *)
Definition try_finally {W A} (m : IO W A) (c : IO W unit) : IO W A := λ w,
  match m w with
  | (Unfinished, w') => (Unfinished, w')
  | (r, w') =>
      match c w' with
      | (Returned _, w'') => (r, w'')
      | (Raised e, w'') => (Raised e, w'')
      | (Unfinished, w'') => (Unfinished, w'')
      end
  end.

Fixpoint each {W A} (l : list A) (f : A → IO W unit) : IO W unit :=
  match l with
  | [] => mret tt
  | x :: l => f x ;; each l f
  end.

Fixpoint collect {W A B} (f : A → IO W B) (l : list A) : IO W (list B) :=
  match l with
  | [] => mret []
  | x :: l => y ← f x; ys ← collect f l; mret (y :: ys)
  end.

(** [while True]: [inl] goes round with a new loop state, [inr] leaves. *)
Fixpoint forever {W S A} (fuel : nat) (body : S → IO W (S + A)) (s : S) : IO W A :=
  match fuel with
  | O => λ w, (Unfinished, w)
  | Datatypes.S fuel =>
      r ← body s;
      match r with
      | inl s' => forever fuel body s'
      | inr a => mret a
      end
  end.

(** ** Runs that return *)

Lemma bind_Returned {W A B} (m : IO W A) (k : A → IO W B) b w w' :
  (m ≫= k) w = (Returned b, w') → ∃ a w1, m w = (Returned a, w1) ∧ k a w1 = (Returned b, w').
Proof. unfold mbind, IO_bind. destruct (m w) as [[a|e|] w1]; [by exists a, w1|done..]. Qed.
Lemma pure_Returned {W A} (r : outcome A) a (w w' : W) : pure r w = (Returned a, w') → r = Ok a ∧ w' = w.
Proof. unfold pure. destruct r; [by intros [= -> ->]|done]. Qed.
Lemma pure_bind_Returned {W A B} (r : outcome A) (k : A → IO W B) b w w' :
  (pure r ≫= k) w = (Returned b, w') → ∃ a, r = Ok a ∧ k a w = (Returned b, w').
Proof. intros (a & w1 & [Hr ->]%pure_Returned & Hk)%bind_Returned. by exists a. Qed.

(** ** Triples *)

(** From a world in [P] the command returns into [Q] or raises into [E]; a run
    that stops for lack of fuel has not left [E] either. *)
Definition hoare {W A} (P : W → Prop) (m : IO W A) (Q : A → W → Prop) (E : W → Prop) : Prop :=
  ∀ w, P w → match m w with
             | (Returned a, w') => Q a w'
             | (_, w') => E w'
             end.

(** [m] keeps [I], whether it returns or raises. *)
Definition stable {W A} (I : W → Prop) (m : IO W A) : Prop := hoare I m (λ _, I) I.

Section Rules.
Context {W : Type}.
Implicit Types P I E : W → Prop.

Lemma hoare_ret {A} P (a : A) Q E : (∀ w, P w → Q a w) → hoare P (mret a) Q E.
Proof. intros HQ w HP. by apply HQ. Qed.

Lemma hoare_bind {A B} P (m : IO W A) (k : A → IO W B) R Q E :
  hoare P m R E → (∀ a, hoare (R a) (k a) Q E) → hoare P (m ≫= k) Q E.
Proof.
  intros Hm Hk w HP. unfold mbind, IO_bind. specialize (Hm w HP).
  destruct (m w) as [[a|e|] w']; [by apply Hk|done..].
Qed.

Lemma hoare_throw {A} P e (Q : A → W → Prop) E : (∀ w, P w → E w) → hoare P (throw e) Q E.
Proof. intros HE w HP. by apply HE. Qed.

Lemma hoare_ask {A} P (f : W → A) Q E : (∀ w, P w → Q (f w) w) → hoare P (ask f) Q E.
Proof. intros HQ w HP. by apply HQ. Qed.

Lemma hoare_change P (f : W → W) Q E : (∀ w, P w → Q tt (f w)) → hoare P (change f) Q E.
Proof. intros HQ w HP. by apply HQ. Qed.

Lemma hoare_pure {A} P (r : outcome A) Q E :
  (∀ w a, P w → r = Ok a → Q a w) → (∀ w, P w → E w) → hoare P (pure r) Q E.
Proof. intros HQ HE w HP. unfold pure. destruct r; [by eapply HQ|by apply HE]. Qed.

Lemma hoare_pure_bind {A B} P (r : outcome A) (k : A → IO W B) Q E :
  (∀ w, P w → E w) → (∀ a, r = Ok a → hoare P (k a) Q E) → hoare P (pure r ≫= k) Q E.
Proof.
  intros HE Hk w HP. unfold mbind, IO_bind, pure. destruct r as [a|e]; [by apply (Hk a)|by apply HE].
Qed.

Lemma hoare_weaken {A} P P' (m : IO W A) Q Q' E E' :
  hoare P' m Q' E' → (∀ w, P w → P' w) → (∀ a w, Q' a w → Q a w) → (∀ w, E' w → E w) →
  hoare P m Q E.
Proof.
  intros Hm HP HQ HE w Hw. specialize (Hm w (HP w Hw)). destruct (m w) as [[a|e|] w']; auto.
Qed.

Lemma hoare_try {A} P (m : IO W A) h Q E E' :
  hoare P m Q E' → (∀ w, E' w → E w) → (∀ e k, h e = Some k → hoare E' k Q E) →
  hoare P (try_except m h) Q E.
Proof.
  intros Hm HE Hh w HP. unfold try_except. specialize (Hm w HP).
  destruct (m w) as [[a|e|] w']; [done| |by apply HE].
  destruct (h e) as [k|] eqn:Ek; [by apply (Hh e k Ek)|by apply HE].
Qed.

Lemma hoare_finally {A} P (m : IO W A) c Q Q' E E' :
  hoare P m Q' E' → (∀ w, E' w → E w) →
  (∀ a, hoare (Q' a) c (λ _, Q a) E) → hoare E' c (λ _, E) E → hoare P (try_finally m c) Q E.
Proof.
  intros Hm HE Hc He w HP. unfold try_finally. specialize (Hm w HP).
  destruct (m w) as [[a|e|] w']; [specialize (Hc a w' Hm)|specialize (He w' Hm)|by apply HE];
    by destruct (c w') as [[[]|e'|] w''].
Qed.

Lemma hoare_if {A} P (b : bool) (m k : IO W A) Q E :
  (b = true → hoare P m Q E) → (b = false → hoare P k Q E) → hoare P (if b then m else k) Q E.
Proof. destruct b; auto. Qed.

(** Facts that do not depend on the world move out of the precondition. *)
Lemma hoare_fact {A} (F : Prop) P (m : IO W A) Q E :
  (F → hoare P m Q E) → hoare (λ w, F ∧ P w) m Q E.
Proof. intros Hm w [HF HP]. by apply Hm. Qed.

Lemma hoare_exists {A X} (P : X → W → Prop) (m : IO W A) Q E :
  (∀ x, hoare (P x) m Q E) → hoare (λ w, ∃ x, P x w) m Q E.
Proof. intros Hm w [x HP]. by apply (Hm x). Qed.

Lemma hoare_conj {A} P P' (m : IO W A) Q Q' E E' :
  hoare P m Q E → hoare P' m Q' E' →
  hoare (λ w, P w ∧ P' w) m (λ a w, Q a w ∧ Q' a w) (λ w, E w ∧ E' w).
Proof.
  intros Hm Hm' w [HP HP']. specialize (Hm w HP). specialize (Hm' w HP'). by destruct (m w) as [[a|e|] w'].
Qed.

Lemma hoare_forever {S A} (Inv : S → W → Prop) fuel (body : S → IO W (S + A)) s Q E :
  (∀ s, hoare (Inv s) (body s) (λ r w, match r with inl s' => Inv s' w | inr a => Q a w end) E) →
  (∀ s w, Inv s w → E w) → hoare (Inv s) (forever fuel body s) Q E.
Proof.
  intros Hb HE. revert s. induction fuel as [|fuel IH]; intros s.
  - intros w Hw. by eapply HE.
  - eapply hoare_bind; [apply Hb|]. intros [s'|a]; [apply IH|by apply hoare_ret].
Qed.

(** ** Invariants *)

Lemma stable_ret {A} I (a : A) : stable I (mret a).
Proof. by apply hoare_ret. Qed.
Lemma stable_bind {A B} I (m : IO W A) (k : A → IO W B) :
  stable I m → (∀ a, stable I (k a)) → stable I (m ≫= k).
Proof. intros. by eapply hoare_bind. Qed.
Lemma stable_throw {A} I e : stable (A:=A) I (throw e).
Proof. by apply hoare_throw. Qed.
Lemma stable_ask {A} I (f : W → A) : stable I (ask f).
Proof. by apply hoare_ask. Qed.
Lemma stable_pure {A} I (r : outcome A) : stable I (pure r).
Proof. by apply hoare_pure. Qed.
Lemma stable_change I f : (∀ w, I w → I (f w)) → stable I (change f).
Proof. intros. by apply hoare_change. Qed.
Lemma stable_skip_unless I b m : stable I m → stable I (skip_unless b m).
Proof. intros. destruct b; [done|apply stable_ret]. Qed.
Lemma stable_try {A} I (m : IO W A) h :
  stable I m → (∀ e k, h e = Some k → stable I k) → stable I (try_except m h).
Proof. intros. by eapply hoare_try. Qed.
Lemma stable_finally {A} I (m : IO W A) c : stable I m → stable I c → stable I (try_finally m c).
Proof. intros Hm Hc. eapply hoare_finally; [exact Hm|done|done|exact Hc]. Qed.
Lemma stable_each {A} I (l : list A) f : (∀ x, x ∈ l → stable I (f x)) → stable I (each l f).
Proof.
  induction l as [|x l IH]; intros Hf; simpl; [apply stable_ret|].
  apply stable_bind; [apply Hf; left|]. intros _. apply IH. intros y Hy. apply Hf. by right.
Qed.
Lemma stable_collect {A B} I (f : A → IO W B) l : (∀ x, x ∈ l → stable I (f x)) → stable I (collect f l).
Proof.
  induction l as [|x l IH]; intros Hf; simpl; [apply stable_ret|].
  apply stable_bind; [apply Hf; left|]. intros y. apply stable_bind; [|intros; apply stable_ret].
  apply IH. intros z Hz. apply Hf. by right.
Qed.
Lemma stable_forever {S A} I fuel (body : S → IO W (S + A)) s :
  (∀ s, stable I (body s)) → stable I (forever fuel body s).
Proof.
  intros Hb. apply (hoare_forever (λ _, I)); [|done]. intros s'.
  eapply hoare_weaken; [apply Hb|done| |done]. by intros [?|?].
Qed.
End Rules.

Create HintDb stable discriminated.
#[export] Hint Resolve stable_ret stable_throw stable_ask stable_pure : stable.

(** Decompose a command along its syntax; what is left are its primitive calls. *)
Ltac stable_step :=
  match goal with
  | |- stable _ (mbind _ _) => apply stable_bind; [|intros ?]
  | |- stable _ (skip_unless _ _) => apply stable_skip_unless
  | |- stable _ (try_finally _ _) => apply stable_finally
  | |- stable _ (forever _ _ _) => apply stable_forever; intros ?
  | |- stable _ (each _ _) => apply stable_each; intros ? ?
  | |- stable _ (collect _ _) => apply stable_collect; intros ? ?
  | |- stable _ (let _ := _ in _) => cbv zeta
  | |- stable _ (match ?x with _ => _ end) => destruct x
  | |- stable _ _ => solve [auto with stable]
  end.
Ltac stable_auto := intros; repeat stable_step.
