(* ===== verification/Client.v ===== *)
(** * Kubernetes commands ([kubernetes/client.py])

    What the CLI asks of kubectl, how failures are classified, and the client
    operations built on it: reading, listing, fenced deletion, and waiting.

    The cluster is outside the repository.  It is a state [C] that answers calls
    in any way ([serve]): between two calls other clients may have changed it.
    Every call is recorded with its answer in the [trace] of the world, newest
    first; this is what the theorems about writes speak of.  [monotonic n] is the
    n-th reading of [time.monotonic()].  Timeouts given to kubectl only decide
    when a call fails and are left out. *)

From Stdlib Require Import Ascii.
From S2P Require Import Prelude Text Kube Effects.

(** ** Calls *)

Inductive call :=
  | GetObject (k n ns : string) (ignore_not_found : bool)
  | GetObjects (refs : list ResourceRef) (ignore_not_found : bool)
  | ListObjects (kinds : list string) (ns : option string) (selector : string)
  | ListAllObjects (kinds : list string) (selector : string)
  | GetRaw (path : string)
  | CreateObject (document : json)
  | MergePatch (k n ns : string) (payload : json)
  | ServerApply (document : json)
  | DeleteRaw (path : string) (options : json)
  | AcquireHolder (uid : json)
  | ReleaseHolder (uid : json)
  | ApiResources (group : option string)
  | NameObject (k n ns : string)
  | ApplyDocuments (documents : list json)
  | DeleteDocuments (documents : list json)
  | RolloutStatus (r : ResourceRef)
  | PodExec (ns pod : string) (command : list string) (input : option json)
  | WaitPod (ns pod : string)
  | HelmRead (args : list string)
  | ReplaceObject (document : json)
  | DeleteSelected (kinds : list string) (selector : string)
  | Logs (ns target container : string).

(** Calls that change objects; the holder is the subject of [Mutation]. *)
Definition is_write (c : call) : bool :=
  match c with
  | CreateObject _ | MergePatch _ _ _ _ | ServerApply _ | DeleteRaw _ _ | ApplyDocuments _ | DeleteDocuments _
  | ReplaceObject _ | DeleteSelected _ _ => true
  | _ => false
  end.

(** What kubectl prints: nothing, a JSON value, some other text; or an error. *)
Inductive reply :=
  | Output (value : option json)
  | Unparsed (text : string)
  | Failed (detail : string).

Class Kubectl (C : Type) := {
  serve : call → C → reply * C;
  monotonic : nat → Q;
}.

(** The text of a printed JSON value *)
Class Printer := printed : json → string.

(** [self] is the state of the objects of one CLI operation. *)
Record world (C S : Type) := World {
  cluster : C;
  ticks : nat;
  trace : list (call * reply);
  self : S;
}.
Arguments World {C S} _ _ _ _.
Arguments cluster {C S} _.
Arguments ticks {C S} _.
Arguments trace {C S} _.
Arguments self {C S} _.

(** ** Text helpers *)

(** [int(x)] of a float *)
Definition Qtrunc (x : Q) : Z := Z.quot (Qnum x) (Zpos (Qden x)).

(** [text.splitlines()]: a carriage return and a line feed are one break. *)
Definition line_break (c : ascii) : bool :=
  let n := nat_of_ascii c in
  (Nat.leb 10 n && Nat.leb n 13) || (Nat.leb 28 n && Nat.leb n 30) || Nat.eqb n 133.
Fixpoint lines_after (returned : bool) (s : string) : list string :=
  match s with
  | EmptyString => []
  | String c s =>
      if returned && Nat.eqb (nat_of_ascii c) 10 then lines_after false s
      else if line_break c then "" :: lines_after (Nat.eqb (nat_of_ascii c) 13) s
      else match lines_after false s with
           | w :: ws => String c w :: ws
           | [] => [String c ""]
           end
  end.
Definition splitlines (s : string) : list string := lines_after false s.

(** ** Equality of values *)

(** Python [==] on decoded JSON: numbers by value, dictionaries whatever their
    order. *)
Definition number_of (j : json) : option flt :=
  match j with
  | JBool b => Some (Fin (inject_Z (if b then 1 else 0)))
  | JInt z => Some (Fin (inject_Z z))
  | JFloat x => Some x
  | _ => None
  end.
Fixpoint py_eqb (a b : json) : bool :=
  match a, b with
  | JNull, JNull => true
  | JStr s, JStr t => eqb s t
  | JArr l, JArr k =>
      (fix go (l k : list json) : bool :=
         match l, k with
         | [], [] => true
         | x :: l, y :: k => py_eqb x y && go l k
         | _, _ => false
         end) l k
  | JObj m, JObj n =>
      eqb (length m) (length n) &&
      (fix go (m : list (string * json)) : bool :=
         match m with
         | [] => true
         | (k, x) :: m => match dget k n with Some y => py_eqb x y | None => false end && go m
         end) m
  | _, _ => match number_of a, number_of b with Some x, Some y => feqb x y | _, _ => false end
  end.

(** ** Running kubectl *)

(** The exception for a command that failed with [detail]. *)
Definition classify (detail : string) : exn :=
  let message := "kubectl failed: " +:+ detail in
  if startswith "Error from server (ServiceUnavailable):" detail then ServiceUnavailable message
  else if startswith "Error from server (Forbidden):" detail then PermissionDenied message
  else if contains "the object has been modified; please apply your changes to the latest version" detail
       || contains "metadata.resourceVersion: Invalid value: 0: must be specified for an update" detail
       || contains "Precondition failed: ResourceVersion in precondition:" detail
  then VersionConflict message
  else DeploymentError message.

(** [except DeploymentError]: the class and its three subclasses. *)
Definition deployment_error (e : exn) : option string :=
  match e with
  | DeploymentError m | VersionConflict m | ServiceUnavailable m | PermissionDenied m => Some m
  | _ => None
  end.
Definition is_conflict (e : exn) : bool := match e with VersionConflict _ => true | _ => false end.

(** [value in {...}] with hashable members *)
Definition in_set (value : json) (members : list json) : outcome bool :=
  match value with
  | JArr _ | JObj _ => Raise (TypeError "unhashable type")
  | _ => Ok (existsb (py_eqb value) members)
  end.

Section Client.
Context {C S : Type} `{Kubectl C}.
Abbreviation IO := (IO (world C S)).

(** [time.monotonic()] *)
Definition now : IO Q := λ w,
  (Returned (monotonic (ticks w)), World (cluster w) (Datatypes.S (ticks w)) (trace w) (self w)).

Definition on_self (f : S → S) : IO unit :=
  change (λ w, World (cluster w) (ticks w) (trace w) (f (self w))).

(** [self.run]; [None] stands for output that is not JSON. *)
Definition run (c : call) : IO (option (option json)) := λ w,
  let '(r, c') := serve c (cluster w) in
  let w' := World c' (ticks w) ((c, r) :: trace w) (self w) in
  match r with
  | Output v => (Returned (Some v), w')
  | Unparsed _ => (Returned None, w')
  | Failed detail => (Raised (classify detail), w')
  end.

(** [json.loads(self.run(...).stdout)] *)
Definition run_json (c : call) : IO json :=
  r ← run c;
  match r with
  | Some (Some j) => mret j
  | _ => throw (ValueError "JSONDecodeError")
  end.

(** [_decode_object] *)
Definition decode_object (output : option (option json)) : IO json :=
  match output with
  | Some (Some j) =>
      if is_dict j then mret j else throw (DeploymentError "kubectl returned an unexpected JSON value")
  | _ => throw (DeploymentError "kubectl returned invalid JSON")
  end.

(** [_decode_resource_list] *)
Definition decode_resource_list (output : option (option json)) : IO (list json) :=
  j ← decode_object output;
  items ← pure (get "items" j);
  match or_ items (JArr []) with
  | JArr l =>
      if forallb is_dict l then mret l
      else throw (DeploymentError "kubectl returned an unexpected resource list")
  | _ => throw (DeploymentError "kubectl returned an unexpected resource list")
  end.

(** [get] and [get_if_exists] *)
Definition get_object (k n ns : string) : IO json :=
  r ← run (GetObject k n ns false); decode_object r.
Definition get_if_exists (k n ns : string) : IO (option json) :=
  r ← run (GetObject k n ns true);
  match r with
  | Some None => mret None
  | r => j ← decode_object r; mret (Some j)
  end.

(** [get_resources(..., ignore_not_found=True)] *)
Definition get_resources (refs : list ResourceRef) : IO (list json) :=
  match distinct (namespace <$> refs) with
  | [_] =>
      match refs with
      | [r] => v ← get_if_exists (kind r) (name r) (namespace r); mret (option_list v)
      | _ =>
          r ← run (GetObjects refs true);
          match r with
          | Some None => mret []
          | r => decode_resource_list r
          end
      end
  | _ => throw (DeploymentError "selected resources must share one namespace")
  end.

(** [list_resources] and [list_all_resources] *)
Definition list_labelled (kinds : list string) (ns selector : string) : IO (list json) :=
  r ← run (ListObjects kinds (Some ns) selector); decode_resource_list r.
Definition list_resources (kinds : list string) (ns : string) : IO (list json) := list_labelled kinds ns "".
Definition list_selected (kinds : list string) (selector : string) : IO (list json) :=
  r ← run (ListAllObjects kinds selector); decode_resource_list r.
Definition list_all_resources (kinds : list string) : IO (list json) := list_selected kinds "".

(** The text a command prints; [fail] makes the exception of a failure. *)
Definition call_text `{Printer} (fail : string → exn) (c : call) : IO string := λ w,
  let '(r, c') := serve c (cluster w) in
  let w' := World c' (ticks w) ((c, r) :: trace w) (self w) in
  match r with
  | Output v => (Returned (match v with Some j => printed j | None => "" end), w')
  | Unparsed text => (Returned text, w')
  | Failed detail => (Raised (fail detail), w')
  end.
(** [self.run(...).stdout] *)
Definition run_text `{Printer} : call → IO string := call_text classify.

(** [api_resource_names] and [exists] *)
Definition api_resource_names `{Printer} (group : option string) : IO (list string) :=
  output ← run_text (ApiResources group);
  mret (keep nonempty (strip <$> splitlines output)).
Definition exists_ `{Printer} (k n ns : string) : IO bool :=
  output ← run_text (NameObject k n ns); mret (nonempty (strip output)).

(** [get_raw] and [get_raw_if_not_found]: the text, and the value [json.loads] finds in it *)
Definition get_raw `{Printer} (path request_timeout : string) : IO string :=
  _ ← pure (timeout_seconds request_timeout); run_text (GetRaw path).
Definition get_raw_if_not_found `{Printer} (path request_timeout : string) : IO (option string) :=
  _ ← pure (timeout_seconds request_timeout);
  (λ w, let '(r, c') := serve (GetRaw path) (cluster w) in
       let w' := World c' (ticks w) ((GetRaw path, r) :: trace w) (self w) in
       match r with
       | Output v => (Returned (Some (match v with Some j => printed j | None => "" end)), w')
       | Unparsed text => (Returned (Some text), w')
       | Failed detail =>
           if startswith "Error from server (NotFound):" detail then (Returned None, w')
           else (Raised (DeploymentError ("kubectl get --raw failed: " +:+ detail)), w')
       end) : IO (option string).
Definition get_raw_json (path request_timeout : string) : IO (option (option json)) :=
  _ ← pure (timeout_seconds request_timeout); run (GetRaw path).

(** [apply], [delete] and [rollout_status] *)
Definition apply_documents (documents : list json) : IO unit :=
  _ ← run (ApplyDocuments documents); mret tt.
Definition delete_documents (documents : list json) : IO unit :=
  _ ← run (DeleteDocuments documents); mret tt.
Definition rollout_status (r : ResourceRef) (timeout : string) : IO unit :=
  _ ← pure (timeout_seconds timeout); _ ← run (RolloutStatus r); mret tt.

Variable fuel : nat.

(** [wait_deleted]: the object with this UID is gone. *)
Definition wait_deleted (resource : string) (metadata : json) (timeout : string) : IO unit :=
  n ← pure (index "name" metadata);
  ns ← pure (get_or "namespace" (JStr "") metadata);
  uid ← pure (index "uid" metadata);
  match n, ns with
  | JStr n, JStr ns =>
      t ← now;
      secs ← pure (timeout_seconds timeout);
      let deadline := (t + inject_Z secs)%Q in
      forever fuel (λ _ : unit,
        _ ← now;
        current ← get_if_exists resource n ns;
        match current with
        | None => mret (inr tt)
        | Some current =>
            m ← pure (index "metadata" current);
            u ← pure (index "uid" m);
            if negb (py_eqb u uid) then mret (inr tt) else
            t ← now;
            if Qle_bool deadline t
            then throw (DeploymentError (resource +:+ "/" +:+ n +:+ " in " +:+ ns +:+ " was not deleted within " +:+ timeout))
            else mret (inl tt)
        end) tt
  | _, _ => throw (TypeError "sequence item: expected str instance")
  end.

(** [/api/v1] or [/apis/group/version] *)
Definition api_base (version : string) : string :=
  if has_char "/"%char version then "/apis/" +:+ version else "/api/" +:+ version.

(** [item["kind"] == value["kind"] and "/" not in item["name"]] *)
Definition serves_kind (k : json) (item : json) : outcome bool :=
  ik ← index "kind" item;
  if negb (py_eqb ik k) then Ok false else
  n ← index "name" item;
  match n with
  | JStr n => Ok (negb (has_char "/"%char n))
  | _ => Raise (TypeError "argument is not iterable")
  end.

(** [path += ...] *)
Definition text_index (k : string) (j : json) : outcome string :=
  v ← index k j;
  match v with JStr s => Ok s | _ => Raise (TypeError "can only concatenate str to str") end.

(** [DeleteOptions] *)
Definition delete_options (uid : json) (version : option json) (propagation : string) : json :=
  JObj [("apiVersion", JStr "v1"); ("kind", JStr "DeleteOptions");
        ("preconditions", JObj (("uid", uid) ::
           match version with Some v => [("resourceVersion", v)] | None => [] end));
        ("propagationPolicy", JStr propagation)].

(** [delete_object] *)
Definition delete_object (value : json) (timeout : string) (wait : bool) (propagation : string)
    (match_version : bool) : IO unit :=
  metadata ← pure (index "metadata" value);
  version ← pure (text_index "apiVersion" value);
  let base := api_base version in
  found ← run_json (GetRaw base);
  resources ← pure (r ← index "resources" found; elements r);
  k ← pure (index "kind" value);
  resource ← pure (find_first (serves_kind k) resources);
  match resource with
  | None => throw StopIteration
  | Some resource =>
      namespaced ← pure (index "namespaced" resource);
      scope ← (if truthy namespaced then ns ← pure (text_index "namespace" metadata); mret ("/namespaces/" +:+ ns)
               else mret "");
      rname ← pure (text_index "name" resource);
      n ← pure (text_index "name" metadata);
      uid ← pure (index "uid" metadata);
      rv ← (if match_version then v ← pure (index "resourceVersion" metadata); mret (Some v) else mret None);
      _ ← run (DeleteRaw (base +:+ scope +:+ "/" +:+ rname +:+ "/" +:+ n) (delete_options uid rv propagation));
      skip_unless wait
        (wait_deleted (match partition "/"%char version with
                       | Some (group, _) => rname +:+ "." +:+ group
                       | None => rname
                       end) metadata timeout)
  end.

(** [wait_for_object] *)
Definition wait_for_object (fetch : IO (option json)) (ready : json → outcome bool) (deadline : Q)
    (description : string) : IO json :=
  forever fuel (λ _ : unit,
    t ← now;
    if Qle_bool deadline t then throw (DeploymentError ("timed out waiting for " +:+ description)) else
    v ← fetch;
    match v with
    | None => _ ← now; mret (inl tt)
    | Some v => b ← pure (ready v); if (b : bool) then mret (inr v) else (_ ← now; mret (inl tt))
    end) tt.

(** [with mutation.hold(): body]; how the holder is acquired and released is the
    subject of [Mutation]. *)
Definition hold {A} (uid : json) (body : IO A) : IO A :=
  _ ← run (AcquireHolder uid);
  try_finally body (_ ← run (ReleaseHolder uid); mret tt).

(** ** Rules *)

(** An invariant of the trace and the local state that reads keep. *)
Definition watches (I : world C S → Prop) : Prop :=
  (∀ w n, I w → I (World (cluster w) n (trace w) (self w))).

Lemma stable_now I : watches I → stable I now.
Proof. intros HI w Hw. by apply HI. Qed.

Lemma hoare_run P c (Q : option (option json) → world C S → Prop) E :
  (∀ w r c', P w →
     let w' := World c' (ticks w) ((c, r) :: trace w) (self w) in
     match r with Output v => Q (Some v) w' | Unparsed _ => Q None w' | Failed _ => E w' end) →
  hoare P (run c) Q E.
Proof.
  intros Hr w Hw. unfold run. destruct (serve c (cluster w)) as [r c'].
  specialize (Hr w r c' Hw). by destruct r.
Qed.

Lemma stable_run I c :
  (∀ w r c', I w → I (World c' (ticks w) ((c, r) :: trace w) (self w))) → stable I (run c).
Proof. intros HI. apply hoare_run. intros w r c' Hw. destruct r; by apply HI. Qed.

Lemma stable_call_text `{Printer} I fail c :
  (∀ w r c', I w → I (World c' (ticks w) ((c, r) :: trace w) (self w))) → stable I (call_text fail c).
Proof.
  intros HI w Hw. unfold call_text. destruct (serve c (cluster w)) as [r c'].
  specialize (HI w r c' Hw). by destruct r as [[]| |].
Qed.

Lemma stable_on_self I f :
  (∀ w, I w → I (World (cluster w) (ticks w) (trace w) (f (self w)))) → stable I (on_self f).
Proof. apply stable_change. Qed.
End Client.
#[export] Hint Resolve stable_now : stable.
