(* ===== verification/Status.v ===== *)
(** * Service readiness ([deployment/status.py])

    How the CLI interprets the status of a service, reads a set of services,
    and waits until all of them have converged.  Clock readings and the answers
    of kubectl are inputs; [Lifecycle] runs the wait on a cluster. *)

From Stdlib Require Import Ascii.
From S2P Require Import Prelude Text Kube Effects Client.

Definition DEPLOYMENT_KIND : string := "InferenceDeployment".

(** [ResourceProgress] *)
Record ResourceProgress := Progress {
  resource : ResourceRef;
  state : string;
  reason : string;
  message : string;
  converged : bool;
}.
Definition detail (p : ResourceProgress) : string :=
  if nonempty (message p) then message p else reason p.

(** [int(d.get(k) or 0)] *)
Definition get_int (k : string) (d : json) : outcome Z := v ← get k d; int_of (or_ v (JInt 0)).
(** [item.get("type") == t] *)
Definition has_type (t : string) (item : json) : outcome bool := v ← get "type" item; Ok (is_str t v).
Definition ready_type (item : json) : outcome bool :=
  if is_dict item then has_type "Ready" item else Ok false.

Section Status.
Context `{PythonRepr}.

(** [str(d.get(k) or default)] and [str(d[k])] *)
Definition get_str (k d : string) (j : json) : outcome string :=
  v ← get k j; Ok (str_of (or_ v (JStr d))).
Definition index_str (k : string) (j : json) : outcome string := v ← index k j; Ok (str_of v).

(** A condition of the current generation with a given status. *)
Definition current_condition (generation : Z) (c : json) : outcome bool :=
  g ← get_int "observedGeneration" c; Ok (g =? generation).
Definition status_is (s : string) (c : json) : outcome bool := v ← get "status" c; Ok (is_str s v).

(** Python's [and]: the second operand is evaluated only after the first. *)
Definition and_then (a b : outcome bool) : outcome bool := x ← a; if (x : bool) then b else Ok false.

(** The terms of the first part of [resource_progress]. *)
Record observation := Observation {
  generation : Z;
  observed_generation : Z;
  conditions : list json;
  execution_required : bool;
  suspended : bool;
  alerts_selected : bool;
  alerts_condition : option json;
  alerts_current : bool;
}.

Definition observe_resource (value metadata status spec : json) : outcome observation :=
  g ← get_int "generation" metadata;
  og ← get_int "observedGeneration" status;
  cs0 ← get "conditions" status;
  required ← service_requires_execution value;
  suspend ← get_or "suspend" (JBool false) spec;
  obs ← get "observability" spec;
  alerts0 ← get "alerts" (or_ obs (JObj []));
  rules ← get "rules" (or_ alerts0 (JObj []));
  cs ← elements (or_ cs0 (JArr []));
  alert ← find_first (has_type "AlertsReady") cs;
  current ← match alert with None => Ok false | Some a => current_condition g a end;
  Ok (Observation g og cs required (truthy suspend) (truthy rules) alert current).

(** The end of [resource_progress], for a service whose current generation has
    been observed. *)
Definition service_progress (r : ResourceRef) (status : json) (o : observation)
    (condition_status reason message : string) : outcome ResourceProgress :=
  target ← find_first (has_type "TargetReady") (conditions o);
  target_current ← match target with None => Ok false | Some t => current_condition (generation o) t end;
  target_false ← match target with
                 | Some t => if (target_current : bool) then status_is "False" t else Ok false
                 | None => Ok false
                 end;
  if (target_false : bool) then
    let t := default JNull target in
    text ← index_str "message" t;
    text ← (if eqb (kind r) "ModelService" && eqb condition_status "True" then
              sg ← get_int "servingGeneration" status;
              Ok (if sg =? generation o then text
                  else text +:+ String (Ascii.ascii_of_nat 10) "The previous generation remains available.")
            else Ok text);
    why ← index_str "reason" t;
    Ok (Progress r "Failed" why text false)
  else
  target_pending ← match target with
                   | Some t => if eqb condition_status "True" && (target_current : bool)
                               then b ← status_is "True" t; Ok (negb b) else Ok false
                   | None => Ok false
                   end;
  if (target_pending : bool) then
    let t := default JNull target in
    why ← index_str "reason" t;
    text ← index_str "message" t;
    Ok (Progress r "Progressing" why text false)
  else
  stopped ← (if eqb condition_status "False" && eqb reason "ScaledToZero" && negb (execution_required o)
             then if eqb (kind r) "FrontendService" then Ok true
                  else if eqb (kind r) "ModelService" then
                    match target with
                    | None => Ok false
                    | Some t =>
                        and_then (v ← get "observedGeneration" t; Ok (is_int (generation o) v))
                          (and_then (status_is "True" t)
                             (v ← get "reason" t; Ok (is_str "ScaledToZero" v)))
                    end
                  else Ok false
             else Ok false);
  if eqb condition_status "True" || (stopped : bool) then
    serving ← (if eqb (kind r) "ModelService" then
                 sg ← get_int "servingGeneration" status; Ok (sg =? generation o)
               else Ok true);
    if negb (serving : bool) then
      Ok (Progress r "Progressing" "Updating" "Waiting for the current ModelService generation to serve" false)
    else if negb (suspended o) && negb (alerts_selected o) && bool_decide (is_Some (alerts_condition o)) then
      Ok (Progress r "Progressing" "AlertsRemoving" "Waiting for service alert removal" false)
    else
      alerts_wait ← (if negb (suspended o) && alerts_selected o then
                       if negb (alerts_current o) then Ok true
                       else b ← status_is "True" (default JNull (alerts_condition o)); Ok (negb b)
                     else Ok false);
      if (alerts_wait : bool) then
        Ok (Progress r "Progressing" "AlertsReconciling" "Waiting for the selected service alerts" false)
      else Ok (Progress r (if (stopped : bool) then "Stopped" else "Ready") reason message true)
  else if eqb condition_status "False" &&
          mem reason ["InvalidIntent"; "ConfigurationRejected"; "DeploymentRequired"] then
    compiled ← find_first (has_type "IntentCompiled") (conditions o);
    failed ← match compiled with
             | None => Ok false
             | Some c => and_then (current_condition (generation o) c) (status_is "False" c)
             end;
    text ← (if (failed : bool) then index_str "message" (default JNull compiled) else Ok message);
    Ok (Progress r "Failed" reason text false)
  else Ok (Progress r "Progressing" reason message false).

(** [resource_progress] *)
Definition resource_progress (r : ResourceRef) (value : json) (expected_revision : option json)
    : outcome ResourceProgress :=
  metadata0 ← get "metadata" value;
  status0 ← get "status" value;
  let metadata := or_ metadata0 (JObj []) in
  let status := or_ status0 (JObj []) in
  deleting ← get "deletionTimestamp" metadata;
  if truthy deleting then Ok (Progress r "Terminating" "Deleting" "Resource is being deleted" false) else
  spec0 ← get "spec" value;
  let spec := or_ spec0 (JObj []) in
  superseded ← match expected_revision with
               | None | Some JNull => Ok false
               | Some e => rev ← get "deploymentRevision" spec; Ok (negb (py_eqb rev e))
               end;
  if (superseded : bool) then
    Ok (Progress r "Failed" "DeploymentSuperseded" "A newer deployment replaced this operation's target" false)
  else
  o ← observe_resource value metadata status spec;
  let alert := default JNull (alerts_condition o) in
  alerts_failed ← (if negb (suspended o) && alerts_current o then status_is "False" alert else Ok false);
  if (alerts_failed : bool) then
    why ← get_str "reason" "AlertsFailed" alert;
    text ← get_str "message" "Service alerts are not configured" alert;
    Ok (Progress r "Failed" why text false)
  else
  ready ← find_first ready_type (conditions o);
  match ready with
  | None => Ok (Progress r "Progressing" "Reconciling" "Waiting for controller status" false)
  | Some ready =>
      reason ← get_str "reason" "Reconciling" ready;
      message ← get_str "message" "" ready;
      cg ← get_int "observedGeneration" ready;
      if negb (observed_generation o =? generation o) || negb (cg =? generation o) then
        Ok (Progress r "Progressing" "Updating"
              "Waiting for the current configuration to be reconciled" false)
      else
      condition_status ← get_str "status" "Unknown" ready;
      if eqb (kind r) DEPLOYMENT_KIND then
        Ok (Progress r (if eqb condition_status "True" then "ControllerReady"
                        else if eqb condition_status "False" then "NotReady" else "Progressing")
              reason message (eqb condition_status "True"))
      else service_progress r status o condition_status reason message
  end.

(** [_instance_progress]: the controller record, then every declared service. *)
Definition instance_progress (controller : ResourceRef) (controller_value : json)
    (services : list ResourceRef) (objects : list ((string * string) * json))
    : outcome (list ResourceProgress) :=
  first ← resource_progress controller controller_value None;
  rest ← outcome_map (λ r,
    match dget (kind r, name r) objects with
    | None => Raise (KeyError (name r))
    | Some value =>
        if negb (has_key "spec" value)
        then Ok (Progress r "Pending" "NotCreated" "Waiting for the instance to submit this service" false)
        else resource_progress r value None
    end) services;
  Ok (first :: rest).

(** [read_progress]: [values] is the answer of kubectl.  A missing service, like
    any other [KeyError], becomes a deployment error. *)
Definition read_progress (selected : list ResourceRef) (values : list json)
    (expected_revisions : list (ResourceRef * json)) : outcome (list ResourceProgress) :=
  by_identity ← outcome_fold (λ d value, r ← resource_ref value; Ok (dset (kind r, name r) value d)) [] values;
  match outcome_map (λ r,
      match dget (kind r, name r) by_identity with
      | None => Raise (KeyError (name r))
      | Some value => resource_progress r value (dget r expected_revisions)
      end) selected with
  | Raise (KeyError _) => Raise (DeploymentError "kubectl omitted a selected Foretoken service")
  | x => x
  end.
End Status.

(** ** Waiting *)

(** [(state, reason, message)], the signature that decides what is reported. *)
Definition signature (p : ResourceProgress) : string * string * string := (state p, reason p, message p).

(** One pass over [latest]: what is reported, and the new signatures. *)
Fixpoint report_changes (previous : list (ResourceRef * (string * string * string)))
    (latest : list ResourceProgress)
    : list ResourceProgress * list (ResourceRef * (string * string * string)) :=
  match latest with
  | [] => ([], previous)
  | p :: latest =>
      if eqb (dget (resource p) previous) (Some (signature p)) then report_changes previous latest
      else let '(out, previous) := report_changes (dset (resource p) (signature p) previous) latest in
           (p :: out, previous)
  end.

(** One iteration of the loop: the clock at its test, what reading gave, and the
    clock after reading. *)
Record poll := Poll {
  now : Q;
  observed : outcome (list ResourceProgress);
  after : Q;
}.

Inductive wait_result :=
  | Waiting
  | Converged (latest : list ResourceProgress)
  | WaitFailed (e : exn).

Definition failed (p : ResourceProgress) : bool := eqb (state p) "Failed".

(** The message of an expired wait. *)
Definition pending_text (latest : list ResourceProgress) (last : option string) : string :=
  let parts := (λ p, display_name (resource p) +:+ ": " +:+
                     (if nonempty (detail p) then detail p else state p))
                 <$> keep (λ p, negb (converged p)) latest in
  let text := join "; " parts in
  (if nonempty text then text else "no service status was observed")
  +:+ match last with
      | Some e => String (Ascii.ascii_of_nat 10) "Last observation: " +:+ e
      | None => ""
      end.

(** What a wait remembers between polls: the reported signatures and the latest
    progress. *)
Abbreviation memory := (list (ResourceRef * (string * string * string)) * list ResourceProgress)%type.

(** One iteration of [wait_for_resources]: what it reports, and whether it goes on. *)
Definition wait_step (deadline : Q) (m : memory) (p : poll) : list ResourceProgress * (memory + wait_result) :=
  if Qle_bool deadline (now p)
  then ([], inr (WaitFailed (DeploymentError (pending_text m.2 None))))
  else match observed p with
       | Raise e =>
           ([], inr (WaitFailed (match deployment_error e with
                                 | Some text => if Qle_bool deadline (after p)
                                                then DeploymentError (pending_text m.2 (Some text)) else e
                                 | None => e
                                 end)))
       | Ok latest =>
           let '(out, previous) := report_changes m.1 latest in
           (out,
            if forallb converged latest then inr (Converged latest)
            else match keep failed latest with
                 | f :: _ =>
                     inr (WaitFailed (DeploymentError (display_name (resource f) +:+ " failed: " +:+
                        (if nonempty (detail f) then detail f else reason f))))
                 | [] => inl (previous, latest)
                 end)
       end.

(** [wait_for_resources] on given polls: everything it reports and how it ends. *)
Fixpoint wait_for_resources (deadline : Q) (polls : list poll) (m : memory)
    : list ResourceProgress * wait_result :=
  match polls with
  | [] => ([], Waiting)
  | p :: polls =>
      let '(out, next) := wait_step deadline m p in
      match next with
      | inr r => (out, r)
      | inl m => let '(out', r) := wait_for_resources deadline polls m in (out ++ out', r)
      end
  end.

(** ** Properties *)

(** ** Readiness *)

(** Follow a run that returned, one bind or branch of its spine at a time. *)
Ltac spine E := repeat lazymatch type of E with
  | (_ ≫= _) = Ok _ => apply outcome_bind_Ok in E as (? & ? & E); cbv beta zeta in E
  | (if ?b then _ else _) = Ok _ => destruct b eqn:?
  | match ?x with _ => _ end = Ok _ => destruct x eqn:?
  | Raise _ = Ok _ => discriminate E
  end.

Section Readiness.
Context `{PythonRepr}.

(** [value.get(k) or {}] *)
Definition part (k : string) (value : json) : outcome json := v ← get k value; Ok (or_ v (JObj [])).

Lemma find_first_elem (p : json → outcome bool) l x :
  find_first p l = Ok (Some x) → x ∈ l ∧ p x = Ok true.
Proof.
  induction l as [|y l IH]; simpl; [done|]. intros ([] & Hb & E)%outcome_bind_Ok.
  - injection E as <-. split; [left|done].
  - destruct (IH E). split; [by right|done].
Qed.

(** What [service_progress] has checked of a converged service: the served
    generation of a model, the current target, and the selected alerts. *)
Record converged_service (r : ResourceRef) (status : json) (o : observation) (cs why : string)
    (p : ResourceProgress) : Prop := {
  conv_serving : kind r = "ModelService" → get_int "servingGeneration" status = Ok (generation o);
  conv_state : (state p = "Ready" ∧ cs = "True") ∨
    (state p = "Stopped" ∧ cs = "False" ∧ why = "ScaledToZero" ∧ execution_required o = false);
  conv_target : cs = "True" → ∀ t, find_first (has_type "TargetReady") (conditions o) = Ok (Some t) →
    current_condition (generation o) t = Ok true → status_is "True" t = Ok true;
  conv_alerts : suspended o = false → alerts_selected o = true →
    alerts_current o = true ∧ status_is "True" (default JNull (alerts_condition o)) = Ok true;
}.

Lemma service_progress_converged r status o cs why text p :
  service_progress r status o cs why text = Ok p → converged p = true →
  converged_service r status o cs why p.
Proof.
  unfold service_progress. intros E Hc. spine E; injection E as E; subst p; try discriminate Hc. clear Hc.
  constructor.
  - intros Hk. rewrite Hk in H5. simpl in H5. apply outcome_bind_Ok in H5 as (sg & Hsg & [= <-]).
    apply negb_false_iff, Z.eqb_eq in Heqb2. by rewrite Hsg, Heqb2.
  - destruct x3; [right|left; split; [done|]].
    + destruct (eqb cs "False" && eqb why "ScaledToZero" && negb (execution_required o)) eqn:Es; [|done].
      rewrite !andb_true_iff, negb_true_iff, !eqb_true in Es. naive_solver.
    + rewrite orb_false_r in Heqb1. by apply eqb_true.
  - intros -> t Ht Hcur. rewrite Ht in H0. injection H0 as <-. rewrite Hcur in H1. injection H1 as <-.
    simpl in H3. apply outcome_bind_Ok in H3 as (b & Hb & [= E]). apply negb_false_iff in E. congruence.
  - intros Hs Ha. rewrite Hs, Ha in H6. simpl in H6. destruct (alerts_current o); [|done]. split; [done|].
    simpl in H6. apply outcome_bind_Ok in H6 as (b & Hb & [= E]). apply negb_false_iff in E. congruence.
Qed.

(** The status of a resource, as its parts. *)
Record current_status (r : ResourceRef) (value : json) (revision : option json) (p : ResourceProgress)
    (metadata status spec ready : json) (o : observation) (cs why : string) : Prop := {
  cur_metadata : part "metadata" value = Ok metadata;
  cur_status : part "status" value = Ok status;
  cur_spec : part "spec" value = Ok spec;
  cur_alive : ∃ d, get "deletionTimestamp" metadata = Ok d ∧ truthy d = false;
  cur_revision : ∀ e, revision = Some e → e ≠ JNull → ∃ v, get "deploymentRevision" spec = Ok v ∧ py_eqb v e = true;
  cur_generation : get_int "generation" metadata = Ok (generation o);
  cur_observed : get_int "observedGeneration" status = Ok (generation o);
  cur_execution : service_requires_execution value = Ok (execution_required o);
  cur_ready : ready ∈ conditions o ∧ ready_type ready = Ok true;
  cur_ready_generation : get_int "observedGeneration" ready = Ok (generation o);
  cur_ready_status : get_str "status" "Unknown" ready = Ok cs;
  cur_ready_reason : get_str "reason" "Reconciling" ready = Ok why;
  cur_service : converged_service r status o cs why p;
}.

Lemma observe_resource_terms value metadata status spec o :
  observe_resource value metadata status spec = Ok o →
  get_int "generation" metadata = Ok (generation o) ∧
  get_int "observedGeneration" status = Ok (observed_generation o) ∧
  service_requires_execution value = Ok (execution_required o).
Proof. unfold observe_resource. intros E. spine E. by injection E as <-. Qed.

(** A service is reported as converged only for its current configuration:
    it is not being deleted or superseded, the observed generation, the Ready
    condition and (for a model) the served generation are the current one, a
    current target and the selected alerts are ready, and the state is Ready, or
    Stopped for a service that asks for no instances. *)
Theorem converged_is_current r value revision p :
  resource_progress r value revision = Ok p → converged p = true → kind r ≠ DEPLOYMENT_KIND →
  ∃ metadata status spec ready o cs why,
    current_status r value revision p metadata status spec ready o cs why.
Proof.
  unfold resource_progress. intros E Hc Hk. spine E; try (injection E as E; subst p; discriminate Hc).
  { exfalso. apply Hk. by apply eqb_true. }
  apply orb_false_iff in Heqb2 as [Ho Hg]. apply negb_false_iff, Z.eqb_eq in Ho, Hg.
  match goal with E : observe_resource _ _ _ _ = Ok _ |- _ => apply observe_resource_terms in E as (T1 & T2 & T3) end.
  match goal with E : find_first ready_type _ = Ok (Some _) |- _ => apply find_first_elem in E as [T4 T5] end.
  exists (or_ x (JObj [])), (or_ x0 (JObj [])), (or_ x2 (JObj [])), j, x4, x10, x7.
  constructor; unfold part; rewrite ?H0, ?H1, ?H3; simpl; try done; try congruence.
  - by exists x1.
  - intros e -> He. assert (∃ v, get "deploymentRevision" (or_ x2 (JObj [])) = Ok v ∧ negb (py_eqb v e) = false) as (v & Hv & En).
    { destruct e; try done; apply outcome_bind_Ok in H4 as (v & Hv & [= En]); by exists v. }
    exists v. by apply negb_false_iff in En.
  - by eapply service_progress_converged.
Qed.
End Readiness.

(** ** Waiting *)

(** A poll before the deadline that saw neither convergence nor failure. *)
Definition undecided (deadline : Q) (p : poll) (latest : list ResourceProgress) : Prop :=
  (now p < deadline)%Q ∧ observed p = Ok latest ∧ forallb converged latest = false ∧
  keep failed latest = [].

Lemma before_deadline d x : Qle_bool d x = false → (x < d)%Q.
Proof. rewrite <-not_true_iff_false, Qle_bool_iff. apply Qnot_le_lt. Qed.

(** What one iteration decides. *)
Lemma wait_step_spec deadline m p out next :
  wait_step deadline m p = (out, next) →
  match next with
  | inl m' => undecided deadline p m'.2
  | inr (Converged l) => (now p < deadline)%Q ∧ observed p = Ok l ∧ Forall (λ x, converged x = true) l
  | inr Waiting => False
  | inr (WaitFailed _) => True
  end.
Proof.
  unfold wait_step. destruct (Qle_bool deadline (now p)) eqn:Ed; [by intros [= <- <-]|].
  apply before_deadline in Ed. destruct (observed p) as [l|e] eqn:Eo.
  - destruct (report_changes m.1 l) as [out1 previous]. intros [= <- <-]. destruct (forallb converged l) eqn:Ec.
    + split_and!; [done..|]. apply Forall_forall. intros x Hx. rewrite forallb_forall in Ec. by apply Ec, list_elem_of_In.
    + by destruct (keep failed l) eqn:Ef.
  - by intros [= <- <-].
Qed.

(** A wait for services returns exactly what the first decisive poll saw.
    It succeeds only with a poll before the deadline in which every service had
    converged, after polls that were all undecided; it raises for a failed
    service, a failed observation, or at the deadline; and it cannot outlast a
    poll at or after the deadline. *)
Theorem wait_returns_converged deadline polls m out result :
  wait_for_resources deadline polls m = (out, result) →
  (∀ l, result = Converged l → ∃ before p later, polls = before ++ p :: later ∧
     (now p < deadline)%Q ∧ observed p = Ok l ∧ Forall (λ x, converged x = true) l ∧
     Forall (λ q, ∃ l', undecided deadline q l') before) ∧
  (result = Waiting → Forall (λ q, ∃ l', undecided deadline q l') polls) ∧
  (Exists (λ q, deadline <= now q)%Q polls → result ≠ Waiting).
Proof.
  revert m out. induction polls as [|q polls IH]; intros m out.
  { simpl. intros [= <- <-]. split_and!; [done|constructor|]. intros Hex. inversion Hex. }
  simpl. destruct (wait_step deadline m q) as [out1 [m'|r]] eqn:Es; apply wait_step_spec in Es.
  - destruct (wait_for_resources deadline polls m') as [out2 r] eqn:Ew. intros [= <- <-].
    destruct (IH m' out2 Ew) as (H1 & H2 & H3). assert (∃ l', undecided deadline q l') as Hq by (by exists m'.2).
    split_and!.
    + intros l' Hl. destruct (H1 l' Hl) as (b & p & a & -> & ? & ? & ? & ?). exists (q :: b), p, a.
      split_and!; [done..|]. by constructor.
    + intros Hr. constructor; auto.
    + intros [Hd|Hex]%Exists_cons; [|auto]. destruct Es as [Hlt _]. lra.
  - intros [= <- <-]. destruct r as [|l|e]; [done| |by split_and!]. destruct Es as (? & ? & ?).
    split_and!; [|done..]. intros l' [= <-]. exists [], q, polls. by split_and!.
Qed.

(** ** Witnesses *)

#[local] Instance plain_repr : PythonRepr := λ _, "".

Definition sample_service : json := JObj
  [("kind", JStr "ModelService");
   ("metadata", JObj [("name", JStr "m"); ("generation", JInt 3)]);
   ("spec", JObj [("deploymentRevision", JStr "r1"); ("replicas", JInt 2)]);
   ("status", JObj [("observedGeneration", JInt 3); ("servingGeneration", JInt 3);
     ("conditions", JArr [JObj [("type", JStr "Ready"); ("status", JStr "True");
        ("observedGeneration", JInt 3); ("reason", JStr "Serving")]])])].
Definition sample_ref : ResourceRef := Ref "ModelService" "m" "ns".

Lemma converged_is_current_witness :
  ∃ p metadata status spec ready o cs why, resource_progress sample_ref sample_service (Some (JStr "r1")) = Ok p ∧
    current_status sample_ref sample_service (Some (JStr "r1")) p metadata status spec ready o cs why.
Proof.
  destruct (resource_progress sample_ref sample_service (Some (JStr "r1"))) as [p|] eqn:E;
    [|exfalso; vm_compute in E; discriminate].
  destruct (converged_is_current sample_ref sample_service (Some (JStr "r1")) p E) as (m & s & sp & rd & o & cs & why & Hx).
  - vm_compute in E. by injection E as <-.
  - discriminate.
  - by exists p, m, s, sp, rd, o, cs, why.
Defined.

Definition pending_progress : ResourceProgress := Progress sample_ref "Progressing" "Updating" "" false.
Definition ready_progress : ResourceProgress := Progress sample_ref "Ready" "Serving" "" true.
Definition sample_polls : list poll := [Poll 1 (Ok [pending_progress]) 1; Poll 3 (Ok [ready_progress]) 3].

Lemma wait_returns_converged_witness :
  ∃ before p later, sample_polls = before ++ p :: later ∧ observed p = Ok [ready_progress].
Proof.
  destruct (wait_for_resources 10 sample_polls ([], [])) as [out r] eqn:E.
  destruct (wait_returns_converged 10 sample_polls ([], []) out r E) as [H _].
  destruct (H [ready_progress]) as (b & p & a & Hs & _ & Ho & _).
  - vm_compute in E. by injection E as _ <-.
  - by exists b, p, a.
Defined.
