(* ===== verification/Instances.v ===== *)
(** * Deployment instances ([deployment/instances.py])

    [DeploymentInstance] addresses one InferenceDeployment record by name and
    pins its UID on first sight: reading, creating, requesting an update, waiting
    for the controller, deleting, binding objects to the record, and recovering
    the deployment from the cluster. *)

From Stdlib Require Import Ascii.
From S2P Require Import Prelude Text Kube Manifest Effects Client.

Definition DEPLOYMENT_API_VERSION : string := "inference.foretoken.io/v1alpha1".
Definition DEPLOYMENT_RESOURCE : string := "inferencedeployments.inference.foretoken.io".

(** ** Reading objects *)

(** [value["metadata"][k]] and [value["metadata"].get(k, d)] *)
Definition meta_index (k : string) (value : json) : outcome json :=
  m ← index "metadata" value; index k m.
Definition meta_get (k : string) (d : json) (value : json) : outcome json :=
  m ← index "metadata" value; get_or k d m.

(** [value["metadata"].get("deletionTimestamp")] as a condition *)
Definition deleting (value : json) : outcome bool :=
  v ← meta_get "deletionTimestamp" JNull value; Ok (truthy v).

(** [value["metadata"].get("annotations", {}).get(k, d)], and for labels *)
Definition annotation (k : string) (d : json) (value : json) : outcome json :=
  a ← meta_get "annotations" (JObj []) value; get_or k d a.
Definition label (k : string) (value : json) : outcome json :=
  l ← meta_get "labels" (JObj []) value; get k l.

(** [value.get("spec", {}).get(k, d)] *)
Definition spec_get (k : string) (d : json) (value : json) : outcome json :=
  s ← get_or "spec" (JObj []) value; get_or k d s.

(** [storage_only_instance] *)
Definition storage_reference (reference : json) : outcome bool :=
  v ← index "apiVersion" reference;
  k ← index "kind" reference;
  Ok (is_str DEPLOYMENT_API_VERSION v && is_str "RuntimeCache" k ||
      is_str "v1" v && is_str "PersistentVolumeClaim" k).
Definition storage_only_instance (resource : json) : outcome bool :=
  references ← spec_get "resources" (JArr []) resource;
  update ← spec_get "updateID" JNull resource;
  if negb (truthy update) then Ok false else
  l ← elements references;
  foreign ← any_of (λ r, b ← storage_reference r; Ok (negb b)) l;
  Ok (negb foreign).

(** ** State *)

(** The attributes of a [DeploymentInstance]; [self.uid] is a decoded value. *)
Record instance := Instance {
  i_uid : json;
  i_resource : option json;
}.

(** An operation works on one instance; [owner] is the state of its user. *)
Record operation (T : Type) := Operation {
  inst : instance;
  owner : T;
}.
Arguments Operation {T} _ _.
Arguments inst {T} _.
Arguments owner {T} _.

Definition fresh_instance (uid : string) : instance := Instance (JStr uid) None.

(** [json.loads] of text found inside an object *)
Class JsonText := loads : string → option json.
Definition loads_text `{JsonText} (text : string) : outcome json :=
  match loads text with Some j => Ok j | None => Raise (ValueError "JSONDecodeError") end.

Section Instances.
Context {C T : Type} `{Kubectl C} `{PythonRepr} `{Codec} `{JsonText}.
Abbreviation IO := (IO (world C (operation T))).
Variable kustomize : kustomization → list json → outcome string.
Variable fuel : nat.
Variables ns nm : string.

Definition get_uid : IO json := ask (λ w, i_uid (inst (self w))).
Definition get_resource : IO (option json) := ask (λ w, i_resource (inst (self w))).
Definition set_instance (f : instance → instance) : IO unit :=
  on_self (λ s, Operation (f (inst s)) (owner s)).

(** [self.resource = value] and [self.uid = uid] *)
Definition set_resource (value : json) : IO unit :=
  set_instance (λ i, Instance (i_uid i) (Some value)).
Definition set_uid (uid : json) : IO unit := set_instance (λ i, Instance uid (i_resource i)).

(** [read] *)
Definition read (required : bool) : IO (option json) :=
  current ← get_if_exists DEPLOYMENT_RESOURCE nm ns;
  match current with
  | None =>
      if required then throw (DeploymentError ("deployment instance " +:+ nm +:+ " was not found"))
      else mret None
  | Some current =>
      u ← pure (meta_index "uid" current);
      pinned ← get_uid;
      if truthy pinned && negb (py_eqb u pinned)
      then throw (DeploymentError ("DeploymentSuperseded: deployment instance " +:+ nm +:+ " was replaced"))
      else set_uid u ;; set_resource current ;; mret (Some current)
  end.

(** [self.read()] where the record must exist *)
Definition read_required : IO json :=
  r ← read true;
  match r with Some current => mret current | None => throw AttributeError end.

(** The record and [self.uid] after reading it *)
Definition read_pinned : IO (json * json) :=
  current ← read_required; uid ← get_uid; mret (current, uid).

Definition being_deleted : exn :=
  DeploymentError ("deployment instance " +:+ nm +:+ " is being deleted").

(** [ensure]: whether the record was created here. *)
Definition ensure (d : ForetokenDeployment) : IO bool :=
  current ← read false;
  match current with
  | Some current =>
      del ← pure (deleting current);
      if (del : bool) then throw being_deleted else mret false
  | None =>
      pinned ← get_uid;
      if truthy pinned
      then throw (DeploymentError ("DeploymentSuperseded: deployment instance " +:+ nm +:+ " was deleted"))
      else
      refs ← pure (resource_references d);
      let document := JObj [("apiVersion", JStr DEPLOYMENT_API_VERSION); ("kind", JStr INSTANCE_KIND);
        ("metadata", JObj [("name", JStr nm); ("namespace", JStr ns)]);
        ("spec", JObj [("resources", JArr refs)])] in
      found ← try_except
        (r ← run_json (CreateObject document); set_resource r ;; mret false)
        (λ e, match deployment_error e with
              | Some message =>
                  if contains "(AlreadyExists)" message
                  then Some (_ ← read_required; mret true) else None
              | None => None
              end);
      if (found : bool) then mret false else
      r ← get_resource;
      u ← pure (match r with Some r => meta_index "uid" r | None => Raise (TypeError "not subscriptable") end);
      set_uid u ;; mret true
  end.

(** The patch of [request] *)
Definition request_payload (uid version : json) (update_id revision : json) (refs : list json) : json :=
  JObj [("metadata", JObj [("uid", uid); ("resourceVersion", version)]);
        ("spec", JObj [("updateID", update_id); ("controllerSourceRevision", revision);
                       ("resources", JArr refs)])].

(** [request] *)
Definition request (d : ForetokenDeployment) (timeout : string) (update_id revision : json) : IO unit :=
  start ← now;
  secs ← pure (timeout_seconds timeout);
  let deadline := (start + inject_Z secs)%Q in
  forever fuel (λ _ : unit,
    t ← now;
    if Qle_bool deadline t
    then throw (DeploymentError ("timed out updating deployment instance " +:+ nm)) else
    seen ← read_pinned;
    let current := seen.1 in
    del ← pure (deleting current);
    if (del : bool) then throw being_deleted else
    version ← pure (meta_index "resourceVersion" current);
    refs ← pure (resource_references d);
    try_except
      (r ← run_json (MergePatch DEPLOYMENT_RESOURCE nm ns
              (request_payload seen.2 version update_id revision refs));
       set_resource r ;; mret (inr tt))
      (λ e, if is_conflict e then Some (mret (inl tt)) else None)) tt.

(** The identity of a request: UID, generation and update. *)
Definition request_identity (value : json) : outcome (json * json * json) :=
  u ← meta_index "uid" value;
  g ← meta_index "generation" value;
  i ← spec_get "updateID" (JStr "") value;
  Ok (u, g, i).
Definition same_identity (a b : json * json * json) : bool :=
  py_eqb a.1.1 b.1.1 && py_eqb a.1.2 b.1.2 && py_eqb a.2 b.2.

Definition ready_condition (status : json) : outcome (option json) :=
  conditions ← get_or "conditions" (JArr []) status;
  l ← elements conditions;
  find_first (λ c, t ← index "type" c; Ok (is_str "Ready" t)) l.

(** What one observation of [wait_ready] decides: go on with this message, or
    return this controller revision. *)
Definition judge (expected : json * json * json) (message current : json) : outcome (json + json) :=
  observed ← request_identity current;
  if negb (same_identity observed expected)
  then Raise (DeploymentError ("DeploymentSuperseded: deployment instance " +:+ nm +:+ " has a newer request"))
  else
  del ← deleting current;
  if (del : bool) then Raise being_deleted else
  status0 ← get "status" current;
  let status := or_ status0 (JObj []) in
  ready ← ready_condition status;
  message ← match ready with
            | Some c => m ← get "message" c; r ← get "reason" c; Ok (or_ m (or_ r message))
            | None => Ok message
            end;
  seen ← get "observedGeneration" status;
  match ready with
  | None => Ok (inl message)
  | Some c =>
      if negb (py_eqb seen expected.1.2) then Ok (inl message) else
      g ← get "observedGeneration" c;
      if negb (py_eqb g expected.1.2) then Ok (inl message) else
      s ← index "status" c;
      if is_str "False" s then
        Raise (DeploymentError ("deployment instance " +:+ nm +:+ " rejected its configuration: " +:+ str_of message))
      else if is_str "True" s then
        revision ← get "controllerRevision" status;
        Ok (if truthy revision then inr revision else inl message)
      else Ok (inl message)
  end.

(** [wait_ready] *)
Definition wait_ready (timeout : string) (observe : IO unit) : IO json :=
  resource ← get_resource;
  match resource with
  | None => throw AssertionError
  | Some resource =>
      expected ← pure (request_identity resource);
      start ← now;
      secs ← pure (timeout_seconds timeout);
      let deadline := (start + inject_Z secs)%Q in
      forever fuel (λ message,
        t ← now;
        if Qle_bool deadline t
        then throw (DeploymentError ("timed out waiting for deployment instance " +:+ nm +:+ ": " +:+ str_of message))
        else
        current ← read_required;
        observe ;;
        r ← pure (judge expected message current);
        match r with
        | inr revision => mret (inr revision)
        | inl message => _ ← now; mret (inl message)
        end) (JStr "Waiting for the deployment controller")
  end.

(** [self.wait_deleted] *)
Definition wait_instance_deleted (timeout : string) : IO unit :=
  uid ← get_uid;
  gone ← (if truthy uid then mret false
          else r ← read false; mret (bool_decide (r = None)));
  if (gone : bool) then mret tt else
  uid ← get_uid;
  wait_deleted fuel DEPLOYMENT_RESOURCE
    (JObj [("name", JStr nm); ("namespace", JStr ns); ("uid", uid)]) timeout.

(** [f"{max(1, int(deadline - time.monotonic()))}s"] *)
Definition remaining_text (deadline t : Q) : string :=
  str_Z (Z.max 1 (Qtrunc (deadline - t))) +:+ "s".

(** [delete]; the loop tells whether the deletion is under way. *)
Definition delete (timeout : string) (wait : bool) : IO unit :=
  start ← now;
  secs ← pure (timeout_seconds timeout);
  let deadline := (start + inject_Z secs)%Q in
  requested ← forever fuel (λ _ : unit,
    t ← now;
    if Qle_bool deadline t
    then throw (DeploymentError ("timed out deleting deployment instance " +:+ nm)) else
    current ← read false;
    match current with
    | None => mret (inr false)
    | Some current =>
        del ← pure (deleting current);
        if (del : bool) then mret (inr true) else
        t ← now;
        try_except
          (delete_object fuel current (remaining_text deadline t) false "Background" true ;; mret (inr true))
          (λ e, if is_conflict e then Some (mret (inl tt)) else
                match deployment_error e with
                | Some _ => Some (
                    remaining ← get_if_exists DEPLOYMENT_RESOURCE nm ns;
                    match remaining with
                    | None => mret (inr false)
                    | Some r =>
                        u ← pure (meta_index "uid" r);
                        uid ← get_uid;
                        if py_eqb u uid then throw e else mret (inr false)
                    end)
                | None => None
                end)
    end) tt;
  if negb (requested : bool) then mret tt else
  if negb wait then mret tt else
  t ← now; wait_instance_deleted (remaining_text deadline t).

(** [controller_name] *)
Definition controller_name : IO string :=
  uid ← get_uid;
  match uid with
  | JStr s => if nonempty s then mret ("foretoken-" +:+ s) else throw AssertionError
  | _ => throw (TypeError "can only concatenate str to str")
  end.

(** [access] *)
Definition access : IO json :=
  _ ← read_required;
  controller ← controller_name;
  configuration ← get_if_exists "configmap" controller ns;
  payload ← pure (data ← get_or "data" (JObj []) (default (JObj []) configuration);
                  get "deployment-access.json" data);
  match payload with
  | JStr text =>
      if nonempty text
      then match loads text with
           | Some j => mret j
           | None => throw (ValueError "JSONDecodeError")
           end
      else throw (DeploymentError ("deployment access for " +:+ nm +:+ " is not published"))
  | payload =>
      if truthy payload then throw (TypeError "the JSON object must be str, bytes or bytearray")
      else throw (DeploymentError ("deployment access for " +:+ nm +:+ " is not published"))
  end.

(** ** [bind] *)

Definition OWNER_KEYS : list string := ["apiVersion"; "kind"; "name"; "uid"].

(** Another controller owns the object. *)
Definition foreign_controller (identity : list (string * json)) (reference : json) : outcome bool :=
  c ← get "controller" reference;
  if negb (truthy c) then Ok false else
  outcome_fold (λ acc k,
    v ← get k reference;
    Ok (acc || negb (py_eqb v (default JNull (dget k identity))))) false OWNER_KEYS.

(** The owner references of one object, with the record as controller. *)
Definition bind_object (uid : json) (identity : list (string * json)) (document : json) : outcome json :=
  metadata ← index "metadata" document;
  references0 ← get "ownerReferences" metadata;
  references ← elements (or_ references0 (JArr []));
  foreign ← any_of (foreign_controller identity) references;
  if (foreign : bool) then
    k ← index "kind" document; n ← index "name" metadata;
    Raise (DeploymentError (str_of k +:+ "/" +:+ str_of n +:+ " already has another controller owner"))
  else
  kept ← outcome_map (λ r, u ← get "uid" r; Ok (if py_eqb u uid then [] else [r])) references;
  match document, metadata with
  | JObj doc, JObj meta =>
      Ok (JObj (dset "metadata"
        (JObj (dset "ownerReferences" (JArr (concat kept ++ [JObj identity])) meta)) doc))
  | _, _ => Raise (TypeError "object does not support item assignment")
  end.

(** The reference to the record. *)
Definition owner_reference (resource : json) : outcome (list (string * json)) :=
  v ← index "apiVersion" resource;
  k ← index "kind" resource;
  n ← meta_index "name" resource;
  u ← meta_index "uid" resource;
  Ok [("apiVersion", v); ("kind", k); ("name", n); ("uid", u);
      ("controller", JBool true); ("blockOwnerDeletion", JBool true)].

Definition replace_objects (d : ForetokenDeployment) (objs : list json) (text : string) : ForetokenDeployment :=
  Deployment (path d) text (d_namespace d) (frontend d) (hostname d) (models d) (runtime_caches d)
    objs (d_name d) (uid d).

(** [bind] *)
Definition bind (d : ForetokenDeployment) : IO ForetokenDeployment :=
  if negb (eqb (d_namespace d) ns && eqb (d_name d) nm)
  then throw (DeploymentError "deployment membership does not match the selected instance") else
  resource ← read_required;
  pinned ← get_uid;
  if nonempty (uid d) && negb (py_eqb (JStr (uid d)) pinned)
  then throw (DeploymentError "deployment instance identity changed before submission") else
  bound ← (if nonempty (uid d) then mret d else
           pure (match pinned with
                 | JStr u => project_deployment kustomize d "" u
                 | _ => Raise (TypeError "can only concatenate str to str")
                 end));
  identity ← pure (owner_reference resource);
  objs ← pure (outcome_map (bind_object pinned identity) (objects bound));
  mret (replace_objects bound objs (encode objs)).

(** ** [deployment] *)

(** What the loop over the recorded references collects; [front] is [""] while
    no frontend was seen. *)
Record recovered := Recovered {
  r_objects : list json;
  r_models : list (string * string);
  r_caches : list RuntimeCacheManifest;
  r_frontend : string;
  r_hostname : string;
}.

(** The document of a reference: services and caches are read and must belong to
    this instance. *)
Definition service_kind (k : string) : bool :=
  eqb k "FrontendService" || eqb k "ModelService" || eqb k "RuntimeCache".
Definition recover_document (allow_missing : bool) (k version n : string) : IO (option json) :=
  if negb (startswith API_PREFIX version && service_kind k) then mret None else
  document ← get_if_exists (k +:+ ".inference.foretoken.io") n ns;
  match document with
  | None =>
      if allow_missing then mret None
      else throw (DeploymentError ("deployment instance " +:+ nm +:+ " has no " +:+ k +:+ "/" +:+ n +:+ " yet"))
  | Some document =>
      l ← pure (label DEPLOYMENT_UID_LABEL document);
      pinned ← get_uid;
      if negb (py_eqb l pinned)
      then throw (DeploymentError (k +:+ "/" +:+ n +:+ " does not belong to deployment instance " +:+ nm))
      else mret (Some document)
  end.

Definition text_field (k d : string) (spec : json) : outcome string :=
  v ← get_or k (JStr d) spec; Ok (str_of v).

(** The index entries of one document. *)
Definition recover_index (st : recovered) (k version n : string) (document : option json)
    : outcome recovered :=
  if eqb k "FrontendService" && startswith API_PREFIX version then
    if nonempty (r_frontend st)
    then Raise (DeploymentError ("deployment instance " +:+ nm +:+ " declares multiple frontends"))
    else
    host ← match document with
           | Some doc => spec ← index "spec" doc; text_field "hostname" "" spec
           | None => Ok (r_hostname st)
           end;
    Ok (Recovered (r_objects st) (r_models st) (r_caches st) n host)
  else
  match document with
  | None => Ok st
  | Some doc =>
      if eqb k "ModelService" then
        spec ← index "spec" doc;
        model ← index "model" spec;
        Ok (Recovered (r_objects st) (dset n (str_of model) (r_models st)) (r_caches st)
              (r_frontend st) (r_hostname st))
      else if eqb k "RuntimeCache" then
        spec ← index "spec" doc;
        dir ← text_field "directory" "" spec;
        access ← text_field "accessMode" "ReadWriteMany" spec;
        retention ← text_field "retentionPolicy" "Retain" spec;
        Ok (Recovered (r_objects st) (r_models st) (r_caches st ++ [RuntimeCache n ns dir access retention])
              (r_frontend st) (r_hostname st))
      else Ok st
  end.

Fixpoint recover_all (allow_missing : bool) (references : list json) (st : recovered) : IO recovered :=
  match references with
  | [] => mret st
  | reference :: references =>
      k ← pure (text_index "kind" reference);
      version ← pure (text_index "apiVersion" reference);
      n ← pure (text_index "name" reference);
      if eqb k "Namespace" || eqb k INSTANCE_KIND
      then throw (DeploymentError ("invalid deployment instance member " +:+ k +:+ "/" +:+ n)) else
      document ← recover_document allow_missing k version n;
      st ← pure (recover_index st k version n document);
      let document := default (JObj [("apiVersion", JStr version); ("kind", JStr k);
             ("metadata", JObj [("name", JStr n); ("namespace", JStr ns)])]) document in
      recover_all allow_missing references
        (Recovered (r_objects st ++ [document]) (r_models st) (r_caches st) (r_frontend st) (r_hostname st))
  end.

(** [deployment] *)
Definition deployment (allow_missing missing_instance_ok : bool) : IO ForetokenDeployment :=
  current ← read (negb missing_instance_ok);
  match current with
  | None => mret (Deployment None "" ns "" "" [] [] [] nm "")
  | Some current =>
      references ← pure (r ← spec_get "resources" (JArr []) current; elements r);
      st ← recover_all allow_missing references (Recovered [] [] [] "" "");
      if negb (nonempty (r_frontend st)) && negb allow_missing
      then throw (DeploymentError ("deployment instance " +:+ nm +:+ " has no declared frontend")) else
      pinned ← get_uid;
      mret (Deployment None (encode (r_objects st)) ns (r_frontend st) (r_hostname st) (r_models st)
              (r_caches st) (r_objects st) nm (str_of pinned))
  end.
End Instances.

(** ** [list] and [resolve_deployment_target] *)

Section Targets.
Context {C T : Type} `{Kubectl C} `{PythonRepr} `{Codec}.
Abbreviation IO := (IO (world C (operation T))).
Variable current_namespace : string.

(** The instances a listing finds: namespace, name and the instance state. *)
Definition listed_instance (resource : json) : outcome (string * string * instance) :=
  ns ← meta_index "namespace" resource;
  n ← meta_index "name" resource;
  u ← meta_index "uid" resource;
  Ok (str_of ns, str_of n, Instance u (Some resource)).
Definition list_instances (all_namespaces : bool) : IO (list (string * string * instance)) :=
  resources ← (if all_namespaces then list_all_resources [DEPLOYMENT_RESOURCE]
               else list_resources [DEPLOYMENT_RESOURCE] current_namespace);
  pure (outcome_map listed_instance resources).

Variable path_exists : string → bool.
Variable load : string → option string → outcome ForetokenDeployment.

(** A path is loaded for its name; anything else is an instance name. *)
Definition is_path (target : string) : bool :=
  path_exists target || has_char "/"%char target || startswith "." target || startswith "~" target.
Definition resolve_deployment_target (target : string) (name_ : option string)
    (allow_missing missing_instance_ok : bool) : IO ForetokenDeployment :=
  on_self (λ s, Operation (fresh_instance "") (owner s)) ;;
  if is_path target then
    desired ← pure (load target name_);
    current ← deployment (d_namespace desired) (d_name desired) allow_missing missing_instance_ok;
    mret (Deployment (path desired) (rendered current) (d_namespace current) (frontend current)
            (hostname current) (models current) (runtime_caches current) (objects current)
            (d_name current) (uid current))
  else match name_ with
  | Some _ => throw (DeploymentError "--name selects an instance for a Kustomize path; otherwise pass the instance name directly")
  | None => deployment current_namespace target allow_missing missing_instance_ok
  end.
End Targets.
