(* ===== verification/Submission.v ===== *)
(** * Submitting deployment intent ([deployment/submission.py])

    [DeploymentSubmission] remembers which version of every service it expects,
    claims the instance record by a compare-and-set of an operation annotation,
    and writes objects with the UID and resource version it has just validated.
    What it created is recorded with a receipt, so that a temporary deployment
    can be retired later without touching anybody else's objects. *)

From S2P Require Import Prelude Text Kube Manifest Effects Client Instances.

Definition SERVICE_OPERATION : string := "inference.foretoken.io/service-operation".
Definition SOURCE_REVISION : string := "inference.foretoken.io/source-revision".

(** ** Editing documents *)

(** [payload["metadata"].setdefault("annotations", {})[OPERATION] = operation] *)
Definition annotate (operation : json) (payload : json) : outcome json :=
  edit_metadata (λ m, m ← default_key "annotations" (JObj []) m;
                      edit_key "annotations" (set_key SERVICE_OPERATION operation) m) payload.

(** [payload["metadata"].update(uid=..., resourceVersion=...)] *)
Definition fence (current payload : json) : outcome json :=
  u ← meta_index "uid" current;
  v ← meta_index "resourceVersion" current;
  edit_metadata (λ m, m ← set_key "uid" u m; set_key "resourceVersion" v m) payload.

(** [_matches_declared_fields] *)
Fixpoint matches_declared_fields (actual desired : json) : bool :=
  match desired with
  | JObj d =>
      match actual with
      | JObj a =>
          (fix all (d : list (string * json)) : bool :=
             match d with
             | [] => true
             | (k, v) :: d =>
                 match dget k a with Some x => matches_declared_fields x v | None => false end && all d
             end) d
      | _ => false
      end
  | _ => py_eqb actual desired
  end.

(** [_intent_version]: UID, generation, source revision, operation. *)
Abbreviation version := (json * json * json * json)%type.
Definition intent_version `{PythonRepr} (value : option json) : outcome (option version) :=
  match value with
  | None => Ok None
  | Some value =>
      metadata ← index "metadata" value;
      del ← get "deletionTimestamp" metadata;
      if truthy del then
        k ← index "kind" value;
        n ← index "name" metadata;
        Raise (DeploymentError ("DeploymentSuperseded: " +:+ str_of k +:+ "/" +:+ str_of n +:+ " is being deleted"))
      else
      u ← index "uid" metadata;
      g ← index "generation" metadata;
      annotations0 ← get "annotations" metadata;
      let annotations := or_ annotations0 (JObj []) in
      r ← get_or SOURCE_REVISION (JStr "") annotations;
      o ← get_or SERVICE_OPERATION (JStr "") annotations;
      Ok (Some (u, g, r, o))
  end.

Definition same_version (a b : option version) : bool :=
  match a, b with
  | None, None => true
  | Some (u, g, r, o), Some (u', g', r', o') => py_eqb u u' && py_eqb g g' && py_eqb r r' && py_eqb o o'
  | _, _ => false
  end.

(** [{resource_ref(value): value for value in values}] *)
Definition by_ref (values : list json) : outcome (list (ResourceRef * json)) :=
  outcome_fold (λ acc v, r ← resource_ref v; Ok (dset r v acc)) [] values.

(** ** State *)

(** The attributes of a [DeploymentSubmission] that change. *)
Record submission := Submission {
  s_deployment : ForetokenDeployment;
  expected : list (ResourceRef * option version);
  committed : list (ResourceRef * option version);
  created : list (ResourceRef * json);
  scope : option json;
}.

(** A [DeploymentLifecycle] with its submission; [retained] is its own flag. *)
Record lifecycle := Lifecycle {
  sub : submission;
  retained : bool;
}.

Section Submission.
Context {C : Type} `{Kubectl C} `{PythonRepr} `{Codec} `{JsonText}.
Abbreviation world := (world C (operation lifecycle)).
Abbreviation IO := (IO world).
Variable kustomize : kustomization → list json → outcome string.
Variable fuel : nat.
Variables ns nm : string.
(** [self.timeout], [self.operation], [self.create_only] *)
Variable timeout : Z.
Variable operation_id : json.
Variable create_only : bool.

Definition the (w : world) : submission := sub (owner (self w)).
Definition on_submission (f : submission → submission) : IO unit :=
  on_self (λ s, Operation (inst s) (Lifecycle (f (sub (owner s))) (retained (owner s)))).

Definition set_deployment (d : ForetokenDeployment) : IO unit :=
  on_submission (λ s, Submission d (expected s) (committed s) (created s) (scope s)).
Definition set_committed (r : ResourceRef) (v : option version) : IO unit :=
  on_submission (λ s, Submission (s_deployment s) (expected s) (dset r v (committed s)) (created s) (scope s)).
Definition set_created (r : ResourceRef) (v : json) : IO unit :=
  on_submission (λ s, Submission (s_deployment s) (expected s) (committed s) (dset r v (created s)) (scope s)).
Definition set_scope (v : json) : IO unit :=
  on_submission (λ s, Submission (s_deployment s) (expected s) (committed s) (created s) (Some v)).

Definition root : ResourceRef := Ref INSTANCE_KIND nm ns.
Definition superseded : exn :=
  DeploymentError ("DeploymentSuperseded: instance " +:+ nm +:+ " was changed by another operation").

(** [__init__] *)
Definition init (d : ForetokenDeployment) : IO unit :=
  services ← pure (service_refs d);
  observed ← match services with [] => mret [] | _ => get_resources services end;
  observed ← pure (by_ref observed);
  versions ← pure (outcome_map (λ r, v ← intent_version (dget r observed); Ok (r, v)) services);
  if create_only && existsb (λ e, bool_decide (is_Some e.2)) versions
  then throw (DeploymentError "Temporary deployment requires services that do not already exist") else
  on_self (λ s, Operation (fresh_instance (uid d))
    (Lifecycle (Submission d (foldl (λ acc e, dset e.1 e.2 acc) [] versions) [] [] None) (retained (owner s)))).

(** ** Ownership *)

(** [_owns_scope] *)
Definition owns_scope (scope : option json) (current : option json) : outcome bool :=
  match scope, current with
  | Some scope, Some current =>
      del ← deleting current;
      if (del : bool) then Ok false else
      u ← meta_index "uid" current;
      u' ← meta_index "uid" scope;
      if negb (py_eqb u u') then Ok false else
      o ← annotation SERVICE_OPERATION JNull current;
      Ok (py_eqb o operation_id)
  | _, _ => Ok false
  end.

(** [owns_instance] *)
Definition owns_instance : IO bool :=
  scope ← ask (λ w, scope (the w));
  current ← match scope with
            | Some _ => get_if_exists DEPLOYMENT_RESOURCE nm ns
            | None => mret None
            end;
  pure (owns_scope scope current).

(** [_validate_member] *)
Definition validate_member (pinned : json) (s : submission) (r : ResourceRef) (current : option json)
    : outcome (option json) :=
  foreign ← match current with
            | Some current => l ← label DEPLOYMENT_UID_LABEL current; Ok (negb (py_eqb l pinned))
            | None => Ok false
            end;
  if (foreign : bool)
  then Raise (DeploymentError (display_name r +:+ " belongs to another deployment instance")) else
  match dget r (expected s) with
  | None => Ok current
  | Some e =>
      v ← intent_version current;
      if same_version v (default e (dget r (committed s))) then Ok current
      else Raise (DeploymentError ("DeploymentSuperseded: " +:+ display_name r +:+ " was changed by another operation"))
  end.

(** [_member] *)
Definition member (r : ResourceRef) : IO (option json) :=
  current ← get_if_exists (kind r) (name r) (namespace r);
  pinned ← get_uid;
  s ← ask the;
  pure (validate_member pinned s r current).

(** [_current_services] *)
Definition current_services : IO (list (ResourceRef * option json)) :=
  s ← ask the;
  observed ← match scope s with
             | Some _ => get_resources (Ref DEPLOYMENT_RESOURCE nm ns :: (expected s).*1)
             | None => mret []
             end;
  observed ← pure (by_ref observed);
  owned ← pure (owns_scope (scope s) (dget root observed));
  if negb (owned : bool) then throw superseded else
  pinned ← get_uid;
  pure (outcome_map (λ r, v ← validate_member pinned s r (dget r observed); Ok (r, v)) (expected s).*1).

(** [check] *)
Definition check : IO unit := _ ← current_services; mret tt.

(** [owns_created] *)
Definition owns_created (pinned : json) (s : submission) (r : ResourceRef) (current : option json)
    : outcome bool :=
  match dget r (created s), current with
  | Some receipt, Some current =>
      del ← deleting current;
      if (del : bool) then Ok false else
      l ← label DEPLOYMENT_UID_LABEL current;
      if negb (py_eqb l pinned) then Ok false else
      match dget r (expected s) with
      | Some _ =>
          v ← intent_version (Some current);
          Ok (same_version v (default None (dget r (committed s))))
      | None =>
          u ← meta_index "uid" current;
          u' ← meta_index "uid" receipt;
          if negb (py_eqb u u') then Ok false else
          o ← annotation SERVICE_OPERATION JNull current;
          Ok (py_eqb o operation_id)
      end
  | _, _ => Ok false
  end.

(** ** Claiming *)

(** The compare-and-set of [_claim_operation]. *)
Definition claim_payload (u v : json) (spec : option (list json)) : json :=
  JObj (("metadata", JObj [("uid", u); ("resourceVersion", v);
                           ("annotations", JObj [(SERVICE_OPERATION, operation_id)])]) ::
        match spec with Some refs => [("spec", JObj [("resources", JArr refs)])] | None => [] end).

(** [_claim_operation] *)
Definition claim_operation (r : ResourceRef) (current : json) (deadline : Q) : IO json :=
  t ← now;
  if Qle_bool deadline t then throw (DeploymentError ("Timed out claiming " +:+ display_name r)) else
  u ← pure (meta_index "uid" current);
  v ← pure (meta_index "resourceVersion" current);
  spec ← (if create_only && eqb (kind r) INSTANCE_KIND
          then d ← ask (λ w, s_deployment (the w)); refs ← pure (resource_references d); mret (Some refs)
          else mret None);
  run_json (MergePatch (kind r) (name r) (namespace r) (claim_payload u v spec)).

(** UID and operation of the record when the claim starts. *)
Definition claim_identity (current : json) : outcome (json * json) :=
  u ← meta_index "uid" current; o ← annotation SERVICE_OPERATION (JStr "") current; Ok (u, o).

(** The loop of [_begin]. *)
Definition claim_instance (identity : json * json) (deadline : Q) (current : json) : IO unit :=
  forever fuel (λ current,
    del ← pure (deleting current);
    found ← pure (claim_identity current);
    if (del : bool) || negb (py_eqb found.1 identity.1 && py_eqb found.2 identity.2) then throw superseded else
    version ← pure (meta_index "resourceVersion" current);
    try_except
      (r ← claim_operation root current deadline; set_scope r ;; mret (inr tt))
      (λ e, if is_conflict e then Some (
         latest ← read ns nm false;
         match latest with
         | None => throw e
         | Some latest =>
             v ← pure (meta_index "resourceVersion" latest);
             if py_eqb v version then throw e else mret (inl latest)
         end) else None)) current.

(** [_begin] *)
Definition begin_ : IO unit :=
  s ← ask the;
  match scope s with
  | Some _ => check
  | None =>
      each (expected s).*1 (λ r, _ ← member r; mret tt) ;;
      current ← read_required ns nm;
      s ← ask the;
      foreign ← (if create_only && negb (dmem root (created s))
                 then b ← pure (storage_only_instance current); mret (negb b) else mret false);
      if (foreign : bool)
      then throw (DeploymentError ("Temporary deployment instance " +:+ nm +:+ " already belongs to another submission"))
      else
      t ← now;
      identity ← pure (claim_identity current);
      claim_instance identity (t + inject_Z timeout)%Q current ;;
      check
  end.

(** [_prepare_instance] *)
Definition prepare_instance : IO unit :=
  s ← ask the;
  match scope s with
  | Some _ => mret tt
  | None =>
      new ← ensure ns nm (s_deployment s);
      skip_unless new
        (r ← get_resource; match r with Some r => set_created root r | None => mret tt end) ;;
      d ← bind kustomize ns nm (s_deployment s);
      set_deployment d
  end.

(** ** Dependencies *)

(** [ResourceRef(value["kind"], metadata["name"], metadata.get("namespace") or self.namespace)] *)
Definition declared_ref (value metadata : json) : outcome ResourceRef :=
  k ← index "kind" value;
  n ← index "name" metadata;
  s ← get "namespace" metadata;
  Ok (Ref (str_of k) (str_of n) (str_of (or_ s (JStr ns)))).

(** [ResourceRef(current["kind"], ..., metadata.get("namespace", ""))] *)
Definition actual_ref (current : json) : outcome ResourceRef :=
  k ← index "kind" current;
  n ← meta_index "name" current;
  s ← meta_get "namespace" (JStr "") current;
  Ok (Ref (str_of k) (str_of n) (str_of s)).

Definition CACHE_SELECTION : list string := ["directory"; "initialSize"; "storageClassName"].
Definition CACHE_FIELDS : list string :=
  ["directory"; "initialSize"; "storageClassName"; "accessMode"; "retentionPolicy"; "maxSize"].

(** An omitted storage selection keeps the fields of the committed cache. *)
Definition keep_cache_fields (current payload : json) : outcome json :=
  k ← index "kind" payload;
  if negb (is_str "RuntimeCache" k) then Ok payload else
  v ← text_index "apiVersion" payload;
  if negb (startswith API_PREFIX v) then Ok payload else
  spec ← index "spec" payload;
  if existsb (λ f, has_key f spec) CACHE_SELECTION then Ok payload else
  committed_spec ← index "spec" current;
  spec' ← outcome_fold (λ spec f,
    if has_key f committed_spec
    then x ← index f committed_spec; default_key f x spec else Ok spec) spec CACHE_FIELDS;
  set_key "spec" spec' payload.

(** The handler of a version conflict: try again only when the object changed. *)
Definition retry_conflict (r : ResourceRef) (current : option json) (e : exn) : IO unit :=
  latest ← get_if_exists (kind r) (name r) (namespace r);
  match current, latest with
  | Some current, Some latest =>
      v ← pure (meta_index "resourceVersion" latest);
      v' ← pure (meta_index "resourceVersion" current);
      if py_eqb v v' then throw e else mret tt
  | _, _ => throw e
  end.

(** A stage of a write under that handler; [inl] asks for another round. *)
Definition attempt {A} (r : ResourceRef) (current : option json) (m : IO A) : IO (unit + A) :=
  try_except (a ← m; mret (inr a))
    (λ e, if is_conflict e then Some (retry_conflict r current e ;; mret (inl tt)) else None).

Definition timed_out (r : ResourceRef) : exn := DeploymentError ("Timed out submitting " +:+ display_name r).

(** Creation with its receipt: the new object under its own identity. *)
Definition create_dependency (payload : json) : IO (json * ResourceRef) :=
  payload ← pure (edit_metadata (pop_key "resourceVersion") payload);
  current ← run_json (CreateObject payload);
  cr ← pure (actual_ref current);
  set_created cr current ;;
  mret (current, cr).

(** The receipt follows the claimed object. *)
Definition refresh_receipt (cr : ResourceRef) (claimed : json) : IO unit :=
  s ← ask the;
  match dget cr (created s) with
  | None => mret tt
  | Some receipt =>
      u ← pure (meta_index "uid" receipt);
      u' ← pure (meta_index "uid" claimed);
      skip_unless (py_eqb u u') (set_created cr claimed)
  end.

(** The server-side apply of an object that existed. *)
Definition apply_dependency_config (r : ResourceRef) (deadline : Q) (claimed payload : json) : IO unit :=
  payload ← pure (keep_cache_fields claimed payload);
  payload ← pure (fence claimed payload);
  t ← now;
  if Qle_bool deadline t then throw (timed_out r) else
  _ ← run (ServerApply payload); mret tt.

(** One round of [_apply_dependency]. *)
Definition dependency_round (value : json) (claim_only : bool) (r : ResourceRef) (deadline : Q)
    : IO (unit + unit) :=
  check ;;
  current ← member r;
  cr ← match current with None => mret r | Some current => pure (actual_ref current) end;
  s ← ask the;
  let receipt := dget cr (created s) in
  match claim_only, current with
  | true, None => mret (inr tt)
  | _, _ =>
      foreign ← match create_only, current, receipt with
                | true, Some current, None => mret true
                | true, Some current, Some receipt =>
                    u ← pure (meta_index "uid" receipt);
                    u' ← pure (meta_index "uid" current);
                    mret (negb (py_eqb u u'))
                | _, _, _ => mret false
                end;
      if (foreign : bool) then
        actual ← pure (get_or "spec" (JObj []) (default JNull current));
        desired ← pure (get_or "spec" (JObj []) value);
        if matches_declared_fields actual desired then mret (inr tt)
        else throw (DeploymentError ("Retained " +:+ display_name r +:+ " differs from the submitted storage configuration; deploy the instance to apply storage changes before benchmarking"))
      else
      t ← now;
      if Qle_bool deadline t then throw (timed_out r) else
      payload ← pure (annotate operation_id value);
      made ← match current with
             | None => attempt r None (create_dependency payload)
             | Some current => mret (inr (current, cr))
             end;
      match made with
      | inl _ => mret (inl tt)
      | inr (object, cr) =>
          claimed ← attempt r (Some object) (claim_operation r object deadline);
          match claimed with
          | inl _ => mret (inl tt)
          | inr claimed =>
              refresh_receipt cr claimed ;;
              match claim_only, current with
              | false, Some _ => attempt r (Some claimed) (apply_dependency_config r deadline claimed payload)
              | _, _ => mret (inr tt)
              end
          end
      end
  end.

(** [_apply_dependency] *)
Definition apply_dependency (value : json) (claim_only : bool) : IO unit :=
  metadata ← pure (index "metadata" value);
  r ← pure (declared_ref value metadata);
  t ← now;
  let deadline := (t + inject_Z timeout)%Q in
  forever fuel (λ _ : unit, dependency_round value claim_only r deadline) tt.

(** ** Services *)

(** The execution-state patch, or the configuration to apply. *)
Definition service_payload (r : ResourceRef) (value : json) (patch : bool) (suspended : json)
    (current : option json) : outcome json :=
  payload ← match patch, current with
    | true, Some current =>
        v ← index "apiVersion" current;
        annotate operation_id (JObj [("apiVersion", v); ("kind", JStr (kind r));
          ("metadata", JObj [("name", JStr (name r)); ("namespace", JStr (namespace r))]);
          ("spec", JObj [("suspend", suspended)])])
    | _, _ =>
        payload ← edit_metadata (λ m,
          a ← get_or "annotations" (JObj []) m;
          a' ← pop_key SERVICE_OPERATION a;
          if has_key "annotations" m then set_key "annotations" a' m else Ok m) value;
        match current with
        | Some _ => if truthy suspended then Ok payload else edit_key "spec" (pop_key "suspend") payload
        | None => Ok payload
        end
    end;
  match current with
  | None => edit_metadata (set_key "resourceVersion" (JStr "0")) payload
  | Some current => fence current payload
  end.

(** [a is b] for decoded JSON: only the constants are shared objects. *)
Definition is_same (a b : json) : bool :=
  match a, b with
  | JNull, JNull => true
  | JBool x, JBool y => eqb x y
  | _, _ => false
  end.

(** The write of one round. *)
Definition service_call (r : ResourceRef) (patch : bool) (current : option json) (payload : json) : call :=
  match patch, current with
  | true, Some _ => MergePatch (kind r) (name r) (namespace r) payload
  | _, _ => ServerApply payload
  end.

(** One round of [_apply_service]. *)
Definition service_round (r : ResourceRef) (value : json) (patch : bool) (suspended : json) (deadline : Q)
    : IO (unit + unit) :=
  services ← current_services;
  match dget r services with
  | None => throw (KeyError (display_name r))
  | Some current =>
      payload ← pure (service_payload r value patch suspended current);
      t ← now;
      if Qle_bool deadline t then throw (timed_out r) else
      try_except
        (result ← run_json (service_call r patch current payload);
         s ← ask the;
         skip_unless (bool_decide (current = None) || dmem r (created s)) (set_created r result) ;;
         v ← pure (intent_version (Some result));
         set_committed r v ;;
         if patch && bool_decide (current = None) then mret (inl tt) else
         state ← pure (spec_get "suspend" JNull result);
         if patch && negb (is_same state suspended)
         then throw (DeploymentError "The platform does not support service suspension; update the platform first")
         else mret (inr tt))
        (λ e, if is_conflict e then Some (
           latest ← member r;
           match current, latest with
           | None, _ => throw e
           | Some current, Some latest =>
               v ← pure (meta_index "resourceVersion" latest);
               v' ← pure (meta_index "resourceVersion" current);
               if py_eqb v v' then throw e else mret (inl tt)
           | Some _, None => throw (TypeError "'NoneType' object is not subscriptable")
           end) else None)
  end.

(** [_apply_service] *)
Definition apply_service (r : ResourceRef) (value : json) (patch : bool) : IO unit :=
  t ← now;
  let deadline := (t + inject_Z timeout)%Q in
  suspended ← pure (s ← index "spec" value; get_or "suspend" (JBool false) s);
  forever fuel (λ _ : unit, service_round r value patch suspended deadline) tt.

(** ** [_submit] *)

(** Whether a rendered document is one of the expected services. *)
Definition classify_document (s : submission) (value : json) : outcome (ResourceRef * json + json) :=
  metadata0 ← get "metadata" value;
  r ← declared_ref value (or_ metadata0 (JObj []));
  v ← get "apiVersion" value;
  Ok (if dmem r (expected s) && startswith API_PREFIX (str_of (or_ v (JStr "")))
      then inl (r, value) else inr value).

(** The storage a stop adopts. *)
Definition adopted (s : submission) (value : json) : outcome (list json) :=
  k ← index "kind" value;
  if is_str "Namespace" k then Ok [] else
  metadata ← index "metadata" value;
  r ← declared_ref value metadata;
  Ok (if dmem r (expected s) then [] else [value]).

(** The stages of one service: suspend first, resume last. *)
Definition submit_service (patch_services : bool) (r : ResourceRef) (value : json) : IO unit :=
  s ← ask the;
  if dmem r (committed s) then mret tt else
  if patch_services then apply_service r value true else
  suspended ← pure (spec ← index "spec" value; get_or "suspend" (JBool false) spec);
  existed ← pure (match dget r (expected s) with
                  | Some e => Ok (bool_decide (is_Some e))
                  | None => if truthy suspended then Raise (KeyError (display_name r)) else Ok false
                  end);
  skip_unless (truthy suspended && existed) (apply_service r value true) ;;
  apply_service r value false ;;
  skip_unless (negb (truthy suspended)) (apply_service r value true).

Definition submit (rendered_ : string) (patch_services : bool) : IO unit :=
  match decode rendered_ with
  | None => throw (ValueError "YAMLError")
  | Some documents =>
      s ← ask the;
      sorted ← pure (outcome_map (classify_document s) documents);
      check ;;
      s ← ask the;
      dependencies ← (if patch_services
        then l ← pure (outcome_map (adopted s) (objects (s_deployment s))); mret (concat l)
        else mret (omap (λ d, match d with inr v => Some v | inl _ => None end) sorted));
      each dependencies (λ v, apply_dependency v patch_services) ;;
      each (omap (λ d, match d with inl e => Some e | inr _ => None end) sorted)
        (λ e, submit_service patch_services e.1 e.2)
  end.

(** [begin] and [apply] *)
Definition begin : IO unit :=
  prepare_instance ;;
  uid ← get_uid;
  hold uid begin_.
Definition apply (rendered_ : string) (patch_services : bool) : IO unit :=
  prepare_instance ;;
  uid ← get_uid;
  hold uid (begin_ ;; submit rendered_ patch_services).
End Submission.
