(* ===== verification/Lifecycle.v ===== *)
(** * Deployment lifecycle ([deployment/lifecycle.py])

    What [DeploymentLifecycle] does with a submission: selecting the controller,
    resolving storage, applying a deployment and waiting for it, and retiring
    what a temporary deployment created.  Source builds are a parameter of
    [apply_deployment]; the rollout wait polls the services with the readiness rules
    of [Status], without the startup log display. *)

From S2P Require Import Prelude Text Kube Manifest Effects Status Client Instances Submission.

Definition DIRECTORY_OWNER : string := "inference.foretoken.io/directory-owner".

Section Lifecycle.
Context {C : Type} `{Kubectl C} `{PythonRepr} `{Codec} `{JsonText}.
Abbreviation world := (world C (operation lifecycle)).
Abbreviation IO := (IO world).
Variable kustomize : kustomization → list json → outcome string.
(** [resolve_runtime_directory] *)
Variable resolve_directory : string → string → outcome string.
Variable fuel : nat.
Variables ns nm : string.
(** the command's [timeout] argument *)
Variable timeout : string.
Variable operation_id : json.

Definition set_retained : IO unit :=
  on_self (λ s, Operation (inst s) (Lifecycle (sub (owner s)) true)).

(** [with submission.mutation.hold()] *)
Definition holding {A} (body : IO A) : IO A := uid ← get_uid; hold uid body.

(** ** Preparing *)

(** [prepare_controller] *)
Definition prepare_controller (d : ForetokenDeployment) (source_revision : json) : IO json :=
  holding (check ns nm operation_id ;; request fuel ns nm d timeout operation_id source_revision) ;;
  revision ← wait_ready fuel ns nm timeout (check ns nm operation_id);
  check ns nm operation_id ;;
  mret revision.

(** [key in bindings] for a decoded value *)
Definition member_of (text : string) (bindings : json) : outcome bool :=
  match bindings with
  | JObj m => Ok (dmem text m)
  | JArr l => Ok (existsb (is_str text) l)
  | JStr s => Ok (contains text s)
  | _ => Raise (TypeError "argument is not iterable")
  end.

(** [_select_storage] for one object *)
Definition select_directory (root : option string) (granted : json) (document : json) : outcome json :=
  k ← index "kind" document;
  if negb (is_str "RuntimeCache" k) then Ok document else
  v ← text_index "apiVersion" document;
  if negb (startswith API_PREFIX v) then Ok document else
  document ← edit_metadata (λ m,
    a ← get_or "annotations" (JObj []) m;
    a' ← pop_key DIRECTORY_OWNER a;
    if has_key "annotations" m then set_key "annotations" a' m else Ok m) document;
  spec ← index "spec" document;
  dir ← get "directory" spec;
  if negb (truthy dir) then Ok document else
  match root, dir with
  | None, _ => Raise AssertionError
  | Some root, JStr dir =>
      resolved ← resolve_directory dir root;
      bindings ← index "directoryBindings" granted;
      known ← member_of resolved bindings;
      if (known : bool) then edit_key "spec" (set_key "directory" (JStr resolved)) document
      else Raise (DeploymentError ("The platform has no prepared storage for directory " +:+ resolved))
  | Some _, _ => Raise (TypeError "expected str, bytes or os.PathLike object")
  end.

Definition select_storage (d : ForetokenDeployment) (granted : json) : outcome ForetokenDeployment :=
  objs ← outcome_map (select_directory (path d) granted) (objects d);
  with_objects d objs.

(** ** Applying *)

(** [obj.get("kind") in {"ModelService", "FrontendService"} and ...] *)
Definition is_service (obj : json) : outcome bool :=
  k ← get "kind" obj;
  if is_str "ModelService" k || is_str "FrontendService" k then foretoken_object obj else Ok false.

(** [obj["spec"].setdefault("suspend", False)] *)
Definition with_suspend (obj : json) : outcome json :=
  b ← is_service obj;
  if (b : bool) then edit_key "spec" (default_key "suspend" (JBool false)) obj else Ok obj.

(** Services that must not run. *)
Definition stopped (obj : json) : outcome bool :=
  b ← is_service obj;
  if negb b then Ok false else r ← service_requires_execution obj; Ok (negb r).

(** [deploymentRevision] of a service that runs. *)
Definition select_revision (revision : json) (obj : json) : outcome json :=
  b ← is_service obj;
  if negb b then Ok obj else
  r ← service_requires_execution obj;
  if negb r then Ok obj else
  source ← annotation SOURCE_REVISION (JStr "") obj;
  edit_key "spec" (set_key "deploymentRevision"
    (JStr (str_of revision +:+ ":" +:+ str_of source))) obj.

(** The revisions the rollout must report. *)
Definition expected_revisions (objs : list json) : outcome (list (ResourceRef * json)) :=
  l ← outcome_map (λ obj,
    b ← is_service obj;
    if negb b then Ok [] else
    spec ← index "spec" obj;
    if negb (has_key "deploymentRevision" spec) then Ok [] else
    r ← resource_ref obj;
    v ← index "deploymentRevision" spec;
    Ok [(r, v)]) objs;
  Ok (concat l).

Fixpoint keep_if (p : json → outcome bool) (l : list json) : outcome (list json) :=
  match l with
  | [] => Ok []
  | x :: l => b ← p x; rest ← keep_if p l; Ok (if (b : bool) then x :: rest else rest)
  end.

(** What [EditableDeployment] contributes, when sources were selected. *)
Record source_build := SourceBuild {
  source_prepare : ForetokenDeployment → IO unit;
  source_revision : IO json;
  source_apply : ForetokenDeployment → json → IO ForetokenDeployment;
  source_verify : ForetokenDeployment → IO unit;
}.
Variable source : option source_build.
Variable seconds : Z.
Variable temporary : bool.

(** The stages up to the submission of the final configuration. *)
Definition submit_deployment (d : ForetokenDeployment) : IO (ForetokenDeployment * bool) :=
  init temporary d ;;
  begin kustomize fuel ns nm seconds operation_id temporary ;;
  d ← ask (λ w, s_deployment (the w));
  objs ← pure (outcome_map with_suspend (objects d));
  services ← pure (keep_if is_service objs);
  d ← pure (with_objects d objs);
  stopping ← pure (keep_if stopped objs);
  skip_unless (negb (bool_decide (stopping = [])))
    (apply kustomize fuel ns nm seconds operation_id temporary (encode stopping) false) ;;
  match source with Some s => source_prepare s d | None => mret tt end ;;
  src ← match source with Some s => source_revision s | None => mret (JStr "") end;
  revision ← prepare_controller d src;
  d ← match source with
      | Some s =>
          n ← controller_name;
          controller ← get_object "deployment" n (d_namespace d);
          source_apply s d controller
      | None => mret d
      end;
  granted ← access ns nm;
  d ← pure (select_storage d granted);
  objs ← pure (outcome_map (select_revision revision) (objects d));
  d ← pure (with_objects d objs);
  apply kustomize fuel ns nm seconds operation_id temporary (rendered d) false ;;
  mret (d, negb (Nat.eqb (length stopping) (length services))).

(** [read_progress] of [deployment/status.py] with its request *)
Definition observe_services (refs : list ResourceRef) (revisions : list (ResourceRef * json))
    : IO (list ResourceProgress) :=
  values ← get_resources refs;
  pure (read_progress refs values revisions).

(** Nested deadlines of [Kubectl.until]: the earlier one is in force. *)
Definition earlier (a b : Q) : Q := if Qle_bool a b then a else b.

(** The rollout wait of [_apply]: [wait_for_resources] with an [observe] that checks
    the ownership of the instance after every undecided poll. *)
Definition wait_round (refs : list ResourceRef) (revisions : list (ResourceRef * json)) (deadline : Q) (m : memory)
    : IO (memory + list ResourceProgress) :=
  t ← now;
  if Qle_bool deadline t then throw (DeploymentError (pending_text m.2 None)) else
  observed ← try_except (latest ← observe_services refs revisions; mret (Ok latest)) (λ e, Some (mret (Raise e)));
  t' ← now;
  match (wait_step deadline m (Poll t observed t')).2 with
  | inl m => _ ← now; check ns nm operation_id ;; _ ← now; mret (inl m)
  | inr (Converged latest) => mret (inr latest)
  | inr (WaitFailed e) => throw e
  | inr Waiting => throw AssertionError
  end.
Definition wait_for_rollout (refs : list ResourceRef) (revisions : list (ResourceRef * json)) : IO (list ResourceProgress) :=
  rollout_started ← now;
  secs ← pure (timeout_seconds timeout);
  _ ← now;
  t ← now;
  let deadline := earlier (rollout_started + inject_Z secs)%Q (t + inject_Z secs)%Q in
  forever fuel (wait_round refs revisions deadline) ([], []).

(** [_apply] *)
Definition apply_deployment (d : ForetokenDeployment) : IO ForetokenDeployment :=
  submitted ← submit_deployment d;
  let d := submitted.1 in
  refs ← pure (service_refs d);
  revisions ← pure (expected_revisions (objects d));
  wait_for_rollout refs revisions ;;
  match source with
  | Some s => skip_unless submitted.2 (source_verify s d)
  | None => mret tt
  end ;;
  current ← deployment ns nm false false;
  check ns nm operation_id ;;
  mret (Deployment (path d) (rendered current) (d_namespace current) (frontend current)
          (hostname current) (models current) (runtime_caches current) (objects current)
          (d_name current) (uid current)).

(** ** Retiring *)

(** [DeploymentMutation._read] of [kubernetes/mutation.py], the UID pinned *)
Definition mutation_read : IO json :=
  current ← get_object DEPLOYMENT_RESOURCE nm ns;
  del ← pure (deleting current);
  pinned ← get_uid;
  u ← pure (meta_index "uid" current);
  if (del : bool) || truthy pinned && negb (py_eqb u pinned)
  then throw (DeploymentError ("DeploymentSuperseded: deployment instance " +:+ nm +:+ " was replaced or deleted"))
  else mret current.

(** [DeploymentMutation.supersede]: a new operation identity under the held lock *)
Definition supersede (fresh : json) : IO unit :=
  start ← now;
  secs ← pure (timeout_seconds timeout);
  let deadline := (start + inject_Z secs)%Q in
  forever fuel (λ _ : unit,
    t ← now;
    if Qle_bool deadline t
    then throw (DeploymentError ("Timed out superseding deployment instance " +:+ nm)) else
    current ← mutation_read;
    u ← pure (meta_index "uid" current);
    v ← pure (meta_index "resourceVersion" current);
    try_except
      (_ ← run (MergePatch DEPLOYMENT_RESOURCE nm ns (claim_payload fresh u v None)); mret (inr tt))
      (λ e, if is_conflict e then Some (mret (inl tt)) else None)) tt.

(** [_delete_instance]; [mine] when a submission asks for it, otherwise [fresh]
    is the operation that supersedes pending submissions. *)
Definition delete_instance (fresh : json) (mine : bool) : IO unit :=
  current ← read ns nm false;
  match current with
  | None => mret tt
  | Some current =>
      del ← pure (deleting current);
      if (del : bool) then
        m ← pure (index "metadata" current);
        wait_deleted fuel DEPLOYMENT_RESOURCE m timeout
      else
      requested ← holding (
        if negb mine then supersede fresh ;; delete fuel ns nm timeout false ;; mret true else
        owned ← owns_instance ns nm operation_id;
        if negb (owned : bool) then set_retained ;; mret false
        else delete fuel ns nm timeout false ;; mret true);
      skip_unless requested (wait_instance_deleted fuel ns nm timeout)
  end.

(** [delete] *)
Definition delete_deployment (d : ForetokenDeployment) (fresh : json) : IO unit :=
  if negb (nonempty (uid d)) then mret tt else
  on_self (λ s, Operation (fresh_instance (uid d)) (owner s)) ;;
  delete_instance fresh false.

(** How one round of [_remove_created] ends: the object is gone, somebody else
    owns things now, the round is repeated, or the deletion is under way. *)
Inductive removal :=
  | Gone
  | Kept
  | Again
  | Requested (current : json).

(** The body under the lock. *)
Definition remove_round (r : ResourceRef) (obj : json) (deadline : Q) : IO removal :=
  owned ← owns_instance ns nm operation_id;
  if negb (owned : bool) then set_retained ;; mret Kept else
  current ← get_if_exists (kind r) (name r) (namespace r);
  match current with
  | None => mret Gone
  | Some current =>
      going ← pure (
        del ← deleting current;
        if negb del then Ok false else
        u ← meta_index "uid" current; u' ← meta_index "uid" obj; Ok (py_eqb u u'));
      if (going : bool) then mret (Requested current) else
      pinned ← get_uid;
      s ← ask the;
      mine ← pure (owns_created operation_id pinned s r (Some current));
      if negb (mine : bool) then set_retained ;; mret Kept else
      t ← now;
      try_except
        (delete_object fuel current (remaining_text deadline t) false "Foreground" true ;; mret (Requested current))
        (λ e, match deployment_error e with
              | None => None
              | Some _ => Some (
                  latest ← get_if_exists (kind r) (name r) (namespace r);
                  match latest with
                  | None => mret Gone
                  | Some latest =>
                      v ← pure (meta_index "resourceVersion" latest);
                      v' ← pure (meta_index "resourceVersion" current);
                      if py_eqb v v' then throw e else
                      t ← now;
                      if Qle_bool deadline t then throw e else mret Again
                  end)
              end)
  end.

(** One object: [false] stops the whole retirement. *)
Definition remove_object (obj : json) : IO bool :=
  r ← pure (resource_ref obj);
  t ← now;
  secs ← pure (timeout_seconds timeout);
  let deadline := (t + inject_Z secs)%Q in
  forever fuel (λ _ : unit,
    outcome ← holding (remove_round r obj deadline);
    match outcome with
    | Gone => mret (inr true)
    | Kept => mret (inr false)
    | Again => mret (inl tt)
    | Requested current =>
        m ← pure (index "metadata" current);
        wait_deleted fuel (kind r) m timeout ;;
        mret (inr true)
    end) tt.

Fixpoint remove_objects (objs : list json) : IO unit :=
  match objs with
  | [] => mret tt
  | obj :: objs => go ← remove_object obj; if (go : bool) then remove_objects objs else mret tt
  end.

(** Services first, caches last. *)
Definition removal_key (s : submission) (obj : json) : outcome (bool * bool * json) :=
  r ← resource_ref obj;
  k ← index "kind" obj;
  Ok (negb (dmem r (expected s)), is_str "RuntimeCache" k, obj).

(** [_remove_created] *)
Definition remove_created (objs : list json) : IO unit :=
  s ← ask the;
  keyed ← pure (outcome_map (removal_key s) objs);
  remove_objects (snd <$> sort_by fst keyed).

(** [cleanup_temporary], for a lifecycle that has a submission *)
Definition cleanup_temporary (retain_storage : bool) : IO unit :=
  s ← ask the;
  if bool_decide (created s = []) then mret tt else
  owned ← owns_instance ns nm operation_id;
  if negb (owned : bool) then mret tt else
  if dmem (root ns nm) (created s) && negb retain_storage
  then delete_instance JNull true else
  let excluded := INSTANCE_KIND :: if retain_storage then ["RuntimeCache"; "PersistentVolumeClaim"] else [] in
  let objs := snd <$> keep (λ e, negb (mem (kind e.1) excluded)) (created s) in
  remove_created objs ;;
  kept ← ask (λ w, retained (owner (self w)));
  if (kept : bool) then mret tt else
  holding (
    owned ← owns_instance ns nm operation_id;
    if negb (owned : bool) then mret tt else
    current ← read_required ns nm;
    removed ← pure (outcome_map resource_ref objs);
    s ← ask the;
    left ← pure (keep_if (λ obj, r ← resource_ref obj; Ok (negb (mem r removed))) (objects (s_deployment s)));
    spec ← pure (index "spec" current);
    update ← pure (index "updateID" spec);
    revision ← pure (get_or "controllerSourceRevision" (JStr "") spec);
    request fuel ns nm (replace_objects (s_deployment s) left (rendered (s_deployment s))) timeout update revision).
End Lifecycle.
