(* ===== verification/Endpoint.v ===== *)
(** * Public addresses of a frontend ([deployment/endpoint.py])

    Waiting for the frontend's Service or HTTPRoute and turning its published
    address into a URL. *)

From Stdlib Require Import Ascii.
From S2P Require Import Prelude Text Kube Manifest Effects Client Instances.

Record FrontendEndpoint := EndpointOf {
  url : string;
  routing_host : string;
}.

(** [_endpoint_url] *)
Definition default_port (scheme : string) : Z := if eqb scheme "https" then 443 else 80.
Definition authority (host : string) : string :=
  if has_char ":"%char host && negb (startswith "[" host) then "[" +:+ host +:+ "]" else host.
Definition endpoint_url (scheme host : string) (port : Z) : string :=
  scheme +:+ "://" +:+ authority host +:+
  if port =? default_port scheme then "" else ":" +:+ str_Z port.

(** [(value.get(k) or {})] *)
Definition section (k : string) (value : json) : outcome json :=
  v ← get k value; Ok (or_ v (JObj [])).

(** [has_ingress] *)
Definition has_ingress (value : json) : outcome bool :=
  status ← section "status" value;
  balancer ← section "loadBalancer" status;
  ingress ← get "ingress" balancer;
  Ok (truthy ingress).

(** A Gateway reference *)
Definition gateway_reference (item : json) : outcome bool :=
  k ← get_or "kind" (JStr "Gateway") item;
  if negb (is_str "Gateway" k) then Ok false else
  g ← get_or "group" (JStr "gateway.networking.k8s.io") item;
  Ok (is_str "gateway.networking.k8s.io" g).

(** [(value.get("spec") or {}).get("parentRefs") or []] *)
Definition parent_refs (value : json) : outcome (list json) :=
  spec ← section "spec" value;
  refs ← get "parentRefs" spec;
  elements (or_ refs (JArr [])).

(** [has_gateway_parent] *)
Definition has_gateway_parent (value : json) : outcome bool :=
  refs ← parent_refs value;
  any_of (λ item, b ← gateway_reference item;
                  if negb b then Ok false else n ← get "name" item; Ok (truthy n)) refs.

Section Endpoint.
Context {C T : Type} `{Kubectl C} `{PythonRepr} `{JsonText}.
Abbreviation IO := (IO (world C (operation T))).
Variable fuel : nat.

(** The object carries the UID of the deployment, when one is known. *)
Definition belongs (d : ForetokenDeployment) (value : json) : outcome bool :=
  if negb (nonempty (uid d)) then Ok true else
  l ← label DEPLOYMENT_UID_LABEL value; Ok (is_str (uid d) l).

Definition foreign_object (what : string) (d : ForetokenDeployment) : exn :=
  DeploymentError (what +:+ "/" +:+ frontend d +:+ " does not belong to deployment instance " +:+ d_name d).

(** The address of a LoadBalancer Service with an ingress. *)
Definition balancer_address (d : ForetokenDeployment) (service : json) : outcome FrontendEndpoint :=
  status ← index "status" service;
  balancer ← index "loadBalancer" status;
  ingress0 ← index "ingress" balancer;
  ingress ← match ingress0 with
            | JArr (x :: _) => Ok x
            | JArr [] => Raise IndexError
            | _ => Raise (KeyError "0")
            end;
  ip ← get "ip" ingress;
  host ← get "hostname" ingress;
  let address := strip (str_of (or_ ip (or_ host (JStr "")))) in
  if negb (nonempty address)
  then Raise (DeploymentError ("service/" +:+ frontend d +:+ " has an empty LoadBalancer address")) else
  spec ← section "spec" service;
  ports0 ← get "ports" spec;
  ports ← elements (or_ ports0 (JArr []));
  named ← find_first (λ item, n ← get "name" item; Ok (is_str "http" n)) ports;
  let chosen := match named with Some p => Some p | None => head ports end in
  let missing := DeploymentError ("service/" +:+ frontend d +:+ " has no public HTTP port") in
  match chosen with
  | None => Raise missing
  | Some item =>
      if negb (truthy item) then Raise missing else
      p ← get "port" item;
      if negb (truthy p) then Raise missing else
      p ← index "port" item;
      n ← int_of p;
      Ok (EndpointOf (endpoint_url "http" address n) "")
  end.

(** [_load_balancer_endpoint] *)
Definition load_balancer_endpoint (d : ForetokenDeployment) (service : json) (deadline : Q)
    : IO FrontendEndpoint :=
  ready ← pure (has_ingress service);
  service ← (if (ready : bool) then mret service else
    wait_for_object fuel
      (v ← get_object "service" (frontend d) (d_namespace d); mret (Some v)) has_ingress deadline
      ("LoadBalancer address for service/" +:+ frontend d +:+ " in namespace " +:+ d_namespace d));
  mine ← pure (belongs d service);
  if negb (mine : bool) then throw (foreign_object "service" d) else
  pure (balancer_address d service).

(** The route's hostname and Gateway: namespace, name and section. *)
Definition route_parent (d : ForetokenDeployment) (route : json)
    : outcome (json * (string * string * string)) :=
  spec ← section "spec" route;
  hosts0 ← get "hostnames" spec;
  hosts ← elements (or_ hosts0 (JArr []));
  match hosts with
  | [host] =>
      parents ← parent_refs route;
      parent ← find_first gateway_reference parents;
      match parent with
      | None => Raise (DeploymentError ("httproute/" +:+ frontend d +:+ " has no Gateway parent"))
      | Some parent =>
          n ← get "name" parent;
          if negb (truthy n)
          then Raise (DeploymentError ("httproute/" +:+ frontend d +:+ " has no Gateway parent")) else
          s ← get "namespace" parent;
          section_ ← get "sectionName" parent;
          Ok (host, (str_of (or_ s (JStr (d_namespace d))), str_of n, str_of (or_ section_ (JStr ""))))
      end
  | _ => Raise (DeploymentError ("HTTPRoute/" +:+ frontend d +:+ " has no single published routing hostname"))
  end.

(** The URL for the access the controller published for that Gateway. *)
Definition gateway_url (d : ForetokenDeployment) (host : json) (gateway : string * string * string)
    (published : json) : outcome FrontendEndpoint :=
  let stale := DeploymentError ("Gateway access for deployment instance " +:+ d_name d +:+ " is not current; redeploy the instance") in
  if negb (truthy published) then Raise stale else
  s ← index "namespace" published;
  n ← index "name" published;
  x ← index "sectionName" published;
  if negb (is_str gateway.1.1 s && is_str gateway.1.2 n && is_str gateway.2 x) then Raise stale else
  address ← index "address" published;
  scheme ← index "scheme" published;
  port ← index "port" published;
  p ← int_of port;
  if is_str "https" scheme then
    if negb (nonempty (hostname d))
    then Raise (DeploymentError "HTTPS Gateway access requires spec.hostname matching the listener certificate")
    else Ok (EndpointOf (endpoint_url "https" (str_of host) p) "")
  else Ok (EndpointOf (endpoint_url (str_of scheme) (str_of address) p) (str_of host)).

(** [_gateway_endpoint] *)
Definition gateway_endpoint (d : ForetokenDeployment) (deadline : Q) : IO FrontendEndpoint :=
  route ← wait_for_object fuel (get_if_exists "httproute" (frontend d) (d_namespace d))
            has_gateway_parent deadline ("HTTPRoute for frontendservice/" +:+ frontend d);
  mine ← pure (belongs d route);
  if negb (mine : bool) then throw (foreign_object "HTTPRoute" d) else
  parent ← pure (route_parent d route);
  on_self (λ s, Operation (fresh_instance (uid d)) (owner s)) ;;
  granted ← access (d_namespace d) (d_name d);
  published ← pure (index "gateway" granted);
  pure (gateway_url d parent.1 parent.2 published).

(** [resolve_frontend_endpoint] *)
Definition resolve_frontend_endpoint (d : ForetokenDeployment) (timeout : string) : IO FrontendEndpoint :=
  if negb (nonempty (frontend d))
  then throw (DeploymentError ("Deployment instance " +:+ d_name d +:+ " retains storage but has no frontend")) else
  t ← now;
  secs ← pure (timeout_seconds timeout);
  let deadline := (t + inject_Z secs)%Q in
  service ← wait_for_object fuel (get_if_exists "service" (frontend d) (d_namespace d))
              (λ v, Ok (truthy v)) deadline ("service/" +:+ frontend d);
  mine ← pure (belongs d service);
  if negb (mine : bool) then throw (foreign_object "service" d) else
  kind_ ← pure (spec ← section "spec" service; get "type" spec);
  if is_str "LoadBalancer" kind_ then load_balancer_endpoint d service deadline
  else gateway_endpoint d deadline.
End Endpoint.
