(* ===== verification/Fencing.v ===== *)
(** * Fenced writes

    The trace of a command is fenced when every write in it names the UID and the
    resource version of an object the cluster has shown before, or creates an
    object that must not exist yet.  [safe] is the proof rule for it: it says of a
    command which objects it relies on having been shown and which it adds.
    Commands that need nothing ([calm]) are proved by their syntax. *)

From S2P Require Import Prelude Text Kube Manifest Effects Client Instances Submission.

(** ** Traces *)

(** The cluster has shown the object [v]: as an answer, or as an item of a list
    it has shown. *)
Inductive shown (tr : list (call * reply)) : json → Prop :=
  | shown_reply c j : (c, Output (Some j)) ∈ tr → shown tr j
  | shown_item m l v : shown tr (JObj m) → dget "items" m = Some (JArr l) → v ∈ l → shown tr v.

Lemma shown_cons tr e v : shown tr v → shown (e :: tr) v.
Proof.
  induction 1 as [c j Hin|m l v _ IH Hi Hv]; [eapply shown_reply; by right|by eapply shown_item].
Qed.

Lemma shown_here tr c j : shown ((c, Output (Some j)) :: tr) j.
Proof. eapply shown_reply. left. Qed.

(** The identity a write requires is the one [v] was shown with. *)
Definition same_fence (p v : json) : Prop :=
  ∃ u rv, meta_index "uid" v = Ok u ∧ meta_index "resourceVersion" v = Ok rv ∧
    meta_index "uid" p = Ok u ∧ meta_index "resourceVersion" p = Ok rv.

(** The preconditions of a deletion. *)
Definition deletes (options v : json) : Prop :=
  ∃ u rv propagation, meta_index "uid" v = Ok u ∧ meta_index "resourceVersion" v = Ok rv ∧
    options = delete_options u (Some rv) propagation.

Definition fenced (tr : list (call * reply)) (c : call) : Prop :=
  match c with
  | MergePatch _ _ _ p => ∃ v, shown tr v ∧ same_fence p v
  | ServerApply p => (∃ v, shown tr v ∧ same_fence p v) ∨ meta_index "resourceVersion" p = Ok (JStr "0")
  | CreateObject p => meta_index "resourceVersion" p = Raise (KeyError "resourceVersion")
  | DeleteRaw _ o => ∃ v, shown tr v ∧ deletes o v
  | ApplyDocuments _ | DeleteDocuments _ | ReplaceObject _ | DeleteSelected _ _ => False
  | _ => True
  end.

(** Every call of the trace, newest first, is fenced by what came before it. *)
Fixpoint all_fenced (tr : list (call * reply)) : Prop :=
  match tr with
  | [] => True
  | (c, _) :: tr => fenced tr c ∧ all_fenced tr
  end.

(** Calls that only read, or acquire and release the lock. *)
Definition harmless (c : call) : bool := negb (is_write c).

Lemma harmless_fenced tr c : harmless c = true → fenced tr c.
Proof. by destruct c. Qed.

(** ** Documents *)

Lemma meta_index_Ok k d m v : index "metadata" d = Ok m → index k m = Ok v → meta_index k d = Ok v.
Proof. intros Hm Hk. unfold meta_index. rewrite Hm. exact Hk. Qed.

Lemma fence_same_fence current payload p : fence current payload = Ok p → same_fence p current.
Proof.
  unfold fence. intros (u & Hu & (rv & Hv & He)%outcome_bind_Ok)%outcome_bind_Ok.
  apply edit_metadata_index in He as (m & m' & _ & Hf & Hm').
  apply outcome_bind_Ok in Hf as (m1 & H1 & H2).
  exists u, rv. split_and!; [done..| |].
  - eapply meta_index_Ok; [done|]. rewrite (index_set_key_ne "resourceVersion" "uid" rv m1 m' ltac:(done) H2). by eapply index_set_key.
  - eapply meta_index_Ok; [done|]. by eapply index_set_key.
Qed.

Lemma dget_ddel_same {V} k (m : list (string * V)) : dget k (ddel k m) = None.
Proof.
  apply dget_None. intros ((k' & v) & -> & Hin)%list_elem_of_fmap. unfold ddel in Hin.
  apply elem_of_keep in Hin as [Hk _]. simpl in Hk. by rewrite eqb_refl in Hk.
Qed.

Lemma popped_version payload p :
  edit_metadata (pop_key "resourceVersion") payload = Ok p →
  meta_index "resourceVersion" p = Raise (KeyError "resourceVersion").
Proof.
  intros (m & m' & _ & Hf & Hm')%edit_metadata_index. unfold meta_index. rewrite Hm'. simpl.
  destruct m; try done. simpl in Hf. injection Hf as <-. simpl. by rewrite dget_ddel_same.
Qed.

(** ** Fenced commands *)

Section Fencing.
Context {C S : Type} `{Kubectl C}.
Abbreviation world := (world C S).
Abbreviation IO := (IO world).

(** Run in a world where the objects of [K] have been shown, [m] adds only fenced
    calls; when it returns [a], then [F a] holds and [new a] has been shown. *)
Definition safe {A} (K : list json) (m : IO A) (new : A → list json) (F : A → Prop) : Prop :=
  ∀ w, all_fenced (trace w) → (∀ v, v ∈ K → shown (trace w) v) →
    let '(r, w') := m w in
    all_fenced (trace w') ∧ (∃ ext, trace w' = ext ++ trace w) ∧
    match r with Returned a => F a ∧ ∀ v, v ∈ new a → shown (trace w') v | _ => True end.

(** [m] shows nothing new that matters. *)
Definition calm {A} (m : IO A) : Prop := ∀ K, safe K m (λ _, []) (λ _, True).

Lemma shown_app tr ext v : shown tr v → shown (ext ++ tr) v.
Proof. intros Hv. induction ext as [|e ext IH]; [done|]. by apply shown_cons. Qed.

Lemma safe_ret {A} K (a : A) new F : F a → new a ⊆ K → safe K (mret a) new F.
Proof. intros HF HK w Hf Hs. split_and!; [done|by exists []|done|]. intros v Hv. by apply Hs, HK. Qed.

Lemma safe_throw {A} K e new (F : A → Prop) : safe K (throw e) new F.
Proof. intros w Hf Hs. split_and!; [done|by exists []|done]. Qed.

Lemma safe_bind {A B} K (m : IO A) (k : A → IO B) R G new F :
  safe K m R G → (∀ a, G a → safe (R a ++ K) (k a) new F) → safe K (m ≫= k) new F.
Proof.
  intros Hm Hk w Hf Hs. unfold mbind, IO_bind. specialize (Hm w Hf Hs).
  destruct (m w) as [[a|e|] w1]; destruct Hm as (Hf1 & [ext E1] & H1); [|by eauto..].
  destruct H1 as [HG HR].
  assert (∀ v, v ∈ R a ++ K → shown (trace w1) v) as Hs1.
  { intros v [Hv|Hv]%elem_of_app; [by apply HR|]. rewrite E1. apply shown_app. by apply Hs. }
  specialize (Hk a HG w1 Hf1 Hs1). destruct (k a w1) as [r w2].
  destruct Hk as (Hf2 & [ext' E2] & H2). split_and!; [done| |done].
  exists (ext' ++ ext). by rewrite E2, E1, app_assoc.
Qed.

Lemma safe_weaken {A} K K' (m : IO A) new new' (F F' : A → Prop) :
  safe K m new F → K ⊆ K' → (∀ a, F a → F' a ∧ new' a ⊆ new a ++ K') → safe K' m new' F'.
Proof.
  intros Hm HK HF w Hf Hs. specialize (Hm w Hf (λ v Hv, Hs v (HK v Hv))).
  destruct (m w) as [[a|e|] w1]; destruct Hm as (Hf1 & [ext E1] & H1); [|by eauto..].
  destruct H1 as [HFa Hnew]. destruct (HF a HFa) as [HF' Hsub].
  split_and!; [done|by exists ext|done|]. intros v [Hv|Hv]%Hsub%elem_of_app; [by apply Hnew|].
  rewrite E1. by apply shown_app, Hs.
Qed.

(** Sequencing after a calm command, and forgetting a result. *)
Lemma safe_calm {A B} K (m : IO A) (k : A → IO B) new F :
  calm m → (∀ a, safe K (k a) new F) → safe K (m ≫= k) new F.
Proof. intros Hm Hk. eapply safe_bind; [apply Hm|]. intros a _. apply Hk. Qed.

Lemma calm_of {A} (m : IO A) new F : (∀ K, safe K m new F) → calm m.
Proof.
  intros Hm K. eapply safe_weaken; [apply (Hm K)|done|]. intros a _. split; [done|]. apply list_subseteq_nil.
Qed.

Lemma safe_pure {A B} K (r : outcome A) (k : A → IO B) new F :
  (∀ a, r = Ok a → safe K (k a) new F) → safe K (pure r ≫= k) new F.
Proof.
  intros Hk w Hf Hs. unfold mbind, IO_bind, pure. destruct r as [a|e]; [by apply Hk|].
  split_and!; [done|by exists []|done].
Qed.

Lemma safe_try {A} K (m : IO A) h new F :
  safe K m new F → (∀ e k, h e = Some k → safe K k new F) → safe K (try_except m h) new F.
Proof.
  intros Hm Hh w Hf Hs. unfold try_except. specialize (Hm w Hf Hs).
  destruct (m w) as [[a|e|] w1]; destruct Hm as (Hf1 & [ext E1] & H1); [by eauto..| |by eauto].
  destruct (h e) as [k|] eqn:Eh; [|by eauto].
  assert (∀ v, v ∈ K → shown (trace w1) v) as Hs1.
  { intros v Hv. rewrite E1. by apply shown_app, Hs. }
  specialize (Hh e k Eh w1 Hf1 Hs1). destruct (k w1) as [r w2].
  destruct Hh as (Hf2 & [ext' E2] & H2). split_and!; [done| |done].
  exists (ext' ++ ext). by rewrite E2, E1, app_assoc.
Qed.

Lemma safe_finally {A} K (m : IO A) c new F :
  safe K m new F → calm c → safe K (try_finally m c) new F.
Proof.
  intros Hm Hc w Hf Hs. unfold try_finally. specialize (Hm w Hf Hs).
  destruct (m w) as [r w1]. destruct Hm as (Hf1 & [ext E1] & H1).
  specialize (Hc [] w1 Hf1 ltac:(by intros v Hv%elem_of_nil)).
  destruct (c w1) as [rc w2]. destruct Hc as (Hf2 & [ext' E2] & _).
  assert (∃ ext, trace w2 = ext ++ trace w) as Hext.
  { exists (ext' ++ ext). by rewrite E2, E1, app_assoc. }
  destruct r as [a|e|]; [|destruct rc; by eauto|by eauto].
  destruct rc; [|by eauto..]. split_and!; [done..|apply H1|].
  intros v Hv. rewrite E2. by apply shown_app, H1.
Qed.

Lemma safe_forever {St A} K fuel (body : St → IO (St + A)) s (Known : St → list json) new F :
  (∀ s, safe (Known s ++ K) (body s)
          (λ r, match r with inl s' => Known s' | inr a => new a end)
          (λ r, match r with inl _ => True | inr a => F a end)) →
  safe (Known s ++ K) (forever fuel body s) new F.
Proof.
  intros Hb. revert s. induction fuel as [|fuel IH]; intros s.
  - intros w Hf Hs. split_and!; [done|by exists []|done].
  - eapply safe_bind; [apply Hb|]. intros [s'|a] HG; simpl in *.
    + eapply safe_weaken; [apply IH|set_solver|]. intros a HF. split; [done|set_solver].
    + apply safe_ret; [done|set_solver].
Qed.

(** ** Calm commands *)

Lemma calm_now : calm now.
Proof. intros K w Hf Hs. split_and!; [done|by exists []|done|]. by intros v Hv%elem_of_nil. Qed.
Lemma calm_ask {A} (f : world → A) : calm (ask f).
Proof. intros K w Hf Hs. split_and!; [done|by exists []|done|]. by intros v Hv%elem_of_nil. Qed.
Lemma calm_self f : calm (on_self f).
Proof. intros K w Hf Hs. split_and!; [done|by exists []|done|]. by intros v Hv%elem_of_nil. Qed.
Lemma calm_ret {A} (a : A) : calm (mret a).
Proof. intros K. apply safe_ret; [done|apply list_subseteq_nil]. Qed.
Lemma calm_throw {A} e : calm (throw (A:=A) e).
Proof. intros K. apply safe_throw. Qed.
Lemma calm_lift {A} (r : outcome A) : calm (pure r).
Proof. intros K. destruct r; [apply calm_ret|apply calm_throw]. Qed.
Lemma calm_bind {A B} (m : IO A) (k : A → IO B) : calm m → (∀ a, calm (k a)) → calm (m ≫= k).
Proof. intros Hm Hk K. apply safe_calm; [done|]. intros a. apply Hk. Qed.
Lemma calm_skip b m : calm m → calm (skip_unless b m).
Proof. intros Hm. destruct b; [done|apply calm_ret]. Qed.
Lemma calm_each {A} (l : list A) f : (∀ x, x ∈ l → calm (f x)) → calm (each l f).
Proof.
  induction l as [|x l IH]; intros Hf; simpl; [apply calm_ret|].
  apply calm_bind; [apply Hf; left|]. intros _. apply IH. intros y Hy. apply Hf. by right.
Qed.
Lemma calm_try {A} (m : IO A) h : calm m → (∀ e k, h e = Some k → calm k) → calm (try_except m h).
Proof. intros Hm Hh K. apply safe_try; [apply Hm|]. intros e k E. by apply (Hh e k E). Qed.
Lemma calm_finally {A} (m : IO A) c : calm m → calm c → calm (try_finally m c).
Proof. intros Hm Hc K. by apply safe_finally. Qed.
Lemma calm_forever {St A} fuel (body : St → IO (St + A)) s : (∀ s, calm (body s)) → calm (forever fuel body s).
Proof.
  intros Hb K. apply (safe_forever K fuel body s (λ _, [])). intros s'.
  eapply safe_weaken; [apply Hb|done|]. intros [?|?] _; split; try done; apply list_subseteq_nil.
Qed.

(** ** Calls *)

Lemma run_safe K c :
  (∀ tr, (∀ v, v ∈ K → shown tr v) → fenced tr c) →
  safe K (run c) (λ r, match r with Some (Some j) => [j] | _ => [] end) (λ _, True).
Proof.
  intros Hc w Hf Hs. unfold run. destruct (serve c (cluster w)) as [r c'].
  assert (all_fenced ((c, r) :: trace w)) as Hf' by (split; [by apply Hc|done]).
  destruct r as [[j|]| |]; split_and!; try done; try (by exists [(c, Output (Some j))]);
    try (by eexists [_]); simpl.
  - intros v ->%list_elem_of_singleton. apply shown_here.
  - by intros v Hv%elem_of_nil.
  - by intros v Hv%elem_of_nil.
Qed.

Lemma run_calm c : harmless c = true → calm (run c).
Proof. intros Hc. eapply calm_of. intros K. apply run_safe. intros tr _. by apply harmless_fenced. Qed.

Lemma run_json_safe K c :
  (∀ tr, (∀ v, v ∈ K → shown tr v) → fenced tr c) → safe K (run_json c) (λ j, [j]) (λ _, True).
Proof.
  intros Hc. eapply safe_bind; [by apply run_safe|].
  intros [[j|]|] _; [apply safe_ret; [done|set_solver]|apply safe_throw..].
Qed.

Lemma decode_object_safe K o :
  safe (match o with Some (Some j) => [j] | _ => [] end ++ K) (decode_object o) (λ j, [j]) (λ _, True).
Proof.
  destruct o as [[j|]|]; simpl; [|apply safe_throw..].
  destruct (is_dict j); [apply safe_ret; [done|set_solver]|apply safe_throw].
Qed.

Lemma get_object_safe K k n s : safe K (get_object k n s) (λ j, [j]) (λ _, True).
Proof.
  eapply safe_bind; [apply run_safe; intros; by apply harmless_fenced|].
  intros o _. apply decode_object_safe.
Qed.

Lemma get_if_exists_safe K k n s : safe K (get_if_exists k n s) option_list (λ _, True).
Proof.
  eapply safe_bind; [apply run_safe; intros; by apply harmless_fenced|].
  assert (∀ o, safe (match o with Some (Some j) => [j] | _ => [] end ++ K)
            (j ← decode_object o; mret (Some j)) option_list (λ _, True)) as Hd.
  { intros o. eapply safe_bind; [apply decode_object_safe|]. intros j _.
    apply safe_ret; [done|]. simpl. set_solver. }
  intros [[j|]|] _; [apply (Hd (Some (Some j)))|apply safe_ret; [done|apply list_subseteq_nil]|apply (Hd None)].
Qed.

(** The items of a list answer are shown. *)
Lemma decode_list_safe K o :
  safe (match o with Some (Some j) => [j] | _ => [] end ++ K) (decode_resource_list o) id (λ _, True).
Proof.
  eapply safe_bind; [apply decode_object_safe|]. intros j _. apply safe_pure. intros items Hi.
  destruct (or_ items (JArr [])) as [| | | | |l|] eqn:E; try apply safe_throw.
  destruct (forallb is_dict l); [|apply safe_throw].
  intros w Hf Hs. split_and!; [done|by exists []|done|]. intros v Hv.
  unfold or_ in E. destruct (truthy items); [subst|injection E as <-; by apply elem_of_nil in Hv].
  destruct j as [| | | | | |m]; try done. unfold get, get_or in Hi. injection Hi as Hi.
  destruct (dget "items" m) eqn:Ei; [|done]. simpl in Hi. subst.
  eapply shown_item; [apply Hs; left|done|done].
Qed.

Lemma get_resources_safe K refs : safe K (get_resources refs) id (λ _, True).
Proof.
  unfold get_resources. destruct (distinct _) as [|? [|? ?]]; try apply safe_throw.
  assert (safe K (r ← run (GetObjects refs true);
            match r with Some None => mret [] | r => decode_resource_list r end) id (λ _, True)) as Hmany.
  { eapply safe_bind; [apply run_safe; intros; by apply harmless_fenced|].
    intros [[j|]|] _; [apply (decode_list_safe K (Some (Some j)))|apply safe_ret; [done|apply list_subseteq_nil]|apply (decode_list_safe K None)]. }
  destruct refs as [|r [|r' refs]]; [exact Hmany| |exact Hmany].
  eapply safe_bind; [apply get_if_exists_safe|]. intros v _. apply safe_ret; [done|set_solver].
Qed.

Lemma get_if_exists_calm k n s : calm (get_if_exists k n s).
Proof. eapply calm_of. intros K. apply get_if_exists_safe. Qed.
Lemma get_resources_calm refs : calm (get_resources refs).
Proof. eapply calm_of. intros K. apply get_resources_safe. Qed.
Lemma get_object_calm k n s : calm (get_object k n s).
Proof. eapply calm_of. intros K. apply get_object_safe. Qed.
End Fencing.

Create HintDb calm discriminated.
#[export] Hint Resolve calm_now calm_ask calm_self calm_ret calm_throw calm_lift get_if_exists_calm
  get_resources_calm get_object_calm : calm.

Ltac calm_step :=
  match goal with
  | |- calm (mbind _ _) => apply calm_bind; [|intros ?]
  | |- calm (skip_unless _ _) => apply calm_skip
  | |- calm (try_finally _ _) => apply calm_finally
  | |- calm (forever _ _ _) => apply calm_forever; intros ?
  | |- calm (each _ _) => apply calm_each; intros ? ?
  | |- calm (match ?x with _ => _ end) => destruct x
  | |- calm _ => solve [auto with calm]
  end.
Ltac calm_auto := intros; cbv zeta; repeat calm_step.
