(* ===== verification/SubmissionProofs.v ===== *)
(** * Properties of deployment submission

    Every write a submission issues is fenced; service writes directly follow an
    observation in which the instance still belongs to the operation and every
    expected service has the intent the submission last saw; the identity of the
    instance is pinned; retained storage is compared field by field. *)

From S2P Require Import Prelude Text Kube Manifest Effects Client Instances Submission Fencing.

(** ** Instances *)

Section InstanceWrites.
Context {C T : Type} `{Kubectl C} `{PythonRepr} `{Codec} `{JsonText}.
Abbreviation IO := (IO (world C (operation T))).
Variable kustomize : kustomization → list json → outcome string.
Variable fuel : nat.
Variables ns nm : string.
Implicit Types K : list json.

Lemma set_uid_calm u : calm (set_uid u : IO unit).
Proof. apply calm_self. Qed.
Lemma set_resource_calm v : calm (set_resource v : IO unit).
Proof. apply calm_self. Qed.
Lemma get_uid_calm : calm (get_uid : IO json).
Proof. apply calm_ask. Qed.
Lemma get_resource_calm : calm (get_resource : IO (option json)).
Proof. apply calm_ask. Qed.
#[local] Hint Resolve set_uid_calm set_resource_calm get_uid_calm get_resource_calm : calm.

Lemma read_safe K required :
  safe K (read ns nm required : IO (option json)) option_list (λ _, True).
Proof.
  eapply safe_bind; [apply get_if_exists_safe|]. intros [current|] _; simpl.
  - apply safe_pure. intros u Hu. apply safe_calm; [auto with calm|]. intros pinned.
    destruct (truthy pinned && _); [apply safe_throw|].
    apply safe_calm; [auto with calm|]. intros _. apply safe_calm; [auto with calm|]. intros _.
    apply safe_ret; [done|]. simpl. set_solver.
  - destruct required; [apply safe_throw|]. apply safe_ret; [done|]. apply list_subseteq_nil.
Qed.

Lemma read_required_safe K : safe K (read_required ns nm : IO json) (λ j, [j]) (λ _, True).
Proof.
  eapply safe_bind; [apply read_safe|]. intros [current|] _; [|apply safe_throw].
  apply safe_ret; [done|]. simpl. set_solver.
Qed.

(** What [read] returns has the pinned UID. *)
Lemma read_uid required :
  hoare (λ _, True) (read ns nm required : IO (option json))
    (λ r w, ∀ v, r = Some v → meta_index "uid" v = Ok (i_uid (inst (self w))) ∧
                              i_resource (inst (self w)) = Some v) (λ _, True).
Proof.
  unfold read. eapply hoare_bind with (R := λ _ _, True).
  { intros w _. by destruct (get_if_exists _ _ _ w) as [[]]. }
  intros [current|].
  - eapply hoare_bind with (R := λ u w, meta_index "uid" current = Ok u); [by apply hoare_pure|].
    intros u. eapply hoare_bind with (R := λ _ _, meta_index "uid" current = Ok u); [by apply hoare_ask|].
    intros pinned. destruct (truthy pinned && _); [by apply hoare_throw|].
    eapply hoare_bind with (R := λ _ w, meta_index "uid" current = Ok (i_uid (inst (self w)))).
    { apply hoare_change. intros w Hu. exact Hu. }
    intros []. eapply hoare_bind with (R := λ _ w, meta_index "uid" current = Ok (i_uid (inst (self w))) ∧
                          i_resource (inst (self w)) = Some current).
    { apply hoare_change. intros w Hu. by split. }
    intros []. apply hoare_ret. intros w Hw v [= <-]. exact Hw.
  - destruct required; [by apply hoare_throw|]. by apply hoare_ret.
Qed.

Lemma read_pinned_safe K :
  safe K (read_pinned ns nm : IO (json * json)) (λ p, [p.1]) (λ p, meta_index "uid" p.1 = Ok p.2).
Proof.
  intros w Hf Hs. unfold read_pinned, read_required.
  pose proof (read_safe K true w Hf Hs) as Hr. pose proof (read_uid true w I) as Hu.
  unfold mbind, IO_bind. destruct (read ns nm true w) as [[[v|]|e|] w']; [|by naive_solver..].
  destruct Hr as (Hf' & Hext & _ & Hv). simpl. split_and!; [done..|by apply Hu|].
  intros x ->%list_elem_of_singleton. apply Hv. by left.
Qed.

Lemma read_calm required : calm (read ns nm required : IO (option json)).
Proof. eapply calm_of. intros K. apply read_safe. Qed.
Lemma read_required_calm : calm (read_required ns nm : IO json).
Proof. eapply calm_of. intros K. apply read_required_safe. Qed.
#[local] Hint Resolve read_calm read_required_calm : calm.

Lemma wait_deleted_calm resource metadata timeout :
  calm (wait_deleted fuel resource metadata timeout : IO unit).
Proof. unfold wait_deleted. calm_auto. Qed.
#[local] Hint Resolve wait_deleted_calm : calm.

(** A deletion is fenced by the object it was given. *)
Lemma delete_object_safe K v timeout wait propagation :
  v ∈ K → safe K (delete_object fuel v timeout wait propagation true : IO unit) (λ _, []) (λ _, True).
Proof.
  intros Hv. unfold delete_object. apply safe_pure. intros metadata Hm. apply safe_pure. intros version _.
  eapply safe_calm; [eapply calm_of; intros; apply run_json_safe; intros; by apply harmless_fenced|].
  intros found. apply safe_pure. intros resources _. apply safe_pure. intros k _.
  apply safe_pure. intros [resource|] _; [|apply safe_throw].
  apply safe_pure. intros namespaced _. apply safe_calm; [calm_auto|]. intros scope_.
  apply safe_pure. intros rname _. apply safe_pure. intros n _. apply safe_pure. intros u Hu.
  eapply safe_bind with (R := λ _, []) (G := λ rv, ∃ x, rv = Some x ∧ index "resourceVersion" metadata = Ok x).
  { apply safe_pure. intros x Hx. apply safe_ret; [by exists x|apply list_subseteq_nil]. }
  intros rv (x & -> & Hx). simpl. eapply safe_bind; [apply run_safe|].
  - intros tr Htr. exists v. split; [by apply Htr|]. exists u, x, propagation.
    split_and!; [by eapply meta_index_Ok..|done].
  - intros o _. apply calm_skip, wait_deleted_calm.
Qed.

(** Creating the record. *)
Lemma ensure_calm d : calm (ensure ns nm d : IO bool).
Proof.
  unfold ensure. apply calm_bind; [auto with calm|]. intros [current|]; [calm_auto|].
  apply calm_bind; [auto with calm|]. intros pinned. destruct (truthy pinned); [auto with calm|].
  apply calm_bind; [auto with calm|]. intros refs. cbv zeta.
  apply calm_bind; [|intros found; calm_auto]. apply calm_try.
  - apply calm_bind; [|calm_auto]. eapply calm_of. intros K. apply run_json_safe. done.
  - intros e k. destruct (deployment_error e); [|done]. destruct (contains _ _); [|done].
    intros [= <-]. calm_auto.
Qed.

(** The update request. *)
Lemma request_calm d timeout update revision : calm (request fuel ns nm d timeout update revision : IO unit).
Proof.
  unfold request. apply calm_bind; [auto with calm|]. intros start. apply calm_bind; [auto with calm|].
  intros secs. cbv zeta. apply calm_forever. intros _. apply calm_bind; [auto with calm|]. intros t.
  destruct (Qle_bool _ t); [auto with calm|]. intros K.
  eapply safe_bind; [apply read_pinned_safe|]. intros [current u] Hu. simpl in *.
  apply safe_pure. intros del _. destruct del; [apply safe_throw|].
  apply safe_pure. intros rv Hrv. apply safe_pure. intros refs _. apply safe_try.
  - eapply safe_bind; [apply run_json_safe|].
    + intros tr Htr. exists current. split; [apply Htr; set_solver|]. by exists u, rv.
    + intros r _. apply calm_bind; [apply set_resource_calm|]. intros _. apply calm_ret.
  - intros e k. destruct (is_conflict e); [|done]. intros [= <-]. apply calm_ret.
Qed.

Lemma wait_ready_calm timeout observe : calm observe → calm (wait_ready fuel ns nm timeout observe : IO json).
Proof. intros Ho. unfold wait_ready. calm_auto. Qed.

Lemma wait_instance_deleted_calm timeout : calm (wait_instance_deleted fuel ns nm timeout : IO unit).
Proof. unfold wait_instance_deleted. calm_auto. Qed.
#[local] Hint Resolve wait_instance_deleted_calm : calm.

Lemma delete_calm timeout wait : calm (delete fuel ns nm timeout wait : IO unit).
Proof.
  unfold delete. apply calm_bind; [auto with calm|]. intros start. apply calm_bind; [auto with calm|].
  intros secs. cbv zeta. apply calm_bind; [|intros requested; calm_auto].
  apply calm_forever. intros _. apply calm_bind; [auto with calm|]. intros t.
  destruct (Qle_bool _ t); [auto with calm|]. intros K.
  eapply safe_bind; [apply read_safe|]. intros [current|] _; [|apply safe_ret; [done|apply list_subseteq_nil]].
  apply safe_pure. intros del _. destruct del; [apply safe_ret; [done|apply list_subseteq_nil]|].
  apply safe_calm; [auto with calm|]. intros t'. apply safe_try.
  - eapply safe_bind; [apply delete_object_safe; set_solver|]. intros [] _.
    apply safe_ret; [done|apply list_subseteq_nil].
  - intros e k. destruct (is_conflict e); [intros [= <-]; apply calm_ret|].
    destruct (deployment_error e); [|done]. intros [= <-].
    match goal with |- safe ?K' ?m _ _ => enough (calm m) as Hm by apply Hm end. calm_auto.
Qed.

Lemma controller_name_calm : calm (controller_name : IO string).
Proof. unfold controller_name. calm_auto. Qed.
Lemma access_calm : calm (access ns nm : IO json).
Proof. pose proof controller_name_calm. unfold access. calm_auto. Qed.
Lemma bind_calm d : calm (bind kustomize ns nm d : IO ForetokenDeployment).
Proof. unfold bind. calm_auto. Qed.
Lemma recover_all_calm allow refs st : calm (recover_all ns nm allow refs st : IO recovered).
Proof.
  revert st. induction refs as [|r refs IH]; intros st; simpl; [auto with calm|].
  unfold recover_document. calm_auto.
Qed.
Lemma deployment_calm allow missing : calm (deployment ns nm allow missing : IO ForetokenDeployment).
Proof. pose proof recover_all_calm. unfold deployment. calm_auto. Qed.
End InstanceWrites.

#[export] Hint Resolve set_uid_calm set_resource_calm get_uid_calm get_resource_calm read_calm
  read_required_calm wait_deleted_calm ensure_calm request_calm wait_ready_calm
  wait_instance_deleted_calm delete_calm controller_name_calm access_calm bind_calm deployment_calm : calm.

(** ** Submissions *)

(** A dictionary built from a list of objects holds only those objects. *)
Lemma by_ref_values values m r v : by_ref values = Ok m → dget r m = Some v → v ∈ values.
Proof.
  unfold by_ref. intros Hm Hv.
  enough (∀ r v, dget r m = Some v → v ∈ values) by eauto. revert Hm.
  apply (outcome_fold_inv (λ m, ∀ r v, dget r m = Some v → v ∈ values)); [|done].
  intros b x b' Hx Hb (r' & _ & [= <-])%outcome_bind_Ok r1 v1. rewrite dget_dset.
  destruct (eqb r' r1); [by intros [= <-]|apply Hb].
Qed.

Section SubmissionWrites.
Context {C : Type} `{Kubectl C} `{PythonRepr} `{Codec} `{JsonText}.
Abbreviation IO := (IO (world C (operation lifecycle))).
Variable kustomize : kustomization → list json → outcome string.
Variable fuel : nat.
Variables ns nm : string.
Variable timeout : Z.
Variable operation_id : json.
Variable create_only : bool.
Implicit Types K : list json.

Lemma on_submission_calm f : calm (on_submission f : IO unit).
Proof. apply calm_self. Qed.
Lemma set_created_calm r v : calm (set_created r v : IO unit).
Proof. apply calm_self. Qed.
Lemma set_committed_calm r v : calm (set_committed r v : IO unit).
Proof. apply calm_self. Qed.
Lemma set_scope_calm v : calm (set_scope v : IO unit).
Proof. apply calm_self. Qed.
Lemma set_deployment_calm d : calm (set_deployment d : IO unit).
Proof. apply calm_self. Qed.
#[local] Hint Resolve on_submission_calm set_created_calm set_committed_calm set_scope_calm
  set_deployment_calm : calm.

Lemma validate_member_same pinned s r current v :
  validate_member pinned s r current = Ok v → v = current.
Proof.
  unfold validate_member. intros (foreign & _ & Hv)%outcome_bind_Ok. destruct foreign; [done|].
  destruct (dget r (expected s)); [|by injection Hv].
  apply outcome_bind_Ok in Hv as (v' & _ & Hv). by destruct (same_version _ _); simplify_eq.
Qed.

(** The services a check returns have been shown. *)
Lemma current_services_safe K :
  safe K (current_services ns nm operation_id : IO (list (ResourceRef * option json)))
    (λ l, omap snd l) (λ _, True).
Proof.
  unfold current_services. apply safe_calm; [auto with calm|]. intros s.
  eapply safe_bind with (R := id) (G := λ _, True).
  { destruct (scope s); [apply get_resources_safe|apply safe_ret; [done|apply list_subseteq_nil]]. }
  intros l _. apply safe_pure. intros observed Ho. apply safe_pure. intros [] _; [|apply safe_throw].
  apply safe_calm; [auto with calm|]. intros pinned.
  destruct (outcome_map _ _) as [services|e] eqn:E; [|apply safe_throw].
  apply safe_ret; [done|]. intros v (e & He & Hv)%list_elem_of_omap.
  apply outcome_map_Ok in E. apply list_elem_of_lookup_1 in He as (i & He).
  destruct (Forall2_lookup_r _ _ _ _ _ E He) as (r & _ & (v' & Hval & [= <-])%outcome_bind_Ok).
  apply validate_member_same in Hval as ->. simpl in Hv. apply elem_of_app. left.
  by eapply by_ref_values.
Qed.

Lemma current_services_calm :
  calm (current_services ns nm operation_id : IO (list (ResourceRef * option json))).
Proof. eapply calm_of. intros K. apply current_services_safe. Qed.
Lemma check_calm : calm (check ns nm operation_id : IO unit).
Proof. apply calm_bind; [apply current_services_calm|auto with calm]. Qed.
#[local] Hint Resolve check_calm : calm.

Lemma member_safe K r : safe K (member r : IO (option json)) option_list (λ _, True).
Proof.
  unfold member. eapply safe_bind; [apply get_if_exists_safe|]. intros current _.
  apply safe_calm; [auto with calm|]. intros pinned. apply safe_calm; [auto with calm|]. intros s.
  destruct (validate_member pinned s r current) as [v|e] eqn:E; [|apply safe_throw].
  apply validate_member_same in E as ->. apply safe_ret; [done|set_solver].
Qed.
Lemma member_calm r : calm (member r : IO (option json)).
Proof. eapply calm_of. intros K. apply member_safe. Qed.
#[local] Hint Resolve member_calm : calm.

(** The compare-and-set is fenced by the object it was given. *)
Lemma claim_operation_safe K r current deadline :
  current ∈ K →
  safe K (claim_operation operation_id create_only r current deadline : IO json) (λ j, [j]) (λ _, True).
Proof.
  intros Hc. unfold claim_operation. apply safe_calm; [auto with calm|]. intros t.
  destruct (Qle_bool _ t); [apply safe_throw|]. apply safe_pure. intros u Hu. apply safe_pure. intros rv Hv.
  apply safe_calm; [calm_auto|]. intros spec. apply run_json_safe.
  intros tr Htr. exists current. split; [by apply Htr|]. by exists u, rv.
Qed.

Lemma claim_instance_calm identity deadline current K :
  current ∈ K → safe K (claim_instance fuel ns nm operation_id create_only identity deadline current : IO unit)
                  (λ _, []) (λ _, True).
Proof.
  intros Hc. unfold claim_instance.
  eapply safe_weaken with (K := (λ c, [c]) current ++ K) (new := λ _, []) (F := λ _, True);
    [|set_solver|by intros; split; [|apply list_subseteq_nil]].
  apply (safe_forever K fuel _ current (λ c, [c])). clear current Hc. intros current.
  apply safe_pure. intros del _. apply safe_pure. intros found _.
  destruct (_ || _); [apply safe_throw|]. apply safe_pure. intros version _. apply safe_try.
  - eapply safe_bind; [apply claim_operation_safe; set_solver|]. intros r _.
    apply safe_calm; [auto with calm|]. intros _. apply safe_ret; [done|apply list_subseteq_nil].
  - intros e k. destruct (is_conflict e); [|done]. intros [= <-].
    eapply safe_bind; [apply read_safe|]. intros [latest|] _; [|apply safe_throw].
    apply safe_pure. intros v _. destruct (py_eqb v version); [apply safe_throw|].
    apply safe_ret; [done|set_solver].
Qed.

Lemma begin_calm : calm (begin_ fuel ns nm timeout operation_id create_only : IO unit).
Proof.
  unfold begin_. apply calm_bind; [auto with calm|]. intros s. destruct (scope s); [auto with calm|].
  apply calm_bind; [calm_auto|]. intros _ K. eapply safe_bind; [apply read_required_safe|].
  intros current _. apply safe_calm; [auto with calm|]. intros s'. apply safe_calm; [calm_auto|].
  intros foreign. destruct foreign; [apply safe_throw|]. apply safe_calm; [auto with calm|]. intros t.
  apply safe_pure. intros identity _. eapply safe_bind; [apply claim_instance_calm; set_solver|].
  intros [] _. apply check_calm.
Qed.
#[local] Hint Resolve begin_calm : calm.

Lemma prepare_instance_calm : calm (prepare_instance kustomize ns nm : IO unit).
Proof. unfold prepare_instance. calm_auto. Qed.

(** *** Dependencies *)

Lemma retry_conflict_calm r current e : calm (retry_conflict r current e : IO unit).
Proof. unfold retry_conflict. calm_auto. Qed.

Lemma attempt_safe {A} K r current (m : IO A) new F :
  safe K m new F →
  safe K (attempt r current m) (λ x, match x with inl _ => [] | inr a => new a end)
    (λ x, match x with inl _ => True | inr a => F a end).
Proof.
  intros Hm. apply safe_try.
  - eapply safe_bind; [apply Hm|]. intros a HF. apply safe_ret; [done|set_solver].
  - intros e k. destruct (is_conflict e); [|done]. intros [= <-].
    apply safe_calm; [apply retry_conflict_calm|]. intros _. apply safe_ret; [done|apply list_subseteq_nil].
Qed.

Lemma create_dependency_safe K payload :
  safe K (create_dependency payload : IO (json * ResourceRef)) (λ p, [p.1]) (λ _, True).
Proof.
  unfold create_dependency. apply safe_pure. intros p Hp. eapply safe_bind; [apply run_json_safe|].
  { intros tr _. by apply popped_version in Hp. }
  intros current _. apply safe_pure. intros cr _. apply safe_calm; [auto with calm|]. intros _.
  apply safe_ret; [done|]. simpl. set_solver.
Qed.

Lemma apply_config_safe K r deadline claimed payload :
  claimed ∈ K →
  safe K (apply_dependency_config r deadline claimed payload : IO unit) (λ _, []) (λ _, True).
Proof.
  intros Hc. unfold apply_dependency_config. apply safe_pure. intros p1 _. apply safe_pure. intros p2 Hp2.
  apply safe_calm; [auto with calm|]. intros t. destruct (Qle_bool _ t); [apply safe_throw|].
  eapply safe_bind; [apply run_safe|].
  - intros tr Htr. left. exists claimed. split; [by apply Htr|]. by eapply fence_same_fence.
  - intros o _. apply safe_ret; [done|apply list_subseteq_nil].
Qed.

Lemma refresh_receipt_calm cr claimed : calm (refresh_receipt cr claimed : IO unit).
Proof. unfold refresh_receipt. calm_auto. Qed.

Lemma dependency_round_calm value claim_only r deadline :
  calm (dependency_round ns nm operation_id create_only value claim_only r deadline : IO (unit + unit)).
Proof.
  unfold dependency_round. apply calm_bind; [auto with calm|]. intros _ K.
  eapply safe_bind; [apply member_safe|]. intros current _. apply safe_calm; [calm_auto|]. intros cr.
  apply safe_calm; [auto with calm|]. intros s. cbv zeta.
  assert (∀ a : unit + unit, safe (option_list current ++ K) (mret a : IO _) (λ _, []) (λ _, True)) as Hret.
  { intros a. apply calm_ret. }
  destruct claim_only, current as [current|]; [|apply Hret| |].
  all: apply safe_calm; [calm_auto|]; intros foreign; destruct foreign;
    [apply safe_pure; intros actual _; apply safe_pure; intros desired _;
     destruct (matches_declared_fields _ _); [apply calm_ret|apply safe_throw]|].
  all: apply safe_calm; [auto with calm|]; intros t; destruct (Qle_bool deadline t); [apply safe_throw|];
    apply safe_pure; intros payload _.
  all: eapply safe_bind with (R := λ x, match x with inl _ => [] | inr p => [p.1] end)
         (G := λ x : unit + json * ResourceRef, True).
  1, 3: apply safe_ret; [done|]; simpl; set_solver.
  3: { eapply safe_weaken; [apply attempt_safe, create_dependency_safe|done|]. intros [|] _; set_solver. }
  all: intros [?|[object cr']] _; [apply calm_ret|].
  all: eapply safe_bind; [apply attempt_safe, claim_operation_safe; set_solver|].
  all: intros [?|claimed] _; [apply calm_ret|].
  all: apply safe_calm; [apply refresh_receipt_calm|]; intros _; try apply calm_ret.
  eapply safe_weaken with (K := [claimed]); [apply attempt_safe, apply_config_safe; by left|set_solver|].
  intros [|] _; split; try done; apply list_subseteq_nil.
Qed.

Lemma apply_dependency_calm value claim_only :
  calm (apply_dependency fuel ns nm timeout operation_id create_only value claim_only : IO unit).
Proof.
  unfold apply_dependency. calm_auto. apply dependency_round_calm.
Qed.
#[local] Hint Resolve apply_dependency_calm : calm.

(** *** Services *)

Lemma service_payload_fence r value patch suspended current p :
  service_payload operation_id r value patch suspended current = Ok p →
  match current with
  | Some c => same_fence p c
  | None => meta_index "resourceVersion" p = Ok (JStr "0")
  end.
Proof.
  unfold service_payload. intros (payload & _ & Hp)%outcome_bind_Ok. destruct current as [c|].
  - by eapply fence_same_fence.
  - apply edit_metadata_index in Hp as (m & m' & _ & Hf & Hm'). eapply meta_index_Ok; [done|].
    by eapply index_set_key.
Qed.

Lemma service_call_fenced tr r value patch suspended current p :
  service_payload operation_id r value patch suspended current = Ok p →
  (∀ c, current = Some c → shown tr c) → fenced tr (service_call r patch current p).
Proof.
  intros Hp%service_payload_fence Hc. destruct current as [c|].
  - destruct patch; simpl; [|left]; exists c; auto.
  - destruct patch; simpl; by right.
Qed.

(** What follows the write in a round. *)
Lemma service_result_calm r patch suspended (current : option json) result :
  calm (s ← ask the;
        skip_unless (bool_decide (current = None) || dmem r (created s)) (set_created r result) ;;
        v ← pure (intent_version (Some result));
        set_committed r v ;;
        if patch && bool_decide (current = None) then mret (inl tt) else
        state ← pure (spec_get "suspend" JNull result);
        if patch && negb (is_same state suspended)
        then throw (DeploymentError "The platform does not support service suspension; update the platform first")
        else mret (inr tt) : IO (unit + unit)).
Proof. calm_auto. Qed.

Lemma service_round_calm r value patch suspended deadline :
  calm (service_round ns nm operation_id r value patch suspended deadline : IO (unit + unit)).
Proof.
  intros K. unfold service_round. eapply safe_bind; [apply current_services_safe|]. intros services _.
  destruct (dget r services) as [current|] eqn:Er; [|apply safe_throw].
  apply safe_pure. intros payload Hp. apply safe_calm; [auto with calm|]. intros t.
  destruct (Qle_bool deadline t); [apply safe_throw|]. apply safe_try.
  - eapply safe_bind; [apply (run_json_safe _ (service_call r patch current payload))|].
    + intros tr Htr. eapply service_call_fenced; [done|]. intros c ->. apply Htr, elem_of_app. left.
      apply list_elem_of_omap. exists (r, Some c). split; [by apply dget_elem|done].
    + intros result _. apply service_result_calm.
  - intros e k. destruct (is_conflict e); [|done]. intros [= <-].
    match goal with |- safe ?K' ?m _ _ => enough (calm m) as Hm by apply Hm end. calm_auto.
Qed.

Lemma apply_service_calm r value patch :
  calm (apply_service fuel ns nm timeout operation_id r value patch : IO unit).
Proof. unfold apply_service. calm_auto. apply service_round_calm. Qed.
#[local] Hint Resolve apply_service_calm : calm.

Lemma submit_calm rendered_ patch :
  calm (submit fuel ns nm timeout operation_id create_only rendered_ patch : IO unit).
Proof. unfold submit, submit_service. calm_auto. Qed.

Lemma hold_calm {A} uid (body : IO A) : calm body → calm (hold uid body).
Proof.
  intros Hb. unfold hold. apply calm_bind; [by apply run_calm|]. intros _. apply calm_finally; [done|].
  apply calm_bind; [by apply run_calm|auto with calm].
Qed.

Lemma begin_fenced : calm (begin kustomize fuel ns nm timeout operation_id create_only : IO unit).
Proof.
  pose proof prepare_instance_calm. unfold begin. calm_auto. apply hold_calm. auto with calm.
Qed.
Lemma apply_fenced rendered_ patch :
  calm (apply kustomize fuel ns nm timeout operation_id create_only rendered_ patch : IO unit).
Proof.
  pose proof prepare_instance_calm. unfold apply. calm_auto. apply hold_calm.
  apply calm_bind; [auto with calm|]. intros _. apply submit_calm.
Qed.
End SubmissionWrites.

(** ** What a service write has checked *)

(** [tr] extends [tr0] by calls that only read and by writes that satisfy [P] of
    the trace before them. *)
Inductive extends (P : list (call * reply) → call → Prop) (tr0 : list (call * reply))
    : list (call * reply) → Prop :=
  | extends_refl : extends P tr0 tr0
  | extends_call c rep tr :
      extends P tr0 tr → harmless c = true ∨ P tr c → extends P tr0 ((c, rep) :: tr).

Lemma extends_trans P tr0 tr1 tr2 : extends P tr0 tr1 → extends P tr1 tr2 → extends P tr0 tr2.
Proof. intros H1 H2. induction H2; [done|by constructor]. Qed.

(** The items of a list answer. *)
Definition items_of (j : json) : option (list json) :=
  match j with
  | JObj m => match or_ (default JNull (dget "items" m)) (JArr []) with JArr l => Some l | _ => None end
  | _ => None
  end.

Section ServiceChecks.
Context {C : Type} `{Kubectl C} `{PythonRepr} `{Codec} `{JsonText}.
Abbreviation world := (world C (operation lifecycle)).
Abbreviation IO := (IO world).
Variable fuel : nat.
Variables ns nm : string.
Variable timeout : Z.
Variable operation_id : json.

(** The instance record [current] is live, is the one that was claimed as [sc], and
    is annotated with this operation. *)
Definition ours (sc current : option json) : Prop :=
  ∃ claimed record, sc = Some claimed ∧ current = Some record ∧ deleting record = Ok false ∧
    (∃ u u', meta_index "uid" record = Ok u ∧ meta_index "uid" claimed = Ok u' ∧ py_eqb u u' = true) ∧
    (∃ o, annotation SERVICE_OPERATION JNull record = Ok o ∧ py_eqb o operation_id = true).

(** A service as it was read belongs to the instance [pinned] and has the intent [e];
    a service that was not there has none. *)
Definition intended (pinned : json) (e : option version) (current : option json) : Prop :=
  (∃ v, intent_version current = Ok v ∧ same_version v e = true) ∧
  ∀ value, current = Some value → ∃ l, label DEPLOYMENT_UID_LABEL value = Ok l ∧ py_eqb l pinned = true.

(** The last call listed the instance and the services: the instance is ours, every
    service of [ex] has the intent that [com] has for it, or else [ex] itself, and the
    service [r] is among them and was read as [current]. *)
Definition observes (pinned : json) (ex com : list (ResourceRef * option version)) (sc : option json)
    (r : ResourceRef) (tr : list (call * reply)) (current : option json) : Prop :=
  ∃ refs j rest items observed,
    tr = (GetObjects refs true, Output (Some j)) :: rest ∧ items_of j = Some items ∧
    by_ref items = Ok observed ∧ ours sc (dget (root ns nm) observed) ∧
    (∀ x e, dget x ex = Some e → intended pinned (default e (dget x com)) (dget x observed)) ∧
    is_Some (dget r ex) ∧ dget r observed = current.

Lemma owns_scope_true sc current : owns_scope operation_id sc current = Ok true → ours sc current.
Proof.
  unfold owns_scope. destruct sc as [claimed|], current as [record|]; try done.
  intros ([] & Hd & Hb)%outcome_bind_Ok; [done|].
  apply outcome_bind_Ok in Hb as (u & Hu & (u' & Hu' & Hb)%outcome_bind_Ok).
  destruct (py_eqb u u') eqn:E; [|done]. apply outcome_bind_Ok in Hb as (o & Ho & [= Hb]).
  exists claimed, record. split_and!; [done..|by exists u, u'|by exists o].
Qed.

Lemma validate_member_expected pinned s r current v e :
  validate_member pinned s r current = Ok v → dget r (expected s) = Some e →
  intended pinned (default e (dget r (committed s))) current.
Proof.
  unfold validate_member. intros (foreign & Hf & Hv)%outcome_bind_Ok He. destruct foreign; [done|].
  rewrite He in Hv. apply outcome_bind_Ok in Hv as (x & Hx & Hv). split.
  - exists x. destruct (same_version _ _) eqn:E; [done|discriminate].
  - intros value ->. apply outcome_bind_Ok in Hf as (l & Hl & [= Hb]). exists l.
    by destruct (py_eqb l pinned).
Qed.

(** [items] is the answer of the last call, or empty. *)
Definition listed (s : submission) (items : list json) (w : world) : Prop :=
  the w = s ∧ (items = [] ∨ ∃ l j rest, trace w = (GetObjects l true, Output (Some j)) :: rest ∧
                 items_of j = Some items).

Lemma get_many_listed (s : submission) a b refs :
  hoare (λ w, the w = s) (get_resources (a :: b :: refs) : IO (list json)) (listed s) (λ w, the w = s).
Proof.
  unfold get_resources. destruct (distinct _) as [|? [|? ?]]; try by apply hoare_throw.
  intros w Hw. unfold mbind, IO_bind, run.
  destruct (serve _ _) as [[[j|]| |] c']; simpl; try done; [|by split; [|left]].
  unfold decode_resource_list, decode_object, mbind, IO_bind, mret, IO_ret, pure.
  destruct j as [| | | | | |m]; try done. simpl.
  destruct (or_ (default JNull (dget "items" m)) (JArr [])) as [| | | | |l|] eqn:E; try done.
  destruct (forallb is_dict l); [|done]. split; [done|]. right. eexists _, _, _. split; [done|].
  simpl. by rewrite E.
Qed.

Lemma get_any_same (s : submission) refs :
  hoare (λ w, the w = s) (get_resources refs : IO (list json)) (λ _ w, the w = s) (λ w, the w = s).
Proof.
  intros w Hw. unfold get_resources. destruct (distinct _) as [|? [|? ?]]; try done.
  destruct refs as [|r [|r' refs]]; unfold mbind, IO_bind, get_if_exists, mbind, IO_bind, run;
    destruct (serve _ _) as [[[j|]| |] c']; try done;
    unfold decode_resource_list, decode_object, mbind, IO_bind, mret, IO_ret, pure; destruct (is_dict j) eqn:E;
    try done; destruct j as [| | | | | |m]; try done; simpl;
    (destruct (or_ _ _); try done; by destruct (forallb _ _)).
Qed.

(** Services validated against a listing that shows the instance as owned. *)
Lemma services_observed (s : submission) pinned items observed services w :
  listed s items w → by_ref items = Ok observed →
  owns_scope operation_id (scope s) (dget (root ns nm) observed) = Ok true →
  outcome_map (λ r, v ← validate_member pinned s r (dget r observed); Ok (r, v)) (expected s).*1 = Ok services →
  ∀ r current, dget r services = Some current →
    observes pinned (expected s) (committed s) (scope s) r (trace w) current.
Proof.
  intros [Hw Htop] Ho Hown%owns_scope_true E r current Hr.
  apply outcome_map_Ok in E. apply dget_elem, list_elem_of_lookup_1 in Hr as (i & Hr).
  destruct (Forall2_lookup_r _ _ _ _ _ E Hr) as (r' & Hr' & (v & Hval & [= <- ->])%outcome_bind_Ok).
  apply validate_member_same in Hval as ->.
  destruct Htop as [->|(l & j & rest & Htr & Hit)];
    [injection Ho as <-; by destruct Hown as (? & ? & _ & ? & _)|].
  exists l, j, rest, items, observed. split_and!; [done..| | |done].
  - intros x e He. assert (x ∈ (expected s).*1) as (k & Hk)%list_elem_of_lookup_1
      by (apply list_elem_of_fmap; exists (x, e); split; [done|by apply dget_elem]).
    destruct (Forall2_lookup_l _ _ _ _ _ E Hk) as (y & _ & (v & Hval & _)%outcome_bind_Ok).
    by eapply validate_member_expected.
  - destruct (dget r' (expected s)) eqn:E'; [eauto|]. apply dget_None in E'. destruct E'.
    by eapply list_elem_of_lookup_2.
Qed.

(** The state of the submission and the instance it is pinned to. *)
Definition at_state (s : submission) (pinned : json) (w : world) : Prop :=
  the w = s ∧ i_uid (inst (self w)) = pinned.

Lemma get_resources_pinned pinned refs :
  stable (λ w, i_uid (inst (self w)) = pinned) (get_resources refs : IO (list json)).
Proof.
  assert (∀ c, stable (λ w, i_uid (inst (self w)) = pinned) (run c : IO _)) by (intros c; by apply stable_run).
  unfold get_resources, get_if_exists, decode_resource_list, decode_object. stable_auto.
Qed.

Lemma current_services_observes (s : submission) pinned :
  hoare (at_state s pinned) (current_services ns nm operation_id : IO (list (ResourceRef * option json)))
    (λ services w, at_state s pinned w ∧ ∀ r current, dget r services = Some current →
       observes pinned (expected s) (committed s) (scope s) r (trace w) current)
    (at_state s pinned).
Proof.
  unfold current_services. eapply hoare_bind with (R := λ x w, x = s ∧ at_state s pinned w);
    [by apply hoare_ask; intros w Hw; split; [apply Hw|]|].
  intros x. apply hoare_fact. intros ->.
  eapply hoare_bind with (R := λ items w, at_state s pinned w ∧ (expected s = [] ∨ listed s items w)).
  { destruct (scope s); [|apply hoare_ret; intros w Hw; split; [done|right; split; [apply Hw|by left]]].
    destruct (expected s) as [|e ex] eqn:Ee.
    - eapply hoare_weaken; [apply hoare_conj; [apply (get_any_same s)|apply (get_resources_pinned pinned)]|by intros w| |by intros w].
      intros a w Hw. split; [exact Hw|by left].
    - eapply hoare_weaken; [apply hoare_conj; [apply (get_many_listed s)|apply (get_resources_pinned pinned)]|by intros w| |by intros w].
      intros items w [Hw ?]. split; [split; [apply Hw|done]|by right]. }
  intros items. eapply hoare_bind with (R := λ observed w, by_ref items = Ok observed ∧
    at_state s pinned w ∧ (expected s = [] ∨ listed s items w)).
  { apply hoare_pure; [by auto|by intros w [? _]]. }
  intros observed. apply hoare_fact. intros Ho.
  eapply hoare_bind with (R := λ owned w, owns_scope operation_id (scope s) (dget (root ns nm) observed) = Ok owned ∧
     at_state s pinned w ∧ (expected s = [] ∨ listed s items w)).
  { apply hoare_pure; [by auto|by intros w [? _]]. }
  intros owned. apply hoare_fact. intros Hown. destruct owned; [|apply hoare_throw; by intros w [? _]].
  eapply hoare_bind with (R := λ p w, p = pinned ∧ at_state s pinned w ∧ (expected s = [] ∨ listed s items w)).
  { apply hoare_ask. intros w Hw. split; [apply Hw|done]. }
  intros p. apply hoare_fact. intros ->.
  apply hoare_pure; [|by intros w [? _]]. intros w services [Hw Hl] E. split; [done|].
  destruct Hl as [He|Hl]; [|by eapply services_observed]. rewrite He in E. by injection E as <-.
Qed.

(** The intent that a write of a service made, as the cluster answered it. *)
Definition written_intent (e : call * reply) : option (option version) :=
  match e with
  | (ServerApply _, Output (Some j)) | (MergePatch _ _ _ _, Output (Some j)) =>
      match intent_version (Some j) with Ok v => Some v | Raise _ => None end
  | _ => None
  end.

#[local] Arguments written_intent : simpl never.

(** The calls made since the trace was [tr0], the last one first, and what the
    writes among them committed for [r], on top of [com]. *)
Definition since (tr0 tr : list (call * reply)) : list (call * reply) := take (length tr - length tr0) tr.
Fixpoint committed_by (r : ResourceRef) (com : list (ResourceRef * option version)) (calls : list (call * reply))
    : list (ResourceRef * option version) :=
  match calls with
  | [] => com
  | e :: calls =>
      let com' := committed_by r com calls in
      match written_intent e with Some v => dset r v com' | None => com' end
  end.

(** The write that follows such an observation carries its identity. *)
Definition checked (start : submission) (pinned : json) (tr0 : list (call * reply)) (r : ResourceRef)
    (tr : list (call * reply)) (c : call) : Prop :=
  ∃ current p,
    observes pinned (expected start) (committed_by r (committed start) (since tr0 tr)) (scope start) r tr current ∧
    (c = ServerApply p ∨ c = MergePatch (kind r) (name r) (namespace r) p) ∧
    match current with
    | Some v => same_fence p v
    | None => meta_index "resourceVersion" p = Ok (JStr "0")
    end.

Section Tracking.
Variables (start : submission) (pinned : json) (tr0 : list (call * reply)) (r : ResourceRef).

(** So far all writes were checked, what they are checked against is fixed, and
    the commits that the calls account for are [owed] to the submission. *)
Definition owing (owed : list (ResourceRef * option version) → list (ResourceRef * option version)) (w : world) : Prop :=
  extends (checked start pinned tr0 r) tr0 (trace w) ∧ expected (the w) = expected start ∧
  scope (the w) = scope start ∧ i_uid (inst (self w)) = pinned ∧
  committed_by r (committed start) (since tr0 (trace w)) = owed (committed (the w)).
Abbreviation tracked := (owing id).

Lemma since_call P e tr : extends P tr0 tr → since tr0 (e :: tr) = e :: since tr0 tr.
Proof.
  intros He. assert (length tr0 ≤ length tr)%nat by (induction He; simpl; lia).
  unfold since. by replace (length (e :: tr) - length tr0)%nat with (S (length tr - length tr0)) by (simpl; lia).
Qed.

Lemma harmless_commits_nothing c rep : harmless c = true → written_intent (c, rep) = None.
Proof. by destruct c, rep as [[]| |]. Qed.

Lemma owing_run f c : harmless c = true → stable (owing f) (run c).
Proof.
  intros Hc. apply stable_run. intros w rep c' (He & Hx & Hs & Hi & Hd). split_and!; try done; [constructor; auto|].
  simpl. erewrite since_call by done. simpl. by rewrite harmless_commits_nothing.
Qed.
Lemma owing_now f : stable (owing f) now.
Proof. apply stable_now. intros w n Hw. exact Hw. Qed.
Lemma owing_created f x v : stable (owing f) (set_created x v).
Proof. apply stable_on_self. intros w Hw. exact Hw. Qed.
#[local] Hint Resolve owing_now owing_created : stable.

Lemma owing_get f k n s : stable (owing f) (get_if_exists k n s).
Proof. unfold get_if_exists, decode_object. stable_auto. by apply owing_run. Qed.
Lemma owing_get_resources f refs : stable (owing f) (get_resources refs).
Proof.
  pose proof owing_get. unfold get_resources, decode_resource_list, decode_object.
  stable_auto; by apply owing_run.
Qed.
Lemma owing_get_uid f : stable (owing f) get_uid.
Proof. apply stable_ask. Qed.
#[local] Hint Resolve owing_get owing_get_resources owing_get_uid : stable.
Lemma owing_services f : stable (owing f) (current_services ns nm operation_id).
Proof. unfold current_services. stable_auto. Qed.
Lemma owing_member f x : stable (owing f) (member x).
Proof. unfold member. stable_auto. Qed.
#[local] Hint Resolve owing_member : stable.

(** What the state expects is what the start and the calls since determine. *)
Definition seen (s : submission) (current : option json) (w : world) : Prop :=
  tracked w ∧ the w = s ∧ observes pinned (expected s) (committed s) (scope s) r (trace w) current.

(** The intent of an answer, as it is owed until it is committed. *)
Definition answered (result : json) : list (ResourceRef * option version) → list (ResourceRef * option version) :=
  match intent_version (Some result) with Ok v => dset r v | Raise _ => id end.

(** After the observation the write is checked. *)
Lemma tracked_write s value patch suspended current payload :
  service_payload operation_id r value patch suspended current = Ok payload →
  hoare (seen s current) (run_json (service_call r patch current payload)) (λ result, owing (answered result)) tracked.
Proof.
  intros Hp. apply hoare_bind with (R := λ o, match o with Some (Some j) => owing (answered j) | _ => tracked end).
  - apply hoare_run. intros w rep c' ((He & Hx & Hs & Hi & Hd) & Hw & Ho).
    set (e := (service_call r patch current payload, rep)).
    assert (∀ f, match written_intent e with Some v => dset r v (committed (the w)) | None => committed (the w) end
      = f (committed (the w)) → owing f (World c' (ticks w) (e :: trace w) (self w))) as Hgo.
    { intros f Hf. split_and!; try done.
      - constructor; [done|]. right. exists current, payload. rewrite Hd, <-Hx, <-Hs, Hw.
        split_and!; [done| |by apply service_payload_fence in Hp]. unfold service_call. destruct patch, current; auto.
      - simpl. erewrite since_call by done. simpl. rewrite Hd. exact Hf. }
    assert (∃ p, e = (ServerApply p, rep) ∨ e = (MergePatch (kind r) (name r) (namespace r) p, rep)) as [p Hc]
      by (exists payload; unfold e, service_call; destruct patch, current; auto).
    destruct rep as [[j|]| |]; apply Hgo; destruct Hc as [-> | ->]; try done;
      unfold answered, written_intent; by destruct (intent_version (Some j)).
  - intros [[j|]|]; [by apply hoare_ret|by apply hoare_throw..].
Qed.

(** Recording the answer settles what is owed. *)
Lemma tracked_commit result patch suspended (current : option json) :
  hoare (owing (answered result))
    (s ← ask the;
     skip_unless (bool_decide (current = None) || dmem r (created s)) (set_created r result) ;;
     v ← pure (intent_version (Some result));
     set_committed r v ;;
     if patch && bool_decide (current = None) then mret (inl tt) else
     state ← pure (spec_get "suspend" JNull result);
     if patch && negb (is_same state suspended)
     then throw (DeploymentError "The platform does not support service suspension; update the platform first")
     else mret (inr tt) : IO (unit + unit))
    (λ _, tracked) tracked.
Proof.
  eapply hoare_bind with (R := λ _, owing (answered result)); [by apply hoare_ask|]. intros s.
  eapply hoare_bind with (R := λ _, owing (answered result)).
  { unfold skip_unless. destruct (_ || _); [|by apply hoare_ret].
    intros w Hw. exact (owing_created (answered result) r result w Hw). }
  intros _. unfold answered. destruct (intent_version (Some result)) as [v|e] eqn:Ev;
    [|apply hoare_throw; by intros w Hw].
  eapply hoare_bind with (R := λ x w, x = v ∧ owing (dset r v) w); [by apply hoare_ret|].
  intros x. apply hoare_fact. intros ->.
  eapply hoare_bind with (R := λ _, tracked).
  { apply hoare_change. intros w Hw. exact Hw. }
  intros _. match goal with |- hoare _ ?m _ _ => change (stable tracked m) end. stable_auto.
Qed.

Lemma tracked_round value patch suspended deadline :
  stable tracked (service_round ns nm operation_id r value patch suspended deadline).
Proof.
  enough (∀ s, hoare (λ w, tracked w ∧ at_state s pinned w)
    (service_round ns nm operation_id r value patch suspended deadline) (λ _, tracked) tracked) as Hs.
  { intros w Hw. apply (Hs (the w) w). split; [done|]. split; [done|]. by destruct Hw as (_ & _ & _ & ? & _). }
  intros s. unfold service_round.
  eapply hoare_bind with (R := λ services w, tracked w ∧ at_state s pinned w ∧
    ∀ x current, dget x services = Some current →
      observes pinned (expected s) (committed s) (scope s) x (trace w) current).
  { eapply hoare_weaken; [apply hoare_conj; [apply (owing_services id)|apply (current_services_observes s pinned)]|done|done|].
    by intros w [? _]. }
  intros services. destruct (dget r services) as [current|] eqn:Er; [|apply hoare_throw; by intros w [? _]].
  eapply hoare_weaken with (P' := seen s current) (Q' := λ _, tracked) (E' := tracked);
    [|intros w (? & [? ?] & ?); split_and!; auto|done|done].
  eapply hoare_bind with (R := λ payload w, service_payload operation_id r value patch suspended current = Ok payload ∧
    seen s current w); [apply hoare_pure; [by auto|by intros w [? _]]|].
  intros payload. apply hoare_fact. intros Hp.
  eapply hoare_bind with (R := λ _ w, seen s current w).
  { intros w Hw. exact Hw. }
  intros t. destruct (Qle_bool deadline t); [apply hoare_throw; by intros w [? _]|].
  apply hoare_try with (E' := tracked); [|done|].
  - eapply hoare_bind; [by eapply tracked_write|]. intros result. apply tracked_commit.
  - intros e k. destruct (is_conflict e); [|done]. intros [= <-].
    match goal with |- hoare _ ?m _ _ => change (stable tracked m) end. stable_auto.
Qed.

Lemma tracked_apply value patch :
  stable tracked (apply_service fuel ns nm timeout operation_id r value patch).
Proof. unfold apply_service. stable_auto. apply tracked_round. Qed.

Lemma tracked_submit value patch :
  stable tracked (submit_service fuel ns nm timeout operation_id patch r value).
Proof. pose proof tracked_apply. unfold submit_service, skip_unless. stable_auto. Qed.
End Tracking.

(** C13: submitting a service, with its suspension and resumption, only writes it
    right after the cluster showed in one listing that the instance record is live, is
    the one this submission claimed and still names its operation, and that every
    expected service belongs to the instance and has the intent recorded for it: what
    the submission expected or had committed at the start, and for the service itself
    what the answer to the last write since then said.  The write requires the UID and
    resource version of that very observation, or that the service does not exist.
    This holds for every behaviour of the cluster, and also when the submission fails
    half way. *)
Theorem service_writes_checked r value patch w :
  let w' := (submit_service fuel ns nm timeout operation_id patch r value w).2 in
  extends (checked (the w) (i_uid (inst (self w))) (trace w) r) (trace w) (trace w').
Proof.
  assert (owing (the w) (i_uid (inst (self w))) (trace w) r id w) as Hw.
  { split_and!; [apply extends_refl|done..|]. unfold since. by rewrite Nat.sub_diag. }
  pose proof (tracked_submit (the w) (i_uid (inst (self w))) (trace w) r value patch w Hw) as Ha.
  destruct (submit_service _ _ _ _ _ _ _ _ w) as [[a|e|] w']; by destruct Ha.
Qed.
End ServiceChecks.

(** C7: every write of a submission is fenced.  Whatever the cluster answers
    and wherever the submission stops, each patch and each apply names the UID and
    the resource version of an object the cluster has shown in this operation, or
    the version 0 that only permits creation, and each creation leaves the version
    out.  So an object that changed since it was read is never overwritten. *)
Theorem submission_writes_fenced {C : Type} `{Kubectl C} `{PythonRepr} `{Codec} `{JsonText}
    kustomize fuel ns nm timeout operation_id create_only rendered_ patch
    (w : world C (operation lifecycle)) :
  all_fenced (trace w) →
  all_fenced (trace (begin kustomize fuel ns nm timeout operation_id create_only w).2) ∧
  all_fenced (trace (apply kustomize fuel ns nm timeout operation_id create_only rendered_ patch w).2).
Proof.
  intros Hf. split.
  - pose proof (begin_fenced kustomize fuel ns nm timeout operation_id create_only [] w Hf) as Hb.
    destruct (begin _ _ _ _ _ _ _ w) as [r w']. by destruct Hb as [? _]; [intros v Hv%elem_of_nil|].
  - pose proof (apply_fenced kustomize fuel ns nm timeout operation_id create_only rendered_ patch [] w Hf) as Hb.
    destruct (apply _ _ _ _ _ _ _ _ _ w) as [r w']. by destruct Hb as [? _]; [intros v Hv%elem_of_nil|].
Qed.
