(* ===== verification/InstanceProofs.v ===== *)
(** * Properties of a deployment instance

    An instance keeps the UID it was given or first saw: every operation of
    [DeploymentInstance] writes only to the record with that UID, and what it
    returns was read from that record.  [wait_ready] returns a controller revision
    only for the request that was made. *)

From S2P Require Import Prelude Text Kube Manifest Effects Client Instances Submission Fencing SubmissionProofs.

Lemma py_eqb_str x u : py_eqb x (JStr u) = true → x = JStr u.
Proof. destruct x; simpl; try done. by intros ->%eqb_true. Qed.

Lemma truthy_str u : u ≠ "" → truthy (JStr u) = true.
Proof. by destruct u. Qed.

(** A write that names the UID [u]; nothing is created. *)
Definition names_uid (u : string) (c : call) : Prop :=
  match c with
  | MergePatch _ _ _ p => meta_index "uid" p = Ok (JStr u)
  | DeleteRaw _ o => ∃ v propagation, o = delete_options (JStr u) v propagation
  | _ => False
  end.

Section Pinned.
Context {C T : Type} `{Kubectl C} `{PythonRepr} `{Codec} `{JsonText}.
Abbreviation world := (world C (operation T)).
Abbreviation IO := (IO world).
Variable kustomize : kustomization → list json → outcome string.
Variable fuel : nat.
Variables ns nm : string.

Section Invariant.
Variables (u : string) (tr0 : list (call * reply)).

(** The instance is pinned to [u] and has written to nothing else. *)
Definition pinned_to (w : world) : Prop :=
  i_uid (inst (self w)) = JStr u ∧ extends (λ _, names_uid u) tr0 (trace w).

Lemma pinned_now : stable pinned_to now.
Proof. apply stable_now. intros w n Hw. exact Hw. Qed.
Lemma pinned_run c : harmless c = true ∨ names_uid u c → stable pinned_to (run c).
Proof. intros Hc. apply stable_run. intros w rep c' [Hu He]. split; [done|]. by constructor. Qed.
Lemma pinned_run_json c : harmless c = true ∨ names_uid u c → stable pinned_to (run_json c).
Proof. intros Hc. unfold run_json. apply stable_bind; [by apply pinned_run|]. stable_auto. Qed.
Lemma pinned_get k n s : stable pinned_to (get_if_exists k n s).
Proof. unfold get_if_exists, decode_object. stable_auto. apply pinned_run. by left. Qed.
Lemma pinned_get_uid : stable pinned_to get_uid.
Proof. apply stable_ask. Qed.
Lemma pinned_get_resource : stable pinned_to get_resource.
Proof. apply stable_ask. Qed.
Lemma pinned_set_resource v : stable pinned_to (set_resource v).
Proof. apply stable_on_self. intros w Hw. exact Hw. Qed.
#[local] Hint Resolve pinned_now pinned_get pinned_get_uid pinned_get_resource pinned_set_resource : stable.

Lemma pinned_wait resource metadata t : stable pinned_to (wait_deleted fuel resource metadata t).
Proof. unfold wait_deleted. stable_auto. Qed.
#[local] Hint Resolve pinned_wait : stable.

Hypothesis Hu : u ≠ "".

(** What [read] shows is the pinned record. *)
Lemma pinned_read required :
  hoare pinned_to (read ns nm required)
    (λ r w, pinned_to w ∧ ∀ v, r = Some v → meta_index "uid" v = Ok (JStr u)) pinned_to.
Proof using Hu.
  unfold read. eapply hoare_bind; [apply pinned_get|]. intros [current|].
  2: { destruct required; [by apply hoare_throw|]. by apply hoare_ret. }
  apply hoare_pure_bind; [done|]. intros x Hx.
  eapply hoare_bind with (R := λ p w, p = JStr u ∧ pinned_to w); [apply hoare_ask; by intros w [? ?]|].
  intros p. apply hoare_fact. intros ->. rewrite truthy_str by done. simpl.
  destruct (py_eqb x (JStr u)) eqn:E; simpl; [|by apply hoare_throw]. apply py_eqb_str in E as ->.
  eapply hoare_bind with (R := λ _, pinned_to); [apply hoare_change; by intros w [? ?]|]. intros _.
  eapply hoare_bind with (R := λ _, pinned_to); [apply pinned_set_resource|]. intros _.
  apply hoare_ret. intros w Hw. split; [done|]. by intros v [= <-].
Qed.

Lemma pinned_read_stable required : stable pinned_to (read ns nm required).
Proof using Hu. eapply hoare_weaken; [apply pinned_read|done| |done]. by intros r w [? _]. Qed.
Lemma pinned_read_required :
  hoare pinned_to (read_required ns nm) (λ v w, pinned_to w ∧ meta_index "uid" v = Ok (JStr u)) pinned_to.
Proof using Hu.
  eapply hoare_bind; [apply pinned_read|]. intros [current|]; [|apply hoare_throw; by intros w [? _]].
  apply hoare_ret. intros w [Hw Hv]. split; [done|by apply Hv].
Qed.
Lemma pinned_read_required_stable : stable pinned_to (read_required ns nm).
Proof using Hu. eapply hoare_weaken; [apply pinned_read_required|done| |done]. by intros r w [? _]. Qed.
#[local] Hint Resolve pinned_read_stable pinned_read_required_stable : stable.

(** With the UID known [ensure] never creates. *)
Lemma pinned_ensure d : stable pinned_to (ensure ns nm d).
Proof using Hu.
  unfold ensure. apply stable_bind; [auto with stable|]. intros [current|]; [stable_auto|].
  eapply hoare_bind with (R := λ p w, p = JStr u ∧ pinned_to w); [apply hoare_ask; by intros w [? ?]|].
  intros p. apply hoare_fact. intros ->. rewrite truthy_str by done. apply stable_throw.
Qed.

Lemma pinned_request d timeout update revision : stable pinned_to (request fuel ns nm d timeout update revision).
Proof using Hu.
  unfold request. do 2 (apply stable_bind; [auto with stable|]; intros ?). cbv zeta.
  apply stable_forever. intros _. apply stable_bind; [auto with stable|]. intros t.
  destruct (Qle_bool _ _); [auto with stable|].
  eapply hoare_bind with (R := λ p w, p.2 = JStr u ∧ pinned_to w).
  { unfold read_pinned. eapply hoare_bind; [apply pinned_read_required_stable|]. intros v.
    eapply hoare_bind with (R := λ p w, p = JStr u ∧ pinned_to w); [apply hoare_ask; by intros w [? ?]|].
    intros p. by apply hoare_ret. }
  intros [current p]. simpl. apply hoare_fact. intros ->.
  match goal with |- hoare _ ?m _ _ => change (stable pinned_to m) end. stable_auto.
  apply stable_try.
  - apply stable_bind; [|stable_auto]. apply pinned_run_json. by right.
  - intros e k. destruct (is_conflict e); [|done]. intros [= <-]. auto with stable.
Qed.

Lemma pinned_delete_object v timeout wait propagation :
  meta_index "uid" v = Ok (JStr u) → stable pinned_to (delete_object fuel v timeout wait propagation true).
Proof.
  intros Hv. unfold delete_object. apply hoare_pure_bind; [done|]. intros metadata Hm.
  assert (index "uid" metadata = Ok (JStr u)) as Hx by (unfold meta_index in Hv; by rewrite Hm in Hv).
  match goal with |- hoare _ ?m _ _ => change (stable pinned_to m) end. rewrite Hx.
  apply stable_bind; [auto with stable|]. intros version.
  apply stable_bind; [apply pinned_run_json; by left|]. intros found.
  do 3 (apply stable_bind; [auto with stable|]; intros ?).
  match goal with |- stable _ (match ?x with _ => _ end) => destruct x end; [|auto with stable].
  do 4 (apply stable_bind; [stable_auto|]; intros ?).
  apply hoare_pure_bind; [done|]. intros x [= <-].
  match goal with |- hoare _ ?m _ _ => change (stable pinned_to m) end.
  apply stable_bind; [stable_auto|]. intros rv.
  apply stable_bind; [|stable_auto]. apply pinned_run. right. by eexists _, _.
Qed.

Lemma pinned_wait_instance timeout : stable pinned_to (wait_instance_deleted fuel ns nm timeout).
Proof using Hu. unfold wait_instance_deleted. stable_auto. Qed.
#[local] Hint Resolve pinned_wait_instance : stable.

Lemma pinned_delete timeout wait : stable pinned_to (delete fuel ns nm timeout wait).
Proof using Hu.
  unfold delete. do 2 (apply stable_bind; [auto with stable|]; intros ?). cbv zeta.
  apply stable_bind; [|stable_auto]. apply stable_forever. intros _.
  apply stable_bind; [auto with stable|]. intros t. destruct (Qle_bool _ _); [auto with stable|].
  eapply hoare_bind; [apply pinned_read|]. intros [current|]; [|apply hoare_ret; by intros w [? _]].
  eapply hoare_weaken with (P' := λ w, meta_index "uid" current = Ok (JStr u) ∧ pinned_to w)
      (Q' := λ _, pinned_to) (E' := pinned_to);
    [|intros w [? Hv]; split; [by apply Hv|done]|done..].
  apply hoare_fact. intros Hv. match goal with |- hoare _ ?m _ _ => change (stable pinned_to m) end.
  stable_auto. apply stable_try.
  - apply stable_bind; [by apply pinned_delete_object|auto with stable].
  - intros e k. destruct (is_conflict e); [intros [= <-]; auto with stable|].
    destruct (deployment_error e); [|done]. intros [= <-]. stable_auto.
Qed.

Lemma pinned_access : stable pinned_to (access ns nm).
Proof using Hu. unfold access, controller_name. stable_auto. Qed.
Lemma pinned_bind d : stable pinned_to (bind kustomize ns nm d).
Proof using Hu. unfold bind. stable_auto. Qed.
Lemma pinned_recover allow refs st : stable pinned_to (recover_all ns nm allow refs st).
Proof using Hu.
  revert st. induction refs as [|r refs IH]; intros st; simpl; [auto with stable|].
  unfold recover_document. stable_auto; apply IH.
Qed.
Lemma pinned_deployment allow missing : stable pinned_to (deployment ns nm allow missing).
Proof using Hu. pose proof pinned_recover. unfold deployment. stable_auto. Qed.
Lemma pinned_wait_ready timeout observe :
  stable pinned_to observe → stable pinned_to (wait_ready fuel ns nm timeout observe).
Proof using Hu. intros Ho. unfold wait_ready. stable_auto. Qed.
End Invariant.

(** [m] leaves the instance pinned to [u] and writes only to the record [u]. *)
Definition stays_on (u : string) {A} (m : IO A) (w : world) : Prop :=
  let w' := (m w).2 in
  i_uid (inst (self w')) = JStr u ∧ extends (λ _, names_uid u) (trace w) (trace w').

Lemma stays_of {A} u (m : IO A) w :
  i_uid (inst (self w)) = JStr u → (∀ tr0, stable (pinned_to u tr0) m) → stays_on u m w.
Proof.
  intros Hw Hm. specialize (Hm (trace w) w (conj Hw (extends_refl _ _))).
  unfold stays_on. by destruct (m w) as [[a|e|] w'].
Qed.

(** C10: a replacement never inherits an operation.  Once an instance is pinned
    to the UID [u], by its user or by its first read, every operation of
    [DeploymentInstance] keeps it pinned to [u], and each of its patches and
    deletions names [u] as a precondition; nothing is created any more.  This holds
    whatever the cluster answers, also when the record of that name was deleted and
    created anew in between, and on every error path. *)
Theorem instance_writes_pinned u d timeout update revision observe required wait allow missing w :
  u ≠ "" → i_uid (inst (self w)) = JStr u → (∀ tr0, stable (pinned_to u tr0) observe) →
  stays_on u (read ns nm required) w ∧ stays_on u (ensure ns nm d) w ∧
  stays_on u (request fuel ns nm d timeout update revision) w ∧
  stays_on u (wait_ready fuel ns nm timeout observe) w ∧
  stays_on u (delete fuel ns nm timeout wait) w ∧ stays_on u (access ns nm) w ∧
  stays_on u (bind kustomize ns nm d) w ∧ stays_on u (deployment ns nm allow missing) w.
Proof.
  intros Hu Hw Ho. split_and!; (apply stays_of; [done|]); intros tr0.
  - by apply pinned_read_stable.
  - by apply pinned_ensure.
  - by apply pinned_request.
  - by apply pinned_wait_ready.
  - by apply pinned_delete.
  - by apply pinned_access.
  - by apply pinned_bind.
  - by apply pinned_deployment.
Qed.
End Pinned.

(** ** Waiting for the controller *)

(** The record [v] answers the request [expected]: it is the same request, the
    record is not being deleted, and the controller has reported this generation
    Ready with this revision. *)
Definition ready_for (expected : json * json * json) (v revision : json) : Prop :=
  ∃ observed status0 c,
    request_identity v = Ok observed ∧ same_identity observed expected = true ∧
    deleting v = Ok false ∧ get "status" v = Ok status0 ∧
    let status := or_ status0 (JObj []) in
    ready_condition status = Ok (Some c) ∧
    (∃ g, get "observedGeneration" status = Ok g ∧ py_eqb g expected.1.2 = true) ∧
    (∃ g, get "observedGeneration" c = Ok g ∧ py_eqb g expected.1.2 = true) ∧
    index "status" c = Ok (JStr "True") ∧
    get "controllerRevision" status = Ok revision ∧ truthy revision = true.

Lemma judge_ready `{PythonRepr} nm expected message v revision :
  judge nm expected message v = Ok (inr revision) → ready_for expected v revision.
Proof.
  unfold judge. intros (observed & Ho & H1)%outcome_bind_Ok.
  destruct (same_identity observed expected) eqn:Es; [|done]. simpl in H1.
  apply outcome_bind_Ok in H1 as (del & Hd & H1). destruct del; [done|].
  apply outcome_bind_Ok in H1 as (status0 & Hs & H1). cbv zeta in H1.
  apply outcome_bind_Ok in H1 as (ready & Hr & H1).
  apply outcome_bind_Ok in H1 as (m & _ & H1). apply outcome_bind_Ok in H1 as (g & Hg & H1).
  destruct ready as [c|]; [|done]. destruct (py_eqb g expected.1.2) eqn:Eg; [|done]. simpl in H1.
  apply outcome_bind_Ok in H1 as (g' & Hg' & H1). destruct (py_eqb g' expected.1.2) eqn:Eg'; [|done].
  simpl in H1. apply outcome_bind_Ok in H1 as (s & Hst & H1).
  destruct (is_str "False" s); [done|]. destruct (is_str "True" s) eqn:Et; [|done].
  apply outcome_bind_Ok in H1 as (rev & Hrev & [= H1]). destruct (truthy rev) eqn:Etr; [|done].
  injection H1 as ->. destruct s; try done. simpl in Et. apply eqb_true in Et as ->.
  exists observed, status0, c. simpl. split_and!; by eauto.
Qed.

Section Happened.
Context {C T : Type} `{Kubectl C} `{PythonRepr} `{Codec} `{JsonText}.
Abbreviation world := (world C (operation T)).
Abbreviation IO := (IO world).
Variable fuel : nat.
Variables ns nm : string.

(** The call [e] has been made. *)
Definition happened (e : call * reply) (w : world) : Prop := e ∈ trace w.

Lemma happened_now e : stable (happened e) now.
Proof. apply stable_now. intros w n Hw. exact Hw. Qed.
Lemma happened_run e c : stable (happened e) (run c).
Proof. apply stable_run. intros w rep c' Hw. by right. Qed.
Lemma happened_self e f : stable (happened e) (on_self f).
Proof. apply stable_on_self. intros w Hw. exact Hw. Qed.
#[local] Hint Resolve happened_now happened_run happened_self : stable.
Lemma happened_get e k n s : stable (happened e) (get_if_exists k n s).
Proof. unfold get_if_exists, decode_object. stable_auto. Qed.
#[local] Hint Resolve happened_get : stable.
Lemma happened_get_resources e refs : stable (happened e) (get_resources refs).
Proof. unfold get_resources, decode_resource_list, decode_object. stable_auto. Qed.
Lemma happened_read e required : stable (happened e) (read ns nm required).
Proof. unfold read, get_uid, set_uid, set_resource, set_instance. stable_auto. Qed.

Lemma happened_read_required e : stable (happened e) (read_required ns nm).
Proof. unfold read_required. apply stable_bind; [apply happened_read|stable_auto]. Qed.

(** A record that is read has been shown. *)
Lemma read_happened :
  hoare (λ _, True) (read_required ns nm)
    (λ v, happened (GetObject DEPLOYMENT_RESOURCE nm ns true, Output (Some v))) (λ _, True).
Proof.
  unfold read_required, read. eapply hoare_bind with (R := λ r w, ∀ v, r = Some v →
    happened (GetObject DEPLOYMENT_RESOURCE nm ns true, Output (Some v)) w).
  2: { intros [v|]; [|by apply hoare_throw]. apply hoare_ret. intros w Hw. by apply Hw. }
  eapply hoare_bind with (R := λ r w, ∀ v, r = Some v →
    happened (GetObject DEPLOYMENT_RESOURCE nm ns true, Output (Some v)) w).
  { intros w _. unfold get_if_exists, mbind, IO_bind, run. destruct (serve _ _) as [[[j|]| |] c']; try done.
    unfold decode_object, mbind, IO_bind, mret, IO_ret. destruct (is_dict j); [|done].
    intros v [= <-]. by left. }
  intros [current|]; [|by apply hoare_throw].
  set (F := happened (GetObject DEPLOYMENT_RESOURCE nm ns true, Output (Some current))).
  eapply hoare_weaken with (P' := F) (Q' := λ r w, r = Some current ∧ F w) (E' := λ _, True);
    [|intros w Hw; by apply Hw|by intros r w [-> ?] v [= <-]|done].
  apply hoare_pure_bind; [done|]. intros u _.
  eapply hoare_bind with (R := λ _, F); [by apply hoare_ask|]. intros p.
  destruct (truthy p && _); [by apply hoare_throw|].
  do 2 (eapply hoare_bind with (R := λ _, F); [by apply hoare_change|]; intros _).
  by apply hoare_ret.
Qed.

(** [wait_ready] returns only for the record it was asked about. *)
Lemma wait_ready_shown e (observe : IO unit) resource timeout :
  (∀ e, stable (happened e) observe) →
  hoare (λ w, happened e w ∧ i_resource (inst (self w)) = Some resource)
    (wait_ready fuel ns nm timeout observe)
    (λ revision w, happened e w ∧ ∃ expected v, request_identity resource = Ok expected ∧
       happened (GetObject DEPLOYMENT_RESOURCE nm ns true, Output (Some v)) w ∧
       ready_for expected v revision) (λ _, True).
Proof.
  intros Ho. unfold wait_ready.
  eapply hoare_bind with (R := λ r w, r = Some resource ∧ happened e w).
  { apply hoare_ask. by intros w [? ->]. }
  intros r. apply hoare_fact. intros ->. apply hoare_pure_bind; [done|]. intros expected Hx.
  eapply hoare_bind with (R := λ _, happened e); [intros w Hw; exact Hw|]. intros start.
  apply hoare_pure_bind; [done|]. intros secs _. cbv zeta.
  apply (hoare_forever (λ _, happened e)); [|done]. intros message.
  eapply hoare_bind with (R := λ _, happened e); [intros w Hw; exact Hw|]. intros t.
  destruct (Qle_bool _ _); [by apply hoare_throw|].
  eapply hoare_bind with (R := λ v w, happened e w ∧ happened (GetObject DEPLOYMENT_RESOURCE nm ns true, Output (Some v)) w).
  { eapply hoare_weaken with (P' := λ w, happened e w ∧ True) (E' := λ w, happened e w ∧ True);
      [apply hoare_conj; [apply happened_read_required|apply read_happened]|done|by intros v w Hw|done]. }
  intros v. eapply hoare_bind with (R := λ _ w, happened e w ∧ happened (GetObject DEPLOYMENT_RESOURCE nm ns true, Output (Some v)) w).
  { eapply hoare_weaken; [apply hoare_conj; [apply (Ho e)|apply (Ho (GetObject DEPLOYMENT_RESOURCE nm ns true, Output (Some v)))]|done|by intros a w Hw|done]. }
  intros _. apply hoare_pure_bind; [done|]. intros [m|revision] Hj.
  - intros w [? _]. done.
  - apply hoare_ret. intros w [He Hv]. split; [done|]. exists expected, v. split_and!; [done..|].
    by eapply judge_ready.
Qed.
End Happened.
