(* ===== verification/Emits.v ===== *)
(** * Trace specifications of commands

    [emits m Q E]: whatever the cluster does, the calls that [m] adds to the trace,
    newest first, satisfy [Q a] when it returns [a] and [E] when it does not.
    Postconditions speak about the calls of this command only, so that they
    compose by concatenation. *)

From S2P Require Import Prelude Text Kube Effects Client Manifest Instances Fencing.

Abbreviation calls := (list (call * reply)).

(** The call changes no object. *)
Definition reading (e : call * reply) : Prop := is_write e.1 = false.

Section Emits.
Context {C S : Type} `{Kubectl C}.
Abbreviation IO := (IO (world C S)).

Definition emits {A} (m : IO A) (Q : A → calls → Prop) (E : calls → Prop) : Prop :=
  ∀ w, ∃ new, trace (m w).2 = new ++ trace w ∧ match (m w).1 with Returned a => Q a new | _ => E new end.

Lemma emits_weaken {A} (m : IO A) (Q Q' : A → calls → Prop) (E E' : calls → Prop) :
  emits m Q E → (∀ a n, Q a n → Q' a n) → (∀ n, E n → E' n) → emits m Q' E'.
Proof.
  intros Hm HQ HE w. destruct (Hm w) as (new & Hn & Hq). exists new. split; [done|].
  destruct (m w) as [[a|e|] w']; simpl in *; auto.
Qed.

Lemma emits_conj {A} (m : IO A) Q E Q' E' :
  emits m Q E → emits m Q' E' → emits m (λ a n, Q a n ∧ Q' a n) (λ n, E n ∧ E' n).
Proof.
  intros Hm Hm' w. destruct (Hm w) as (new & Hn & Hq). destruct (Hm' w) as (new' & Hn' & Hq').
  assert (new = new') as -> by (rewrite Hn in Hn'; by apply app_inv_tail in Hn').
  exists new'. split; [done|]. by destruct (m w) as [[a|e|] w'].
Qed.

Lemma emits_ret {A} (a : A) (Q : A → calls → Prop) E : Q a [] → emits (mret a) Q E.
Proof. intros HQ w. by exists []. Qed.
Lemma emits_ret_bind {A B} (a : A) (k : A → IO B) (Q : B → calls → Prop) E : emits (k a) Q E → emits (mret a ≫= k) Q E.
Proof. intros Hk w. exact (Hk w). Qed.
Lemma emits_throw {A} e (Q : A → calls → Prop) (E : calls → Prop) : E [] → emits (throw e) Q E.
Proof. intros HE w. by exists []. Qed.
Lemma emits_ask {A} f (Q : A → calls → Prop) E : (∀ a, Q a []) → emits (ask f) Q E.
Proof. intros HQ w. exists []. split; [done|apply HQ]. Qed.
Lemma emits_on_self f (Q : unit → calls → Prop) E : Q tt [] → emits (on_self f) Q E.
Proof. intros HQ w. by exists []. Qed.
Lemma emits_now (Q : _ → calls → Prop) E : (∀ t, Q t []) → emits now Q E.
Proof. intros HQ w. exists []. split; [done|apply HQ]. Qed.

Lemma emits_run c (Q : option (option json) → calls → Prop) E :
  (∀ v, Q (Some v) [(c, Output v)]) → (∀ t, Q None [(c, Unparsed t)]) → (∀ d, E [(c, Failed d)]) →
  emits (run c) Q E.
Proof.
  intros HO HU HF w. unfold run. destruct (serve c (cluster w)) as [[v|t|d] c'];
    [exists [(c, Output v)]|exists [(c, Unparsed t)]|exists [(c, Failed d)]]; simpl; auto.
Qed.

(** The text of an answer *)
Definition prints `{Printer} (r : reply) (s : string) : Prop :=
  match r with
  | Output (Some j) => s = printed j
  | Output None => s = ""
  | Unparsed text => s = text
  | Failed _ => False
  end.
Lemma emits_call_text `{Printer} fail c (Q : string → calls → Prop) E :
  (∀ s r, prints r s → Q s [(c, r)]) → (∀ d, E [(c, Failed d)]) → emits (call_text fail c) Q E.
Proof.
  intros HQ HF w. unfold call_text. destruct (serve c (cluster w)) as [[v|t|d] c'];
    [exists [(c, Output v)]|exists [(c, Unparsed t)]|exists [(c, Failed d)]]; (split; [done|]); simpl;
    [apply HQ; by destruct v|by apply HQ|apply HF].
Qed.
Lemma emits_run_text `{Printer} c (Q : string → calls → Prop) E :
  (∀ s r, prints r s → Q s [(c, r)]) → (∀ d, E [(c, Failed d)]) → emits (run_text c) Q E.
Proof. apply emits_call_text. Qed.

Lemma emits_bind {A B} (m : IO A) (k : A → IO B) R (Q : B → calls → Prop) (E : calls → Prop) :
  emits m R E →
  (∀ a, emits (k a) (λ b n, ∀ n0, R a n0 → Q b (n ++ n0)) (λ n, ∀ n0, R a n0 → E (n ++ n0))) →
  emits (m ≫= k) Q E.
Proof.
  intros Hm Hk w. destruct (Hm w) as (n0 & Hn0 & HR). unfold mbind, IO_bind.
  destruct (m w) as [[a|e|] w1]; simpl in *; [|by exists n0..].
  destruct (Hk a w1) as (n & Hn & HQ). exists (n ++ n0). rewrite <-app_assoc, <-Hn0. split; [done|].
  destruct (k a w1) as [[b|e|] w2]; simpl in *; auto.
Qed.

(** For what a command has seen when it returns *)
Lemma emits_seq {A B} (m : IO A) (k : A → IO B) R (Q : B → calls → Prop) :
  emits m R (λ _, True) → (∀ a, emits (k a) (λ b n, ∀ n0, R a n0 → Q b (n ++ n0)) (λ _, True)) →
  emits (m ≫= k) Q (λ _, True).
Proof.
  intros Hm Hk. eapply emits_bind; [exact Hm|]. intros a. by eapply emits_weaken; [apply Hk|..].
Qed.

Lemma emits_pure {A} (r : outcome A) (Q : A → calls → Prop) (E : calls → Prop) :
  (∀ a, r = Ok a → Q a []) → (∀ e, r = Raise e → E []) → emits (pure r) Q E.
Proof. intros HQ HE w. exists []. unfold pure. destruct r; simpl; split; eauto. Qed.

Lemma emits_pure_bind {A B} (r : outcome A) (k : A → IO B) (Q : B → calls → Prop) (E : calls → Prop) :
  (∀ a, r = Ok a → emits (k a) Q E) → E [] → emits (pure r ≫= k) Q E.
Proof.
  intros Hk HE w. unfold mbind, IO_bind, pure. destruct r as [a|e]; [apply (Hk a eq_refl)|by exists []].
Qed.

Lemma emits_answer c : emits (run c) (λ v n, ∃ r, n = [(c, r)] ∧ ∀ x, v = Some x → r = Output x) (λ _, True).
Proof.
  apply emits_run; [intros v|intros t|done]; [exists (Output v)|exists (Unparsed t)]; (split; [done|]); by intros x [= ->].
Qed.

Lemma emits_run_json c : emits (run_json c) (λ j n, n = [(c, Output (Some j))]) (λ _, True).
Proof.
  eapply (emits_bind _ _ (λ v n, ∃ r, n = [(c, r)] ∧ ∀ x, v = Some x → r = Output x)); [apply emits_answer|].
  intros [[j|]|]; [apply emits_ret|by apply emits_throw..]. intros n (r & -> & Hr). by rewrite (Hr _ eq_refl).
Qed.

Lemma emits_try {A} (m : IO A) h (Q : A → calls → Prop) (E : calls → Prop) :
  emits m Q E → (∀ e k, h e = Some k → emits k (λ a n, ∀ n0, E n0 → Q a (n ++ n0)) (λ n, ∀ n0, E n0 → E (n ++ n0))) →
  emits (try_except m h) Q E.
Proof.
  intros Hm Hh w. destruct (Hm w) as (n0 & Hn0 & HR). unfold try_except.
  destruct (m w) as [[a|e|] w1]; simpl in *; [by exists n0| |by exists n0].
  destruct (h e) as [k|] eqn:Ek; [|by exists n0].
  destruct (Hh e k Ek w1) as (n & Hn & HQ). exists (n ++ n0). rewrite <-app_assoc, <-Hn0. split; [done|].
  destruct (k w1) as [[b|e'|] w2]; simpl in *; auto.
Qed.

Lemma emits_recover {A} (m : IO A) h (Q : A → calls → Prop) :
  emits m Q (λ _, True) → (∀ e k, h e = Some k → emits k (λ a n, ∀ n0, Q a (n ++ n0)) (λ _, True)) →
  emits (try_except m h) Q (λ _, True).
Proof.
  intros Hm Hh. apply emits_try; [exact Hm|]. intros e k Hk. eapply emits_weaken; [exact (Hh e k Hk)|..]; auto.
Qed.

(** Facts that more calls before or after do not change *)
Definition lasting (P : calls → Prop) : Prop := ∀ a n b, P n → P (a ++ n ++ b).

Lemma lasting_called e : lasting (λ n, e ∈ n).
Proof. intros a n b He. rewrite !elem_of_app. auto. Qed.
Lemma lasting_true : lasting (λ _, True).
Proof. done. Qed.
Lemma lasting_const (P : Prop) : lasting (λ _, P).
Proof. by intros a n b. Qed.
Lemma lasting_and P P' : lasting P → lasting P' → lasting (λ n, P n ∧ P' n).
Proof. intros H1 H2 a n b [??]. split; auto. Qed.
Lemma lasting_or P P' : lasting P → lasting P' → lasting (λ n, P n ∨ P' n).
Proof. intros H1 H2 a n b [?|?]; [left|right]; auto. Qed.
Lemma lasting_ex {X} (P : X → calls → Prop) : (∀ x, lasting (P x)) → lasting (λ n, ∃ x, P x n).
Proof. intros HP a n b [x ?]. exists x. by apply HP. Qed.
Lemma lasting_impl (F : Prop) P : lasting P → lasting (λ n, F → P n).
Proof. intros HP a n b Hn HF. apply HP. auto. Qed.

(** A fact about every element and its result *)
Lemma emits_collect {A B} (R : A → B → calls → Prop) (f : A → IO B) l :
  (∀ x y, lasting (R x y)) → (∀ x, x ∈ l → emits (f x) (R x) (λ _, True)) →
  emits (collect f l) (λ ys n, Forall2 (λ x y, R x y n) l ys) (λ _, True).
Proof.
  intros HR. induction l as [|x l IH]; intros Hf; simpl; [by apply emits_ret|].
  eapply emits_seq; [apply Hf; left|]. intros y.
  eapply emits_seq; [apply IH; intros x' Hx; apply Hf; by right|]. intros ys.
  apply emits_ret. intros n1 Hys n0 Hy. simpl. constructor.
  - rewrite <-(app_nil_r n0). by apply HR.
  - eapply Forall2_impl; [exact Hys|]. intros x' y' HR'. by apply (HR x' y' []).
Qed.

Lemma emits_each {A} (R : A → calls → Prop) (f : A → IO unit) l :
  (∀ x, lasting (R x)) → (∀ x, x ∈ l → emits (f x) (λ _, R x) (λ _, True)) →
  emits (each l f) (λ _ n, Forall (λ x, R x n) l) (λ _, True).
Proof.
  intros HR. induction l as [|x l IH]; intros Hf; simpl; [by apply emits_ret|].
  eapply emits_seq; [apply Hf; left|]. intros u.
  eapply emits_weaken; [apply IH; intros x' Hx; apply Hf; by right| |done].
  intros v n1 Hl n0 Hx. constructor.
  - rewrite <-(app_nil_r n0). by apply HR.
  - eapply Forall_impl; [exact Hl|]. intros x' HR'. by apply (HR x' []).
Qed.

(** A loop with an invariant of its state and the calls so far *)
Lemma emits_forever {St A} (Inv : St → calls → Prop) (Q : A → calls → Prop) fuel (body : St → IO (St + A)) s :
  (∀ s, emits (body s) (λ r n, ∀ n0, Inv s n0 → match r with inl s' => Inv s' (n ++ n0) | inr a => Q a (n ++ n0) end)
          (λ _, True)) →
  Inv s [] → emits (forever fuel body s) Q (λ _, True).
Proof.
  intros Hb Hs. enough (∀ s n0, Inv s n0 → emits (forever fuel body s) (λ a n, Q a (n ++ n0)) (λ _, True)) as Hall.
  { eapply emits_weaken; [by apply (Hall s [])| |done]. intros a n Hq. cbv beta in Hq. by rewrite app_nil_r in Hq. }
  clear s Hs. induction fuel as [|fuel IH]; intros s n0 Hs.
  { intros w. by exists []. }
  intros w. simpl. unfold mbind, IO_bind. destruct (Hb s w) as (n1 & Hn1 & HR).
  destruct (body s w) as [[[s'|a]|e|] w1]; simpl in *; [|by exists n1; eauto..].
  destruct (IH s' (n1 ++ n0) (HR n0 Hs) w1) as (n & Hn & HQ). exists (n ++ n1). rewrite <-!app_assoc, <-Hn1.
  split; [done|]. destruct (forever fuel body s' w1) as [[]]; done.
Qed.

(** ** What the reads of the client have seen *)

Lemma emits_decode (r : option (option json)) :
  emits (decode_object r) (λ j n, n = [] ∧ r = Some (Some j) ∧ is_dict j = true) (λ _, True).
Proof.
  unfold decode_object. destruct r as [[j|]|]; [|by apply emits_throw..].
  destruct (is_dict j) eqn:E; [by apply emits_ret|by apply emits_throw].
Qed.

(** The items of a list that was printed *)
Definition listed (j : json) (l : list json) : Prop :=
  ∃ items, get "items" j = Ok items ∧ or_ items (JArr []) = JArr l.
Lemma emits_decode_list (r : option (option json)) :
  emits (decode_resource_list r) (λ l n, n = [] ∧ ∃ j, r = Some (Some j) ∧ listed j l) (λ _, True).
Proof.
  eapply emits_seq; [apply emits_decode|]. intros j.
  apply emits_pure_bind; [|done]. intros items Hi.
  destruct (or_ items (JArr [])) as [| | | | |l|] eqn:El; try by apply emits_throw.
  destruct (forallb is_dict l); [|by apply emits_throw].
  apply emits_ret. intros n (-> & -> & Hd). split; [done|]. exists j. split; [done|]. by exists items.
Qed.

(** One call whose answer decides *)
Lemma emits_run_then {A} c (k : option (option json) → IO A) (Q : A → calls → Prop) :
  (∀ v, emits (k (Some v)) (λ a n, Q a (n ++ [(c, Output v)])) (λ _, True)) →
  (∀ t, emits (k None) (λ a n, Q a (n ++ [(c, Unparsed t)])) (λ _, True)) →
  emits (run c ≫= k) Q (λ _, True).
Proof.
  intros HO HU w. unfold mbind, IO_bind, run. destruct (serve c (cluster w)) as [[v|t|d] c'].
  - destruct (HO v (World c' (ticks w) ((c, Output v) :: trace w) (self w))) as (n & Hn & HQ).
    exists (n ++ [(c, Output v)]). by rewrite <-app_assoc.
  - destruct (HU t (World c' (ticks w) ((c, Unparsed t) :: trace w) (self w))) as (n & Hn & HQ).
    exists (n ++ [(c, Unparsed t)]). by rewrite <-app_assoc.
  - by exists [(c, Failed d)].
Qed.

Lemma emits_get_if_exists k nm ns :
  emits (get_if_exists k nm ns)
    (λ v n, n = [(GetObject k nm ns true, Output v)] ∧ from_option (λ o, is_dict o = true) True v) (λ _, True).
Proof.
  apply emits_run_then; [intros [j|]|intros t].
  - eapply emits_seq; [apply emits_decode|]. intros o. apply emits_ret. by intros n (-> & [= <-] & Hd).
  - by apply emits_ret.
  - eapply emits_seq; [apply emits_decode|]. intros o. apply emits_ret. by intros n (-> & [=] & _).
Qed.

Lemma emits_get_object k nm ns :
  emits (get_object k nm ns) (λ o n, n = [(GetObject k nm ns false, Output (Some o))] ∧ is_dict o = true) (λ _, True).
Proof.
  apply emits_run_then; [intros v|intros t]; (eapply emits_weaken; [apply emits_decode| |done]).
  - by intros o n (-> & [= ->] & Hd).
  - by intros o n (_ & [=] & _).
Qed.

Lemma emits_list c :
  emits (r ← run c; decode_resource_list r) (λ l n, ∃ j, n = [(c, Output (Some j))] ∧ listed j l) (λ _, True).
Proof.
  apply emits_run_then; [intros v|intros t]; (eapply emits_weaken; [apply emits_decode_list| |done]).
  - intros l n (-> & j & [= ->] & Hl). by exists j.
  - by intros l n (_ & j & [=] & _).
Qed.

Lemma emits_api_resources `{Printer} group :
  emits (api_resource_names group)
    (λ l n, ∃ r s, n = [(ApiResources group, r)] ∧ prints r s ∧ l = keep nonempty (strip <$> splitlines s)) (λ _, True).
Proof.
  eapply emits_seq; [apply (emits_run_text _ (λ s n, ∃ r, n = [(ApiResources group, r)] ∧ prints r s)); [by eauto|done]|].
  intros s. apply emits_ret. intros n (r & -> & Hp). by exists r, s.
Qed.

(** ** Commands all of whose calls satisfy a predicate *)

Definition only {A} (P : call * reply → Prop) (m : IO A) : Prop :=
  emits m (λ _ n, Forall P n) (λ n, Forall P n).

Lemma only_weaken {A} (P Q : call * reply → Prop) (m : IO A) : (∀ e, P e → Q e) → only P m → only Q m.
Proof. intros HPQ Hm. eapply emits_weaken; [exact Hm|..]; intros * Hn; by apply (Forall_impl P). Qed.
Lemma only_bind {A B} P (m : IO A) (k : A → IO B) : only P m → (∀ a, only P (k a)) → only P (m ≫= k).
Proof.
  intros Hm Hk. eapply emits_bind; [exact Hm|]. intros a.
  eapply emits_weaken; [apply Hk|..]; intros; by apply Forall_app.
Qed.
Lemma only_pure {A} P (r : outcome A) : only P (pure r).
Proof. by apply emits_pure. Qed.
Lemma only_pure_bind {A B} P (r : outcome A) (k : A → IO B) :
  (∀ a, r = Ok a → only P (k a)) → only P (pure r ≫= k).
Proof. intros Hk. by apply emits_pure_bind. Qed.
Lemma only_ret {A} P (a : A) : only P (mret a).
Proof. by apply emits_ret. Qed.
Lemma only_throw {A} P e : only P (throw e : IO A).
Proof. by apply emits_throw. Qed.
Lemma only_ask {A} P (f : _ → A) : only P (ask f).
Proof. by apply emits_ask. Qed.
Lemma only_on_self P f : only P (on_self f).
Proof. by apply emits_on_self. Qed.
Lemma only_now P : only P now.
Proof. by apply emits_now. Qed.
Lemma only_run (P : call * reply → Prop) c : (∀ r, P (c, r)) → only P (run c).
Proof. intros HP. apply emits_run; intros; by repeat constructor. Qed.
Lemma only_run_text `{Printer} (P : call * reply → Prop) c : (∀ r, P (c, r)) → only P (run_text c).
Proof. intros HP. apply emits_run_text; intros; by repeat constructor. Qed.
Lemma only_call_text `{Printer} (P : call * reply → Prop) fail c : (∀ r, P (c, r)) → only P (call_text fail c).
Proof. intros HP. apply emits_call_text; intros; by repeat constructor. Qed.
Lemma only_try {A} P (m : IO A) h : only P m → (∀ e k, h e = Some k → only P k) → only P (try_except m h).
Proof.
  intros Hm Hh. apply emits_try; [exact Hm|]. intros e k Hk.
  eapply emits_weaken; [exact (Hh e k Hk)|..]; intros; by apply Forall_app.
Qed.
Lemma only_skip P b (m : IO unit) : only P m → only P (skip_unless b m).
Proof. intros. destruct b; [done|apply only_ret]. Qed.
Lemma only_each {A} P (l : list A) f : (∀ x, only P (f x)) → only P (each l f).
Proof.
  intros Hf. induction l; simpl; [apply only_ret|]. apply only_bind; [apply Hf|done].
Qed.
Lemma only_collect {A B} P (f : A → IO B) l : (∀ x, only P (f x)) → only P (collect f l).
Proof.
  intros Hf. induction l; simpl; [apply only_ret|].
  apply only_bind; [apply Hf|]. intros y. apply only_bind; [done|]. intros ys. apply only_ret.
Qed.
Lemma only_forever {St A} (P : call * reply → Prop) fuel (body : St → IO (St + A)) s :
  (∀ s, only P (body s)) → only P (forever fuel body s).
Proof.
  intros Hb. revert s. induction fuel as [|fuel IH]; intros s; [intros w; by exists []; split; [|constructor]|].
  simpl. apply only_bind; [apply Hb|]. intros [|]; [apply IH|apply only_ret].
Qed.
End Emits.

Create HintDb lasting discriminated.
#[export] Hint Resolve lasting_called lasting_true lasting_const lasting_and lasting_or lasting_ex lasting_impl : lasting.

Create HintDb only discriminated.
#[export] Hint Resolve only_pure only_ret only_throw only_ask only_on_self only_now : only.

(** Decompose a command along its syntax; what is left are its calls. *)
Ltac only_step :=
  match goal with
  | |- only _ (mbind _ _) => apply only_bind; [|intros ?]
  | |- only _ (skip_unless _ _) => apply only_skip
  | |- only _ (each _ _) => apply only_each; intros ?
  | |- only _ (collect _ _) => apply only_collect; intros ?
  | |- only _ (forever _ _ _) => apply only_forever; intros ?
  | |- only _ (let _ := _ in _) => cbv zeta
  | |- only _ (match ?x with _ => _ end) => destruct x
  | |- only _ _ => solve [auto with only]
  end.
Ltac only_auto := intros; repeat only_step.

(** ** Operations of the client *)

Section Client.
Context {C S : Type} `{Kubectl C}.
Abbreviation IO := (IO (world C S)).

Lemma only_run_json (P : call * reply → Prop) c : (∀ r, P (c, r)) → only P (run_json c : IO _).
Proof. intros HP. unfold run_json. apply only_bind; [by apply only_run|]. only_auto. Qed.
Lemma only_decode P o : only P (decode_object o : IO _).
Proof. unfold decode_object. only_auto. Qed.
#[local] Hint Resolve only_decode : only.
Lemma only_get_if_exists (P : call * reply → Prop) k n ns :
  (∀ r, P (GetObject k n ns true, r)) → only P (get_if_exists k n ns : IO _).
Proof.
  intros HP. unfold get_if_exists. apply only_bind; [by apply only_run|]. only_auto.
Qed.
Lemma only_list (P : call * reply → Prop) c : (∀ r, P (c, r)) → only P (r ← run c; decode_resource_list r : IO _).
Proof.
  intros HP. apply only_bind; [by apply only_run|]. intros o. unfold decode_resource_list. only_auto.
Qed.
Lemma only_delete_object (P : call * reply → Prop) fuel v timeout wait propagation version :
  (∀ p r, P (GetRaw p, r)) → (∀ p o r, P (DeleteRaw p o, r)) → (∀ k n ns r, P (GetObject k n ns true, r)) →
  only P (delete_object fuel v timeout wait propagation version : IO _).
Proof.
  intros HG HD HO. unfold delete_object, wait_deleted. only_auto;
    try (apply only_run_json, HG); try (apply only_run, HD).
  apply only_get_if_exists, HO.
Qed.
End Client.
#[export] Hint Resolve only_decode : only.

(** ** Calls that earlier calls allow

    [obeys P m]: whatever the cluster does, every call of [m] satisfies [P] with
    the calls [m] has made before it.  What a command has read is carried to the
    calls that rely on it by [obeys_seq]. *)

(** Every call, newest first, with the calls before it *)
Fixpoint ordered (P : calls → call * reply → Prop) (n : calls) : Prop :=
  match n with
  | [] => True
  | e :: n => P n e ∧ ordered P n
  end.

(** Facts that more calls do not change *)
Definition growing (F : calls → Prop) : Prop := ∀ n m, n ⊆ m → F n → F m.

Lemma growing_called e : growing (λ n, e ∈ n).
Proof. intros n m Hnm He. by apply Hnm. Qed.
Lemma growing_const (F : Prop) : growing (λ _, F).
Proof. by intros n m _. Qed.
Lemma growing_and F G : growing F → growing G → growing (λ n, F n ∧ G n).
Proof. intros HF HG n m Hnm [??]. split; eauto. Qed.
Lemma growing_or F G : growing F → growing G → growing (λ n, F n ∨ G n).
Proof. intros HF HG n m Hnm [?|?]; eauto. Qed.
Lemma growing_ex {X} (F : X → calls → Prop) : (∀ x, growing (F x)) → growing (λ n, ∃ x, F x n).
Proof. intros HF n m Hnm [x ?]. exists x. by eapply HF. Qed.
Lemma growing_all {X} (F : X → calls → Prop) : (∀ x, growing (F x)) → growing (λ n, ∀ x, F x n).
Proof. intros HF n m Hnm Hn x. by eapply HF. Qed.
Lemma growing_impl (G : Prop) F : growing F → growing (λ n, G → F n).
Proof. intros HF n m Hnm Hn HG. by eapply HF; [|apply Hn]. Qed.
Lemma growing_lasting F : growing F → lasting F.
Proof. intros HF a n b. apply HF. intros e He. rewrite !elem_of_app. auto. Qed.

(** More calls do not take the permission away. *)
Definition grows (P : calls → call * reply → Prop) : Prop := ∀ e, growing (λ n, P n e).

Lemma grows_shift P n : grows P → grows (λ r, P (r ++ n)).
Proof. intros HP e r r' Hr. apply HP. intros x. rewrite !elem_of_app. naive_solver. Qed.

Lemma ordered_app P n m : ordered P n → ordered (λ r, P (r ++ n)) m → ordered P (m ++ n).
Proof. intros Hn. induction m as [|e m IH]; simpl; [done|]. intros [??]. auto. Qed.
Lemma ordered_weaken (P Q : calls → call * reply → Prop) n : (∀ r e, P r e → Q r e) → ordered P n → ordered Q n.
Proof. intros HPQ. induction n as [|e n IH]; simpl; [done|]. intros [??]. auto. Qed.
Lemma ordered_more P n m : grows P → ordered P m → ordered (λ r, P (r ++ n)) m.
Proof. intros HP. apply ordered_weaken. intros r e. apply HP. intros x Hx. apply elem_of_app. by left. Qed.
Lemma ordered_forall (P : calls → call * reply → Prop) Q n : (∀ r e, Q e → P r e) → Forall Q n → ordered P n.
Proof. intros HQ. induction 1; simpl; auto. Qed.
Lemma ordered_and (P Q : calls → call * reply → Prop) n : ordered P n → ordered Q n → ordered (λ r e, P r e ∧ Q r e) n.
Proof. induction n as [|e n IH]; simpl; [done|]. intros [??] [??]. auto. Qed.
Lemma ordered_at P n : ordered P n ↔ ∀ l e r, n = l ++ e :: r → P r e.
Proof.
  induction n as [|x n IH]; simpl.
  - split; [|done]. by intros _ [|] e r.
  - split.
    + intros [Hx Hn] [|y l] e r [= -> ->]; [done|]. by eapply IH.
    + intros Hall. split; [by apply (Hall [])|]. apply IH. intros l e r ->. by apply (Hall (x :: l)).
Qed.

Section Obeys.
Context {C S : Type} `{Kubectl C}.
Abbreviation IO := (IO (world C S)).
Implicit Types P : calls → call * reply → Prop.

Definition obeys {A} P (m : IO A) : Prop := emits m (λ _ n, ordered P n) (ordered P).

Lemma obeys_only {A} (Q : call * reply → Prop) P (m : IO A) : (∀ r e, Q e → P r e) → only Q m → obeys P m.
Proof. intros HQ Hm. eapply emits_weaken; [exact Hm|..]; intros *; by apply ordered_forall. Qed.
Lemma obeys_weaken {A} P Q (m : IO A) : (∀ r e, P r e → Q r e) → obeys P m → obeys Q m.
Proof. intros HPQ Hm. eapply emits_weaken; [exact Hm|..]; intros *; by apply ordered_weaken. Qed.

Lemma obeys_and {A} P Q (m : IO A) : obeys P m → obeys Q m → obeys (λ r e, P r e ∧ Q r e) m.
Proof.
  intros HP HQ. eapply emits_weaken; [exact (emits_conj _ _ _ _ _ HP HQ)|..]; intros * [??]; by apply ordered_and.
Qed.

(** What the first command has seen holds for the calls of the second. *)
Lemma obeys_seq {A B} P (m : IO A) (k : A → IO B) (R : A → calls → Prop) :
  obeys P m → emits m R (λ _, True) → (∀ a n, R a n → obeys (λ r, P (r ++ n)) (k a)) → obeys P (m ≫= k).
Proof.
  intros Hm HR Hk w. pose proof (emits_conj _ _ _ _ _ Hm HR w) as (n & Hn & Hq). unfold mbind, IO_bind.
  destruct (m w) as [[a|e|] w1]; simpl in *; [|by exists n; naive_solver..].
  destruct Hq as [Ho Ha]. destruct (Hk a n Ha w1) as (n1 & Hn1 & Hq). exists (n1 ++ n).
  rewrite <-app_assoc, <-Hn. split; [done|].
  destruct (k a w1) as [[b|e|] w2]; simpl in *; by apply ordered_app.
Qed.
Lemma obeys_bind {A B} P (m : IO A) (k : A → IO B) :
  grows P → obeys P m → (∀ a, obeys P (k a)) → obeys P (m ≫= k).
Proof.
  intros HP Hm Hk. eapply (obeys_seq _ _ _ (λ _ _, True)); [exact Hm| |].
  - eapply emits_weaken; [exact Hm|done..].
  - intros a n _. eapply obeys_weaken; [|apply Hk]. intros r e. apply HP. intros x Hx. apply elem_of_app. by left.
Qed.
Lemma obeys_pure_bind {A B} P (r : outcome A) (k : A → IO B) :
  (∀ a, r = Ok a → obeys P (k a)) → obeys P (pure r ≫= k).
Proof. intros Hk. by apply emits_pure_bind. Qed.
Lemma obeys_ret {A} P (a : A) : obeys P (mret a).
Proof. by apply emits_ret. Qed.
Lemma obeys_throw {A} P e : obeys P (throw e : IO A).
Proof. by apply emits_throw. Qed.
Lemma obeys_try {A} P (m : IO A) h :
  grows P → obeys P m → (∀ e k, h e = Some k → obeys P k) → obeys P (try_except m h).
Proof.
  intros HP Hm Hh. apply emits_try; [exact Hm|]. intros e k Hk.
  eapply emits_weaken; [exact (Hh e k Hk)|..]; intros; (apply ordered_app; [done|by apply ordered_more]).
Qed.
Lemma obeys_each {A} P (l : list A) (f : A → IO unit) :
  grows P → (∀ x, x ∈ l → obeys P (f x)) → obeys P (each l f).
Proof.
  intros HP. induction l as [|x l IH]; intros Hf; simpl; [apply obeys_ret|].
  apply obeys_bind; [done|apply Hf; left|]. intros _. apply IH. intros y Hy. apply Hf. by right.
Qed.
End Obeys.

Create HintDb growing discriminated.
#[export] Hint Resolve growing_called growing_const growing_and growing_or growing_ex growing_all growing_impl : growing.

(** ** Deletions by UID

    What [Kubectl.delete_object] does to the trace: the one write is a deletion with
    the UID of the given object, and when it returns a later answer has shown the
    object gone. *)

(** ** Searches through documents *)

Lemma any_of_true p l : any_of p l = Ok true → ∃ x, x ∈ l ∧ p x = Ok true.
Proof.
  induction l as [|x l IH]; simpl; [done|]. intros (b & Hb & Hr)%outcome_bind_Ok. destruct b.
  - exists x. split; [left|done].
  - destruct (IH Hr) as (y & Hy & Hp). exists y. split; [by right|done].
Qed.
Lemma any_of_false p l : any_of p l = Ok false → ∀ x, x ∈ l → p x = Ok false.
Proof.
  induction l as [|y l IH]; simpl; [by intros _ x ?%not_elem_of_nil|]. intros (b & Hb & Hr)%outcome_bind_Ok x. destruct b; [done|].
  intros [->|Hx]%elem_of_cons; [done|by apply IH].
Qed.
Lemma find_first_Some p l x : find_first p l = Ok (Some x) → x ∈ l ∧ p x = Ok true.
Proof.
  induction l as [|y l IH]; simpl; [done|]. intros (b & Hb & Hr)%outcome_bind_Ok. destruct b.
  - injection Hr as ->. split; [left|done].
  - destruct (IH Hr). split; [by right|done].
Qed.
Lemma is_str_true s v : is_str s v = true ↔ v = JStr s.
Proof. destruct v; simpl; try done. rewrite eqb_true. naive_solver. Qed.

(** ** Deletions *)

Section Deletions.
Context {C S : Type} `{Kubectl C}.
Abbreviation IO := (IO (world C S)).

(** A deletion of the object [v], by its UID *)
Definition deletes_only (v : json) (e : call * reply) : Prop :=
  ∀ path o, e.1 = DeleteRaw path o → ∃ u, meta_index "uid" v = Ok u ∧ o = delete_options u None "Foreground".
Lemma reading_deletes v e : reading e → deletes_only v e.
Proof. intros Hr path o He. unfold reading in Hr. rewrite He in Hr. discriminate. Qed.

Lemma reading_wait fuel resource metadata timeout : only reading (wait_deleted fuel resource metadata timeout : IO unit).
Proof. unfold wait_deleted. only_auto. by apply only_get_if_exists. Qed.
Lemma only_deletes fuel v timeout :
  only (deletes_only v) (delete_object fuel v timeout true "Foreground" false : IO unit).
Proof.
  unfold delete_object. apply only_pure_bind. intros metadata Hm. apply only_bind; [apply only_pure|]. intros version.
  apply only_bind; [by apply only_run_json|]. intros found.
  do 3 (apply only_bind; [apply only_pure|]; intros ?). destruct a1; [|apply only_throw].
  apply only_bind; [apply only_pure|]. intros namespaced. apply only_bind; [only_auto|]. intros scope.
  do 2 (apply only_bind; [apply only_pure|]; intros ?). apply only_pure_bind. intros uid Hu.
  apply emits_ret_bind, only_bind.
  - apply only_run. intros r path o [= <- <-]. exists uid. split; [|done]. by apply (meta_index_Ok _ _ metadata).
  - intros _. apply only_skip. eapply only_weaken; [|apply reading_wait]. apply reading_deletes.
Qed.

(** The object [o] is not there any more: a later answer showed nothing, or another
    object, under its name. *)
Definition named (o : json) (nm ns : string) : Prop :=
  meta_index "name" o = Ok (JStr nm) ∧ meta_get "namespace" (JStr "") o = Ok (JStr ns).
Definition same_uid (a b : json) : Prop :=
  ∃ u u', meta_index "uid" a = Ok u ∧ meta_index "uid" b = Ok u' ∧ py_eqb u u' = true.
Definition other_uid (a b : json) : Prop :=
  ∃ u u', meta_index "uid" a = Ok u ∧ meta_index "uid" b = Ok u' ∧ py_eqb u u' = false.
Definition vanished_as (k : string) (n : calls) (o : json) : Prop :=
  ∃ nm ns v, (GetObject k nm ns true, Output v) ∈ n ∧ named o nm ns ∧ from_option (λ c, other_uid c o) True v.
Definition vanished (n : calls) (o : json) : Prop := ∃ k, vanished_as k n o.
Lemma growing_vanished_as k o : growing (λ n, vanished_as k n o).
Proof. unfold vanished_as. auto 10 with growing. Qed.
Lemma growing_vanished o : growing (λ n, vanished n o).
Proof. unfold vanished. auto 10 using growing_vanished_as with growing. Qed.

Lemma emits_wait fuel resource o metadata timeout :
  index "metadata" o = Ok metadata →
  emits (wait_deleted fuel resource metadata timeout : IO unit) (λ _ n, vanished_as resource n o) (λ _, True).
Proof.
  intros Hm. unfold wait_deleted. apply emits_pure_bind; [|done]. intros n Hn. apply emits_pure_bind; [|done]. intros ns Hns.
  apply emits_pure_bind; [|done]. intros uid Hu. destruct n as [| | | |n| |]; try by apply emits_throw.
  destruct ns as [| | | |ns| |]; try by apply emits_throw.
  assert (named o n ns) as Ho by (split; [by apply (meta_index_Ok _ _ metadata)|unfold meta_get; by rewrite Hm]).
  apply (emits_seq _ _ (λ _ _, True)); [by apply emits_now|]. intros t. apply emits_pure_bind; [|done]. intros secs _. cbv zeta.
  apply (emits_weaken _ (λ _ n, vanished_as resource n o) _ (λ _, True)); [| |done].
  2:{ intros u n1 Hn1 n0 _. eapply growing_vanished_as; [|exact Hn1]. set_solver. }
  apply (emits_forever (λ _ _, True)); [|done]. intros _.
  apply (emits_seq _ _ (λ _ _, True)); [by apply emits_now|]. intros _.
  eapply emits_seq; [apply emits_get_if_exists|]. intros [current|].
  2:{ apply emits_ret. intros n1 [-> _] n0 _ n2 _. exists n, ns, None. split_and!; [|done..]. set_solver. }
  apply emits_pure_bind; [|done]. intros m Hcm. apply emits_pure_bind; [|done]. intros u Hcu.
  destruct (py_eqb u uid) eqn:Eu; cbn [negb].
  - apply (emits_seq _ _ (λ _ _, True)); [by apply emits_now|]. intros t'. destruct (Qle_bool _ t'); [by apply emits_throw|].
    by apply emits_ret.
  - apply emits_ret. intros n1 [-> _] n0 _ n2 _. exists n, ns, (Some current). split_and!; [set_solver|done|].
    exists u, uid. split_and!; [by apply (meta_index_Ok _ _ m)|by apply (meta_index_Ok _ _ metadata)|done].
Qed.

(** Deleted and waited for *)
Lemma emits_delete fuel v timeout :
  emits (delete_object fuel v timeout true "Foreground" false : IO unit) (λ _ n, vanished n v) (λ _, True).
Proof.
  unfold delete_object. apply emits_pure_bind; [|done]. intros metadata Hm.
  apply emits_pure_bind; [|done]. intros version _. apply (emits_seq _ _ (λ _ _, True)).
  { eapply emits_weaken; [by apply (only_run_json (λ _, True))|done..]. }
  intros found. do 3 (apply emits_pure_bind; [intros ? _|done]). destruct a1; [|by apply emits_throw].
  apply emits_pure_bind; [|done]. intros namespaced _. apply (emits_seq _ _ (λ _ _, True)).
  { destruct (truthy namespaced); [|by apply emits_ret]. apply emits_pure_bind; [|done]. intros ns _. by apply emits_ret. }
  intros scope. do 3 (apply emits_pure_bind; [intros ? _|done]). apply emits_ret_bind.
  apply (emits_seq _ _ (λ _ _, True)); [by apply emits_run|]. intros _. simpl.
  eapply emits_weaken; [by apply (emits_wait _ _ v)| |done].
  intros u n Hn n0 _ n1 _ n2 _. eapply growing_vanished; [|eexists; exact Hn]. set_solver.
Qed.

Lemma text_at_Ok (r : outcome json) s : (r ≫= as_text) = Ok s ↔ r = Ok (JStr s).
Proof. destruct r as [[| | | |t| |]|]; simpl; naive_solver. Qed.
Lemma meta_index_get k d v : meta_index k d = Ok v → ∀ x, meta_get k x d = Ok v.
Proof.
  unfold meta_index, meta_get. intros (m & -> & Hk)%outcome_bind_Ok x. simpl. destruct m; try done. simpl in *.
  by destruct (dget k m); simplify_eq/=.
Qed.

Lemma named_Ok d nm ns : meta_index "namespace" d = Ok (JStr ns) → meta_index "name" d = Ok (JStr nm) → named d nm ns.
Proof. intros Hns Hnm. split; [done|]. by apply meta_index_get. Qed.
End Deletions.
#[export] Hint Resolve growing_vanished : growing.
