(* ===== verification/LifecycleProofs.v ===== *)
(** * Properties of the deployment lifecycle

    Retiring a temporary deployment deletes only what this operation created, and
    only while it holds the lock of the instance it has seen to be its own; the
    controller revision a deployment is given was reported for the request it
    made. *)

From S2P Require Import Prelude Text Kube Manifest Effects Client Instances Submission Lifecycle Fencing SubmissionProofs InstanceProofs Emits.

(** ** Retirement *)

Section Retirement.
Context {C : Type} `{Kubectl C} `{PythonRepr} `{Codec} `{JsonText}.
Abbreviation world := (world C (operation lifecycle)).
Abbreviation IO := (IO world).
Variable fuel : nat.
Variables ns nm timeout : string.
Variable operation_id : json.

Section Own.
Variables (s : submission) (u : string).
Abbreviation pinned := (JStr u).

(** [v] is what this submission created as [r]: it is live and belongs to the
    instance; a service still has the intent this submission committed, any other
    object still has the UID of the receipt and names this operation. *)
Definition own_object (r : ResourceRef) (v : json) : Prop :=
  ∃ receipt, dget r (created s) = Some receipt ∧ deleting v = Ok false ∧
    (∃ l, label DEPLOYMENT_UID_LABEL v = Ok l ∧ py_eqb l pinned = true) ∧
    match dget r (expected s) with
    | Some _ => ∃ x, intent_version (Some v) = Ok x ∧
                  same_version x (default None (dget r (committed s))) = true
    | None => (∃ u u', meta_index "uid" v = Ok u ∧ meta_index "uid" receipt = Ok u' ∧ py_eqb u u' = true) ∧
              (∃ o, annotation SERVICE_OPERATION JNull v = Ok o ∧ py_eqb o operation_id = true)
    end.

Lemma owns_created_true r v :
  owns_created operation_id pinned s r (Some v) = Ok true → own_object r v.
Proof.
  unfold owns_created, own_object. destruct (dget r (created s)) as [receipt|]; [|done].
  intros ([] & Hd & Hb)%outcome_bind_Ok; [done|].
  apply outcome_bind_Ok in Hb as (l & Hl & Hb). destruct (py_eqb l pinned) eqn:El; [|done].
  exists receipt. split_and!; [done..|by exists l|].
  destruct (dget r (expected s)).
  - apply outcome_bind_Ok in Hb as (x & Hx & [= Hsame]). by exists x.
  - apply outcome_bind_Ok in Hb as (x & Hx & (y & Hy & Hb)%outcome_bind_Ok).
    destruct (py_eqb x y) eqn:Ex; [|done]. apply outcome_bind_Ok in Hb as (o & Ho & [= Hop]).
    split; [by exists x, y|by exists o].
Qed.

Variable objs : list json.

(** The deletion of an object directly follows the observation that the object is our own creation, and requires the
    UID and version observed. *)
Definition own_deletion (tr : list (call * reply)) (c : call) : Prop :=
  ∃ base rep r v rest path options obj,
    tr = (GetRaw base, rep) :: (GetObject (kind r) (name r) (namespace r) true, Output (Some v)) :: rest ∧
    c = DeleteRaw path options ∧ deletes options v ∧ own_object r v ∧ obj ∈ objs ∧ resource_ref obj = Ok r.
(** The lock of the instance was acquired and not released since, and since then the record was seen to be still
    owned by the submission. *)
Definition locked (tr : list (call * reply)) : Prop :=
  ∃ since rep rest record, tr = since ++ (AcquireHolder pinned, rep) :: rest ∧ (∀ detail, rep ≠ Failed detail) ∧
    Forall (λ e, ∀ x, e.1 ≠ ReleaseHolder x) since ∧
    (GetObject DEPLOYMENT_RESOURCE nm ns true, Output (Some record)) ∈ since ∧
    owns_scope operation_id (scope s) (Some record) = Ok true.
(** Under the lock: such a deletion, or a write that names the UID of the instance *)
Definition retires (tr : list (call * reply)) (c : call) : Prop := locked tr ∧ (own_deletion tr c ∨ names_uid u c).

Variable tr0 : list (call * reply).

Definition retiring (w : world) : Prop :=
  extends retires tr0 (trace w) ∧ the w = s ∧ i_uid (inst (self w)) = pinned.

Lemma retiring_now : stable retiring now.
Proof. apply stable_now. intros w n Hw. exact Hw. Qed.
Lemma retiring_run c : harmless c = true → stable retiring (run c).
Proof. intros Hc. apply stable_run. intros w rep c' (He & Hs). split; [|done]. constructor; auto. Qed.
Lemma retiring_retained : stable retiring set_retained.
Proof. apply stable_on_self. intros w Hw. exact Hw. Qed.
Lemma retiring_get k n x : stable retiring (get_if_exists k n x).
Proof. unfold get_if_exists, decode_object. stable_auto. by apply retiring_run. Qed.
Lemma retiring_get_uid : stable retiring get_uid.
Proof. apply stable_ask. Qed.
#[local] Hint Resolve retiring_now retiring_retained retiring_get retiring_get_uid : stable.
Lemma retiring_wait resource metadata t : stable retiring (wait_deleted fuel resource metadata t).
Proof. unfold wait_deleted. stable_auto. Qed.
#[local] Hint Resolve retiring_wait : stable.

(** Reading one object puts it on top of the trace. *)
Lemma get_top tr k n x :
  hoare (λ w, retiring w ∧ trace w = tr) (get_if_exists k n x)
    (λ r w, retiring w ∧ ∀ v, r = Some v → trace w = (GetObject k n x true, Output (Some v)) :: tr) retiring.
Proof.
  eapply hoare_weaken with (Q' := λ (r : option json) (w : world), retiring w ∧
      ∀ v, r = Some v → trace w = (GetObject k n x true, Output (Some v)) :: tr)
    (E' := λ w, retiring w ∧ True); [|intros w Hw; exact Hw|done|by intros w [? _]].
  apply hoare_conj; [apply retiring_get|]. intros w <-.
  unfold get_if_exists, mbind, IO_bind, run. destruct (serve _ _) as [[[j|]| |] c']; try done.
  unfold decode_object, mbind, IO_bind, mret, IO_ret. destruct (is_dict j); [|done]. by intros v [= <-].
Qed.

(** The deletion of an object that was just seen to be our own. *)
Lemma delete_retiring r v record acquired rest t obj :
  (∀ detail, acquired ≠ Failed detail) → owns_scope operation_id (scope s) (Some record) = Ok true → own_object r v →
  obj ∈ objs → resource_ref obj = Ok r →
  hoare (λ w, retiring w ∧ trace w = (GetObject (kind r) (name r) (namespace r) true, Output (Some v)) ::
           (GetObject DEPLOYMENT_RESOURCE nm ns true, Output (Some record)) :: (AcquireHolder pinned, acquired) :: rest)
    (delete_object fuel v t false "Foreground" true) (λ _, retiring) retiring.
Proof.
  intros Hacq Hrec Hown Hobj Href. unfold delete_object.
  apply hoare_pure_bind; [by intros w [? _]|]. intros metadata Hm.
  apply hoare_pure_bind; [by intros w [? _]|]. intros version _. cbv zeta.
  set (P := λ w : world, retiring w ∧ ∃ base rep, trace w = (GetRaw base, rep) ::
           (GetObject (kind r) (name r) (namespace r) true, Output (Some v)) ::
           (GetObject DEPLOYMENT_RESOURCE nm ns true, Output (Some record)) :: (AcquireHolder pinned, acquired) :: rest).
  assert (∀ w, P w → retiring w) as HP by (by intros w [? _]).
  eapply hoare_bind with (R := λ _, P).
  { eapply hoare_bind with (R := λ _, P).
    - apply hoare_run. intros w rep c' [(He & Hs) Htr]. set (w' := World _ _ _ _).
      assert (retiring w') by (split; [constructor; auto|done]).
      assert (P w') by (split; [done|]; subst w'; simpl; rewrite Htr; by eexists _, _). by destruct rep.
    - intros [[j|]|]; [by apply hoare_ret|by apply hoare_throw..]. }
  intros found. do 2 (apply hoare_pure_bind; [done|]; intros ? _).
  apply hoare_pure_bind; [done|]. intros [resource|] _; [|by apply hoare_throw].
  apply hoare_pure_bind; [done|]. intros namespaced _. eapply hoare_bind with (R := λ _, P).
  { destruct (truthy namespaced); [|by apply hoare_ret]. apply hoare_pure_bind; [done|]. intros x _. by apply hoare_ret. }
  intros scope_. do 2 (apply hoare_pure_bind; [done|]; intros ? _).
  apply hoare_pure_bind; [done|]. intros x Hx.
  eapply hoare_bind with (R := λ rv w, (∃ y, rv = Some y ∧ index "resourceVersion" metadata = Ok y) ∧ P w).
  { apply hoare_pure_bind; [done|]. intros y Hy. apply hoare_ret. intros w Hw. split; [by exists y|done]. }
  intros rv. apply hoare_fact. intros (y & -> & Hy). eapply hoare_bind with (R := λ _, retiring); [|intros; apply stable_ret].
  apply hoare_run. intros w rep c' [(He & Hs) (base & rep' & Htr)]. set (w' := World _ _ _ _).
  assert (retiring w'); [|by destruct rep].
  split; [|done]. constructor; [done|]. right. rewrite Htr.
  set (since := [(GetRaw base, rep'); (GetObject (kind r) (name r) (namespace r) true, Output (Some v));
    (GetObject DEPLOYMENT_RESOURCE nm ns true, Output (Some record))]). split.
  - exists since, acquired, rest, record. split_and!; [done..| |right; right; left|done]. by repeat constructor.
  - left. eexists base, rep', r, v, _, _, _, obj. split_and!; [done|done| |done..].
    exists x, y, "Foreground". split_and!; [by eapply meta_index_Ok..|done].
Qed.

(** The ownership test leaves the owned record on top of the trace. *)
Definition owned_top (tr : list (call * reply)) (record : json) (w : world) : Prop :=
  owns_scope operation_id (scope s) (Some record) = Ok true ∧ retiring w ∧
  trace w = (GetObject DEPLOYMENT_RESOURCE nm ns true, Output (Some record)) :: tr.

Lemma owns_instance_top tr :
  hoare (λ w, retiring w ∧ trace w = tr) (owns_instance ns nm operation_id)
    (λ owned w, retiring w ∧ (owned = true → ∃ record, owned_top tr record w)) retiring.
Proof.
  unfold owns_instance. eapply hoare_bind with (R := λ sc w, sc = scope s ∧ retiring w ∧ trace w = tr).
  { apply hoare_ask. intros w [(? & Hs & ?) ?]. by rewrite Hs. }
  intros sc. apply hoare_fact. intros ->. destruct (scope s) as [claimed|] eqn:Esc.
  - eapply hoare_bind; [apply get_top|]. intros current. apply hoare_pure; [|by intros w [? _]].
    intros w [] [Hw Htop] E; [|by split]. split; [done|]. intros _.
    destruct current as [record|]; [|done]. exists record. split; [by rewrite Esc|]. auto.
  - eapply hoare_bind with (R := λ _, retiring); [apply hoare_ret; by intros w [? _]|]. intros current.
    apply hoare_pure; [|done]. intros w a Hw [= <-]. by split.
Qed.

(** The lock was just acquired. *)
Definition just_locked (w : world) : Prop :=
  retiring w ∧ ∃ acquired rest, (∀ detail, acquired ≠ Failed detail) ∧ trace w = (AcquireHolder pinned, acquired) :: rest.
(** One round under the lock. *)
Lemma round_retiring r obj deadline :
  obj ∈ objs → resource_ref obj = Ok r →
  hoare just_locked (remove_round fuel ns nm operation_id r obj deadline) (λ _, retiring) retiring.
Proof.
  intros Hobj Href. enough (∀ rest acquired, (∀ detail, acquired ≠ Failed detail) →
    hoare (λ w, retiring w ∧ trace w = (AcquireHolder pinned, acquired) :: rest)
    (remove_round fuel ns nm operation_id r obj deadline) (λ _, retiring) retiring) as Hall.
  { intros w (Hw & acquired & rest & Hacq & Ht). by apply (Hall rest acquired Hacq w). }
  intros rest acquired Hacq. set (tr := _ :: rest). unfold remove_round. eapply hoare_bind; [apply owns_instance_top|]. intros [|]; simpl.
  2: { eapply hoare_weaken with (P' := retiring) (Q' := λ _, retiring) (E' := retiring); [|by intros w [? _]|done|done].
       match goal with |- hoare _ ?m _ _ => change (stable retiring m) end. stable_auto. }
  eapply hoare_weaken with (P' := λ w, ∃ record, owned_top tr record w) (Q' := λ _, retiring) (E' := retiring);
    [|intros w [_ Hr]; by apply Hr|done|done].
  apply hoare_exists. intros record. apply hoare_fact. intros Hrec.
  eapply hoare_bind; [apply get_top|]. intros [v|]; [|apply hoare_ret; by intros w [? _]].
  set (P := λ w : world, retiring w ∧ trace w = (GetObject (kind r) (name r) (namespace r) true, Output (Some v)) ::
    (GetObject DEPLOYMENT_RESOURCE nm ns true, Output (Some record)) :: tr).
  assert (∀ w, P w → retiring w) as HP by (by intros w [? _]).
  eapply hoare_weaken with (P' := P) (Q' := λ _, retiring) (E' := retiring); [|intros w [? Ht]; split; auto|done|done].
  apply hoare_pure_bind; [done|]. intros going _. destruct going; [by apply hoare_ret|].
  eapply hoare_bind with (R := λ x w, x = pinned ∧ P w); [apply hoare_ask; by intros w [(? & ? & ?) ?]|].
  intros x. apply hoare_fact. intros ->.
  eapply hoare_bind with (R := λ x w, x = s ∧ P w); [apply hoare_ask; by intros w [(? & ? & ?) ?]|].
  intros x. apply hoare_fact. intros ->. apply hoare_pure_bind; [done|]. intros mine Hmine.
  destruct mine; simpl.
  2: { eapply hoare_weaken with (P' := retiring) (Q' := λ _, retiring) (E' := retiring); [|done..].
       match goal with |- hoare _ ?m _ _ => change (stable retiring m) end. stable_auto. }
  apply owns_created_true in Hmine.
  eapply hoare_bind with (R := λ _, P); [intros w Hw; exact Hw|]. intros t.
  apply hoare_try with (E' := retiring); [|done|].
  - eapply hoare_bind with (R := λ _, retiring); [by eapply delete_retiring|]. intros _. apply hoare_ret. by intros.
  - intros e k. destruct (deployment_error e); [|done]. intros [= <-].
    match goal with |- hoare _ ?m _ _ => change (stable retiring m) end. stable_auto.
Qed.

Definition ended (w : world) : Prop := extends retires tr0 (trace w).
Lemma hold_just_locked {A} (body : IO A) (I : world → Prop) :
  (∀ w, retiring w → I w) → (∀ w rep c', I w → I (World c' (ticks w) ((ReleaseHolder pinned, rep) :: trace w) (self w))) →
  hoare just_locked body (λ _, I) I → hoare retiring (holding body) (λ _, I) I.
Proof.
  intros HI Hrel Hb. unfold holding, get_uid. eapply hoare_bind with (R := λ x w, x = pinned ∧ retiring w); [apply hoare_ask; by intros w (? & ? & ?)|].
  intros x. apply hoare_fact. intros ->. unfold hold. eapply hoare_bind with (R := λ _, just_locked).
  - apply hoare_run. intros w r c' (He & Hs). set (w' := World _ _ _ _).
    assert (retiring w') as Hw' by (split; [constructor; auto|done]). assert ((∀ detail, r ≠ Failed detail) → just_locked w') as Hj.
    { intros Hr. split; [done|]. exists r, (trace w). done. }
    destruct r; [by apply Hj|by apply Hj|by apply HI].
  - intros ?. assert (stable I (_ ← run (ReleaseHolder pinned); mret tt : IO unit)) as Hr.
    { apply stable_bind; [by apply stable_run|auto with stable]. }
    eapply hoare_finally; [exact Hb|done|intros ?; exact Hr|exact Hr].
Qed.
Lemma retiring_released w rep c' : retiring w → retiring (World c' (ticks w) ((ReleaseHolder pinned, rep) :: trace w) (self w)).
Proof. intros (He & Hs). split; [constructor; auto|done]. Qed.
Lemma ended_released w rep c' : ended w → ended (World c' (ticks w) ((ReleaseHolder pinned, rep) :: trace w) (self w)).
Proof. intros He. constructor; auto. Qed.
Lemma retiring_ended w : retiring w → ended w.
Proof. by intros [? _]. Qed.

Lemma remove_retiring todo :
  (∀ obj, obj ∈ todo → obj ∈ objs) →
  stable retiring (remove_objects fuel ns nm timeout operation_id todo).
Proof.
  induction todo as [|obj todo IH]; intros Hin; simpl; [auto with stable|].
  apply stable_bind; [|intros []; [apply IH; set_solver|auto with stable]].
  unfold remove_object. apply hoare_pure_bind; [done|]. intros r Hr.
  match goal with |- hoare _ ?m _ _ => change (stable retiring m) end.
  stable_auto. apply hold_just_locked; [done|apply retiring_released|]. apply round_retiring; [set_solver|done].
Qed.

(** *** The instance itself *)

Hypothesis Hu : u ≠ "".
(** Under the lock, writes that name the UID retire. *)
Lemma locked_more tr n : locked tr → Forall (λ e, ∀ x, e.1 ≠ ReleaseHolder x) n → locked (n ++ tr).
Proof.
  intros (since & rep & rest & record & -> & Hrep & Hno & Hin & Hown) Hn. exists (n ++ since), rep, rest, record.
  split_and!; [by rewrite app_assoc|done|by apply Forall_app|apply elem_of_app; by right|done].
Qed.
Lemma extends_locked tr n :
  locked tr → Forall (λ e, ∀ x, e.1 ≠ ReleaseHolder x) n → extends (λ _, names_uid u) tr (n ++ tr) → extends retires tr (n ++ tr).
Proof.
  intros Hl. induction n as [|[c rep] n IH]; intros Hn He; [constructor|]. apply Forall_cons in Hn as [_ Hn].
  simpl in *. inversion He as [Heq|c' rep' tr' He' Hc Heq].
  - apply (f_equal length) in Heq. simpl in Heq. rewrite length_app in Heq. lia.
  - subst. constructor; [by apply IH|]. destruct Hc as [?|?]; [by left|right]. split; [by apply locked_more|by right].
Qed.
Lemma instance_locked {A} (m : IO A) :
  (∀ tr, stable (pinned_to u tr) m) → only (λ e, ∀ x, e.1 ≠ ReleaseHolder x) m →
  hoare (λ w, retiring w ∧ locked (trace w)) m (λ _, ended) ended.
Proof.
  intros Hp Ho w [(He & _ & Hi) Hl]. destruct (Ho w) as (n & Hn & Hno). specialize (Hp (trace w) w (conj Hi (extends_refl _ _))).
  assert (Forall (λ e : call * reply, ∀ x, e.1 ≠ ReleaseHolder x) n) as Hf by (by destruct (m w) as [[]]).
  assert (ended (m w).2); [|by destruct (m w) as [[]]]. unfold ended. rewrite Hn. eapply extends_trans; [exact He|].
  apply extends_locked; [done|done|]. rewrite <-Hn. by destruct (m w) as [[a|e|] w']; destruct Hp.
Qed.
Lemma owned_locked acquired rest record w :
  (∀ detail, acquired ≠ Failed detail) → owned_top ((AcquireHolder pinned, acquired) :: rest) record w → locked (trace w).
Proof.
  intros Hacq (Hown & _ & ->). eexists [_], acquired, rest, record. split_and!; [done|done| |left|done]. by repeat constructor.
Qed.
(** The ownership test under the lock *)
Lemma owned_under_lock {A} (no yes : IO A) :
  hoare retiring no (λ _, ended) ended → hoare (λ w, retiring w ∧ locked (trace w)) yes (λ _, ended) ended →
  hoare retiring (holding (owned ← owns_instance ns nm operation_id; if negb (owned : bool) then no else yes)) (λ _, ended) ended.
Proof.
  intros Hno Hyes. apply hold_just_locked; [apply retiring_ended|apply ended_released|].
  enough (∀ rest acquired, (∀ detail, acquired ≠ Failed detail) → hoare (λ w, retiring w ∧ trace w = (AcquireHolder pinned, acquired) :: rest)
    (owned ← owns_instance ns nm operation_id; if negb (owned : bool) then no else yes) (λ _, ended) ended) as Hall.
  { intros w (Hw & acquired & rest & Hacq & Ht). by apply (Hall rest acquired Hacq w). }
  intros rest acquired Hacq. set (tr := (_ : call * reply) :: rest).
  apply (hoare_bind _ _ _ (λ owned w, retiring w ∧ (owned = true → ∃ record, owned_top tr record w))).
  { eapply hoare_weaken; [apply (owns_instance_top tr)|intros w Hw; exact Hw|intros a w Hw; exact Hw|apply retiring_ended]. }
  intros [|]; simpl.
  - eapply hoare_weaken; [exact Hyes| |done|done]. intros w [Hw Hown]. destruct (Hown eq_refl) as [record Hrec].
    split; [done|by eapply owned_locked].
  - eapply hoare_weaken; [exact Hno| |done|done]. by intros w [? _].
Qed.
Lemma ended_only {A} (m : IO A) : only reading m → stable ended m.
Proof.
  intros Ho w Hw. destruct (Ho w) as (n & Hn & Hr). assert (Forall reading n) as Hf by (by destruct (m w) as [[]]).
  assert (ended (m w).2); [|by destruct (m w) as [[]]]. unfold ended. rewrite Hn. clear Hn Hr. induction Hf as [|[c rep] n Hc _ IH]; [done|].
  simpl. constructor; [done|]. left. unfold harmless. by rewrite Hc.
Qed.

Lemma read_retiring required : stable retiring (read ns nm required).
Proof using Hu.
  unfold read. apply stable_bind; [apply retiring_get|]. intros [current|]; [|stable_auto].
  apply stable_bind; [auto with stable|]. intros x.
  eapply hoare_bind with (R := λ y w, y = pinned ∧ retiring w); [apply hoare_ask; by intros w (? & ? & ?)|].
  intros y. apply hoare_fact. intros ->. rewrite truthy_str by done. simpl.
  destruct (py_eqb x pinned) eqn:E; simpl; [|by apply hoare_throw]. apply py_eqb_str in E as ->.
  eapply hoare_bind with (R := λ _, retiring); [apply hoare_change; by intros w (? & ? & ?)|]. intros _.
  eapply hoare_bind with (R := λ _, retiring); [apply hoare_change; intros w Hw; exact Hw|]. intros _. by apply hoare_ret.
Qed.
Lemma quiet_read required : only (λ e, ∀ x, e.1 ≠ ReleaseHolder x) (read ns nm required : IO _).
Proof. unfold read, get_uid, set_uid, set_resource, set_instance. only_auto. by apply only_get_if_exists. Qed.
Lemma quiet_delete wait : only (λ e, ∀ x, e.1 ≠ ReleaseHolder x) (delete fuel ns nm timeout wait : IO unit).
Proof.
  pose proof quiet_read as Hr. unfold delete, wait_instance_deleted, wait_deleted, get_uid. only_auto; try apply Hr; try (by apply only_get_if_exists).
  apply only_try.
  - apply only_bind; [by apply only_delete_object|auto with only].
  - intros e k. destruct (is_conflict e); [intros [= <-]; auto with only|]. destruct (deployment_error e); [|done]. intros [= <-].
    only_auto. by apply only_get_if_exists.
Qed.
Lemma quiet_request d update revision : only (λ e, ∀ x, e.1 ≠ ReleaseHolder x) (request fuel ns nm d timeout update revision : IO unit).
Proof.
  pose proof quiet_read as Hr. unfold request, read_pinned, read_required, get_uid, set_resource, set_instance. only_auto; try apply Hr.
  apply only_try.
  - apply only_bind; [by apply only_run_json|only_auto].
  - intros e k. destruct (is_conflict e); [|done]. intros [= <-]. auto with only.
Qed.
Lemma reading_wait_instance : only reading (wait_instance_deleted fuel ns nm timeout : IO unit).
Proof. unfold wait_instance_deleted, wait_deleted, read, get_uid, set_uid, set_resource, set_instance. only_auto; by apply only_get_if_exists. Qed.

Lemma instance_deletion : hoare (λ w, retiring w ∧ locked (trace w)) (delete fuel ns nm timeout false : IO unit) (λ _, ended) ended.
Proof using Hu. apply instance_locked; [intros tr; by apply pinned_delete|apply quiet_delete]. Qed.
Lemma delete_instance_retires fresh : hoare retiring (delete_instance fuel ns nm timeout operation_id fresh true) (λ _, ended) ended.
Proof using Hu.
  unfold delete_instance. apply (hoare_bind _ _ _ (λ _, retiring)).
  { eapply hoare_weaken; [apply read_retiring|done|done|apply retiring_ended]. }
  intros [current|]; [|by apply hoare_ret, retiring_ended]. apply hoare_pure_bind; [apply retiring_ended|]. intros [|] _.
  - apply hoare_pure_bind; [apply retiring_ended|]. intros m _.
    eapply hoare_weaken; [apply retiring_wait|done|intros ? w; apply retiring_ended|apply retiring_ended].
  - cbn [negb]. apply (hoare_bind _ _ _ (λ _, ended)).
    + apply owned_under_lock.
      * apply (hoare_bind _ _ _ (λ _, retiring)); [eapply hoare_weaken; [apply retiring_retained|done|done|apply retiring_ended]|].
        intros _. by apply hoare_ret, retiring_ended.
      * eapply hoare_bind; [apply instance_deletion|]. intros ?. by apply hoare_ret.
    + intros requested. apply stable_skip_unless, ended_only, reading_wait_instance.
Qed.
Lemma created_retiring todo :
  (∀ obj, obj ∈ todo → obj ∈ objs) → stable retiring (remove_created fuel ns nm timeout operation_id todo).
Proof.
  intros Hin. unfold remove_created. apply stable_bind; [auto with stable|]. intros x.
  apply hoare_pure_bind; [done|]. intros keyed Hk. apply remove_retiring. intros obj ((key & obj') & -> & Hk')%list_elem_of_fmap.
  apply Hin. apply elem_of_sort_by in Hk'. apply (elem_of_mapped _ _ _ _ Hk) in Hk' as (o & Ho & Hkey). unfold removal_key in Hkey.
  apply outcome_bind_Ok in Hkey as (r & _ & (kd & _ & Hend)%outcome_bind_Ok). by injection Hend as _ <-.
Qed.
Lemma owns_instance_retiring : stable retiring (owns_instance ns nm operation_id).
Proof. intros w Hw. pose proof (owns_instance_top (trace w) w (conj Hw eq_refl)) as Ht. by destruct (owns_instance ns nm operation_id w) as [[a|e|] w']; [destruct Ht|..]. Qed.
Lemma stays_locked {A} (m : IO A) : only (λ e, ∀ x, e.1 ≠ ReleaseHolder x) m → stable (λ w, locked (trace w)) m.
Proof.
  intros Ho w Hw. destruct (Ho w) as (n & Hn & Hno). assert (locked (trace (m w).2)); [|by destruct (m w) as [[]]].
  rewrite Hn. apply locked_more; [done|]. by destruct (m w) as [[]].
Qed.
Lemma read_required_locked :
  hoare (λ w, retiring w ∧ locked (trace w)) (read_required ns nm : IO json) (λ _ w, retiring w ∧ locked (trace w)) ended.
Proof using Hu.
  assert (stable retiring (read_required ns nm : IO json)) as Hret.
  { unfold read_required. apply stable_bind; [apply read_retiring|]. stable_auto. }
  assert (stable (λ w, locked (trace w)) (read_required ns nm : IO json)) as Hlock.
  { apply stays_locked. unfold read_required. apply only_bind; [apply quiet_read|]. only_auto. }
  eapply hoare_weaken; [apply (hoare_conj _ _ _ _ _ _ _ Hret Hlock)|done|done|]. intros w [? _]. by apply retiring_ended.
Qed.
End Own.

(** What a temporary deployment created and is to be removed *)
Definition removable (retain_storage : bool) (s : submission) : list json :=
  snd <$> keep (λ e, negb (mem (kind e.1) (INSTANCE_KIND :: if retain_storage then ["RuntimeCache"; "PersistentVolumeClaim"] else []))) (created s).

Lemma cleanup_retires s u tr0 retain :
  u ≠ "" → hoare (retiring s u (removable retain s) tr0) (cleanup_temporary fuel ns nm timeout operation_id retain)
    (λ _, ended s u (removable retain s) tr0) (ended s u (removable retain s) tr0).
Proof.
  intros Hu. set (objs := removable retain s). set (R := retiring s u objs tr0). set (E := ended s u objs tr0).
  assert (∀ w, R w → E w) as HE by apply retiring_ended. unfold cleanup_temporary.
  apply (hoare_bind _ _ _ (λ x w, x = s ∧ R w)); [apply hoare_ask; by intros w (? & ? & ?)|]. intros x. apply hoare_fact. intros ->.
  destruct (bool_decide (created s = [])); [by apply hoare_ret|].
  apply (hoare_bind _ _ _ (λ _, R)); [eapply hoare_weaken; [apply owns_instance_retiring|done|done|done]|]. intros owned.
  destruct owned; simpl; [|by apply hoare_ret]. destruct (dmem _ _ && _); [by apply delete_instance_retires|]. cbv zeta. fold (removable retain s). fold objs.
  apply (hoare_bind _ _ _ (λ _, R)); [eapply hoare_weaken; [by apply created_retiring|done|done|done]|]. intros _.
  apply (hoare_bind _ _ _ (λ _, R)); [apply hoare_ask; done|]. intros kept. destruct kept; [by apply hoare_ret|].
  apply owned_under_lock; [by apply hoare_ret|]. set (L := λ w : world, R w ∧ locked s u (trace w)).
  assert (∀ w, L w → E w) as HL by (intros w [? _]; by apply HE).
  apply (hoare_bind _ _ _ (λ _, L)); [by apply read_required_locked|]. intros current.
  apply hoare_pure_bind; [done|]. intros removed _. apply (hoare_bind _ _ _ (λ _, L)); [apply hoare_ask; done|]. intros x.
  do 4 (apply hoare_pure_bind; [done|]; intros ? _).
  apply instance_locked; [intros tr; by apply pinned_request|apply quiet_request].
Qed.

(** C16: retiring a temporary deployment writes under the lock, and deletes only what the submission itself created.  Whatever
    the cluster does meanwhile and wherever [cleanup_temporary] fails, each of its writes happens while the lock of
    the instance is held, after the record was seen since to be still owned by the submission; and it is
    either the deletion of one of the created objects that are to be removed, directly after the object was
    seen to be the one the submission created, unchanged in intent, with the UID and version just seen as
    precondition, or a write to the record of the instance that names the UID of the instance. *)
Theorem retirement_deletes_own retain u w :
  i_uid (inst (self w)) = JStr u → u ≠ "" →
  let w' := (cleanup_temporary fuel ns nm timeout operation_id retain w).2 in
  extends (retires (the w) u (removable retain (the w))) (trace w) (trace w').
Proof.
  intros Hi Hu. pose proof (cleanup_retires (the w) u (trace w) retain Hu w) as Hc.
  specialize (Hc (conj (extends_refl _ _) (conj eq_refl Hi))). by destruct (cleanup_temporary _ _ _ _ _ _ w) as [[]].
Qed.
End Retirement.

(** ** Selecting the controller *)

Section Controller.
Context {C : Type} `{Kubectl C} `{PythonRepr} `{Codec} `{JsonText}.
Abbreviation world := (world C (operation lifecycle)).
Abbreviation IO := (IO world).
Variable fuel : nat.
Variables ns nm timeout : string.
Variable operation_id : json.

#[local] Hint Resolve happened_now happened_run happened_self happened_get happened_get_resources happened_read
  happened_read_required : stable.

Lemma happened_check e : stable (happened e) (check ns nm operation_id : IO unit).
Proof. unfold check, current_services, get_uid. stable_auto. Qed.
#[local] Hint Resolve happened_check : stable.

(** The cluster accepted the patch that asks for this operation and source. *)
Definition accepted (revision record : json) (e : call * reply) : Prop :=
  ∃ u v refs, e = (MergePatch DEPLOYMENT_RESOURCE nm ns (request_payload u v operation_id revision refs),
                   Output (Some record)).

(** [request] returns with the record the accepted patch was answered with. *)
Lemma request_accepted d revision :
  hoare (λ _, True) (request fuel ns nm d timeout operation_id revision : IO unit)
    (λ _ w, ∃ e record, accepted revision record e ∧ happened e w ∧ i_resource (inst (self w)) = Some record)
    (λ _, True).
Proof.
  unfold request. eapply hoare_bind with (R := λ _ _, True); [done|]. intros start.
  apply hoare_pure_bind; [done|]. intros secs _. cbv zeta.
  apply (hoare_forever (λ _ _, True)); [|done]. intros _.
  eapply hoare_bind with (R := λ _ _, True); [done|]. intros t.
  destruct (Qle_bool _ _); [by apply hoare_throw|].
  eapply hoare_bind with (R := λ _ _, True); [intros w _; by destruct (read_pinned ns nm w) as [[]]|]. intros [v u].
  apply hoare_pure_bind; [done|]. intros [] _; [by apply hoare_throw|].
  do 2 (apply hoare_pure_bind; [done|]; intros ? _).
  apply hoare_try with (E' := λ _, True); [|done|].
  - set (c := MergePatch _ _ _ _).
    eapply hoare_bind with (R := λ r w, happened (c, Output (Some r)) w).
    { intros w _. unfold run_json, mbind, IO_bind, run. destruct (serve c _) as [[[j|]| |] c']; try done. by left. }
    intros record. eapply hoare_bind with (R := λ _ w, happened (c, Output (Some record)) w ∧ i_resource (inst (self w)) = Some record).
    { apply hoare_change. intros w Hw. by split. }
    intros []. apply hoare_ret. intros w [Hw Hi]. exists (c, Output (Some record)), record. split_and!; [|done..].
    by eexists _, _, _.
  - intros e k. destruct (is_conflict e); [|done]. intros [= <-]. by apply hoare_ret.
Qed.

(** Holding the lock keeps what the body established about the trace. *)
Lemma holding_keeps {A} (m : IO A) (Q : A → world → Prop) :
  hoare (λ _, True) m Q (λ _, True) →
  (∀ a w rep c' uid, Q a w → Q a (World c' (ticks w) ((ReleaseHolder uid, rep) :: trace w) (self w))) →
  hoare (λ _, True) (holding m) Q (λ _, True).
Proof.
  intros Hm HQ. unfold holding. eapply hoare_bind with (R := λ _ _, True); [by apply hoare_ask|]. intros uid.
  unfold hold. eapply hoare_bind with (R := λ _ _, True); [intros w _; by destruct (run _ w) as [[]]|]. intros _.
  eapply hoare_finally; [exact Hm|done| |].
  - intros a. eapply hoare_bind with (R := λ _, Q a); [|intros o; by apply hoare_ret].
    apply hoare_run. intros w rep c' Hw. specialize (HQ a w rep c' uid Hw). by destruct rep.
  - intros w _. unfold mbind, IO_bind. by destruct (run _ w) as [[]].
Qed.

(** The controller revision a deployment is rolled out with was reported for
    this very request.  When [prepare_controller] returns a revision, the cluster had
    accepted a patch that carries this operation as update and the selected source,
    and later showed the instance record with the UID, generation and update of the
    accepted record, not being deleted, whose status and Ready condition are both of
    that generation, Ready is True, and whose controller revision is the one
    returned; a revision of an older request or of a replaced record is never used. *)
Theorem controller_revision_current d source w revision w' :
  prepare_controller fuel ns nm timeout operation_id d source w = (Returned revision, w') →
  ∃ e record expected v,
    accepted source record e ∧ e ∈ trace w' ∧ request_identity record = Ok expected ∧
    (GetObject DEPLOYMENT_RESOURCE nm ns true, Output (Some v)) ∈ trace w' ∧
    ready_for expected v revision.
Proof.
  enough (hoare (λ _, True) (prepare_controller fuel ns nm timeout operation_id d source)
    (λ revision w, ∃ e record, accepted source record e ∧ ∃ expected v, request_identity record = Ok expected ∧
       (happened e w ∧ happened (GetObject DEPLOYMENT_RESOURCE nm ns true, Output (Some v)) w) ∧
       ready_for expected v revision) (λ _, True)) as Hh.
  { intros E. specialize (Hh w I). rewrite E in Hh. destruct Hh as (e & record & ? & x & v & ? & [? ?] & ?).
    by exists e, record, x, v. }
  unfold prepare_controller.
  eapply hoare_bind with (R := λ _ w, ∃ e record, accepted source record e ∧ happened e w ∧ i_resource (inst (self w)) = Some record).
  { apply holding_keeps.
    - eapply hoare_bind with (R := λ _ _, True); [intros w0 _; by destruct (check _ _ _ w0) as [[]]|]. intros _.
      apply request_accepted.
    - intros a w0 rep c' uid (e & record & ? & ? & ?). exists e, record. split_and!; [done|by right|done]. }
  intros _. apply hoare_exists. intros e. apply hoare_exists. intros record.
  apply hoare_fact. intros Ha.
  eapply hoare_bind; [apply wait_ready_shown; intros e'; apply happened_check|]. intros rev.
  eapply hoare_weaken with (P' := λ w, ∃ expected v, (request_identity record = Ok expected ∧ ready_for expected v rev) ∧
      happened e w ∧ happened (GetObject DEPLOYMENT_RESOURCE nm ns true, Output (Some v)) w) (E' := λ _, True);
    [|intros w0 (? & x & v & ? & ? & ?); by exists x, v|intros r w0 Hw; exact Hw|done].
  apply hoare_exists. intros x. apply hoare_exists. intros v. apply hoare_fact. intros [Hx Hr].
  pose proof (hoare_conj _ _ _ _ _ _ _ (happened_check e)
    (happened_check (GetObject DEPLOYMENT_RESOURCE nm ns true, Output (Some v)))) as Hc.
  eapply hoare_bind; [eapply hoare_weaken; [exact Hc|done|by intros r w0 Hw|done]|].
  intros []. apply hoare_ret. intros w0 Hw. exists e, record. split; [done|]. by eexists _, _.
Qed.
End Controller.
