(* ===== verification/Settles.v ===== *)
(** * Termination of commands

    A command that takes fuel settles when some amount of fuel is enough: from
    there on every amount gives the same result, which is not [Unfinished].  The
    rules follow the syntax of commands; a loop settles when every round reads the
    clock and no round goes on after the deadline. *)

From S2P Require Import Prelude Effects Client Text Kube.

#[local] Open Scope nat_scope.

Definition settles {W A} (m : nat → IO W A) : Prop :=
  ∀ w, ∃ n r w', r ≠ Unfinished ∧ ∀ f, n ≤ f → m f w = (r, w').

(** The [except] clauses of a [try] settle. *)
Definition handles {W A} (h : nat → exn → option (IO W A)) : Prop :=
  ∀ e, (∀ f, h f e = None) ∨ ∃ k, (∀ f, h f e = Some (k f)) ∧ settles k.

Section Rules.
Context {W : Type}.

Lemma settles_now {A} (m : IO W A) : (∀ w, (m w).1 ≠ Unfinished) → settles (λ _, m).
Proof. intros Hm w. exists 0, (m w).1, (m w).2. split; [apply Hm|]. intros f _. by destruct (m w). Qed.

Lemma settles_ret {A} (a : A) : settles (λ _, mret a : IO W A).
Proof. by apply settles_now. Qed.
Lemma settles_throw {A} e : settles (λ _, throw e : IO W A).
Proof. by apply settles_now. Qed.
Lemma settles_ask {A} (g : W → A) : settles (λ _, ask g).
Proof. by apply settles_now. Qed.
Lemma settles_change (g : W → W) : settles (λ _, change g).
Proof. by apply settles_now. Qed.
Lemma settles_pure {A} (r : outcome A) : settles (λ _, pure r : IO W A).
Proof. apply settles_now. intros w. unfold pure. by destruct r. Qed.

Lemma settles_bind {A B} (m : nat → IO W A) (k : nat → A → IO W B) :
  settles m → (∀ a, settles (λ f, k f a)) → settles (λ f, m f ≫= k f).
Proof.
  intros Hm Hk w. destruct (Hm w) as (n & r & w1 & Hr & H1). unfold mbind, IO_bind.
  destruct r as [a|e|]; [|exists n, (Raised e), w1; split; [done|]; intros f Hf; by rewrite H1|done].
  destruct (Hk a w1) as (n2 & r2 & w2 & Hr2 & H2). exists (n `max` n2), r2, w2. split; [done|].
  intros f Hf. rewrite H1 by lia. apply H2. lia.
Qed.

Lemma settles_skip b (m : nat → IO W unit) : settles m → settles (λ f, skip_unless b (m f)).
Proof. intros Hm. destruct b; [done|]. apply settles_ret. Qed.

Lemma settles_try {A} (m : nat → IO W A) h :
  settles m → handles h → settles (λ f, try_except (m f) (h f)).
Proof.
  intros Hm Hh w. destruct (Hm w) as (n & r & w1 & Hr & H1). unfold try_except.
  destruct r as [a|e|]; [exists n, (Returned a), w1; split; [done|]; intros f Hf; by rewrite H1| |done].
  destruct (Hh e) as [Hn|(k & Hs & Hk)].
  - exists n, (Raised e), w1. split; [done|]. intros f Hf. by rewrite H1, Hn.
  - destruct (Hk w1) as (n2 & r2 & w2 & Hr2 & H2). exists (n `max` n2), r2, w2. split; [done|].
    intros f Hf. rewrite H1 by lia. rewrite Hs. apply H2. lia.
Qed.

Lemma settles_finally {A} (m : nat → IO W A) c :
  settles m → settles c → settles (λ f, try_finally (m f) (c f)).
Proof.
  intros Hm Hc w. destruct (Hm w) as (n & r & w1 & Hr & H1). unfold try_finally.
  destruct (Hc w1) as (n2 & rc & w2 & Hr2 & H2).
  exists (n `max` n2), match rc with Raised e => Raised e | _ => r end, w2. split; [by destruct rc|].
  intros f Hf. rewrite H1 by lia. rewrite H2 by lia. destruct r; [by destruct rc..|done].
Qed.

Lemma settles_each {A} (l : list A) (g : nat → A → IO W unit) :
  (∀ x, settles (λ f, g f x)) → settles (λ f, each l (g f)).
Proof.
  intros Hg. induction l as [|x l IH]; simpl; [apply settles_ret|].
  apply settles_bind; [apply Hg|]. intros _. exact IH.
Qed.

Lemma settles_collect {A B} (l : list A) (g : nat → A → IO W B) :
  (∀ x, settles (λ f, g f x)) → settles (λ f, collect (g f) l).
Proof.
  intros Hg. induction l as [|x l IH]; simpl; [apply settles_ret|].
  apply settles_bind; [apply Hg|]. intros y. apply settles_bind; [exact IH|]. intros ys. apply settles_ret.
Qed.

(** A loop with a measure that every repeated round decreases. *)
Lemma settles_measured {S A} (measure : W → nat) (body : nat → S → IO W (S + A)) s :
  (∀ s, settles (λ f, body f s)) →
  (∀ f s w s' w', body f s w = (Returned (inl s'), w') → measure w' < measure w) →
  settles (λ f, forever f (body f) s).
Proof.
  intros Hb Hd. enough (∀ k s w, measure w ≤ k → ∃ n r w', r ≠ Unfinished ∧
    ∀ f g, n ≤ f → n ≤ g → forever f (body g) s w = (r, w')) as Hall.
  { intros w. destruct (Hall _ s w (le_n _)) as (n & r & w' & Hr & Hf). exists n, r, w'. split; [done|].
    intros f Hn. by apply Hf. }
  clear s. induction k as [k IH] using lt_wf_ind. intros s w Hk.
  destruct (Hb s w) as (n & r & w1 & Hr & H1).
  destruct r as [[s'|a]|e|]; [|exists (Datatypes.S n), (Returned a), w1|exists (Datatypes.S n), (Raised e), w1|done];
    try (split; [done|]; intros [|f] g Hf Hg; [lia|]; simpl; unfold mbind, IO_bind; by rewrite H1 by lia).
  pose proof (Hd n s w s' w1 (H1 n (le_n _))) as Hlt.
  destruct (IH (measure w1)) with (s := s') (w := w1) as (n2 & r2 & w2 & Hr2 & H2); [lia|done|].
  exists (Datatypes.S (n `max` n2)), r2, w2. split; [done|]. intros [|f] g Hf Hg; [lia|].
  simpl. unfold mbind, IO_bind. rewrite H1 by lia. apply H2; lia.
Qed.
End Rules.

Create HintDb settles discriminated.
#[export] Hint Resolve settles_ret settles_throw settles_ask settles_change settles_pure : settles.

Ltac settles_step :=
  match goal with
  | |- settles (λ _, mbind _ _) => apply settles_bind; [|intros ?]
  | |- settles (λ _, skip_unless _ _) => apply settles_skip
  | |- settles (λ _, try_finally _ _) => apply settles_finally
  | |- settles (λ _, try_except _ _) => apply settles_try
  | |- settles (λ _, each _ _) => apply settles_each; intros ?
  | |- settles (λ _, collect _ _) => apply settles_collect; intros ?
  | |- settles (λ _, match ?x with _ => _ end) => destruct x
  | |- settles _ => solve [auto with settles]
  | |- handles _ => intros ?
  | |- (∀ _, match ?x with _ => _ end = None) ∨ _ => destruct x
  | |- (∀ _, None = None) ∨ _ => left; done
  | |- (∀ _, Some _ = None) ∨ _ => right; eexists; split; [done|]
  end.
Ltac settles_auto := intros; cbv zeta; repeat (settles_step; cbv beta).

(** ** Deadlines *)

Section Clock.
Context {C S : Type} `{Kubectl C}.
Abbreviation IO := (IO (world C S)).

Lemma now_settles : settles (λ _, now : IO Q).
Proof. by apply settles_now. Qed.
Lemma run_settles c : settles (λ _, run c : IO _).
Proof. apply settles_now. intros w. unfold run. by destruct (serve c _) as [[]]. Qed.
Lemma on_self_settles f : settles (λ _, on_self f : IO unit).
Proof. apply settles_change. Qed.
#[local] Hint Resolve now_settles run_settles on_self_settles : settles.
Lemma run_json_settles c : settles (λ _, run_json c : IO json).
Proof. unfold run_json. settles_auto. Qed.
Lemma get_if_exists_settles k n s : settles (λ _, get_if_exists k n s : IO _).
Proof. unfold get_if_exists, decode_object. settles_auto. Qed.
Lemma get_object_settles k n s : settles (λ _, get_object k n s : IO _).
Proof. unfold get_object, decode_object. settles_auto. Qed.
#[local] Hint Resolve get_if_exists_settles : settles.
Lemma get_resources_settles refs : settles (λ _, get_resources refs : IO _).
Proof. unfold get_resources, decode_resource_list, decode_object. settles_auto. Qed.
Lemma hold_settles {A} uid (m : nat → IO A) : settles m → settles (λ f, hold uid (m f)).
Proof. intros Hm. unfold hold. settles_auto. Qed.

(** The clock has been read at least [k] times. *)
Definition late (k : nat) (w : world C S) : Prop := k ≤ ticks w.

Lemma late_now k : stable (late k) (now : IO Q).
Proof. intros w Hw. unfold late in *. simpl. lia. Qed.
Lemma late_run k c : stable (late k) (run c : IO _).
Proof. by apply stable_run. Qed.
Lemma late_self k f : stable (late k) (on_self f : IO unit).
Proof. by apply stable_on_self. Qed.
#[local] Hint Resolve late_now late_run late_self : stable.
Lemma late_run_json k c : stable (late k) (run_json c : IO json).
Proof. unfold run_json. stable_auto. Qed.
Lemma late_get k x n s : stable (late k) (get_if_exists x n s : IO _).
Proof. unfold get_if_exists, decode_object. stable_auto. Qed.
Lemma late_get_object k x n s : stable (late k) (get_object x n s : IO _).
Proof. unfold get_object, decode_object. stable_auto. Qed.
#[local] Hint Resolve late_get : stable.
Lemma late_get_resources k refs : stable (late k) (get_resources refs : IO _).
Proof. unfold get_resources, decode_resource_list, decode_object. stable_auto. Qed.

(** [deadline] has passed from the [N]-th reading of the clock on. *)
Definition passed (deadline : Q) (N : nat) : Prop := ∀ n, N ≤ n → (deadline <= monotonic n)%Q.

(** A round that starts at the [k]-th reading and is to be repeated has read the
    clock, and the deadline had not passed. *)
Definition goes_on {A B} (N k : nat) (r : A + B) (w : world C S) : Prop :=
  match r with inl _ => late (Datatypes.S k) w ∧ k < N | inr _ => True end.
Definition ticking {A B} (N : nat) (round : IO (A + B)) : Prop :=
  ∀ k, hoare (late k) round (goes_on N k) (λ _, True).

Lemma settles_deadline {St A} N (body : nat → St → IO (St + A)) s :
  (∀ s, settles (λ f, body f s)) → (∀ f s, ticking N (body f s)) →
  settles (λ f, forever f (body f) s).
Proof.
  intros Hb Ht. apply (settles_measured (λ w, N - ticks w)); [done|].
  intros f s0 w s' w' E. specialize (Ht f s0 (ticks w) w (le_n _)). rewrite E in Ht.
  destruct Ht as [Hl Hn]. unfold late in Hl. lia.
Qed.

(** The guard [if time.monotonic() >= deadline: raise]. *)
Lemma guard_ticking {A B} deadline N k (e : exn) (after : Q → IO (A + B)) :
  passed deadline N →
  (∀ t, hoare (late (Datatypes.S k)) (after t) (λ r w, match r with inl _ => late (Datatypes.S k) w | inr _ => True end) (λ _, True)) →
  hoare (late k) (t ← now; if Qle_bool deadline t then throw e else after t) (goes_on N k) (λ _, True).
Proof.
  intros Hp Ha w Hw. unfold mbind, IO_bind, now. simpl.
  destruct (Qle_bool deadline (monotonic (ticks w))) eqn:E; [done|].
  assert (k < N) as HkN.
  { destruct (decide (k < N)) as [|Hn]; [done|]. exfalso.
    assert (deadline <= monotonic (ticks w))%Q as Hq%Qle_bool_iff by (apply Hp; unfold late in Hw; lia). congruence. }
  set (w1 := World _ _ _ _). assert (late (Datatypes.S k) w1) as Hw1 by (unfold late in *; simpl; lia).
  specialize (Ha (monotonic (ticks w)) w1 Hw1). destruct (after _ w1) as [[[a|b]|e'|] w2]; by simpl in *.
Qed.

(** A stable rest keeps the readings. *)
Lemma late_rest {A B} k (m : IO (A + B)) :
  stable (late k) m → hoare (late k) m (λ r w, match r with inl _ => late k w | inr _ => True end) (λ _, True).
Proof. intros Hm. eapply hoare_weaken; [exact Hm|done| |done]. by intros [a|b] w Hw. Qed.

Lemma ticking_prefix {X Y} k (m : IO X) (rest : X → IO Y) Q :
  stable (late k) m → (∀ x, hoare (late k) (rest x) Q (λ _, True)) →
  hoare (late k) (m ≫= rest) Q (λ _, True).
Proof. intros Hm Hr. eapply hoare_bind; [|exact Hr]. eapply hoare_weaken; [exact Hm|done..]. Qed.

Lemma ticking_stop {A B} N k (b : B) : hoare (late k) (mret (inr b) : IO (A + B)) (goes_on N k) (λ _, True).
Proof. by apply hoare_ret. Qed.
Lemma ticking_throw {A B} N k e : hoare (late k) (throw e : IO (A + B)) (goes_on N k) (λ _, True).
Proof. by apply hoare_throw. Qed.

(** Every deadline passes. *)
Definition clock_passes : Prop := ∀ q : Q, ∃ N, passed q N.
End Clock.
#[export] Hint Resolve now_settles run_settles on_self_settles run_json_settles get_if_exists_settles get_object_settles
  get_resources_settles hold_settles : settles.
#[export] Hint Resolve late_now late_run late_self late_run_json late_get late_get_object late_get_resources : stable.

(** Invariants through [except] clauses. *)
Ltac clause_step :=
  match goal with
  | |- stable _ (try_except _ _) => apply stable_try; [|intros ? ?]
  | |- match ?x with _ => _ end = Some _ → _ => destruct x
  | |- None = Some _ → _ => discriminate
  | |- Some _ = Some _ → _ => intros [= <-]
  end.
Ltac late_auto := intros; cbv zeta; repeat (first [stable_step|clause_step]; cbv beta).

(** Decompose a round: what precedes the guard, the guard, and the rest. *)
Ltac ticking_step :=
  match goal with
  | |- ticking _ _ => intros ?
  | |- hoare (late _) (mret (inr _)) _ _ => apply ticking_stop
  | |- hoare (late _) (throw _) _ _ => apply ticking_throw
  | |- hoare (late _) (now ≫= λ _, if Qle_bool _ _ then throw _ else _) (goes_on _ _) _ =>
      apply guard_ticking; [assumption|intros ?; apply late_rest; late_auto]
  | |- hoare (late _) (_ ≫= _) (goes_on _ _) _ => apply ticking_prefix; [late_auto|intros ?]
  | |- hoare (late _) (match ?x with _ => _ end) _ _ => destruct x
  end.
Ltac ticking_auto := intros; cbv zeta; repeat (ticking_step; cbv beta).

(** A loop with a deadline: [clock] says that it passes. *)
Ltac deadline_loop clock :=
  match goal with
  | |- settles ?loop =>
      match loop with context [Qle_bool ?d _] =>
        let N := fresh "N" in let HN := fresh "HN" in
        destruct (clock d) as [N HN]; apply (settles_deadline N); [settles_auto|ticking_auto]
      end
  end.

(** ** A scripted cluster

    A concrete cluster for the witnesses: it answers the calls of a command with
    the lines of a script, and its clock advances by a second with every reading. *)

#[export] Instance scripted : Kubectl (list reply) := {
  serve c script := match script with
                    | r :: script => (r, script)
                    | [] => (Failed "the script has ended", [])
                    end;
  monotonic n := inject_Z (Z.of_nat n);
}.

Lemma scripted_clock : clock_passes (C := list reply).
Proof.
  intros q. exists (Z.to_nat (Qceiling q)). intros n Hn. change (monotonic n) with (inject_Z (Z.of_nat n)).
  eapply Qle_trans; [apply Qle_ceiling|]. rewrite <- Zle_Qle. lia.
Qed.

Definition answer (v : json) : reply := Output (Some v).
Definition done_ : reply := Output None.
