(* ===== verification/TerminationProofs.v ===== *)
(** * Deployment commands terminate

    Every loop of the deployment commands has a deadline that is checked in every
    round, so each command settles on any cluster whose clock passes every
    deadline: some amount of fuel is enough, and more fuel changes nothing. *)

From S2P Require Import Prelude Text Kube Manifest Effects Client Instances Submission Lifecycle Endpoint Settles.
#[local] Open Scope nat_scope.

Section Instances.
Context {C T : Type} `{Kubectl C} `{PythonRepr} `{Codec} `{JsonText}.
Abbreviation IO := (IO (world C (operation T))).
Hypothesis clock : clock_passes.
Variable kustomize : kustomization → list json → outcome string.
Variables ns nm : string.

Lemma wait_deleted_settles resource metadata timeout :
  settles (λ f, wait_deleted f resource metadata timeout : IO unit).
Proof using clock.
  unfold wait_deleted. settles_auto. deadline_loop clock.
Qed.
#[local] Hint Resolve wait_deleted_settles : settles.

Lemma wait_for_object_settles (fetch : IO (option json)) ready deadline description :
  (∀ k, stable (late k) fetch) → settles (λ _, fetch) →
  settles (λ f, wait_for_object f fetch ready deadline description : IO json).
Proof using clock. intros Hf Hs. unfold wait_for_object. deadline_loop clock. Qed.

Lemma delete_object_settles v timeout wait propagation m :
  settles (λ f, delete_object f v timeout wait propagation m : IO unit).
Proof using clock. unfold delete_object. settles_auto. Qed.
#[local] Hint Resolve delete_object_settles : settles.

Lemma read_settles required : settles (λ _, read ns nm required : IO _).
Proof. unfold read, get_uid, set_uid, set_resource, set_instance. settles_auto. Qed.
#[local] Hint Resolve read_settles : settles.
Lemma read_required_settles : settles (λ _, read_required ns nm : IO _).
Proof. unfold read_required. settles_auto. Qed.
#[local] Hint Resolve read_required_settles : settles.
Lemma late_read k required : stable (late k) (read ns nm required : IO _).
Proof. unfold read, get_uid, set_uid, set_resource, set_instance. stable_auto. Qed.
#[local] Hint Resolve late_read : stable.
Lemma late_read_required k : stable (late k) (read_required ns nm : IO _).
Proof. unfold read_required. stable_auto. Qed.
#[local] Hint Resolve late_read_required : stable.

Lemma ensure_settles d : settles (λ _, ensure ns nm d : IO bool).
Proof. unfold ensure, get_uid, get_resource, set_resource, set_uid, set_instance. settles_auto. Qed.

Lemma request_settles d timeout update revision :
  settles (λ f, request f ns nm d timeout update revision : IO unit).
Proof using clock.
  unfold request, read_pinned, get_uid, set_resource, set_instance. settles_auto. deadline_loop clock.
Qed.

Lemma wait_ready_settles timeout (observe : IO unit) :
  (∀ k, stable (late k) observe) → settles (λ _, observe) →
  settles (λ f, wait_ready f ns nm timeout observe : IO json).
Proof using clock.
  intros Hl Hs. unfold wait_ready, get_resource. settles_auto. deadline_loop clock.
Qed.

Lemma wait_instance_deleted_settles timeout : settles (λ f, wait_instance_deleted f ns nm timeout : IO unit).
Proof using clock. unfold wait_instance_deleted, get_uid. settles_auto. Qed.
#[local] Hint Resolve wait_instance_deleted_settles : settles.

Lemma late_wait_deleted k f resource metadata timeout :
  stable (late k) (wait_deleted f resource metadata timeout : IO unit).
Proof. unfold wait_deleted. late_auto. Qed.
#[local] Hint Resolve late_wait_deleted : stable.
Lemma late_delete_object k f v timeout wait propagation m :
  stable (late k) (delete_object f v timeout wait propagation m : IO unit).
Proof. unfold delete_object. late_auto. Qed.
#[local] Hint Resolve late_delete_object : stable.

Lemma delete_settles timeout wait : settles (λ f, delete f ns nm timeout wait : IO unit).
Proof using clock. unfold delete, get_uid. settles_auto. deadline_loop clock. Qed.

Lemma access_settles : settles (λ _, access ns nm : IO json).
Proof. unfold access, controller_name, get_uid. settles_auto. Qed.
Lemma bind_settles d : settles (λ _, bind kustomize ns nm d : IO _).
Proof. unfold bind, get_uid. settles_auto. Qed.
Lemma recover_all_settles allow refs st : settles (λ _, recover_all ns nm allow refs st : IO _).
Proof.
  revert st. induction refs as [|r refs IH]; intros st; simpl; [auto with settles|].
  unfold recover_document, get_uid. settles_auto; apply IH.
Qed.
Lemma deployment_settles allow missing : settles (λ _, deployment ns nm allow missing : IO _).
Proof. pose proof recover_all_settles. unfold deployment, get_uid. settles_auto. Qed.
End Instances.
#[export] Hint Resolve wait_deleted_settles delete_object_settles read_settles read_required_settles ensure_settles
  request_settles wait_instance_deleted_settles delete_settles access_settles bind_settles deployment_settles : settles.
#[export] Hint Resolve late_read late_read_required late_wait_deleted late_delete_object : stable.

(** ** Submission *)

Section Submission.
Context {C : Type} `{Kubectl C} `{PythonRepr} `{Codec} `{JsonText}.
Abbreviation world := (world C (operation lifecycle)).
Abbreviation IO := (IO world).
Hypothesis clock : clock_passes.
Variable kustomize : kustomization → list json → outcome string.
Variables ns nm : string.
Variable timeout : Z.
Variable operation_id : json.
Variable create_only : bool.

Lemma init_settles d : settles (λ _, init create_only d : IO unit).
Proof. unfold init. settles_auto. Qed.
Lemma owns_instance_settles : settles (λ _, owns_instance ns nm operation_id : IO bool).
Proof. unfold owns_instance. settles_auto. Qed.
Lemma current_services_settles : settles (λ _, current_services ns nm operation_id : IO _).
Proof. unfold current_services, get_uid. settles_auto. Qed.
Lemma member_settles r : settles (λ _, member r : IO _).
Proof. unfold member, get_uid. settles_auto. Qed.
#[local] Hint Resolve current_services_settles member_settles : settles.
Lemma check_settles : settles (λ _, check ns nm operation_id : IO unit).
Proof. unfold check. settles_auto. Qed.
#[local] Hint Resolve check_settles : settles.
Lemma late_current_services k : stable (late k) (current_services ns nm operation_id : IO _).
Proof. unfold current_services, get_uid. late_auto. Qed.
Lemma late_member k r : stable (late k) (member r : IO _).
Proof. unfold member, get_uid. late_auto. Qed.
#[local] Hint Resolve late_current_services late_member : stable.
Lemma late_check k : stable (late k) (check ns nm operation_id : IO unit).
Proof. unfold check. late_auto. Qed.
Lemma late_owns_instance k : stable (late k) (owns_instance ns nm operation_id : IO bool).
Proof. unfold owns_instance. late_auto. Qed.
#[local] Hint Resolve late_check : stable.

Lemma claim_operation_settles r current deadline :
  settles (λ _, claim_operation operation_id create_only r current deadline : IO json).
Proof. unfold claim_operation. settles_auto. Qed.
Lemma late_claim_operation k r current deadline :
  stable (late k) (claim_operation operation_id create_only r current deadline : IO json).
Proof. unfold claim_operation. late_auto. Qed.
#[local] Hint Resolve claim_operation_settles : settles.
#[local] Hint Resolve late_claim_operation : stable.

Lemma dependency_round_settles value claim_only r deadline :
  settles (λ _, dependency_round ns nm operation_id create_only value claim_only r deadline : IO _).
Proof.
  unfold dependency_round, attempt, retry_conflict, create_dependency, refresh_receipt, apply_dependency_config,
    set_created, on_submission. settles_auto.
Qed.
Lemma service_round_settles r value patch suspended deadline :
  settles (λ _, service_round ns nm operation_id r value patch suspended deadline : IO _).
Proof.
  unfold service_round, set_created, set_committed, on_submission. settles_auto.
Qed.
#[local] Hint Resolve dependency_round_settles service_round_settles : settles.

Lemma service_round_ticking N r value patch suspended deadline :
  passed deadline N → ticking N (service_round ns nm operation_id r value patch suspended deadline : IO _).
Proof. intros HN. unfold service_round, set_created, set_committed, on_submission. ticking_auto. Qed.

Lemma dependency_round_ticking N value claim_only r deadline :
  passed deadline N →
  ticking N (dependency_round ns nm operation_id create_only value claim_only r deadline : IO _).
Proof.
  intros HN. unfold dependency_round, attempt, retry_conflict, create_dependency, refresh_receipt,
    apply_dependency_config, set_created, on_submission. ticking_auto.
Qed.

Lemma apply_service_settles r value patch :
  settles (λ f, apply_service f ns nm timeout operation_id r value patch : IO unit).
Proof using clock.
  unfold apply_service. settles_auto. destruct (clock (a + inject_Z timeout)%Q) as [n HN].
  apply (settles_deadline n); [settles_auto|]. intros f [] . by apply service_round_ticking.
Qed.

Lemma apply_dependency_settles value claim_only :
  settles (λ f, apply_dependency f ns nm timeout operation_id create_only value claim_only : IO unit).
Proof using clock.
  unfold apply_dependency. settles_auto. destruct (clock (a1 + inject_Z timeout)%Q) as [n HN].
  apply (settles_deadline n); [settles_auto|]. intros f []. by apply dependency_round_ticking.
Qed.
#[local] Hint Resolve apply_service_settles apply_dependency_settles : settles.

(** A claim reads the clock, and after the deadline fails for good. *)
Lemma claim_operation_late k r current deadline :
  hoare (late k) (claim_operation operation_id create_only r current deadline : IO json)
    (λ _, late (S k)) (late (S k)).
Proof.
  unfold claim_operation. eapply hoare_bind with (R := λ _, late (S k)).
  - intros w Hw. unfold late in *. simpl. lia.
  - intros t. match goal with |- hoare _ ?m _ _ => change (stable (late (S k)) m) end. late_auto.
Qed.
Lemma claim_operation_expired N w r current deadline :
  passed deadline N → N ≤ ticks w →
  ∃ m w', claim_operation operation_id create_only r current deadline w = (Raised (DeploymentError m), w').
Proof.
  intros HN Hw. unfold claim_operation, mbind, IO_bind, now.
  rewrite (proj2 (Qle_bool_iff _ _) (HN _ Hw)). by eexists _, _.
Qed.

Lemma claim_instance_settles identity deadline current :
  settles (λ f, claim_instance f ns nm operation_id create_only identity deadline current : IO unit).
Proof using clock.
  unfold claim_instance, set_scope, on_submission. destruct (clock deadline) as [n HN].
  apply (settles_deadline n); [settles_auto|]. intros f v k.
  do 2 (apply ticking_prefix; [late_auto|]; intros ?).
  destruct (_ || _); [apply ticking_throw|]. apply ticking_prefix; [late_auto|]. intros version.
  destruct (decide (k < n)) as [Hk|Hk].
  - eapply hoare_weaken with (Q' := λ r w, match r with inl _ => late (S k) w | inr _ => True end) (E' := λ _, True);
      [|done|by intros [?|?] w Hw|done].
    apply hoare_try with (E' := late (S k)); [|done|].
    + eapply hoare_bind; [apply claim_operation_late|]. intros r.
      eapply hoare_bind with (R := λ _, late (S k)); [apply late_self|]. intros _. by apply hoare_ret.
    + intros e h. destruct (is_conflict e); [|done]. intros [= <-]. apply late_rest. late_auto.
  - intros w Hw. unfold try_except, mbind at 1, IO_bind at 1.
    destruct (claim_operation_expired n w (root ns nm) v deadline HN) as (m & w' & ->); [unfold late in Hw; lia|].
    done.
Qed.
#[local] Hint Resolve claim_instance_settles : settles.

Lemma begin__settles : settles (λ f, begin_ f ns nm timeout operation_id create_only : IO unit).
Proof using clock. unfold begin_. settles_auto. Qed.
Lemma prepare_instance_settles : settles (λ _, prepare_instance kustomize ns nm : IO unit).
Proof. unfold prepare_instance, get_resource, set_created, set_deployment, on_submission. settles_auto. Qed.
#[local] Hint Resolve begin__settles prepare_instance_settles : settles.
Lemma submit_settles rendered_ patch :
  settles (λ f, submit f ns nm timeout operation_id create_only rendered_ patch : IO unit).
Proof using clock. unfold submit, submit_service. settles_auto. Qed.
#[local] Hint Resolve submit_settles : settles.
Lemma begin_settles : settles (λ f, begin kustomize f ns nm timeout operation_id create_only : IO unit).
Proof using clock. unfold begin, get_uid. settles_auto. Qed.
Lemma apply_settles rendered_ patch :
  settles (λ f, apply kustomize f ns nm timeout operation_id create_only rendered_ patch : IO unit).
Proof using clock. unfold apply, get_uid. settles_auto. apply hold_settles. settles_auto. Qed.
End Submission.
#[export] Hint Resolve init_settles owns_instance_settles check_settles begin_settles apply_settles : settles.
#[export] Hint Resolve late_owns_instance late_check : stable.

(** ** Lifecycle *)

Section Lifecycle.
Context {C : Type} `{Kubectl C} `{PythonRepr} `{Codec} `{JsonText}.
Abbreviation world := (world C (operation lifecycle)).
Abbreviation IO := (IO world).
Hypothesis clock : clock_passes.
Variable kustomize : kustomization → list json → outcome string.
Variable resolve_directory : string → string → outcome string.
Variables ns nm timeout : string.
Variable operation_id : json.

Lemma holding_settles {A} (m : nat → IO A) : settles m → settles (λ f, holding (m f)).
Proof. intros Hm. unfold holding, get_uid. settles_auto. Qed.

Lemma prepare_controller_settles d revision :
  settles (λ f, prepare_controller f ns nm timeout operation_id d revision : IO json).
Proof using clock.
  unfold prepare_controller. settles_auto.
  - apply holding_settles. settles_auto.
  - apply wait_ready_settles; [done|apply late_check|auto with settles].
Qed.

Lemma supersede_settles fresh : settles (λ f, supersede f ns nm timeout fresh : IO unit).
Proof using clock. unfold supersede, mutation_read, get_uid. settles_auto. deadline_loop clock. Qed.
#[local] Hint Resolve supersede_settles : settles.

Lemma delete_instance_settles fresh mine :
  settles (λ f, delete_instance f ns nm timeout operation_id fresh mine : IO unit).
Proof using clock.
  unfold delete_instance, set_retained. settles_auto. apply holding_settles. settles_auto.
Qed.
#[local] Hint Resolve delete_instance_settles : settles.

Lemma delete_deployment_settles d fresh :
  settles (λ f, delete_deployment f ns nm timeout operation_id d fresh : IO unit).
Proof using clock. unfold delete_deployment. settles_auto. Qed.

(** A round that is repeated has read the clock before the deadline. *)
Lemma remove_round_late f N r obj deadline k :
  passed deadline N →
  hoare (late k) (remove_round f ns nm operation_id r obj deadline : IO removal)
    (λ o w, o = Again → late (S k) w ∧ k < N) (λ _, True).
Proof.
  intros HN. unfold remove_round, set_retained, get_uid.
  apply ticking_prefix; [late_auto|]. intros [|]; simpl.
  2: { apply ticking_prefix; [late_auto|]. intros _. by apply hoare_ret. }
  apply ticking_prefix; [late_auto|]. intros [current|]; [|by apply hoare_ret].
  apply ticking_prefix; [late_auto|]. intros [|]; [by apply hoare_ret|].
  do 3 (apply ticking_prefix; [late_auto|]; intros ?).
  destruct (negb _); [apply ticking_prefix; [late_auto|]; intros _; by apply hoare_ret|].
  apply ticking_prefix; [late_auto|]. intros t. apply hoare_try with (E' := late k); [|done|].
  - eapply hoare_bind with (R := λ _, late k); [apply late_delete_object|]. intros _. by apply hoare_ret.
  - intros e h. destruct (deployment_error e); [|done]. intros [= <-].
    apply ticking_prefix; [late_auto|]. intros [latest|]; [|by apply hoare_ret].
    do 2 (apply ticking_prefix; [late_auto|]; intros ?).
    destruct (py_eqb _ _); [by apply hoare_throw|].
    intros w Hw. unfold mbind, IO_bind, now. simpl.
    destruct (Qle_bool deadline (monotonic (ticks w))) eqn:E; [done|]. intros _. unfold late in *. simpl.
    split; [lia|]. destruct (decide (k < N)) as [|Hn]; [done|]. exfalso.
    assert (deadline <= monotonic (ticks w))%Q as Hq%Qle_bool_iff by (apply HN; lia). congruence.
Qed.

Lemma remove_round_settles r obj deadline :
  settles (λ f, remove_round f ns nm operation_id r obj deadline : IO removal).
Proof using clock. unfold remove_round, set_retained, get_uid. settles_auto. Qed.

Lemma remove_object_settles obj : settles (λ f, remove_object f ns nm timeout operation_id obj : IO bool).
Proof using clock.
  unfold remove_object. settles_auto. destruct (clock (a0 + inject_Z a1)%Q) as [n HN].
  apply (settles_deadline n).
  - intros []. settles_auto. apply holding_settles, remove_round_settles.
  - intros f [] k. apply hoare_bind with (R := λ o w, o = Again → late (S k) w ∧ k < n).
    + unfold holding, get_uid, hold. do 2 (apply ticking_prefix; [late_auto|]; intros ?).
      eapply hoare_finally; [by apply remove_round_late|done| |].
      * intros o w Hw. unfold mbind, IO_bind, run. destruct (serve _ _) as [[]]; done.
      * intros w _. unfold mbind, IO_bind. by destruct (run _ w) as [[]].
    + intros [| | |current].
      * by apply hoare_ret.
      * by apply hoare_ret.
      * apply hoare_ret. intros w Hw. by apply Hw.
      * intros w _. unfold mbind, IO_bind, pure, mret, IO_ret.
        destruct (index "metadata" current); [|done]. by destruct (wait_deleted _ _ _ _ w) as [[]].
Qed.
#[local] Hint Resolve remove_object_settles : settles.

Lemma remove_objects_settles objs : settles (λ f, remove_objects f ns nm timeout operation_id objs : IO unit).
Proof using clock. induction objs as [|obj objs IH]; simpl; settles_auto. Qed.
#[local] Hint Resolve remove_objects_settles : settles.

Lemma cleanup_settles retain : settles (λ f, cleanup_temporary f ns nm timeout operation_id retain : IO unit).
Proof using clock.
  unfold cleanup_temporary, remove_created. settles_auto. apply holding_settles. settles_auto.
Qed.

Variable source : option (source_build (C := C)).
Variable seconds : Z.
Variable temporary : bool.

(** What the command is given settles too. *)
Definition source_settles : Prop :=
  ∀ s, source = Some s →
    (∀ d, settles (λ _, source_prepare s d)) ∧ settles (λ _, source_revision s) ∧
    (∀ d c, settles (λ _, source_apply s d c)) ∧ (∀ d, settles (λ _, source_verify s d)).

Lemma wait_for_rollout_settles refs revisions :
  settles (λ f, wait_for_rollout f ns nm timeout operation_id refs revisions : IO _).
Proof using clock.
  unfold wait_for_rollout, wait_round, observe_services. settles_auto. deadline_loop clock.
Qed.
#[local] Hint Resolve wait_for_rollout_settles : settles.

Lemma apply_deployment_settles d :
  source_settles →
  settles (λ f, apply_deployment kustomize resolve_directory f ns nm timeout operation_id source
                  seconds temporary d : IO _).
Proof using clock.
  intros Hs. unfold apply_deployment, submit_deployment, controller_name, get_uid.
  pose proof prepare_controller_settles.
  unfold source_settles in Hs. destruct source as [s|]; [destruct (Hs s eq_refl) as (? & ? & ? & ?)|]; settles_auto.
Qed.

Lemma endpoint_settles d t : settles (λ f, resolve_frontend_endpoint f d t : IO _).
Proof using clock.
  unfold resolve_frontend_endpoint, load_balancer_endpoint, gateway_endpoint. settles_auto;
    (apply wait_for_object_settles; [done|late_auto|settles_auto]).
Qed.
End Lifecycle.

