(* ===== verification/DeploymentWitnesses.v ===== *)
(** * Deployments on a scripted cluster

    Concrete runs for the theorems about deployments, on the cluster of
    [Settles]. *)

From S2P Require Import Prelude Text Kube Manifest ManifestProofs Effects Client Instances Submission Lifecycle Endpoint Fencing SubmissionProofs InstanceProofs LifecycleProofs Settles TerminationProofs.

#[local] Instance plain : PythonRepr := λ _, "".
#[local] Instance no_yaml : Codec := {| decode := λ _, Some []; encode := λ _, "" |}.
#[local] Instance no_text : JsonText := λ _, Some (JObj []).

(** The record of the instance [app] as version [v], claimed by [o], with the
    given status. *)
Definition record_of (v : string) (o : string) (status : list (string * json)) : json :=
  JObj [("apiVersion", JStr DEPLOYMENT_API_VERSION); ("kind", JStr INSTANCE_KIND);
        ("metadata", JObj [("name", JStr "app"); ("namespace", JStr "ns"); ("uid", JStr "u1");
                           ("resourceVersion", JStr v); ("generation", JInt 2);
                           ("annotations", JObj [(SERVICE_OPERATION, JStr o)])]);
        ("spec", JObj [("updateID", JStr "op1"); ("resources", JArr [])]);
        ("status", JObj status)].
Definition ready_status : list (string * json) :=
  [("observedGeneration", JInt 2); ("controllerRevision", JStr "r7");
   ("conditions", JArr [JObj [("type", JStr "Ready"); ("status", JStr "True"); ("observedGeneration", JInt 2)]])].

Definition empty_deployment : ForetokenDeployment := Deployment None "" "ns" "" "" [] [] [] "app" "u1".
Definition start_world (script : list reply) (claimed : option json) : world (list reply) (operation lifecycle) :=
  World script 0 [] (Operation (fresh_instance "u1") (Lifecycle (Submission empty_deployment [] [] [] claimed) false)).

(** The script of [begin]: two reads, the lock, the claim, its check, the release. *)
Definition begin_script : list reply :=
  let old := record_of "5" "" [] in let new := record_of "6" "op1" [] in
  [answer old; answer old; done_; answer old; answer new; answer new; done_].

Lemma submission_writes_fenced_witness :
  let w := start_world begin_script None in
  let w' := (begin (λ _ _, Ok "") 10 "ns" "app" 60 (JStr "op1") false w).2 in
  (begin (λ _ _, Ok "") 10 "ns" "app" 60 (JStr "op1") false w).1 = Returned tt ∧
  length (trace w') = 7%nat ∧ all_fenced (trace w').
Proof.
  cbv zeta. split; [vm_compute; reflexivity|]. split; [vm_compute; reflexivity|].
  exact (proj1 (submission_writes_fenced (λ _ _, Ok "") 10 "ns" "app" 60 (JStr "op1") false "" false
    (start_world begin_script None) I)).
Defined.

Lemma instance_writes_pinned_witness :
  let w := start_world [answer (record_of "5" "" []); answer (record_of "6" "" [])] None in
  i_uid (inst (self w)) = JStr "u1" ∧
  stays_on "u1" (request 10 "ns" "app" empty_deployment "60s" (JStr "op1") (JStr "")) w.
Proof.
  cbv zeta. split; [reflexivity|].
  exact (proj1 (proj2 (proj2 (instance_writes_pinned (λ _ _, Ok "") 10 "ns" "app" "u1" empty_deployment "60s"
    (JStr "op1") (JStr "") (mret tt) true true true true
    (start_world [answer (record_of "5" "" []); answer (record_of "6" "" [])] None)
    ltac:(discriminate) eq_refl (λ tr0, stable_ret _ tt))))).
Defined.

(** The script of [prepare_controller]: check and request under the lock, then the
    controller reports the request. *)
Definition controller_script : list reply :=
  let pending := record_of "6" "op1" [] in let ready := record_of "7" "op1" ready_status in
  [done_; answer pending; answer pending; answer pending; done_;
   answer pending; answer pending; answer ready; answer ready; answer ready].

Lemma controller_revision_current_witness :
  let w := start_world controller_script (Some (record_of "6" "op1" [])) in
  let '(r, w') := prepare_controller 10 "ns" "app" "60s" (JStr "op1") empty_deployment (JStr "") w in
  r = Returned (JStr "r7") ∧
  ∃ e record expected v,
    accepted "ns" "app" (JStr "op1") (JStr "") record e ∧ e ∈ trace w' ∧ request_identity record = Ok expected ∧
    (GetObject DEPLOYMENT_RESOURCE "app" "ns" true, Output (Some v)) ∈ trace w' ∧
    ready_for expected v (JStr "r7").
Proof.
  cbv zeta. destruct (prepare_controller _ _ _ _ _ _ _ _) as [r w'] eqn:E.
  assert (r = Returned (JStr "r7")) as -> by (vm_compute in E; by injection E).
  split; [reflexivity|]. exact (controller_revision_current 10 "ns" "app" "60s" (JStr "op1") empty_deployment (JStr "") _ _ _ E).
Defined.


(** A temporary deployment that created one ConfigMap: it is deleted under the lock, and the request is made without it. *)
Definition a_map : json :=
  JObj [("apiVersion", JStr "v1"); ("kind", JStr "ConfigMap");
        ("metadata", JObj [("name", JStr "cfg"); ("namespace", JStr "ns"); ("uid", JStr "c1"); ("resourceVersion", JStr "3");
                           ("labels", JObj [(DEPLOYMENT_UID_LABEL, JStr "u1")]);
                           ("annotations", JObj [(SERVICE_OPERATION, JStr "op1")])])].
Definition map_resources : json :=
  JObj [("resources", JArr [JObj [("name", JStr "configmaps"); ("kind", JStr "ConfigMap"); ("namespaced", JBool true)]])].
Definition cleanup_script : list reply :=
  let own := answer (record_of "6" "op1" []) in
  [own; done_; own; answer a_map; answer map_resources; done_; done_; done_; done_; own; own; own; own; done_].
Definition temporary_world : world (list reply) (operation lifecycle) :=
  World cleanup_script 0 [] (Operation (fresh_instance "u1")
    (Lifecycle (Submission empty_deployment [] [] [(Ref "ConfigMap" "cfg" "ns", a_map)] (Some (record_of "6" "op1" []))) false)).
Definition is_deletion (e : call * reply) : bool := match e.1 with DeleteRaw _ _ => true | _ => false end.
Lemma retirement_deletes_own_witness :
  let w' := (cleanup_temporary 10 "ns" "app" "60s" (JStr "op1") false temporary_world).2 in
  (cleanup_temporary 10 "ns" "app" "60s" (JStr "op1") false temporary_world).1 = Returned tt ∧
  length (keep is_deletion (trace w')) = 1%nat ∧
  extends (retires "ns" "app" (JStr "op1") (the temporary_world) "u1" (removable false (the temporary_world))) [] (trace w').
Proof.
  cbv zeta. split; [vm_compute; reflexivity|]. split; [vm_compute; reflexivity|].
  exact (retirement_deletes_own 10 "ns" "app" "60s" (JStr "op1") false "u1" temporary_world eq_refl ltac:(discriminate)).
Defined.

(** A service that is written twice: its new spec, then its resumption.  The second
    listing shows the intent that the first write was answered with. *)
Definition a_service (g : Z) (v o : string) (suspend : list (string * json)) : json :=
  JObj [("apiVersion", JStr "v1"); ("kind", JStr "Backend");
        ("metadata", JObj [("name", JStr "s"); ("namespace", JStr "ns"); ("uid", JStr "s1"); ("resourceVersion", JStr v);
                           ("generation", JInt g); ("labels", JObj [(DEPLOYMENT_UID_LABEL, JStr "u1")]);
                           ("annotations", JObj [(SERVICE_OPERATION, JStr o)])]);
        ("spec", JObj suspend)].
Definition listing (services : list json) : reply :=
  answer (JObj [("items", JArr (record_of "6" "op1" [] :: services))]).
Definition service_script : list reply :=
  [listing [a_service 1 "3" "op0" []]; answer (a_service 2 "4" "op1" []);
   listing [a_service 2 "4" "op1" []]; answer (a_service 2 "5" "op1" [("suspend", JBool false)])].
Definition service_world : world (list reply) (operation lifecycle) :=
  World service_script 0 [] (Operation (fresh_instance "u1")
    (Lifecycle (Submission empty_deployment [(Ref "Backend" "s" "ns", Some (JStr "s1", JInt 1, JStr "", JStr "op0"))] [] []
       (Some (record_of "6" "op1" []))) false)).
Definition is_write (e : call * reply) : bool := negb (harmless e.1).
Lemma service_writes_checked_witness :
  let m := submit_service 10 "ns" "app" 60 (JStr "op1") false (Ref "Backend" "s" "ns") (a_service 1 "3" "op0" []) in
  (m service_world).1 = Returned tt ∧ length (keep is_write (trace (m service_world).2)) = 2%nat ∧
  extends (checked "ns" "app" (JStr "op1") (the service_world) (JStr "u1") [] (Ref "Backend" "s" "ns")) []
    (trace (m service_world).2).
Proof.
  cbv zeta. split; [vm_compute; reflexivity|]. split; [vm_compute; reflexivity|].
  exact (service_writes_checked 10 "ns" "app" 60 (JStr "op1") (Ref "Backend" "s" "ns") (a_service 1 "3" "op0" []) false
    service_world).
Defined.
