(* ===== verification/Prometheus.v ===== *)
(** * Prometheus discovery ([platform/prometheus.py])

    Installation reuses a Prometheus of the cluster when one can collect the
    resources of the platform: it must select their labels and their namespace,
    be available, and stand in a namespace that is trusted to scrape.  The file
    has label selectors, the choice of an instance, the labels the platform has to
    add to its own resources, and queries through the API server. *)

From Stdlib Require Import Ascii.
From S2P Require Import Prelude Text Kube Effects Client.

Definition PROMETHEUS_API_GROUP : string := "monitoring.coreos.com".
Definition PROMETHEUSES : string := "prometheuses.monitoring.coreos.com".
Definition SERVICE_MONITORS : string := "servicemonitors.monitoring.coreos.com".
Definition REQUIRED_PROMETHEUS_RESOURCES : list string :=
  [PROMETHEUSES; SERVICE_MONITORS; "prometheusrules.monitoring.coreos.com"].
Definition METRICS_SCRAPER_LABEL : string := "inference.foretoken.io/metrics-scraper".
Definition FORETOKEN_LABELS : list (string * string) :=
  [("app.kubernetes.io/name", "foretoken-control-plane");
   ("app.kubernetes.io/instance", "foretoken");
   ("app.kubernetes.io/managed-by", "Helm")].

(** A ready Prometheus and the labels the platform adds to its resources. *)
Record PrometheusRef := Prometheus {
  p_name : string;
  p_namespace : string;
  additional_labels : list (string * string);
}.
Definition display_prometheus (p : PrometheusRef) : string := p_namespace p +:+ "/" +:+ p_name p.

(** Labels as they are read; the dictionaries the code builds hold strings. *)
Abbreviation labels := (list (string * json)).
Definition of_strings (l : list (string * string)) : labels := (λ e, (e.1, JStr e.2)) <$> l.

(** [d.update(items)] *)
Definition update {V} (d items : list (string * V)) : list (string * V) :=
  foldl (λ d e, dset e.1 e.2 d) d items.

(** ** Label selectors *)

(** [labels.get(key) == value] *)
Definition label_is (ls : labels) (key value : string) : bool :=
  match dget key ls with Some j => is_str value j | None => false end.

(** [_expression_matches] *)
Definition expression_matches (ls : labels) (expression : json) : bool :=
  match expression with
  | JObj e =>
      match dget "key" e, dget "operator" e with
      | Some (JStr key), Some (JStr operator) =>
          if eqb operator "Exists" then dmem key ls
          else if eqb operator "DoesNotExist" then negb (dmem key ls)
          else match dget "values" e with
               | Some (JArr values) =>
                   if negb (forallb (λ v, match v with JStr _ => true | _ => false end) values) then false else
                   let found := existsb (λ v, match v with JStr s => label_is ls key s | _ => false end) values in
                   if eqb operator "In" then found
                   else if eqb operator "NotIn" then negb found
                   else false
               | _ => false
               end
      | _, _ => false
      end
  | _ => false
  end.

(** [matches_label_selector] *)
Definition matches_label_selector (selector : json) (ls : labels) : bool :=
  match selector with
  | JObj s =>
      match default (JObj []) (dget "matchLabels" s), default (JArr []) (dget "matchExpressions" s) with
      | JObj match_labels, JArr expressions =>
          forallb (λ e, match e.2 with JStr value => label_is ls e.1 value | _ => false end) match_labels
          && forallb (expression_matches ls) expressions
      | _, _ => false
      end
  | _ => false
  end.

(** [_namespacematches_label_selector]: without a selector only the own namespace *)
Definition namespace_matches (spec : list (string * json)) (selector_name prometheus_namespace platform_namespace : string)
    (platform_labels : labels) : bool :=
  match dget selector_name spec with
  | None | Some JNull => eqb prometheus_namespace platform_namespace
  | Some selector => matches_label_selector selector platform_labels
  end.

(** ** Instances *)

(** [_requested_identity] *)
Definition parse_requested (requested : option string) : outcome (option (string * string)) :=
  match requested with
  | None => Ok None
  | Some text =>
      match partition "/" text with
      | Some (ns, n) =>
          if negb (nonempty ns) || negb (nonempty n) || has_char "/" n
          then Raise (DeploymentError "--prometheus must use NAMESPACE/NAME, such as monitoring/prometheus")
          else Ok (Some (ns, n))
      | None => Raise (DeploymentError "--prometheus must use NAMESPACE/NAME, such as monitoring/prometheus")
      end
  end.

(** [_identity]: namespace and name, when both are present *)
Definition identity (value : json) : outcome (option (string * string)) :=
  metadata ← get "metadata" value;
  if negb (is_dict metadata) then Ok None else
  ns ← get "namespace" metadata;
  n ← get "name" metadata;
  match ns, n with
  | JStr ns, JStr n => Ok (if nonempty ns && nonempty n then Some (ns, n) else None)
  | _, _ => Ok None
  end.

(** [_available_identities] *)
Definition available_identities (values : list json) : outcome string :=
  identities ← outcome_map identity values;
  Ok (join ", " ((λ i, i.1 +:+ "/" +:+ i.2) <$> sort_by id (omap id identities))).

(** [_namespace_labels] *)
Definition namespace_labels (value : json) (ns : string) : outcome labels :=
  let fixed := [("kubernetes.io/metadata.name", JStr ns)] in
  metadata ← get "metadata" value;
  if negb (is_dict metadata) then Ok fixed else
  source ← get "labels" metadata;
  match source with
  | JObj m => Ok (update fixed (keep (λ e, match e.2 with JStr _ => true | _ => false end) m))
  | _ => Ok fixed
  end.

(** [_additional_labels]: the labels of both selectors beside the fixed ones *)
Definition merge_label (acc : list (string * string)) (e : string * json) : option (list (string * string)) :=
  match e.2 with
  | JStr value =>
      match dget e.1 FORETOKEN_LABELS with
      | Some fixed => if eqb fixed value then Some acc else None
      | None =>
          match dget e.1 acc with
          | Some existing => if eqb existing value then Some (dset e.1 value acc) else None
          | None => Some (dset e.1 value acc)
          end
      end
  | _ => None
  end.
Definition merge_labels (acc : list (string * string)) (match_labels : labels) : option (list (string * string)) :=
  foldl (λ acc e, acc ≫= λ acc, merge_label acc e) (Some acc) match_labels.
Definition merge_selector (acc : list (string * string)) (selector : json) : option (list (string * string)) :=
  match selector with
  | JObj s =>
      match default (JObj []) (dget "matchLabels" s), default (JArr []) (dget "matchExpressions" s) with
      | JObj match_labels, JArr _ => merge_labels acc match_labels
      | _, _ => None
      end
  | _ => None
  end.
Definition required_labels (service_selector rule_selector : json) : option (list (string * string)) :=
  acc ← merge_selector [] service_selector;
  acc ← merge_selector acc rule_selector;
  Some (sort_by id acc).

(** [status.get("availableReplicas")] is an integer above zero. *)
Definition replicas_available (status : list (string * json)) : bool :=
  match dget "availableReplicas" status with
  | Some (JInt z) => 0 <? z
  | Some (JBool b) => b
  | _ => false
  end.
Definition flag_set (k : string) (spec : list (string * json)) : bool :=
  match dget k spec with Some (JBool b) => b | _ => false end.
Definition field (k : string) (spec : list (string * json)) : json := default JNull (dget k spec).

(** [resource_labels] of the platform's ServiceMonitors and PrometheusRules *)
Definition resource_labels (additional : list (string * string)) : labels :=
  of_strings (update FORETOKEN_LABELS additional).

(** [_compatible_prometheus] *)
Definition compatible_prometheus (platform_namespace : string) (platform_labels : labels) (value : json)
    : outcome (option PrometheusRef) :=
  i ← identity value;
  spec ← get "spec" value;
  status ← get "status" value;
  match i, spec, status with
  | Some (ns, n), JObj spec, JObj status =>
      if flag_set "paused" spec || flag_set "ignoreNamespaceSelectors" spec then Ok None else
      if negb (replicas_available status) then Ok None else
      let service_selector := field "serviceMonitorSelector" spec in
      let rule_selector := field "ruleSelector" spec in
      match required_labels service_selector rule_selector with
      | None => Ok None
      | Some additional =>
          if negb (matches_label_selector service_selector (resource_labels additional)) then Ok None else
          if negb (matches_label_selector rule_selector (resource_labels additional)) then Ok None else
          if negb (namespace_matches spec "serviceMonitorNamespaceSelector" ns platform_namespace platform_labels)
          then Ok None else
          if negb (namespace_matches spec "ruleNamespaceSelector" ns platform_namespace platform_labels)
          then Ok None else
          Ok (Some (Prometheus n ns additional))
      end
  | _, _, _ => Ok None
  end.

(** ** URLs *)

(** [quote(text, safe='')] *)
Definition quote : string → string := quote_with [].

(** [isinstance(port, (str, int))] with [str(port)] *)
Definition port_text (port : json) : option string :=
  match port with
  | JStr s => Some s
  | JInt z => Some (str_Z z)
  | JBool b => Some (if b then "True" else "False")
  | _ => None
  end.

(** The port of a Service that serves the web interface *)
Fixpoint web_port (ports : list json) : json :=
  match ports with
  | [] => JNull
  | JObj item :: ports =>
      if is_str "http-web" (field "name" item) || is_int 9090 (field "port" item)
      then or_ (field "name" item) (field "port" item)
      else web_port ports
  | _ :: ports => web_port ports
  end.

(** The body of the loop of [prometheus_api_path] *)
Definition api_candidate (p : PrometheusRef) (service : json) : outcome (option (string * string)) :=
  metadata ← child "metadata" service;
  spec ← child "spec" service;
  selector ← child "selector" spec;
  match selector with
  | JObj s =>
      if negb (is_str (p_name p) (field "operator.prometheus.io/name" s) || is_str (p_name p) (field "prometheus" s))
      then Ok None else
      ports ← children_at "ports" spec;
      n ← get "name" metadata;
      match n, port_text (web_port ports) with
      | JStr n, Some port => Ok (if nonempty n then Some (n, port) else None)
      | _, _ => Ok None
      end
  | _ => Ok None
  end.

Section Calls.
Context {C S : Type} `{Kubectl C} `{PythonRepr} `{Printer}.
Abbreviation IO := (IO (world C S)).

(** [kubectl.get_if_exists("namespace", name) or {}] *)
Definition namespace_object (n : string) : IO json :=
  v ← get_if_exists "namespace" n ""; mret (default (JObj []) v).

(** [_prometheus_namespace_is_trusted] *)
Definition namespace_is_trusted (value : json) : IO bool :=
  i ← pure (identity value);
  match i with
  | None => mret false
  | Some (ns, _) =>
      namespace ← namespace_object ns;
      metadata ← pure (child "metadata" namespace);
      ls ← pure (child "labels" metadata);
      mret (match ls with JObj ls => label_is ls METRICS_SCRAPER_LABEL "true" | _ => false end)
  end.

(** One element of [compatible] *)
Definition judge_prometheus (platform_namespace : string) (platform_labels : labels) (value : json)
    : IO (option PrometheusRef) :=
  trusted ← namespace_is_trusted value;
  if (trusted : bool) then pure (compatible_prometheus platform_namespace platform_labels value) else mret None.

Definition is_requested (requested : string * string) (value : json) : outcome bool :=
  i ← identity value; Ok (eqb i (Some requested)).
Fixpoint filter_outcome (f : json → outcome bool) (l : list json) : outcome (list json) :=
  match l with
  | [] => Ok []
  | x :: l => b ← f x; k ← filter_outcome f l; Ok (if (b : bool) then x :: k else k)
  end.

(** The instances that are considered *)
Definition considered (requested : option string) (wanted : option (string * string)) (prometheuses : list json)
    : outcome (list json) :=
  match wanted with
  | None => Ok prometheuses
  | Some i =>
      selected ← filter_outcome (is_requested i) prometheuses;
      match selected with
      | [] =>
          available ← available_identities prometheuses;
          Raise (DeploymentError ("requested Prometheus " +:+ default "" requested
            +:+ " does not exist; available instances: " +:+ (if nonempty available then available else "none")))
      | _ => Ok selected
      end
  end.

(** [select_prometheus] *)
Definition select_prometheus (platform_namespace : string) (requested : option string) : IO (option PrometheusRef) :=
  wanted ← pure (parse_requested requested);
  resources ← api_resource_names (Some PROMETHEUS_API_GROUP);
  if negb (forallb (λ r, mem r resources) REQUIRED_PROMETHEUS_RESOURCES) then
    match wanted with
    | Some _ => throw (DeploymentError "--prometheus requires Prometheus Operator APIs in the cluster")
    | None => mret None
    end
  else
  prometheuses ← list_all_resources [PROMETHEUSES];
  match prometheuses, wanted with
  | [], Some _ => throw (DeploymentError ("requested Prometheus " +:+ default "" requested
                    +:+ " does not exist; available instances: none"))
  | [], None => mret None
  | _ :: _, _ =>
      selected ← pure (considered requested wanted prometheuses);
      namespace ← namespace_object platform_namespace;
      platform_labels ← pure (namespace_labels namespace platform_namespace);
      verdicts ← Effects.collect (judge_prometheus platform_namespace platform_labels) selected;
      match omap id verdicts with
      | [] => throw (DeploymentError (match wanted with
                | Some _ => "requested Prometheus " +:+ default "" requested
                    +:+ " is unavailable or cannot select Foretoken ServiceMonitors and PrometheusRules in namespace "
                    +:+ platform_namespace +:+ "; verify its selectors and label its namespace with "
                    +:+ METRICS_SCRAPER_LABEL +:+ "=true"
                | None => "Prometheus instances exist, but none is available and can select Foretoken ServiceMonitors and PrometheusRules in namespace "
                    +:+ platform_namespace +:+ "; verify its selectors and namespace label " +:+ METRICS_SCRAPER_LABEL
                    +:+ "=true, or specify a compatible instance with --prometheus NAMESPACE/NAME"
                end))
      | [ref] => mret (Some ref)
      | refs => throw (DeploymentError ("multiple compatible Prometheus instances found: "
                  +:+ join ", " (display_prometheus <$> refs) +:+ "; select one with --prometheus NAMESPACE/NAME"))
      end
  end.

(** [prometheus_api_path] *)
Definition prometheus_api_path (p : PrometheusRef) : IO string :=
  services ← list_resources ["service"] (p_namespace p);
  found ← pure (outcome_map (api_candidate p) services);
  let candidates := omap id found in
  let preferred := keep (λ c, eqb c.1 (p_name p)) candidates in
  match (match preferred with [] => candidates | _ => preferred end) with
  | [(service, port)] =>
      mret ("/api/v1/namespaces/" +:+ p_namespace p +:+ "/services/http:" +:+ service +:+ ":" +:+ port
            +:+ "/proxy/api/v1/query")
  | _ => throw (DeploymentError ("Prometheus " +:+ display_prometheus p
                  +:+ " needs exactly one HTTP Service for Kubernetes API proxy access"))
  end.

(** The items of a successful answer *)
Definition query_result (p : PrometheusRef) (payload : json) : outcome (list json) :=
  let failed error := Raise (DeploymentError ("Prometheus " +:+ display_prometheus p +:+ " query failed: " +:+ error)) in
  match payload with
  | JObj m =>
      let result := match field "data" m with JObj d => field "result" d | _ => JNull end in
      match result with
      | JArr items =>
          if negb (is_str "success" (field "status" m))
          then failed (str_of (or_ (field "error" m) (JStr "query failed"))) else
          if negb (forallb is_dict items)
          then Raise (DeploymentError ("Prometheus " +:+ display_prometheus p +:+ " returned invalid query data"))
          else Ok items
      | _ => failed (str_of (or_ (field "error" m) (JStr "query failed")))
      end
  | _ => failed "query failed"
  end.

(** [prometheus_query] *)
Definition prometheus_query (p : PrometheusRef) (expression request_timeout : string) (api_path : option string)
    : IO (list json) :=
  endpoint ← match api_path with Some path => mret path | None => prometheus_api_path p end;
  payload ← get_raw_json (endpoint +:+ "?query=" +:+ quote expression) request_timeout;
  match payload with
  | Some (Some payload) => pure (query_result p payload)
  | _ => throw (DeploymentError ("Prometheus " +:+ display_prometheus p +:+ " returned invalid JSON"))
  end.

(** [prometheus_selects_service_monitor] *)
Definition prometheus_selects_service_monitor (p : PrometheusRef) (monitor_namespace : string)
    (monitor_labels : list (string * string)) : IO bool :=
  value ← get_object PROMETHEUSES (p_name p) (p_namespace p);
  spec ← pure (child "spec" value);
  match spec with
  | JObj spec =>
      namespace ← namespace_object monitor_namespace;
      ls ← pure (namespace_labels namespace monitor_namespace);
      mret (matches_label_selector (field "serviceMonitorSelector" spec) (of_strings (update [] monitor_labels))
            && namespace_matches spec "serviceMonitorNamespaceSelector" (p_namespace p) monitor_namespace ls)
  | _ => mret false
  end.
End Calls.
