(* ===== verification/PrometheusProofs.v ===== *)
(** * What Prometheus discovery guarantees

    Label selectors are evaluated as Kubernetes documents them; the labels the
    platform adds to its resources are the least that both selectors of a
    Prometheus require; a selected Prometheus is the only candidate that is
    trusted, available and selects the platform's resources. *)

From Stdlib Require Import Ascii.
From S2P Require Import Prelude Text Kube Effects Client Prometheus Emits.

(** ** The documented meaning of a LabelSelector *)

(** The requirements of a selector; all of them have to hold. *)
Inductive requirement :=
  | Equals (key value : string)
  | OneOf (key : string) (values : list string)
  | NoneOf (key : string) (values : list string)
  | Present (key : string)
  | Absent (key : string).

Definition meets (ls : labels) (r : requirement) : Prop :=
  match r with
  | Equals k v => dget k ls = Some (JStr v)
  | OneOf k vs => ∃ v, v ∈ vs ∧ dget k ls = Some (JStr v)
  | NoneOf k vs => ∀ v, v ∈ vs → dget k ls ≠ Some (JStr v)
  | Present k => k ∈ ls.*1
  | Absent k => k ∉ ls.*1
  end.

Definition read_string (j : json) : option string := match j with JStr s => Some s | _ => None end.
Definition read_label (e : string * json) : option requirement := v ← read_string e.2; Some (Equals e.1 v).
Definition read_expression (j : json) : option requirement :=
  e ← dict_of j;
  key ← dget "key" e ≫= read_string;
  operator ← dget "operator" e ≫= read_string;
  if eqb operator "Exists" then Some (Present key)
  else if eqb operator "DoesNotExist" then Some (Absent key)
  else match dget "values" e with
       | Some (JArr values) =>
           vs ← mapM read_string values;
           if eqb operator "In" then Some (OneOf key vs)
           else if eqb operator "NotIn" then Some (NoneOf key vs)
           else None
       | _ => None
       end.
(** [None] for a value that is no selector *)
Definition read_selector (j : json) : option (list requirement) :=
  s ← dict_of j;
  match default (JObj []) (dget "matchLabels" s), default (JArr []) (dget "matchExpressions" s) with
  | JObj ml, JArr es => a ← mapM read_label ml; b ← mapM read_expression es; Some (a ++ b)
  | _, _ => None
  end.

Lemma label_is_true ls k v : label_is ls k v = true ↔ dget k ls = Some (JStr v).
Proof.
  unfold label_is. destruct (dget k ls) as [j|]; [|done].
  destruct j; simpl; try (split; [done|congruence]). rewrite eqb_true. naive_solver.
Qed.
Lemma dmem_true {V} k (ls : list (string * V)) : dmem k ls = true ↔ k ∈ ls.*1.
Proof.
  unfold dmem. rewrite bool_decide_eq_true, <-not_eq_None_Some, dget_None.
  destruct (decide (k ∈ ls.*1)); naive_solver.
Qed.

Lemma read_string_Some j s : read_string j = Some s ↔ j = JStr s.
Proof. destruct j; simpl; split; congruence. Qed.
Lemma mapM_strings values vs : mapM read_string values = Some vs ↔ values = JStr <$> vs.
Proof.
  rewrite mapM_Some. revert vs. induction values as [|v values IH]; intros [|s vs]; simpl.
  - split; [done|constructor].
  - split; [by inversion 1|done].
  - split; [by inversion 1|done].
  - rewrite Forall2_cons, read_string_Some, IH. naive_solver.
Qed.

Lemma found_one_of ls k vs :
  existsb (λ v, match v with JStr s => label_is ls k s | _ => false end) (JStr <$> vs) = true ↔ meets ls (OneOf k vs).
Proof.
  rewrite existsb_elem. simpl. split.
  - intros (j & (v & -> & Hv)%list_elem_of_fmap & Hl). exists v. by rewrite <-label_is_true.
  - intros (v & Hv & Hl). exists (JStr v). split; [by apply list_elem_of_fmap_2|]. by apply label_is_true.
Qed.

Lemma none_of_not_one ls k vs : meets ls (NoneOf k vs) ↔ ¬ meets ls (OneOf k vs).
Proof. simpl. naive_solver. Qed.

Lemma expression_exact ls j :
  expression_matches ls j = true ↔ ∃ r, read_expression j = Some r ∧ meets ls r.
Proof.
  unfold expression_matches, read_expression. destruct j; simpl; try naive_solver.
  destruct (dget "key" m) as [[]|]; simpl; try naive_solver.
  destruct (dget "operator" m) as [[]|]; simpl; try naive_solver.
  destruct (eqb _ "Exists"). { rewrite dmem_true. naive_solver. }
  destruct (eqb _ "DoesNotExist"). { rewrite negb_true_iff, <-not_true_iff_false, dmem_true. naive_solver. }
  destruct (dget "values" m) as [[]|]; simpl; try naive_solver.
  destruct (mapM read_string l) as [vs|] eqn:Evs; simpl.
  - apply mapM_strings in Evs as ->.
    rewrite (proj2 (forallb_elem _ _)) by (by intros j (? & -> & _)%list_elem_of_fmap). cbn [negb].
    destruct (eqb _ "In"). { rewrite found_one_of. naive_solver. }
    destruct (eqb _ "NotIn"); [|naive_solver].
    rewrite negb_true_iff, <-not_true_iff_false, found_one_of, <-none_of_not_one. naive_solver.
  - destruct (forallb _ l) eqn:Eall; simpl; [|naive_solver]. exfalso.
    assert (∃ vs, l = JStr <$> vs) as [vs ->].
    { clear Evs. induction l as [|j l IH]; [by exists []|]. simpl in Eall. apply andb_true_iff in Eall as [Hj Hl].
      destruct (IH Hl) as [vs ->]. destruct j; try done. by exists (s1 :: vs). }
    by rewrite (proj2 (mapM_strings _ vs)) in Evs.
Qed.

Lemma all_met {A} (read : A → option requirement) (p : A → bool) ls l :
  (∀ x, p x = true ↔ ∃ r, read x = Some r ∧ meets ls r) →
  forallb p l = true ↔ ∃ rs, mapM read l = Some rs ∧ Forall (meets ls) rs.
Proof.
  intros Hp. induction l as [|x l IH]; simpl; [split; [by exists []|done]|].
  rewrite andb_true_iff, Hp, IH. split.
  - intros [(r & -> & Hr) (rs & -> & Hrs)]. exists (r :: rs). split; [done|by constructor].
  - intros (rs & (r & Hr & (rs' & Hrs & [= <-])%bind_Some)%bind_Some & [? ?]%Forall_cons). split; eauto.
Qed.

(** All requirements of a well-formed selector are met. *)
Definition selects (selector : json) (ls : labels) : Prop :=
  ∃ rs, read_selector selector = Some rs ∧ Forall (meets ls) rs.

Lemma matches_selects selector ls : matches_label_selector selector ls = true ↔ selects selector ls.
Proof.
  unfold matches_label_selector, selects, read_selector. destruct selector as [| | | | | |s]; simpl; try naive_solver.
  destruct (default _ (dget "matchLabels" s)) as [| | | | | |ml]; try naive_solver.
  destruct (default _ (dget "matchExpressions" s)) as [| | | | |es|]; try naive_solver.
  rewrite andb_true_iff, (all_met read_label _ ls), (all_met read_expression _ ls (es)).
  - split.
    + intros [(a & -> & Ha) (b & -> & Hb)]. exists (a ++ b). split; [done|by apply Forall_app].
    + intros (rs & (a & Ha & (b & Hb & [= <-])%bind_Some)%bind_Some & [? ?]%Forall_app). split; eauto.
  - apply expression_exact.
  - intros [k v]. unfold read_label. destruct v; simpl; try naive_solver. rewrite label_is_true. naive_solver.
Qed.

(** Evaluating a label selector is exact: it succeeds on exactly the labels
    that meet every requirement of the selector as Kubernetes documents them (an
    absent label satisfies NotIn and DoesNotExist, In needs a present one), and a
    value that is no selector, with an unknown operator or with non-string values,
    matches nothing. *)
Theorem label_selector_exact (selector : json) (ls : labels) :
  matches_label_selector selector ls = true ↔
  ∃ rs, read_selector selector = Some rs ∧ Forall (meets ls) rs.
Proof. apply matches_selects. Qed.

(** ** Labels the platform adds *)

Lemma dget_update {V} k (items d : list (string * V)) :
  NoDup items.*1 → dget k (update d items) = match dget k items with Some v => Some v | None => dget k d end.
Proof.
  revert d. induction items as [|[k1 v1] items IH]; intros d; simpl; [done|].
  rewrite NoDup_cons. intros [Hk Hnd]. unfold update in *. simpl. rewrite IH by done. rewrite dget_dset.
  destruct (eqb k1 k) eqn:E; reflect_in E; [subst|done]. by rewrite (proj2 (dget_None k items)).
Qed.
Lemma dget_of_strings k l : dget k (of_strings l) = JStr <$> dget k l.
Proof. induction l as [|[k1 v1] l IH]; simpl; [done|]. by destruct (eqb k1 k). Qed.

(** Labels that contain the fixed ones *)
Definition extends_fixed (ls : labels) : Prop :=
  ∀ k v, dget k FORETOKEN_LABELS = Some v → dget k ls = Some (JStr v).
Definition agrees (ls : labels) (acc : list (string * string)) : Prop :=
  ∀ k v, dget k acc = Some v → dget k ls = Some (JStr v).
(** The entries of [matchLabels] of a selector *)
Definition match_entries (selector : json) : labels :=
  match selector with
  | JObj s => match default (JObj []) (dget "matchLabels" s) with JObj ml => ml | _ => [] end
  | _ => []
  end.
(** What was collected has distinct keys that are not fixed. *)
Definition collected (acc : list (string * string)) : Prop :=
  NoDup acc.*1 ∧ ∀ k, k ∈ acc.*1 → k ∉ FORETOKEN_LABELS.*1.

(** An entry is met by the fixed and the collected labels. *)
Definition covered (acc : list (string * string)) (e : string * json) : Prop :=
  ∃ v, e.2 = JStr v ∧ (dget e.1 FORETOKEN_LABELS = Some v ∨ dget e.1 acc = Some v).
Definition below (acc acc' : list (string * string)) : Prop := ∀ k v, dget k acc = Some v → dget k acc' = Some v.

Lemma merge_label_sound acc e acc' :
  merge_label acc e = Some acc' → collected acc → collected acc' ∧ below acc acc' ∧ covered acc' e.
Proof.
  unfold merge_label, covered, below. destruct e as [k j]. destruct j as [| | | |v| |]; cbn [fst snd]; try done.
  destruct (dget k FORETOKEN_LABELS) as [fixed|] eqn:Ef.
  { destruct (eqb fixed v) eqn:E; reflect_in E; [|done]. intros [= <-] Hc. subst. eauto 6. }
  assert (collected acc → collected (dset k v acc)) as Hset.
  { intros [Hnd Hk]. split; [by apply NoDup_dset|]. intros k'.
    rewrite elem_of_dset_keys. intros [->|]; [by apply dget_None|auto]. }
  assert (dget k (dset k v acc) = Some v) as Hv by (rewrite dget_dset; by rewrite eqb_refl).
  destruct (dget k acc) as [existing|] eqn:Ea.
  - destruct (eqb existing v) eqn:E; reflect_in E; [|done]. subst. intros [= <-] Hc.
    split_and!; [auto| |exists v; auto]. intros k' v'. rewrite dget_dset.
    destruct (eqb k k') eqn:E; reflect_in E; [subst; congruence|done].
  - intros [= <-] Hc. split_and!; [auto| |exists v; auto]. intros k' v'. rewrite dget_dset.
    destruct (eqb k k') eqn:E; reflect_in E; [subst; congruence|done].
Qed.

Lemma covered_below acc acc' e : below acc acc' → covered acc e → covered acc' e.
Proof. intros Hb (v & Hv & [H|H]); exists v; auto. Qed.

Lemma merge_labels_cons acc e ml : merge_labels acc (e :: ml) = merge_label acc e ≫= λ acc, merge_labels acc ml.
Proof.
  unfold merge_labels. simpl. destruct (merge_label acc e); [done|]. simpl.
  induction ml; simpl; auto.
Qed.

Lemma merge_labels_sound ml acc acc' :
  merge_labels acc ml = Some acc' → collected acc →
  collected acc' ∧ below acc acc' ∧ ∀ e, e ∈ ml → covered acc' e.
Proof.
  revert acc. induction ml as [|e ml IH]; intros acc.
  { intros [= <-] Hc. split_and!; [done|by intros ??|set_solver]. }
  rewrite merge_labels_cons. intros (acc1 & He & Hml)%bind_Some Hc.
  destruct (merge_label_sound _ _ _ He Hc) as (Hc1 & Hb1 & He1).
  destruct (IH _ Hml Hc1) as (Hc' & Hb' & Hall). split_and!; [done|by intros ???; apply Hb', Hb1|].
  intros e' [->|]%elem_of_cons; [by eapply covered_below|auto].
Qed.

Lemma merge_selector_sound selector acc acc' :
  merge_selector acc selector = Some acc' → collected acc →
  collected acc' ∧ below acc acc' ∧ ∀ e, e ∈ match_entries selector → covered acc' e.
Proof.
  unfold merge_selector, match_entries. destruct selector as [| | | | | |s]; try done.
  destruct (default _ (dget "matchLabels" s)); try done. destruct (default _ (dget "matchExpressions" s)); try done.
  apply merge_labels_sound.
Qed.

Lemma sort_collected acc :
  collected acc → collected (sort_by id acc) ∧ ∀ k, dget k (sort_by id acc) = dget k acc.
Proof.
  intros [Hnd Hk]. assert ((sort_by id acc).*1 ≡ₚ acc.*1) as Hp by (by rewrite sort_by_perm).
  assert (NoDup (sort_by id acc).*1) as Hnd' by (by rewrite Hp).
  split; [split; [done|]; intros k; rewrite Hp; apply Hk|]. intros k.
  destruct (dget k acc) as [v|] eqn:E.
  - apply dget_elem in E. apply elem_dget; [done|]. by rewrite sort_by_perm.
  - apply dget_None in E. apply dget_None. by rewrite Hp.
Qed.

Lemma covered_resource add e : collected add → covered add e →
  match e.2 with JStr v => label_is (resource_labels add) e.1 v | _ => false end = true.
Proof.
  intros [Hnd Hk] (v & -> & Hv). apply label_is_true. unfold resource_labels.
  rewrite dget_of_strings, dget_update by done. destruct Hv as [Hv|Hv]; [|by rewrite Hv].
  rewrite (proj2 (dget_None e.1 add)); [by rewrite Hv|]. intros Hin. apply (Hk _ Hin).
  apply dget_elem in Hv. apply list_elem_of_fmap. by exists (e.1, v).
Qed.

(** Completeness against labels that are selected *)
Section Least.
Variable ls : labels.
Hypothesis fixed : extends_fixed ls.

Lemma merge_label_least acc k v :
  agrees ls acc → dget k ls = Some (JStr v) → ∃ acc', merge_label acc (k, JStr v) = Some acc' ∧ agrees ls acc'.
Proof using fixed.
  intros Ha Hv. unfold merge_label. cbn [fst snd].
  assert (agrees ls (dset k v acc)) as Hset.
  { intros k' v'. rewrite dget_dset. destruct (eqb k k') eqn:E; reflect_in E; [subst; by intros [= <-]|apply Ha]. }
  destruct (dget k FORETOKEN_LABELS) as [f|] eqn:Ef.
  - apply fixed in Ef. replace f with v by congruence. rewrite eqb_refl. eauto.
  - destruct (dget k acc) as [x|] eqn:Ex; [|eauto].
    apply Ha in Ex. replace x with v by congruence. rewrite eqb_refl. eauto.
Qed.

Lemma merge_selector_least selector acc :
  agrees ls acc → matches_label_selector selector ls = true →
  ∃ acc', merge_selector acc selector = Some acc' ∧ agrees ls acc'.
Proof using fixed.
  unfold matches_label_selector, merge_selector. destruct selector as [| | | | | |s]; try done.
  destruct (default _ (dget "matchLabels" s)) as [| | | | | |ml]; try done.
  destruct (default _ (dget "matchExpressions" s)); try done.
  intros Ha [Hml _]%andb_true_iff. revert acc Ha. induction ml as [|[k j] ml IH]; intros acc Ha; [by eauto|].
  simpl in Hml. apply andb_true_iff in Hml as [Hj Hml]. destruct j as [| | | |v| |]; try done.
  apply label_is_true in Hj. destruct (merge_label_least acc k v Ha Hj) as (acc1 & E & Ha1).
  rewrite merge_labels_cons, E. simpl. by apply IH.
Qed.
End Least.

Lemma required_labels_sound service_selector rule_selector add :
  required_labels service_selector rule_selector = Some add →
  extends_fixed (resource_labels add) ∧
  ∀ e, e ∈ match_entries service_selector ++ match_entries rule_selector →
       match e.2 with JStr v => label_is (resource_labels add) e.1 v | _ => false end = true.
Proof.
  intros (a1 & H1 & (a2 & H2 & [= <-])%bind_Some)%bind_Some.
  destruct (merge_selector_sound _ _ _ H1) as (Hc1 & _ & Hs); [by split; [constructor|set_solver]|].
  destruct (merge_selector_sound _ _ _ H2 Hc1) as (Hc2 & Hb & Hr).
  destruct (sort_collected a2 Hc2) as [Hc Hg].
  assert (∀ e, covered a2 e → covered (sort_by id a2) e) as Hsort.
  { intros e (v & ? & ?). exists v. by rewrite Hg. }
  split.
  + intros k v Hv. apply label_is_true, (covered_resource _ (k, JStr v) Hc). exists v. auto.
  + intros e [He|He]%elem_of_app; apply covered_resource; auto. apply Hsort. eapply covered_below; eauto.
Qed.

(** The labels that the platform adds to its resources are the least ones.
    When they are found, they never touch one of Foretoken's fixed labels, and
    together with those they meet every matchLabels entry of both selectors of the
    Prometheus.  Whenever any labels that include the fixed ones are selected by
    both, they are found, and those labels contain all of them. *)
Theorem required_labels_least (service_selector rule_selector : json) :
  (∀ add, required_labels service_selector rule_selector = Some add →
     extends_fixed (resource_labels add) ∧
     ∀ e, e ∈ match_entries service_selector ++ match_entries rule_selector →
          match e.2 with JStr v => label_is (resource_labels add) e.1 v | _ => false end = true) ∧
  (∀ ls, extends_fixed ls → matches_label_selector service_selector ls = true →
     matches_label_selector rule_selector ls = true →
     ∃ add, required_labels service_selector rule_selector = Some add ∧
       ∀ k v, (k, v) ∈ add → dget k ls = Some (JStr v)).
Proof.
  split; [apply required_labels_sound|].
  intros ls Hf Hs Hr.
  destruct (merge_selector_least ls Hf service_selector []) as (a1 & H1 & Ha1); [done..|].
  destruct (merge_selector_least ls Hf rule_selector a1) as (a2 & H2 & Ha2); [done..|].
  exists (sort_by id a2). unfold required_labels. rewrite H1. simpl. rewrite H2. split; [done|].
  intros k v. rewrite sort_by_perm. intros Hin.
  destruct (merge_selector_sound _ _ _ H1) as (Hc1 & _); [by split; [constructor|set_solver]|].
  destruct (merge_selector_sound _ _ _ H2 Hc1) as ((Hnd & _) & _). by apply Ha2, elem_dget.
Qed.

(** ** The selected Prometheus *)

(** A namespace that allows scraping of the model servers *)
Definition allows_scraping (o : json) : Prop :=
  ∃ m ls, child "metadata" o = Ok m ∧ child "labels" m = Ok (JObj ls) ∧
          dget METRICS_SCRAPER_LABEL ls = Some (JStr "true").

(** The namespace of a Prometheus was read and allows it, or does not. *)
Definition trusted_in (n : calls) (value : json) : Prop :=
  ∃ i o, identity value = Ok (Some i) ∧ (GetObject "namespace" i.1 "" true, Output (Some o)) ∈ n ∧ allows_scraping o.
Definition distrusted_in (n : calls) (value : json) : Prop :=
  identity value = Ok None ∨
  ∃ i o, identity value = Ok (Some i) ∧ (GetObject "namespace" i.1 "" true, Output o) ∈ n ∧
         from_option (λ o, ¬ allows_scraping o) True o.

(** The Prometheus picks resources from the platform's namespace. *)
Definition reaches (spec : list (string * json)) (selector_name own platform : string) (platform_labels : labels) : Prop :=
  match dget selector_name spec with
  | None | Some JNull => own = platform
  | Some selector => selects selector platform_labels
  end.

(** It is available and both of its selectors pick the platform's resources under
    the labels of [ref]. *)
Definition collects (platform : string) (platform_labels : labels) (value : json) (ref : PrometheusRef) : Prop :=
  identity value = Ok (Some (p_namespace ref, p_name ref)) ∧
  ∃ spec status, get "spec" value = Ok (JObj spec) ∧ get "status" value = Ok (JObj status) ∧
    flag_set "paused" spec = false ∧ flag_set "ignoreNamespaceSelectors" spec = false ∧
    replicas_available status = true ∧
    extends_fixed (resource_labels (additional_labels ref)) ∧
    selects (field "serviceMonitorSelector" spec) (resource_labels (additional_labels ref)) ∧
    selects (field "ruleSelector" spec) (resource_labels (additional_labels ref)) ∧
    reaches spec "serviceMonitorNamespaceSelector" (p_namespace ref) platform platform_labels ∧
    reaches spec "ruleNamespaceSelector" (p_namespace ref) platform platform_labels.

Lemma namespace_matches_true spec n own platform ls :
  namespace_matches spec n own platform ls = true ↔ reaches spec n own platform ls.
Proof.
  unfold namespace_matches, reaches.
  destruct (dget n spec) as [[]|]; rewrite ?matches_selects; try done; apply eqb_true.
Qed.

Lemma compatible_collects platform ls value ref :
  compatible_prometheus platform ls value = Ok (Some ref) → collects platform ls value ref.
Proof.
  unfold compatible_prometheus, collects.
  intros (i & Hi & (spec & Hspec & (status & Hstatus & Hrest)%outcome_bind_Ok)%outcome_bind_Ok)%outcome_bind_Ok.
  destruct i as [[ns n]|]; [|done]. destruct spec as [| | | | | |spec]; try done. destruct status as [| | | | | |status]; try done.
  destruct (flag_set "paused" spec || flag_set "ignoreNamespaceSelectors" spec) eqn:Ef; [done|].
  apply orb_false_iff in Ef as [Hp Hg]. destruct (replicas_available status) eqn:Er; [|done]. cbn [negb] in Hrest.
  destruct (required_labels _ _) as [add|] eqn:Ea; [|done].
  destruct (matches_label_selector (field "serviceMonitorSelector" spec) _) eqn:Es; [|done]. cbn [negb] in Hrest.
  destruct (matches_label_selector (field "ruleSelector" spec) _) eqn:Eru; [|done]. cbn [negb] in Hrest.
  destruct (namespace_matches spec "serviceMonitorNamespaceSelector" _ _ _) eqn:Es'; [|done]. cbn [negb] in Hrest.
  destruct (namespace_matches spec "ruleNamespaceSelector" _ _ _) eqn:Er'; [|done]. cbn [negb] in Hrest.
  injection Hrest as <-. split; [done|]. exists spec, status.
  apply matches_selects in Es, Eru. apply namespace_matches_true in Es', Er'.
  apply required_labels_sound in Ea as [Hfix _]. done.
Qed.

Lemma filter_outcome_elem f l k : filter_outcome f l = Ok k → ∀ x, x ∈ k ↔ x ∈ l ∧ f x = Ok true.
Proof.
  revert k. induction l as [|y l IH]; intros k; simpl; [intros [= <-]; set_solver|].
  intros (b & Hb & (k' & Hk & [= <-])%outcome_bind_Ok)%outcome_bind_Ok x. rewrite elem_of_cons.
  specialize (IH k' Hk x). destruct b; rewrite ?elem_of_cons, IH; [naive_solver|].
  split; [naive_solver|]. intros [[->|] Hx]; [congruence|done].
Qed.

Lemma considered_elem requested wanted l k :
  considered requested wanted l = Ok k →
  ∀ x, x ∈ k → x ∈ l ∧ ∀ i, wanted = Some i → identity x = Ok (Some i).
Proof.
  unfold considered. destruct wanted as [i|]; [|intros [= <-]; naive_solver].
  intros (k' & Hf & Hk)%outcome_bind_Ok x Hx.
  assert (k = k') as -> by (destruct k'; [by apply outcome_bind_Ok in Hk as (? & _ & [=])|naive_solver]).
  apply (filter_outcome_elem _ _ _ Hf) in Hx as [Hl (j & Hj & [= E])%outcome_bind_Ok].
  reflect_in E. split; [done|]. by intros ? [= <-]; subst.
Qed.

Lemma parse_requested_text requested i : parse_requested requested = Ok (Some i) → requested = Some (i.1 +:+ "/" +:+ i.2).
Proof.
  unfold parse_requested. destruct requested as [s|]; [|done].
  destruct (partition "/" s) as [[a b]|] eqn:Ep; [|done].
  destruct (_ || _); [done|]. intros [= <-]. simpl. f_equal. clear -Ep.
  revert a Ep. induction s as [|c s IH]; intros a; simpl; [done|].
  destruct (Ascii.eqb_spec c "/"); [by intros [= <- <-]; subst|].
  destruct (partition "/" s) as [[a' b']|]; [|done]. intros [= <- <-].
  exact (f_equal (String c) (IH a' eq_refl)).
Qed.

Section Select.
Context {C S : Type} `{Kubectl C} `{PythonRepr} `{Printer}.
Abbreviation IO := (IO (world C S)).

(** The verdict on a candidate *)
Definition verdict (platform : string) (ls : labels) (value : json) (r : option PrometheusRef) (n : calls) : Prop :=
  match r with
  | Some ref => trusted_in n value ∧ compatible_prometheus platform ls value = Ok (Some ref)
  | None => distrusted_in n value ∨ compatible_prometheus platform ls value = Ok None
  end.
Lemma lasting_verdict platform ls value r : lasting (verdict platform ls value r).
Proof. destruct r; unfold verdict, trusted_in, distrusted_in; auto 20 with lasting. Qed.
Lemma verdict_more platform ls value r n m : n ⊆ m → verdict platform ls value r n → verdict platform ls value r m.
Proof. intros Hs. destruct r; unfold verdict, trusted_in, distrusted_in; naive_solver. Qed.

Lemma emits_namespace_object nm :
  emits (namespace_object nm : IO json)
    (λ o n, ∃ v, n = [(GetObject "namespace" nm "" true, Output v)] ∧ o = default (JObj []) v) (λ _, True).
Proof.
  eapply emits_seq; [apply emits_get_if_exists|]. intros v. apply emits_ret. intros n [-> _]. simpl. eauto.
Qed.

Lemma emits_trusted value :
  emits (namespace_is_trusted value : IO bool)
    (λ b n, if b : bool then trusted_in n value else distrusted_in n value) (λ _, True).
Proof.
  apply emits_pure_bind; [|done]. intros i Hi. destruct i as [[ns nm]|]; [|by apply emits_ret; left].
  eapply emits_seq; [apply emits_namespace_object|]. intros o.
  apply emits_pure_bind; [|done]. intros m Hm. apply emits_pure_bind; [|done]. intros ls Hls.
  apply emits_ret. intros n (v & -> & Ho). cbn [app].
  destruct (match ls with JObj ls => _ | _ => _ end) eqn:Eb.
  - destruct ls as [| | | | | |ls]; try done. apply label_is_true in Eb.
    destruct v as [o'|]; simpl in Ho; subst o.
    + exists (ns, nm), o'. split_and!; [done|set_solver|]. by exists m, ls.
    + injection Hm as <-. injection Hls as <-. done.
  - right. exists (ns, nm), v. split_and!; [done|set_solver|]. destruct v as [o'|]; [|done]. simpl in *. subst o.
    intros (m' & ls' & Hm' & Hls' & Hl). rewrite Hm in Hm'. injection Hm' as <-. rewrite Hls in Hls'. injection Hls' as ->. apply label_is_true in Hl. congruence.
Qed.

Lemma emits_judge platform ls value :
  emits (judge_prometheus platform ls value : IO _) (λ r n, verdict platform ls value r n) (λ _, True).
Proof.
  eapply emits_seq; [apply emits_trusted|]. intros [].
  - apply emits_pure; [|done]. intros [ref|] Hr n0 Ht; simpl; auto.
  - apply emits_ret. simpl. auto.
Qed.

(** The only [Some] among the verdicts *)
Lemma one_verdict {A B} (R : A → option B → Prop) l rs b :
  Forall2 R l rs → omap id rs = [b] →
  ∃ pre x post, l = pre ++ x :: post ∧ R x (Some b) ∧ Forall (λ y, R y None) (pre ++ post).
Proof.
  induction 1 as [|x r l rs Hx Hl IH]; simpl; [done|]. destruct r as [b'|]; simpl.
  - intros [= -> Hrs]. exists [], x, l. split_and!; [done..|]. simpl. clear -Hl Hrs.
    induction Hl as [|y [r|] l rs Hy Hl IH]; simpl in *; [constructor|done|constructor; auto].
  - intros Hb. destruct (IH Hb) as (pre & y & post & -> & Hy & Hr). exists (x :: pre), y, post.
    split_and!; [done..|]. by constructor.
Qed.

(** What a successful selection has seen *)
Definition sound_choice (platform : string) (requested : option string) (ref : PrometheusRef) (n : calls) : Prop :=
  ∃ listing prometheuses v platform_labels candidates value,
    (ListAllObjects [PROMETHEUSES] "", Output (Some listing)) ∈ n ∧ listed listing prometheuses ∧
    (GetObject "namespace" platform "" true, Output v) ∈ n ∧
    namespace_labels (default (JObj []) v) platform = Ok platform_labels ∧
    value ∈ prometheuses ∧ trusted_in n value ∧ collects platform platform_labels value ref ∧
    (∀ text, requested = Some text → text = p_namespace ref +:+ "/" +:+ p_name ref) ∧
    (requested = None → candidates ++ [value] ≡ₚ prometheuses) ∧
    Forall (λ other, distrusted_in n other ∨ compatible_prometheus platform platform_labels other = Ok None) candidates.

Lemma emits_select platform requested :
  emits (select_prometheus platform requested : IO _)
    (λ r n, from_option (λ ref, sound_choice platform requested ref n) True r) (λ _, True).
Proof.
  apply emits_pure_bind; [|done]. intros wanted Hw.
  eapply emits_seq; [apply emits_api_resources|]. intros resources.
  destruct (negb _). { destruct wanted; [by apply emits_throw|by apply emits_ret]. }
  eapply emits_seq; [apply emits_list|]. intros [|p ps].
  { destruct wanted; [by apply emits_throw|by apply emits_ret]. }
  apply emits_pure_bind; [|done]. intros selected Hsel.
  eapply emits_seq; [apply emits_namespace_object|]. intros o.
  apply emits_pure_bind; [|done]. intros pls Hpls.
  eapply emits_seq; [apply (emits_collect (verdict platform pls)); [intros; apply lasting_verdict|intros; apply emits_judge]|].
  intros rs. destruct (omap id rs) as [|ref [|]] eqn:Ers; try by apply emits_throw.
  apply emits_ret. intros n3 Hrs n2 (v & -> & ->) n1 (listing & -> & Hlist) n0 _.
  destruct (one_verdict _ _ _ _ Hrs Ers) as (pre & value & post & Hsplit & [Ht Hc] & Hothers).
  destruct (considered_elem _ _ _ _ Hsel value) as [Hin Hid]; [rewrite Hsplit; set_solver|].
  apply compatible_collects in Hc as Hcol.
  cbn [from_option]. match goal with |- sound_choice _ _ _ ?N => assert (n3 ⊆ N) as Hsub by set_solver end.
  exists listing, (p :: ps), v, pls, (pre ++ post), value.
  split_and!; [set_solver|done|set_solver|done|done|by apply (verdict_more platform pls value (Some ref) n3)|done|..].
  - intros text ->. destruct wanted as [i|]; [|simpl in Hw; clear -Hw].
    + specialize (Hid i eq_refl). destruct Hcol as [Hi _]. rewrite Hid in Hi. injection Hi as ->.
      apply parse_requested_text in Hw. by injection Hw.
    + destruct (partition "/" text) as [[a b]|]; [|done]. by destruct (_ || _).
  - intros ->. injection Hw as <-. simpl in Hsel. injection Hsel as ->. rewrite Hsplit. solve_Permutation.
  - eapply Forall_impl; [exact Hothers|]. intros y Hy. by apply (verdict_more platform pls y None n3).
Qed.

(** C33: The Prometheus that installation selects was listed by the cluster, its
    namespace was seen to allow scraping, it is available and not paused, both of
    its selectors pick the platform's resources under the returned labels (which
    leave Foretoken's fixed labels alone) and reach the platform's namespace; it is
    the requested one if one was requested, and otherwise every other listed
    instance was seen to be untrusted or incompatible. *)
Theorem selected_prometheus_collects (platform : string) (requested : option string) (w w' : world C S) ref :
  select_prometheus platform requested w = (Returned (Some ref), w') →
  ∃ new, trace w' = new ++ trace w ∧ sound_choice platform requested ref new.
Proof.
  intros Hrun. destruct (emits_select platform requested w) as (new & Hn & HQ). rewrite Hrun in *. eauto.
Qed.
End Select.
