(* ===== verification/Exporters.v ===== *)
(** * Discovery of accelerator metrics ([accelerators/_exporter.py], [accelerators/discovery.py])

    An exporter is a DaemonSet that publishes device metrics.  Discovery finds the
    one whose ready Pods cover all device nodes, the one ServiceMonitor endpoint
    that scrapes it, tests the metrics it serves, and waits until the chosen
    Prometheus reports all its targets as up.  Lists of cluster objects are fetched
    once and kept in the [inventory]. *)

From Stdlib Require Import Ascii.
From S2P Require Import Prelude Text Kube Effects Client Prometheus.

(** ** Matching objects ([_exporter.py]) *)

Record ServiceMonitorEndpoint := MonitorEndpoint {
  e_port : string;
  e_target_label : string;
  e_path : string;
  e_scheme : string;
}.

(** Entries that require a string label *)
Definition selects_labels (selector ls : labels) : bool :=
  forallb (λ e, match e.2 with JStr value => label_is ls e.1 value | _ => false end) selector.

(** [service_selects_pods] *)
Definition service_selects_pods (pod_labels : labels) (service : json) : outcome bool :=
  spec ← child "spec" service;
  selector ← child "selector" spec;
  Ok match selector with
     | JObj s => negb (bool_decide (s.*1 = [])) && selects_labels s pod_labels
     | _ => false
     end.

(** [monitor_namespace_matches] *)
Definition monitor_namespace_matches (selector : json) (monitor_namespace service_namespace : string) : bool :=
  match selector with
  | JNull => eqb monitor_namespace service_namespace
  | JObj s =>
      if flag_set "any" s then true else
      match or_ (field "matchNames" s) (JArr []) with
      | JArr [] => eqb monitor_namespace service_namespace
      | JArr names => existsb (is_str service_namespace) names
      | _ => false
      end
  | _ => false
  end.

Section Matching.
Context `{PythonRepr}.

(** [object_name] *)
Definition object_name (value : json) : outcome string :=
  metadata ← child "metadata" value; text_at "name" metadata.

(** The Service port behind an endpoint: by its name, else by its target port *)
Definition endpoint_service_port (service_ports : list (list (string * json))) (pod_ports : list json)
    (endpoint : list (string * json)) : outcome (option (list (string * json))) :=
  let endpoint_port := field "port" endpoint in
  let target_port := field "targetPort" endpoint in
  match find (λ port, negb (is_none endpoint_port) && py_eqb (field "name" port) endpoint_port) service_ports with
  | Some port => Ok (Some port)
  | None =>
      served ← in_set target_port pod_ports;
      Ok (if (served : bool) then
            find (λ port, py_eqb (field "targetPort" port) target_port || py_eqb (field "port" port) target_port)
              service_ports
          else None)
  end.

(** The body of the loop of [monitor_service_endpoints] *)
Definition select_endpoint (service_ports : list (list (string * json))) (pod_ports : list json) (endpoint : json)
    : outcome (option ServiceMonitorEndpoint) :=
  match endpoint with
  | JObj e =>
      service_port ← endpoint_service_port service_ports pod_ports e;
      match service_port with
      | None => Ok None
      | Some port =>
          let path := str_of (or_ (field "path" e) (JStr "/metrics")) in
          let scheme := lower (str_of (or_ (field "scheme" e) (JStr "http"))) in
          match port_text (or_ (field "name" port) (field "port" port)),
                port_text (or_ (field "port" e) (field "targetPort" e)) with
          | Some proxy_port, Some target_label =>
              Ok (if startswith "/" path && mem scheme ["http"; "https"]
                  then Some (MonitorEndpoint proxy_port target_label path scheme) else None)
          | _, _ => Ok None
          end
      end
  | _ => Ok None
  end.

(** [monitor_service_endpoints] *)
Definition monitor_service_endpoints (pod_ports : list json) (monitor service : json)
    : outcome (list ServiceMonitorEndpoint) :=
  monitor_metadata ← child "metadata" monitor;
  monitor_namespace ← text_at "namespace" monitor_metadata;
  service_metadata ← child "metadata" service;
  service_namespace ← text_at "namespace" service_metadata;
  service_labels ← child "labels" service_metadata;
  spec ← child "spec" monitor;
  match service_labels, spec with
  | JObj ls, JObj spec =>
      if negb (matches_label_selector (field "selector" spec) ls)
         || negb (monitor_namespace_matches (field "namespaceSelector" spec) monitor_namespace service_namespace)
      then Ok [] else
      service_spec ← child "spec" service;
      ports ← children_at "ports" service_spec;
      endpoints ← children_at "endpoints" (JObj spec);
      selected ← outcome_map (select_endpoint (omap dict_of (ports : list json)) pod_ports) endpoints;
      Ok (omap id (selected : list (option ServiceMonitorEndpoint)))
  | _, _ => Ok []
  end.

(** [owned_by_daemonset] and [pod_ready] *)
Definition owned_by_daemonset (pod : json) (uid : string) : outcome bool :=
  metadata ← child "metadata" pod;
  owners ← children_at "ownerReferences" metadata;
  Ok (existsb (λ owner, match owner with
                        | JObj o => is_str "DaemonSet" (field "kind" o) && is_str uid (field "uid" o)
                        | _ => false
                        end) owners).
Definition pod_ready (pod : json) : outcome bool :=
  status ← child "status" pod;
  conditions ← children_at "conditions" status;
  Ok (existsb (λ condition, match condition with
                            | JObj c => is_str "Ready" (field "type" c) && is_str "True" (field "status" c)
                            | _ => false
                            end) conditions).
End Matching.

(** ** Data *)

Record MetricRequirement := Metric { m_name : string; m_labels : list string }.

Record ExporterEndpoint := Endpoint {
  service : ResourceRef;
  port : string;
  target_label : string;
  path : string;
  scheme : string;
}.

Record ExporterMonitor := Exporter {
  daemonset : ResourceRef;
  service_monitor : ResourceRef;
  service_monitor_labels : list (string * string);
  endpoint : ExporterEndpoint;
  target_pods : list string;
}.

(** The attributes of an [ExporterDiscovery]: what has been fetched so far *)
Record inventory := Inventory {
  i_nodes : option (list json);
  i_daemonsets : option (list json);
  i_resources : option (list string);
  i_monitors : option (list json);
  i_services : list (string * list json);
  i_pods : list (string * list json);
}.
Definition new_inventory : inventory := Inventory None None None None [] [].

(** [text_string_to_metric_families] of prometheus_client: per family, the samples
    by name and label names *)
Class MetricsParser := metric_families : string → outcome (list (list (string * list string))).

(** ** Pods of a DaemonSet *)

Section Pods.
Context `{PythonRepr}.

(** [{...: ... for pod in pods if ...}]: the node and the name of an owned ready Pod *)
Definition ready_pod (ns uid : string) (pod : json) : outcome (option (string * string)) :=
  metadata ← child "metadata" pod;
  pod_ns ← text_at "namespace" metadata;
  if negb (eqb pod_ns ns) then Ok None else
  owned ← owned_by_daemonset pod uid;
  if negb owned then Ok None else
  ready ← pod_ready pod;
  if negb ready then Ok None else
  spec ← child "spec" pod;
  node ← text_at "nodeName" spec;
  n ← object_name pod;
  Ok (Some (node, n)).
Definition ready_pods (ns uid : string) (pods : list json) : outcome (list (string * string)) :=
  found ← outcome_map (ready_pod ns uid) pods; Ok (update [] (omap id found)).

(** The names of the Pods, when every node has one *)
Definition covering (node_names : list string) (ready : list (string * string)) : list string :=
  if forallb (λ node, dmem node ready) node_names
  then distinct (keep nonempty (omap (λ node, dget node ready) node_names)) else [].

(** Namespace, UID and label selector of a DaemonSet, when it has them *)
Definition string_items (m : labels) : option (list (string * string)) :=
  if forallb (λ e, match e.2 with JStr _ => true | _ => false end) m
  then Some (omap (λ e, match e.2 with JStr v => Some (e.1, v) | _ => None end) m) else None.
Definition daemonset_selector (value : json) : outcome (option (string * string * string)) :=
  metadata ← child "metadata" value;
  ns ← text_at "namespace" metadata;
  uid ← text_at "uid" metadata;
  spec ← child "spec" value;
  selector ← child "selector" spec;
  match selector with
  | JObj s =>
      match default (JObj []) (dget "matchLabels" s) with
      | JObj match_labels =>
          if negb (nonempty ns) || negb (nonempty uid) then Ok None else
          Ok (items ← string_items match_labels;
              Some (ns, uid, join "," ((λ e, e.1 +:+ "=" +:+ e.2) <$> sort_by id items)))
      | _ => Ok None
      end
  | _ => Ok None
  end.

(** ** The monitor of a DaemonSet *)

(** [pod_ports] *)
Definition container_ports (container : json) : outcome (list json) :=
  match container with
  | JObj c =>
      ports ← children_at "ports" (JObj c);
      Ok (keep (λ v, bool_decide (is_Some (port_text v)))
            (concat ((λ p, [field "name" p; field "containerPort" p]) <$> omap dict_of ports)))
  | _ => Ok []
  end.
Definition pod_ports (template : json) : outcome (list json) :=
  spec ← child "spec" template;
  containers ← children_at "containers" spec;
  ports ← outcome_map container_ports containers;
  Ok (concat ports).

(** [matches]: every endpoint of every ServiceMonitor that reaches one of the Services *)
Definition endpoint_matches (ports : list json) (monitor service : json)
    : outcome (list (ResourceRef * json * ResourceRef * ServiceMonitorEndpoint)) :=
  endpoints ← monitor_service_endpoints ports monitor service;
  outcome_map (λ e, m ← resource_ref monitor; s ← resource_ref service; Ok (m, monitor, s, e)) endpoints.
Definition all_matches (ports : list json) (monitors services : list json)
    : outcome (list (ResourceRef * json * ResourceRef * ServiceMonitorEndpoint)) :=
  found ← outcome_map (λ monitor, l ← outcome_map (endpoint_matches ports monitor) services; Ok (concat l)) monitors;
  Ok (concat found).

(** The Pod template of a DaemonSet and its labels *)
Definition pod_template (value : json) : outcome (json * json) :=
  spec ← child "spec" value;
  template ← child "template" spec;
  metadata ← child "metadata" template;
  ls ← child "labels" metadata;
  Ok (template, ls).
(** The labels of a ServiceMonitor, when they are strings *)
Definition monitor_labels (monitor : json) : outcome (option (list (string * string))) :=
  metadata ← child "metadata" monitor;
  ls ← child "labels" metadata;
  Ok (match ls with JObj ls => sort_by id <$> string_items ls | _ => None end).

(** [_display_name] *)
Definition display_object (value : json) : outcome string :=
  ref ← resource_ref value; Ok (namespace ref +:+ "/" +:+ display_name ref).
Definition display_objects (values : list json) : outcome string :=
  names ← outcome_map display_object values; Ok (join ", " names).

(** ** Targets of a Prometheus *)

(** [values_by_pod[pod].append(str(value[1]))] for one result *)
Definition note_value (values : list (string * list string)) (item : json) : outcome (list (string * list string)) :=
  match item with
  | JObj i =>
      match field "metric" i, field "value" i with
      | JObj metric, JArr [_; v] =>
          match field "pod" metric with
          | JArr _ | JObj _ => Raise (TypeError "unhashable type")
          | JStr pod => Ok (match dget pod values with
                            | Some l => dset pod (l ++ [str_of v]) values
                            | None => values
                            end)
          | _ => Ok values
          end
      | _, _ => Ok values
      end
  | _ => Raise AttributeError
  end.

(** Why an exporter is not collected, if so *)
Definition target_failure (pods : list string) (results : list json) : outcome (option string) :=
  values ← outcome_fold note_value ((λ pod, (pod, [])) <$> pods) results;
  let missing := (keep (λ e, bool_decide (e.2 = [])) values).*1 in
  let down := (keep (λ e, existsb (λ v, negb (eqb v "1")) e.2) values).*1 in
  Ok (match missing, down with
      | [], [] => None
      | _ :: _, [] => Some ("missing targets for " +:+ join ", " missing)
      | [], _ :: _ => Some ("targets down for " +:+ join ", " down)
      | _, _ => Some ("missing targets for " +:+ join ", " missing +:+ "; targets down for " +:+ join ", " down)
      end).
End Pods.

(** The query for the targets of an endpoint *)
Definition up_expression (e : ExporterEndpoint) : string :=
  "up{namespace=" +:+ dumps (namespace (service e)) +:+ ",service=" +:+ dumps (name (service e))
  +:+ ",endpoint=" +:+ dumps (target_label e) +:+ "}".

(** ** [ExporterDiscovery] *)

Section Discovery.
Context {C : Type} `{Kubectl C} `{PythonRepr} `{Printer} `{MetricsParser}.
Abbreviation IO := (IO (world C inventory)).
(** [self._request_timeout] *)
Variable request_timeout : string.

(** A value that is fetched on first use *)
Definition cached {A} (look : inventory → option A) (store : A → inventory → inventory) (fetch : IO A) : IO A :=
  v ← ask (λ w, look (self w));
  match v with
  | Some a => mret a
  | None => a ← fetch; on_self (store a) ;; mret a
  end.

Definition nodes : IO (list json) :=
  cached i_nodes (λ v i, Inventory (Some v) (i_daemonsets i) (i_resources i) (i_monitors i) (i_services i) (i_pods i))
    (list_all_resources ["node"]).
Definition daemonsets : IO (list json) :=
  cached i_daemonsets (λ v i, Inventory (i_nodes i) (Some v) (i_resources i) (i_monitors i) (i_services i) (i_pods i))
    (list_all_resources ["daemonset.apps"]).
Definition monitoring_resources : IO (list string) :=
  cached i_resources (λ v i, Inventory (i_nodes i) (i_daemonsets i) (Some v) (i_monitors i) (i_services i) (i_pods i))
    (api_resource_names (Some PROMETHEUS_API_GROUP)).
Definition service_monitors : IO (list json) :=
  cached i_monitors (λ v i, Inventory (i_nodes i) (i_daemonsets i) (i_resources i) (Some v) (i_services i) (i_pods i))
    (list_all_resources [SERVICE_MONITORS]).
Definition services_in (ns : string) : IO (list json) :=
  cached (λ i, dget ns (i_services i))
    (λ v i, Inventory (i_nodes i) (i_daemonsets i) (i_resources i) (i_monitors i) (dset ns v (i_services i)) (i_pods i))
    (list_resources ["service"] ns).
Definition pods_with (selector : string) : IO (list json) :=
  cached (λ i, dget selector (i_pods i))
    (λ v i, Inventory (i_nodes i) (i_daemonsets i) (i_resources i) (i_monitors i) (i_services i) (dset selector v (i_pods i)))
    (list_selected ["pod"] selector).

(** [daemonset_pods_on_nodes] *)
Definition daemonset_pods_on_nodes (value : json) (node_names : list string) : IO (list string) :=
  selector ← pure (daemonset_selector value);
  match selector with
  | None => mret []
  | Some (ns, uid, selector) =>
      pods ← pods_with selector;
      ready ← pure (ready_pods ns uid pods);
      mret (covering node_names ready)
  end.

(** [_service_monitor] *)
Definition find_service_monitor (value : json) (pods : list string) : IO ExporterMonitor :=
  ref ← pure (resource_ref value);
  resources ← monitoring_resources;
  if negb (mem SERVICE_MONITORS resources)
  then throw (DeploymentError ("exporter " +:+ namespace ref +:+ "/" +:+ name ref
                +:+ " has no Prometheus Operator API for its ServiceMonitor")) else
  template ← pure (pod_template value);
  match template with
  | (template, JObj pod_labels) =>
      ports ← pure (pod_ports template);
      services ← services_in (namespace ref);
      selected ← pure (filter_outcome (service_selects_pods pod_labels) services);
      monitors ← service_monitors;
      found ← pure (all_matches ports monitors selected);
      match found with
      | [(monitor_ref, monitor, service_ref, e)] =>
          ls ← pure (monitor_labels monitor);
          match ls with
          | Some ls =>
              mret (Exporter ref monitor_ref ls
                      (Endpoint service_ref (e_port e) (e_target_label e) (e_path e) (e_scheme e)) pods)
          | None => throw (DeploymentError "exporter ServiceMonitor metadata is invalid")
          end
      | _ => throw (DeploymentError ("exporter " +:+ namespace ref +:+ "/" +:+ name ref
                      +:+ " needs exactly one ServiceMonitor endpoint selecting one metrics Service"))
      end
  | _ => throw (DeploymentError "exporter Pod labels are invalid")
  end.

(** [_require_metrics] *)
Definition metric_served (samples : list (string * list string)) (r : MetricRequirement) : bool :=
  existsb (λ s, eqb s.1 (m_name r) && forallb (λ l, mem l s.2) (m_labels r)) samples.
Definition metric_samples (body : string) (invalid : exn) : outcome (list (string * list string)) :=
  match metric_families body with
  | Ok families => Ok (concat families)
  | Raise (ValueError _) => Raise invalid
  | Raise e => Raise e
  end.
Definition require_metrics (exporter_name : string) (e : ExporterEndpoint) (requirements : list MetricRequirement)
    (repair_hint : string) : IO unit :=
  let where_ := namespace (service e) +:+ "/" +:+ name (service e) in
  body ← try_except
    (get_raw ("/api/v1/namespaces/" +:+ namespace (service e) +:+ "/services/" +:+ scheme e +:+ ":" +:+ name (service e)
              +:+ ":" +:+ port e +:+ "/proxy" +:+ path e) request_timeout)
    (λ err, match deployment_error err with
            | Some _ => Some (throw (DeploymentError (exporter_name +:+ " is Pod-ready but its metrics endpoint " +:+ where_
                          +:+ path e +:+ " is unavailable through the Kubernetes Service proxy; " +:+ repair_hint)))
            | None => None
            end);
  samples ← pure (metric_samples body
    (DeploymentError (exporter_name +:+ " Service " +:+ where_ +:+ " endpoint " +:+ path e
       +:+ " returned invalid Prometheus metrics; " +:+ repair_hint)));
  match m_name <$> keep (λ r, negb (metric_served samples r)) requirements with
  | [] => mret tt
  | missing => throw (DeploymentError (exporter_name +:+ " is Pod-ready but Service " +:+ where_ +:+ " endpoint " +:+ path e
                 +:+ " does not expose the required metric contract (" +:+ join ", " missing +:+ "); " +:+ repair_hint))
  end.

(** [find_monitor] *)
Definition find_monitor (candidates : list json) (node_names : list string) (exporter_name node_description : string)
    (requirements : list MetricRequirement) (repair_hint : string) : IO (option ExporterMonitor) :=
  covered ← Effects.collect (λ d, pods ← daemonset_pods_on_nodes d node_names; mret (d, pods)) candidates;
  match keep (λ c, negb (bool_decide (c.2 = []))) covered, candidates with
  | [(d, pods)], _ =>
      monitor ← find_service_monitor d pods;
      require_metrics exporter_name (endpoint monitor) requirements repair_hint ;;
      mret (Some monitor)
  | [], [] => mret None
  | [], _ =>
      names ← pure (display_objects candidates);
      throw (DeploymentError ("an existing " +:+ exporter_name +:+ " does not cover " +:+ node_description
               +:+ "; repair its lifecycle before installing Foretoken: " +:+ names))
  | compatible, _ =>
      names ← pure (display_objects compatible.*1);
      throw (DeploymentError ("multiple ready " +:+ exporter_name +:+ " instances cover " +:+ node_description
               +:+ ": " +:+ names))
  end.

(** [require_prometheus_selection] *)
Definition require_prometheus_selection (p : PrometheusRef) (exporters : list (string * ExporterMonitor)) : IO unit :=
  each exporters (λ e,
    let monitor := service_monitor e.2 in
    selected ← prometheus_selects_service_monitor p (namespace monitor) (service_monitor_labels e.2);
    if (selected : bool) then mret tt else
    throw (DeploymentError ("Prometheus " +:+ display_prometheus p +:+ " does not select " +:+ e.1 +:+ " ServiceMonitor "
             +:+ namespace monitor +:+ "/" +:+ name monitor
             +:+ "; update the shared platform selectors before installing Foretoken"))).

(** [CommandExecution.check]: the failure of the operation once so many calls were made *)
Variable cancelled : nat → option exn.
Definition check_execution : IO unit :=
  e ← ask (λ w, cancelled (length (trace w)));
  match e with Some e => throw e | None => mret tt end.

(** One exporter in a round: why it is not collected, if so *)
Definition check_target (p : PrometheusRef) (timeout : Q) (deadline : Q) (exporter : ExporterMonitor)
    : IO (option string) :=
  limit ← (if Qle_bool timeout 0 then mret request_timeout else
           t ← now; mret (str_Z (Z.max 1 (Qceiling (deadline - t))) +:+ "s"));
  results ← try_except
    (r ← prometheus_query p (up_expression (endpoint exporter)) limit None; mret (inl r))
    (λ e, match e with
          | ServiceUnavailable m =>
              Some (check_execution ;; if Qle_bool timeout 0 then throw e else mret (inr m))
          | _ => None
          end);
  match results with
  | inr m => mret (Some m)
  | inl results => pure (target_failure (target_pods exporter) results)
  end.

(** The failed exporters of a round with their reasons *)
Definition check_targets (p : PrometheusRef) (timeout deadline : Q) (pending : list (string * ExporterMonitor))
    : IO (list (string * ExporterMonitor * string)) :=
  found ← Effects.collect (λ e, r ← check_target p timeout deadline e.2; mret ((λ m, (e, m)) <$> r)) pending;
  mret (omap id found).

Definition describe_failure (f : string * ExporterMonitor * string) : string :=
  let '(n, item, reason) := f in
  n +:+ " ServiceMonitor " +:+ namespace (service_monitor item) +:+ "/" +:+ name (service_monitor item) +:+ " " +:+ reason
  +:+ " for Service " +:+ namespace (service (endpoint item)) +:+ "/" +:+ name (service (endpoint item))
  +:+ " endpoint " +:+ target_label (endpoint item).

(** [require_prometheus_targets] *)
Definition require_prometheus_targets (fuel : nat) (p : PrometheusRef) (exporters : list (string * ExporterMonitor))
    (timeout : Q) : IO unit :=
  t ← now;
  let deadline := (t + timeout)%Q in
  forever fuel (λ pending : list (string * ExporterMonitor),
    match pending with
    | [] => mret (inr tt)
    | _ =>
        failed ← check_targets p timeout deadline pending;
        match failed with
        | [] => mret (inr tt)
        | _ =>
            t ← now;
            if Qle_bool deadline t
            then throw (DeploymentError ("Prometheus " +:+ display_prometheus p
                   +:+ " cannot collect the selected GPU exporter: " +:+ join "; " (describe_failure <$> failed)
                   +:+ "; inspect its Targets page and the exporter logs"))
            else _ ← now; mret (inl failed.*1)
        end
    end) exporters.
End Discovery.
