(* ===== verification/ExporterProofs.v ===== *)
(** * What exporter discovery guarantees

    The lists of cluster objects are fetched once and never replaced while a
    discovery runs.  The exporter it returns is the only candidate whose ready Pods
    cover the device nodes, with the only endpoint that scrapes it, and served the
    required metrics.  Waiting for the targets of a Prometheus ends, and returns
    only after every Pod of every exporter was reported up. *)

From Stdlib Require Import Ascii.
From S2P Require Import Prelude Text Kube Effects Client Prometheus Emits PrometheusProofs Exporters Settles.

(** ** Pods on nodes *)


Lemma dget_update_elem {V} k (v : V) items d :
  dget k (update d items) = Some v → (k, v) ∈ items ∨ dget k d = Some v.
Proof.
  revert d. induction items as [|[k1 v1] items IH]; intros d; [by right|].
  intros [Hin|Hd]%(IH (dset k1 v1 d)); [left; set_solver|]. rewrite dget_dset in Hd.
  destruct (eqb k1 k) eqn:E; reflect_in E; [|by right]. left. injection Hd as <-. subst. left.
Qed.
Lemma dget_update_some {V} k (v : V) items d : (k, v) ∈ items → is_Some (dget k (update d items)).
Proof.
  assert (∀ items d : list (string * V), is_Some (dget k d) → is_Some (dget k (update d items))) as Hkeep.
  { intros its. induction its as [|[k1 v1] its IH]; intros d' Hd; [done|]. apply (IH (dset k1 v1 d')).
    rewrite dget_dset. by case_match. }
  revert d. induction items as [|[k1 v1] items IH]; intros d; [by intros ?%not_elem_of_nil|].
  intros [[= -> ->]|Hin]%elem_of_cons; [|by apply (IH (dset k1 v1 d))].
  apply (Hkeep items (dset k1 v1 d)). rewrite dget_dset, eqb_refl. by eexists.
Qed.

(** An owned ready Pod of this name on this node *)
Definition runs_on `{PythonRepr} (ns uid : string) (pods : list json) (node pod_name : string) : Prop :=
  ∃ pod, pod ∈ pods ∧ ready_pod ns uid pod = Ok (Some (node, pod_name)).

Lemma ready_pods_runs `{PythonRepr} ns uid pods ready node n :
  ready_pods ns uid pods = Ok ready → dget node ready = Some n → runs_on ns uid pods node n.
Proof.
  intros (found & Hf & [= <-])%outcome_bind_Ok Hd. apply outcome_map_Ok in Hf.
  apply dget_update_elem in Hd as [Hin|Hd]; [|done]. apply elem_of_omap_id in Hin.
  apply list_elem_of_lookup in Hin as [i Hi]. destruct (Forall2_lookup_r _ _ _ _ _ Hf Hi) as (pod & Hp & Hr).
  exists pod. split; [by eapply list_elem_of_lookup_2|done].
Qed.

Lemma covering_spec node_names ready :
  covering node_names ready ≠ [] →
  (∀ node, node ∈ node_names → ∃ n, dget node ready = Some n ∧ (n ≠ "" → n ∈ covering node_names ready)) ∧
  (∀ n, n ∈ covering node_names ready → ∃ node, node ∈ node_names ∧ dget node ready = Some n) ∧
  NoDup (covering node_names ready).
Proof.
  unfold covering. destruct (forallb _ node_names) eqn:E; [|done]. reflect_in E. intros _. split_and!.
  - intros node Hn. specialize (E node Hn). unfold dmem in E. apply bool_decide_eq_true in E as [n Hd].
    exists n. split; [done|]. intros Hne. apply elem_of_distinct, elem_of_keep. split.
    + unfold nonempty. by rewrite bool_decide_eq_false_2.
    + apply list_elem_of_omap. eauto.
  - intros n [_ (node & Hn & Hd)%list_elem_of_omap]%elem_of_distinct%elem_of_keep. eauto.
  - apply NoDup_distinct.
Qed.

(** ** The inventory *)

(** Everything known stays as it is. *)
Definition within (a b : inventory) : Prop :=
  (∀ v, i_nodes a = Some v → i_nodes b = Some v) ∧
  (∀ v, i_daemonsets a = Some v → i_daemonsets b = Some v) ∧
  (∀ v, i_resources a = Some v → i_resources b = Some v) ∧
  (∀ v, i_monitors a = Some v → i_monitors b = Some v) ∧
  (∀ k v, dget k (i_services a) = Some v → dget k (i_services b) = Some v) ∧
  (∀ k v, dget k (i_pods a) = Some v → dget k (i_pods b) = Some v).

#[export] Instance within_preorder : PreOrder within.
Proof. split; [by intros i|]. unfold within. intros a b c. naive_solver. Qed.

Lemma dset_keeps {V} k (v : V) (d : list (string * V)) : dget k d = None → ∀ k' v', dget k' d = Some v' → dget k' (dset k v d) = Some v'.
Proof. intros Hn k' v'. rewrite dget_dset. destruct (eqb k k') eqn:E; reflect_in E; [subst; congruence|done]. Qed.

(** [learns m Q]: [m] keeps the inventory and returns with [Q] of the final one. *)
Section Learns.
Context {C : Type} `{Kubectl C}.
Abbreviation IO := (IO (world C inventory)).

Definition learns {A} (m : IO A) (Q : A → inventory → Prop) : Prop :=
  ∀ w, within (self w) (self (m w).2) ∧ match (m w).1 with Returned a => Q a (self (m w).2) | _ => True end.
Definition known (P : inventory → Prop) : Prop := ∀ i j, within i j → P i → P j.

Lemma learns_weaken {A} (m : IO A) (Q Q' : A → inventory → Prop) :
  learns m Q → (∀ a i, Q a i → Q' a i) → learns m Q'.
Proof. intros Hm HQ w. destruct (Hm w) as [Hw Hq]. split; [done|]. destruct (m w) as [[] ?]; simpl in *; auto. Qed.

Lemma learns_bind {A B} (m : IO A) (k : A → IO B) (R : A → inventory → Prop) (Q : B → inventory → Prop) :
  (∀ a, known (R a)) → learns m R → (∀ a, learns (k a) (λ b i, R a i → Q b i)) → learns (m ≫= k) Q.
Proof.
  intros HR Hm Hk w. destruct (Hm w) as [Hw Hq]. unfold mbind, IO_bind.
  destruct (m w) as [[a|e|] w1]; simpl in *; [|done..]. destruct (Hk a w1) as [Hw1 Hq1]. split; [by etrans|].
  destruct (k a w1) as [[b|e|] w2]; simpl in *; [|done..]. apply Hq1. by eapply HR.
Qed.

Lemma learns_pure_bind {A B} (r : outcome A) (k : A → IO B) (Q : B → inventory → Prop) :
  (∀ a, r = Ok a → learns (k a) Q) → learns (pure r ≫= k) Q.
Proof. intros Hk w. unfold mbind, IO_bind, pure. destruct r as [a|e]; [by apply Hk|done]. Qed.
Lemma learns_ret {A} (a : A) (Q : A → inventory → Prop) : (∀ i, Q a i) → learns (mret a) Q.
Proof. intros HQ w. split; [done|apply HQ]. Qed.
Lemma learns_throw {A} e (Q : A → inventory → Prop) : learns (throw e) Q.
Proof. by intros w. Qed.
Lemma learns_pure {A} (r : outcome A) : learns (pure r) (λ a _, r = Ok a).
Proof. intros w. unfold pure. by destruct r. Qed.

(** Commands that do not touch the inventory *)
Definition blind {A} (m : IO A) : Prop := ∀ w, self (m w).2 = self w.
Lemma learns_blind {A} (m : IO A) : blind m → learns m (λ _ _, True).
Proof. intros Hm w. split; [by rewrite Hm|by case_match]. Qed.
Lemma blind_bind {A B} (m : IO A) (k : A → IO B) : blind m → (∀ a, blind (k a)) → blind (m ≫= k).
Proof.
  intros Hm Hk w. unfold mbind, IO_bind. specialize (Hm w). destruct (m w) as [[a|e|] w1]; simpl in *; [|done..].
  by rewrite Hk.
Qed.
Lemma blind_ret {A} (a : A) : blind (mret a).
Proof. done. Qed.
Lemma blind_throw {A} e : blind (throw e : IO A).
Proof. done. Qed.
Lemma blind_pure {A} (r : outcome A) : blind (pure r).
Proof. intros w. unfold pure. by destruct r. Qed.
Lemma blind_run c : blind (run c).
Proof. intros w. unfold run. by destruct (serve c (cluster w)) as [[] ?]. Qed.
Lemma blind_run_text `{Printer} c : blind (run_text c).
Proof. intros w. unfold run_text, call_text. by destruct (serve c (cluster w)) as [[] ?]. Qed.
Lemma blind_now : blind now.
Proof. done. Qed.
Lemma blind_try {A} (m : IO A) h : blind m → (∀ e k, h e = Some k → blind k) → blind (try_except m h).
Proof.
  intros Hm Hh w. unfold try_except. specialize (Hm w). destruct (m w) as [[a|e|] w1]; simpl in *; [done| |done].
  destruct (h e) as [k|] eqn:E; [|done]. by rewrite (Hh e k E).
Qed.

Lemma known_and P P' : known P → known P' → known (λ i, P i ∧ P' i).
Proof. unfold known. naive_solver. Qed.
Lemma known_const (P : Prop) : known (λ _, P).
Proof. by intros i j. Qed.
Lemma known_ex {X} (P : X → inventory → Prop) : (∀ x, known (P x)) → known (λ i, ∃ x, P x i).
Proof. intros HP i j Hij [x Hx]. exists x. by eapply HP. Qed.
Lemma known_or P P' : known P → known P' → known (λ i, P i ∨ P' i).
Proof. unfold known. naive_solver. Qed.

Lemma learns_collect {A B} (R : A → B → inventory → Prop) (f : A → IO B) l :
  (∀ x y, known (R x y)) → (∀ x, x ∈ l → learns (f x) (R x)) →
  learns (collect f l) (λ ys i, Forall2 (λ x y, R x y i) l ys).
Proof.
  intros HR. induction l as [|x l IH]; intros Hf; simpl; [by apply learns_ret|].
  apply (learns_bind _ _ (R x)); [intros; apply HR|apply Hf; left|]. intros y.
  apply (learns_bind _ _ (λ ys i, Forall2 (λ x y, R x y i) l ys)).
  - intros ys i j Hij Hys. eapply Forall2_impl; [exact Hys|]. intros x' y' Hx. by eapply HR.
  - apply IH. intros x' Hx. apply Hf. by right.
  - intros ys. apply learns_ret. by constructor.
Qed.

(** A cached list is in the inventory. *)
Lemma learns_cached {A} look store (fetch : IO A) :
  (∀ v i, look i = None → within i (store v i) ∧ look (store v i) = Some v) → blind fetch →
  learns (cached look store fetch) (λ v i, look i = Some v).
Proof.
  intros Hs Hf w. unfold cached, ask, on_self, change, mbind, IO_bind. simpl.
  destruct (look (self w)) as [v|] eqn:El; [done|]. specialize (Hf w).
  destruct (fetch w) as [[v|e|] w1]; simpl in *; [|by rewrite Hf..]. rewrite Hf. by apply Hs.
Qed.
End Learns.

Create HintDb blind discriminated.
#[export] Hint Resolve blind_ret blind_throw blind_pure blind_run blind_run_text blind_now : blind.
Ltac blind_step :=
  match goal with
  | |- blind (mbind _ _) => apply blind_bind; [|intros ?]
  | |- blind (try_except _ _) => apply blind_try; [|intros ? ?]
  | |- blind (let _ := _ in _) => cbv zeta
  | |- match ?x with _ => _ end = Some _ → _ => destruct x
  | |- None = Some _ → _ => discriminate
  | |- Some _ = Some _ → _ => intros [= <-]
  | |- blind (match ?x with _ => _ end) => destruct x
  | |- blind _ => solve [auto with blind]
  end.
Ltac blind_auto := intros; repeat blind_step.

Create HintDb known discriminated.
#[export] Hint Resolve known_and known_const known_ex known_or : known.

(** ** The exporter of the device nodes *)

Section Discovery.
Context {C : Type} `{Kubectl C} `{PythonRepr} `{Printer} `{MetricsParser}.
Abbreviation IO := (IO (world C inventory)).
Variable request_timeout : string.

Lemma blind_list (c : call) : blind (r ← run c; decode_resource_list r : IO _).
Proof. unfold decode_resource_list, decode_object. blind_auto. Qed.
Lemma blind_api_resources group : blind (api_resource_names group : IO _).
Proof. unfold api_resource_names. blind_auto. Qed.

Lemma learns_pods selector : learns (pods_with selector : IO _) (λ v i, dget selector (i_pods i) = Some v).
Proof.
  apply learns_cached; [|apply blind_list]. intros v i Hn. split; [|simpl; by rewrite dget_dset, eqb_refl].
  split_and!; try done. by apply dset_keeps.
Qed.
Lemma learns_services ns : learns (services_in ns : IO _) (λ v i, dget ns (i_services i) = Some v).
Proof.
  apply learns_cached; [|apply blind_list]. intros v i Hn. split; [|simpl; by rewrite dget_dset, eqb_refl].
  split_and!; try done. by apply dset_keeps.
Qed.
Lemma learns_monitors : learns (service_monitors : IO _) (λ v i, i_monitors i = Some v).
Proof. apply learns_cached; [|apply blind_list]. intros v i Hn. split; [|done]. split_and!; try done. by rewrite Hn. Qed.
Lemma learns_resources : learns (monitoring_resources : IO _) (λ v i, i_resources i = Some v).
Proof. apply learns_cached; [|apply blind_api_resources]. intros v i Hn. split; [|done]. split_and!; try done. by rewrite Hn. Qed.
Lemma learns_nodes : learns (nodes : IO _) (λ v i, i_nodes i = Some v).
Proof. apply learns_cached; [|apply blind_list]. intros v i Hn. split; [|done]. split_and!; try done. by rewrite Hn. Qed.
Lemma learns_daemonsets : learns (daemonsets : IO _) (λ v i, i_daemonsets i = Some v).
Proof. apply learns_cached; [|apply blind_list]. intros v i Hn. split; [|done]. split_and!; try done. by rewrite Hn. Qed.

(** The Pods of a DaemonSet that cover the nodes, by the Pods in the inventory *)
Definition coverage (d : json) (node_names pods : list string) (i : inventory) : Prop :=
  daemonset_selector d = Ok None ∧ pods = [] ∨
  ∃ ns uid selector all ready, daemonset_selector d = Ok (Some (ns, uid, selector)) ∧
    dget selector (i_pods i) = Some all ∧ ready_pods ns uid all = Ok ready ∧ pods = covering node_names ready.
Lemma known_coverage d node_names pods : known (coverage d node_names pods).
Proof.
  intros i j (_ & _ & _ & _ & _ & Hp) [Hc|(ns & uid & s & all & ready & ? & ? & ? & ?)]; [by left|right].
  exists ns, uid, s, all, ready. auto.
Qed.

Lemma learns_coverage d node_names :
  learns (daemonset_pods_on_nodes d node_names : IO _) (λ pods i, coverage d node_names pods i).
Proof.
  apply learns_pure_bind. intros [[[ns uid] selector]|] Hs; [|by apply learns_ret; left].
  eapply learns_bind; [|apply learns_pods|].
  { intros v i j (_ & _ & _ & _ & _ & Hp). apply Hp. }
  intros all. apply learns_pure_bind. intros ready Hr. apply learns_ret. intros i Hall. right.
  exists ns, uid, selector, all, ready. auto.
Qed.

(** The ServiceMonitor and the Service are the only way to the Pods. *)
Definition scraped (d : json) (pods : list string) (m : ExporterMonitor) (i : inventory) : Prop :=
  ∃ template pod_labels ports services monitors selected monitor e,
    resource_ref d = Ok (daemonset m) ∧ pod_template d = Ok (template, JObj pod_labels) ∧
    pod_ports template = Ok ports ∧
    dget (namespace (daemonset m)) (i_services i) = Some services ∧ i_monitors i = Some monitors ∧
    filter_outcome (service_selects_pods pod_labels) services = Ok selected ∧
    all_matches ports monitors selected = Ok [(service_monitor m, monitor, service (endpoint m), e)] ∧
    endpoint m = Endpoint (service (endpoint m)) (e_port e) (e_target_label e) (e_path e) (e_scheme e) ∧
    monitor_labels monitor = Ok (Some (service_monitor_labels m)) ∧ target_pods m = pods.
Lemma known_scraped d pods m : known (scraped d pods m).
Proof. unfold known, scraped, within. naive_solver. Qed.

Lemma learns_scraped d pods : learns (find_service_monitor d pods : IO _) (λ m i, scraped d pods m i).
Proof.
  apply learns_pure_bind. intros ref Href.
  eapply learns_bind; [|apply learns_resources|]; [by intros v i j (_ & _ & Hr & _); apply Hr|]. intros resources.
  destruct (negb _); [apply learns_throw|]. apply learns_pure_bind. intros [template ls] Ht.
  destruct ls as [| | | | | |pod_labels]; try apply learns_throw. apply learns_pure_bind. intros ports Hp.
  eapply learns_bind; [|apply learns_services|]; [by intros v i j (_ & _ & _ & _ & Hs & _); apply Hs|]. intros services.
  apply learns_pure_bind. intros selected Hsel.
  eapply learns_bind; [|apply learns_monitors|]; [by intros v i j (_ & _ & _ & Hm & _); apply Hm|]. intros monitors.
  apply learns_pure_bind. intros [|[[[mref monitor] sref] e] [|]] Hfound; try apply learns_throw.
  apply learns_pure_bind. intros [mls|] Hml; [|apply learns_throw]. apply learns_ret. intros i Hi Hsv _.
  exists template, pod_labels, ports, services, monitors, selected, monitor, e. done.
Qed.

Lemma blind_require_metrics n e requirements hint : blind (require_metrics request_timeout n e requirements hint : IO unit).
Proof. unfold require_metrics, get_raw. blind_auto. Qed.

(** The only element whose result is not empty *)
Lemma one_nonempty {A B} (R : A → list B → Prop) (l : list A) (rs : list (A * list B)) x ys :
  Forall2 (λ x r, r.1 = x ∧ R x r.2) l rs → keep (λ r, negb (bool_decide (r.2 = []))) rs = [(x, ys)] →
  ∃ pre post, l = pre ++ x :: post ∧ R x ys ∧ ys ≠ [] ∧ Forall (λ z, R z []) (pre ++ post).
Proof.
  induction 1 as [|z [z' zs] l rs [Hz Hr] Hl IH]; [done|]. simpl in Hz. subst z'. rewrite keep_cons. simpl.
  destruct (decide (zs = [])) as [->|Hne].
  - rewrite bool_decide_eq_true_2 by done. simpl. intros Hk. destruct (IH Hk) as (pre & post & -> & ? & ? & ?).
    exists (z :: pre), post. split_and!; [done..|]. by constructor.
  - rewrite bool_decide_eq_false_2 by done. simpl. intros [= -> -> Hk]. exists [], l. split_and!; [done..|].
    simpl. clear -Hl Hk. induction Hl as [|z [z' zs] l rs [Hz Hr] Hl IH]; [constructor|]. simpl in *.
    rewrite keep_cons in Hk. simpl in Hk. destruct (bool_decide_reflect (zs = [])); [|done]. subst.
    constructor; [done|by apply IH].
Qed.

(** What [find_monitor] has established *)
Definition monitored (candidates : list json) (node_names : list string) (r : option ExporterMonitor) (i : inventory) : Prop :=
  match r with
  | Some m => ∃ d pre post, candidates = pre ++ d :: post ∧ coverage d node_names (target_pods m) i ∧
      target_pods m ≠ [] ∧ scraped d (target_pods m) m i ∧
      Forall (λ other, coverage other node_names [] i) (pre ++ post)
  | None => candidates = []
  end.

Lemma learns_find_monitor candidates node_names n nd requirements hint :
  learns (find_monitor request_timeout candidates node_names n nd requirements hint : IO _)
    (λ r i, monitored candidates node_names r i).
Proof.
  eapply (learns_bind _ _ (λ rs i, Forall2 (λ d r, r.1 = d ∧ coverage d node_names r.2 i) candidates rs)).
  - intros rs i j Hij Hrs. eapply Forall2_impl; [exact Hrs|]. intros d r [? Hc]. split; [done|]. by eapply known_coverage.
  - apply learns_collect.
    { intros d r i j Hij [? Hc]. split; [done|]. by eapply known_coverage. }
    intros d _. eapply learns_bind; [|apply learns_coverage|]; [intros; apply known_coverage|].
    intros pods. by apply learns_ret.
  - intros rs. destruct (keep _ rs) as [|[d pods] [|]] eqn:Ek.
    + destruct candidates; [by apply learns_ret|]. apply learns_pure_bind. intros. apply learns_throw.
    + eapply learns_bind; [|apply learns_scraped|]; [intros; apply known_scraped|]. intros m.
      eapply learns_bind; [|apply learns_blind, blind_require_metrics|]; [by intros ? ? ?|]. intros ?.
      apply learns_ret. intros i _ Hs Hrs. pose proof Hs as (?&?&?&?&?&?&?&?&_&_&_&_&_&_&_&_&_&Htp). simpl. rewrite Htp.
      destruct (one_nonempty (λ d pods, coverage d node_names pods i) _ _ _ _ Hrs Ek) as (pre & post & -> & ? & ? & ?). by exists d, pre, post.
    + apply learns_pure_bind. intros. apply learns_throw.
Qed.

(** The endpoint served what is required. *)
Definition metrics_path (e : ExporterEndpoint) : string :=
  "/api/v1/namespaces/" +:+ namespace (service e) +:+ "/services/" +:+ scheme e +:+ ":" +:+ name (service e)
  +:+ ":" +:+ port e +:+ "/proxy" +:+ path e.
Definition metrics_seen (requirements : list MetricRequirement) (m : ExporterMonitor) (n : calls) : Prop :=
  ∃ r body families, (GetRaw (metrics_path (endpoint m)), r) ∈ n ∧ prints r body ∧ metric_families body = Ok families ∧
    ∀ q, q ∈ requirements → metric_served (concat families) q = true.

(** Any calls *)
Lemma any_cached {A} look store (fetch : IO A) : only (λ _, True) fetch → only (λ _, True) (cached look store fetch).
Proof. intros Hf. unfold cached. only_auto. Qed.
Lemma any_list (c : call) : only (λ _, True) (r ← run c; decode_resource_list r : IO _).
Proof. unfold decode_resource_list, decode_object. apply only_bind; [by apply only_run|]. only_auto. Qed.
Lemma any_api_resources group : only (λ _, True) (api_resource_names group : IO _).
Proof. unfold api_resource_names. apply only_bind; [by apply only_run_text|]. only_auto. Qed.
#[local] Hint Resolve any_cached any_list any_api_resources : only.
Lemma any_find_service_monitor d pods : only (λ _, True) (find_service_monitor d pods : IO _).
Proof.
  unfold find_service_monitor, monitoring_resources, services_in, service_monitors, list_all_resources, list_selected,
    list_resources, list_labelled. only_auto.
Qed.
Lemma any_pods d node_names : only (λ _, True) (daemonset_pods_on_nodes d node_names : IO _).
Proof. unfold daemonset_pods_on_nodes, pods_with, list_selected. only_auto. Qed.

Lemma emits_require_metrics n m requirements hint :
  emits (require_metrics request_timeout n (endpoint m) requirements hint : IO unit)
    (λ _ new, metrics_seen requirements m new) (λ _, True).
Proof.
  eapply emits_seq.
  { apply (emits_try _ _ (λ body new, ∃ r, new = [(GetRaw (metrics_path (endpoint m)), r)] ∧ prints r body)).
    - apply emits_pure_bind; [|done]. intros ? _. apply emits_run_text; [|done]. by eauto.
    - intros e k. destruct (deployment_error e); [|done]. intros [= <-]. by apply emits_throw. }
  intros body. apply emits_pure_bind; [|done]. intros samples Hs.
  destruct (m_name <$> _) eqn:Em; [|by apply emits_throw]. apply emits_ret. intros n0 (r & -> & Hp).
  unfold metric_samples in Hs. destruct (metric_families body) as [families|[]] eqn:Ef; try done. injection Hs as <-.
  exists r, body, families. split_and!; [set_solver|done..|]. intros q Hq.
  apply fmap_nil_inv in Em. rewrite keep_nil_Forall in Em. specialize (Em q Hq). by apply negb_false_iff in Em.
Qed.

Lemma emits_find_monitor candidates node_names n nd requirements hint :
  emits (find_monitor request_timeout candidates node_names n nd requirements hint : IO _)
    (λ r new, from_option (λ m, metrics_seen requirements m new) True r) (λ _, True).
Proof.
  eapply emits_seq.
  { eapply (emits_weaken _ _ (λ _ _, True)); [apply (only_collect (λ _, True))|done..]. intros d.
    apply only_bind; [apply any_pods|]. intros pods. apply only_ret. }
  intros rs. destruct (keep _ rs) as [|[d pods] [|]].
  - destruct candidates; [by apply emits_ret|]. apply emits_pure_bind; [|done]. intros. by apply emits_throw.
  - eapply (emits_seq _ _ (λ _ _, True)).
    { eapply emits_weaken; [apply any_find_service_monitor|done..]. }
    intros m. eapply emits_seq; [apply emits_require_metrics|]. intros u. apply emits_ret.
    intros n2 (r & body & families & ? & ? & ? & ?) n1 _ n0 _. exists r, body, families. split_and!; [|done..]. set_solver.
  - apply emits_pure_bind; [|done]. intros. by apply emits_throw.
Qed.

(** The nodes are covered by the Pods of one DaemonSet. *)
Lemma coverage_runs d node_names pods i :
  coverage d node_names pods i → pods ≠ [] →
  ∃ ns uid selector all, daemonset_selector d = Ok (Some (ns, uid, selector)) ∧ dget selector (i_pods i) = Some all ∧
    (∀ node, node ∈ node_names → ∃ n, runs_on ns uid all node n ∧ (n ≠ "" → n ∈ pods)) ∧
    (∀ n, n ∈ pods → ∃ node, node ∈ node_names ∧ runs_on ns uid all node n).
Proof.
  intros [[_ ->]|(ns & uid & selector & all & ready & Hs & Hall & Hr & ->)] Hne; [done|].
  destruct (covering_spec _ _ Hne) as (Hn & Hp & _). exists ns, uid, selector, all. split_and!; [done..| |].
  - intros node Hin. destruct (Hn node Hin) as (n & Hd & Hc). exists n. split; [|done]. by eapply ready_pods_runs.
  - intros n Hin. destruct (Hp n Hin) as (node & ? & ?). exists node. split; [done|]. by eapply ready_pods_runs.
Qed.
End Discovery.

(** The exporter that discovery returns belongs to a DaemonSet among the
    candidates whose owned ready Pods run on every device node, its target Pods are
    exactly such Pods, no other candidate covers the nodes, one single
    ServiceMonitor endpoint leads to a Service selecting its Pods, and this endpoint
    answered with all required metrics.  All this holds of the lists the discovery
    has fetched, which it never replaces. *)
Theorem found_monitor_covers {C : Type} `{Kubectl C} `{PythonRepr} `{Printer} `{MetricsParser} request_timeout
    candidates node_names n nd requirements hint (w w' : world C inventory) m :
  find_monitor request_timeout candidates node_names n nd requirements hint w = (Returned (Some m), w') →
  within (self w) (self w') ∧
  (∃ d pre post ns uid selector pods,
     candidates = pre ++ d :: post ∧ daemonset_selector d = Ok (Some (ns, uid, selector)) ∧
     dget selector (i_pods (self w')) = Some pods ∧
     (∀ node, node ∈ node_names → ∃ p, runs_on ns uid pods node p ∧ (p ≠ "" → p ∈ target_pods m)) ∧
     (∀ p, p ∈ target_pods m → ∃ node, node ∈ node_names ∧ runs_on ns uid pods node p) ∧
     Forall (λ other, coverage other node_names [] (self w')) (pre ++ post) ∧
     scraped d (target_pods m) m (self w')) ∧
  ∃ new, trace w' = new ++ trace w ∧ metrics_seen requirements m new.
Proof.
  intros Hrun. destruct (learns_find_monitor request_timeout candidates node_names n nd requirements hint w) as [Hw Hq].
  destruct (emits_find_monitor request_timeout candidates node_names n nd requirements hint w) as (new & Hn & Hm).
  rewrite Hrun in *. simpl in *. destruct Hq as (d & pre & post & -> & Hc & Hne & Hs & Hothers).
  destruct (coverage_runs _ _ _ _ Hc Hne) as (ns & uid & selector & pods & Hsel & Hp & Hcov & Hpods).
  split; [done|]. split; [|by eauto]. exists d, pre, post, ns, uid, selector, pods. done.
Qed.

(** ** Targets *)

(** A result of the query reports the value [v] for the Pod. *)
Definition reported `{PythonRepr} (results : list json) (pod v : string) : Prop :=
  ∃ i metric t x, JObj i ∈ results ∧ field "metric" i = JObj metric ∧ field "pod" metric = JStr pod ∧
                  field "value" i = JArr [t; x] ∧ v = str_of x.
(** Every Pod is reported, and only as up. *)
Definition all_up `{PythonRepr} (pods : list string) (results : list json) : Prop :=
  ∀ pod, pod ∈ pods → (∃ v, reported results pod v) ∧ ∀ v, reported results pod v → v = "1".

Section Targets.
Context `{PythonRepr}.

Lemma note_value_spec values item values' :
  note_value values item = Ok values' →
  values'.*1 = values.*1 ∧
  ∀ pod l, dget pod values = Some l → ∃ l', dget pod values' = Some l' ∧
    ∀ v, v ∈ l' ↔ v ∈ l ∨ reported [item] pod v.
Proof.
  assert (∀ (vs : list (string * list string)) k l x, dget k vs = Some l → (dset k x vs).*1 = vs.*1) as Hkeys.
  { intros vs k l x. induction vs as [|[k1 l1] vs IH]; simpl; [done|].
    destruct (eqb k1 k) eqn:E; [done|]. intros Hd. simpl. f_equal. by apply IH. }
  assert ((∀ pod v, ¬ reported [item] pod v) → values' = values →
    values'.*1 = values.*1 ∧ ∀ pod l, dget pod values = Some l → ∃ l', dget pod values' = Some l' ∧
      ∀ v, v ∈ l' ↔ v ∈ l ∨ reported [item] pod v) as Hskip.
  { intros Hno ->. split; [done|]. intros pod l Hl. exists l. naive_solver. }
  unfold note_value. destruct item as [| | | | | |i]; try done.
  destruct (field "metric" i) as [| | | | | |metric] eqn:Em;
    try (intros [= <-]; apply Hskip; [intros pod v (i' & ? & ? & ? & [= <-]%list_elem_of_singleton & ? & _); congruence|done]).
  destruct (field "value" i) as [| | | | |[|t [|x [|]]]|] eqn:Ev;
    try (intros [= <-]; apply Hskip; [intros pod v (i' & ? & ? & ? & [= <-]%list_elem_of_singleton & ? & ? & ? & _); congruence|done]).
  destruct (field "pod" metric) as [| | | |pod| |] eqn:Ep; try done;
    try (intros [= <-]; apply Hskip; [intros pod v (i' & m' & ? & ? & [= <-]%list_elem_of_singleton & ? & ? & _); congruence|done]).
  assert (∀ pod' v, reported [JObj i] pod' v ↔ pod' = pod ∧ v = str_of x) as Hrep.
  { intros pod' v. split.
    - intros (i' & m' & t' & x' & [= <-]%list_elem_of_singleton & ? & ? & ? & ->). split; congruence.
    - intros [-> ->]. exists i, metric, t, x. split_and!; [set_solver|done..]. }
  destruct (dget pod values) as [l|] eqn:El; intros [= <-].
  - split; [by eapply Hkeys|]. intros pod' l' Hl'. rewrite dget_dset.
    destruct (eqb pod pod') eqn:E; reflect_in E.
    + subst. exists (l ++ [str_of x]). split; [done|]. intros v. rewrite elem_of_app, Hrep, list_elem_of_singleton. naive_solver.
    + exists l'. split; [done|]. intros v. rewrite Hrep. naive_solver.
  - split; [done|]. intros pod' l' Hl'. exists l'. split; [done|]. intros v. rewrite Hrep.
    destruct (decide (pod' = pod)) as [->|]; [congruence|naive_solver].
Qed.

Lemma reported_app a b pod v : reported (a ++ b) pod v ↔ reported a pod v ∨ reported b pod v.
Proof.
  split.
  - intros (i & m & t & x & [Hi|Hi]%elem_of_app & ?); [left|right]; by exists i, m, t, x.
  - intros [(i & m & t & x & Hi & ?)|(i & m & t & x & Hi & ?)]; exists i, m, t, x; (split; [|done]); apply elem_of_app; auto.
Qed.

Lemma note_values_spec results values values' :
  outcome_fold note_value values results = Ok values' →
  values'.*1 = values.*1 ∧
  ∀ pod l, dget pod values = Some l → ∃ l', dget pod values' = Some l' ∧
    ∀ v, v ∈ l' ↔ v ∈ l ∨ reported results pod v.
Proof.
  revert values. induction results as [|item results IH]; intros values; simpl.
  { intros [= <-]. split; [done|]. intros pod l Hl. exists l. split; [done|]. intros v. split; [by left|].
    intros [?|(? & ? & ? & ? & []%not_elem_of_nil & _)]; done. }
  intros (values1 & H1 & H2)%outcome_bind_Ok. destruct (note_value_spec _ _ _ H1) as [Hk1 Hv1].
  destruct (IH _ H2) as [Hk2 Hv2]. split; [by rewrite Hk2|]. intros pod l Hl.
  destruct (Hv1 pod l Hl) as (l1 & Hl1 & Hin1). destruct (Hv2 pod l1 Hl1) as (l2 & Hl2 & Hin2).
  exists l2. split; [done|]. intros v. rewrite Hin2, Hin1. rewrite (reported_app [item] results). naive_solver.
Qed.

(** The verdict on the Pods of an exporter *)
Lemma target_failure_spec pods results r :
  NoDup pods → target_failure pods results = Ok r → r = None ↔ all_up pods results.
Proof.
  intros Hnd (values & Hv & Hr)%outcome_bind_Ok. destruct (note_values_spec _ _ _ Hv) as [Hk Hd].
  rewrite <-list_fmap_compose in Hk. change (fst ∘ _) with (λ x : string, x) in Hk. rewrite list_fmap_id in Hk.
  assert (r = None ↔ ∀ e, e ∈ values → e.2 ≠ [] ∧ ∀ v, v ∈ e.2 → v = "1") as ->.
  { injection Hr as <-. set (missing := (keep _ values).*1). set (down := (keep _ values).*1).
    assert (missing = [] ↔ ∀ e, e ∈ values → e.2 ≠ []) as Hm.
    { unfold missing. split.
      - intros Hm%fmap_nil_inv e He. rewrite keep_nil_Forall in Hm. specialize (Hm e He). by apply bool_decide_eq_false in Hm.
      - intros Hm. rewrite (proj2 (keep_nil_Forall _ _)); [done|]. intros e He. apply bool_decide_eq_false. auto. }
    assert (down = [] ↔ ∀ e, e ∈ values → ∀ v, v ∈ e.2 → v = "1") as Hdn.
    { unfold down. split.
      - intros Hx%fmap_nil_inv e He v Hin. rewrite keep_nil_Forall in Hx. specialize (Hx e He). reflect_in Hx.
        specialize (Hx v Hin). by reflect_in Hx.
      - intros Hx. rewrite (proj2 (keep_nil_Forall _ _)); [done|]. intros e He. reflect_goal. intros v Hin. reflect_goal. eauto. }
    destruct missing, down; naive_solver. }
  assert (∀ pod, pod ∈ pods → ∃ l, dget pod values = Some l ∧ ∀ v, v ∈ l ↔ reported results pod v) as Hall.
  { intros pod Hp. destruct (Hd pod []) as (l & Hl & Hin).
    { apply elem_dget; [|by apply list_elem_of_fmap; exists pod].
      rewrite <-list_fmap_compose. change (fst ∘ _) with (λ x : string, x). by rewrite list_fmap_id. }
    exists l. split; [done|]. intros v. rewrite Hin. pose proof (not_elem_of_nil v). naive_solver. }
  split.
  - intros Hok pod Hp. destruct (Hall pod Hp) as (l & Hl & Hin). destruct (Hok _ (dget_elem _ _ _ Hl)) as [Hne H1]. simpl in *.
    split; [|naive_solver]. destruct l as [|v l]; [done|]. exists v. apply Hin. left.
  - intros Hup [pod l] He. simpl. assert (pod ∈ pods) as Hp by (rewrite <-Hk; apply list_elem_of_fmap; by exists (pod, l)).
    destruct (Hall pod Hp) as (l' & Hl & Hin). assert (l = l') as ->.
    { apply elem_dget in He; [congruence|by rewrite Hk]. }
    destruct (Hup pod Hp) as [[v Hv1] H1]. split; [|naive_solver]. apply Hin in Hv1. intros ->. by apply not_elem_of_nil in Hv1.
Qed.
End Targets.

Section Waiting.
Context {C : Type} `{Kubectl C} `{PythonRepr}.
Abbreviation IO := (IO (world C inventory)).
Variable request_timeout : string.
Variable cancelled : nat → option exn.
Variable p : PrometheusRef.

(** The query was answered with these results through a Service of the Prometheus. *)
Definition answered (expression : string) (results : list json) (n : calls) : Prop :=
  ∃ service port payload,
    (GetRaw ("/api/v1/namespaces/" +:+ p_namespace p +:+ "/services/http:" +:+ service +:+ ":" +:+ port
             +:+ "/proxy/api/v1/query" +:+ "?query=" +:+ quote expression), Output (Some payload)) ∈ n ∧
    query_result p payload = Ok results.
Lemma lasting_answered expression results : lasting (answered expression results).
Proof. unfold answered. auto 20 with lasting. Qed.

(** The target Pods are a set. *)
Definition seen_up (e : ExporterMonitor) (n : calls) : Prop :=
  ∃ results, answered (up_expression (endpoint e)) results n ∧ (NoDup (target_pods e) → all_up (target_pods e) results).
Lemma lasting_seen_up e : lasting (seen_up e).
Proof. unfold seen_up. apply lasting_ex. intros r. apply lasting_and; [apply lasting_answered|apply lasting_const]. Qed.

Lemma emits_query expression limit :
  emits (prometheus_query p expression limit None : IO _) (λ r n, answered expression r n) (λ _, True).
Proof.
  eapply (emits_seq _ _ (λ api _, ∃ service port, api = "/api/v1/namespaces/" +:+ p_namespace p
    +:+ "/services/http:" +:+ service +:+ ":" +:+ port +:+ "/proxy/api/v1/query")).
  { eapply emits_seq; [apply emits_list|]. intros services. apply emits_pure_bind; [|done]. intros found _.
    cbv zeta. match goal with |- emits (match ?l with _ => _ end) _ _ => destruct l as [|[service port] [|]] end;
      try by apply emits_throw.
    apply emits_ret. intros n _. by exists service, port. }
  intros api. apply (emits_seq _ _ (λ r n, ∀ j, r = Some (Some j) →
    (GetRaw (api +:+ "?query=" +:+ quote expression), Output (Some j)) ∈ n)).
  { apply emits_pure_bind; [|done]. intros ? _. apply emits_run; [|done..]. intros v j [= ->]. left. }
  intros [[payload|]|]; [|by apply emits_throw..].
  apply emits_pure; [|done]. intros r Hr n1 Hn1 n0 (service & port & ->). exists service, port, payload.
  split; [|done]. rewrite !append_assoc in Hn1. rewrite elem_of_app. left. by apply Hn1.
Qed.

Lemma emits_check_target timeout deadline e :
  emits (check_target request_timeout cancelled p timeout deadline e : IO _) (λ r n, r = None → seen_up e n) (λ _, True).
Proof.
  apply (emits_seq _ _ (λ _ _, True)).
  { destruct (Qle_bool timeout 0); [by apply emits_ret|]. apply (emits_seq _ _ (λ _ _, True)); [by apply emits_now|].
    intros t. by apply emits_ret. }
  intros limit.
  apply (emits_seq _ _ (λ r n, ∀ results, r = inl results → answered (up_expression (endpoint e)) results n)).
  { apply emits_recover.
    - eapply emits_seq; [apply emits_query|]. intros r. apply emits_ret. by intros n Hn results [= <-].
    - intros exn k. destruct exn; try done. intros [= <-].
      apply (emits_seq _ _ (λ _ _, True)).
      { unfold check_execution. apply (emits_seq _ _ (λ _ _, True)); [by apply emits_ask|].
        intros [|]; [by apply emits_throw|by apply emits_ret]. }
      intros u. destruct (Qle_bool timeout 0); [by apply emits_throw|]. apply emits_ret. by intros. }
  intros [results|m]; [|apply emits_ret; by intros].
  apply emits_pure; [|done]. intros r Hr n1 Hn1 n0 _ ->. exists results.
  split; [by apply (lasting_answered _ _ []); apply Hn1|]. intros Hnd. by apply (target_failure_spec _ _ None).
Qed.

Lemma emits_check_targets timeout deadline (pending : list (string * ExporterMonitor)) :
  emits (check_targets request_timeout cancelled p timeout deadline pending : IO _)
    (λ failed n, ∀ e, e ∈ pending → e ∈ failed.*1 ∨ seen_up e.2 n) (λ _, True).
Proof.
  eapply emits_seq.
  - apply (emits_collect (λ e r n, match r with Some f => f.1 = e | None => seen_up e.2 n end)).
    + intros e [f|]; [apply lasting_const|apply lasting_seen_up].
    + intros e He. eapply emits_seq; [apply emits_check_target|]. intros [m|]; apply emits_ret; [done|]. intros n Hs. by apply Hs.
  - intros found. apply emits_ret. intros n Hf e He. apply list_elem_of_lookup in He as [i Hi].
    destruct (Forall2_lookup_l _ _ _ _ _ Hf Hi) as ([f|] & Hr & Hx); [left|by right]. subst e.
    apply list_elem_of_fmap. exists f. split; [done|]. apply elem_of_omap_id. by eapply list_elem_of_lookup_2.
Qed.

Lemma emits_targets fuel exporters timeout :
  emits (require_prometheus_targets request_timeout cancelled fuel p exporters timeout : IO unit)
    (λ _ n, ∀ e, e ∈ exporters → seen_up e.2 n) (λ _, True).
Proof.
  apply (emits_seq _ _ (λ _ _, True)); [by apply emits_now|]. intros t.
  apply (emits_weaken _ (λ _ n, ∀ e, e ∈ exporters → seen_up e.2 n) _ (λ _, True));
    [|intros u n Hn n0 _ e He; rewrite <-(app_nil_l (n ++ n0)); apply lasting_seen_up, Hn, He|done].
  apply (emits_forever (λ pending n, ∀ e, e ∈ exporters → e ∈ pending ∨ seen_up e.2 n)); [|by left].
  intros pending. destruct pending as [|e0 pending].
  { apply emits_ret. intros n0 Hi e He. destruct (Hi e He) as [[]%not_elem_of_nil|]; done. }
  eapply emits_seq; [apply emits_check_targets|]. intros failed.
  assert (∀ n1 n0, (∀ e, e ∈ e0 :: pending → e ∈ failed.*1 ∨ seen_up e.2 n1) →
    (∀ e, e ∈ exporters → e ∈ e0 :: pending ∨ seen_up e.2 n0) →
    ∀ e, e ∈ exporters → e ∈ failed.*1 ∨ seen_up e.2 (n1 ++ n0)) as Hstep.
  { intros n1 n0 H1 H0' e He. destruct (H0' e He) as [Hp|Hs].
    - destruct (H1 e Hp) as [|Hs]; [by left|right]. by apply (lasting_seen_up _ []).
    - right. rewrite <-(app_nil_r n0). by apply lasting_seen_up. }
  destruct failed as [|f failed].
  { apply emits_ret. intros n1 H1 n0 H0' e He. destruct (Hstep n1 n0 H1 H0' e He) as [[]%not_elem_of_nil|]; done. }
  apply (emits_seq _ _ (λ _ n, n = [])); [by apply emits_now|]. intros t1.
  destruct (Qle_bool _ t1); [by apply emits_throw|].
  apply (emits_seq _ _ (λ _ n, n = [])); [by apply emits_now|]. intros t2.
  apply emits_ret. intros ? -> ? -> n1 H1 n0 H0'. simpl. by apply Hstep.
Qed.

Lemma query_settles expression limit : settles (λ _, prometheus_query p expression limit None : IO _).
Proof.
  unfold prometheus_query, prometheus_api_path, get_raw_json, list_resources, list_labelled, decode_resource_list, decode_object. settles_auto.
Qed.
Lemma late_query k expression limit : stable (late k) (prometheus_query p expression limit None : IO _).
Proof.
  unfold prometheus_query, prometheus_api_path, get_raw_json, list_resources, list_labelled, decode_resource_list, decode_object. late_auto.
Qed.
#[local] Hint Resolve query_settles : settles.
#[local] Hint Resolve late_query : stable.
Lemma check_targets_settles timeout deadline pending :
  settles (λ _, check_targets request_timeout cancelled p timeout deadline pending : IO _).
Proof. unfold check_targets, check_target, check_execution. settles_auto. Qed.
Lemma late_check_targets k timeout deadline pending :
  stable (late k) (check_targets request_timeout cancelled p timeout deadline pending : IO _).
Proof. unfold check_targets, check_target, check_execution. late_auto. Qed.
#[local] Hint Resolve check_targets_settles : settles.
#[local] Hint Resolve late_check_targets : stable.

(** The wait ends. *)
Lemma targets_settle exporters timeout : clock_passes →
  settles (λ fuel, require_prometheus_targets request_timeout cancelled fuel p exporters timeout : IO unit).
Proof.
  intros clock. unfold require_prometheus_targets. settles_auto. deadline_loop clock.
Qed.
End Waiting.

(** Waiting for the targets of a Prometheus reaches a result on every cluster
    as long as the clock passes every deadline, however often it answers that the
    service is unavailable; and it returns only when for every exporter the
    Prometheus answered, during this wait, a query for exactly its endpoint in which
    every target Pod was reported, and never with a value other than up. *)
Theorem targets_waited_for {C : Type} `{Kubectl C} `{PythonRepr} request_timeout cancelled (p : PrometheusRef)
    exporters (timeout : Q) (w : world C inventory) :
  (clock_passes → ∃ n r w', r ≠ Unfinished ∧ ∀ fuel, (n ≤ fuel)%nat →
     require_prometheus_targets request_timeout cancelled fuel p exporters timeout w = (r, w')) ∧
  (∀ fuel w', require_prometheus_targets request_timeout cancelled fuel p exporters timeout w = (Returned tt, w') →
     ∃ new, trace w' = new ++ trace w ∧
       ∀ e, e ∈ exporters → NoDup (target_pods e.2) →
         ∃ results, answered p (up_expression (endpoint e.2)) results new ∧ all_up (target_pods e.2) results).
Proof.
  split; [intros clock; by apply targets_settle|]. intros fuel w' Hrun.
  destruct (emits_targets request_timeout cancelled p fuel exporters timeout w) as (new & Hn & HQ).
  rewrite Hrun in *. exists new. split; [done|]. intros e He Hnd. destruct (HQ e He) as (results & Ha & Hup). eauto.
Qed.
