(* ===== verification/Accelerators.v ===== *)
(** * Accelerator adapters ([accelerators/nvidia.py], [accelerators/metax.py])

    What an adapter tells discovery about its devices ([Accelerator]), the choice
    of an existing exporter or of a placement for a managed one, and the lifecycle
    of the packaged mxExporter. *)

From Stdlib Require Import Ascii.
From S2P Require Import Prelude Text Kube Effects Client Prometheus Exporters.

(** ** Adapters *)

(** [kubernetes.utils.quantity.parse_quantity] *)
Class Quantity := parse_quantity : json → outcome Q.

(** [parse_quantity(value) > 0], [False] for values without a quantity *)
Definition quantity_positive `{Quantity} (value : json) : outcome bool :=
  match parse_quantity value with
  | Ok q => Ok (negb (Qle_bool q 0))
  | Raise (TypeError _) | Raise (ValueError _) => Ok false
  | Raise e => Raise e
  end.

(** The class attributes and abstract methods of [AcceleratorMetricsDiscovery] *)
Record Accelerator := Adapter {
  exporter_name : string;
  node_description : string;
  metric_requirements : list MetricRequirement;
  metrics_repair_hint : string;
  has_capacity : json → outcome bool;
  is_exporter : json → outcome bool;
}.

(** Name and labels of a DaemonSet *)
Definition name_and_labels `{PythonRepr} (value : json) : outcome (string * json) :=
  metadata ← child "metadata" value;
  ls ← child "labels" metadata;
  n ← text_at "name" metadata;
  Ok (n, ls).

Definition allocatable (node : json) : outcome json :=
  status ← child "status" node; child "allocatable" status.

Definition NVIDIA_GPU_RESOURCE : string := "nvidia.com/gpu".
Definition METAX_GPU_RESOURCES : list string := ["metax-tech.com/gpu"; "metax-tech.com/sgpu"].

Section Adapters.
Context `{PythonRepr} `{Quantity}.

(** [NvidiaMetricsDiscovery.has_capacity] and [MetaXMetricsDiscovery.has_capacity] *)
Definition nvidia_has_capacity (node : json) : outcome bool :=
  a ← allocatable node; value ← get NVIDIA_GPU_RESOURCE a; quantity_positive value.
Definition metax_has_capacity (node : json) : outcome bool :=
  a ← allocatable node;
  any_of (λ r, match r with
               | JStr r => value ← get r a; quantity_positive value
               | _ => Ok false
               end) (JStr <$> METAX_GPU_RESOURCES).

(** [is_exporter] of both *)
Definition nvidia_is_exporter (value : json) : outcome bool :=
  '(n, ls) ← name_and_labels value;
  match ls with
  | JObj ls =>
      if eqb n "nvidia-dcgm-exporter" || label_is ls "app.kubernetes.io/name" "dcgm-exporter" then Ok true
      else in_set (field "app" ls) [JStr "dcgm-exporter"; JStr "nvidia-dcgm-exporter"]
  | _ => Ok false
  end.
Definition metax_is_exporter (value : json) : outcome bool :=
  '(n, ls) ← name_and_labels value;
  Ok match ls with
     | JObj ls =>
         eqb n "mx-exporter" || label_is ls "app.kubernetes.io/name" "mx-exporter" || label_is ls "app" "mx-exporter"
     | _ => false
     end.

Definition nvidia : Accelerator := Adapter "DCGM Exporter" "every NVIDIA GPU node"
  [Metric "DCGM_FI_DEV_GPU_UTIL" ["UUID"]; Metric "DCGM_FI_DEV_FB_USED" ["UUID"]; Metric "DCGM_FI_DEV_FB_FREE" ["UUID"]]
  "enable device access and the Foretoken DCGM metric set on the exporter"
  nvidia_has_capacity nvidia_is_exporter.
Definition metax : Accelerator := Adapter "mxExporter" "every MetaX GPU node"
  [Metric "mx_gpu_usage" ["deviceId"; "uuid"]; Metric "mx_memory_usage" ["deviceId"; "type"; "uuid"]]
  "configure the official exporter with GPU access, pod-resources and sysfs mounts, and the mx_gpu_usage and mx_memory_usage counters"
  metax_has_capacity metax_is_exporter.

(** ** Placement of a managed DCGM exporter *)

(** The names of the nodes that satisfy a condition *)
Definition node_names_where (p : json → outcome bool) (ns : list json) : outcome (list string) :=
  l ← filter_outcome p ns;
  names ← outcome_map object_name l;
  Ok (keep nonempty names).

(** [gpu_node_names] *)
Definition gpu_node_names (ns : list json) : outcome (list string) :=
  names ← node_names_where nvidia_has_capacity ns; Ok (sort_by id names).

(** [node_label] *)
Definition node_label (key : string) (node : json) : outcome string :=
  metadata ← child "metadata" node;
  ls ← child "labels" metadata;
  if is_dict ls then text_at key ls else Ok "".

(** [a == b] of sets *)
Definition same_set (a b : list string) : bool := forallb (λ x, mem x b) a && forallb (λ x, mem x a) b.

(** The loop over the labels of [managed_node_selector] *)
Fixpoint exact_label (candidates : list string) (ns : list json) (gpu : list string) : outcome (string * string) :=
  match candidates with
  | [] => Raise (DeploymentError "NVIDIA GPU nodes need a GPU-only label before Foretoken can install DCGM Exporter; use nvidia.com/gpu.present=true or feature.node.kubernetes.io/pci-10de.present=true")
  | l :: candidates =>
      selected ← node_names_where (λ n, v ← node_label l n; Ok (eqb v "true")) ns;
      if same_set selected gpu then Ok (l, "true") else exact_label candidates ns gpu
  end.

(** [managed_node_selector] *)
Definition managed_node_selector (ns : list json) (gpu : list string) : outcome (option (string * string)) :=
  schedulable ← node_names_where (λ _, Ok true) ns;
  if same_set schedulable gpu then Ok None else
  l ← exact_label ["nvidia.com/gpu.present"; "feature.node.kubernetes.io/pci-10de.present"] ns gpu;
  Ok (Some l).

(** *** The device plugin *)

(** [text.split(c, 1)[0]] and [text.rsplit(c, 1)[-1]] *)
Definition before (c : ascii) (s : string) : string := match partition c s with Some (a, _) => a | None => s end.
Definition after_last (c : ascii) (s : string) : string := match rpartition c s with Some (_, b) => b | None => s end.

(** [is_plugin] for a container of a DaemonSet *)
Definition is_plugin (value container : json) : outcome bool :=
  command ← get_or "command" (JArr []) container;
  image ← index "image" container;
  image ← as_text image;
  let image := after_last "/" (before "@" image) in
  own ← object_name value;
  standard ← (if eqb own "nvidia-device-plugin-daemonset"
              then n ← index "name" container; Ok (is_str "nvidia-device-plugin-ctr" n) else Ok false);
  if (standard : bool) then Ok true else
  if truthy command
  then c ← first_item command; c ← as_text c; Ok (eqb (after_last "/" c) "nvidia-device-plugin")
  else Ok (eqb (before ":" image) "k8s-device-plugin").

(** The containers of a DaemonSet *)
Definition template_containers (value : json) : outcome (list json) :=
  spec ← index "spec" value;
  template ← index "template" spec;
  pod_spec ← index "spec" template;
  containers ← index "containers" pod_spec;
  elements containers.

(** The loop over the environment of the plugin *)
Fixpoint visible_value (env : list json) : outcome (option string) :=
  match env with
  | [] => Ok (Some "all")
  | entry :: env =>
      n ← index "name" entry;
      if negb (is_str "NVIDIA_VISIBLE_DEVICES" n) then visible_value env else
      value ← get "value" entry;
      match value with
      | JNull => Ok None
      | JStr s => Ok (if contains "$(" s then None else Some s)
      | _ => Raise (TypeError "argument is not iterable")
      end
  end.
End Adapters.

Section Discovery.
Context {C : Type} `{Kubectl C} `{PythonRepr} `{Printer} `{MetricsParser} `{Quantity}.
Abbreviation IO := (IO (world C inventory)).
Variable request_timeout : string.

(** ** [AcceleratorMetricsDiscovery] *)

Definition accelerator_nodes (a : Accelerator) : IO (list json) :=
  ns ← nodes; pure (filter_outcome (has_capacity a) ns).
Definition exporter_candidates (a : Accelerator) : IO (list json) :=
  ds ← daemonsets; pure (filter_outcome (is_exporter a) ds).
Definition find_accelerator_monitor (a : Accelerator) (node_names : list string) : IO (option ExporterMonitor) :=
  candidates ← exporter_candidates a;
  find_monitor request_timeout candidates node_names (exporter_name a) (node_description a)
    (metric_requirements a) (metrics_repair_hint a).

(** Exporters beside the managed one are refused. *)
Definition refuse_external (a : Accelerator) (managed : ResourceRef) : IO unit :=
  candidates ← exporter_candidates a;
  refs ← pure (outcome_map resource_ref candidates);
  match keep (λ r, negb (eqb r managed)) refs with
  | [] => mret tt
  | external =>
      throw (DeploymentError ("a CLI-managed " +:+ exporter_name a +:+ " cannot coexist with another exporter: "
               +:+ join ", " ((λ r, namespace r +:+ "/" +:+ display_name r) <$> external)))
  end.

(** ** NVIDIA *)

Record NvidiaMetrics := Nvidia {
  nv_exporter : option ExporterMonitor;
  nv_node_selector : option (string * string);
  nv_visible_devices : option string;
}.

(** [_visible_devices] *)
Definition covering_plugins (gpu : list string) (value : json) : IO (list json) :=
  containers ← pure (template_containers value);
  found ← Effects.collect (λ container,
    plugin ← pure (is_plugin value container);
    if negb plugin then mret None else
    pods ← daemonset_pods_on_nodes value (distinct gpu);
    mret (if bool_decide (pods = []) then None else Some container)) containers;
  mret (omap id found).
Definition visible_devices (gpu : list string) : IO (option string) :=
  ds ← daemonsets;
  plugins ← Effects.collect (covering_plugins gpu) ds;
  match concat plugins with
  | [plugin] => pure (env ← get_or "env" (JArr []) plugin; env ← elements env; visible_value env)
  | _ => mret None
  end.

(** [NvidiaMetricsDiscovery.resolve] *)
Definition schedulable (node : json) : outcome bool :=
  spec ← child "spec" node; u ← get "unschedulable" spec; Ok (negb (truthy u)).
Definition managed_placement (ns : list json) (gpu : list string) : IO NvidiaMetrics :=
  selector ← pure (managed_node_selector ns gpu);
  visible ← visible_devices gpu;
  mret (Nvidia None selector visible).
Definition resolve_nvidia (managed : option ResourceRef) : IO (option NvidiaMetrics) :=
  ns ← nodes;
  ns ← pure (filter_outcome schedulable ns);
  gpu ← pure (gpu_node_names ns);
  match gpu, managed with
  | [], _ => mret None
  | _, Some managed =>
      refuse_external nvidia managed ;;
      m ← managed_placement ns gpu; mret (Some m)
  | _, None =>
      monitor ← find_accelerator_monitor nvidia (distinct gpu);
      match monitor with
      | Some m => mret (Some (Nvidia (Some m) None None))
      | None => m ← managed_placement ns gpu; mret (Some m)
      end
  end.

(** ** MetaX *)

Record MetaXMetrics := MetaX {
  mx_node_names : list string;
  mx_exporter : option ExporterMonitor;
}.

(** [MetaXMetricsDiscovery.resolve] *)
Definition resolve_metax (managed : option ResourceRef) : IO (option MetaXMetrics) :=
  ns ← accelerator_nodes metax;
  names ← pure (outcome_map object_name ns);
  let gpu := sort_by id (keep nonempty names) in
  match gpu, managed with
  | [], _ => mret None
  | _, Some managed => refuse_external metax managed ;; mret (Some (MetaX gpu None))
  | _, None =>
      monitor ← find_accelerator_monitor metax (distinct gpu);
      mret (Some (MetaX gpu monitor))
  end.
End Discovery.

(** ** The packaged mxExporter ([MetaXExporterLifecycle]) *)

Record package := Package {
  x_namespace_document : json;
  x_namespace : string;
  x_workloads : list json;
  x_daemonset : ResourceRef;
  x_resources : list ResourceRef;
}.

Definition has_kind (k : string) (document : json) : outcome bool := v ← index "kind" document; Ok (is_str k v).
(** [next(doc for doc in documents if doc["kind"] == k)] *)
Definition next_of_kind (k : string) (documents : list json) : outcome json :=
  d ← find_first (has_kind k) documents;
  match d with Some d => Ok d | None => Raise StopIteration end.

(** [MetaXExporterLifecycle.__init__] on the documents of mx-exporter.yaml *)
Definition open_package (documents : list json) : outcome package :=
  namespace_document ← next_of_kind "Namespace" documents;
  metadata ← index "metadata" namespace_document;
  ns ← index "name" metadata;
  ns ← as_text ns;
  workloads ← filter_outcome (λ d, b ← has_kind "Namespace" d; Ok (negb b)) documents;
  workloads ← outcome_map (edit_metadata (set_key "namespace" (JStr ns))) workloads;
  ds ← next_of_kind "DaemonSet" workloads;
  ds ← resource_ref ds;
  refs ← outcome_map resource_ref workloads;
  Ok (Package namespace_document ns workloads ds refs).

Section Lifecycle.
(** [select_platform_oci_reference], which probes the public registries *)
Variable select_reference : string → outcome string.
Variable pkg : package.
Variable management_label : string * string.
Variable image image_registry : option string.

(** [platform_image_reference] of downloads/sources.py *)
Definition platform_image_reference (reference : string) (registry : option string) : outcome string :=
  match registry with
  | Some registry =>
      let repository := match partition "/" reference with
                        | Some (first, path) =>
                            if has_char "." first || has_char ":" first || eqb first "localhost" then path else reference
                        | None => reference
                        end in
      Ok (registry +:+ "/" +:+ repository)
  | None => select_reference reference
  end.

(** [_owned] *)
Definition owned (document : json) : outcome bool :=
  metadata ← index "metadata" document;
  ls ← child "labels" metadata;
  v ← get management_label.1 ls;
  Ok (is_str management_label.2 v).

(** [d.update(items)] of a document field *)
Definition update_object (items : list (string * string)) (d : json) : outcome json :=
  outcome_fold (λ d e, set_key e.1 (JStr e.2) d) d items.

(** The node affinity of the exporter *)
Definition node_affinity (node_names : list string) : json :=
  JObj [("nodeAffinity", JObj [("requiredDuringSchedulingIgnoredDuringExecution", JObj [("nodeSelectorTerms",
    JArr ((λ n, JObj [("matchFields", JArr [JObj [("key", JStr "metadata.name"); ("operator", JStr "In");
                                                   ("values", JArr [JStr n])]])]) <$> node_names))])])].

(** [container = pod_spec["containers"][0]; container["image"] = ...] *)
Definition edit_first (f : json → outcome json) (j : json) : outcome json :=
  match j with
  | JArr (x :: l) => x' ← f x; Ok (JArr (x' :: l))
  | JArr [] => Raise IndexError
  | _ => Raise (TypeError "object is not subscriptable")
  end.
Definition set_image (container : json) : outcome json :=
  reference ← match image with
              | Some image => Ok image
              | None => v ← index "image" container; v ← as_text v; platform_image_reference v image_registry
              end;
  set_key "image" (JStr reference) container.
Definition place (node_names : list string) (document : json) : outcome json :=
  edit_key "spec" (edit_key "template" (edit_key "spec" (λ pod_spec,
    pod_spec ← set_key "affinity" (node_affinity node_names) pod_spec;
    edit_key "containers" (edit_first set_image) pod_spec))) document.

(** One turn of the loop of [install] *)
Definition prepare_document (node_names : list string) (monitor_labels : list (string * string)) (document : json)
    : outcome json :=
  k ← index "kind" document;
  let added := (if is_str "ServiceMonitor" k then monitor_labels else []) ++ [management_label] in
  document ← edit_metadata (λ m, m ← default_key "labels" (JObj []) m; edit_key "labels" (update_object added) m) document;
  if is_str "DaemonSet" k then place node_names document else Ok document.

Context {C S : Type} `{Kubectl C} `{Printer}.
Abbreviation IO := (IO (world C S)).

(** [_existing_resources] *)
Definition existing_resources : IO (list json) :=
  resources ← api_resource_names (Some PROMETHEUS_API_GROUP);
  let monitors_available := mem SERVICE_MONITORS resources in
  found ← Effects.collect (λ r,
    if eqb (kind r) "ServiceMonitor" && negb monitors_available then mret None
    else get_if_exists (kind r) (name r) (namespace r)) (x_resources pkg);
  mret (omap id found).

(** [managed_resources] *)
Definition managed_resources : IO (list ResourceRef) :=
  existing ← existing_resources;
  own ← pure (filter_outcome owned existing);
  pure (outcome_map resource_ref own).

(** [ensure_available] *)
Definition ensure_available : IO unit :=
  existing ← existing_resources;
  each existing (λ document,
    mine ← pure (owned document);
    if (mine : bool) then mret tt else
    r ← pure (resource_ref document);
    throw (DeploymentError ("cannot install MetaX mxExporter: " +:+ namespace r +:+ "/" +:+ display_name r
             +:+ " already exists outside the Foretoken lifecycle"))).

(** [install] *)
Definition install (node_names : list string) (monitor_labels : list (string * string)) (timeout : string) : IO unit :=
  ensure_available ;;
  there ← exists_ "namespace" (x_namespace pkg) "";
  skip_unless (negb there) (apply_documents [x_namespace_document pkg]) ;;
  documents ← pure (outcome_map (prepare_document node_names monitor_labels) (x_workloads pkg));
  apply_documents documents ;;
  rollout_status (x_daemonset pkg) timeout.

(** [uninstall] *)
Definition uninstall : IO unit :=
  existing ← existing_resources;
  documents ← pure (filter_outcome owned existing);
  skip_unless (negb (bool_decide (length documents = 0%nat))) (delete_documents (rev documents)).
End Lifecycle.
