(* ===== verification/AcceleratorProofs.v ===== *)
(** * What the accelerator adapters guarantee

    A managed exporter is placed on exactly the device nodes, an existing one
    covers them all, and the lifecycle of the packaged mxExporter neither replaces
    nor deletes an object it does not own. *)

From Stdlib Require Import Ascii.
From S2P Require Import Prelude Text Kube Effects Client Prometheus Emits PrometheusProofs Exporters ExporterProofs Accelerators.

(** ** Placement *)

Lemma same_set_true a b : same_set a b = true ↔ ∀ x, x ∈ a ↔ x ∈ b.
Proof.
  unfold same_set. rewrite andb_true_iff, !forallb_elem. setoid_rewrite mem_true. naive_solver.
Qed.

Section Placement.
Context `{PythonRepr} `{Quantity}.

(** A node with this name that satisfies [p] *)
Definition named (ns : list json) (p : json → outcome bool) (n : string) : Prop :=
  n ≠ "" ∧ ∃ node, node ∈ ns ∧ p node = Ok true ∧ object_name node = Ok n.

Lemma node_names_where_spec p ns names n :
  node_names_where p ns = Ok names → n ∈ names ↔ named ns p n.
Proof.
  intros (l & Hl & (all & Ha & [= <-])%outcome_bind_Ok)%outcome_bind_Ok. apply outcome_map_Ok in Ha.
  rewrite elem_of_keep. unfold nonempty. rewrite negb_true_iff, bool_decide_eq_false. unfold named.
  apply and_iff_compat_l. split.
  - intros [i Hi]%list_elem_of_lookup. destruct (Forall2_lookup_r _ _ _ _ _ Ha Hi) as (node & Hn & Hname).
    apply list_elem_of_lookup_2 in Hn. apply (filter_outcome_elem _ _ _ Hl) in Hn as [??]. eauto.
  - intros (node & Hin & Hp & Hname). assert (node ∈ l) as [i Hi]%list_elem_of_lookup by (by apply (filter_outcome_elem _ _ _ Hl)).
    destruct (Forall2_lookup_l _ _ _ _ _ Ha Hi) as (n' & Hn & Hname'). apply list_elem_of_lookup_2 in Hn. congruence.
Qed.

Lemma gpu_node_names_spec ns gpu n : gpu_node_names ns = Ok gpu → n ∈ gpu ↔ named ns nvidia_has_capacity n.
Proof.
  intros (names & Hn & [= <-])%outcome_bind_Ok. rewrite elem_of_sort_by. by apply node_names_where_spec.
Qed.

(** The nodes a selector places Pods on *)
Definition placed (ns : list json) (selector : option (string * string)) (n : string) : Prop :=
  match selector with
  | None => named ns (λ _, Ok true) n
  | Some (l, v) => named ns (λ node, x ← node_label l node; Ok (eqb x v)) n
  end.

Lemma exact_label_spec candidates ns gpu l :
  exact_label candidates ns gpu = Ok l → ∀ n, placed ns (Some l) n ↔ n ∈ gpu.
Proof.
  induction candidates as [|c candidates IH]; simpl; [done|].
  intros (selected & Hs & Hl)%outcome_bind_Ok. destruct (same_set selected gpu) eqn:E; [|by apply IH].
  injection Hl as <-. rewrite same_set_true in E. intros n. rewrite <-E. symmetry. by apply node_names_where_spec.
Qed.

Lemma managed_node_selector_spec ns gpu selector :
  managed_node_selector ns gpu = Ok selector → ∀ n, placed ns selector n ↔ n ∈ gpu.
Proof.
  intros (all & Ha & Hs)%outcome_bind_Ok. destruct (same_set all gpu) eqn:E.
  - injection Hs as <-. rewrite same_set_true in E. intros n. rewrite <-E. symmetry. by apply node_names_where_spec.
  - apply outcome_bind_Ok in Hs as (l & Hl & [= <-]). by eapply exact_label_spec.
Qed.
End Placement.

Section Resolve.
Context {C : Type} `{Kubectl C} `{PythonRepr} `{Printer} `{MetricsParser} `{Quantity}.
Abbreviation IO := (IO (world C inventory)).
Variable request_timeout : string.

Lemma known_daemonsets v : known (λ i, i_daemonsets i = Some v).
Proof. by intros i j (_ & Hd & _); apply Hd. Qed.
Lemma known_nodes v : known (λ i, i_nodes i = Some v).
Proof. by intros i j (Hd & _); apply Hd. Qed.
Lemma known_monitored candidates names r : known (monitored candidates names r).
Proof.
  intros i j Hij. destruct r as [m|]; [|done]. intros (d & pre & post & ? & Hc & ? & Hs & Hf).
  exists d, pre, post. split_and!; [done|by eapply known_coverage|done|by eapply known_scraped|].
  eapply Forall_impl; [exact Hf|]. intros other. by apply known_coverage.
Qed.

(** Commands of which only the inventory matters *)
Definition keeps_inventory {A} (m : IO A) : Prop := learns m (λ _ _, True).
Lemma keeps_of {A} (m : IO A) Q : learns m Q → keeps_inventory m.
Proof. intros Hm. by eapply learns_weaken. Qed.
Lemma keeps_then {A B} (m : IO A) (k : A → IO B) Q :
  keeps_inventory m → (∀ a, learns (k a) Q) → learns (m ≫= k) Q.
Proof.
  intros Hm Hk. eapply learns_bind; [|exact Hm|]; [by intros ? ? ?|]. intros a.
  eapply learns_weaken; [apply Hk|]. auto.
Qed.
Lemma keeps_collect {A B} (f : A → IO B) l : (∀ x, keeps_inventory (f x)) → keeps_inventory (collect f l).
Proof.
  intros Hf. eapply keeps_of, (learns_collect (λ _ _ _, True)); [by intros ? ? ? ?|]. intros x _. apply Hf.
Qed.

Lemma visible_devices_keeps gpu : keeps_inventory (visible_devices gpu : IO _).
Proof.
  apply keeps_then; [eapply keeps_of, learns_daemonsets|]. intros ds. apply keeps_then.
  - apply keeps_collect. intros d. apply learns_pure_bind. intros containers _. apply keeps_then; [|by intros; apply learns_ret].
    apply keeps_collect. intros c. apply learns_pure_bind. intros plugin _. destruct plugin; [|by apply learns_ret].
    apply keeps_then; [eapply keeps_of, learns_coverage|]. intros pods. by apply learns_ret.
  - intros plugins. destruct (concat plugins) as [|c [|]]; try by apply learns_ret. eapply learns_weaken; [apply learns_pure|done].
Qed.

(** What discovery found for the NVIDIA nodes *)
Definition nvidia_resolved (managed : option ResourceRef) (m : NvidiaMetrics) (i : inventory) : Prop :=
  ∃ all ns gpu, i_nodes i = Some all ∧ filter_outcome schedulable all = Ok ns ∧ gpu_node_names ns = Ok gpu ∧ gpu ≠ [] ∧
    match nv_exporter m with
    | Some e => managed = None ∧ ∃ ds candidates, i_daemonsets i = Some ds ∧
        filter_outcome nvidia_is_exporter ds = Ok candidates ∧ monitored candidates (distinct gpu) (Some e) i
    | None => ∀ n, placed ns (nv_node_selector m) n ↔ named ns nvidia_has_capacity n
    end.

Lemma learns_candidates a :
  learns (exporter_candidates a : IO _)
    (λ l i, ∃ ds, i_daemonsets i = Some ds ∧ filter_outcome (is_exporter a) ds = Ok l).
Proof.
  eapply learns_bind; [|apply learns_daemonsets|]; [intros; apply known_daemonsets|]. intros ds.
  eapply learns_weaken; [apply learns_pure|]. eauto.
Qed.

Lemma learns_placement ns gpu :
  gpu_node_names ns = Ok gpu →
  learns (managed_placement ns gpu : IO _)
    (λ m _, nv_exporter m = None ∧ ∀ n, placed ns (nv_node_selector m) n ↔ named ns nvidia_has_capacity n).
Proof.
  intros Hgpu. apply learns_pure_bind. intros selector Hs. apply keeps_then; [apply visible_devices_keeps|].
  intros visible. apply learns_ret. intros i. split; [done|]. intros n. simpl.
  rewrite <-(gpu_node_names_spec _ _ n Hgpu). by apply managed_node_selector_spec.
Qed.

Lemma learns_find a names :
  learns (find_accelerator_monitor request_timeout a names : IO _)
    (λ r i, ∃ ds candidates, i_daemonsets i = Some ds ∧ filter_outcome (is_exporter a) ds = Ok candidates ∧
              monitored candidates names r i).
Proof.
  eapply learns_bind; [|apply learns_candidates|].
  { intros l i j Hij (ds & Hd & Hf). exists ds. split; [|done]. by eapply known_daemonsets. }
  intros candidates. eapply learns_weaken; [apply learns_find_monitor|]. intros r i Hm (ds & ? & ?). by exists ds, candidates.
Qed.

Lemma learns_nvidia managed :
  learns (resolve_nvidia request_timeout managed : IO _) (λ r i, from_option (λ m, nvidia_resolved managed m i) True r).
Proof.
  eapply learns_bind; [|apply learns_nodes|]; [intros; apply known_nodes|]. intros all.
  apply learns_pure_bind. intros ns Hns. apply learns_pure_bind. intros gpu Hgpu.
  destruct gpu as [|g gpu]; [by apply learns_ret|]. destruct managed as [managed|].
  - apply keeps_then.
    { apply keeps_then; [eapply keeps_of, learns_candidates|]. intros l. apply learns_pure_bind. intros refs _.
      destruct (keep _ refs); [by apply learns_ret|apply learns_throw]. }
    intros u. eapply learns_bind; [|by apply learns_placement|]; [by intros ? ? ?|].
    intros m. apply learns_ret. intros i [He Hp] Hall. exists all, ns, (g :: gpu). by rewrite He.
  - eapply learns_bind; [|apply learns_find|].
    { intros r i j Hij (ds & l & ? & ? & ?). exists ds, l. split_and!; [by eapply known_daemonsets|done|by eapply known_monitored]. }
    intros [e|].
    + apply learns_ret. intros i Hm Hall. exists all, ns, (g :: gpu). split_and!; [done..|]. split; [done|]. exact Hm.
    + eapply learns_bind; [|by apply learns_placement|]; [by intros ? ? ?|].
      intros m. apply learns_ret. intros i [He Hp] _ Hall. exists all, ns, (g :: gpu). by rewrite He.
Qed.

(** Resolving the NVIDIA metrics of a cluster returns either an existing
    exporter that covers every schedulable node with GPU capacity, or a node
    selector for a managed exporter that selects exactly the schedulable nodes with
    GPU capacity: all of them, and no other node. *)
Theorem nvidia_placement_exact managed (w w' : world C inventory) m :
  resolve_nvidia request_timeout managed w = (Returned (Some m), w') → nvidia_resolved managed m (self w').
Proof.
  intros Hrun. destruct (learns_nvidia managed w) as [_ HQ]. by rewrite Hrun in HQ.
Qed.
End Resolve.

(** ** The packaged exporter *)

Section Package.
Variable select_reference : string → outcome string.
Variable pkg : package.
Variable management_label : string * string.
Variable image image_registry : option string.
Context {C S : Type} `{Kubectl C} `{Printer}.
Abbreviation IO := (IO (world C S)).
Abbreviation owned := (owned management_label).
Abbreviation prepare := (prepare_document select_reference management_label image image_registry).

(** *** Prepared documents carry the management label. *)

Lemma update_object_last items k v d d' : update_object (items ++ [(k, v)]) d = Ok d' → get k d' = Ok (JStr v).
Proof.
  unfold update_object. revert d. induction items as [|e items IH]; intros d; simpl.
  - intros (d1 & Hs & [= <-])%outcome_bind_Ok. destruct d; try done. injection Hs as <-.
    unfold get, get_or. by rewrite dget_dset, eqb_refl.
  - intros (d1 & _ & Hr)%outcome_bind_Ok. by eapply IH.
Qed.

Lemma edit_key_index k f d d' :
  edit_key k f d = Ok d' → ∃ v v', index k d = Ok v ∧ f v = Ok v' ∧ index k d' = Ok v' ∧
    ∀ k', k ≠ k' → index k' d' = index k' d.
Proof.
  intros (v & Hv & (v' & Hf & Hs)%outcome_bind_Ok)%outcome_bind_Ok. exists v, v'. split_and!; [done..| |].
  - by eapply index_set_key.
  - intros k' Hne. by eapply index_set_key_ne.
Qed.

Lemma index_get k d v : index k d = Ok v → get k d = Ok v.
Proof. unfold index, get, get_or. destruct d; try done. destruct (dget k m); simpl; congruence. Qed.

Lemma prepared_owned node_names labels d d' : prepare node_names labels d = Ok d' → owned d' = Ok true.
Proof.
  unfold prepare_document. intros (k & Hk & (d1 & H1 & H2)%outcome_bind_Ok)%outcome_bind_Ok.
  apply edit_key_index in H1 as (m & m' & _ & Hm & Hm' & _).
  apply outcome_bind_Ok in Hm as (m1 & _ & He). apply edit_key_index in He as (ls & ls' & _ & Hu & Hls & _).
  destruct management_label as [key value] eqn:Eml. apply update_object_last in Hu as Hl.
  assert (index "metadata" d' = Ok m') as Hd'.
  { destruct (is_str "DaemonSet" k); [|by injection H2 as <-].
    apply edit_key_index in H2 as (? & ? & _ & _ & _ & Hother). by rewrite Hother. }
  unfold Accelerators.owned. rewrite Hd'. cbn [mbind outcome_bind]. unfold child. rewrite (index_get _ _ _ Hls).
  cbn [mbind outcome_bind]. destruct ls' as [| | | | | |[|e ls']]; try done. unfold or_. cbn [truthy fst snd].
  rewrite Hl. cbn [mbind outcome_bind is_str]. by rewrite eqb_refl.
Qed.

(** *** What exists *)

(** The answer for a resource of the package, or why it was not asked for *)
Definition looked_up (r : ResourceRef) (v : option json) (n : calls) : Prop :=
  (GetObject (kind r) (name r) (namespace r) true, Output v) ∈ n ∨
  v = None ∧ kind r = "ServiceMonitor" ∧
  ∃ rep s, (ApiResources (Some PROMETHEUS_API_GROUP), rep) ∈ n ∧ prints rep s ∧
           SERVICE_MONITORS ∉ keep nonempty (strip <$> splitlines s).
Lemma lasting_looked_up r v : lasting (looked_up r v).
Proof. unfold looked_up. auto 20 with lasting. Qed.

Definition inspected (existing : list json) (n : calls) : Prop :=
  ∃ found, existing = omap id found ∧ Forall2 (λ r v, looked_up r v n) (x_resources pkg) found.

Lemma emits_existing : emits (existing_resources pkg : IO _) inspected (λ _, True).
Proof.
  clear select_reference image image_registry management_label.
  eapply emits_seq; [apply emits_api_resources|]. intros resources. cbv zeta.
  destruct (mem SERVICE_MONITORS resources) eqn:Em.
  - eapply emits_seq.
    { apply (emits_collect looked_up); [apply lasting_looked_up|]. intros r _. rewrite andb_false_r.
      eapply emits_weaken; [apply emits_get_if_exists| |done]. intros v n [-> _]. left. set_solver. }
    intros found. apply emits_ret. intros n Hf n0 _. exists found. split; [done|].
    eapply Forall2_impl; [exact Hf|]. intros r v Hl. by apply (lasting_looked_up _ _ []).
  - eapply emits_seq.
    { apply (emits_collect (λ r v n, v = None ∧ kind r = "ServiceMonitor" ∨
               (GetObject (kind r) (name r) (namespace r) true, Output v) ∈ n)); [auto with lasting|].
      intros r _. rewrite andb_true_r. destruct (eqb (kind r) "ServiceMonitor") eqn:Ek; reflect_in Ek.
      - apply emits_ret. by left.
      - eapply emits_weaken; [apply emits_get_if_exists| |done]. intros v n [-> _]. right. set_solver. }
    intros found. apply emits_ret. intros n Hf n0 (rep & s & -> & Hp & ->). exists found. split; [done|].
    eapply Forall2_impl; [exact Hf|]. intros r v [[-> Hk]|Hin]; [right|left; set_solver].
    split_and!; [done..|]. exists rep, s. split_and!; [set_solver|done|by apply mem_false].
Qed.

(** The resources of the package are absent or owned. *)
Definition available (n : calls) : Prop :=
  Forall (λ r, ∃ v, looked_up r v n ∧ from_option (λ d, owned d = Ok true) True v) (x_resources pkg).

Lemma available_more n m : available n → available (m ++ n).
Proof.
  intros Ha. eapply Forall_impl; [exact Ha|]. intros r (v & Hl & Hv). exists v. split; [|done].
  rewrite <-(app_nil_r n). by apply lasting_looked_up.
Qed.
Lemma inspected_more existing n m : inspected existing n → inspected existing (m ++ n).
Proof.
  intros (found & -> & Hf). exists found. split; [done|]. eapply Forall2_impl; [exact Hf|]. intros r v Hl.
  rewrite <-(app_nil_r n). by apply lasting_looked_up.
Qed.

Lemma Forall2_omap {A} (R : A → option json → Prop) (P : json → Prop) l found :
  Forall2 R l found → Forall P (omap id found) → Forall (λ r, ∃ v, R r v ∧ from_option P True v) l.
Proof.
  induction 1 as [|r v l found Hr Hl IH]; intros HP; constructor.
  - exists v. split; [done|]. destruct v as [d|]; [|done]. simpl in *. by inversion HP.
  - apply IH. destruct v; simpl in *; [by inversion HP|done].
Qed.

Lemma emits_available : emits (ensure_available pkg management_label : IO unit) (λ _ n, available n) (λ _, True).
Proof.
  eapply emits_seq; [apply emits_existing|]. intros existing.
  eapply emits_weaken; [apply (emits_each (λ d _, owned d = Ok true))|..].
  - intros d. apply lasting_const.
  - intros d _. apply emits_pure_bind; [|done]. intros mine Hm. destruct mine; [by apply emits_ret|].
    apply emits_pure_bind; [|done]. intros r _. by apply emits_throw.
  - intros u n Hown n0 (found & -> & Hf). unfold available.
    eapply Forall_impl; [by eapply Forall2_omap|]. intros r (v & Hl & Hv). exists v. split; [|done].
    rewrite <-(app_nil_r n0). by apply lasting_looked_up.
  - done.
Qed.

(** *** The commands *)

Lemma reading_no_write n e : Forall reading n → e ∈ n → is_write e.1 = true → False.
Proof. rewrite Forall_forall. intros Hn He Hw. specialize (Hn e He). unfold reading in Hn. congruence. Qed.
Lemma reading_existing : only reading (existing_resources pkg : IO _).
Proof.
  unfold existing_resources, api_resource_names. apply only_bind; [|intros resources].
  { apply only_bind; [by apply only_run_text|]. only_auto. }
  cbv zeta. apply only_bind; [|only_auto]. apply only_collect. intros r. destruct (_ && _); [only_auto|].
  unfold get_if_exists, decode_object. apply only_bind; [by apply only_run|]. only_auto.
Qed.
Lemma reading_available : only reading (ensure_available pkg management_label : IO unit).
Proof. unfold ensure_available. apply only_bind; [apply reading_existing|]. only_auto. Qed.

(** A document an installation writes, and what a deletion removes *)
Definition install_write node_names labels (c : call) : Prop :=
  c = ApplyDocuments [x_namespace_document pkg] ∨
  ∃ documents, c = ApplyDocuments documents ∧
    Forall2 (λ d d', prepare node_names labels d = Ok d' ∧ owned d' = Ok true) (x_workloads pkg) documents.
Definition uninstall_write (n : calls) (c : call) : Prop :=
  ∃ existing documents, inspected existing n ∧ c = DeleteDocuments documents ∧
    ∀ d, d ∈ documents ↔ d ∈ existing ∧ owned d = Ok true.

Lemma emits_install node_names labels timeout :
  let W n := ∀ e, e ∈ n → is_write e.1 = true → available n ∧ install_write node_names labels e.1 in
  emits (install select_reference pkg management_label image image_registry node_names labels timeout : IO unit)
    (λ _, W) W.
Proof.
  intros W. assert (∀ n, Forall reading n → W n) as Hread.
  { intros n Hn e He Hw. by destruct (reading_no_write n e). }
  eapply emits_bind.
  { eapply emits_weaken; [apply (emits_conj _ _ _ _ _ emits_available reading_available)| |].
    - intros u n Hn. exact Hn.
    - intros n [_ Hn]. by apply Hread. }
  intros u. set (P := λ e : call * reply, is_write e.1 = true → install_write node_names labels e.1).
  assert (∀ n n0, Forall P n → available n0 ∧ Forall reading n0 → W (n ++ n0)) as Hstep.
  { intros n n0 HP [Ha Hr] e [He|He]%elem_of_app Hw; (split; [by apply available_more|]).
    - rewrite Forall_forall in HP. by apply (HP e He).
    - by destruct (Hread n0 Hr e He Hw). }
  apply (emits_weaken _ (λ _ n, Forall P n) _ (λ n, Forall P n));
    [|intros v n Hn n0; by apply Hstep|intros n Hn n0; by apply Hstep].
  apply only_bind; [unfold exists_; apply only_bind; [by apply only_run_text|]; only_auto|]. intros there.
  apply only_bind.
  { apply only_skip. unfold apply_documents. apply only_bind; [|only_auto]. apply only_run. intros r _. by left. }
  intros v. apply only_pure_bind. intros documents Hd. apply outcome_map_Ok in Hd.
  apply only_bind; [unfold apply_documents; apply only_bind; [|only_auto]|].
  - apply only_run. intros r _. right. exists documents. split; [done|].
    eapply Forall2_impl; [exact Hd|]. intros d d' Hp. split; [done|]. apply (prepared_owned _ _ _ _ Hp).
  - intros v'. unfold rollout_status. apply only_bind; [apply only_pure|]. intros secs.
    apply only_bind; [by apply only_run|]. only_auto.
Qed.

Lemma emits_uninstall :
  let W n := ∀ e, e ∈ n → is_write e.1 = true → uninstall_write n e.1 in
  emits (uninstall pkg management_label : IO unit) (λ _, W) W.
Proof.
  intros W. assert (∀ n, Forall reading n → W n) as Hread.
  { intros n Hn e He Hw. by destruct (reading_no_write n e). }
  eapply emits_bind.
  { eapply emits_weaken; [apply (emits_conj _ _ _ _ _ emits_existing reading_existing)| |].
    - intros existing n Hn. exact Hn.
    - intros n [_ Hn]. by apply Hread. }
  intros existing. apply emits_pure_bind; [|intros n0 [_ Hn]; exact (Hread n0 Hn)]. intros documents Hd.
  assert (∀ n0 r, inspected existing n0 ∧ Forall reading n0 → W ([(DeleteDocuments (rev documents), r)] ++ n0)) as Hstep.
  { intros n0 r [Hi Hr] e [->%list_elem_of_singleton|He]%elem_of_app Hw; [|by destruct (reading_no_write n0 e)].
    exists existing, (rev documents). split_and!; [by apply inspected_more|done|]. intros d.
    rewrite list_elem_of_In, <-in_rev, <-list_elem_of_In. by apply filter_outcome_elem. }
  destruct (negb _); simpl; [|apply emits_ret; intros n0 [_ Hn]; exact (Hread n0 Hn)].
  unfold delete_documents. eapply emits_bind.
  { apply (emits_run _ (λ _ n, ∃ r, n = [(DeleteDocuments (rev documents), r)])); [by eauto..|].
    intros d n0 Hn. by apply Hstep. }
  intros r. apply emits_ret. intros n (rep & ->) n0 Hn. by apply Hstep.
Qed.

(** The lifecycle of the packaged exporter touches only its own objects.
    On every cluster and wherever it stops, [install] writes only after every
    resource of the package was seen to be absent or to carry the management label
    (or to be of a kind the cluster does not serve), and then only the namespace and
    the documents of the package, all with the management label; [uninstall] deletes
    exactly the resources of the package it has just read with that label, and
    nothing else. *)
Theorem package_touches_own node_names labels timeout (w : world C S) :
  (∃ new, trace (install select_reference pkg management_label image image_registry node_names labels timeout w).2
            = new ++ trace w ∧
     ∀ e, e ∈ new → is_write e.1 = true → available new ∧ install_write node_names labels e.1) ∧
  (∃ new, trace (uninstall pkg management_label w).2 = new ++ trace w ∧
     ∀ e, e ∈ new → is_write e.1 = true → uninstall_write new e.1).
Proof.
  split.
  - destruct (emits_install node_names labels timeout w) as (new & Hn & HQ). exists new. split; [done|]. by case_match.
  - destruct (emits_uninstall w) as (new & Hn & HQ). exists new. split; [done|]. by case_match.
Qed.
End Package.
