(* ===== verification/MonitoringWitnesses.v ===== *)
(** * Monitoring on a scripted cluster

    Concrete runs for the theorems about Prometheus and exporter discovery: a
    cluster with one trusted and one foreign Prometheus, a GPU node with a DCGM
    exporter and a node without GPU. *)

From S2P Require Import Prelude Text Kube Effects Client Settles Prometheus Emits PrometheusProofs Exporters ExporterProofs Accelerators AcceleratorProofs.

#[local] Instance repr_none : PythonRepr := λ _, "".
#[local] Instance print_none : Printer := λ _, "".
#[local] Instance two_metrics : MetricsParser := λ body,
  if eqb body "metrics" then
    Ok [[("DCGM_FI_DEV_GPU_UTIL", ["UUID"; "pod"]); ("DCGM_FI_DEV_FB_USED", ["UUID"])]; [("DCGM_FI_DEV_FB_FREE", ["UUID"])]]
  else Raise (ValueError "no metrics").
#[local] Instance counts : Quantity := λ v,
  match v with JStr s => match py_int s with Some z => Ok (inject_Z z) | None => Raise (ValueError "quantity") end
             | _ => Raise (TypeError "quantity") end.

Definition items (l : list json) : reply := answer (JObj [("items", JArr l)]).
Definition meta (ns n : string) (ls : list (string * json)) : string * json :=
  ("metadata", JObj [("namespace", JStr ns); ("name", JStr n); ("uid", JStr (n +:+ "-uid")); ("labels", JObj ls)]).
Definition newline : string := String (Ascii.ascii_of_nat 10) "".
Definition operator_apis : reply :=
  Unparsed (join newline (REQUIRED_PROMETHEUS_RESOURCES ++ [""])).

(** *** Two instances *)

Definition shared_selector : json := JObj [("matchLabels", JObj [("release", JStr "kube"); ("app.kubernetes.io/instance", JStr "foretoken")])].
Definition shared_prometheus : json :=
  JObj [("kind", JStr "Prometheus"); meta "monitoring" "main" [];
        ("spec", JObj [("serviceMonitorSelector", shared_selector);
                       ("ruleSelector", JObj [("matchExpressions", JArr [JObj [("key", JStr "release"); ("operator", JStr "In");
                                                                               ("values", JArr [JStr "kube"; JStr "other"])]])]);
                       ("serviceMonitorNamespaceSelector", JObj []); ("ruleNamespaceSelector", JObj [])]);
        ("status", JObj [("availableReplicas", JInt 2)])].
Definition foreign_prometheus : json :=
  JObj [("kind", JStr "Prometheus"); meta "team" "own" []; ("spec", JObj []); ("status", JObj [("availableReplicas", JInt 1)])].
Definition namespace_of (n : string) (trusted : bool) : reply :=
  answer (JObj [meta "" n (if trusted then [(METRICS_SCRAPER_LABEL, JStr "true")] else [])]).
Definition selection_script : list reply :=
  [operator_apis; items [foreign_prometheus; shared_prometheus]; namespace_of "foretoken" false;
   namespace_of "team" false; namespace_of "monitoring" true].
Definition main_ref : PrometheusRef := Prometheus "main" "monitoring" [("release", "kube")].
Definition selection_world : world (list reply) inventory := World selection_script 0 [] new_inventory.

Lemma selected_prometheus_collects_witness :
  let r := select_prometheus "foretoken" None selection_world in
  r.1 = Returned (Some main_ref) ∧
  ∃ new, trace r.2 = new ++ [] ∧ sound_choice "foretoken" None main_ref new.
Proof.
  cbv zeta. split; [vm_compute; reflexivity|].
  apply (selected_prometheus_collects "foretoken" None selection_world
           (select_prometheus "foretoken" None selection_world).2 main_ref). vm_compute. reflexivity.
Defined.

Lemma label_selector_exact_witness :
  matches_label_selector shared_selector (resource_labels [("release", "kube")]) = true ∧
  (∃ rs, read_selector shared_selector = Some rs ∧ Forall (meets (resource_labels [("release", "kube")])) rs).
Proof.
  split; [vm_compute; reflexivity|]. apply label_selector_exact. vm_compute. reflexivity.
Defined.

Lemma required_labels_least_witness :
  required_labels shared_selector (JObj []) = Some [("release", "kube")] ∧
  extends_fixed (resource_labels [("release", "kube")]).
Proof.
  split; [vm_compute; reflexivity|].
  apply (proj1 (required_labels_least shared_selector (JObj [])) [("release", "kube")]). vm_compute. reflexivity.
Defined.

(** *** A node with GPUs *)

Definition node (n : string) (gpus : string) (present : bool) : json :=
  JObj [meta "" n (if present then [("nvidia.com/gpu.present", JStr "true")] else []); ("spec", JObj []);
        ("status", JObj [("allocatable", JObj [(NVIDIA_GPU_RESOURCE, JStr gpus)])])].
Definition dcgm_labels : list (string * json) := [("app", JStr "dcgm-exporter")].
Definition dcgm : json :=
  JObj [("kind", JStr "DaemonSet"); meta "gpu" "dcgm" dcgm_labels;
        ("spec", JObj [("selector", JObj [("matchLabels", JObj dcgm_labels)]);
                       ("template", JObj [("metadata", JObj [("labels", JObj dcgm_labels)]);
                                          ("spec", JObj [("containers", JArr [JObj [("name", JStr "dcgm"); ("image", JStr "dcgm:1");
                                             ("ports", JArr [JObj [("name", JStr "metrics"); ("containerPort", JInt 9400)]])]])])])])].
Definition dcgm_pod : json :=
  JObj [("metadata", JObj [("namespace", JStr "gpu"); ("name", JStr "dcgm-x");
                           ("ownerReferences", JArr [JObj [("kind", JStr "DaemonSet"); ("uid", JStr "dcgm-uid")]])]);
        ("spec", JObj [("nodeName", JStr "a")]);
        ("status", JObj [("conditions", JArr [JObj [("type", JStr "Ready"); ("status", JStr "True")]])])].
Definition dcgm_service : json :=
  JObj [("kind", JStr "Service"); meta "gpu" "dcgm" dcgm_labels;
        ("spec", JObj [("selector", JObj dcgm_labels); ("ports", JArr [JObj [("name", JStr "metrics"); ("port", JInt 9400)]])])].
Definition dcgm_monitor : json :=
  JObj [("kind", JStr "ServiceMonitor"); meta "gpu" "dcgm" [("release", JStr "kube")];
        ("spec", JObj [("selector", JObj [("matchLabels", JObj dcgm_labels)]);
                       ("endpoints", JArr [JObj [("port", JStr "metrics")]])])].
Definition discovery_script : list reply :=
  [items [node "b" "0" false; node "a" "8" true]; items [dcgm]; items [dcgm_pod]; operator_apis;
   items [dcgm_service]; items [dcgm_monitor]; Unparsed "metrics"].
Definition discovery_world : world (list reply) inventory := World discovery_script 0 [] new_inventory.
Definition dcgm_ref (k : string) : ResourceRef := Ref k "dcgm" "gpu".
Definition dcgm_exporter : ExporterMonitor :=
  Exporter (dcgm_ref "DaemonSet") (dcgm_ref "ServiceMonitor") [("release", "kube")]
    (Endpoint (dcgm_ref "Service") "metrics" "metrics" "/metrics" "http") ["dcgm-x"].

Lemma nvidia_placement_exact_witness :
  let r := resolve_nvidia "5s" None discovery_world in
  r.1 = Returned (Some (Nvidia (Some dcgm_exporter) None None)) ∧ length (trace r.2) = 7%nat ∧
  nvidia_resolved None (Nvidia (Some dcgm_exporter) None None) (self r.2).
Proof.
  cbv zeta. split; [vm_compute; reflexivity|]. split; [vm_compute; reflexivity|].
  apply (nvidia_placement_exact "5s" None discovery_world (resolve_nvidia "5s" None discovery_world).2
           (Nvidia (Some dcgm_exporter) None None)). vm_compute. reflexivity.
Defined.

(** Without an exporter a managed one is placed by the label of the GPU node. *)
Example managed_exporter_placed :
  (resolve_nvidia "5s" None
     (World [items [node "b" "0" false; node "a" "8" true]; items []] 0 [] new_inventory : world (list reply) _)).1 =
  Returned (Some (Nvidia None (Some ("nvidia.com/gpu.present", "true")) None)).
Proof. vm_compute. reflexivity. Qed.

Definition covering_world : world (list reply) inventory :=
  World [items [dcgm_pod]; operator_apis; items [dcgm_service]; items [dcgm_monitor]; Unparsed "metrics"] 0 [] new_inventory.
Definition find_dcgm : IO (world (list reply) inventory) (option ExporterMonitor) :=
  find_monitor "5s" [dcgm] ["a"] "DCGM Exporter" "every NVIDIA GPU node" (metric_requirements nvidia) "".
Lemma found_monitor_covers_witness :
  let r := find_dcgm covering_world in
  r.1 = Returned (Some dcgm_exporter) ∧
  (∃ new, trace r.2 = new ++ [] ∧ metrics_seen (metric_requirements nvidia) dcgm_exporter new).
Proof.
  cbv zeta. split; [vm_compute; reflexivity|].
  apply (found_monitor_covers "5s" [dcgm] ["a"] "DCGM Exporter" "every NVIDIA GPU node" (metric_requirements nvidia) ""
           covering_world (find_dcgm covering_world).2 dcgm_exporter). vm_compute. reflexivity.
Defined.

(** *** Targets *)

Definition up_answer (v : string) : reply :=
  answer (JObj [("status", JStr "success"); ("data", JObj [("result", JArr
    [JObj [("metric", JObj [("pod", JStr "dcgm-x")]); ("value", JArr [JInt 17; JStr v])]])])]).
Definition web_service : json :=
  JObj [("kind", JStr "Service"); meta "monitoring" "main" [];
        ("spec", JObj [("selector", JObj [("prometheus", JStr "main")]); ("ports", JArr [JObj [("name", JStr "http-web"); ("port", JInt 9090)]])])].
Definition targets_world : world (list reply) inventory :=
  World [items [web_service]; Failed "Error from server (ServiceUnavailable): later"; items [web_service]; up_answer "0";
         items [web_service]; up_answer "1"] 0 [] new_inventory.

(** Unavailable, down, then up: the third round succeeds. *)
Lemma targets_waited_for_witness :
  let m fuel := require_prometheus_targets "5s" (λ _, None) fuel main_ref [("DCGM Exporter", dcgm_exporter)] (inject_Z 60) in
  (m 5%nat targets_world).1 = Returned tt ∧
  (∃ n r w', r ≠ Unfinished ∧ ∀ fuel, (n ≤ fuel)%nat → m fuel targets_world = (r, w')) ∧
  ∃ new, trace (m 5%nat targets_world).2 = new ++ [] ∧
    ∀ e, e ∈ [("DCGM Exporter", dcgm_exporter)] → NoDup (target_pods e.2) →
      ∃ results, answered main_ref (up_expression (endpoint e.2)) results new ∧ all_up (target_pods e.2) results.
Proof.
  cbv zeta. split; [vm_compute; reflexivity|]. split.
  - exact (proj1 (targets_waited_for "5s" (λ _, None) main_ref [("DCGM Exporter", dcgm_exporter)] (inject_Z 60) targets_world)
             scripted_clock).
  - apply (proj2 (targets_waited_for "5s" (λ _, None) main_ref [("DCGM Exporter", dcgm_exporter)] (inject_Z 60) targets_world)
             5%nat). vm_compute. reflexivity.
Defined.
