(* ===== verification/Network.v ===== *)
(** * Processes over a shared store

    Programs that talk through a key-value store whose reads block until the key
    is there, as [torch.distributed.TCPStore] does.  When every key is written once,
    by its owner, the order in which processes run does not matter: if one schedule
    ends, every schedule ends, in as many steps and in the same state. *)

From stdpp Require Import relations.
From S2P Require Import Prelude.
#[local] Open Scope nat_scope.

(** A program is a tree of requests: put a value, wait for a value, ask the
    process's own environment. *)
Inductive prog (K V : Type) (Query : Type) (Answer : Query → Type) (R : Type) :=
  | Ret (r : R)
  | Put (k : K) (v : V) (next : prog K V Query Answer R)
  | Take (k : K) (next : V → prog K V Query Answer R)
  | Ask (q : Query) (next : Answer q → prog K V Query Answer R).
Arguments Ret {K V Query Answer R} r.
Arguments Put {K V Query Answer R} k v next.
Arguments Take {K V Query Answer R} k next.
Arguments Ask {K V Query Answer R} q next.

Section Network.
Context {K V : Type} `{Countable K} {Query : Type} {Answer : Query → Type}.
Abbreviation prog := (prog K V Query Answer).

Fixpoint pbind {A B} (p : prog A) (k : A → prog B) : prog B :=
  match p with
  | Ret r => k r
  | Put x v next => Put x v (pbind next k)
  | Take x next => Take x (λ v, pbind (next v) k)
  | Ask q next => Ask q (λ a, pbind (next a) k)
  end.

(** What the environment of process [i] answers. *)
Variable oracle : nat → ∀ q, Answer q.
Variable R : Type.

Definition config : Type := gmap K V * list (prog R).

(** The next move of process [i] with program [p]; none when it has returned or
    the value it waits for is not there. *)
Definition move {A} (i : nat) (s : gmap K V) (p : prog A) : option (gmap K V * prog A) :=
  match p with
  | Ret _ => None
  | Put k v next => Some (<[k := v]> s, next)
  | Take k next => (λ v, (s, next v)) <$> s !! k
  | Ask q next => Some (s, next (oracle i q))
  end.

Inductive step : config → config → Prop :=
  | step_move s ps i p s' p' :
      ps !! i = Some p → move i s p = Some (s', p') → step (s, ps) (s', <[i := p']> ps).

(** ** Writing once *)

Variable owner : K → nat.

(** The program of [i] puts only keys of its own that are not in [W] yet; when it
    returns, [post] holds of the result and of all keys. *)
Fixpoint writes_to {A} (i : nat) (W : gset K) (p : prog A) (post : A → gset K → Prop) : Prop :=
  match p with
  | Ret r => post r W
  | Put k v next => owner k = i ∧ (k ∉ W) ∧ writes_to i ({[k]} ∪ W) next post
  | Take _ next => ∀ v, writes_to i W (next v) post
  | Ask _ next => ∀ a, writes_to i W (next a) post
  end.
Definition writes {A} (i : nat) (W : gset K) (p : prog A) : Prop := writes_to i W p (λ _ _, True).

Lemma writes_bind {A B} i W (p : prog A) (k : A → prog B) P Q :
  writes_to i W p P → (∀ r W, P r W → writes_to i W (k r) Q) → writes_to i W (pbind p k) Q.
Proof.
  intros Hp Hk. revert W Hp. induction p as [r|x v next IH|x next IH|q next IH]; intros W; simpl; [by apply Hk| |by eauto..].
  intros (? & ? & ?). auto.
Qed.

Lemma writes_weaken {A} i W (p : prog A) (P Q : A → gset K → Prop) :
  writes_to i W p P → (∀ r W, P r W → Q r W) → writes_to i W p Q.
Proof.
  intros Hp Hw. revert W Hp. induction p as [r|x v next IH|x next IH|q next IH]; intros W; simpl; [by apply Hw| |by eauto..].
  intros (? & ? & ?). auto.
Qed.

Definition disciplined (c : config) : Prop :=
  ∀ i p, c.2 !! i = Some p → writes i (dom c.1) p.

Lemma writes_agree {A} i W W' (p : prog A) :
  (∀ k, owner k = i → k ∈ W ↔ k ∈ W') → writes i W p → writes i W' p.
Proof.
  unfold writes. revert W W'. induction p as [r|k v next IH|k next IH|q next IH]; intros W W' Hag; simpl; [done| |by eauto..].
  intros (Ho & Hk & Hw). split_and!; [done|by rewrite <-Hag|]. eapply IH; [|done].
  intros k' Hk'. rewrite !elem_of_union, Hag by done. done.
Qed.

(** A move writes at most a key of its own, once. *)
Lemma move_writes {A} i s (p : prog A) s' p' :
  writes i (dom s) p → move i s p = Some (s', p') →
  writes i (dom s') p' ∧ (∀ k, owner k ≠ i → s' !! k = s !! k) ∧ s ⊆ s'.
Proof.
  unfold writes. destruct p as [r|k v next|k next|q next]; simpl; [done| | |].
  - intros (Ho & Hk & Hw) [= <- <-]. rewrite dom_insert_L. split_and!; [done| |].
    + intros k' Hk'. rewrite lookup_insert_ne by congruence. done.
    + by apply insert_subseteq, not_elem_of_dom.
  - intros Hw. destruct (s !! k); simpl; [|done]. by intros [= <- <-].
  - intros Hw [= <- <-]. by split_and!.
Qed.

Lemma disciplined_step c c' : disciplined c → step c c' → disciplined c'.
Proof.
  intros Hd Hs. revert Hd. destruct Hs as [s ps i p s' p' Hi Hm]. intros Hd j q Hj. simpl in *.
  destruct (move_writes i s p s' p' (Hd i p Hi) Hm) as (Hw & Hsame & _).
  destruct (decide (i = j)) as [<-|Hne].
  - rewrite list_lookup_insert_eq in Hj by (by eapply lookup_lt_Some). by injection Hj as <-.
  - rewrite list_lookup_insert_ne in Hj by done. eapply writes_agree; [|by apply (Hd j)].
    intros k Hk. simpl. rewrite !elem_of_dom, Hsame by congruence. done.
Qed.

Lemma move_commute {A} i j s (p q : prog A) s1 p1 s2 q2 :
  i ≠ j → writes i (dom s) p → writes j (dom s) q →
  move i s p = Some (s1, p1) → move j s q = Some (s2, q2) →
  ∃ t, move i s2 p = Some (t, p1) ∧ move j s1 q = Some (t, q2).
Proof.
  intros Hne Hp Hq H1 H2.
  destruct (move_writes _ _ _ _ _ Hp H1) as (_ & _ & Hs1), (move_writes _ _ _ _ _ Hq H2) as (_ & _ & Hs2).
  unfold writes in Hp, Hq. destruct p as [r|k v next|k next|x next], q as [r'|k' v' next'|k' next'|x' next']; simpl in *;
    try done; try (destruct (s !! k) as [v|] eqn:Ek; [|done]); try (destruct (s !! k') as [v'|] eqn:Ek'; [|done]);
    simplify_eq/=; try rewrite (lookup_weaken _ _ _ _ Ek Hs2); try rewrite (lookup_weaken _ _ _ _ Ek' Hs1);
    simpl; try (by eexists).
  exists (<[k := v]> (<[k' := v']> s)). split; [done|]. by rewrite insert_insert_ne by naive_solver.
Qed.

(** Two different next steps meet again after one more step each. *)
Lemma step_diamond c c1 c2 :
  disciplined c → step c c1 → step c c2 → c1 = c2 ∨ ∃ d, step c1 d ∧ step c2 d.
Proof.
  intros Hd H1 H2. revert Hd H2. destruct H1 as [s ps i p s1 p1 Hi M1]. intros Hd H2.
  inversion H2 as [s' ps' j q s2 q2 Hj M2]; subst.
  destruct (decide (i = j)) as [<-|Hne]; [left; by simplify_eq|right].
  destruct (move_commute i j s p q s1 p1 s2 q2) as (t & N1 & N2); [done|by apply (Hd i)|by apply (Hd j)|done..|].
  exists (t, <[j := q2]> (<[i := p1]> ps)). split.
  - apply (step_move _ _ j q); [by rewrite list_lookup_insert_ne by done|done].
  - rewrite list_insert_insert_ne by done. apply (step_move _ _ i p); [by rewrite list_lookup_insert_ne by done|done].
Qed.

(** If one schedule ends, every schedule does, in the same state. *)
Theorem schedules_agree n c d :
  disciplined c → nsteps step n c d → nf step d →
  ∀ m e, nsteps step m c e → m ≤ n ∧ nsteps step (n - m) e d.
Proof.
  revert c. induction n as [|n IH]; intros c Hc Hn Hnf m e Hm.
  - inversion Hn; subst. destruct Hm as [|m x y z Hs _]; [split; [lia|constructor]|].
    exfalso. apply Hnf. by exists y.
  - destruct Hm as [|m c c2 e Hs2 Hm]; [by split; [lia|]|].
    inversion Hn as [|n' x c1 z Hs1 Hn1]; subst.
    assert (disciplined c1) as Hc1 by (by eapply disciplined_step).
    assert (nsteps step n c2 d) as Hn2.
    { destruct (step_diamond c c1 c2 Hc Hs1 Hs2) as [->|(z & Hz1 & Hz2)]; [done|].
      destruct (IH c1 Hc1 Hn1 Hnf 1 z) as [Hle Hrest]; [by apply nsteps_once|].
      replace n with (S (n - 1)) by lia. by econstructor. }
    destruct (IH c2 (disciplined_step _ _ Hc Hs2) Hn2 Hnf m e Hm) as [Hle Hrest]. split; [lia|].
    by replace (S n - S m) with (n - m) by lia.
Qed.

(** ** Running one process *)

Definition alone {A} (i : nat) (a b : gmap K V * prog A) : Prop := move i a.1 a.2 = Some b.

Lemma alone_bind {A B} i s (p : prog A) s' p' (k : A → prog B) :
  rtc (alone i) (s, p) (s', p') → rtc (alone i) (s, pbind p k) (s', pbind p' k).
Proof.
  intros Hr. apply (rtc_congruence (λ a, (a.1, pbind a.2 k)) (R := alone i) (alone i)) in Hr; [exact Hr|].
  intros [s1 p1] [s2 p2]. unfold alone. simpl. destruct p1 as [r|x v next|x next|q next]; simpl; try done.
  - by intros [= <- <-].
  - destruct (s1 !! x); [|done]. by intros [= <- <-].
  - by intros [= <- <-].
Qed.

Lemma alone_steps i s (p : prog R) s' p' ps :
  rtc (alone i) (s, p) (s', p') → ps !! i = Some p → rtc step (s, ps) (s', <[i := p']> ps).
Proof.
  intros Hr. remember (s, p) as a eqn:Ea. remember (s', p') as b eqn:Eb. revert s p Ea ps Eb.
  induction Hr as [a|a [s1 p1] b Hm _ IH]; intros s p -> ps Eb Hi.
  - injection Eb as -> ->. by rewrite list_insert_id.
  - eapply rtc_l; [by eapply step_move|].
    rewrite <- (list_insert_insert_eq ps i p' p1). apply (IH s1 p1); [done..|].
    rewrite list_lookup_insert_eq; [done|by eapply lookup_lt_Some].
Qed.

(** Every process in turn. *)
Lemma round_robin n (f : gmap K V → nat → gmap K V) s (P P' : nat → prog R) (J : gmap K V → Prop) :
  J s → (∀ i s, i < n → J s → rtc (alone i) (s, P i) (f s i, P' i) ∧ J (f s i)) →
  rtc step (s, P <$> seq 0 n) (foldl f s (seq 0 n), P' <$> seq 0 n).
Proof.
  intros Hs Hrun. enough (∀ m, m ≤ n → J (foldl f s (seq 0 m)) ∧
    rtc step (s, P <$> seq 0 n) (foldl f s (seq 0 m), (P' <$> seq 0 m) ++ (P <$> seq m (n - m)))) as Hall.
  { destruct (Hall n (le_n n)) as [_ Hn]. by rewrite Nat.sub_diag, app_nil_r in Hn. }
  induction m as [|m IH]; intros Hm; [split; [done|]; by rewrite Nat.sub_0_r|].
  destruct (IH ltac:(lia)) as [HJ Hr]. rewrite seq_S, foldl_app. simpl.
  destruct (Hrun m _ ltac:(lia) HJ) as [Ha HJ']. split; [done|]. etrans; [exact Hr|].
  replace (n - m) with (S (n - S m)) by lia. simpl. rewrite fmap_app, <-app_assoc. simpl.
  replace ((P' <$> seq 0 m) ++ P' m :: (P <$> seq (S m) (n - S m)))
    with (<[m := P' m]> ((P' <$> seq 0 m) ++ P m :: (P <$> seq (S m) (n - S m)))).
  - eapply alone_steps; [exact Ha|]. rewrite lookup_app_r by (by rewrite length_fmap, length_seq).
    by rewrite length_fmap, length_seq, Nat.sub_diag.
  - rewrite insert_app_r_alt by (by rewrite length_fmap, length_seq).
    by rewrite length_fmap, length_seq, Nat.sub_diag.
Qed.
End Network.
