(* ===== verification/Mccl.v ===== *)
(** * MCCL network calibration ([data-plane/model-server/python/mccl/calibration.py])

    Before the engines of a group start, its members measure which network ports to
    use.  The leader proposes selections of ports; every member runs a probe with its
    part and publishes a status; the leader greedily drops ports while that makes the
    group faster, and all members install their part of the winner.  Members talk
    only through a store whose reads block.

    [select] is written once, over the operations of a [Rig]: the leader's own
    program over the store is one rig, a sequential search without processes, the
    specification, is another. *)

From Stdlib Require Import Ascii.
From stdpp Require Import list.
From S2P Require Import Prelude Text Effects Network.
#[local] Open Scope nat_scope.

(** ** Data *)

(** The ports of every member. *)
Abbreviation selection := (list (list string)).

(** What a member publishes about itself. *)
Record member := Member {
  skip : bool;
  ports : list string;
  gpus : nat;
}.

(** The status of a trial, with the error that makes everybody give up. *)
Record status := Status {
  ok : bool;
  error : option string;
}.

(** What the leader publishes as [command/<trial>]. *)
Inductive command :=
  | TryPorts (candidate : selection) (timeout : Q)
  | Chosen (winner : selection)
  | GiveUp (message : string).

Inductive key :=
  | KMember (index : nat)
  | KCommand (trial : nat)
  | KTrial (trial index : nat)
  | KFinished (index : nat).
#[export] Instance key_eq_dec : EqDecision key.
Proof. solve_decision. Defined.
#[export] Instance key_countable : Countable key.
Proof.
  refine (inj_countable'
    (λ k, match k with
          | KMember i => inl (inl i)
          | KCommand k => inl (inr k)
          | KTrial k i => inr (inl (k, i))
          | KFinished i => inr (inr i)
          end)
    (λ x, match x with
          | inl (inl i) => KMember i
          | inl (inr k) => KCommand k
          | inr (inl (k, i)) => KTrial k i
          | inr (inr i) => KFinished i
          end) _).
  by intros [].
Defined.

Inductive value :=
  | VMember (m : member)
  | VCommand (c : command)
  | VStatus (s : status)
  | VDone.

(** The options of the probe process. *)
Record probe_options := Options {
  rank_offset : nat;
  world_size : nat;
  gpu_count : nat;
  probe_timeout : Q;
}.

(** How the probe process ends: with an exit code, with the JSON it printed, or
    not at all ([OSError], output that is not JSON). *)
Inductive probe :=
  | Crashed
  | Printed (rows : json)
  | Broken (message : string).

Inductive query :=
  | Monotonic (trial : nat)
  | Probe (trial : nat) (options : probe_options) (own : list string).
Definition reply_to (q : query) : Type := match q with Monotonic _ => Q | Probe _ _ _ => probe end.
Abbreviation prog := (prog key value query reply_to).

(** ** [_visible_ports] *)

(** [text.split(",")] *)
Definition split_commas : string → list string := split_char ","%char.

(** [text.removeprefix("^=")] *)
Definition remove_exclusion (text : string) : string :=
  match text with
  | String a (String b rest) => if Ascii.eqb a "^"%char && Ascii.eqb b "="%char then rest else text
  | _ => text
  end.

(** The number before the colon of [state] is 4, "ACTIVE". *)
Definition active (state : string) : bool :=
  let number := match partition ":"%char state with Some (n, _) => n | None => state end in
  eqb (strip number) "4".

(** [verbs] are the ibdev names of the uverbs entries that have a device node;
    [port_states] are the ports of a device with the text of their state. *)
Definition visible_ports (hca : string) (verbs : list string)
    (port_states : string → list (string * string)) : list string :=
  let excluded := split_commas (remove_exclusion hca) in
  d ← sort_by id (distinct (strip <$> verbs));
  p ← sort_by fst (port_states d);
  let name := d +:+ ":" +:+ p.1 in
  if negb (mem name excluded) && active p.2 then [name] else [].

(** ** [_select] *)

(** The operations the search uses. *)
Class Rig (M : Type → Type) := {
  rig_ret :: MRet M;
  rig_bind :: MBind M;
  fail : ∀ {A}, exn → M A;
  out_of_fuel : ∀ {A}, M A;
  clock : M Q;
  (** publish the candidate, then measure it on all members *)
  trial : selection → Q → M json;
  choose : selection → M unit;
}.

(** The local variables of [_select]. *)
Record search := Search {
  seen : list selection;
  best_score : flt;
  winner : option selection;
  improved : bool;
}.

(** The selections with one port of one member removed. *)
Definition shrink_member (parent : selection) (member_index : nat) (own : list string) : list selection :=
  if bool_decide (1 < length own)
  then (λ removed, <[member_index := delete removed own]> parent) <$> seq 0 (length own)
  else [].
Definition shrink (parent : selection) : list selection := imap (shrink_member parent) parent ≫= id.

(** [next_candidates]: a dictionary by signature, so each selection once. *)
Definition next_candidates (tried : list selection) (parents : list selection) : list selection :=
  distinct (keep (λ c, negb (mem c tried)) (parents ≫= shrink)).

Section Select.
Context {M : Type → Type} `{Rig M}.
(** [statistics.mean(math.log(row["seconds"]) for row in rows)] *)
Variable score : json → outcome flt.
Variable deadline : Q.

Definition lift {A} (r : outcome A) : M A := match r with Ok a => mret a | Raise e => fail e end.

(** The [for] loop over the candidates. *)
Fixpoint try_candidates (total offset : nat) (candidates : list selection) (st : search) : M search :=
  match candidates with
  | [] => mret st
  | candidate :: candidates =>
      if mem candidate (seen st) then try_candidates total (S offset) candidates st else
      let st := Search (candidate :: seen st) (best_score st) (winner st) (improved st) in
      now ← clock;
      let timeout := ((deadline - now) / inject_Z (Z.of_nat (total - offset) + 1))%Q in
      if Qle_bool timeout 0
      then fail (TimeoutError "MCCL calibration exceeded the engine startup deadline") else
      rows ← trial candidate timeout;
      match rows with
      | JNull => try_candidates total (S offset) candidates st
      | rows =>
          x ← lift (score rows);
          try_candidates total (S offset) candidates
            (if fltb x (best_score st) then Search (seen st) x (Some candidate) true else st)
      end
  end.

(** The [while] loop. *)
Fixpoint search_rounds (fuel : nat) (candidates : list selection) (st : search) : M (option selection) :=
  match fuel, candidates with
  | O, _ => out_of_fuel
  | _, [] => mret (winner st)
  | S fuel, _ =>
      st ← try_candidates (length candidates) 0 candidates
             (Search (seen st) (best_score st) (winner st) false);
      match winner st with
      | Some w =>
          if improved st then search_rounds fuel (next_candidates (seen st) [w]) st else mret (Some w)
      | None => search_rounds fuel (next_candidates (seen st) candidates) st
      end
  end.

(** [_select] *)
Definition select (fuel : nat) (initial : selection) : M selection :=
  w ← search_rounds fuel [initial] (Search [] PosInf None false);
  match w with
  | None => fail (RuntimeError "No MCCL network candidate completed on every member")
  | Some w => choose w ;; mret w
  end.
End Select.

(** ** Programs of the members *)

(** A member's program with [self.trials] as state. *)
Definition M (A : Type) : Type := nat → prog (result A * nat).
#[export] Instance M_ret : MRet M := λ A a t, Ret (Returned a, t).
#[export] Instance M_bind : MBind M := λ A B k m t,
  pbind (m t) (λ r, match r.1 with
                    | Returned a => k a r.2
                    | Raised e => Ret (Raised e, r.2)
                    | Unfinished => Ret (Unfinished, r.2)
                    end).
Definition m_raise {A} (e : exn) : M A := λ t, Ret (Raised e, t).
Definition m_fuel {A} : M A := λ t, Ret (Unfinished, t).
Definition m_put (k : key) (v : value) : M unit := λ t, Put k v (Ret (Returned tt, t)).
Definition m_take (k : key) : M value := λ t, Take k (λ v, Ret (Returned v, t)).
Definition m_ask (q : query) : M (reply_to q) := λ t, Ask q (λ a, Ret (Returned a, t)).
Definition m_trials : M nat := λ t, Ret (Returned t, t).
Definition m_advance : M unit := λ t, Ret (Returned tt, S t).
(** [try: m except Exception as error: h error] and [try: m finally: c] *)
Definition m_catch {A} (m : M A) (h : exn → M A) : M A := λ t,
  pbind (m t) (λ r, match r.1 with Raised e => h e r.2 | _ => Ret r end).
Definition m_finally {A} (m : M A) (c : M unit) : M A := λ t,
  pbind (m t) (λ r, match r.1 with
                    | Unfinished => Ret (Unfinished, r.2)
                    | _ => pbind (c r.2) (λ r', match r'.1 with
                                               | Returned _ => Ret (r.1, r'.2)
                                               | Raised e => Ret (Raised e, r'.2)
                                               | Unfinished => Ret (Unfinished, r'.2)
                                               end)
                    end).
Fixpoint m_collect {A} (f : nat → M A) (l : list nat) : M (list A) :=
  match l with
  | [] => mret []
  | i :: l => x ← f i; xs ← m_collect f l; mret (x :: xs)
  end.

(** The member found at [member/<i>], the status at [trial/<k>/<i>], the command.
    Nothing else is ever stored under such a key, so the other branches are not
    reached: programs that end do not end in [Unfinished]. *)
Definition take_member (i : nat) : M member :=
  v ← m_take (KMember i); match v with VMember m => mret m | _ => m_fuel end.
Definition take_status (k i : nat) : M status :=
  v ← m_take (KTrial k i); match v with VStatus s => mret s | _ => m_fuel end.
Definition take_command (k : nat) : M command :=
  v ← m_take (KCommand k); match v with VCommand c => mret c | _ => m_fuel end.

(** What a member makes of its probe: its rows and its status. *)
Definition read_probe (r : probe) : json * status :=
  match r with
  | Crashed => (JNull, Status false None)
  | Printed rows => (rows, Status true None)
  | Broken e => (JNull, Status false (Some e))
  end.

Fixpoint first_error (i : nat) (statuses : list status) : option (nat * string) :=
  match statuses with
  | [] => None
  | s :: statuses => match error s with Some e => Some (i, e) | None => first_error (S i) statuses end
  end.
Definition failed_member (i : nat) (e : string) : exn :=
  RuntimeError ("MCCL calibration member " +:+ str_Z (Z.of_nat i) +:+ " failed: " +:+ e).

(** What all statuses together say about a trial. *)
Definition conclude (rows : json) (statuses : list status) : outcome json :=
  match first_error 0 statuses with
  | Some (i, e) => Raise (failed_member i e)
  | None => Ok (if forallb ok statuses then rows else JNull)
  end.

Section Member.
Variable score : json → outcome flt.
Variable str_exn : exn → string.
Variable deadline : Q.
Variables index count : nat.
Variable members : list member.

Definition options_of (timeout : Q) : probe_options :=
  Options (sum_list (gpus <$> take index members)) (sum_list (gpus <$> members))
    (match members !! index with Some m => gpus m | None => 0 end) timeout.

(** [_measure] *)
Definition measure (candidate : selection) (timeout : Q) : M json :=
  match candidate !! index with
  | None => m_raise IndexError
  | Some own =>
      k ← m_trials;
      r ← m_ask (Probe k (options_of timeout) own);
      let '(rows, s) := read_probe r in
      m_put (KTrial k index) (VStatus s) ;;
      statuses ← m_collect (take_status k) (seq 0 count);
      m_advance ;;
      match conclude rows statuses with Ok rows => mret rows | Raise e => m_raise e end
  end.

(** The leader's operations on the store. *)
Definition m_clock : M Q := k ← m_trials; m_ask (Monotonic k).
Definition m_trial (candidate : selection) (timeout : Q) : M json :=
  k ← m_trials;
  m_put (KCommand k) (VCommand (TryPorts candidate timeout)) ;;
  measure candidate timeout.
Definition m_choose (w : selection) : M unit :=
  k ← m_trials; m_put (KCommand k) (VCommand (Chosen w)).
#[local] Instance store_rig : Rig M := {
  fail := @m_raise; out_of_fuel := @m_fuel; clock := m_clock; trial := m_trial; choose := m_choose;
}.

(** The leader's branch of [run], with its [except] clause. *)
Definition lead (fuel : nat) : M selection :=
  m_catch (select score deadline fuel (ports <$> members))
    (λ e, k ← m_trials; m_put (KCommand k) (VCommand (GiveUp (str_exn e))) ;; m_raise e).

(** The other members follow the commands. *)
Fixpoint follow (fuel : nat) : M selection :=
  match fuel with
  | O => m_fuel
  | S fuel =>
      k ← m_trials;
      c ← take_command k;
      match c with
      | GiveUp e => m_raise (RuntimeError e)
      | Chosen w => mret w
      | TryPorts candidate timeout => measure candidate timeout ;; follow fuel
      end
  end.

(** There is nothing to calibrate: a member opted out or has no ports or GPUs, or
    nobody has a choice. *)
Definition nothing_to_do : bool :=
  existsb skip members
  || existsb (λ m, bool_decide (ports m = []) || bool_decide (gpus m = 0)) members
  || forallb (λ m, bool_decide (length (ports m) = 1)) members.

(** [run]; the result is the new value of [MCCL_IB_HCA], if any. *)
Definition run_calibration (fuel : nat) : M (option (list string)) :=
  m_finally
    (if nothing_to_do then mret None else
     w ← (if bool_decide (index = 0) then lead fuel else follow fuel);
     match w !! index with Some own => mret (Some own) | None => m_raise IndexError end)
    (m_put (KFinished index) VDone ;;
     if bool_decide (index = 0) then _ ← m_collect (λ i, m_take (KFinished i)) (seq 0 count); mret tt
     else mret tt).
End Member.

(** [__init__] and [run] of the member [index] that found [own]. *)
Definition calibrate (score : json → outcome flt) (str_exn : exn → string) (deadline : Q) (index count : nat)
    (own : member) (fuel : nat) : M (option (list string)) :=
  m_put (KMember index) (VMember own) ;;
  members ← m_collect take_member (seq 0 count);
  run_calibration score str_exn deadline index count members fuel.

(** ** The specification *)

(** What the search has done: how many trials, whether the last one broke the whole
    group, and what every candidate was measured with, newest first. *)
Record gstate := GState {
  g_trials : nat;
  g_broken : bool;
  g_log : list (selection * json);
}.

(** A search without processes. *)
Definition G (A : Type) : Type := gstate → result A * gstate.
#[export] Instance G_ret : MRet G := λ A a g, (Returned a, g).
#[export] Instance G_bind : MBind G := λ A B k m g,
  match m g with
  | (Returned a, g') => k a g'
  | (Raised e, g') => (Raised e, g')
  | (Unfinished, g') => (Unfinished, g')
  end.

Section Specification.
Variables (members : list member).
Variables (readings : nat → Q) (probes : nat → nat → probe_options → list string → probe).

(** What member [i] makes of trial [k]. *)
Definition own_probe (k : nat) (c : selection) (timeout : Q) (i : nat) : json * status :=
  read_probe (probes i k (options_of i members timeout) (default [] (c !! i))).
(** What the group makes of it, with the rows of member [i]. *)
Definition trial_result (k : nat) (c : selection) (timeout : Q) (i : nat) : outcome json :=
  conclude (own_probe k c timeout i).1
    ((λ j, (own_probe k c timeout j).2) <$> seq 0 (length members)).

Definition g_trial (c : selection) (timeout : Q) : G json := λ g,
  match trial_result (g_trials g) c timeout 0 with
  | Ok rows => (Returned rows, GState (S (g_trials g)) false ((c, rows) :: g_log g))
  | Raise e => (Raised e, GState (S (g_trials g)) true (g_log g))
  end.
Definition search_rig : Rig G := {|
  rig_ret := G_ret; rig_bind := G_bind;
  fail := λ A e g, (Raised e, g); out_of_fuel := λ A g, (Unfinished, g);
  clock := λ g, (Returned (readings (g_trials g)), g); trial := g_trial; choose := λ _ g, (Returned tt, g);
|}.

(** The sequential search over the whole group. *)
Definition greedy (score : json → outcome flt) (deadline : Q) (fuel : nat) : result selection * gstate :=
  @select G search_rig score deadline fuel (ports <$> members) (GState 0 false []).
End Specification.
