(* ===== verification/McclProofs.v ===== *)
(** * Properties of the calibration search

    The sequential search ends within one round per port, tries only selections
    that leave every member a port of its own, and its winner is locally optimal:
    no selection that was measured is faster, and every selection with one port
    less was measured. *)

From stdpp Require Import list.
From S2P Require Import Prelude Text Effects Network Mccl.
#[local] Open Scope nat_scope.

Lemma fltb_trans x y z : fltb x y = true → fltb y z = true → fltb x z = true.
Proof.
  destruct x as [p| | |], y as [q| | |], z as [r| | |]; simpl; try done.
  rewrite !negb_true_iff. intros H1 H2. apply not_true_iff_false. rewrite Qle_bool_iff. intros Hle.
  apply not_true_iff_false in H1, H2. rewrite Qle_bool_iff in H1, H2. apply Qnot_le_lt in H1, H2.
  eapply Qlt_irrefl, Qlt_trans; [exact H1|]. by eapply Qlt_le_trans.
Qed.
Lemma fltb_irrefl x : fltb x x = false.
Proof. destruct x as [q| | |]; simpl; try done. apply negb_false_iff, Qle_bool_iff, Qle_refl. Qed.

Lemma shrink_in parent c :
  c ∈ shrink parent ↔ ∃ i own r, parent !! i = Some own ∧ 1 < length own ∧ r < length own ∧ c = <[i := delete r own]> parent.
Proof.
  unfold shrink. rewrite list_elem_of_bind. split.
  - intros (l & Hc & (i & own & -> & Hi)%elem_of_lookup_imap). unfold shrink_member in Hc.
    destruct (bool_decide (1 < length own)) eqn:E; [|by apply elem_of_nil in Hc]. apply bool_decide_eq_true in E.
    apply list_elem_of_fmap in Hc as (r & -> & Hr%elem_of_seq). exists i, own, r. split_and!; [done..|lia|done].
  - intros (i & own & r & Hi & Hl & Hr & ->). eexists. split; [|by apply elem_of_lookup_imap_2].
    unfold id, shrink_member. rewrite bool_decide_true by done. apply list_elem_of_fmap. exists r.
    split; [done|]. apply elem_of_seq. lia.
Qed.

(** The number of ports of a selection. *)
Definition size (c : selection) : nat := sum_list (length <$> c).

Lemma size_insert c i own own' :
  c !! i = Some own → size (<[i := own']> c) + length own = size c + length own'.
Proof.
  unfold size. revert i. induction c as [|x c IH]; intros [|i] Hi; simpl in *; try done.
  - injection Hi as ->. lia.
  - specialize (IH i Hi). unfold fmap in IH. lia.
Qed.
Lemma shrink_size parent c : c ∈ shrink parent → S (size c) = size parent.
Proof.
  intros (i & own & r & Hi & Hl & Hr & ->)%shrink_in. pose proof (size_insert parent i own (delete r own) Hi) as Hs.
  rewrite length_delete in Hs by (by apply lookup_lt_is_Some_2). lia.
Qed.

Lemma next_candidates_in tried parents c :
  c ∈ next_candidates tried parents ↔ (c ∉ tried) ∧ ∃ parent, parent ∈ parents ∧ c ∈ shrink parent.
Proof.
  unfold next_candidates, mem. rewrite elem_of_distinct, elem_of_keep, negb_true_iff, bool_decide_eq_false.
  rewrite list_elem_of_bind. naive_solver.
Qed.

Section Search.
Variables (members : list member) (score : json → outcome flt) (deadline : Q).
Variables (readings : nat → Q) (probes : nat → nat → probe_options → list string → probe).
#[local] Instance spec_rig : Rig G := search_rig members readings probes.
Abbreviation try_candidates := (try_candidates score deadline).
Abbreviation search_rounds := (search_rounds score deadline).

(** ** Reasoning about searches *)

Definition returns {A} (P : gstate → Prop) (m : G A) (Q : A → gstate → Prop) : Prop :=
  ∀ g, P g → match m g with (Returned a, g') => Q a g' | _ => True end.

Lemma returns_ret {A} P (a : A) Q : (∀ g, P g → Q a g) → returns P (mret a) Q.
Proof. intros HQ g HP. by apply HQ. Qed.
Lemma returns_fail {A} P e (Q : A → gstate → Prop) : returns P (fail e) Q.
Proof. by intros g HP. Qed.
Lemma returns_bind {A B} P (m : G A) (k : A → G B) R Q :
  returns P m R → (∀ a, returns (R a) (k a) Q) → returns P (m ≫= k) Q.
Proof.
  intros Hm Hk g HP. unfold mbind. simpl. unfold G_bind. specialize (Hm g HP).
  destruct (m g) as [[a|e|] g']; [by apply Hk|done..].
Qed.
Lemma returns_weaken {A} P P' (m : G A) Q Q' :
  returns P' m Q' → (∀ g, P g → P' g) → (∀ a g, Q' a g → Q a g) → returns P m Q.
Proof. intros Hm HP HQ g Hg. specialize (Hm g (HP g Hg)). destruct (m g) as [[a|e|] g']; auto. Qed.
Lemma returns_clock P Q : (∀ t g, P g → Q t g) → returns P clock Q.
Proof. intros HQ g HP. by apply HQ. Qed.
Lemma returns_trial P c timeout Q :
  (∀ rows k b log, P (GState k b log) → Q rows (GState (S k) false ((c, rows) :: log))) →
  returns P (trial c timeout) Q.
Proof.
  intros HQ [k b log] HP. simpl. unfold g_trial. simpl. destruct (trial_result _ _ _ _ _ _); [|done]. by eapply HQ.
Qed.
Lemma returns_fact {A} (F : Prop) P (m : G A) Q : (F → returns P m Q) → returns (λ g, F ∧ P g) m Q.
Proof. intros Hm g [HF HP]. by apply Hm. Qed.

(** ** The best so far *)

(** The log has what was seen; the best score is the winner's, and no measured
    selection is faster. *)
Definition best_so_far (st : search) (g : gstate) : Prop :=
  (∀ c, c ∈ seen st ↔ c ∈ (g_log g).*1) ∧
  (∀ c r, (c, r) ∈ g_log g → r = JNull ∨ ∃ x, score r = Ok x ∧ fltb x (best_score st) = false) ∧
  (∀ w, winner st = Some w → ∃ r, (w, r) ∈ g_log g ∧ r ≠ JNull ∧ score r = Ok (best_score st)).

(** How the variables change over candidates. *)
Definition tried (cands : list selection) (st st' : search) : Prop :=
  seen st ⊆ seen st' ∧ cands ⊆ seen st' ∧
  ((improved st' = improved st ∧ winner st' = winner st) ∨
   (improved st' = true ∧ ∃ c, c ∈ cands ∧ winner st' = Some c)).

Lemma tried_cons c cands st st1 st' :
  seen st ⊆ seen st1 → c ∈ seen st1 →
  (improved st1 = improved st ∧ winner st1 = winner st ∨ improved st1 = true ∧ winner st1 = Some c) →
  tried cands st1 st' → tried (c :: cands) st st'.
Proof.
  intros Hs Hc H1 (Hs' & Hcs & H2). split_and!; [set_solver|set_solver|].
  destruct H2 as [[Hi Hw]|(Hi & c' & ? & Hw)].
  - rewrite Hi, Hw. destruct H1 as [[-> ->]|[-> ->]]; [by left|]. right. split; [done|]. exists c. split; [left|done].
  - right. split; [done|]. exists c'. split; [by right|done].
Qed.

Lemma best_null st c k b log :
  best_so_far st (GState k b log) → c ∉ seen st →
  best_so_far (Search (c :: seen st) (best_score st) (winner st) (improved st)) (GState (S k) false ((c, JNull) :: log)).
Proof.
  intros (Hs & Hb & Hw) Hc. split_and!; simpl in *.
  - intros c'. rewrite !elem_of_cons, Hs. done.
  - intros c' r [[= -> ->]|?]%elem_of_cons; [by left|by eapply Hb].
  - intros w Ew. destruct (Hw w Ew) as (r & ? & ? & ?). exists r. split; [by right|done].
Qed.

Lemma best_scored st c k b log rows x :
  best_so_far st (GState k b log) → c ∉ seen st → rows ≠ JNull → score rows = Ok x →
  let st1 := Search (c :: seen st) (best_score st) (winner st) (improved st) in
  best_so_far (if fltb x (best_score st1) then Search (seen st1) x (Some c) true else st1)
    (GState (S k) false ((c, rows) :: log)).
Proof.
  intros (Hs & Hb & Hw) Hc Hn Hx. simpl in *.
  assert (∀ c', c' ∈ c :: seen st ↔ c' ∈ ((c, rows) :: log).*1) as Hs'.
  { intros c'. rewrite fmap_cons, !elem_of_cons, Hs. done. }
  destruct (fltb x (best_score st)) eqn:E; split_and!; simpl; try exact Hs'.
  - intros c' r [[= -> ->]|Hin]%elem_of_cons.
    + right. exists x. split; [done|apply fltb_irrefl].
    + destruct (Hb c' r Hin) as [?|(y & Hy & Ey)]; [by left|right]. exists y. split; [done|].
      destruct (fltb y x) eqn:Exy; [|done]. by rewrite (fltb_trans y x _ Exy E) in Ey.
  - intros w [= <-]. exists rows. split_and!; [left|done..].
  - intros c' r [[= -> ->]|Hin]%elem_of_cons; [right; by exists x|by eapply Hb].
  - intros w Ew. destruct (Hw w Ew) as (r & ? & ? & ?). exists r. split; [by right|done].
Qed.

Lemma try_candidates_best total offset cands st :
  returns (best_so_far st) (try_candidates total offset cands st) (λ st' g, tried cands st st' ∧ best_so_far st' g).
Proof.
  revert offset st. induction cands as [|c cands IH]; intros offset st.
  { apply returns_ret. intros g Hg. split; [|done]. split_and!; [done|set_solver|by left]. }
  cbn [Mccl.try_candidates]. unfold mem. case_bool_decide as Hc.
  { eapply returns_weaken; [apply IH|done|]. intros st' g [Ht Hg]. split; [|done].
    eapply tried_cons; [done|done|by left|done]. }
  cbv zeta. eapply returns_bind with (R := λ _, best_so_far st); [by apply returns_clock|]. intros t.
  destruct (Qle_bool _ _); [apply returns_fail|].
  eapply returns_bind with (R := λ rows g, ∃ k b log, g = GState (S k) false ((c, rows) :: log) ∧ best_so_far st (GState k b log)).
  { apply returns_trial. intros rows k b log Hg. by exists k, b, log. }
  intros rows. assert (rows = JNull ∨ rows ≠ JNull) as [->|Hn] by (destruct rows; auto).
  { eapply returns_weaken; [apply IH| |].
    - intros g (k & b & log & -> & Hg). by eapply best_null.
    - intros st' g [Ht Hg]. split; [|done]. eapply tried_cons; [| | |exact Ht]; simpl; [set_solver|left|by left]. }
  set (st1 := Search (c :: seen st) (best_score st) (winner st) (improved st)).
  assert (returns (λ g, ∃ k b log, g = GState (S k) false ((c, rows) :: log) ∧ best_so_far st (GState k b log))
    (x ← lift (score rows); try_candidates total (S offset) cands
       (if fltb x (best_score st1) then Search (seen st1) x (Some c) true else st1))
    (λ st' g, tried (c :: cands) st st' ∧ best_so_far st' g)) as Hgo; [|by destruct rows].
  eapply returns_bind with (R := λ x g, score rows = Ok x ∧
    ∃ k b log, g = GState (S k) false ((c, rows) :: log) ∧ best_so_far st (GState k b log)).
  { destruct (score rows) as [x|e]; [|apply returns_fail]. by apply returns_ret. }
  intros x. apply returns_fact. intros Hx. eapply returns_weaken; [apply IH| |].
  - intros g (k & b & log & -> & Hg). by eapply best_scored.
  - intros st' g [Ht Hg]. split; [|done]. eapply tried_cons; [| | |exact Ht]; destruct (fltb _ _); simpl;
      try set_solver; try by left.
Qed.

(** The removals of the winner are seen or about to be tried. *)
Definition surrounded (cands : list selection) (st : search) : Prop :=
  ∀ w, winner st = Some w → ∀ c, c ∈ shrink w → c ∈ seen st ∨ c ∈ cands.

(** The winner [w] after the search: nothing measured is faster, and every removal
    was measured. *)
Definition optimal (w : selection) (g : gstate) : Prop :=
  ∃ r x, (w, r) ∈ g_log g ∧ r ≠ JNull ∧ score r = Ok x ∧
    (∀ c r', (c, r') ∈ g_log g → r' = JNull ∨ ∃ y, score r' = Ok y ∧ fltb y x = false) ∧
    (∀ c, c ∈ shrink w → ∃ r', (c, r') ∈ g_log g).

Lemma optimal_of st w g :
  best_so_far st g → winner st = Some w → (∀ c, c ∈ shrink w → c ∈ seen st) → optimal w g.
Proof.
  intros (Hs & Hb & Hw) Ew Hsh. destruct (Hw w Ew) as (r & Hr & Hn & Hx). exists r, (best_score st).
  split_and!; [done..|]. intros c Hc. apply Hsh, Hs, list_elem_of_fmap in Hc as ([c' r'] & -> & ?). by exists r'.
Qed.

Lemma search_rounds_best fuel cands st :
  surrounded cands st →
  returns (best_so_far st) (search_rounds fuel cands st) (λ w g, ∀ x, w = Some x → optimal x g).
Proof.
  revert cands st. induction fuel as [|fuel IH]; intros cands st Hsur; [by intros g _|].
  destruct cands as [|c0 cands0] eqn:Ec.
  { apply returns_ret. intros g Hg x Ex. eapply optimal_of; [done..|]. intros c Hc.
    destruct (Hsur x Ex c Hc) as [?|Hn]; [done|by apply elem_of_nil in Hn]. }
  cbn [Mccl.search_rounds]. rewrite <- Ec in *. clear Ec c0 cands0.
  eapply returns_bind; [eapply returns_weaken; [apply try_candidates_best|by intros g Hg|by intros a g Hg]|].
  intros st'. apply returns_fact.
  intros (Hseen & Hcs & Hch). simpl in Hseen, Hch.
  destruct (winner st') as [w|] eqn:Ew.
  - destruct (improved st') eqn:Ei.
    + apply IH. intros w' Ew' c Hc. assert (w' = w) as -> by congruence.
      destruct (decide (c ∈ seen st')); [by left|right]. apply next_candidates_in. split; [done|].
      exists w. split; [left|done].
    + apply returns_ret. intros g Hg x [= <-]. eapply optimal_of; [done..|]. intros c Hc.
      destruct Hch as [[_ Hw]|[? _]]; [|done]. destruct (Hsur w (eq_sym Hw) c Hc) as [?|?]; [by apply Hseen|by apply Hcs].
  - apply IH. intros w' Ew'. congruence.
Qed.

(** ** Termination *)

(** [m] does not stop for lack of fuel. *)
Definition ends {A} (m : G A) : Prop := ∀ g, (m g).1 ≠ Unfinished.

Lemma ends_bind {A B} (m : G A) (k : A → G B) (F : A → Prop) :
  ends m → returns (λ _, True) m (λ a _, F a) → (∀ a, F a → ends (k a)) → ends (m ≫= k).
Proof.
  intros Hm HF Hk g. unfold mbind. simpl. unfold G_bind. specialize (Hm g). specialize (HF g I).
  destruct (m g) as [[a|e|] g']; [by apply Hk|done..].
Qed.
Lemma returns_any {A} (m : G A) : returns (λ _, True) m (λ _ _, True).
Proof. intros g _. by destruct (m g) as [[]]. Qed.

Lemma try_candidates_ends total offset cands st : ends (try_candidates total offset cands st).
Proof.
  revert offset st. induction cands as [|c cands IH]; intros offset st; [done|].
  cbn [Mccl.try_candidates]. destruct (mem _ _); [apply IH|]. cbv zeta.
  eapply ends_bind; [done|apply returns_any|]. intros t _. destruct (Qle_bool _ _); [done|].
  eapply ends_bind; [|apply returns_any|].
  { intros g. simpl. unfold g_trial. by destruct (trial_result _ _ _ _ _ _). }
  intros rows _. destruct rows; try apply IH.
  all: eapply ends_bind; [by destruct (score _)|apply returns_any|]; intros y _; apply IH.
Qed.

(** The winner is one of the candidates, or unchanged. *)
Lemma try_candidates_winner total offset cands st :
  returns (λ _, True) (try_candidates total offset cands st) (λ st' _,
    improved st' = improved st ∧ winner st' = winner st ∨ improved st' = true ∧ ∃ c, c ∈ cands ∧ winner st' = Some c).
Proof.
  revert offset st. induction cands as [|c cands IH]; intros offset st; [apply returns_ret; by left|].
  assert (∀ offset st1, (improved st1 = improved st ∧ winner st1 = winner st ∨ improved st1 = true ∧ winner st1 = Some c) →
    returns (λ _, True) (try_candidates total offset cands st1) (λ st' _, improved st' = improved st ∧ winner st' = winner st ∨
      improved st' = true ∧ ∃ c', c' ∈ c :: cands ∧ winner st' = Some c')) as Hgo.
  { intros o st1 H1. eapply returns_weaken; [apply IH|done|].
    intros st' _ [[Hi Hw]|(Hi & c' & ? & Hw)].
    - rewrite Hi, Hw. destruct H1 as [[-> ->]|[-> ->]]; [by left|right]. split; [done|]. exists c. split; [left|done].
    - right. split; [done|]. exists c'. split; [by right|done]. }
  cbn [Mccl.try_candidates]. destruct (mem _ _); [apply Hgo; by left|]. cbv zeta.
  eapply returns_bind; [apply returns_any|]. intros t. destruct (Qle_bool _ _); [apply returns_fail|].
  eapply returns_bind; [apply returns_any|]. intros rows. destruct rows; try (apply Hgo; by left).
  all: eapply returns_bind; [apply returns_any|]; intros y; apply Hgo; destruct (fltb _ _); by auto.
Qed.

(** Every round removes a port. *)
Lemma search_rounds_ends fuel cands st n :
  Forall (λ c, size c = n) cands → n + 2 ≤ fuel → ends (search_rounds fuel cands st).
Proof.
  revert cands st n. induction fuel as [|fuel IH]; intros cands st n Hall Hf; [lia|].
  destruct cands as [|c0 cands0] eqn:Ec; [done|]. cbn [Mccl.search_rounds]. rewrite <- Ec in *. clear Ec.
  assert (∀ st' parents, (∀ p, p ∈ parents → size p = n) → ends (search_rounds fuel (next_candidates (seen st') parents) st')) as Hnext.
  { intros st' parents Hp. destruct (next_candidates (seen st') parents) as [|c1 cs] eqn:En; [destruct fuel; [lia|done]|].
    assert (∀ c, c ∈ c1 :: cs → S (size c) = n) as Hs.
    { intros c Hc. rewrite <- En in Hc. apply next_candidates_in in Hc as (_ & p & Hin & Hc).
      rewrite (shrink_size p c Hc). by apply Hp. }
    apply (IH _ _ (n - 1)); [|pose proof (Hs c1 ltac:(left)); lia].
    apply Forall_forall. intros c Hc%Hs. lia. }
  eapply ends_bind; [apply try_candidates_ends|apply try_candidates_winner|]. simpl. intros st' Hch.
  destruct (winner st') as [w|] eqn:Ew.
  - destruct (improved st'); [|done]. destruct Hch as [[? _]|(_ & c & Hc & Hw)]; [done|]. injection Hw as ->.
    apply Hnext. intros p ->%list_elem_of_singleton. by eapply Forall_forall in Hall.
  - apply Hnext. intros p Hp. by eapply Forall_forall in Hall.
Qed.

(** More fuel changes nothing once the search ends. *)
Lemma search_rounds_more d fuel cands st g :
  (search_rounds fuel cands st g).1 ≠ Unfinished →
  search_rounds (d + fuel) cands st g = search_rounds fuel cands st g.
Proof.
  revert cands st g. induction fuel as [|fuel IH]; intros cands st g Hne; [done|].
  rewrite Nat.add_succ_r. destruct cands as [|c cands]; [done|]. cbn [Mccl.search_rounds] in *.
  unfold mbind in *. simpl in *. unfold G_bind in *.
  match goal with |- context [match ?m with _ => _ end] => destruct m as [[st'|e|] g'] end; [|done..].
  destruct (winner st') as [w|]; [destruct (improved st')|]; [by apply IH|done|by apply IH].
Qed.

Abbreviation rounds := (2 + size (ports <$> members)).

Lemma greedy_more fuel :
  rounds ≤ fuel → greedy members readings probes score deadline fuel = greedy members readings probes score deadline rounds.
Proof.
  intros Hf. unfold greedy, select. unfold mbind. simpl. unfold G_bind.
  replace fuel with ((fuel - rounds) + rounds) by lia. rewrite search_rounds_more; [done|].
  apply (search_rounds_ends _ _ _ (size (ports <$> members))); [by constructor|lia].
Qed.

Lemma greedy_ends fuel : rounds ≤ fuel → (greedy members readings probes score deadline fuel).1 ≠ Unfinished.
Proof.
  intros Hf. unfold greedy, select. eapply ends_bind; [|apply returns_any|].
  - apply (search_rounds_ends _ _ _ (size (ports <$> members))); [by constructor|lia].
  - by intros [w|] _.
Qed.

(** ** Well-formed selections *)

(** Every member keeps at least one port, in the order it reported them. *)
Definition well_formed (c : selection) : Prop :=
  Forall2 (λ own m, own `sublist_of` ports m ∧ own ≠ []) c members.

Lemma shrink_well_formed parent c : well_formed parent → c ∈ shrink parent → well_formed c.
Proof.
  intros Hp (i & own & r & Hi & Hl & Hr & ->)%shrink_in. unfold well_formed in *.
  destruct (Forall2_lookup_l _ _ _ _ _ Hp Hi) as (m & Hm & Hsub & _).
  rewrite <- (list_insert_id members i m Hm). apply Forall2_insert; [done|]. split.
  - etrans; [apply sublist_delete|done].
  - intros E. assert (length (delete r own) = length own - 1) as Hd
      by (apply length_delete; by apply lookup_lt_is_Some_2). rewrite E in Hd. simpl in Hd. lia.
Qed.

(** [m] logs only well-formed selections. *)
Definition logs {A} (m : G A) : Prop :=
  ∀ g, Forall well_formed (g_log g).*1 → Forall well_formed (g_log (m g).2).*1.

Lemma logs_bind {A B} (m : G A) (k : A → G B) (F : A → Prop) :
  logs m → returns (λ _, True) m (λ a _, F a) → (∀ a, F a → logs (k a)) → logs (m ≫= k).
Proof.
  intros Hm HF Hk g Hg. unfold mbind. simpl. unfold G_bind. specialize (Hm g Hg). specialize (HF g I).
  destruct (m g) as [[a|e|] g']; [by apply Hk|done..].
Qed.

Lemma try_candidates_logs total offset cands st :
  Forall well_formed cands → logs (try_candidates total offset cands st).
Proof.
  revert offset st. induction cands as [|c cands IH]; intros offset st Hall; [by intros g|].
  apply Forall_cons in Hall as [Hc Hall]. cbn [Mccl.try_candidates]. destruct (mem _ _); [by apply IH|]. cbv zeta.
  eapply logs_bind; [by intros g|apply returns_any|]. intros t _. destruct (Qle_bool _ _); [by intros g|].
  eapply logs_bind; [|apply returns_any|].
  { intros g Hg. simpl. unfold g_trial. destruct (trial_result _ _ _ _ _ _); simpl; [by constructor|done]. }
  intros rows _. destruct rows; try by apply IH.
  all: eapply logs_bind; [by intros g; destruct (score _)|apply returns_any|]; intros y _; by apply IH.
Qed.

Lemma next_well_formed tried parents :
  Forall well_formed parents → Forall well_formed (next_candidates tried parents).
Proof.
  intros Hp. apply Forall_forall. intros c (_ & p & Hin & Hc)%next_candidates_in.
  eapply shrink_well_formed; [|done]. by eapply Forall_forall in Hp.
Qed.

Lemma search_rounds_logs fuel cands st :
  Forall well_formed cands → (∀ w, winner st = Some w → well_formed w) → logs (search_rounds fuel cands st).
Proof.
  revert cands st. induction fuel as [|fuel IH]; intros cands st Hall Hw; [by intros g|].
  destruct cands as [|c0 cands0] eqn:Ec; [by intros g|]. cbn [Mccl.search_rounds]. rewrite <- Ec in *. clear Ec.
  eapply logs_bind; [by apply try_candidates_logs|apply try_candidates_winner|]. simpl. intros st' Hch.
  assert (∀ w, winner st' = Some w → well_formed w) as Hw'.
  { intros w Ew. destruct Hch as [[_ Hs]|(_ & c & Hc & Hs)]; rewrite Hs in Ew; [by apply Hw|].
    injection Ew as ->. by eapply Forall_forall in Hall. }
  destruct (winner st') as [w|] eqn:Ew.
  - destruct (improved st'); [|by intros g]. apply IH; [|by rewrite Ew].
    apply next_well_formed. constructor; [by apply Hw'|done].
  - apply IH; [by apply next_well_formed|by rewrite Ew].
Qed.
End Search.

(** C39: the calibration search only ever tries well-formed selections: whatever
    the probes report and however the search ends, each candidate published to the
    group has exactly one part per member, and that part is a nonempty selection of
    the ports this member reported, in its order. *)
Theorem candidates_well_formed members score deadline readings probes fuel :
  Forall (λ m, ports m ≠ []) members →
  Forall (well_formed members) (g_log (greedy members readings probes score deadline fuel).2).*1.
Proof.
  intros Hp. assert (well_formed members (ports <$> members)) as H0.
  { apply Forall2_fmap_l. induction Hp; constructor; auto. }
  unfold greedy, select. eapply logs_bind; [| |intros [w|] _|]; simpl.
  - apply search_rounds_logs; [by constructor|done].
  - apply returns_any.
  - by intros g.
  - by intros g.
  - done.
Qed.

(** C35: the calibration search ends, and its winner is locally optimal.  With one
    round per port the search never runs out of rounds; when it returns a selection,
    that selection completed on every member, no selection that was measured has a
    better score, and every selection with one port less was measured too. *)
Theorem calibration_optimal members score deadline readings probes fuel :
  2 + size (ports <$> members) ≤ fuel →
  let '(r, g) := greedy members readings probes score deadline fuel in
  r ≠ Unfinished ∧ ∀ w, r = Returned w → optimal score w g.
Proof.
  intros Hf. pose proof (greedy_ends members score deadline readings probes fuel Hf) as He.
  destruct (greedy _ _ _ _ _ _) as [r g] eqn:E. split; [done|]. intros w ->.
  assert (returns (λ g, g = GState 0 false [])
    (@select G (search_rig members readings probes) score deadline fuel (ports <$> members)) (optimal score)) as Hr.
  { unfold select. eapply returns_bind.
    - eapply returns_weaken; [apply search_rounds_best| |by intros a g' Hg'].
      + by intros w'.
      + intros g' ->. split_and!; simpl; [done|by intros c r ?%elem_of_nil|done].
    - intros [w'|]; [|apply returns_fail]. intros g' Hg'. simpl. by apply Hg'. }
  specialize (Hr (GState 0 false []) eq_refl). unfold greedy in E. by rewrite E in Hr.
Qed.

(** ** A concrete group *)

(** Two members with two ports each; the second port of the first member is slow,
    and the second member's ports only help together. *)
Definition two_members : list member := [Member false ["a:1"; "b:1"] 8; Member false ["a:1"; "b:1"] 8].
Definition some_probes (i k : nat) (o : probe_options) (own : list string) : probe :=
  match i, own with
  | 0, ["a:1"] => Printed (JInt 1)
  | 0, ["b:1"] => Crashed
  | 0, _ => Printed (JInt 2)
  | _, _ => Printed (JInt 0)
  end.
Definition some_score (rows : json) : outcome flt :=
  match rows with JInt z => Ok (Fin (inject_Z z)) | _ => Raise (TypeError "rows") end.
Definition some_search : result selection * gstate :=
  greedy two_members (λ k, inject_Z (Z.of_nat k)) some_probes some_score 60 6.

Lemma candidates_well_formed_witness :
  length (g_log some_search.2) = 7 ∧ Forall (well_formed two_members) (g_log some_search.2).*1.
Proof.
  split; [vm_compute; reflexivity|].
  exact (candidates_well_formed two_members some_score 60 (λ k, inject_Z (Z.of_nat k)) some_probes 6
    ltac:(repeat constructor; discriminate)).
Defined.

Lemma calibration_optimal_witness :
  some_search.1 = Returned [["a:1"]; ["a:1"; "b:1"]] ∧ optimal some_score [["a:1"]; ["a:1"; "b:1"]] some_search.2.
Proof.
  assert (some_search.1 = Returned [["a:1"]; ["a:1"; "b:1"]]) as Hr by (vm_compute; reflexivity).
  split; [exact Hr|].
  pose proof (calibration_optimal two_members some_score 60 (λ k, inject_Z (Z.of_nat k)) some_probes 6
    ltac:(vm_compute; lia)) as Ho.
  fold some_search in Ho. destruct some_search as [r g]. exact (proj2 Ho _ Hr).
Defined.
