(* ===== verification/McclNetwork.v ===== *)
(** * Calibration as a distributed program

    The members' programs write every key of the store once, so their schedule does
    not matter; run in lockstep they compute what the sequential search computes.
    Together: in every schedule all members end, and they agree. *)

From Stdlib Require Import FunctionalExtensionality.
From stdpp Require Import list relations.
From S2P Require Import Prelude Text Effects Network Mccl McclProofs.
#[local] Open Scope nat_scope.

(** ** Every key is written once *)

Definition owner (k : key) : nat :=
  match k with KMember i => i | KCommand _ => 0 | KTrial _ i => i | KFinished i => i end.

Section Discipline.
Variable i : nat.

(** [m] started with [P] writes only fresh keys of its own; [Q] holds when it
    returns, [E] when it raises. *)
Definition tidy {A} (P : nat → gset key → Prop) (m : M A) (Q : A → nat → gset key → Prop)
    (E : nat → gset key → Prop) : Prop :=
  ∀ t W, P t W → writes_to owner i W (m t) (λ r W', match r.1 with
    | Returned a => Q a r.2 W' | Raised _ => E r.2 W' | Unfinished => True end).

Implicit Types P E : nat → gset key → Prop.

Lemma tidy_ret {A} P (a : A) Q E : (∀ t W, P t W → Q a t W) → tidy P (mret a) Q E.
Proof. intros HQ t W HP. by apply HQ. Qed.
Lemma tidy_raise {A} P e (Q : A → nat → gset key → Prop) E : (∀ t W, P t W → E t W) → tidy P (m_raise e) Q E.
Proof. intros HE t W HP. by apply HE. Qed.
Lemma tidy_fuel {A} P (Q : A → nat → gset key → Prop) E : tidy P m_fuel Q E.
Proof. by intros t W HP. Qed.
Lemma tidy_bind {A B} P (m : M A) (k : A → M B) R Q E :
  tidy P m R E → (∀ a, tidy (R a) (k a) Q E) → tidy P (m ≫= k) Q E.
Proof.
  intros Hm Hk t W HP. eapply writes_bind; [by apply Hm|]. intros [[a|e|] t'] W' H'; [by apply Hk|done..].
Qed.
Lemma tidy_trials P Q E : (∀ t W, P t W → Q t t W) → tidy P m_trials Q E.
Proof. intros HQ t W HP. by apply HQ. Qed.
Lemma tidy_ask P q Q E : (∀ a t W, P t W → Q a t W) → tidy P (m_ask q) Q E.
Proof. intros HQ t W HP a. by apply HQ. Qed.
Lemma tidy_take P k Q E : (∀ v t W, P t W → Q v t W) → tidy P (m_take k) Q E.
Proof. intros HQ t W HP v. by apply HQ. Qed.
Lemma tidy_put P k v Q E :
  owner k = i → (∀ t W, P t W → (k ∉ W) ∧ Q tt t ({[k]} ∪ W)) → tidy P (m_put k v) Q E.
Proof. intros Ho HQ t W HP. destruct (HQ t W HP). by split_and!. Qed.
Lemma tidy_advance P Q E : (∀ t W, P t W → Q tt (S t) W) → tidy P m_advance Q E.
Proof. intros HQ t W HP. by apply HQ. Qed.
Lemma tidy_weaken {A} P P' (m : M A) Q Q' E E' :
  tidy P' m Q' E' → (∀ t W, P t W → P' t W) → (∀ a t W, Q' a t W → Q a t W) → (∀ t W, E' t W → E t W) →
  tidy P m Q E.
Proof.
  intros Hm HP HQ HE t W H. eapply writes_weaken; [by apply Hm, HP|]. intros [[a|e|] t'] W' H'; simpl in *; auto.
Qed.
Lemma tidy_catch {A} P (m : M A) h Q E E' :
  tidy P m Q E' → (∀ e, tidy E' (h e) Q E) → tidy P (m_catch m h) Q E.
Proof.
  intros Hm Hh t W HP. eapply writes_bind; [by apply Hm|]. intros [[a|e|] t'] W' H'; simpl in *; [done|by apply Hh|done].
Qed.
Lemma tidy_finally {A} P (m : M A) c E0 Q0 :
  tidy P m Q0 E0 → (∀ a, tidy (Q0 a) c (λ _ _ _, True) (λ _ _, True)) → tidy E0 c (λ _ _ _, True) (λ _ _, True) →
  tidy P (m_finally m c) (λ _ _ _, True) (λ _ _, True).
Proof.
  intros Hm Hq He t W HP. eapply writes_bind; [by apply Hm|]. intros [[a|e|] t'] W' H'; simpl in *; [| |done];
    (eapply writes_bind; [by first [apply (Hq a)|apply He]|]; by intros [[b|e'|] t''] W'' _).
Qed.
(** Reading many values writes nothing. *)
Lemma tidy_collect {A} P (f : nat → M A) l E :
  (∀ x, tidy P (f x) (λ _, P) E) → tidy P (m_collect f l) (λ _, P) E.
Proof.
  intros Hf. induction l as [|x l IH]; [by apply tidy_ret|]. eapply tidy_bind; [apply Hf|]. intros a.
  eapply tidy_bind; [apply IH|]. intros b. by apply tidy_ret.
Qed.

Lemma tidy_collect_length {A} P (f : nat → M A) l E :
  (∀ x, tidy P (f x) (λ _, P) E) → tidy P (m_collect f l) (λ xs t W, length xs = length l ∧ P t W) E.
Proof.
  intros Hf. induction l as [|x l IH]; [by apply tidy_ret|]. eapply tidy_bind; [apply Hf|]. intros a.
  eapply tidy_bind; [apply IH|]. intros b. apply tidy_ret. intros t W [? ?]. simpl. auto.
Qed.

(** The keys of later trials are free: commands from [c] on, statuses from [t] on. *)
Definition free (c t : nat) (W : gset key) : Prop :=
  (KFinished i ∉ W) ∧ ∀ k, (c ≤ k → KCommand k ∉ W) ∧ (t ≤ k → KTrial k i ∉ W).

Variables (count : nat) (members : list member).

Lemma take_status_tidy P E k x : tidy P (take_status k x) (λ _, P) E.
Proof. eapply tidy_bind; [by apply (tidy_take P _ (λ _, P))|]. intros []; by first [apply tidy_ret|apply tidy_fuel]. Qed.
Lemma take_member_tidy P E x : tidy P (take_member x) (λ _, P) E.
Proof. eapply tidy_bind; [by apply (tidy_take P _ (λ _, P))|]. intros []; by first [apply tidy_ret|apply tidy_fuel]. Qed.
Lemma take_command_tidy P E k : tidy P (take_command k) (λ _, P) E.
Proof. eapply tidy_bind; [by apply (tidy_take P _ (λ _, P))|]. intros []; by first [apply tidy_ret|apply tidy_fuel]. Qed.

(** A measurement takes its own status key and goes on to the next trial. *)
Lemma measure_tidy candidate timeout E :
  (candidate !! i = None → ∀ t W, free (S t) t W → E t W) → (∀ t W, free t t W → E t W) →
  tidy (λ t W, free (S t) t W) (measure i count members candidate timeout) (λ _ t W, free t t W) E.
Proof.
  intros Hn HE. unfold measure. destruct (candidate !! i) as [own|]; [|by apply tidy_raise; auto].
  eapply tidy_bind with (R := λ k t W, k = t ∧ free (S t) t W); [by apply tidy_trials|]. intros k.
  eapply tidy_bind with (R := λ _ t W, k = t ∧ free (S t) t W); [by apply tidy_ask|]. intros r.
  destruct (read_probe r) as [rows s].
  eapply tidy_bind with (R := λ _ t W, k = t ∧ free (S t) (S t) W).
  { apply tidy_put; [done|]. intros t W [-> Hf]. split; [by apply (proj2 Hf t)|]. split; [done|].
    destruct Hf as [Hfin Hk]. split; [set_solver|]. intros k'. destruct (Hk k') as [Hc Ht].
    split; intros Hle; [set_solver by lia|]. assert (k' ≠ t) by lia. specialize (Ht ltac:(lia)). set_solver. }
  intros _. eapply tidy_bind with (R := λ _ t W, k = t ∧ free (S t) (S t) W).
  { apply (tidy_collect (λ t W, k = t ∧ free (S t) (S t) W)). intros x. apply take_status_tidy. }
  intros statuses. eapply tidy_bind with (R := λ _ t W, free t t W); [apply tidy_advance; by intros t W [_ ?]|].
  intros _. destruct (conclude _ _); [by apply tidy_ret|by apply tidy_raise].
Qed.

(** The rest of a run after the measurements. *)
Definition finish : M unit :=
  m_put (KFinished i) VDone ;;
  if bool_decide (i = 0) then _ ← m_collect (λ j, m_take (KFinished j)) (seq 0 count); mret tt else mret tt.
Lemma finish_tidy : tidy (λ _ W, KFinished i ∉ W) finish (λ _ _ _, True) (λ _ _, True).
Proof.
  eapply tidy_bind with (R := λ _ _ _, True); [by apply tidy_put|]. intros _. destruct (bool_decide _); [|by apply tidy_ret].
  eapply tidy_bind with (R := λ _ _ _, True); [|intros; by apply tidy_ret].
  apply (tidy_collect (λ _ _, True)). intros x. by apply tidy_take.
Qed.

Lemma follow_tidy fuel :
  tidy (λ t W, i ≠ 0 ∧ free t t W) (follow i count members fuel) (λ _ _ W, KFinished i ∉ W) (λ _ W, KFinished i ∉ W).
Proof.
  induction fuel as [|fuel IH]; [apply tidy_fuel|]. simpl.
  eapply tidy_bind with (R := λ k t W, i ≠ 0 ∧ free t t W); [by apply tidy_trials|]. intros k.
  eapply tidy_bind with (R := λ _ t W, i ≠ 0 ∧ free t t W); [apply (take_command_tidy (λ t W, i ≠ 0 ∧ free t t W))|].
  intros [candidate timeout|w|e].
  - eapply tidy_bind with (R := λ _ t W, i ≠ 0 ∧ free t t W); [|intros _; exact IH].
    destruct (decide (i = 0)) as [Hi|Hi]; [by intros t W [? _]|].
    eapply tidy_weaken; [apply (measure_tidy candidate timeout (λ t W, free (S t) t W))| | |].
    + done.
    + intros t W [Hf Hk]. split; [done|]. intros k'. split; [intros; apply Hk; lia|apply Hk].
    + intros t W (_ & Hf & Hk). split; [done|]. intros k'. split; [intros; apply Hk; lia|apply Hk].
    + by intros a t W ?.
    + by intros t W [? _].
  - apply tidy_ret. by intros t W (_ & ? & _).
  - apply tidy_raise. by intros t W (_ & ? & _).
Qed.
End Discipline.

Section Leader.
Variables (score : json → outcome flt) (str_exn : exn → string) (deadline : Q) (count : nat) (members : list member).
#[local] Instance rig : Rig M := store_rig 0 count members.
Abbreviation fresh := (λ t W, free 0 t t W).

Lemma trial_tidy c timeout :
  0 < length c → tidy 0 fresh (m_trial 0 count members c timeout) (λ _, fresh) fresh.
Proof.
  intros Hc. unfold m_trial.
  eapply tidy_bind with (R := λ k t W, k = t ∧ free 0 t t W); [by apply tidy_trials|]. intros k.
  eapply tidy_bind with (R := λ _ t W, free 0 (S t) t W).
  { apply tidy_put; [done|]. intros t W [-> Hf]. split; [by apply (proj2 Hf t)|].
    destruct Hf as [Hfin Hk]. split; [set_solver|]. intros k'. destruct (Hk k') as [Hcmd Ht].
    split; intros Hle; [|set_solver]. assert (k' ≠ t) by lia. specialize (Hcmd ltac:(lia)). set_solver. }
  intros _. apply measure_tidy; [|done]. intros Hn%lookup_ge_None. lia.
Qed.

Lemma lift_tidy {A} (r : outcome A) (P : nat → gset key → Prop) : tidy 0 P (lift r) (λ _, P) P.
Proof. destruct r; [by apply tidy_ret|by apply tidy_raise]. Qed.

(** Candidates have a part for the leader; so has the winner. *)
Definition led (w : option selection) : Prop := ∀ c, w = Some c → 0 < length c.

Lemma try_candidates_tidy total offset cands st :
  Forall (λ c, 0 < length c) cands → led (winner st) →
  tidy 0 fresh (try_candidates score deadline total offset cands st) (λ st' t W, led (winner st') ∧ fresh t W) fresh.
Proof.
  revert offset st. induction cands as [|c cands IH]; intros offset st Hall Hw; [by apply tidy_ret|].
  apply Forall_cons in Hall as [Hc Hall]. cbn [try_candidates]. destruct (mem _ _); [by apply IH|]. cbv zeta.
  eapply tidy_bind with (R := λ _, fresh).
  { eapply tidy_bind with (R := λ _, fresh); [by apply tidy_trials|]. intros k. by apply tidy_ask. }
  intros t. destruct (Qle_bool _ _); [by apply tidy_raise|].
  eapply tidy_bind with (R := λ _, fresh); [by apply trial_tidy|]. intros rows.
  destruct rows; try by apply IH.
  all: eapply tidy_bind with (R := λ _, fresh); [apply lift_tidy|]; intros y; apply IH; [done|].
  all: destruct (fltb _ _); [by intros ? [= <-]|done].
Qed.

Lemma shrink_length parent c : c ∈ shrink parent → length c = length parent.
Proof. intros (i & own & r & _ & _ & _ & ->)%shrink_in. apply length_insert. Qed.

Lemma next_candidates_led tried parents :
  Forall (λ c, 0 < length c) parents → Forall (λ c, 0 < length c) (next_candidates tried parents).
Proof.
  intros Hp. apply Forall_forall. intros c (_ & parent & Hin & Hc)%next_candidates_in.
  rewrite (shrink_length parent c Hc). by eapply Forall_forall in Hp.
Qed.

Lemma tidy_led {A} (st : search) (m : M A) Q E :
  (led (winner st) → tidy 0 fresh m Q E) → tidy 0 (λ t W, led (winner st) ∧ fresh t W) m Q E.
Proof. intros Hm t W [Hl Hf]. by apply Hm. Qed.

Lemma search_rounds_tidy fuel cands st :
  Forall (λ c, 0 < length c) cands → led (winner st) →
  tidy 0 fresh (search_rounds score deadline fuel cands st) (λ _, fresh) fresh.
Proof.
  revert cands st. induction fuel as [|fuel IH]; intros cands st Hall Hw; [apply tidy_fuel|].
  destruct cands as [|c cands]; [by apply tidy_ret|]. cbn [search_rounds].
  eapply tidy_bind; [by apply try_candidates_tidy|]. intros st'. apply tidy_led. intros Hw'.
  destruct (winner st') as [w|] eqn:Ew.
  - destruct (improved st'); [|by apply tidy_ret]. apply IH; [|by rewrite Ew]. apply next_candidates_led.
    constructor; [by apply Hw'|done].
  - apply IH; [by apply next_candidates_led|by rewrite Ew].
Qed.

Lemma lead_tidy fuel :
  0 < length members →
  tidy 0 fresh (lead score str_exn deadline 0 count members fuel) (λ _ _ W, KFinished 0 ∉ W) (λ _ W, KFinished 0 ∉ W).
Proof.
  intros Hm. unfold lead. eapply tidy_catch with (E' := fresh).
  - unfold select. eapply tidy_bind; [apply search_rounds_tidy|].
    + constructor; [by rewrite length_fmap|done].
    + by intros ? [=].
    + intros [w|]; [|by apply tidy_raise]. eapply tidy_bind with (R := λ _ _ W, KFinished 0 ∉ W); [|intros _; by apply tidy_ret].
      eapply tidy_bind with (R := λ k t W, k = t ∧ free 0 t t W); [by apply tidy_trials|]. intros k.
      apply tidy_put; [done|]. intros t W [-> [Hf Hk]]. split; [by apply (Hk t)|set_solver].
  - intros e. eapply tidy_bind with (R := λ k t W, k = t ∧ free 0 t t W); [by apply tidy_trials|]. intros k.
    eapply tidy_bind with (R := λ _ _ W, KFinished 0 ∉ W); [|intros _; by apply tidy_raise].
    apply tidy_put; [done|]. intros t W [-> [Hf Hk]]. split; [by apply (Hk t)|set_solver].
Qed.
End Leader.

(** The whole program of a member. *)
Lemma calibrate_tidy score str_exn deadline i count own fuel :
  0 < count →
  tidy i (λ t W, W = ∅) (calibrate score str_exn deadline i count own fuel) (λ _ _ _, True) (λ _ _, True).
Proof.
  intros Hn. unfold calibrate. eapply tidy_bind with (R := λ _ t W, free i t t W).
  { apply tidy_put; [done|]. intros t W ->. split; [set_solver|]. split; [set_solver|]. intros k. split; set_solver. }
  intros _. eapply tidy_bind.
  { apply (tidy_collect_length i (λ t W, free i t t W)). intros x. apply take_member_tidy. }
  intros ms. destruct (decide (length ms = length (seq 0 count))) as [Hl|Hl]; [|by intros t W [? _]].
  rewrite length_seq in Hl. unfold run_calibration.
  eapply tidy_finally with (Q0 := λ _ _ W, KFinished i ∉ W) (E0 := λ _ W, KFinished i ∉ W);
    [|intros a; apply finish_tidy|apply finish_tidy].
  destruct (nothing_to_do ms); [apply tidy_ret; by intros t W (_ & ? & _)|].
  eapply tidy_bind with (R := λ _ _ W, KFinished i ∉ W).
  - destruct (decide (i = 0)) as [->|Hi].
    + rewrite bool_decide_true by done. eapply tidy_weaken; [apply lead_tidy; lia|by intros t W [_ ?]|done..].
    + rewrite bool_decide_false by done. eapply tidy_weaken; [apply follow_tidy|by intros t W [_ ?]|done..].
  - intros w. destruct (w !! i); [by apply tidy_ret|by apply tidy_raise].
Qed.

(** ** The network *)

Section Network.
Variables (score : json → outcome flt) (str_exn : exn → string) (deadline : Q) (members : list member).
(** Readings of the leader's clock, and the probes of each member. *)
Variables (readings : nat → Q) (probes : nat → nat → probe_options → list string → probe).
Abbreviation count := (length members).

Definition environment (i : nat) (q : query) : reply_to q :=
  match q with Monotonic k => readings k | Probe k o own => probes i k o own end.
Abbreviation outcome_of := (result (option (list string)) * nat)%type.
Abbreviation step := (step environment outcome_of).

(** All members at the start. *)
Definition start (fuel : nat) : gmap key value * list (prog outcome_of) :=
  (∅, imap (λ i own, calibrate score str_exn deadline i count own fuel 0) members).

Lemma start_disciplined fuel : disciplined outcome_of owner (start fuel).
Proof.
  intros i p Hp. simpl in *. apply list_lookup_imap_Some in Hp as (own & Hi & ->). rewrite dom_empty_L.
  assert (0 < count) by (apply lookup_lt_Some in Hi; lia).
  eapply writes_weaken; [by apply calibrate_tidy|done].
Qed.

(** ** One trial in lockstep *)

Abbreviation alone := (alone environment).

Lemma alone_ask {A} i s q (next : reply_to q → prog A) : alone i (s, Ask q next) (s, next (environment i q)).
Proof. done. Qed.

Lemma collect_statuses i s k st l t :
  (∀ j, j ∈ l → s !! KTrial k j = Some (VStatus (st j))) →
  rtc (alone i) (s, m_collect (take_status k) l t) (s, Ret (Returned (st <$> l), t)).
Proof.
  induction l as [|j l IH]; intros Hl; [done|]. cbn [m_collect].
  eapply rtc_l; [unfold Network.alone; simpl; rewrite (Hl j) by left; done|]. simpl.
  etrans; [apply alone_bind, IH; intros j' Hj'; apply Hl; by right|]. done.
Qed.

(** The leader alone. *)
Lemma leader_steps s (P : nat → prog outcome_of) s' P' :
  rtc (alone 0) (s, P 0) (s', P' 0) → (∀ i, P (S i) = P' (S i)) → 0 < count →
  rtc step (s, P <$> seq 0 count) (s', P' <$> seq 0 count).
Proof.
  intros Hr Hsame Hn. destruct count as [|n]; [lia|].
  replace (P' <$> seq 0 (S n)) with (<[0 := P' 0]> (P <$> seq 0 (S n))).
  - by apply alone_steps with (p := P 0).
  - simpl. f_equal. rewrite <- fmap_S_seq, <-!list_fmap_compose. apply list_fmap_ext. intros _ j _. apply Hsame.
Qed.

Section Trial.
Variables (k : nat) (c : selection) (timeout : Q).

Abbreviation own_probe := (own_probe members probes k c timeout).
Abbreviation trial_result := (trial_result members probes k c timeout).
(** What member [i] publishes. *)
Definition trial_status (i : nat) : status := (own_probe i).2.
Definition published (s : gmap key value) (i : nat) : gmap key value :=
  <[KTrial k i := VStatus (trial_status i)]> s.

(** After publishing, a member waits for all statuses. *)
Definition waiting (i : nat) : prog (result json * nat) :=
  pbind (m_collect (take_status k) (seq 0 count) k) (λ r,
    match r.1 with
    | Returned statuses =>
        match conclude (own_probe i).1 statuses with
        | Ok rows => Ret (Returned rows, S r.2)
        | Raise e => Ret (Raised e, S r.2)
        end
    | Raised e => Ret (Raised e, r.2)
    | Unfinished => Ret (Unfinished, r.2)
    end).

Lemma measure_publish i s :
  length c = count → i < count →
  rtc (alone i) (s, measure i count members c timeout k) (published s i, waiting i).
Proof.
  intros Hlen Hi. unfold measure. destruct (lookup_lt_is_Some_2 c i) as [own Hown]; [by rewrite Hlen|]. rewrite Hown.
  eapply rtc_l; [apply alone_ask|]. simpl.
  unfold waiting, published, trial_status, Mccl.own_probe. rewrite Hown. simpl.
  destruct (read_probe _) as [rows st]. simpl. eapply rtc_l; [done|].
  simpl. unfold mbind at 1, M_bind at 1. match goal with |- rtc _ (_, pbind ?p ?f) (_, pbind ?p ?g) => replace f with g; [done|] end.
  apply functional_extensionality. intros [[statuses|e|] t]; simpl; try done. by destruct (conclude rows statuses).
Qed.

Definition trial_outcome (i : nat) : result json * nat :=
  (match trial_result i with Ok rows => Returned rows | Raise e => Raised e end, S k).

Lemma waiting_ends i s :
  (∀ j, j < count → s !! KTrial k j = Some (VStatus (trial_status j))) →
  rtc (alone i) (s, waiting i) (s, Ret (trial_outcome i)).
Proof.
  intros Hs. etrans; [apply alone_bind, (collect_statuses i s k trial_status)|].
  { intros j Hj%elem_of_seq. apply Hs. lia. }
  simpl. unfold trial_outcome, Mccl.trial_result. fold trial_status. by destruct (conclude _ _).
Qed.

Lemma published_lookup s n j :
  j < n → foldl published s (seq 0 n) !! KTrial k j = Some (VStatus (trial_status j)).
Proof.
  induction n as [|n IH]; intros Hj; [lia|]. rewrite seq_S, foldl_app. simpl. unfold published at 1.
  destruct (decide (j = n)) as [->|Hne]; [by rewrite lookup_insert_eq|].
  rewrite lookup_insert_ne by congruence. apply IH. lia.
Qed.

(** All members measure: the leader publishes the candidate, everybody probes it,
    and everybody learns the same result. *)
Lemma lockstep_trial f s (k0 : result json * nat → prog outcome_of)
    (kf : nat → result selection * nat → prog outcome_of) :
  length c = count →
  ∃ s', rtc step
    (s, (λ i, match i with
              | O => pbind (m_trial 0 count members c timeout k) k0
              | S _ => pbind (follow i count members (S f) k) (kf i)
              end) <$> seq 0 count)
    (s', (λ i, match i with
               | O => k0 (trial_outcome 0)
               | S _ => match trial_result i with
                        | Ok _ => pbind (follow i count members f (S k)) (kf i)
                        | Raise e => kf i (Raised e, S k)
                        end
               end) <$> seq 0 count).
Proof.
  intros Hlen. set (rest i (r : result json * nat) := match r.1 with
      | Returned _ => follow i count members f r.2
      | Raised e => Ret (Raised e, r.2)
      | Unfinished => Ret (Unfinished, r.2)
      end).
  set (s1 := <[KCommand k := VCommand (TryPorts c timeout)]> s).
  set (at_ (p : nat → prog (result json * nat)) i := match i with
       | O => pbind (p 0) k0
       | S _ => pbind (pbind (p i) (rest i)) (kf i)
       end).
  destruct (decide (count = 0)) as [H0|Hn]; [exists s; by rewrite H0|].
  exists (foldl published s1 (seq 0 count)). etrans.
  { apply (leader_steps s _ s1 (λ i, match i with
      | O => pbind (measure 0 count members c timeout k) k0
      | S _ => pbind (follow i count members (S f) k) (kf i) end)); [|done|lia].
    apply rtc_once. done. }
  etrans.
  { apply (round_robin environment _ count published s1 _ (at_ waiting)
      (λ s, s !! KCommand k = Some (VCommand (TryPorts c timeout)))); [by apply lookup_insert_eq|].
    intros i s' Hi Hs'. split; [|by unfold published; rewrite lookup_insert_ne].
    pose proof (measure_publish i s' Hlen Hi) as Hm.
    destruct i as [|i]; simpl; [by apply alone_bind|].
    eapply rtc_l; [unfold Network.alone; simpl; rewrite Hs'; done|]. simpl.
    by do 2 apply alone_bind. }
  set (s2 := foldl published s1 (seq 0 count)).
  assert (foldl (λ s _, s) s2 (seq 0 count) = s2) as Hs2 by (generalize s2; induction (seq 0 count); intros x; simpl; auto).
  rewrite <- Hs2 at 2. apply (round_robin environment _ count (λ s _, s) s2 _ _ (λ s, s = s2)); [done|].
  intros i s' Hi ->. split; [|done].
  pose proof (waiting_ends i s2 (λ j, published_lookup s1 count j)) as Hm.
  destruct i as [|i]; simpl; [apply (alone_bind _ _ _ _ _ _ k0 Hm)|].
  etrans; [do 2 eapply alone_bind; exact Hm|]. simpl. unfold trial_outcome, rest.
  by destruct (trial_result (S i)).
Qed.
End Trial.

(** ** The search in lockstep *)

#[local] Instance leader_rig : Rig M := store_rig 0 count members.
#[local] Instance spec_rig : Rig G := search_rig members readings probes.

Lemma pbind_assoc {A B D} (p : prog A) (f : A → prog B) (g : B → prog D) :
  pbind (pbind p f) g = pbind p (λ a, pbind (f a) g).
Proof.
  induction p as [r|x v next IH|x next IH|q next IH]; simpl; [done|by rewrite IH|f_equal..];
    apply functional_extensionality_dep; auto.
Qed.

(** The leader runs [p]; the others wait for command [k], with the fuel of [f]
    rounds, and go on with [kf]. *)
Definition waiting_at (p : prog outcome_of) (kf : nat → result selection * nat → prog outcome_of) (f k : nat)
    : list (prog outcome_of) :=
  (λ i, match i with O => p | S _ => pbind (follow i count members f k) (kf i) end) <$> seq 0 count.

(** How the others stand when the leader's part ended with [r]. *)
Definition followers_after {A} (r : result A) (broken : bool) (p : prog outcome_of)
    (kf : nat → result selection * nat → prog outcome_of) (f k : nat) : list (prog outcome_of) :=
  match r, broken with
  | Raised e, true => (λ i, match i with O => p | S _ => kf i (Raised e, k) end) <$> seq 0 count
  | _, _ => waiting_at p kf f k
  end.

(** The leader's program [m] does what [g] says, in lockstep with the others. *)
Definition tracks {A} (m : M A) (g : G A) : Prop :=
  ∀ k log f s k0 kf, let '(r, g') := g (GState k false log) in
    k ≤ g_trials g' ∧ (g_broken g' = true → ∃ e, r = Raised e) ∧
    ∃ s', rtc step (s, waiting_at (pbind (m k) k0) kf (g_trials g' - k + f) k)
                   (s', followers_after r (g_broken g') (k0 (r, g_trials g')) kf f (g_trials g')).

Lemma tracks_here {A} (m : M A) (g : G A) r :
  (∀ k, m k = Ret (r, k)) → (∀ x, g x = (r, x)) → tracks m g.
Proof.
  intros Hm Hg k log f s k0 kf. rewrite Hg. simpl. split_and!; [lia|done|]. exists s. rewrite Hm. simpl.
  rewrite Nat.sub_diag. destruct r; reflexivity.
Qed.

Lemma tracks_when {A B} (F : A → Prop) (m : M A) (g : G A) (k : A → M B) (h : A → G B) :
  tracks m g → returns (λ _, True) g (λ a _, F a) → (∀ a, F a → tracks (k a) (h a)) → tracks (m ≫= k) (g ≫= h).
Proof.
  intros Hm HF Hk t log f s k0 kf. unfold mbind at 1, G_bind.
  destruct (g (GState t false log)) as [r g1] eqn:Eg.
  set (K1 r := pbind (match r.1 with Returned a => k a r.2 | Raised e => Ret (Raised e, r.2)
                      | Unfinished => Ret (Unfinished, r.2) end) k0).
  assert (pbind ((m ≫= k) t) k0 = pbind (m t) K1) as Hassoc.
  { unfold mbind, M_bind. by rewrite pbind_assoc. }
  specialize (Hm t log). rewrite Eg in Hm. destruct r as [a|e|].
  - destruct g1 as [t1 b1 log1]. simpl in *.
    destruct b1; [by destruct (Hm 0 s K1 kf) as (_ & [e [=]] & _)|].
    specialize (HF (GState t false log) I). rewrite Eg in HF. specialize (Hk a HF t1 log1 f). destruct (h a (GState t1 false log1)) as [r2 g2].
    destruct (Hm (g_trials g2 - t1 + f) s K1 kf) as (Hle & _ & s1 & H1).
    destruct (Hk s1 k0 kf) as (Hle2 & Hb2 & s2 & H2).
    split_and!; [lia|done|]. exists s2. rewrite Hassoc.
    replace (g_trials g2 - t + f) with (t1 - t + (g_trials g2 - t1 + f)) by lia.
    etrans; [exact H1|exact H2].
  - destruct (Hm f s K1 kf) as (Hle & Hb & s1 & H1). split_and!; [done|by eauto|]. exists s1. rewrite Hassoc.
    by destruct (g_broken g1).
  - destruct (Hm f s K1 kf) as (Hle & Hb & s1 & H1). split_and!; [done|intros Hbr; by destruct (Hb Hbr)|].
    exists s1. by rewrite Hassoc.
Qed.

Lemma tracks_bind {A B} (m : M A) (g : G A) (k : A → M B) (h : A → G B) :
  tracks m g → (∀ a, tracks (k a) (h a)) → tracks (m ≫= k) (g ≫= h).
Proof. intros Hm Hk. by apply (tracks_when (λ _, True)); [|apply returns_any|]. Qed.

Lemma tracks_clock : tracks clock clock.
Proof.
  intros k log f s k0 kf. simpl. split_and!; [lia|done|]. exists s. rewrite Nat.sub_diag.
  destruct (decide (0 < count)) as [Hn|Hn].
  2: { unfold waiting_at. assert (seq 0 count = []) as -> by (destruct count; [done|lia]). done. }
  apply leader_steps; [|done|done]. by apply rtc_once.
Qed.

Lemma tracks_trial c timeout : length c = count → tracks (trial c timeout) (trial c timeout).
Proof.
  intros Hc k log f s k0 kf. simpl. unfold g_trial. simpl.
  destruct (lockstep_trial k c timeout f s k0 kf Hc) as (s' & Hs). unfold trial_outcome in Hs.
  assert (∀ i, match trial_result members probes k c timeout 0, trial_result members probes k c timeout i with
               | Ok _, Ok _ => True | Raise e, Raise e' => e = e' | _, _ => False end) as Hsame.
  { intros i. unfold trial_result, conclude. by destruct (first_error _ _) as [[]|]. }
  assert (S k - k + f = S f) as Hf by lia.
  destruct (trial_result members probes k c timeout 0) as [rows|e] eqn:E; simpl; rewrite Hf;
    (split_and!; [lia|by eauto|]); exists s'; unfold waiting_at.
  - match goal with |- rtc _ _ (_, ?l) => match type of Hs with rtc _ _ (_, ?l') => replace l with l' end end; [exact Hs|].
    apply list_fmap_ext. intros _ [|i] _; [done|]. specialize (Hsame (S i)). by destruct (trial_result _ _ _ _ _ (S i)).
  - match goal with |- rtc _ _ (_, ?l) => match type of Hs with rtc _ _ (_, ?l') => replace l with l' end end; [exact Hs|].
    apply list_fmap_ext. intros _ [|i] _; [done|]. specialize (Hsame (S i)). destruct (trial_result _ _ _ _ _ (S i)); [done|].
    by subst.
Qed.

Lemma tracks_lift {A} (r : outcome A) : tracks (lift r) (lift r).
Proof. destruct r as [a|e]; [by apply (tracks_here _ _ (Returned a))|by apply (tracks_here _ _ (Raised e))]. Qed.

Lemma try_candidates_tracks total offset cands st :
  Forall (λ c, length c = count) cands →
  tracks (try_candidates score deadline total offset cands st) (try_candidates score deadline total offset cands st).
Proof.
  revert offset st. induction cands as [|c cands IH]; intros offset st Hall; [by apply (tracks_here _ _ (Returned st))|].
  apply Forall_cons in Hall as [Hc Hall]. cbn [try_candidates]. destruct (mem _ _); [by apply IH|]. cbv zeta.
  apply tracks_bind; [apply tracks_clock|]. intros t.
  destruct (Qle_bool _ _); [by eapply tracks_here|].
  apply tracks_bind; [by apply tracks_trial|]. intros rows. destruct rows; try by apply IH.
  all: apply tracks_bind; [apply tracks_lift|]; intros y; by apply IH.
Qed.

Lemma next_candidates_length tried parents :
  Forall (λ c, length c = count) parents → Forall (λ c, length c = count) (next_candidates tried parents).
Proof.
  intros Hp. apply Forall_forall. intros c (_ & parent & Hin & Hc)%next_candidates_in.
  rewrite (shrink_length parent c Hc). by eapply Forall_forall in Hp.
Qed.

Lemma search_rounds_tracks fuel cands st :
  Forall (λ c, length c = count) cands →
  tracks (search_rounds score deadline fuel cands st) (search_rounds score deadline fuel cands st).
Proof.
  revert cands st. induction fuel as [|fuel IH]; intros cands st Hall; [by apply (tracks_here _ _ Unfinished)|].
  destruct cands as [|c0 cands0] eqn:Ec; [by apply (tracks_here _ _ (Returned (winner st)))|].
  cbn [search_rounds]. rewrite <- Ec in *. clear Ec.
  eapply tracks_when; [by apply try_candidates_tracks|apply try_candidates_winner|]. simpl. intros st' Hch.
  destruct (winner st') as [w|] eqn:Ew.
  - destruct (improved st') eqn:Ei; [|by apply (tracks_here _ _ (Returned (Some w)))].
    destruct Hch as [[? _]|(_ & c & Hc & [= ->])]; [done|]. apply IH, next_candidates_length.
    constructor; [by eapply Forall_forall in Hall|done].
  - by apply IH, next_candidates_length.
Qed.

(** ** From the start to the end *)

(** All processes, by index. *)
Definition all (P : nat → prog outcome_of) : list (prog outcome_of) := P <$> seq 0 count.

Lemma all_ext P P' : (∀ i, i < count → P i = P' i) → all P = all P'.
Proof. intros HP. apply list_fmap_ext. intros _ i Hi%list_elem_of_lookup_2%elem_of_seq. apply HP. lia. Qed.

(** A command published by the leader reaches everybody. *)
Lemma broadcast s s1 c P0 (P P' : nat → prog outcome_of) :
  0 < count → s1 = <[KCommand c.1 := VCommand c.2]> s → rtc (alone 0) (s, P0) (s1, P' 0) →
  (∀ i s, 0 < i → s !! KCommand c.1 = Some (VCommand c.2) → rtc (alone i) (s, P i) (s, P' i)) →
  rtc step (s, all (λ i, match i with O => P0 | S _ => P i end)) (s1, all P').
Proof.
  intros Hn Hs1 H0 HP. etrans.
  { apply (leader_steps s _ s1 (λ i, match i with O => P' 0 | S _ => P i end)); [exact H0|done|done]. }
  assert (∀ x : gmap key value, foldl (λ s _, s) x (seq 0 count) = x) as Hid by (intros x; induction (seq 0 count); simpl; auto).
  rewrite <- (Hid s1) at 2.
  apply (round_robin environment _ count (λ s _, s) s1 _ P' (λ s, s !! KCommand c.1 = Some (VCommand c.2))).
  - subst s1. apply lookup_insert_eq.
  - intros [|i] s' Hi Hs'; (split; [|done]); [done|]. apply HP; [lia|done].
Qed.

(** The [finally] clause of member [i] after its body ended with [r]. *)
Definition closing (i : nat) (r : outcome_of) : prog outcome_of :=
  match r.1 with
  | Unfinished => Ret (Unfinished, r.2)
  | _ => pbind (finish i count r.2) (λ r', match r'.1 with
      | Returned _ => Ret (r.1, r'.2) | Raised e => Ret (Raised e, r'.2) | Unfinished => Ret (Unfinished, r'.2) end)
  end.

Lemma collect_done s l t :
  (∀ j, j ∈ l → s !! KFinished j = Some VDone) →
  ∃ xs, rtc (alone 0) (s, m_collect (λ i, m_take (KFinished i)) l t) (s, Ret (Returned xs, t)).
Proof.
  induction l as [|j l IH]; intros Hl; [by exists []|]. destruct IH as [xs Hxs]; [intros j' Hj'; apply Hl; by right|].
  exists (VDone :: xs). cbn [m_collect].
  eapply rtc_l; [unfold Network.alone; simpl; rewrite (Hl j) by left; done|]. simpl.
  etrans; [by apply alone_bind|]. done.
Qed.

Definition finished (s : gmap key value) (i : nat) : gmap key value := <[KFinished i := VDone]> s.
Lemma finished_lookup s n j : j < n → foldl finished s (seq 0 n) !! KFinished j = Some VDone.
Proof.
  induction n as [|n IH]; intros Hj; [lia|]. rewrite seq_S, foldl_app. simpl. unfold finished at 1.
  destruct (decide (j = n)) as [->|Hne]; [by rewrite lookup_insert_eq|].
  rewrite lookup_insert_ne by congruence. apply IH. lia.
Qed.

(** When all bodies have ended, all members return. *)
Lemma all_close s res k :
  (∀ i, i < count → res i ≠ Unfinished) →
  ∃ s', rtc step (s, all (λ i, closing i (res i, k))) (s', all (λ i, Ret (res i, k))).
Proof.
  intros Hres. destruct (decide (0 < count)) as [Hn|Hn].
  2: { exists s. unfold all. assert (seq 0 count = []) as -> by (destruct count; [done|lia]). done. }
  set (s1 := foldl finished s (seq 0 count)). exists s1.
  set (after i := pbind (if bool_decide (i = 0)
      then (_ ← m_collect (λ j, m_take (KFinished j)) (seq 0 count); mret tt) k else Ret (Returned tt, k))
    (λ r' : result unit * nat, match r'.1 with
      | Returned _ => Ret (res i, r'.2) | Raised e => Ret (Raised e, r'.2) | Unfinished => Ret (Unfinished, r'.2) end)).
  etrans.
  { apply (round_robin environment _ count finished s _ after (λ _, True)); [done|].
    intros i s' Hi _. split; [|done]. unfold closing. simpl. specialize (Hres i Hi).
    destruct (res i) as [a|e|] eqn:E; [| |done]; (eapply rtc_l; [done|]); unfold after; rewrite E;
      by destruct (bool_decide (i = 0)). }
  apply (leader_steps s1 after s1); [|done|done]. unfold after. rewrite bool_decide_true by done.
  destruct (collect_done s1 (seq 0 count) k) as [xs Hxs]; [intros j Hj%elem_of_seq; apply finished_lookup; lia|].
  etrans; [apply alone_bind, alone_bind, Hxs|]. done.
Qed.

(** The rendezvous: everybody knows all members. *)
Definition known (s : gmap key value) (i : nat) : gmap key value :=
  <[KMember i := VMember (default (Member true [] 0) (members !! i))]> s.
Lemma known_lookup s n j :
  j < n → n ≤ count → ∃ m, members !! j = Some m ∧ foldl known s (seq 0 n) !! KMember j = Some (VMember m).
Proof.
  induction n as [|n IH]; intros Hj Hn; [lia|]. rewrite seq_S, foldl_app. simpl. unfold known at 1.
  destruct (decide (j = n)) as [->|Hne].
  - destruct (lookup_lt_is_Some_2 members n) as [m Hm]; [lia|]. exists m. rewrite lookup_insert_eq, Hm. done.
  - rewrite lookup_insert_ne by congruence. apply IH; lia.
Qed.

Lemma collect_members i s l ms t :
  Forall2 (λ j m, s !! KMember j = Some (VMember m)) l ms →
  rtc (alone i) (s, m_collect take_member l t) (s, Ret (Returned ms, t)).
Proof.
  induction 1 as [|j m l ms Hj _ IH]; [done|]. cbn [m_collect].
  eapply rtc_l; [unfold Network.alone; simpl; rewrite Hj; done|]. simpl.
  etrans; [by apply alone_bind|]. done.
Qed.

Lemma rendezvous fuel :
  ∃ s, rtc step (start fuel) (s, all (λ i, run_calibration score str_exn deadline i count members fuel 0)).
Proof.
  set (s1 := foldl known ∅ (seq 0 count)). exists s1.
  set (own i := default (Member true [] 0) (members !! i)).
  assert ((start fuel).2 = all (λ i, calibrate score str_exn deadline i count (own i) fuel 0)) as Hst.
  { apply list_eq. intros i. unfold all. simpl. rewrite list_lookup_imap, list_lookup_fmap. unfold own.
    destruct (members !! i) as [m|] eqn:E.
    - rewrite lookup_seq_lt by (by eapply lookup_lt_Some). simpl. by rewrite E.
    - rewrite lookup_seq_ge by (by apply lookup_ge_None). done. }
  unfold start in *. simpl in Hst. rewrite Hst. etrans.
  { apply (round_robin environment _ count known ∅ _ (λ i,
      pbind (m_collect take_member (seq 0 count) 0) (λ r, match r.1 with
        | Returned ms => run_calibration score str_exn deadline i count ms fuel r.2
        | Raised e => Ret (Raised e, r.2)
        | Unfinished => Ret (Unfinished, r.2) end)) (λ _, True)); [done|].
    intros i s Hi _. split; [|done]. by eapply rtc_l. }
  assert (∀ x : gmap key value, foldl (λ s _, s) x (seq 0 count) = x) as Hid
    by (intros x; induction (seq 0 count); simpl; auto).
  rewrite <- (Hid s1). apply (round_robin environment _ count (λ s _, s) s1 _ _ (λ s, s = s1)); [done|].
  intros i s Hi ->. split; [|done]. etrans; [apply alone_bind, (collect_members i s1 (seq 0 count) members 0)|done].
  apply Forall2_same_length_lookup. split; [by rewrite length_seq|]. intros j x m Hj Hm.
  apply lookup_seq in Hj as [-> Hj]. destruct (known_lookup ∅ count j) as (m' & Hm' & Hl); [lia|done|].
  simpl. rewrite Hm in Hm'. injection Hm' as ->. exact Hl.
Qed.

(** The part of member [i] of the selection the group agreed on. *)
Definition own_part (i : nat) (w : selection) : result (option (list string)) :=
  match w !! i with Some own => Returned (Some own) | None => Raised IndexError end.
Definition ended_with (i : nat) (r : result selection) : result (option (list string)) :=
  match r with Returned w => own_part i w | Raised e => Raised e | Unfinished => Unfinished end.

Lemma run_shape i fuel k :
  nothing_to_do members = false →
  run_calibration score str_exn deadline i count members fuel k =
  pbind ((if bool_decide (i = 0) then lead score str_exn deadline 0 count members fuel
          else follow i count members fuel) k)
    (λ r, closing i (ended_with i r.1, r.2)).
Proof.
  intros Hn. unfold run_calibration. rewrite Hn. unfold m_finally, mbind at 1, M_bind at 1. rewrite pbind_assoc.
  destruct (bool_decide (i = 0)) eqn:Ei; [apply bool_decide_eq_true in Ei as ->|]; f_equal;
    apply functional_extensionality; intros [[w|e|] t]; unfold closing, finish, ended_with, own_part; rewrite ?Ei; simpl;
    [by destruct (w !! _)|done|done|by destruct (w !! _)|done|done].
Qed.

(** What member [i] ends with, by the sequential search. *)
Definition result_of (fuel i : nat) : result (option (list string)) :=
  if nothing_to_do members then Returned None else
  match greedy members readings probes score deadline fuel with
  | (Returned w, _) => own_part i w
  | (Raised e, g) => Raised (if bool_decide (i = 0) || g_broken g then e else RuntimeError (str_exn e))
  | (Unfinished, _) => Unfinished
  end.
Definition trials_of (fuel : nat) : nat :=
  if nothing_to_do members then 0 else g_trials (greedy members readings probes score deadline fuel).2.

(** The leader after its search. *)
Definition no_candidate : exn := RuntimeError "No MCCL network candidate completed on every member".
Definition decided (r : result (option selection) * nat) : prog outcome_of :=
  match r.1 with
  | Returned (Some w) => Put (KCommand r.2) (VCommand (Chosen w)) (closing 0 (own_part 0 w, r.2))
  | Returned None => Put (KCommand r.2) (VCommand (GiveUp (str_exn no_candidate))) (closing 0 (Raised no_candidate, r.2))
  | Raised e => Put (KCommand r.2) (VCommand (GiveUp (str_exn e))) (closing 0 (Raised e, r.2))
  | Unfinished => closing 0 (Unfinished, r.2)
  end.

Lemma lead_shape fuel k :
  pbind (lead score str_exn deadline 0 count members fuel k) (λ r, closing 0 (ended_with 0 r.1, r.2)) =
  pbind ((search_rounds score deadline fuel [ports <$> members] (Search [] PosInf None false) : M _) k) decided.
Proof.
  unfold lead, m_catch, select, mbind at 1. simpl. unfold M_bind at 1. rewrite !pbind_assoc. f_equal.
  apply functional_extensionality. by intros [[[w|]|e|] t].
Qed.

(** The search of the specification, in the words of [greedy]. *)
Lemma greedy_search fuel :
  greedy members readings probes score deadline fuel =
  match (search_rounds score deadline fuel [ports <$> members] (Search [] PosInf None false) : G _) (GState 0 false []) with
  | (Returned (Some w), g) => (Returned w, g)
  | (Returned None, g) => (Raised no_candidate, g)
  | (Raised e, g) => (Raised e, g)
  | (Unfinished, g) => (Unfinished, g)
  end.
Proof.
  unfold greedy, select, mbind. simpl. unfold G_bind.
  by destruct ((search_rounds score deadline fuel _ _ : G _) (GState 0 false [])) as [[[w|]|e|] g].
Qed.

Lemma lockstep fuel s :
  0 < count → nothing_to_do members = false → (∀ i, result_of fuel i ≠ Unfinished) → trials_of fuel < fuel →
  ∃ s', rtc step (s, all (λ i, run_calibration score str_exn deadline i count members fuel 0))
                 (s', all (λ i, closing i (result_of fuel i, trials_of fuel))).
Proof.
  intros Hn Hnd Hne Hf. set (kf i (r : result selection * nat) := closing i (ended_with i r.1, r.2)).
  pose proof (search_rounds_tracks fuel [ports <$> members] (Search [] PosInf None false)) as Ht.
  specialize (Ht ltac:(constructor; [by rewrite length_fmap|done]) 0 []).
  unfold result_of, trials_of in *. rewrite Hnd in *. rewrite greedy_search in *.
  destruct ((search_rounds score deadline fuel _ _ : G _) (GState 0 false [])) as [r g].
  assert (g_trials g < fuel) as Hfuel by (by destruct r as [[]| |]).
  set (k := g_trials g) in *. destruct (Ht (fuel - k) s decided kf) as (_ & Hb & s1 & H1).
  replace (k - 0 + (fuel - k)) with fuel in H1 by lia.
  replace (all (λ i, run_calibration score str_exn deadline i count members fuel 0))
    with (waiting_at (pbind ((search_rounds score deadline fuel [ports <$> members] (Search [] PosInf None false) : M _) 0) decided) kf fuel 0).
  2: { apply all_ext. intros [|i] Hi; rewrite run_shape by done; [by rewrite <- lead_shape|done]. }
  destruct (fuel - k) as [|f] eqn:Efk; [lia|].
  assert (∀ c, ∃ s2, s2 = <[KCommand k := VCommand c]> s1) as Hput by eauto.
  destruct r as [[w|]|e|]; [| | |by destruct (Hne 0)].
  - destruct (Hput (Chosen w)) as [s2 Hs2]. exists s2. etrans; [exact H1|]. simpl.
    destruct (g_broken g) eqn:Eb; [by destruct (Hb eq_refl)|].
    apply (broadcast s1 s2 (k, Chosen w)); [done..| |].
    + subst s2. by apply rtc_once.
    + intros i s3 Hi Hs3. eapply rtc_l; [unfold Network.alone; simpl; simpl in Hs3; rewrite Hs3; done|]. done.
  - destruct (Hput (GiveUp (str_exn no_candidate))) as [s2 Hs2]. exists s2. etrans; [exact H1|]. simpl.
    destruct (g_broken g) eqn:Eb; [by destruct (Hb eq_refl)|].
    apply (broadcast s1 s2 (k, GiveUp (str_exn no_candidate))); [done..| |].
    + subst s2. by apply rtc_once.
    + intros i s3 Hi Hs3. rewrite bool_decide_false by lia. simpl.
      eapply rtc_l; [unfold Network.alone; simpl; simpl in Hs3; rewrite Hs3; done|]. done.
  - destruct (Hput (GiveUp (str_exn e))) as [s2 Hs2]. exists s2. etrans; [exact H1|]. simpl.
    destruct (g_broken g) eqn:Eb.
    + apply (broadcast s1 s2 (k, GiveUp (str_exn e))); [done..| |].
      * subst s2. by apply rtc_once.
      * intros i s3 Hi Hs3. by rewrite orb_true_r.
    + apply (broadcast s1 s2 (k, GiveUp (str_exn e))); [done..| |].
      * subst s2. by apply rtc_once.
      * intros i s3 Hi Hs3. rewrite bool_decide_false by lia. simpl.
        eapply rtc_l; [unfold Network.alone; simpl; simpl in Hs3; rewrite Hs3; done|]. done.
Qed.

Abbreviation rounds := (2 + size (ports <$> members)).

Lemma result_ends i : result_of rounds i ≠ Unfinished.
Proof.
  unfold result_of. destruct (nothing_to_do members); [done|].
  pose proof (greedy_ends members score deadline readings probes rounds (le_n _)) as He.
  destruct (greedy _ _ _ _ _ _) as [[w|e|] g]; [|done..]. unfold own_part. by destruct (w !! i).
Qed.

Lemma result_more fuel i :
  rounds ≤ fuel → result_of fuel i = result_of rounds i ∧ trials_of fuel = trials_of rounds.
Proof. intros Hf. unfold result_of, trials_of. by rewrite !(greedy_more members score deadline readings probes fuel) by done. Qed.

Lemma one_schedule fuel :
  rounds ≤ fuel → trials_of rounds < fuel →
  ∃ s, rtc step (start fuel) (s, all (λ i, Ret (result_of rounds i, trials_of rounds))).
Proof.
  intros Hf Ht. destruct (rendezvous fuel) as [s1 H1].
  destruct (result_more fuel 0 Hf) as [_ Htr].
  assert (∃ s2, rtc step (s1, all (λ i, run_calibration score str_exn deadline i count members fuel 0))
    (s2, all (λ i, closing i (result_of rounds i, trials_of rounds)))) as (s2 & H2).
  { destruct (nothing_to_do members) eqn:End.
    - exists s1. replace (all (λ i, run_calibration score str_exn deadline i count members fuel 0))
        with (all (λ i, closing i (result_of rounds i, trials_of rounds))); [done|].
      apply all_ext. intros i Hi. unfold run_calibration, closing, result_of, trials_of, finish. by rewrite End.
    - assert (0 < count) as Hn by (destruct members; [done|simpl; lia]).
      destruct (lockstep fuel s1 Hn End) as [s2 H2].
      + intros i. rewrite (proj1 (result_more fuel i Hf)). apply result_ends.
      + by rewrite Htr.
      + exists s2. rewrite Htr in H2. erewrite (all_ext (λ i, closing i (result_of rounds i, trials_of rounds))); [exact H2|].
        intros i _. simpl. by rewrite (proj1 (result_more fuel i Hf)). }
  destruct (all_close s2 (result_of rounds) (trials_of rounds)) as [s3 H3]; [intros i _; apply result_ends|].
  exists s3. by do 2 (etrans; [eassumption|]).
Qed.
End Network.

(** C17: distributed calibration refines the sequential search.  The members run
    concurrently and talk only through the store, in any interleaving; with enough
    fuel for the followers' loop there is a number of steps [n] within which every
    schedule ends, none gets stuck before, and all end in the same state.  There
    either all members found nothing to calibrate; or every member returns its own
    part of one and the same selection, the one the sequential search returns; or
    every member raises, the leader with the error of the sequential search. *)
Theorem calibration_agrees members score str_exn deadline readings probes :
  let rounds := 2 + size (ports <$> members) in
  ∃ enough, ∀ fuel, enough ≤ fuel →
  ∃ n final,
    final.2 = (λ i, Ret (result_of score str_exn deadline members readings probes rounds i,
                         trials_of score deadline members readings probes rounds)) <$> seq 0 (length members) ∧
    ∀ m c, nsteps (step (environment readings probes) _) m (start score str_exn deadline members fuel) c →
      m ≤ n ∧ nsteps (step (environment readings probes) _) (n - m) c final.
Proof.
  cbv zeta. exists ((2 + size (ports <$> members)) `max` S (trials_of score deadline members readings probes (2 + size (ports <$> members)))).
  intros fuel Hf.
  destruct (one_schedule score str_exn deadline members readings probes fuel) as [s Hs]; [lia|lia|].
  apply rtc_nsteps in Hs as [n Hn]. eexists n, _. split; [|apply (schedules_agree _ _ owner); [|exact Hn|]]; [done| |].
  - apply start_disciplined.
  - intros [c Hc]. inversion Hc as [s0 ps i p s' p' Hi Hm]; subst.
    apply list_lookup_fmap_Some in Hi as (j & -> & _). done.
Qed.
