(* ===== verification/BuildInputs.v ===== *)
(** * Build inputs ([build/inputs.py], [build/engine_sources.py])

    Selecting the source files of a build, comparing them with a snapshot, and
    capturing a new snapshot.  The file system is a parameter, read as often as the
    code reads it: a source tree may change while it is captured, so the state at the
    time of copying and at the time of validation are different arguments. *)

From Stdlib Require Import Ascii.
From S2P Require Import Prelude Text Kube Effects Client.

(** ** Files *)

(** A path by its parts. *)
Abbreviation path := (list string).

(** What [stat] finds after following links. *)
Inductive node :=
  | File (bytes : string) (mode : Z)
  | Directory (mode : Z)
  | Special (mode : Z).

Definition mode_of (n : node) : Z :=
  match n with File _ mode | Directory mode | Special mode => mode end.

(** A state of the file system, with what the build metadata in it say: the
    [workspace.metadata.foretoken] table of a root's Cargo.toml, and the recipe that
    the Mooncake preparer describes. *)
Record fs := FileSystem {
  node_at : path → option node;
  is_link : path → bool;
  entries : path → list string;
  resolve : path → path;
  cargo_metadata : path → outcome json;
  mooncake_recipe : path → string → outcome json;
  checkout_source : path → json;
}.

Definition is_dir (F : fs) (p : path) : bool := match node_at F p with Some (Directory _) => true | _ => false end.
Definition is_file (F : fs) (p : path) : bool := match node_at F p with Some (File _ _) => true | _ => false end.
Definition exists_ (F : fs) (p : path) : bool := match node_at F p with Some _ => true | None => false end.

(** [path.stat()] *)
Definition stat (F : fs) (p : path) : outcome node :=
  match node_at F p with Some n => Ok n | None => Raise (OSError "No such file or directory") end.

(** [path.suffix]: from the last dot, unless the name starts or ends with it. *)
Definition suffix (name : string) : string :=
  match rpartition "."%char name with
  | Some (stem, ext) => if nonempty stem && nonempty ext then "." +:+ ext else ""
  | None => ""
  end.

(** [str(path)] of a relative path *)
Definition text_of (p : path) : string := join "/" p.

(** ** [_directory_files] *)

Definition GENERATED_DIRECTORIES : list string :=
  [".git"; ".venv"; ".gpu_cache"; ".cache"; "__pycache__"; ".pytest_cache"; ".mypy_cache"; ".ruff_cache";
   ".tox"; ".nox"; ".hypothesis"; ".ipynb_checkpoints"; "target"].

(** Entries that are never sources. *)
Definition ignored (excluded : list string) (rel : path) (name : string) : bool :=
  mem (text_of rel) excluded || mem name GENERATED_DIRECTORIES
  || endswith ".egg-info" name || endswith ".dist-info" name || eqb name ".env" || startswith ".env." name.

Section DirectoryFiles.
Variable F : fs.
Variable root : path.
Variable excluded : list string.

(** The loop of [visit] over the entries of one directory; [into] visits a
    subdirectory. *)
Fixpoint visit_entries (into : path → list path → result (list path)) (rel : path) (names : list string)
    (found : list path) : result (list path) :=
  match names with
  | [] => Returned found
  | name :: names =>
      let rel' := rel ++ [name] in
      if ignored excluded rel' name then visit_entries into rel names found else
      match node_at F (root ++ rel') with
      | None => Raised (OSError "No such file or directory")
      | Some (Directory _) =>
          match into rel' found with
          | Returned found => visit_entries into rel names found
          | r => r
          end
      | Some (File _ _) =>
          visit_entries into rel names
            (if negb (eqb name ".DS_Store") && negb (mem (suffix name) [".pyc"; ".pyo"])
             then found ++ [rel'] else found)
      | Some (Special _) => visit_entries into rel names found
      end
  end.

(** [visit]: the relative paths found so far and in this directory; [ancestors] are
    the resolved directories above. *)
Fixpoint visit (fuel : nat) (rel : path) (ancestors : list path) (found : list path) : result (list path) :=
  match fuel with
  | O => Unfinished
  | S fuel =>
      let resolved := resolve F (root ++ rel) in
      if mem resolved ancestors
      then Raised (DeploymentError ("recursive directory link in source: " +:+ text_of (root ++ rel)))
      else if negb (is_dir F (root ++ rel)) then Raised (OSError "Not a directory")
      else visit_entries (λ rel' found, visit fuel rel' (resolved :: ancestors) found) rel
             (sort_by id (entries F (root ++ rel))) found
  end.
End DirectoryFiles.

(** [_directory_files]: the relative parts of every source file. *)
Definition directory_files (fuel : nat) (F : fs) (root : path) (excluded : list string) : result (list path) :=
  visit F root excluded fuel [] [] [].

(** ** [generated_engine_file] *)

Definition in_any (prefixes : list string) (text : string) : bool := existsb (λ p, startswith p text) prefixes.

Definition generated_engine_file (parts : path) : bool :=
  let name := default "" (last parts) in
  if endswith ".so" name || contains ".so." name then true else
  match parts with
  | top :: (_ :: _) as rest =>
      if negb (eqb top "vllm" || eqb top "vllm_metax") then false else
      let relative := text_of rest in
      if eqb relative "_version.py" || eqb relative "vllm-rs" then true else
      if negb (eqb top "vllm") then false else
      if eqb relative "third_party/flashmla/flash_mla_interface.py" then true else
      if in_any ["third_party/deep_gemm/"; "third_party/fmha_sm100/"] relative then true else
      if negb (eqb (suffix name) ".py") then false else
      if in_any ["third_party/triton_kernels/"; "third_party/tml_fa4/"] relative then true else
      startswith "vllm_flash_attn/" relative
      && negb (eqb relative "vllm_flash_attn/__init__.py" || eqb relative "vllm_flash_attn/flash_attn_interface.py")
  | _ => false
  end.

(** ** [select] *)

#[export] Instance result_ret : MRet result := @Returned.
#[export] Instance result_bind : MBind result := λ A B k r,
  match r with Returned a => k a | Raised e => Raised e | Unfinished => Unfinished end.
Definition of_outcome {A} (r : outcome A) : result A :=
  match r with Ok a => Returned a | Raise e => Raised e end.

Definition RUST_SOURCE : string := "data-plane/third_party/vllm".
Definition rust_source : path := ["data-plane"; "third_party"; "vllm"].

(** [files[name] = path] for a file found below a directory *)
Abbreviation inventory := (list (string * path)).
Definition add_files (prefix : string) (directory : path) (rels : list path) (files : inventory) : inventory :=
  foldl (λ files rel, dset (prefix +:+ "/" +:+ text_of rel) (directory ++ rel) files) files rels.

(** The roots that hold sources, with what each leaves out. *)
Definition SOURCE_ROOTS : list (path * list string) :=
  [(["data-plane"], ["third_party/vllm"]); (["control-plane"], ["bin"; "cover.out"]);
   (["deploy"; "charts"; "foretoken"], []); (["deploy"; "inference-engines"], []); (["deploy"; "mooncake"], [])].
Definition SINGLE_FILES : list path :=
  [["LICENSE"]; [".dockerignore"]; ["deploy"; "build-source"]; ["cli"; "foretoken"; "build"; "engine_sources.py"]].

Record inputs := BuildInputs {
  root : path;
  engines : list (string * path);
  files : inventory;
  dependencies : list (string * json);
  mooncake_version : option string;
}.

Section Select.
Variable fuel : nat.
Variable F : fs.

Definition documentation (rel : path) : bool := mem (suffix (default "" (last rel))) [".md"; ".png"; ".svg"].

Fixpoint select_roots (root : path) (roots : list (path * list string)) (files : inventory) : result inventory :=
  match roots with
  | [] => mret files
  | (prefix, excluded) :: roots =>
      let directory := root ++ prefix in
      if negb (is_dir F directory) then select_roots root roots files else
      rels ← directory_files fuel F directory excluded;
      select_roots root roots
        (add_files (text_of prefix) directory (keep (λ rel, negb (documentation rel)) rels) files)
  end.

Definition select_single (root : path) (files : inventory) : inventory :=
  foldl (λ files name, if is_file F (root ++ name) then dset (text_of name) (root ++ name) files else files)
    files SINGLE_FILES.

(** [pinned_rust_revision] *)
Definition pinned_rust_revision (root : path) : outcome json :=
  metadata ← cargo_metadata F root;
  revision ← get "vllm_revision" metadata;
  match revision with
  | JStr s => if nonempty s then Ok revision else
      Raise (DeploymentError "data-plane/Cargo.toml must declare workspace.metadata.foretoken.vllm_revision")
  | _ => Raise (DeploymentError "data-plane/Cargo.toml must declare workspace.metadata.foretoken.vllm_revision")
  end.

(** [_empty_source_directory] *)
Definition empty_source_directory (p : path) : bool :=
  negb (exists_ F p) && negb (is_link F p)
  || is_dir F p && forallb (λ n, mem n [".git"; ".DS_Store"]) (entries F p).

(** [_rust_inputs] *)
Definition rust_inputs (root : path) : result inventory :=
  let directory := root ++ rust_source in
  if empty_source_directory directory then mret [] else
  if negb (is_file F (directory ++ ["rust"; "Cargo.toml"]))
  then Raised (DeploymentError ("vLLM source is missing rust/Cargo.toml: " +:+ text_of directory)) else
  rels ← directory_files fuel F (directory ++ ["rust"]) [];
  let files := add_files (RUST_SOURCE +:+ "/rust") (directory ++ ["rust"]) rels [] in
  let state := directory ++ [".foretoken-patches.json"] in
  mret (if is_file F state then dset (RUST_SOURCE +:+ "/.foretoken-patches.json") state files else files).

(** [mooncake_inputs] *)
Definition mooncake_dependency (recipe : json) : outcome json :=
  revision ← index "revision" recipe;
  patches ← index "patches" recipe;
  deps ← index "dependencies" recipe;
  match deps with
  | JObj deps =>
      pinned ← outcome_map (λ d, r ← index "revision" d.2; Ok (d.1, r)) deps;
      Ok (JObj [("revision", revision); ("patches", patches); ("dependencies", JObj pinned)])
  | _ => Raise AttributeError
  end.
Definition mooncake_inputs (root : path) (version : string) : result (inventory * json) :=
  recipe ← of_outcome (mooncake_recipe F root version);
  dependency ← of_outcome (mooncake_dependency recipe);
  let directory := root ++ ["third_party"; "mooncake"] in
  if empty_source_directory directory then mret ([], dependency) else
  rels ← directory_files fuel F directory ["build"; "dist"; ".deps"];
  mret (add_files "third_party/mooncake" directory rels [], dependency).

Fixpoint select_engines (engines : list (string * path)) (files : inventory) : result inventory :=
  match engines with
  | [] => mret files
  | (engine, directory) :: engines =>
      rels ← directory_files fuel F directory ["build"; "dist"; ".deps"];
      select_engines engines
        (add_files ("engine/" +:+ engine) directory (keep (λ rel, negb (generated_engine_file rel)) rels) files)
  end.

(** [dict.update] *)
Definition update {V} (d e : list (string * V)) : list (string * V) := foldl (λ d kv, dset kv.1 kv.2 d) d e.

(** [select] *)
Definition select (root : path) (engines : list (string * path)) (mooncake : option string) : result inputs :=
  files ← select_roots root SOURCE_ROOTS [];
  let files := select_single root files in
  revision ← of_outcome (pinned_rust_revision root);
  rust ← rust_inputs root;
  let files := update files rust in
  let deps := [(RUST_SOURCE, JObj [("revision", revision)])] in
  selected ← match mooncake with
    | None => mret (files, deps)
    | Some version =>
        m ← mooncake_inputs root version;
        mret (update files m.1, dset "third_party/mooncake" m.2 deps)
    end;
  files ← select_engines engines selected.1;
  mret (BuildInputs root engines files selected.2 mooncake).
End Select.

(** ** Snapshots *)

(** A captured file; modes are permission bits. *)
Record captured := Captured { c_bytes : string; c_mode : Z }.

(** A snapshot directory: its files by relative name, and the two metadata files
    ([SNAPSHOT_METADATA]) as the JSON written to them. *)
Record snapshot := Snapshot {
  sn_files : list (string * captured);
  sn_sources : option json;
  sn_manifest : option json;
}.

Definition S_IXUSR : Z := 64.
(** [_source_file_mode] of a mode *)
Definition source_mode (mode : Z) : Z := if Z.eqb (Z.land mode S_IXUSR) 0 then 420 else 493.

(** [shutil.copyfile] and [chmod] of a source *)
Definition copy_source (source : node) (mode : Z) : outcome captured :=
  match source with
  | File bytes _ => Ok (Captured bytes mode)
  | _ => Raise (OSError "Is not a regular file")
  end.

(** [_same_source_file] *)
Definition same_source_file (left right : captured) : bool :=
  Z.eqb (source_mode (c_mode left)) (source_mode (c_mode right)) && eqb (c_bytes left) (c_bytes right).

(** [_snapshot_dependencies] *)
Definition snapshot_dependencies (s : snapshot) : outcome json :=
  match sn_sources s with None => Ok (JObj []) | Some j => get_or "dependencies" (JObj []) j end.

(** [dependencies.get(name) != self.dependencies.get(name)] *)
Definition differ (a b : option json) : bool :=
  match a, b with
  | None, None => false
  | Some a, Some b => negb (py_eqb a b)
  | Some a, None | None, Some a => negb (py_eqb a JNull)
  end.

(** Whether the file [name] differs; what is no regular file never compares equal. *)
Definition file_changed (F : fs) (i : inputs) (s : snapshot) (name : string) : outcome bool :=
  match dget name (sn_files s), dget name (files i) with
  | Some old, Some p =>
      n ← stat F p;
      match n with
      | File bytes mode => Ok (negb (same_source_file old (Captured bytes mode)))
      | _ => Ok true
      end
  | _, _ => Ok true
  end.

(** [changed]; a set, here in the order of the names *)
Definition changed (F : fs) (i : inputs) (s : snapshot) : outcome (list string) :=
  let names := distinct ((sn_files s).*1 ++ (files i).*1) in
  marked ← outcome_map (λ n, b ← file_changed F i s n; Ok (n, b)) names;
  deps ← snapshot_dependencies s;
  match deps with
  | JObj deps =>
      Ok (distinct ((keep snd marked).*1 ++
        keep (λ n, differ (dget n deps) (dget n (dependencies i))) (deps.*1 ++ (dependencies i).*1)))
  | _ => Raise AttributeError
  end.

(** [validate] *)
Definition validate (F : fs) (i : inputs) (s : snapshot) : outcome unit :=
  c ← changed F i s;
  match c with
  | [] => Ok tt
  | _ => Raise (DeploymentError "source changed while preparing artifacts; rerun the source operation")
  end.

(** One file of [capture]: a hard link to the file of the previous snapshot, or a
    copy. *)
Definition capture_file (F : fs) (previous : option snapshot) (unchanged : option (list string)) (name : string)
    (source : path) : outcome captured :=
  n ← stat F source;
  let mode := source_mode (mode_of n) in
  match previous, unchanged with
  | Some previous, Some unchanged =>
      if mem name unchanged then
        match dget name (sn_files previous) with
        | None => Raise (OSError "No such file or directory")
        | Some prior => if Z.eqb (Z.land (c_mode prior) 4095) mode then Ok prior else copy_source n mode
        end
      else copy_source n mode
  | _, _ => copy_source n mode
  end.

(** The metadata a snapshot is written with. *)
Definition source_metadata (F : fs) (i : inputs) : json :=
  JObj [("foretoken", checkout_source F (root i));
        ("engines", JObj ((λ e, (e.1, checkout_source F e.2)) <$> engines i));
        ("dependencies", JObj (dependencies i))].
Definition engine_files (i : inputs) (engine : string) : list string :=
  let prefix := "engine/" +:+ engine +:+ "/" in
  sort_by id (omap (λ f, if startswith prefix f.1
                         then Some (String.substring (String.length prefix) (String.length f.1) f.1) else None) (files i)).
Definition engine_manifest (i : inputs) : option json :=
  match engines i with
  | [] => None
  | _ => Some (JObj ((λ e, (e.1, JObj [("files", JArr (JStr <$> engine_files i e.1))])) <$> engines i))
  end.

(** [capture] into a new directory; [F] is read while copying, [F'] when the result
    is validated against a second selection. *)
Definition capture (fuel : nat) (F F' : fs) (i : inputs) (previous : option snapshot)
    (unchanged : option (list string)) : result snapshot :=
  copied ← of_outcome (outcome_map (λ f, c ← capture_file F previous unchanged f.1 f.2; Ok (f.1, c)) (files i));
  let s := Snapshot copied (Some (source_metadata F i)) (engine_manifest i) in
  again ← select fuel F' (root i) (engines i) (mooncake_version i);
  _ ← of_outcome (validate F' again s);
  mret s.

(** What an update passes as unchanged ([SourceUpdater]):
    [set(current.files).difference(changed)] *)
Definition unchanged_names (i : inputs) (changed : list string) : list string :=
  keep (λ n, negb (mem n changed)) (files i).*1.

(** ** Versions for delta transfer *)

Definition SOURCE_METADATA : string := ".foretoken-sources.json".
Definition ENGINE_MANIFEST : string := "engine/manifest.json".
Definition is_metadata (name : string) : bool := eqb name ENGINE_MANIFEST || eqb name SOURCE_METADATA.

Definition LF : string := String (ascii_of_nat 10) "".

(** [json.dumps(value, indent=2)] *)
Class JsonDump := dumps : json → string.

(** All files of a snapshot, the metadata among them as they were written. *)
Definition all_files `{JsonDump} (s : snapshot) : list (string * captured) :=
  sn_files s ++
  ((λ j, (SOURCE_METADATA, Captured (dumps j +:+ LF) 420)) <$> option_list (sn_sources s)) ++
  ((λ j, (ENGINE_MANIFEST, Captured (dumps j +:+ LF) 420)) <$> option_list (sn_manifest s)).

(** Whether a file keeps its version. *)
Definition keeps_version `{JsonDump} (previous : option snapshot) (versions : list (string * string))
    (changed : option (list string)) (name : string) (file : captured) : bool :=
  match changed with
  | Some changed =>
      if is_metadata name
      then dmem name versions && match previous ≫= λ s, dget name (all_files s) with
                                 | Some old => same_source_file old file | None => false end
      else dmem name versions && negb (mem name changed)
  | None => dmem name versions && match previous ≫= λ s, dget name (all_files s) with
                                  | Some old => same_source_file old file | None => false end
  end.

(** [snapshot_versions]; [revision] is the name of the snapshot directory without
    its prefix. *)
Definition snapshot_versions `{JsonDump} (revision : string) (s : snapshot) (previous : option snapshot)
    (versions : list (string * string)) (changed : option (list string)) : list (string * string) :=
  (λ f, (f.1, if keeps_version previous versions changed f.1 f.2
              then default revision (dget f.1 versions) else revision)) <$> all_files s.

(** ** Other selections *)

(** [engine_source_roots]: the name and the directory of each [--engine-source]. *)
Definition engine_source_roots (F : fs) (expand : string → path) (sources : list string)
    : outcome (list (string * path)) :=
  roots ← outcome_fold (λ roots source,
    let '(name, value) := match partition "="%char source with Some (n, v) => (n, v) | None => ("vllm", source) end in
    if negb (eqb name "vllm" || eqb name "vllm-metax") || dmem name roots
    then Raise (DeploymentError "--engine-source accepts one vllm directory and one optional vllm-metax directory") else
    let p := expand value in
    let package := if eqb name "vllm" then "vllm" else "vllm_metax" in
    if negb (is_dir F (p ++ [package])) || negb (is_file F (p ++ ["setup.py"]))
    then Raise (DeploymentError ("engine source is not a " +:+ name +:+ " directory: " +:+ text_of p))
    else Ok (dset name p roots)) [] sources;
  if negb (bool_decide (roots = [])) && negb (dmem "vllm" roots)
  then Raise (DeploymentError "--engine-source vllm-metax=PATH also requires the corresponding --engine-source vllm=PATH")
  else Ok roots.

(** [build_sources] *)
Definition build_sources (s : snapshot) (component : string) : outcome (option json) :=
  match sn_sources s with
  | None => Ok None
  | Some (JObj m) =>
      let m := ddel "dependencies" m in
      Ok (Some (JObj (if eqb component "model-server" then m else ddel "engines" m)))
  | Some _ => Raise AttributeError
  end.
