(* ===== verification/BuildInputsProofs.v ===== *)
(** * Properties of the build inputs

    Walking a directory finds exactly the source files below it and ends also when
    links form a cycle; a captured snapshot matches the source it was taken from; and
    a file whose version is kept has the contents of the previous snapshot. *)

From S2P Require Import Prelude Text Kube Effects Client BuildInputs.

Lemma result_bind_Returned {A B} (m : result A) (k : A → result B) b :
  m ≫= k = Returned b ↔ ∃ a, m = Returned a ∧ k a = Returned b.
Proof. unfold mbind, result_bind. destruct m; naive_solver. Qed.

Lemma of_outcome_Returned {A} (r : outcome A) a : of_outcome r = Returned a ↔ r = Ok a.
Proof. destruct r; simpl; naive_solver. Qed.

(** ** Walking a directory *)

Section Walk.
Variable F : fs.
Variable root : path.
Variable excluded : list string.

(** A regular file that counts as a source *)
Definition source_at (rel : path) (name : string) : bool :=
  is_file F (root ++ rel) && negb (eqb name ".DS_Store") && negb (mem (suffix name) [".pyc"; ".pyo"]).

(** What the walk is for: [rest] leads from the directory [rel] to a source, through
    listed entries that are not ignored. *)
Fixpoint below (rel rest : path) : bool :=
  match rest with
  | [] => false
  | name :: rest =>
      mem name (entries F (root ++ rel)) && negb (ignored excluded (rel ++ [name]) name)
      && match rest with
         | [] => source_at (rel ++ [name]) name
         | _ => is_dir F (root ++ rel ++ [name]) && below (rel ++ [name]) rest
         end
  end.

(** Why a walk fails: a file system error, or a directory that is one of its own
    ancestors. *)
Definition walk_failure (e : exn) : Prop :=
  (∃ m, e = OSError m) ∨
  (∃ rel rel' m, rel' ≠ [] ∧ e = DeploymentError m ∧
    resolve F (root ++ rel) = resolve F (root ++ rel ++ rel')).

Definition walked (rel : path) (found : list path) (r : result (list path)) : Prop :=
  match r with
  | Returned found' => ∀ x, x ∈ found' ↔ x ∈ found ∨ ∃ rest, x = rel ++ rest ∧ below rel rest = true
  | Raised e => walk_failure e
  | Unfinished => False
  end.

(** The sources that start with one of [names]. *)
Definition through (rel : path) (names : list string) (x : path) : Prop :=
  ∃ name rest, name ∈ names ∧ x = rel ++ name :: rest ∧ below rel (name :: rest) = true.

Definition walked_names (rel : path) (names : list string) (found : list path) (r : result (list path)) : Prop :=
  match r with
  | Returned found' => ∀ x, x ∈ found' ↔ x ∈ found ∨ through rel names x
  | Raised e => walk_failure e
  | Unfinished => False
  end.

Lemma through_cons rel name names x :
  through rel (name :: names) x ↔
  (∃ rest, x = rel ++ name :: rest ∧ below rel (name :: rest) = true) ∨ through rel names x.
Proof. unfold through. setoid_rewrite elem_of_cons. naive_solver. Qed.

Lemma below_head rel name :
  name ∈ entries F (root ++ rel) →
  ∀ rest, below rel (name :: rest) =
    negb (ignored excluded (rel ++ [name]) name)
    && match rest with
       | [] => source_at (rel ++ [name]) name
       | _ => is_dir F (root ++ rel ++ [name]) && below (rel ++ [name]) rest
       end.
Proof. intros H rest. cbn [below]. by rewrite (proj2 (mem_true _ _) H), andb_true_l. Qed.

(** One entry, by what it is. *)
Lemma through_directory rel name m :
  name ∈ entries F (root ++ rel) → ignored excluded (rel ++ [name]) name = false →
  node_at F (root ++ rel ++ [name]) = Some (Directory m) →
  ∀ x, (∃ rest, x = rel ++ name :: rest ∧ below rel (name :: rest) = true) ↔
       ∃ rest, x = (rel ++ [name]) ++ rest ∧ below (rel ++ [name]) rest = true.
Proof.
  intros Hn Hi Hd x. setoid_rewrite (below_head rel name Hn). rewrite Hi. simpl.
  unfold source_at, is_file, is_dir. rewrite Hd. simpl.
  split; intros (rest & -> & H); exists rest; (rewrite <-app_assoc || rewrite <-app_assoc); destruct rest; naive_solver.
Qed.

Lemma through_leaf rel name n :
  name ∈ entries F (root ++ rel) → ignored excluded (rel ++ [name]) name = false →
  node_at F (root ++ rel ++ [name]) = Some n → (∀ m, n ≠ Directory m) →
  ∀ x, (∃ rest, x = rel ++ name :: rest ∧ below rel (name :: rest) = true) ↔
       x = rel ++ [name] ∧ source_at (rel ++ [name]) name = true.
Proof.
  intros Hn Hi Hd Hnd x. setoid_rewrite (below_head rel name Hn). rewrite Hi. simpl.
  unfold is_dir. rewrite Hd. split.
  - intros ([|a rest] & -> & H); [done|]. destruct n; naive_solver.
  - intros [-> H]. by exists [].
Qed.

Lemma visit_entries_walked into rel names found :
  (∀ name, name ∈ names → name ∈ entries F (root ++ rel)) →
  (∀ name found, name ∈ names → is_dir F (root ++ rel ++ [name]) = true →
    walked (rel ++ [name]) found (into (rel ++ [name]) found)) →
  walked_names rel names found (visit_entries F root excluded into rel names found).
Proof.
  revert found. induction names as [|name names IH]; intros found Hin Hinto; simpl.
  { intros x. unfold through. split; [by left|]. intros [?|(n & ? & []%not_elem_of_nil & _)]. done. }
  assert (∀ found, walked_names rel names found (visit_entries F root excluded into rel names found)) as Hrest.
  { intros ?. apply IH; [intros; apply Hin; by right|intros; apply Hinto; [by right|done]]. }
  clear IH. pose proof (Hin name ltac:(left)) as Hn.
  assert (∀ found found', (∀ x, x ∈ found' ↔ x ∈ found ∨
      ∃ rest, x = rel ++ name :: rest ∧ below rel (name :: rest) = true) →
    walked_names rel (name :: names) found (visit_entries F root excluded into rel names found')) as Hone.
  { intros f f' Hf. specialize (Hrest f'). unfold walked_names in *.
    destruct (visit_entries _ _ _ _ _ _ f'); [|done|done].
    intros x. rewrite Hrest, through_cons, Hf. tauto. }
  destruct (ignored excluded (rel ++ [name]) name) eqn:Ei.
  { apply Hone. intros x. setoid_rewrite (below_head rel name Hn). rewrite Ei. naive_solver. }
  destruct (node_at F (root ++ rel ++ [name])) as [[bytes m|m|m]|] eqn:En.
  - apply Hone. intros x. rewrite (through_leaf rel name _ Hn Ei En) by done.
    unfold source_at, is_file. rewrite En, andb_true_l. destruct (_ && _); set_solver.
  - specialize (Hinto name found ltac:(left)). unfold is_dir in Hinto. rewrite En in Hinto.
    specialize (Hinto eq_refl). destruct (into (rel ++ [name]) found) as [f'|e|]; [|done|done].
    apply Hone. intros x. rewrite (through_directory rel name m Hn Ei En). apply Hinto.
  - apply Hone. intros x. rewrite (through_leaf rel name _ Hn Ei En) by done.
    unfold source_at, is_file. rewrite En. naive_solver.
  - by left; eexists.
Qed.

(** The ancestors of [rel] are the resolved directories on the way to it. *)
Definition ancestors_of (rel : path) (ancestors : list path) : Prop :=
  ∀ a, a ∈ ancestors → ∃ r1 r2, rel = r1 ++ r2 ∧ r2 ≠ [] ∧ a = resolve F (root ++ r1).

Lemma visit_walked dirs fuel rel ancestors found :
  (∀ p, is_dir F p = true → resolve F p ∈ dirs) →
  NoDup ancestors → ancestors ⊆ dirs → (length dirs < fuel + length ancestors)%nat → ancestors_of rel ancestors →
  walked rel found (visit F root excluded fuel rel ancestors found).
Proof.
  intros Hdirs. revert rel ancestors found.
  induction fuel as [|fuel IH]; intros rel ancestors found Hnd Hsub Hlen Hanc.
  { pose proof (submseteq_length _ _ (NoDup_submseteq _ _ Hnd Hsub)). lia. }
  cbn [visit]. destruct (mem _ ancestors) eqn:Em.
  { apply mem_true in Em. destruct (Hanc _ Em) as (r1 & r2 & -> & Hne & Heq).
    right. exists r1, r2. eauto. }
  apply mem_false in Em. destruct (is_dir F (root ++ rel)) eqn:Ed; simpl; [|by left; eexists].
  assert (walked_names rel (sort_by id (entries F (root ++ rel))) found
    (visit_entries F root excluded
      (λ rel' found, visit F root excluded fuel rel' (resolve F (root ++ rel) :: ancestors) found) rel
      (sort_by id (entries F (root ++ rel))) found)) as H.
  { apply visit_entries_walked; [intros n; by rewrite elem_of_sort_by|]. intros name f _ _.
    apply IH; [by constructor| |simpl; lia|].
    - intros x [->|?]%elem_of_cons; [by apply Hdirs|by apply Hsub].
    - intros a [->|Ha]%elem_of_cons; [by exists rel, [name]|].
      destruct (Hanc a Ha) as (r1 & r2 & -> & _ & ->). exists r1, (r2 ++ [name]).
      rewrite app_assoc. split_and!; [done|by destruct r2|done]. }
  unfold walked_names, walked in *. destruct (visit_entries _ _ _ _ _ _ _); [|done|done].
  intros x. rewrite H. f_equiv. unfold through. split.
  - intros (name & rest & _ & -> & Hb). eauto.
  - intros ([|name rest] & -> & Hb); [done|]. exists name, rest. split_and!; [|done|done].
    apply elem_of_sort_by. simpl in Hb. reflect_in Hb. naive_solver.
Qed.
End Walk.

(** Walking a source directory, with links followed, is total: when the fuel
    exceeds the number of directories of the file system, the walk either returns, and
    then with exactly the regular files that are reachable through entries that are
    not ignored ([below] decides it from the path alone), or raises, and then because
    the file system failed or because a directory is its own ancestor. *)
Theorem directory_files_exact (F : fs) (dirs : list path) (fuel : nat) (root : path) (excluded : list string)
  (Hdirs : ∀ p, is_dir F p = true → resolve F p ∈ dirs) (Hfuel : (length dirs < fuel)%nat) :
  match directory_files fuel F root excluded with
  | Returned rels => ∀ rel, rel ∈ rels ↔ below F root excluded [] rel = true
  | Raised e => walk_failure F root e
  | Unfinished => False
  end.
Proof.
  assert (walked F root excluded [] [] (directory_files fuel F root excluded)) as H.
  { apply (visit_walked F root excluded dirs); [done|constructor|set_solver|simpl; lia|].
    intros a []%not_elem_of_nil. }
  unfold walked in H. destruct (directory_files _ _ _ _); [|done|done].
  intros rel. rewrite H. split; [|eauto].
  intros [[]%not_elem_of_nil|(rest & -> & ?)]. done.
Qed.

(** ** Comparing with a snapshot *)

(** The file [p] has the contents and the executable bit of the captured [old]. *)
Definition holds (F : fs) (p : path) (old : captured) : Prop :=
  ∃ bytes mode, node_at F p = Some (File bytes mode) ∧ c_bytes old = bytes ∧
    source_mode (c_mode old) = source_mode mode.

(** [s] is a snapshot of [i] as the file system has it. *)
Definition matches (F : fs) (i : inputs) (s : snapshot) : Prop :=
  (∀ name, match dget name (sn_files s), dget name (files i) with
           | Some old, Some p => holds F p old
           | None, None => True
           | _, _ => False
           end) ∧
  ∃ deps, snapshot_dependencies s = Ok (JObj deps) ∧
    ∀ name, differ (dget name deps) (dget name (dependencies i)) = false.

Lemma same_source_file_true a b :
  same_source_file a b = true ↔ source_mode (c_mode a) = source_mode (c_mode b) ∧ c_bytes a = c_bytes b.
Proof. unfold same_source_file. by rewrite andb_true_iff, Z.eqb_eq, eqb_true. Qed.

Lemma file_changed_false F i s name :
  file_changed F i s name = Ok false ↔
  ∃ old p, dget name (sn_files s) = Some old ∧ dget name (files i) = Some p ∧ holds F p old.
Proof.
  unfold file_changed, holds, stat.
  destruct (dget name (sn_files s)) as [old|]; [|naive_solver].
  destruct (dget name (files i)) as [p|]; [|naive_solver].
  destruct (node_at F p) as [[bytes mode|m|m]|] eqn:En; simpl; [|naive_solver..].
  split.
  - intros [= H]. apply negb_false_iff, same_source_file_true in H as [H1 H2].
    exists old, p. split_and!; [done..|]. exists bytes, mode. done.
  - intros (? & ? & [= <-] & [= <-] & ? & ? & H & H1 & H2). rewrite En in H. injection H as <- <-.
    do 2 f_equal. apply negb_false_iff, same_source_file_true. done.
Qed.

Lemma elem_of_file_names n (s : snapshot) (i : inputs) :
  n ∈ distinct ((sn_files s).*1 ++ (files i).*1) ↔ is_Some (dget n (sn_files s)) ∨ is_Some (dget n (files i)).
Proof.
  rewrite elem_of_distinct, elem_of_app.
  rewrite <-!not_eq_None_Some, !dget_None. split; [|destruct (decide (n ∈ (sn_files s).*1)), (decide (n ∈ (files i).*1)); tauto].
  naive_solver.
Qed.

Lemma not_marked F i s names marked name :
  outcome_map (λ n, b ← file_changed F i s n; Ok (n, b)) names = Ok marked →
  name ∈ names → name ∉ (keep snd marked).*1 → file_changed F i s name = Ok false.
Proof.
  intros HF%outcome_map_Ok [k Hk]%list_elem_of_lookup Hout.
  destruct (Forall2_lookup_l _ _ _ _ _ HF Hk) as ([n b] & Hnb & Hx).
  apply outcome_bind_Ok in Hx as (c & Hc & [= <- <-]). destruct c; [|done].
  exfalso. apply Hout. apply list_elem_of_fmap. exists (name, true). split; [done|].
  apply elem_of_keep. split; [done|]. by eapply list_elem_of_lookup_2.
Qed.

(** The names that a comparison does not report. *)
Lemma not_changed F i s ch name :
  changed F i s = Ok ch → is_Some (dget name (files i)) → name ∉ ch →
  file_changed F i s name = Ok false.
Proof.
  unfold changed. intros (marked & Hm & H)%outcome_bind_Ok Hn Hch.
  apply outcome_bind_Ok in H as (deps & Hd & H). destruct deps; try done. injection H as <-.
  rewrite elem_of_distinct, elem_of_app in Hch.
  eapply not_marked; [done|apply elem_of_file_names; auto|tauto].
Qed.

Lemma distinct_nil {A} `{EqDecision A} (l : list A) : distinct l = [] ↔ l = [].
Proof.
  split; [|by intros ->]. intros H. destruct l as [|x l]; [done|].
  exfalso. apply (not_elem_of_nil x). rewrite <-H. apply elem_of_distinct. left.
Qed.

Lemma differ_none_none a b : differ a b = true → is_Some a ∨ is_Some b.
Proof. destruct a, b; simpl; try done; eauto. Qed.

Lemma differences_nil {V W} (deps : list (string * V)) (own : list (string * W)) (p : string → bool) :
  (∀ n, p n = true → is_Some (dget n deps) ∨ is_Some (dget n own)) →
  keep p (deps.*1 ++ own.*1) = [] ↔ ∀ n, p n = false.
Proof.
  intros Hp. rewrite keep_nil_Forall. split; [|auto]. intros H n. destruct (p n) eqn:E; [|done].
  rewrite <-E. apply H. apply elem_of_app. destruct (Hp n E) as [[v Hv]|[v Hv]]; [left|right];
    apply dget_elem in Hv; apply list_elem_of_fmap; by exists (n, v).
Qed.

(** Nothing is reported when, and only when, the snapshot is one of the inputs. *)
Lemma changed_nil F i s : changed F i s = Ok [] ↔ matches F i s.
Proof.
  unfold changed, matches. rewrite outcome_bind_Ok. split.
  - intros (marked & Hm & H).
    apply outcome_bind_Ok in H as (deps & Hd & H). destruct deps as [| | | | | |deps]; try done.
    injection H as H. apply distinct_nil, app_eq_nil in H as [H1 H2]. split.
    + intros name. destruct (decide (name ∈ distinct ((sn_files s).*1 ++ (files i).*1))) as [Hin|Hout].
      * assert (file_changed F i s name = Ok false) as Hc
          by (eapply not_marked; [done|done|rewrite H1; apply not_elem_of_nil]).
        apply file_changed_false in Hc as (old & p & -> & -> & Hh). done.
      * rewrite elem_of_file_names, <-!not_eq_None_Some in Hout.
        destruct (dget name (sn_files s)), (dget name (files i)); try done; exfalso; naive_solver.
    + exists deps. split; [done|]. apply (differences_nil deps (dependencies i)); [|done].
      intros. by apply differ_none_none.
  - intros (Hf & deps & Hd & Hdiff).
    assert (∀ n, n ∈ distinct ((sn_files s).*1 ++ (files i).*1) → file_changed F i s n = Ok false) as Hall.
    { intros n Hn. apply elem_of_file_names in Hn. specialize (Hf n). apply file_changed_false.
      rewrite <-!not_eq_None_Some in Hn.
      destruct (dget n (sn_files s)), (dget n (files i)); naive_solver. }
    exists ((λ n, (n, false)) <$> distinct ((sn_files s).*1 ++ (files i).*1)). split.
    + apply outcome_map_Ok. apply Forall2_fmap_r, Forall_Forall2_diag, Forall_forall.
      intros n Hn. by rewrite Hall.
    + rewrite Hd. simpl. f_equal. apply distinct_nil. apply app_nil. split.
      * rewrite (proj2 (keep_nil_Forall _ _)); [done|]. by intros x (n & -> & _)%list_elem_of_fmap.
      * apply (differences_nil deps (dependencies i)); [|done]. intros. by apply differ_none_none.
Qed.

(** ** Selecting *)

(** An inventory names each file once, and every file is a regular one. *)
Definition regular (F : fs) (files : inventory) : Prop :=
  NoDup files.*1 ∧ Forall (λ f, is_file F f.2 = true) files.

Create HintDb regular discriminated.

Lemma regular_nil F : regular F [].
Proof. by split; constructor. Qed.

Lemma regular_dset F n p files : is_file F p = true → regular F files → regular F (dset n p files).
Proof. intros Hp [Hn Hf]. split; [by apply NoDup_dset|by apply Forall_dset]. Qed.

Lemma regular_update F files more : regular F files → regular F more → regular F (update files more).
Proof.
  intros H [_ Hm]. revert files H. unfold update.
  induction Hm as [|[n p] more Hp Hm IH]; intros files H; simpl; [done|].
  apply IH. by apply regular_dset.
Qed.

Lemma regular_add_files F prefix directory rels files :
  Forall (λ rel, is_file F (directory ++ rel) = true) rels → regular F files →
  regular F (add_files prefix directory rels files).
Proof.
  intros Hr. revert files. unfold add_files.
  induction Hr as [|rel rels Hx Hr IH]; intros files H; simpl; [done|].
  apply IH. by apply regular_dset.
Qed.

Lemma regular_single F root files : regular F files → regular F (select_single F root files).
Proof.
  unfold select_single. revert files. induction SINGLE_FILES as [|n names IH]; intros files H; simpl; [done|].
  apply IH. destruct (is_file F (root ++ n)) eqn:E; [by apply regular_dset|done].
Qed.

#[export] Hint Resolve regular_nil regular_dset regular_update regular_add_files regular_single : regular.

Lemma visit_entries_files F root excluded into rel names found found' :
  (∀ rel found found', into rel found = Returned found' →
    Forall (λ r, is_file F (root ++ r) = true) found → Forall (λ r, is_file F (root ++ r) = true) found') →
  visit_entries F root excluded into rel names found = Returned found' →
  Forall (λ r, is_file F (root ++ r) = true) found → Forall (λ r, is_file F (root ++ r) = true) found'.
Proof.
  intros Hinto. revert found. induction names as [|name names IH]; intros found; simpl; [by intros [= <-]|].
  destruct (ignored _ _ _); [by apply IH|]. destruct (node_at F (root ++ rel ++ [name])) as [[b m|m|m]|] eqn:En; [| |by apply IH|by intros [=]].
  - intros H Hf. eapply IH; [done|]. destruct (_ && _); [|done]. apply Forall_app. split; [done|].
    apply Forall_singleton. unfold is_file. by rewrite En.
  - destruct (into _ _) as [f|e|] eqn:Ei; [|done|done]. intros H Hf. eapply IH; [done|]. by eapply Hinto.
Qed.

Lemma visit_files F root excluded fuel rel ancestors found found' :
  visit F root excluded fuel rel ancestors found = Returned found' →
  Forall (λ r, is_file F (root ++ r) = true) found → Forall (λ r, is_file F (root ++ r) = true) found'.
Proof.
  revert rel ancestors found found'.
  induction fuel as [|fuel IH]; intros rel ancestors found found'; simpl; [done|].
  destruct (mem _ _); [done|]. destruct (is_dir _ _); simpl; [|done].
  apply visit_entries_files. intros r f f' H Hf. by eapply IH.
Qed.

Lemma directory_files_regular fuel F root excluded rels :
  directory_files fuel F root excluded = Returned rels → Forall (λ r, is_file F (root ++ r) = true) rels.
Proof. intros H. eapply visit_files; [exact H|constructor]. Qed.

Lemma Forall_keep {A} (P : A → Prop) p l : Forall P l → Forall P (keep p l).
Proof. rewrite !Forall_forall. intros H x [_ Hx]%elem_of_keep. auto. Qed.
#[export] Hint Resolve directory_files_regular Forall_keep : regular.

Lemma select_roots_regular fuel F root roots files files' :
  select_roots fuel F root roots files = Returned files' → regular F files → regular F files'.
Proof.
  revert files. induction roots as [|[prefix excluded] roots IH]; intros files; simpl; [by intros [= <-]|].
  destruct (negb _); [by apply IH|]. intros (rels & Hr & H)%result_bind_Returned Hf. eapply IH; [done|]. eauto with regular.
Qed.

Lemma select_engines_regular fuel F engines files files' :
  select_engines fuel F engines files = Returned files' → regular F files → regular F files'.
Proof.
  revert files. induction engines as [|[engine directory] engines IH]; intros files; simpl; [by intros [= <-]|].
  intros (rels & Hr & H)%result_bind_Returned Hf. eapply IH; [done|]. eauto with regular.
Qed.

Lemma rust_inputs_regular fuel F root files : rust_inputs fuel F root = Returned files → regular F files.
Proof.
  unfold rust_inputs. destruct (empty_source_directory _ _); [intros [= <-]; auto with regular|].
  destruct (negb _); [done|]. intros (rels & Hr & [= <-])%result_bind_Returned.
  destruct (is_file F (_ ++ [".foretoken-patches.json"])) eqn:E; eauto with regular.
Qed.

Lemma mooncake_inputs_regular fuel F root version m :
  mooncake_inputs fuel F root version = Returned m → regular F m.1.
Proof.
  unfold mooncake_inputs. intros (recipe & _ & H)%result_bind_Returned.
  apply result_bind_Returned in H as (dependency & _ & H).
  destruct (empty_source_directory _ _); [injection H as <-; auto with regular|].
  apply result_bind_Returned in H as (rels & Hr & [= <-]). simpl. eauto with regular.
Qed.

(** What is selected can be captured. *)
Lemma select_regular fuel F root engines mooncake i :
  select fuel F root engines mooncake = Returned i →
  regular F (files i) ∧ BuildInputs.root i = root ∧ BuildInputs.engines i = engines ∧ mooncake_version i = mooncake.
Proof.
  unfold select. intros (f1 & H1 & H)%result_bind_Returned.
  apply result_bind_Returned in H as (revision & _ & H).
  apply result_bind_Returned in H as (rust & Hrust & H).
  apply result_bind_Returned in H as ([f2 deps] & H2 & H).
  apply result_bind_Returned in H as (f3 & H3 & [= <-]). split; [|done]. simpl in H3 |- *.
  eapply select_engines_regular; [done|].
  apply select_roots_regular in H1; [|auto with regular]. apply rust_inputs_regular in Hrust.
  destruct mooncake as [version|].
  - apply result_bind_Returned in H2 as (m & Hm & [= <- <-]). apply mooncake_inputs_regular in Hm. auto with regular.
  - injection H2 as <- <-. auto with regular.
Qed.

(** ** Capturing *)

(** A captured file has one of the two portable modes. *)
Definition portable (c : captured) : Prop := source_mode (c_mode c) = c_mode c.
Definition portable_snapshot (s : snapshot) : Prop := ∀ name c, dget name (sn_files s) = Some c → portable c.

Lemma source_mode_cases m : source_mode m = 420 ∨ source_mode m = 493.
Proof. unfold source_mode. destruct (_ =? _); auto. Qed.

Lemma source_mode_idem m : source_mode (source_mode m) = source_mode m.
Proof. destruct (source_mode_cases m) as [-> | ->]; done. Qed.

Lemma portable_mode c : portable c → Z.land (c_mode c) 4095 = c_mode c.
Proof. unfold portable. destruct (source_mode_cases (c_mode c)) as [-> | ->]; by intros <-. Qed.

(** Files captured one by one. *)
Lemma copied_lookup {A B} (g : string → A → outcome B) (l : list (string * A)) l' :
  outcome_map (λ f, c ← g f.1 f.2; Ok (f.1, c)) l = Ok l' →
  ∀ name, match dget name l, dget name l' with
          | Some p, Some c => g name p = Ok c
          | None, None => True
          | _, _ => False
          end.
Proof.
  intros H%outcome_map_Ok name. induction H as [|[n p] [n' c] l l' Hx _ IH]; [done|].
  apply outcome_bind_Ok in Hx as (c' & Hc & [= <- <-]). simpl in *.
  destruct (eqb n name) eqn:E; [|done]. by apply eqb_true in E as <-.
Qed.

Lemma capture_Returned fuel F F' i previous unchanged s :
  capture fuel F F' i previous unchanged = Returned s ↔
  ∃ copied again,
    outcome_map (λ f, c ← capture_file F previous unchanged f.1 f.2; Ok (f.1, c)) (files i) = Ok copied ∧
    s = Snapshot copied (Some (source_metadata F i)) (engine_manifest i) ∧
    select fuel F' (root i) (engines i) (mooncake_version i) = Returned again ∧
    changed F' again s = Ok [].
Proof.
  unfold capture. rewrite result_bind_Returned. split.
  - intros (copied & Hc%of_outcome_Returned & H). apply result_bind_Returned in H as (again & Ha & H).
    apply result_bind_Returned in H as (u & Hu%of_outcome_Returned & [= <-]).
    apply outcome_bind_Ok in Hu as ([|] & Hch & Hu); [|done]. eauto 10.
  - intros (copied & again & Hc & -> & Ha & Hch). exists copied. rewrite of_outcome_Returned. split; [done|].
    apply result_bind_Returned. exists again. split; [done|]. apply result_bind_Returned. exists tt.
    split; [|done]. unfold validate. by rewrite Hch.
Qed.

Lemma captured_dependencies F i copied m :
  snapshot_dependencies (Snapshot copied (Some (source_metadata F i)) m) = Ok (JObj (dependencies i)).
Proof. done. Qed.

(** What one file is captured as. *)
Lemma capture_file_portable F previous unchanged name p c :
  (∀ s, previous = Some s → portable_snapshot s) →
  capture_file F previous unchanged name p = Ok c → portable c.
Proof.
  intros Hprev (n & Hn & H)%outcome_bind_Ok.
  assert (copy_source n (source_mode (mode_of n)) = Ok c → portable c) as Hcopy.
  { unfold copy_source. destruct n; [|done|done]. intros [= <-]. apply source_mode_idem. }
  destruct previous as [prev|]; [|auto]. destruct unchanged as [un|]; [|auto].
  destruct (mem name un); [|auto]. destruct (dget name (sn_files prev)) as [prior|] eqn:Ep; [|done].
  simpl in H. destruct (Z.land _ _ =? _); [|auto]. injection H as <-. by eapply Hprev.
Qed.

(** A file that is linked to the previous snapshot *)
Lemma capture_file_linked F prev unchanged name p n prior :
  name ∈ unchanged → node_at F p = Some n → dget name (sn_files prev) = Some prior → portable prior →
  source_mode (c_mode prior) = source_mode (mode_of n) →
  capture_file F (Some prev) (Some unchanged) name p = Ok prior.
Proof.
  intros Hin Hn Hp Hport Hm. unfold capture_file, stat. rewrite Hn. simpl.
  rewrite (proj2 (mem_true _ _) Hin), Hp, portable_mode by done.
  by rewrite <-Hm, Hport, Z.eqb_refl.
Qed.

(** ... and a file that is copied. *)
Lemma capture_file_copied F prev unchanged name p :
  name ∉ unchanged → is_file F p = true →
  ∃ c, capture_file F (Some prev) (Some unchanged) name p = Ok c ∧ holds F p c.
Proof.
  intros Hout Hp. unfold capture_file, stat. unfold is_file in Hp.
  destruct (node_at F p) as [[bytes mode|m|m]|] eqn:En; try done. simpl.
  rewrite (proj2 (mem_false _ _) Hout). exists (Captured bytes (source_mode mode)). split; [done|].
  exists bytes, mode. split_and!; [done..|]. apply source_mode_idem.
Qed.

Lemma elem_of_unchanged_names i ch name :
  name ∈ unchanged_names i ch ↔ is_Some (dget name (files i)) ∧ name ∉ ch.
Proof.
  unfold unchanged_names. rewrite elem_of_keep, negb_true_iff, mem_false, <-not_eq_None_Some, dget_None.
  destruct (decide (name ∈ (files i).*1)); tauto.
Qed.

(** A capture that returns is a snapshot of the source as a second selection sees
    it after the copies were made, whatever changed in between: the same names, and for
    each the bytes and the executable bit of the file, and no declared dependency that
    differs from the recorded ones.  Its files have portable modes. *)
Theorem capture_sound (fuel : nat) (F F' : fs) (i : inputs) (previous : option snapshot)
    (unchanged : option (list string)) (s : snapshot)
  (Hprev : ∀ p, previous = Some p → portable_snapshot p)
  (Hcapture : capture fuel F F' i previous unchanged = Returned s) :
  portable_snapshot s ∧
  ∃ again, select fuel F' (root i) (engines i) (mooncake_version i) = Returned again ∧
    (∀ name, match dget name (sn_files s), dget name (files again) with
             | Some old, Some p => holds F' p old
             | None, None => True
             | _, _ => False
             end) ∧
    ∀ name, differ (dget name (dependencies i)) (dget name (dependencies again)) = false.
Proof.
  apply capture_Returned in Hcapture as (copied & again & Hc & -> & Ha & Hch). split.
  - intros name c Hn. simpl in Hn. pose proof (copied_lookup _ _ _ Hc name) as Hl. rewrite Hn in Hl.
    destruct (dget name (files i)) as [p|]; [|done]. by eapply capture_file_portable.
  - exists again. split; [done|]. apply changed_nil in Hch as [Hf (deps & Hd & Hdiff)]. split; [done|].
    rewrite captured_dependencies in Hd. injection Hd as <-. done.
Qed.

(** Every file of a selection can be captured from a source that stays quiet. *)
Lemma capture_file_quiet F i prev ch name p :
  regular F (files i) → changed F i prev = Ok ch → portable_snapshot prev → dget name (files i) = Some p →
  ∃ c, capture_file F (Some prev) (Some (unchanged_names i ch)) name p = Ok c ∧ holds F p c ∧
    (name ∉ ch → dget name (sn_files prev) = Some c).
Proof.
  intros [_ Hreg] Hch Hport Hp. rewrite Forall_forall in Hreg.
  pose proof (Hreg _ (dget_elem _ _ _ Hp)) as Hfile. simpl in Hfile.
  destruct (decide (name ∈ ch)) as [Hin|Hout].
  - destruct (capture_file_copied F prev (unchanged_names i ch) name p) as (c & Hc & Hh); [|done|by exists c].
    rewrite elem_of_unchanged_names. tauto.
  - destruct (proj1 (file_changed_false F i prev name)) as (old & p' & Hold & Hp' & Hh).
    { by eapply not_changed. }
    rewrite Hp in Hp'. injection Hp' as <-. exists old. split_and!; [|done|done].
    pose proof Hh as (bytes & mode & Hn & _ & Hm).
    eapply capture_file_linked; [by apply elem_of_unchanged_names|done|done|by eapply Hport|done].
Qed.

Lemma outcome_map_total {A B} (f : A → outcome B) l :
  (∀ x, x ∈ l → ∃ y, f x = Ok y) → ∃ ys, outcome_map f l = Ok ys.
Proof.
  induction l as [|x l IH]; intros H; [by exists []|]. destruct (H x ltac:(left)) as [y Hy].
  destruct IH as [ys Hys]; [intros; apply H; by right|]. exists (y :: ys). simpl. by rewrite Hy; simpl; rewrite Hys.
Qed.

(** C30: update round trip.  On a source that stays quiet, selecting the inputs,
    comparing them with the previous snapshot and capturing with the unreported files
    linked always succeeds, also with files and dependencies added, removed or edited.
    The new snapshot has exactly the selected files, each with the bytes the source has
    now and its executable bit as a portable mode, whether it was copied or linked; a
    comparison with it reports nothing, and every file that was not reported is the
    one of the previous snapshot. *)
Theorem update_roundtrip (fuel : nat) (F : fs) (r : path) (engines : list (string * path))
    (mooncake : option string) (i : inputs) (prev : snapshot) (ch : list string)
  (Hselect : select fuel F r engines mooncake = Returned i)
  (Hchanged : changed F i prev = Ok ch)
  (Hprev : portable_snapshot prev)
  (Hdeps : ∀ d, d ∈ (dependencies i).*2 → py_eqb d d = true) :
  ∃ s, capture fuel F F i (Some prev) (Some (unchanged_names i ch)) = Returned s ∧
    changed F i s = Ok [] ∧
    (∀ name, match dget name (files i), dget name (sn_files s) with
             | Some p, Some c => ∃ mode, node_at F p = Some (File (c_bytes c) mode) ∧ c_mode c = if Z.land mode 64 =? 0 then 420 else 493
             | None, None => True
             | _, _ => False
             end) ∧
    ∀ name, is_Some (dget name (files i)) → name ∉ ch → dget name (sn_files s) = dget name (sn_files prev).
Proof.
  destruct (select_regular _ _ _ _ _ _ Hselect) as (Hreg & Hr & He & Hm).
  pose proof (λ name p, capture_file_quiet F i prev ch name p Hreg Hchanged Hprev) as Hquiet.
  destruct (outcome_map_total (λ f, c ← capture_file F (Some prev) (Some (unchanged_names i ch)) f.1 f.2; Ok (f.1, c))
    (files i)) as [copied Hc].
  { intros [name p] Hin. destruct (Hquiet name p) as (c & Hc & _); [by apply elem_dget; [apply Hreg|]|].
    exists (name, c). simpl. by rewrite Hc. }
  pose proof (copied_lookup _ _ _ Hc) as Hl.
  set (s := Snapshot copied (Some (source_metadata F i)) (engine_manifest i)).
  assert (changed F i s = Ok []) as Hnil.
  { apply changed_nil. split.
    - intros name. specialize (Hl name). simpl. destruct (dget name (files i)) as [p|] eqn:Ep, (dget name copied); try done.
      destruct (Hquiet name p Ep) as (c' & Hc' & Hh & _). rewrite Hc' in Hl. by injection Hl as <-.
    - exists (dependencies i). split; [apply captured_dependencies|]. intros name.
      destruct (dget name (dependencies i)) as [d|] eqn:Ed; [|done]. simpl. apply negb_false_iff, Hdeps.
      apply list_elem_of_fmap. exists (name, d). split; [done|]. by apply dget_elem. }
  exists s. split_and!; [|done| |].
  - apply capture_Returned. exists copied, i. by rewrite Hr, He, Hm.
  - intros name. specialize (Hl name). simpl. destruct (dget name (files i)) as [p|] eqn:Ep, (dget name copied) as [c|]; try done.
    destruct (Hquiet name p Ep) as (c' & Hc' & Hh & _). assert (c' = c) as -> by congruence.
    destruct Hh as (bytes & mode & Hn & Hb & Hmode). exists mode. rewrite Hb. split; [done|].
    assert (portable c) as Hport by (eapply capture_file_portable; [|exact Hc']; by intros ? [= <-]).
    rewrite <-Hport. exact Hmode.
  - intros name [p Hp] Hout. specialize (Hl name). rewrite Hp in Hl. simpl.
    destruct (Hquiet name p Hp) as (c & Hc' & _ & Hprior). rewrite Hprior by done.
    destruct (dget name copied); [|done]. rewrite Hc' in Hl. by injection Hl as <-.
Qed.

(** ** Versions *)

Lemma linked_same F0 F i prev ch copied name c :
  NoDup (files i).*1 → changed F0 i prev = Ok ch → portable_snapshot prev →
  (∀ p n0 n, node_at F0 p = Some n0 → node_at F p = Some n → source_mode (mode_of n) = source_mode (mode_of n0)) →
  outcome_map (λ f, c ← capture_file F (Some prev) (Some (unchanged_names i ch)) f.1 f.2; Ok (f.1, c)) (files i) = Ok copied →
  (name, c) ∈ copied → name ∉ ch → dget name (sn_files prev) = Some c.
Proof.
  intros Hnd Hch Hport Hmodes Hc%outcome_map_Ok Hin Hout.
  apply list_elem_of_lookup in Hin as [k Hk]. destruct (Forall2_lookup_r _ _ _ _ _ Hc Hk) as ([name' p] & Hp & Hx).
  apply outcome_bind_Ok in Hx as (c' & Hx & [= -> ->]). simpl in Hx.
  assert (dget name (files i) = Some p) as Hget by (apply elem_dget; [done|by eapply list_elem_of_lookup_2]).
  destruct (proj1 (file_changed_false F0 i prev name)) as (old & p' & Hold & Hp' & bytes & mode & Hn0 & _ & Hm).
  { by eapply not_changed. }
  rewrite Hget in Hp'. injection Hp' as <-. rewrite Hold. f_equal.
  destruct (node_at F p) as [n|] eqn:En; [|by unfold capture_file, stat in Hx; rewrite En in Hx].
  rewrite (capture_file_linked F prev _ name p n old) in Hx;
    [by injection Hx| by apply elem_of_unchanged_names|done|done|by eapply Hport|].
  rewrite Hm. symmetry. exact (Hmodes p _ _ Hn0 En).
Qed.

(** Delta transfer.  When an update compares, captures and versions its inputs, a
    file keeps a version other than the new revision only if it is one the previous
    versions record and the previous snapshot has the same file: equal bytes and
    executable bit.  This holds although the contents of the source may change between
    the comparison and the capture, as long as no executable bit is flipped in that
    time. *)
Theorem versions_sound `{JsonDump} (fuel : nat) (F0 F F' : fs) (r : path) (engines : list (string * path))
    (mooncake : option string) (i : inputs) (prev s : snapshot) (ch : list string) (revision : string)
    (versions : list (string * string))
  (Hselect : select fuel F0 r engines mooncake = Returned i)
  (Hchanged : changed F0 i prev = Ok ch)
  (Hprev : portable_snapshot prev)
  (Hmodes : ∀ p n0 n, node_at F0 p = Some n0 → node_at F p = Some n →
    source_mode (mode_of n) = source_mode (mode_of n0))
  (Hcapture : capture fuel F F' i (Some prev) (Some (unchanged_names i ch)) = Returned s) :
  ∀ name v, (name, v) ∈ snapshot_versions revision s (Some prev) versions (Some ch) →
    v = revision ∨
    dget name versions = Some v ∧
    ∃ old c, dget name (all_files prev) = Some old ∧ (name, c) ∈ all_files s ∧ same_source_file old c = true.
Proof.
  intros name v ([n c] & E & Hin)%list_elem_of_fmap. cbn [fst snd] in E.
  destruct (keeps_version (Some prev) versions (Some ch) n c) eqn:Ek; injection E as -> ->; [|by left]. right.
  assert (∀ b, dmem n versions && b = true → dget n versions = Some (default revision (dget n versions)) ∧ b = true) as Hv.
  { unfold dmem. intros b [H1%bool_decide_eq_true H2]%andb_true_iff. split; [|done]. by destruct H1 as [? ->]. }
  unfold keeps_version in Ek. destruct (is_metadata n) eqn:Em.
  - apply Hv in Ek as [Ek1 Ek2]. split; [done|]. simpl in Ek2.
    destruct (dget n (all_files prev)) as [old|]; [eauto|done].
  - apply Hv in Ek as [Ek1 Ek2%negb_true_iff%mem_false]. split; [done|].
    destruct (select_regular _ _ _ _ _ _ Hselect) as ([Hnd _] & _).
    apply capture_Returned in Hcapture as (copied & again & Hc & -> & _ & _).
    unfold all_files in Hin. simpl in Hin.
    assert ((n, c) ∈ copied) as Hcopied.
    { unfold is_metadata in Em. reflect_in Em. destruct Em as [Em1 Em2].
      apply elem_of_app in Hin as [?|Hin]; [done|]. exfalso.
      apply elem_of_cons in Hin as [[= -> _]|Hin]; [done|].
      apply list_elem_of_fmap in Hin as (j & [= -> _] & _). done. }
    pose proof (linked_same _ _ _ _ _ _ _ _ Hnd Hchanged Hprev Hmodes Hc Hcopied Ek2) as Hp.
    exists c, c. split_and!; [|by apply elem_of_app; left|by apply same_source_file_true].
    unfold all_files. clear -Hp. induction (sn_files prev) as [|[k x] l IH]; [done|].
    simpl in *. destruct (eqb k n); auto.
Qed.

(** ** Examples *)

(** A checkout with one data-plane source, whose contents are [code], an executable
    build script and a licence. *)
Definition sample_tree (code : string) : list (path * node) :=
  [(["r"], Directory 493); (["r"; "LICENSE"], File "Apache" 420);
   (["r"; "data-plane"], Directory 493); (["r"; "data-plane"; "src"], Directory 493);
   (["r"; "data-plane"; "src"; "main.rs"], File code 436); (["r"; "data-plane"; "target"], Directory 493);
   (["r"; "deploy"], Directory 493); (["r"; "deploy"; "build-source"], File "#!" 509)].

Definition sample_fs (code : string) : fs := {|
  node_at p := dget p (sample_tree code);
  is_link _ := false;
  entries p := omap (λ n : path * node, match last n.1 with
                       | Some name => if eqb (p ++ [name]) n.1 then Some name else None
                       | None => None end) (sample_tree code);
  resolve p := p;
  cargo_metadata _ := Ok (JObj [("vllm_revision", JStr "1f0a")]);
  mooncake_recipe _ _ := Raise (DeploymentError "no recipe");
  checkout_source _ := JNull;
|}.

Definition sample_dirs : list path :=
  [["r"]; ["r"; "data-plane"]; ["r"; "data-plane"; "src"]; ["r"; "data-plane"; "target"]; ["r"; "deploy"]].

Lemma sample_dirs_all code p : is_dir (sample_fs code) p = true → resolve (sample_fs code) p ∈ sample_dirs.
Proof.
  unfold is_dir. intros H. change (resolve (sample_fs code) p) with p.
  change (node_at (sample_fs code) p) with (dget p (sample_tree code)) in H.
  destruct (dget p (sample_tree code)) as [n|] eqn:E; [|done].
  apply dget_elem in E. unfold sample_tree in E. rewrite !elem_of_cons in E. unfold sample_dirs.
  destruct_or!; try (injection E as -> ->; done || by apply mem_true). by apply not_elem_of_nil in E.
Qed.

Definition sample_inputs : inputs :=
  BuildInputs ["r"] []
    [("data-plane/src/main.rs", ["r"; "data-plane"; "src"; "main.rs"]); ("LICENSE", ["r"; "LICENSE"]);
     ("deploy/build-source", ["r"; "deploy"; "build-source"])]
    [(RUST_SOURCE, JObj [("revision", JStr "1f0a")])] None.

(** The snapshot of an earlier state: other code, a file that is gone since. *)
Definition sample_snapshot : snapshot :=
  Snapshot [("data-plane/src/main.rs", Captured "v1" 420); ("data-plane/src/old.rs", Captured "" 420);
            ("LICENSE", Captured "Apache" 420); ("deploy/build-source", Captured "#!" 493)]
    (Some (JObj [("foretoken", JNull); ("engines", JObj []); ("dependencies", JObj (dependencies sample_inputs))])) None.

Lemma sample_snapshot_portable : portable_snapshot sample_snapshot.
Proof.
  intros name c H. apply dget_elem in H. simpl in H. rewrite !elem_of_cons in H.
  destruct_or!; try (injection H as -> ->; done). by apply not_elem_of_nil in H.
Qed.

Lemma directory_files_exact_witness :
  directory_files 6 (sample_fs "v2") ["r"; "data-plane"] [] = Returned [["src"; "main.rs"]] ∧
  match directory_files 6 (sample_fs "v2") ["r"; "data-plane"] [] with
  | Returned rels => ∀ rel, rel ∈ rels ↔ below (sample_fs "v2") ["r"; "data-plane"] [] [] rel = true
  | Raised e => walk_failure (sample_fs "v2") ["r"; "data-plane"] e
  | Unfinished => False
  end.
Proof.
  split; [vm_compute; reflexivity|].
  apply (directory_files_exact (sample_fs "v2") sample_dirs 6); [apply sample_dirs_all|simpl; lia].
Defined.

Lemma capture_sound_witness :
  ∃ s, capture 6 (sample_fs "v2") (sample_fs "v2") sample_inputs None None = Returned s ∧ portable_snapshot s.
Proof.
  eexists. split; [vm_compute; reflexivity|].
  refine (proj1 (capture_sound 6 (sample_fs "v2") (sample_fs "v2") sample_inputs None None _ _ _)).
  - done.
  - vm_compute. reflexivity.
Defined.

Lemma update_roundtrip_witness :
  ∃ s, capture 6 (sample_fs "v2") (sample_fs "v2") sample_inputs (Some sample_snapshot)
         (Some (unchanged_names sample_inputs ["data-plane/src/main.rs"; "data-plane/src/old.rs"])) = Returned s ∧
       changed (sample_fs "v2") sample_inputs s = Ok [] ∧
       c_bytes <$> dget "data-plane/src/main.rs" (sn_files s) = Some "v2".
Proof.
  destruct (update_roundtrip 6 (sample_fs "v2") ["r"] [] None sample_inputs sample_snapshot
    ["data-plane/src/main.rs"; "data-plane/src/old.rs"]) as (s & Hs & Hn & Hexact & _).
  - vm_compute. reflexivity.
  - vm_compute. reflexivity.
  - exact sample_snapshot_portable.
  - intros d [->|[]%not_elem_of_nil]%elem_of_cons. reflexivity.
  - exists s. split; [exact Hs|]. split; [exact Hn|]. specialize (Hexact "data-plane/src/main.rs"). cbn [files sample_inputs dget] in Hexact.
    change (eqb "data-plane/src/main.rs" "data-plane/src/main.rs") with true in Hexact. cbv iota in Hexact.
    destruct (dget "data-plane/src/main.rs" (sn_files s)) as [c|]; [|destruct Hexact]. destruct Hexact as (mode & Hn' & _).
    injection Hn' as Hb _. simpl. by rewrite <-Hb.
Defined.

#[local] Instance sample_dump : JsonDump := λ _, "{}".
Definition sample_versions : list (string * string) := [("LICENSE", "1"); ("data-plane/src/main.rs", "1")].
Definition sample_changes : list string := ["data-plane/src/main.rs"; "data-plane/src/old.rs"].

(** The code is edited once more between the comparison and the capture. *)
Lemma versions_sound_witness :
  ∃ s, capture 6 (sample_fs "v3") (sample_fs "v3") sample_inputs (Some sample_snapshot)
         (Some (unchanged_names sample_inputs sample_changes)) = Returned s ∧
    ("LICENSE", "1") ∈ snapshot_versions "2" s (Some sample_snapshot) sample_versions (Some sample_changes) ∧
    ("data-plane/src/main.rs", "2") ∈ snapshot_versions "2" s (Some sample_snapshot) sample_versions (Some sample_changes) ∧
    ("1" = "2" ∨ dget "LICENSE" sample_versions = Some "1" ∧
      ∃ old c, dget "LICENSE" (all_files sample_snapshot) = Some old ∧ ("LICENSE", c) ∈ all_files s ∧
        same_source_file old c = true).
Proof.
  eexists. split; [vm_compute; reflexivity|].
  split; [vm_compute; right; left|]. split; [vm_compute; left|].
  refine (versions_sound 6 (sample_fs "v2") (sample_fs "v3") (sample_fs "v3") ["r"] [] None sample_inputs
    sample_snapshot _ sample_changes "2" sample_versions _ _ _ _ _ "LICENSE" "1" _).
  - vm_compute. reflexivity.
  - vm_compute. reflexivity.
  - exact sample_snapshot_portable.
  - intros p n0 n. simpl. repeat (case_match; [by intros [= <-] [= <-]|]). done.
  - vm_compute. reflexivity.
  - vm_compute. right. left.
Defined.
