(* ===== verification/CacheGc.v ===== *)
(** * Collection of the shared model cache

    [foretoken_cache_gc.py] with the provider caches it collects from:
    [foretoken_model_sources/cache.py], [collect], [_hub_links] and
    [_check_repository] of huggingface.py, and [collect] of modelscope.py.  The
    cache is a file tree with symbolic links; what was deleted before an exception
    stays deleted.  The scanner and the deletion planner of huggingface_hub are
    parameters (class [Hub]). *)

From Stdlib Require Import Ascii.
From S2P Require Import Prelude Text Kube Effects.

(** ** File trees *)

(** Absolute paths by their parts. *)
Abbreviation path := (list string).

(** What [lstat] finds; the text of a link by its parts, possibly with "..". *)
Inductive entry :=
  | Dir
  | Reg (contents : string)
  | Link (absolute : bool) (text : path)
  | Odd.

(** Entries by path.  The code looks at a path only after it has seen that the
    directories above it are no links, so that the path itself is the key. *)
Abbreviation tree := (gmap path entry).

Definition present (F : tree) (p : path) : bool := bool_decide (is_Some (F !! p)).
Definition is_directory (F : tree) (p : path) : bool := match F !! p with Some Dir => true | _ => false end.
(** [p.is_relative_to(q)] *)
Definition inside (q p : path) : bool := bool_decide (q `prefix_of` p).
(** [p.relative_to(root).parts] *)
Definition relative_to (root p : path) : outcome path :=
  if inside root p then Ok (drop (length root) p) else Raise (ValueError "is not in the subpath").
Definition parent (p : path) : path := removelast p.
Definition as_posix (p : path) : string := join "/" p.

(** [os.path.abspath(base / text)]: ".." is removed lexically. *)
Definition abspath (base text : path) : path :=
  foldl (λ p name, if eqb name ".." then removelast p else p ++ [name]) base text.

(** [path.resolve()]; a cycle of links raises. *)
Fixpoint realpath (fuel : nat) (F : tree) (real todo : path) : outcome path :=
  match fuel, todo with
  | _, [] => Ok real
  | O, _ => Raise (RuntimeError "Symlink loop")
  | S fuel, name :: todo =>
      if eqb name ".." then realpath fuel F (removelast real) todo else
      match F !! (real ++ [name]) with
      | Some (Link absolute text) => realpath fuel F (if absolute then [] else real) (text ++ todo)
      | _ => realpath fuel F (real ++ [name]) todo
      end
  end.

Definition rmtree (F : tree) (t : path) : tree := filter (λ e, inside t e.1 = false) F.
(** The names in a directory *)
Definition children (F : tree) (d : path) : list path :=
  keep (λ p, negb (eqb p []) && eqb (parent p) d) (map_to_list F).*1.

(** The cache during a collection. *)
Record cache := Cache { files : tree; removed : list string }.
Abbreviation IO := (IO cache).
Definition set_files (f : tree → tree) : IO unit := change (λ c, Cache (f (files c)) (removed c)).
Definition note_removed (names : list string) : IO unit := change (λ c, Cache (files c) (removed c ++ names)).

(** Items: source, repository and revision *)
Abbreviation key := (string * (string * string))%type.

Section Cache.
(** The bound on the links that one path is resolved through. *)
Variable links_max : nat.
Variable root : path.
Definition resolve (F : tree) (p : path) : outcome path := realpath links_max F [] p.

(** ** [cache.py] *)

(** The loop of [cache_path] down from the root. *)
Fixpoint descend (F : tree) (target : path) (file_link : bool) (current parts : path) : outcome unit :=
  match parts with
  | [] => Ok tt
  | part :: parts =>
      let current := current ++ [part] in
      match F !! current with
      | None => Ok tt
      | Some (Link _ _) =>
          if negb (eqb current target) || negb file_link
          then Raise (ValueError "cache path contains a directory symlink") else
          resolved ← resolve F current;
          if negb (inside root resolved) || is_directory F resolved
          then Raise (ValueError "cache link leaves its managed file area")
          else descend F target file_link current parts
      | Some Dir => descend F target file_link current parts
      | Some _ =>
          if negb (eqb current target) then Raise (OSError "Not a directory")
          else descend F target file_link current parts
      end
  end.
Definition cache_path (F : tree) (parts : path) (file_link : bool) : outcome path :=
  let target := root ++ parts in
  if bool_decide (parts = []) || existsb (λ part, mem part ["."; ".."]) parts
  then Raise (ValueError "invalid cache path") else
  descend F target file_link root parts ;; Ok target.

(** [remove] *)
Definition remove (target : path) (file_link : bool) : IO unit :=
  F ← ask files;
  parts ← pure (relative_to root target);
  target ← pure (cache_path F parts file_link);
  match F !! target with
  | None => mret tt
  | Some Dir => set_files (λ F, rmtree F target) ;; note_removed [as_posix parts]
  | Some (Reg _) => set_files (base.delete target) ;; note_removed [as_posix parts]
  | Some (Link _ _) =>
      if file_link then set_files (base.delete target) ;; note_removed [as_posix parts]
      else throw (ValueError "unsupported cache entry")
  | Some Odd => throw (ValueError "unsupported cache entry")
  end.

(** ** Hugging Face *)

(** [_hub_links]: the first hop and the payload of every link. *)
Definition link_fact (F : tree) (hub : path) (p : path) (absolute : bool) (text : path)
    : outcome (path * (path * path)) :=
  let first := abspath (if absolute then [] else parent p) text in
  resolved ← resolve F p;
  if negb (inside hub first) || negb (inside hub resolved) || is_directory F resolved
  then Raise (ValueError "Hub cache link leaves its managed file area")
  else Ok (p, (first, resolved)).
Definition hub_links (F : tree) (hub : path) : outcome (list (path * (path * path))) :=
  if negb (is_directory F hub) then Raise (OSError "No such file or directory") else
  outcome_map id (omap (λ e, match e.2 with
                             | Link absolute text =>
                                 if inside hub e.1 && negb (eqb e.1 hub)
                                 then Some (link_fact F hub e.1 absolute text) else None
                             | _ => None
                             end) (map_to_list F)).

(** [_check_repository] *)
Definition check_repository (F : tree) (repo_path : path) : outcome unit :=
  if negb (is_directory F repo_path) then Raise (OSError "Not a directory") else
  reject (negb (forallb (λ p, mem (default "" (last p)) ["blobs"; "refs"; "snapshots"; "trees"; ".no_exist"]
                              && is_directory F p) (children F repo_path)))
    "Hub repository contains an unmanaged entry".

(** What huggingface_hub reports about a cache, and its plan for a deletion. *)
Record hub_revision := HubRevision { commit_hash : string; snapshot_path : path; blob_paths : list path }.
Record hub_repo := HubRepo { repo_type : string; repo_id : string; revisions : list hub_revision }.
Record strategy := Strategy {
  st_repos : list path;
  st_snapshots : list path;
  st_refs : list path;
  st_blobs : list path;
  st_files : list path;
  st_cache_dir : option path;
}.

Class Hub := {
  (** [scan_cache_dir(hub).repos] *)
  scan_cache_dir : tree → path → outcome (list hub_repo);
  (** [delete_revisions] of a cache with this repository only *)
  delete_revisions : hub_repo → string → strategy;
  (** [strategy.execute()]: the tree it leaves, and whether it raised *)
  execute : strategy → tree → outcome unit * tree;
}.
Context `{Hub}.
Definition run_strategy (s : strategy) : IO unit := λ c,
  let '(r, F) := execute s (files c) in
  pure r (Cache F (removed c)).

Definition hex_digits (s : string) : bool :=
  forallb (λ c, mem c (String.list_ascii_of_string "0123456789abcdef")) (String.list_ascii_of_string s).

(** A payload that is deleted beside the repository and the snapshot must be an
    entry of the managed shared store. *)
Definition check_payload (F : tree) (hub repo_path : path) (selected : hub_revision) (s : strategy) (payload : path)
    : outcome unit :=
  if inside (repo_path ++ ["blobs"]) payload || inside (snapshot_path selected) payload then Ok tt else
  if negb (eqb (st_cache_dir s) (Some hub))
  then Raise (ValueError "installed huggingface_hub cannot safely collect a cache-wide shared blob") else
  marker ← cache_path F ["hub"; "blobs"; ".huggingface-shared-blobs"] false;
  if negb (inside (hub ++ ["blobs"]) payload)
  then Raise (ValueError "Hub snapshot targets an unmanaged payload") else
  match drop (length (hub ++ ["blobs"])) payload with
  | [a; b] =>
      reject (negb (Nat.eqb (String.length a) 2) || negb (Nat.eqb (String.length b) 64) || negb (hex_digits b)
              || negb (startswith a b)
              || negb (match F !! marker with Some (Reg text) => eqb text ("1" +:+ String (ascii_of_nat 10) "")
                                             | _ => false end))
        "Hub shared blob layout is not managed"
  | _ => Raise (ValueError "Hub shared blob layout is not managed")
  end.

(** The partial download of a repository without any snapshot *)
Definition check_partial (repo_path : path) (links : list (path * (path * path))) : outcome unit :=
  reject (existsb (λ l, inside repo_path l.2.2 && negb (inside repo_path l.1)) links)
    "Hub deletion tree still contains a referenced payload" ;;
  reject (existsb (λ l, inside repo_path l.1 && negb (inside repo_path l.2.2)) links)
    "Hub partial cache targets an unmanaged payload".
Definition collect_partial (repository : string) (live_revisions : list string) (repo_path snapshot : path)
    (links : list (path * (path * path))) (repo : option hub_repo) : IO unit :=
  F ← ask files;
  if present F snapshot then throw (ValueError "Hub cannot safely index cache snapshot") else
  if negb (bool_decide (live_revisions = []))
     || match repo with Some r => negb (bool_decide ((commit_hash <$> revisions r) = [])) | None => false end
  then mret tt else
  parts ← pure (relative_to root repo_path);
  snapshots ← pure (cache_path F (parts ++ ["snapshots"]) false);
  full ← match F !! snapshots with
         | None => mret false
         | Some Dir => mret (negb (bool_decide (children F snapshots = [])))
         | Some _ => throw (OSError "Not a directory")
         end;
  if (full : bool) then throw (ValueError "Hub cannot safely index cache repository") else
  pure (check_repository F repo_path) ;;
  pure (check_partial repo_path links) ;;
  remove repo_path false.

(** The sets of [collect] *)
Section Plan.
Variable links : list (path * (path * path)).
Variable repo_path : path.
Variable s : strategy.
Definition trees : list path := st_repos s ++ st_snapshots s.
Definition disappearing (p : path) : bool := mem p (st_files s) || existsb (λ t, inside t p) trees.
Definition remaining_entries : list path := (λ l, l.2.1) <$> keep (λ l, negb (disappearing l.1)) links.
Definition abandoned_links : list path :=
  distinct (keep (λ first, eqb (parent first) (repo_path ++ ["blobs"]) && dmem first links
                           && negb (mem first remaining_entries))
    ((λ l, l.2.1) <$> keep (λ l, disappearing l.1) links)).
Definition protected : list path :=
  (λ l, l.2.2) <$> keep (λ l, negb (disappearing l.1) && negb (mem l.1 abandoned_links)) links.
Definition payloads (selected : hub_revision) : list path :=
  blob_paths selected ++ ((λ l, l.2.2) <$> keep (λ l, disappearing l.1) links).
Definition without_protected : strategy :=
  Strategy (st_repos s) (st_snapshots s) (st_refs s) (keep (λ p, negb (mem p protected)) (st_blobs s))
    (st_files s) (st_cache_dir s).
End Plan.
Definition targets (s : strategy) : list path :=
  st_repos s ++ st_snapshots s ++ st_refs s ++ st_blobs s ++ st_files s.

(** The deletion of an indexed revision *)
Definition collect_revision (revision : string) (live_revisions : list string) (hub repo_path : path)
    (links : list (path * (path * path))) (repo : hub_repo) (selected : hub_revision) : IO unit :=
  F ← ask files;
  let s := delete_revisions repo revision in
  skip_unless (negb (bool_decide (st_repos s = [])))
    (if negb (bool_decide (keep (λ r, negb (eqb r revision)) live_revisions = []))
     then throw (ValueError "Hub repository still has live revisions without cached snapshots")
     else pure (check_repository F repo_path)) ;;
  let saved := protected links repo_path s in
  let gone := keep (λ p, negb (mem p saved)) (payloads links s selected) in
  pure (reject (existsb (λ p, existsb (λ t, inside t p) (trees s)) saved)
          "Hub deletion tree still contains a referenced payload") ;;
  _ ← pure (outcome_map (check_payload F hub repo_path selected s) gone);
  let s' := without_protected links repo_path s in
  _ ← pure (outcome_map (λ t, parts ← relative_to root t; cache_path F parts true) (targets s'));
  let before := keep (present F) (targets s' ++ payloads links s selected) in
  run_strategy s' ;;
  F ← ask files;
  if existsb (present F) (targets s') then throw (OSError "Hub cache deletion did not remove") else
  each (abandoned_links links repo_path s) (λ t, remove t true) ;;
  F ← ask files;
  if existsb (present F) gone then throw (OSError "Hub could not safely collect the unreferenced payload") else
  note_removed ((λ p, as_posix (drop (length root) p)) <$> keep (λ p, negb (present F p)) before).

Definition hub_parts (repository : string) : path := ["hub"; "models--" +:+ replace_char "/" "--" repository].

(** [huggingface.collect] *)
Definition hf_collect (repository revision : string) (live_revisions : list string) : IO unit :=
  F ← ask files;
  hub ← pure (cache_path F ["hub"] false);
  repo_path ← pure (cache_path F (hub_parts repository) false);
  snapshot ← pure (cache_path F (hub_parts repository ++ ["snapshots"; revision]) false);
  if negb (present F repo_path) then mret tt else
  links ← pure (hub_links F hub);
  repos ← pure (scan_cache_dir F hub);
  let repo := head (keep (λ r, eqb (repo_type r) "model" && eqb (repo_id r) repository) repos) in
  let selected := r ← repo; head (keep (λ v, eqb (commit_hash v) revision) (revisions r)) in
  match repo, selected with
  | Some r, Some v => collect_revision revision live_revisions hub repo_path links r v
  | _, _ => collect_partial repository live_revisions repo_path snapshot links repo
  end.

(** ** ModelScope *)

Definition owner_name (repository : string) : string * string :=
  match split_char "/" repository with
  | owner :: name :: _ => (owner, name)
  | _ => (repository, "")
  end.
Definition dotless (name : string) : string := replace_char "." "___" name.

Definition modelscope_parts (repository revision : string) : list path :=
  let '(owner, name) := owner_name repository in
  let version := ["modelscope"; "revisions"; revision] in
  [version ++ [owner; dotless name]; version ++ ["._____temp"; owner; name];
   version ++ [".lock"; replace_char "/" "___" repository]].

(** The live items that normalise to the same directory *)
Definition aliased (live : list key) (repository revision : string) : bool :=
  let normal r := let '(owner, name) := owner_name r in (owner, dotless name) in
  existsb (λ k : key, eqb k.1 "modelscope" && eqb (normal k.2.1) (normal repository) && eqb k.2.2 revision) live.

(** [modelscope.collect]; [false] when a live item keeps the directory *)
Definition ms_collect (repository revision : string) (live : list key) : IO bool :=
  if aliased live repository revision then mret false else
  F ← ask files;
  _ ← pure (cache_path F ["modelscope"; "revisions"; revision] false);
  _ ← pure (outcome_map (λ parts, cache_path F parts false) (modelscope_parts repository revision));
  each (modelscope_parts repository revision) (λ parts, remove (root ++ parts) false) ;;
  mret true.

(** ** [foretoken_cache_gc.py] *)

(** [_item_key] *)
Definition item_key (item : json) : outcome key :=
  source ← index "source" item;
  repository ← index "repository" item;
  revision ← index "revision" item;
  match source, repository, revision with
  | JStr source, JStr repository, JStr revision =>
      if negb (nonempty source && nonempty repository && nonempty revision)
      then Raise (ValueError "cache items require nonempty source, repository and revision") else
      let parts := split_char "/" repository in
      if existsb (λ p, mem p [""; "."; ".."]) parts || Nat.ltb 2 (length parts) || mem revision ["."; ".."]
         || has_char (ascii_of_nat 92) (repository +:+ revision) || has_char (ascii_of_nat 0) (repository +:+ revision)
         || has_char "/" revision
      then Raise (ValueError "cache item repository and revision must identify cache paths") else
      if eqb source "modelscope" && negb (Nat.eqb (length parts) 2)
      then Raise (ValueError "ModelScope cache items require an owner/name repository")
      else Ok (source, (repository, revision))
  | _, _, _ => Raise (ValueError "cache items require nonempty source, repository and revision")
  end.

(** [distributed_directory] and its two siblings *)
Definition peer_parts (source repository revision : string) : list path :=
  let directory := ["distributed"; source] ++ split_char "/" repository in
  [directory ++ [revision]; directory ++ ["." +:+ revision +:+ ".partial"];
   directory ++ ["." +:+ revision +:+ ".lock"]].

(** One item: whether it was collected *)
Definition collect_item (live : list key) (k : key) : IO bool :=
  let '(source, (repository, revision)) := k in
  if mem k live || negb (mem source ["hf"; "modelscope"]) then mret false else
  F ← ask files;
  _ ← pure (outcome_map (λ parts, cache_path F parts false) (peer_parts source repository revision));
  collected ←
    (if eqb source "hf"
     then hf_collect repository revision
            ((λ l : key, l.2.2) <$> keep (λ l : key, eqb l.1 "hf" && eqb l.2.1 repository) live) ;; mret true
     else ms_collect repository revision live);
  if negb (collected : bool) then mret false else
  each (peer_parts source repository revision) (λ parts, remove (root ++ parts) false) ;;
  mret true.

Record collection := Collection {
  collected : list key;
  retained : list key;
  removed_paths : list string;
}.

(** [collect_cache_items] below the resolved root *)
Definition collect_items (candidates live : list json) : IO collection :=
  live ← pure (outcome_map item_key live);
  keys ← pure (outcome_map item_key candidates);
  done ← Effects.collect (λ k, b ← collect_item live k; mret (k, b : bool)) (sort_by id (distinct keys));
  c ← ask removed;
  mret (Collection (keep snd done).*1 (keep (λ r, negb r.2) done).*1 (sort_by id (distinct c))).
End Cache.

(** [path.is_symlink()] *)
Definition is_symlink (links_max : nat) (F : tree) (p : path) : bool :=
  match resolve links_max F (parent p), last p with
  | Ok d, Some name => match F !! (d ++ [name]) with Some (Link _ _) => true | _ => false end
  | _, _ => false
  end.

(** [collect_cache_items]; [root] is absolute. *)
Definition collect_cache_items `{Hub} (links_max : nat) (root : path) (candidates live : list json) : IO collection :=
  F ← ask files;
  if is_symlink links_max F root then throw (ValueError "managed model cache root is a symlink") else
  root ← pure (resolve links_max F root);
  collect_items links_max root candidates live.
