(* ===== verification/CacheGcProofs.v ===== *)
(** * Properties of the cache collection

    Whatever happens during a collection, also when it fails half way: nothing
    outside the cache root changes, and the artifacts of live items stay. *)

From Stdlib Require Import Ascii.
From S2P Require Import Prelude Text Kube Effects CacheGc.

(** ** Trees *)

Lemma inside_true q p : inside q p = true ↔ q `prefix_of` p.
Proof. apply bool_decide_eq_true. Qed.
Lemma inside_false q p : inside q p = false ↔ ¬ q `prefix_of` p.
Proof. apply bool_decide_eq_false. Qed.
Lemma inside_refl p : inside p p = true.
Proof. by apply inside_true. Qed.
Lemma inside_trans a b c : inside a b = true → inside b c = true → inside a c = true.
Proof. rewrite !inside_true. apply transitivity. Qed.
Lemma inside_app p k : inside p (p ++ k) = true.
Proof. apply inside_true. by exists k. Qed.
#[export] Hint Rewrite inside_true inside_false : reflect.

(** Two directories that share an entry are nested. *)
Lemma inside_nested a b p : inside a p = true → inside b p = true → inside a b = true ∨ inside b a = true.
Proof. rewrite !inside_true. apply prefix_weak_total. Qed.

Lemma inside_app_inv p a b : inside (p ++ a) (p ++ b) = true ↔ inside a b = true.
Proof.
  rewrite !inside_true. split; [|by apply prefix_app]. intros [k Hk]. exists k.
  rewrite <-app_assoc in Hk. by apply app_inv_head in Hk.
Qed.

Lemma inside_cons x a y b : inside (x :: a) (y :: b) = true ↔ x = y ∧ inside a b = true.
Proof.
  rewrite !inside_true. split.
  - intros H. split; [by eapply prefix_cons_inv_1|by eapply prefix_cons_inv_2].
  - intros [-> H]. by apply prefix_cons.
Qed.

Lemma relative_to_Ok root p parts : relative_to root p = Ok parts ↔ p = root ++ parts.
Proof.
  unfold relative_to. destruct (inside root p) eqn:E; reflect_in E.
  - destruct E as [k ->]. rewrite drop_app_length. split; [by intros [= <-]|].
    intros Hp. by apply app_inv_head in Hp as ->.
  - split; [done|]. intros ->. destruct E. by exists parts.
Qed.

Lemma lookup_rmtree F t p : rmtree F t !! p = if inside t p then None else F !! p.
Proof.
  unfold rmtree. destruct (inside t p) eqn:E.
  - apply map_lookup_filter_None. right. intros x _. simpl. congruence.
  - destruct (F !! p) eqn:Ef; [by apply map_lookup_filter_Some|apply map_lookup_filter_None; by left].
Qed.

(** [F'] is [F] without some of the entries in [S]. *)
Definition cut (S : path → Prop) (F F' : tree) : Prop :=
  ∀ p, F' !! p = F !! p ∨ (F' !! p = None ∧ S p).

Lemma cut_refl S F : cut S F F.
Proof. by left. Qed.
Lemma cut_trans S F F' F'' : cut S F F' → cut S F' F'' → cut S F F''.
Proof. intros H1 H2 p. destruct (H2 p) as [->|[? ?]]; [apply H1|by right]. Qed.
Lemma cut_weaken (S S' : path → Prop) F F' : cut S F F' → (∀ p, S p → S' p) → cut S' F F'.
Proof. intros H HS p. destruct (H p) as [?|[? ?]]; [by left|right; auto]. Qed.
Lemma cut_present S F F' p : cut S F F' → is_Some (F' !! p) → F' !! p = F !! p.
Proof. intros H [e He]. destruct (H p) as [?|[? ?]]; congruence. Qed.

Lemma cut_rmtree F t : cut (λ p, inside t p = true) F (rmtree F t).
Proof. intros p. rewrite lookup_rmtree. destruct (inside t p); auto. Qed.
Lemma cut_delete F t : cut (λ p, p = t) F (base.delete t F).
Proof. intros p. destruct (decide (p = t)) as [->|]; [right; by rewrite lookup_delete_eq|left; by rewrite lookup_delete_ne]. Qed.

(** ** [cache_path] and [remove] *)

Section Cache.
Variable links_max : nat.
Variable root : path.
Abbreviation cache_path := (cache_path links_max root).
Abbreviation remove := (remove links_max root).

Lemma cache_path_Ok F parts fl t : cache_path F parts fl = Ok t → t = root ++ parts.
Proof.
  unfold CacheGc.cache_path. destruct (_ || _); [done|]. intros ([] & _ & H)%outcome_bind_Ok. by injection H.
Qed.

(** What [remove] does to the tree. *)
Definition removal (target : path) (F F' : tree) : Prop :=
  F' !! target = None ∧
  (F' = F ∨ (F !! target = Some Dir ∧ F' = rmtree F target) ∨
   ((∃ e, F !! target = Some e ∧ e ≠ Dir) ∧ F' = base.delete target F)).

Lemma remove_spec F target fl :
  hoare (λ c, files c = F) (remove target fl)
    (λ _ c, inside root target = true ∧ removal target F (files c)) (λ c, files c = F).
Proof.
  intros c Hc. unfold CacheGc.remove. unfold mbind, IO_bind, ask, pure. rewrite Hc.
  destruct (relative_to root target) as [parts|e] eqn:Er; [|done]. apply relative_to_Ok in Er as ->.
  destruct (cache_path F parts fl) as [t|e] eqn:Et; [|done]. apply cache_path_Ok in Et as ->.
  assert (inside root (root ++ parts) = true) as Hin by apply inside_app.
  unfold removal. destruct (F !! (root ++ parts)) as [[|txt|a l|]|] eqn:Ef; simpl.
  - rewrite Hc, lookup_rmtree, inside_refl. naive_solver.
  - rewrite Hc, lookup_delete_eq. split_and!; [done..|]. right; right. eauto.
  - destruct fl; [|done]. simpl. rewrite Hc, lookup_delete_eq. split_and!; [done..|]. right; right. eauto.
  - done.
  - rewrite Hc. auto.
Qed.

Lemma removal_cut target F F' : removal target F F' → cut (λ p, inside target p = true) F F'.
Proof.
  intros (_ & [->|[[_ ->]|[_ ->]]]); [apply cut_refl|apply cut_rmtree|].
  eapply cut_weaken; [apply cut_delete|]. intros p ->. apply inside_refl.
Qed.

(** The entries in [S] are as they were. *)
Definition untouched (S : path → Prop) (F : tree) (c : cache) : Prop := ∀ p, S p → files c !! p = F !! p.

Lemma untouched_cut (S Z : path → Prop) F c F' :
  untouched S F c → cut Z (files c) F' → (∀ p, S p → ¬ Z p) → untouched S F (Cache F' (removed c)).
Proof.
  intros Hc Hcut HS p Hp. simpl. destruct (Hcut p) as [->|[_ Hz]]; [by apply Hc|by destruct (HS p Hp)].
Qed.

Lemma remove_untouched S F target fl :
  (∀ p, S p → inside target p = false) → stable (untouched S F) (remove target fl).
Proof.
  intros HS c Hc. pose proof (remove_spec (files c) target fl c eq_refl) as Hr.
  destruct (remove target fl c) as [[[]|e|] c']; [|by intros p Hp; rewrite Hr; apply Hc..].
  destruct Hr as [_ Hr%removal_cut]. intros p Hp. destruct (Hr p) as [->|[_ Hi]]; [by apply Hc|].
  rewrite (HS p Hp) in Hi. done.
Qed.
End Cache.

(** ** What the deletion planner is documented to do *)

(** Parents are directories. *)
Definition closed (F : tree) : Prop :=
  F !! [] = Some Dir ∧ ∀ p, is_Some (F !! p) → p ≠ [] → F !! parent p = Some Dir.

Definition repo_directory (hub : path) (repository : string) : path :=
  hub ++ ["models--" +:+ replace_char "/"%char "--" repository].

(** A plan for the revision [rev] of the repository at [base] *)
Record planned (hub base : path) (rev : string) (s : strategy) : Prop := Planned {
  plan_repos : ∀ t, t ∈ st_repos s → t = base;
  plan_snapshots : ∀ t, t ∈ st_snapshots s → t = base ++ ["snapshots"; rev];
  plan_refs : ∀ t, t ∈ st_refs s → inside (base ++ ["refs"]) t = true;
  plan_blobs : ∀ t, t ∈ st_blobs s → inside (base ++ ["blobs"]) t = true ∨ inside (hub ++ ["blobs"]) t = true;
  plan_files : ∀ t, t ∈ st_files s → ∃ d, d ∈ trees s ∧ inside d t = true;
  plan_cache_dir : st_cache_dir s = None ∨ st_cache_dir s = Some hub;
}.

(** The entries a plan may delete: what it lists, and in a cache with a shared store
    the blobs of that store that no link leads to which stays. *)
Definition deletable (s : strategy) (F F' : tree) (p : path) : Prop :=
  (∃ t, t ∈ trees s ∧ inside t p = true) ∨ p ∈ st_refs s ++ st_blobs s ++ st_files s ∨
  ∃ hub, st_cache_dir s = Some hub ∧ inside (hub ++ ["blobs"]) p = true ∧
    ∀ n q a t, inside hub q = true → F' !! q = Some (Link a t) → realpath n F [] q ≠ Ok p.

Class HubLaws `{Hub} := {
  delete_revisions_planned F hub repos repo rev :
    scan_cache_dir F hub = Ok repos → repo ∈ repos → repo_type repo = "model" →
    planned hub (repo_directory hub (repo_id repo)) rev (delete_revisions repo rev);
  execute_deletes s F r F' : execute s F = (r, F') → (closed F → closed F') ∧ cut (deletable s F F') F F';
}.

(** ** Where a Hugging Face collection deletes *)

Section HubZone.
Context `{!Hub} {laws : HubLaws}.
Variable links_max : nat.
Variable root : path.
Variables repository revision : string.
Variable live_revisions : list string.
Definition hub_dir : path := root ++ ["hub"].
Definition base_dir : path := repo_directory hub_dir repository.

Definition others_live : list string := keep (λ r, negb (eqb r revision)) live_revisions.
Definition hub_zone (p : path) : Prop :=
  inside (base_dir ++ ["snapshots"; revision]) p = true ∨ inside (base_dir ++ ["refs"]) p = true ∨
  inside (base_dir ++ ["blobs"]) p = true ∨ inside (hub_dir ++ ["blobs"]) p = true ∨
  (others_live = [] ∧ inside base_dir p = true).

Lemma tree_zone s t p :
  planned hub_dir base_dir revision s → (st_repos s = [] ∨ others_live = []) →
  t ∈ trees s → inside t p = true → hub_zone p.
Proof.
  intros Hp Hr Ht Hi. unfold trees in Ht. apply elem_of_app in Ht as [Ht|Ht].
  - destruct Hr as [Hr|Hr]; [rewrite Hr in Ht; by apply not_elem_of_nil in Ht|].
    apply (plan_repos _ _ _ _ Hp) in Ht as ->. by do 4 right.
  - apply (plan_snapshots _ _ _ _ Hp) in Ht as ->. by left.
Qed.

Lemma deletable_zone s F F' p :
  planned hub_dir base_dir revision s → (st_repos s = [] ∨ others_live = []) →
  deletable s F F' p → hub_zone p.
Proof.
  intros Hp Hr [(t & Ht & Hi)|[Hi|(hub & Hh & Hi & _)]]; [by eapply tree_zone|..].
  - rewrite !elem_of_app in Hi. destruct Hi as [Hi|[Hi|Hi]].
    + right; left. by apply (plan_refs _ _ _ _ Hp).
    + apply (plan_blobs _ _ _ _ Hp) in Hi as [?|?]; [by do 2 right; left|by do 3 right; left].
    + apply (plan_files _ _ _ _ Hp) in Hi as (t & Ht & Hi). by eapply tree_zone.
  - destruct (plan_cache_dir _ _ _ _ Hp) as [E|E]; rewrite E in Hh; [done|]. injection Hh as <-.
    by do 3 right; left.
Qed.

Lemma without_protected_planned links s :
  planned hub_dir base_dir revision s → planned hub_dir base_dir revision (without_protected links base_dir s).
Proof.
  intros [H1 H2 H3 H4 H5 H6]. split; try done. intros t [_ Ht]%elem_of_keep. by apply H4.
Qed.

(** Directories that a collection does not reach *)
Variable S : path → Prop.
Hypothesis outside : ∀ p, S p → ¬ hub_zone p.
Variable F0 : tree.

Lemma run_strategy_untouched s :
  planned hub_dir base_dir revision s → (st_repos s = [] ∨ others_live = []) →
  stable (untouched S F0) (run_strategy s).
Proof using outside laws.
  intros Hp Hr c Hc. unfold run_strategy. destruct (execute s (files c)) as [r F'] eqn:E.
  apply execute_deletes in E as [_ Hcut].
  assert (untouched S F0 (Cache F' (removed c))) as Hc'.
  { eapply untouched_cut; [done|done|]. intros p HS Hd. eapply outside; [done|]. by eapply deletable_zone. }
  unfold pure. by destruct r.
Qed.

Lemma removelast_inside p d : p ≠ [] → parent p = d → inside d p = true.
Proof. intros Hp <-. apply inside_true. rewrite (app_removelast_last "" Hp) at 2. by eexists. Qed.

Lemma elem_of_abandoned links s t :
  t ∈ abandoned_links links base_dir s ↔
  parent t = base_dir ++ ["blobs"] ∧ is_Some (dget t links) ∧ (t ∉ remaining_entries links s) ∧
  ∃ l, l ∈ links ∧ disappearing s l.1 = true ∧ t = l.2.1.
Proof.
  unfold abandoned_links. rewrite elem_of_distinct, elem_of_keep, !andb_true_iff, eqb_true, negb_true_iff, mem_false.
  unfold dmem. rewrite bool_decide_eq_true, list_elem_of_fmap. setoid_rewrite elem_of_keep. naive_solver.
Qed.

Lemma abandoned_blobs links s t : t ∈ abandoned_links links base_dir s → inside (base_dir ++ ["blobs"]) t = true.
Proof.
  intros (Hp & _)%elem_of_abandoned. apply removelast_inside; [|done]. intros ->. simpl in Hp. by destruct base_dir.
Qed.

Lemma note_removed_untouched names : stable (untouched S F0) (note_removed names).
Proof. by apply stable_change. Qed.
Hint Resolve note_removed_untouched : stable.

Lemma collect_revision_untouched links repo selected :
  planned hub_dir base_dir revision (delete_revisions repo revision) →
  stable (untouched S F0)
    (collect_revision links_max root revision live_revisions hub_dir base_dir links repo selected).
Proof using outside laws.
  intros Hp. unfold collect_revision. apply stable_bind; [auto with stable|]. intros F.
  set (s := delete_revisions repo revision) in *. cbv zeta.
  eapply hoare_bind with (R := λ _ c, (st_repos s = [] ∨ others_live = []) ∧ untouched S F0 c).
  { intros c Hc. unfold skip_unless. case_bool_decide as E1; simpl; [auto|].
    case_bool_decide as E2; simpl; [|done]. unfold pure. destruct (check_repository _ _); auto. }
  intros _. apply hoare_fact. intros Hr.
  match goal with |- hoare _ ?m _ _ => change (stable (untouched S F0) m) end.
  stable_auto.
  - by apply run_strategy_untouched; [apply without_protected_planned|].
  - apply remove_untouched. intros p HS. destruct (inside _ p) eqn:E; [|done].
    destruct (outside p HS). right; right; left. eapply inside_trans; [|done]. by eapply abandoned_blobs.
Qed.

Lemma collect_partial_untouched snapshot links repo :
  stable (untouched S F0) (collect_partial links_max root repository live_revisions base_dir snapshot links repo).
Proof using outside laws.
  unfold collect_partial. apply stable_bind; [auto with stable|]. intros F.
  destruct (present _ _); [auto with stable|].
  destruct (bool_decide (live_revisions = [])) eqn:E; simpl; [|auto with stable]. apply bool_decide_eq_true in E as Hnone.
  stable_auto. apply remove_untouched. intros p HS. destruct (inside base_dir p) eqn:Ei; [|done].
  destruct (outside p HS). do 4 right. split; [|done]. unfold others_live. by rewrite Hnone.
Qed.

Lemma hf_collect_untouched :
  stable (untouched S F0) (hf_collect links_max root repository revision live_revisions).
Proof using outside laws.
  unfold hf_collect. apply stable_bind; [auto with stable|]. intros F.
  apply hoare_pure_bind; [done|]. intros hub ->%cache_path_Ok.
  apply hoare_pure_bind; [done|]. intros repo_path Hrp%cache_path_Ok.
  replace repo_path with base_dir by (rewrite Hrp; unfold base_dir, repo_directory, hub_dir; by rewrite <-app_assoc).
  apply hoare_pure_bind; [done|]. intros snapshot _.
  apply hoare_if; [intros _; apply stable_ret|intros _].
  apply hoare_pure_bind; [done|]. intros links _.
  apply hoare_pure_bind; [done|]. intros repos Hrepos. cbv zeta.
  destruct (head (keep _ repos)) as [r|] eqn:Er; [|apply collect_partial_untouched].
  apply head_Some_elem_of, elem_of_keep in Er as [Er Hr]. reflect_in Er. destruct Er as [Et Eid].
  unfold mbind at 1, option_bind. destruct (head _) as [v|]; [|apply collect_partial_untouched].
  apply collect_revision_untouched. unfold base_dir. rewrite <-Eid. by eapply delete_revisions_planned.
Qed.
End HubZone.

(** ** Whole collections *)

Section Collection.
Context `{!Hub} {laws : HubLaws}.
Variable links_max : nat.
Variable root : path.

(** The live revisions of a Hugging Face repository *)
Definition live_of (live : list key) (repository : string) : list string :=
  (λ l : key, l.2.2) <$> keep (λ l : key, eqb l.1 "hf" && eqb l.2.1 repository) live.

(** What collecting [k] may delete *)
Definition reach (live : list key) (k : key) (p : path) : Prop :=
  (k.1 = "hf" ∧ hub_zone root k.2.1 k.2.2 (live_of live k.2.1) p) ∨
  (k.1 = "modelscope" ∧ aliased live k.2.1 k.2.2 = false ∧
     ∃ parts, parts ∈ modelscope_parts k.2.1 k.2.2 ∧ inside (root ++ parts) p = true) ∨
  ∃ parts, parts ∈ peer_parts k.1 k.2.1 k.2.2 ∧ inside (root ++ parts) p = true.

Section Item.
Variable live : list key.
Variable S : path → Prop.
Variable F0 : tree.

Lemma remove_all_untouched (l : list path) :
  (∀ p parts, S p → parts ∈ l → inside (root ++ parts) p = false) →
  stable (untouched S F0) (each l (λ parts, remove links_max root (root ++ parts) false)).
Proof. intros Hl. stable_auto. apply remove_untouched. eauto. Qed.

Lemma collect_item_untouched k :
  (∀ p, S p → k ∉ live → ¬ reach live k p) →
  stable (untouched S F0) (collect_item links_max root live k).
Proof using laws.
  destruct k as [source [repository revision]]. intros HS. unfold collect_item.
  destruct (mem _ live) eqn:El; cbn [orb]; [auto with stable|]. apply mem_false in El.
  destruct (mem source _) eqn:Es; cbn [negb]; [|auto with stable]. apply mem_true in Es.
  assert (∀ p parts, S p → parts ∈ peer_parts source repository revision → inside (root ++ parts) p = false) as Hpeers.
  { intros p parts Hp Hin. destruct (inside _ p) eqn:Ei; [|done]. destruct (HS p Hp El). do 2 right. eauto. }
  apply stable_bind; [auto with stable|]. intros F. apply stable_bind; [auto with stable|]. intros _.
  apply stable_bind; [|intros []; cbn [negb]; [|auto with stable]; apply stable_bind; [by apply remove_all_untouched|auto with stable]].
  destruct (eqb source "hf") eqn:Ehf; reflect_in Ehf.
  - apply stable_bind; [|auto with stable]. apply hf_collect_untouched. intros p Hp Hz.
    destruct (HS p Hp El). left. by subst.
  - assert (source = "modelscope") as -> by set_solver.
    unfold ms_collect. destruct (aliased _ _ _) eqn:Ea; [auto with stable|].
    apply stable_bind; [auto with stable|]. intros F'. apply stable_bind; [auto with stable|]. intros _.
    apply stable_bind; [auto with stable|]. intros _. apply stable_bind; [|auto with stable].
    apply remove_all_untouched. intros p parts Hp Hin. destruct (inside _ p) eqn:Ei; [|done].
    destruct (HS p Hp El). right; left. eauto.
Qed.
End Item.

Lemma collect_items_untouched S F0 candidates live :
  (∀ keys lives, outcome_map item_key candidates = Ok keys → outcome_map item_key live = Ok lives →
    ∀ k p, k ∈ keys → S p → k ∉ lives → ¬ reach lives k p) →
  stable (untouched S F0) (collect_items links_max root candidates live).
Proof using laws.
  intros HS. unfold collect_items. apply hoare_pure_bind; [done|]. intros lives Hl.
  apply hoare_pure_bind; [done|]. intros keys Hk.
  match goal with |- hoare _ ?m _ _ => change (stable (untouched S F0) m) end.
  stable_auto. apply collect_item_untouched. intros p Hp Hn. eapply (HS keys lives); [done|done| |done|done].
  match goal with H : _ ∈ sort_by _ _ |- _ => by rewrite elem_of_sort_by, elem_of_distinct in H end.
Qed.

Lemma reach_root live k p : reach live k p → inside root p = true.
Proof.
  assert (∀ a p, inside (root ++ a) p = true → inside root p = true) as Hr.
  { intros a q. apply inside_trans, inside_app. }
  unfold reach, hub_zone, base_dir, repo_directory, hub_dir. rewrite <-!app_assoc. naive_solver.
Qed.
End Collection.

(** A collection stays below the cache root.  Whatever the request, the contents
    of the cache and the plans of the hub client are, and also when the collection
    raises half way, every path that is not below the resolved root has the entry it
    had before; when the root cannot be resolved nothing changes at all. *)
Theorem collection_contained `{!Hub, !HubLaws} (links_max : nat) (root : path) (candidates live : list json) (c : cache) :
  let c' := (collect_cache_items links_max root candidates live c).2 in
  match resolve links_max (files c) root with
  | Ok real => ∀ p, inside real p = false → files c' !! p = files c !! p
  | Raise _ => files c' = files c
  end.
Proof.
  cbv zeta. unfold collect_cache_items, mbind, IO_bind, ask, pure.
  destruct (is_symlink _ _ _); [by destruct (resolve _ _ _)|].
  destruct (resolve links_max (files c) root) as [real|]; [|done].
  pose proof (collect_items_untouched links_max real (λ p, inside real p = false) (files c) candidates live) as Hs.
  assert (untouched (λ p, inside real p = false) (files c) c) as Hc by done.
  specialize (Hs ltac:(intros keys lives _ _ k p _ Hp _ Hr%reach_root; congruence) c Hc).
  by destruct (collect_items _ _ _ _ c) as [[a|e|] c'].
Qed.

(** ** Live items *)

Definition encoded (repository : string) : string := replace_char "/"%char "--" repository.

(** The directories that belong to an item: its peer snapshot and its snapshot in the
    cache of its provider *)
Definition item_directories (k : key) : list path :=
  (["distributed"; k.1] ++ split_char "/"%char k.2.1 ++ [k.2.2]) ::
  (if eqb k.1 "hf" then [hub_parts k.2.1 ++ ["snapshots"; k.2.2]] else []) ++
  (if eqb k.1 "modelscope"
   then let '(owner, name) := owner_name k.2.1 in [["modelscope"; "revisions"; k.2.2; owner; dotless name]]
   else []).

(** Names that cannot be confused: no revision is the name of a part of the other's
    repository, the live names do not start with a dot, and different repositories
    have different directories in the hub. *)
Definition apart (k live : key) : bool :=
  negb (mem k.2.2 (split_char "/"%char live.2.1)) && negb (mem live.2.2 (split_char "/"%char k.2.1))
  && forallb (λ s, negb (startswith "." s)) (live.2.2 :: split_char "/"%char live.2.1)
  && (eqb k.2.1 live.2.1 || negb (eqb (encoded k.2.1) (encoded live.2.1))).

(** Two directories one of which is inside the other *)
Definition nested (a b : path) : Prop := inside a b = true ∨ inside b a = true.

Lemma nested_shared root a b p :
  inside (root ++ a) p = true → inside (root ++ b) p = true → nested a b.
Proof.
  intros Ha Hb. destruct (inside_nested _ _ _ Ha Hb) as [H|H]; apply inside_app_inv in H; [by left|by right].
Qed.
Lemma nested_cons x a y b : nested (x :: a) (y :: b) → x = y ∧ nested a b.
Proof. unfold nested. rewrite !inside_cons. naive_solver. Qed.
Lemma nested_app p a b : nested (p ++ a) (p ++ b) → nested a b.
Proof. unfold nested. by rewrite !inside_app_inv. Qed.

Lemma inside_snoc a b y : inside a (b ++ [y]) = true → a = b ++ [y] ∨ inside a b = true.
Proof.
  rewrite !inside_true. intros [k Hk]. destruct k as [|z k _] using rev_ind.
  - left. by rewrite app_nil_r in Hk.
  - right. rewrite app_assoc in Hk. apply app_inj_tail in Hk as [-> _]. by eexists.
Qed.

Lemma inside_elem a x b : inside (a ++ [x]) b = true → x ∈ b.
Proof. rewrite inside_true. intros [k ->]. set_solver. Qed.

Lemma nested_snoc a x b y : nested (a ++ [x]) (b ++ [y]) → (a = b ∧ x = y) ∨ x ∈ b ∨ y ∈ a.
Proof.
  intros [H|H]; apply inside_snoc in H as [H|H].
  - apply app_inj_tail in H as [-> ->]. auto.
  - apply inside_elem in H. auto.
  - apply app_inj_tail in H as [-> ->]. auto.
  - apply inside_elem in H. auto.
Qed.

Lemma startswith_dot s : startswith "." ("." +:+ s) = true.
Proof. apply startswith_append. Qed.

Lemma owner_in_parts repository : (owner_name repository).1 ∈ split_char "/"%char repository.
Proof.
  unfold owner_name. pose proof (join_split "/" repository) as Hj.
  destruct (split_char "/" repository) as [|o [|n rest]] eqn:E; simpl in *.
  - by rewrite <-Hj in E.
  - rewrite Hj. left.
  - left.
Qed.

Section Live.
Variable root : path.
Variable lives : list key.
Variables k live : key.
Hypothesis is_live : live ∈ lives.
Hypothesis not_live : k ∉ lives.
Hypothesis names : apart k live = true.

Lemma names_apart :
  (k.2.2 ∉ split_char "/"%char live.2.1) ∧ (live.2.2 ∉ split_char "/"%char k.2.1) ∧
  startswith "." live.2.2 = false ∧ (∀ s, s ∈ split_char "/"%char live.2.1 → startswith "." s = false) ∧
  (encoded k.2.1 = encoded live.2.1 → k.2.1 = live.2.1).
Proof using names.
  clear is_live not_live. unfold apart in names. apply andb_true_iff in names as [Hn Hr].
  apply andb_true_iff in Hn as [Hn Hd]. apply andb_true_iff in Hn as [H1 H2].
  apply negb_true_iff, mem_false in H1, H2. rewrite forallb_elem in Hd.
  split_and!; [done|done|apply negb_true_iff, Hd; left|intros; apply negb_true_iff, Hd; by right|].
  intros He. apply orb_true_iff in Hr as [Hr|Hr]; [by apply eqb_true|].
  apply negb_true_iff, eqb_false in Hr. done.
Qed.

Lemma same_item : k.1 = live.1 → k.2.1 = live.2.1 → k.2.2 = live.2.2 → False.
Proof using is_live not_live.
  clear names. intros H1 H2 H3. apply not_live. by replace k with live by (destruct k as [? []], live as [? []]; simpl in *; congruence).
Qed.

Lemma peer_apart parts d :
  parts ∈ peer_parts k.1 k.2.1 k.2.2 → d ∈ item_directories live → ¬ nested parts d.
Proof using is_live not_live names.
  intros Hp Hd Hn. destruct names_apart as (H1 & H2 & H3 & H4 & _).
  assert (∃ x, parts = ["distributed"; k.1] ++ split_char "/"%char k.2.1 ++ [x] ∧
            (x = k.2.2 ∨ startswith "." x = true)) as (x & -> & Hx).
  { unfold peer_parts in Hp. cbn [app] in Hp. rewrite !elem_of_cons in Hp.
    destruct Hp as [->|[->|[->|[]%not_elem_of_nil]]]; eexists; (split; [reflexivity|]); auto using startswith_dot. }
  unfold item_directories in Hd. apply elem_of_cons in Hd as [->|Hd].
  - cbn [app] in Hn. apply nested_cons in Hn as [_ Hn]. apply nested_cons in Hn as [Hs Hn].
    apply nested_snoc in Hn as [[He Hxx]|[Hin|Hin]]; [|destruct Hx as [->|Hx]; [done|]|done].
    + apply split_inj in He. subst x. destruct Hx as [Hx|Hx]; [by apply same_item|congruence].
    + rewrite (H4 x Hin) in Hx. done.
  - apply elem_of_app in Hd as [Hd|Hd].
    + destruct (eqb _ "hf"); [|by apply not_elem_of_nil in Hd]. apply list_elem_of_singleton in Hd as ->.
      unfold hub_parts in Hn. cbn [app] in Hn. by apply nested_cons in Hn as [? _].
    + destruct (eqb _ "modelscope"); [|by apply not_elem_of_nil in Hd].
      destruct (owner_name live.2.1). apply list_elem_of_singleton in Hd as ->.
      cbn [app] in Hn. by apply nested_cons in Hn as [? _].
Qed.

Lemma modelscope_apart parts d :
  k.1 = "modelscope" → aliased lives k.2.1 k.2.2 = false →
  parts ∈ modelscope_parts k.2.1 k.2.2 → d ∈ item_directories live → ¬ nested parts d.
Proof using is_live not_live names.
  intros Hk Ha Hp Hd Hn. destruct names_apart as (_ & _ & _ & H4 & _).
  pose proof (H4 _ (owner_in_parts live.2.1)) as Ho.
  unfold modelscope_parts in Hp. destruct (owner_name k.2.1) as [owner name] eqn:Eo.
  unfold item_directories in Hd. apply elem_of_cons in Hd as [->|Hd].
  { cbn [app] in Hp, Hn. rewrite !elem_of_cons in Hp.
    destruct Hp as [->|[->|[->|[]%not_elem_of_nil]]]; by apply nested_cons in Hn as [? _]. }
  apply elem_of_app in Hd as [Hd|Hd].
  { destruct (eqb _ "hf"); [|by apply not_elem_of_nil in Hd]. apply list_elem_of_singleton in Hd as ->.
    unfold hub_parts in Hn. cbn [app] in Hp, Hn. rewrite !elem_of_cons in Hp.
    destruct Hp as [->|[->|[->|[]%not_elem_of_nil]]]; by apply nested_cons in Hn as [? _]. }
  destruct (eqb live.1 "modelscope") eqn:El; [|by apply not_elem_of_nil in Hd]. reflect_in El.
  destruct (owner_name live.2.1) as [owner' name'] eqn:Eo'. apply list_elem_of_singleton in Hd as ->. simpl in Ho.
  cbn [app] in Hp, Hn. rewrite !elem_of_cons in Hp.
  destruct Hp as [->|[->|[->|[]%not_elem_of_nil]]]; do 2 (apply nested_cons in Hn as [_ Hn]);
    apply nested_cons in Hn as [Hr Hn]; apply nested_cons in Hn as [Hw Hn]; [|by subst owner'..].
  apply nested_cons in Hn as [Hnm _]. unfold aliased in Ha. rewrite Eo in Ha.
  rewrite existsb_none in Ha. specialize (Ha live is_live). simpl in Ha. rewrite Eo' in Ha.
  rewrite El, Hr, Hw, Hnm, !eqb_refl in Ha. done.
Qed.

Lemma hub_apart p d :
  k.1 = "hf" → hub_zone root k.2.1 k.2.2 (live_of lives k.2.1) p → d ∈ item_directories live →
  inside (root ++ d) p = true → False.
Proof using is_live not_live names.
  intros Hk Hz Hd Hi. destruct names_apart as (_ & _ & _ & _ & Henc).
  assert (∃ a, inside (root ++ "hub" :: a) p = true ∧
    (a = ["models--" +:+ encoded k.2.1; "snapshots"; k.2.2] ∨ a = ["models--" +:+ encoded k.2.1; "refs"] ∨
     a = ["models--" +:+ encoded k.2.1; "blobs"] ∨ a = ["blobs"] ∨
     (others_live k.2.2 (live_of lives k.2.1) = [] ∧ a = ["models--" +:+ encoded k.2.1]))) as (a & Ha & Hcase).
  { unfold hub_zone, base_dir, repo_directory, hub_dir in Hz. rewrite <-!app_assoc in Hz. cbn [app] in Hz.
    destruct Hz as [Hz|[Hz|[Hz|[Hz|[Hl Hz]]]]]; eexists; (split; [exact Hz|]); naive_solver. }
  pose proof (nested_shared _ _ _ _ Ha Hi) as Hn.
  unfold item_directories in Hd. apply elem_of_cons in Hd as [->|Hd].
  { cbn [app] in Hn. by apply nested_cons in Hn as [? _]. }
  apply elem_of_app in Hd as [Hd|Hd].
  2:{ destruct (eqb _ "modelscope"); [|by apply not_elem_of_nil in Hd]. destruct (owner_name _).
      apply list_elem_of_singleton in Hd as ->. by apply nested_cons in Hn as [? _]. }
  destruct (eqb live.1 "hf") eqn:El; [|by apply not_elem_of_nil in Hd]. reflect_in El.
  apply list_elem_of_singleton in Hd as ->. unfold hub_parts in Hn. cbn [app] in Hn.
  apply nested_cons in Hn as [_ Hn].
  assert (∀ b, nested (("models--" +:+ encoded k.2.1) :: b)
    [("models--" +:+ replace_char "/"%char "--" live.2.1); "snapshots"; live.2.2] →
    k.2.1 = live.2.1 ∧ nested b ["snapshots"; live.2.2]) as Hsame.
  { intros b [He Hb]%nested_cons. split; [|done]. apply Henc. by eapply append_inj_l. }
  destruct Hcase as [->|[->|[->|[->|[Ho ->]]]]].
  - apply Hsame in Hn as [Hr Hn]. apply nested_cons in Hn as [_ Hn]. apply nested_cons in Hn as [Hv _].
    apply same_item; congruence.
  - apply Hsame in Hn as [_ Hn]. by apply nested_cons in Hn as [? _].
  - apply Hsame in Hn as [_ Hn]. by apply nested_cons in Hn as [? _].
  - by apply nested_cons in Hn as [? _].
  - apply Hsame in Hn as [Hr _]. unfold others_live in Ho. rewrite keep_nil_Forall in Ho.
    assert (live.2.2 ∈ live_of lives k.2.1) as Hin.
    { unfold live_of. apply list_elem_of_fmap. exists live. split; [done|]. apply elem_of_keep. split; [|done].
      by rewrite El, Hr, !eqb_refl. }
    apply Ho in Hin. reflect_in Hin. apply same_item; congruence.
Qed.

Lemma reach_apart p d : d ∈ item_directories live → inside (root ++ d) p = true → ¬ reach root lives k p.
Proof using is_live not_live names.
  intros Hd Hi [[Hk Hz]|[(Hk & Ha & parts & Hp & Hq)|(parts & Hp & Hq)]].
  - by eapply hub_apart.
  - eapply modelscope_apart; [done|done|done|done|]. by eapply nested_shared.
  - eapply peer_apart; [done|done|]. by eapply nested_shared.
Qed.
End Live.

(** C21: live artifacts stay.  Whatever is collected and however the collection ends,
    the peer snapshot of every live item and its snapshot in the cache of its provider,
    with all they contain, are as they were, as long as the names of the candidates
    cannot be confused with it ([apart]).  This covers candidates of the same
    repository and candidates that the ModelScope layout maps to the same
    directory. *)
Theorem live_artifacts_stay `{!Hub, !HubLaws} (links_max : nat) (root real : path) (candidates live : list json)
    (keys lives : list key) (item : key) (c : cache)
  (Hroot : resolve links_max (files c) root = Ok real)
  (Hkeys : outcome_map item_key candidates = Ok keys) (Hlives : outcome_map item_key live = Ok lives)
  (Hitem : item ∈ lives) (Happart : ∀ k, k ∈ keys → apart k item = true) :
  let c' := (collect_cache_items links_max root candidates live c).2 in
  ∀ d p, d ∈ item_directories item → inside (real ++ d) p = true → files c' !! p = files c !! p.
Proof.
  cbv zeta. intros d p Hd Hp. unfold collect_cache_items, mbind, IO_bind, ask, pure.
  destruct (is_symlink _ _ _); [done|]. rewrite Hroot.
  set (S := λ p, inside (real ++ d) p = true).
  assert (stable (untouched S (files c)) (collect_items links_max real candidates live)) as Hs.
  { apply collect_items_untouched. intros keys' lives' Hk' Hl' k q Hk HS Hn.
    rewrite Hkeys in Hk'. injection Hk' as <-. rewrite Hlives in Hl'. injection Hl' as <-.
    by eapply reach_apart; [done|done|by apply Happart|..]. }
  assert (untouched S (files c) c) as Hc by done. specialize (Hs c Hc).
  destruct (collect_items _ _ _ _ c) as [[a|e|] c']; by apply Hs.
Qed.
