(* ===== verification/CachePayloads.v ===== *)
(** * Payloads of the cache collection

    Collecting a Hugging Face revision leaves no dangling links: a link that stays
    still resolves to its payload.  Then a concrete client and cache on which the
    theorems about collections are applied. *)

From Stdlib Require Import Ascii.
From S2P Require Import Prelude Text Kube Effects CacheGc CacheGcProofs.

(** ** Payloads *)

Definition no_link (F : tree) (p : path) : Prop := ∀ a t, F !! p ≠ Some (Link a t).

Lemma removelast_prefix (p : path) : removelast p `prefix_of` p.
Proof.
  destruct p as [|x p] using rev_ind; [done|]. rewrite removelast_last. by eexists.
Qed.

(** No prefix of a resolved path is a link. *)
Lemma realpath_real fuel F real todo p :
  no_link F [] → (∀ q, q `prefix_of` real → no_link F q) → realpath fuel F real todo = Ok p →
  ∀ q, q `prefix_of` p → no_link F q.
Proof.
  intros H0. revert real todo. induction fuel as [|fuel IH]; intros real [|name todo] Hreal; simpl; try done;
    try by intros [= <-].
  destruct (eqb name "..").
  { apply IH. intros q Hq. apply Hreal. by etrans; [|apply removelast_prefix]. }
  assert (no_link F (real ++ [name]) → ∀ q, q `prefix_of` real ++ [name] → no_link F q) as Hext.
  { intros Hn q Hq%inside_true%inside_snoc. destruct Hq as [->|Hq%inside_true]; auto. }
  destruct (F !! (real ++ [name])) as [[|text|a t|]|] eqn:E; try (apply IH, Hext; intros a' t'; by rewrite E).
  apply IH. destruct a; [|done]. by intros q ->%prefix_nil_inv.
Qed.

Lemma closed_below F t q : closed F → F !! t = None → inside t q = true → F !! q = None.
Proof.
  intros [_ Hc] Ht [k ->]%inside_true. induction k as [|x k IH] using rev_ind; [by rewrite app_nil_r|].
  destruct (F !! (t ++ k ++ [x])) as [e|] eqn:E; [|done]. exfalso.
  assert (F !! parent (t ++ k ++ [x]) = Some Dir) as Hp by (apply Hc; [by rewrite E|by destruct t, k]).
  unfold parent in Hp. rewrite app_assoc, removelast_last in Hp. congruence.
Qed.

(** The links that resolving a path follows, in their order. *)
Fixpoint hops (fuel : nat) (F : tree) (real todo : path) : list path :=
  match fuel, todo with
  | S fuel, name :: todo =>
      if eqb name ".." then hops fuel F (removelast real) todo else
      match F !! (real ++ [name]) with
      | Some (Link absolute text) => (real ++ [name]) :: hops fuel F (if absolute then [] else real) (text ++ todo)
      | _ => hops fuel F (real ++ [name]) todo
      end
  | _, _ => []
  end.

Lemma hops_links fuel F real todo x : x ∈ hops fuel F real todo → ∃ a t, F !! x = Some (Link a t).
Proof.
  revert real todo. induction fuel as [|fuel IH]; intros real [|name todo]; simpl; try (by intros ?%not_elem_of_nil).
  destruct (eqb name ".."); [by apply IH|].
  destruct (F !! (real ++ [name])) as [[|text|a t|]|] eqn:E; try by apply IH.
  intros [->|Hx]%elem_of_cons; [eauto|by eapply IH].
Qed.

(** Deleting entries does not change what a path resolves to, as long as the links it
    is resolved through stay. *)
Lemma realpath_same fuel F F' real todo :
  (∀ p, F' !! p = F !! p ∨ F' !! p = None) → (∀ x, x ∈ hops fuel F real todo → F' !! x = F !! x) →
  realpath fuel F' real todo = realpath fuel F real todo.
Proof.
  intros Hcut. revert real todo. induction fuel as [|fuel IH]; intros real [|name todo] Hx; try done. simpl in *.
  destruct (eqb name ".."); [by apply IH|].
  destruct (F !! (real ++ [name])) as [[|text|a t|]|] eqn:E.
  3: { rewrite Hx, E by left. apply IH. intros x Hin. apply Hx. by right. }
  all: rewrite <-(IH (real ++ [name]) todo) by done; destruct (Hcut (real ++ [name])) as [-> | ->]; by rewrite ?E.
Qed.

Section Payloads.
Context `{!Hub} {laws : HubLaws}.
Variable links_max : nat.
Variable root : path.
Variables repository revision : string.
Variable live_revisions : list string.
Variable F0 : tree.
Abbreviation hub := (hub_dir root).
Abbreviation base := (base_dir root repository).

(** [q] is a link of the hub that leads to the payload [p]. *)
Definition leads (q p : path) : Prop :=
  (∃ a t, F0 !! q = Some (Link a t)) ∧ inside hub q = true ∧ resolve links_max F0 q = Ok p.

(** The payload [p] of [q] and the links on the way to it are as they were. *)
Definition kept (F : tree) (q p : path) : Prop :=
  F !! p = F0 !! p ∧ ∀ x, x ∈ hops links_max F0 [] q → F !! x = F0 !! x.
Definition shrunk (F : tree) : Prop := ∀ p, F !! p = F0 !! p ∨ F !! p = None.
(** Links that are still there, the exempt ones aside, lead to their payload. *)
Definition intact (exempt : path → Prop) (F : tree) : Prop :=
  shrunk F ∧ ∀ q p, leads q p → is_Some (F !! q) → kept F q p ∨ exempt q.

Lemma intact_refl exempt : intact exempt F0.
Proof. split; [by left|]. intros q p _ _. by left. Qed.
Lemma intact_weaken (A B : path → Prop) F : intact A F → (∀ q, A q → B q) → intact B F.
Proof. intros [Hs HF] HAB. split; [done|]. intros q p Hl Hq. destruct (HF q p Hl Hq); auto. Qed.
Lemma intact_resolves exempt F q p :
  intact exempt F → leads q p → is_Some (F !! q) →
  (F !! p = F0 !! p ∧ resolve links_max F q = Ok p) ∨ exempt q.
Proof.
  intros [Hs HF] Hl Hq. destruct (HF q p Hl Hq) as [[Hp Hx]|?]; [|by right]. left. split; [done|].
  destruct Hl as (_ & _ & Hr). unfold resolve in *. by rewrite (realpath_same _ F0).
Qed.

(** The layout of a hub: a link is resolved through no other link than its first hop,
    and through that only when it is an entry of the blobs of its own repository. *)
Definition hub_layout : Prop :=
  ∀ q a t x, F0 !! q = Some (Link a t) → inside hub q = true → x ∈ hops links_max F0 [] q →
    x = q ∨
    (x = abspath (if a then [] else parent q) t ∧
     ∃ d name, d ≠ "blobs" ∧ x = hub ++ [d; "blobs"; name] ∧ inside (hub ++ [d]) q = true).
(** The planner names blobs by their resolved paths. *)
Definition resolved_blobs : Prop :=
  ∀ repos repo t, scan_cache_dir F0 hub = Ok repos → repo ∈ repos →
    t ∈ st_blobs (delete_revisions repo revision) → no_link F0 t.

Hypothesis well_formed : closed F0.
(** Refs are text files; no link leads to one. *)
Hypothesis no_ref_payloads : ∀ q p, leads q p → inside (base ++ ["refs"]) p = false.
Hypothesis layout : hub_layout.

Lemma leads_real q p : leads q p → no_link F0 p.
Proof using well_formed.
  intros (_ & _ & Hr). eapply realpath_real; [| |exact Hr|done].
  - intros a t. by rewrite (proj1 well_formed).
  - intros q' ->%prefix_nil_inv a t. by rewrite (proj1 well_formed).
Qed.

(** Where the other links on the way to a payload are. *)
Lemma hop_place q p x :
  leads q p → x ∈ hops links_max F0 [] q → x = q ∨
    ∃ d name, d ≠ "blobs" ∧ x = hub ++ [d; "blobs"; name] ∧ inside (hub ++ [d]) q = true.
Proof using layout.
  intros ((a & t & Hq) & Hi & _) Hx. destruct (layout q a t x Hq Hi Hx) as [->|[_ ?]]; auto.
Qed.
Lemma base_hub : base = hub ++ ["models--" +:+ replace_char "/"%char "--" repository].
Proof. done. Qed.
Lemma hop_in_base d name q : inside base (hub ++ [d; "blobs"; name]) = true → inside (hub ++ [d]) q = true → inside base q = true.
Proof. rewrite base_hub, inside_app_inv. by intros [<- _]%inside_cons. Qed.
Lemma hop_not_below d name x k : inside (base ++ x :: k) (hub ++ [d; "blobs"; name]) = true → x = "blobs".
Proof. rewrite base_hub, <-app_assoc, inside_app_inv. by intros [_ [? _]%inside_cons]%inside_cons. Qed.

Section Links.
Variable links : list (path * (path * path)).
Hypothesis links_known : hub_links links_max F0 hub = Ok links.

Lemma links_sound l : l ∈ links → leads l.1 l.2.2.
Proof using links_known.
  clear well_formed no_ref_payloads layout. revert links_known. unfold hub_links. destruct (negb _); [done|].
  intros Hm%outcome_map_Ok Hl. apply list_elem_of_lookup in Hl as [i Hi].
  destruct (Forall2_lookup_r _ _ _ _ _ Hm Hi) as (x & Hx%list_elem_of_lookup_2 & Hxl). unfold id in Hxl. subst x.
  apply list_elem_of_omap in Hx as ([q e] & Hq%elem_of_map_to_list & He). simpl in He.
  destruct e as [|text|a t|]; try done. destruct (inside hub q && _) eqn:Ei; [|done].
  apply andb_true_iff in Ei as [Ei _]. injection He as He. unfold link_fact in He.
  apply outcome_bind_Ok in He as (p & Hp & He). destruct (_ || _); [done|]. injection He as <-. simpl.
  split_and!; eauto.
Qed.

Lemma links_complete q p a t :
  leads q p → F0 !! q = Some (Link a t) → (q, (abspath (if a then [] else parent q) t, p)) ∈ links.
Proof using links_known.
  clear well_formed no_ref_payloads layout. intros (_ & Hi & Hp) Hq. revert links_known. unfold hub_links.
  destruct (is_directory F0 hub) eqn:Ed; [|done]. simpl. intros Hm%outcome_map_Ok.
  assert (link_fact links_max F0 hub q a t ∈ omap (λ e, match e.2 with
      | Link absolute text => if inside hub e.1 && negb (eqb e.1 hub) then Some (link_fact links_max F0 hub e.1 absolute text) else None
      | _ => None end) (map_to_list F0)) as Hin.
  { apply list_elem_of_omap. exists (q, Link a t). split; [by apply elem_of_map_to_list|]. simpl.
    rewrite Hi. simpl. destruct (eqb q hub) eqn:E; [|done]. reflect_in E. subst q.
    unfold is_directory in Ed. by rewrite Hq in Ed. }
  apply list_elem_of_lookup in Hin as [i Hin].
  destruct (Forall2_lookup_l _ _ _ _ _ Hm Hin) as (l & Hl%list_elem_of_lookup_2 & Hx). unfold id, link_fact in Hx.
  rewrite Hp in Hx. simpl in Hx. destruct (_ || _); [done|]. by injection Hx as <-.
Qed.

Variable s : strategy.
Hypothesis plan : planned hub base revision s.
Hypothesis no_protected : existsb (λ p, existsb (λ t, inside t p) (trees s)) (protected links base s) = false.
Hypothesis blobs_real : ∀ t, t ∈ st_blobs s → no_link F0 t.
Abbreviation s' := (without_protected links base s).
Abbreviation abandoned := (abandoned_links links base s).

Definition doomed (q : path) : Prop := disappearing s q = true ∨ q ∈ abandoned.

Lemma doomed_base q : doomed q → inside base q = true.
Proof using plan.
  assert (∀ t, t ∈ trees s → inside base t = true) as Ht.
  { unfold trees. intros t [Ht|Ht]%elem_of_app.
    - apply (plan_repos _ _ _ _ plan) in Ht as ->. apply inside_refl.
    - apply (plan_snapshots _ _ _ _ plan) in Ht as ->. apply inside_app. }
  intros [Hd|Ha].
  - unfold disappearing in Hd. apply orb_true_iff in Hd as [Hd%mem_true|Hd].
    + apply (plan_files _ _ _ _ plan) in Hd as (t & Hin & Hi). eapply inside_trans; eauto.
    + apply existsb_elem in Hd as (t & Hin & Hi). eapply inside_trans; eauto.
  - eapply inside_trans; [apply inside_app|by eapply abandoned_blobs].
Qed.

Lemma payload_protected q p : leads q p → ¬ doomed q → p ∈ protected links base s.
Proof using links_known.
  intros Hl Hd. pose proof Hl as ((a & t & Hq) & _). pose proof (links_complete q p a t Hl Hq) as Hin.
  unfold protected. apply list_elem_of_fmap. exists (q, (abspath (if a then [] else parent q) t, p)). split; [done|]. apply elem_of_keep. split; [|done]. unfold doomed in Hd.
  apply andb_true_iff. rewrite !negb_true_iff, mem_false. simpl. destruct (disappearing s q); naive_solver.
Qed.

Lemma payload_outside_trees q p t : leads q p → ¬ doomed q → t ∈ trees s → inside t p = false.
Proof using links_known no_protected.
  intros Hl Hd Ht. rewrite existsb_none in no_protected.
  pose proof (no_protected p (payload_protected q p Hl Hd)) as Hp. rewrite existsb_none in Hp. auto.
Qed.

(** The plan, as it is executed, leaves the payloads of links that stay. *)
Lemma payload_kept F1 q p :
  cut (deletable s' F0 F1) F0 F1 → leads q p → is_Some (F1 !! q) → ¬ doomed q → F1 !! p = F0 !! p.
Proof using links_known no_protected no_ref_payloads plan.
  intros Hcut Hl Hq Hnd. destruct (Hcut p) as [?|[_ Hdel]]; [done|]. exfalso.
  destruct Hdel as [(t & Ht & Hi)|[Hdel|(h & Hh & _ & Hfree)]].
  - by rewrite (payload_outside_trees q p t Hl Hnd Ht) in Hi.
  - rewrite !elem_of_app in Hdel. destruct Hdel as [Hdel|[Hdel|Hdel]]; simpl in Hdel.
    + apply (plan_refs _ _ _ _ plan) in Hdel. by rewrite (no_ref_payloads q p Hl) in Hdel.
    + apply elem_of_keep in Hdel as [Hdel%negb_true_iff%mem_false _]. by destruct Hdel; eapply payload_protected.
    + apply (plan_files _ _ _ _ plan) in Hdel as (t & Ht & Hi).
      by rewrite (payload_outside_trees q p t Hl Hnd Ht) in Hi.
  - simpl in Hh. destruct (plan_cache_dir _ _ _ _ plan) as [E|E]; rewrite E in Hh; [done|]. injection Hh as <-.
    destruct Hl as ((a & t & Hlink) & Hi & Hr). eapply (Hfree links_max q a t); [done| |exact Hr].
    rewrite <-Hlink. by eapply cut_present.
Qed.

(** A tree that holds a hop of a link holds the link. *)
Lemma hop_tree q d name t :
  inside (hub ++ [d]) q = true → t ∈ trees s → inside t (hub ++ [d; "blobs"; name]) = true → disappearing s q = true.
Proof using plan.
  intros Hq Ht Hi. unfold disappearing. apply orb_true_iff. right. apply existsb_elem. exists t. split; [done|].
  unfold trees in Ht. apply elem_of_app in Ht as [Ht|Ht].
  - apply (plan_repos _ _ _ _ plan) in Ht as ->. by eapply hop_in_base.
  - apply (plan_snapshots _ _ _ _ plan) in Ht as ->. by apply hop_not_below in Hi.
Qed.

(** It also leaves the links on the way to them. *)
Lemma hops_kept F1 q p x :
  cut (deletable s' F0 F1) F0 F1 → leads q p → is_Some (F1 !! q) → disappearing s q = false →
  x ∈ hops links_max F0 [] q → F1 !! x = F0 !! x.
Proof using layout blobs_real plan.
  intros Hcut Hl Hq Hnd Hx. destruct (hop_place q p x Hl Hx) as [->|(d & name & Hd & -> & Hdq)]; [by eapply cut_present|].
  destruct (hops_links _ _ _ _ _ Hx) as (a & t & Hlink).
  assert (∀ t, t ∈ trees s → inside t (hub ++ [d; "blobs"; name]) ≠ true) as Htree.
  { intros t' Ht Hi. by rewrite (hop_tree q d name t' Hdq Ht Hi) in Hnd. }
  destruct (Hcut (hub ++ [d; "blobs"; name])) as [?|[_ Hdel]]; [done|]. exfalso.
  destruct Hdel as [(t' & Ht & Hi)|[Hdel|(h & Hh & Hi & _)]]; [by eapply Htree| |].
  - rewrite !elem_of_app in Hdel. destruct Hdel as [Hdel|[Hdel|Hdel]]; simpl in Hdel.
    + by apply (plan_refs _ _ _ _ plan), hop_not_below in Hdel.
    + apply elem_of_keep in Hdel as [_ Hdel]. by eapply blobs_real.
    + apply (plan_files _ _ _ _ plan) in Hdel as (t' & Ht & Hi). by eapply Htree.
  - simpl in Hh. destruct (plan_cache_dir _ _ _ _ plan) as [E|E]; rewrite E in Hh; [done|]. injection Hh as <-.
    rewrite inside_app_inv in Hi. by apply inside_cons in Hi as [? _].
Qed.

Lemma execute_payloads r F1 :
  execute s' F0 = (r, F1) → intact doomed F1.
Proof using laws links_known no_protected no_ref_payloads plan layout blobs_real.
  intros [_ Hcut]%execute_deletes. split; [intros p; destruct (Hcut p) as [?|[? _]]; auto|]. intros q p Hl Hq.
  destruct (disappearing s q) eqn:Hd; [by right; left|].
  destruct (decide (q ∈ abandoned)) as [Ha|Ha]; [by right; right|]. left.
  assert (¬ doomed q) as Hnd by (intros [E|?]; [by rewrite Hd in E|done]).
  split; [by eapply payload_kept|]. intros x. by eapply hops_kept.
Qed.

Lemma abandoned_link t : t ∈ abandoned → ∃ a l, F0 !! t = Some (Link a l).
Proof using links_known.
  intros (_ & [v Hv] & _)%elem_of_abandoned. apply dget_elem in Hv. by destruct (links_sound _ Hv) as [? _].
Qed.

(** While the abandoned links are removed *)
Section Abandoned.
Variable F1 : tree.
Hypothesis smaller : shrunk F1.

Definition removing (gone : list path) (c : cache) : Prop :=
  cut (λ x, x ∈ abandoned) F1 (files c) ∧ ∀ t, t ∈ gone → files c !! t = None.

Lemma remove_abandoned gone t :
  t ∈ abandoned →
  hoare (removing gone) (remove links_max root t true) (λ _, removing (t :: gone)) (removing gone).
Proof using links_known smaller.
  intros Ht c [Hcut Hgone]. pose proof (remove_spec links_max root (files c) t true c eq_refl) as Hr.
  destruct (remove _ _ _ _ c) as [[[]|e|] c']; [|by unfold removing; rewrite Hr..].
  destruct Hr as [_ [Hnone Hr]].
  assert (cut (λ x, x ∈ abandoned) (files c) (files c')) as Hstep.
  { destruct Hr as [->|[[Hdir _]|[_ ->]]]; [apply cut_refl| |].
    - exfalso. destruct (abandoned_link t Ht) as (a & l & Hl).
      destruct (Hcut t) as [E|[E _]]; rewrite E in Hdir; [|done]. destruct (smaller t); congruence.
    - eapply cut_weaken; [apply cut_delete|]. by intros p ->. }
  split; [by eapply cut_trans|]. intros x [->|Hx]%elem_of_cons; [done|].
  destruct (Hstep x) as [->|[? _]]; auto.
Qed.

Lemma each_abandoned l gone :
  (∀ t, t ∈ l → t ∈ abandoned) →
  hoare (removing gone) (each l (λ t, remove links_max root t true))
    (λ _ c, removing [] c ∧ ∀ t, t ∈ l ++ gone → files c !! t = None) (removing []).
Proof using links_known smaller.
  clear well_formed no_ref_payloads plan no_protected laws layout blobs_real.
  revert gone. induction l as [|t l IH]; intros gone Hl; simpl.
  { apply hoare_ret. intros c [H1 H2]. split; [split; [done|by intros ? []%not_elem_of_nil]|done]. }
  eapply hoare_bind with (R := λ _, removing (t :: gone)).
  { eapply hoare_weaken; [apply remove_abandoned; apply Hl; left|done|done|].
    intros c [H1 _]. split; [done|by intros ? []%not_elem_of_nil]. }
  intros _. eapply hoare_weaken; [apply (IH (t :: gone)); intros; apply Hl; by right|done| |done].
  intros _ c [H1 H2]. split; [done|]. intros x Hx. apply H2. set_solver.
Qed.

Lemma removing_intact c : intact doomed F1 → removing [] c → intact doomed (files c).
Proof using links_known well_formed layout smaller.
  intros [Hs H1] [Hcut _]. split.
  { intros p. destruct (Hcut p) as [E|[E _]]; rewrite E; auto. }
  intros q p Hl Hq. pose proof (cut_present _ _ _ _ Hcut Hq) as Eq.
  destruct (disappearing s q) eqn:Hd; [by right; left|].
  destruct (H1 q p Hl) as [[E Hx]|?]; [by rewrite <-Eq| |by right]. left. split.
  - rewrite <-E. destruct (Hcut p) as [?|[_ Ha]]; [done|]. exfalso.
    destruct (abandoned_link p Ha) as (a & l & Hp). by apply (leads_real q p Hl a l).
  - intros x Hin. rewrite <-(Hx x Hin). pose proof Hl as ((a & t & Hlink) & Hi & _).
    destruct (layout q a t x Hlink Hi Hin) as [->|[-> _]]; [done|].
    destruct (Hcut (abspath (if a then [] else parent q) t)) as [?|[_ Ha]]; [done|]. exfalso.
    apply elem_of_abandoned in Ha as (_ & _ & Ha & _). apply Ha. unfold remaining_entries.
    apply list_elem_of_fmap. exists (q, (abspath (if a then [] else parent q) t, p)). split; [done|].
    apply elem_of_keep. split; [|by apply links_complete].
    simpl. by rewrite Hd.
Qed.

Lemma returned_intact c :
  closed F1 → existsb (present F1) (targets s') = false → intact doomed (files c) → removing [] c →
  (∀ t, t ∈ abandoned → files c !! t = None) → intact (λ _, False) (files c).
Proof.
  clear well_formed no_ref_payloads plan no_protected laws links_known smaller layout blobs_real.
  intros Hc Ht [Hs Hi] [Hcut _] Ha. split; [done|]. intros q p Hl Hq. destruct (Hi q p Hl Hq) as [?|Hd]; [by left|]. exfalso.
  pose proof (cut_present _ _ _ _ Hcut Hq) as Eq. rewrite Eq in Hq.
  assert (∀ t, t ∈ targets s' → F1 !! t = None) as Hgone.
  { intros t Hin. rewrite existsb_none in Ht. specialize (Ht t Hin). unfold present in Ht.
    apply bool_decide_eq_false in Ht. by apply eq_None_not_Some. }
  destruct Hd as [Hd|Hd]; [|by rewrite <-Eq, Ha in Hq; destruct Hq].
  unfold disappearing in Hd. apply orb_true_iff in Hd as [Hd%mem_true|Hd].
  - rewrite Hgone in Hq; [by destruct Hq|]. unfold targets. simpl. set_solver.
  - apply existsb_elem in Hd as (t & Hin & Hit). rewrite (closed_below F1 t q) in Hq; [by destruct Hq|done| |done].
    apply Hgone. unfold targets, trees in *. simpl. set_solver.
Qed.
End Abandoned.
End Links.

(** The deletion of an indexed revision *)
Lemma revision_payloads links repo selected :
  hub_links links_max F0 hub = Ok links → planned hub base revision (delete_revisions repo revision) →
  (∀ t, t ∈ st_blobs (delete_revisions repo revision) → no_link F0 t) →
  hoare (λ c, files c = F0)
    (collect_revision links_max root revision live_revisions hub base links repo selected)
    (λ _ c, intact (λ _, False) (files c)) (λ c, intact (λ q, inside base q = true) (files c)).
Proof using laws well_formed no_ref_payloads layout.
  intros Hlinks Hplan Hreal. assert (∀ c, files c = F0 → intact (λ q, inside base q = true) (files c)) as Hsame.
  { intros c ->. apply intact_refl. }
  unfold collect_revision.
  eapply hoare_bind with (R := λ F c, F = F0 ∧ files c = F0); [by apply hoare_ask|]. intros F. apply hoare_fact. intros ->.
  set (s := delete_revisions repo revision) in *. cbv zeta.
  eapply hoare_bind with (R := λ _ c, files c = F0).
  { intros c Hc. unfold skip_unless. repeat case_bool_decide; simpl; try done; try by apply Hsame.
    unfold pure. destruct (check_repository _ _); [done|by apply Hsame]. }
  intros _. apply hoare_pure_bind; [done|]. intros _ Hrej%reject_Ok.
  apply hoare_pure_bind; [done|]. intros checked _. apply hoare_pure_bind; [done|]. intros valid _.
  eapply hoare_bind with (R := λ _ c, ∃ r, execute (without_protected links base s) F0 = (r, files c)).
  { intros c Hc. unfold run_strategy. rewrite Hc. destruct (execute _ F0) as [r F1] eqn:E.
    unfold pure. destruct r; simpl; [eauto|]. eapply intact_weaken; [by eapply execute_payloads|].
    intros q. by apply doomed_base. }
  intros _. eapply hoare_bind with (R := λ F c, F = files c ∧ ∃ r, execute (without_protected links base s) F0 = (r, F)).
  { apply hoare_ask. intros c Hc. done. }
  intros F1. intros c0 [-> [r Hx]]. set (F1 := files c0) in *.
  pose proof (execute_payloads links Hlinks s Hplan Hrej Hreal r F1 Hx) as Hi1.
  destruct (execute_deletes _ _ _ _ Hx) as [Hcl Hcut0]. specialize (Hcl well_formed).
  assert (∀ q, doomed links s q → inside base q = true) as Hdb by (intros q; by apply doomed_base).
  destruct (existsb (present F1) _) eqn:Et; [by eapply intact_weaken|].
  pose proof (proj1 Hi1) as Hshrunk.
  revert c0 F1 Hx Hi1 Hcl Hcut0 Et Hshrunk. intros c0 F1 _ Hi1 Hcl _ Et Hshrunk.
  enough (hoare (removing links s F1 []) (each (abandoned_links links base s) (λ t, remove links_max root t true) ;;
      F ← ask files;
      if existsb (present F) (keep (λ p, negb (mem p (protected links base s))) (payloads links s selected))
      then throw (OSError "Hub could not safely collect the unreferenced payload")
      else note_removed ((λ p, as_posix (drop (length root) p)) <$>
        keep (λ p, negb (present F p)) (keep (present F0) (targets (without_protected links base s) ++ payloads links s selected))))
    (λ _ c, intact (λ _, False) (files c)) (λ c, intact (λ q, inside base q = true) (files c))) as Hh.
  { apply Hh. split; [apply cut_refl|by intros ? []%not_elem_of_nil]. }
  eapply hoare_bind with (R := λ _ c, intact (λ _, False) (files c)).
  - eapply hoare_weaken; [apply (each_abandoned links Hlinks s F1 Hshrunk); done|done| |].
    + intros _ c [Hr Ha]. eapply (returned_intact links s F1); [done|done|by eapply removing_intact|done|].
      intros t Ht. apply Ha. set_solver.
    + intros c Hr. eapply intact_weaken; [by eapply removing_intact|done].
  - intros _ c Hc. unfold mbind, IO_bind, ask, note_removed, change, throw. cbv beta.
    destruct (existsb (present (files c)) _); [|exact Hc].
    by eapply intact_weaken; [exact Hc|].
Qed.

(** The deletion of a partial download *)
Lemma partial_payloads links snapshot repo :
  hub_links links_max F0 hub = Ok links →
  hoare (λ c, files c = F0)
    (collect_partial links_max root repository live_revisions base snapshot links repo)
    (λ _ c, intact (λ _, False) (files c)) (λ c, intact (λ _, False) (files c)).
Proof using layout.
  clear well_formed no_ref_payloads. intros Hlinks.
  assert (∀ c, files c = F0 → intact (λ _, False) (files c)) as Hsame by (intros c ->; apply intact_refl).
  unfold collect_partial.
  eapply hoare_bind with (R := λ F c, F = F0 ∧ files c = F0); [by apply hoare_ask|]. intros F. apply hoare_fact. intros ->.
  destruct (present _ _); [by apply hoare_throw|]. destruct (_ || _); [by apply hoare_ret|].
  apply hoare_pure_bind; [done|]. intros parts _. apply hoare_pure_bind; [done|]. intros snapshots _.
  eapply hoare_bind with (R := λ _ c, files c = F0).
  { destruct (F0 !! snapshots) as [[]|]; (by apply hoare_ret) || (by apply hoare_throw). }
  intros []; [by apply hoare_throw|]. apply hoare_pure_bind; [done|]. intros [] Hrep.
  apply hoare_pure_bind; [done|]. intros [] Hpart.
  apply outcome_bind_Ok in Hpart as ([] & Hpart%reject_Ok & _). rewrite existsb_none in Hpart.
  eapply hoare_weaken; [apply (remove_spec links_max root F0)|done| |done].
  intros [] c [_ [_ [->|[[_ ->]|[(e & He & Hne) _]]]]]; [apply intact_refl| |].
  - split; [intros p; rewrite lookup_rmtree; destruct (inside base p); auto|]. intros q p Hl Hq. left.
    rewrite lookup_rmtree in Hq. destruct (inside base q) eqn:Eq; [by destruct Hq|]. split.
    + rewrite lookup_rmtree. destruct (inside base p) eqn:Ep; [|done]. exfalso.
      pose proof Hl as ((a & t & Hlink) & _). specialize (Hpart _ (links_complete links Hlinks q p a t Hl Hlink)).
      simpl in Hpart. by rewrite Ep, Eq in Hpart.
    + intros x Hx. rewrite lookup_rmtree. destruct (inside base x) eqn:Ex; [|done]. exfalso.
      destruct (hop_place q p x Hl Hx) as [->|(d & name & _ & -> & Hd)]; [congruence|].
      by rewrite (hop_in_base d name q Ex Hd) in Eq.
  - exfalso. unfold check_repository, is_directory in Hrep. rewrite He in Hrep. by destruct e.
Qed.

Lemma hf_collect_payloads :
  resolved_blobs →
  hoare (λ c, files c = F0) (hf_collect links_max root repository revision live_revisions)
    (λ _ c, intact (λ _, False) (files c)) (λ c, intact (λ q, inside base q = true) (files c)).
Proof using laws well_formed no_ref_payloads layout.
  intros Hblobs. assert (∀ A c, files c = F0 → intact A (files c)) as Hsame by (intros A c ->; apply intact_refl).
  unfold hf_collect.
  eapply hoare_bind with (R := λ F c, F = F0 ∧ files c = F0); [by apply hoare_ask|]. intros F. apply hoare_fact. intros ->.
  apply hoare_pure_bind; [auto|]. intros h ->%cache_path_Ok.
  apply hoare_pure_bind; [auto|]. intros repo_path Hrp%cache_path_Ok.
  replace repo_path with base by (rewrite Hrp; unfold base_dir, repo_directory, hub_dir; by rewrite <-app_assoc).
  apply hoare_pure_bind; [auto|]. intros snapshot _.
  apply hoare_if; [intros _; apply hoare_ret; auto|intros _].
  apply hoare_pure_bind; [auto|]. intros links Hlinks.
  apply hoare_pure_bind; [auto|]. intros repos Hrepos. cbv zeta.
  assert (∀ repo, hoare (λ c, files c = F0)
    (collect_partial links_max root repository live_revisions base snapshot links repo)
    (λ _ c, intact (λ _, False) (files c)) (λ c, intact (λ q, inside base q = true) (files c))) as Hpart.
  { intros repo. eapply hoare_weaken; [by apply partial_payloads|done|done|].
    intros c Hc. by eapply intact_weaken; [exact Hc|]. }
  destruct (head (keep _ repos)) as [r|] eqn:Er; [|apply Hpart].
  apply head_Some_elem_of, elem_of_keep in Er as [Er Hr]. reflect_in Er. destruct Er as [Et Eid].
  unfold mbind at 1, option_bind. destruct (head _) as [v|]; [|apply Hpart].
  apply revision_payloads; [done| |intros t; by apply (Hblobs repos)].
  unfold base_dir. rewrite <-Eid. by eapply delete_revisions_planned.
Qed.
End Payloads.

(** C15: no dangling links.  In a hub where a link leads to its payload directly or
    through one entry of the blobs of its own repository, no link leads to a ref, and
    the planner names blobs by their resolved paths: after a Hugging Face collection
    that returns, every link that is still there resolves to the payload it led to, and
    this is unchanged, also when the planner wanted to delete it or it is shared with
    another repository.  When the collection fails half way, the only links that may
    have lost their payload are inside the repository that was being collected. *)
Theorem hub_payloads_stay `{!Hub, !HubLaws} (links_max : nat) (root : path) (repository revision : string)
    (live_revisions : list string) (c : cache)
  (Htree : closed (files c))
  (Hrefs : ∀ q p, leads links_max root (files c) q p → inside (base_dir root repository ++ ["refs"]) p = false)
  (Hlayout : hub_layout links_max root (files c))
  (Hblobs : resolved_blobs root revision (files c)) :
  let '(r, c') := hf_collect links_max root repository revision live_revisions c in
  ∀ q p, leads links_max root (files c) q p → is_Some (files c' !! q) →
    (files c' !! p = files c !! p ∧ resolve links_max (files c') q = Ok p) ∨
    ((∀ u, r ≠ Returned u) ∧ inside (base_dir root repository) q = true).
Proof.
  pose proof (hf_collect_payloads links_max root repository revision live_revisions (files c) Htree Hrefs Hlayout Hblobs
    c eq_refl) as Hc.
  destruct (hf_collect _ _ _ _ _ c) as [[u|e|] c']; intros q p Hl Hq;
    destruct (intact_resolves _ _ _ _ _ q p Hc Hl Hq) as [?|Hi]; try (by left); right; (split; [by intros u|done]).
Qed.

(** ** Examples *)

#[export] Instance entry_eq_dec : EqDecision entry.
Proof. solve_decision. Defined.

(** A client that indexes one repository, with two revisions that share a blob, and
    that plans to delete all blobs of a revision. *)
Definition sample_revision (base : path) (rev own : string) : hub_revision :=
  HubRevision rev (base ++ ["snapshots"; rev]) [base ++ ["blobs"; own]; base ++ ["blobs"; "shared"]].
Definition sample_repo (hub : path) : hub_repo :=
  let base := repo_directory hub "o/m" in
  HubRepo "model" "o/m" [sample_revision base "r1" "b1"; sample_revision base "r2" "b2"].
Definition sample_plan (repo : hub_repo) (rev : string) : strategy :=
  match head (keep (λ v, eqb (commit_hash v) rev) (revisions repo)) with
  | Some v => Strategy [] [snapshot_path v] [] (blob_paths v) [] None
  | None => Strategy [] [] [] [] [] None
  end.
Definition goes (s : strategy) (e : path * entry) : bool :=
  negb (eqb e.1 []) && (existsb (λ t, inside t e.1) (trees s)
    || mem e.1 (st_refs s ++ st_blobs s ++ st_files s) && negb (eqb e.2 Dir)).
#[local] Instance sample_hub : Hub := {|
  scan_cache_dir F hub :=
    if forallb (λ v, forallb (λ b, match F !! b with Some (Link _ _) => false | _ => true end) (blob_paths v))
         (revisions (sample_repo hub))
    then Ok [sample_repo hub] else Raise (OSError "blobs are resolved");
  delete_revisions := sample_plan;
  execute s F := (Ok tt, filter (λ e, goes s e = false) F);
|}.

Lemma sample_planned hub repo rev : repo = sample_repo hub →
  planned hub (repo_directory hub (repo_id repo)) rev (sample_plan repo rev).
Proof.
  intros ->. unfold sample_plan. simpl. rewrite !keep_cons. simpl.
  destruct (eqb "r1" rev) eqn:E1; [|destruct (eqb "r2" rev) eqn:E2]; simpl;
    try (reflect_in E1; subst rev); try (reflect_in E2; subst rev); split; simpl;
    try (intros t []%not_elem_of_nil); try (by left).
  - intros t ->%list_elem_of_singleton. done.
  - intros t [->| ->%list_elem_of_singleton]%elem_of_cons; left; by apply inside_app_inv.
  - intros t ->%list_elem_of_singleton. done.
  - intros t [->| ->%list_elem_of_singleton]%elem_of_cons; left; by apply inside_app_inv.
Qed.

#[local] Instance sample_laws : HubLaws.
Proof.
  split.
  - intros F hub repos repo rev Hs Hin _. unfold scan_cache_dir, sample_hub in Hs. destruct (forallb _ _); [|done].
    injection Hs as <-. apply list_elem_of_singleton in Hin. by apply sample_planned.
  - intros s F r F' [= <- <-].
    assert (∀ p, filter (λ e, goes s e = false) F !! p = F !! p ∨
      filter (λ e, goes s e = false) F !! p = None ∧ ∃ e, F !! p = Some e ∧ goes s (p, e) = true) as Hl.
    { intros p. destruct (F !! p) as [e|] eqn:E; [|left; apply map_lookup_filter_None; by left].
      destruct (goes s (p, e)) eqn:Eg.
      - right. split; [|eauto]. apply map_lookup_filter_None. right. intros x Hx. congruence.
      - left. by apply map_lookup_filter_Some. }
    split.
    + intros [H0 Hp]. split.
      * destruct (Hl []) as [->|(_ & e & _ & Hg)]; [done|]. by unfold goes in Hg.
      * intros p Hs Hne. destruct (Hl p) as [E|[E _]]; [|rewrite E in Hs; by destruct Hs].
        rewrite E in Hs. pose proof (Hp p Hs Hne) as Hpar.
        destruct (Hl (parent p)) as [->|(_ & e & He & Hg)]; [done|]. exfalso. rewrite Hpar in He. injection He as <-.
        unfold goes in Hg. apply andb_true_iff in Hg as [_ Hg]. simpl in Hg. rewrite andb_false_r, orb_false_r in Hg.
        destruct Hs as [e He]. assert (goes s (p, e) = true) as Hgo.
        { unfold goes. simpl. apply andb_true_iff. split; [by apply negb_true_iff, eqb_false|].
          apply orb_true_iff. left. apply existsb_elem in Hg as (t & Ht & Hi). apply existsb_elem. exists t. split; [done|].
          eapply inside_trans; [exact Hi|]. by apply removelast_inside. }
        rewrite He in E. apply map_lookup_filter_Some in E as [_ E]. congruence.
    + intros p. destruct (Hl p) as [?|(? & e & He & Hg)]; [by left|right]. split; [done|].
      unfold goes in Hg. apply andb_true_iff in Hg as [_ Hg]. simpl in Hg. apply orb_true_iff in Hg as [Hg|Hg].
      * left. by apply existsb_elem in Hg.
      * apply andb_true_iff in Hg as [Hg%mem_true _]. by right; left.
Qed.

Definition sample_base : path := ["c"; "hub"; "models--o--m"].
Definition blob_link (name : string) : entry := Link false [".."; ".."; "blobs"; name].
Definition sample_files : tree := list_to_map
  [([], Dir); (["c"], Dir); (["c"; "hub"], Dir); (sample_base, Dir);
   (sample_base ++ ["blobs"], Dir); (sample_base ++ ["blobs"; "b1"], Reg "one");
   (sample_base ++ ["blobs"; "b2"], Reg "two"); (sample_base ++ ["blobs"; "shared"], Reg "both");
   (sample_base ++ ["snapshots"], Dir);
   (sample_base ++ ["snapshots"; "r1"], Dir); (sample_base ++ ["snapshots"; "r1"; "a"], blob_link "b1");
   (sample_base ++ ["snapshots"; "r1"; "s"], blob_link "shared");
   (sample_base ++ ["snapshots"; "r2"], Dir); (sample_base ++ ["snapshots"; "r2"; "a"], blob_link "b2");
   (sample_base ++ ["snapshots"; "r2"; "s"], blob_link "shared");
   (["c"; "hub"; "blobs"], Dir); (["c"; "hub"; "blobs"; "z"], Reg "stored");
   (sample_base ++ ["blobs"; "z"], Link false [".."; ".."; "blobs"; "z"]);
   (sample_base ++ ["snapshots"; "r1"; "z"], blob_link "z"); (sample_base ++ ["snapshots"; "r2"; "z"], blob_link "z")].
Definition sample_cache : cache := Cache sample_files [].
Definition sample_item (rev : string) : json :=
  JObj [("source", JStr "hf"); ("repository", JStr "o/m"); ("revision", JStr rev)].
Definition sample_run : result collection * cache :=
  collect_cache_items 40 ["c"] [sample_item "r1"] [sample_item "r2"] sample_cache.

Lemma closed_check F :
  eqb (F !! []) (Some Dir) && forallb (λ e, eqb e.1 [] || eqb (F !! parent e.1) (Some Dir)) (map_to_list F) = true →
  closed F.
Proof.
  intros [H0 Hall]%andb_true_iff. reflect_in H0. rewrite forallb_elem in Hall. split; [done|].
  intros p [e He] Hne. specialize (Hall (p, e)). rewrite elem_of_map_to_list in Hall. specialize (Hall He).
  simpl in Hall. apply orb_true_iff in Hall as [Hall|Hall]; by reflect_in Hall.
Qed.

Lemma refs_check links_max root F d :
  forallb (λ e, match e.2 with
                | Link _ _ => match resolve links_max F e.1 with Ok p => negb (inside d p) | Raise _ => true end
                | _ => true
                end) (map_to_list F) = true →
  ∀ q p, leads links_max root F q p → inside d p = false.
Proof.
  intros Hall q p ((a & t & Hq) & _ & Hp). rewrite forallb_elem in Hall. specialize (Hall (q, Link a t)).
  rewrite elem_of_map_to_list in Hall. specialize (Hall Hq). simpl in Hall. rewrite Hp in Hall. by apply negb_true_iff in Hall.
Qed.

Definition layout_ok (links_max : nat) (root : path) (F : tree) : bool :=
  forallb (λ e, match e.2 with
                | Link a t => negb (inside (hub_dir root) e.1) ||
                    forallb (λ x, eqb x e.1 ||
                      (eqb x (abspath (if a then [] else parent e.1) t) &&
                       match drop (length (hub_dir root)) x with
                       | [d; b; name] => negb (eqb d "blobs") && eqb b "blobs" && eqb x (hub_dir root ++ [d; "blobs"; name])
                                         && inside (hub_dir root ++ [d]) e.1
                       | _ => false
                       end)) (hops links_max F [] e.1)
                | _ => true
                end) (map_to_list F).
Lemma layout_check links_max root F : layout_ok links_max root F = true → hub_layout links_max root F.
Proof.
  intros Hall q a t x Hq Hi Hx. unfold layout_ok in Hall. rewrite forallb_elem in Hall. specialize (Hall (q, Link a t)).
  rewrite elem_of_map_to_list in Hall. specialize (Hall Hq). simpl in Hall. rewrite Hi in Hall. simpl in Hall.
  rewrite forallb_elem in Hall. specialize (Hall x Hx). apply orb_true_iff in Hall as [Hall|Hall]; [reflect_in Hall; by left|].
  right. apply andb_true_iff in Hall as [H1 H2]. reflect_in H1. split; [done|].
  destruct (drop _ x) as [|d [|b [|name [|? ?]]]] eqn:E; try done. reflect_in H2. destruct H2 as [[[Hd Hb] Hn] Hin].
  exists d, name. by rewrite inside_true.
Qed.

Lemma sample_blobs : resolved_blobs ["c"] "r1" sample_files.
Proof.
  intros repos repo t Hs Hin Ht. vm_compute in Hs. injection Hs as <-. apply list_elem_of_singleton in Hin as ->.
  vm_compute in Ht. apply elem_of_cons in Ht as [->|Ht]; [|apply list_elem_of_singleton in Ht as ->];
    intros a l; vm_compute; discriminate.
Qed.

Lemma collection_contained_witness :
  resolve 40 sample_files ["c"] = Ok ["c"] ∧ sample_run.1 = Returned (Collection [("hf", ("o/m", "r1"))] []
    ["hub/models--o--m/blobs/b1"; "hub/models--o--m/snapshots/r1"]) ∧
  files sample_run.2 !! [] = Some Dir.
Proof.
  split; [vm_compute; reflexivity|]. split; [vm_compute; reflexivity|].
  exact (collection_contained 40 ["c"] [sample_item "r1"] [sample_item "r2"] sample_cache [] eq_refl).
Defined.

Lemma live_artifacts_stay_witness :
  files sample_run.2 !! (sample_base ++ ["snapshots"; "r1"; "s"]) = None ∧
  files sample_run.2 !! (sample_base ++ ["snapshots"; "r2"; "s"]) = Some (blob_link "shared").
Proof.
  split; [vm_compute; reflexivity|].
  refine (live_artifacts_stay 40 ["c"] ["c"] [sample_item "r1"] [sample_item "r2"] [("hf", ("o/m", "r1"))]
    [("hf", ("o/m", "r2"))] ("hf", ("o/m", "r2")) sample_cache _ _ _ _ _ ["hub"; "models--o--m"; "snapshots"; "r2"] _ _ _).
  - vm_compute. reflexivity.
  - vm_compute. reflexivity.
  - vm_compute. reflexivity.
  - left.
  - intros k [->|[]%not_elem_of_nil]%elem_of_cons. vm_compute. reflexivity.
  - vm_compute. right. left.
  - vm_compute. reflexivity.
Defined.

(** The planner lists the shared blob, which the collection keeps; so does the blob that
    both snapshots reach through an entry of the repository's own blobs. *)
Lemma hub_payloads_stay_witness :
  let '(r, c') := hf_collect 40 ["c"] "o/m" "r1" ["r2"] sample_cache in
  (sample_base ++ ["blobs"; "shared"]) ∈ st_blobs (sample_plan (sample_repo ["c"; "hub"]) "r1") ∧ r = Returned tt ∧
  files c' !! (sample_base ++ ["blobs"; "b1"]) = None ∧
  (files c' !! (sample_base ++ ["blobs"; "shared"]) = Some (Reg "both") ∧
   resolve 40 (files c') (sample_base ++ ["snapshots"; "r2"; "s"]) = Ok (sample_base ++ ["blobs"; "shared"])) ∧
  (files c' !! ["c"; "hub"; "blobs"; "z"] = Some (Reg "stored") ∧
   resolve 40 (files c') (sample_base ++ ["snapshots"; "r2"; "z"]) = Ok ["c"; "hub"; "blobs"; "z"]).
Proof.
  pose proof (hub_payloads_stay 40 ["c"] "o/m" "r1" ["r2"] sample_cache
    ltac:(apply closed_check; vm_compute; reflexivity) ltac:(apply refs_check; vm_compute; reflexivity)
    ltac:(apply layout_check; vm_compute; reflexivity) sample_blobs) as Hstay.
  destruct (hf_collect 40 ["c"] "o/m" "r1" ["r2"] sample_cache) as [r c'] eqn:E.
  assert (r = Returned tt ∧ files c' !! (sample_base ++ ["blobs"; "b1"]) = None ∧
    is_Some (files c' !! (sample_base ++ ["snapshots"; "r2"; "s"])) ∧
    is_Some (files c' !! (sample_base ++ ["snapshots"; "r2"; "z"]))) as (-> & Hb & Hs & Hz).
  { vm_compute in E. injection E as <- <-. vm_compute. split; [reflexivity|]. split; [reflexivity|]. split; by eexists. }
  split; [vm_compute; right; left|]. split; [reflexivity|]. split; [exact Hb|]. split.
  - destruct (Hstay (sample_base ++ ["snapshots"; "r2"; "s"]) (sample_base ++ ["blobs"; "shared"])) as [[Ep Er]|[Hn _]];
      [|exact Hs|split; [etrans; [exact Ep|vm_compute; reflexivity]|exact Er]|by destruct (Hn tt)].
    split; [by exists false, [".."; ".."; "blobs"; "shared"]|]. split; vm_compute; reflexivity.
  - destruct (Hstay (sample_base ++ ["snapshots"; "r2"; "z"]) ["c"; "hub"; "blobs"; "z"]) as [[Ep Er]|[Hn _]];
      [|exact Hz|split; [etrans; [exact Ep|vm_compute; reflexivity]|exact Er]|by destruct (Hn tt)].
    split; [by exists false, [".."; ".."; "blobs"; "z"]|]. split; vm_compute; reflexivity.
Defined.

(** A candidate whose directory holds the peer snapshots of another repository: the
    revision [b] of the repository [a] is collected while [a/b] is live. *)
Example peer_directories_overlap :
  let item repository revision :=
    JObj [("source", JStr "hf"); ("repository", JStr repository); ("revision", JStr revision)] in
  let peer := ["c"; "distributed"; "hf"; "a"; "b"; "r"] in
  let F : tree := list_to_map [([], Dir); (["c"], Dir); (["c"; "distributed"], Dir); (["c"; "distributed"; "hf"], Dir);
    (["c"; "distributed"; "hf"; "a"], Dir); (["c"; "distributed"; "hf"; "a"; "b"], Dir); (peer, Dir)] in
  files (collect_cache_items 40 ["c"] [item "a" "b"] [item "a/b" "r"] (Cache F [])).2 !! peer = None.
Proof. vm_compute. reflexivity. Qed.
