(* ===== verification/Scalars.v ===== *)
(** * Kubernetes YAML values ([kubernetes/documents.py])

    How plain YAML scalars become JSON values with the rules of Go's YAML reader:
    booleans, null, integers of 64 bits, floats, timestamps, and everything else
    as text; tagged scalars; and mapping keys.  PyYAML's parser is outside the
    repository: its nodes are the input, with merge keys already flattened.
    Floats are exact rationals below the largest binary64. *)

From Stdlib Require Import Ascii.
From S2P Require Import Prelude Text.

(** ** Plain scalars *)

Inductive scalar :=
  | SBool (b : bool)
  | SNull
  | SInt (z : Z)
  | SFloat (x : flt)
  | SStr (s : string).

Definition kind_of (v : scalar) : string :=
  match v with
  | SBool _ => "bool"
  | SNull => "null"
  | SInt _ => "int"
  | SFloat _ => "float"
  | SStr _ => "str"
  end.

Definition trues : list string := ["y"; "Y"; "yes"; "Yes"; "YES"; "true"; "True"; "TRUE"; "on"; "On"; "ON"].
Definition falses : list string := ["n"; "N"; "no"; "No"; "NO"; "false"; "False"; "FALSE"; "off"; "Off"; "OFF"].
Definition nulls : list string := [""; "~"; "null"; "Null"; "NULL"].
Definition nonfinite (value : string) : option flt :=
  if mem value [".inf"; ".Inf"; ".INF"; "+.inf"; "+.Inf"; "+.INF"] then Some PosInf
  else if mem value ["-.inf"; "-.Inf"; "-.INF"] then Some NegInf
  else if mem value [".nan"; ".NaN"; ".NAN"] then Some NotANumber
  else None.

Definition head_in (chars s : string) : bool :=
  match s with EmptyString => false | String c _ => has_char c chars end.

(** [value.replace("_", "")] *)
Fixpoint drop_underscores (s : string) : string :=
  match s with
  | EmptyString => EmptyString
  | String c s => if Ascii.eqb c "_" then drop_underscores s else String c (drop_underscores s)
  end.

(** A leading sign: its factor, whether it is present, and the rest. *)
Definition read_sign (s : string) : Z * bool * string :=
  match s with
  | String "+" r => (1, true, r)
  | String "-" r => (-1, true, r)
  | _ => (1, false, s)
  end.

(** The value of a digit in a base up to sixteen. *)
Definition digit_in (base : Z) (c : ascii) : option Z :=
  let n := Z.of_nat (nat_of_ascii c) in
  let v := if (48 <=? n) && (n <=? 57) then n - 48
           else if (97 <=? n) && (n <=? 102) then n - 87
           else if (65 <=? n) && (n <=? 70) then n - 55
           else base in
  if v <? base then Some v else None.

(** All of [s] as digits. *)
Fixpoint read_base (base acc : Z) (s : string) : option Z :=
  match s with
  | EmptyString => Some acc
  | String c s => match digit_in base c with Some v => read_base base (acc * base + v) s | None => None end
  end.
(** At least one digit *)
Definition read_base1 (base : Z) (s : string) : option Z :=
  match s with EmptyString => None | _ => read_base base 0 s end.

(** [_integer], with the value [int(plain, base)] gives. *)
Definition read_unsigned (s : string) : option Z :=
  match s with
  | String "0" (String c r) =>
      if has_char c "bB" then read_base1 2 r
      else if has_char c "oO" then read_base1 8 r
      else if has_char c "xX" then read_base1 16 r
      else read_base 8 0 (String c r)
  | String "0" EmptyString => Some 0
  | EmptyString => None
  | _ => read_base 10 0 s
  end.
Definition read_integer (plain : string) : option Z :=
  let '(sign, _, r) := read_sign plain in (λ n, sign * n) <$> read_unsigned r.

(** The 64-bit ranges: any signed value, or an unsigned one without a sign. *)
Definition in_range (signed : bool) (n : Z) : bool :=
  ((- 2 ^ 63 <=? n) && (n <? 2 ^ 63)) || (negb signed && (0 <=? n) && (n <? 2 ^ 64)).

(** The longest prefix of digits: how many, their value, and the rest. *)
Fixpoint take_digits (count : nat) (acc : Z) (s : string) : nat * Z * string :=
  match s with
  | String c r =>
      match digit_value c with
      | Some v => take_digits (S count) (acc * 10 + v) r
      | None => (count, acc, s)
      end
  | EmptyString => (count, acc, s)
  end.

(** The exponent part: nothing, or [e] with an optional sign and digits. *)
Definition read_exponent (s : string) : option Z :=
  match s with
  | EmptyString => Some 0
  | String c r =>
      if has_char c "eE" then
        let '(sign, _, r) := read_sign r in
        let '(n, v, rest) := take_digits 0 0 r in
        if bool_decide (n = O) || nonempty rest then None else Some (sign * v)
      else None
  end.

(** [_decimal] and its value. *)
Definition read_decimal (plain : string) : option Q :=
  let '(sign, _, r) := read_sign plain in
  let '(n, v, r) := take_digits 0 0 r in
  let '(k, v, r) := match r with
                    | String "." r' => take_digits 0 v r'
                    | _ => (O, v, r)
                    end in
  if bool_decide (n = O) && bool_decide (k = O) then None else
  match read_exponent r with
  | Some e => Some (inject_Z (sign * v) * Qpower (10 # 1) (e - Z.of_nat k))%Q
  | None => None
  end.

(** Digits with single underscores between them, as after a leading point. *)
Fixpoint grouped (after_digit : bool) (s : string) : option string :=
  match s with
  | EmptyString => if after_digit then Some EmptyString else None
  | String c r =>
      if bool_decide (is_Some (digit_value c)) then String c <$> grouped true r
      else if Ascii.eqb c "_" && after_digit then
        match r with
        | String d _ => if bool_decide (is_Some (digit_value d)) then grouped false r else None
        | EmptyString => None
        end
      else None
  end.
Definition split_exponent (s : string) : string * option (string * string) :=
  match partition "e" s, partition "E" s with
  | Some (a, b), Some (a', b') =>
      if (String.length a <? String.length a')%nat then (a, Some ("e", b)) else (a', Some ("E", b'))
  | Some (a, b), None => (a, Some ("e", b))
  | None, Some (a, b) => (a, Some ("E", b))
  | None, None => (s, None)
  end.
(** [_dot_float]: the literal without underscores, read as a decimal. *)
Definition read_dot_float (s : string) : option Q :=
  match s with
  | String "." r =>
      let '(m, e) := split_exponent r in
      match grouped false m, e with
      | Some m', None => read_decimal (String "." m')
      | Some m', Some (c, x) =>
          let '(_, signed, digits) := read_sign x in
          match grouped false digits with
          | Some d => read_decimal (String "." (m' +:+ c +:+
                        (if (signed : bool) then String.substring 0 1 x else "") +:+ d))
          | None => None
          end
      | None, _ => None
      end
  | _ => None
  end.

(** Above this a decimal rounds to infinity. *)
Definition float_limit : Q := inject_Z (2 ^ 1024 - 2 ^ 970).
Definition finite_float (q : Q) : bool :=
  negb (Qle_bool float_limit q) && negb (Qle_bool q (- float_limit)%Q).

(** The legacy binary prefix, after integers and decimals. *)
Definition read_legacy_binary (plain value : string) : scalar :=
  let binary := if startswith "0b" plain then Some (drop_chars 2 plain)
                else if startswith "-0b" plain then Some ("-" +:+ drop_chars 3 plain)
                else None in
  match binary with
  | None => SStr value
  | Some b =>
      let '(sign, signed, r) := read_sign b in
      match read_base1 2 r with
      | Some n => if in_range signed (sign * n) then SInt (sign * n) else SStr value
      | None => SStr value
      end
  end.

(** [_scalar_value] *)
Definition scalar_value (value : string) : scalar :=
  if mem value trues then SBool true
  else if mem value falses then SBool false
  else if mem value nulls then SNull
  else match nonfinite value with
  | Some x => SFloat x
  | None =>
      if negb (head_in "+-.0123456789" value) then SStr value else
      let plain := if head_in "." value then value else drop_underscores value in
      let rest :=
        match (if head_in "." value then read_dot_float plain else read_decimal plain) with
        | Some q => if finite_float q then SFloat (Fin q) else read_legacy_binary plain value
        | None => read_legacy_binary plain value
        end in
      match read_integer plain with
      | Some n => if in_range (head_in "+-" plain) n then SInt n else rest
      | None => rest
      end
  end.

(** ** Timestamps *)

Definition is_leap (y : Z) : bool :=
  ((y mod 4 =? 0) && negb (y mod 100 =? 0)) || (y mod 400 =? 0).
(** [calendar.monthrange(year, month)[1]] *)
Definition month_days (y m : Z) : Z :=
  if m =? 2 then (if is_leap y then 29 else 28)
  else if mem m [4; 6; 9; 11] then 30 else 31.

(** Between one and two digits, and exactly [n]. *)
Definition two_digits (s : string) : option (Z * string) :=
  match s with
  | String c r =>
      match digit_value c with
      | None => None
      | Some v => match r with
                  | String d r' => match digit_value d with
                                   | Some w => Some (v * 10 + w, r')
                                   | None => Some (v, r)
                                   end
                  | EmptyString => Some (v, r)
                  end
      end
  | EmptyString => None
  end.
Fixpoint exact_digits (n : nat) (acc : Z) (s : string) : option (Z * string) :=
  match n, s with
  | O, _ => Some (acc, s)
  | S n, String c r => match digit_value c with Some v => exact_digits n (acc * 10 + v) r | None => None end
  | S _, EmptyString => None
  end.
Definition expect (c : ascii) (s : string) : option string :=
  match s with String d r => if Ascii.eqb d c then Some r else None | EmptyString => None end.

(** The separator: [T] or [t], or spaces; whether it is a letter. *)
Fixpoint drop_spaces (s : string) : string :=
  match s with String " " r => drop_spaces r | _ => s end.
Definition read_separator (s : string) : option (bool * string) :=
  match s with
  | String c r =>
      if has_char c "Tt" then Some (true, r)
      else if Ascii.eqb c " " then Some (false, drop_spaces r) else None
  | EmptyString => None
  end.
Definition read_fraction (s : string) : option string :=
  match s with
  | String c r =>
      if has_char c ".," then
        let '(n, _, rest) := take_digits 0 0 r in if bool_decide (n = O) then None else Some rest
      else Some s
  | EmptyString => Some s
  end.
(** Nothing, [Z], or an offset; the result says whether a zone is present and its
    hours and minutes. *)
Definition read_zone (s : string) : option (bool * option (Z * Z)) :=
  match s with
  | EmptyString => Some (false, None)
  | String "Z" EmptyString => Some (true, None)
  | String c r =>
      if has_char c "+-" then
        '(h, r) ← exact_digits 2 0 r;
        r ← expect ":" r;
        '(m, r) ← exact_digits 2 0 r;
        if nonempty r then None else Some (true, Some (h, m))
      else None
  end.

(** [_valid_timestamp] *)
Definition valid_timestamp (value : string) : bool :=
  match ('(year, r) ← exact_digits 4 0 value;
         r ← expect "-" r;
         '(month, r) ← two_digits r;
         r ← expect "-" r;
         '(day, r) ← two_digits r;
         if negb (nonempty r) then Some (year, month, day, None) else
         '(letter, r) ← read_separator r;
         '(hour, r) ← two_digits r;
         r ← expect ":" r;
         '(minute, r) ← two_digits r;
         r ← expect ":" r;
         '(second, r) ← two_digits r;
         r ← read_fraction r;
         '(zoned, zone) ← read_zone r;
         Some (year, month, day, Some (letter, (hour, minute, second), zoned, zone))) with
  | None => false
  | Some (year, month, day, time) =>
      if negb ((1 <=? month) && (month <=? 12) && (1 <=? day) && (day <=? month_days year month)) then false
      else match time with
      | None => true
      | Some (letter, (hour, minute, second), zoned, zone) =>
          if negb (Bool.eqb letter zoned) then false
          else if (24 <=? hour) || (60 <=? minute) || (60 <=? second) then false
          else match zone with
               | None => true
               | Some (h, m) => (h <=? 24) && (m <=? 60)
               end
      end
  end.

(** ** Tagged scalars and documents *)

Definition YAML : string := "tag:yaml.org,2002:".
Definition scalar_tags : list string :=
  (λ k, YAML +:+ k) <$> ["bool"; "null"; "int"; "float"; "timestamp"; "binary"].

(** [resolve] of a plain scalar *)
Definition resolve (value : string) : string := YAML +:+ kind_of (scalar_value value).

Definition json_of (v : scalar) : json :=
  match v with
  | SBool b => JBool b
  | SNull => JNull
  | SInt z => JInt z
  | SFloat x => JFloat x
  | SStr s => JStr s
  end.

(** YAML nodes. *)
Inductive node :=
  | Scalar (tag value : string)
  | Sequence (items : list node)
  | Mapping (entries : list (node * node)).

Section Construct.
(** Base64 payloads as text, and Go's text of a float key. *)
Variable binary_text : string → option string.
Variable float_key : flt → string.

(** [node.tag.rsplit(":", 1)[-1]] *)
Definition tag_kind (tag : string) : string :=
  match rpartition ":" tag with Some (_, k) => k | None => tag end.

(** [_construct_scalar] *)
Definition construct_scalar (tag value : string) (key : bool) : outcome json :=
  let expected := tag_kind tag in
  let mismatch := Raise (ValueError "cannot decode") in
  if eqb expected "binary" then
    match binary_text value with
    | Some s => Ok (JStr s)
    | None => Raise (ValueError "invalid base64 scalar")
    end
  else if eqb expected "timestamp" then
    if valid_timestamp value then Ok (JStr value) else mismatch
  else
    let v := match scalar_value value with
             | SInt n => if eqb expected "float" && (- 2 ^ 63 <=? n) && (n <? 2 ^ 63)
                         then SFloat (Fin (inject_Z n)) else SInt n
             | v => v
             end in
    if eqb (kind_of v) expected then
      match v with
      | SFloat x => if key || isfinite x then Ok (JFloat x)
                    else Raise (ValueError "non-finite numbers cannot be Kubernetes JSON values")
      | _ => Ok (json_of v)
      end
    else mismatch.

(** A scalar node: core tags are decoded, all other tags are text. *)
Definition construct_leaf (tag value : string) (key : bool) : outcome json :=
  if mem tag scalar_tags then construct_scalar tag value key else Ok (JStr value).

(** The text of a mapping key. *)
Definition mapping_key (key : json) : outcome string :=
  match key with
  | JBool b => Ok (if b then "true" else "false")
  | JInt n => if n <? 2 ^ 63 then Ok (str_Z n) else Raise (ValueError "unsupported Kubernetes JSON object key")
  | JFloat x => Ok (float_key x)
  | JStr s => Ok s
  | _ => Raise (ValueError "unsupported Kubernetes JSON object key")
  end.

(** [construct_object] and [construct_mapping] *)
Fixpoint construct (n : node) : outcome json :=
  match n with
  | Scalar tag value => construct_leaf tag value false
  | Sequence items =>
      (fix go items := match items with
       | [] => Ok (JArr [])
       | x :: items => y ← construct x; r ← go items;
                       match r with JArr ys => Ok (JArr (y :: ys)) | _ => Ok r end
       end) items
  | Mapping entries =>
      (fix go acc entries := match entries with
       | [] => Ok (JObj acc)
       | (k, v) :: entries =>
           match k with
           | Scalar tag value =>
               key ← construct_leaf tag value true;
               k ← mapping_key key;
               v ← construct v;
               go (dset k v acc) entries
           | _ => Raise (ValueError "Kubernetes JSON object keys must be scalars")
           end
       end) [] entries
  end.

(** [decode_resources]: the documents of a stream that are not null *)
Definition decode_resources (documents : list node) : outcome (list json) :=
  values ← outcome_map construct documents;
  Ok (keep (λ v, match v with JNull => false | _ => true end) values).
End Construct.

(** ** Properties *)

(** ** Integers are in range *)

Lemma in_range_bounds signed n : in_range signed n = true → - 2 ^ 63 ≤ n < 2 ^ 64.
Proof. unfold in_range. rewrite orb_true_iff, !andb_true_iff, !Z.leb_le, !Z.ltb_lt. lia. Qed.

Lemma legacy_binary_range plain value n : read_legacy_binary plain value = SInt n → - 2 ^ 63 ≤ n < 2 ^ 64.
Proof.
  unfold read_legacy_binary. destruct (if startswith "0b" plain then _ else _) as [b|]; [|done].
  destruct (read_sign b) as [[sign signed] r]. destruct (read_base1 2 r) as [k|]; [|done].
  destruct (in_range signed (sign * k)) eqn:E; [|done]. intros [= <-]. by eapply in_range_bounds.
Qed.

Lemma scalar_value_range value n : scalar_value value = SInt n → - 2 ^ 63 ≤ n < 2 ^ 64.
Proof.
  unfold scalar_value. destruct (mem value trues); [done|]. destruct (mem value falses); [done|].
  destruct (mem value nulls); [done|]. destruct (nonfinite value); [done|].
  destruct (negb (head_in "+-.0123456789" value)); [done|].
  set (plain := if head_in "." value then value else drop_underscores value).
  set (decimal := if head_in "." value then read_dot_float plain else read_decimal plain).
  assert (∀ n, match decimal with
    | Some q => if finite_float q then SFloat (Fin q) else read_legacy_binary plain value
    | None => read_legacy_binary plain value end = SInt n → - 2 ^ 63 ≤ n < 2 ^ 64) as Hrest.
  { intros k. destruct decimal as [q|]; [destruct (finite_float q); [done|]|]; apply legacy_binary_range. }
  destruct (read_integer plain) as [k|]; [|apply Hrest].
  destruct (in_range (head_in "+-" plain) k) eqn:E; [|apply Hrest].
  intros [= <-]. by eapply in_range_bounds.
Qed.

(** ** Printed integers *)

Lemma digit_in_10 c v : digit_value c = Some v → digit_in 10 c = Some v.
Proof.
  unfold digit_value, digit_in. set (n := Z.of_nat (nat_of_ascii c)).
  destruct ((48 <=? n) && (n <=? 57)) eqn:E; [|done]. intros [= <-].
  rewrite andb_true_iff, !Z.leb_le in E. destruct (Z.ltb_spec (n - 48) 10); [done|lia].
Qed.

Lemma read_base_digits acc s : all_digits s = true → read_base 10 acc s = read_digits acc true s.
Proof.
  revert acc. induction s as [|c s IH]; intros acc; [done|]. intros [Hc Hs]%andb_true_iff.
  apply bool_decide_eq_true in Hc as [v Hv]. simpl. rewrite Hv, (digit_in_10 c v Hv). by apply IH.
Qed.

(** A positive number does not start with a zero. *)
Lemma pretty_N_go_head x s : (0 < x)%N →
  ∃ c t, pretty_N_go x s = String c t ∧ is_Some (digit_value c) ∧ c ≠ "0"%char.
Proof.
  revert s. induction (N.lt_wf_0 x) as [x _ IH]. intros s Hx. rewrite pretty_N_go_step by done.
  destruct (decide (x `div` 10 = 0)%N) as [E|E].
  - rewrite E, pretty_N_go_0. exists (pretty_N_char (x `mod` 10)), s. split; [done|].
    pose proof (N.div_mod x 10 ltac:(lia)) as Hdm.
    pose proof (digit_value_pretty (x `mod` 10) ltac:(apply N.mod_lt; lia)) as Hd.
    split; [by eexists|]. intros Ec. rewrite Ec in Hd.
    assert (Some 0 = Some (Z.of_N (x `mod` 10))) as [= Hz] by exact Hd. lia.
  - apply IH; [apply N.div_lt; lia|by apply N.neq_0_lt_0].
Qed.

Lemma pretty_pos_head p : ∃ c t, pretty (N.pos p) = String c t ∧ is_Some (digit_value c) ∧ c ≠ "0"%char.
Proof. unfold pretty, pretty_N. case_decide; [done|]. by apply pretty_N_go_head. Qed.

(** Facts about a digit, by cases on its eight bits. *)
Definition digit_facts (c : ascii) : bool :=
  negb (bool_decide (is_Some (digit_value c))) ||
  (has_char c "+-.0123456789" && negb (Ascii.eqb c "_") && negb (Ascii.eqb c ".") &&
   negb (Ascii.eqb c "+") && negb (Ascii.eqb c "-")).
Lemma digit_facts_true c : digit_facts c = true.
Proof. by destruct c as [[] [] [] [] [] [] [] []]. Qed.

Lemma digit_is c : is_Some (digit_value c) →
  has_char c "+-.0123456789" = true ∧ c ≠ "_"%char ∧ c ≠ "."%char ∧ c ≠ "+"%char ∧ c ≠ "-"%char.
Proof.
  intros Hc. pose proof (digit_facts_true c) as Hf. unfold digit_facts in Hf.
  rewrite bool_decide_eq_true_2 in Hf by done. simpl in Hf.
  rewrite !andb_true_iff, !negb_true_iff, !Ascii.eqb_neq in Hf. tauto.
Qed.

Lemma drop_underscores_digits s : all_digits s = true → drop_underscores s = s.
Proof.
  induction s as [|c s IH]; [done|]. intros [Hc Hs]%andb_true_iff. apply bool_decide_eq_true in Hc.
  destruct (digit_is c Hc) as (_ & Hu & _). simpl. apply Ascii.eqb_neq in Hu. by rewrite Hu, IH.
Qed.

Lemma read_sign_digit c t : is_Some (digit_value c) → read_sign (String c t) = (1, false, String c t).
Proof.
  intros Hc. destruct (digit_is c Hc) as (_ & _ & _ & Hp & Hm).
  destruct c as [[] [] [] [] [] [] [] []]; try reflexivity; congruence.
Qed.

Lemma read_unsigned_pos p : read_unsigned (pretty (N.pos p)) = Some (Z.pos p).
Proof.
  destruct (pretty_pos_head p) as (c & t & E & Hc & H0).
  destruct (pretty_N_digits (N.pos p)) as [Ha Hr]. rewrite E in *.
  assert (read_unsigned (String c t) = read_base 10 0 (String c t)) as ->.
  { destruct c as [[] [] [] [] [] [] [] []]; try reflexivity; congruence. }
  rewrite read_base_digits by done. destruct Hc as [v Hv]. simpl in *. by rewrite Hv in *.
Qed.

(** None of the words looks like a number. *)
Definition numeric_head (s : string) : bool :=
  match s with
  | EmptyString => false
  | String c r => bool_decide (is_Some (digit_value c)) ||
      (Ascii.eqb c "-" && match r with EmptyString => false | String d _ => bool_decide (is_Some (digit_value d)) end)
  end.
Lemma numeric_not_word s l : numeric_head s = true → forallb (λ w, negb (numeric_head w)) l = true →
  mem s l = false.
Proof.
  intros Hs Hl. apply mem_false. intros Hin. rewrite forallb_forall in Hl.
  specialize (Hl s (proj1 (list_elem_of_In _ _) Hin)). by rewrite Hs in Hl.
Qed.

(** The classification of a numeric text that reads as an integer in range. *)
Lemma scalar_value_integer s n : numeric_head s = true → head_in "+-.0123456789" s = true →
  head_in "." s = false → drop_underscores s = s → read_integer s = Some n →
  in_range (head_in "+-" s) n = true → scalar_value s = SInt n.
Proof.
  intros Hn Hh Hd Hu Hi Hr. unfold scalar_value, nonfinite.
  rewrite !(numeric_not_word s) by done. by rewrite Hh, Hd, Hu, Hi, Hr.
Qed.

Lemma scalar_value_str n : - 2 ^ 63 ≤ n < 2 ^ 64 → scalar_value (str_Z n) = SInt n.
Proof.
  intros Hn. destruct n as [|p|p]; [done|..].
  - change (str_Z (Z.pos p)) with (pretty (N.pos p)).
    pose proof (proj1 (pretty_N_digits (N.pos p))) as Ha. pose proof (read_unsigned_pos p) as Hr.
    destruct (pretty_pos_head p) as (c & t & E & Hc & _). rewrite E in *.
    destruct (digit_is c Hc) as (H1 & H2 & H3 & H4 & H5).
    apply Ascii.eqb_neq in H3, H4, H5. apply scalar_value_integer.
    + simpl. by rewrite bool_decide_eq_true_2.
    + exact H1.
    + cbn [head_in has_char]. rewrite Ascii.eqb_sym in H3. by rewrite H3.
    + by apply drop_underscores_digits.
    + unfold read_integer. rewrite read_sign_digit, Hr by done. done.
    + cbn [head_in has_char]. rewrite Ascii.eqb_sym in H4, H5. rewrite H4, H5. unfold in_range.
      simpl. apply orb_true_iff. right. destruct (Z.ltb_spec (Z.pos p) (2 ^ 64)); [done|lia].
  - change (str_Z (Z.neg p)) with (String "-" (pretty (N.pos p))).
    pose proof (proj1 (pretty_N_digits (N.pos p))) as Ha. pose proof (read_unsigned_pos p) as Hr.
    destruct (pretty_pos_head p) as (c & t & E & Hc & _). rewrite E in *. apply scalar_value_integer.
    + simpl. by rewrite bool_decide_eq_true_2.
    + done.
    + done.
    + change (drop_underscores (String "-" (String c t))) with (String "-" (drop_underscores (String c t))).
      by rewrite drop_underscores_digits.
    + unfold read_integer. cbn [read_sign]. by rewrite Hr.
    + unfold in_range. apply orb_true_iff. left. apply andb_true_iff. rewrite Z.leb_le, Z.ltb_lt. lia.
Qed.

(** ** Resolving and constructing *)

Lemma tag_kind_resolve value : tag_kind (resolve value) = kind_of (scalar_value value).
Proof. unfold resolve. by destruct (scalar_value value). Qed.

Section Roundtrip.
Variable binary_text : string → option string.

(** Integers keep their width.  Every integer of the signed or unsigned
    64-bit range that is printed, resolved as a plain scalar and constructed is
    the same integer, and whatever a plain scalar says, an integer that comes out
    lies in these ranges. *)
Theorem plain_integers_roundtrip n value :
  (- 2 ^ 63 ≤ n < 2 ^ 64 →
   construct_leaf binary_text (resolve (str_Z n)) (str_Z n) false = Ok (JInt n)) ∧
  (construct_leaf binary_text (resolve value) value false = Ok (JInt n) → - 2 ^ 63 ≤ n < 2 ^ 64).
Proof.
  split.
  - intros Hn. unfold construct_leaf, construct_scalar. rewrite tag_kind_resolve. unfold resolve.
    by rewrite scalar_value_str.
  - unfold construct_leaf, construct_scalar. rewrite tag_kind_resolve.
    destruct (mem (resolve value) scalar_tags); [|done].
    destruct (scalar_value value) as [b| |z|x|s] eqn:E; simpl; try done.
    + intros [= <-]. by apply (scalar_value_range value).
    + by destruct (isfinite x).
Qed.
End Roundtrip.

Lemma plain_integers_roundtrip_witness :
  construct_leaf (λ _, None) (resolve (str_Z (-42))) (str_Z (-42)) false = Ok (JInt (-42)).
Proof. apply (plain_integers_roundtrip (λ _, None) (-42) ""). lia. Defined.
