(* ===== verification/Traces.v ===== *)
(** * Arrival traces and their replay
    ([datasets/traces.py], [datasets/conversations.py], [runs/scheduling.py])

    Parsing StudyChat and Mooncake rows, selecting a time window, and admitting
    episodes on one clock under a concurrency and a duration limit.  Rows are
    JSON values; the clock, the random gaps and the completion of requests are
    inputs of the scheduler. *)

From Stdlib Require Import Ascii Qminmax.
From S2P Require Import Prelude Text Kube Scalars Measurements BenchConfig.

(** ** [float(x)] of JSON values *)

(** Underscores stand between digits. *)
Fixpoint underscores_ok (after_digit : bool) (s : string) : bool :=
  match s with
  | EmptyString => true
  | String c r =>
      if Ascii.eqb c "_" then
        after_digit && match r with
                       | String d _ => bool_decide (is_Some (digit_value d))
                       | EmptyString => false
                       end && underscores_ok false r
      else underscores_ok (bool_decide (is_Some (digit_value c))) r
  end.

Definition py_float (text : string) : option flt :=
  let s := lower (strip text) in
  if mem s ["inf"; "+inf"; "infinity"; "+infinity"] then Some PosInf
  else if mem s ["-inf"; "-infinity"] then Some NegInf
  else if mem s ["nan"; "+nan"; "-nan"] then Some NotANumber
  else if negb (underscores_ok false s) then None
  else match read_decimal (drop_underscores s) with
       | None => None
       | Some q => if finite_float q then Some (Fin q)
                   else Some (if Qle_bool 0 q then PosInf else NegInf)
       end.

Definition float_of (j : json) : outcome flt :=
  match j with
  | JInt z => if finite_float (inject_Z z) then Ok (Fin (inject_Z z)) else Raise OverflowError
  | JBool b => Ok (Fin (if b then 1 else 0)%Q)
  | JFloat x => Ok x
  | JStr s => match py_float s with Some x => Ok x | None => Raise (ValueError "could not convert string to float") end
  | _ => Raise (TypeError "float() argument")
  end.

(** [try: ... except (TypeError, ValueError): raise ValueError(message)] *)
Definition or_value_error {A} (message : string) (r : outcome A) : outcome A :=
  match r with
  | Raise (TypeError _) | Raise (ValueError _) => Raise (ValueError message)
  | r => r
  end.

(** ** Requests of a row *)

Record Turn := MkTurn {
  role : string;
  content : json;
  extra : list (string * json);
}.
Record Task := MkTask {
  task_id : string;
  turns : list Turn;
  task_metadata : list (string * json);
}.

Definition is_list (j : json) : bool := match j with JArr _ => true | _ => false end.

Section Rows.
Context `{PythonRepr}.

(** The place of a row, [f"{dataset_path}:{line_number}"]. *)
Variable dataset_path : string.
Definition at_line (line : Z) : string := " at " +:+ dataset_path +:+ ":" +:+ str_Z line.

(** [parse_message_turns] *)
Definition parse_message (line : Z) (indexed : nat * json) : outcome Turn :=
  let invalid := Raise (ValueError ("Invalid message " +:+ str_Z (Z.of_nat indexed.1) +:+ at_line line)) in
  match indexed.2 with
  | JObj m =>
      match dget "role" m with
      | None => invalid
      | Some r =>
          if negb (dmem "content" m) && negb (truthy (default JNull (dget "tool_calls" m))) then invalid
          else Ok (MkTurn (str_of r) (default JNull (dget "content" m))
                     (keep (λ e, negb (mem e.1 ["role"; "content"])) m))
      end
  | _ => invalid
  end.
Definition parse_message_turns (messages : json) (line : Z) : outcome (list Turn) :=
  match messages with
  | JArr (x :: l) => outcome_map (parse_message line) (imap pair (x :: l))
  | _ => Raise (ValueError ("Invalid messages" +:+ at_line line))
  end.

(** [isinstance(v, int) and not isinstance(v, bool)] *)
Definition plain_int (j : json) : option Z := match j with JInt z => Some z | _ => None end.

(** [request_row_metadata] *)
Definition request_row_metadata (row : json) (line : Z) : outcome (list (string * json)) :=
  match row with
  | JObj m =>
      let controls := omap (λ k, (λ v, (k, v)) <$> dget k m)
                        ["tool_choice"; "parallel_tool_calls"; "model"; "priority"; "request_class"] in
      let tools := default JNull (dget "tools" m) in
      let metadata := if truthy tools then dset "tools" tools controls else controls in
      metadata ← match dget "output_length" m with
                 | None => Ok metadata
                 | Some v =>
                     match plain_int v with
                     | Some n => if n <=? 0
                                 then Raise (ValueError ("output_length must be a positive integer" +:+ at_line line))
                                 else Ok (dset "output_length" v metadata)
                     | None => Raise (ValueError ("output_length must be a positive integer" +:+ at_line line))
                     end
                 end;
      let label (k : string) : outcome unit :=
        match dget k metadata with
        | None => Ok tt
        | Some (JStr s) => if nonempty (strip s) then Ok tt
                           else Raise (ValueError (k +:+ " must be a non-empty string" +:+ at_line line))
        | Some _ => Raise (ValueError (k +:+ " must be a non-empty string" +:+ at_line line))
        end in
      label "model" ;; label "request_class" ;;
      match dget "priority" metadata with
      | Some v => match plain_int v with
                  | Some _ => Ok metadata
                  | None => Raise (ValueError ("priority must be an integer" +:+ at_line line))
                  end
      | None => Ok metadata
      end
  | _ => Ok []
  end.

(** ** Events *)

Record ArrivalTraceEvent := MkEvent {
  timestamp_seconds : Q;
  source_row_index : Z;
  event_request : option Task;
  event_input_tokens : option Z;
  hash_ids : option (list Z);
  event_conversation : option string;
  event_metadata : option (list (string * json));
}.

(** [math.isfinite(x)] and the value in seconds *)
Definition seconds_of (x : flt) : option Q := match x with Fin q => Some (q / 1000)%Q | _ => None end.

(** [_parse_studychat_event] *)
Definition parse_studychat_event (row : json) (line source : Z) : outcome ArrivalTraceEvent :=
  match row with
  | JObj m =>
      let missing := keep (λ k, negb (dmem k m)) ["timestamp"; "chatId"; "messages"] in
      if negb (bool_decide (missing = [])) then
        Raise (ValueError ("Missing " +:+ join ", " missing +:+ at_line line))
      else
      ts ← or_value_error ("Invalid timestamp" +:+ at_line line)
             (float_of (default JNull (dget "timestamp" m)));
      match seconds_of ts with
      | None => Raise (ValueError ("Timestamp must be finite" +:+ at_line line))
      | Some seconds =>
          let chat := default JNull (dget "chatId" m) in
          if is_none chat || negb (nonempty (str_of chat)) then
            Raise (ValueError ("Empty chatId" +:+ at_line line))
          else
          ts ← parse_message_turns (default JNull (dget "messages" m)) line;
          tokens ← match default JNull (dget "input_length" m) with
                   | JNull => Ok None
                   | v => n ← or_value_error ("Invalid input_length" +:+ at_line line) (int_of v);
                          if n <=? 0 then Raise (ValueError ("Invalid input_length" +:+ at_line line))
                          else Ok (Some n)
                   end;
          metadata ← request_row_metadata row line;
          Ok (MkEvent seconds source
                (Some (MkTask (dataset_path +:+ ":" +:+ str_Z source) ts metadata))
                tokens None (Some (str_of chat)) None)
      end
  | _ => Raise (ValueError ("Expected an object" +:+ at_line line))
  end.

(** The hash identifiers: absent, or a list of naturals. *)
Definition parse_hash_ids (j : json) : option (option (list Z)) :=
  match j with
  | JNull => Some None
  | JArr l =>
      (λ ids, Some ids) <$>
      mapM (λ x, match plain_int x with Some n => if n <? 0 then None else Some n | None => None end) l
  | _ => None
  end.

(** [_parse_mooncake_event] *)
Definition parse_mooncake_event (row : json) (line source : Z) : outcome ArrivalTraceEvent :=
  match row with
  | JObj m =>
      let bad := "Invalid timestamp or input_length" +:+ at_line line in
      match dget "timestamp" m, dget "input_length" m with
      | Some t, Some n =>
          ts ← or_value_error bad (float_of t);
          tokens ← or_value_error bad (int_of n);
          match seconds_of ts with
          | None => Raise (ValueError bad)
          | Some seconds =>
              if tokens <=? 0 then Raise (ValueError bad) else
              match parse_hash_ids (default JNull (dget "hash_ids" m)) with
              | None => Raise (ValueError ("Invalid hash_ids" +:+ at_line line))
              | Some ids =>
                  metadata ← request_row_metadata row line;
                  let chat := default JNull (dget "chatId" m) in
                  Ok (MkEvent seconds source None (Some tokens) ids
                        (if is_none chat then None else Some (str_of chat)) (Some metadata))
              end
          end
      | _, _ => Raise (ValueError ("Mooncake trace needs timestamp and input_length" +:+ at_line line))
      end
  | _ => Raise (ValueError ("Expected an object" +:+ at_line line))
  end.

(** ** Formats and windows *)

Inductive trace_format := StudyChat | Mooncake.
#[export] Instance trace_format_eq_dec : EqDecision trace_format.
Proof. solve_decision. Defined.

(** [_detect_format] *)
Definition detect_format (row : json) : outcome trace_format :=
  match row with
  | JObj m =>
      if forallb (λ k, dmem k m) ["timestamp"; "chatId"; "messages"] then Ok StudyChat
      else if forallb (λ k, dmem k m) ["timestamp"; "input_length"] then Ok Mooncake
      else Raise (ValueError "Cannot detect trace format")
  | _ => Raise (ValueError "Cannot detect trace format")
  end.

Definition parse_row (f : trace_format) (row : json) (line source : Z) : outcome ArrivalTraceEvent :=
  match f with
  | StudyChat => parse_studychat_event row line source
  | Mooncake => parse_mooncake_event row line source
  end.

(** [_iter_events]: the format of the first row is used for all, and must be the
    one of an earlier pass.  Rows carry their line and source index. *)
Definition iter_events (known : option trace_format) (rows : list (Z * Z * json))
    : outcome (option trace_format * list ArrivalTraceEvent) :=
  match rows with
  | [] => Ok (known, [])
  | (_, _, first) :: _ =>
      f ← detect_format first;
      if match known with Some k => negb (eqb k f) | None => false end
      then Raise (ValueError "Trace format changed between reads")
      else events ← outcome_map (λ r : Z * Z * json, parse_row f r.2 r.1.1 r.1.2) rows;
           Ok (Some f, events)
  end.

Definition by_time (a b : ArrivalTraceEvent) : bool := Qle_bool (timestamp_seconds a) (timestamp_seconds b).
Definition in_window (start : Q) (end_ : option Q) (e : ArrivalTraceEvent) : bool :=
  Qle_bool start (timestamp_seconds e) &&
  match end_ with None => true | Some w => negb (Qle_bool w (timestamp_seconds e)) end.

(** [read_window]: the file is read twice, [rows] and then [rows']. *)
Definition read_window (rows rows' : list (Z * Z * json)) (start_offset : Q) (duration : option Q)
    : outcome (Q * list ArrivalTraceEvent) :=
  first_pass ← iter_events None rows;
  match timestamp_seconds <$> first_pass.2 with
  | [] => Raise (ValueError "Trace contains no requests")
  | t :: ts =>
      let window_start := (foldl Qmin t ts + start_offset)%Q in
      let window_end := (λ d, window_start + d)%Q <$> duration in
      second_pass ← iter_events first_pass.1 rows';
      match keep (in_window window_start window_end) second_pass.2 with
      | [] => Raise (ValueError "Trace window contains no requests")
      | selected => Ok (window_start, isort by_time selected)
      end
  end.
End Rows.
