(* ===== verification/Schedule.v ===== *)
(** * Admitting request episodes ([runs/scheduling.py])

    The loop of [run_schedule]: arrival offsets, the duration limit, the sleep until the scheduled
    time, the wait for a free place, admission, and the ordered results.  The clock, asyncio and the random
    generator are the class [Asyncio]; seconds are rationals. *)

From Stdlib Require Import Ascii Qminmax.
From S2P Require Import Prelude Text BenchConfig.

(** The limits of a load, with the values [validate_load] accepts: a rate that is
    not positive means no spacing, zero concurrency means no limit. *)
Record limits := Limits {
  rate : Q;
  pattern : string;
  bursts : Q;
  concurrency : Z;
  duration : option Q;
}.
Definition finite_or (default : Q) (x : flt) : Q := match x with Fin q => q | _ => default end.
Definition limits_of (l : HttpLoadSchedule) : limits :=
  Limits (finite_or 0 (arrival_rate l)) (arrival_pattern l) (finite_or 1 (burstiness l)) (default 0 (max_concurrency l))
    (match load_duration l with Some (Fin q) => Some q | _ => None end).

(** What the loop runs on.  [clock] is [time.perf_counter()], and [tick] is the time that passes until the next
    statement.  [sleep] and [wait] are [asyncio.sleep] and [asyncio.wait] with [FIRST_COMPLETED]: they return the
    tasks that are done in the meantime, or nothing when the task group is cancelled because a request failed.
    [gamma] is [rng.gamma]. *)
Class Asyncio (E : Type) := {
  clock : E → Q;
  tick : E → E;
  sleep : Q → list nat → E → option (list nat) * E;
  wait : option Q → list nat → E → option (list nat) * E;
  gamma : Q → Q → E → Q * E;
}.
(** Their documented behaviour: the clock does not go back, a sleep lasts at least its delay, a wait for running tasks
    returns when one of them is done or its timeout has passed, and a gamma variate is not negative. *)
Class AsyncioLaws (E : Type) `{Asyncio E} := {
  tick_forward : ∀ e, (clock e <= clock (tick e))%Q;
  sleep_lasts : ∀ d running e done_ e', (0 < d)%Q → sleep d running e = (Some done_, e') → (clock e + d <= clock e')%Q;
  wait_forward : ∀ timeout running e done_ e', wait timeout running e = (Some done_, e') → (clock e <= clock e')%Q;
  wait_first : ∀ timeout running e done_ e', running ≠ [] → wait timeout running e = (Some done_, e') →
    Exists (λ i, i ∈ done_) running ∨ ∃ r, timeout = Some r ∧ (clock e + r <= clock e')%Q;
  gamma_positive : ∀ shape scale e, (0 <= (gamma shape scale e).1)%Q;
}.

(** A task: its index, its scheduled time, the clock when it is created, and the tasks in flight with it *)
Record admission := Admission {
  position : nat;
  scheduled_at : Q;
  admitted_at : Q;
  in_flight : list nat;
}.
(** The state of the loop *)
Record loop := Loop {
  next : nat;
  offset : Q;
  active : list nat;
  admitted : list admission;
}.
(** The callbacks [active.discard] of the tasks that are done *)
Definition without_done (finished l : list nat) : list nat := keep (λ i, negb (mem i finished)) l.

Section Schedule.
Context {E : Type} `{Asyncio E}.
(** [started], the limits, and the timestamp of the first episode of a recorded trace *)
Variable started : Q.
Variable load : limits.
Variable trace_start : option Q.

(** How an iteration ends: in an admission, in the [break], or cancelled in an [await] *)
Inductive iteration := Started (s : loop) (e : E) | Break (s : loop) (e : E) | Cancelled (s : loop) (e : E).
Definition state_of (r : iteration) : loop := match r with Started s _ | Break s _ | Cancelled s _ => s end.

Definition deadline : option Q := (λ d, started + d)%Q <$> duration load.
Definition past_deadline (t : Q) : bool := match deadline with Some d => Qle_bool d t | None => false end.

(** The offset of an episode: its place in the trace, or one more gap *)
Definition next_offset (timestamp : Q) (s : loop) (e : E) : Q * E :=
  match trace_start with
  | Some start => ((timestamp - start)%Q, e)
  | None =>
      if negb (Nat.eqb (next s) 0) && negb (Qle_bool (rate load) 0) then
        if eqb (pattern load) "constant" then ((offset s + 1 / rate load)%Q, e) else
        let shape := if eqb (pattern load) "poisson" then 1%Q else bursts load in
        let '(gap, e) := gamma shape (1 / (rate load * shape)) e in ((offset s + gap)%Q, e)
      else (offset s, e)
  end.
(** [await asyncio.sleep(delay)] until the scheduled time *)
Definition sleep_until (scheduled : Q) (running : list nat) (e : E) : option (list nat) * E :=
  let delay := (scheduled - clock e)%Q in
  let e := tick e in
  if Qle_bool delay 0 then (Some [], e) else sleep delay running e.
(** The wait for a free place, for the time that remains *)
Definition wait_for_place (running : list nat) (e : E) : option (list nat) * E :=
  if (0 <? concurrency load) && (concurrency load <=? Z.of_nat (length running)) then
    match deadline with
    | None => wait None running e
    | Some d => wait (Some (Qmax 0 (d - clock e))) running (tick e)
    end
  else (Some [], e).

(** One iteration; the clock is read for the last [break] only when there is a deadline. *)
Definition schedule_turn (timestamp : Q) (s : loop) (e : E) : iteration :=
  let '(offset, e) := next_offset timestamp s e in
  let scheduled := (started + offset)%Q in
  if past_deadline scheduled then Break s e else
  let '(slept, e) := sleep_until scheduled (active s) e in
  match slept with
  | None => Cancelled s e
  | Some finished =>
      let running := without_done finished (active s) in
      let '(waited, e) := wait_for_place running e in
      match waited with
      | None => Cancelled s e
      | Some finished =>
          let running := without_done finished running in
          let now := clock e in
          if past_deadline now then Break s e else
          let running := running ++ [next s] in
          Started (Loop (S (next s)) offset running (admitted s ++ [Admission (next s) scheduled now running]))
            (match deadline with Some _ => tick e | None => e end)
      end
  end.

(** The loop over the episodes, by their timestamps *)
Fixpoint admit_all (episodes : list Q) (s : loop) (e : E) : iteration :=
  match episodes with
  | [] => Break s e
  | timestamp :: episodes =>
      match schedule_turn timestamp s e with
      | Started s e => admit_all episodes s e
      | stopped => stopped
      end
  end.
End Schedule.
Arguments iteration : clear implicits.

(** From the clock reading at the start; a replay starts with the first selected event. *)
Definition run_admissions {E} `{Asyncio E} (load : limits) (replay : bool) (episodes : list Q) (e : E) : iteration E :=
  let trace_start := if replay then head episodes else None in
  admit_all (clock e) load trace_start episodes (Loop 0 0 [] []) (tick e).

(** [[results[index] for index in sorted(results)]]: [completed] holds the results
    in the order the requests finished. *)
Definition ordered_results {R} (completed : list (nat * R)) : list R :=
  (sort_by (λ e : nat * R, Z.of_nat e.1) completed).*2.
