(* ===== verification/TracesProofs.v ===== *)
(** * Properties of trace windows and admission

    A window holds exactly the events of its time span, in time order; admission
    keeps the concurrency and duration limits and the arrival order. *)

From Stdlib Require Import Ascii Qminmax.
From stdpp Require Import sorting.
From S2P Require Import Prelude Text Kube Scalars Measurements MeasurementsProofs BenchConfig Traces Schedule.

(** ** Windows *)

Section Window.
Context `{PythonRepr}.
Variable dataset_path : string.

Lemma by_time_total a b : by_time a b = true ∨ by_time b a = true.
Proof. apply Qle_bool_total. Qed.
Lemma by_time_trans a b c : by_time a b = true → by_time b c = true → by_time a c = true.
Proof. apply Qle_bool_trans. Qed.

Lemma foldl_Qmin_least (t : Q) ts :
  Forall (λ x, foldl Qmin t ts <= x)%Q (t :: ts) ∧ Exists (λ x, x == foldl Qmin t ts)%Q (t :: ts).
Proof.
  revert t. induction ts as [|u ts IH]; intros t; simpl.
  - split; [constructor; [apply Qle_refl|constructor]|left; reflexivity].
  - destruct (IH (Qmin t u)) as [Hall Hex]. apply Forall_cons in Hall as [Hm Hall]. split.
    + constructor; [eapply Qle_trans; [exact Hm|apply Q.le_min_l]|].
      constructor; [eapply Qle_trans; [exact Hm|apply Q.le_min_r]|done].
    + apply Exists_cons in Hex as [Hx|Hx]; [|by right; right].
      destruct (Q.min_spec t u) as [[_ E]|[_ E]]; rewrite E in Hx at 1; [by left|by right; left].
Qed.

Lemma iter_events_Ok known rows k events : iter_events dataset_path known rows = Ok (k, events) →
  (rows = [] ∧ events = []) ∨
  ∃ f first, head rows = Some first ∧ detect_format first.2 = Ok f ∧ k = Some f ∧
    Forall2 (λ (r : Z * Z * json) e, parse_row dataset_path f r.2 r.1.1 r.1.2 = Ok e) rows events.
Proof.
  destruct rows as [|[[l s] first] rows]; [intros [= <- <-]; by left|]. unfold iter_events.
  set (R := (l, s, first) :: rows). intros (f & Hf & E)%outcome_bind_Ok.
  destruct (match known with Some _ => _ | None => _ end) in E; [done|].
  apply outcome_bind_Ok in E as (ev & Hev & [= <- <-]). right. exists f, (l, s, first).
  split_and!; [done..|]. by apply outcome_map_Ok.
Qed.

(** Reading a window of a trace selects exactly the events of the half-open
    span that starts at the earliest timestamp plus the offset, in order of time,
    all rows being parsed in the one format of the first row. *)
Theorem read_window_selects rows start_offset duration_ start selected :
  read_window dataset_path rows rows start_offset duration_ = Ok (start, selected) →
  ∃ f events, iter_events dataset_path None rows = Ok (Some f, events) ∧
    Forall2 (λ (r : Z * Z * json) e, parse_row dataset_path f r.2 r.1.1 r.1.2 = Ok e) rows events ∧
    (∀ e, e ∈ events → start <= timestamp_seconds e + start_offset)%Q ∧
    (∃ e, e ∈ events ∧ start == timestamp_seconds e + start_offset)%Q ∧
    selected ≡ₚ keep (in_window start ((λ d, start + d)%Q <$> duration_)) events ∧ selected ≠ [] ∧
    StronglySorted (λ a b, timestamp_seconds a <= timestamp_seconds b)%Q selected.
Proof.
  unfold read_window. intros ([k events] & Hfirst & E)%outcome_bind_Ok. cbn [fst snd] in E.
  destruct (timestamp_seconds <$> events) as [|t ts] eqn:Ets; [done|].
  apply outcome_bind_Ok in E as ([k' events'] & Hsecond & E). cbn [fst snd] in E. cbv zeta in E.
  assert (∃ f, k = Some f ∧ events' = events ∧
    Forall2 (λ (r : Z * Z * json) e, parse_row dataset_path f r.2 r.1.1 r.1.2 = Ok e) rows events) as (f & -> & -> & Hrows).
  { apply iter_events_Ok in Hfirst as [[-> ->]|(f & r1 & Hr1 & Hf & -> & Hev)]; [done|].
    apply iter_events_Ok in Hsecond as [[-> ->]|(f' & r2 & Hr2 & Hf' & -> & Hev')]; [done|].
    assert (f' = f) as -> by congruence. exists f. split_and!; [done| |done].
    rewrite <-outcome_map_Ok in Hev, Hev'. congruence. }
  set (start' := (foldl Qmin t ts + start_offset)%Q) in *.
  destruct (keep _ events) as [|e0 sel] eqn:Ek in E; [done|].
  pose proof (isort_perm by_time (e0 :: sel)) as Hp.
  pose proof (isort_sorted by_time by_time_total by_time_trans (e0 :: sel)) as Hsorted.
  set (sorted := isort by_time (e0 :: sel)) in *. clearbody sorted. injection E as <- <-.
  destruct (foldl_Qmin_least t ts) as [Hall Hex]. rewrite <-Ets in Hall, Hex.
  exists f, events. split_and!; [done|done| | | | |].
  - intros e He. rewrite Forall_forall in Hall.
    specialize (Hall (timestamp_seconds e) ltac:(apply list_elem_of_fmap; by exists e)). unfold start'. lra.
  - apply Exists_exists in Hex as (x & (e & -> & He)%list_elem_of_fmap & Hx). exists e. split; [done|].
    unfold start'. lra.
  - by rewrite Ek.
  - intros ->. by apply Permutation_nil_cons in Hp.
  - clear -Hsorted. induction Hsorted as [|a l Hl IH Ha]; constructor; [done|].
    eapply Forall_impl; [exact Ha|]. intros b Hab. by apply Qle_bool_iff in Hab.
Qed.
End Window.

(** ** Admission *)

(** What holds of an admission: the limit, its scheduled time and the deadline *)
Record admitted_well (started : Q) (load : limits) (a : admission) : Prop := {
  well_limit : 0 < concurrency load → Z.of_nat (length (in_flight a)) ≤ concurrency load;
  well_time : (scheduled_at a <= admitted_at a)%Q;
  well_deadline : ∀ d, duration load = Some d → (scheduled_at a < started + d ∧ admitted_at a < started + d)%Q;
}.
(** The scheduled times: those of the trace relative to its first event, multiples of the gap, or any that do
    not go back *)
Definition spaced (started : Q) (load : limits) (trace_start : option Q) (episodes : list Q) (adm : list admission) : Prop :=
  match trace_start with
  | Some start => ∀ k a, adm !! k = Some a → ∃ t, episodes !! k = Some t ∧ scheduled_at a = (started + (t - start))%Q
  | None =>
      StronglySorted Qle (scheduled_at <$> adm) ∧
      (pattern load = "constant" → (0 < rate load)%Q →
         ∀ k a, adm !! k = Some a → (scheduled_at a == started + inject_Z (Z.of_nat k) / rate load)%Q)
  end.

Lemma without_done_le f l : (length (without_done f l) ≤ length l)%nat.
Proof.
  unfold without_done. induction l as [|x l IH]; [done|]. rewrite keep_cons.
  destruct (negb (mem x f)); simpl; lia.
Qed.
Lemma without_done_lt f l : Exists (λ i, i ∈ f) l → (length (without_done f l) < length l)%nat.
Proof.
  induction 1 as [x l Hx|x l _ IH]; unfold without_done in *; rewrite keep_cons.
  - rewrite (proj2 (mem_true x f) Hx). simpl. pose proof (without_done_le f l). unfold without_done in *. lia.
  - destruct (negb (mem x f)); simpl; lia.
Qed.

Section Admission.
Context {E : Type} `{Asyncio E} {laws : AsyncioLaws E}.
Variable started : Q.
Variable load : limits.
Variable trace_start : option Q.

Record loop_inv (before : list Q) (s : loop) : Prop := {
  loop_active : 0 < concurrency load → Z.of_nat (length (active s)) ≤ concurrency load;
  loop_next : next s = length (admitted s) ∧ length before = length (admitted s);
  loop_order : ∀ k a, admitted s !! k = Some a → position a = k;
  loop_well : Forall (admitted_well started load) (admitted s);
  loop_spaced : spaced started load trace_start before (admitted s);
  loop_offset : trace_start = None → Forall (λ a, scheduled_at a <= started + offset s)%Q (admitted s) ∧
    (pattern load = "constant" → (0 < rate load)%Q → (offset s == inject_Z (Z.of_nat (pred (next s))) / rate load)%Q);
}.

Lemma not_past t : past_deadline started load t = false → ∀ d, duration load = Some d → (t < started + d)%Q.
Proof. unfold past_deadline, deadline. intros E1 d Hd. rewrite Hd in E1. by apply Qle_bool_false. Qed.

(** After the sleep it is not before the scheduled time. *)
Lemma sleep_until_spec scheduled running e done_ e' :
  sleep_until scheduled running e = (Some done_, e') → (scheduled <= clock e')%Q.
Proof using laws.
  unfold sleep_until. cbv zeta. destruct (Qle_bool (scheduled - clock e) 0) eqn:Ed; intros Hs.
  - injection Hs as <- <-. apply Qle_bool_iff in Ed. pose proof (tick_forward e). lra.
  - apply Qle_bool_false in Ed. apply sleep_lasts in Hs; [|done]. pose proof (tick_forward e). lra.
Qed.
(** After the wait there is a free place, or the deadline has passed. *)
Lemma wait_for_place_spec running e done_ e' :
  wait_for_place started load running e = (Some done_, e') →
  (clock e <= clock e')%Q ∧
  (0 < concurrency load → Z.of_nat (length running) ≤ concurrency load →
   Z.of_nat (length (without_done done_ running)) < concurrency load ∨ past_deadline started load (clock e') = true).
Proof using laws.
  unfold wait_for_place, past_deadline. destruct (Z.ltb_spec 0 (concurrency load)) as [Hc|Hc]; simpl.
  2:{ intros [= <- <-]. split; [apply Qle_refl|lia]. }
  destruct (Z.leb_spec (concurrency load) (Z.of_nat (length running))) as [Hfull|Hfree].
  2:{ intros [= <- <-]. split; [apply Qle_refl|]. intros _ _. left. pose proof (without_done_le [] running). lia. }
  assert (running ≠ []) as Hne by (intros ->; simpl in *; lia).
  destruct (deadline started load) as [d|]; intros Hw; pose proof (wait_forward _ _ _ _ _ Hw) as Hf;
    destruct (wait_first _ _ _ _ _ Hne Hw) as [Hex|(r & Hr & Hle)].
  - split; [pose proof (tick_forward e); lra|]. intros _ Hl. left. apply without_done_lt in Hex. lia.
  - injection Hr as <-. pose proof (tick_forward e). split; [lra|]. intros _ _. right. apply Qle_bool_iff.
    pose proof (Q.le_max_r 0 (d - clock e)). lra.
  - split; [done|]. intros _ Hl. left. apply without_done_lt in Hex. lia.
  - done.
Qed.
Lemma next_offset_spec timestamp s (e : E) off e' :
  next_offset load trace_start timestamp s e = (off, e') →
  match trace_start with
  | Some start => off = (timestamp - start)%Q
  | None => (offset s <= off)%Q ∧ (next s = 0%nat → off = offset s) ∧
      (pattern load = "constant" → (0 < rate load)%Q → next s ≠ 0%nat → off = (offset s + 1 / rate load)%Q)
  end.
Proof using laws.
  unfold next_offset. destruct trace_start; [by intros [= <- _]|]. destruct (Nat.eqb_spec (next s) 0) as [E0|E0]; simpl.
  { intros [= <- _]. split_and!; [apply Qle_refl|done..]. }
  destruct (Qle_bool (rate load) 0) eqn:Er; simpl.
  { intros [= <- _]. apply Qle_bool_iff in Er. split_and!; [apply Qle_refl|done|]. intros _ Hr. lra. }
  apply Qle_bool_false in Er. destruct (eqb (pattern load) "constant") eqn:Ep.
  - intros [= <- _]. assert (0 < 1 / rate load)%Q by (apply Qlt_shift_div_l; lra). split_and!; [lra|done|done].
  - destruct (gamma _ _ e) as [gap e1] eqn:Eg. intros [= <- _]. pose proof (gamma_positive (if eqb (pattern load) "poisson" then 1 else bursts load)
      (1 / (rate load * (if eqb (pattern load) "poisson" then 1 else bursts load))) e) as Hg. rewrite Eg in Hg. simpl in Hg.
    split_and!; [lra|done|]. intros Hp. apply eqb_false in Ep. done.
Qed.

Lemma sorted_snoc (l : list Q) x : StronglySorted Qle l → Forall (λ y, y <= x)%Q l →
  StronglySorted Qle (l ++ [x]).
Proof.
  induction 1 as [|y l Hl IH Hy]; intros Hx; simpl; [repeat constructor|].
  apply Forall_cons in Hx as [Hyx Hx]. constructor; [by apply IH|].
  apply Forall_app. split; [done|]. by repeat constructor.
Qed.
Lemma lookup_snoc_cases {A} (l : list A) x k y : (l ++ [x]) !! k = Some y → l !! k = Some y ∨ k = length l ∧ y = x.
Proof.
  intros [Hk|[Hge Hk]]%lookup_app_Some; [by left|]. right. destruct (k - length l)%nat as [|j] eqn:Ek; [|done].
  injection Hk as <-. split; [lia|done].
Qed.
(** One more scheduled time *)
Lemma spaced_snoc before s timestamp (e : E) off e' now running :
  loop_inv before s → next_offset load trace_start timestamp s e = (off, e') →
  let adm := admitted s ++ [Admission (next s) (started + off) now running] in
  spaced started load trace_start (before ++ [timestamp]) adm ∧
  (trace_start = None → Forall (λ a, scheduled_at a <= started + off)%Q adm ∧
    (pattern load = "constant" → (0 < rate load)%Q → (off == inject_Z (Z.of_nat (next s)) / rate load)%Q)).
Proof using laws.
  intros [_ [Hn Hlen] _ _ Hsp Hoff] Ho%next_offset_spec adm. unfold spaced in *. destruct trace_start as [start|].
  - split; [|done]. intros k a [Hk|[-> ->]]%lookup_snoc_cases.
    + destruct (Hsp k a Hk) as (t & Ht & Ha). exists t. split; [by apply lookup_app_l_Some|done].
    + exists timestamp. rewrite <-Hlen, lookup_app_r, Nat.sub_diag by lia. by rewrite Ho.
  - destruct (Hoff eq_refl) as [Hle Hconst]. destruct Ho as (Hgrow & H0 & Hnext), Hsp as [Hs Heq].
    assert (pattern load = "constant" → (0 < rate load)%Q → (off == inject_Z (Z.of_nat (next s)) / rate load)%Q) as Hnew.
    { intros Hp Hr. specialize (Hconst Hp Hr). destruct (next s) as [|m] eqn:En; [by rewrite (H0 eq_refl)|]. rewrite (Hnext Hp Hr) by done.
      cbn [pred] in Hconst. rewrite Hconst, Nat2Z.inj_succ, <-Z.add_1_r, inject_Z_plus. field. intros Hz. rewrite Hz in Hr. by apply Qlt_irrefl in Hr. }
    assert (Forall (λ a, scheduled_at a <= started + off)%Q adm) as Hall.
    { apply Forall_app. split; [eapply Forall_impl; [exact Hle|]; simpl; intros a Ha; lra|]. constructor; [apply Qle_refl|constructor]. }
    split; [|done]. split.
    + unfold adm. rewrite fmap_app. apply sorted_snoc; [done|]. apply Forall_fmap. eapply Forall_impl; [exact Hle|].
      simpl. intros a Ha. unfold compose. simpl. lra.
    + intros Hp Hr k a [Hk|[-> ->]]%lookup_snoc_cases; [by apply Heq|]. simpl. rewrite (Hnew Hp Hr), Hn. reflexivity.
Qed.

Lemma turn_inv before timestamp s e s' e' :
  loop_inv before s → schedule_turn started load trace_start timestamp s e = Started s' e' → loop_inv (before ++ [timestamp]) s'.
Proof using laws.
  intros Hi. unfold schedule_turn. destruct (next_offset load trace_start timestamp s e) as [off e1] eqn:Eo. cbv zeta.
  destruct (past_deadline started load (started + off)) eqn:Ed1; [done|].
  destruct (sleep_until (started + off) (active s) e1) as [[slept|] e2] eqn:Es; [|done]. apply sleep_until_spec in Es.
  set (running := without_done slept (active s)). destruct (wait_for_place started load running e2) as [[waited|] e3] eqn:Ew; [|done].
  apply wait_for_place_spec in Ew as [Hfwd Hplace]. destruct (past_deadline started load (clock e3)) eqn:Ed2; [done|].
  set (free := without_done waited running) in *. destruct (spaced_snoc before s timestamp e off e1 (clock e3) (free ++ [next s]) Hi Eo) as [Hsp Hoff].
  destruct Hi as [Ha [Hn Hlen] Ho Hw _ _]. assert (0 < concurrency load → Z.of_nat (length (free ++ [next s])) ≤ concurrency load) as Hlimit.
  { intros Hc. rewrite length_app. simpl. pose proof (without_done_le slept (active s)) as Hrun. fold running in Hrun.
    specialize (Ha Hc). destruct (Hplace Hc) as [?|?]; [lia..|congruence]. }
  intros [= <- _]. constructor; simpl; [done| | | |done|done].
  - rewrite !length_app. simpl. lia.
  - intros k a [Hk|[-> ->]]%lookup_snoc_cases; [by apply Ho|done].
  - apply Forall_app. split; [done|]. constructor; [|constructor]. constructor; simpl; [done|lra|].
    intros d Hd. split; [exact (not_past _ Ed1 d Hd)|exact (not_past _ Ed2 d Hd)].
Qed.

Lemma spaced_more before after adm :
  spaced started load trace_start before adm → spaced started load trace_start (before ++ after) adm.
Proof.
  unfold spaced. destruct trace_start; [|done]. intros Hs k a Hk. destruct (Hs k a Hk) as (t & Ht & ?). exists t.
  split; [by apply lookup_app_l_Some|done].
Qed.
Lemma turn_break timestamp s e s' e' :
  schedule_turn started load trace_start timestamp s e = Break s' e' → s' = s ∧ is_Some (duration load).
Proof.
  unfold schedule_turn, past_deadline, deadline. intros Hs. destruct (next_offset _ _ _ _ _) as [off e1].
  destruct (duration load) as [d|]; simpl in *; [|by repeat case_match; simplify_eq].
  repeat case_match; simplify_eq; eauto.
Qed.
Lemma turn_cancelled timestamp s e s' e' : schedule_turn started load trace_start timestamp s e = Cancelled s' e' → s' = s.
Proof. unfold schedule_turn. intros Hs. destruct (next_offset _ _ _ _ _) as [off e1]. repeat case_match; by simplify_eq. Qed.
Lemma admit_all_inv before episodes s e :
  loop_inv before s →
  let r := admit_all started load trace_start episodes s e in
  (∃ seen rest, before ++ episodes = seen ++ rest ∧ loop_inv seen (state_of r)) ∧
  (∀ s' e', r = Break s' e' → duration load = None → length (admitted s') = length (before ++ episodes)).
Proof using laws.
  revert before s e. induction episodes as [|t episodes IH]; intros before s e Hi; simpl.
  { split; [by exists before, []|]. intros s' e' [= <- _] _. rewrite app_nil_r. symmetry. apply (loop_next _ _ Hi). }
  destruct (schedule_turn started load trace_start t s e) as [s1 e1|s1 e1|s1 e1] eqn:Et.
  - pose proof (turn_inv _ _ _ _ _ _ Hi Et) as Hi1. specialize (IH _ _ e1 Hi1). rewrite <-app_assoc in IH. exact IH.
  - destruct (turn_break _ _ _ _ _ Et) as [-> [d Hd]]. split; [by exists before, (t :: episodes)|]. intros ? ? _ Hno. congruence.
  - apply turn_cancelled in Et as ->. split; [by exists before, (t :: episodes)|done].
Qed.
End Admission.

(** C38: the scheduler keeps its limits, for every behaviour of the clock, of asyncio and of the random
    generator in which sleeps and waits last as documented, and wherever a failed request cancels it.  Episodes are
    admitted in order without gaps; at no admission are more requests in flight than the limit; none is
    admitted before its scheduled time, and none is scheduled or admitted at or after the deadline.  The
    scheduled times are those of a replayed trace relative to its first event, or multiples of the constant gap, and otherwise do
    not go back; and without a duration limit every episode is admitted unless a request fails. *)
Theorem admissions_bounded {E} `{AsyncioLaws E} (load : limits) (replay : bool) (episodes : list Q) (e : E) :
  let r := run_admissions load replay episodes e in
  let adm := admitted (state_of r) in
  (∀ k a, adm !! k = Some a → position a = k) ∧ Forall (admitted_well (clock e) load) adm ∧
  spaced (clock e) load (if replay then head episodes else None) episodes adm ∧
  (∀ s' e', r = Break s' e' → duration load = None → length adm = length episodes).
Proof.
  assert (loop_inv (clock e) load (if replay then head episodes else None) [] (Loop 0 0 [] [])) as Hi.
  { constructor; simpl; [lia|done|done|constructor| |].
    - unfold spaced. destruct (if replay then _ else _); [done|]. split; [constructor|done].
    - intros _. split; [constructor|]. intros _ _. reflexivity. }
  destruct (admit_all_inv _ _ _ _ episodes _ (tick e) Hi) as [(seen & rest & Hsplit & [_ _ Ho Hw Hsp _]) Hall]. simpl in Hsplit.
  intros r adm. split_and!; [exact Ho|exact Hw| |].
  - rewrite Hsplit at 2. by apply spaced_more.
  - intros s' e' Hr Hd. unfold adm. rewrite Hr. by eapply Hall.
Qed.

(** *** Results *)

Lemma imap_pair_sorted {R} (results : list R) (k : nat) :
  StronglySorted (λ a b : nat * R, Z.of_nat a.1 ≤ Z.of_nat b.1) (imap (λ i r, ((k + i)%nat, r)) results).
Proof.
  revert k. induction results as [|r results IH]; intros k; simpl; [constructor|]. constructor.
  - specialize (IH (S k)). erewrite imap_ext; [exact IH|]. intros i x _. simpl. f_equal. lia.
  - apply Forall_lookup. intros i [j x]. rewrite list_lookup_imap. destruct (results !! i); simpl; [|done].
    intros [= <- _]. lia.
Qed.

(** Results come back in send order, whatever the order of completion. *)
Lemma ordered_results_imap {R} (completed : list (nat * R)) (results : list R) :
  completed ≡ₚ imap pair results → ordered_results completed = results.
Proof.
  intros Hp. unfold ordered_results.
  assert (sort_by (λ e : nat * R, Z.of_nat e.1) completed = imap pair results) as ->.
  - apply (StronglySorted_unique_strong (λ a b : nat * R, Z.of_nat a.1 ≤ Z.of_nat b.1)).
    + intros [i x] [j y] Hx Hy Hxy Hyx. simpl in *. assert (i = j) as -> by lia.
      rewrite sort_by_perm, Hp in Hx.
      apply list_elem_of_lookup in Hx as [a Hx], Hy as [b Hy]. rewrite list_lookup_imap in Hx, Hy.
      destruct (results !! a) eqn:Ea, (results !! b) eqn:Eb; simplify_eq/=. done.
    + pose proof (sort_by_sorted (λ e : nat * R, Z.of_nat e.1) completed) as Hs.
      induction Hs as [|a l Hl IH Ha]; constructor; [done|].
      eapply Forall_impl; [exact Ha|]. intros b Hab. by apply Z.leb_le in Hab.
    + apply (imap_pair_sorted results 0).
    + by rewrite sort_by_perm.
  - apply list_eq. intros i. rewrite list_lookup_fmap, list_lookup_imap. by destruct (results !! i).
Qed.

(** ** Witnesses *)

#[local] Instance empty_repr : PythonRepr := λ _, "".
Definition sample_rows : list (Z * Z * json) :=
  [(1, 0, JObj [("timestamp", JInt 5000); ("input_length", JInt 7)]);
   (2, 1, JObj [("timestamp", JStr "2000"); ("input_length", JInt 9)])].

Lemma read_window_selects_witness :
  ∃ start selected, read_window "t.jsonl" sample_rows sample_rows 0 (Some (4 # 1)%Q) = Ok (start, selected) ∧
    selected ≠ [].
Proof.
  destruct (read_window "t.jsonl" sample_rows sample_rows 0 (Some (4 # 1)%Q)) as [[start selected]|] eqn:E;
    [|exfalso; vm_compute in E; discriminate].
  destruct (read_window_selects "t.jsonl" sample_rows 0 (Some (4 # 1)%Q) start selected E)
    as (f & events & _ & _ & _ & _ & _ & Hne & _).
  by exists start, selected.
Defined.

Definition sample_limits : limits := Limits 1 "constant" 1 1 (Some (5 # 1)%Q).
(** A clock that moves by a millisecond, and requests that take two seconds *)
#[local] Instance plain_asyncio : Asyncio Q := {|
  clock := id;
  tick e := (e + (1 # 1000))%Q;
  sleep d running e := (Some [], (e + d)%Q);
  wait timeout running e := (Some (take 1 running), (e + 2)%Q);
  gamma shape scale e := (1%Q, e);
|}.
#[local] Instance plain_asyncio_laws : AsyncioLaws Q.
Proof.
  split.
  - intros e. simpl. unfold id. lra.
  - intros d running e done_ e' _ [= <- <-]. apply Qle_refl.
  - intros timeout running e done_ e' [= <- <-]. simpl. unfold id. lra.
  - intros timeout [|x running] e done_ e' Hne [= <- <-]; [done|]. left. left. left.
  - intros shape scale e. simpl. lra.
Defined.

(** Three episodes a second apart, one at a time, for five seconds: the second waits for the first, the third comes
    too late. *)
Lemma admissions_bounded_witness :
  (position <$> admitted (state_of (run_admissions sample_limits false [0; 0; 0]%Q 5%Q))) = [0%nat; 1%nat] ∧
  Forall (admitted_well 5 sample_limits) (admitted (state_of (run_admissions sample_limits false [0; 0; 0]%Q 5%Q))).
Proof.
  split; [vm_compute; reflexivity|].
  exact (proj1 (proj2 (admissions_bounded sample_limits false [0; 0; 0]%Q 5%Q))).
Defined.
