(* ===== verification/ImageStore.v ===== *)
(** * Pinned source images ([build/cluster/images.py])

    Images that were built from source exist only in the container runtime of a
    node and are pinned there against garbage collection.  A store works through a
    container with the socket of the runtime: a ready builder Pod, or a helper Pod
    that is created for the purpose and removed again.  Every image and every lease
    carries the binding that produced it. *)

From Stdlib Require Import Ascii.
From S2P Require Import Prelude Text Kube Manifest Effects Client Instances.

Definition IMAGE_OWNER_LABEL : string := "inference.foretoken.io/source-image-owner".
Definition SOURCE_BUILD_BINDING_LABEL : string := "inference.foretoken.io/source-build-binding".
Definition SOURCE_BUILD_POD_LABEL : string := "inference.foretoken.io/source-builder".
Definition SOURCE_BUILD_STORAGE_LABEL : string := "inference.foretoken.io/source-build-storage".
Definition SOURCE_IMAGE_HELPER_LABEL : string := "inference.foretoken.io/source-image-helper".
Definition PIN_LABEL : string := "io.cri-containerd.pinned".
Definition CONTAINERD_CLIENT : string := "/usr/local/bin/ctr".
Definition CONTAINERD_SOCKET : string := "/run/foretoken-containerd.sock".
Definition CONTAINERD_NAMESPACE : string := "k8s.io".
Definition CLIENT_BINARY : string := "/opt/foretoken-build-client/foretoken-build-client".

(** ** Text of the runtime client *)

(** [dict(item.split("=", 1) for item in text.split(",") if "=" in item)] *)
Definition parse_labels (text : string) : list (string * string) :=
  foldl (λ d item, match partition "=" item with Some (k, v) => dset k v d | None => d end) [] (split_char "," text).
(** The first column and the labels in the last column of a row *)
Definition row_labels (line : string) : outcome (string * list (string * string)) :=
  match words line with
  | [] => Raise IndexError
  | name :: columns => Ok (name, parse_labels (List.last columns name))
  end.
(** The rows below the header *)
Definition rows (output : string) : list string := tail (splitlines output).

(** ** Descriptors *)

Definition INDEX_TYPES : list json :=
  [JStr "application/vnd.oci.image.index.v1+json"; JStr "application/vnd.docker.distribution.manifest.list.v2+json"].
Definition MANIFEST_TYPES : list json :=
  [JStr "application/vnd.oci.image.manifest.v1+json"; JStr "application/vnd.docker.distribution.manifest.v2+json"].
Definition CONFIG_TYPES : list json :=
  [JStr "application/vnd.oci.image.config.v1+json"; JStr "application/vnd.docker.container.image.v1+json"].

(** The child of an index that may be an image: [None] when the index stands for itself *)
Definition single_child (descriptor : json) : outcome (option json) :=
  media ← get "mediaType" descriptor;
  index_type ← in_set media INDEX_TYPES;
  if negb index_type then Ok None else
  manifests ← index "manifests" descriptor;
  match manifests with
  | JArr [c] =>
      media ← index "mediaType" c;
      manifest_type ← in_set media MANIFEST_TYPES;
      if negb manifest_type then Ok None else
      annotations ← get_or "annotations" (JObj []) c;
      reference ← get "vnd.docker.reference.type" annotations;
      Ok (if is_str "attestation-manifest" reference then None else Some c)
  | JArr _ => Ok None
  | _ => Raise (TypeError "object has no len()")
  end.
(** The manifest is the one of an image. *)
Definition image_manifest (manifest : json) : outcome bool :=
  artifact ← get "artifactType" manifest;
  if truthy artifact then Ok false else
  subject ← get "subject" manifest;
  if truthy subject then Ok false else
  config ← get_or "config" (JObj []) manifest;
  media ← get "mediaType" config;
  in_set media CONFIG_TYPES.

(** ** Pods with access to a node *)

Definition true_condition (kind_ : string) (condition : json) : outcome bool :=
  t ← get "type" condition;
  if negb (is_str kind_ t) then Ok false else
  s ← get "status" condition; Ok (is_str "True" s).
Definition mounts_socket (socket : string) (volume : json) : outcome bool :=
  n ← index "name" volume;
  if negb (is_str "runtime-socket" n) then Ok false else
  host ← get_or "hostPath" (JObj []) volume;
  p ← get "path" host; Ok (is_str socket p).
(** A ready builder of the binding on the node with the socket *)
Definition usable_builder (binding node socket : string) (pod : json) : outcome bool :=
  own ← label SOURCE_BUILD_BINDING_LABEL pod;
  if negb (is_str binding own) then Ok false else
  spec ← index "spec" pod;
  n ← get "nodeName" spec;
  if negb (is_str node n) then Ok false else
  del ← meta_get "deletionTimestamp" JNull pod;
  if truthy del then Ok false else
  status ← get_or "status" (JObj []) pod;
  phase ← get "phase" status;
  if negb (is_str "Running" phase) then Ok false else
  conditions ← get_or "conditions" (JArr []) status;
  conditions ← elements conditions;
  ready ← any_of (true_condition "Ready") conditions;
  if negb ready then Ok false else
  containers ← index "containers" spec;
  containers ← elements containers;
  images ← any_of (λ c, n ← index "name" c; Ok (is_str "images" n)) containers;
  if negb images then Ok false else
  volumes ← get_or "volumes" (JArr []) spec;
  volumes ← elements volumes;
  any_of (mounts_socket socket) volumes.

(** [images_container_spec] *)
Definition images_container_spec (tools_image socket : string) : json * list json :=
  let client := if contains "/k3s/" socket then "/bin/k3s" else CONTAINERD_CLIENT in
  (JObj [("name", JStr "images"); ("image", JStr tools_image);
         ("command", JArr [JStr "sh"; JStr "-c"; JStr "trap 'exit 0' TERM INT; sleep infinity & wait"]);
         ("env", JArr [JObj [("name", JStr "NVIDIA_VISIBLE_DEVICES"); ("value", JStr "void")]]);
         ("securityContext", JObj [("runAsUser", JInt 1000); ("runAsGroup", JInt 0);
            ("allowPrivilegeEscalation", JBool false); ("capabilities", JObj [("drop", JArr [JStr "ALL"])])]);
         ("volumeMounts", JArr [JObj [("name", JStr "runtime-socket"); ("mountPath", JStr CONTAINERD_SOCKET)];
                                JObj [("name", JStr "runtime-client"); ("mountPath", JStr CONTAINERD_CLIENT);
                                      ("readOnly", JBool true)]])],
   [JObj [("name", JStr "runtime-socket"); ("hostPath", JObj [("path", JStr socket); ("type", JStr "Socket")])];
    JObj [("name", JStr "runtime-client"); ("hostPath", JObj [("path", JStr client); ("type", JStr "File")])]]).

(** [image_tools_image] *)
Definition image_tools_image (arguments : json) (mirrors : json) : outcome string :=
  docker ← get_or "docker.io" (JArr [JStr "docker.io"]) (or_ mirrors (JObj []));
  automatic ← first_item docker;
  registry ← get_or "BASE_IMAGE_REGISTRY" automatic arguments;
  registry ← as_text registry;
  Ok (rstrip_char "/" registry +:+ "/library/debian:bookworm-slim").

(** [node_containerd_socket] *)
Definition node_containerd_socket (context : string) (node : json) : outcome string :=
  status ← get_or "status" (JObj []) node;
  info ← get_or "nodeInfo" (JObj []) status;
  runtime ← get_or "containerRuntimeVersion" (JStr "") info;
  if startswith "k3d-" context then Ok "/run/k3s/containerd/containerd.sock" else
  runtime ← match runtime with JStr s => Ok s | _ => Raise (TypeError "argument is not iterable") end;
  Ok (if contains "k3s" runtime then "/run/k3s/containerd/containerd.sock"
      else if startswith "kind-" context then "/run/containerd/containerd.sock" else "").

(** The helper Pod *)
Definition helper_labels (binding : string) : list (string * json) :=
  [(SOURCE_IMAGE_HELPER_LABEL, JStr "true"); (SOURCE_BUILD_POD_LABEL, JStr "true");
   (SOURCE_BUILD_BINDING_LABEL, JStr binding)].
Definition helper_pod (ns nm node binding tools_image socket : string) (pull_secrets : list string)
    (owner_name owner_uid : json) : json :=
  let '(container, volumes) := images_container_spec tools_image socket in
  JObj [("apiVersion", JStr "v1"); ("kind", JStr "Pod");
        ("metadata", JObj [("name", JStr nm); ("namespace", JStr ns); ("labels", JObj (helper_labels binding));
           ("ownerReferences", JArr [JObj [("apiVersion", JStr "v1"); ("kind", JStr "ConfigMap");
                                           ("name", owner_name); ("uid", owner_uid)]])]);
        ("spec", JObj [("nodeName", JStr node); ("restartPolicy", JStr "Never"); ("hostNetwork", JBool true);
           ("dnsPolicy", JStr "Default"); ("automountServiceAccountToken", JBool false);
           ("imagePullSecrets", JArr ((λ s, JObj [("name", JStr s)]) <$> pull_secrets));
           ("containers", JArr [container]); ("volumes", JArr volumes)])].

(** [all(current["metadata"].get("labels", {}).get(key) == value ...)] *)
Definition has_labels (current : json) (expected : list (string * json)) : outcome bool :=
  foreign ← any_of (λ e, match e with
                         | JArr [JStr k; v] => x ← label k current; Ok (negb (py_eqb x v))
                         | _ => Ok true
                         end) ((λ e, JArr [JStr e.1; e.2]) <$> expected);
  Ok (negb foreign).
Definition owner_has_uid (uid : json) (current : json) : outcome bool :=
  references ← meta_get "ownerReferences" (JArr []) current;
  references ← elements references;
  any_of (λ r, u ← get "uid" r; Ok (py_eqb u uid)) references.
(** The Pod that is there is the helper: the one whose creation was confirmed, or
    one that can only come from it. *)
Definition is_helper (binding : string) (metadata : option json) (owner_uid current : json) : outcome bool :=
  match metadata with
  | Some metadata => u ← meta_index "uid" current; v ← index "uid" metadata; Ok (py_eqb u v)
  | None =>
      own ← has_labels current (helper_labels binding);
      if negb own then Ok false else owner_has_uid owner_uid current
  end.

(** ** Effects of cleanup *)

Section Cleanup.
Context {W : Type}.

(** [cleanup_commands]: failures of the cleanup do not replace an earlier error. *)
Definition absorbed (e : exn) : bool :=
  match e with
  | DeploymentError _ | VersionConflict _ | ServiceUnavailable _ | PermissionDenied _ | OSError _ | TimeoutError _
  | NotADirectoryError => true
  | _ => false
  end.
Definition cleanup_commands (error : option exn) (c : IO W unit) : IO W unit :=
  try_except c (λ e, match error with
                     | Some _ => if absorbed e then Some (mret tt) else None
                     | None => None
                     end).
(** [try: m finally: with cleanup_commands(timeout=seconds): c] *)
Definition with_cleanup {A} (m : IO W A) (seconds : outcome Z) (c : IO W unit) : IO W A := λ w,
  match m w with
  | (Returned a, w') => (pure seconds ;; cleanup_commands None c ;; mret a) w'
  | (Raised e, w') => (pure seconds ;; cleanup_commands (Some e) c ;; throw e) w'
  | (Unfinished, w') => (Unfinished, w')
  end.
(** An exception as a value *)
Definition attempt {A} (m : IO W A) : IO W (A + exn) := λ w,
  match m w with
  | (Returned a, w') => (Returned (inl a), w')
  | (Raised e, w') => (Returned (inr e), w')
  | (Unfinished, w') => (Unfinished, w')
  end.
End Cleanup.

(** ** [NodeImageStore] *)

Record store := Store { st_namespace : string; st_pod : string; st_binding : string }.

Section Store.
Context {C S : Type} `{Kubectl C} `{Printer} `{JsonText}.
Abbreviation IO := (IO (world C S)).
Variable s : store.

(** [run] *)
Definition node_failed (detail : string) : exn :=
  DeploymentError ("node image operation failed in " +:+ st_namespace s +:+ "/" +:+ st_pod s +:+ ": " +:+ detail).
Definition exec_store (args : list string) (input : option json) : IO string :=
  call_text node_failed (PodExec (st_namespace s) (st_pod s) args input).

(** [containerd] *)
Definition containerd : list string :=
  [CONTAINERD_CLIENT; "--address"; CONTAINERD_SOCKET; "--namespace"; CONTAINERD_NAMESPACE].

(** [client_request], [inspect] and [deliver] *)
Definition lease_labels : list (string * json) :=
  [(IMAGE_OWNER_LABEL, JStr "foretoken"); (SOURCE_BUILD_BINDING_LABEL, JStr (st_binding s))].
Definition client_request (lease platform : string) : list (string * json) :=
  [("containerd_address", JStr CONTAINERD_SOCKET); ("containerd_namespace", JStr CONTAINERD_NAMESPACE);
   ("lease_id", JStr lease); ("platform", JStr platform); ("lease_labels", JObj lease_labels)].
Definition inspect (image lease platform : string) (descriptor : option json) : IO (option json) :=
  output ← exec_store [CLIENT_BINARY; "inspect"]
    (Some (JObj (client_request lease platform ++ [("image", JStr image)]
                 ++ match descriptor with Some d => [("descriptor", d)] | None => [] end)));
  result ← pure (loads_text output);
  found ← pure (index "found" result);
  mret (if truthy found then Some result else None).
Definition deliver (descriptor : json) (image lease platform : string) : IO unit :=
  _ ← now;
  _ ← exec_store [CLIENT_BINARY; "deliver"]
    (Some (JObj (client_request lease platform ++ [("descriptor", descriptor); ("image", JStr image);
       ("image_labels", JObj (lease_labels ++ [(PIN_LABEL, JStr "pinned")]))])));
  _ ← now; mret tt.

(** [release_leases] *)
Definition own_lease (identifiers : option (list string)) (row : string * list (string * string)) : bool :=
  eqb (dget IMAGE_OWNER_LABEL row.2) (Some "foretoken")
  && eqb (dget SOURCE_BUILD_BINDING_LABEL row.2) (Some (st_binding s))
  && match identifiers with Some l => mem row.1 l | None => true end.
Definition release_leases (identifiers : option (list string)) : IO unit :=
  output ← exec_store (containerd ++ ["leases"; "list"]) None;
  parsed ← pure (outcome_map row_labels (rows output));
  match (keep (own_lease identifiers) parsed).*1 with
  | [] => mret tt
  | selected => _ ← exec_store (containerd ++ ["leases"; "delete"] ++ selected) None; mret tt
  end.

(** [images]: digests by reference *)
Definition image_digests (output : string) : list (string * string) :=
  foldl (λ d line, match words line with
                   | reference :: _ :: digest :: _ => dset reference digest d
                   | _ => d
                   end) [] (rows output).
Definition images : IO (list (string * string)) :=
  output ← exec_store (containerd ++ ["images"; "list"]) None;
  mret (image_digests output).

(** [_descriptor], [image_manifest_digest] and [matches] *)
Definition read_descriptor (digest : string) : IO json :=
  output ← exec_store (containerd ++ ["content"; "get"; digest]) None;
  pure (loads_text output).
Definition image_manifest_digest (digest : string) : IO string :=
  descriptor ← read_descriptor digest;
  c ← pure (single_child descriptor);
  match c with
  | None => mret digest
  | Some c =>
      own ← pure (text_index "digest" c);
      manifest ← read_descriptor own;
      image ← pure (image_manifest manifest);
      mret (if (image : bool) then own else digest)
  end.
Definition matches (image digest : string) : IO bool :=
  known ← images;
  match dget image known with
  | None => mret false
  | Some node_digest =>
      if eqb node_digest digest then mret true else
      d ← image_manifest_digest node_digest; mret (eqb d digest)
  end.

(** [owned_images]: bindings by reference *)
Definition owner_selector (binding : string) : string :=
  "labels." +:+ quotation +:+ IMAGE_OWNER_LABEL +:+ quotation +:+ "==foretoken,labels." +:+ quotation
  +:+ SOURCE_BUILD_BINDING_LABEL +:+ quotation +:+ "==" +:+ dumps binding.
Definition owned_images : IO (list (string * string)) :=
  output ← exec_store (containerd ++ ["images"; "list"; owner_selector (st_binding s)]) None;
  parsed ← pure (outcome_map row_labels (rows output));
  mret (foldl (λ d row, dset row.1 (default "" (dget SOURCE_BUILD_BINDING_LABEL row.2)) d) [] parsed).

(** [_pin] and [pin_owned] *)
Definition pin_command (image : string) : list string :=
  containerd ++ ["images"; "label"; image; PIN_LABEL +:+ "=pinned"; IMAGE_OWNER_LABEL +:+ "=foretoken";
                 SOURCE_BUILD_BINDING_LABEL +:+ "=" +:+ st_binding s].
Definition pin (image : string) : IO unit := _ ← exec_store (pin_command image) None; mret tt.
Definition pin_owned (image : string) : IO unit :=
  own ← owned_images;
  skip_unless (dmem image own) (pin image).

(** [pin_records] *)
Definition pinnable (row : string * list (string * string)) : bool :=
  mem (dget IMAGE_OWNER_LABEL row.2) [None; Some "foretoken"]
  && mem (dget SOURCE_BUILD_BINDING_LABEL row.2) [None; Some (st_binding s)].
Fixpoint pin_rows (image : string) (lines : list string) (own : list string) : IO (list string) :=
  match lines with
  | [] => mret own
  | line :: lines =>
      row ← pure (row_labels line);
      if pinnable row then pin image ;; pin_rows image lines (own ++ [image])
      else pin_rows image lines own
  end.
Fixpoint pin_each (records : list (string * string)) (own : list string) : IO unit :=
  match records with
  | [] => mret tt
  | (image, digest) :: records =>
      if mem image own then pin_each records own else
      same ← matches image digest;
      if negb same then pin_each records own else
      output ← exec_store (containerd ++ ["images"; "list"; "name==" +:+ dumps image]) None;
      own ← pin_rows image (rows output) own;
      pin_each records own
  end.
Definition pin_records (records : list (string * string)) : IO unit :=
  match records with
  | [] => mret tt
  | _ => own ← owned_images; pin_each records own.*1
  end.

(** [release_except] *)
Definition release_command (reference : string) : list string :=
  containerd ++ ["images"; "label"; reference; PIN_LABEL +:+ "="; IMAGE_OWNER_LABEL +:+ "=";
                 SOURCE_BUILD_BINDING_LABEL +:+ "="].
Definition retains (retained : list json) (reference : string) : bool := existsb (py_eqb (JStr reference)) retained.
Definition release_except (retained : list json) : IO (list string) :=
  own ← owned_images;
  each (sort_by id (keep (λ r, negb (retains retained r)) own.*1))
    (λ reference, _ ← exec_store (release_command reference) None; mret tt) ;;
  mret (keep (retains retained) own.*1).
End Store.

(** ** [node_image_store] *)

Section Bracket.
Context {C S : Type} `{Kubectl C} `{Printer} `{JsonText}.
Abbreviation IO := (IO (world C S)).
Variable fuel : nat.
(** [uuid.uuid4().hex[:12]] after so many calls *)
Variable fresh : nat → string.
Variables (ns node socket tools_image timeout binding : string) (pull_secrets : list string).

(** The [finally] clause *)
Definition retire_helper (nm : string) (attempted : bool) (metadata : option json) (owner_uid : json) : IO unit :=
  current ← (if attempted then get_if_exists "pod" nm ns else mret None);
  match current with
  | None => mret tt
  | Some current =>
      own ← pure (is_helper binding metadata owner_uid current);
      skip_unless own
        (try_except (delete_object fuel current timeout true "Foreground" false)
           (λ e, match deployment_error e with
                 | Some _ => Some (remaining ← get_if_exists "pod" nm ns;
                     match remaining with
                     | None => mret tt
                     | Some remaining =>
                         u ← pure (meta_index "uid" remaining);
                         v ← pure (meta_index "uid" current);
                         if py_eqb u v then throw e else mret tt
                     end)
                 | None => None
                 end))
  end.

Definition already_exists (e : exn) : bool :=
  match deployment_error e with Some message => contains "AlreadyExists" message | None => false end.

(** [with node_image_store(...) as store: use] *)
Definition node_image_store {A} (use : store → IO A) : IO A :=
  pods ← list_labelled ["pods"] ns (SOURCE_BUILD_POD_LABEL +:+ "=true");
  builder ← pure (find_first (usable_builder binding node socket) pods);
  match builder with
  | Some builder =>
      nm ← pure (meta_index "name" builder);
      nm ← pure (as_text nm);
      use (Store ns nm binding)
  | None =>
      storage ← list_labelled ["configmaps"] ns (SOURCE_BUILD_STORAGE_LABEL +:+ "=" +:+ ns);
      match storage with
      | [storage] =>
          owner ← pure (index "metadata" storage);
          n ← ask (λ w, length (trace w));
          let nm := "foretoken-node-images-" +:+ fresh n in
          owner_name ← pure (index "name" owner);
          owner_uid ← pure (index "uid" owner);
          let pod := helper_pod ns nm node binding tools_image socket pull_secrets owner_name owner_uid in
          created ← attempt (j ← run_json (CreateObject pod); pure (index "metadata" j));
          match created with
          | inl metadata =>
              with_cleanup (_ ← run (WaitPod ns nm); use (Store ns nm binding)) (timeout_seconds timeout)
                (retire_helper nm true (Some metadata) owner_uid)
          | inr e =>
              with_cleanup (throw e) (timeout_seconds timeout)
                (retire_helper nm (negb (already_exists e)) None owner_uid)
          end
      | _ => throw (DeploymentError "source build storage metadata is unavailable")
      end
  end.
End Bracket.
