(* ===== verification/Consumers.v ===== *)
(** * Who uses an application or an image ([build/state.py], [applications/files.py], [platform/helm.py])

    Before anything that was built is released, its users are read: the images
    and application references that documents select, the consumers in the
    cluster, the rollback history of Helm, and the images of source revisions that
    services have selected and not yet started.  Sets of images are lists of
    values; only membership matters. *)

From Stdlib Require Import Ascii.
From S2P Require Import Prelude Text Kube Manifest Effects Client Instances.

Definition SOURCE_BUILD_KEY : string := "source-build.json".
Definition WORKSPACE_SELECTION_KEY : string := "workspace-selection.json".
Definition WORKSPACE_LABEL : string := "foretoken.io/source-workspace".
Definition SOURCE_REVISION : string := "inference.foretoken.io/source-revision".
Definition SERVICE_COMPONENTS : list (string * string) := [("ModelService", "model-server"); ("FrontendService", "frontend")].
Definition SOURCE_CONSUMER_LABEL : string := "foretoken.io/application-source-consumer".

(** ** Values *)

(** [s.add(v)] and [s.update(l)]: members must be hashable. *)
Definition hashable (v : json) : bool := match v with JArr _ | JObj _ => false | _ => true end.
Definition member (v : json) : outcome json := if hashable v then Ok v else Raise (TypeError "unhashable type").
Definition members (l : list json) : outcome (list json) := outcome_map member l.
(** [j.values()] and [j.items()] *)
Definition items_of (j : json) : outcome (list (string * json)) :=
  match j with JObj m => Ok m | _ => Raise AttributeError end.
Definition values_of (j : json) : outcome (list json) := m ← items_of j; Ok m.*2.
(** [k in j] *)
Definition contains_key (k : string) (j : json) : outcome bool :=
  match j with
  | JObj m => Ok (dmem k m)
  | JArr l => Ok (existsb (is_str k) l)
  | JStr s => Ok (contains k s)
  | _ => Raise (TypeError "argument is not iterable")
  end.
(** [json.loads(j)] *)
Definition loads_json `{JsonText} (j : json) : outcome json :=
  match j with
  | JStr s => loads_text s
  | _ => Raise (TypeError "the JSON object must be str, bytes or bytearray")
  end.
(** [if j.get(k): s.add(j[k])] *)
Definition truthy_entry (k : string) (j : json) : outcome (list json) :=
  v ← get k j;
  if truthy v then v ← index k j; v ← member v; Ok [v] else Ok [].
(** [a + b] of texts *)
Definition add_text (a b : json) : outcome json :=
  match a, b with
  | JStr a, JStr b => Ok (JStr (a +:+ b))
  | _, _ => Raise (TypeError "can only concatenate str to str")
  end.
(** The texts among the arguments of a container that have one of the prefixes *)
Definition prefixed (prefixes : list string) (empty : bool) (argument : json) : outcome (list json) :=
  a ← as_text argument;
  Ok (JStr <$> keep (λ v, empty || nonempty v)
        (flat_map (λ p, if startswith p a then [removeprefix p a] else []) prefixes)).

(** ** Images of documents *)

Section Documents.
Context `{JsonText}.

(** [runtime_settings] *)
Definition runtime_settings (platform : json) : outcome json :=
  data ← index "data" platform;
  text ← index "deploymentValues" data;
  vals ← loads_json text;
  image ← index "image" vals;
  repository ← index "repository" image;
  digest ← get "digest" image;
  suffix ← (if truthy digest then d ← index "digest" image; add_text (JStr "@") d
            else t ← index "tag" image; add_text (JStr ":") t);
  controller_image ← add_text repository suffix;
  runtime ← index "runtime" vals;
  workload ← index "workload" vals;
  frontend ← (f ← index "frontend" vals; index "image" f);
  model ← (v ← index "vllm" runtime; index "image" v);
  preparation ← get_or "preparationImage" (JStr "") runtime;
  omni ← (v ← index "vllmOmni" runtime; index "image" v);
  nsight ← (v ← index "vllm" runtime; index "nsightImage" v);
  mount ← (c ← index "cache" workload; index "mountPath" c);
  claim ← (c ← index "cache" workload; index "claimName" c);
  secrets ← (l ← index "imagePullSecrets" workload; l ← elements l; outcome_map (index "name") l);
  Ok (JObj [("control_plane_image", controller_image); ("image", frontend); ("model_image", model);
            ("preparation_image", preparation); ("omni_image", omni); ("nsight_image", nsight);
            ("mount", mount); ("claim", claim); ("pull_secrets", JArr secrets)]).

(** The text under a key of the data of a ConfigMap *)
Definition config_entry (key : string) (document : json) : outcome (option json) :=
  k ← get "kind" document;
  if negb (is_str "ConfigMap" k) then Ok None else
  data ← get_or "data" (JObj []) document;
  present ← contains_key key data;
  if negb present then Ok None else
  d ← index "data" document; text ← index key d; v ← loads_json text; Ok (Some v).
Definition is_platform (document : json) : outcome bool :=
  metadata ← get_or "metadata" (JObj []) document;
  labels ← get_or "labels" (JObj []) metadata;
  v ← get "foretoken.io/platform" labels;
  Ok (is_str "configuration" v).
Definition completed_build (key : string) (document : json) : outcome (list json) :=
  data ← index "data" document;
  source_build ← get SOURCE_BUILD_KEY data;
  if negb (truthy source_build) then Ok [] else
  v ← loads_json source_build;
  completed ← get_or "completedBuild" (JObj []) v;
  entries ← get_or key (JObj []) completed;
  l ← values_of entries; members l.
Definition platform_images (document : json) : outcome (list json) :=
  platform ← is_platform document;
  if negb platform then Ok [] else
  runtime ← runtime_settings document;
  completed ← completed_build "images" document;
  selected ← outcome_map (λ k, index k runtime)
    ["control_plane_image"; "image"; "model_image"; "omni_image"; "nsight_image"; "preparation_image"];
  selected ← members (keep truthy selected);
  Ok (completed ++ selected).

(** The images of a selection *)
Definition selection_images (selection : json) : outcome (list json) :=
  if negb (truthy selection) then Ok [] else
  (λ l, concat l) <$> outcome_map (λ key, truthy_entry key selection) ["image"; "workerImage"].
Definition IMAGE_ARGUMENTS : list string :=
  ["--frontend-image="; "--inference-engine-image="; "--model-preparation-image=";
   "--omni-inference-engine-image="; "--video-worker-image="; "--nsight-image="].
Definition container_images (container : json) : outcome (list json) :=
  image ← (v ← index "image" container; member v);
  n ← index "name" container;
  if negb (is_str "manager" n) then Ok [image] else
  args ← get_or "args" (JArr []) container;
  args ← elements args;
  selected ← outcome_map (prefixed IMAGE_ARGUMENTS false) args;
  Ok (image :: concat selected).
Definition workload_images (document : json) : outcome (list json) :=
  spec ← get_or "spec" (JObj []) document;
  status ← get_or "status" (JObj []) document;
  template ← get_or "template" (JObj []) spec;
  pod_spec ← get_or "spec" spec template;
  application ← get_or "application" (JObj []) status;
  own ← get_or "application" (JObj []) template;
  runtime ← get_or "runtime" (JObj []) spec;
  plan ← get_or "plan" (JObj []) status;
  pools ← (p ← get_or "poolApplications" (JObj []) status; values_of p);
  selected ← outcome_map selection_images ([application; own; runtime; plan] ++ pools);
  used ← outcome_map (λ key, l ← get_or key (JArr []) pod_spec; l ← elements l; outcome_map container_images l)
    ["containers"; "initContainers"; "ephemeralContainers"];
  Ok (concat selected ++ concat (concat used)).

(** [application_images]; the depth is the one of Python's stack. *)
Fixpoint document_images (depth : nat) (document : json) : outcome (list json) :=
  workspace ← config_entry WORKSPACE_SELECTION_KEY document;
  retained ← match workspace with
             | Some v => l ← index "images" v; l ← elements l; members l
             | None => Ok []
             end;
  selection ← config_entry "controller-selection.json" document;
  controller ← match selection with
               | Some v => t ← index "template" v; c ← index "controller" t;
                           match depth with
                           | O => Raise (RuntimeError "maximum recursion depth exceeded")
                           | S depth => document_images depth c
                           end
               | None => Ok []
               end;
  platform ← platform_images document;
  workload ← workload_images document;
  Ok (retained ++ controller ++ platform ++ workload).
Definition application_images (depth : nat) (documents : list json) : outcome (list json) :=
  (λ l, concat l) <$> outcome_map (document_images depth) documents.
End Documents.

(** ** Application references of documents *)

Section References.
Context `{JsonText}.

(** [application_references] *)
Definition annotation_of (k : string) (metadata : json) : outcome json :=
  a ← get_or "annotations" (JObj []) metadata; get k a.
Definition platform_references (document metadata : json) : outcome (list json) :=
  labels ← get_or "labels" (JObj []) metadata;
  v ← get "foretoken.io/platform" labels;
  if negb (is_str "configuration" v) then Ok [] else
  data ← index "data" document;
  text ← index "deploymentValues" data;
  vals ← loads_json text;
  completed ← completed_build "applications" document;
  controller ← (c ← index "controller" vals; index "applicationURL" c);
  frontend ← (f ← index "frontend" vals; index "applicationURL" f);
  model ← (r ← index "runtime" vals; v ← index "vllm" r; index "applicationURL" v);
  selected ← members (keep truthy [controller; frontend; model]);
  Ok (completed ++ selected).
Definition pool_references (document : json) : outcome (list json) :=
  status ← get_or "status" (JObj []) document;
  pools ← get_or "poolApplications" (JObj []) status;
  pools ← values_of pools;
  (λ l, concat l) <$> outcome_map (truthy_entry "applicationURL") pools.
Definition selected_references (document spec template metadata template_metadata : json) : outcome (list json) :=
  revision ← annotation_of SOURCE_REVISION metadata;
  template_revision ← annotation_of SOURCE_REVISION template_metadata;
  url ← annotation_of "inference.foretoken.io/application-url" metadata;
  template_url ← annotation_of "inference.foretoken.io/application-url" template_metadata;
  source ← get "sourceRevision" template;
  template_application ← (a ← get_or "application" (JObj []) template; get "applicationURL" a);
  runtime_url ← (r ← get_or "runtime" (JObj []) spec; get "applicationURL" r);
  status_url ← (s ← get_or "status" (JObj []) document; a ← get_or "application" (JObj []) s; get "applicationURL" a);
  runtime_revision ← (r ← get_or "runtime" (JObj []) spec; get "sourceRevision" r);
  worker ← (s ← get_or "status" (JObj []) document; p ← get_or "plan" (JObj []) s; get "workerApplicationURL" p);
  members (keep truthy [revision; template_revision; url; template_url; source; template_application;
                        runtime_url; status_url; runtime_revision; worker]).
Definition APPLICATION_ARGUMENTS : list string :=
  ["--frontend-application-url="; "--model-server-application-url="; "--video-worker-application-url="].
Definition argument_references (spec template : json) : outcome (list json) :=
  pod_spec ← get_or "spec" spec template;
  containers ← get_or "containers" (JArr []) pod_spec;
  containers ← elements containers;
  l ← outcome_map (λ c, args ← get_or "args" (JArr []) c; args ← elements args;
                        outcome_map (prefixed APPLICATION_ARGUMENTS true) args) containers;
  Ok (concat (concat l)).
Fixpoint document_references (depth : nat) (document : json) : outcome (list json) :=
  spec ← get_or "spec" (JObj []) document;
  k ← get "kind" document;
  deployed ← (if is_str "InferenceDeployment" k
              then r ← get "controllerSourceRevision" spec;
                   if truthy r then r ← member r; Ok [r] else Ok []
              else Ok []);
  workspace ← config_entry WORKSPACE_SELECTION_KEY document;
  retained ← match workspace with
             | Some v => l ← index "applications" v; l ← elements l; members l
             | None => Ok []
             end;
  selection ← config_entry "controller-selection.json" document;
  controller ← match selection with
               | Some v => t ← index "template" v; c ← index "controller" t;
                           match depth with
                           | O => Raise (RuntimeError "maximum recursion depth exceeded")
                           | S depth => document_references depth c
                           end
               | None => Ok []
               end;
  template ← get_or "template" (JObj []) spec;
  metadata ← index "metadata" document;
  template_metadata ← get_or "metadata" (JObj []) template;
  platform ← platform_references document metadata;
  pools ← pool_references document;
  selected ← selected_references document spec template metadata template_metadata;
  arguments ← argument_references spec template;
  Ok (deployed ++ retained ++ controller ++ platform ++ pools ++ selected ++ arguments).
Definition application_references (depth : nat) (documents : list json) : outcome (list json) :=
  (λ l, concat l) <$> outcome_map (document_references depth) documents.
End References.

(** ** Consumers in the cluster *)

Section Consumers.
Context {C S : Type} `{Kubectl C} `{Printer}.
Abbreviation IO := (IO (world C S)).

(** [application_consumers]; the queries run in parallel and are joined in this order. *)
Definition CONSUMER_KINDS : list string :=
  ["inferencedeployments"; "modelservices"; "frontendservices"; "modelpools"; "modelgroups"; "videotasks"].
Definition CONFIGURATION_SELECTORS : list string :=
  ["foretoken.io/platform=configuration"; "app.kubernetes.io/component=deployment-controller"; WORKSPACE_LABEL].
Definition WORKLOAD_SELECTORS : list string :=
  ["app.kubernetes.io/name=foretoken-control-plane"; "inference.foretoken.io/model-group";
   "inference.foretoken.io/frontend-service"; "inference.foretoken.io/model-preparation-group";
   "foretoken.io/application-files=consumer"; SOURCE_CONSUMER_LABEL +:+ "=true"].
Definition consumer_queries (available : list string) : list (list string * string) :=
  match keep (λ k, mem (k +:+ ".inference.foretoken.io") available) CONSUMER_KINDS with
  | [] => []
  | kinds => [(kinds, "")]
  end
  ++ ((λ s, (["configmaps"], s)) <$> CONFIGURATION_SELECTORS)
  ++ ((λ s, (["pods"; "jobs"; "replicasets"; "deployments"], s)) <$> WORKLOAD_SELECTORS).
Definition application_consumers : IO (list json) :=
  available ← api_resource_names (Some "inference.foretoken.io");
  answers ← collect (λ q, list_selected q.1 q.2) (consumer_queries available);
  mret (concat answers).
End Consumers.

(** ** The history of the platform release *)

(** [decode_resources]: PyYAML's loader with the scalars of [Scalars] *)
Class ResourceStream := decode_resources : string → outcome (list json).

Section History.
Context {C S : Type} `{Kubectl C} `{Printer} `{JsonText} `{ResourceStream} `{PythonRepr}.
Abbreviation IO := (IO (world C S)).
Variables release_name release_namespace : string.

(** [HelmClient.run] *)
Definition helm_failed (detail : string) : exn := DeploymentError ("helm failed: " +:+ detail).
Definition helm_text (args : list string) : IO string := call_text helm_failed (HelmRead args).
(** [release_exists] *)
Definition metadata_args : list string :=
  ["get"; "metadata"; release_name; "--namespace"; release_namespace; "--output"; "json"].
Definition release_exists : IO bool := λ w,
  let '(r, c') := serve (HelmRead metadata_args) (cluster w) in
  let w' := World c' (ticks w) ((HelmRead metadata_args, r) :: trace w) (self w) in
  match r with
  | Failed detail =>
      if contains "release: not found" detail then (Returned false, w') else (Raised (helm_failed detail), w')
  | _ => (Returned true, w')
  end.
(** [_history_references] *)
Definition status_args : list string := ["status"; release_name; "--namespace"; release_namespace; "--output"; "json"].
Definition history_args (revision : Z) : list string :=
  ["history"; release_name; "--namespace"; release_namespace; "--max"; str_Z revision; "--output"; "json"].
Definition manifest_args (revision : json) : list string :=
  ["get"; "manifest"; release_name; "--namespace"; release_namespace; "--revision"; str_of revision].
Definition read_revision (item : json) : outcome Z := r ← index "revision" item; int_of r.
Definition history_references (extract : list json → outcome (list json)) : IO (option (list json)) :=
  found ← release_exists;
  if negb found then mret (Some []) else
  status ← helm_text status_args;
  revision ← pure (v ← loads_text status; v ← index "version" v; int_of v);
  history ← helm_text (history_args revision);
  history ← pure (v ← loads_text history; elements v);
  advanced ← pure (any_of (λ item, r ← read_revision item; Ok (revision <? r)) history);
  if (advanced : bool) then mret None else
  references ← collect (λ item,
    r ← pure (index "revision" item);
    manifest ← helm_text (manifest_args r);
    pure (documents ← decode_resources manifest; extract documents)) history;
  mret (Some (concat references)).
(** [image_history] and [application_history] *)
Definition image_history (depth : nat) : IO (option (list json)) := history_references (application_images depth).
Definition application_history (depth : nat) : IO (option (list json)) := history_references (application_references depth).
End History.

(** ** Published applications *)

Record origin := Origin {
  o_namespace : string;
  o_name : string;
  o_claim : string;
  o_endpoint : string;
  o_client_image : string;
  o_mount : string;
}.

(** [PurePosixPath(path)] is below the directory of the application. *)
Definition relative_inside (path : string) : bool :=
  match posix_parts path with [] => false | parts => negb (startswith "/" path) && negb (mem ".." parts) end.
Definition bounded_int (low high : Z) (v : json) : bool :=
  match v with JInt z => (low <=? z) && (z <=? high) | _ => false end.
Definition valid_entry (entry : json) : bool :=
  match entry with
  | JObj m =>
      match dget "path" m with Some (JStr path) => relative_inside path | _ => false end
      && match dget "mode" m with Some v => bounded_int 0 511 v | None => false end
      && match dget "size" m with Some (JInt z) => 0 <=? z | _ => false end
  | _ => false
  end.

Section Files.
Context {C S : Type} `{Kubectl C} `{Printer} `{JsonText}.
Abbreviation IO := (IO (world C S)).

(** [ApplicationFiles.__init__] *)
Definition open_origin (ns : string) : IO origin :=
  configurations ← list_labelled ["configmaps"] ns "foretoken.io/application-files=configuration";
  match configurations with
  | [configuration] =>
      nm ← pure (v ← meta_index "name" configuration; as_text v);
      data ← pure (index "data" configuration);
      claim ← pure (v ← index "claim" data; as_text v);
      endpoint ← pure (v ← index "endpoint" data; as_text v);
      client ← pure (v ← index "clientImage" data; as_text v);
      mount ← pure (v ← index "storageMount" data; as_text v);
      mret (Origin ns nm claim endpoint client mount)
  | _ => throw (DeploymentError "application file storage is unavailable; update the source installation")
  end.

(** [reference] and [_manifest_path] *)
Definition reference (o : origin) (component revision : string) : string :=
  o_endpoint o +:+ "/" +:+ component +:+ "/" +:+ revision.
Definition manifest_path (o : origin) (application_url : string) : option string :=
  let prefix := rstrip_char "/" (o_endpoint o) +:+ "/" in
  if negb (startswith prefix application_url) then None else
  Some ("/api/v1/namespaces/" +:+ o_namespace o +:+ "/services/http:" +:+ o_name o +:+ ":http/proxy/"
        +:+ quote_with ["/"%char] (rstrip_char "/" (removeprefix prefix application_url)) +:+ "/manifest.json").

(** [read_manifest] *)
Definition read_manifest (o : origin) (application_url : string) : IO (option json) :=
  match manifest_path o application_url with
  | None => mret None
  | Some path =>
      raw ← get_raw_if_not_found path "5s";
      match raw with
      | None => mret None
      | Some raw =>
          match loads raw with
          | None => throw (DeploymentError "application manifest returned invalid JSON")
          | Some (JObj m) =>
              match dget "files" m with
              | Some (JArr entries) =>
                  if forallb valid_entry entries then mret (Some (JObj m))
                  else throw (DeploymentError "application manifest has invalid file entries")
              | _ => throw (DeploymentError "application manifest has invalid file entries")
              end
          | Some _ => throw (DeploymentError "application manifest must be an object")
          end
      end
  end.

(** [source_images] *)
Definition single_segment (revision : string) : bool :=
  negb (mem revision ["."; ".."])
  && negb (has_char "/" revision || has_char (ascii_of_nat 92) revision || has_char (ascii_of_nat 0) revision).
Definition source_selection (document : json) : outcome (option (string * string)) :=
  k ← get "kind" document;
  selected ← (if is_str "InferenceDeployment" k
              then spec ← get_or "spec" (JObj []) document; r ← get "controllerSourceRevision" spec;
                   Ok (Some "control-plane", r)
              else k ← member k;
                   r ← annotation SOURCE_REVISION JNull document;
                   Ok (match k with JStr k => dget k SERVICE_COMPONENTS | _ => None end, r));
  match selected with
  | (Some component, revision) =>
      if negb (truthy revision) then Ok None else
      match revision with
      | JStr revision =>
          if single_segment revision then Ok (Some (component, revision))
          else Raise (DeploymentError "source revision must be a single directory segment")
      | _ => Raise (TypeError "argument is not iterable")
      end
  | (None, _) => Ok None
  end.
Definition manifest_images (component : string) (manifest : json) : outcome (list json) :=
  (λ l, concat l) <$> outcome_map (λ key,
    present ← contains_key key manifest;
    if negb present then Ok [] else
    image ← index key manifest;
    match image with
    | JStr s => if nonempty (strip s) then Ok [image]
                else Raise (DeploymentError ("application manifest " +:+ key +:+ " must be a nonempty string"))
    | _ => Raise (DeploymentError ("application manifest " +:+ key +:+ " must be a nonempty string"))
    end) (if eqb component "control-plane" then ["image"; "modelPreparationImage"] else ["image"]).
Definition source_images (o : origin) (documents : list json) : IO (list json) :=
  selections ← pure (outcome_map source_selection documents);
  images ← collect (λ r,
    manifest ← read_manifest o r.2;
    match manifest with
    | None => throw (DeploymentError ("selected application manifest is unavailable: " +:+ r.2))
    | Some manifest => pure (manifest_images r.1 manifest)
    end) (sort_by id (distinct ((λ s, (s.1, reference o s.1 s.2)) <$> omap id selections)));
  mret (concat images).

(** [references] *)
Definition references (depth : nat) (history : option (list json)) : IO (option (list json)) :=
  match history with
  | None => mret None
  | Some history =>
      objects ← application_consumers;
      more ← pure (application_references depth objects);
      mret (Some (history ++ more))
  end.
End Files.
