(* ===== verification/SourceCleanup.v ===== *)
(** * Retirement of source builds ([build/state.py])

    [reconcile_source_resources] brings the pins of a workstation's images up to
    date; [source_uninstall] removes the writers and caches of an installation
    before the platform goes, and releases the pins nobody uses afterwards.  The
    state files of the workstation are an argument; [removal] is the body of the
    context manager, in which the platform is removed. *)

From Stdlib Require Import Ascii.
From S2P Require Import Prelude Text Kube Manifest Effects Client Instances ImageStore Consumers.

Definition SOURCE_BUILD_CACHE_LABEL : string := "inference.foretoken.io/source-build-cache".
Definition APPLICATION_PUBLISHER_BINDING_LABEL : string := "inference.foretoken.io/application-publisher-binding".

(** ** Access to nodes *)

(** The runtime of a node, with the image and the secrets of a helper there *)
Definition access := list ((string * string) * (string * list string)).

Definition runtime_socket (spec : json) : outcome json :=
  volumes ← get_or "volumes" (JArr []) spec;
  volumes ← elements volumes;
  volume ← find_first (λ v, n ← index "name" v; Ok (is_str "runtime-socket" n)) volumes;
  match volume with
  | Some v => h ← index "hostPath" v; index "path" h
  | None => Ok JNull
  end.
Definition names_at (k : string) (spec : json) : outcome (list string) :=
  l ← get_or k (JArr []) spec; l ← elements l;
  outcome_map (λ item, v ← index "name" item; as_text v) l.
(** [_source_image_access] *)
Definition pod_access (pod : json) : outcome access :=
  spec ← index "spec" pod;
  node ← get "nodeName" spec;
  socket ← runtime_socket spec;
  containers ← (l ← index "containers" spec; elements l);
  images ← find_first (λ c, n ← index "name" c; Ok (is_str "images" n)) containers;
  match images with
  | Some container =>
      if truthy node && truthy socket then
        node ← as_text node; socket ← as_text socket;
        image ← (v ← index "image" container; as_text v);
        secrets ← names_at "imagePullSecrets" spec;
        Ok [((node, socket), (image, secrets))]
      else Ok []
  | None => Ok []
  end.
Definition source_image_access (pods : list json) : outcome access :=
  l ← outcome_map pod_access pods;
  Ok (foldl (λ d e, dset e.1 e.2 d) [] (concat l)).
(** [access.setdefault(key, value)] *)
Definition default_access (d : access) (key : string * string) (value : string * list string) : access :=
  if dmem key d then d else dset key value d.

(** ** Owners *)

(** [(reference["kind"], reference["name"], reference["uid"]) in owners] *)
Definition owner : Type := json * json * json.
Definition same_owner (a b : owner) : bool := py_eqb a.1.1 b.1.1 && py_eqb a.1.2 b.1.2 && py_eqb a.2 b.2.
Definition owner_key (reference : json) : outcome owner :=
  k ← index "kind" reference; n ← index "name" reference; u ← index "uid" reference;
  k ← member k; n ← member n; u ← member u; Ok (k, n, u).
Definition owned (owners : list owner) (document : json) : outcome bool :=
  references ← meta_get "ownerReferences" (JArr []) document;
  references ← elements references;
  any_of (λ r, o ← owner_key r; Ok (existsb (same_owner o) owners)) references.
(** [(kind, document["metadata"]["name"], document["metadata"]["uid"])] *)
Definition owner_of (kind : string) (document : json) : outcome owner :=
  n ← meta_index "name" document; u ← meta_index "uid" document;
  n ← member n; u ← member u; Ok (JStr kind, n, u).

(** [("PersistentVolumeClaim", origin["name"], origin["uid"])] *)
Definition origin_owner (origin : json) : outcome owner :=
  n ← index "name" origin; u ← index "uid" origin;
  n ← member n; u ← member u; Ok (JStr "PersistentVolumeClaim", n, u).

(** [volume.get("persistentVolumeClaim", {}).get("claimName")] *)
Definition claim_name (volume : json) : outcome json :=
  c ← get_or "persistentVolumeClaim" (JObj []) volume; get "claimName" c.
Definition pod_volumes (pod : json) : outcome (list json) :=
  spec ← index "spec" pod; l ← get_or "volumes" (JArr []) spec; elements l.
Definition mounts_claim (claim : json) (pod : json) : outcome bool :=
  volumes ← pod_volumes pod;
  any_of (λ v, n ← claim_name v; Ok (py_eqb n claim)) volumes.

(** A Pod that writes for the installation: owned by its origin, a cache or a
    publisher; a helper of one of its bindings; or a builder that mounts one of its
    caches *)
Definition is_writer (writers storage : list owner) (bindings : list json) (caches : list (string * json)) (pod : json)
    : outcome bool :=
  labels ← meta_get "labels" (JObj []) pod;
  own ← owned writers pod;
  if (own : bool) then Ok true else
  helper ← (h ← get SOURCE_IMAGE_HELPER_LABEL labels;
            if negb (is_str "true" h) then Ok false else
            b ← get SOURCE_BUILD_BINDING_LABEL labels;
            known ← in_set b bindings;
            if negb known then Ok false else owned storage pod);
  if (helper : bool) then Ok true else
  builder ← get SOURCE_BUILD_POD_LABEL labels;
  if negb (is_str "true" builder) then Ok false else
  b ← get SOURCE_BUILD_BINDING_LABEL labels;
  if negb (truthy b) then Ok false else
  volumes ← pod_volumes pod;
  any_of (λ v, n ← claim_name v;
               n ← member n;
               Ok (match n with
                   | JStr n => match dget n caches with Some c => py_eqb c b | None => false end
                   | _ => false
                   end)) volumes.

(** The image and secrets of the helper Pods, from the configuration of the provisioner *)
Class YamlText := safe_load : string → outcome json.
Definition helper_tools `{YamlText} (storage : list json) : outcome (string * list string) :=
  tools ← image_tools_image (JObj []) JNull;
  (fix go (l : list json) : outcome (string * list string) :=
     match l with
     | [] => Ok (tools, [])
     | document :: l =>
         k ← index "kind" document;
         helper ← (if is_str "ConfigMap" k then d ← get_or "data" (JObj []) document; get "helperPod.yaml" d
                   else Ok JNull);
         match helper with
         | JNull => go l
         | JStr text =>
             v ← safe_load text; spec ← index "spec" v;
             image ← (c ← index "containers" spec; c ← first_item c; v ← index "image" c; as_text v);
             secrets ← names_at "imagePullSecrets" spec;
             Ok (image, secrets)
         | _ => Raise AttributeError
         end
     end) storage.

(** ** Removing one object *)

Section Cleanup.
Context {C S : Type} `{Kubectl C} `{Printer} `{JsonText} `{ResourceStream} `{PythonRepr} `{YamlText}.
Abbreviation IO := (IO (world C S)).
Variable fuel depth : nat.
Variable fresh : nat → string.

(** [_remove_source_object] *)
Definition remove_source_object (document : json) (timeout : string) : IO unit :=
  ns ← pure (v ← meta_index "namespace" document; as_text v);
  nm ← pure (v ← meta_index "name" document; as_text v);
  uid ← pure (meta_index "uid" document);
  k ← pure (v ← index "kind" document; as_text v);
  current ← get_if_exists k nm ns;
  match current with
  | None => mret tt
  | Some current =>
      u ← pure (meta_index "uid" current);
      if negb (py_eqb u uid) then mret tt else
      try_except (delete_object fuel current timeout true "Foreground" false)
        (λ e, match deployment_error e with
              | Some _ => Some (remaining ← get_if_exists k nm ns;
                  match remaining with
                  | None => mret tt
                  | Some remaining =>
                      u ← pure (meta_index "uid" remaining);
                      if py_eqb u uid then throw e else mret tt
                  end)
              | None => None
              end)
  end.

(** ** [source_uninstall] *)

(** What belongs to the installation *)
Record inventory := Inventory {
  v_claims : list json;
  v_workspaces : list json;
  v_jobs : list json;
  v_builders : list json;
  v_bindings : list json;
  v_access : access;
}.

Definition filter_owned (owners : list owner) (documents : list json) : outcome (list json) :=
  marks ← outcome_map (λ d, b ← owned owners d; Ok (if (b : bool) then Some d else None)) documents;
  Ok (omap id (marks : list _)).
Definition writer_binding (writer : json) : outcome (list json) :=
  (λ l, concat l) <$> outcome_map (λ k, v ← label k writer; if truthy v then v ← member v; Ok [v] else Ok [])
    [SOURCE_BUILD_BINDING_LABEL; APPLICATION_PUBLISHER_BINDING_LABEL].
Definition label_index (k : string) (document : json) : outcome json :=
  labels ← meta_index "labels" document; v ← index k labels; member v.

Definition cache_bindings (claims : list json) : outcome (list (string * json)) :=
  l ← outcome_map (λ c, n ← meta_index "name" c; b ← label SOURCE_BUILD_BINDING_LABEL c; n ← as_text n; Ok (n, b)) claims;
  Ok (foldl (λ d e, dset e.1 e.2 d) [] l).

(** The reads before anything is removed *)
Definition take_inventory (ns context : string) (origin_owners : list owner) (storage : list json) : IO inventory :=
  claims ← list_labelled ["persistentvolumeclaims"] ns (SOURCE_BUILD_CACHE_LABEL +:+ "=true");
  claims ← pure (filter_owned origin_owners claims);
  cache_owners ← pure (outcome_map (owner_of "PersistentVolumeClaim") claims);
  caches ← pure (cache_bindings claims);
  workspaces ← list_labelled ["configmaps"] ns WORKSPACE_LABEL;
  workspaces ← pure (filter_owned origin_owners workspaces);
  jobs ← list_labelled ["jobs"] ns "foretoken.io/application-files=publisher";
  jobs ← pure (filter_owned origin_owners jobs);
  job_owners ← pure (outcome_map (owner_of "Job") jobs);
  let writers := origin_owners ++ cache_owners ++ job_owners in
  bindings ← pure (members (keep truthy caches.*2));
  more ← pure (outcome_map (label_index WORKSPACE_LABEL) workspaces);
  published ← pure (outcome_map (label_index APPLICATION_PUBLISHER_BINDING_LABEL) jobs);
  let bindings := bindings ++ more ++ published in
  storage_owners ← pure (outcome_map (λ d, k ← index "kind" d;
                                          if is_str "ConfigMap" k then o ← owner_of "ConfigMap" d; Ok [o] else Ok []) storage);
  pods ← list_resources ["pods"] ns;
  marks ← pure (outcome_map (λ pod, b ← is_writer writers (concat storage_owners) bindings caches pod;
                                    Ok (if (b : bool) then Some pod else None)) pods);
  let builders := omap id (marks : list _) in
  own ← pure (outcome_map writer_binding (jobs ++ builders));
  let bindings := bindings ++ concat own in
  found ← pure (source_image_access builders);
  match bindings with
  | [] => mret (Inventory claims workspaces jobs builders bindings found)
  | _ =>
      tools ← pure (helper_tools storage);
      nodes ← list_resources ["nodes"] "";
      reached ← pure (outcome_map (λ node, socket ← node_containerd_socket context node;
                                           if nonempty socket then n ← meta_index "name" node; n ← as_text n; Ok [(n, socket)]
                                           else Ok []) nodes);
      temporary ← pure (outcome_map (meta_index "name") builders);
      let all := foldl (λ d key, default_access d key tools) found (concat reached) in
      mret (Inventory claims workspaces jobs builders bindings
              ((λ e, (e.1, (e.2.1, keep (λ s, negb (existsb (is_str s) temporary)) e.2.2))) <$> all))
  end.

(** Writers go first; a cache goes when no Pod mounts it any more. *)
Definition remove_claim (ns : string) (origin_owners : list owner) (timeout : string) (claim : json) : IO unit :=
  n ← pure (meta_index "name" claim);
  nm ← pure (as_text n);
  uid ← pure (meta_index "uid" claim);
  current ← get_if_exists "pvc" nm ns;
  match current with
  | None => mret tt
  | Some current =>
      u ← pure (meta_index "uid" current);
      if negb (py_eqb u uid) then mret tt else
      own ← pure (owned origin_owners current);
      if negb own then throw (DeploymentError ("compiler PVC " +:+ ns +:+ "/" +:+ nm +:+ " changed ownership")) else
      pods ← list_resources ["pods"] ns;
      users ← pure (outcome_map (λ pod, b ← mounts_claim n pod;
                                        if (b : bool) then v ← meta_index "name" pod; v ← as_text v; Ok [v] else Ok []) pods);
      match concat users with
      | [] => remove_source_object current timeout
      | users => throw (DeploymentError ("compiler PVC " +:+ ns +:+ "/" +:+ nm +:+ " is still used by: " +:+ join ", " users))
      end
  end.
Definition remove_inventory (ns : string) (origin_owners : list owner) (timeout : string) (v : inventory) : IO unit :=
  each (v_jobs v ++ v_builders v) (λ writer, remove_source_object writer timeout) ;;
  each (v_claims v) (remove_claim ns origin_owners timeout) ;;
  each (v_workspaces v) (λ workspace, remove_source_object workspace timeout).

(** Who still uses an image once the platform is gone *)
Definition NATIVE_WORKLOADS : list string :=
  ["pods"; "jobs"; "replicasets"; "deployments"; "statefulsets"; "daemonsets"; "cronjobs"].
Definition images_in_use : IO (list json) :=
  native ← list_all_resources NATIVE_WORKLOADS;
  used ← pure (application_images depth native);
  consumers ← application_consumers;
  selected ← pure (application_images depth consumers);
  templates ← pure (outcome_map (λ d, k ← index "kind" d;
                                      if is_str "CronJob" k then s ← index "spec" d; t ← index "jobTemplate" s; Ok [t]
                                      else Ok []) native);
  scheduled ← pure (application_images depth (concat templates));
  mret (used ++ selected ++ scheduled).

(** [for (node, socket), (tools, secrets) in access.items(): for binding in sorted(bindings): with node_image_store(...)] *)
Definition on_stores (ns timeout : string) (reached : access) (bindings : list string)
    (use : (string * string) → store → IO unit) : IO unit :=
  each reached (λ e,
    each bindings (λ binding,
      node_image_store fuel fresh ns e.1.1 e.1.2 e.2.1 timeout binding e.2.2 (use e.1))).
Definition sorted_texts (l : list json) : outcome (list string) :=
  texts ← outcome_map as_text l; Ok (sort_by id (distinct texts)).
Definition release_unused (ns timeout : string) (v : inventory) : IO unit :=
  retained ← images_in_use;
  bindings ← pure (sorted_texts (v_bindings v));
  on_stores ns timeout (v_access v) bindings (λ _ s,
    release_leases s None ;;
    _ ← release_except s retained; mret tt).

Definition source_uninstall {A} (ns context timeout : string) (origins storage : list json) (removal : IO A) : IO A :=
  origin_owners ← pure (outcome_map origin_owner origins);
  match origin_owners with
  | [] => removal
  | _ =>
      v ← take_inventory ns context origin_owners storage;
      remove_inventory ns origin_owners timeout v ;;
      match v_bindings v, v_access v with
      | [], _ | _, [] => removal
      | _, _ => with_cleanup removal (timeout_seconds timeout) (release_unused ns timeout v)
      end
  end.

(** ** [reconcile_source_resources] *)

(** A state file of the workstation: its directory, its name and its content *)
Definition state_file : Type := (string * string) * json.
Definition build_of (state : json) : outcome json := get_or "build" (JObj []) state.
Definition borrowed (build : json) : outcome bool :=
  b ← get "borrowed_images" build; Ok (match b with JBool true => true | _ => false end).

(** The bindings whose pins this workstation owns *)
Definition own_bindings (checkout : option string) (states : list state_file) : outcome (list json) :=
  l ← outcome_map (λ f : state_file,
        if match checkout with None => true | Some c => eqb f.1.1 c end then
          build ← build_of f.2;
          b ← borrowed build;
          if (b : bool) then Ok [] else
          binding ← get "binding" build;
          binding ← member binding;
          Ok (if is_none binding || is_str "" binding then [] else [binding])
        else Ok []) states;
  Ok (concat l).
(** The images a build has recorded for a node, with their digests *)
Definition recorded (binding node : string) (retained : list json) (state : json) : outcome (list (string * string)) :=
  build ← build_of state;
  own ← get "binding" build;
  if negb (is_str binding own) then Ok [] else
  b ← borrowed build;
  if (b : bool) then Ok [] else
  digests ← get_or "digests" (JObj []) build;
  digests ← get_or node (JObj []) digests;
  images ← get_or "images" (JObj []) build;
  images ← items_of images;
  l ← outcome_map (λ e, used ← in_set e.2 retained;
                        if negb used then Ok [] else
                        present ← contains_key e.1 digests;
                        if negb present then Ok [] else
                        image ← as_text e.2; d ← index e.1 digests; d ← as_text d; Ok [(image, d)]) images;
  Ok (concat l).
(** Services that have selected a source revision *)
Definition selects_source (document : json) : outcome bool :=
  k ← get "kind" document;
  if is_str "InferenceDeployment" k then
    spec ← get_or "spec" (JObj []) document; r ← get "controllerSourceRevision" spec;
    Ok (truthy r)
  else
    service ← in_set k (JStr <$> SERVICE_COMPONENTS.*1);
    if negb service then Ok false else
    r ← annotation SOURCE_REVISION JNull document; Ok (truthy r).

Section Reconcile.
Variables ns release_name : string.
(** The state files for a cluster, its own directory first *)
Variable state_files : string → list state_file.
Variable has_server_binding : bool.

(** The helper image and secrets of this workstation *)
Definition own_tools (builds : list json) (installed : json) : outcome (string * list string) :=
  own ← build_of installed;
  let build := if truthy own then own else List.hd (JObj []) (keep truthy builds) in
  arguments ← get_or "arguments" (JObj []) build;
  mirrors ← get_or "registry_mirrors" (JObj []) build;
  tools ← image_tools_image arguments mirrors;
  default ← (r ← get_or "runtime" (JObj []) installed; get_or "pull_secrets" (JArr []) r);
  secrets ← get_or "pull_secrets" default build;
  secrets ← elements secrets;
  secrets ← outcome_map as_text secrets;
  Ok (tools, secrets).
Definition build_sockets (builds : list json) : outcome (list string) :=
  l ← outcome_map (λ b, v ← get_or "containerd_socket" (JStr "") b; as_text v) builds;
  Ok (keep nonempty (distinct l)).
Definition state_images (builds : list json) : outcome (list json) :=
  l ← outcome_map (λ b, i ← get_or "images" (JObj []) b; i ← values_of i; members i) builds;
  Ok (concat l).

(** What must stay: [None] when the cleanup is deferred *)
Definition retained_images (builds : list json) : IO (option (list json)) :=
  history ← image_history release_name ns depth;
  match history with
  | None => mret None
  | Some history =>
      consumers ← application_consumers;
      used ← pure (application_images depth consumers);
      pending ← pure (any_of selects_source consumers);
      selected ← (if negb pending then mret (Some []) else
                  try_except (o ← open_origin ns; images ← source_images o consumers; mret (Some images))
                    (λ e, match deployment_error e with Some _ => Some (mret None) | None => None end));
      match selected with
      | None => mret None
      | Some selected =>
          local ← pure (state_images builds);
          mret (Some (history ++ used ++ selected ++ local))
      end
  end.

Definition reconcile_source_resources (checkout : option string) (timeout : string) : IO unit :=
  if negb has_server_binding then mret tt else
  namespace ← get_object "namespace" "kube-system" "";
  cluster ← pure (v ← meta_index "uid" namespace; as_text v);
  let states := state_files cluster in
  bindings ← pure (own_bindings checkout states);
  match bindings with
  | [] => mret tt
  | _ =>
      builds ← pure (outcome_map (λ f : state_file, build_of f.2) states);
      let installed := default (JObj []) (dget (cluster, "install.json") states) in
      tools ← pure (own_tools builds installed);
      pods ← list_labelled ["pods"] ns (SOURCE_BUILD_POD_LABEL +:+ "=true");
      found ← pure (source_image_access pods);
      sockets ← pure (build_sockets builds);
      match found, sockets with
      | [], [] => mret tt
      | _, _ =>
          nodes ← list_resources ["nodes"] "";
          names ← pure (match sockets with [] => Ok [] | _ => outcome_map (λ n, v ← meta_index "name" n; as_text v) nodes end);
          let reached := foldl (λ d key, default_access d key tools) found
                           (flat_map (λ n, (λ s, (n, s)) <$> sockets) names) in
          retained ← retained_images builds;
          match retained with
          | None => mret tt
          | Some retained =>
              bindings ← pure (sorted_texts bindings);
              on_stores ns timeout reached bindings (λ key s,
                records ← pure (outcome_map (λ f : state_file, recorded (st_binding s) key.1 retained f.2) states);
                pin_records s (concat records) ;;
                _ ← release_except s retained; mret tt)
          end
      end
  end.
End Reconcile.
End Cleanup.
