(* ===== verification/ImageStoreProofs.v ===== *)
(** * What is done to the images of a node

    An image is unpinned only when the runtime has listed it for the binding of
    the store and no user retains it; an image is pinned for a binding only when
    no other owner has it.  A helper Pod is removed by the UID of its creation on
    every way out of the block that uses it. *)

From Stdlib Require Import Ascii.
From S2P Require Import Prelude Text Kube Manifest Effects Client Instances Fencing Emits ImageStore.

(** Nothing is done on a node. *)
Definition off_node (e : call * reply) : Prop := match e.1 with PodExec _ _ _ _ => False | _ => True end.
(** The call unpins [reference] through the Pod [pod]. *)
Definition releases (e : call * reply) (ns pod reference : string) : Prop :=
  e.1 = PodExec ns pod (release_command reference) None.
Definition pins (e : call * reply) (ns pod binding image : string) : Prop :=
  e.1 = PodExec ns pod (pin_command (Store ns pod binding) image) None.

Lemma off_node_releases e ns pod reference : off_node e → ¬ releases e ns pod reference.
Proof. intros He Hr. unfold off_node, releases in *. by rewrite Hr in He. Qed.
Lemma off_node_pins e ns pod binding image : off_node e → ¬ pins e ns pod binding image.
Proof. intros He Hr. unfold off_node, pins in *. by rewrite Hr in He. Qed.
Lemma release_not_pin s r i : release_command r ≠ pin_command s i.
Proof. unfold release_command, pin_command, containerd. by intros [= -> ?]. Qed.

Section Bracket.
Context {C S : Type} `{Kubectl C} `{Printer} `{JsonText}.
Abbreviation IO := (IO (world C S)).

(** ** The block around a store *)

Lemma obeys_cleanup {A} P (m : IO A) seconds c :
  grows P → obeys P m → obeys P c → obeys P (with_cleanup m seconds c).
Proof.
  intros HP Hm Hc w. destruct (Hm w) as (n & Hn & Hq). unfold with_cleanup.
  assert (∀ error, obeys P (cleanup_commands error c)) as Hcc.
  { intros error. apply obeys_try; [done..|]. intros e k Hk. destruct error; [|done].
    destruct (absorbed e); [|done]. injection Hk as <-. apply obeys_ret. }
  assert (∀ error (k : IO A), obeys P k → obeys P (pure seconds ;; cleanup_commands error c ;; k)) as Hk.
  { intros error k Hk. apply obeys_pure_bind. intros ? _. apply obeys_bind; [done|apply Hcc|done]. }
  destruct (m w) as [[a|e|] w1]; simpl in *; [..|by exists n].
  - destruct (Hk None (mret a) (obeys_ret _ _) w1) as (n1 & Hn1 & Hq1). exists (n1 ++ n). rewrite <-app_assoc, <-Hn.
    split; [done|]. case_match; (apply ordered_app; [done|by apply ordered_more]).
  - destruct (Hk (Some e) (throw e) (obeys_throw _ _) w1) as (n1 & Hn1 & Hq1). exists (n1 ++ n). rewrite <-app_assoc, <-Hn.
    split; [done|]. case_match; (apply ordered_app; [done|by apply ordered_more]).
Qed.

Lemma only_attempt {A} P (m : IO A) : only P m → only P (attempt m).
Proof.
  intros Hm w. destruct (Hm w) as (n & Hn & Hq). exists n. unfold attempt. by destruct (m w) as [[a|e|] w1].
Qed.

Lemma emits_attempt {A} (m : IO A) (Q : A → calls → Prop) :
  emits m Q (λ _, True) → emits (attempt m) (λ r n, match r with inl a => Q a n | inr _ => True end) (λ _, True).
Proof.
  intros Hm w. destruct (Hm w) as (n & Hn & Hq). exists n. unfold attempt. by destruct (m w) as [[a|e|] w1].
Qed.

Lemma off_node_retire fuel ns timeout binding nm attempted metadata uid :
  only off_node (retire_helper fuel ns timeout binding nm attempted metadata uid : IO unit).
Proof.
  unfold retire_helper. only_auto; try by apply only_get_if_exists.
  apply only_try; [by apply only_delete_object|]. intros e k. destruct (deployment_error e); [|done]. intros [= <-].
  apply only_bind; [by apply only_get_if_exists|]. only_auto.
Qed.

(** Outside of [use] nothing is done on the node, and [use] works for the binding in
    the namespace. *)
Lemma obeys_store {A} P fuel fresh ns node socket tools timeout binding secrets (use : store → IO A) :
  grows P → (∀ r e, off_node e → P r e) →
  (∀ s, st_namespace s = ns → st_binding s = binding → obeys P (use s)) →
  obeys P (node_image_store fuel fresh ns node socket tools timeout binding secrets use).
Proof.
  intros HP Hoff Huse. assert (∀ B (m : IO B), only off_node m → obeys P m) as Hq by (intros; by eapply obeys_only).
  unfold node_image_store. apply obeys_bind; [done|by apply Hq, only_list|]. intros pods.
  apply obeys_pure_bind. intros [builder|] _.
  { do 2 (apply obeys_pure_bind; intros ? _). by apply Huse. }
  apply obeys_bind; [done|by apply Hq, only_list|]. intros [|storage [|]]; [apply obeys_throw| |apply obeys_throw].
  apply obeys_pure_bind. intros o _. apply obeys_bind; [done|apply Hq, only_ask|]. intros n. cbv zeta.
  do 2 (apply obeys_pure_bind; intros ? _).
  apply obeys_bind; [done|..].
  { apply Hq, only_attempt. apply only_bind; [by apply only_run_json|]. only_auto. }
  intros [metadata|e]; (apply obeys_cleanup; [done| |apply Hq, off_node_retire]).
  - apply obeys_bind; [done|by apply Hq, only_run|]. intros _. by apply Huse.
  - apply obeys_throw.
Qed.
End Bracket.

(** ** Unpinning *)

(** A command on the node printed a text. *)
Definition said `{Printer} (n : calls) (ns pod : string) (command : list string) (text : string) : Prop :=
  ∃ r, (PodExec ns pod command None, r) ∈ n ∧ prints r text.
(** The runtime has listed [reference] among the images of the binding. *)
Definition reported `{Printer} (n : calls) (ns pod binding reference : string) : Prop :=
  ∃ text line ls, said n ns pod (containerd ++ ["images"; "list"; owner_selector binding]) text ∧
    line ∈ rows text ∧ row_labels line = Ok (reference, ls).

Lemma growing_said `{Printer} ns pod command text : growing (λ n, said n ns pod command text).
Proof. unfold said. auto with growing. Qed.
#[export] Hint Resolve growing_said : growing.
Lemma growing_reported `{Printer} ns pod binding reference : growing (λ n, reported n ns pod binding reference).
Proof. unfold reported. auto 10 with growing. Qed.
#[export] Hint Resolve growing_reported : growing.

Section Images.
Context {C S : Type} `{Kubectl C} `{Printer} `{JsonText}.
Abbreviation IO := (IO (world C S)).
Variable s : store.

Lemma emits_exec command :
  emits (exec_store s command None : IO string) (λ text n, said n (st_namespace s) (st_pod s) command text) (λ _, True).
Proof. apply emits_call_text; [|done]. intros text r Hr. exists r. split; [|done]. left. Qed.

Lemma keys_dset {V} k (v : V) (d : list (string * V)) x : x ∈ (dset k v d).*1 ↔ x = k ∨ x ∈ d.*1.
Proof.
  induction d as [|[k1 v1] d IH]; simpl; [set_solver|]. destruct (eqb k1 k) eqn:E; reflect_in E; set_solver.
Qed.

Lemma keys_update {A V} (f : A → string) (g : A → V) l d x :
  x ∈ (foldl (λ d a, dset (f a) (g a) d) d l).*1 → x ∈ d.*1 ∨ x ∈ f <$> l.
Proof.
  revert d. induction l as [|a l IH]; intros d; simpl; [auto|]. intros [Hx|Hx]%IH; [|right; by right].
  apply keys_dset in Hx as [->|?]; [right; left|by left].
Qed.

Lemma emits_owned_images :
  emits (owned_images s : IO _)
    (λ own n, ∀ reference, reference ∈ own.*1 → reported n (st_namespace s) (st_pod s) (st_binding s) reference) (λ _, True).
Proof.
  eapply emits_seq; [apply emits_exec|]. intros text. apply emits_pure_bind; [|done]. intros parsed Hp.
  apply emits_ret. intros n Hs reference Href.
  apply keys_update in Href as [[]%not_elem_of_nil|Hin].
  apply list_elem_of_fmap in Hin as ([ref ls] & -> & Hrow).
  apply outcome_map_Ok in Hp. destruct (list_elem_of_lookup_1 _ _ Hrow) as [i Hi].
  destruct (Forall2_lookup_r _ _ _ _ _ Hp Hi) as (line & Hline%list_elem_of_lookup_2 & Hl). exists text, line, ls. done.
Qed.

(** Calls of this store on its node *)
Definition on_store (P : list string → Prop) (e : call * reply) : Prop :=
  ∃ command input, e.1 = PodExec (st_namespace s) (st_pod s) command input ∧ P command.
Lemma only_exec (P : list string → Prop) command input : P command → only (on_store P) (exec_store s command input : IO _).
Proof. intros HP. apply only_call_text. intros r. by exists command, input. Qed.

(** Neither unpins nor pins *)
Definition neutral (command : list string) : Prop :=
  (∀ reference, command ≠ release_command reference) ∧ (∀ s' image, command ≠ pin_command s' image).
Lemma neutral_permits e ns pod reference : on_store neutral e → ¬ releases e ns pod reference.
Proof. intros (command & input & He & Hr & _) Hrel. rewrite Hrel in He. injection He as _ _ <- _. by eapply Hr. Qed.
Lemma neutral_no_pin e ns pod binding image : on_store neutral e → ¬ pins e ns pod binding image.
Proof. intros (command & input & He & _ & Hp) Hpin. rewrite Hpin in He. injection He as _ _ <- _. by eapply Hp. Qed.

Lemma neutral_owned_images : only (on_store neutral) (owned_images s : IO _).
Proof. unfold owned_images. only_auto. by apply only_exec. Qed.
Lemma neutral_release_leases identifiers : only (on_store neutral) (release_leases s identifiers : IO _).
Proof. unfold release_leases. only_auto; by apply only_exec. Qed.
Lemma neutral_matches image digest : only (on_store neutral) (matches s image digest : IO _).
Proof. unfold matches, image_manifest_digest, read_descriptor, images. only_auto; by apply only_exec. Qed.

(** [release_except] unpins what the runtime reports for the binding and nobody retains. *)
Definition release_allowed (ns : string) (bindings : list string) (unused : string → Prop) (r : calls) (e : call * reply)
    : Prop :=
  ∀ ns' pod reference, releases e ns' pod reference →
    ns' = ns ∧ unused reference ∧ ∃ binding, binding ∈ bindings ∧ reported r ns pod binding reference.
Lemma grows_release_allowed ns bindings unused : grows (release_allowed ns bindings unused).
Proof. intros e. unfold release_allowed. auto 10 with growing. Qed.

Lemma obeys_release_except retained bindings (unused : string → Prop) :
  st_binding s ∈ bindings → (∀ reference, retains retained reference = false → unused reference) →
  obeys (release_allowed (st_namespace s) bindings unused) (release_except s retained : IO _).
Proof.
  intros Hb Hun. eapply obeys_seq; [|apply emits_owned_images|].
  { eapply obeys_only; [|apply neutral_owned_images]. intros r e He ns pod reference Hr. by apply neutral_permits in Hr. }
  intros own n Hown. cbv beta.
  pose proof (grows_shift _ n (grows_release_allowed (st_namespace s) bindings unused)) as Hg.
  apply obeys_bind; [done| |intros _; apply obeys_ret].
  apply obeys_each; [done|]. intros x Hx.
  apply (obeys_only (on_store (λ c, c = release_command x))).
  - intros r e (command & input & He & ->) ns pod reference Hr. rewrite Hr in He.
    injection He as -> -> ->. split; [done|].
    assert (x ∈ keep (λ r, negb (retains retained r)) own.*1) as (Hin & Hk)%elem_of_keep by (by eapply elem_of_sort_by).
    split; [apply Hun; by destruct (retains retained x)|]. exists (st_binding s). split; [done|].
    eapply growing_reported; [|by apply Hown]. intros y Hy. apply elem_of_app. by right.
  - only_auto. by apply only_exec.
Qed.

(** ** Pinning *)

(** The index [d] has one child, the image manifest [d']. *)
Definition wraps (n : calls) (ns pod d d' : string) : Prop :=
  ∃ t j c t' m, said n ns pod (containerd ++ ["content"; "get"; d]) t ∧ loads_text t = Ok j ∧
    single_child j = Ok (Some c) ∧ text_index "digest" c = Ok d' ∧
    said n ns pod (containerd ++ ["content"; "get"; d']) t' ∧ loads_text t' = Ok m ∧ image_manifest m = Ok true.
(** The runtime has the image with the digest. *)
Definition present (n : calls) (ns pod image digest : string) : Prop :=
  ∃ t d, said n ns pod (containerd ++ ["images"; "list"]) t ∧ dget image (image_digests t) = Some d ∧
    (d = digest ∨ wraps n ns pod d digest).
(** The runtime has listed the image without another owner. *)
Definition unclaimed (n : calls) (image : string) : Prop :=
  ∃ t line row, said n (st_namespace s) (st_pod s) (containerd ++ ["images"; "list"; "name==" +:+ dumps image]) t ∧
    line ∈ rows t ∧ row_labels line = Ok row ∧ pinnable s row = true.

Lemma growing_wraps ns pod d d' : growing (λ n, wraps n ns pod d d').
Proof. unfold wraps. auto 20 with growing. Qed.
#[local] Hint Resolve growing_wraps : growing.
Lemma growing_present ns pod image digest : growing (λ n, present n ns pod image digest).
Proof. unfold present. auto 20 with growing. Qed.
Lemma growing_unclaimed image : growing (λ n, unclaimed n image).
Proof. unfold unclaimed. auto 20 with growing. Qed.
#[local] Hint Resolve growing_present growing_unclaimed : growing.

Lemma emits_read_descriptor d :
  emits (read_descriptor s d : IO _)
    (λ j n, ∃ t, said n (st_namespace s) (st_pod s) (containerd ++ ["content"; "get"; d]) t ∧ loads_text t = Ok j) (λ _, True).
Proof.
  eapply emits_seq; [apply emits_exec|]. intros t. apply emits_pure; [|done]. intros j Hj n Hn. by exists t.
Qed.

Lemma emits_manifest_digest d :
  emits (image_manifest_digest s d : IO _) (λ d' n, d' = d ∨ wraps n (st_namespace s) (st_pod s) d d') (λ _, True).
Proof.
  eapply emits_seq; [apply emits_read_descriptor|]. intros j. apply emits_pure_bind; [|done]. intros [c|] Hc.
  2:{ apply emits_ret. by left. }
  apply emits_pure_bind; [|done]. intros own Hown. eapply emits_seq; [apply emits_read_descriptor|]. intros m.
  apply emits_pure_bind; [|done]. intros image Hi. apply emits_ret. intros n1 (t' & Hs' & Hl') n0 (t & Hs & Hl).
  destruct image; [right|by left]. exists t, j, c, t', m. split_and!; try done; [eapply growing_said; [|exact Hs]|eapply growing_said; [|exact Hs']];
    intros x Hx; apply elem_of_app; auto.
Qed.

Lemma emits_images :
  emits (images s : IO _)
    (λ known n, ∃ t, said n (st_namespace s) (st_pod s) (containerd ++ ["images"; "list"]) t ∧ known = image_digests t) (λ _, True).
Proof. eapply emits_seq; [apply emits_exec|]. intros t. apply emits_ret. intros n Hn. by exists t. Qed.

Lemma emits_matches image digest :
  emits (matches s image digest : IO _) (λ b n, b = true → present n (st_namespace s) (st_pod s) image digest) (λ _, True).
Proof.
  eapply emits_seq; [apply emits_images|]. intros known. destruct (dget image known) as [d|] eqn:Ed; [|by apply emits_ret].
  destruct (eqb d digest) eqn:E; reflect_in E.
  { apply emits_ret. intros n (t & Hs & ->) _. exists t, d. auto. }
  eapply emits_seq; [apply emits_manifest_digest|]. intros d'. apply emits_ret.
  intros n1 Hd n0 (t & Hs & ->) Hb. reflect_in Hb. subst. destruct Hd as [->|Hd]; [done|].
  exists t, d. split_and!; [|done|right].
  - eapply growing_said; [|done]. intros x Hx. apply elem_of_app. auto.
  - revert Hd. apply growing_wraps. intros x Hx. apply elem_of_app. auto.
Qed.

Definition pin_allowed (records : list (string * string)) (r : calls) (e : call * reply) : Prop :=
  ∀ ns pod binding image, pins e ns pod binding image →
    ns = st_namespace s ∧ pod = st_pod s ∧ binding = st_binding s ∧ unclaimed r image ∧
    ∃ digest, (image, digest) ∈ records ∧ present r ns pod image digest.
Lemma grows_pin_allowed records : grows (pin_allowed records).
Proof. intros e. unfold pin_allowed. auto 20 with growing. Qed.
Lemma neutral_pin_allowed records r e : on_store neutral e → pin_allowed records r e.
Proof. intros He ns pod binding image Hp. by apply neutral_no_pin in Hp. Qed.

Lemma obeys_pin_rows records image digest lines own n t :
  (image, digest) ∈ records → present n (st_namespace s) (st_pod s) image digest →
  said n (st_namespace s) (st_pod s) (containerd ++ ["images"; "list"; "name==" +:+ dumps image]) t →
  lines ⊆ rows t → obeys (λ r, pin_allowed records (r ++ n)) (pin_rows s image lines own : IO _).
Proof.
  intros Hrec Hpre Hs. revert own. induction lines as [|line lines IH]; intros own Hl; simpl; [apply obeys_ret|].
  apply obeys_pure_bind. intros row Hrow. assert (lines ⊆ rows t) as Hl' by set_solver.
  destruct (pinnable s row) eqn:Ep; [|by apply IH].
  apply obeys_bind; [apply grows_shift, grows_pin_allowed| |intros _; by apply IH].
  apply (obeys_only (on_store (λ c, c = pin_command s image))).
  2:{ unfold pin. only_auto. by apply only_exec. }
  intros r e (command & input & He & ->) ns pod binding image' Hp. rewrite Hp in He. injection He as -> -> -> Hb.
  change (binding = st_binding s) in Hb. subst binding.
  assert (∀ x, x ∈ n → x ∈ r ++ n) as Hsub by (intros x Hx; apply elem_of_app; auto).
  split_and!; [done..| |exists digest; split; [done|by eapply growing_present]].
  exists t, line, row. split_and!; [by eapply growing_said|apply Hl; left|done..].
Qed.

Lemma obeys_pin_each records todo own :
  todo ⊆ records → obeys (pin_allowed records) (pin_each s todo own : IO _).
Proof.
  revert own. induction todo as [|[image digest] todo IH]; intros own Ht; simpl; [apply obeys_ret|].
  assert (todo ⊆ records) as Ht' by set_solver. destruct (mem image own); [by apply IH|].
  eapply obeys_seq; [eapply obeys_only; [apply neutral_pin_allowed|apply neutral_matches]|apply emits_matches|].
  intros [|] n Hn; [|by eapply obeys_weaken; [|by apply IH]; intros r e; apply grows_pin_allowed; set_solver].
  eapply obeys_seq; [eapply obeys_only; [|by apply (only_exec neutral)]|apply emits_exec|].
  { intros r e He. by apply neutral_pin_allowed. }
  intros t n1 Hs. apply obeys_bind.
  - apply (grows_shift (λ r, pin_allowed records (r ++ n))), grows_shift, grows_pin_allowed.
  - eapply obeys_weaken; [|eapply (obeys_pin_rows _ _ digest _ _ (n1 ++ n))].
    + intros r e Hr. cbv beta in Hr. rewrite <-app_assoc. exact Hr.
    + apply Ht. left.
    + eapply growing_present; [|by apply Hn]. set_solver.
    + eapply growing_said; [|exact Hs]. set_solver.
    + done.
  - intros own'. eapply obeys_weaken; [|by apply IH]. intros r e. apply grows_pin_allowed. set_solver.
Qed.

Lemma obeys_pin_records records : obeys (pin_allowed records) (pin_records s records : IO _).
Proof.
  unfold pin_records. destruct records as [|record records]; [apply obeys_ret|].
  apply obeys_bind; [apply grows_pin_allowed|eapply obeys_only; [apply neutral_pin_allowed|apply neutral_owned_images]|].
  intros own. by apply obeys_pin_each.
Qed.
End Images.

(** ** The helper Pod *)

(** A later answer showed no Pod, or another one. *)
Definition left (n : calls) (current : json) : Prop :=
  ∃ k nm ns v, (GetObject k nm ns true, Output v) ∈ n ∧ from_option (λ c, other_uid c current) True v.
(** The helper with the UID [uid] is gone: it was not found, or it was found and has left. *)
Definition helper_gone (n : calls) (nm ns : string) (uid : json) : Prop :=
  ∃ v, (GetObject "pod" nm ns true, Output v) ∈ n ∧
    from_option (λ c, ∃ u, meta_index "uid" c = Ok u ∧ (py_eqb u uid = false ∨ py_eqb u uid = true ∧ left n c)) True v.
(** The Pod whose deletion is requested is the helper. *)
Definition deletes_helper (binding : string) (metadata : option json) (owner_uid : json) (nm ns : string) (r : calls)
    (e : call * reply) : Prop :=
  ∀ path o, e.1 = DeleteRaw path o →
    ∃ current u, (GetObject "pod" nm ns true, Output (Some current)) ∈ r ∧
      is_helper binding metadata owner_uid current = Ok true ∧
      meta_index "uid" current = Ok u ∧ o = delete_options u None "Foreground".

Section Helper.
Context {C S : Type} `{Kubectl C} `{Printer} `{JsonText}.
Abbreviation IO := (IO (world C S)).
Variables (fuel : nat) (ns timeout binding : string).

Lemma obeys_retire nm attempted metadata owner_uid :
  obeys (deletes_helper binding metadata owner_uid nm ns)
    (retire_helper fuel ns timeout binding nm attempted metadata owner_uid : IO unit).
Proof.
  unfold retire_helper.
  assert (∀ A (m : IO A) (P : calls → call * reply → Prop), (∀ r e, reading e → P r e) → only reading m → obeys P m) as Hread
    by (intros; by eapply obeys_only).
  assert (∀ r e, reading e → deletes_helper binding metadata owner_uid nm ns r e) as Hr.
  { intros r e He path o Ho. unfold reading in He. rewrite Ho in He. discriminate. }
  destruct attempted; [|apply emits_ret_bind, obeys_ret].
  - eapply obeys_seq; [apply Hread; [exact Hr|by apply only_get_if_exists]|apply emits_get_if_exists|].
    intros [current|] n [-> _]; [|apply obeys_ret]. apply obeys_pure_bind. intros own Hown. destruct own; simpl; [|apply obeys_ret].
    apply obeys_try.
    + intros e r r' Hsub Hp path o Ho. destruct (Hp path o Ho) as (c & u & Hin & ? & ? & ?). exists c, u. split_and!; [set_solver|done..].
    + eapply obeys_only; [|apply only_deletes]. intros r e He path o Ho. destruct (He path o Ho) as (u & Hu & ->).
      exists current, u. split_and!; [set_solver|done..].
    + intros e k. destruct (deployment_error e); [|done]. intros [= <-]. apply Hread; [intros; by apply Hr|].
      apply only_bind; [by apply only_get_if_exists|]. only_auto.
Qed.

Lemma vanished_left n o : vanished n o → left n o.
Proof. intros (k & nm & ns' & v & Hin & _ & Hv). by exists k, nm, ns', v. Qed.
Lemma growing_left o : growing (λ n, left n o).
Proof. unfold left. auto 10 with growing. Qed.

Lemma emits_retire nm metadata owner_uid uid :
  index "uid" metadata = Ok uid →
  emits (retire_helper fuel ns timeout binding nm true (Some metadata) owner_uid : IO unit)
    (λ _ n, helper_gone n nm ns uid) (λ _, True).
Proof.
  intros Hu. unfold retire_helper. eapply emits_seq; [apply emits_get_if_exists|]. intros [current|].
  2:{ apply emits_ret. intros n [-> _]. exists None. split; [set_solver|done]. }
  apply emits_pure_bind; [|done]. intros own Hown. simpl in Hown. steps Hown. rewrite Hu in Hx0. injection Hx0 as <-.
  injection Hown as Hown.
  assert (∀ n n0, n0 = [(GetObject "pod" nm ns true, Output (Some current))] → left n current → py_eqb x uid = true →
            helper_gone (n ++ n0) nm ns uid) as Hgone.
  { intros n n0 -> Hl Eu. exists (Some current). split; [set_solver|]. exists x. split; [done|]. right. split; [done|].
    eapply growing_left; [|exact Hl]. set_solver. }
  destruct own; simpl.
  2:{ apply emits_ret. intros n [-> _]. exists (Some current). split; [set_solver|]. exists x. split; [done|by left]. }
  apply emits_recover.
  - eapply emits_weaken; [apply emits_delete| |done]. intros u n Hn n0 [-> _]. apply Hgone; [done|by apply vanished_left|done].
  - intros e k. destruct (deployment_error e); [|done]. intros [= <-].
    eapply emits_seq; [apply emits_get_if_exists|]. intros [remaining|].
    2:{ apply emits_ret. intros n [-> _] n0 n1 [-> _]. rewrite <-app_assoc. simpl.
        exists None. split; [set_solver|done]. }
    apply emits_pure_bind; [|done]. intros u Hru. apply emits_pure_bind; [|done]. intros v Hcv. same_ok.
    destruct (py_eqb u x) eqn:E; [by apply emits_throw|]. apply emits_ret. intros n [-> _] n0 n1 [-> _].
    apply Hgone; [done| |done]. exists "pod", nm, ns, (Some remaining). split; [set_solver|]. by exists u, x.
Qed.

(** ** The block returns *)

Definition appends {A} (m : IO A) : Prop := ∀ w, ∃ n, trace (m w).2 = n ++ trace w.

(** A Pod of the binding that runs and is ready on the node, is not being deleted, and has the
    container and the socket for image operations *)
Definition ready_builder (node socket : string) (pod : json) : Prop :=
  label SOURCE_BUILD_BINDING_LABEL pod = Ok (JStr binding) ∧
  (∃ del, meta_get "deletionTimestamp" JNull pod = Ok del ∧ truthy del = false) ∧
  (∃ spec container volume host containers volumes, index "spec" pod = Ok spec ∧ get "nodeName" spec = Ok (JStr node) ∧
     (index "containers" spec ≫= elements) = Ok containers ∧ container ∈ containers ∧ index "name" container = Ok (JStr "images") ∧
     (get_or "volumes" (JArr []) spec ≫= elements) = Ok volumes ∧ volume ∈ volumes ∧ index "name" volume = Ok (JStr "runtime-socket") ∧
     get_or "hostPath" (JObj []) volume = Ok host ∧ get "path" host = Ok (JStr socket)) ∧
  (∃ status conditions condition, get_or "status" (JObj []) pod = Ok status ∧ get "phase" status = Ok (JStr "Running") ∧
     (get_or "conditions" (JArr []) status ≫= elements) = Ok conditions ∧ condition ∈ conditions ∧
     get "type" condition = Ok (JStr "Ready") ∧ get "status" condition = Ok (JStr "True")).
Lemma usable_builder_ready node socket pod : usable_builder binding node socket pod = Ok true → ready_builder node socket pod.
Proof.
  unfold usable_builder. intros (own & Hown & Hu)%outcome_bind_Ok. destruct (is_str binding own) eqn:E; [|done]. apply is_str_true in E as ->.
  apply outcome_bind_Ok in Hu as (spec & Hspec & (n & Hn & Hu)%outcome_bind_Ok). destruct (is_str node n) eqn:E; [|done]. apply is_str_true in E as ->.
  apply outcome_bind_Ok in Hu as (del & Hdel & Hu). cbn [negb] in Hu. destruct (truthy del) eqn:Ed; [done|].
  apply outcome_bind_Ok in Hu as (status & Hst & (phase & Hph & Hu)%outcome_bind_Ok).
  destruct (is_str "Running" phase) eqn:E; [|done]. apply is_str_true in E as ->. cbn [negb] in Hu.
  apply outcome_bind_Ok in Hu as (cs & Hcs & (conditions & Hc & (ready & Hr & Hu)%outcome_bind_Ok)%outcome_bind_Ok). destruct ready; [|done].
  apply outcome_bind_Ok in Hu as (ks & Hks & (containers & Hk & (images & Hi & Hu)%outcome_bind_Ok)%outcome_bind_Ok). destruct images; [|done].
  apply outcome_bind_Ok in Hu as (vs & Hvs & (volumes & Hv & Hu)%outcome_bind_Ok).
  apply any_of_true in Hr as (condition & Hcin & Hr), Hi as (container & Hkin & Hi), Hu as (volume & Hvin & Hu).
  unfold true_condition in Hr. unfold mounts_socket in Hu. apply outcome_bind_Ok in Hr as (t & Ht & Hr), Hu as (vn & Hvn & Hu), Hi as (kn & Hkn & [= Hi]).
  destruct (is_str "Ready" t) eqn:Et; [|done]. destruct (is_str "runtime-socket" vn) eqn:Ev; [|done]. cbn [negb] in *.
  apply outcome_bind_Ok in Hr as (s & Hs & [= Hr]), Hu as (host & Hh & (path & Hp & [= Hu])%outcome_bind_Ok).
  apply is_str_true in Et as ->, Ev as ->, Hr as ->, Hu as ->, Hi as ->.
  split_and!; [done|by exists del|exists spec, container, volume, host, containers, volumes|exists status, conditions, condition];
    split_and!; try done; [rewrite Hks|rewrite Hvs|rewrite Hcs]; done.
Qed.
(** A builder of the binding was listed as ready on the node. *)
Definition borrowed_builder (n : calls) (node socket pod : string) : Prop :=
  ∃ j pods builder, (ListObjects ["pods"] (Some ns) (SOURCE_BUILD_POD_LABEL +:+ "=true"), Output (Some j)) ∈ n ∧ listed j pods ∧
    builder ∈ pods ∧ ready_builder node socket builder ∧ meta_index "name" builder = Ok (JStr pod).
(** A Pod was created for the purpose, and afterwards it is gone; only it was deleted. *)
Definition own_helper (before after : calls) (pod : string) : Prop :=
  ∃ document j metadata owner_uid, (CreateObject document, Output (Some j)) ∈ before ∧ index "metadata" j = Ok metadata ∧
    meta_index "name" document = Ok (JStr pod) ∧ ordered (deletes_helper binding (Some metadata) owner_uid pod ns) after ∧
    ∀ uid, index "uid" metadata = Ok uid → helper_gone after pod ns uid.

Lemma emits_returned {A} (m : IO A) Q a w w' :
  emits m Q (λ _, True) → m w = (Returned a, w') → ∃ n, trace w' = n ++ trace w ∧ Q a n.
Proof. intros Hm Hw. destruct (Hm w) as (n & Hn & Hq). rewrite Hw in Hn, Hq. by exists n. Qed.

Lemma cleanup_Returned {A} (m : IO A) seconds c a w w' :
  with_cleanup m seconds c w = (Returned a, w') → ∃ w1, m w = (Returned a, w1) ∧ c w1 = (Returned tt, w').
Proof.
  unfold with_cleanup. destruct (m w) as [[a1|e|] w1]; [..|done].
  - intros (z & _ & (u & w2 & Hc & [= <- <-])%bind_Returned)%pure_bind_Returned. destruct u. exists w1. split; [done|].
    unfold cleanup_commands, try_except in Hc. by destruct (c w1) as [[]].
  - by intros (z & _ & (u & w2 & _ & [=])%bind_Returned)%pure_bind_Returned.
Qed.

(** A block that works on the images of a node leaves no helper behind.  When it
    returns, the body has run in a container of the namespace for the binding, and
    either that container belongs to a builder Pod the cluster had listed as ready for
    the binding on the node, or to a Pod that was created before the body; then, after
    the body, the Pod with the UID of the creation was seen to be gone, and the only
    deletions are those of a Pod with that UID. *)
Theorem helper_lifetime {A} fresh node socket tools secrets (use : store → IO A) a w w' :
  (∀ s, appends (use s)) →
  node_image_store fuel fresh ns node socket tools timeout binding secrets use w = (Returned a, w') →
  ∃ s w1 w2 before during after, st_namespace s = ns ∧ st_binding s = binding ∧
    trace w1 = before ++ trace w ∧ use s w1 = (Returned a, w2) ∧ trace w2 = during ++ trace w1 ∧ trace w' = after ++ trace w2 ∧
    (after = [] ∧ borrowed_builder before node socket (st_pod s) ∨ own_helper before after (st_pod s)).
Proof.
  intros Hadd. unfold node_image_store. intros (pods & w1 & Hpods & Hrest)%bind_Returned.
  destruct (emits_returned _ _ _ _ _ (emits_list _) Hpods) as (n1 & Hn1 & j & -> & Hj).
  apply pure_bind_Returned in Hrest as ([builder|] & Hb & Hrest).
  { apply pure_bind_Returned in Hrest as (nm & Hnm & (pod & Hpod & Huse)%pure_bind_Returned).
    destruct nm as [| | | |nm| |]; try done. injection Hpod as ->. destruct (find_first_Some _ _ _ Hb) as [Hin Hus].
    destruct (Hadd (Store ns pod binding) w1) as [during Hd]. rewrite Huse in Hd.
    exists (Store ns pod binding), w1, w', [(ListObjects ["pods"] (Some ns) (SOURCE_BUILD_POD_LABEL +:+ "=true"), Output (Some j))], during, [].
    split_and!; try done. left. split; [done|]. exists j, pods, builder. split_and!; try done; [left|by apply usable_builder_ready]. }
  apply bind_Returned in Hrest as (storage & w2 & Hst & Hrest).
  destruct (emits_returned _ _ _ _ _ (emits_list _) Hst) as (n2 & Hn2 & _). destruct storage as [|o [|]]; try done.
  apply pure_bind_Returned in Hrest as (owner & _ & (count & w3 & [= <- <-] & Hrest)%bind_Returned). cbv zeta in Hrest.
  apply pure_bind_Returned in Hrest as (owner_name & _ & (owner_uid & _ & Hrest)%pure_bind_Returned).
  apply bind_Returned in Hrest as (created & w3 & Hcr & Hrest). unfold attempt in Hcr.
  set (nm := "foretoken-node-images-" +:+ fresh (length (trace w2))) in *.
  set (document := helper_pod ns nm node binding tools socket secrets owner_name owner_uid) in *.
  destruct created as [metadata|e]; [|apply cleanup_Returned in Hrest as (? & [=] & _)].
  destruct ((j0 ← run_json (CreateObject document); pure (index "metadata" j0)) w2) as [[m|e|] w3'] eqn:Ecr; try done.
  injection Hcr as -> ->. apply bind_Returned in Ecr as (j0 & w4 & Hrun & [Hm <-]%pure_Returned).
  apply bind_Returned in Hrun as (reply & w5 & Hrun & Hdec).
  destruct (emits_returned _ _ _ _ _ (emits_answer _) Hrun) as (n3 & Hn3 & r3 & -> & Hx).
  destruct reply as [[j1|]|]; try done. injection Hdec as -> ->. rewrite (Hx (Some j0) eq_refl) in Hn3. clear Hx.
  apply cleanup_Returned in Hrest as (w6 & Huse & Hret). apply bind_Returned in Huse as (u & w7 & Hwait & Huse).
  destruct (emits_returned _ _ _ _ _ (emits_answer _) Hwait) as (n4 & Hn4 & _).
  destruct (Hadd (Store ns nm binding) w7) as [during Hd]. rewrite Huse in Hd.
  destruct (obeys_retire nm true (Some metadata) owner_uid w6) as (after & Haf & Hord). rewrite Hret in Haf, Hord. cbn [fst snd] in Haf.
  exists (Store ns nm binding), w7, w6, (n4 ++ [(CreateObject document, Output (Some j0))] ++ n2 ++
    [(ListObjects ["pods"] (Some ns) (SOURCE_BUILD_POD_LABEL +:+ "=true"), Output (Some j))]), during, after.
  split_and!; try done. { rewrite Hn4, Hn3, Hn2, Hn1. by rewrite <-!app_assoc. }
  right. exists document, j0, metadata, owner_uid. split_and!; [set_solver|done|done|done|]. intros uid Hu.
  destruct (emits_returned _ _ _ _ _ (emits_retire nm metadata owner_uid uid Hu) Hret) as (after' & Haf' & Hg).
  rewrite Haf in Haf'. by apply app_inv_tail in Haf' as ->.
Qed.
End Helper.
