(* ===== verification/ConsumerProofs.v ===== *)
(** * The images that documents use

    [uses_image d image] says how a document can hold on to an image; the images
    the CLI reads from documents are exactly these.  The reads of the cluster are
    complete: what a set of retained images misses, no listed document uses. *)

From Stdlib Require Import Ascii.
From S2P Require Import Prelude Text Kube Manifest Effects Client Instances Fencing Emits Consumers.

(** ** Specification *)

Section Uses.
Context `{JsonText}.

(** The Pod specification of a document: the one of its template, or its own *)
Definition pod_spec_of (d : json) : outcome json :=
  spec ← get_or "spec" (JObj []) d; template ← get_or "template" (JObj []) spec; get_or "spec" spec template.
Definition runs_container (d c : json) : Prop :=
  ∃ pod_spec key l cs, pod_spec_of d = Ok pod_spec ∧ key ∈ ["containers"; "initContainers"; "ephemeralContainers"] ∧
    get_or key (JArr []) pod_spec = Ok l ∧ elements l = Ok cs ∧ c ∈ cs.
(** The selections of a document: what its status, template or runtime has chosen *)
Definition selections_of (d : json) : outcome (list json) :=
  spec ← get_or "spec" (JObj []) d;
  status ← get_or "status" (JObj []) d;
  template ← get_or "template" (JObj []) spec;
  application ← get_or "application" (JObj []) status;
  own ← get_or "application" (JObj []) template;
  runtime ← get_or "runtime" (JObj []) spec;
  plan ← get_or "plan" (JObj []) status;
  pools ← (p ← get_or "poolApplications" (JObj []) status; values_of p);
  Ok ([application; own; runtime; plan] ++ pools).

Inductive uses_image : json → json → Prop :=
  | uses_container d c image :
      runs_container d c → index "image" c = Ok image → uses_image d image
  | uses_argument d c args l prefix image :
      runs_container d c → index "name" c = Ok (JStr "manager") → get_or "args" (JArr []) c = Ok args →
      elements args = Ok l → prefix ∈ IMAGE_ARGUMENTS → JStr (prefix +:+ image) ∈ l → image ≠ "" →
      uses_image d (JStr image)
  | uses_selection d l selection key image :
      selections_of d = Ok l → selection ∈ l → truthy selection = true → key ∈ ["image"; "workerImage"] →
      get key selection = Ok image → truthy image = true → uses_image d image
  | uses_workspace d v images l image :
      config_entry WORKSPACE_SELECTION_KEY d = Ok (Some v) → index "images" v = Ok images → elements images = Ok l →
      image ∈ l → uses_image d image
  | uses_controller d v template controller image :
      config_entry "controller-selection.json" d = Ok (Some v) → index "template" v = Ok template →
      index "controller" template = Ok controller → uses_image controller image → uses_image d image
  | uses_default d runtime key image :
      is_platform d = Ok true → runtime_settings d = Ok runtime →
      key ∈ ["control_plane_image"; "image"; "model_image"; "omni_image"; "nsight_image"; "preparation_image"] →
      index key runtime = Ok image → truthy image = true → uses_image d image
  | uses_build d l image :
      is_platform d = Ok true → completed_build "images" d = Ok l → image ∈ l → uses_image d image.

(** ** The images that are read are the images that are used *)

Lemma member_Ok v x : member v = Ok x ↔ hashable v = true ∧ x = v.
Proof. unfold member. destruct (hashable v); naive_solver. Qed.
Lemma members_Ok l k : members l = Ok k → k = l.
Proof.
  revert k. induction l as [|v l IH]; intros k; simpl; [by intros [= <-]|].
  intros (x & [_ ->]%member_Ok & (k' & Hk & [= <-])%outcome_bind_Ok)%outcome_bind_Ok. f_equal. by apply IH.
Qed.

Lemma keep_truthy_elem v l : v ∈ keep truthy l ↔ v ∈ l ∧ truthy v = true.
Proof. rewrite elem_of_keep. naive_solver. Qed.

(** The arguments of the manager *)
Lemma prefixed_elem prefixes argument l v :
  prefixed prefixes false argument = Ok l →
  v ∈ l ↔ ∃ prefix image, prefix ∈ prefixes ∧ argument = JStr (prefix +:+ image) ∧ image ≠ "" ∧ v = JStr image.
Proof.
  unfold prefixed. destruct argument as [| | | |a| |]; try done. intros [= <-]. simpl.
  rewrite list_elem_of_fmap. setoid_rewrite elem_of_keep. setoid_rewrite list_elem_of_In. setoid_rewrite in_flat_map.
  setoid_rewrite <-list_elem_of_In. split.
  - intros (i & -> & Hn & p & Hp & Hi). destruct (startswith p a) eqn:Es; [|by apply not_elem_of_nil in Hi].
    apply list_elem_of_singleton in Hi as ->. exists p, (removeprefix p a). split_and!; [done| | |done].
    + f_equal. by apply startswith_split.
    + unfold nonempty in Hn. by destruct (bool_decide_reflect (removeprefix p a = "")).
  - intros (p & i & Hp & [= ->] & Hne & ->). exists i. split; [done|]. split.
    + unfold nonempty. by rewrite bool_decide_eq_false_2.
    + exists p. split; [done|]. rewrite startswith_append. apply list_elem_of_singleton. symmetry. apply drop_chars_append.
Qed.

Lemma container_images_elem c l v :
  container_images c = Ok l →
  v ∈ l ↔ index "image" c = Ok v ∨
    index "name" c = Ok (JStr "manager") ∧ ∃ args k prefix image, get_or "args" (JArr []) c = Ok args ∧ elements args = Ok k ∧
      prefix ∈ IMAGE_ARGUMENTS ∧ JStr (prefix +:+ image) ∈ k ∧ image ≠ "" ∧ v = JStr image.
Proof.
  unfold container_images.
  intros (image & (i & Hi & [_ ->]%member_Ok)%outcome_bind_Ok & (n & Hn & Hrest)%outcome_bind_Ok)%outcome_bind_Ok.
  rewrite Hi, Hn. destruct (is_str "manager" n) eqn:Em; simpl in Hrest.
  - destruct n as [| | | |m| |]; try done. simpl in Em. rewrite eqb_true in Em. subst m.
    apply outcome_bind_Ok in Hrest as (args & Ha & (k & Hk & (ls & Hls & [= <-])%outcome_bind_Ok)%outcome_bind_Ok).
    rewrite elem_of_cons, (elem_of_mapped_concat _ _ _ _ Hls). split.
    + intros [->|(a & ys & Hin & Hys & Hv)]; [by left|right]. split; [done|].
      apply (prefixed_elem _ _ _ _ Hys) in Hv as (p & j & Hp & -> & Hne & ->). by exists args, k, p, j.
    + intros [[= ->]|(_ & args' & k' & p & j & Ha' & Hk' & Hp & Hin & Hne & ->)]; [by left|right]. same_ok.
      destruct (mapped_elem _ _ _ _ Hls Hin) as (ys & Hys & _). exists (JStr (p +:+ j)), ys. split_and!; [done..|].
      apply (prefixed_elem _ _ _ _ Hys). by exists p, j.
  - injection Hrest as <-. rewrite list_elem_of_singleton. split; [intros ->; by left|].
    intros [[= ->]|[[= ->] _]]; [done|]. simpl in Em. by rewrite eqb_refl in Em.
Qed.

(** The containers and selections of a document *)
Definition of_containers (d v : json) : Prop := ∃ c l, runs_container d c ∧ container_images c = Ok l ∧ v ∈ l.
Definition of_selections (d v : json) : Prop :=
  ∃ l selection k, selections_of d = Ok l ∧ selection ∈ l ∧ selection_images selection = Ok k ∧ v ∈ k.

Lemma truthy_entry_elem key j k v : truthy_entry key j = Ok k → v ∈ k ↔ get key j = Ok v ∧ truthy v = true.
Proof.
  unfold truthy_entry. destruct j as [| | | | | |m]; try done. simpl. destruct (truthy (default JNull (dget key m))) eqn:Et.
  - destruct (dget key m) as [x|] eqn:Ed; [|done]. simpl. intros (y & [_ ->]%member_Ok & [= <-])%outcome_bind_Ok.
    rewrite list_elem_of_singleton. split; [by intros ->|by intros [[= ->] _]].
  - intros [= <-]. split; [by intros ?%not_elem_of_nil|]. intros [[= <-] Hv]. congruence.
Qed.
Lemma selection_images_elem selection l v :
  selection_images selection = Ok l →
  v ∈ l ↔ truthy selection = true ∧ ∃ key, key ∈ ["image"; "workerImage"] ∧ get key selection = Ok v ∧ truthy v = true.
Proof.
  unfold selection_images. destruct (truthy selection) eqn:Et; cbn [negb].
  2:{ intros [= <-]. split; [by intros ?%not_elem_of_nil|by intros [? _]]. }
  destruct (outcome_map _ _) as [ys|] eqn:Ef; [|done]. intros [= <-].
  rewrite (elem_of_mapped_concat _ _ _ _ Ef). split.
  - intros (key & k & Hkey & Hk & Hv). split; [done|]. exists key. split; [done|]. by apply (truthy_entry_elem _ _ _ _ Hk).
  - intros (_ & key & Hkey & Hg). destruct (mapped_elem _ _ _ _ Ef Hkey) as (k & Hk & _). exists key, k.
    split_and!; [done..|]. by apply (truthy_entry_elem _ _ _ _ Hk).
Qed.

Lemma workload_images_elem d l v : workload_images d = Ok l → v ∈ l ↔ of_selections d v ∨ of_containers d v.
Proof.
  unfold workload_images. intros Hl. steps Hl. injection Hl as <-.
  assert (selections_of d = Ok ([x3; x4; x5; x6] ++ x7)) as Hsel.
  { unfold selections_of. by replay. }
  assert (pod_spec_of d = Ok x2) as Hpod by (unfold pod_spec_of; by replay).
  rewrite elem_of_app, (elem_of_mapped_concat _ _ _ _ Hx8). f_equiv.
  - split; [by intros (s & k & ? & ? & ?); exists ([x3; x4; x5; x6] ++ x7), s, k|].
    intros (l & s & k & Hs & Hin & Hk & Hv). same_ok. by exists s, k.
  - rewrite list_elem_of_In, in_concat. setoid_rewrite <-list_elem_of_In.
    setoid_rewrite (elem_of_mapped_concat _ _ _ _ Hx9). split.
    + intros (k & (key & ys & Hkey & Hys & Hk) & Hv). steps Hys.
      apply (elem_of_mapped _ _ _ _ Hys) in Hk as (c & Hc & Hk). exists c, k. split; [|done]. by exists x2, key, x10, x11.
    + intros (c & k & (ps & key & cl & cs & Hps & Hkey & Hcl & Hcs & Hc) & Hk & Hv). same_ok. exists k. split; [|done].
      destruct (mapped_elem _ _ _ _ Hx9 Hkey) as (ys & Hys & _). exists key, ys. split_and!; [done..|].
      rewrite Hcl in Hys. simpl in Hys. rewrite Hcs in Hys. simpl in Hys. by apply (elem_of_mapped _ _ _ _ Hys); exists c.
Qed.

Lemma workload_reads d l : workload_images d = Ok l →
  (∀ c, runs_container d c → ∃ k, container_images c = Ok k) ∧
  (∀ k s, selections_of d = Ok k → s ∈ k → ∃ k', selection_images s = Ok k').
Proof.
  unfold workload_images. intros Hl. steps Hl. split.
  - intros c (ps & key & cl & cs & Hps & Hkey & Hcl & Hcs & Hc). unfold pod_spec_of in Hps. steps Hps. same_ok.
    destruct (mapped_elem _ _ _ _ Hx9 Hkey) as (ys & Hys & _). steps Hys. same_ok.
    destruct (mapped_elem _ _ _ _ Hys Hc) as (k & Hk & _). by exists k.
  - intros k s Hk Hs. unfold selections_of in Hk. steps Hk. injection Hk as <-. same_ok.
    destruct (mapped_elem _ _ _ _ Hx8 Hs) as (k & Hk & _). by exists k.
Qed.

Lemma of_containers_uses d v : of_containers d v → uses_image d v.
Proof.
  intros (c & l & Hc & Hl & Hv). apply (container_images_elem _ _ _ Hl) in Hv
    as [Hi|(Hn & args & k & prefix & image & Ha & Hk & Hp & Hin & Hne & ->)]; [by eapply uses_container|by eapply uses_argument].
Qed.
Lemma of_selections_uses d v : of_selections d v → uses_image d v.
Proof.
  intros (l & s & k & Hl & Hs & Hk & Hv). apply (selection_images_elem _ _ _ Hk) in Hv as (Ht & key & Hkey & Hg & Hv).
  by eapply uses_selection.
Qed.

Lemma platform_images_elem d l v : platform_images d = Ok l →
  v ∈ l ↔ is_platform d = Ok true ∧
    ((∃ k, completed_build "images" d = Ok k ∧ v ∈ k) ∨
     (∃ runtime key, runtime_settings d = Ok runtime ∧ truthy v = true ∧ index key runtime = Ok v ∧
        key ∈ ["control_plane_image"; "image"; "model_image"; "omni_image"; "nsight_image"; "preparation_image"])).
Proof.
  unfold platform_images. intros (platform & Hp & Hl)%outcome_bind_Ok. destruct platform; cbn [negb] in Hl.
  2:{ injection Hl as <-. split; [by intros ?%not_elem_of_nil|]. intros [? _]. congruence. }
  steps Hl. injection Hl as <-. apply members_Ok in Hx2 as ->. rewrite elem_of_app, keep_truthy_elem, (elem_of_mapped _ _ _ _ Hx1).
  split.
  - intros [Hv|[(key & Hkey & Hi) Ht]]; (split; [done|]); [left; by exists x0|right; by exists x, key].
  - intros [_ [(k & Hk & Hv)|(runtime & key & Hr & Ht & Hi & Hkey)]]; same_ok; [by left|right]. split; [by exists key|done].
Qed.

(** The four sources of images *)
Lemma document_images_parts depth d l : document_images depth d = Ok l →
  ∃ workspace retained selection controller platform workload,
    l = retained ++ controller ++ platform ++ workload ∧
    config_entry WORKSPACE_SELECTION_KEY d = Ok workspace ∧
    match workspace with
    | Some v => ∃ images, index "images" v = Ok images ∧ elements images = Ok retained
    | None => retained = []
    end ∧
    config_entry "controller-selection.json" d = Ok selection ∧
    match selection with
    | Some v => ∃ depth' template c, depth = S depth' ∧ index "template" v = Ok template ∧
                  index "controller" template = Ok c ∧ document_images depth' c = Ok controller
    | None => controller = []
    end ∧
    platform_images d = Ok platform ∧ workload_images d = Ok workload.
Proof.
  intros Hl. destruct depth as [|depth]; simpl in Hl; steps Hl; injection Hl as <-;
    exists x, x0, x1, x2, x3, x4; (split_and!; [done..| |done| |done|done]).
  1,3: destruct x; [steps Hx0; apply members_Ok in Hx0 as ->; eauto|by injection Hx0].
  - destruct x1; [by steps Hx2|by injection Hx2].
  - destruct x1; [steps Hx2; eauto 10|by injection Hx2].
Qed.

Lemma document_images_sound depth d l v : document_images depth d = Ok l → v ∈ l → uses_image d v.
Proof.
  revert d l. induction depth as [|depth IH]; intros d l (workspace & retained & selection & controller & platform & workload
    & -> & Hw & Hret & Hs & Hc & Hp & Hl)%document_images_parts; rewrite !elem_of_app; intros [Hv|[Hv|[Hv|Hv]]];
    try (apply (platform_images_elem _ _ _ Hp) in Hv as
           [Hpl [(k & Hk & Hv)|(runtime & key & Hr & Ht & Hi & Hkey)]]; [by eapply uses_build|by eapply uses_default]);
    try (apply (workload_images_elem _ _ _ Hl) in Hv as [?|?]; [by apply of_selections_uses|by apply of_containers_uses]);
    try (destruct workspace; [destruct Hret as (images & Hi & He); by eapply uses_workspace|subst; by apply not_elem_of_nil in Hv]);
    (destruct selection; [destruct Hc as (depth' & t & c & [= <-] & Ht & Hcc & Hd)|subst; by apply not_elem_of_nil in Hv]).
  eapply uses_controller; [done..|]. by eapply IH.
Qed.

Lemma document_images_complete depth d l v : uses_image d v → document_images depth d = Ok l → v ∈ l.
Proof.
  intros Hu. revert depth l. induction Hu; intros depth ls (workspace & retained & selection' & controller' & platform & workload
    & -> & Hw & Hret & Hs & Hc & Hp & Hl)%document_images_parts; rewrite !elem_of_app;
    destruct (workload_reads _ _ Hl) as [Hcs Hss]; same_ok; simpl in *; destruct_and?.
  - right; right; right. apply (workload_images_elem _ _ _ Hl). right. destruct (Hcs c) as [k Hk]; [done|].
    exists c, k. split_and!; [done..|]. apply (container_images_elem _ _ _ Hk). by left.
  - right; right; right. apply (workload_images_elem _ _ _ Hl). right. destruct (Hcs c) as [k Hk]; [done|].
    exists c, k. split_and!; [done..|]. apply (container_images_elem _ _ _ Hk). right. split; [done|].
    do 4 eexists. by split_and!.
  - right; right; right. apply (workload_images_elem _ _ _ Hl). left. destruct (Hss l selection) as [k Hk]; [done..|].
    exists l, selection, k. split_and!; [done..|]. apply (selection_images_elem _ _ _ Hk). split; [done|]. by exists key.
  - left. destruct Hret as (images' & Hi & He). same_ok. done.
  - right; left. destruct Hc as (depth' & t & c & -> & Ht & Hcc & Hd). same_ok. by eapply IHHu.
  - right; right; left. apply (platform_images_elem _ _ _ Hp). split; [done|]. right. by exists runtime, key.
  - right; right; left. apply (platform_images_elem _ _ _ Hp). split; [done|]. left. by exists l.
Qed.
End Uses.

(** The images read from a document are exactly the images it uses: those of its
    containers of all three kinds, the images the arguments of a manager name, the
    images of its selections, of a workspace record, of the controller a selection
    embeds, and the defaults and the completed build of a platform configuration. *)
Lemma images_read_exact `{JsonText} (depth : nat) (d : json) (l : list json) (v : json) :
  document_images depth d = Ok l → v ∈ l ↔ uses_image d v.
Proof.
  intros Hl. split; [by apply (document_images_sound depth d l)|]. intros Hu. by apply (document_images_complete depth d l v Hu).
Qed.

Lemma application_images_unused `{JsonText} depth docs l v :
  application_images depth docs = Ok l → v ∉ l → ∀ d, d ∈ docs → ¬ uses_image d v.
Proof.
  unfold application_images. destruct (outcome_map _ docs) as [ys|] eqn:Ey; [|done]. intros [= <-] Hv d Hd Hu.
  destruct (mapped_elem _ _ _ _ Ey Hd) as (k & Hk & Hin). apply Hv. apply (elem_of_mapped_concat _ _ _ _ Ey).
  exists d, k. split_and!; [done..|]. by eapply document_images_complete.
Qed.

(** ** The consumers in the cluster *)

(** The cluster has answered a list in all namespaces with these documents. *)
Definition listed_all (n : calls) (kinds : list string) (selector : string) (docs : list json) : Prop :=
  ∃ j, (ListAllObjects kinds selector, Output (Some j)) ∈ n ∧ listed j docs.
Lemma growing_listed_all kinds selector docs : growing (λ n, listed_all n kinds selector docs).
Proof. unfold listed_all. auto with growing. Qed.
#[export] Hint Resolve growing_listed_all : growing.

(** Every consumer of the API groups that the cluster serves has property [F]. *)
Definition consumers_have `{Printer} (F : json → Prop) (n : calls) : Prop :=
  ∃ r text, (ApiResources (Some "inference.foretoken.io"), r) ∈ n ∧ prints r text ∧
    ∀ q, q ∈ consumer_queries (keep nonempty (strip <$> splitlines text)) →
      ∃ docs, listed_all n q.1 q.2 docs ∧ ∀ d, d ∈ docs → F d.
Lemma growing_consumers `{Printer} F : growing (consumers_have F).
Proof. unfold consumers_have. auto 10 with growing. Qed.
#[export] Hint Resolve growing_consumers : growing.

Section Reads.
Context {C S : Type} `{Kubectl C} `{Printer}.
Abbreviation IO := (IO (world C S)).

Lemma emits_listed kinds selector :
  emits (list_selected kinds selector : IO _) (λ docs n, listed_all n kinds selector docs) (λ _, True).
Proof.
  eapply emits_weaken; [apply emits_list| |done]. intros docs n (j & -> & Hj). exists j. split; [left|done].
Qed.

Lemma emits_consumers :
  emits (application_consumers : IO _) (λ objects n, consumers_have (λ d, d ∈ objects) n) (λ _, True).
Proof.
  eapply emits_seq; [apply emits_api_resources|]. intros available.
  eapply emits_seq; [apply (emits_collect (λ q docs n, listed_all n q.1 q.2 docs))|].
  { intros q docs. apply growing_lasting, growing_listed_all. }
  { intros q _. apply emits_listed. }
  intros answers. apply emits_ret. intros n1 Hall n0 (r & text & -> & Hp & ->). exists r, text. split_and!.
  - apply elem_of_app. right. left.
  - done.
  - intros q Hq. apply list_elem_of_lookup_1 in Hq as [i Hi].
    destruct (Forall2_lookup_l _ _ _ _ _ Hall Hi) as (docs & Hd%list_elem_of_lookup_2 & Hl). exists docs. split.
    + eapply growing_listed_all; [|exact Hl]. set_solver.
    + intros d Hin. apply list_elem_of_In, in_concat. exists docs. by rewrite <-!list_elem_of_In.
Qed.

Lemma consumers_weaken (F G : json → Prop) n : (∀ d, F d → G d) → consumers_have F n → consumers_have G n.
Proof.
  intros HFG (r & text & Hr & Hp & Hq). exists r, text. split_and!; [done..|]. intros q Hin.
  destruct (Hq q Hin) as (docs & Hd & HF). exists docs. auto.
Qed.
End Reads.

(** ** The history of the platform *)

Definition helm_said `{Printer} (n : calls) (args : list string) (text : string) : Prop :=
  ∃ r, (HelmRead args, r) ∈ n ∧ prints r text.
Lemma growing_helm_said `{Printer} args text : growing (λ n, helm_said n args text).
Proof. unfold helm_said. auto with growing. Qed.
#[export] Hint Resolve growing_helm_said : growing.

Section History.
Context {C S : Type} `{Kubectl C} `{Printer} `{JsonText} `{ResourceStream} `{PythonRepr}.
Abbreviation IO := (IO (world C S)).
Variables release_name release_namespace : string.

(** There is no release, or every revision up to the current one was read and its
    documents satisfy [F]. *)
Definition history_has (F : list json → Prop) (n : calls) : Prop :=
  (∃ detail, (HelmRead (metadata_args release_name release_namespace), Failed detail) ∈ n ∧
     contains "release: not found" detail = true) ∨
  ∃ status version revision history items,
    helm_said n (status_args release_name release_namespace) status ∧
    (v ← loads_text status; index "version" v) = Ok version ∧ int_of version = Ok revision ∧
    helm_said n (history_args release_name release_namespace revision) history ∧
    (v ← loads_text history; elements v) = Ok items ∧
    ∀ item, item ∈ items → ∃ r z manifest documents, index "revision" item = Ok r ∧ int_of r = Ok z ∧ z ≤ revision ∧
      helm_said n (manifest_args release_name release_namespace r) manifest ∧
      decode_resources manifest = Ok documents ∧ F documents.
Lemma growing_history F : growing (history_has F).
Proof. unfold history_has. auto 30 with growing. Qed.

Lemma emits_helm_text args : emits (helm_text args : IO _) (λ text n, helm_said n args text) (λ _, True).
Proof. apply emits_call_text; [|done]. intros text r Hr. exists r. split; [left|done]. Qed.

Lemma emits_release_exists :
  emits (release_exists release_name release_namespace : IO bool)
    (λ b n, b = false → ∃ detail, (HelmRead (metadata_args release_name release_namespace), Failed detail) ∈ n ∧
       contains "release: not found" detail = true) (λ _, True).
Proof.
  intros w. unfold release_exists. destruct (serve _ (cluster w)) as [[v|t|detail] c'].
  - exists [(HelmRead (metadata_args release_name release_namespace), Output v)]. split; [done|]. by intros [=].
  - exists [(HelmRead (metadata_args release_name release_namespace), Unparsed t)]. split; [done|]. by intros [=].
  - exists [(HelmRead (metadata_args release_name release_namespace), Failed detail)].
    destruct (contains _ detail) eqn:E; (split; [done|]); [|done]. intros _. exists detail. split; [left|done].
Qed.

Lemma emits_history extract :
  emits (history_references release_name release_namespace extract : IO _)
    (λ refs n, ∀ refs', refs = Some refs' → history_has (λ docs, ∃ k, extract docs = Ok k ∧ k ⊆ refs') n) (λ _, True).
Proof.
  unfold history_references. eapply emits_seq; [apply emits_release_exists|]. intros [|]; cbn [negb].
  2:{ apply emits_ret. intros n Hn refs' [= <-]. left. by apply Hn. }
  eapply emits_seq; [apply emits_helm_text|]. intros status. apply emits_pure_bind; [|done]. intros revision Hrev.
  eapply emits_seq; [apply emits_helm_text|]. intros history. apply emits_pure_bind; [|done]. intros items Hitems.
  apply emits_pure_bind; [|done]. intros advanced Hadv. destruct advanced; [by apply emits_ret|].
  eapply emits_seq; [apply (emits_collect (λ item k n, ∃ r manifest documents, index "revision" item = Ok r ∧
      helm_said n (manifest_args release_name release_namespace r) manifest ∧ decode_resources manifest = Ok documents ∧
      extract documents = Ok k))|].
  { intros item k. apply growing_lasting. auto 10 with growing. }
  { intros item _. apply emits_pure_bind; [|done]. intros r Hr. eapply emits_seq; [apply emits_helm_text|]. intros manifest.
    apply emits_pure; [|done]. intros k Hk n Hn. steps Hk. by exists r, manifest, x. }
  intros answers. apply emits_ret. intros n3 Hall n2 Hh n1 Hs n0 _ refs' [= <-]. right. steps Hrev.
  exists status, x0, revision, history, items. split_and!; [eapply growing_helm_said; [|exact Hs]; set_solver| |done
    |eapply growing_helm_said; [|exact Hh]; set_solver|done|].
  { by replay. }
  intros item Hitem. pose proof (any_of_false _ _ Hadv item Hitem) as Hle. steps Hle. unfold read_revision in Hx1. steps Hx1.
  injection Hle as Hle. apply list_elem_of_lookup_1 in Hitem as [i Hi].
  destruct (Forall2_lookup_l _ _ _ _ _ Hall Hi) as (k & Hk%list_elem_of_lookup_2 & r & manifest & documents & Hr & Hm & Hd & He).
  same_ok. exists x2, x1, manifest, documents. split_and!; [done|done|lia| |done|].
  - eapply growing_helm_said; [|exact Hm]. set_solver.
  - exists k. split; [done|]. intros y Hy. apply list_elem_of_In, in_concat. exists k. by rewrite <-!list_elem_of_In.
Qed.
End History.
