(* ===== verification/SourceCleanupProofs.v ===== *)
(** * What the retirement of source builds may touch

    An image is unpinned only after a complete look at the cluster in which no
    document uses it; an object is deleted only when it belongs to the
    installation, by its UID, and a cache only after its writers are gone and no Pod
    mounts it. *)

From Stdlib Require Import Ascii.
From S2P Require Import Prelude Text Kube Manifest Effects Client Instances Fencing Emits ImageStore ImageStoreProofs Consumers ConsumerProofs SourceCleanup.

Lemma py_eqb_text s v : py_eqb (JStr s) v = true ↔ v = JStr s.
Proof.
  destruct v; simpl; try done. rewrite eqb_true. naive_solver.
Qed.
Lemma retains_false retained reference : retains retained reference = false ↔ JStr reference ∉ retained.
Proof.
  unfold retains. rewrite existsb_none. split.
  - intros Hr Hin. specialize (Hr _ Hin). by rewrite (proj2 (py_eqb_text _ _) eq_refl) in Hr.
  - intros Hnin v Hv. destruct (py_eqb (JStr reference) v) eqn:E; [|done]. apply py_eqb_text in E as ->. done.
Qed.

(** ** Images in use *)

(** The template of a CronJob *)
Definition schedules (d template : json) : Prop :=
  index "kind" d = Ok (JStr "CronJob") ∧ ∃ spec, index "spec" d = Ok spec ∧ index "jobTemplate" spec = Ok template.
(** A complete look at the cluster has shown no user of the image. *)
Definition seen_unused `{Printer} `{JsonText} (n : calls) (image : string) : Prop :=
  (∃ docs, listed_all n NATIVE_WORKLOADS "" docs ∧
     ∀ d, d ∈ docs → ¬ uses_image d (JStr image) ∧ ∀ t, schedules d t → ¬ uses_image t (JStr image)) ∧
  consumers_have (λ d, ¬ uses_image d (JStr image)) n.
Lemma growing_seen_unused `{Printer} `{JsonText} image : growing (λ n, seen_unused n image).
Proof. unfold seen_unused. auto 10 with growing. Qed.

Section Cleanup.
Context {C S : Type} `{Kubectl C} `{Printer} `{JsonText} `{ResourceStream} `{PythonRepr} `{YamlText}.
Abbreviation IO := (IO (world C S)).

Lemma emits_images_in_use depth :
  emits (images_in_use depth : IO _)
    (λ retained n, ∀ image, retains retained image = false → seen_unused n image) (λ _, True).
Proof.
  unfold images_in_use. eapply emits_seq; [apply emits_listed|]. intros native.
  apply emits_pure_bind; [|done]. intros used Hused.
  eapply emits_seq; [apply emits_consumers|]. intros consumers.
  apply emits_pure_bind; [|done]. intros selected Hsel.
  apply emits_pure_bind; [|done]. intros templates Htem.
  apply emits_pure_bind; [|done]. intros scheduled Hsch.
  apply emits_ret. intros n1 Hc n0 Hl image [Hu [Hs Hh]%not_elem_of_app]%retains_false%not_elem_of_app. split.
  - exists native. split; [eapply growing_listed_all; [|exact Hl]; set_solver|]. intros d Hd. split.
    + by apply (application_images_unused _ _ _ _ Hused).
    + intros t (Hk & spec & Hspec & Ht). eapply application_images_unused; [exact Hsch|done|].
      apply (elem_of_mapped_concat _ _ _ _ Htem). destruct (mapped_elem _ _ _ _ Htem Hd) as (k & Hkk & _). exists d, k.
      split_and!; [done..|]. rewrite Hk in Hkk. simpl in Hkk. rewrite Hspec in Hkk. simpl in Hkk. rewrite Ht in Hkk. simpl in Hkk.
      injection Hkk as <-. left.
  - eapply consumers_weaken; [|eapply growing_consumers; [|exact Hc]; set_solver].
    intros d Hd. by apply (application_images_unused _ _ _ _ Hsel).
Qed.

Lemma off_node_images_in_use depth : only off_node (images_in_use depth : IO _).
Proof.
  unfold images_in_use, application_consumers, list_all_resources, list_selected, api_resource_names, decode_resource_list.
  only_auto; first [by apply only_run|by apply only_run_text].
Qed.

Lemma obeys_stores P fuel fresh ns timeout reached bindings use :
  grows P → (∀ r e, off_node e → P r e) →
  (∀ key s, st_namespace s = ns → st_binding s ∈ bindings → obeys P (use key s)) →
  obeys P (on_stores fuel fresh ns timeout reached bindings use : IO unit).
Proof.
  intros HP Hoff Huse. unfold on_stores. apply obeys_each; [done|]. intros e _. apply obeys_each; [done|]. intros binding Hb.
  apply obeys_store; [done..|]. intros s Hns Hs. apply Huse; [done|]. by rewrite Hs.
Qed.

Lemma sorted_texts_elem l k x : sorted_texts l = Ok k → x ∈ k → JStr x ∈ l.
Proof.
  unfold sorted_texts. intros (texts & Ht & [= <-])%outcome_bind_Ok Hx.
  rewrite elem_of_sort_by, elem_of_distinct in Hx. apply (elem_of_mapped _ _ _ _ Ht) in Hx as (v & Hv & Hx).
  destruct v; try done. by injection Hx as ->.
Qed.

(** An image is unpinned for a binding of the installation, which the runtime of
    the node reports as its owner, after a complete look has shown no user. *)
Definition unpins_unused (ns : string) (bindings : list json) (r : calls) (e : call * reply) : Prop :=
  ∀ ns' pod image, releases e ns' pod image →
    ns' = ns ∧ seen_unused r image ∧ ∃ binding, JStr binding ∈ bindings ∧ reported r ns pod binding image.
Lemma grows_unpins_unused ns bindings : grows (unpins_unused ns bindings).
Proof. intros e. unfold unpins_unused. auto 10 using growing_seen_unused with growing. Qed.

Lemma obeys_release_unused fuel depth fresh ns timeout v :
  obeys (unpins_unused ns (v_bindings v)) (release_unused fuel depth fresh ns timeout v : IO unit).
Proof.
  assert (∀ bs r e, off_node e → unpins_unused ns bs r e) as Hoff.
  { intros bs r e He ns' pod image Hr. by apply off_node_releases in Hr. }
  eapply obeys_seq; [eapply obeys_only; [apply Hoff|apply off_node_images_in_use]|apply emits_images_in_use|].
  intros retained n Hun. apply obeys_pure_bind. intros bindings Hb.
  apply (obeys_weaken (release_allowed ns bindings (λ image, retains retained image = false))).
  { intros r e He ns' pod image Hr. destruct (He ns' pod image Hr) as (-> & Hi & binding & Hin & Hrep). split; [done|]. split.
    - eapply growing_seen_unused; [|by apply Hun]. set_solver.
    - exists binding. split; [by eapply sorted_texts_elem|]. eapply growing_reported; [|exact Hrep]. set_solver. }
  apply obeys_stores; [apply grows_release_allowed| |].
  { intros r e He ns' pod image Hr. by apply off_node_releases in Hr. }
  intros _ s <- Hs. apply obeys_bind; [apply grows_release_allowed|..].
  { eapply obeys_only; [|apply neutral_release_leases]. intros r e He ns' pod image Hr. by destruct (neutral_permits _ _ _ _ _ He Hr). }
  intros _. apply obeys_bind; [apply grows_release_allowed|by apply obeys_release_except|]. intros _. apply obeys_ret.
Qed.

(** [_remove_source_object] deletes nothing but the current object with the UID of the
    document, and leaves it gone. *)
Definition current_of (n : calls) (d current : json) : Prop :=
  ∃ k nm ns, (GetObject k nm ns true, Output (Some current)) ∈ n ∧ named d nm ns ∧ same_uid current d.
Definition gone (n : calls) (d : json) : Prop :=
  vanished n d ∨ ∃ current, current_of n d current ∧ vanished n current.
Lemma growing_current d current : growing (λ n, current_of n d current).
Proof. unfold current_of. auto 10 with growing. Qed.
Lemma growing_gone d : growing (λ n, gone n d).
Proof. unfold gone. auto 10 using growing_vanished, growing_current with growing. Qed.
#[local] Hint Resolve growing_vanished growing_current growing_gone : growing.

Definition deletes_current (F : json → Prop) (r : calls) (e : call * reply) : Prop :=
  ∀ path o, e.1 = DeleteRaw path o →
    ∃ d current u, F d ∧ current_of r d current ∧ meta_index "uid" current = Ok u ∧ o = delete_options u None "Foreground".
Lemma grows_deletes_current F : grows (deletes_current F).
Proof. intros e. unfold deletes_current. auto 10 with growing. Qed.
Lemma reading_deletes_current F r e : reading e → deletes_current F r e.
Proof. intros Hr path o He. unfold reading in Hr. rewrite He in Hr. discriminate. Qed.

Lemma obeys_remove_object fuel d timeout :
  obeys (deletes_current (eq d)) (remove_source_object fuel d timeout : IO unit).
Proof.
  unfold remove_source_object. apply obeys_pure_bind. intros ns Hns%text_at_Ok. apply obeys_pure_bind. intros nm Hnm%text_at_Ok.
  apply obeys_pure_bind. intros uid Hu. apply obeys_pure_bind. intros k _.
  assert (∀ A (m : IO A) P, (∀ r e, reading e → P r e) → only reading m → obeys P m) as Hread by (intros; by eapply obeys_only).
  eapply obeys_seq; [apply Hread; [apply reading_deletes_current|by apply only_get_if_exists]|apply emits_get_if_exists|].
  intros [current|] n [-> _]; [|apply obeys_ret]. apply obeys_pure_bind. intros u Hcu.
  destruct (py_eqb u uid) eqn:Eu; cbn [negb]; [|apply obeys_ret].
  apply obeys_try; [apply grows_shift, grows_deletes_current|..].
  - eapply obeys_only; [|apply only_deletes]. intros r e He path o Ho. destruct (He path o Ho) as (u' & Hu' & ->). same_ok.
    exists d, current, u. split_and!; [done| |done|done]. exists k, nm, ns. split_and!; [set_solver|by apply named_Ok|].
    by exists u, uid.
  - intros e h. destruct (deployment_error e); [|done]. intros [= <-]. apply Hread; [intros r e' ?; by apply reading_deletes_current|].
    apply only_bind; [by apply only_get_if_exists|]. only_auto.
Qed.

Lemma emits_remove_object fuel d timeout :
  emits (remove_source_object fuel d timeout : IO unit) (λ _ n, gone n d) (λ _, True).
Proof.
  unfold remove_source_object. apply emits_pure_bind; [|done]. intros ns Hns%text_at_Ok.
  apply emits_pure_bind; [|done]. intros nm Hnm%text_at_Ok.
  apply emits_pure_bind; [|done]. intros uid Hu. apply emits_pure_bind; [|done]. intros k _.
  pose proof (named_Ok _ _ _ Hns Hnm) as Hd.
  eapply emits_seq; [apply emits_get_if_exists|]. intros [current|].
  2:{ apply emits_ret. intros n [-> _]. left. exists k, nm, ns, None. split_and!; [set_solver|done..]. }
  apply emits_pure_bind; [|done]. intros u Hcu. destruct (py_eqb u uid) eqn:Eu; cbn [negb].
  2:{ apply emits_ret. intros n [-> _]. left. exists k, nm, ns, (Some current). split_and!; [set_solver|done|]. by exists u, uid. }
  apply emits_recover.
  - eapply emits_weaken; [apply emits_delete| |done]. intros v n Hn n0 [-> _]. right. exists current. split.
    + exists k, nm, ns. split_and!; [set_solver|done|]. by exists u, uid.
    + eapply growing_vanished; [|exact Hn]. set_solver.
  - intros e h. destruct (deployment_error e); [|done]. intros [= <-].
    eapply emits_seq; [apply emits_get_if_exists|]. intros [remaining|].
    2:{ apply emits_ret. intros n [-> _] n0 n1 _. left. exists k, nm, ns, None. split_and!; [set_solver|done..]. }
    apply emits_pure_bind; [|done]. intros u' Hru. destruct (py_eqb u' uid) eqn:Eu'; [by apply emits_throw|].
    apply emits_ret. intros n [-> _] n0 n1 _. left. exists k, nm, ns, (Some remaining). split_and!; [set_solver|done|].
    by exists u', uid.
Qed.

(** ** What belongs to the installation *)

Definition listed_in (n : calls) (kinds : list string) (ns selector : string) (docs : list json) : Prop :=
  ∃ j, (ListObjects kinds (Some ns) selector, Output (Some j)) ∈ n ∧ listed j docs.
Lemma growing_listed_in kinds ns selector docs : growing (λ n, listed_in n kinds ns selector docs).
Proof. unfold listed_in. auto with growing. Qed.
#[local] Hint Resolve growing_listed_in : growing.
Lemma emits_labelled kinds ns selector :
  emits (list_labelled kinds ns selector : IO _) (λ docs n, listed_in n kinds ns selector docs) (λ _, True).
Proof.
  eapply emits_weaken; [apply emits_list| |done]. intros docs n (j & -> & Hj). exists j. split; [left|done].
Qed.

(** Listed, and owned by the file origin of the installation *)
Definition belongs (owners : list owner) (n : calls) (kind ns selector : string) (d : json) : Prop :=
  ∃ docs, listed_in n [kind] ns selector docs ∧ d ∈ docs ∧ owned owners d = Ok true.

Definition mounts (pod claim : json) : Prop :=
  ∃ volumes volume, pod_volumes pod = Ok volumes ∧ volume ∈ volumes ∧ claim_name volume = Ok claim.

(** A Pod that writes for the installation: owned by its origin, a cache or a publisher; a
    helper for one of its bindings, owned by its storage; or a builder that mounts a
    cache of its own binding *)
Definition writer_pod (owners : list owner) (storage : list json) (v : inventory) (pod : json) : Prop :=
  (∃ co jo, outcome_map (owner_of "PersistentVolumeClaim") (v_claims v) = Ok co ∧
     outcome_map (owner_of "Job") (v_jobs v) = Ok jo ∧ owned (owners ++ co ++ jo) pod = Ok true) ∨
  (label SOURCE_IMAGE_HELPER_LABEL pod = Ok (JStr "true") ∧
     (∃ b x, label SOURCE_BUILD_BINDING_LABEL pod = Ok b ∧ x ∈ v_bindings v ∧ py_eqb b x = true) ∧
     ∃ so, (∀ o, o ∈ so → ∃ d, d ∈ storage ∧ owner_of "ConfigMap" d = Ok o) ∧ owned so pod = Ok true) ∨
  (label SOURCE_BUILD_POD_LABEL pod = Ok (JStr "true") ∧
     ∃ claim nm b c, claim ∈ v_claims v ∧ meta_index "name" claim = Ok (JStr nm) ∧ mounts pod (JStr nm) ∧
       label SOURCE_BUILD_BINDING_LABEL pod = Ok b ∧ truthy b = true ∧
       label SOURCE_BUILD_BINDING_LABEL claim = Ok c ∧ py_eqb c b = true).

Definition inventory_of (ns : string) (owners : list owner) (storage : list json) (n : calls) (v : inventory) : Prop :=
  (∀ d, d ∈ v_claims v → belongs owners n "persistentvolumeclaims" ns (SOURCE_BUILD_CACHE_LABEL +:+ "=true") d) ∧
  (∀ d, d ∈ v_workspaces v → belongs owners n "configmaps" ns WORKSPACE_LABEL d) ∧
  (∀ d, d ∈ v_jobs v → belongs owners n "jobs" ns "foretoken.io/application-files=publisher" d) ∧
  (∀ d, d ∈ v_builders v → writer_pod owners storage v d ∧ ∃ docs, listed_in n ["pods"] ns "" docs ∧ d ∈ docs) ∧
  (∀ b, b ∈ v_bindings v → ∃ d k, d ∈ v_claims v ++ v_workspaces v ++ v_jobs v ++ v_builders v ∧ label k d = Ok b ∧
     k ∈ [SOURCE_BUILD_BINDING_LABEL; WORKSPACE_LABEL; APPLICATION_PUBLISHER_BINDING_LABEL]).
Lemma growing_belongs owners kind ns selector d : growing (λ n, belongs owners n kind ns selector d).
Proof. unfold belongs. auto 10 with growing. Qed.
#[local] Hint Resolve growing_belongs : growing.
Lemma growing_inventory ns owners storage v : growing (λ n, inventory_of ns owners storage n v).
Proof. unfold inventory_of. auto 20 with growing. Qed.

Lemma filter_owned_elem owners docs k d : filter_owned owners docs = Ok k → d ∈ k → d ∈ docs ∧ owned owners d = Ok true.
Proof.
  unfold filter_owned. intros (marks & Hm & [= <-])%outcome_bind_Ok Hd%elem_of_omap_id.
  apply (elem_of_mapped _ _ _ _ Hm) in Hd as (x & Hx & (b & Hb & [= Hs])%outcome_bind_Ok). destruct b; by simplify_eq.
Qed.
Lemma elem_of_folded {V} (es d : list (string * V)) e :
  e ∈ foldl (λ d e, dset e.1 e.2 d) d es → e ∈ d ∨ e ∈ es.
Proof.
  revert d. induction es as [|x es IH]; intros d; simpl; [by left|]. intros [Hd|Hd]%IH; [|right; by right].
  clear IH. induction d as [|[k v] d IH]; simpl in Hd.
  - apply list_elem_of_singleton in Hd as ->. right. destruct x. left.
  - destruct (eqb k x.1) eqn:E; reflect_in E.
    + apply elem_of_cons in Hd as [->|Hd]; [right|left; by right]. subst. destruct x. left.
    + apply elem_of_cons in Hd as [->|[Hd|Hd]%IH]; [left; left|left; by right|by right].
Qed.
Lemma cache_bindings_all claims l : cache_bindings claims = Ok l → ∀ nm c, (nm, c) ∈ l →
  ∃ claim, claim ∈ claims ∧ label SOURCE_BUILD_BINDING_LABEL claim = Ok c ∧ meta_index "name" claim = Ok (JStr nm).
Proof.
  unfold cache_bindings. intros (es & He & [= <-])%outcome_bind_Ok nm c [[]%not_elem_of_nil|Hin]%elem_of_folded.
  apply (elem_of_mapped _ _ _ _ He) in Hin as (claim & Hc & Hs). steps Hs. injection Hs as -> ->.
  destruct x; try done. injection Hx1 as ->. by exists claim.
Qed.

Lemma is_writer_spec owners storage so bindings claims co jo caches pod v :
  v_claims v = claims → bindings ⊆ v_bindings v →
  outcome_map (owner_of "PersistentVolumeClaim") claims = Ok co → outcome_map (owner_of "Job") (v_jobs v) = Ok jo →
  cache_bindings claims = Ok caches → (∀ o, o ∈ so → ∃ d, d ∈ storage ∧ owner_of "ConfigMap" d = Ok o) →
  is_writer (owners ++ co ++ jo) so bindings caches pod = Ok true → writer_pod owners storage v pod.
Proof.
  intros <- Hbs Hco Hjo Hca Hso (labels & Hl & Hw)%outcome_bind_Ok.
  assert (∀ k x, get k labels = Ok x → label k pod = Ok x) as Hlab by (intros k x Hk; unfold label; by rewrite Hl).
  apply outcome_bind_Ok in Hw as (own & Hown & Hw). destruct own; [left; by exists co, jo|].
  apply outcome_bind_Ok in Hw as (helper & Hhelper & Hw). destruct helper.
  - right; left. apply outcome_bind_Ok in Hhelper as (h & Hh & Hhelper). destruct (is_str "true" h) eqn:Eh; [|done].
    apply is_str_true in Eh as ->. cbn [negb] in Hhelper. steps Hhelper. destruct x0; [|done]. split_and!; [by apply Hlab| |by exists so].
    exists x. unfold in_set in Hx0. destruct x; try done; injection Hx0 as (y & Hy & Hyy)%existsb_elem;
      exists y; (split_and!; [by apply Hlab|by apply Hbs|done]).
  - right; right. steps Hw. destruct (is_str "true" x) eqn:Ex; [|done]. apply is_str_true in Ex as ->. cbn [negb] in Hw.
    split; [by apply Hlab|]. steps Hw. destruct (truthy x) eqn:Et; [|done]. cbn [negb] in Hw. steps Hw.
    apply any_of_true in Hw as (volume & Hv & Hw). steps Hw. apply member_Ok in Hx3 as [_ ->].
    destruct x1 as [| | | |nm| |]; try done. destruct (dget nm caches) as [c|] eqn:Ec; [|done]. injection Hw as Hcb.
    destruct (cache_bindings_all _ _ Hca _ _ (dget_elem _ _ _ Ec)) as (claim & Hc & Hb & Hn). exists claim, nm, x, c.
    split_and!; try done; [by exists x0, volume|by apply Hlab].
Qed.

Lemma writer_binding_elem d k b : writer_binding d = Ok k → b ∈ k →
  ∃ l, label l d = Ok b ∧ l ∈ [SOURCE_BUILD_BINDING_LABEL; WORKSPACE_LABEL; APPLICATION_PUBLISHER_BINDING_LABEL].
Proof.
  unfold writer_binding. destruct (outcome_map _ _) as [ys|] eqn:Ey; [|done]. intros [= <-] Hb.
  apply (elem_of_mapped_concat _ _ _ _ Ey) in Hb as (l & k & Hl & Hk & Hb). exists l. steps Hk.
  destruct (truthy x); [|injection Hk as <-; by apply not_elem_of_nil in Hb]. steps Hk. injection Hk as <-.
  apply list_elem_of_singleton in Hb as ->. apply member_Ok in Hx0 as [_ ->]. split; [done|]. set_solver.
Qed.
Lemma label_index_label k d v : label_index k d = Ok v → label k d = Ok v.
Proof.
  unfold label_index, label, meta_index, meta_get. intros Hl. steps Hl. apply member_Ok in Hl as [_ ->]. steps Hx. rewrite Hx1. simpl.
  destruct x1; try done. simpl in *. destruct (dget "labels" m) as [x1|] eqn:E; [|done]. injection Hx as ->. simpl.
  destruct x; try done. simpl in *. by destruct (dget k m0); simplify_eq/=.
Qed.

(** The inventory from its parts *)
Lemma inventory_intro ns owners storage claims0 claims co caches workspaces0 workspaces jobs0 jobs jo more published so pods marks own a n :
  listed_in n ["persistentvolumeclaims"] ns (SOURCE_BUILD_CACHE_LABEL +:+ "=true") claims0 → filter_owned owners claims0 = Ok claims →
  outcome_map (owner_of "PersistentVolumeClaim") claims = Ok co → cache_bindings claims = Ok caches →
  listed_in n ["configmaps"] ns WORKSPACE_LABEL workspaces0 → filter_owned owners workspaces0 = Ok workspaces →
  listed_in n ["jobs"] ns "foretoken.io/application-files=publisher" jobs0 → filter_owned owners jobs0 = Ok jobs →
  outcome_map (owner_of "Job") jobs = Ok jo →
  outcome_map (label_index WORKSPACE_LABEL) workspaces = Ok more →
  outcome_map (label_index APPLICATION_PUBLISHER_BINDING_LABEL) jobs = Ok published →
  (∀ o, o ∈ concat so → ∃ d, d ∈ storage ∧ owner_of "ConfigMap" d = Ok o) →
  listed_in n ["pods"] ns "" pods →
  let bindings := keep truthy caches.*2 ++ more ++ published in
  outcome_map (λ pod, b ← is_writer (owners ++ co ++ jo) (concat so) bindings caches pod;
                      Ok (if (b : bool) then Some pod else None)) pods = Ok marks →
  outcome_map writer_binding (jobs ++ omap id (marks : list _)) = Ok own →
  inventory_of ns owners storage n (Inventory claims workspaces jobs (omap id (marks : list _)) (bindings ++ concat own) a).
Proof.
  intros Hl1 Hf1 Hco Hca Hl2 Hf2 Hl3 Hf3 Hjo Hmore Hpub Hso Hl4 bindings Hmarks Hown. split_and!; simpl.
  - intros d Hd. destruct (filter_owned_elem _ _ _ _ Hf1 Hd). by exists claims0.
  - intros d Hd. destruct (filter_owned_elem _ _ _ _ Hf2 Hd). by exists workspaces0.
  - intros d Hd. destruct (filter_owned_elem _ _ _ _ Hf3 Hd). by exists jobs0.
  - intros d Hd%elem_of_omap_id. apply (elem_of_mapped _ _ _ _ Hmarks) in Hd as (x & Hx & Hd). steps Hd.
    destruct x0; [|done]. injection Hd as ->. split; [|by exists pods].
    eapply (is_writer_spec _ _ (concat so) bindings claims co jo caches); simpl; try done. subst bindings. set_solver.
  - intros b [Hb|Hb]%elem_of_app.
    + apply elem_of_app in Hb as [Hb|[Hb|Hb]%elem_of_app].
      * apply elem_of_keep in Hb as [_ ([nm c] & -> & Hin)%list_elem_of_fmap].
        destruct (cache_bindings_all _ _ Hca _ _ Hin) as (claim & Hc & Hlab & _). exists claim, SOURCE_BUILD_BINDING_LABEL.
        split_and!; [set_solver|done|set_solver].
      * apply (elem_of_mapped _ _ _ _ Hmore) in Hb as (d & Hd & Hlab%label_index_label). exists d, WORKSPACE_LABEL.
        split_and!; [set_solver|done|set_solver].
      * apply (elem_of_mapped _ _ _ _ Hpub) in Hb as (d & Hd & Hlab%label_index_label). exists d, APPLICATION_PUBLISHER_BINDING_LABEL.
        split_and!; [set_solver|done|set_solver].
    + apply (elem_of_mapped_concat _ _ _ _ Hown) in Hb as (d & k & Hd & Hk & Hb).
      destruct (writer_binding_elem _ _ _ Hk Hb) as (l & Hl & Hin). exists d, l. split_and!; [set_solver|done|done].
Qed.

Lemma storage_owners_elem storage so : 
  outcome_map (λ d, k ← index "kind" d; if is_str "ConfigMap" k then o ← owner_of "ConfigMap" d; Ok [o] else Ok []) storage = Ok so →
  ∀ o, o ∈ concat so → ∃ d, d ∈ storage ∧ owner_of "ConfigMap" d = Ok o.
Proof.
  intros Hso o Ho. apply (elem_of_mapped_concat _ _ _ _ Hso) in Ho as (d & k & Hd & Hk & Ho). steps Hk.
  destruct (is_str "ConfigMap" x); [|injection Hk as <-; by apply not_elem_of_nil in Ho]. steps Hk. injection Hk as <-.
  apply list_elem_of_singleton in Ho as ->. by exists d.
Qed.

Lemma emits_inventory ns context owners storage :
  emits (take_inventory ns context owners storage : IO _) (λ v n, inventory_of ns owners storage n v) (λ _, True).
Proof.
  unfold take_inventory, list_resources.
  eapply emits_seq; [apply emits_labelled|]. intros claims0.
  apply emits_pure_bind; [|done]. intros claims Hf1. apply emits_pure_bind; [|done]. intros co Hco.
  apply emits_pure_bind; [|done]. intros caches Hca.
  eapply emits_seq; [apply emits_labelled|]. intros workspaces0. apply emits_pure_bind; [|done]. intros workspaces Hf2.
  eapply emits_seq; [apply emits_labelled|]. intros jobs0. apply emits_pure_bind; [|done]. intros jobs Hf3.
  apply emits_pure_bind; [|done]. intros jo Hjo. cbv zeta.
  apply emits_pure_bind; [|done]. intros truths ->%members_Ok.
  apply emits_pure_bind; [|done]. intros more Hmore. apply emits_pure_bind; [|done]. intros published Hpub.
  apply emits_pure_bind; [|done]. intros so Hso0. pose proof (storage_owners_elem _ _ Hso0) as Hso.
  eapply emits_seq; [apply emits_labelled|]. intros pods.
  apply emits_pure_bind; [|done]. intros marks Hmarks. apply emits_pure_bind; [|done]. intros own Hown.
  apply emits_pure_bind; [|done]. intros found _.
  assert (∀ a n, listed_in n ["persistentvolumeclaims"] ns (SOURCE_BUILD_CACHE_LABEL +:+ "=true") claims0 →
            listed_in n ["configmaps"] ns WORKSPACE_LABEL workspaces0 →
            listed_in n ["jobs"] ns "foretoken.io/application-files=publisher" jobs0 → listed_in n ["pods"] ns "" pods →
            inventory_of ns owners storage n (Inventory claims workspaces jobs (omap id (marks : list _))
              ((keep truthy caches.*2 ++ more ++ published) ++ concat own) a)) as Hinv by (intros; by eapply inventory_intro).
  assert (∀ n n' kinds sel docs, n ⊆ n' → listed_in n kinds ns sel docs → listed_in n' kinds ns sel docs) as Hgrow
    by (intros *; apply growing_listed_in).
  destruct (_ ++ concat own) as [|b bs] eqn:Eb.
  - apply emits_ret. intros n3 Hn3 n2 Hn2 n1 Hn1 n0 Hn0. apply Hinv; (eapply Hgrow; [|eassumption]); clear; set_solver.
  - apply emits_pure_bind; [|done]. intros tools _. eapply emits_seq; [apply emits_labelled|]. intros nodes.
    do 2 (apply emits_pure_bind; [intros ? _|done]).
    apply emits_ret. intros n4 _ n3 Hn3 n2 Hn2 n1 Hn1 n0 Hn0. apply Hinv; (eapply Hgrow; [|eassumption]); clear; set_solver.
Qed.

Lemma reading_inventory ns context owners storage : only reading (take_inventory ns context owners storage : IO _).
Proof.
  unfold take_inventory, list_resources, list_labelled, decode_resource_list. only_auto; by apply only_run.
Qed.

(** ** Removal of the inventory *)

Definition writers_gone (n : calls) (v : inventory) : Prop := ∀ d, d ∈ v_jobs v ++ v_builders v → gone n d.
(** A list of the Pods shows none that mounts the claim. *)
Definition unmounted (n : calls) (ns : string) (claim : json) : Prop :=
  ∃ nm pods, meta_index "name" claim = Ok nm ∧ listed_in n ["pods"] ns "" pods ∧ ∀ pod, pod ∈ pods → ¬ mounts pod nm.
(** The documents that may be removed: a writer; or, once the writers are gone, a
    workspace record, or an unmounted cache that the origin still owns *)
Definition removable (ns : string) (owners : list owner) (v : inventory) (n : calls) (d : json) : Prop :=
  d ∈ v_jobs v ++ v_builders v ∨
  writers_gone n v ∧
    (d ∈ v_workspaces v ∨
     ∃ claim, claim ∈ v_claims v ∧ same_uid d claim ∧ owned owners d = Ok true ∧ unmounted n ns claim).
Definition deletes_own (ns : string) (owners : list owner) (storage : list json) (r : calls) (e : call * reply) : Prop :=
  ∀ path o, e.1 = DeleteRaw path o →
    ∃ v d current u, inventory_of ns owners storage r v ∧ removable ns owners v r d ∧ current_of r d current ∧
      meta_index "uid" current = Ok u ∧ o = delete_options u None "Foreground".

Lemma growing_writers_gone v : growing (λ n, writers_gone n v).
Proof. unfold writers_gone. auto 10 with growing. Qed.
Lemma growing_unmounted ns claim : growing (λ n, unmounted n ns claim).
Proof. unfold unmounted. auto 10 with growing. Qed.
#[local] Hint Resolve growing_inventory growing_writers_gone growing_unmounted : growing.
Lemma growing_removable ns owners v d : growing (λ n, removable ns owners v n d).
Proof. unfold removable. auto 20 with growing. Qed.
#[local] Hint Resolve growing_removable : growing.
Lemma grows_deletes_own ns owners storage : grows (deletes_own ns owners storage).
Proof. intros e. unfold deletes_own. auto 20 with growing. Qed.
Lemma reading_deletes_own ns owners storage r e : reading e → deletes_own ns owners storage r e.
Proof. intros Hr path o He. unfold reading in Hr. rewrite He in Hr. discriminate. Qed.

(** An object may be removed when the calls before have shown why. *)
Lemma obeys_remove_own fuel ns owners storage v n d timeout :
  inventory_of ns owners storage n v → removable ns owners v n d →
  obeys (λ r, deletes_own ns owners storage (r ++ n)) (remove_source_object fuel d timeout : IO unit).
Proof.
  intros Hv Hd. eapply obeys_weaken; [|apply obeys_remove_object]. intros r e He path o Ho.
  destruct (He path o Ho) as (d' & current & u & <- & Hc & Hu & ->). exists v, d, current, u.
  assert (n ⊆ r ++ n) as Hsub by set_solver. assert (r ⊆ r ++ n) as Hsub' by set_solver.
  split_and!; [exact (growing_inventory _ _ _ _ _ _ Hsub Hv)|exact (growing_removable _ _ _ _ _ _ Hsub Hd)
    |exact (growing_current _ _ _ _ Hsub' Hc)|done|done].
Qed.

Lemma not_mounted nm pods users : 
  outcome_map (λ pod, b ← mounts_claim (JStr nm) pod;
                      if (b : bool) then v ← meta_index "name" pod; v ← as_text v; Ok [v] else Ok []) pods = Ok users →
  concat users = [] → ∀ pod, pod ∈ pods → ¬ mounts pod (JStr nm).
Proof.
  intros Hu He pod Hp (volumes & volume & Hv & Hin & Hn). destruct (mapped_elem _ _ _ _ Hu Hp) as (k & Hk & Hku). steps Hk.
  unfold mounts_claim in Hx. rewrite Hv in Hx. simpl in Hx.
  assert (x = true) as ->.
  { clear -Hx Hin Hn. revert x Hx. induction volumes as [|y volumes IH]; intros x; [by apply not_elem_of_nil in Hin|]. simpl.
    intros (b & Hb & Hx)%outcome_bind_Ok. apply elem_of_cons in Hin as [->|Hin].
    - rewrite Hn in Hb. simpl in Hb. rewrite eqb_refl in Hb. by injection Hb as <-; injection Hx.
    - destruct b; [by injection Hx|by apply IH]. }
  steps Hk. injection Hk as <-. assert (x0 ∈ concat users) as Hx'.
  { apply list_elem_of_In, in_concat. exists [x0]. rewrite <-!list_elem_of_In. split; [done|left]. }
  rewrite He in Hx'. by apply not_elem_of_nil in Hx'.
Qed.

Lemma obeys_remove_claim fuel ns owners storage v n timeout claim :
  inventory_of ns owners storage n v → writers_gone n v → claim ∈ v_claims v →
  obeys (λ r, deletes_own ns owners storage (r ++ n)) (remove_claim fuel ns owners timeout claim : IO unit).
Proof.
  intros Hv Hg Hc. unfold remove_claim. apply obeys_pure_bind. intros nm Hnm. apply obeys_pure_bind. intros nm' Ht.
  apply obeys_pure_bind. intros uid Hu.
  eapply obeys_seq; [eapply obeys_only; [|by apply (only_get_if_exists reading)]|apply emits_get_if_exists|].
  { intros r e He. by apply reading_deletes_own. }
  intros [current|] n1 [-> _]; [|apply obeys_ret]. apply obeys_pure_bind. intros u Hcu.
  destruct (py_eqb u uid) eqn:Eu; cbn [negb]; [|apply obeys_ret].
  apply obeys_pure_bind. intros own Hown. destruct own; cbn [negb]; [|apply obeys_throw].
  eapply obeys_seq; [eapply obeys_only; [|by apply (only_list reading)]|apply (emits_labelled ["pods"] ns "")|].
  { intros r e He. by apply reading_deletes_own. }
  intros pods n2 Hpods. apply obeys_pure_bind. intros users Husers.
  destruct (concat users) as [|user rest] eqn:Econ; [|apply obeys_throw].
  destruct nm as [| | | |nm| |]; try done.
  eapply obeys_weaken; [|eapply (obeys_remove_own _ ns owners storage v (n2 ++ [(GetObject "pvc" nm' ns true, Output (Some current))] ++ n))].
  - intros r e. by rewrite <-!app_assoc.
  - eapply growing_inventory; [|exact Hv]. set_solver.
  - right. split; [eapply growing_writers_gone; [|exact Hg]; set_solver|]. right. exists claim. split_and!; [done|by exists u, uid|done|].
    exists (JStr nm), pods. split_and!; [done|eapply growing_listed_in; [|exact Hpods]; set_solver|]. by eapply not_mounted.
Qed.

Lemma obeys_remove_inventory fuel ns owners storage v n timeout :
  inventory_of ns owners storage n v →
  obeys (λ r, deletes_own ns owners storage (r ++ n)) (remove_inventory fuel ns owners timeout v : IO unit).
Proof.
  intros Hv. pose proof (grows_deletes_own ns owners storage) as HP. unfold remove_inventory.
  eapply obeys_seq.
  - apply obeys_each; [by apply grows_shift|]. intros d Hd. eapply obeys_remove_own; [done|by left].
  - apply (emits_each (λ d n, gone n d)); [intros d; apply growing_lasting, growing_gone|]. intros d _. apply emits_remove_object.
  - intros done_ n1 Hgone. cbv beta in Hgone. rewrite Forall_forall in Hgone.
    assert (writers_gone (n1 ++ n) v) as Hg by (intros d Hd; eapply growing_gone; [|by apply Hgone]; set_solver).
    assert (inventory_of ns owners storage (n1 ++ n) v) as Hv' by (eapply growing_inventory; [|exact Hv]; set_solver).
    eapply (obeys_weaken (λ r, deletes_own ns owners storage (r ++ n1 ++ n))); [intros r e; by rewrite <-app_assoc|].
    apply obeys_bind; [by apply grows_shift|..].
    + apply obeys_each; [by apply grows_shift|]. intros claim Hc. by eapply obeys_remove_claim.
    + intros _. apply obeys_each; [by apply grows_shift|]. intros d Hd. eapply obeys_remove_own; [done|]. right. split; [done|by left].
Qed.

Lemma off_node_remove_object fuel d timeout : only off_node (remove_source_object fuel d timeout : IO unit).
Proof.
  unfold remove_source_object. only_auto; try by apply only_get_if_exists.
  apply only_try; [by apply only_delete_object|]. intros e k. destruct (deployment_error e); [|done]. intros [= <-].
  apply only_bind; [by apply only_get_if_exists|]. only_auto.
Qed.
Lemma off_node_remove_inventory fuel ns owners timeout v : only off_node (remove_inventory fuel ns owners timeout v : IO unit).
Proof.
  unfold remove_inventory, remove_claim, list_resources, list_labelled, decode_resource_list. only_auto;
    first [apply off_node_remove_object|by apply only_get_if_exists|by apply only_run].
Qed.
Lemma off_node_inventory ns context owners storage : only off_node (take_inventory ns context owners storage : IO _).
Proof. unfold take_inventory, list_resources, list_labelled, decode_resource_list. only_auto; by apply only_run. Qed.

(** ** The phases of an uninstallation *)

(** Before the removal nothing happens on a node and only the inventory is deleted;
    after it only unused images are unpinned. *)
Definition phases {A} (ns : string) (owners : list owner) (storage : list json) (removal : IO A) (w w' : world C S) : Prop :=
  ∃ first body last, trace w' = last ++ body ++ first ++ trace w ∧
    Forall off_node first ∧ ordered (deletes_own ns owners storage) first ∧
    (body = [] ∧ last = [] ∨ ∃ w1, trace w1 = first ++ trace w ∧ trace (removal w1).2 = body ++ first ++ trace w) ∧
    (last = [] ∨ ∃ v, inventory_of ns owners storage first v ∧ ordered (unpins_unused ns (v_bindings v)) last).

Lemma cleanup_trace {A} P (m : IO A) seconds c w :
  obeys P c → ∃ n, trace (with_cleanup m seconds c w).2 = n ++ trace (m w).2 ∧ ordered P n.
Proof.
  intros Hc. unfold with_cleanup.
  assert (∀ error (k : IO A) w, (∀ w, trace (k w).2 = trace w) →
            ∃ n, trace ((pure seconds ;; cleanup_commands error c ;; k) w).2 = n ++ trace w ∧ ordered P n) as Hk.
  { intros error k w1 Hk. unfold mbind, IO_bind, pure. destruct seconds as [z|e]; [|by exists []].
    unfold cleanup_commands, try_except. destruct (Hc w1) as (n & Hn & Hq).
    destruct (c w1) as [[u|e|] w2]; simpl in *; [exists n; by rewrite Hk| |by exists n].
    destruct error; [|by exists n]. destruct (absorbed e); simpl; exists n; [by rewrite Hk|done]. }
  destruct (m w) as [[a|e|] w1]; simpl; [by apply Hk|by apply Hk|by exists []].
Qed.

Lemma uninstall_phases {A} fuel depth fresh ns context timeout origins owners storage (removal : IO A) w :
  outcome_map origin_owner origins = Ok owners → appends removal →
  phases ns owners storage removal w (source_uninstall fuel depth fresh ns context timeout origins storage removal w).2.
Proof.
  intros Ho Hr. destruct owners as [|o os].
  { unfold source_uninstall. rewrite Ho. change (phases ns [] storage removal w (removal w).2). destruct (Hr w) as [n Hn]. exists [], n, [].
    split_and!; [done|constructor|done|right; by exists w|by left]. }
  assert (source_uninstall fuel depth fresh ns context timeout origins storage removal w =
    match take_inventory ns context (o :: os) storage w with
    | (Returned v, w1) =>
        match remove_inventory fuel ns (o :: os) timeout v w1 with
        | (Returned _, w2) =>
            match v_bindings v, v_access v with
            | [], _ | _, [] => removal
            | _, _ => with_cleanup removal (timeout_seconds timeout) (release_unused fuel depth fresh ns timeout v)
            end w2
        | (Raised e, w2) => (Raised e, w2)
        | (Unfinished, w2) => (Unfinished, w2)
        end
    | (Raised e, w1) => (Raised e, w1)
    | (Unfinished, w1) => (Unfinished, w1)
    end) as -> by (unfold source_uninstall; by rewrite Ho).
  clear Ho. generalize (o :: os) as owners. clear o os. intros owners.
  pose proof (emits_conj _ _ _ _ _ (off_node_inventory ns context owners storage)
    (emits_conj _ _ _ _ _ (reading_inventory ns context owners storage) (emits_inventory ns context owners storage)) w)
    as (n1 & Hn1 & Hinv).
  assert (∀ n, Forall reading n → ordered (deletes_own ns owners storage) n) as Hread
    by (intros n; apply ordered_forall; intros r e; apply reading_deletes_own).
  assert (∀ n w', trace w' = n ++ trace w → Forall off_node n → ordered (deletes_own ns owners storage) n →
            phases ns owners storage removal w w') as Hearly.
  { intros n w' Hw' Hoff Hord. exists n, [], []. split_and!; [done..| |]; by left. }
  destruct (take_inventory ns context owners storage w) as [[v|e|] w1]; cbn [fst snd] in *;
    destruct Hinv as (Hoff & Hrd & Hv); [|exact (Hearly _ _ Hn1 Hoff (Hread _ Hrd))..].
  pose proof (emits_conj _ _ _ _ _ (off_node_remove_inventory fuel ns owners timeout v)
    (obeys_remove_inventory fuel ns owners storage v n1 timeout Hv) w1) as (n2 & Hn2 & Hrem).
  assert (ordered (λ r, deletes_own ns owners storage (r ++ n1)) n2 → ordered (deletes_own ns owners storage) (n2 ++ n1)) as Hord.
  { intros H'. apply ordered_app; auto. }
  destruct (remove_inventory fuel ns owners timeout v w1) as [[[]|e|] w2]; cbn [fst snd] in *; destruct Hrem as [Hoff2 Hord2];
    [|by apply (Hearly (n2 ++ n1)); [rewrite Hn2, Hn1, app_assoc|apply Forall_app|apply Hord]..].
  assert (trace w2 = (n2 ++ n1) ++ trace w) as Hw2 by (by rewrite Hn2, Hn1, app_assoc).
  assert (Forall off_node (n2 ++ n1)) as Hoff12 by (by apply Forall_app).
  destruct (Hr w2) as [body Hbody]. rewrite Hw2 in Hbody.
  assert (phases ns owners storage removal w (removal w2).2) as Hdone.
  { exists (n2 ++ n1), body, [].
    split_and!; [done|done|by apply Hord|right; by exists w2|by left]. }
  assert (phases ns owners storage removal w
    (with_cleanup removal (timeout_seconds timeout) (release_unused fuel depth fresh ns timeout v) w2).2) as Hclean.
  { destruct (cleanup_trace _ removal (timeout_seconds timeout) _ w2 (obeys_release_unused fuel depth fresh ns timeout v))
      as (n3 & Hn3 & Hord3). exists (n2 ++ n1), body, n3. rewrite Hn3, Hbody.
    split_and!; [done|done|by apply Hord|..].
    - right. by exists w2.
    - right. exists v. split; [|done]. eapply growing_inventory; [|exact Hv]. set_solver. }
  destruct (v_bindings v), (v_access v); done.
Qed.

(** C11: Uninstalling deletes only what belongs to the installation.  Wherever it stops,
    the calls before the platform is removed delete only objects that were read again
    with the UID of a listed document: publisher Jobs and writing Pods, and, only after
    each of these was seen to be gone, the records of workspaces and the caches that
    the file origin still owns and that no listed Pod mounts.  The removal of the
    platform starts after these calls. *)
Theorem uninstall_deletes_own {A} fuel depth fresh ns context timeout origins owners storage (removal : IO A) w :
  outcome_map origin_owner origins = Ok owners → appends removal →
  ∃ first rest, trace (source_uninstall fuel depth fresh ns context timeout origins storage removal w).2 = rest ++ first ++ trace w ∧
    ordered (deletes_own ns owners storage) first ∧
    (rest = [] ∨ ∃ w1 body last, trace w1 = first ++ trace w ∧ trace (removal w1).2 = body ++ first ++ trace w ∧ rest = last ++ body).
Proof.
  intros Ho Hr. destruct (uninstall_phases fuel depth fresh ns context timeout origins owners storage removal w Ho Hr)
    as (first & body & last & Ht & _ & Hord & Hb & _). exists first, (last ++ body). rewrite <-app_assoc. split_and!; [done..|].
  destruct Hb as [[-> ->]|(w1 & Hw1 & Hrem)]; [by left|right]. by exists w1, body, last.
Qed.

(** C8: Uninstalling unpins only images nobody uses.  Nothing is done on a node before the
    platform is removed; afterwards an image is unpinned only when the runtime of the
    node has listed it for a binding of the installation, and when a complete look at
    the workloads and the consumers of the cluster, taken after the removal returned or
    failed, shows no document that uses the image and no CronJob whose template does. *)
Theorem uninstall_unpins_unused {A} fuel depth fresh ns context timeout origins owners storage (removal : IO A) w :
  outcome_map origin_owner origins = Ok owners → appends removal →
  ∃ first body last,
    trace (source_uninstall fuel depth fresh ns context timeout origins storage removal w).2 = last ++ body ++ first ++ trace w ∧
    Forall off_node first ∧
    (body = [] ∧ last = [] ∨ ∃ w1, trace w1 = first ++ trace w ∧ trace (removal w1).2 = body ++ first ++ trace w) ∧
    (last = [] ∨ ∃ v, inventory_of ns owners storage first v ∧
       ∀ l e r ns' pod image, last = l ++ e :: r → releases e ns' pod image →
         ns' = ns ∧ seen_unused r image ∧ ∃ binding, JStr binding ∈ v_bindings v ∧ reported r ns pod binding image).
Proof.
  intros Ho Hr. destruct (uninstall_phases fuel depth fresh ns context timeout origins owners storage removal w Ho Hr)
    as (first & body & last & Ht & Hoff & _ & Hb & Hl). exists first, body, last. split_and!; [done..|].
  destruct Hl as [->|(v & Hv & Hord)]; [by left|right]. exists v. split; [done|]. intros l e r ns' pod image Hsp.
  exact (proj1 (ordered_at _ _) Hord l e r Hsp ns' pod image).
Qed.
End Cleanup.
