(* ===== verification/ReconcileProofs.v ===== *)
(** * What the reconciliation of pins keeps

    [reconcile_source_resources] unpins an image only when nothing selects it: no
    revision in the history of the platform, no consumer in the cluster, no source
    revision a service waits for, and no build recorded on the workstation. *)

From Stdlib Require Import Ascii.
From S2P Require Import Prelude Text Kube Manifest Effects Client Instances Fencing Emits ImageStore ImageStoreProofs Consumers ConsumerProofs SourceCleanup SourceCleanupProofs.

(** ** Source revisions that services have selected *)

(** The manifest of an application was read. *)
Definition manifest_read `{Printer} `{JsonText} (n : calls) (o : origin) (url : string) (manifest : json) : Prop :=
  ∃ path r text, manifest_path o url = Some path ∧ (GetRaw path, r) ∈ n ∧ prints r text ∧ loads text = Some manifest.
Lemma growing_manifest_read `{Printer} `{JsonText} o url manifest : growing (λ n, manifest_read n o url manifest).
Proof. unfold manifest_read. auto 10 with growing. Qed.

(** The images of every selected source revision satisfy [F]. *)
Definition sources_have `{Printer} `{JsonText} (F : list json → Prop) (d : json) (n : calls) : Prop :=
  ∀ component revision, source_selection d = Ok (Some (component, revision)) →
    ∃ o manifest images, manifest_read n o (reference o component revision) manifest ∧
      manifest_images component manifest = Ok images ∧ F images.
Lemma growing_sources `{Printer} `{JsonText} F d : growing (sources_have F d).
Proof. unfold sources_have. auto 10 using growing_manifest_read with growing. Qed.
#[export] Hint Resolve growing_sources growing_history : growing.

Section Reconcile.
Context {C S : Type} `{Kubectl C} `{Printer} `{JsonText} `{ResourceStream} `{PythonRepr} `{YamlText}.
Abbreviation IO := (IO (world C S)).

Lemma emits_raw_if_found path timeout :
  emits (get_raw_if_not_found path timeout : IO _)
    (λ t n, ∀ text, t = Some text → ∃ r, (GetRaw path, r) ∈ n ∧ prints r text) (λ _, True).
Proof.
  unfold get_raw_if_not_found. apply emits_pure_bind; [|done]. intros seconds _ w.
  destruct (serve (GetRaw path) (cluster w)) as [[v|t|detail] c'].
  - exists [(GetRaw path, Output v)]. split; [done|]. intros text [= <-]. exists (Output v). split; [left|]. by destruct v.
  - exists [(GetRaw path, Unparsed t)]. split; [done|]. intros text [= <-]. exists (Unparsed t). split; [left|done].
  - exists [(GetRaw path, Failed detail)]. by destruct (startswith _ detail).
Qed.

Lemma emits_read_manifest o url :
  emits (read_manifest o url : IO _) (λ m n, ∀ manifest, m = Some manifest → manifest_read n o url manifest) (λ _, True).
Proof.
  unfold read_manifest. destruct (manifest_path o url) as [path|] eqn:Ep; [|by apply emits_ret].
  eapply emits_seq; [apply emits_raw_if_found|]. intros [text|]; [|by apply emits_ret].
  destruct (loads text) as [[| | | | | |m]|] eqn:El; try by apply emits_throw.
  destruct (dget "files" m) as [[| | | | |entries|]|]; try by apply emits_throw.
  destruct (forallb valid_entry entries); [|by apply emits_throw]. apply emits_ret. intros n Hn manifest [= <-].
  destruct (Hn text eq_refl) as (r & Hr & Hp). by exists path, r, text.
Qed.

Lemma emits_source_images o documents :
  emits (source_images o documents : IO _)
    (λ images n, ∀ d, d ∈ documents → sources_have (λ k, k ⊆ images) d n) (λ _, True).
Proof.
  unfold source_images. apply emits_pure_bind; [|done]. intros selections Hsel.
  eapply emits_seq; [apply (emits_collect (λ (r : string * string) k n, ∃ manifest,
      manifest_read n o r.2 manifest ∧ manifest_images r.1 manifest = Ok k))|].
  { intros r k. apply growing_lasting. auto 10 using growing_manifest_read with growing. }
  { intros r _. eapply emits_seq; [apply emits_read_manifest|]. intros [manifest|]; [|by apply emits_throw].
    apply emits_pure; [|done]. intros k Hk n Hn. exists manifest. split; [by apply Hn|done]. }
  intros answers. apply emits_ret. intros n Hall d Hd component revision Hs.
  destruct (mapped_elem _ _ _ _ Hsel Hd) as (s & Hs' & Hin). rewrite Hs in Hs'. injection Hs' as <-.
  set (url := reference o component revision).
  assert ((component, url) ∈ sort_by id (distinct ((λ s, (s.1, reference o s.1 s.2)) <$> omap id selections))) as Hurl.
  { rewrite elem_of_sort_by, elem_of_distinct, list_elem_of_fmap. exists (component, revision). split; [done|].
    by apply elem_of_omap_id. }
  apply list_elem_of_lookup_1 in Hurl as [i Hi].
  destruct (Forall2_lookup_l _ _ _ _ _ Hall Hi) as (k & Hk%list_elem_of_lookup_2 & manifest & Hm & Hmi).
  exists o, manifest, k. split_and!; [done..|]. intros y Hy. apply list_elem_of_In, in_concat. exists k. by rewrite <-!list_elem_of_In.
Qed.

(** ** What must stay *)

(** The image [image] is selected nowhere. *)
Definition unselected (release_name ns : string) (builds : list json) (n : calls) (image : string) : Prop :=
  history_has release_name ns (λ docs, ∀ d, d ∈ docs → ¬ uses_image d (JStr image)) n ∧
  consumers_have (λ d, ¬ uses_image d (JStr image) ∧ sources_have (λ k, JStr image ∉ k) d n) n ∧
  ∀ b recorded images, b ∈ builds → get_or "images" (JObj []) b = Ok recorded → values_of recorded = Ok images →
    JStr image ∉ images.
Lemma growing_unselected release_name ns builds image : growing (λ n, unselected release_name ns builds n image).
Proof.
  intros n m Hnm (Hh & Hc & Hb). split_and!; [by eapply growing_history| |done].
  eapply consumers_weaken; [|by eapply growing_consumers]. intros d [? Hs]. split; [done|]. by eapply growing_sources.
Qed.

Lemma history_weaken release_name ns (F G : list json → Prop) n :
  (∀ docs, F docs → G docs) → history_has release_name ns F n → history_has release_name ns G n.
Proof.
  intros HFG [?|(status & version & revision & history & items & ? & ? & ? & ? & ? & Hall)]; [by left|right].
  exists status, version, revision, history, items. split_and!; try done. intros item Hi.
  destruct (Hall item Hi) as (r & z & manifest & docs & ? & ? & ? & ? & ? & HF). exists r, z, manifest, docs. split_and!; auto.
Qed.

Lemma unselects_source d s : selects_source d = Ok false → source_selection d ≠ Ok (Some s).
Proof.
  unfold selects_source, source_selection. intros (k & Hk & Hs)%outcome_bind_Ok Hsel. rewrite Hk in Hsel. cbn [mbind outcome_bind] in Hsel.
  destruct (is_str "InferenceDeployment" k).
  - steps Hs. injection Hs as Ht. rewrite Hx in Hsel. simpl in Hsel. rewrite Hx0 in Hsel. simpl in Hsel. rewrite Ht in Hsel. done.
  - steps Hs. destruct (member k) as [k'|] eqn:Em; [|done]. apply member_Ok in Em as [Hhash ->].
    cbn [mbind outcome_bind] in Hsel.
    destruct (annotation SOURCE_REVISION JNull d) as [r|] eqn:Er; [|done]. cbn [mbind outcome_bind] in Hsel.
    destruct k as [| | | |k| |]; try done.
    destruct (dget k SERVICE_COMPONENTS) as [component|] eqn:Ec; [|done].
    assert (x = true) as ->.
    { unfold in_set in Hx. assert (existsb (py_eqb (JStr k)) (JStr <$> SERVICE_COMPONENTS.*1) = true) as E.
      { apply existsb_elem. exists (JStr k). split; [|by apply py_eqb_text].
        apply list_elem_of_fmap. exists k. split; [done|]. apply dget_elem in Ec. apply list_elem_of_fmap. by exists (k, component). }
      rewrite E in Hx. by injection Hx. }
    cbn [negb mbind outcome_bind] in Hs. injection Hs as Ht. by rewrite Ht in Hsel.
Qed.

Lemma emits_retained depth ns release_name builds :
  emits (retained_images depth ns release_name builds : IO _)
    (λ r n, ∀ retained image, r = Some retained → retains retained image = false → unselected release_name ns builds n image)
    (λ _, True).
Proof.
  unfold retained_images, image_history. eapply emits_seq; [apply emits_history|]. intros [history|]; [|by apply emits_ret].
  eapply emits_seq; [apply emits_consumers|]. intros consumers. apply emits_pure_bind; [|done]. intros used Hused.
  apply emits_pure_bind; [|done]. intros pending Hpend.
  apply (emits_seq _ _ (λ r n, ∀ images, r = Some images → ∀ d, d ∈ consumers → sources_have (λ k, k ⊆ images) d n)).
  { destruct pending; cbn [negb].
    - apply emits_recover.
      + apply (emits_seq _ _ (λ _ _, True)).
        { eapply emits_weaken; [|done..]. unfold open_origin, list_labelled, decode_resource_list.
          assert (only (λ _, True) (open_origin ns : IO origin)) as Ho.
          { unfold open_origin, list_labelled, decode_resource_list. only_auto. by apply only_run. }
          exact Ho. }
        intros o. eapply emits_seq; [apply emits_source_images|]. intros images. apply emits_ret.
        intros n Hn n0 _ images' [= <-] d Hd. eapply growing_sources; [|by apply Hn]. set_solver.
      + intros e k. destruct (deployment_error e); [|done]. intros [= <-]. by apply emits_ret.
    - apply emits_ret. intros images _ d Hd component revision Hs.
      by destruct (unselects_source d _ (any_of_false _ _ Hpend d Hd) Hs). }
  intros [selected|]; [|by apply emits_ret]. apply emits_pure_bind; [|done]. intros local Hlocal.
  apply emits_ret. intros n2 Hsel n1 Hc n0 Hh retained image [= <-] Hr%retains_false.
  rewrite !not_elem_of_app in Hr. destruct Hr as (Hr1 & Hr2 & Hr3 & Hr4). split_and!.
  - eapply history_weaken; [|eapply growing_history; [|by apply Hh]; set_solver].
    intros docs (k & Hk & Hsub) d Hd. apply (application_images_unused _ _ _ _ Hk); [|done]. set_solver.
  - eapply consumers_weaken; [|eapply growing_consumers; [|exact Hc]; set_solver]. intros d Hd. split.
    + by apply (application_images_unused _ _ _ _ Hused).
    + intros component revision Hs. destruct (Hsel selected eq_refl d Hd component revision Hs) as (o & m & k & Hm & Hk & Hsub).
      exists o, m, k. split_and!; [eapply growing_manifest_read; [|exact Hm]; set_solver|done|set_solver].
  - intros b recorded images Hb Hg Hv. unfold state_images in Hlocal. steps Hlocal. injection Hlocal as <-.
    intros Hin. apply Hr4. apply (elem_of_mapped_concat _ _ _ _ Hx). destruct (mapped_elem _ _ _ _ Hx Hb) as (k & Hk & _).
    exists b, k. split_and!; [done..|]. rewrite Hg in Hk. simpl in Hk. rewrite Hv in Hk. simpl in Hk. by apply members_Ok in Hk as ->.
Qed.

(** ** The stores *)

Definition unpins_kept (ns : string) (bindings : list string) (retained : list json) : calls → call * reply → Prop :=
  release_allowed ns bindings (λ image, retains retained image = false).
Definition pins_recorded (ns : string) (bindings : list string) (retained : list json) (states : list state_file)
    (r : calls) (e : call * reply) : Prop :=
  ∀ ns' pod binding image, pins e ns' pod binding image →
    ns' = ns ∧ binding ∈ bindings ∧ unclaimed (Store ns pod binding) r image ∧
    ∃ node f k digest, f ∈ states ∧ recorded binding node retained f.2 = Ok k ∧ (image, digest) ∈ k ∧
      present r ns pod image digest.
Lemma grows_pins_recorded ns bindings retained states : grows (pins_recorded ns bindings retained states).
Proof. intros e. unfold pins_recorded. auto 20 using growing_unclaimed, growing_present with growing. Qed.

Lemma no_release_pin_records s records :
  only (on_store s (λ c, ∀ reference, c ≠ release_command reference)) (pin_records s records : IO unit).
Proof.
  assert (∀ c, neutral c → ∀ reference, c ≠ release_command reference) as Hn by (by intros c [? _]).
  assert (∀ A (m : IO A), only (on_store s neutral) m → only (on_store s (λ c, ∀ reference, c ≠ release_command reference)) m) as Hw.
  { intros A m. apply only_weaken. intros e (c & i & He & Hc). exists c, i. split; [done|]. by apply Hn. }
  unfold pin_records. destruct records as [|record records]; [apply only_ret|].
  apply only_bind; [apply Hw, neutral_owned_images|]. intros own. generalize (record :: records) as todo. generalize (own.*1) as names. intros names todo. revert names.
  induction todo as [|[image digest] todo IH]; intros names; simpl; [apply only_ret|]. destruct (mem image names); [done|].
  apply only_bind; [apply Hw, neutral_matches|]. intros [|]; simpl; [|done].
  apply only_bind; [by apply Hw, (only_exec s neutral)|]. intros output. apply only_bind; [|done].
  generalize (rows output) as lines. intros lines. revert names. induction lines as [|line lines IHl]; intros names; simpl; [apply only_ret|].
  apply only_bind; [apply only_pure|]. intros row. destruct (pinnable s row); [|done]. apply only_bind; [|done].
  unfold pin. only_auto. apply only_exec. intros reference Hc. by apply (release_not_pin s reference image).
Qed.
Lemma no_pin_release_except s retained :
  only (on_store s (λ c, ∀ s' image, c ≠ pin_command s' image)) (release_except s retained : IO _).
Proof.
  unfold release_except. apply only_bind.
  - eapply only_weaken; [|apply neutral_owned_images]. intros e (c & i & He & [_ Hc]). by exists c, i.
  - intros own. only_auto. apply only_exec. intros s' image Hc. by apply (release_not_pin s' x image).
Qed.

Lemma obeys_reconcile_store ns bindings retained states node s :
  st_namespace s = ns → st_binding s ∈ bindings →
  obeys (λ r e, unpins_kept ns bindings retained r e ∧ pins_recorded ns bindings retained states r e)
    (records ← pure (outcome_map (λ f : state_file, recorded (st_binding s) node retained f.2) states);
     pin_records s (concat records) ;; _ ← release_except s retained; mret tt : IO unit).
Proof.
  intros <- Hb. pose proof (grows_release_allowed (st_namespace s) bindings (λ image, retains retained image = false)) as Hg1.
  pose proof (grows_pins_recorded (st_namespace s) bindings retained states) as Hg2.
  assert (grows (λ r e, unpins_kept (st_namespace s) bindings retained r e ∧ pins_recorded (st_namespace s) bindings retained states r e)) as Hg
    by (intros e; exact (growing_and _ _ (Hg1 e) (Hg2 e))).
  apply obeys_pure_bind. intros records Hrec. apply obeys_bind; [done| |intros _; apply obeys_bind; [done| |intros _; apply obeys_ret]].
  - apply obeys_and.
    + eapply obeys_only; [|apply no_release_pin_records]. intros r e (c & i & He & Hc) ns' pod image Hr. rewrite Hr in He.
      injection He as _ _ <- _. by destruct (Hc image).
    + eapply obeys_weaken; [|apply obeys_pin_records]. intros r e He ns' pod binding image Hp.
      destruct (He ns' pod binding image Hp) as (-> & -> & -> & Hun & digest & Hin & Hpre). split_and!; [done|done|by destruct s|].
      apply (elem_of_mapped_concat _ _ _ _ Hrec) in Hin as (f & k & Hf & Hk & Hin). by exists node, f, k, digest.
  - apply obeys_and; [by apply obeys_release_except|].
    eapply obeys_only; [|apply no_pin_release_except]. intros r e (c & i & He & Hc) ns' pod binding image Hp. rewrite Hp in He.
    injection He as _ _ <- _. by destruct (Hc (Store ns' pod binding) image).
Qed.

(** ** The reconciliation *)

Definition known_cluster (n : calls) (cluster : string) : Prop :=
  ∃ o, (GetObject "namespace" "kube-system" "" false, Output (Some o)) ∈ n ∧ meta_index "uid" o = Ok (JStr cluster).
Lemma growing_known_cluster cluster : growing (λ n, known_cluster n cluster).
Proof. unfold known_cluster. auto with growing. Qed.

(** The image is selected nowhere, and the runtime reports it for a binding of the
    workstation. *)
Definition unpins_unselected (ns release_name : string) (state_files : string → list state_file) (checkout : option string)
    (r : calls) (e : call * reply) : Prop :=
  ∀ ns' pod image, releases e ns' pod image →
    ns' = ns ∧ ∃ cluster builds bindings binding, known_cluster r cluster ∧
      outcome_map (λ f : state_file, build_of f.2) (state_files cluster) = Ok builds ∧
      unselected release_name ns builds r image ∧
      own_bindings checkout (state_files cluster) = Ok bindings ∧ JStr binding ∈ bindings ∧ reported r ns pod binding image.
(** A state file of the workstation records the image with this digest, and nobody else owns it. *)
Definition pins_own (ns : string) (state_files : string → list state_file) (checkout : option string) (r : calls) (e : call * reply)
    : Prop :=
  ∀ ns' pod binding image, pins e ns' pod binding image →
    ns' = ns ∧ unclaimed (Store ns pod binding) r image ∧
    ∃ cluster bindings node retained f k digest, known_cluster r cluster ∧
      own_bindings checkout (state_files cluster) = Ok bindings ∧ JStr binding ∈ bindings ∧
      f ∈ state_files cluster ∧ recorded binding node retained f.2 = Ok k ∧ (image, digest) ∈ k ∧ present r ns pod image digest.
Definition reconciles ns release_name state_files checkout (r : calls) (e : call * reply) : Prop :=
  unpins_unselected ns release_name state_files checkout r e ∧ pins_own ns state_files checkout r e.

Lemma grows_reconciles ns release_name state_files checkout : grows (reconciles ns release_name state_files checkout).
Proof.
  intros e. apply growing_and; unfold unpins_unselected, pins_own;
    auto 40 using growing_known_cluster, growing_unselected, growing_unclaimed, growing_present with growing.
Qed.
Lemma off_node_reconciles ns release_name state_files checkout r e : off_node e → reconciles ns release_name state_files checkout r e.
Proof.
  intros He. split.
  - intros ns' pod image Hr. by apply off_node_releases in Hr.
  - intros ns' pod binding image Hp. by apply off_node_pins in Hp.
Qed.

Lemma off_node_list c : (∀ r, off_node (c, r)) → only off_node (r ← run c; decode_resource_list r : IO _).
Proof. apply only_list. Qed.
Lemma off_node_helm args : only off_node (helm_text args : IO _).
Proof. by apply only_call_text. Qed.
Lemma off_node_raw path timeout : only off_node (get_raw_if_not_found path timeout : IO _).
Proof.
  unfold get_raw_if_not_found. apply only_bind; [apply only_pure|]. intros seconds w.
  destruct (serve (GetRaw path) (cluster w)) as [[v|t|detail] c'].
  - exists [(GetRaw path, Output v)]. by repeat constructor.
  - exists [(GetRaw path, Unparsed t)]. by repeat constructor.
  - exists [(GetRaw path, Failed detail)]. destruct (startswith _ detail); by repeat constructor.
Qed.
Lemma off_node_release_exists release_name ns : only off_node (release_exists release_name ns : IO bool).
Proof.
  intros w. unfold release_exists. destruct (serve _ (cluster w)) as [[v|t|detail] c'].
  - exists [(HelmRead (metadata_args release_name ns), Output v)]. by repeat constructor.
  - exists [(HelmRead (metadata_args release_name ns), Unparsed t)]. by repeat constructor.
  - exists [(HelmRead (metadata_args release_name ns), Failed detail)]. destruct (contains _ detail); by repeat constructor.
Qed.
#[local] Hint Resolve off_node_helm off_node_raw off_node_release_exists : only.
Lemma off_node_retained depth ns release_name builds : only off_node (retained_images depth ns release_name builds : IO _).
Proof.
  unfold retained_images, image_history, history_references, application_consumers, list_selected, api_resource_names,
    decode_resource_list.
  only_auto; try (by apply only_run); try (by apply only_run_text).
  apply only_try.
  - unfold open_origin, list_labelled, decode_resource_list, source_images, read_manifest. only_auto; by apply only_run.
  - intros e k. destruct (deployment_error e); [|done]. intros [= <-]. apply only_ret.
Qed.

Lemma obeys_reconcile fuel depth fresh ns release_name state_files bound checkout timeout :
  obeys (reconciles ns release_name state_files checkout)
    (reconcile_source_resources fuel depth fresh ns release_name state_files bound checkout timeout : IO unit).
Proof.
  pose proof (grows_reconciles ns release_name state_files checkout) as HP.
  assert (∀ A (m : IO A), only off_node m → obeys (reconciles ns release_name state_files checkout) m) as Hoff
    by (intros A m Hm; eapply obeys_only; [apply off_node_reconciles|done]).
  unfold reconcile_source_resources. destruct bound; cbn [negb]; [|apply obeys_ret].
  eapply obeys_seq; [apply Hoff; unfold get_object; apply only_bind; [by apply only_run|only_auto]|apply emits_get_object|].
  intros nsobj n0 [-> _]. apply obeys_pure_bind. intros cluster Hcl%text_at_Ok. cbv zeta.
  set (n0 := [(_, Output (Some nsobj))]).
  apply obeys_pure_bind. intros bindings Hbind. destruct bindings as [|b0 bs0] eqn:Eb; [apply obeys_ret|]. rewrite <-Eb in *. clear Eb.
  apply obeys_pure_bind. intros builds Hbuilds. apply obeys_pure_bind. intros tools _.
  assert (∀ A (m : IO A), only off_node m → obeys (λ r, reconciles ns release_name state_files checkout (r ++ n0)) m) as Hoff0
    by (intros A m Hm; eapply obeys_weaken; [|by apply Hoff]; intros r e; apply HP; set_solver).
  apply obeys_bind; [by apply grows_shift|by apply Hoff0, only_list|]. intros pods. apply obeys_pure_bind. intros found _.
  apply obeys_pure_bind. intros sockets _.
  enough (obeys (λ r, reconciles ns release_name state_files checkout (r ++ n0))
    (nodes ← list_resources ["nodes"] "";
     names ← pure (match sockets with [] => Ok [] | _ => outcome_map (λ n, v ← meta_index "name" n; as_text v) nodes end);
     let reached := foldl (λ d key, default_access d key tools) found (flat_map (λ n, (λ s, (n, s)) <$> sockets) names) in
     retained ← retained_images depth ns release_name builds;
     match retained with
     | None => mret tt
     | Some retained =>
         bindings ← pure (sorted_texts bindings);
         on_stores fuel fresh ns timeout reached bindings (λ key s,
           records ← pure (outcome_map (λ f : state_file, recorded (st_binding s) key.1 retained f.2) (state_files cluster));
           pin_records s (concat records) ;; _ ← release_except s retained; mret tt)
     end : IO unit)) as Hrest by (destruct found, sockets; [apply obeys_ret|exact Hrest..]).
  apply obeys_bind; [by apply grows_shift|by apply Hoff0, only_list|]. intros nodes. apply obeys_pure_bind. intros names _. cbv zeta.
  eapply obeys_seq; [apply Hoff0, off_node_retained|apply emits_retained|]. intros [retained|] n1 Hret; [|apply obeys_ret].
  apply obeys_pure_bind. intros texts Htexts.
  eapply (obeys_weaken (λ r e, unpins_kept ns texts retained r e ∧ pins_recorded ns texts retained (state_files cluster) r e)).
  - intros r e [Hrel Hpin]. assert (known_cluster ((r ++ n1) ++ n0) cluster) as Hk.
    { exists nsobj. split; [|done]. subst n0. set_solver. }
    split.
    + intros ns' pod image Hr. destruct (Hrel ns' pod image Hr) as (-> & Hun & binding & Hb & Hrep). split; [done|].
      exists cluster, builds, bindings, binding. split_and!; [done|done| |done|by eapply sorted_texts_elem|].
      * eapply growing_unselected; [|by eapply Hret]. set_solver.
      * eapply growing_reported; [|exact Hrep]. set_solver.
    + intros ns' pod binding image Hp. destruct (Hpin ns' pod binding image Hp) as (-> & Hb & Hun & node & f & k & digest & ? & ? & ? & Hpre).
      split; [done|]. split; [eapply growing_unclaimed; [|exact Hun]; set_solver|].
      exists cluster, bindings, node, retained, f, k, digest. split_and!; try done; [by eapply sorted_texts_elem|].
      eapply growing_present; [|exact Hpre]. set_solver.
  - apply obeys_stores.
    + intros e. apply growing_and; [apply grows_release_allowed|apply grows_pins_recorded].
    + intros r e He. split; [intros ns' pod image Hr; by apply off_node_releases in Hr
                            |intros ns' pod binding image Hp; by apply off_node_pins in Hp].
    + intros key s Hns Hb. by apply obeys_reconcile_store.
Qed.

(** C22: Reconciling the pins of a workstation keeps every selected image.  Whatever the
    cluster answers and wherever the command stops, an image is unpinned only after the
    calls before have shown that no revision of the platform up to the current one, no
    consumer in the cluster, no source revision a service has selected and no recorded
    build of the workstation uses it, and only when the runtime lists it for a binding
    the workstation owns; an image is pinned only when a state file of that binding
    records it, the runtime has it with the recorded digest, and no other owner has it. *)
Theorem reconcile_keeps_selected fuel depth fresh ns release_name state_files bound checkout timeout (w : world C S) :
  ∃ n, trace (reconcile_source_resources fuel depth fresh ns release_name state_files bound checkout timeout w).2 = n ++ trace w ∧
    ∀ l e r, n = l ++ e :: r →
      unpins_unselected ns release_name state_files checkout r e ∧ pins_own ns state_files checkout r e.
Proof.
  destruct (obeys_reconcile fuel depth fresh ns release_name state_files bound checkout timeout w) as (n & Hn & Hq).
  exists n. split; [done|]. apply ordered_at. by case_match.
Qed.
End Reconcile.
