(* ===== verification/SourceWitnesses.v ===== *)
(** * Witnesses for the retirement of source builds

    An uninstallation against a scripted cluster: a builder and its cache are removed,
    a helper Pod is created on the node, and of the two images of the binding the one a
    Pod still uses stays pinned. *)

From S2P Require Import Prelude Text Kube Manifest Effects Client Instances Settles Fencing Emits ImageStore ImageStoreProofs Consumers ConsumerProofs SourceCleanup SourceCleanupProofs ReconcileProofs.

#[local] Instance prints_nothing : Printer := λ _, "".
#[local] Instance reads_nothing : JsonText := λ _, None.
#[local] Instance no_stream : ResourceStream := λ _, Ok [].
#[local] Instance no_yaml : YamlText := λ _, Raise (ValueError "no document").
#[local] Instance plain_repr : PythonRepr := λ _, "".

Definition items (l : list json) : reply := answer (JObj [("kind", JStr "List"); ("items", JArr l)]).
Definition meta (nm uid : string) (more : list (string * json)) : string * json :=
  ("metadata", JObj ([("name", JStr nm); ("namespace", JStr "foretoken"); ("uid", JStr uid)] ++ more)).
Definition labelled (l : list (string * string)) : string * json := ("labels", JObj ((λ e, (e.1, JStr e.2)) <$> l)).
Definition owned_by (k nm uid : string) : string * json :=
  ("ownerReferences", JArr [JObj [("kind", JStr k); ("name", JStr nm); ("uid", JStr uid)]]).

Definition origin_claim : json := JObj [("name", JStr "files"); ("uid", JStr "u-files")].
Definition cache : json :=
  JObj [("apiVersion", JStr "v1"); ("kind", JStr "PersistentVolumeClaim");
        meta "cache" "u-cache" [labelled [(SOURCE_BUILD_BINDING_LABEL, "b1")]; owned_by "PersistentVolumeClaim" "files" "u-files"]].
Definition socket : string := "/run/containerd/containerd.sock".
Definition builder : json :=
  JObj [("apiVersion", JStr "v1"); ("kind", JStr "Pod");
        meta "builder" "u-builder" [labelled [(SOURCE_BUILD_POD_LABEL, "true"); (SOURCE_BUILD_BINDING_LABEL, "b1")]];
        ("spec", JObj [("nodeName", JStr "n1");
           ("containers", JArr [JObj [("name", JStr "images"); ("image", JStr "debian")]]);
           ("volumes", JArr [JObj [("name", JStr "cache"); ("persistentVolumeClaim", JObj [("claimName", JStr "cache")])];
                             JObj [("name", JStr "runtime-socket"); ("hostPath", JObj [("path", JStr socket)])]])])].
Definition node : json := JObj [("kind", JStr "Node"); meta "n1" "u-n1" []].
Definition user : json :=
  JObj [("kind", JStr "Pod"); meta "user" "u-user" [];
        ("spec", JObj [("containers", JArr [JObj [("name", JStr "main"); ("image", JStr "kept:1")]])])].
Definition storage : json := JObj [("kind", JStr "ConfigMap"); meta "storage" "u-storage" []].
Definition core : reply :=
  answer (JObj [("resources", JArr [JObj [("kind", JStr "Pod"); ("name", JStr "pods"); ("namespaced", JBool true)];
                                    JObj [("kind", JStr "PersistentVolumeClaim"); ("name", JStr "persistentvolumeclaims"); ("namespaced", JBool true)]])]).
Definition newline : string := String (Ascii.ascii_of_nat 10) "".
Definition owned_rows : string :=
  "REF TYPE LABELS" +:+ newline +:+ "kept:1 t " +:+ SOURCE_BUILD_BINDING_LABEL +:+ "=b1" +:+ newline
  +:+ "old:1 t " +:+ SOURCE_BUILD_BINDING_LABEL +:+ "=b1" +:+ newline.

(** The helper Pod around the release of one pin *)
Definition store_script : list reply :=
  [items []; items [storage]; answer (JObj [meta "helper" "u-helper" []]); done_;
   Unparsed "ID LABELS"; Unparsed owned_rows; done_; done_].
Definition uninstall_script : list reply :=
  [items [cache]; items []; items []; items [builder]; items [node];
   answer builder; core; done_; done_;
   answer cache; items []; answer cache; core; done_; done_]
  ++ [items [user]; Unparsed ""] ++ replicate 9 (items []) ++ store_script.
Definition start (script : list reply) : world (list reply) unit := World script 0 [] tt.
Definition uninstalled : result unit * world (list reply) unit :=
  source_uninstall 3 3 (λ _, "x") "foretoken" "kind-dev" "1m" [origin_claim] [] (mret tt) (start uninstall_script).

(** The unused image is unpinned through the helper, and no other. *)
Example uninstall_runs :
  uninstalled.1 = Returned tt ∧
  omap (λ e : call * reply, match e.1 with PodExec _ pod command _ => Some (pod, List.last (take 8 command) "") | _ => None end) (trace uninstalled.2)
  = [("foretoken-node-images-x", "old:1"); ("foretoken-node-images-x", owner_selector "b1"); ("foretoken-node-images-x", "list")].
Proof. vm_compute. split; reflexivity. Qed.

Lemma appends_ret {W} (a : W) : appends (C := list reply) (S := unit) (mret a).
Proof. intros w. by exists []. Qed.

Definition origin_key : owner := (JStr "PersistentVolumeClaim", JStr "files", JStr "u-files").

Lemma uninstall_deletes_own_witness :
  outcome_map origin_owner [origin_claim] = Ok [origin_key] ∧
  ∃ first rest, trace uninstalled.2 = rest ++ first ++ [] ∧ ordered (deletes_own "foretoken" [origin_key] []) first ∧
    (rest = [] ∨ ∃ (w1 : world (list reply) unit) body last, trace w1 = first ++ [] ∧
       trace ((mret tt : IO (world (list reply) unit) unit) w1).2 = body ++ first ++ [] ∧ rest = last ++ body).
Proof.
  split; [reflexivity|].
  apply (uninstall_deletes_own 3 3 (λ _, "x") "foretoken" "kind-dev" "1m" [origin_claim] [origin_key] [] (mret tt) (start uninstall_script)).
  - reflexivity.
  - apply appends_ret.
Defined.

Lemma uninstall_unpins_unused_witness :
  outcome_map origin_owner [origin_claim] = Ok [origin_key] ∧
  ∃ first body last, trace uninstalled.2 = last ++ body ++ first ++ [] ∧ Forall off_node first ∧
    (body = [] ∧ last = [] ∨ ∃ w1 : world (list reply) unit, trace w1 = first ++ [] ∧
       trace ((mret tt : IO (world (list reply) unit) unit) w1).2 = body ++ first ++ []) ∧
    (last = [] ∨ ∃ v, inventory_of "foretoken" [origin_key] [] first v ∧
       ∀ l e r ns' pod image, last = l ++ e :: r → releases e ns' pod image →
         ns' = "foretoken" ∧ seen_unused r image ∧
         ∃ binding, JStr binding ∈ v_bindings v ∧ reported r "foretoken" pod binding image).
Proof.
  split; [reflexivity|].
  apply (uninstall_unpins_unused 3 3 (λ _, "x") "foretoken" "kind-dev" "1m" [origin_claim] [origin_key] [] (mret tt) (start uninstall_script)).
  - reflexivity.
  - apply appends_ret.
Defined.

(** A helper Pod for reading the images of the binding *)
Definition helper_script : list reply :=
  [items []; items [storage]; answer (JObj [meta "helper" "u-helper" []]); done_;
   answer (JObj [("apiVersion", JStr "v1"); ("kind", JStr "Pod"); meta "helper" "u-helper" []]); core; done_; done_].
Definition helper_run : result string * world (list reply) unit :=
  node_image_store 3 (λ _, "x") "foretoken" "n1" socket "debian" "1m" "b1" [] (λ s, mret (st_pod s)) (start helper_script).
Lemma helper_lifetime_witness :
  helper_run.1 = Returned "foretoken-node-images-x" ∧
  ∃ s w1 w2 before during after, st_namespace s = "foretoken" ∧ st_binding s = "b1" ∧
    trace w1 = before ++ [] ∧
    (mret (st_pod s) : IO (world (list reply) unit) string) w1 = (Returned "foretoken-node-images-x", w2) ∧
    trace w2 = during ++ trace w1 ∧ trace helper_run.2 = after ++ trace w2 ∧
    (after = [] ∧ borrowed_builder "foretoken" "b1" before "n1" socket (st_pod s) ∨
     own_helper "foretoken" "b1" before after (st_pod s)).
Proof.
  split; [vm_compute; reflexivity|].
  apply (helper_lifetime 3 "foretoken" "1m" "b1" (λ _, "x") "n1" socket "debian" [] (λ s, mret (st_pod s)) "foretoken-node-images-x"
           (start helper_script) helper_run.2).
  - intros s. apply appends_ret.
  - vm_compute. reflexivity.
Defined.

(** A workstation whose build has recorded [kept:1]: the other image of its binding is unpinned. *)
Definition build_state : json :=
  JObj [("build", JObj [("binding", JStr "b1"); ("containerd_socket", JStr socket);
                        ("images", JObj [("frontend", JStr "kept:1")])])].
Definition reconcile_script : list reply :=
  [answer (JObj [meta "kube-system" "u-cluster" []]); items []; items [node]; Failed "Error: release: not found"; Unparsed ""]
  ++ replicate 9 (items [])
  ++ [items []; items [storage]; answer (JObj [meta "helper" "u-helper" []]); done_; Unparsed owned_rows; done_; done_].
Definition reconciled : result unit * world (list reply) unit :=
  reconcile_source_resources 3 3 (λ _, "x") "foretoken" "foretoken" (λ cluster, [((cluster, "build.json"), build_state)]) true None "1m"
    (start reconcile_script).
Example reconcile_runs :
  reconciled.1 = Returned tt ∧
  omap (λ e : call * reply, match e.1 with PodExec _ pod command _ => Some (pod, List.last (take 8 command) "") | _ => None end) (trace reconciled.2)
  = [("foretoken-node-images-x", "old:1"); ("foretoken-node-images-x", owner_selector "b1")].
Proof. vm_compute. split; reflexivity. Qed.
