(* ===== verification/Execution.v ===== *)
(** * The owner of an operation's commands ([processes/execution.py])

    A [CommandExecution] is shared by the threads of one operation.  A thread runs a
    stage ([__enter__], the body, [__exit__]); a body runs processes and registers other
    cleanups; the first stage that fails cancels the execution, which runs every
    registered cleanup, and stages of other threads stop with that first failure.

    The machine interleaves the threads at the granularity of the code: what is done
    under [_lock] without touching [_cancelled] and [_error] is one step, but [cancel] writes the error,
    sets the event and copies the callbacks in separate steps, since [check] reads
    the event and then the error without the lock.  A stage nested in another stage of
    its thread is a thread of its own that the outer stage waits for. *)

From stdpp Require Import gmap.
From S2P Require Import Prelude Effects ImageStore.

(** What a stage can fail with: [CancelledError] or another exception *)
Inductive failure :=
  | CancelledError
  | Error (e : exn).
#[export] Instance failure_eq_dec : EqDecision failure.
Proof. solve_decision. Defined.

(** The [stop] of a process, or the cleanup of another owner *)
Inductive callback :=
  | Process (p : nat)
  | Hook (n : nat).
#[export] Instance callback_eq_dec : EqDecision callback.
Proof. solve_decision. Defined.

(** Where a thread is *)
Inductive pc :=
  | Outside                              (* no stage *)
  | Checked (within : bool)              (* [check] has seen the event; within a stage, or at its border *)
  | Inside                               (* the body of a stage *)
  | Opening                              (* [process]: the check has passed *)
  | Opened (p : nat)                     (* the process runs, [register] is next *)
  | Using (p : nat)                      (* the [yield] of [process] *)
  | Late (cb : callback)                 (* [register] has seen the event: clean up, then check *)
  | Failing (p : nat) (e : failure)      (* an exception at the [yield]: clean up *)
  | Leaving (p : nat) (e : option failure) (* the [finally] of [process] *)
  | Raising (e : failure)                (* an exception in the body of a stage *)
  | Setting (e : option failure)         (* [cancel] has written the error *)
  | Copying (e : option failure)         (* [cancel] has set the event *)
  | Stopping (e : option failure) (todo : list callback) (* [cancel] runs the callbacks *)
  | Exiting (e : option failure)         (* [cancel] has returned *)
  | Left (e : failure).                  (* the stage has raised *)

Record execution := Execution {
  error : option failure;                (* [_error] *)
  cancelled : bool;                      (* [_cancelled] *)
  locked : option nat;                   (* [_lock], by the thread that holds it *)
  callbacks : list callback;             (* [_callbacks] *)
  stopped : list callback;               (* the callbacks that have run *)
  started : nat;                         (* processes so far *)
  threads : gmap nat pc;
}.
Definition created : execution := Execution None false None [] [] 0 ∅.
Definition pc_of (s : execution) (t : nat) : pc := default Outside (threads s !! t).
Definition goto (t : nat) (c : pc) (s : execution) : execution :=
  Execution (error s) (cancelled s) (locked s) (callbacks s) (stopped s) (started s) (<[t := c]> (threads s)).
Definition with_callbacks (l : list callback) (s : execution) : execution :=
  Execution (error s) (cancelled s) (locked s) l (stopped s) (started s) (threads s).
Definition ran (cb : callback) (s : execution) : execution :=
  Execution (error s) (cancelled s) (locked s) (callbacks s) (cb :: stopped s) (started s) (threads s).
Definition add_callback (cb : callback) (l : list callback) : list callback := if mem cb l then l else cb :: l.
Definition discard (cb : callback) (l : list callback) : list callback := keep (λ x, negb (bool_decide (x = cb))) l.

(** What [check] raises, and what the stage raises after [cancel(e)] *)
Definition raised (s : execution) : failure := default CancelledError (error s).
Definition stage_error (e : failure) (s : execution) : failure :=
  match error s with
  | Some first => if match e with CancelledError => true | Error e => absorbed e end then first else e
  | None => e
  end.
(** What [cleanup(callback, error)] may raise: with an error in hand it reports the
    failures of commands and of the system instead. *)
Definition escapes (error : option failure) (x : failure) : bool :=
  match error, x with Some _, Error e => negb (absorbed e) | _, _ => true end.

(** ** The steps of a thread *)

Inductive action :=
  | Check                (* [check], its test of the event: at [__enter__], [__exit__] and [process] *)
  | ReadError            (* [check], its exception *)
  | Popen
  | RegisterStop         (* [register(stop)] *)
  | RegisterHook (n : nat)
  | UnregisterHook (n : nat)
  | RunLate (x : option failure) (* [register], its cleanup, which may raise *)
  | Complete             (* the process has ended *)
  | Interrupt (e : failure)  (* an exception at the [yield] *)
  | CleanUp (x : option failure) (* [process], its cleanup *)
  | Unregister           (* [process], its [finally] *)
  | Throw (e : failure)  (* the body raises *)
  | Recover              (* the body handles an exception *)
  | Leave                (* [__exit__] without an exception: the test of its [check] *)
  | Cancel (own : bool)  (* [cancel], its test and the error: from [__exit__], or without an error by another owner *)
  | SetEvent
  | Copy
  | Run (cb : callback)  (* [cancel] has run a callback *)
  | Join (x : option failure)    (* [cancel] has run them all; one may have raised *)
  | Exit.                (* what [__exit__] raises *)

Definition unlocked (s : execution) : bool := bool_decide (locked s = None).
Definition take_lock (t : option nat) (s : execution) : execution :=
  Execution (error s) (cancelled s) t (callbacks s) (stopped s) (started s) (threads s).

(** [register] under the lock *)
Definition register (t : nat) (cb : callback) (next : pc) (s : execution) : option execution :=
  if negb (unlocked s) then None else
  Some (if cancelled s then goto t (Late cb) s
        else goto t next (with_callbacks (add_callback cb (callbacks s)) s)).
(** [unregister] *)
Definition unregister (t : nat) (cb : callback) (next : pc) (s : execution) : option execution :=
  if negb (unlocked s) then None else Some (goto t next (with_callbacks (discard cb (callbacks s)) s)).
(** [cancel], as far as the error *)
Definition cancel (t : nat) (e : option failure) (s : execution) : option execution :=
  if negb (unlocked s) then None else
  if cancelled s then Some (goto t (Exiting e) s)
  else Some (goto t (Setting e) (Execution e (cancelled s) (Some t) (callbacks s) (stopped s) (started s) (threads s))).

Definition perform (t : nat) (a : action) (s : execution) : option execution :=
  match pc_of s t, a with
  | Outside, Check => Some (goto t (if cancelled s then Checked false else Inside) s)
  | Inside, Check => Some (goto t (if cancelled s then Checked true else Opening) s)
  | Inside, Leave => Some (goto t (if cancelled s then Checked false else Outside) s)
  | Checked true, ReadError => Some (goto t (Raising (raised s)) s)
  | Checked false, ReadError => Some (goto t (Left (raised s)) s)
  | Opening, Popen =>
      Some (goto t (Opened (started s))
              (Execution (error s) (cancelled s) (locked s) (callbacks s) (stopped s) (Datatypes.S (started s)) (threads s)))
  | Opened p, RegisterStop => register t (Process p) (Using p) s
  | Inside, RegisterHook n => register t (Hook n) Inside s
  | Inside, UnregisterHook n => unregister t (Hook n) Inside s
  | Late cb, RunLate None => Some (goto t (Checked true) (ran cb s))
  | Late cb, RunLate (Some x) => if escapes (error s) x then Some (goto t (Raising x) (ran cb s)) else None
  | Using p, Complete => Some (goto t (Leaving p None) s)
  | Using p, Interrupt e => Some (goto t (Failing p e) s)
  | Failing p e, CleanUp None => Some (goto t (Leaving p (Some e)) (ran (Process p) s))
  | Failing p e, CleanUp (Some x) => if escapes (Some e) x then Some (goto t (Leaving p (Some x)) (ran (Process p) s)) else None
  | Leaving p e, Unregister => unregister t (Process p) (from_option Raising Inside e) s
  | Inside, Throw e => Some (goto t (Raising e) s)
  | Raising _, Recover => Some (goto t Inside s)
  | Raising e, Cancel true => cancel t (Some e) s
  | Outside, Cancel false => cancel t None s
  | Setting e, SetEvent =>
      Some (goto t (Copying e) (Execution (error s) true (locked s) (callbacks s) (stopped s) (started s) (threads s)))
  | Copying e, Copy => Some (goto t (Stopping e (callbacks s)) (take_lock None s))
  | Stopping e todo, Run cb => if mem cb todo then Some (goto t (Stopping e (discard cb todo)) (ran cb s)) else None
  | Stopping e [], Join None => Some (goto t (Exiting e) s)
  | Stopping e [], Join (Some x) => if escapes e x then Some (goto t (Left x) s) else None
  | Exiting (Some e), Exit => Some (goto t (Left (stage_error e s)) s)
  | Exiting None, Exit => Some (goto t Outside s)
  | _, _ => None
  end.

Definition step (s s' : execution) : Prop := ∃ t a, perform t a s = Some s'.
Definition reachable (s : execution) : Prop := rtc step created s.

(** ** Properties

    An invariant of the machine, over every interleaving of the threads:
    a process in use is registered, and once the event is set every registered callback
    has run or is still to be run by the one thread that cancels. *)

Lemma pc_of_goto t c s t' : pc_of (goto t c s) t' = if decide (t = t') then c else pc_of s t'.
Proof.
  unfold pc_of, goto. simpl. destruct (decide (t = t')) as [->|Hne]; [by rewrite lookup_insert_eq|by rewrite lookup_insert_ne].
Qed.
Lemma elem_of_add cb x l : x ∈ add_callback cb l ↔ x = cb ∨ x ∈ l.
Proof. unfold add_callback. destruct (mem cb l) eqn:E; rewrite ?elem_of_cons; [apply mem_true in E|]; naive_solver. Qed.
Lemma elem_of_discard cb x l : x ∈ discard cb l ↔ x ≠ cb ∧ x ∈ l.
Proof. unfold discard. rewrite elem_of_keep. destruct (bool_decide (x = cb)) eqn:E; simpl;
  [apply bool_decide_eq_true in E|apply bool_decide_eq_false in E]; naive_solver. Qed.

(** The thread that cancels, and the process a thread owns *)
Definition cancelling (c : pc) : Prop := match c with Copying _ | Stopping _ _ => True | _ => False end.
Definition holds_lock (c : pc) : Prop := match c with Setting _ | Copying _ => True | _ => False end.
Definition owns (c : pc) (p : nat) : Prop :=
  match c with Opened q | Using q | Late (Process q) | Failing q _ | Leaving q _ => q = p | _ => False end.
(** Still to be run *)
Definition awaited (c : pc) (cb : callback) : Prop :=
  match c with Copying _ => True | Stopping _ todo => cb ∈ todo | _ => False end.

Record inv (s : execution) : Prop := Inv {
  inv_lock : ∀ t, locked s = Some t ↔ holds_lock (pc_of s t);
  inv_setting : ∀ t e, pc_of s t = Setting e → cancelled s = false ∧ error s = e;
  inv_cancelling : ∀ t, cancelling (pc_of s t) → cancelled s = true ∧ ∀ t', cancelling (pc_of s t') → t' = t;
  inv_reached : cancelled s = true → ∀ cb, cb ∈ callbacks s → cb ∈ stopped s ∨ ∃ t, awaited (pc_of s t) cb;
  inv_using : ∀ t p, pc_of s t = Using p → Process p ∈ callbacks s;
  inv_owner : ∀ t p, owns (pc_of s t) p → (p < started s)%nat ∧ ∀ t', owns (pc_of s t') p → t' = t;
}.
Lemma inv_created : inv created.
Proof. split; unfold pc_of; simpl; intros; rewrite ?lookup_empty in *; naive_solver. Qed.

(** ** What a step can do *)

Ltac perform_cases Hp :=
  unfold perform, register, unregister, cancel, unlocked in Hp; repeat case_match; simplify_eq; cbn [negb] in *; try done;
  repeat match goal with Hb : bool_decide _ = true |- _ => apply bool_decide_eq_true in Hb
                       | Hb : negb (bool_decide _) = false |- _ => apply negb_false_iff, bool_decide_eq_true in Hb
                       | e : option failure |- _ => destruct e end.
Ltac fields :=
  cbn [error cancelled locked callbacks stopped started goto with_callbacks ran take_lock
       holds_lock cancelling awaited owns from_option] in *.

Lemma perform_frame t a s s' u : perform t a s = Some s' → t ≠ u → pc_of s' u = pc_of s u.
Proof. intros Hp Hne. perform_cases Hp; rewrite pc_of_goto, decide_False by done; done. Qed.
Lemma perform_mono t a s s' : perform t a s = Some s' → cancelled s = true → cancelled s' = true ∧ error s' = error s.
Proof. intros Hp Hc. perform_cases Hp; fields; try done; congruence. Qed.
Lemma perform_stopped t a s s' cb : perform t a s = Some s' → cb ∈ stopped s → cb ∈ stopped s'.
Proof. intros Hp Hc. perform_cases Hp; fields; try done; by right. Qed.
Lemma perform_cancelling t a s s' :
  perform t a s = Some s' → cancelling (pc_of s' t) →
  (cancelling (pc_of s t) ∧ cancelled s' = cancelled s) ∨ (∃ e, pc_of s t = Setting e) ∧ cancelled s' = true.
Proof.
  intros Hp Hc. perform_cases Hp; rewrite pc_of_goto, decide_True in Hc by done; fields; try done;
    first [by left|right; split; [by eexists|done]].
Qed.
Lemma perform_setting t a s s' e :
  perform t a s = Some s' → pc_of s' t = Setting e → locked s = None ∧ cancelled s = false ∧ cancelled s' = false ∧ error s' = e.
Proof. intros Hp He. perform_cases Hp; rewrite pc_of_goto, decide_True in He by done; fields; simplify_eq; done. Qed.
Lemma perform_event t a s s' : perform t a s = Some s' → cancelled s' ≠ cancelled s → ∃ e, pc_of s t = Setting e ∧ pc_of s' t = Copying e.
Proof. intros Hp Hc. perform_cases Hp; fields; try done; (eexists; split; [done|by rewrite pc_of_goto, decide_True]). Qed.
Lemma perform_error t a s s' : perform t a s = Some s' → error s' ≠ error s → locked s = None ∧ cancelled s = false.
Proof. intros Hp Hc. perform_cases Hp; fields; done. Qed.

Lemma perform_callbacks t a s s' : perform t a s = Some s' → cancelled s = true → callbacks s' ⊆ callbacks s.
Proof. intros Hp Hc. perform_cases Hp; fields; try done; try congruence; intros cb; rewrite elem_of_discard; tauto. Qed.
Lemma perform_discards t a s s' p :
  perform t a s = Some s' → Process p ∈ callbacks s → Process p ∈ callbacks s' ∨ ∃ e, pc_of s t = Leaving p e.
Proof.
  intros Hp Hin. perform_cases Hp; fields; try (by left); rewrite ?elem_of_add, ?elem_of_discard; try naive_solver;
    match goal with Hq : pc_of s t = Leaving ?q _ |- _ => destruct (decide (q = p)) as [->|] end; naive_solver.
Qed.
Lemma perform_awaited t a s s' cb :
  perform t a s = Some s' → awaited (pc_of s t) cb → cb ∈ callbacks s → cb ∈ stopped s' ∨ awaited (pc_of s' t) cb.
Proof.
  intros Hp Ha Hcb. perform_cases Hp; rewrite ?pc_of_goto, ?decide_True by done; fields; try done; try (by right);
    try (by apply not_elem_of_nil in Ha).
  all: match goal with |- _ ∈ ?c0 :: _ ∨ _ => destruct (decide (cb = c0)) as [->|]; [left; left|right; by apply elem_of_discard] end.
Qed.
Lemma perform_owns t a s s' p :
  perform t a s = Some s' → owns (pc_of s' t) p → owns (pc_of s t) p ∧ (started s ≤ started s')%nat ∨ p = started s ∧ started s' = Datatypes.S p.
Proof.
  intros Hp Ho. perform_cases Hp; rewrite pc_of_goto, decide_True in Ho by done; fields; simplify_eq; try done; try (by left); by right.
Qed.
Lemma perform_started t a s s' : perform t a s = Some s' → (started s ≤ started s')%nat.
Proof. intros Hp. perform_cases Hp; fields; lia. Qed.
Lemma perform_using t a s s' p : perform t a s = Some s' → pc_of s' t = Using p → Process p ∈ callbacks s'.
Proof.
  intros Hp Hu. perform_cases Hp; rewrite pc_of_goto, decide_True in Hu by done; fields; simplify_eq. apply elem_of_add. by left.
Qed.

(** ** The invariant is kept *)

Lemma inv_step_lock t a s s' u : perform t a s = Some s' → inv s → locked s' = Some u ↔ holds_lock (pc_of s' u).
Proof.
  intros Hp HI. pose proof (inv_lock s HI u) as Hu. pose proof (inv_lock s HI t) as Ht.
  perform_cases Hp; rewrite pc_of_goto in *; destruct (decide (t = u)); subst; fields; try (rewrite <-Hu; naive_solver); naive_solver.
Qed.

(** No thread is between the error and the event, or cancels, while the execution is not cancelled. *)
Lemma setting_locks s u e : inv s → pc_of s u = Setting e → cancelled s = false ∧ error s = e ∧ locked s = Some u.
Proof. intros HI Hu. destruct (inv_setting s HI u e Hu). split_and!; [done..|]. apply (inv_lock s HI). by rewrite Hu. Qed.

Lemma inv_step_setting t a s s' u e : perform t a s = Some s' → inv s → pc_of s' u = Setting e → cancelled s' = false ∧ error s' = e.
Proof.
  intros Hp HI Hu. destruct (decide (t = u)) as [->|Hne]; [by apply (perform_setting _ _ _ _ _ Hp) in Hu as (_ & _ & ?)|].
  rewrite (perform_frame _ _ _ _ _ Hp Hne) in Hu. destruct (setting_locks _ _ _ HI Hu) as (Hc & He & Hl). split.
  - destruct (cancelled s') eqn:E; [|done]. destruct (perform_event _ _ _ _ Hp) as (e' & Ht & _); [congruence|].
    destruct (setting_locks _ _ _ HI Ht) as (_ & _ & Hl'). congruence.
  - destruct (decide (error s' = error s)) as [->|Hd]; [done|]. destruct (perform_error _ _ _ _ Hp Hd). congruence.
Qed.

Lemma inv_step_cancelling t a s s' u :
  perform t a s = Some s' → inv s → cancelling (pc_of s' u) → cancelled s' = true ∧ ∀ v, cancelling (pc_of s' v) → v = u.
Proof.
  intros Hp HI. pose proof (inv_cancelling s HI) as Hc.
  assert (∀ v, t ≠ v → cancelling (pc_of s' v) → ¬ cancelling (pc_of s' t)) as Hother.
  { intros v Hne Hv Ht. rewrite (perform_frame _ _ _ _ _ Hp Hne) in Hv. destruct (Hc v Hv) as [Hcan Huniq].
    destruct (perform_cancelling _ _ _ _ Hp Ht) as [[Hold _]|[[e He] _]]; [by apply Hne, Huniq|].
    apply (inv_setting s HI) in He as [? _]. congruence. }
  intros Hu. destruct (decide (t = u)) as [->|Hne].
  - split.
    + destruct (perform_cancelling _ _ _ _ Hp Hu) as [[Hold ->]|[_ ?]]; [|done]. by apply Hc in Hold as [? _].
    + intros v Hv. destruct (decide (u = v)); [done|]. by destruct (Hother v).
  - assert (cancelling (pc_of s u)) as Hold by (by rewrite <-(perform_frame _ _ _ _ _ Hp Hne)). destruct (Hc u Hold) as [Hcan Huniq].
    split; [by apply (perform_mono _ _ _ _ Hp)|]. intros v Hv. destruct (decide (t = v)) as [->|Hnv]; [by destruct (Hother u)|].
    apply Huniq. by rewrite <-(perform_frame _ _ _ _ _ Hp Hnv).
Qed.

Lemma inv_step_reached t a s s' cb :
  perform t a s = Some s' → inv s → cancelled s' = true → cb ∈ callbacks s' → cb ∈ stopped s' ∨ ∃ u, awaited (pc_of s' u) cb.
Proof.
  intros Hp HI Hc Hcb. destruct (cancelled s) eqn:E.
  - apply (perform_callbacks _ _ _ _ Hp E) in Hcb. destruct (inv_reached s HI E cb Hcb) as [Hs|[u Hu]].
    + left. by eapply perform_stopped.
    + destruct (decide (t = u)) as [->|Hne]; [destruct (perform_awaited _ _ _ _ _ Hp Hu Hcb); eauto|].
      right. exists u. by rewrite (perform_frame _ _ _ _ _ Hp Hne).
  - destruct (perform_event _ _ _ _ Hp) as (e & _ & Ht); [congruence|]. right. exists t. by rewrite Ht.
Qed.

Lemma inv_step_using t a s s' u p : perform t a s = Some s' → inv s → pc_of s' u = Using p → Process p ∈ callbacks s'.
Proof.
  intros Hp HI Hu. destruct (decide (t = u)) as [->|Hne]; [by eapply perform_using|].
  rewrite (perform_frame _ _ _ _ _ Hp Hne) in Hu. pose proof (inv_using s HI u p Hu) as Hin.
  destruct (perform_discards _ _ _ _ _ Hp Hin) as [?|[e He]]; [done|].
  destruct (inv_owner s HI u p) as [_ Huniq]; [by rewrite Hu|]. destruct Hne. apply Huniq. by rewrite He.
Qed.

Lemma inv_step_owner t a s s' u p :
  perform t a s = Some s' → inv s → owns (pc_of s' u) p → (p < started s')%nat ∧ ∀ v, owns (pc_of s' v) p → v = u.
Proof.
  intros Hp HI. pose proof (inv_owner s HI) as Ho. pose proof (perform_started _ _ _ _ Hp) as Hst.
  assert (∀ v, t ≠ v → owns (pc_of s' v) p → (p < started s)%nat ∧ ¬ owns (pc_of s' t) p) as Hother.
  { intros v Hne Hv. rewrite (perform_frame _ _ _ _ _ Hp Hne) in Hv. destruct (Ho v p Hv) as [Hlt Huniq]. split; [done|]. intros Ht.
    destruct (perform_owns _ _ _ _ _ Hp Ht) as [[Hold _]|[-> _]]; [by apply Hne, Huniq|lia]. }
  intros Hu. destruct (decide (t = u)) as [->|Hne].
  - split.
    + destruct (perform_owns _ _ _ _ _ Hp Hu) as [[Hold ?]|[-> ->]]; [|lia]. apply Ho in Hold as [? _]. lia.
    + intros v Hv. destruct (decide (u = v)); [done|]. destruct (Hother v); [done..|]. by exfalso.
  - destruct (Hother u Hne Hu) as [Hlt Hnt]. split; [lia|]. intros v Hv. destruct (decide (t = v)) as [->|Hnv]; [done|].
    rewrite (perform_frame _ _ _ _ _ Hp Hne) in Hu. rewrite (perform_frame _ _ _ _ _ Hp Hnv) in Hv. by apply (Ho u p Hu).
Qed.

Lemma execution_inv s : reachable s → inv s.
Proof.
  apply (rtc_ind_r (R := step) inv created inv_created). intros s1 s2 _ (t & a & Hp) HI.
  split; eauto using inv_step_lock, inv_step_setting, inv_step_cancelling, inv_step_reached, inv_step_using, inv_step_owner.
Qed.

(** ** What a stage ends with *)

(** What the code knows at each place *)
Definition aware (s : execution) (c : pc) : Prop :=
  match c with
  | Checked _ | Exiting _ | Late _ => cancelled s = true
  | Copying e | Stopping e _ => error s = e
  | Left e => cancelled s = true ∧ ∀ x, e = Error x → absorbed x = true → error s = None ∨ error s = Some e
  | _ => True
  end.
Lemma aware_step t a s s' u : perform t a s = Some s' → inv s → (∀ v, aware s (pc_of s v)) → aware s' (pc_of s' u).
Proof.
  intros Hp HI Ha. destruct (decide (t = u)) as [<-|Hne].
  - pose proof (Ha t) as Ht. pose proof (λ e, inv_setting s HI t e) as Hset. pose proof (inv_cancelling s HI t) as Hcan.
    perform_cases Hp; rewrite pc_of_goto, decide_True by done; unfold raised, stage_error, escapes in *; fields; cbn [aware] in *;
      fields; try done; try (by apply Hset); try (by apply Hcan).
    + split; [done|]. intros x _ _. destruct (error s); [by right|by left].
    + split; [apply Hcan; by fields|]. intros x -> Hx. rewrite Hx in *. done.
    + split; [apply Hcan; by fields|]. intros x -> Hx. by left.
    + split; [done|]. destruct (error s) as [first|]; [|by left]. destruct f as [|e]; [by right|].
      destruct (absorbed e) eqn:E; [by right|]. intros x [= ->] Hx. congruence.
  - rewrite (perform_frame _ _ _ _ _ Hp Hne). pose proof (Ha u) as Hu.
    assert (cancelled s = true → cancelled s' = true ∧ error s' = error s) as Hm by apply (perform_mono _ _ _ _ Hp).
    destruct (pc_of s u) eqn:E; cbn [aware] in *; try done; try (by apply Hm);
      try (destruct (inv_cancelling s HI u) as [Hc _]; [by rewrite E|]; destruct (Hm Hc) as [_ ->]; done).
    destruct Hu as [Hc Hx]. destruct (Hm Hc) as [? ->]. done.
Qed.
Lemma reachable_aware s t : reachable s → aware s (pc_of s t).
Proof.
  intros Hr. revert t. apply (rtc_ind_r (R := step) (λ s, ∀ t, aware s (pc_of s t)) created); [|clear s Hr|done].
  - intros t. unfold pc_of. simpl. by rewrite lookup_empty.
  - intros s1 s2 Hr (t & a & Hp) Ha u. by eapply aware_step; [|apply execution_inv|].
Qed.

(** ** Properties *)

Lemma reachable_later s s' : reachable s → rtc step s s' → reachable s'.
Proof. unfold reachable. intros. by etrans. Qed.
Lemma cancelled_for_good s s' : rtc step s s' → cancelled s = true → cancelled s' = true ∧ error s' = error s.
Proof.
  induction 1 as [s|s1 s2 s3 (t & a & Hp) _ IH]; [done|]. intros Hc. destruct (perform_mono _ _ _ _ Hp Hc) as [Hc2 <-]. by apply IH.
Qed.

(** C26: The first failure of an operation is kept.  In every interleaving, once an execution
    is cancelled it stays cancelled with the error of the call that cancelled it; and a stage that then
    ends with a failure of a command or of the system ends with exactly that
    error, unless the execution was cancelled without one. *)
Theorem first_failure_kept s s' t x :
  reachable s → cancelled s = true → rtc step s s' →
  cancelled s' = true ∧ error s' = error s ∧
  (pc_of s' t = Left (Error x) → absorbed x = true → error s = None ∨ error s = Some (Error x)).
Proof.
  intros Hr Hc Hs. destruct (cancelled_for_good _ _ Hs Hc) as [Hc' He]. split_and!; [done..|]. intros Hl Hx.
  pose proof (reachable_aware s' t (reachable_later s s' Hr Hs)) as Ha. rewrite Hl in Ha. destruct Ha as [_ Ha].
  rewrite <-He. by apply (Ha x).
Qed.

(** The cancelling thread can finish by its own steps. *)
Lemma stopping_finishes t e todo s : pc_of s t = Stopping e todo → ∃ s', rtc step s s' ∧ pc_of s' t = Exiting e ∧ ∀ u, t ≠ u → pc_of s' u = pc_of s u.
Proof.
  remember (length todo) as n eqn:Hn. revert todo s Hn. induction n as [n IH] using lt_wf_ind. intros todo s -> Ht. destruct todo as [|cb todo].
  - exists (goto t (Exiting e) s). split_and!.
    + apply rtc_once. exists t, (Join None). unfold perform. by rewrite Ht.
    + by rewrite pc_of_goto, decide_True.
    + intros u Hne. by rewrite pc_of_goto, decide_False.
  - set (s1 := goto t (Stopping e (discard cb (cb :: todo))) (ran cb s)).
    assert (length (discard cb (cb :: todo)) < length (cb :: todo))%nat as Hlt.
    { unfold discard, keep. rewrite filter_cons, decide_False by (by rewrite bool_decide_true). simpl. pose proof (length_filter (λ x, negb (bool_decide (x = cb)) = true) todo). lia. }
    destruct (IH _ Hlt (discard cb (cb :: todo)) s1 eq_refl) as (s' & Hs & He & Hf); [by unfold s1; rewrite pc_of_goto, decide_True|].
    exists s'. split_and!; [|done|].
    + eapply rtc_l; [|exact Hs]. exists t, (Run cb). unfold perform. rewrite Ht. unfold mem. by rewrite bool_decide_true by left.
    + intros u Hne. rewrite (Hf u Hne). unfold s1. by rewrite pc_of_goto, decide_False.
Qed.
#[local] Instance cancelling_dec c : Decision (cancelling c).
Proof. destruct c; simpl; apply _. Defined.
Definition settled (s : execution) : Prop := ∀ t, ¬ cancelling (pc_of s t).
Lemma cancellation_settles s : reachable s → cancelled s = true → ∃ s', rtc step s s' ∧ settled s'.
Proof.
  intros Hr Hc. pose proof (execution_inv s Hr) as HI.
  assert (∀ t e todo s1, (∀ u, t ≠ u → pc_of s1 u = pc_of s u) → cancelling (pc_of s t) → pc_of s1 t = Stopping e todo →
    ∃ s', rtc step s1 s' ∧ settled s') as Hfin.
  { intros t e todo s1 Hf Ht He. destruct (stopping_finishes t e todo s1 He) as (s' & Hs & He' & Hf'). exists s'. split; [done|].
    intros u Hu. destruct (decide (t = u)) as [->|Hne]; [by rewrite He' in Hu|]. rewrite Hf', Hf in Hu by done.
    destruct (inv_cancelling s HI t Ht) as [_ Huniq]. by apply Hne, symmetry, Huniq. }
  destruct (decide (Exists (λ e : nat * pc, cancelling e.2) (map_to_list (threads s)))) as [Hex|Hno].
  2:{ exists s. split; [done|]. intros t Ht. apply Hno, Exists_exists. unfold pc_of in Ht. destruct (threads s !! t) as [c|] eqn:E; [|done].
      exists (t, c). by rewrite elem_of_map_to_list. }
  apply Exists_exists in Hex as ([t c] & Hin%elem_of_map_to_list & Hcc).
  assert (pc_of s t = c) as Hpc by (unfold pc_of; by rewrite Hin). rewrite <-Hpc in Hcc. cbn [snd] in Hcc.
  destruct (pc_of s t) as [| | | | | | | | | | |e|e todo| |] eqn:E; try done.
  - destruct (Hfin t e (callbacks s) (goto t (Stopping e (callbacks s)) (take_lock None s))) as (s' & Hs & Hset);
      [intros u Hne; by rewrite pc_of_goto, decide_False|by rewrite E|by rewrite pc_of_goto, decide_True|].
    exists s'. split; [|done]. eapply rtc_l; [|exact Hs]. exists t, Copy. unfold perform. by rewrite E.
  - apply (Hfin t e todo s); [done|by rewrite E|done].
Qed.

(** C23: Cancellation reaches every command.  In every interleaving: when the execution is cancelled, the cancelling
    thread can always finish; and once it has, every callback that is registered has
    run, so no thread is left waiting for a process that nobody has stopped. *)
Theorem cancel_reaches_all s :
  reachable s → cancelled s = true →
  (∃ s', rtc step s s' ∧ settled s') ∧
  ∀ s', rtc step s s' → settled s' →
    (∀ cb, cb ∈ callbacks s' → cb ∈ stopped s') ∧ (∀ t p, pc_of s' t = Using p → Process p ∈ stopped s').
Proof.
  intros Hr Hc. split; [by apply cancellation_settles|]. intros s' Hs Hset.
  pose proof (execution_inv s' (reachable_later s s' Hr Hs)) as HI. destruct (cancelled_for_good _ _ Hs Hc) as [Hc' _].
  assert (∀ cb, cb ∈ callbacks s' → cb ∈ stopped s') as Hall.
  { intros cb Hcb. destruct (inv_reached s' HI Hc' cb Hcb) as [?|[t Ht]]; [done|]. destruct (Hset t). by destruct (pc_of s' t). }
  split; [done|]. intros t p Ht. by eapply Hall, inv_using.
Qed.

(** ** A run *)

Fixpoint schedule (l : list (nat * action)) (s : execution) : option execution :=
  match l with
  | [] => Some s
  | (t, a) :: l => perform t a s ≫= schedule l
  end.
Lemma schedule_steps l s s' : schedule l s = Some s' → rtc step s s'.
Proof.
  revert s. induction l as [|[t a] l IH]; intros s; simpl; [by intros [= ->]|].
  intros (s1 & Hp & Hs)%bind_Some. eapply rtc_l; [by exists t, a|by apply IH].
Qed.

(** Thread 0 waits for a process when the stage of thread 1 fails; a third thread starts a process
    just before the event is set.  Both processes are stopped, and thread 0 ends
    with the failure of thread 1 instead of its own. *)
Definition lost : failure := Error (DeploymentError "the build failed").
Definition killed : failure := Error (DeploymentError "kubectl was killed").
Definition until_cancelled : list (nat * action) :=
  [(0, Check); (0, Check); (0, Popen); (0, RegisterStop); (1, Check); (2, Check); (2, Check); (1, Throw lost); (1, Cancel true);
   (2, Popen); (1, SetEvent)]%nat.
Definition afterwards : list (nat * action) :=
  [(1, Copy); (2, RegisterStop); (1, Run (Process 0)); (0, Interrupt killed); (0, CleanUp None); (1, Join None); (0, Unregister); (0, Cancel true);
   (0, Exit); (2, RunLate None); (2, ReadError); (2, Cancel true); (2, Exit); (1, Exit)]%nat.
Definition cancelled_run : execution := default created (schedule until_cancelled created).
Definition finished_run : execution := default created (schedule afterwards cancelled_run).
Example run_ends :
  (pc_of finished_run <$> [0; 1; 2]%nat) = [Left lost; Left lost; Left lost] ∧ stopped finished_run = [Process 1; Process 0; Process 0] ∧
  callbacks finished_run = [].
Proof. vm_compute. done. Qed.

Lemma first_failure_kept_witness :
  cancelled cancelled_run = true ∧ cancelled finished_run = true ∧ error finished_run = error cancelled_run ∧
  (pc_of finished_run 0 = Left (Error (DeploymentError "the build failed")) → absorbed (DeploymentError "the build failed") = true →
   error cancelled_run = None ∨ error cancelled_run = Some (Error (DeploymentError "the build failed"))).
Proof.
  split; [vm_compute; reflexivity|]. apply (first_failure_kept cancelled_run finished_run 0 (DeploymentError "the build failed")).
  - apply (schedule_steps until_cancelled). vm_compute. reflexivity.
  - vm_compute. reflexivity.
  - apply (schedule_steps afterwards). vm_compute. reflexivity.
Defined.

Lemma cancel_reaches_all_witness :
  cancelled cancelled_run = true ∧ (∃ s', rtc step cancelled_run s' ∧ settled s') ∧
  ∀ s', rtc step cancelled_run s' → settled s' →
    (∀ cb, cb ∈ callbacks s' → cb ∈ stopped s') ∧ (∀ t p, pc_of s' t = Using p → Process p ∈ stopped s').
Proof.
  split; [vm_compute; reflexivity|]. apply (cancel_reaches_all cancelled_run).
  - apply (schedule_steps until_cancelled). vm_compute. reflexivity.
  - vm_compute. reflexivity.
Defined.
