(* ===== verification/Publisher.v ===== *)
(** * Publishing application files ([applications/files.py], [build/records.py])

    A publication is done by a Job that mounts the volume of the file origin.  Its
    creation may succeed although the answer is lost, so the Job does nothing
    without an input ConfigMap that is created only after the answer; and on every
    way out the Job is removed, by the UID of the answer or, when there was none, by the
    label of the publisher and the owner it was created with.  A release import uses
    one name per volume as a lock and waits for it.

    [cancelled] is the failure of the surrounding operation once so many calls were
    made; [execution] says whether there is one. *)

From Stdlib Require Import Ascii.
From S2P Require Import Prelude Text Kube Manifest Effects Client Instances ImageStore Consumers SourceCleanup.

Definition SOURCE_ARCHIVE : string := "/source-evidence/inputs.tar.gz".

(** The compiler workspace a publication borrows *)
Record compiler := Compiler {
  c_name : string;
  c_namespace : string;
  c_mount : string;
  c_claim : string;
  c_execution_claim : string;
  c_execution_mount : string;
  c_workspace : string;
}.

(** The origin once [prepare] has found its volume and node *)
Record prepared := Prepared {
  pr_origin : origin;
  pr_claim_uid : json;
  pr_pull_secrets : list json;
  pr_node : json;
}.

(** ** Documents *)

Definition publisher_labels (binding : string) : json :=
  JObj [("foretoken.io/application-files", JStr "publisher"); (APPLICATION_PUBLISHER_BINDING_LABEL, JStr binding)].
Definition pvc_volume (nm claim : string) (more : list (string * json)) : json :=
  JObj [("name", JStr nm); ("persistentVolumeClaim", JObj (("claimName", JStr claim) :: more))].
Definition container_security (user : list (string * json)) : json :=
  JObj (user ++ [("allowPrivilegeEscalation", JBool false); ("readOnlyRootFilesystem", JBool true);
                 ("capabilities", JObj [("drop", JArr [JStr "ALL"])])]).

(** [{**pod["spec"].get("securityContext", {}), **compiler.get("securityContext", {})}["runAsUser"]] *)
Definition compiler_user (pod : json) : outcome json :=
  spec ← index "spec" pod;
  containers ← (l ← index "containers" spec; elements l);
  container ← find_first (λ c, n ← index "name" c; Ok (is_str "builder" n)) containers;
  match container with
  | None => Raise StopIteration
  | Some container =>
      shared ← (s ← get_or "securityContext" (JObj []) spec; items_of s);
      own ← (s ← get_or "securityContext" (JObj []) container; items_of s);
      index "runAsUser" (JObj (foldl (λ d e, dset e.1 e.2 d) shared own))
  end.

(** [_publisher_job]; [user] is the user of the compiler that is borrowed. *)
Definition publisher_volumes (o : origin) (input_name : string) (b : option compiler) : list json :=
  match b with
  | Some b => [pvc_volume "compiler" (c_claim b) [("readOnly", JBool true)]]
  | None => []
  end
  ++ [pvc_volume "applications" (o_claim o) []; JObj [("name", JStr "temporary"); ("emptyDir", JObj [])];
      JObj [("name", JStr "selection"); ("configMap", JObj [("name", JStr input_name)])]]
  ++ match b with
     | Some b =>
         (if negb (eqb (c_execution_claim b) (c_claim b))
          then [pvc_volume "execution" (c_execution_claim b) [("readOnly", JBool true)]] else [])
         ++ [JObj [("name", JStr "source-evidence"); ("emptyDir", JObj [])]]
     | None => []
     end.
Definition selection_mount : json :=
  JObj [("name", JStr "selection"); ("mountPath", JStr "/selection"); ("readOnly", JBool true)].
Definition publisher_mounts (o : origin) (b : option compiler) : list json :=
  match b with
  | Some b => [JObj [("name", JStr "compiler"); ("mountPath", JStr (c_mount b)); ("readOnly", JBool true)]]
  | None => []
  end
  ++ [JObj [("name", JStr "applications"); ("mountPath", JStr (o_mount o))];
      JObj [("name", JStr "temporary"); ("mountPath", JStr "/tmp")]; selection_mount]
  ++ match b with
     | Some _ => [JObj [("name", JStr "source-evidence"); ("mountPath", JStr "/source-evidence"); ("readOnly", JBool true)]]
     | None => []
     end.
Definition evidence_container (o : origin) (b : compiler) (user : json) : json :=
  JObj [("name", JStr "source-evidence"); ("image", JStr (o_client_image o));
        ("command", JArr (JStr <$> ["python"; "/selection/publish.py"; "--archive-inputs"; c_workspace b; SOURCE_ARCHIVE]));
        ("terminationMessagePolicy", JStr "FallbackToLogsOnError");
        ("securityContext", container_security [("runAsUser", user)]);
        ("volumeMounts", JArr
           [JObj [("name", JStr (if negb (eqb (c_execution_claim b) (c_claim b)) then "execution" else "compiler"));
                  ("mountPath", JStr (c_execution_mount b)); ("readOnly", JBool true)];
            selection_mount;
            JObj [("name", JStr "source-evidence"); ("mountPath", JStr "/source-evidence")]])].
Definition authorization (secret : string) : json :=
  JArr [JObj [("name", JStr "FORETOKEN_RELEASE_AUTHORIZATION");
              ("valueFrom", JObj [("secretKeyRef", JObj [("name", JStr secret); ("key", JStr "authorization")])])]].
Definition publisher_job (p : prepared) (arguments : list string) (binding nm input_name : string) (seconds : Z)
    (b : option (compiler * json)) (credentials_secret : string) : json :=
  let o := pr_origin p in
  JObj [("apiVersion", JStr "batch/v1"); ("kind", JStr "Job");
        ("metadata", JObj [("name", JStr nm); ("namespace", JStr (o_namespace o)); ("labels", publisher_labels binding);
           ("ownerReferences", JArr [JObj [("apiVersion", JStr "v1"); ("kind", JStr "PersistentVolumeClaim");
                                           ("name", JStr (o_claim o)); ("uid", pr_claim_uid p)]])]);
        ("spec", JObj [("backoffLimit", JInt 0); ("activeDeadlineSeconds", JInt seconds); ("ttlSecondsAfterFinished", JInt seconds);
           ("template", JObj [("metadata", JObj [("labels", publisher_labels binding)]);
              ("spec", JObj ([("restartPolicy", JStr "Never"); ("automountServiceAccountToken", JBool false);
                 ("imagePullSecrets", JArr ((λ s, JObj [("name", s)]) <$> pr_pull_secrets p));
                 ("affinity", JObj [("nodeAffinity", JObj [("requiredDuringSchedulingIgnoredDuringExecution",
                    JObj [("nodeSelectorTerms", JArr [JObj [("matchFields", JArr [JObj
                      [("key", JStr "metadata.name"); ("operator", JStr "In"); ("values", JArr [pr_node p])]])]])])])]);
                 ("securityContext", JObj [("runAsNonRoot", JBool true); ("runAsUser", JInt 1000); ("runAsGroup", JInt 1000);
                    ("fsGroup", JInt 1000); ("fsGroupChangePolicy", JStr "OnRootMismatch");
                    ("seccompProfile", JObj [("type", JStr "RuntimeDefault")])]);
                 ("containers", JArr [JObj ([("name", JStr "publish"); ("image", JStr (o_client_image o));
                    ("command", JArr (JStr <$> ["python"; "/selection/publish.py"] ++ arguments));
                    ("terminationMessagePolicy", JStr "FallbackToLogsOnError"); ("securityContext", container_security []);
                    ("volumeMounts", JArr (publisher_mounts o (fst <$> b)))]
                    ++ (if nonempty credentials_secret then [("env", authorization credentials_secret)] else []))]);
                 ("volumes", JArr (publisher_volumes o input_name (fst <$> b)))]
                 ++ match b with Some (b, user) => [("initContainers", JArr [evidence_container o b user])] | None => [] end))])])].

(** The input of the Job *)
Definition selection_document (o : origin) (binding input_name : string) (nm uid : json) (data : list (string * json)) : json :=
  JObj [("apiVersion", JStr "v1"); ("kind", JStr "ConfigMap");
        ("metadata", JObj [("name", JStr input_name); ("namespace", JStr (o_namespace o));
           ("labels", JObj (if dmem WORKSPACE_SELECTION_KEY data then [(WORKSPACE_LABEL, JStr binding)] else []));
           ("ownerReferences", JArr [JObj [("apiVersion", JStr "batch/v1"); ("kind", JStr "Job"); ("name", nm); ("uid", uid)]])]);
        ("immutable", JBool true); ("data", JObj data)].

(** A Job that can only come from this publisher *)
Definition claim_owner (uid : json) (reference : json) : outcome bool :=
  k ← index "kind" reference;
  if negb (is_str "PersistentVolumeClaim" k) then Ok false else
  u ← index "uid" reference; Ok (py_eqb u uid).
Definition own_job (binding : string) (claim_uid current : json) : outcome bool :=
  b ← label APPLICATION_PUBLISHER_BINDING_LABEL current;
  if negb (is_str binding b) then Ok false else
  references ← meta_get "ownerReferences" (JArr []) current;
  references ← elements references;
  any_of (claim_owner claim_uid) references.

Definition ready_condition (condition : json) : outcome bool :=
  t ← index "type" condition;
  if negb (is_str "Ready" t) then Ok false else
  s ← index "status" condition; Ok (is_str "True" s).
Definition ready_publisher (pod : json) : outcome bool :=
  del ← meta_get "deletionTimestamp" JNull pod;
  if truthy del then Ok false else
  status ← get_or "status" (JObj []) pod;
  conditions ← get_or "conditions" (JArr []) status;
  conditions ← elements conditions;
  any_of ready_condition conditions.
(** [any(c["type"] == kind and c["status"] == "True" ...)] *)
Definition condition_true (kind : string) (condition : json) : outcome bool :=
  t ← index "type" condition;
  if negb (is_str kind t) then Ok false else
  s ← index "status" condition; Ok (is_str "True" s).
(** The message of a terminated container *)
Definition terminated_message (status : json) : outcome (list string) :=
  state ← get_or "state" (JObj []) status;
  terminated ← get_or "terminated" (JObj []) state;
  message ← get "message" terminated;
  if truthy message then m ← as_text message; Ok [m] else Ok [].
Definition pod_messages (pod : json) : outcome (list string) :=
  status ← get_or "status" (JObj []) pod;
  first ← (l ← get_or "initContainerStatuses" (JArr []) status; elements l);
  second ← (l ← get_or "containerStatuses" (JArr []) status; elements l);
  l ← outcome_map terminated_message (first ++ second);
  Ok (concat l).
(** Children of the Job *)
Definition controlled_by (uid : json) (pod : json) : outcome bool :=
  references ← meta_get "ownerReferences" (JArr []) pod;
  references ← elements references;
  any_of (λ o, k ← get "kind" o;
               if negb (is_str "Job" k) then Ok false else
               u ← get "uid" o;
               if negb (py_eqb u uid) then Ok false else
               c ← get "controller" o; Ok (match c with JBool true => true | _ => false end)) references.

Section Publisher.
Context {C S : Type} `{Kubectl C} `{Printer} `{JsonText} `{PythonRepr}.
Abbreviation IO := (IO (world C S)).
Variable fuel : nat.
Variable execution : bool.
Variable cancelled : nat → option exn.
(** [uuid.uuid4().hex] after so many calls, for the Job and for its input *)
Variables fresh fresh_input : nat → string.

(** [ApplicationFiles.prepare] *)
Definition prepare_origin (o : origin) (timeout : string) : IO prepared :=
  _ ← now;
  _ ← pure (timeout_seconds timeout);
  rollout_status (Ref "Deployment" (o_name o) (o_namespace o)) timeout ;;
  claim ← get_object "pvc" (o_claim o) (o_namespace o);
  uid ← pure (meta_index "uid" claim);
  deployment ← get_object "deployment" (o_name o) (o_namespace o);
  spec ← pure (index "spec" deployment);
  secrets ← pure (t ← index "template" spec; s ← index "spec" t; l ← get_or "imagePullSecrets" (JArr []) s;
                  l ← elements l; outcome_map (index "name") l);
  selector ← pure (s ← index "selector" spec; l ← index "matchLabels" s; l ← items_of l;
                   Ok (join "," ((λ e, e.1 +:+ "=" +:+ str_of e.2) <$> l)));
  pods ← list_labelled ["pods"] (o_namespace o) selector;
  marks ← pure (outcome_map (λ pod, b ← ready_publisher pod; Ok (if (b : bool) then Some pod else None)) pods);
  match omap id (marks : list _) with
  | [pod] => node ← pure (s ← index "spec" pod; index "nodeName" s); mret (Prepared o uid secrets node)
  | _ => throw (DeploymentError "application file server has no single ready publisher node")
  end.

Variable p : prepared.
Abbreviation ns := (o_namespace (pr_origin p)).

(** [_delete_owned] *)
Definition delete_owned (resource : string) (metadata : json) (timeout : string) : IO unit :=
  nm ← pure (v ← index "name" metadata; as_text v);
  uid ← pure (index "uid" metadata);
  current ← get_if_exists resource nm ns;
  match current with
  | None => mret tt
  | Some current =>
      u ← pure (meta_index "uid" current);
      if negb (py_eqb u uid) then mret tt else
      let prefix := if eqb resource "jobs" then "/apis/batch/v1" else "/api/v1" in
      deleted ← try_except
        (_ ← run (DeleteRaw (prefix +:+ "/namespaces/" +:+ ns +:+ "/" +:+ resource +:+ "/" +:+ nm)
                    (delete_options uid None "Foreground")); mret true)
        (λ e, match deployment_error e with
              | Some _ => Some (remaining ← get_if_exists resource nm ns;
                  match remaining with
                  | None => mret false
                  | Some remaining =>
                      u ← pure (meta_index "uid" remaining);
                      if py_eqb u uid then throw e else mret false
                  end)
              | None => None
              end);
      skip_unless deleted (wait_deleted fuel resource metadata timeout)
  end.

(** [_wait] *)
Definition job_failure (nm : string) (job failed : json) : IO unit :=
  first ← pure (default ← get_or "reason" (JStr "Job failed") failed; get_or "message" default failed);
  u ← pure (text_index "uid" job);
  pods ← try_except
    (l ← list_labelled ["pods"] ns ("batch.kubernetes.io/controller-uid=" +:+ u); mret (inl l))
    (λ e, match deployment_error e with Some m => Some (mret (inr ("Pod diagnostics unavailable: " +:+ m))) | None => None end);
  more ← match pods with
         | inl pods => l ← pure (outcome_map pod_messages pods); mret (concat l)
         | inr message => mret [message]
         end;
  first ← pure (as_text first);
  throw (DeploymentError ("application publication " +:+ ns +:+ "/" +:+ nm +:+ " failed: "
                          +:+ join (String (ascii_of_nat 10) "") (first :: more))).
Definition wait_job (job : json) (deadline : Q) : IO unit :=
  nm ← pure (v ← index "name" job; as_text v);
  forever fuel (λ _ : unit,
    t ← now;
    if Qle_bool deadline t
    then throw (DeploymentError ("application publication " +:+ ns +:+ "/" +:+ nm +:+ " exceeded its publication deadline")) else
    current ← get_if_exists "job" nm ns;
    let lost := throw (DeploymentError ("application publication " +:+ ns +:+ "/" +:+ nm +:+ " lost Job ownership")) in
    match current with
    | None => lost
    | Some current =>
        u ← pure (meta_index "uid" current);
        uid ← pure (index "uid" job);
        if negb (py_eqb u uid) then lost else
        status ← pure (get_or "status" (JObj []) current);
        conditions ← pure (l ← get_or "conditions" (JArr []) status; elements l);
        complete ← pure (any_of (condition_true "Complete") conditions);
        if (complete : bool) then mret (inr tt) else
        failed ← pure (find_first (condition_true "Failed") conditions);
        match failed with
        | Some failed => job_failure nm job failed ;; mret (inl tt)
        | None => _ ← now; mret (inl tt)
        end
    end) tt.

(** [CommandExecution.check] *)
Definition check_cancelled : IO unit :=
  if negb execution then mret tt else
  e ← ask (λ w, cancelled (length (trace w)));
  match e with Some e => throw e | None => mret tt end.

(** [stop]: the Job to remove, from the receipt or found again *)
Definition stop_publisher (nm binding timeout : string) (metadata : option json) (uncertain : bool) : IO unit :=
  match metadata with
  | Some receipt => delete_owned "jobs" receipt timeout
  | None =>
      if negb uncertain then mret tt else
      current ← get_if_exists "job" nm ns;
      match current with
      | None => mret tt
      | Some current =>
          own ← pure (own_job binding (pr_claim_uid p) current);
          if negb own then mret tt else
          receipt ← pure (index "metadata" current);
          delete_owned "jobs" receipt timeout
      end
  end.

(** Create the Job: the metadata of the answer, or the failure and whether the Job may exist *)
Definition create_job (job : json) (nm timeout : string) (wait_for_slot : bool) (deadline : Q)
    : IO (json + exn * bool) :=
  forever fuel (λ _ : unit,
    cancelled ← attempt check_cancelled;
    match cancelled with
    | inr e => mret (inr (inr (e, false)))
    | inl _ =>
        t ← now;
        if Qle_bool deadline t
        then mret (inr (inr (DeploymentError ("application publication " +:+ ns +:+ "/" +:+ nm +:+ " exceeded its creation deadline"), false))) else
        created ← attempt (j ← run_json (CreateObject job); pure (index "metadata" j));
        match created with
        | inl metadata => mret (inr (inl metadata))
        | inr e =>
            if negb (already_exists e) then mret (inr (inr (e, true))) else
            if negb wait_for_slot then mret (inr (inr (e, false))) else
            t ← now;
            if Qle_bool deadline t
            then mret (inr (inr (DeploymentError ("application release operation " +:+ ns +:+ "/" +:+ nm +:+ " is occupied after " +:+ timeout), false)))
            else _ ← now; mret (inl tt)
        end
    end) tt.

(** What the exception and [finally] clauses do: the first failure cancels the operation,
    which stops the Job once already. *)
Definition with_stop {A} (m : IO A) (seconds : Z) (stop : IO unit) : IO A :=
  with_cleanup
    (try_except m (λ e, Some (if execution
                              then c ← ask (λ w, cancelled (length (trace w)));
                                   match c with
                                   | Some _ => throw e
                                   | None => cleanup_commands (Some e) stop ;; throw e
                                   end
                              else throw e)))
    (Ok seconds) stop.

(** [_publisher]: [inputs] is called once the Job exists, [script] is the text of [publish.py]. *)
Definition publish_as {A} (nm input_name : string) (arguments : list string) (binding timeout : string) (b : option compiler)
    (wait_for_slot : bool) (credentials_secret script : string) (inputs : IO (list (string * json))) (use : json → Q → IO A) : IO A :=
  seconds ← pure (timeout_seconds timeout);
  user ← match b with
         | None => mret None
         | Some b => pod ← get_object "pod" (c_name b) (c_namespace b);
                     u ← pure (compiler_user pod); mret (Some (b, u))
         end;
  let job := publisher_job p arguments binding nm input_name seconds user credentials_secret in
  t ← now;
  let deadline := (t + inject_Z seconds)%Q in
  created ← create_job job nm timeout wait_for_slot deadline;
  match created with
  | inr (e, uncertain) => with_stop (throw e) seconds (stop_publisher nm binding timeout None uncertain)
  | inl metadata =>
      with_stop
        (check_cancelled ;;
         data ← inputs;
         jn ← pure (index "name" metadata);
         ju ← pure (index "uid" metadata);
         _ ← run (CreateObject (selection_document (pr_origin p) binding input_name jn ju (dset "publish.py" (JStr script) data)));
         check_cancelled ;;
         use metadata deadline) seconds (stop_publisher nm binding timeout (Some metadata) false)
  end.
Definition publisher_name (slot : string) (n : nat) : string :=
  if nonempty slot then slot else "foretoken-publish-" +:+ fresh n.
Definition publisher {A} (arguments : list string) (binding timeout : string) (b : option compiler) (slot credentials_secret script : string)
    (inputs : IO (list (string * json))) (use : json → Q → IO A) : IO A :=
  n ← ask (λ w, length (trace w));
  publish_as (publisher_name slot n) ("foretoken-publish-input-" +:+ fresh_input n) arguments binding timeout b
    (nonempty slot) credentials_secret script inputs use.

(** [import_release]: what runs once the Job exists *)
Definition select_release {A} (timeout : string) (use : Q → IO A) (job : json) (deadline : Q) : IO A :=
  wait_job job deadline ;;
  uid ← pure (index "uid" job);
  u ← pure (text_index "uid" job);
  pods ← list_labelled ["pods"] ns ("batch.kubernetes.io/controller-uid=" +:+ u);
  each pods (λ pod,
    own ← pure (controlled_by uid pod);
    skip_unless own (metadata ← pure (index "metadata" pod); delete_owned "pods" metadata timeout)) ;;
  nm ← pure (v ← index "name" job; as_text v);
  current ← get_if_exists "job" nm ns;
  let expired := throw (DeploymentError "application release operation expired before Helm selection") in
  match current with
  | None => expired
  | Some current =>
      u ← pure (meta_index "uid" current);
      if negb (py_eqb u uid) then expired else use deadline
  end.
Definition import_release {A} (source revision binding timeout credentials_secret script : string)
    (inputs : IO (list (string * json))) (use : Q → IO A) : IO A :=
  claim_uid ← pure (as_text (pr_claim_uid p));
  publisher ["--release"; source; o_mount (pr_origin p); revision; binding; "/selection/input.json"] binding timeout None
    ("foretoken-release-" +:+ claim_uid) credentials_secret script inputs (select_release timeout use).

(** [remove_application_jobs] *)
Definition remove_application_jobs (binding : string) : IO unit :=
  _ ← run (DeleteSelected ["jobs"]
             ("foretoken.io/application-files=publisher," +:+ APPLICATION_PUBLISHER_BINDING_LABEL +:+ "=" +:+ binding));
  mret tt.
End Publisher.
