(* ===== verification/PublisherProofs.v ===== *)
(** * What a publisher may delete, and when a release may be selected

    The Job of a publication is deleted only by the UID of its creation, or, when the
    answer was lost, when it carries the label and the owner that only this publisher
    gives; and the selection of a release runs only after its Job was seen complete. *)

From Stdlib Require Import Ascii.
From S2P Require Import Prelude Text Kube Manifest Effects Client Instances Fencing Emits ImageStore ImageStoreProofs Consumers ConsumerProofs SourceCleanup Publisher Settles.

Section Publisher.
Context {C S : Type} `{Kubectl C} `{Printer} `{JsonText} `{PythonRepr}.
Abbreviation IO := (IO (world C S)).
Variables (fuel : nat) (p : prepared).
Abbreviation ns := (o_namespace (pr_origin p)).

(** ** Deletions *)

(** The metadata of a Job this publisher has created: an answer to a creation, or a
    Job with its label and owner *)
Definition receipt_of (binding nm : string) (r : calls) (receipt : json) : Prop :=
  (∃ document j, (CreateObject document, Output (Some j)) ∈ r ∧ meta_index "name" document = Ok (JStr nm) ∧
     index "metadata" j = Ok receipt) ∨
  (∃ current, (GetObject "job" nm ns true, Output (Some current)) ∈ r ∧
     own_job binding (pr_claim_uid p) current = Ok true ∧ index "metadata" current = Ok receipt).
Definition deletes_job (binding nm : string) (r : calls) (e : call * reply) : Prop :=
  ∀ path o, e.1 = DeleteRaw path o →
    ∃ receipt uid, receipt_of binding nm r receipt ∧ index "uid" receipt = Ok uid ∧ o = delete_options uid None "Foreground".
Lemma growing_receipt binding nm receipt : growing (λ r, receipt_of binding nm r receipt).
Proof. unfold receipt_of. auto 10 with growing. Qed.
Lemma grows_deletes_job binding nm : grows (deletes_job binding nm).
Proof. intros e. unfold deletes_job. auto 10 using growing_receipt with growing. Qed.

(** No deletion *)
Definition spares (e : call * reply) : Prop := ∀ path o, e.1 ≠ DeleteRaw path o.
Lemma spares_deletes_job binding nm r e : spares e → deletes_job binding nm r e.
Proof. intros He path o Ho. by destruct (He path o). Qed.
Lemma reading_spares e : reading e → spares e.
Proof. intros He path o Ho. unfold reading in He. rewrite Ho in He. discriminate. Qed.

Lemma only_delete_owned resource metadata timeout :
  only (λ e, ∀ path o, e.1 = DeleteRaw path o → ∃ uid, index "uid" metadata = Ok uid ∧ o = delete_options uid None "Foreground")
    (delete_owned fuel p resource metadata timeout : IO unit).
Proof.
  set (P := λ e : call * reply, _). assert (∀ e, reading e → P e) as Hread.
  { intros e He path o Ho. unfold reading in He. rewrite Ho in He. discriminate. }
  assert (∀ A (m : IO A), only reading m → only P m) as Hr by (intros A m; by apply only_weaken).
  unfold delete_owned. apply only_bind; [apply only_pure|]. intros nm. apply only_pure_bind. intros uid Hu.
  apply only_bind; [by apply Hr, only_get_if_exists|]. intros [current|]; [|apply only_ret].
  apply only_bind; [apply only_pure|]. intros u. destruct (py_eqb u uid); cbn [negb]; [|apply only_ret]. cbv zeta.
  apply only_bind.
  - apply only_try.
    + apply only_bind; [|intros ?; apply only_ret]. apply only_run. intros r path o [= <- <-]. by exists uid.
    + intros e k. destruct (deployment_error e); [|done]. intros [= <-]. apply Hr.
      apply only_bind; [by apply only_get_if_exists|]. only_auto.
  - intros deleted. apply only_skip, Hr. apply reading_wait.
Qed.

(** The object of the receipt is gone: a reading under its name found none, or another UID. *)
Definition removed (resource : string) (n : calls) (metadata : json) : Prop :=
  ∃ nm ns' v uid, index "name" metadata = Ok (JStr nm) ∧ (ns' = ns ∨ get_or "namespace" (JStr "") metadata = Ok (JStr ns')) ∧
    index "uid" metadata = Ok uid ∧ (GetObject resource nm ns' true, Output v) ∈ n ∧
    from_option (λ c, ∃ u, meta_index "uid" c = Ok u ∧ py_eqb u uid = false) True v.
Lemma growing_removed resource metadata : growing (λ n, removed resource n metadata).
Proof. unfold removed. auto 20 with growing. Qed.

Lemma emits_delete_owned resource metadata timeout :
  emits (delete_owned fuel p resource metadata timeout : IO unit) (λ _ n, removed resource n metadata) (λ _, True).
Proof.
  unfold delete_owned. apply emits_pure_bind; [|done]. intros nm Hnm%text_at_Ok. apply emits_pure_bind; [|done]. intros uid Hu.
  assert (∀ v n, (GetObject resource nm ns true, Output v) ∈ n →
    from_option (λ c, ∃ u, meta_index "uid" c = Ok u ∧ py_eqb u uid = false) True v → removed resource n metadata) as Hgone.
  { intros v n Hin Hv. exists nm, ns, v, uid. split_and!; auto. }
  eapply emits_seq; [apply emits_get_if_exists|]. intros [current|].
  2:{ apply emits_ret. intros n [-> _]. apply (Hgone None); [set_solver|done]. }
  apply emits_pure_bind; [|done]. intros u Hcu. destruct (py_eqb u uid) eqn:Eu; cbn [negb].
  2:{ apply emits_ret. intros n [-> _]. apply (Hgone (Some current)); [set_solver|]. by exists u. }
  cbv zeta. apply (emits_seq _ _ (λ deleted n, deleted = false → removed resource n metadata)).
  - apply emits_recover.
    + apply (emits_seq _ _ (λ _ _, True)); [by apply emits_run|]. intros ?. by apply emits_ret.
    + intros e k. destruct (deployment_error e); [|done]. intros [= <-]. eapply emits_seq; [apply emits_get_if_exists|].
      intros [remaining|].
      2:{ apply emits_ret. intros n [-> _] n0 _. apply (Hgone None); [set_solver|done]. }
      apply emits_pure_bind; [|done]. intros u' Hru. destruct (py_eqb u' uid) eqn:Eu'; [by apply emits_throw|].
      apply emits_ret. intros n [-> _] n0 _. apply (Hgone (Some remaining)); [set_solver|]. by exists u'.
  - intros [|]; simpl.
    + eapply emits_weaken; [apply (emits_wait _ _ (JObj [("metadata", metadata)]) metadata); reflexivity| |done].
      intros v n (nm' & ns' & w & Hin & [Hn Hns] & Hw) n0 _ n1 _. exists nm', ns', w, uid.
      split_and!; [exact Hn|right; exact Hns|done|set_solver|].
      destruct w as [c|]; [|done]. simpl in *. destruct Hw as (a & b & Ha & Hb & Hab). exists a. split; [done|].
      unfold meta_index in Hb. simpl in Hb. rewrite Hu in Hb. injection Hb as <-. done.
    + apply emits_ret. intros n Hn n0 _. eapply growing_removed; [|by apply Hn]. set_solver.
Qed.

Lemma obeys_delete_owned binding nm n metadata timeout :
  receipt_of binding nm n metadata →
  obeys (λ r, deletes_job binding nm (r ++ n)) (delete_owned fuel p "jobs" metadata timeout : IO unit).
Proof.
  intros Hr. eapply obeys_only; [|apply only_delete_owned]. intros r e He path o Ho. destruct (He path o Ho) as (uid & Hu & ->).
  exists metadata, uid. split_and!; [|done..]. eapply growing_receipt; [|exact Hr]. set_solver.
Qed.

Lemma obeys_stop binding nm n timeout metadata uncertain :
  from_option (receipt_of binding nm n) True metadata →
  obeys (λ r, deletes_job binding nm (r ++ n)) (stop_publisher fuel p nm binding timeout metadata uncertain : IO unit).
Proof.
  intros Hm. unfold stop_publisher. destruct metadata as [receipt|]; [by apply obeys_delete_owned|].
  destruct uncertain; cbn [negb]; [|apply obeys_ret].
  eapply obeys_seq; [eapply obeys_only; [|by apply (only_get_if_exists reading)]|apply emits_get_if_exists|].
  { intros r e He. by apply spares_deletes_job, reading_spares. }
  intros [current|] n1 [-> _]; [|apply obeys_ret]. apply obeys_pure_bind. intros own Hown. destruct own; cbn [negb]; [|apply obeys_ret].
  apply obeys_pure_bind. intros receipt Hrec.
  eapply obeys_weaken; [|apply (obeys_delete_owned binding nm ([(GetObject "job" nm ns true, Output (Some current))] ++ n))].
  - intros r e Hr. rewrite <-app_assoc. exact Hr.
  - right. exists current. split_and!; [set_solver|done..].
Qed.

Lemma obeys_with_stop {A} P execution cancelled (m : IO A) seconds stop :
  grows P → obeys P m → obeys P stop → obeys P (with_stop execution cancelled m seconds stop).
Proof.
  intros HP Hm Hs. unfold with_stop. apply obeys_cleanup; [done| |done]. apply obeys_try; [done..|].
  intros e k [= <-]. destruct execution; [|apply obeys_throw].
  apply obeys_bind; [done|by eapply (obeys_only (λ _, False)); [|apply only_ask]|]. intros [|]; [apply obeys_throw|].
  apply obeys_bind; [done| |intros _; apply obeys_throw]. apply obeys_try; [done..|]. intros e' k'.
  destruct (absorbed e'); [|done]. intros [= <-]. apply obeys_ret.
Qed.

(** The Job of the answer *)
Lemma emits_create_job execution cancelled job nm timeout wait deadline :
  emits (create_job fuel execution cancelled p job nm timeout wait deadline : IO _)
    (λ r n, match r with
            | inl metadata => ∃ j, (CreateObject job, Output (Some j)) ∈ n ∧ index "metadata" j = Ok metadata
            | inr _ => True
            end) (λ _, True).
Proof.
  unfold create_job. apply (emits_forever (λ _ _, True)); [|done]. intros _.
  apply (emits_seq _ _ (λ _ _, True)).
  { intros w. exists []. unfold attempt, check_cancelled. destruct execution; simpl; [|done].
    unfold mbind, IO_bind, ask. by destruct (cancelled _). }
  intros [|e]; [|by apply emits_ret]. apply (emits_seq _ _ (λ _ _, True)); [by apply emits_now|]. intros t.
  destruct (Qle_bool deadline t); [by apply emits_ret|].
  eapply emits_seq.
  - apply (emits_attempt _ (λ metadata n, ∃ j, (CreateObject job, Output (Some j)) ∈ n ∧ index "metadata" j = Ok metadata)).
    eapply emits_seq; [apply emits_run_json|]. intros j. apply emits_pure; [|done]. intros metadata Hm n ->. exists j. split; [left|done].
  - intros [metadata|e].
    { apply emits_ret. intros n (j & Hj & Hm) n0 _ n1 _ n2 _. exists j. split; [set_solver|done]. }
    destruct (already_exists e); cbn [negb]; [|by apply emits_ret]. destruct wait; cbn [negb]; [|by apply emits_ret].
    apply (emits_seq _ _ (λ _ _, True)); [by apply emits_now|]. intros t'. destruct (Qle_bool deadline t'); [by apply emits_ret|].
    apply (emits_seq _ _ (λ _ _, True)); [by apply emits_now|]. intros _. by apply emits_ret.
Qed.

Lemma spares_check execution cancelled : only spares (check_cancelled execution cancelled : IO unit).
Proof. unfold check_cancelled. only_auto. Qed.
Lemma spares_create_job execution cancelled job nm timeout wait deadline :
  only spares (create_job fuel execution cancelled p job nm timeout wait deadline : IO _).
Proof.
  unfold create_job. only_auto; apply only_attempt; [apply spares_check|]. apply only_bind; [by apply only_run_json|]. only_auto.
Qed.
Lemma job_document_name arguments binding nm input_name seconds b secret :
  meta_index "name" (publisher_job p arguments binding nm input_name seconds b secret) = Ok (JStr nm).
Proof. by destruct b as [[]|]. Qed.

Lemma obeys_publish {A} execution cancelled nm input_name arguments binding timeout b slot secret script inputs (use : json → Q → IO A) :
  only spares inputs → (∀ metadata deadline, only spares (use metadata deadline)) →
  obeys (deletes_job binding nm)
    (publish_as fuel execution cancelled p nm input_name arguments binding timeout b slot secret script inputs use : IO A).
Proof.
  intros Hin Huse. pose proof (grows_deletes_job binding nm) as HP.
  assert (∀ B (m : IO B), only spares m → obeys (deletes_job binding nm) m) as Hs
    by (intros B m; apply obeys_only; intros r e; apply spares_deletes_job).
  unfold publish_as. apply obeys_pure_bind. intros seconds _. apply obeys_bind; [done| |intros user].
  { apply Hs. destruct b as [b|]; [|apply only_ret]. apply only_bind.
    - unfold get_object. apply only_bind; [by apply only_run|]. only_auto.
    - only_auto. }
  cbv zeta. apply obeys_bind; [done|apply Hs, only_now|]. intros t.
  set (job := publisher_job _ _ _ _ _ _ _ _).
  eapply obeys_seq; [apply Hs, spares_create_job|apply emits_create_job|]. intros [metadata|[e uncertain]] n Hn.
  - destruct Hn as (j & Hj & Hm). apply obeys_with_stop; [by apply grows_shift| |].
    + apply (obeys_only spares); [intros r e; apply spares_deletes_job|]. only_auto; try apply spares_check; try done. by apply only_run.
    + apply obeys_stop. left. exists job, j. split_and!; [done|apply job_document_name|done].
  - apply obeys_with_stop; [by apply grows_shift|apply obeys_throw|]. by apply obeys_stop.
Qed.
End Publisher.

(** C25: A publisher deletes only its own Job.  Whatever the cluster answers, and wherever
    the publication fails, is cancelled or ends, every deletion it requests names the
    UID of the Job that its creation under this name was answered with, or of a Job
    under this name that carries the binding label of this publisher and is owned by
    the claim of the file origin: never a Job another publisher holds. *)
Theorem publisher_deletes_own {C S : Type} `{Kubectl C} `{Printer} `{JsonText} `{PythonRepr} fuel execution cancelled fresh fresh_input p
    arguments binding timeout b slot secret script inputs {A} (use : json → Q → IO (world C S) A) (w : world C S) :
  only spares inputs → (∀ metadata deadline, only spares (use metadata deadline)) →
  ∃ n, trace (publisher fuel execution cancelled fresh fresh_input p arguments binding timeout b slot secret script inputs use w).2
         = n ++ trace w ∧
    ∀ l e r path o, n = l ++ e :: r → e.1 = DeleteRaw path o →
      ∃ receipt uid, receipt_of p binding (publisher_name fresh slot (length (trace w))) r receipt ∧
        index "uid" receipt = Ok uid ∧ o = delete_options uid None "Foreground".
Proof.
  intros Hin Huse. destruct (obeys_publish fuel p execution cancelled (publisher_name fresh slot (length (trace w)))
    ("foretoken-publish-input-" +:+ fresh_input (length (trace w))) arguments binding timeout b (nonempty slot) secret script inputs use Hin Huse w)
    as (n & Hn & Hq). exists n. split; [exact Hn|]. intros l e r path o Hsp.
  assert (ordered (deletes_job p binding (publisher_name fresh slot (length (trace w)))) n) as Hord by (by case_match).
  exact (proj1 (ordered_at _ _) Hord l e r Hsp path o).
Qed.

(** ** Releases *)

Section Release.
Context {C S : Type} `{Kubectl C} `{Printer} `{JsonText} `{PythonRepr}.
Abbreviation IO := (IO (world C S)).
Variables (fuel : nat) (p : prepared).
Abbreviation ns := (o_namespace (pr_origin p)).

(** The Job was read with its own UID, and its condition says that it is complete. *)
Definition complete (current : json) : Prop :=
  ∃ status l conditions c, get_or "status" (JObj []) current = Ok status ∧ get_or "conditions" (JArr []) status = Ok l ∧
    elements l = Ok conditions ∧ c ∈ conditions ∧ condition_true "Complete" c = Ok true.
Definition seen_job (F : json → Prop) (n : calls) (metadata : json) : Prop :=
  ∃ nm current u uid, index "name" metadata = Ok (JStr nm) ∧ index "uid" metadata = Ok uid ∧
    (GetObject "job" nm ns true, Output (Some current)) ∈ n ∧ meta_index "uid" current = Ok u ∧ py_eqb u uid = true ∧ F current.
Lemma growing_seen_job F metadata : growing (λ n, seen_job F n metadata).
Proof. unfold seen_job. auto 20 with growing. Qed.

Lemma throw_job_failure nm job failed w v w' : job_failure p nm job failed w ≠ (Returned v, w' : world C S).
Proof.
  unfold job_failure. intros (first & Hf & (u & Hu & (pods & w1 & Hp & (more & w2 & Hm & Hrest)%bind_Returned)%bind_Returned)%pure_bind_Returned)%pure_bind_Returned.
  by apply pure_bind_Returned in Hrest as (? & _ & [=]).
Qed.

Lemma emits_wait_job job deadline :
  emits (wait_job fuel p job deadline : IO unit) (λ _ n, seen_job complete n job) (λ _, True).
Proof.
  unfold wait_job. apply emits_pure_bind; [|done]. intros nm Hnm%text_at_Ok.
  apply (emits_forever (λ _ _, True)); [|done]. intros _. apply (emits_seq _ _ (λ _ _, True)); [by apply emits_now|]. intros t.
  destruct (Qle_bool deadline t); [by apply emits_throw|]. eapply emits_seq; [apply emits_get_if_exists|].
  intros [current|]; cbv zeta; [|by apply emits_throw].
  apply emits_pure_bind; [|done]. intros u Hu. apply emits_pure_bind; [|done]. intros uid Huid.
  destruct (py_eqb u uid) eqn:Eu; cbn [negb]; [|by apply emits_throw].
  apply emits_pure_bind; [|done]. intros status Hst. apply emits_pure_bind; [|done]. intros conditions Hc.
  apply emits_pure_bind; [|done]. intros done_ Hdone. destruct done_.
  - apply emits_ret. intros n [-> _] n0 _ n1 _. steps Hc. apply any_of_true in Hdone as (c & Hin & Hct).
    exists nm, current, u, uid. split_and!; [done|done|set_solver|done|done|]. by exists status, x, conditions, c.
  - apply emits_pure_bind; [|done]. intros [failed|] _.
    + apply (emits_seq _ _ (λ _ _, False)); [|intros ?; by apply emits_ret]. intros w.
      assert (only (λ _, True) (job_failure p nm job failed : IO unit)) as Hany.
      { unfold job_failure, list_labelled, decode_resource_list. only_auto. apply only_try; [only_auto; by apply only_run|].
        intros e k. destruct (deployment_error e); [|done]. intros [= <-]. apply only_ret. }
      destruct (Hany w) as (n & Hn & _). exists n. split; [done|].
      destruct (job_failure p nm job failed w) as [[v|e|] w'] eqn:E; [by destruct (throw_job_failure _ _ _ _ _ _ E)|done..].
    + apply (emits_seq _ _ (λ _ _, True)); [by apply emits_now|]. intros _. by apply emits_ret.
Qed.

Lemma with_stop_Returned {A} execution cancelled (m : IO A) seconds stop a w w' :
  with_stop execution cancelled m seconds stop w = (Returned a, w') → ∃ w1, m w = (Returned a, w1) ∧ stop w1 = (Returned tt, w').
Proof.
  unfold with_stop. intros (w1 & Hm & Hs)%cleanup_Returned. exists w1. split; [|done]. unfold try_except in Hm.
  destruct (m w) as [[a'|e|] w2]; [done| |done]. destruct execution; [|done].
  apply bind_Returned in Hm as (c & w3 & _ & Hm). destruct c; [done|]. by apply bind_Returned in Hm as (? & ? & _ & [=]).
Qed.

Lemma check_silent execution cancelled v w w' : check_cancelled execution cancelled w = (Returned v, w' : world C S) → w = w'.
Proof.
  unfold check_cancelled. destruct execution; cbn [negb]; [|by intros [= <- <-]].
  intros (e & w1 & [= <- <-] & He)%bind_Returned. destruct (cancelled _); [done|]. by injection He.
Qed.

(** Nothing happens between the last reading of the Job, under its own UID, and the
    selection; and the Job was complete before. *)
Definition imported (before : calls) (job : json) : Prop :=
  ∃ nm current u uid earlier, before = (GetObject "job" nm ns true, Output (Some current)) :: earlier ∧
    index "name" job = Ok (JStr nm) ∧ index "uid" job = Ok uid ∧ meta_index "uid" current = Ok u ∧ py_eqb u uid = true ∧
    seen_job complete earlier job.

Lemma select_release_Returned {A} timeout (use : Q → IO A) job deadline a w w' :
  select_release fuel p timeout use job deadline w = (Returned a, w') →
  ∃ w1 before, trace w1 = before ++ trace w ∧ imported before job ∧ use deadline w1 = (Returned a, w').
Proof.
  unfold select_release. intros (? & w1 & Hwait & (uid & Hu & (u & Hut & Hrest)%pure_bind_Returned)%pure_bind_Returned)%bind_Returned.
  destruct (emits_returned _ _ _ _ _ (emits_wait_job job deadline) Hwait) as (n1 & Hn1 & Hseen).
  apply bind_Returned in Hrest as (pods & w2 & Hpods & (? & w3 & Heach & (nm & Hnm%text_at_Ok & Hrest)%pure_bind_Returned)%bind_Returned).
  destruct (emits_returned _ _ _ _ _ (emits_list _) Hpods) as (n2 & Hn2 & _).
  assert (∃ n3, trace w3 = n3 ++ trace w2) as [n3 Hn3].
  { assert (only (λ _, True) (each pods (λ pod, own ← pure (controlled_by uid pod);
      skip_unless own (metadata ← pure (index "metadata" pod); delete_owned fuel p "pods" metadata timeout)) : IO unit)) as Hany.
    { only_auto. eapply only_weaken; [|apply only_delete_owned]. done. }
    destruct (Hany w2) as (n3 & Hn3 & _). rewrite Heach in Hn3. by exists n3. }
  apply bind_Returned in Hrest as (current & w4 & Hget & Hrest).
  destruct (emits_returned _ _ _ _ _ (emits_get_if_exists "job" nm ns) Hget) as (n4 & Hn4 & -> & _).
  destruct current as [current|]; [|done]. apply pure_bind_Returned in Hrest as (u' & Hu' & Huse).
  destruct (py_eqb u' uid) eqn:Eu; [|done]. cbn [negb] in Huse.
  exists w4, ((GetObject "job" nm ns true, Output (Some current)) :: n3 ++ n2 ++ n1).
  split; [rewrite Hn4, Hn3, Hn2, Hn1; simpl; by rewrite <-!app_assoc|]. split; [|done].
  exists nm, current, u', uid, (n3 ++ n2 ++ n1). split_and!; try done. eapply growing_seen_job; [|exact Hseen]. set_solver.
Qed.

(** The Job and its input were created, the input after the Job and as its child. *)
Definition published (document : json) (binding input_name : string) (before : calls) (metadata : json) : Prop :=
  ∃ j nm uid data earlier later reply, before = later ++ (CreateObject (selection_document (pr_origin p) binding input_name nm uid data), reply) :: earlier ∧
    (CreateObject document, Output (Some j)) ∈ earlier ∧ index "metadata" j = Ok metadata ∧
    index "name" metadata = Ok nm ∧ index "uid" metadata = Ok uid.

Lemma publish_Returned {A} execution cancelled nm input_name arguments binding timeout slot secret script inputs (use : json → Q → IO A) a w w' :
  (∀ x, ∃ n, trace (inputs x).2 = n ++ trace x) →
  publish_as fuel execution cancelled p nm input_name arguments binding timeout None slot secret script inputs use w = (Returned a, w') →
  ∃ seconds metadata deadline w1 w2 before after,
    timeout_seconds timeout = Ok seconds ∧ trace w1 = before ++ trace w ∧
    published (publisher_job p arguments binding nm input_name seconds None secret) binding input_name before metadata ∧
    use metadata deadline w1 = (Returned a, w2) ∧ trace w' = after ++ trace w2 ∧ removed p "jobs" after metadata.
Proof.
  intros Hin. unfold publish_as. intros (seconds & Hsec & (user & w0 & [= <- <-] & Hrest)%bind_Returned)%pure_bind_Returned.
  cbv zeta in Hrest. apply bind_Returned in Hrest as (t & w1 & Ht & Hrest).
  destruct (emits_returned _ _ _ _ _ (emits_now (λ _ n, n = []) _ (λ _, eq_refl)) Ht) as (n1 & Hn1 & ->).
  set (job := publisher_job _ _ _ _ _ _ _ _) in *.
  apply bind_Returned in Hrest as (created & w2 & Hcr & Hrest).
  destruct (emits_returned _ _ _ _ _ (emits_create_job _ _ _ _ _ _ _ _ _) Hcr) as (n2 & Hn2 & Hj).
  destruct created as [metadata|[e uncertain]]; [|by apply with_stop_Returned in Hrest as (? & [=] & _)].
  destruct Hj as (j & Hj & Hm). apply with_stop_Returned in Hrest as (w8 & Hbody & Hstop).
  apply bind_Returned in Hbody as (? & w3 & Hc & (data & w4 & Hd & (jn & Hjn & (ju & Hju & Hbody)%pure_bind_Returned)%pure_bind_Returned)%bind_Returned).
  apply bind_Returned in Hbody as (v & w5 & Hrun & (? & w6 & Hc' & Huse)%bind_Returned).
  destruct (check_silent _ _ _ _ _ Hc), (check_silent _ _ _ _ _ Hc'). destruct (Hin w2) as [n3 Hn3]. rewrite Hd in Hn3.
  destruct (emits_returned _ _ _ _ _ (emits_answer _) Hrun) as (n4 & Hn4 & reply & -> & _).
  destruct (emits_returned _ _ _ _ _ (emits_delete_owned fuel p "jobs" metadata timeout) Hstop) as (n5 & Hn5 & Hgone).
  exists seconds, metadata, (t + inject_Z seconds)%Q, w5, w8,
    ([(CreateObject (selection_document (pr_origin p) binding input_name jn ju (dset "publish.py" (JStr script) data)), reply)] ++ n3 ++ n2), n5.
  split_and!; try done. { rewrite Hn4. cbn [fst snd] in Hn3. rewrite Hn3, Hn2, Hn1. by rewrite <-!app_assoc. }
  exists j, jn, ju, (dset "publish.py" (JStr script) data), (n3 ++ n2), [], reply. split_and!; try done. set_solver.
Qed.
End Release.

(** C20: A release is selected only while its import holds.  When [import_release] returns,
    the selection it was given ran and returned its value, and before it, in
    this order: the Job of the release was created under the name that is the lock of
    the volume, its input was created as a child of that Job, the Job was read under its own
    UID as complete, and it was read once more under that UID as the last call before the
    selection.  After the selection the Job of that UID is gone. *)
Theorem release_selected_after_import {C S : Type} `{Kubectl C} `{Printer} `{JsonText} `{PythonRepr} fuel execution cancelled fresh fresh_input p
    source revision binding timeout secret script inputs {A} (use : Q → IO (world C S) A) a (w w' : world C S) :
  (∀ x, ∃ n, trace (inputs x).2 = n ++ trace x) →
  import_release fuel execution cancelled fresh fresh_input p source revision binding timeout secret script inputs use w = (Returned a, w') →
  ∃ slot document input_name metadata deadline w1 w2 first second after,
    pr_claim_uid p = JStr slot ∧ meta_index "name" document = Ok (JStr ("foretoken-release-" +:+ slot)) ∧
    trace w1 = second ++ first ++ trace w ∧ published p document binding input_name first metadata ∧ imported p second metadata ∧
    use deadline w1 = (Returned a, w2) ∧ trace w' = after ++ trace w2 ∧ removed p "jobs" after metadata.
Proof.
  intros Hin. unfold import_release, publisher. intros (slot & Hslot & (count & w0 & [= <- <-] & Hpub)%bind_Returned)%pure_bind_Returned.
  destruct (publish_Returned _ _ _ _ _ _ _ _ _ _ _ _ _ _ _ _ _ Hin Hpub)
    as (seconds & metadata & deadline & w1 & w2 & first & after & _ & Hw1 & Hp & Huse & Hw' & Hgone).
  destruct (select_release_Returned _ _ _ _ _ _ _ _ _ Huse) as (w3 & second & Hw3 & Him & Hsel).
  eexists slot, _, _, metadata, deadline, w3, w2, first, second, after. split_and!; [|..|exact Hp|exact Him|exact Hsel|exact Hw'|exact Hgone].
  - by destruct (pr_claim_uid p); simplify_eq/=.
  - apply job_document_name.
  - by rewrite Hw3, Hw1.
Qed.

(** ** Witnesses for the publication of application files

    A release import against a scripted cluster: the Job is created and completes,
    its Pod is removed, the selection runs, and the Job is deleted.  And a publication
    whose creation lost its answer: the Job is found again and deleted. *)

#[local] Instance prints_nothing : Printer := λ _, "".
#[local] Instance reads_nothing : JsonText := λ _, None.
#[local] Instance plain_repr : PythonRepr := λ _, "".

Definition start (script : list reply) : world (list reply) unit := World script 0 [] tt.
Abbreviation run_of A := (IO (world (list reply) unit) A).

Definition files : prepared :=
  Prepared (Origin "foretoken" "files" "files" "http://files" "client:1" "/applications") (JStr "u-files") [] (JStr "n1").
Definition release_inputs : run_of (list (string * json)) := mret [("input.json", JStr "{}")].
Definition items (l : list json) : reply := answer (JObj [("kind", JStr "List"); ("items", JArr l)]).
Definition publisher_object (nm uid : string) (more : list (string * json)) : json :=
  JObj (("metadata", JObj [("name", JStr nm); ("namespace", JStr "foretoken"); ("uid", JStr uid);
           ("labels", publisher_labels "b1");
           ("ownerReferences", JArr [JObj [("kind", JStr "PersistentVolumeClaim"); ("uid", JStr "u-files")]])]) :: more).
Definition release_job : json := publisher_object "foretoken-release-u-files" "u-job" [].
Definition finished_job : json :=
  publisher_object "foretoken-release-u-files" "u-job"
    [("status", JObj [("conditions", JArr [JObj [("type", JStr "Complete"); ("status", JStr "True")]])])].

(** The lock is taken at first; then creation, input, completion, no Pods, the last reading, and the deletion. *)
Definition release_script : list reply :=
  [Failed "Error from server (AlreadyExists): jobs.batch exists"; answer release_job; done_; answer release_job; answer finished_job;
   items []; answer finished_job; answer finished_job; done_; done_].
Definition released : result string * world (list reply) unit :=
  import_release 9 false (λ _, None) (λ _, "x") (λ _, "y") files "/release" "r1" "b1" "1m" "" "script" release_inputs (λ _, mret "selected") (start release_script).
Example release_runs :
  released.1 = Returned "selected" ∧
  omap (λ e : call * reply, match e.1 with DeleteRaw path _ => Some path | _ => None end) (trace released.2)
  = ["/apis/batch/v1/namespaces/foretoken/jobs/foretoken-release-u-files"].
Proof. vm_compute. split; reflexivity. Qed.

Lemma release_selected_after_import_witness :
  released.1 = Returned "selected" ∧
  ∃ slot document input_name metadata deadline (w1 w2 : world (list reply) unit) first second after,
    pr_claim_uid files = JStr slot ∧ meta_index "name" document = Ok (JStr ("foretoken-release-" +:+ slot)) ∧
    trace w1 = second ++ first ++ [] ∧ published files document "b1" input_name first metadata ∧ imported files second metadata ∧
    (λ _ : Q, mret "selected" : run_of string) deadline w1 = (Returned "selected", w2) ∧
    trace released.2 = after ++ trace w2 ∧ removed files "jobs" after metadata.
Proof.
  split; [vm_compute; reflexivity|].
  apply (release_selected_after_import 9 false (λ _, None) (λ _, "x") (λ _, "y") files "/release" "r1" "b1" "1m" "" "script" release_inputs
           (λ _, mret "selected") "selected" (start release_script) released.2).
  - intros x. exists []. reflexivity.
  - vm_compute. reflexivity.
Defined.

(** The creation of a Job loses its answer; the Job is there, with the label and owner of this publisher. *)
Definition lost_script : list reply :=
  [Failed "the connection was lost"; answer (publisher_object "foretoken-publish-x" "u-lost" []);
   answer (publisher_object "foretoken-publish-x" "u-lost" []); done_; done_].
Definition lost : result unit * world (list reply) unit :=
  publisher 9 false (λ _, None) (λ _, "x") (λ _, "y") files ["--batch"] "b1" "1m" None "" "" "script" release_inputs (λ _ _, mret tt) (start lost_script).
Example lost_job_deleted :
  lost.1 = Raised (DeploymentError "kubectl failed: the connection was lost") ∧
  omap (λ e : call * reply, match e.1 with DeleteRaw path o => Some (path, o) | _ => None end) (trace lost.2)
  = [("/apis/batch/v1/namespaces/foretoken/jobs/foretoken-publish-x", delete_options (JStr "u-lost") None "Foreground")].
Proof. vm_compute. split; reflexivity. Qed.

Lemma publisher_deletes_own_witness :
  ∃ n, trace lost.2 = n ++ [] ∧
    ∀ l e r path o, n = l ++ e :: r → e.1 = DeleteRaw path o →
      ∃ receipt uid, receipt_of files "b1" "foretoken-publish-x" r receipt ∧ index "uid" receipt = Ok uid ∧
        o = delete_options uid None "Foreground".
Proof.
  apply (publisher_deletes_own 9 false (λ _, None) (λ _, "x") (λ _, "y") files ["--batch"] "b1" "1m" None "" "" "script" release_inputs
           (λ _ _, mret tt) (start lost_script)).
  - apply only_ret.
  - intros metadata deadline. apply only_ret.
Defined.
