(* ===== verification/Volume.v ===== *)
(** * The application volume

    Files of the volume that publications live on, as the publisher process uses
    them: names refer to inodes, so that a hard link shares contents and mode with its
    origin, and writing or changing the mode of a linked file shows under every name.
    The process can be killed between two system calls, so a run keeps the volume
    before every change: its moments.

    No path of the model goes through a symbolic link: exports with links are refused, and
    publications contain none. *)

From stdpp Require Import gmap.
From S2P Require Import Prelude Text Effects.

(** Paths are compared part by part. *)
Fixpoint list_cmp {A} `{PyOrd A} (x y : list A) : comparison :=
  match x, y with
  | [], [] => Eq
  | [], _ => Lt
  | _, [] => Gt
  | a :: x, b :: y => match pcmp a b with Eq => list_cmp x y | c => c end
  end.
#[export, refine] Instance list_ord {A} `{PyOrd A} : PyOrd (list A) := {| pcmp := list_cmp |}.
Proof.
  - induction x as [|a x IH]; intros [|b y]; simpl; try done. destruct (pcmp a b) eqn:E.
    + apply pcmp_eq in E as ->. rewrite IH. naive_solver.
    + split; [done|]. intros [= -> ->]. by rewrite pcmp_refl in E.
    + split; [done|]. intros [= -> ->]. by rewrite pcmp_refl in E.
  - induction x as [|a x IH]; intros [|b y]; simpl; try done. rewrite (pcmp_antisym a b). by destruct (pcmp b a); simpl.
  - induction x as [|a x IH]; intros [|b y] [|c z]; simpl; try done.
    destruct (pcmp a b) eqn:E1, (pcmp b c) eqn:E2; try done; intros H1 H2.
    + apply pcmp_eq in E1 as ->. rewrite E2. by eapply IH.
    + apply pcmp_eq in E1 as ->. by rewrite E2.
    + apply pcmp_eq in E2 as ->. by rewrite E1.
    + by rewrite (pcmp_trans _ _ _ E1 E2).
Defined.

(** Absolute paths by their parts *)
Abbreviation path := (list string).

Inductive node :=
  | Dir
  | File (i : nat)
  | Link
  | Special.
Record file := Contents { bytes : string; mode : Z }.
Record volume := Volume { nodes : gmap path node; inodes : gmap nat file }.

(** The volume now, and before every change so far *)
Record site := Site { now : volume; past : list volume }.
Abbreviation IO := (IO site).
Definition moments (s : site) : list volume := now s :: past s.
Definition alter (f : volume → volume) : IO unit := change (λ s, Site (f (now s)) (now s :: past s)).

(** ** Looking at it *)

Definition inside (q p : path) : bool := bool_decide (q `prefix_of` p).
Definition parent (p : path) : path := removelast p.
Definition name (p : path) : string := default "" (last p).
Definition is_file (v : volume) (p : path) : bool := match nodes v !! p with Some (File _) => true | _ => false end.
Definition is_dir (v : volume) (p : path) : bool := match nodes v !! p with Some Dir => true | _ => false end.
Definition file_at (v : volume) (p : path) : option file :=
  match nodes v !! p with Some (File i) => inodes v !! i | _ => None end.
Definition parent_is_dir (v : volume) (p : path) : bool := bool_decide (parent p = []) || is_dir v (parent p).
Definition next_inode (v : volume) : nat := map_fold (λ i _ m, Nat.max (Datatypes.S i) m) O (inodes v).
Definition paths (v : volume) : list path := (map_to_list (nodes v)).*1.

(** ** Changing it *)

Definition set_node (p : path) (n : node) (v : volume) : volume := Volume (<[p := n]> (nodes v)) (inodes v).
Definition del_node (p : path) (v : volume) : volume := Volume (base.delete p (nodes v)) (inodes v).
Definition set_inode (i : nat) (f : file) (v : volume) : volume := Volume (nodes v) (<[i := f]> (inodes v)).
Definition moved (src dst : path) (m : gmap path node) : gmap path node :=
  list_to_map ((λ e, (dst ++ drop (length src) e.1, e.2)) <$> keep (λ e, inside src e.1) (map_to_list m)).
Definition move (src dst : path) (v : volume) : volume :=
  Volume (moved src dst (nodes v) ∪ filter (λ e, inside src e.1 = false ∧ inside dst e.1 = false) (nodes v)) (inodes v).

Definition ENOENT : exn := OSError "No such file or directory".
Definition EEXIST : exn := OSError "File exists".
Definition ENOTDIR : exn := OSError "Not a directory".
Definition EISDIR : exn := OSError "Is a directory".
Definition ENOTEMPTY : exn := OSError "Directory not empty".
Definition EACCES : exn := OSError "Permission denied".

(** What the operating system chooses: the order in which a directory lists its entries, the
    names of temporary directories, and the bytes of a compressed archive *)
Class System := {
  scan : list path → list path;
  scan_perm : ∀ l, scan l ≡ₚ l;
  unique : nat → string;
  tar_gz : list (string * file) → string;
}.

Section Calls.
Context `{System}.

(** [path.mkdir()] and [path.mkdir(parents=True, exist_ok=True)] *)
Definition mkdir (p : path) : IO unit :=
  v ← ask now;
  match nodes v !! p with
  | Some _ => throw EEXIST
  | None => if parent_is_dir v p then alter (set_node p Dir) else throw ENOENT
  end.
Definition ensure_dir (p : path) : IO unit :=
  v ← ask now;
  match nodes v !! p with
  | Some Dir => mret tt
  | Some _ => throw ENOTDIR
  | None => alter (set_node p Dir)
  end.
Definition mkdir_parents (p : path) : IO unit := each ((λ n, take n p) <$> seq 1 (length p)) ensure_dir.

(** [open(p, "w")]: a new inode, or the truncated one when its owner may write *)
Definition open_file (p : path) : IO nat :=
  v ← ask now;
  match nodes v !! p with
  | Some (File i) =>
      match inodes v !! i with
      | Some f => if Z.eqb (Z.land (mode f) 128) 0 then throw EACCES
                  else alter (set_inode i (Contents "" (mode f))) ;; mret i
      | None => throw ENOENT
      end
  | Some _ => throw EISDIR
  | None =>
      if negb (parent_is_dir v p) then throw ENOENT else
      let i := next_inode v in
      alter (λ v, set_node p (File i) (set_inode i (Contents "" 420) v)) ;; mret i
  end.
Definition fill (i : nat) (text : string) : IO unit :=
  v ← ask now;
  match inodes v !! i with
  | Some f => alter (set_inode i (Contents text (mode f)))
  | None => mret tt
  end.
Definition write_file (p : path) (text : string) : IO unit := i ← open_file p; fill i text.
Definition read_file (p : path) : IO file :=
  v ← ask now; match file_at v p with Some f => mret f | None => throw ENOENT end.
(** [shutil.copyfile] *)
Definition copyfile (origin target : path) : IO unit := f ← read_file origin; write_file target (bytes f).
Definition chmod (p : path) (m : Z) : IO unit :=
  v ← ask now;
  match nodes v !! p with
  | Some (File i) =>
      match inodes v !! i with Some f => alter (set_inode i (Contents (bytes f) m)) | None => throw ENOENT end
  | _ => throw ENOENT
  end.
(** [os.link] *)
Definition link_file (old target : path) : IO unit :=
  v ← ask now;
  match nodes v !! old with
  | Some (File i) =>
      match nodes v !! target with
      | Some _ => throw EEXIST
      | None => if parent_is_dir v target then alter (set_node target (File i)) else throw ENOENT
      end
  | _ => throw ENOENT
  end.
(** [path.rename] and [path.replace] *)
Definition rename (src dst : path) : IO unit :=
  v ← ask now;
  if negb (parent_is_dir v dst) then throw ENOENT else
  match nodes v !! src, nodes v !! dst with
  | None, _ => throw ENOENT
  | Some Dir, None => alter (move src dst)
  | Some Dir, Some Dir =>
      if existsb (λ p, inside dst p && negb (bool_decide (p = dst))) (paths v) then throw ENOTEMPTY else alter (move src dst)
  | Some Dir, Some _ => throw ENOTDIR
  | Some _, Some Dir => throw EISDIR
  | Some (File i), Some (File j) => if Nat.eqb i j then mret tt else alter (move src dst)
  | Some _, _ => alter (move src dst)
  end.
(** [shutil.rmtree]: one entry after the other, in some order *)
Definition rmtree (p : path) : IO unit :=
  v ← ask now;
  match nodes v !! p with
  | Some Dir => each (scan (keep (inside p) (paths v))) (λ q, alter (del_node q))
  | Some _ => throw ENOTDIR
  | None => throw ENOENT
  end.
(** [tempfile.TemporaryDirectory(prefix=..., dir=...)] *)
Definition with_temporary {A} (dir : path) (prefix : string) (body : path → IO A) : IO A :=
  n ← ask (λ s, length (past s));
  let t := dir ++ [prefix +:+ unique n] in
  mkdir t ;;
  try_finally (body t) (rmtree t).

(** The entries of a directory, and those whose names start with a prefix *)
Definition entries (v : volume) (d : path) : list path :=
  scan (keep (λ p, bool_decide (p ≠ []) && bool_decide (parent p = d)) (paths v)).
Definition iterdir (d : path) : IO (list path) :=
  v ← ask now; if is_dir v d then mret (entries v d) else throw ENOENT.
Definition glob (d : path) (prefix : string) : IO (list path) :=
  v ← ask now; mret (keep (λ p, startswith prefix (name p)) (entries v d)).
End Calls.
