(* ===== verification/Publish.v ===== *)
(** * Publishing applications on the volume ([applications/publish.py])

    The process of the publisher Job: it stages the files of an export beside the destination, reuses
    files of a previous publication as hard links, and makes the publication
    visible with one rename; it retires the versions of its owner that nobody keeps, imports
    releases, and commits the record of a build after all its applications.

    The download of a release and the unpacking of its archive are the parameter
    [payload]; the text of a JSON document is the one of [encode]. *)

From stdpp Require Import gmap.
From S2P Require Import Prelude Text Kube Effects Client Instances Consumers Volume.

(** [json.dumps] *)
Class JsonEncoder := encode : json → string.
Definition NEWLINE : string := String (Ascii.ascii_of_nat 10) "".

Definition RELEASE_STAGING_PREFIX : string := ".release.staging-".
Definition staging_prefix (binding : string) : string := "." +:+ binding +:+ ".staging-".
Definition MANIFEST : string := "manifest.json".
Definition ARCHIVE : string := "application.tar.gz".

(** The arguments of [publish] *)
Record publication := Publication {
  source : path;
  destination : path;
  binding : string;
  previous : option path;
  release_owned : bool;
  reuse_previous : bool;
  sources : option json;
  image : option string;
  parts : option (list string);
  previous_image : option string;
  model_preparation_image : option string;
  source_archive : option path;
  archive_url : string;
}.

Definition optional (o : option string) : json := from_option JStr JNull o.

(** [_application_part] *)
Definition application_part (rel : path) (component : string) : outcome string :=
  if eqb component "control-plane" then Ok "go" else
  match rel with
  | [] => Raise IndexError
  | first :: _ => Ok (if eqb first "python" then "python"
                      else if mem first ["engine"; "engine-environment.json"] then "engine" else "rust")
  end.

(** [(stat.S_IMODE(mode) & 0o111) | 0o444] *)
Definition published_mode (mode : Z) : Z := Z.lor (Z.land mode 73) 292.

(** [Path(j)] of a JSON value *)
Definition path_of (j : json) : outcome path :=
  match j with JStr s => Ok (posix_parts s) | _ => Raise (TypeError "argument should be a str or an os.PathLike object") end.
Definition path_at (k : string) (j : json) : outcome path := v ← index k j; path_of v.

Section Publish.
Context `{System} `{JsonText} `{JsonEncoder}.

Definition read_json (p : path) : IO json := f ← read_file p; pure (loads_text (bytes f)).

(** [_clear_source_staging] *)
Definition clear_staging (directory : path) (prefix : string) : IO unit :=
  abandoned ← glob directory prefix;
  each abandoned rmtree.

(** ** What is published *)

(** The files of the previous publication whose environment is the same *)
Definition reusable_files (a : publication) (metadata : json) : outcome (option json) :=
  if negb (reuse_previous a) then Ok None else
  b ← get "binding" metadata;
  if negb (py_eqb b (JStr (binding a))) then Ok None else
  o ← get "releaseOwned" metadata;
  if truthy o then Ok None else
  i ← get "image" metadata;
  if negb (py_eqb i (optional (image a))) then Ok None else
  m ← get "modelPreparationImage" metadata;
  if negb (py_eqb m (optional (model_preparation_image a))) then Ok None else
  files ← index "files" metadata; Ok (Some files).
(** [{path.relative_to(source): path for path in source.rglob("*")}] *)
Definition export_files (v : volume) (source : path) : list (path * path) :=
  (λ p, (drop (length source) p, p)) <$> scan (keep (λ p, inside source p && negb (bool_decide (p = source))) (paths v)).
Definition component_of (a : publication) : string := name (parent (destination a)).
Definition in_parts (a : publication) (chosen : list string) (rel : path) : outcome bool :=
  part ← application_part rel (component_of a); Ok (mem part chosen).
(** The files of the base that the selected parts do not replace *)
Fixpoint keep_base (a : publication) (chosen : list string) (base : path) (listed : list json) (inputs : list (path * path))
    : outcome (list (path * path)) :=
  match listed with
  | [] => Ok inputs
  | entry :: listed =>
      text ← index "path" entry;
      rel ← path_of text;
      if bool_decide (rel = []) || match text with JStr s => startswith "/" s | _ => false end || mem ".." rel
      then Raise (ValueError "application manifest contains an invalid file path") else
      replaced ← in_parts a chosen rel;
      keep_base a chosen base listed (if (replaced : bool) then inputs else dset rel (base ++ rel) inputs)
  end.
Definition select_inputs (a : publication) (v : volume) (metadata : option json) : outcome (list (path * path)) :=
  let inputs := export_files v (source a) in
  match parts a with
  | None => Ok inputs
  | Some chosen =>
      match metadata, previous a with
      | Some metadata, Some base =>
          i ← get "image" metadata;
          if negb (py_eqb i (match previous_image a with Some p => JStr p | None => optional (image a) end))
          then Raise (ValueError "partial publication requires the selected previous environment image") else
          marks ← outcome_map (λ e, b ← in_parts a chosen e.1; Ok (if (b : bool) then Some e else None)) inputs;
          listed ← (l ← index "files" metadata; elements l);
          keep_base a chosen base listed (omap id (marks : list _))
      | _, _ => Raise (OSError "completed application is missing")
      end
  end.

(** ** Staging *)

Definition file_entry (rel : path) (mode : Z) (size : nat) : json :=
  JObj [("path", JStr (join "/" rel)); ("mode", JInt mode); ("size", JInt (Z.of_nat size))].
(** The file of the base to link instead of copying *)
Definition same_file (v : volume) (origin old : path) (mode_ : Z) (f : file) : bool :=
  match file_at v old with
  | Some g => Z.eqb (published_mode (mode g)) mode_ && (bool_decide (origin = old) || eqb (bytes f) (bytes g))
  | None => false
  end.
Definition reused (v : volume) (base : option path) (rel origin : path) (mode_ : Z) (f : file) : option path :=
  match base with
  | Some base => if same_file v origin (base ++ rel) mode_ f then Some (base ++ rel) else None
  | None => None
  end.
(** One regular file of the inputs: its entry, and whether it was linked *)
Definition stage_file (base : option path) (staging rel origin : path) : IO (json * bool) :=
  let target := staging ++ rel in
  mkdir_parents (parent target) ;;
  f ← read_file origin;
  let mode_ := published_mode (mode f) in
  v ← ask now;
  linked ← match reused v base rel origin mode_ f with
           | Some old => link_file old target ;; mret true
           | None => copyfile origin target ;; chmod target mode_ ;; mret false
           end;
  t ← read_file target;
  mret (file_entry rel mode_ (String.length (bytes t)), linked).
Fixpoint stage (base : option path) (staging : path) (inputs : list (path * path)) : IO (list json * bool) :=
  match inputs with
  | [] => mret ([], true)
  | (rel, origin) :: inputs =>
      v ← ask now;
      match nodes v !! origin with
      | Some Link => throw (ValueError "application exports must not contain symlinks")
      | Some Dir => stage base staging inputs
      | Some (File _) =>
          e ← stage_file base staging rel origin;
          r ← stage base staging inputs;
          mret (e.1 :: r.1, e.2 && r.2)
      | _ => throw (ValueError "application exports must contain regular files")
      end
  end.

(** ** Source evidence *)

Definition entry_part (a : publication) (entry : json) : outcome string :=
  rel ← path_at "path" entry; application_part rel (component_of a).
Definition without_engines (part : string) (items : list (string * json)) : json :=
  JObj (keep (λ e, negb (eqb e.1 "engines") || eqb part "engine") items).
(** The sources of a part that this publication does not replace *)
Definition prior_sources (part : string) (metadata : json) : outcome json :=
  prior ← get "sources" metadata;
  match prior with
  | JNull => Ok JNull
  | _ =>
      known ← contains_key "parts" prior;
      if (known : bool) then p ← index "parts" prior; index part p
      else items ← items_of prior; Ok (without_engines part items)
  end.
Definition adopted (a : publication) (metadata : option json) (items : list (string * json)) (part : string)
    : outcome (string * json) :=
  match parts a, metadata with
  | Some chosen, Some metadata =>
      if mem part chosen then Ok (part, without_engines part items)
      else prior ← prior_sources part metadata; Ok (part, prior)
  | Some chosen, None => if mem part chosen then Ok (part, without_engines part items) else Raise AttributeError
  | None, _ => Ok (part, without_engines part items)
  end.
Definition evidence (a : publication) (suffix : string) : path :=
  parent (parent (destination a)) ++ ["sources"; component_of a; name (destination a) +:+ suffix].
Definition keep_archive (a : publication) (temporary archive : path) : IO unit :=
  let target := evidence a ".tar.gz" in
  v ← ask now;
  skip_unless (negb (is_file v target))
    (mkdir_parents (parent target) ;;
     let pending := temporary ++ ["inputs.tar.gz"] in
     copyfile archive pending ;;
     chmod pending 292 ;;
     rename pending target).
(** The [sources] of the manifest *)
Definition record_sources (a : publication) (metadata : option json) (temporary : path) (files : list json) : IO json :=
  match sources a, source_archive a with
  | Some given, Some archive =>
      found ← pure (outcome_map (entry_part a) files);
      let found := sort_by id (distinct found) in
      skip_unless (match parts a with Some chosen => existsb (λ part, mem part chosen) found | None => true end)
        (keep_archive a temporary archive) ;;
      items ← pure (items_of given);
      parts ← pure (outcome_map (adopted a metadata (dset "archive" (JStr (archive_url a)) items)) found);
      mret (JObj [("parts", JObj parts)])
  | given, _ => mret (default JNull given)
  end.

(** ** The publication becomes visible *)

Definition manifest (a : publication) (files : list json) (recorded : json) : json :=
  JObj ([("binding", JStr (binding a)); ("releaseOwned", JBool (release_owned a)); ("files", JArr files);
         ("archive", JStr ARCHIVE); ("sources", recorded)]
        ++ match image a with Some i => [("image", JStr i)] | None => [] end
        ++ match model_preparation_image a with Some i => [("modelPreparationImage", JStr i)] | None => [] end).
Definition packed (staging : path) (entry : json) : IO (string * file) :=
  text ← pure (text_index "path" entry);
  f ← read_file (staging ++ posix_parts text);
  mret (text, f).
Definition write_package (staging : path) (files : list json) : IO unit :=
  i ← open_file (staging ++ [ARCHIVE]);
  contents ← collect (packed staging) files;
  fill i (tar_gz contents) ;;
  chmod (staging ++ [ARCHIVE]) 292.
Definition keep_manifest (a : publication) (temporary staging : path) : IO unit :=
  let target := evidence a ".json" in
  mkdir_parents (parent target) ;;
  let pending := temporary ++ ["source-manifest.json"] in
  link_file (staging ++ [MANIFEST]) pending ;;
  rename pending target.
(** Everything but the rename *)
Definition assemble (a : publication) (metadata : option json) (temporary : path) (files : list json) : IO json :=
  let staging := temporary ++ ["payload"] in
  recorded ← record_sources a metadata temporary files;
  write_package staging files ;;
  write_file (staging ++ [MANIFEST]) (encode (manifest a files recorded) +:+ NEWLINE) ;;
  skip_unless (bool_decide (is_Some (sources a)) && bool_decide (is_Some (source_archive a)))
    (keep_manifest a temporary staging) ;;
  mret recorded.
Definition reuses (a : publication) (base_files : option json) (staged : list json * bool) : option path :=
  match previous a, base_files with
  | Some base, Some listed => if staged.2 && py_eqb (JArr staged.1) listed then Some base else None
  | _, _ => None
  end.
Definition publish_staged (a : publication) (metadata : option json) (base_files : option json) (inputs : list (path * path))
    (temporary : path) : IO path :=
  let staging := temporary ++ ["payload"] in
  mkdir staging ;;
  staged ← stage (previous a) staging (sort_by fst inputs);
  match reuses a base_files staged with
  | Some base => mret base
  | None =>
      _ ← assemble a metadata temporary staged.1;
      rename staging (destination a) ;;
      mret (destination a)
  end.
(** [publish] *)
Definition publish (a : publication) : IO path :=
  let prefix := if release_owned a then RELEASE_STAGING_PREFIX else staging_prefix (binding a) in
  skip_unless (negb (release_owned a)) (clear_staging (parent (destination a)) (staging_prefix (binding a))) ;;
  v ← ask now;
  if is_file v (destination a ++ [MANIFEST]) then mret (destination a) else
  if negb (is_dir v (source a)) then throw (OSError "application export is missing") else
  metadata ← match previous a with
             | Some base => if is_file v (base ++ [MANIFEST]) then j ← read_json (base ++ [MANIFEST]); mret (Some j) else mret None
             | None => mret None
             end;
  base_files ← match metadata with Some m => pure (reusable_files a m) | None => mret None end;
  inputs ← pure (select_inputs a v metadata);
  mkdir_parents (parent (destination a)) ;;
  with_temporary (parent (destination a)) prefix (publish_staged a metadata base_files inputs).

(** ** Retirement and the commands *)

(** [retire] *)
Definition owned_version (release_owned : bool) (binding : string) (metadata : json) : outcome bool :=
  if release_owned then o ← get "releaseOwned" metadata; Ok (match o with JBool true => true | _ => false end)
  else b ← get "binding" metadata; Ok (py_eqb b (JStr binding)).
Definition retire_version (binding : string) (keep : list string) (release_owned : bool) (version : path) : IO (list string) :=
  v ← ask now;
  if negb (is_file v (version ++ [MANIFEST])) then mret [] else
  metadata ← read_json (version ++ [MANIFEST]);
  owned ← pure (owned_version release_owned binding metadata);
  if negb owned then mret [] else
  if mem (name version) keep then mret [name version] else rmtree version ;; mret [].
Definition retire (directory : path) (binding : string) (keep : list string) (release_owned : bool) : IO (list string) :=
  versions ← iterdir directory;
  retained ← collect (retire_version binding keep release_owned) versions;
  mret (concat retained).

(** [import_release]; [payload] unpacks the downloaded archive at the given path *)
Definition COMPONENTS : list string := ["control-plane"; "frontend"; "model-server"].
Definition import_release (payload : path → IO unit) (mount : path) (revision binding : string) (prior : list (string * string))
    (keep_ : option (list string)) : IO unit :=
  each COMPONENTS (λ component, clear_staging (mount ++ [component]) RELEASE_STAGING_PREFIX) ;;
  v ← ask now;
  let missing := keep (λ component, negb (is_file v (mount ++ [component; revision; MANIFEST]))) COMPONENTS in
  skip_unless (bool_decide (missing ≠ []))
    (with_temporary ["tmp"] "tmp" (λ temporary,
      let unpacked := temporary ++ ["payload"] in
      payload unpacked ;;
      each missing (λ component,
        _ ← publish (Publication (unpacked ++ [component]) (mount ++ [component; revision]) binding
                       match dget component prior with
                       | Some p => if nonempty p then Some (mount ++ [component; p]) else None
                       | None => None
                       end true false None None None None None None "");
        mret tt))) ;;
  match keep_ with
  | None => mret tt
  | Some kept => each COMPONENTS (λ component, _ ← retire (mount ++ [component]) binding (kept ++ [revision]) true; mret tt)
  end.

(** [publish_build] *)
Definition application_ready (origin : path) (e : string * json) : IO unit :=
  v ← ask now;
  revision ← pure (v ← index "revision" e.2; path_of v);
  if is_file v (origin ++ [e.1] ++ revision ++ [MANIFEST]) then mret tt
  else throw (OSError ("completed " +:+ e.1 +:+ " application is unavailable")).
Definition publish_build (archive : path) (record : json) (target : path) (binding url : string) : IO unit :=
  v ← ask now;
  if is_file v (target ++ ["build.json"]) then mret tt else
  if bool_decide (length target < 3)%nat then throw IndexError else
  applications ← pure (b ← index "build" record; l ← index "applications" b; items_of l);
  each applications (application_ready (parent (parent (parent target)))) ;;
  mkdir_parents (parent target) ;;
  clear_staging (parent target) (staging_prefix binding) ;;
  with_temporary (parent target) (staging_prefix binding) (λ temporary,
    let staging := temporary ++ ["build"] in
    mkdir staging ;;
    copyfile archive (staging ++ ["inputs.tar.gz"]) ;;
    chmod (staging ++ ["inputs.tar.gz"]) 292 ;;
    items ← pure (items_of record);
    write_file (staging ++ ["build.json"]) (encode (JObj (dset "archive" (JStr url) items)) +:+ NEWLINE) ;;
    chmod (staging ++ ["build.json"]) 292 ;;
    rename staging target).

(** [publish_batch] *)
Definition optional_text (j : json) : option string := match j with JStr s => Some s | _ => None end.
Definition optional_texts (j : json) : outcome (option (list string)) :=
  match j with
  | JNull => Ok None
  | _ => l ← elements j; Ok (Some (omap optional_text (l : list json)))
  end.
Definition optional_path (j : json) : outcome (option path) := if truthy j then p ← path_of j; Ok (Some p) else Ok None.
Definition read_publication (binding : string) (archive : path) (application : json) : outcome publication :=
  from ← path_at "source" application;
  to ← path_at "destination" application;
  base ← (b ← index "previous" application; optional_path b);
  given ← index "sources" application;
  image_ ← index "image" application;
  chosen ← (l ← index "parts" application; optional_texts l);
  base_image ← index "previous_image" application;
  preparation ← get "model_preparation_image" application;
  url ← text_index "archive_url" application;
  Ok (Publication from to binding base false true (match given with JNull => None | _ => Some given end)
        (optional_text image_) chosen (optional_text base_image) (optional_text preparation) (Some archive) url).
Definition publish_application (binding : string) (archive : path) (retained : option (list string)) (application : json)
    : IO (string * string) :=
  a ← pure (read_publication binding archive application);
  published ← publish a;
  match retained with
  | Some kept => _ ← retire (parent published) binding (kept ++ [name published]) false; mret tt
  | None => mret tt
  end ;;
  component ← pure (text_index "component" application);
  mret (component, name published).
Definition publish_batch (selection : json) : IO (list (string * string)) :=
  binding ← pure (text_index "binding" selection);
  archive ← pure (path_at "source_archive" selection);
  retained ← pure (l ← index "keep" selection; optional_texts l);
  applications ← pure (l ← index "applications" selection; elements l);
  revisions ← collect (publish_application binding archive retained) applications;
  let revisions := foldl (λ d e, dset e.1 e.2 d) [] revisions in
  completed ← pure (index "build" selection);
  skip_unless (truthy completed)
    (descriptor ← pure (path_at "descriptor" completed);
     record ← read_json descriptor;
     items ← pure (items_of record);
     build ← pure (b ← index "build" record; items_of b);
     let selected := JObj ((λ e, (e.1, JObj [("revision", JStr e.2)])) <$> revisions) in
     target ← pure (path_at "destination" completed);
     url ← pure (text_index "url" completed);
     publish_build archive (JObj (dset "build" (JObj (dset "applications" selected build)) items)) target binding
       (url +:+ "/inputs.tar.gz")) ;;
  mret revisions.

(** [archive_inputs] *)
Definition archive_inputs (workspace target : path) : IO unit :=
  inputs ← read_json (parent workspace ++ ["inputs.json"]);
  i ← open_file target;
  names ← pure (l ← elements inputs; outcome_map as_text l);
  contents ← collect (λ n, f ← read_file (workspace ++ posix_parts n); mret (n, f)) (sort_by id names);
  fill i (tar_gz contents) ;;
  chmod target 292.
End Publish.
