(* ===== verification/VolumeProofs.v ===== *)
(** * Reasoning about every moment of a run on the volume

    [during P R m Q]: started where [P] and [R] hold, every moment of the run of [m]
    satisfies [P], also when it raises, and when it returns then with [Q].  Below: the
    rules for the commands, the frame [untouched] that names what a publisher may
    change, and the table of the files in its temporary directory. *)

From stdpp Require Import gmap.
From S2P Require Import Prelude Text Effects Volume.

Definition during {A} (P R : volume → Prop) (m : IO A) (Q : A → volume → Prop) : Prop :=
  ∀ s, P (now s) → R (now s) → ∃ l, moments (m s).2 = l ++ moments s ∧ Forall P l ∧
    match (m s).1 with Returned a => Q a (now (m s).2) | _ => True end.

Section Rules.
Context (P : volume → Prop).

Lemma now_kept s s' l : P (now s) → moments s' = l ++ moments s → Forall P l → P (now s').
Proof. intros Hn Hm Hl. destruct l as [|v l]; injection Hm as -> _; [done|]. by apply Forall_cons in Hl as [? _]. Qed.

Lemma during_ret {A} R (a : A) (Q : A → volume → Prop) : (∀ v, P v → R v → Q a v) → during P R (mret a) Q.
Proof. intros HQ s HP HR. exists []. split_and!; [done|done|]. by apply HQ. Qed.
Lemma during_bind {A B} R (m : IO A) (k : A → IO B) (R' : A → volume → Prop) (Q : B → volume → Prop) :
  during P R m R' → (∀ a, during P (R' a) (k a) Q) → during P R (m ≫= k) Q.
Proof.
  intros Hm Hk s HP HR. destruct (Hm s HP HR) as (l & Hl & Hf & Hr). unfold mbind, IO_bind.
  destruct (m s) as [[a|e|] s1]; cbn [fst snd] in *; [|by exists l..].
  destruct (Hk a s1) as (l' & Hl' & Hf' & Hr'); [by eapply now_kept|done|]. exists (l' ++ l).
  rewrite Hl', Hl. split_and!; [by rewrite app_assoc|by apply Forall_app|done].
Qed.
Lemma during_throw {A} R e (Q : A → volume → Prop) : during P R (throw e) Q.
Proof. intros s HP HR. by exists []. Qed.
Lemma during_pure {A} R (r : outcome A) (Q : A → volume → Prop) : (∀ a v, r = Ok a → P v → R v → Q a v) → during P R (pure r) Q.
Proof. intros HQ s HP HR. exists []. unfold pure. destruct r as [a|e]; split_and!; try done. by apply HQ. Qed.
Lemma during_pure_bind {A B} R (r : outcome A) (k : A → IO B) Q :
  (∀ a, r = Ok a → during P R (k a) Q) → during P R (pure r ≫= k) Q.
Proof. intros Hk s HP HR. unfold mbind, IO_bind, pure. destruct r as [a|e]; [by apply Hk|by exists []]. Qed.
Lemma during_now {B} R (k : volume → IO B) Q :
  (∀ v, P v → R v → during P (λ v', v' = v) (k v) Q) → during P R (ask now ≫= k) Q.
Proof. intros Hk s HP HR. by apply (Hk (now s)). Qed.
Lemma during_ask {A B} R (f : site → A) (k : A → IO B) Q : (∀ a, during P R (k a) Q) → during P R (ask f ≫= k) Q.
Proof. intros Hk s HP HR. by apply Hk. Qed.
Lemma during_alter R f (Q : unit → volume → Prop) : (∀ v, P v → R v → P (f v) ∧ Q tt (f v)) → during P R (alter f) Q.
Proof. intros Hf s HP HR. destruct (Hf _ HP HR). exists [f (now s)]. split_and!; [done|by constructor|done]. Qed.
Lemma during_weaken {A} R R' (m : IO A) (Q Q' : A → volume → Prop) :
  during P R' m Q' → (∀ v, P v → R v → R' v) → (∀ a v, P v → Q' a v → Q a v) → during P R m Q.
Proof.
  intros Hm HR HQ s HP Hs. destruct (Hm s HP (HR _ HP Hs)) as (l & Hl & Hf & Hr). exists l. split_and!; [done..|].
  pose proof (now_kept _ _ _ HP Hl Hf). destruct (m s) as [[a|e|] s1]; cbn [fst snd] in *; auto.
Qed.
Lemma during_post {A} R (m : IO A) (Q Q' : A → volume → Prop) : during P R m Q' → (∀ a v, P v → Q' a v → Q a v) → during P R m Q.
Proof. intros. by eapply during_weaken. Qed.
Lemma during_pre {A} R R' (m : IO A) (Q : A → volume → Prop) : during P R' m Q → (∀ v, P v → R v → R' v) → during P R m Q.
Proof. intros. by eapply during_weaken. Qed.
Lemma during_fact {A} (F : Prop) R (m : IO A) (Q : A → volume → Prop) : (F → during P R m Q) → during P (λ v, F ∧ R v) m Q.
Proof. intros Hm s HP [HF HR]. by apply Hm. Qed.
Lemma during_exists {A X} (R : X → volume → Prop) (m : IO A) (Q : A → volume → Prop) :
  (∀ x, during P (R x) m Q) → during P (λ v, ∃ x, R x v) m Q.
Proof. intros Hm s HP [x HR]. by apply (Hm x). Qed.
Lemma during_each {A} R (l : list A) f : (∀ x, x ∈ l → during P R (f x) (λ _, R)) → during P R (each l f) (λ _, R).
Proof.
  induction l as [|x l IH]; intros Hf; simpl; [by apply during_ret|].
  apply (during_bind _ _ _ (λ _, R)); [apply Hf; left|]. intros _. apply IH. intros y Hy. apply Hf. by right.
Qed.
Lemma during_collect {A B} R (f : A → IO B) l : (∀ x, x ∈ l → during P R (f x) (λ _, R)) → during P R (collect f l) (λ _, R).
Proof.
  induction l as [|x l IH]; intros Hf; simpl; [by apply during_ret|].
  apply (during_bind _ _ _ (λ _, R)); [apply Hf; left|]. intros y.
  apply (during_bind _ _ _ (λ _, R)); [|intros ?; by apply during_ret]. apply IH. intros z Hz. apply Hf. by right.
Qed.
Lemma during_collect_all {A B C} R (f : B → IO C) (g : A → B) (Φ : A → C → Prop) l :
  (∀ x, x ∈ l → during P R (f (g x)) (λ y v, Φ x y ∧ R v)) → during P R (collect f (g <$> l)) (λ ys v, Forall2 Φ l ys ∧ R v).
Proof.
  induction l as [|x l IH]; intros Hf; simpl; [by apply during_ret|].
  eapply during_bind; [apply Hf; left|]. intros y. apply during_fact. intros Hy.
  eapply during_bind; [apply IH; intros z Hz; apply Hf; by right|]. intros ys. apply during_ret. intros v _ [Hys Hv]. split; [by constructor|done].
Qed.
Lemma during_skip R b m : during P R m (λ _, R) → during P R (skip_unless b m) (λ _, R).
Proof. intros Hm. destruct b; [done|by apply during_ret]. Qed.
Lemma during_finally {A} R (m : IO A) c (Q Q' : A → volume → Prop) :
  during P R m Q → (∀ a, during P (Q a) c (λ _, Q' a)) → during P (λ _, True) c (λ _ _, True) →
  during P R (try_finally m c) Q'.
Proof.
  intros Hm Hc He s HP HR. destruct (Hm s HP HR) as (l & Hl & Hf & Hr). unfold try_finally.
  destruct (m s) as [[a|e|] s1]; cbn [fst snd] in *; [| |by exists l].
  - destruct (Hc a s1) as (l' & Hl' & Hf' & Hr'); [by eapply now_kept|done|]. exists (l' ++ l).
    destruct (c s1) as [[u|e|] s2]; cbn [fst snd] in *; rewrite Hl', Hl; (split_and!; [by rewrite app_assoc|by apply Forall_app|done]).
  - destruct (He s1) as (l' & Hl' & Hf' & Hr'); [by eapply now_kept|done|]. exists (l' ++ l).
    destruct (c s1) as [[u|e'|] s2]; cbn [fst snd] in *; rewrite Hl', Hl; (split_and!; [by rewrite app_assoc|by apply Forall_app|done]).
Qed.
End Rules.

(** A run with a stronger promise *)
Lemma during_widen {A} (P P' R : volume → Prop) (m : IO A) Q :
  during P R m Q → (∀ v, P v → P' v) → during P' (λ v, P v ∧ R v) m (λ a v, P v ∧ Q a v).
Proof.
  intros Hm HP s _ [HPs HR]. destruct (Hm s HPs HR) as (l & Hl & Hf & Hr). exists l. split_and!; [done|by eapply Forall_impl|].
  pose proof (now_kept P _ _ _ HPs Hl Hf). by destruct (m s) as [[a|e|] s1].
Qed.

(** ** The volume *)

Lemma below_refl p : inside p p = true.
Proof. apply bool_decide_eq_true. reflexivity. Qed.
Lemma below_app p q : inside p (p ++ q) = true.
Proof. apply bool_decide_eq_true. by eexists. Qed.
Lemma below_inv p q : inside p q = true → ∃ r, q = p ++ r.
Proof. intros [r ->]%bool_decide_eq_true. by exists r. Qed.
Lemma below_trans p q r : inside p q = true → inside q r = true → inside p r = true.
Proof. intros [x ->]%below_inv [y ->]%below_inv. rewrite <-app_assoc. apply below_app. Qed.

Lemma next_inode_above v i f : inodes v !! i = Some f → (i < next_inode v)%nat.
Proof.
  unfold next_inode. revert i f. apply (map_fold_weak_ind (λ r (m : gmap nat file), ∀ i f, m !! i = Some f → (i < r)%nat)).
  - by intros i f ?%lookup_empty_Some.
  - intros j g m r Hj IH i f. rewrite lookup_insert_Some. intros [[-> _]|[_ Hi]]; [lia|]. apply IH in Hi. lia.
Qed.
Lemma next_inode_fresh v : inodes v !! next_inode v = None.
Proof. destruct (inodes v !! next_inode v) as [f|] eqn:E; [|done]. apply next_inode_above in E. lia. Qed.

Lemma elem_of_paths v p : p ∈ paths v ↔ is_Some (nodes v !! p).
Proof.
  unfold paths. rewrite list_elem_of_fmap. split.
  - intros ([q n] & -> & Hin%elem_of_map_to_list). by exists n.
  - intros [n Hn]. exists (p, n). by rewrite elem_of_map_to_list.
Qed.

Lemma lookup_moved (src dst : path) (m : gmap path node) (p : path) :
  moved src dst m !! p = if inside dst p then m !! (src ++ drop (length dst) p) else None.
Proof.
  unfold moved. set (l := keep _ _). apply option_eq. intros n.
  assert (∀ e, e ∈ l ↔ inside src e.1 = true ∧ m !! e.1 = Some e.2) as Hl.
  { intros [q k]. unfold l. rewrite elem_of_keep, elem_of_map_to_list. done. }
  assert (NoDup (((λ e : path * node, (dst ++ drop (length src) e.1, e.2)) <$> l).*1)) as Hnd.
  { rewrite <-list_fmap_compose. unfold compose. simpl. unfold l, keep.
    assert (NoDup ((filter (λ e : path * node, inside src e.1 = true) (map_to_list m)).*1)) as Hf.
    { apply (sublist_NoDup _ (map_to_list m).*1); [apply NoDup_fst_map_to_list|]. apply fmap_sublist, sublist_filter. }
    revert Hf. assert (∀ e, e ∈ filter (λ e : path * node, inside src e.1 = true) (map_to_list m) → inside src e.1 = true) as Hin
      by (intros e [? _]%list_elem_of_filter; done).
    revert Hin. induction (filter _ _) as [|e k IH]; intros Hin; csimpl; [constructor|].
    intros [Hne Hnd]%NoDup_cons. constructor; [|apply IH; [|done]; intros x Hx; apply Hin; by right].
    intros (x & Hx & Hxk)%list_elem_of_fmap. apply Hne. apply list_elem_of_fmap. exists x. split; [|done].
    apply app_inv_head in Hx. destruct (below_inv _ _ (Hin e ltac:(left))) as [r Hr].
    destruct (below_inv _ _ (Hin x ltac:(by right))) as [r' Hr']. rewrite Hr, Hr' in Hx |- *. by rewrite !drop_app_length in Hx; subst. }
  rewrite <-elem_of_list_to_map by done. rewrite list_elem_of_fmap. setoid_rewrite Hl. split.
  - intros ([q k] & [= -> ->] & Hin & Hm). simpl in *. rewrite below_app, drop_app_length. destruct (below_inv _ _ Hin) as [r ->].
    by rewrite drop_app_length.
  - destruct (inside dst p) eqn:E; [|done]. intros Hm. destruct (below_inv _ _ E) as [r ->]. rewrite drop_app_length in Hm.
    exists (src ++ r, n). simpl. rewrite drop_app_length, below_app. done.
Qed.
Lemma lookup_move (src dst : path) v (p : path) :
  nodes (move src dst v) !! p =
  if inside dst p then nodes v !! (src ++ drop (length dst) p) else if inside src p then None else nodes v !! p.
Proof.
  unfold move. simpl. destruct (inside dst p) eqn:E.
  - destruct (nodes v !! (src ++ drop (length dst) p)) as [n|] eqn:En.
    + apply lookup_union_Some_l. rewrite lookup_moved, E. done.
    + apply lookup_union_None. rewrite lookup_moved, E. split; [done|]. apply map_lookup_filter_None. right. intros n Hn [_ ?]. simpl in *. congruence.
  - rewrite lookup_union_r by (by rewrite lookup_moved, E). destruct (inside src p) eqn:Es.
    + apply map_lookup_filter_None. right. intros n Hn [? _]. simpl in *. congruence.
    + destruct (nodes v !! p) as [n|] eqn:En; [apply map_lookup_filter_Some; done|]. apply map_lookup_filter_None. by left.
Qed.

(** ** The frame *)

(** Every name of a file has its inode. *)
Definition sound (v : volume) : Prop := ∀ p i, nodes v !! p = Some (File i) → is_Some (inodes v !! i).

Section Frame.
Context `{System} (zone grown : path → bool) (v0 : volume).

(** Outside the zone only new directories appear, and no old inode changes. *)
Definition untouched (v : volume) : Prop :=
  (∀ p, zone p = false → nodes v !! p = nodes v0 !! p ∨ grown p = true ∧ nodes v0 !! p = None ∧ nodes v !! p = Some Dir) ∧
  (∀ i f, inodes v0 !! i = Some f → inodes v !! i = Some f).

Lemma untouched_start : untouched v0.
Proof. split; auto. Qed.
Lemma untouched_file v p i : untouched v → zone p = false → nodes v !! p = Some (File i) → nodes v0 !! p = Some (File i).
Proof. intros [Hn _] Hz Hp. destruct (Hn p Hz) as [<-|(_ & _ & Hd)]; [done|congruence]. Qed.
Lemma untouched_file_at v p f : sound v0 → untouched v → zone p = false → file_at v p = Some f → file_at v0 p = Some f.
Proof.
  intros Hs Hu Hz. unfold file_at. destruct (nodes v !! p) as [[|i| |]|] eqn:E; try done.
  rewrite (untouched_file _ _ _ Hu Hz E). destruct (Hs p i (untouched_file _ _ _ Hu Hz E)) as [g Hg].
  intros Hf. rewrite (proj2 Hu i g Hg) in Hf. by rewrite Hg.
Qed.
Lemma untouched_new v i : untouched v → inodes v !! i = None → inodes v0 !! i = None.
Proof. intros [_ Hi] Hn. destruct (inodes v0 !! i) as [f|] eqn:E; [|done]. apply Hi in E. congruence. Qed.

Lemma untouched_node v p n : untouched v → zone p = true → untouched (set_node p n v).
Proof. intros [Hn Hi] Hz. split; [|done]. intros q Hq. simpl. rewrite lookup_insert_ne by congruence. by apply Hn. Qed.
Lemma untouched_del v p : untouched v → zone p = true → untouched (del_node p v).
Proof. intros [Hn Hi] Hz. split; [|done]. intros q Hq. simpl. rewrite lookup_delete_ne by congruence. by apply Hn. Qed.
Lemma untouched_grow v p : untouched v → zone p || grown p = true → nodes v !! p = None → untouched (set_node p Dir v).
Proof.
  intros Hu Hg Hp. destruct (zone p) eqn:Hz; [by apply untouched_node|]. destruct Hu as [Hn Hi]. split; [|done]. intros q Hq. simpl.
  destruct (decide (p = q)) as [<-|Hne]; [|rewrite lookup_insert_ne by done; by apply Hn].
  right. rewrite lookup_insert_eq. split_and!; [done| |done]. destruct (Hn p Hz) as [<-|(_ & ? & _)]; done.
Qed.
Lemma untouched_inode v i f : untouched v → inodes v0 !! i = None → untouched (set_inode i f v).
Proof. intros [Hn Hi] H0. split; [done|]. intros j g Hg. simpl. rewrite lookup_insert_ne by congruence. by apply Hi. Qed.
Lemma untouched_move v src dst :
  untouched v → (∀ p, inside src p = true → zone p = true) → (∀ p, inside dst p = true → zone p = true) → untouched (move src dst v).
Proof.
  intros [Hn Hi] Hs Hd. split; [|done]. intros p Hz. rewrite lookup_move.
  destruct (inside dst p) eqn:E; [apply Hd in E; congruence|]. destruct (inside src p) eqn:E'; [apply Hs in E'; congruence|]. by apply Hn.
Qed.

Lemma untouched_wider (zone' : path → bool) v : (∀ p, zone p = true → zone' p = true) → untouched v →
  (∀ p, zone' p = false → nodes v !! p = nodes v0 !! p ∨ grown p = true ∧ nodes v0 !! p = None ∧ nodes v !! p = Some Dir) ∧
  (∀ i f, inodes v0 !! i = Some f → inodes v !! i = Some f).
Proof. intros Hz [Hn Hi]. split; [|done]. intros p Hp. apply Hn. destruct (zone p) eqn:E; [|done]. apply Hz in E. congruence. Qed.

(** ** Directories *)

(** A condition that new directories do not disturb *)
Definition grows (R : volume → Prop) : Prop := ∀ v p, R v → nodes v !! p = None → R (set_node p Dir v).

Lemma during_ensure_dir (R : volume → Prop) p :
  (∀ v, R v → nodes v !! p = None → R (set_node p Dir v)) → zone p || grown p = true → during untouched R (ensure_dir p) (λ _, R).
Proof.
  intros HR Hg. unfold ensure_dir. apply during_now. intros v Hu Hv. destruct (nodes v !! p) as [[]|] eqn:E.
  1: apply during_ret; by intros ? _ ->. 1-3: by apply during_throw.
  apply during_alter. intros v' _ ->. split; [by apply untouched_grow|by apply HR].
Qed.
Lemma during_mkdir_parents (R : volume → Prop) p :
  (∀ v q, inside q p = true → R v → nodes v !! q = None → R (set_node q Dir v)) →
  (∀ q, q ≠ [] → inside q p = true → zone q || grown q = true) → during untouched R (mkdir_parents p) (λ _, R).
Proof.
  intros HR Hg. apply during_each. intros q (n & -> & Hn)%list_elem_of_fmap. apply elem_of_seq in Hn.
  assert (inside (take n p) p = true) as Hin by (rewrite <-(take_drop n p) at 2; apply below_app).
  apply during_ensure_dir; [intros v; by apply HR|]. apply Hg; [|done].
  destruct p; simpl in *; [lia|]. by destruct n; [lia|].
Qed.
Lemma during_mkdir R p : grows R → zone p = true → during untouched R (mkdir p) (λ _, R).
Proof.
  intros HR Hz. unfold mkdir. apply during_now. intros v Hu Hv. destruct (nodes v !! p) eqn:E; [by apply during_throw|].
  destruct (parent_is_dir v p); [|by apply during_throw]. apply during_alter. intros v' _ ->.
  split; [by apply untouched_node|by apply HR].
Qed.
Lemma during_rmtree R p :
  (∀ q, inside p q = true → zone q = true) → (∀ v q, inside p q = true → R v → R (del_node q v)) → during untouched R (rmtree p) (λ _, R).
Proof.
  intros Hz HR. unfold rmtree. apply during_now. intros v Hu Hv. destruct (nodes v !! p) as [[]|]; try by apply during_throw.
  eapply during_pre; [apply (during_each _ R)|by intros ? _ ->]. intros q Hq. rewrite scan_perm in Hq.
  apply elem_of_keep in Hq as [Hin _]. apply during_alter. intros v' Hu' Hv'.
  split; [apply untouched_del; [done|by apply Hz]|by apply HR].
Qed.

(** ** Files of a temporary directory *)

Context (temp : path).
Hypothesis temp_zone : ∀ rel, zone (temp ++ rel) = true.

(** The table lists exactly the files of the directory, with inode and contents. *)
Abbreviation table := (list (path * (nat * file))).
Definition tabled (t : table) (v : volume) : Prop :=
  (∀ rel i, nodes v !! (temp ++ rel) = Some (File i) → ∃ f, (rel, (i, f)) ∈ t) ∧
  (∀ rel i f, (rel, (i, f)) ∈ t → nodes v !! (temp ++ rel) = Some (File i) ∧ inodes v !! i = Some f).
(** An inode of the publisher's own *)
Definition own (i : nat) (t : table) : Prop := inodes v0 !! i = None ∧ ∀ rel j f, (rel, (j, f)) ∈ t → j ≠ i.

Lemma tabled_grows t : grows (tabled t).
Proof.
  intros v p [H1 H2] Hp. split.
  - intros rel i. simpl. destruct (decide (p = temp ++ rel)) as [->|Hne]; [by rewrite lookup_insert_eq|].
    rewrite lookup_insert_ne by done. apply H1.
  - intros rel i f Hin. destruct (H2 _ _ _ Hin) as [Hn Hi]. split; [|done]. simpl. rewrite lookup_insert_ne; [done|]. intros ->. congruence.
Qed.
Lemma tabled_at t v rel i f : tabled t v → (rel, (i, f)) ∈ t → file_at v (temp ++ rel) = Some f.
Proof. intros [_ H2] Hin. unfold file_at. by destruct (H2 _ _ _ Hin) as [-> ?]. Qed.

(** A new name for an inode *)
Lemma tabled_name t v rel i f :
  tabled t v → nodes v !! (temp ++ rel) = None → inodes v !! i = Some f → tabled ((rel, (i, f)) :: t) (set_node (temp ++ rel) (File i) v).
Proof.
  intros [H1 H2] Hn Hi. split.
  - intros rel' j. simpl. destruct (decide (rel = rel')) as [<-|Hne].
    + rewrite lookup_insert_eq. intros [= <-]. exists f. by left.
    + rewrite lookup_insert_ne by (intros ?%app_inv_head; done). intros Hj. destruct (H1 _ _ Hj) as [g Hg]. exists g. by right.
  - intros rel' j g [[= -> -> ->]|Hin]%elem_of_cons; [by simpl; rewrite lookup_insert_eq|].
    destruct (H2 _ _ _ Hin) as [Hn' Hi']. split; [|done]. simpl. rewrite lookup_insert_ne; [done|]. intros ?%app_inv_head. by simplify_eq.
Qed.
(** New contents of an inode of the publisher's own *)
Lemma tabled_contents t v rel i f g :
  tabled ((rel, (i, f)) :: t) v → own i t → rel ∉ t.*1 → tabled ((rel, (i, g)) :: t) (set_inode i g v).
Proof.
  intros [H1 H2] [_ Ho] Hrel. split.
  - intros rel' j Hj. destruct (H1 _ _ Hj) as [h [[= -> -> ->]|Hin]%elem_of_cons]; [exists g; by left|exists h; by right].
  - intros rel' j h [[= -> -> ->]|Hin]%elem_of_cons.
    + destruct (H2 rel i f) as [? _]; [by left|]. simpl. by rewrite lookup_insert_eq.
    + destruct (H2 rel' j h) as [Hn Hi]; [by right|]. split; [done|]. simpl. rewrite lookup_insert_ne; [done|]. intros ->. by eapply Ho.
Qed.
Lemma tabled_fresh t v i : tabled t v → inodes v !! i = None → ∀ rel j f, (rel, (j, f)) ∈ t → j ≠ i.
Proof. intros [_ H2] Hi rel j f Hin ->. apply H2 in Hin as [_ Hj]. congruence. Qed.

Lemma during_open t rel :
  rel ∉ t.*1 → during untouched (tabled t) (open_file (temp ++ rel)) (λ i v, own i t ∧ tabled ((rel, (i, Contents "" 420)) :: t) v).
Proof using temp_zone.
  intros Hrel. unfold open_file. apply during_now. intros v Hu Ht. destruct (nodes v !! (temp ++ rel)) as [[|i| |]|] eqn:E.
  - by apply during_throw.
  - exfalso. destruct Ht as [H1 _]. apply H1 in E as [f Hf]. apply Hrel, list_elem_of_fmap. by exists (rel, (i, f)).
  - by apply during_throw.
  - by apply during_throw.
  - destruct (parent_is_dir v (temp ++ rel)); cbn [negb]; [|by apply during_throw]. cbv zeta.
    set (i := next_inode v). pose proof (next_inode_fresh v) as Hfr. fold i in Hfr.
    eapply during_bind; [apply (during_alter _ _ _ (λ _ v', own i t ∧ tabled ((rel, (i, Contents "" 420)) :: t) v'))|intros ?; by apply during_ret].
    intros v' _ ->. split; [apply untouched_node; [apply untouched_inode; [done|by eapply untouched_new]|apply temp_zone]|].
    split; [split; [by eapply untouched_new|by eapply tabled_fresh]|].
    apply tabled_name; [|done|by simpl; rewrite lookup_insert_eq]. destruct Ht as [H1 H2]. split; [done|].
    intros rel' j g Hin. destruct (H2 _ _ _ Hin) as [Hn Hi]. split; [done|]. simpl. rewrite lookup_insert_ne; [done|]. intros <-. congruence.
Qed.
Lemma during_fill t rel i f text :
  own i t → rel ∉ t.*1 → during untouched (tabled ((rel, (i, f)) :: t)) (fill i text) (λ _, tabled ((rel, (i, Contents text (mode f))) :: t)).
Proof.
  intros Ho Hrel. unfold fill. apply during_now. intros v Hu Ht. destruct (proj2 Ht rel i f) as [_ Hi]; [by left|]. rewrite Hi.
  apply during_alter. intros v' _ ->. split; [apply untouched_inode; [done|apply Ho]|by eapply tabled_contents].
Qed.
Lemma during_write t rel text :
  rel ∉ t.*1 →
  during untouched (tabled t) (write_file (temp ++ rel) text) (λ _ v, ∃ i, own i t ∧ tabled ((rel, (i, Contents text 420)) :: t) v).
Proof using temp_zone.
  intros Hrel. eapply during_bind; [by apply during_open|]. intros i. apply during_fact. intros Ho.
  eapply during_post; [by apply during_fill|]. intros ? v ? Ht. by exists i.
Qed.
Lemma during_chmod t rel i f m :
  own i t → rel ∉ t.*1 → during untouched (tabled ((rel, (i, f)) :: t)) (chmod (temp ++ rel) m) (λ _, tabled ((rel, (i, Contents (bytes f) m)) :: t)).
Proof.
  intros Ho Hrel. unfold chmod. apply during_now. intros v Hu Ht. destruct (proj2 Ht rel i f) as [Hn Hi]; [by left|]. rewrite Hn, Hi.
  apply during_alter. intros v' _ ->. split; [apply untouched_inode; [done|apply Ho]|by eapply tabled_contents].
Qed.
Lemma during_link t old rel f :
  during untouched (λ v, tabled t v ∧ file_at v old = Some f) (link_file old (temp ++ rel)) (λ _ v, ∃ i, tabled ((rel, (i, f)) :: t) v).
Proof using temp_zone.
  unfold link_file. apply during_now. intros v Hu [Ht Hf]. unfold file_at in Hf. destruct (nodes v !! old) as [[|i| |]|]; try by apply during_throw.
  destruct (nodes v !! (temp ++ rel)) eqn:E; [by apply during_throw|]. destruct (parent_is_dir v (temp ++ rel)); [|by apply during_throw].
  apply during_alter. intros v' _ ->. split; [apply untouched_node; [done|apply temp_zone]|]. exists i. by apply tabled_name.
Qed.
(** A file leaves the directory. *)
Lemma during_rename_file t rel dst :
  (∀ p, inside dst p = true → zone p = true) → (∀ r, inside dst (temp ++ r) = false) →
  during untouched (tabled t) (rename (temp ++ rel) dst)
    (λ _ v, ∃ t', tabled t' v ∧ (∀ e, e ∈ t' → e ∈ t) ∧ ∀ e, e ∈ t → inside rel e.1 = false → e ∈ t').
Proof using temp_zone.
  intros Hz Hout. assert (∀ r, inside (temp ++ rel) (temp ++ r) = inside rel r) as Hin.
  { intros r. destruct (inside rel r) eqn:E; [apply below_inv in E as [x ->]; rewrite app_assoc; apply below_app|].
    destruct (inside (temp ++ rel) (temp ++ r)) eqn:E'; [|done]. apply below_inv in E' as [x Hx]. rewrite <-app_assoc in Hx.
    apply app_inv_head in Hx as ->. by rewrite below_app in E. }
  unfold rename. apply during_now. intros v Hu Ht. destruct (parent_is_dir v dst); cbn [negb]; [|by apply during_throw].
  assert (during untouched (λ v', v' = v) (alter (move (temp ++ rel) dst))
    (λ _ v, ∃ t', tabled t' v ∧ (∀ e, e ∈ t' → e ∈ t) ∧ ∀ e, e ∈ t → inside rel e.1 = false → e ∈ t')) as Hmove.
  { apply during_alter. intros v' _ ->. split.
    - apply untouched_move; [done| |done]. intros p [r ->]%below_inv. rewrite <-app_assoc. apply temp_zone.
    - exists (keep (λ e, negb (inside rel e.1)) t). destruct Ht as [H1 H2]. split; [split|split].
      + intros r i. rewrite lookup_move, Hout, Hin. destruct (inside rel r) eqn:E; [done|]. intros Hi. destruct (H1 _ _ Hi) as [f Hf].
        exists f. apply elem_of_keep. simpl. by rewrite E.
      + intros r i f [Hr Hin']%elem_of_keep. simpl in Hr. rewrite lookup_move, Hout, Hin. destruct (inside rel r); [done|]. by apply H2.
      + by intros e [_ ?]%elem_of_keep.
      + intros e He Hr. apply elem_of_keep. by rewrite Hr. }
  destruct (nodes v !! (temp ++ rel)) as [[|i| |]|], (nodes v !! dst) as [[|j| |]|]; try done; try by apply during_throw.
  - case_match; [by apply during_throw|done].
  - destruct (Nat.eqb i j); [|done]. apply during_ret. intros v' _ ->. exists t. auto.
Qed.
End Frame.

(** A whole directory moves at once. *)
Lemma during_rename_tree (P Q : volume → Prop) v src dst :
  (∀ i, nodes v !! src ≠ Some (File i)) → P (move src dst v) → Q (move src dst v) →
  during P (λ v', v' = v) (rename src dst) (λ _, Q).
Proof.
  intros Hf HP HQ. assert (during P (λ v', v' = v) (alter (move src dst)) (λ _, Q)) as Hmove by (apply during_alter; by intros v' _ ->).
  unfold rename. apply during_now. intros v' _ ->. destruct (parent_is_dir v dst); cbn [negb]; [|by apply during_throw].
  destruct (nodes v !! src) as [[|i| |]|], (nodes v !! dst) as [[|j| |]|]; try done; try by apply during_throw.
  - case_match; [by apply during_throw|done].
  - by destruct (Hf i).
Qed.
Lemma lookup_moved_tree src dst v rel : nodes (move src dst v) !! (dst ++ rel) = nodes v !! (src ++ rel).
Proof. by rewrite lookup_move, below_app, drop_app_length. Qed.

(** A temporary directory whose name nobody uses *)
Definition unused `{System} (dir : path) (prefix : string) (v : volume) : Prop :=
  ∀ n rel, nodes v !! (dir ++ (prefix +:+ unique n) :: rel) = None.
Lemma tabled_new `{System} dir prefix n v :
  let temp := dir ++ [prefix +:+ unique n] in unused dir prefix v → tabled temp [] (set_node temp Dir v).
Proof.
  intros temp Hun. split; [|by intros rel i f ?%not_elem_of_nil]. intros rel i. simpl.
  destruct (decide (temp = temp ++ rel)) as [<-|Hne]; [by rewrite lookup_insert_eq|].
  rewrite lookup_insert_ne by done. unfold temp. rewrite <-app_assoc. simpl. by rewrite Hun.
Qed.
Lemma during_temporary `{System} (P R : volume → Prop) {A} dir prefix (body : path → IO A) (R' : path → volume → Prop) (Q : A → volume → Prop) :
  (∀ n v, let temp := dir ++ [prefix +:+ unique n] in
     P v → R v → P (set_node temp Dir v) ∧ R' temp (set_node temp Dir v)) →
  (∀ n, let temp := dir ++ [prefix +:+ unique n] in during P (R' temp) (body temp) Q) →
  (∀ n v q, inside (dir ++ [prefix +:+ unique n]) q = true → P v → P (del_node q v)) →
  (∀ n a v q, inside (dir ++ [prefix +:+ unique n]) q = true → Q a v → Q a (del_node q v)) →
  during P R (with_temporary dir prefix body) Q.
Proof.
  intros Hmk Hbody HP HQ. unfold with_temporary. apply during_ask. intros n. cbv zeta. set (temp := dir ++ [prefix +:+ unique n]).
  assert (∀ T : volume → Prop, (∀ v q, inside temp q = true → T v → T (del_node q v)) → during P T (rmtree temp) (λ _, T)) as Hrm.
  { intros T HT. unfold rmtree. apply during_now. intros v Hu Hv. destruct (nodes v !! temp) as [[]|]; try by apply during_throw.
    eapply during_pre; [apply (during_each _ T)|by intros ? _ ->]. intros q Hq. rewrite scan_perm in Hq. apply elem_of_keep in Hq as [Hin _].
    apply during_alter. intros v' Hu' Hv'. split; [by eapply HP|by apply HT]. }
  apply (during_bind _ _ _ _ (λ _ v, R' temp v)).
  - unfold mkdir. apply during_now. intros v Hu Hv. destruct (nodes v !! temp); [by apply during_throw|].
    destruct (parent_is_dir v temp); [|by apply during_throw]. apply during_alter. intros v' _ ->. by apply Hmk.
  - intros _. eapply during_finally; [apply Hbody| |by apply Hrm]. intros a. apply Hrm. intros v q. apply HQ.
Qed.
