(* ===== verification/PublishProofs.v ===== *)
(** * A publication appears at once, complete, and disturbs nothing

    The run of [publish] at every moment: until the one rename nothing has changed but the
    staging directories of the publisher, the source evidence and new parent
    directories, and no inode that existed before; from the rename on the destination holds
    exactly the selected files with the bytes of their origins, and their manifest. *)

From stdpp Require Import gmap.
From S2P Require Import Prelude Text Kube Effects Client Instances Consumers Volume VolumeProofs Publish.

(** The same bytes, and the same published mode *)
Definition alike (f g : file) : Prop := bytes g = bytes f ∧ published_mode (mode g) = published_mode (mode f).
Lemma published_mode_idem m : published_mode (published_mode m) = published_mode m.
Proof.
  unfold published_mode. apply Z.bits_inj'. intros n Hn. rewrite !Z.lor_spec, !Z.land_spec, !Z.lor_spec, !Z.land_spec.
  assert (Z.testbit 292 n && Z.testbit 73 n = false) as Hd.
  { rewrite <-Z.land_spec. change (Z.land 292 73) with 0. apply Z.bits_0. }
  destruct (Z.testbit m n), (Z.testbit 73 n), (Z.testbit 292 n); done.
Qed.

Section Stage.
Context `{System} `{JsonText} `{JsonEncoder} (zone grown : path → bool) (v0 : volume).
Hypothesis v0_sound : sound v0.
Abbreviation P := (untouched zone grown v0).

(** The regular files among the inputs, and their entries *)
Definition regular (l : list (path * path)) : list (path * path) := keep (λ e, is_file v0 e.2) l.
Definition entry_of (e : path * path) : json :=
  match file_at v0 e.2 with
  | Some f => file_entry e.1 (published_mode (mode f)) (String.length (bytes f))
  | None => JNull
  end.

Context (temp : path).
Hypothesis temp_zone : ∀ rel, zone (temp ++ rel) = true.
Hypothesis temp_parents : ∀ q, q ≠ [] → inside q temp = true → zone q || grown q = true.
Abbreviation staging := (temp ++ ["payload"]).

Lemma target_temp rel : staging ++ rel = temp ++ "payload" :: rel.
Proof. by rewrite <-app_assoc. Qed.

(** What was staged: the entries, the table, and whether all of it is in the base *)
Definition in_base (base : option path) (l : list (path * path)) : Prop :=
  ∀ b e, base = Some b → e ∈ regular l → ∃ f g, file_at v0 e.2 = Some f ∧ file_at v0 (b ++ e.1) = Some g ∧ alike f g.
Definition staged (base : option path) (l : list (path * path)) (t new : list (path * (nat * file))) (r : list json * bool) : Prop :=
  r.1 = entry_of <$> regular l ∧
  (∀ e, e ∈ regular l → ∃ i f g, ("payload" :: e.1, (i, g)) ∈ new ∧ file_at v0 e.2 = Some f ∧ alike f g) ∧
  (∀ x, x ∈ new → x ∈ t ∨ ∃ rel, rel ∈ (regular l).*1 ∧ x.1 = "payload" :: rel) ∧
  (∀ x, x ∈ t → x ∈ new) ∧
  (r.2 = true → base ≠ None → in_base base l).

Lemma during_read R p (Q : file → volume → Prop) :
  (∀ v f, P v → R v → file_at v p = Some f → Q f v) → during P R (read_file p) Q.
Proof.
  intros HQ. unfold read_file. apply during_now. intros v Hu Hv. destruct (file_at v p) as [f|] eqn:E; [|by apply during_throw].
  apply during_ret. intros v' _ ->. by apply HQ.
Qed.

Lemma below_temp q rel : q ≠ [] → inside q (temp ++ rel) = true → zone q || grown q = true.
Proof using temp_zone temp_parents.
  intros Hq [r Hr]%below_inv. apply app_eq_inv in Hr as [(k & Hk & _)|(k & -> & _)]; [|by rewrite temp_zone].
  apply temp_parents; [done|]. rewrite Hk. apply below_app.
Qed.
Lemma during_parents t rel : during P (tabled temp t) (mkdir_parents (parent (temp ++ "payload" :: rel))) (λ _, tabled temp t).
Proof using temp_zone temp_parents.
  apply during_mkdir_parents; [intros v q _; apply tabled_grows|]. intros q Hq Hin. unfold parent in Hin.
  rewrite removelast_app in Hin by done. by eapply below_temp.
Qed.

Lemma during_stage_file base t rel origin :
  zone origin = false → (∀ b, base = Some b → zone (b ++ rel) = false) → "payload" :: rel ∉ t.*1 →
  during P (tabled temp t) (stage_file base staging rel origin)
    (λ r v, ∃ i f g, (file_at v0 origin = Some f ∧ alike f g ∧
       r.1 = file_entry rel (published_mode (mode f)) (String.length (bytes f)) ∧
       (r.2 = true → ∃ b g', base = Some b ∧ file_at v0 (b ++ rel) = Some g' ∧ alike f g')) ∧
       tabled temp (("payload" :: rel, (i, g)) :: t) v).
Proof using temp_zone temp_parents v0_sound.
  intros Hz Hb Hrel. unfold stage_file. cbv zeta. rewrite target_temp.
  eapply during_bind; [apply during_parents|]. intros ?.
  apply (during_bind _ _ _ _ (λ f v, file_at v0 origin = Some f ∧ tabled temp t v)).
  { apply during_read. intros v f Hu Ht Hf. split; [by eapply untouched_file_at|done]. }
  intros f. apply during_fact. intros Hf. apply during_now. intros v Hu Ht.
  apply (during_bind _ _ _ _ (λ linked v, ∃ i g, alike f g ∧ tabled temp (("payload" :: rel, (i, g)) :: t) v ∧
    (linked = true → ∃ b g', base = Some b ∧ file_at v0 (b ++ rel) = Some g' ∧ alike f g'))).
  - destruct (reused v base rel origin (published_mode (mode f)) f) as [old|] eqn:E.
    + unfold reused in E. destruct base as [b|]; [|done]. destruct (same_file v origin (b ++ rel) _ f) eqn:Es; [|done]. injection E as <-.
      unfold same_file in Es. destruct (file_at v (b ++ rel)) as [g|] eqn:Eg; [|done].
      apply andb_true_iff in Es as [Em%Z.eqb_eq Es]. pose proof (untouched_file_at _ _ _ _ _ _ v0_sound Hu (Hb b eq_refl) Eg) as Hg.
      assert (alike f g) as Ha.
      { split; [|done]. apply orb_true_iff in Es as [Es|Es]; [|symmetry; by apply eqb_true]. apply bool_decide_eq_true in Es as ->. congruence. }
      eapply during_bind; [eapply during_pre; [apply (during_link _ _ _ _ temp_zone t (b ++ rel) ("payload" :: rel) g)|by intros ? _ ->]|].
      intros ?. apply during_exists. intros i. apply during_ret. intros v' _ Ht'. exists i, g. split_and!; [done..|]. intros _. by exists b, g.
    + apply (during_bind _ _ _ _ (λ _ v, ∃ i, own v0 i t ∧ tabled temp (("payload" :: rel, (i, Contents (bytes f) 420)) :: t) v)).
      { unfold copyfile. apply (during_bind _ _ _ _ (λ f' v', f' = f ∧ tabled temp t v')).
        - apply during_read. intros v' f' Hu' -> Hf'. split; [|done]. apply (untouched_file_at _ _ _ _ _ _ v0_sound Hu Hz) in Hf'. congruence.
        - intros f'. apply during_fact. intros ->. by apply during_write. }
      intros _. apply during_exists. intros i. apply during_fact. intros Ho.
      eapply during_bind; [by apply during_chmod|]. intros ?. apply during_ret. intros v' _ Ht'. simpl in Ht'.
      exists i, (Contents (bytes f) (published_mode (mode f))). split_and!; [|done|done]. split; [done|]. apply published_mode_idem.
  - intros linked. apply during_exists. intros i. apply during_exists. intros g. apply during_fact. intros Ha.
    eapply during_bind; [apply (during_read _ _ (λ h v', h = g ∧ tabled temp (("payload" :: rel, (i, g)) :: t) v' ∧
      (linked = true → ∃ b g', base = Some b ∧ file_at v0 (b ++ rel) = Some g' ∧ alike f g')))|].
    + intros v' h _ [Ht' Hl] Hh. rewrite (tabled_at _ _ _ _ _ _ Ht' ltac:(left)) in Hh. by injection Hh as <-.
    + intros h. apply during_fact. intros ->. apply during_ret. intros v' _ [Ht' Hl]. exists i, f, g. split_and!; try done. simpl. by rewrite (proj1 Ha).
Qed.

Lemma regular_cons e l : regular (e :: l) = if is_file v0 e.2 then e :: regular l else regular l.
Proof. unfold regular, keep. rewrite filter_cons. destruct (is_file v0 e.2); [by rewrite decide_True|by rewrite decide_False]. Qed.

Lemma during_stage base l t :
  NoDup l.*1 → (∀ e, e ∈ l → zone e.2 = false ∧ "payload" :: e.1 ∉ t.*1) → (∀ b rel, base = Some b → zone (b ++ rel) = false) →
  during P (tabled temp t) (stage base staging l) (λ r v, ∃ new, tabled temp new v ∧ staged base l t new r).
Proof using temp_zone temp_parents v0_sound.
  intros Hnd Hl Hb. revert t Hnd Hl. induction l as [|[rel origin] l IH]; intros t Hnd Hl; simpl.
  { apply during_ret. intros v _ Ht. exists t. split; [done|]. split_and!; [done|intros e He; by apply not_elem_of_nil in He|by left|done|].
    intros _ _ b e _ He. by apply not_elem_of_nil in He. }
  apply NoDup_cons in Hnd as [Hnew Hnd]. destruct (Hl (rel, origin) ltac:(left)) as [Hz Hrel]. simpl in *.
  apply during_now. intros v Hu Ht. destruct (nodes v !! origin) as [[|i| |]|] eqn:E; try by apply during_throw.
  - assert (is_file v0 origin = false) as Hreg.
    { unfold is_file. destruct (proj1 Hu origin Hz) as [<-|(_ & -> & _)]; [by rewrite E|done]. }
    eapply during_pre; [eapply during_post; [apply (IH t Hnd)|]|by intros ? _ ->].
    + intros e He. apply Hl. by right.
    + intros r v' _ (new & Ht' & Hs). exists new. split; [done|]. unfold staged, in_base in *. rewrite regular_cons. simpl. by rewrite Hreg.
  - assert (is_file v0 origin = true) as Hreg by (unfold is_file; by rewrite (untouched_file _ _ _ _ _ _ Hu Hz E)).
    eapply during_bind; [eapply during_pre; [apply (during_stage_file base t rel origin); [done|intros b; apply Hb|done]|by intros ? _ ->]|].
    intros [entry linked]. do 3 (apply during_exists; intros ?). rename x into j, x0 into f, x1 into g.
    apply during_fact. intros (Hf & Ha & He & Hlk). simpl in He, Hlk.
    eapply during_bind; [apply (IH (("payload" :: rel, (j, g)) :: t) Hnd)|].
    { intros e Hin. destruct (Hl e ltac:(by right)) as [? Hnt]. split; [done|]. simpl. intros [[= Heq]|?]%elem_of_cons; [|done].
      apply Hnew, list_elem_of_fmap. exists e. split; [done|]. by destruct e; simpl in *; subst. }
    intros [files all]. apply during_exists. intros new. apply during_ret. simpl. intros v' _ (Ht' & Hfs & Hst & Hold & Hkeep & Hall).
    exists new. split; [done|]. simpl in *. unfold staged, in_base in *. rewrite regular_cons. simpl. rewrite Hreg. split_and!.
    + simpl. unfold entry_of at 1. simpl. rewrite Hf, He. by f_equal.
    + intros e [->|Hin]%elem_of_cons; [|by apply Hst]. exists j, f, g. split_and!; [|done..]. apply Hkeep. left.
    + intros x Hx. destruct (Hold x Hx) as [[->|?]%elem_of_cons|(r & Hr & Hx')]; [right; exists rel; split; [left|done]|by left|].
      right. exists r. split; [by right|done].
    + intros x Hx. apply Hkeep. by right.
    + intros [-> ->]%andb_true_iff Hbase b e Hbe [->|Hin]%elem_of_cons; [|by eapply Hall].
      destruct (Hlk eq_refl) as (b' & g' & Hb' & Hg' & Ha'). simpl. exists f, g'. split_and!; [done| |done]. congruence.
Qed.
End Stage.

(** ** Staging directories *)

(** The staging directories of a publisher, by their prefix *)
Definition in_staging (dir : path) (prefix : string) (p : path) : bool :=
  inside dir p && match drop (length dir) p with x :: _ => startswith prefix x | [] => false end.
Lemma staging_temp dir prefix x rel : in_staging dir prefix (dir ++ (prefix +:+ x) :: rel) = true.
Proof. unfold in_staging. by rewrite below_app, drop_app_length, startswith_append. Qed.
Lemma entries_below `{System} v d p : p ∈ entries v d → p = d ++ [name p].
Proof.
  unfold entries. rewrite scan_perm. intros [[Hne Hp]%andb_true_iff _]%elem_of_keep.
  apply bool_decide_eq_true in Hne, Hp. rewrite <-Hp. unfold parent, name. destruct p as [|x p] using rev_ind; [done|].
  by rewrite removelast_last, last_snoc.
Qed.
Lemma during_clear `{System} zone grown v0 dir prefix (R : volume → Prop) :
  (∀ q, in_staging dir prefix q = true → zone q = true) → (∀ v q, zone q = true → R v → R (del_node q v)) →
  during (untouched zone grown v0) R (clear_staging dir prefix) (λ _, R).
Proof.
  intros Hzone HR. unfold clear_staging, glob.
  apply (during_bind _ _ _ _ (λ l v, (∀ p, p ∈ l → startswith prefix (name p) = true ∧ p = dir ++ [name p]) ∧ R v)).
  { apply during_now. intros v Hu Hv. apply during_ret. intros v' _ ->. split; [|done]. intros p [Hp Hin]%elem_of_keep.
    split; [done|by eapply entries_below]. }
  intros l. apply during_fact. intros Hl. apply during_each. intros p [Hp Hin]%Hl.
  assert (∀ q, inside p q = true → zone q = true) as Hz.
  { intros q [r ->]%below_inv. apply Hzone. unfold in_staging. rewrite Hin, <-app_assoc, below_app, drop_app_length. simpl. by rewrite Hp. }
  apply during_rmtree; [done|]. intros v' q Hq. apply HR. by apply Hz.
Qed.

(** ** The place of a publication *)

Section Publication.
Context `{System} `{JsonText} `{JsonEncoder} (a : publication) (v0 : volume).

Definition prefix : string := if release_owned a then RELEASE_STAGING_PREFIX else staging_prefix (binding a).
Abbreviation dir := (parent (destination a)).
(** What it may change before the publication appears, and the directories it may add *)
Definition zone (p : path) : bool := in_staging dir prefix p || inside (evidence a ".tar.gz") p || inside (evidence a ".json") p.
Definition grown (q : path) : bool := inside q dir || inside q (parent (evidence a ".json")).
Abbreviation P := (untouched zone grown v0).

(** Where the publisher Job puts publications: [mount/component/revision], apart from the export
    and from the base; the names of files read back from the text of their path; and no input takes the
    name of the manifest or of the package. *)
Record fit := Fit {
  fit_sound : sound v0;
  fit_place : ∃ mount c r, destination a = mount ++ [c; r] ∧ c ≠ "sources" ∧ startswith prefix r = false;
  fit_source : ∀ p, inside (source a) p = true → zone p = false;
  fit_base : ∀ b p, previous a = Some b → inside b p = true → zone p = false;
  fit_unused : unused dir prefix v0;
  fit_paths : ∀ root rel, source a = root ∨ previous a = Some root → is_file v0 (root ++ rel) = true → posix_parts (join "/" rel) = rel;
  fit_names : ∀ x, x ∈ [MANIFEST; ARCHIVE] → is_file v0 (source a ++ [x]) = false;
  fit_listed : ∀ b f m l entry x, previous a = Some b → file_at v0 (b ++ [MANIFEST]) = Some f → loads_text (bytes f) = Ok m →
    (index "files" m ≫= elements) = Ok l → entry ∈ l → x ∈ [MANIFEST; ARCHIVE] → path_at "path" entry ≠ Ok [x];
}.
Hypothesis Hfit : fit.

Lemma place : ∃ mount c r, destination a = mount ++ [c; r] ∧ dir = mount ++ [c] ∧ c ≠ "sources" ∧ startswith prefix r = false ∧
  ∀ suffix, evidence a suffix = mount ++ ["sources"; c; r +:+ suffix].
Proof using Hfit.
  destruct (fit_place Hfit) as (mount & c & r & Hd & Hc & Hr). exists mount, c, r.
  assert (dir = mount ++ [c]) as Hdir. { unfold parent. rewrite Hd. change [c; r] with ([c] ++ [r]). by rewrite app_assoc, removelast_last. }
  split_and!; [done..|]. intros suffix. unfold evidence, component_of, name. rewrite Hdir. unfold parent. rewrite removelast_last.
  rewrite last_snoc, Hd. change [c; r] with ([c] ++ [r]). by rewrite app_assoc, last_snoc.
Qed.
Lemma zone_temp x rel : zone (dir ++ (prefix +:+ x) :: rel) = true.
Proof. unfold zone. by rewrite staging_temp. Qed.
Lemma below_cancel (m p q : path) : inside (m ++ p) (m ++ q) = inside p q.
Proof.
  destruct (inside p q) eqn:E; [apply below_inv in E as [x ->]; rewrite app_assoc; apply below_app|].
  destruct (inside (m ++ p) (m ++ q)) eqn:E'; [|done]. apply below_inv in E' as [x Hx]. rewrite <-app_assoc in Hx.
  apply app_inv_head in Hx as ->. by rewrite below_app in E.
Qed.
Lemma below_cons x y (p q : path) : inside (x :: p) (y :: q) = bool_decide (x = y) && inside p q.
Proof.
  destruct (decide (x = y)) as [<-|Hne].
  - rewrite bool_decide_true by done. exact (below_cancel [x] p q).
  - rewrite bool_decide_false by done. destruct (inside (x :: p) (y :: q)) eqn:E; [|done]. by apply below_inv in E as [z [= -> _]].
Qed.
Lemma zone_evidence suffix p : suffix ∈ [".tar.gz"; ".json"] → inside (evidence a suffix) p = true → zone p = true.
Proof.
  unfold zone. intros Hs Hp. rewrite !elem_of_cons in Hs.
  destruct Hs as [->|[->|Hs]]; [by rewrite Hp, orb_true_r|by rewrite Hp, orb_true_r|by apply not_elem_of_nil in Hs].
Qed.
Lemma evidence_temp suffix x r : inside (evidence a suffix) ((dir ++ [x]) ++ r) = false.
Proof using Hfit.
  destruct place as (mount & c & rev & _ & Hdir & Hc & _ & He). rewrite He, Hdir, <-!app_assoc, below_cancel. simpl.
  rewrite below_cons. by rewrite bool_decide_false.
Qed.
Lemma dest_quiet p : inside (destination a) p = true → zone p = false ∧ grown p = false.
Proof using Hfit.
  intros [k ->]%below_inv. destruct place as (mount & c & rev & Hd & Hdir & Hc & Hr & He).
  unfold zone, grown, in_staging. rewrite !He, Hdir, Hd. rewrite <-app_assoc. simpl.
  assert (∀ s, inside (mount ++ ["sources"; c; s]) (mount ++ c :: rev :: k) = false) as Hout
    by (intros s; rewrite below_cancel, below_cons; by rewrite bool_decide_false).
  rewrite !Hout. split.
  - replace (mount ++ c :: rev :: k) with ((mount ++ [c]) ++ rev :: k) by (by rewrite <-app_assoc). rewrite drop_app_length, below_app. by rewrite Hr.
  - unfold parent. change ["sources"; c; rev +:+ ".json"] with (["sources"; c] ++ [rev +:+ ".json"]). rewrite app_assoc, removelast_last.
    rewrite !below_cancel, !below_cons. simpl. rewrite bool_decide_true by done. rewrite (bool_decide_false (c = "sources")) by done.
    simpl. destruct (inside (rev :: k) []) eqn:E; [|done]. by apply below_inv in E as [z [=]].
Qed.
(** Until the rename the destination is as it was. *)
Lemma hidden v p : P v → inside (destination a) p = true → nodes v !! p = nodes v0 !! p.
Proof using Hfit.
  intros [Hn _] Hp. destruct (dest_quiet p Hp) as [Hz Hg]. destruct (Hn p Hz) as [?|[? _]]; [done|congruence].
Qed.
Lemma grown_evidence suffix q : inside q (parent (evidence a suffix)) = true → grown q = true.
Proof using Hfit.
  destruct place as (mount & c & rev & _ & _ & _ & _ & He). unfold grown. rewrite !He. unfold parent.
  assert (∀ s, removelast (mount ++ ["sources"; c; s]) = mount ++ ["sources"; c]) as Hrl.
  { intros s. change ["sources"; c; s] with (["sources"; c] ++ [s]). by rewrite app_assoc, removelast_last. }
  rewrite !Hrl. intros ->. by destruct (inside _ _).
Qed.
Lemma temp_parents x q : q ≠ [] → inside q (dir ++ [prefix +:+ x]) = true → zone q || grown q = true.
Proof.
  intros Hq [r Hr]%below_inv. apply app_eq_inv in Hr as [(k & Hk & _)|(k & -> & Hx)].
  - unfold grown. rewrite Hk at 1. rewrite below_app. by destruct (zone q).
  - destruct k as [|y k]; [unfold grown; rewrite app_nil_r, below_refl; by destruct (zone _)|].
    destruct k; [|done]. simpl in Hx. simplify_eq. by rewrite zone_temp.
Qed.

(** ** The inputs *)

Lemma export_spec v e : e ∈ export_files v (source a) → e.1 ≠ [] ∧ e.2 = source a ++ e.1.
Proof.
  unfold export_files. intros (p & -> & Hp)%list_elem_of_fmap. rewrite scan_perm in Hp. apply elem_of_keep in Hp as [[Hin Hne]%andb_true_iff _].
  apply below_inv in Hin as [r ->]. simpl. rewrite drop_app_length. split; [|done]. intros ->. rewrite app_nil_r in Hne. by rewrite bool_decide_true in Hne.
Qed.
Lemma export_NoDup v : NoDup (export_files v (source a)).*1.
Proof.
  unfold export_files. rewrite <-list_fmap_compose. unfold compose. simpl. set (l := keep _ _).
  assert (NoDup l) as Hnd.
  { unfold l, keep. apply NoDup_filter. unfold paths. apply NoDup_fst_map_to_list. }
  assert (∀ p, p ∈ l → inside (source a) p = true) as Hin by (by intros p [[? _]%andb_true_iff _]%elem_of_keep).
  rewrite <-(scan_perm l) in Hnd. assert (∀ p, p ∈ scan l → inside (source a) p = true) as Hin' by (intros p; rewrite scan_perm; apply Hin).
  revert Hnd Hin'. generalize (scan l). clear. intros k Hnd Hin. induction Hnd as [|p k Hp Hnd IH]; csimpl; [constructor|].
  constructor; [|apply IH; intros q Hq; apply Hin; by right]. intros (q & Hq & Hqk)%list_elem_of_fmap. apply Hp.
  destruct (below_inv _ _ (Hin p ltac:(left))) as [x ->]. destruct (below_inv _ _ (Hin q ltac:(by right))) as [y ->].
  rewrite !drop_app_length in Hq. by subst.
Qed.

(** Where an input comes from *)
Definition input_of (metadata : option json) (e : path * path) : Prop :=
  e.1 ≠ [] ∧ (e.2 = source a ++ e.1 ∨
  ∃ b m l entry, previous a = Some b ∧ metadata = Some m ∧ (index "files" m ≫= elements) = Ok l ∧ entry ∈ l ∧
    path_at "path" entry = Ok e.1 ∧ e.2 = b ++ e.1).
Lemma keep_base_spec chosen b m l (listed : list json) inputs r :
  previous a = Some b → (index "files" m ≫= elements) = Ok l → (∀ x, x ∈ listed → x ∈ l) →
  NoDup inputs.*1 → (∀ e, e ∈ inputs → input_of (Some m) e) →
  keep_base a chosen b listed inputs = Ok r → NoDup r.*1 ∧ ∀ e, e ∈ r → input_of (Some m) e.
Proof.
  intros Hb Hl. revert inputs. induction listed as [|entry listed IH]; intros inputs Hsub Hnd Hin; simpl; [by intros [= <-]|].
  intros (text & Ht & (rel & Hrel & Hr)%outcome_bind_Ok)%outcome_bind_Ok. destruct (bool_decide (rel = [])) eqn:Er; [done|]. cbn [orb] in Hr.
  destruct (_ || _); [done|]. apply bool_decide_eq_false in Er.
  apply outcome_bind_Ok in Hr as (replaced & _ & Hr). revert Hr. apply IH.
  - intros x Hx. apply Hsub. by right.
  - destruct replaced; [done|by apply NoDup_dset].
  - destruct replaced; [done|]. apply (Forall_forall (input_of (Some m))), Forall_dset; [|by apply Forall_forall].
    intros k' ->. split; [done|]. right. exists b, m, l, entry. split_and!; [done..|apply Hsub; left| |done]. unfold path_at. by rewrite Ht.
Qed.
Lemma inputs_spec v metadata inputs : select_inputs a v metadata = Ok inputs → NoDup inputs.*1 ∧ ∀ e, e ∈ inputs → input_of metadata e.
Proof.
  unfold select_inputs. destruct (parts a) as [chosen|].
  2:{ intros [= <-]. split; [apply export_NoDup|]. intros e He. destruct (export_spec _ _ He). split; [done|by left]. }
  destruct metadata as [m|]; [|done]. destruct (previous a) as [b|] eqn:Eb; [|done].
  intros (i & _ & Hr)%outcome_bind_Ok. destruct (negb _); [done|]. apply outcome_bind_Ok in Hr as (marks & Hm & (listed & Hl & Hr)%outcome_bind_Ok).
  assert (∀ e, e ∈ omap id (marks : list _) → e ∈ export_files v (source a)) as Hsub.
  { intros e He. apply elem_of_omap_id in He. apply (elem_of_mapped _ _ _ _ Hm) in He as (x & Hx & Hs). steps Hs. destruct x0; [|done]. by injection Hs as ->. }
  revert Hr. apply (keep_base_spec chosen b m listed); [done|done|done| |].
  - assert (sublist (omap id (marks : list _)) (export_files v (source a))) as Hs.
    { clear -Hm. revert marks Hm. induction (export_files v (source a)) as [|e l IH]; intros marks; simpl; [by intros [= <-]|].
      intros (x & Hx & (ms & Hms & [= <-])%outcome_bind_Ok)%outcome_bind_Ok. steps Hx. destruct x0; injection Hx as <-; simpl;
        [by apply sublist_skip, IH|by apply sublist_cons, IH]. }
    eapply sublist_NoDup; [apply (export_NoDup v)|]. by apply fmap_sublist.
  - intros e He. destruct (export_spec _ _ (Hsub e He)). split; [done|by left].
Qed.

(** ** Evidence, package and manifest *)

Section Temporary.
Context (x : string).
Abbreviation temp := (dir ++ [prefix +:+ x]).
Abbreviation staging := (temp ++ ["payload"]).
Abbreviation table := (list (path * (nat * file))).
Definition within (names : list path) (t : table) : Prop := ∀ e, e ∈ t → e.1 ∈ names.
(** The table grows by one name at most. *)
Definition adds (t : table) (names : list path) (rel : path) (v : volume) : Prop :=
  ∃ t', tabled temp t' v ∧ (∀ e, e ∈ t → e ∈ t') ∧ within (rel :: names) t'.

Lemma during_adds {A} t names rel (m : IO A) Q :
  (∀ t', (∀ e, e ∈ t → e ∈ t') → within (rel :: names) t' → during P (tabled temp t') m Q) → during P (adds t names rel) m Q.
Proof. intros Hm s HP (t' & Ht & Hk & Hw). by apply (Hm t'). Qed.
Lemma temp_zone rel : zone (temp ++ rel) = true.
Proof. rewrite <-app_assoc. apply zone_temp. Qed.
Lemma within_fresh names t rel : within names t → rel ∉ names → rel ∉ t.*1.
Proof. intros Hw Hn (e & -> & He)%list_elem_of_fmap. by apply Hn, Hw. Qed.

Lemma during_evidence t names rel suffix :
  within (rel :: names) t → (∀ n, n ∈ names → inside rel n = false) → suffix ∈ [".tar.gz"; ".json"] →
  during P (tabled temp t) (rename (temp ++ rel) (evidence a suffix))
    (λ _ v, ∃ t', tabled temp t' v ∧ (∀ e, e ∈ t → inside rel e.1 = false → e ∈ t') ∧ within (rel :: names) t').
Proof using Hfit.
  intros Hw Hn Hs. eapply during_post; [apply (during_rename_file zone grown v0 temp temp_zone t rel)|].
  - intros p. by apply zone_evidence.
  - intros r. apply evidence_temp.
  - intros ? v _ (t' & Ht & Hsub & Hkeep). exists t'. split_and!; [done..|]. intros e He. by apply Hw, Hsub.
Qed.
Lemma during_evidence_parents t suffix : during P (tabled temp t) (mkdir_parents (parent (evidence a suffix))) (λ _, tabled temp t).
Proof using Hfit.
  apply during_mkdir_parents; [intros v q _; apply tabled_grows|]. intros q _ Hq. rewrite (grown_evidence _ _ Hq). apply orb_true_r.
Qed.

Lemma during_keep_archive t names archive :
  within names t → (∀ n, n ∈ names → inside ["inputs.tar.gz"] n = false) →
  during P (tabled temp t) (keep_archive a temp archive) (λ _, adds t names ["inputs.tar.gz"]).
Proof using Hfit.
  intros Hw Hn. unfold keep_archive. cbv zeta. apply during_now. intros v Hu Ht.
  assert (within (["inputs.tar.gz"] :: names) t) as Hw' by (intros e He; right; by apply Hw).
  destruct (negb (is_file v _)); simpl; [|apply during_ret; intros v' _ ->; by exists t].
  assert (["inputs.tar.gz"] ∉ t.*1) as Hfresh.
  { apply (within_fresh names t _ Hw). intros Hin. apply Hn in Hin. by rewrite below_refl in Hin. }
  eapply during_bind; [eapply during_pre; [apply (during_evidence_parents t ".tar.gz")|by intros ? _ ->]|]. intros ?.
  apply (during_bind _ _ _ _ (λ _ v, ∃ text i, own v0 i t ∧ tabled temp ((["inputs.tar.gz"], (i, Contents text 420)) :: t) v)).
  { unfold copyfile. apply (during_bind _ _ _ _ (λ _, tabled temp t)); [by apply during_read|]. intros f.
    eapply during_post; [by apply (during_write zone grown v0 temp temp_zone)|]. intros ? v' _ (i & Ho & Ht'). by exists (bytes f), i. }
  intros ?. do 2 (apply during_exists; intros ?). rename x0 into text, x1 into i. apply during_fact. intros Ho.
  eapply during_bind; [by apply (during_chmod zone grown v0 temp)|]. intros ?. simpl.
  eapply during_post; [apply (during_evidence _ names)|].
  - intros e [->|He]%elem_of_cons; [left|by apply Hw'].
  - done.
  - left.
  - intros ? v' _ (t' & Ht' & Hk & Hw''). exists t'. split_and!; [done| |done]. intros e He. apply Hk; [by right|]. by apply Hn, Hw.
Qed.

Lemma during_record_sources t names metadata files :
  within names t → (∀ n, n ∈ names → inside ["inputs.tar.gz"] n = false) →
  during P (tabled temp t) (record_sources a metadata temp files) (λ _, adds t names ["inputs.tar.gz"]).
Proof using Hfit.
  intros Hw Hn. assert (∀ v, tabled temp t v → adds t names ["inputs.tar.gz"] v) as Hsame.
  { intros v Ht. exists t. split_and!; [done..|]. intros e He. right. by apply Hw. }
  unfold record_sources. destruct (sources a) as [given|]; [|apply during_ret; auto]. destruct (source_archive a) as [archive|]; [|apply during_ret; auto].
  apply during_pure_bind. intros found _. cbv zeta.
  apply (during_bind _ _ _ _ (λ _, adds t names ["inputs.tar.gz"])).
  { destruct (match parts a with Some _ => _ | None => _ end); simpl; [by apply during_keep_archive|by apply during_ret; auto]. }
  intros ?. apply during_pure_bind. intros items _. apply during_pure_bind. intros adopted_ _. by apply during_ret.
Qed.

(** What the package holds: the files of the entries, under their names *)
Definition packs (t : table) (es : list (path * path)) (contents : list (string * file)) : Prop :=
  Forall2 (λ e c, c.1 = join "/" e.1 ∧ ∃ i, ("payload" :: e.1, (i, c.2)) ∈ t) es contents.
Definition packed_in (t : table) (es : list (path * path)) : Prop :=
  ∃ i contents, (["payload"; ARCHIVE], (i, Contents (tar_gz contents) 292)) ∈ t ∧ packs t es contents.
Lemma packed_in_mono t t' es : (∀ e, e ∈ t → e ∈ t') → packed_in t es → packed_in t' es.
Proof.
  intros Hk (i & contents & Hin & Hp). exists i, contents. split; [by apply Hk|]. eapply Forall2_impl; [exact Hp|].
  intros e c [Hc [j Hj]]. split; [done|]. exists j. by apply Hk.
Qed.

Lemma during_package t names es :
  within names t → ["payload"; ARCHIVE] ∉ names →
  (∀ e, e ∈ es → posix_parts (join "/" e.1) = e.1 ∧ is_Some (file_at v0 e.2) ∧ ∃ i g, ("payload" :: e.1, (i, g)) ∈ t) →
  during P (tabled temp t) (write_package staging (entry_of v0 <$> es))
    (λ _ v, ∃ t', (packed_in t' es ∧ (∀ e, e ∈ t → e ∈ t') ∧ within (["payload"; ARCHIVE] :: names) t') ∧ tabled temp t' v).
Proof using Hfit.
  intros Hw Hn Hes. unfold write_package. rewrite (target_temp temp [ARCHIVE]). pose proof (within_fresh _ _ _ Hw Hn) as Hfresh.
  eapply during_bind; [by apply (during_open zone grown v0 temp temp_zone)|]. intros i. apply during_fact. intros Ho.
  set (R := tabled temp (_ :: t)).
  apply (during_bind _ _ _ _ (λ contents v, packs t es contents ∧ R v)).
  { apply during_collect_all. intros e He. destruct (Hes e He) as (Hpath & [f Hf] & k & g & Hg).
    unfold packed. apply during_pure_bind. intros text Ht. unfold entry_of in Ht. rewrite Hf in Ht. injection Ht as <-. rewrite Hpath, target_temp.
    apply (during_bind _ _ _ _ (λ h v, h = g ∧ R v)).
    - apply during_read. intros v h _ HR Hh. split; [|done].
      rewrite (tabled_at _ _ _ _ _ _ HR ltac:(right; exact Hg)) in Hh. by injection Hh.
    - intros h. apply during_fact. intros ->. apply during_ret. intros v _ HR. split; [|done]. split; [done|by exists k]. }
  intros contents. apply during_fact. intros Hc. unfold R. eapply during_bind; [by apply (during_fill zone grown v0 temp)|]. intros ?. simpl.
  eapply during_post; [by apply (during_chmod zone grown v0 temp)|]. intros ? v _ Ht. eexists. split; [|exact Ht]. split_and!.
  - exists i, contents. split; [left|]. eapply Forall2_impl; [exact Hc|]. intros e c [Hc1 [k Hk]]. split; [done|]. exists k. by right.
  - by right.
  - intros e [->|He]%elem_of_cons; [left|right; by apply Hw].
Qed.

Lemma during_keep_manifest t names f :
  within names t → ["source-manifest.json"] ∉ names → (∀ n, n ∈ names → inside ["source-manifest.json"] n = false) →
  (∃ i, (["payload"; MANIFEST], (i, f)) ∈ t) →
  during P (tabled temp t) (keep_manifest a temp staging) (λ _, adds t names ["source-manifest.json"]).
Proof using Hfit.
  intros Hw Hn Hin [i Hi]. unfold keep_manifest. cbv zeta. rewrite (target_temp temp [MANIFEST]).
  eapply during_bind; [apply (during_evidence_parents t ".json")|]. intros ?.
  eapply during_bind.
  { eapply during_pre; [apply (during_link zone grown v0 temp temp_zone t (temp ++ ["payload"; MANIFEST]) ["source-manifest.json"] f)|].
    intros v _ Ht. split; [done|]. by eapply tabled_at. }
  intros ?. apply during_exists. intros j. eapply during_post; [apply (during_evidence _ names)|].
  - intros e [->|He]%elem_of_cons; [left|right; by apply Hw].
  - done.
  - right. left.
  - intros ? v _ (t' & Ht' & Hk & Hw'). exists t'. split_and!; [done| |done]. intros e He. apply Hk; [by right|]. by apply Hin, Hw.
Qed.
End Temporary.

(** ** The publication appears *)

(** The base manifest is the one that was there. *)
Definition from_base (metadata : option json) : Prop :=
  ∀ m, metadata = Some m → ∃ b f, previous a = Some b ∧ file_at v0 (b ++ [MANIFEST]) = Some f ∧ loads_text (bytes f) = Ok m.
(** The destination holds exactly the regular files of the inputs, the package of these files
    under their names, and the manifest that lists them. *)
Definition published (inputs : list (path * path)) (recorded : json) (v : volume) : Prop :=
  let files := regular v0 (sort_by fst inputs) in
  (∀ e, e ∈ files → ∃ f g, file_at v0 e.2 = Some f ∧ file_at v (destination a ++ e.1) = Some g ∧ alike f g) ∧
  (∀ rel i, nodes v !! (destination a ++ rel) = Some (File i) → rel ∈ files.*1 ∨ rel = [ARCHIVE] ∨ rel = [MANIFEST]) ∧
  (∃ contents, file_at v (destination a ++ [ARCHIVE]) = Some (Contents (tar_gz contents) 292) ∧
    Forall2 (λ e c, c.1 = join "/" e.1 ∧ file_at v (destination a ++ e.1) = Some c.2) files contents) ∧
  ∃ f, file_at v (destination a ++ [MANIFEST]) = Some f ∧ bytes f = encode (manifest a (entry_of v0 <$> files) recorded) +:+ NEWLINE.
Definition released (v : volume) : Prop :=
  ∃ v1 metadata inputs recorded, P v1 ∧ from_base metadata ∧ select_inputs a v1 metadata = Ok inputs ∧ published inputs recorded v.
Definition appeared (v : volume) : Prop := untouched (λ p, zone p || inside (destination a) p) grown v0 v ∧ released v.
(** The publication is the one of the base. *)
Definition same_as_base (d : path) : Prop :=
  previous a = Some d ∧ ∃ v1 metadata inputs, P v1 ∧ from_base metadata ∧ select_inputs a v1 metadata = Ok inputs ∧
    in_base v0 (Some d) (sort_by fst inputs) ∧
    ∃ m listed, metadata = Some m ∧ index "files" m = Ok listed ∧ py_eqb (JArr (entry_of v0 <$> regular v0 (sort_by fst inputs))) listed = true.

Lemma appeared_del v q : appeared v → zone q = true → appeared (del_node q v).
Proof using Hfit.
  intros [Hu (v1 & m & inputs & recorded & Hv1 & Hm & Hs & Hf & Honly & (contents & Hpk & Hct) & f & Hmf & Hb)] Hq. split; [apply untouched_del; [done|by rewrite Hq]|].
  assert (∀ rel, nodes (del_node q v) !! (destination a ++ rel) = nodes v !! (destination a ++ rel)) as Hsame.
  { intros rel. simpl. apply lookup_delete_ne. intros ->. destruct (dest_quiet (destination a ++ rel)); [apply below_app|congruence]. }
  assert (∀ rel, file_at (del_node q v) (destination a ++ rel) = file_at v (destination a ++ rel)) as Hfile
    by (intros rel; unfold file_at; by rewrite Hsame).
  exists v1, m, inputs, recorded. split_and!; [done..|]. split_and!.
  - intros e He. rewrite Hfile. by apply Hf.
  - intros rel i. rewrite Hsame. apply Honly.
  - exists contents. split; [by rewrite Hfile|]. eapply Forall2_impl; [exact Hct|]. intros e c ?. by rewrite Hfile.
  - exists f. by rewrite Hfile.
Qed.

(** The names of the staged files *)
Definition staged_names (inputs : list (path * path)) : list path := (λ e, "payload" :: e.1) <$> regular v0 (sort_by fst inputs).
Lemma regular_input metadata inputs e v1 : select_inputs a v1 metadata = Ok inputs → e ∈ sort_by fst inputs → input_of metadata e.
Proof. intros Hs He. rewrite sort_by_perm in He. by apply (inputs_spec _ _ _ Hs). Qed.
Lemma regular_names metadata inputs e v1 x :
  select_inputs a v1 metadata = Ok inputs → from_base metadata → e ∈ regular v0 (sort_by fst inputs) → x ∈ [MANIFEST; ARCHIVE] → e.1 ≠ [x].
Proof using Hfit.
  intros Hs Hm [Hreg He]%elem_of_keep Hx Hex. destruct (regular_input _ _ _ _ Hs He) as [_ [Ho|(b & m & l & entry & Hb & -> & Hl & Hin & Hp & Ho)]].
  - rewrite Ho, Hex, (fit_names Hfit) in Hreg by done. done.
  - destruct (Hm m eq_refl) as (b' & f & Hb' & Hf & Hld). simplify_eq. rewrite Hex in Hp.
    by eapply (fit_listed Hfit _ f m l entry x).
Qed.

Lemma regular_path metadata inputs e v1 :
  select_inputs a v1 metadata = Ok inputs → e ∈ regular v0 (sort_by fst inputs) → posix_parts (join "/" e.1) = e.1.
Proof using Hfit.
  intros Hs [Hreg He]%elem_of_keep. destruct (regular_input _ _ _ _ Hs He) as [_ [Ho|(b & m & l & entry & Hb & _ & _ & _ & _ & Ho)]].
  - apply (fit_paths Hfit (source a)); [by left|by rewrite <-Ho].
  - apply (fit_paths Hfit b); [by right|by rewrite <-Ho].
Qed.

(** Ready for the rename *)
Definition ready (temp : path) (inputs : list (path * path)) (recorded : json) (v : volume) : Prop :=
  ∃ t, tabled temp t v ∧ within ([["source-manifest.json"]; ["payload"; MANIFEST]; ["payload"; ARCHIVE]; ["inputs.tar.gz"]] ++ staged_names inputs) t ∧
    (∀ e, e ∈ regular v0 (sort_by fst inputs) → ∃ i f g, ("payload" :: e.1, (i, g)) ∈ t ∧ file_at v0 e.2 = Some f ∧ alike f g) ∧
    packed_in t (regular v0 (sort_by fst inputs)) ∧
    ∃ i, (["payload"; MANIFEST], (i, Contents (encode (manifest a (entry_of v0 <$> regular v0 (sort_by fst inputs)) recorded) +:+ NEWLINE) 420)) ∈ t.

Lemma during_appear x metadata inputs recorded v1 :
  let temp := dir ++ [prefix +:+ x] in
  P v1 → from_base metadata → select_inputs a v1 metadata = Ok inputs →
  during (λ v, P v ∨ appeared v) (λ v, P v ∧ ready temp inputs recorded v) (rename (temp ++ ["payload"]) (destination a)) (λ _, appeared).
Proof using Hfit.
  intros temp Hv1 Hm Hs s HP [Hu (t & Ht & Hw & Hf & (ai & contents & Hai & Hct) & j & Hj)].
  assert (∀ rel, nodes (move (temp ++ ["payload"]) (destination a) (now s)) !! (destination a ++ rel) = nodes (now s) !! (temp ++ "payload" :: rel)) as Hmv.
  { intros rel. by rewrite lookup_moved_tree, <-app_assoc. }
  assert (appeared (move (temp ++ ["payload"]) (destination a) (now s))) as Ha.
  { split.
    - apply untouched_move; [by apply (untouched_wider zone grown v0); [intros p ->|]| |].
      + intros p [r ->]%below_inv. rewrite <-app_assoc. unfold temp. by rewrite temp_zone.
      + intros p Hp. rewrite Hp. apply orb_true_r.
    - exists v1, metadata, inputs, recorded. split_and!; [done..|]. split_and!.
      + intros e He. destruct (Hf e He) as (i & f & g & Hin & Hf0 & Hal). exists f, g. split_and!; [done| |done].
        unfold file_at. rewrite Hmv. exact (tabled_at _ _ _ _ _ _ Ht Hin).
      + intros rel i. rewrite Hmv. intros Hi. destruct (proj1 Ht _ _ Hi) as [f Hin]. apply Hw in Hin. simpl in Hin.
        rewrite !elem_of_cons in Hin. destruct Hin as [?|[[= ->]|[[= ->]|[?|Hin]]]]; [done|by auto|by auto|done|].
        left. apply list_elem_of_fmap in Hin as (e & [= ->] & He). apply list_elem_of_fmap. by exists e.
      + exists contents. split; [unfold file_at; rewrite Hmv; exact (tabled_at _ _ _ _ _ _ Ht Hai)|]. eapply Forall2_impl; [exact Hct|].
        intros e c [Hc [k Hk]]. split; [done|]. unfold file_at. rewrite Hmv. exact (tabled_at _ _ _ _ _ _ Ht Hk).
      + eexists (Contents _ 420). split; [|reflexivity]. unfold file_at. rewrite Hmv. exact (tabled_at _ _ _ _ _ _ Ht Hj). }
  apply (during_rename_tree (λ v, P v ∨ appeared v) appeared (now s)); [|by right|done|done|done].
  intros i E. destruct (proj1 Ht _ _ E) as [f Hin]. apply Hw in Hin. simpl in Hin. rewrite !elem_of_cons in Hin.
  destruct Hin as [?|[?|[?|[?|Hin]]]]; try done. apply list_elem_of_fmap in Hin as (e & [= He] & Hin).
  apply elem_of_keep in Hin as [_ Hin]. destruct (regular_input _ _ _ _ Hs Hin) as [Hne _]. done.
Qed.

Abbreviation PP := (λ v, P v ∨ appeared v).
(** A command before the rename *)
Lemma before {A} R (m : IO A) Q : during P R m Q → during PP (λ v, P v ∧ R v) m (λ r v, P v ∧ Q r v).
Proof. intros Hm. apply (during_widen _ _ _ _ _ Hm). by left. Qed.

(** From the staged files to the rename *)
Lemma during_assemble x metadata inputs v1 new :
  let temp := dir ++ [prefix +:+ x] in
  from_base metadata → select_inputs a v1 metadata = Ok inputs → within (staged_names inputs) new →
  (∀ e, e ∈ regular v0 (sort_by fst inputs) → ∃ i f g, ("payload" :: e.1, (i, g)) ∈ new ∧ file_at v0 e.2 = Some f ∧ alike f g) →
  during P (tabled temp new) (assemble a metadata temp (entry_of v0 <$> regular v0 (sort_by fst inputs))) (λ recorded, ready temp inputs recorded).
Proof using Hfit.
  intros temp Hm Hs Hw Hst. unfold assemble. cbv zeta.
  assert (∀ z n, z ≠ "payload" → n ∈ staged_names inputs → inside [z] n = false) as Hout.
  { intros z n Hz (y & -> & _)%list_elem_of_fmap. rewrite below_cons. by rewrite bool_decide_false. }
  assert (∀ z, z ∈ [MANIFEST; ARCHIVE] → ["payload"; z] ∉ staged_names inputs) as Hsp.
  { intros z Hz (y & [= Hy] & Hin)%list_elem_of_fmap. by apply (regular_names _ _ _ _ _ Hs Hm Hin Hz). }
  eapply during_bind; [apply (during_record_sources x new (staged_names inputs)); [done|intros n; by apply Hout]|]. intros recorded.
  apply during_adds. intros t1 Hk1 Hw1.
  eapply during_bind; [apply (during_package x t1 _ _ Hw1)|].
  { intros [?|?]%elem_of_cons; [done|]. by apply (Hsp ARCHIVE ltac:(right; left)). }
  { intros e He. destruct (Hst e He) as (k & f & g & Hin & Hf & _). split_and!; [|by exists f|exists k, g; by apply Hk1].
    by apply (regular_path metadata inputs e v1). }
  intros ?. apply during_exists. intros t2. apply during_fact. intros (Hpk & Hk2 & Hw2).
  set (text := encode _ +:+ NEWLINE). rewrite (target_temp temp [MANIFEST]).
  eapply during_bind; [apply (during_write zone grown v0 temp (temp_zone x) t2 ["payload"; MANIFEST] text)|].
  { apply (within_fresh _ _ _ Hw2). rewrite !elem_of_cons. intros [?|[?|?]]; [done..|]. by apply (Hsp MANIFEST ltac:(left)). }
  intros ?. apply during_exists. intros i. apply during_fact. intros _. set (t3 := _ :: t2).
  assert (within (["payload"; MANIFEST] :: ["payload"; ARCHIVE] :: ["inputs.tar.gz"] :: staged_names inputs) t3) as Hw3.
  { intros e [->|He]%elem_of_cons; [left|right; by apply Hw2]. }
  assert (∀ v, adds x t3 (["payload"; MANIFEST] :: ["payload"; ARCHIVE] :: ["inputs.tar.gz"] :: staged_names inputs) ["source-manifest.json"] v →
    ready temp inputs recorded v) as Hready.
  { intros v (t4 & Ht4 & Hk4 & Hw4). exists t4. split_and!; [done|exact Hw4| |by eapply packed_in_mono, packed_in_mono; [..|exact Hpk]; [exact Hk4|by right]|exists i; apply Hk4; left].
    intros e He. destruct (Hst e He) as (j & f & g & Hin & Hf & Hal). exists j, f, g. split_and!; [|done..]. apply Hk4. right. by apply Hk2, Hk1. }
  apply (during_bind _ _ _ _ (λ _, ready temp inputs recorded)); [|intros ?; by apply during_ret].
  destruct (bool_decide _ && bool_decide _); simpl.
  - eapply during_post; [apply (during_keep_manifest x t3 _ (Contents text 420) Hw3)|intros ? v _; apply Hready].
    + rewrite !elem_of_cons. intros [?|[?|[?|Hin]]]; [done..|]. by apply list_elem_of_fmap in Hin as (? & [=] & _).
    + intros n. rewrite !elem_of_cons. intros [->|[->|[->|Hin]]]; [done..|by apply Hout].
    + exists i. left.
  - apply during_ret. intros v _ Ht3. apply Hready. exists t3. split_and!; [done..|]. intros e He. right. by apply Hw3.
Qed.

Lemma during_publish_staged x metadata base_files inputs v1 :
  let temp := dir ++ [prefix +:+ x] in
  P v1 → from_base metadata → select_inputs a v1 metadata = Ok inputs →
  (∀ listed, base_files = Some listed → ∃ m, metadata = Some m ∧ index "files" m = Ok listed) →
  during PP (λ v, P v ∧ tabled temp [] v) (publish_staged a metadata base_files inputs temp)
    (λ d v, d = destination a ∧ appeared v ∨ same_as_base d).
Proof using Hfit.
  intros temp Hv1 Hm Hs Hbf. unfold publish_staged. cbv zeta.
  assert (∀ rel, zone (temp ++ rel) = true) as Htz by (intros rel; apply temp_zone).
  eapply during_bind; [apply before, during_mkdir; [apply tabled_grows|apply Htz]|]. intros ?.
  eapply during_bind.
  { apply before, (during_stage zone grown v0 (fit_sound Hfit) temp Htz (temp_parents x)).
    - rewrite sort_by_perm. by apply (inputs_spec _ _ _ Hs).
    - intros e He. split; [|apply not_elem_of_nil]. destruct (regular_input _ _ _ _ Hs He) as [_ [->|(b & ? & ? & ? & Hb & _ & _ & _ & _ & ->)]].
      + apply (fit_source Hfit), below_app.
      + by eapply (fit_base Hfit), below_app.
    - intros b rel Hb. by eapply (fit_base Hfit), below_app. }
  intros [files linked]. eapply during_pre; [apply (during_exists _ (λ new v, staged v0 (previous a) (sort_by fst inputs) [] new (files, linked) ∧
    P v ∧ tabled temp new v))|by intros v _ [Hu (new & Ht & Hst)]; exists new]. intros new.
  apply during_fact. intros (Hfiles & Hst & Hnames & _ & Hall). simpl in Hfiles, Hall. subst files.
  destruct (reuses a base_files _) as [d|] eqn:Er.
  - apply during_ret. intros v _ _. right. unfold reuses in Er. destruct (previous a) as [b|] eqn:Eb; [|done].
    destruct base_files as [listed|]; [|done]. cbn [fst snd] in Er. case_match; [|done]. injection Er as <-.
    apply andb_true_iff in H2 as [-> Eq]. destruct (Hbf listed eq_refl) as (m & -> & Hl). split; [done|]. exists v1, (Some m), inputs.
    split_and!; try done; [by apply Hall|]. by exists m, listed.
  - eapply during_bind; [eapply before, (during_assemble x metadata inputs v1 new); [done..| |done]|].
    + intros e He. destruct (Hnames e He) as [Hn|(rel & Hrel & ->)]; [by apply not_elem_of_nil in Hn|].
      apply list_elem_of_fmap in Hrel as (y & -> & Hy). apply list_elem_of_fmap. by exists y.
    + intros recorded. eapply during_bind; [by eapply during_appear|]. intros ?. apply during_ret. intros v _ Ha. by left.
Qed.

(** ** [publish] *)

Lemma reusable_files_listed m listed : reusable_files a m = Ok (Some listed) → index "files" m = Ok listed.
Proof.
  unfold reusable_files. intros Hr. repeat (case_match; [done|]; steps Hr). steps Hr. repeat (case_match; [done|]; steps Hr). by injection Hr as ->.
Qed.

Definition outcome_of (d : path) (v : volume) : Prop :=
  d = destination a ∧ (is_file v0 (destination a ++ [MANIFEST]) = true ∨ appeared v) ∨ same_as_base d.
Lemma during_publish : during PP (λ v, P v ∧ unused dir prefix v) (publish a) outcome_of.
Proof using Hfit.
  unfold publish. cbv zeta. fold prefix.
  apply (during_bind _ _ _ _ (λ _ v, P v ∧ unused dir prefix v)).
  { destruct (release_owned a) eqn:Er; simpl; [by apply during_ret|]. apply before.
    replace (staging_prefix (binding a)) with prefix by (unfold prefix; by rewrite Er). apply during_clear; [by intros q Hq; unfold zone; rewrite Hq|].
    intros v q _ Hun n rel. simpl. apply lookup_delete_None. right. apply Hun. }
  intros ?. apply during_now. intros v _ [Hu Hun]. destruct (is_file v (destination a ++ [MANIFEST])) eqn:Em.
  { apply during_ret. intros v' _ _. left. split; [done|]. left. unfold is_file. by rewrite <-(hidden v _ Hu (below_app _ _)). }
  destruct (negb (is_dir v (source a))); [apply during_throw|].
  apply (during_bind _ _ _ _ (λ metadata v', from_base metadata ∧ v' = v)).
  { destruct (previous a) as [b|] eqn:Eb; [|apply during_ret; by intros v' _ ->]. destruct (is_file v (b ++ [MANIFEST])); [|apply during_ret; by intros v' _ ->].
    unfold read_json, read_file. apply (during_bind _ _ _ _ (λ j v', from_base (Some j) ∧ v' = v)); [|intros j; apply during_ret; auto].
    apply (during_bind _ _ _ _ (λ f v', file_at v (b ++ [MANIFEST]) = Some f ∧ v' = v)).
    - apply during_now. intros v' _ ->. destruct (file_at v (b ++ [MANIFEST])); [|apply during_throw]. by apply during_ret.
    - intros f. apply during_fact. intros Hf. apply during_pure. intros j v' Hj _ ->. split; [|done]. intros m [= <-]. exists b, f. split_and!; [done| |done].
      eapply untouched_file_at; [apply (fit_sound Hfit)|exact Hu|by apply (fit_base Hfit b), below_app|done]. }
  intros metadata. apply during_fact. intros Hm.
  apply (during_bind _ _ _ _ (λ base_files v', (∀ listed, base_files = Some listed → ∃ m, metadata = Some m ∧ index "files" m = Ok listed) ∧ v' = v)).
  { destruct metadata as [m|]; [|apply during_ret; by intros v' _ ->]. apply during_pure. intros base_files v' Hb _ ->. split; [|done].
    intros listed ->. exists m. split; [done|]. by apply reusable_files_listed. }
  intros base_files. apply during_fact. intros Hbf. apply during_pure_bind. intros inputs Hs.
  apply (during_bind _ _ _ _ (λ _ v', P v' ∧ unused dir prefix v')).
  { eapply during_pre; [apply before, (during_mkdir_parents _ _ _ (unused dir prefix))|by intros v' _ ->].
    - intros v' q [r Hr]%below_inv Hun' _ n rel. simpl. rewrite lookup_insert_ne; [apply Hun'|]. intros Hq. rewrite Hq in Hr.
      apply (f_equal length) in Hr. rewrite !length_app in Hr. simpl in Hr. lia.
    - intros q _ Hq. unfold grown. rewrite Hq. apply orb_true_r. }
  intros ?. eapply during_post; [apply (during_temporary _ _ _ _ _ (λ temp v, P v ∧ tabled temp [] v))|].
  - intros n v' temp _ [Hu' Hun']. assert (P (set_node temp Dir v')) as HP.
    { apply untouched_node; [done|]. unfold temp. apply (zone_temp (unique n) []). }
    split; [by left|]. split; [done|by apply tabled_new].
  - intros n. by eapply during_publish_staged.
  - intros n v' q [r ->]%below_inv. assert (zone ((dir ++ [prefix +:+ unique n]) ++ r) = true) as Hz by (rewrite <-app_assoc; apply zone_temp).
    intros [HP|HA]; [left; by apply untouched_del|right; by apply appeared_del].
  - intros n d v' q [r ->]%below_inv. assert (zone ((dir ++ [prefix +:+ unique n]) ++ r) = true) as Hz by (rewrite <-app_assoc; apply zone_temp).
    intros [[-> HA]|Hb]; [left; split; [done|by apply appeared_del]|by right].
  - intros d v' _ [[-> HA]|Hb]; [left; split; [done|by right]|by right].
Qed.
End Publication.

(** C9: A publication appears at once and complete, and disturbs nothing, where the destination lies apart from the export and
    the base, the staging name is new and no input takes the name of the manifest or of the package ([fit]).  At every
    moment of a run of [publish], wherever it fails or is killed, either nothing has changed but the publisher's
    staging directories, the source evidence of this publication and new parent directories, or, in addition, the
    destination holds exactly the selected regular files with the bytes and the normalised mode of their
    origins, the package, read-only, of exactly these files under their names, and the manifest that lists them; and no
    file that existed before has changed under any name.  What [publish] returns is the destination, published before
    or now, or the base, when every selected file is the same there and its manifest lists the same files. *)
Theorem publish_atomic `{System} `{JsonText} `{JsonEncoder} (a : publication) (v0 : volume) :
  fit a v0 →
  (∀ v, v ∈ moments (publish a (Site v0 [])).2 → untouched (zone a) (grown a) v0 v ∨ appeared a v0 v) ∧
  ∀ d, (publish a (Site v0 [])).1 = Returned d →
    d = destination a ∧ (is_file v0 (destination a ++ [MANIFEST]) = true ∨ appeared a v0 (now (publish a (Site v0 [])).2)) ∨
    same_as_base a v0 d.
Proof.
  intros Hfit. pose proof (untouched_start (zone a) (grown a) v0) as Hstart.
  destruct (during_publish a v0 Hfit (Site v0 [])) as (l & Hl & Hf & Hr); [by left|split; [done|apply (fit_unused _ _ Hfit)]|]. split.
  - intros v Hv. rewrite Hl in Hv. apply elem_of_app in Hv as [Hv|[->|Hv]%elem_of_cons]; [|by left|by apply not_elem_of_nil in Hv].
    by apply (proj1 (Forall_forall _ _) Hf).
  - intros d Hd. by rewrite Hd in Hr.
Qed.
