(* ===== verification/CommitProofs.v ===== *)
(** * Retirement and the record of a build

    [retire] removes exactly the versions of its owner that nobody keeps, and at
    no moment anything else.  [publish_build] commits the record of a build with its input
    archive at once, and only where every application that the record names is published. *)

From stdpp Require Import gmap.
From S2P Require Import Prelude Text Kube Effects Client Instances Consumers Volume VolumeProofs Publish PublishProofs.

Section Progress.
Context (P : volume → Prop) {A : Type} (R : list A → volume → Prop).
(** Loops whose state tells which elements are dealt with *)
Lemma during_each_done l f gone :
  (∀ x gone, x ∈ l → during P (R gone) (f x) (λ _, R (x :: gone))) → during P (R gone) (each l f) (λ _, R (reverse l ++ gone)).
Proof.
  revert gone. induction l as [|x l IH]; intros gone Hf; simpl; [by apply during_ret|].
  eapply during_bind; [apply Hf; left|]. intros ?. rewrite reverse_cons, <-app_assoc. apply IH. intros y gone' Hy. apply Hf. by right.
Qed.
Lemma during_collect_done {B} (S : A → B → Prop) (f : A → IO B) l gone :
  NoDup l → (∀ x, x ∈ l → x ∉ gone) →
  (∀ x gone, x ∈ l → x ∉ gone → during P (R gone) (f x) (λ y v, R (x :: gone) v ∧ S x y)) →
  during P (R gone) (collect f l) (λ ys v, R (reverse l ++ gone) v ∧ Forall2 S l ys).
Proof.
  revert gone. induction l as [|x l IH]; intros gone Hnd Hg Hf; simpl; [apply during_ret; by auto|].
  apply NoDup_cons in Hnd as [Hx Hnd].
  apply (during_bind _ _ _ _ (λ y v, S x y ∧ R (x :: gone) v)).
  { eapply during_post; [apply Hf; [left|apply Hg; left]|]. naive_solver. }
  intros y. apply during_fact. intros Hy. eapply during_bind.
  { apply (IH (x :: gone) Hnd); [|intros z gone' Hz; apply Hf; by right]. intros z Hz [->|Hz']%elem_of_cons; [done|]. apply (Hg z); [by right|done]. }
  intros ys. apply during_ret. intros v _ [HR HS]. rewrite reverse_cons, <-app_assoc. auto.
Qed.
End Progress.

Section Retire.
Context `{System} `{JsonText} (directory : path) (binding : string) (kept : list string) (release_owned : bool) (v0 : volume).

(** An entry of the directory *)
Definition version_at (version : path) : Prop := parent version = directory ∧ version ≠ [] ∧ is_Some (nodes v0 !! version).
Lemma elem_of_entries x : x ∈ entries v0 directory ↔ version_at x.
Proof.
  unfold entries. rewrite scan_perm, elem_of_keep, andb_true_iff, !bool_decide_eq_true, elem_of_paths. unfold version_at. tauto.
Qed.
Lemma NoDup_entries : NoDup (entries v0 directory).
Proof. unfold entries. rewrite scan_perm. apply NoDup_filter, NoDup_fst_map_to_list. Qed.
(** The manifest of a version, and whether the version is the publisher's own *)
Definition manifest_of (version : path) (m : json) : Prop :=
  ∃ f, file_at v0 (version ++ [MANIFEST]) = Some f ∧ loads_text (bytes f) = Ok m.
Definition own_version (version : path) : Prop :=
  version_at version ∧ ∃ m, manifest_of version m ∧ owned_version release_owned binding m = Ok true.
Definition doomed (version : path) : Prop := own_version version ∧ name version ∉ kept.

(** Only files of doomed versions disappear. *)
Definition spared (v : volume) : Prop :=
  inodes v = inodes v0 ∧
  ∀ p, nodes v !! p = nodes v0 !! p ∨ nodes v !! p = None ∧ ∃ version, doomed version ∧ inside version p = true.

(** The versions in [l] are dealt with, the others of the directory are as they were. *)
Definition retired (l : list path) (v : volume) : Prop :=
  (∀ x, x ∈ l → doomed x → ∀ p, inside x p = true → nodes v !! p = None) ∧
  (∀ x, parent x = directory → x ≠ [] → x ∉ l → ∀ p, inside x p = true → nodes v !! p = nodes v0 !! p).

Lemma children_apart x y p :
  parent x = directory → parent y = directory → x ≠ [] → y ≠ [] → inside x p = true → inside y p = true → x = y.
Proof.
  intros Hx Hy Hnx Hny [r ->]%below_inv [s Hs]%below_inv. unfold parent in *.
  destruct x as [|a x] using rev_ind; [done|]. destruct y as [|b y] using rev_ind; [done|]. rewrite removelast_last in Hx, Hy. subst.
  rewrite <-!app_assoc in Hs. by apply app_inv_head in Hs as [= -> _].
Qed.

Lemma retired_file x l v : spared v → retired l v → parent x = directory → x ≠ [] → x ∉ l → file_at v (x ++ [MANIFEST]) = file_at v0 (x ++ [MANIFEST]).
Proof. intros [Hi _] [_ Hr] Hp Hn Hx. unfold file_at. by rewrite (Hr x Hp Hn Hx _ (below_app _ _)), Hi. Qed.

(** The tree of a doomed version goes entry by entry. *)
Lemma during_rmtree_gone l x :
  doomed x → during spared (retired l) (rmtree x) (λ _, retired (x :: l)).
Proof.
  intros Hd. pose proof Hd as (((Hp & Hne & _) & _) & _). unfold rmtree. apply during_now. intros v Hs Hr.
  destruct (nodes v !! x) as [[]|]; try by apply during_throw. set (todo := scan _).
  eapply during_post; [eapply during_pre; [apply (during_each_done spared (λ l v', ∀ p, nodes v' !! p = if bool_decide (p ∈ l) then None else nodes v !! p) todo _ [])|]|].
  - intros q gone Hq. apply during_alter. intros v' [Hi Hs'] Hg. unfold todo in Hq. rewrite scan_perm in Hq. apply elem_of_keep in Hq as [Hin _]. split.
    + split; [done|]. intros p. simpl. destruct (decide (q = p)) as [<-|Hne'].
      * right. rewrite lookup_delete_eq. split; [done|]. by exists x.
      * rewrite lookup_delete_ne by done. apply Hs'.
    + intros p. simpl. destruct (decide (q = p)) as [<-|Hne'].
      * rewrite lookup_delete_eq, bool_decide_true; [done|left].
      * rewrite lookup_delete_ne, Hg by done. erewrite (bool_decide_ext (p ∈ gone)); [done|]. rewrite elem_of_cons. naive_solver.
  - intros v' _ -> p. by rewrite bool_decide_false by apply not_elem_of_nil.
  - intros ? v' _ Hg. rewrite app_nil_r in Hg. assert (∀ p, inside x p = true → nodes v' !! p = None) as Hgone.
    { intros p Hin. rewrite Hg. case_bool_decide as Hp'; [done|]. destruct (nodes v !! p) eqn:En; [|done]. exfalso. apply Hp'.
      rewrite elem_of_reverse. unfold todo. rewrite scan_perm. apply elem_of_keep. split; [done|]. apply elem_of_paths. by eexists. }
    split.
    + intros y [->|Hy]%elem_of_cons Hdy p Hin; [by apply Hgone|]. rewrite Hg. case_bool_decide; [done|]. by eapply (proj1 Hr).
    + intros y Hpy Hny Hyl p Hin. rewrite Hg. apply not_elem_of_cons in Hyl as [Hyx Hyl]. rewrite bool_decide_false; [by eapply (proj2 Hr)|].
      rewrite elem_of_reverse. unfold todo. rewrite scan_perm. intros [Hin' _]%elem_of_keep. by eapply Hyx, children_apart.
Qed.

Lemma during_retire_version l x :
  version_at x → x ∉ l →
  during spared (retired l) (retire_version binding kept release_owned x)
    (λ r v, retired (x :: l) v ∧ (∀ n, n ∈ r ↔ n = name x ∧ own_version x ∧ n ∈ kept)).
Proof.
  intros Hat Hx. pose proof Hat as (Hp & Hne & _). unfold retire_version. apply during_now. intros v Hs Hr.
  assert (¬ doomed x → retired (x :: l) v) as Hkeep.
  { intros Hd. split; [intros y [->|Hy]%elem_of_cons; [done|by apply Hr]|]. intros y Hpy Hny Hyl. apply Hr; [done..|]. set_solver. }
  pose proof (retired_file x l v Hs Hr Hp Hne Hx) as Hfile.
  destruct (is_file v (x ++ [MANIFEST])) eqn:Em; cbn [negb].
  2:{ assert (¬ own_version x) as Ho.
      { intros (_ & m & (f & Hf & _) & _). rewrite <-Hfile in Hf. unfold is_file in Em. unfold file_at in Hf.
        destruct (nodes v !! (x ++ [MANIFEST])) as [[]|]; done. }
      apply during_ret. intros v' _ ->. split; [apply Hkeep; by intros [? _]|]. intros n. rewrite elem_of_nil. tauto. }
  unfold read_json, read_file.
  apply (during_bind _ _ _ _ (λ m v', manifest_of x m ∧ v' = v)).
  { apply (during_bind _ _ _ _ (λ f v', file_at v (x ++ [MANIFEST]) = Some f ∧ v' = v)).
    - apply during_now. intros v' _ ->. destruct (file_at v (x ++ [MANIFEST])); [|apply during_throw]. by apply during_ret.
    - intros f. apply during_fact. intros Hf. apply during_pure. intros m v' Hm _ ->. split; [|done]. exists f. by rewrite <-Hfile. }
  intros m. apply during_fact. intros Hm. apply during_pure_bind. intros owned Ho.
  assert (own_version x ↔ owned = true) as Hown.
  { split; [|intros ->; by split; [|exists m]]. intros (_ & m' & (f & Hf & Hl) & Ho'). destruct Hm as (f' & Hf' & Hl'). congruence. }
  destruct owned; cbn [negb].
  2:{ apply during_ret. intros v' _ ->. split; [apply Hkeep; intros [Hd _]; by apply Hown in Hd|]. intros n. rewrite elem_of_nil. naive_solver. }
  destruct (mem (name x) kept) eqn:Ek; [apply mem_true in Ek|apply mem_false in Ek].
  { apply during_ret. intros v' _ ->. split; [apply Hkeep; by intros [_ ?]|]. intros n. rewrite list_elem_of_singleton. naive_solver. }
  assert (doomed x) as Hd by (split; [by apply Hown|done]).
  eapply during_bind; [|intros ?; apply during_ret; intros v' _ Hv'; split; [exact Hv'|intros n; rewrite elem_of_nil; naive_solver]].
  eapply during_pre; [by apply (during_rmtree_gone l x)|by intros v' _ ->].
Qed.

Lemma retired_start : retired [] v0.
Proof. split; [by intros x ?%not_elem_of_nil|done]. Qed.

Lemma during_retire :
  during spared (λ v, v = v0) (retire directory binding kept release_owned)
    (λ r v, (∀ version, doomed version → ∀ p, inside version p = true → nodes v !! p = None) ∧
            ∀ n, n ∈ r ↔ n ∈ kept ∧ ∃ version, own_version version ∧ name version = n).
Proof.
  unfold retire, iterdir.
  apply (during_bind _ _ _ _ (λ l v, l = entries v0 directory ∧ retired [] v)).
  { apply during_now. intros v _ ->. destruct (is_dir v0 directory); [|apply during_throw].
    apply during_ret. intros v _ ->. split; [done|apply retired_start]. }
  intros l. apply during_fact. intros ->.
  eapply during_bind.
  - apply (during_collect_done spared retired (λ x r, ∀ n, n ∈ r ↔ n = name x ∧ own_version x ∧ n ∈ kept)).
    + apply NoDup_entries.
    + intros x _. apply not_elem_of_nil.
    + intros x gone Hx Hg. apply during_retire_version; [by apply elem_of_entries|done].
  - intros ys. apply during_ret. intros v _ [[Hgone _] Hys]. split.
    + intros x Hd p Hin. eapply Hgone; [|done|done]. rewrite app_nil_r, elem_of_reverse. apply elem_of_entries, Hd.
    + intros n. rewrite list_elem_of_In, in_concat. setoid_rewrite <-list_elem_of_In. split.
      * intros (ns & (j & Hj)%list_elem_of_lookup & Hn). destruct (Forall2_lookup_r _ _ _ _ _ Hys Hj) as (x & _ & Hx).
        destruct (proj1 (Hx n) Hn) as (-> & Ho & Hk). split; [done|]. by exists x.
      * intros [Hk (x & Ho & <-)]. pose proof (proj2 (elem_of_entries x) (proj1 Ho)) as (j & Hj)%list_elem_of_lookup.
        destruct (Forall2_lookup_l _ _ _ _ _ Hys Hj) as (ns & Hns & Hx). exists ns. split; [by eapply list_elem_of_lookup_2|by apply Hx].
Qed.
End Retire.

(** C12: Retirement removes exactly the versions of its owner that nobody keeps.  At every moment of a run of [retire], also
    one that fails or is killed, everything else is in place: only entries of versions that the owner's
    manifest marks as its own and that are not kept can be missing, and no file has changed.  When it
    returns, nothing of those versions is left, and the result
    is exactly the names of the owner's versions that are kept. *)
Theorem retire_exact `{System} `{JsonText} (directory : path) (binding : string) (kept : list string) (release_owned : bool) (v0 : volume) :
  let run := retire directory binding kept release_owned (Site v0 []) in
  (∀ v, v ∈ moments run.2 → spared directory binding kept release_owned v0 v) ∧
  ∀ r, run.1 = Returned r →
    (∀ version, doomed directory binding kept release_owned v0 version → ∀ p, inside version p = true → nodes (now run.2) !! p = None) ∧
    ∀ n, n ∈ r ↔ n ∈ kept ∧ ∃ version, own_version directory binding release_owned v0 version ∧ name version = n.
Proof.
  intros run. assert (spared directory binding kept release_owned v0 v0) as Hstart by (split; auto).
  destruct (during_retire directory binding kept release_owned v0 (Site v0 [])) as (l & Hl & Hf & Hr); [done|done|]. split.
  - intros v Hv. unfold run in Hv. rewrite Hl in Hv. apply elem_of_app in Hv as [Hv|[->|Hv]%elem_of_cons]; [|done|by apply not_elem_of_nil in Hv].
    by apply (proj1 (Forall_forall _ _) Hf).
  - intros r Hd. unfold run in Hd. by rewrite Hd in Hr.
Qed.

(** ** The record of a build *)

Section Build.
Context `{System} `{JsonText} `{JsonEncoder} (archive : path) (record : json) (target : path) (binding url : string) (v0 : volume).

Abbreviation dir := (parent target).
Abbreviation prefix := (staging_prefix binding).
Abbreviation origin := (parent (parent (parent target))).
Definition build_zone (p : path) : bool := in_staging dir prefix p.
Definition build_grown (q : path) : bool := inside q dir.
Abbreviation P := (untouched build_zone build_grown v0).

(** Where the publisher Job records builds: beside its staging directories, apart from the archive *)
Record build_fit := BuildFit {
  build_sound : sound v0;
  build_place : target ≠ [] ∧ startswith prefix (name target) = false;
  build_archive : build_zone archive = false;
  build_unused : unused dir prefix v0;
}.
Hypothesis Hfit : build_fit.

(** An application whose publication is complete *)
Definition application_published (e : string * json) : Prop :=
  ∃ revision, (v ← index "revision" e.2; path_of v) = Ok revision ∧ is_file v0 (origin ++ [e.1] ++ revision ++ [MANIFEST]) = true.
Definition record_text (items : list (string * json)) : string := encode (JObj (dset "archive" (JStr url) items)) +:+ NEWLINE.
(** The record is there: every application was, and the archive and the text are complete and read-only. *)
Definition committed (v : volume) : Prop :=
  untouched (λ p, build_zone p || inside target p) build_grown v0 v ∧
  ∃ applications items f,
    (b ← index "build" record; l ← index "applications" b; items_of l) = Ok applications ∧ items_of record = Ok items ∧
    Forall application_published applications ∧ file_at v0 archive = Some f ∧
    file_at v (target ++ ["inputs.tar.gz"]) = Some (Contents (bytes f) 292) ∧
    file_at v (target ++ ["build.json"]) = Some (Contents (record_text items) 292) ∧
    ∀ rel i, nodes v !! (target ++ rel) = Some (File i) → rel ∈ [["inputs.tar.gz"]; ["build.json"]].
Abbreviation PP := (λ v, P v ∨ committed v).

Lemma build_temp x rel : build_zone ((dir ++ [prefix +:+ x]) ++ rel) = true.
Proof. rewrite <-app_assoc. apply staging_temp. Qed.

Lemma during_ready applications :
  during P (λ v, v = v0) (each applications (application_ready origin)) (λ _ v, Forall application_published applications ∧ v = v0).
Proof.
  induction applications as [|e l IH]; simpl; [by apply during_ret|].
  apply (during_bind _ _ _ _ (λ _ v, application_published e ∧ v = v0)).
  - unfold application_ready. apply during_now. intros v _ ->. apply during_pure_bind. intros revision Hr.
    destruct (is_file v0 _) eqn:E; [|apply during_throw]. apply during_ret. intros v _ ->. split; [by exists revision|done].
  - intros ?. apply during_fact. intros He. eapply during_post; [apply IH|]. intros ? v _ [Hl ->]. split; [by constructor|done].
Qed.

(** Clearing the staging directory leaves the record. *)
Lemma target_apart r x : inside target ((dir ++ [prefix +:+ x]) ++ r) = false.
Proof using Hfit.
  destruct (inside target _) eqn:E; [|done]. apply below_inv in E as [k Hk]. destruct (build_place Hfit) as [Hne Hpl].
  destruct (exists_last Hne) as (p & y & Hy). unfold parent, name in *. rewrite Hy in Hpl, Hk. rewrite removelast_last in Hk. rewrite last_snoc in Hpl.
  rewrite <-!app_assoc in Hk. apply app_inv_head in Hk as [= <- _]. simpl in Hpl. by rewrite startswith_append in Hpl.
Qed.
Lemma committed_del r x v : committed v → committed (del_node ((dir ++ [prefix +:+ x]) ++ r) v).
Proof using Hfit.
  intros [Hu (applications & items & f & Ha & Hi & Hp & Hf & Hin & Htext & Honly)].
  assert (∀ rel, nodes (del_node ((dir ++ [prefix +:+ x]) ++ r) v) !! (target ++ rel) = nodes v !! (target ++ rel)) as Hsame.
  { intros rel. simpl. rewrite lookup_delete_ne; [done|]. intros Heq. pose proof (target_apart r x) as Hout. by rewrite Heq, below_app in Hout. }
  split; [apply untouched_del; [done|by rewrite build_temp]|]. exists applications, items, f.
  split_and!; [done..| | |intros rel i; rewrite Hsame; apply Honly]; unfold file_at; by rewrite Hsame.
Qed.

(** The staged files *)
Definition build_table (i j : nat) (f : file) (items : list (string * json)) : list (path * (nat * file)) :=
  [(["build"; "build.json"], (j, Contents (record_text items) 292)); (["build"; "inputs.tar.gz"], (i, Contents (bytes f) 292))].
Lemma committed_move x i j f items applications v :
  let temp := dir ++ [prefix +:+ x] in
  (b ← index "build" record; l ← index "applications" b; items_of l) = Ok applications → items_of record = Ok items →
  Forall application_published applications → file_at v0 archive = Some f →
  P v → tabled temp (build_table i j f items) v → committed (move (temp ++ ["build"]) target v).
Proof.
  intros temp Ha Hi Hp Hf Hu Ht.
  assert (∀ rel, nodes (move (temp ++ ["build"]) target v) !! (target ++ rel) = nodes v !! (temp ++ "build" :: rel)) as Hmv
    by (intros rel; by rewrite lookup_moved_tree, <-app_assoc).
  split.
  - apply untouched_move; [by apply (untouched_wider build_zone build_grown v0); [intros p ->|]| |].
    + intros p [r ->]%below_inv. rewrite <-app_assoc. unfold temp. by rewrite build_temp.
    + intros p Hin. rewrite Hin. apply orb_true_r.
  - exists applications, items, f. split_and!; [done..| | |].
    + unfold file_at. rewrite Hmv. refine (tabled_at _ _ _ _ _ _ Ht _). right. left.
    + unfold file_at. rewrite Hmv. refine (tabled_at _ _ _ _ _ _ Ht _). left.
    + intros rel k. rewrite Hmv. intros Hk. destruct (proj1 Ht _ _ Hk) as [g Hg]. unfold build_table in Hg.
      rewrite !elem_of_cons in Hg. destruct Hg as [[= -> _ _]|[[= -> _ _]|Hg]]; [right; left|left|by apply not_elem_of_nil in Hg].
Qed.

Lemma during_build_body x applications :
  let temp := dir ++ [prefix +:+ x] in
  (b ← index "build" record; l ← index "applications" b; items_of l) = Ok applications → Forall application_published applications →
  during PP (λ v, P v ∧ tabled temp [] v)
    (mkdir (temp ++ ["build"]) ;;
     copyfile archive ((temp ++ ["build"]) ++ ["inputs.tar.gz"]) ;;
     chmod ((temp ++ ["build"]) ++ ["inputs.tar.gz"]) 292 ;;
     items ← pure (items_of record);
     write_file ((temp ++ ["build"]) ++ ["build.json"]) (record_text items) ;;
     chmod ((temp ++ ["build"]) ++ ["build.json"]) 292 ;;
     rename (temp ++ ["build"]) target) (λ _, committed).
Proof using Hfit.
  intros temp Ha Hp. pose proof (build_temp x) as Hz. fold temp in Hz.
  assert (∀ A R (m : IO A) Q, during P R m Q → during PP (λ v, P v ∧ R v) m (λ r v, P v ∧ Q r v)) as before
    by (intros A R m Q Hm; apply (during_widen _ _ _ _ _ Hm); by left).
  rewrite <-!app_assoc. simpl.
  eapply during_bind; [apply before, during_mkdir; [apply tabled_grows|apply Hz]|]. intros ?.
  apply (during_bind _ _ _ _ (λ _ v, ∃ f i, file_at v0 archive = Some f ∧ own v0 i [] ∧ P v ∧ tabled temp [(["build"; "inputs.tar.gz"], (i, Contents (bytes f) 420))] v)).
  { eapply during_post; [apply before, (during_bind _ _ _ _ (λ f v, file_at v0 archive = Some f ∧ tabled temp [] v)
      (λ _ v, ∃ f i, file_at v0 archive = Some f ∧ own v0 i [] ∧ tabled temp [(["build"; "inputs.tar.gz"], (i, Contents (bytes f) 420))] v))|naive_solver].
    - apply during_read. intros v f Hu Ht Hf. split; [by eapply untouched_file_at; [apply build_sound|..|apply build_archive|]|done].
    - intros f. apply during_fact. intros Hf. eapply during_post; [apply (during_write _ _ _ temp Hz); apply not_elem_of_nil|]. naive_solver. }
  intros ?. apply during_exists. intros f. apply during_exists. intros i. apply during_fact. intros Hf. apply during_fact. intros Ho.
  eapply during_bind; [apply before, (during_chmod _ _ _ temp); [done|apply not_elem_of_nil]|]. intros ?.
  apply during_pure_bind. intros items Hi. cbn [bytes].
  set (t := [(["build"; "inputs.tar.gz"], (i, Contents (bytes f) 292))]).
  assert (["build"; "build.json"] ∉ t.*1) as Hnew by (unfold t; simpl; rewrite list_elem_of_singleton; done).
  eapply during_bind; [by apply before, (during_write _ _ _ temp Hz)|]. intros ?.
  eapply during_pre; [apply (during_exists _ (λ j v, own v0 j t ∧ P v ∧ tabled temp ((["build"; "build.json"], (j, Contents (record_text items) 420)) :: t) v))|naive_solver].
  intros j. apply during_fact. intros Hj. eapply during_bind; [by apply before, (during_chmod _ _ _ temp)|]. intros ? s HP [Hu Ht].
  assert (committed (move (temp ++ ["build"]) target (now s))) as Hc by (by apply (committed_move x i j f items applications)).
  apply (during_rename_tree PP committed (now s)); [|by right|done..].
  intros k E. destruct (proj1 Ht _ _ E) as [g Hg]. unfold t in Hg. rewrite !elem_of_cons in Hg.
  destruct Hg as [?|[?|Hg]]; [done..|by apply not_elem_of_nil in Hg].
Qed.

Lemma during_build :
  during PP (λ v, v = v0) (publish_build archive record target binding url)
    (λ _ v, is_file v0 (target ++ ["build.json"]) = true ∧ v = v0 ∨ committed v).
Proof using Hfit.
  assert (∀ A (R : volume → Prop) (m : IO A) Q, during P R m Q → during PP (λ v, P v ∧ R v) m (λ r v, P v ∧ Q r v)) as before
    by (intros A R m Q Hm; apply (during_widen _ _ _ _ _ Hm); by left).
  unfold publish_build. apply during_now. intros v _ ->. destruct (is_file v0 _) eqn:E; [apply during_ret; auto|].
  destruct (bool_decide (length target < 3)%nat); [apply during_throw|].
  apply during_pure_bind. intros applications Ha.
  apply (during_bind _ _ _ _ (λ _ v, Forall application_published applications ∧ P v ∧ v = v0)).
  { eapply during_pre; [eapply during_post; [apply before, during_ready|]|]; [naive_solver|].
    intros v _ ->. split; [apply untouched_start|done]. }
  intros ?. apply during_fact. intros Hp.
  apply (during_bind _ _ _ _ (λ _ v, P v ∧ unused dir prefix v)).
  { eapply during_pre; [apply before, (during_mkdir_parents _ _ _ (unused dir prefix))|].
    - intros v q [r Hr]%below_inv Hun _ n rel. simpl. rewrite lookup_insert_ne; [apply Hun|]. intros Hq. rewrite Hq in Hr.
      apply (f_equal length) in Hr. rewrite !length_app in Hr. simpl in Hr. lia.
    - intros q _ Hq. unfold build_grown. rewrite Hq. apply orb_true_r.
    - intros v _ [Hu ->]. split; [done|apply (build_unused Hfit)]. }
  intros ?. apply (during_bind _ _ _ _ (λ _ v, P v ∧ unused dir prefix v)).
  { apply before, during_clear; [done|]. intros v q _ Hun n rel. simpl. apply lookup_delete_None. right. apply Hun. }
  intros ?. eapply during_post; [apply (during_temporary _ _ _ _ _ (λ temp v, P v ∧ tabled temp [] v) (λ _, committed))|by right].
  - intros n v temp _ [Hu Hun]. assert (P (set_node temp Dir v)) as HP.
    { apply untouched_node; [done|]. unfold temp. by rewrite <-(app_nil_r (_ ++ _)), build_temp. }
    split; [by left|]. split; [done|by apply tabled_new].
  - intros n. by eapply during_build_body.
  - intros n v q [r ->]%below_inv [HP|HC]; [left; apply untouched_del; [done|apply build_temp]|right; by apply committed_del].
  - intros n ? v q [r ->]%below_inv. apply committed_del.
Qed.
End Build.

(** C14: The record of a build appears at once, complete, and after its applications.  At every moment of a run of [publish_build], wherever it
    fails or is killed, either nothing has changed but the publisher's staging directories and
    new parents of the record, or the record is there: then each application it names had its manifest
    before the run changed anything, the record's directory holds exactly the input
    archive and the record, both complete and read-only, and no file that existed before has changed.  When
    [publish_build] returns, the record was there before or is there now. *)
Theorem build_record_committed `{System} `{JsonText} `{JsonEncoder} (archive : path) (record : json) (target : path) (binding url : string) (v0 : volume) :
  build_fit archive target binding v0 →
  let run := publish_build archive record target binding url (Site v0 []) in
  (∀ v, v ∈ moments run.2 →
     untouched (build_zone target binding) (build_grown target) v0 v ∨ committed archive record target binding url v0 v) ∧
  (run.1 = Returned tt →
     is_file v0 (target ++ ["build.json"]) = true ∧ now run.2 = v0 ∨ committed archive record target binding url v0 (now run.2)).
Proof.
  intros Hfit run. pose proof (untouched_start (build_zone target binding) (build_grown target) v0) as Hstart.
  destruct (during_build archive record target binding url v0 Hfit (Site v0 [])) as (l & Hl & Hf & Hr); [by left|done|]. split.
  - intros v Hv. unfold run in Hv. rewrite Hl in Hv. apply elem_of_app in Hv as [Hv|[->|Hv]%elem_of_cons]; [|by left|by apply not_elem_of_nil in Hv].
    by apply (proj1 (Forall_forall _ _) Hf).
  - intros Hd. unfold run in Hd. by rewrite Hd in Hr.
Qed.
