(* ===== verification/PublishWitnesses.v ===== *)
(** * Publications on a concrete volume

    An export, a previous publication and an input archive: the runs that publish, retire and commit, and
    the two runs where a file system left half-way misleads a later one. *)

From stdpp Require Import gmap.
From S2P Require Import Prelude Text Kube Effects Client Instances Consumers Volume VolumeProofs Publish PublishProofs CommitProofs.

#[local, refine] Instance plain_system : System :=
  {| scan := id; unique := λ _, "tmp0"; tar_gz := λ l, join "," l.*1 |}.
Proof. done. Defined.
(** Texts of the manifests of the volume *)
Definition old_manifest : json :=
  JObj [("binding", JStr "dev"); ("releaseOwned", JBool false);
        ("files", JArr [file_entry ["python"; "a.py"] 292 3; file_entry ["lib.so"] 365 2])].
Definition other_manifest : json := JObj [("binding", JStr "other"); ("releaseOwned", JBool false); ("files", JArr [])].
#[local] Instance few_texts : JsonText := λ t,
  if eqb t "old" then Some old_manifest else if eqb t "other" then Some other_manifest else None.
#[local] Instance one_text : JsonEncoder := λ _, "new".

Definition node_list : list (path * node) :=
  [(["mnt"], Dir); (["mnt"; "frontend"], Dir);
   (["mnt"; "frontend"; "r1"], Dir); (["mnt"; "frontend"; "r1"; MANIFEST], File 1); (["mnt"; "frontend"; "r1"; "lib.so"], File 2);
   (["mnt"; "frontend"; "r1"; "python"], Dir); (["mnt"; "frontend"; "r1"; "python"; "a.py"], File 3);
   (["mnt"; "frontend"; "r2"], Dir); (["mnt"; "frontend"; "r2"; MANIFEST], File 4);
   (["export"], Dir); (["export"; "lib.so"], File 5); (["export"; "python"], Dir); (["export"; "python"; "a.py"], File 6);
   (["inputs"], File 7)].
Definition start : volume :=
  Volume (list_to_map node_list)
    (list_to_map [(1%nat, Contents "old" 420); (2%nat, Contents "so" 365); (3%nat, Contents "one" 292); (4%nat, Contents "other" 420);
                  (5%nat, Contents "so" 493); (6%nat, Contents "two!" 420); (7%nat, Contents "tar" 420)]).
Definition development : publication :=
  Publication ["export"] ["mnt"; "frontend"; "r3"] "dev" (Some ["mnt"; "frontend"; "r1"]) false true
    (Some (JObj [("revision", JStr "abc")])) (Some "image") None None None (Some ["inputs"]) "url".


Lemma elem_of_node_list p n : nodes start !! p = Some n → (p, n) ∈ node_list.
Proof. apply elem_of_list_to_map_2. Qed.
Lemma start_sound : sound start.
Proof.
  intros p i Hp%elem_of_node_list%list_elem_of_In.
  assert (forallb (λ e, match e.2 with File i => bool_decide (is_Some (inodes start !! i)) | _ => true end) node_list = true) as Hall by done.
  rewrite forallb_forall in Hall. apply Hall in Hp. by apply bool_decide_eq_true in Hp.
Qed.
Lemma start_free (dir : path) (x : string) rel :
  forallb (λ e, negb (inside (dir ++ [x]) e.1)) node_list = true → nodes start !! (dir ++ x :: rel) = None.
Proof.
  intros Hall. destruct (nodes start !! (dir ++ x :: rel)) as [n|] eqn:E; [|done]. apply elem_of_node_list, list_elem_of_In in E.
  rewrite forallb_forall in Hall. apply Hall in E. simpl in E. change (x :: rel) with ([x] ++ rel) in E. by rewrite app_assoc, below_app in E.
Qed.
Lemma start_named root rel : is_Some (nodes start !! (root ++ rel)) → posix_parts (join "/" rel) = rel.
Proof.
  intros [n Hn%elem_of_node_list%list_elem_of_In].
  assert (forallb (λ e, forallb (λ k, bool_decide (posix_parts (join "/" (drop k e.1)) = drop k e.1)) (seq 0 (S (length e.1)))) node_list = true) as Hall
    by (vm_compute; reflexivity).
  rewrite forallb_forall in Hall. apply Hall in Hn. rewrite forallb_forall in Hn. specialize (Hn (length root)). cbn [fst] in Hn.
  rewrite drop_app_length in Hn. apply (bool_decide_eq_true_1 _), Hn, in_seq. rewrite length_app. lia.
Qed.
Lemma development_fit : fit development start.
Proof.
  split.
  - apply start_sound.
  - exists ["mnt"], "frontend", "r3". by split_and!.
  - intros p [r ->]%below_inv. done.
  - intros b p [= <-] [r ->]%below_inv. done.
  - intros n rel. by apply start_free.
  - intros root rel _ Hf. apply (start_named root rel). unfold is_file in Hf. by destruct (nodes start !! (root ++ rel)).
  - intros x. rewrite !elem_of_cons. intros [->|[->|Hx]]; [done..|by apply not_elem_of_nil in Hx].
  - intros b f m l entry x [= <-] Hf Hm Hl. vm_compute in Hf. injection Hf as <-. vm_compute in Hm. injection Hm as <-.
    vm_compute in Hl. injection Hl as <-. rewrite !elem_of_cons, !elem_of_nil. intros [->|[->|[]]] [->|[->|[]]]; vm_compute; discriminate.
Qed.

(** The run links the library of the base and copies the changed file; the base keeps its bytes. *)
Example development_publishes :
  let v := now (publish development (Site start [])).2 in
  file_at v ["mnt"; "frontend"; "r3"; "lib.so"] = Some (Contents "so" 365) ∧
  nodes v !! ["mnt"; "frontend"; "r3"; "lib.so"] = Some (File 2) ∧
  file_at v ["mnt"; "frontend"; "r3"; "python"; "a.py"] = Some (Contents "two!" 292) ∧
  file_at v ["mnt"; "frontend"; "r1"; "python"; "a.py"] = Some (Contents "one" 292) ∧
  file_at v ["mnt"; "sources"; "frontend"; "r3.tar.gz"] = Some (Contents "tar" 292) ∧
  nodes v !! ["mnt"; "frontend"; ".dev.staging-tmp0"] = None.
Proof. vm_compute. split_and!; reflexivity. Qed.

Lemma publish_atomic_witness :
  fit development start ∧ appeared development start (now (publish development (Site start [])).2).
Proof.
  split; [apply development_fit|].
  destruct (publish_atomic development start development_fit) as [_ Hret].
  destruct (Hret ["mnt"; "frontend"; "r3"]) as [[_ [Hold|Hnew]]|[Hbase _]].
  - vm_compute. reflexivity.
  - vm_compute in Hold. discriminate Hold.
  - exact Hnew.
  - vm_compute in Hbase. discriminate Hbase.
Defined.

Lemma retire_exact_witness :
  own_version ["mnt"; "frontend"] "dev" false start ["mnt"; "frontend"; "r1"] ∧
  (retire ["mnt"; "frontend"] "dev" [] false (Site start [])).1 = Returned [] ∧
  nodes (now (retire ["mnt"; "frontend"] "dev" [] false (Site start [])).2) !! ["mnt"; "frontend"; "r1"; "lib.so"] = None.
Proof.
  assert (own_version ["mnt"; "frontend"] "dev" false start ["mnt"; "frontend"; "r1"]) as Hown.
  { split; [split_and!; [reflexivity|discriminate|by eexists]|]. exists old_manifest. split; [|reflexivity].
    exists (Contents "old" 420). split; reflexivity. }
  split; [exact Hown|]. split; [vm_compute; reflexivity|].
  destruct (retire_exact ["mnt"; "frontend"] "dev" [] false start) as [_ Hret]. destruct (Hret []) as [Hgone _]; [vm_compute; reflexivity|].
  apply (Hgone ["mnt"; "frontend"; "r1"]); [|reflexivity]. split; [exact Hown|apply not_elem_of_nil].
Defined.

(** ** The record of a build *)

Definition build_record : json := JObj [("build", JObj [("applications", JObj [("frontend", JObj [("revision", JStr "r2")])])])].
Definition record_at : path := ["mnt"; "builds"; "dev"; "b1"].
Lemma record_fit : build_fit ["inputs"] record_at "dev" start.
Proof. split; [apply start_sound|done|done|]. intros n rel. by apply (start_free ["mnt"; "builds"; "dev"]). Qed.
Lemma build_record_committed_witness :
  build_fit ["inputs"] record_at "dev" start ∧
  committed ["inputs"] build_record record_at "dev" "url" start
    (now (publish_build ["inputs"] build_record record_at "dev" "url" (Site start [])).2).
Proof.
  split; [apply record_fit|].
  destruct (build_record_committed ["inputs"] build_record record_at "dev" "url" start record_fit) as [_ Hret].
  destruct Hret as [[Hold _]|Hnew]; [vm_compute; reflexivity|vm_compute in Hold; discriminate Hold|exact Hnew].
Defined.
(** An application that is not published keeps the record away. *)
Example missing_application_refused :
  (publish_build ["inputs"] (JObj [("build", JObj [("applications", JObj [("frontend", JObj [("revision", JStr "r9")])])])])
     record_at "dev" "url" (Site start [])).1 = Raised (OSError "completed frontend application is unavailable").
Proof. vm_compute. reflexivity. Qed.

(** The archive of the inputs, in the order of their names *)
Definition compiled : volume :=
  Volume (list_to_map [(["w"; "inputs.json"], File 1); (["w"; "src"; "b.py"], File 2); (["w"; "src"; "a.py"], File 3)])
    (list_to_map [(1%nat, Contents "inputs" 420); (2%nat, Contents "b" 420); (3%nat, Contents "a" 493)]).
Definition inputs_text : JsonText := λ t, if eqb t "inputs" then Some (JObj [("b.py", JStr "1"); ("a.py", JStr "2")]) else None.
Example inputs_archived :
  file_at (now (@archive_inputs _ inputs_text ["w"; "src"] ["inputs.tar.gz"] (Site compiled [])).2) ["inputs.tar.gz"] = Some (Contents "a.py,b.py" 292).
Proof. vm_compute. reflexivity. Qed.

(** ** Runs that mislead a later one *)

(** A retirement killed half-way leaves a manifest without its files, and a later publication of
    the same version takes it for complete. *)
Definition again : publication :=
  Publication ["export"] ["mnt"; "frontend"; "r1"] "dev" None false true None (Some "image") None None None None "".
Definition half_retired (v : volume) : bool :=
  is_file v ["mnt"; "frontend"; "r1"; MANIFEST] && negb (is_file v ["mnt"; "frontend"; "r1"; "lib.so"]).
Example interrupted_retirement_trusted :
  ∃ v, v ∈ moments (retire ["mnt"; "frontend"] "dev" [] false (Site start [])).2 ∧
    is_file start ["mnt"; "frontend"; "r1"; "lib.so"] = true ∧
    (publish again (Site v [])).1 = Returned ["mnt"; "frontend"; "r1"] ∧
    is_file (now (publish again (Site v [])).2) ["mnt"; "frontend"; "r1"; "lib.so"] = false.
Proof.
  destruct (find half_retired (moments (retire ["mnt"; "frontend"] "dev" [] false (Site start [])).2)) as [v|] eqn:E.
  - exists v. split; [apply list_elem_of_In; exact (proj1 (find_some _ _ E))|]. split; [reflexivity|].
    vm_compute in E. injection E as <-. split; vm_compute; reflexivity.
  - vm_compute in E. discriminate E.
Qed.

(** An export with the manifest of its base: the file is linked, and the new manifest is written through the
    link over the one of the base. *)
Definition copied_manifest : volume := set_node ["export"; MANIFEST] (File 8) (set_inode 8 (Contents "old" 420) start).
Example linked_manifest_overwritten :
  file_at copied_manifest ["mnt"; "frontend"; "r1"; MANIFEST] = Some (Contents "old" 420) ∧
  file_at (now (publish development (Site copied_manifest [])).2) ["mnt"; "frontend"; "r1"; MANIFEST] = Some (Contents ("new" +:+ NEWLINE) 420).
Proof. vm_compute. split; reflexivity. Qed.
