(* ===== verification/Replicas.v ===== *)
(** * Observation of replicas and GPUs ([results/observations/replicas.py])

    While a benchmark runs, an observer reads the selected ModelServices and
    traces them through their pools and groups to the Pods whose GPUs they hold.  A group
    stays known for the run after it is deleted, since its Pods outlive it.  After
    the run the GPU samples are integrated over the measured window, and projected to a
    step function for the charts.

    The command of the worker thread is serialised: [start] samples before the thread runs
    and [finish] after it was joined.  Both clocks of the code, [monotonic] and
    [perf_counter], are the one of [Kubectl].  Names, UIDs and device resources of API objects are
    strings; any other value is a [TypeError] here.  [capture] records the application sources
    of a snapshot and keeps its own state. *)

From Stdlib Require Import Qminmax Qabs.
From stdpp Require Import gmap.
From S2P Require Import Prelude Text Kube Effects Client Consumers SloSearch Measurements TimeSeries.

Definition OBSERVATION_TIMEOUT_SECONDS : Q := 5.

(** [ReplicaTargetObservation], [ReplicaObservation], [GPUAllocationSample] *)
Record ReplicaTargetObservation := Target {
  target_id : string;
  target_role : string;
  desired_replicas : Z;
  ready_replicas : Z;
}.
Record ReplicaObservation := Observation {
  observed_at : Q;
  observed_model : string;
  model_service : string;
  targets : list ReplicaTargetObservation;
}.
Record GPUAllocationSample := GPUSample {
  sampled_at : Q;
  gpu_counts : gmap string Z;
}.

(** ** The integral of the samples *)

(** [pairwise(samples)] *)
Fixpoint pairwise {A} (l : list A) : list (A * A) :=
  match l with
  | x :: (y :: _) as rest => (x, y) :: pairwise rest
  | _ => []
  end.
Definition qlt (x y : Q) : bool := negb (Qle_bool y x).
(** A failed read between two samples and inside the window *)
Definition interrupted (failures : list Q) (stop : Q) (p f : GPUAllocationSample) : bool :=
  existsb (λ at_, qlt (sampled_at p) at_ && qlt at_ (sampled_at f) && Qle_bool at_ stop) failures.
Definition add_area (span : Q) (counts : gmap string Z) (area : gmap string Q) : gmap string Q :=
  union_with (λ a b, Some (a + b)%Q) area ((λ c, inject_Z c * span)%Q <$> counts).
Definition integrate_step (origin stop : Q) (failures : list Q) (acc : Q * gmap string Q)
    (pair_ : GPUAllocationSample * GPUAllocationSample) : Q * gmap string Q :=
  let '(p, f) := pair_ in
  let left_ := Qmax origin (sampled_at p) in
  let right_ := Qmin stop (sampled_at f) in
  if Qle_bool right_ left_ then acc
  else if interrupted failures stop p f then acc
  else ((acc.1 + (right_ - left_))%Q, add_area (right_ - left_) (gpu_counts p) acc.2).
Record gpu_result := GPUResult {
  duration_s : Q;
  covered_duration_s : Q;
  coverage : option Q;
  gpu_seconds : option (gmap string Q);
  gpu_hours : option (gmap string Q);
  observed_gpu_seconds : gmap string Q;
  result_samples : list (Q * gmap string Z);
  failed_read_elapsed_s : list Q;
  failed_reads : nat;
}.
Definition by_time (a b : GPUAllocationSample) : bool := Qle_bool (sampled_at a) (sampled_at b).
(** [_integrate_gpu] *)
Definition integrate_gpu (gpu_samples : list GPUAllocationSample) (gpu_failures : list Q) (origin duration : Q) : gpu_result :=
  let stop := (origin + duration)%Q in
  let samples := isort by_time gpu_samples in
  let failures := isort Qle_bool gpu_failures in
  let '(covered, area) := foldl (integrate_step origin stop failures) (0%Q, ∅) (pairwise samples) in
  let complete := qlt 0 duration && qlt (Qabs (covered - duration)) (1 # 1000000) in
  GPUResult duration covered
    (if qlt 0 duration then Some (covered / duration)%Q else None)
    (if complete then Some area else None)
    (if complete then Some ((λ x, x / 3600)%Q <$> area) else None)
    area
    ((λ s, ((sampled_at s - origin)%Q, gpu_counts s)) <$> samples)
    ((λ at_, (at_ - origin)%Q) <$> failures)
    (length failures).

(** ** Charts *)

(** A value of a chart, or the break of its line *)
Abbreviation chart_row := (list (string * option Q)).
Definition gpu_field (resource : string) : string := "Resources/" +:+ resource +:+ "/Allocated GPUs".
Definition sample_resources (samples : list (Q * gmap string Z)) : list string :=
  sort_by id (base.elements (⋃ ((λ s, dom (D := gset string) s.2) <$> samples))).
Definition sample_row (resources : list string) (s : Q * gmap string Z) (at_ : Q) : chart_row :=
  (ELAPSED_TIME, Some at_) ::
  omap (λ r, (λ c, (gpu_field r, Some (inject_Z c))) <$> s.2 !! r) resources.
Definition break_row (resources : list string) (at_ : Q) : chart_row :=
  (ELAPSED_TIME, Some at_) :: ((λ r, (gpu_field r, None)) <$> resources).
(** An event: its time, 0 for a failed read and 1 for a sample, and its row *)
Abbreviation chart_event := (Q * Z * chart_row)%type.
Definition event_first (a b : chart_event) : bool :=
  qlt a.1.1 b.1.1 || (Qle_bool a.1.1 b.1.1 && (a.1.2 <=? b.1.2)).
Definition failed_within (failures : list Q) (after until : Q) : bool :=
  existsb (λ at_, qlt after at_ && Qle_bool at_ until) failures.
Definition initial_event (resources : list string) (samples : list (Q * gmap string Z)) (failures : list Q) : list chart_event :=
  match last (keep (λ s, Qle_bool s.1 0) samples) with
  | Some s => if failed_within failures s.1 0 then [] else [(0%Q, 1, sample_row resources s 0)]
  | None => []
  end.
Definition final_event (resources : list string) (samples : list (Q * gmap string Z)) (failures : list Q) (duration : Q) : list chart_event :=
  match last (keep (λ s, Qle_bool s.1 duration) samples) with
  | Some s =>
      if existsb (λ s, Qle_bool duration s.1) samples && qlt s.1 duration && negb (failed_within failures s.1 duration)
      then [(duration, 1, sample_row resources s duration)] else []
  | None => []
  end.
(** [gpu_allocation_history_rows] *)
Definition gpu_allocation_history_rows (result : gpu_result) : list chart_row :=
  let duration := duration_s result in
  let samples := isort (λ a b, Qle_bool a.1 b.1) (result_samples result) in
  let failures := isort Qle_bool (failed_read_elapsed_s result) in
  let resources := sample_resources samples in
  match resources with
  | [] => []
  | _ =>
      let events :=
        initial_event resources samples failures
        ++ ((λ s, (s.1, 1, sample_row resources s s.1)) <$> keep (λ s, qlt 0 s.1 && Qle_bool s.1 duration) samples)
        ++ ((λ at_, (at_, 0, break_row resources at_)) <$> keep (λ at_, Qle_bool 0 at_ && Qle_bool at_ duration) failures)
        ++ final_event resources samples failures duration in
      snd <$> isort event_first events
  end.

(** ** Reading the answers *)

(** [_controlled_by] *)
Definition controls (k n uid : string) (owner : json) : outcome bool :=
  a ← get "kind" owner;
  if negb (is_str k a) then Ok false else
  b ← get "name" owner;
  if negb (is_str n b) then Ok false else
  c ← get "uid" owner;
  if negb (is_str uid c) then Ok false else
  d ← get "controller" owner;
  Ok (match d with JBool true => true | _ => false end).
Definition controlled_by (value : json) (k n uid : string) : outcome bool :=
  metadata ← index "metadata" value;
  owners ← (l ← get_or "ownerReferences" (JArr []) metadata; elements l);
  any_of (controls k n uid) owners.

Definition kind_is (k : string) (item : json) : outcome bool := v ← index "kind" item; Ok (is_str k v).
Definition meta_text (k : string) (item : json) : outcome string := m ← index "metadata" item; text_index k m.
(** The (name, uid) of an object, and of a reference in its spec *)
Definition identity (item : json) : outcome (string * string) :=
  n ← meta_text "name" item; uid ← meta_text "uid" item; Ok (n, uid).
Definition spec_ref (k : string) (item : json) : outcome (string * string) :=
  spec ← index "spec" item; ref ← index k spec;
  n ← text_index "name" ref; uid ← text_index "uid" ref; Ok (n, uid).

Definition live_group_uids (items : list json) : outcome (gset string) :=
  outcome_fold (λ found item,
    g ← kind_is "ModelGroup" item;
    if negb g then Ok found else uid ← meta_text "uid" item; Ok ({[uid]} ∪ found)) ∅ items.
(** Pools of the selected services *)
Definition owned_pools (identities : gset (string * string)) (items : list json) : outcome (gset (string * string)) :=
  outcome_fold (λ pools item,
    p ← kind_is "ModelPool" item;
    if negb p then Ok pools else
    ref ← spec_ref "modelServiceRef" item;
    if negb (bool_decide (ref ∈ identities)) then Ok pools else
    owned ← controlled_by item "ModelService" ref.1 ref.2;
    if negb owned then Ok pools else
    self ← identity item; Ok ({[self]} ∪ pools)) ∅ items.
(** What is known of groups: the device resource by UID, and the names *)
Record known := Known { known_groups : gmap string string; known_group_names : gset string }.
Definition device_resource (item : json) : outcome string :=
  spec ← index "spec" item; a ← index "accelerator" spec; text_index "deviceResourceName" a.
Definition learn_group (pools : gset (string * string)) (k : known) (item : json) : outcome known :=
  g ← kind_is "ModelGroup" item;
  if negb g then Ok k else
  ref ← spec_ref "modelPoolRef" item;
  if negb (bool_decide (ref ∈ pools)) then Ok k else
  owned ← controlled_by item "ModelPool" ref.1 ref.2;
  if negb owned then Ok k else
  device ← device_resource item;
  uid ← meta_text "uid" item;
  n ← meta_text "name" item;
  Ok (Known (<[uid := device]> (known_groups k)) ({[n]} ∪ known_group_names k)).
Definition learn_groups (pools : gset (string * string)) (items : list json) (k : known) : outcome known :=
  outcome_fold (learn_group pools) k items.

Definition ARTIFACT_KEYS : list string := ["model"; "source"; "modelRevision"; "tokenizer"; "tokenizerRevision"].
Definition group_record (item : json) : outcome (string * json) :=
  self ← identity item;
  spec ← index "spec" item;
  runtime ← index "runtime" spec;
  artifacts ← index "artifacts" spec;
  kept ← outcome_map (λ k, has ← contains_key k artifacts;
                           if (has : bool) then v ← index k artifacts; Ok [(k, v)] else Ok []) ARTIFACT_KEYS;
  Ok (self.2, JObj [("name", JStr self.1); ("uid", JStr self.2); ("runtime", runtime); ("artifacts", JObj (concat kept))]).
Definition group_records (groups : gmap string string) (items : list json) : outcome (list (string * json)) :=
  l ← outcome_map (λ item,
        g ← kind_is "ModelGroup" item;
        if negb g then Ok [] else
        uid ← meta_text "uid" item;
        if negb (bool_decide (is_Some (groups !! uid))) then Ok [] else
        r ← group_record item; Ok [r]) items;
  Ok (concat l).

(** ** Pods *)

Definition GROUP_LABEL : string := "inference.foretoken.io/model-group".
Definition named (n : string) (c : json) : outcome bool := v ← index "name" c; Ok (is_str n v).
(** A Pod that is scheduled and has not ended *)
Definition holds_devices (item : json) : outcome bool :=
  spec ← index "spec" item;
  node ← get "nodeName" spec;
  if negb (truthy node) then Ok false else
  phase ← (s ← index "status" item; index "phase" s);
  ended ← in_set phase [JStr "Succeeded"; JStr "Failed"];
  Ok (negb ended).
Definition group_label (item : json) : outcome json :=
  m ← index "metadata" item; labels ← get_or "labels" (JObj []) m; get GROUP_LABEL labels.
Definition model_server (item : json) : outcome json :=
  containers ← (s ← index "spec" item; l ← index "containers" s; elements l);
  found ← find_first (named "model-server") containers;
  match found with
  | Some c => Ok c
  | None => Raise (ValueError "Pod has no model-server container")
  end.
Definition declared_group (server : json) : outcome json :=
  env ← (l ← get_or "env" (JArr []) server; elements l);
  found ← find_first (λ e, n ← get "name" e; Ok (is_str "FORETOKEN_MODEL_GROUP_UID" n)) env;
  uid ← match found with Some e => get "value" e | None => Ok JNull end;
  if is_none uid then Raise (ValueError "Pod lacks its ModelGroup UID") else Ok uid.
(** [d.get(k)] and [k in s] for a value [k] and string keys *)
Definition hashable (j : json) : outcome unit :=
  match j with JArr _ | JObj _ => Raise (TypeError "unhashable type") | _ => Ok tt end.
Definition lookup_text (m : gmap string string) (j : json) : outcome (option string) :=
  _ ← hashable j; Ok (match j with JStr s => m !! s | _ => None end).
Definition in_texts (s : gset string) (j : json) : outcome bool :=
  _ ← hashable j; Ok (match j with JStr t => bool_decide (t ∈ s) | _ => false end).
(** The Pod belongs to a live group of another service. *)
Definition foreign (live : gset string) (k : known) (uid label : json) : outcome bool :=
  is_live ← in_texts live uid;
  if negb is_live then Ok false else n ← in_texts (known_group_names k) label; Ok (negb n).

Section Observer.
Context {C : Type} `{Kubectl C} `{PythonRepr}.

Definition pod_record (item server label : json) (uid : string) : outcome (string * json) :=
  statuses ← (s ← index "status" item; l ← get_or "containerStatuses" (JArr []) s; elements l);
  found ← find_first (named "model-server") statuses;
  let status := default (JObj []) found in
  self ← identity item;
  node ← (s ← index "spec" item; index "nodeName" s);
  image ← index "image" server;
  image_id ← get "imageID" status;
  container_id ← get "containerID" status;
  restarts ← get "restartCount" status;
  resources ← index "resources" server;
  Ok (self.2, JObj [("name", JStr self.1); ("uid", JStr self.2); ("node", node); ("model_group", label); ("model_group_uid", JStr uid);
                    ("image", image); ("image_id", image_id); ("container_id", container_id); ("restart_count", restarts);
                    ("resources", resources)]).
(** The number of devices a Pod requests; [None] when the text of the request is no positive integer *)
Definition requested (server : json) (device : string) : outcome (option Z) :=
  request ← (r ← index "resources" server; q ← index "requests" r; index device q);
  count ← int_of request;
  Ok (if (count <? 1) || negb (eqb (str_Z count) (str_of request)) then None else Some count).

(** The loop over the Pods: their records, the counts, and the last error of the allocation *)
Record tally := Tally { t_pods : list (string * json); t_counts : gmap string Z; t_error : option exn }.
Definition count_device (device : string) (n : Z) (counts : gmap string Z) : gmap string Z :=
  <[device := default 0 (counts !! device) + n]> counts.
Definition pod_step (live : gset string) (k : known) (t : tally) (item : json) : outcome tally :=
  p ← kind_is "Pod" item;
  if negb p then Ok t else
  holds ← holds_devices item;
  if negb holds then Ok t else
  label ← group_label item;
  if is_none label then Ok t else
  server ← model_server item;
  uid ← declared_group server;
  device ← lookup_text (known_groups k) uid;
  match device, uid with
  | Some device, JStr uid =>
      r ← pod_record item server label uid;
      n ← requested server device;
      Ok match n with
         | Some n => Tally (t_pods t ++ [r]) (count_device device n (t_counts t)) (t_error t)
         | None => Tally (t_pods t ++ [r]) (t_counts t) (Some (ValueError "Pod has invalid GPU request"))
         end
  | _, _ =>
      other ← foreign live k uid label;
      if (other : bool) then Ok t
      else Ok (Tally (t_pods t) (t_counts t) (Some (ValueError "Pod has unresolvable ModelGroup ownership")))
  end.
Definition no_devices (groups : gmap string string) : gmap string Z :=
  list_to_map ((λ e, (e.2, 0)) <$> map_to_list groups).
(** One answer: what is known afterwards, the records of groups and Pods, and the counts *)
Definition read_answer (identities : gset (string * string)) (k : known) (items : list json) : outcome (known * (json * tally)) :=
  live ← live_group_uids items;
  pools ← owned_pools identities items;
  k ← learn_groups pools items k;
  groups ← group_records (known_groups k) items;
  t ← outcome_fold (pod_step live k) (Tally [] (no_devices (known_groups k)) None) items;
  Ok (k, (JObj [("groups", JArr (sort_by fst groups).*2); ("pods", JArr (sort_by fst (t_pods t)).*2)], t)).

(** ** The observer *)

(** [KubernetesReplicaObserver]; exceptions stand for the texts that are kept of them. *)
Record observer := Observer {
  o_stop : option Q;
  o_active : bool;
  o_observations : list ReplicaObservation;
  o_errors : nat;
  o_last_error : option exn;
  o_gpu_samples : list GPUAllocationSample;
  o_gpu_failures : list Q;
  o_last_gpu_error : option exn;
  o_service_uids : option (gmap string string);
  o_known : known;
  o_workload : list (Q * json);
  o_gpu_allocation : option gpu_result;
}.
Definition new_observer : observer := Observer None false [] 0 None [] [] None None (Known ∅ ∅) [] None.
Abbreviation IO := (IO (world C observer)).
Context (resources : list ResourceRef) (model : string) (capture : json → IO unit).

Definition set_stop (s : option Q) (o : observer) : observer :=
  Observer s (o_active o) (o_observations o) (o_errors o) (o_last_error o) (o_gpu_samples o) (o_gpu_failures o) (o_last_gpu_error o)
    (o_service_uids o) (o_known o) (o_workload o) (o_gpu_allocation o).
Definition set_active (b : bool) (o : observer) : observer :=
  Observer (o_stop o) b (o_observations o) (o_errors o) (o_last_error o) (o_gpu_samples o) (o_gpu_failures o) (o_last_gpu_error o)
    (o_service_uids o) (o_known o) (o_workload o) (o_gpu_allocation o).
Definition add_observations (l : list ReplicaObservation) (o : observer) : observer :=
  Observer (o_stop o) (o_active o) (o_observations o ++ l) (o_errors o) (o_last_error o) (o_gpu_samples o) (o_gpu_failures o) (o_last_gpu_error o)
    (o_service_uids o) (o_known o) (o_workload o) (o_gpu_allocation o).
Definition add_error (e : exn) (o : observer) : observer :=
  Observer (o_stop o) (o_active o) (o_observations o) (S (o_errors o)) (Some e) (o_gpu_samples o) (o_gpu_failures o) (o_last_gpu_error o)
    (o_service_uids o) (o_known o) (o_workload o) (o_gpu_allocation o).
Definition add_sample (s : GPUAllocationSample) (o : observer) : observer :=
  Observer (o_stop o) (o_active o) (o_observations o) (o_errors o) (o_last_error o) (o_gpu_samples o ++ [s]) (o_gpu_failures o) (o_last_gpu_error o)
    (o_service_uids o) (o_known o) (o_workload o) (o_gpu_allocation o).
Definition add_gpu_failure (at_ : Q) (e : exn) (o : observer) : observer :=
  Observer (o_stop o) (o_active o) (o_observations o) (o_errors o) (o_last_error o) (o_gpu_samples o) (o_gpu_failures o ++ [at_]) (Some e)
    (o_service_uids o) (o_known o) (o_workload o) (o_gpu_allocation o).
Definition set_services (m : gmap string string) (o : observer) : observer :=
  Observer (o_stop o) (o_active o) (o_observations o) (o_errors o) (o_last_error o) (o_gpu_samples o) (o_gpu_failures o) (o_last_gpu_error o)
    (Some m) (o_known o) (o_workload o) (o_gpu_allocation o).
Definition set_known (k : known) (o : observer) : observer :=
  Observer (o_stop o) (o_active o) (o_observations o) (o_errors o) (o_last_error o) (o_gpu_samples o) (o_gpu_failures o) (o_last_gpu_error o)
    (o_service_uids o) k (o_workload o) (o_gpu_allocation o).
Definition add_workload (at_ : Q) (snapshot : json) (o : observer) : observer :=
  Observer (o_stop o) (o_active o) (o_observations o) (o_errors o) (o_last_error o) (o_gpu_samples o) (o_gpu_failures o) (o_last_gpu_error o)
    (o_service_uids o) (o_known o)
    (match last (o_workload o) with
     | Some s => if py_eqb s.2 snapshot then o_workload o else o_workload o ++ [(at_, snapshot)]
     | None => [(at_, snapshot)]
     end) (o_gpu_allocation o).
Definition set_allocation (r : gpu_result) (o : observer) : observer :=
  Observer (o_stop o) (o_active o) (o_observations o) (o_errors o) (o_last_error o) (o_gpu_samples o) (o_gpu_failures o) (o_last_gpu_error o)
    (o_service_uids o) (o_known o) (o_workload o) (Some r).

(** [except (DeploymentError, OSError, KeyError, TypeError, ValueError)]; [system] for the clauses with [OSError] *)
Definition observed_failure (system : bool) (e : exn) : bool :=
  match e with
  | DeploymentError _ | VersionConflict _ | ServiceUnavailable _ | PermissionDenied _
  | KeyError _ | TypeError _ | ValueError _ => true
  | OSError _ | TimeoutError _ | NotADirectoryError => system
  | _ => false
  end.

(** [get_resources]: all of them must exist. *)
Definition read_services : IO (list json) :=
  match distinct (namespace <$> resources) with
  | [_] =>
      match resources with
      | [r] => v ← get_object (kind r) (name r) (namespace r); mret [v]
      | _ => r ← run (GetObjects resources false); decode_resource_list r
      end
  | _ => throw (DeploymentError "selected resources must share one namespace")
  end.
(** [_read_observations] *)
Definition strict_int (j : json) : option Z := match j with JInt z => Some z | _ => None end.
Definition read_target (item : json) : outcome ReplicaTargetObservation :=
  if negb (is_dict item) then Raise (TypeError "ModelService autoscaling status contains a non-object target") else
  id_ ← get "id" item;
  role ← get "role" item;
  desired ← get "appliedReplicas" item;
  ready ← get "readyReplicas" item;
  match id_ with
  | JStr (String _ _ as id_) =>
      match role with
      | JStr (String _ _ as role) =>
          match strict_int desired, strict_int ready with
          | Some desired, Some ready => Ok (Target id_ role desired ready)
          | _, _ => Raise (TypeError "ModelService autoscaling target has invalid replica counts")
          end
      | _ => Raise (ValueError "ModelService autoscaling target has no role")
      end
  | _ => Raise (ValueError "ModelService autoscaling target has no id")
  end.
Definition service_observation (at_ : Q) (values : list json) (r : ResourceRef) : outcome (list ReplicaObservation) :=
  named_values ← outcome_map (λ v, m ← child "metadata" v; n ← text_at "name" m; Ok (n, v)) values;
  match dget (name r) (foldl (λ d e, dset e.1 e.2 d) [] named_values) with
  | None => Raise (DeploymentError ("kubectl omitted ModelService/" +:+ name r))
  | Some value =>
      metadata ← child "metadata" value;
      status ← child "status" value;
      if negb (is_dict metadata && is_dict status) then Raise (TypeError "ModelService returned invalid metadata or status") else
      observed ← get "observedGeneration" status;
      generation ← get "generation" metadata;
      if negb (py_eqb observed generation) then Ok [] else
      raw ← get "autoscaling" status;
      match raw with
      | JArr (_ :: _ as raw) =>
          found ← outcome_map read_target raw;
          Ok [Observation at_ model (name r) (sort_by target_id found)]
      | _ => Ok []
      end
  end.
Definition read_observations (at_ : Q) (values : list json) : outcome (list ReplicaObservation) :=
  l ← outcome_map (service_observation at_ values) resources; Ok (concat l).

(** The identities of the selected services, the same ones for the whole run *)
Definition check_services (values : list json) (known_uids : option (gmap string string))
    : outcome (gset (string * string) * gmap string string) :=
  ids ← outcome_map identity values;
  if negb (bool_decide (list_to_set (name <$> resources) =@{gset string} list_to_set ids.*1))
  then Raise (DeploymentError "kubectl omitted a selected ModelService") else
  let uids := foldl (λ m e, <[e.1 := e.2]> m) ∅ ids in
  match known_uids with
  | Some before => if bool_decide (uids = before) then Ok (list_to_set ids, uids)
                   else Raise (DeploymentError "a selected ModelService was replaced during observation")
  | None => Ok (list_to_set ids, uids)
  end.
(** [_read_gpu_sample] *)
Definition POOL_KINDS : list string := ["modelpools"; "modelgroups"; "pods"].
Definition read_gpu_sample (identities : gset (string * string)) : IO GPUAllocationSample :=
  ns ← match resources with r :: _ => mret (namespace r) | [] => throw IndexError end;
  answer ← run_json (ListObjects POOL_KINDS (Some ns) "");
  items ← pure (l ← index "items" answer; elements l);
  o ← ask self;
  r ← pure (read_answer identities (o_known o) items);
  let '(k, (snapshot, t)) := r in
  on_self (set_known k) ;;
  at_ ← now;
  on_self (add_workload at_ snapshot) ;;
  match t_error t with
  | Some e => throw e
  | None => mret (GPUSample at_ (t_counts t))
  end.

(** The deadline of a sample; it only bounds its calls. *)
Definition budget (deadline : option Q) : IO Q :=
  d ← match deadline with Some d => mret d | None => t ← now; mret (t + OBSERVATION_TIMEOUT_SECONDS)%Q end;
  o ← ask self;
  mret match o_stop o with Some s => Qmin d s | None => d end.
(** [_sample] *)
Definition select_services : IO (option (list json * gset (string * string))) :=
  try_except
    (values ← read_services;
     o ← ask self;
     r ← pure (check_services values (o_service_uids o));
     on_self (set_services r.2) ;;
     mret (Some (values, r.1)))
    (λ e, if observed_failure true e
          then Some (on_self (add_error e) ;; t ← now; on_self (add_gpu_failure t e) ;; mret None)
          else None).
Definition record_replicas (values : list json) : IO unit :=
  t ← now;
  try_except
    (l ← pure (read_observations t values); on_self (add_observations l))
    (λ e, if observed_failure false e then Some (on_self (add_error e)) else None).
Definition record_gpus (identities : gset (string * string)) : IO unit :=
  try_except
    (s ← read_gpu_sample identities; on_self (add_sample s))
    (λ e, if observed_failure true e then Some (t ← now; on_self (add_gpu_failure t e)) else None).
Definition sample (deadline : option Q) : IO unit :=
  _ ← budget deadline;
  selected ← select_services;
  match selected with
  | None => mret tt
  | Some (values, identities) =>
      record_replicas values ;;
      record_gpus identities ;;
      o ← ask self;
      match last (o_workload o) with
      | Some s => capture s.2
      | None => mret tt
      end
  end.

(** [stop], [close], [start], [finish]; [rounds] is how often the worker thread sampled before it was stopped. *)
Definition stop (deadline : Q) : IO unit :=
  on_self (λ o, set_stop (Some match o_stop o with Some s => Qmin deadline s | None => deadline end) o).
Definition worker (rounds : nat) : IO unit := each (repeat tt rounds) (λ _, sample None).
Definition close (rounds : nat) (deadline : option Q) : IO unit :=
  o ← ask self;
  skip_unless (o_active o)
    (on_self (set_active false) ;;
     d ← match deadline with Some d => mret d | None => t ← now; mret (t + OBSERVATION_TIMEOUT_SECONDS)%Q end;
     stop d ;;
     worker rounds).
Definition start (deadline : option Q) : IO unit :=
  o ← ask self;
  if o_active o then throw (RuntimeError "replica observer is already active") else
  sample deadline ;;
  on_self (set_active true).
Record replica_row := ReplicaRow {
  row_elapsed : Q; row_model : string; row_service : string; row_targets : list ReplicaTargetObservation;
}.
Definition before_origin (origin : Q) (l : list ReplicaObservation) : list (string * ReplicaObservation) :=
  foldl (λ d o, dset (model_service o) o d) [] (keep (λ o, Qle_bool (observed_at o) origin) l).
Definition observation_first (a b : ReplicaObservation) : bool :=
  qlt (observed_at a) (observed_at b) || (Qle_bool (observed_at a) (observed_at b) && pleb (model_service a) (model_service b)).
Definition replica_rows (l : list ReplicaObservation) (origin : Q) (duration : option Q) : list replica_row :=
  let within := keep (λ o, qlt origin (observed_at o) &&
                           match duration with Some d => Qle_bool (observed_at o) (origin + d) | None => true end) l in
  (λ o, ReplicaRow (Qmax 0 (observed_at o - origin)) (observed_model o) (model_service o) (targets o))
    <$> isort observation_first (within ++ (before_origin origin l).*2).
Definition finish (rounds : nat) (origin : Q) (duration deadline : option Q) : IO (list replica_row) :=
  close rounds deadline ;;
  sample deadline ;;
  o ← ask self;
  match duration with
  | Some d => on_self (set_allocation (integrate_gpu (o_gpu_samples o) (o_gpu_failures o) origin d))
  | None => mret tt
  end ;;
  mret (replica_rows (o_observations o) origin duration).

(** [group_names], [group_uids], [workload_history] *)
Definition group_names (o : observer) : list string := sort_by id (base.elements (known_group_names (o_known o))).
Definition group_uids (o : observer) : list string := sort_by id (map_to_list (known_groups (o_known o))).*1.
Definition workload_history (o : observer) (origin duration : Q) : list (Q * json) :=
  let before := keep (λ e, Qle_bool e.1 origin) (o_workload o) in
  let within := keep (λ e, qlt origin e.1 && Qle_bool e.1 (origin + duration)) (o_workload o) in
  (λ e, (Qmax 0 (e.1 - origin), e.2)) <$> option_list (last before) ++ within.
End Observer.

(** [replica_history_rows] *)
Definition replica_prefix (service target : string) : string := "Replicas/" +:+ service +:+ "/" +:+ target.
Definition replica_history_rows (rows : list replica_row) : list row :=
  (λ r, foldl (λ d t,
          dset (replica_prefix (row_service r) (target_id t) +:+ "/Ready replicas") (inject_Z (ready_replicas t))
            (dset (replica_prefix (row_service r) (target_id t) +:+ "/Desired replicas") (inject_Z (desired_replicas t)) d))
          [(ELAPSED_TIME, row_elapsed r)] (row_targets r)) <$> rows.
