(* ===== verification/ReplicaProofs.v ===== *)
(** * Properties of the replica and GPU observation

    The charts show the held value of the samples at every instant, the integral is
    the sum over the observed instants, and GPUs are attributed only through owners verified
    in the answers of the cluster. *)

From Stdlib Require Import Qminmax Qabs.
From stdpp Require Import gmap sorting.
From S2P Require Import Prelude Text Kube Effects Client Consumers Settles SloSearch Measurements TimeSeries Replicas.

(** ** The last element of a stable sort *)

Section Latest.
Context {A : Type} (leb : A → A → bool).
Hypothesis leb_total : ∀ x y, leb x y = true ∨ leb y x = true.
Hypothesis leb_trans : ∀ x y z, leb x y = true → leb y z = true → leb x z = true.

Definition later (x y : option A) : option A :=
  match x, y with
  | Some x, Some y => if leb x y then Some y else Some x
  | None, y => y
  | x, None => x
  end.
Definition latest (l : list A) : option A := foldr (λ x, later (Some x)) None l.

Lemma latest_elem l x : latest l = Some x → x ∈ l ∧ ∀ y, y ∈ l → leb y x = true.
Proof using leb_total leb_trans.
  revert x. induction l as [|z l IH]; intros x; simpl; [done|]. unfold later. destruct (latest l) as [m|] eqn:E.
  - destruct (IH m eq_refl) as [Hin Hmax]. destruct (leb z m) eqn:Ez; intros [= <-].
    + split; [by right|]. intros y [->|Hy]%elem_of_cons; [done|by apply Hmax].
    + split; [left|]. intros y [->|Hy]%elem_of_cons; [by destruct (leb_total z z)|].
      destruct (leb_total m z) as [Hm|Hm]; [|congruence]. by eapply leb_trans; [apply Hmax|].
  - intros [= <-]. split; [left|]. intros y [->|Hy]%elem_of_cons; [by destruct (leb_total z z)|].
    destruct l as [|a l]; [by apply not_elem_of_nil in Hy|]. simpl in E. unfold later in E. destruct (latest l); [by case_match|done].
Qed.
Lemma later_cases x y e : later x y = Some e → x = Some e ∨ y = Some e.
Proof. destruct x as [x|], y as [y|]; simpl; [|by auto..]. destruct (leb x y); auto. Qed.
Lemma latest_None l : latest l = None ↔ l = [].
Proof. destruct l as [|a l]; [done|]. simpl. unfold later. destruct (latest l); [by case_match|done]. Qed.
Lemma latest_app l k : latest (l ++ k) = later (latest l) (latest k).
Proof using leb_total leb_trans.
  induction l as [|x l IH]; simpl; [by destruct (latest k)|]. rewrite IH. unfold later.
  destruct (latest l) as [y|], (latest k) as [z|]; try done; [|by destruct (leb x y)].
  destruct (leb y z) eqn:E1, (leb x y) eqn:E2; rewrite ?E1; try done.
  - by rewrite (leb_trans x y z E2 E1).
  - destruct (leb x z) eqn:E3; [|done]. destruct (leb_total y x) as [H1|H1]; [|congruence].
    destruct (leb_total z y) as [H2|H2]; [|congruence]. by rewrite (leb_trans x z y E3 H2) in E2.
Qed.

Lemma last_insort x l : StronglySorted (λ a b, leb a b = true) l → last (insort leb x l) = later (Some x) (last l).
Proof using leb_total leb_trans.
  induction 1 as [|y l Hl IH Hy]; simpl; [done|]. destruct (leb x y) eqn:E.
  - change (last (x :: y :: l)) with (last (y :: l)). destruct (last (y :: l)) as [z|] eqn:Ez; [|by rewrite last_None in Ez].
    simpl. assert (leb x z = true) as ->; [|done]. apply last_Some_elem_of in Ez as [->|Hz]%elem_of_cons; [done|].
    eapply leb_trans; [done|]. by apply (proj1 (Forall_forall _ _) Hy).
  - destruct l as [|z l]; [simpl; by rewrite E|]. rewrite last_cons, IH. change (last (y :: z :: l)) with (last (z :: l)).
    by destruct (later (Some x) (last (z :: l))) eqn:F; [|destruct (last (z :: l)) as [w|] eqn:G; [simpl in F; by case_match|]].
Qed.
Lemma last_isort l : last (isort leb l) = latest l.
Proof using leb_total leb_trans.
  induction l as [|x l IH]; simpl; [done|]. rewrite last_insort by (by apply isort_sorted). by rewrite IH.
Qed.
Lemma keep_insort p x l :
  StronglySorted (λ a b, leb a b = true) l → keep p (insort leb x l) = if p x then insort leb x (keep p l) else keep p l.
Proof using leb_trans.
  unfold keep. induction 1 as [|y l Hl IH Hy]; simpl.
  - rewrite filter_cons, filter_nil. destruct (p x); [by rewrite decide_True|by rewrite decide_False].
  - destruct (leb x y) eqn:E.
    + rewrite filter_cons. destruct (p x); [rewrite decide_True by done|by rewrite decide_False]. rewrite filter_cons.
      destruct (decide (p y = true)); [simpl; by rewrite E|]. destruct (filter _ l) as [|z k] eqn:Ek; [done|]. simpl.
      assert (leb x z = true) as ->; [|done]. eapply leb_trans; [done|]. apply (proj1 (Forall_forall _ _) Hy).
      assert (z ∈ filter (λ x, p x = true) l) as Hz by (rewrite Ek; left). by apply list_elem_of_filter in Hz as [_ ?].
    + rewrite !filter_cons. destruct (decide (p y = true)); rewrite IH; destruct (p x); simpl; by rewrite ?E.
Qed.
Lemma keep_isort p l : keep p (isort leb l) = isort leb (keep p l).
Proof using leb_total leb_trans.
  induction l as [|x l IH]; [done|]. simpl. rewrite keep_insort by (by apply isort_sorted). rewrite IH.
  unfold keep at 3. rewrite filter_cons. destruct (p x); [by rewrite decide_True|by rewrite decide_False].
Qed.
(** In a sorted list the latest element is the last. *)
Lemma latest_sorted l : StronglySorted (λ a b, leb a b = true) l → latest l = last l.
Proof using leb_trans.
  induction 1 as [|x l Hl IH Hx]; [done|]. simpl. rewrite IH. destruct l as [|y l]; [done|].
  destruct (last (y :: l)) as [z|] eqn:E; [|by rewrite last_None in E]. simpl.
  assert (leb x z = true) as ->; [|done]. apply (proj1 (Forall_forall _ _) Hx). by apply last_Some_elem_of.
Qed.
End Latest.

(** ** Times *)

Lemma qlt_true x y : qlt x y = true ↔ (x < y)%Q.
Proof. unfold qlt. rewrite negb_true_iff, <-not_true_iff_false, Qle_bool_iff. split; [apply Qnot_le_lt|apply Qlt_not_le]. Qed.
Lemma qlt_false x y : qlt x y = false ↔ (y <= x)%Q.
Proof. unfold qlt. by rewrite negb_false_iff, Qle_bool_iff. Qed.
Lemma not_qle x y : Qle_bool x y = false ↔ (y < x)%Q.
Proof. rewrite <-qlt_true. unfold qlt. by rewrite negb_true_iff. Qed.
Lemma qle_total x y : Qle_bool x y = true ∨ Qle_bool y x = true.
Proof. rewrite !Qle_bool_iff. destruct (Qlt_le_dec x y); [left; by apply Qlt_le_weak|by right]. Qed.
Lemma qle_trans x y z : Qle_bool x y = true → Qle_bool y z = true → Qle_bool x z = true.
Proof. rewrite !Qle_bool_iff. apply Qle_trans. Qed.
Lemma event_first_iff a b : event_first a b = true ↔ (a.1.1 < b.1.1)%Q ∨ (a.1.1 <= b.1.1)%Q ∧ a.1.2 ≤ b.1.2.
Proof. unfold event_first. by rewrite orb_true_iff, andb_true_iff, qlt_true, Qle_bool_iff, Z.leb_le. Qed.
Lemma event_first_total a b : event_first a b = true ∨ event_first b a = true.
Proof. rewrite !event_first_iff. destruct (Q_dec a.1.1 b.1.1) as [[?|?]|E]; [tauto|tauto|]. destruct (decide (a.1.2 ≤ b.1.2)%Z); [left|right]; right; (split; [rewrite E; apply Qle_refl|lia]). Qed.
Lemma event_first_trans a b c : event_first a b = true → event_first b c = true → event_first a c = true.
Proof.
  rewrite !event_first_iff. intros [H1|[H1 H1']] [H2|[H2 H2']]; [left|left|left|right]; [lra|lra|lra|]. split; [lra|lia].
Qed.

Lemma keep_fmap {A B} (f : A → B) p l : keep p (f <$> l) = f <$> keep (λ x, p (f x)) l.
Proof. induction l as [|x l IH]; [done|]. rewrite fmap_cons, !keep_cons, IH. by destruct (p (f x)). Qed.
Lemma keep_keep {A} p q (l : list A) : keep p (keep q l) = keep (λ x, q x && p x) l.
Proof. induction l as [|x l IH]; [done|]. rewrite !keep_cons. destruct (q x); [|done]. rewrite keep_cons, IH. by destruct (p x). Qed.
Lemma keep_ext {A} p q (l : list A) : (∀ x, x ∈ l → p x = q x) → keep p l = keep q l.
Proof.
  induction l as [|x l IH]; intros Hpq; [done|]. rewrite !keep_cons, (Hpq x) by left. rewrite IH; [done|]. intros y Hy. apply Hpq. by right.
Qed.
Lemma sorted_keep {A} (R : A → A → Prop) p l : StronglySorted R l → StronglySorted R (keep p l).
Proof.
  unfold keep. induction 1 as [|x l Hl IH Hx]; [constructor|]. rewrite filter_cons. case_decide; [|done].
  constructor; [done|]. apply Forall_forall. intros y [_ Hy]%list_elem_of_filter. by apply (proj1 (Forall_forall _ _) Hx).
Qed.

Lemma last_keep {A} p (l : list A) x : last l = Some x → p x = true → last (keep p l) = Some x.
Proof.
  intros Hl Hp. destruct l as [|y l] using rev_ind; [done|]. rewrite last_snoc in Hl. injection Hl as ->.
  unfold keep. rewrite filter_app, filter_cons, decide_True by done. by rewrite filter_nil, last_snoc.
Qed.

(** ** Charts *)

Section Chart.
Context (resources : list string) (samples : list (Q * gmap string Z)) (failures : list Q) (duration : Q).
Abbreviation event_at := (λ s : Q * gmap string Z, (s.1, 1, sample_row resources s s.1)).
Abbreviation break_at := (λ at_ : Q, (at_, 0, break_row resources at_)).
Definition chart_events : list chart_event :=
  initial_event resources samples failures
  ++ (event_at <$> keep (λ s, qlt 0 s.1 && Qle_bool s.1 duration) samples)
  ++ (break_at <$> keep (λ at_, Qle_bool 0 at_ && Qle_bool at_ duration) failures)
  ++ final_event resources samples failures duration.
Definition row_time (r : chart_row) : Q := match r with (_, Some t) :: _ => t | _ => 0 end.
(** What the chart shows at an instant: the fields of the last row up to it *)
Definition shown (rows : list chart_row) (t : Q) : option (list (string * option Q)) :=
  tail <$> last (keep (λ r, Qle_bool (row_time r) t) rows).
(** The sample that holds at an instant: the last one up to it, when no read has failed since *)
Definition held (t : Q) : option (Q * gmap string Z) :=
  match last (keep (λ s, Qle_bool s.1 t) samples) with
  | Some s => if failed_within failures s.1 t then None else Some s
  | None => None
  end.

Lemma failed_within_true after until : failed_within failures after until = true ↔ ∃ f, f ∈ failures ∧ (after < f)%Q ∧ (f <= until)%Q.
Proof.
  unfold failed_within. rewrite existsb_exists. setoid_rewrite <-list_elem_of_In. setoid_rewrite andb_true_iff.
  setoid_rewrite qlt_true. by setoid_rewrite Qle_bool_iff.
Qed.
Lemma failed_within_mono after until until' :
  (until <= until')%Q → failed_within failures after until = true → failed_within failures after until' = true.
Proof. rewrite !failed_within_true. intros Hu (f & Hf & Ha & Hb). exists f. split_and!; [done..|lra]. Qed.
Lemma event_time e : e ∈ chart_events → row_time e.2 = e.1.1.
Proof.
  unfold chart_events. rewrite !elem_of_app, !list_elem_of_fmap. unfold initial_event, final_event.
  intros [He|[(s & -> & _)|[(f & -> & _)|He]]]; [|done|done|]; repeat (case_match; try (by apply not_elem_of_nil in He));
    by apply list_elem_of_singleton in He as ->.
Qed.

Context (t : Q) (t_from : (0 <= t)%Q) (t_to : (t <= duration)%Q).
Hypothesis samples_sorted : StronglySorted (λ a b, Qle_bool a.1 b.1 = true) samples.
Abbreviation upto := (keep (λ e : chart_event, Qle_bool e.1.1 t)).

(** The last sample up to an instant *)
Lemma last_sample u s :
  last (keep (λ s, Qle_bool s.1 u) samples) = Some s → (s.1 <= u)%Q ∧ s ∈ samples ∧ ∀ x, x ∈ samples → (x.1 <= u)%Q → (x.1 <= s.1)%Q.
Proof using samples_sorted.
  intros Hs. rewrite <-(latest_sorted (λ a b : Q * gmap string Z, Qle_bool a.1 b.1)) in Hs; [|intros ???; apply qle_trans|by apply sorted_keep].
  apply latest_elem in Hs as [[Hu Hin]%elem_of_keep Hmax]; [|intros ??; apply qle_total|intros ???; apply qle_trans].
  apply Qle_bool_iff in Hu. split_and!; [done..|]. intros x Hx Hxu. apply Qle_bool_iff, Hmax, elem_of_keep. split; [by apply Qle_bool_iff|done].
Qed.
(** The events up to the instant, by kind *)
Lemma latest_breaks e :
  latest event_first (upto (break_at <$> keep (λ at_, Qle_bool 0 at_ && Qle_bool at_ duration) failures)) = Some e →
  ∃ f, e = break_at f ∧ f ∈ failures ∧ (f <= t)%Q ∧ ∀ g, g ∈ failures → (0 <= g)%Q → (g <= t)%Q → (g <= f)%Q.
Proof using t_to.
  intros [[Ht Hin]%elem_of_keep Hmax]%latest_elem; [|apply event_first_total|apply event_first_trans].
  apply list_elem_of_fmap in Hin as (f & -> & [_ Hf]%elem_of_keep). simpl in Ht. apply Qle_bool_iff in Ht. exists f. split_and!; [done..|].
  intros g Hg H0 Hgt. assert (event_first (break_at g) (break_at f) = true) as He.
  { apply Hmax, elem_of_keep. simpl. split; [by apply Qle_bool_iff|]. apply list_elem_of_fmap. exists g. split; [done|]. apply elem_of_keep.
    rewrite andb_true_iff, !Qle_bool_iff. split_and!; [done|lra|done]. }
  apply event_first_iff in He. simpl in He. destruct He as [?|[? _]]; lra.
Qed.
Lemma latest_samples :
  latest event_first (upto (event_at <$> keep (λ s, qlt 0 s.1 && Qle_bool s.1 duration) samples)) =
  event_at <$> last (keep (λ s, qlt 0 s.1 && Qle_bool s.1 t) samples).
Proof using t_to samples_sorted.
  assert (upto (event_at <$> keep (λ s, qlt 0 s.1 && Qle_bool s.1 duration) samples) = event_at <$> keep (λ s, qlt 0 s.1 && Qle_bool s.1 t) samples) as ->.
  { rewrite keep_fmap, keep_keep. f_equal. apply keep_ext. intros s _. simpl. destruct (qlt 0 s.1); [|done]. simpl.
    destruct (Qle_bool s.1 t) eqn:E; [|apply andb_false_r]. apply Qle_bool_iff in E. rewrite andb_true_r. apply Qle_bool_iff. lra. }
  rewrite latest_sorted; [by rewrite fmap_last|apply event_first_trans|].
  eapply StronglySorted_fmap; [|by apply sorted_keep]. intros a b Hab. apply event_first_iff. right. simpl. split; [by apply Qle_bool_iff|lia].
Qed.

Lemma shown_latest :
  shown (snd <$> isort event_first (chart_events)) t = (λ e, tail e.2) <$> latest event_first (upto chart_events).
Proof.
  unfold shown. rewrite keep_fmap, fmap_last, <-option_fmap_compose.
  rewrite (keep_ext _ (λ e : chart_event, Qle_bool e.1.1 t)).
  - rewrite keep_isort by (apply event_first_total || apply event_first_trans). rewrite last_isort by (apply event_first_total || apply event_first_trans). done.
  - intros e He. rewrite isort_perm in He. by rewrite event_time.
Qed.
(** Which event is the latest *)
Lemma latest_event e :
  latest event_first (upto chart_events) = Some e →
  (∀ x, x ∈ chart_events → (x.1.1 <= t)%Q → event_first x e = true) ∧
  ((∃ s, last (keep (λ s, Qle_bool s.1 0) samples) = Some s ∧ failed_within failures s.1 0 = false ∧ e = (0%Q, 1, sample_row resources s 0)) ∨
   (∃ s, last (keep (λ s, qlt 0 s.1 && Qle_bool s.1 t) samples) = Some s ∧ e = event_at s) ∨
   (∃ f, f ∈ failures ∧ (f <= t)%Q ∧ e = break_at f) ∨
   ∃ s, (duration <= t)%Q ∧ last (keep (λ s, Qle_bool s.1 duration) samples) = Some s ∧ failed_within failures s.1 duration = false ∧
        e = (duration, 1, sample_row resources s duration)).
Proof using t_to samples_sorted.
  intros He. split.
  { apply latest_elem in He as [_ Hmax]; [|apply event_first_total|apply event_first_trans]. intros x Hx Ht. apply Hmax, elem_of_keep.
    split; [by apply Qle_bool_iff|done]. }
  unfold chart_events in He. unfold keep in He. rewrite !filter_app in He. fold (keep (λ e : chart_event, Qle_bool e.1.1 t)) in He.
  rewrite !latest_app in He by (apply event_first_total || apply event_first_trans).
  apply later_cases in He as [He|He]; [left|apply later_cases in He as [He|He]; [right; left|apply later_cases in He as [He|He]; right; right]].
  - apply latest_elem in He as [[_ He]%elem_of_keep _]; [|apply event_first_total|apply event_first_trans]. unfold initial_event in He.
    destruct (last _) as [s|]; [|by apply not_elem_of_nil in He]. destruct (failed_within _ _ _) eqn:Ef; [by apply not_elem_of_nil in He|].
    apply list_elem_of_singleton in He as ->. by exists s.
  - pose proof latest_samples as Hs. unfold keep in Hs. rewrite Hs in He. apply fmap_Some in He as (s & Hl & ->). by exists s.
  - left. apply latest_breaks in He as (f & -> & Hf & Ht & _). by exists f.
  - right. apply latest_elem in He as [[Ht He]%elem_of_keep _]; [|apply event_first_total|apply event_first_trans]. unfold final_event in He.
    destruct (last _) as [s|]; [|by apply not_elem_of_nil in He]. destruct (_ && _) eqn:Ef; [|by apply not_elem_of_nil in He].
    apply list_elem_of_singleton in He as ->. simpl in Ht. apply Qle_bool_iff in Ht. exists s. apply andb_true_iff in Ef as [_ Ef%negb_true_iff]. done.
Qed.

(** Events that are certainly there *)
Lemma sample_event s : s ∈ samples → (0 < s.1)%Q → (s.1 <= t)%Q → event_at s ∈ chart_events.
Proof using t_to.
  intros Hs H0 Ht. unfold chart_events. rewrite !elem_of_app. right. left. apply list_elem_of_fmap. exists s. split; [done|].
  apply elem_of_keep. rewrite andb_true_iff, qlt_true, Qle_bool_iff. split_and!; [done|lra|done].
Qed.
Lemma break_event f : f ∈ failures → (0 <= f)%Q → (f <= t)%Q → break_at f ∈ chart_events.
Proof using t_to.
  intros Hf H0 Ht. unfold chart_events. rewrite !elem_of_app. right. right. left. apply list_elem_of_fmap. exists f. split; [done|].
  apply elem_of_keep. rewrite andb_true_iff, !Qle_bool_iff. split_and!; [done|lra|done].
Qed.
(** The last sample up to the instant, seen from the other bounds of the events *)
Lemma last_initial s : last (keep (λ s, Qle_bool s.1 t) samples) = Some s → (s.1 <= 0)%Q → last (keep (λ s, Qle_bool s.1 0) samples) = Some s.
Proof using t_from samples_sorted.
  intros Hs H0. destruct (last_sample _ _ Hs) as (_ & _ & Hmax). rewrite <-Hs. f_equal. apply keep_ext. intros x Hx.
  destruct (Qle_bool x.1 t) eqn:E; [apply Qle_bool_iff in E; apply Qle_bool_iff; specialize (Hmax x Hx E); lra|].
  apply not_qle in E. apply not_qle. lra.
Qed.
Lemma last_within s : last (keep (λ s, Qle_bool s.1 t) samples) = Some s → (0 < s.1)%Q →
  last (keep (λ s, qlt 0 s.1 && Qle_bool s.1 t) samples) = Some s.
Proof.
  intros Hs H0. rewrite (keep_ext _ (λ s, Qle_bool s.1 t && qlt 0 s.1)) by (intros; apply andb_comm). rewrite <-keep_keep.
  apply last_keep; [done|by apply qlt_true].
Qed.
Lemma last_final : (duration <= t)%Q → keep (λ s, Qle_bool s.1 duration) samples = keep (λ s, Qle_bool s.1 t) samples.
Proof using t_to. intros Hd. apply keep_ext. intros x _. apply eq_true_iff_eq. rewrite !Qle_bool_iff. lra. Qed.
(** What a row shows *)
Definition row_shows (e : option chart_event) : Prop :=
  match held t with
  | Some s => (λ e, tail e.2) <$> e = Some (tail (sample_row resources s 0))
  | None => e = None ∨ (λ e, tail e.2) <$> e = Some (tail (break_row resources 0))
  end.

Lemma held_shown s : held t = Some s → row_shows (latest event_first (upto chart_events)).
Proof using t_from t_to samples_sorted.
  intros Hh. unfold row_shows. rewrite Hh. unfold held in Hh. destruct (last (keep (λ s, Qle_bool s.1 t) samples)) as [s'|] eqn:Es; [|done].
  destruct (failed_within _ _ _) eqn:Ef; [done|]. injection Hh as ->.
  destruct (last_sample _ _ Es) as (Hst & Hin & Hmax).
  assert (∃ y, y ∈ chart_events ∧ (y.1.1 <= t)%Q ∧ (0 <= y.1.1)%Q ∧ (s.1 <= y.1.1)%Q ∧ y.1.2 = 1 ∧ ((0 < y.1.1)%Q → y.1.1 = s.1)) as (y & Hy & Hyt & Hy0 & Hys & Hyk & Hyp).
  { destruct (Qlt_le_dec 0 s.1) as [Hp|Hn]; [exists (event_at s); cbn [fst snd]; split_and!; [by apply sample_event|done|lra|lra|done|done]|].
    exists (0%Q, 1, sample_row resources s 0). cbn [fst snd]. split_and!; [|done|lra|done|done|intros ?; lra]. unfold chart_events, initial_event. rewrite (last_initial s Es Hn).
    destruct (failed_within failures s.1 0) eqn:E0; [|rewrite elem_of_app; left; by left].
    apply (failed_within_mono s.1 0 t) in E0; [congruence|done]. }
  assert (latest event_first (upto chart_events) ≠ None) as Hne.
  { rewrite latest_None. intros Hnil. assert (y ∈ upto chart_events) as Hyu by (apply elem_of_keep; by rewrite Qle_bool_iff).
    rewrite Hnil in Hyu. by apply not_elem_of_nil in Hyu. }
  destruct (latest event_first (upto chart_events)) as [e|] eqn:El; [|done]. simpl. f_equal.
  apply latest_event in El as [Hle Hcase]. specialize (Hle y Hy Hyt). apply event_first_iff in Hle. rewrite Hyk in Hle.
  destruct Hcase as [(x & Hx & _ & ->)|[(x & Hx & ->)|[(f & Hf & Hft & ->)|(x & Hd & Hx & _ & ->)]]]; simpl in Hle |- *.
  - destruct (Qlt_le_dec 0 s.1) as [Hp|Hn]; [destruct Hle as [?|[? _]]; lra|]. rewrite (last_initial s Es Hn) in Hx. by injection Hx as ->.
  - destruct (Qlt_le_dec 0 s.1) as [Hp|Hn]; [rewrite (last_within s Es Hp) in Hx; by injection Hx as ->|].
    apply last_Some_elem_of, elem_of_keep in Hx as [[Hx0%qlt_true Hxt%Qle_bool_iff]%andb_true_iff Hx]. specialize (Hmax x Hx Hxt). lra.
  - exfalso. destruct Hle as [Hle|[_ ?]]; [|lia]. apply not_true_iff_false in Ef. apply Ef, failed_within_true. exists f. split_and!; [done|lra|done].
  - rewrite (last_final Hd), Es in Hx. by injection Hx as ->.
Qed.
Lemma broken_shown : held t = None → row_shows (latest event_first (upto chart_events)).
Proof using t_from t_to samples_sorted.
  intros Hh. unfold row_shows. rewrite Hh. destruct (latest event_first (upto chart_events)) as [e|] eqn:El; [right|by left]. simpl. f_equal.
  apply latest_event in El as [Hle Hcase]. unfold held in Hh.
  assert (∀ s, last (keep (λ s, Qle_bool s.1 t) samples) = Some s → ∃ f, f ∈ failures ∧ (s.1 < f)%Q ∧ (f <= t)%Q) as Hfail.
  { intros s Hs. rewrite Hs in Hh. destruct (failed_within _ _ _) eqn:Ef; [|done]. by apply failed_within_true in Ef. }
  destruct Hcase as [(x & Hx & Hok & ->)|[(x & Hx & ->)|[(f & Hf & Hft & ->)|(x & Hd & Hx & Hok & ->)]]]; [exfalso|exfalso|done|exfalso].
  - destruct (last (keep (λ s, Qle_bool s.1 t) samples)) as [s|] eqn:Es.
    2:{ apply last_None in Es. apply last_Some_elem_of, elem_of_keep in Hx as [Hx0%Qle_bool_iff Hx].
        assert (x ∈ keep (λ s, Qle_bool s.1 t) samples) as Hk by (apply elem_of_keep; rewrite Qle_bool_iff; split; [lra|done]). rewrite Es in Hk. by apply not_elem_of_nil in Hk. }
    destruct (last_sample _ _ Es) as (Hst & Hin & _). destruct (Hfail s eq_refl) as (f & Hf & Hsf & Hft).
    destruct (Qlt_le_dec 0 s.1) as [Hp|Hn].
    + specialize (Hle _ (sample_event s Hin Hp Hst) Hst). apply event_first_iff in Hle. simpl in Hle. destruct Hle as [?|[? _]]; lra.
    + rewrite (last_initial s Es Hn) in Hx. injection Hx as ->. destruct (Qlt_le_dec 0 f) as [Hpf|Hnf].
      * assert ((0 <= f)%Q) as H0 by lra. specialize (Hle _ (break_event f Hf H0 Hft) Hft). apply event_first_iff in Hle. simpl in Hle. destruct Hle as [?|[? _]]; lra.
      * apply not_true_iff_false in Hok. apply Hok, failed_within_true. by exists f.
  - pose proof Hx as [[Hx0%qlt_true Hxt%Qle_bool_iff]%andb_true_iff Hin]%last_Some_elem_of%elem_of_keep.
    destruct (last (keep (λ s, Qle_bool s.1 t) samples)) as [s|] eqn:Es.
    2:{ apply last_None in Es. assert (x ∈ keep (λ s, Qle_bool s.1 t) samples) as Hk by (apply elem_of_keep; by rewrite Qle_bool_iff). rewrite Es in Hk. by apply not_elem_of_nil in Hk. }
    destruct (last_sample _ _ Es) as (_ & _ & Hmax). specialize (Hmax x Hin Hxt).
    rewrite (last_within s Es ltac:(lra)) in Hx. injection Hx as ->. destruct (Hfail x eq_refl) as (f & Hf & Hsf & Hft).
    assert ((0 <= f)%Q) as H0 by lra. specialize (Hle _ (break_event f Hf H0 Hft) Hft). apply event_first_iff in Hle. simpl in Hle. destruct Hle as [?|[? _]]; lra.
  - rewrite (last_final Hd) in Hx. destruct (Hfail x Hx) as (f & Hf & Hsf & Hft). apply not_true_iff_false in Hok.
    apply Hok, failed_within_true. exists f. split_and!; [done|done|lra].
Qed.
End Chart.

Lemma held_perm samples failures failures' t : failures ≡ₚ failures' → held samples failures t = held samples failures' t.
Proof.
  intros Hp. unfold held. destruct (last _) as [s|]; [|done].
  assert (failed_within failures s.1 t = failed_within failures' s.1 t) as ->; [|done].
  apply eq_true_iff_eq. rewrite !failed_within_true. by setoid_rewrite Hp.
Qed.

(** C28: The chart of allocated GPUs shows what was observed.  At every instant of the measured window, the last row up to
    it shows the counts of the last sample up to it, when no read has failed since; otherwise the
    lines are broken there, or have not started. *)
Theorem gpu_chart_holds (result : gpu_result) (t : Q) :
  let samples := isort (λ a b, Qle_bool a.1 b.1) (result_samples result) in
  let resources := sample_resources samples in
  let rows := gpu_allocation_history_rows result in
  (0 <= t)%Q → (t <= duration_s result)%Q → resources ≠ [] →
  match held samples (failed_read_elapsed_s result) t with
  | Some s => shown rows t = Some (tail (sample_row resources s 0))
  | None => shown rows t = None ∨ shown rows t = Some (tail (break_row resources 0))
  end.
Proof.
  intros samples resources rows H0 Hd Hne.
  assert (rows = snd <$> isort event_first (chart_events resources samples (isort Qle_bool (failed_read_elapsed_s result)) (duration_s result))) as ->.
  { unfold rows, gpu_allocation_history_rows. fold samples. fold resources. by destruct resources. }
  rewrite shown_latest.
  assert (StronglySorted (λ a b, Qle_bool a.1 b.1 = true) samples) as Hs by (apply isort_sorted; intros; [apply qle_total|by eapply qle_trans]).
  rewrite (held_perm _ _ (isort Qle_bool (failed_read_elapsed_s result))) by (symmetry; apply isort_perm).
  destruct (held samples (isort Qle_bool (failed_read_elapsed_s result)) t) as [s|] eqn:Eh.
  - pose proof (held_shown resources samples (isort Qle_bool (failed_read_elapsed_s result)) (duration_s result) t H0 Hd Hs s Eh) as Hsh.
    unfold row_shows in Hsh. by rewrite Eh in Hsh.
  - pose proof (broken_shown resources samples (isort Qle_bool (failed_read_elapsed_s result)) (duration_s result) t H0 Hd Hs Eh) as Hsh.
    unfold row_shows in Hsh. rewrite Eh in Hsh. destruct Hsh as [->|Hsh]; [by left|by right].
Qed.

(** ** The integral *)

(** Sums over the first [n] naturals *)
Fixpoint total (f : nat → Q) (n : nat) : Q := match n with O => 0 | S n => (total f n + f n)%Q end.
Lemma total_ext f g n : (∀ k, (k < n)%nat → (f k == g k)%Q) → (total f n == total g n)%Q.
Proof. induction n as [|n IH]; intros Hfg; simpl; [done|]. rewrite IH by (intros; apply Hfg; lia). by rewrite (Hfg n) by lia. Qed.
Lemma total_plus f g n : (total (λ k, f k + g k) n == total f n + total g n)%Q.
Proof. induction n as [|n IH]; simpl; [reflexivity|]. rewrite IH. ring. Qed.
Lemma total_zero n : (total (λ _, 0) n == 0)%Q.
Proof. induction n as [|n IH]; simpl; [reflexivity|]. rewrite IH. reflexivity. Qed.
Lemma total_scale c f n : (total (λ k, c * f k) n == c * total f n)%Q.
Proof. induction n as [|n IH]; simpl; [ring|]. rewrite IH. ring. Qed.

(** The integers of a window inside an interval *)
Lemma total_interval (o a b : Z) n :
  (total (λ k, if (a <=? o + Z.of_nat k)%Z && (o + Z.of_nat k <? b)%Z then 1 else 0) n
   == inject_Z (Z.max 0 (Z.min (o + Z.of_nat n) b - Z.max o a)))%Q.
Proof.
  induction n as [|n IH]; simpl total.
  - rewrite Z.max_l by lia. reflexivity.
  - rewrite IH. destruct (a <=? o + Z.of_nat n)%Z eqn:E1, (o + Z.of_nat n <? b)%Z eqn:E2; simpl;
      [change 1%Q with (inject_Z 1)|change 0%Q with (inject_Z 0)..]; rewrite <-inject_Z_plus; apply inject_Z_injective;
      rewrite ?Z.leb_le, ?Z.leb_gt, ?Z.ltb_lt, ?Z.ltb_ge in *; lia.
Qed.

Section Integral.
Context (u : Q) (u_pos : (0 < u)%Q) (origin stop : Q) (o : Z) (n : nat) (failures : list Q).
Definition on_grid (x : Q) (z : Z) : Prop := (x == inject_Z z * u)%Q.
Hypothesis origin_grid : on_grid origin o.
Hypothesis stop_grid : on_grid stop (o + Z.of_nat n).

Lemma grid_le x y a b : on_grid x a → on_grid y b → Qle_bool x y = (a <=? b)%Z.
Proof using u_pos.
  unfold on_grid. intros Hx Hy. apply eq_true_iff_eq. rewrite Qle_bool_iff, Z.leb_le, Hx, Hy, (Zle_Qle a b).
  by rewrite Qmult_le_r.
Qed.
Lemma grid_lt x y a b : on_grid x a → on_grid y b → qlt x y = (a <? b)%Z.
Proof using u_pos. intros Hx Hy. unfold qlt. rewrite (grid_le y x b a Hy Hx). rewrite Z.ltb_antisym. done. Qed.
Lemma grid_max x y a b : on_grid x a → on_grid y b → on_grid (Qmax x y) (Z.max a b).
Proof using u_pos.
  intros Hx Hy. pose proof (grid_le x y a b Hx Hy) as Hle. destruct (Z.leb_spec a b).
  - rewrite Z.max_r by lia. unfold on_grid. rewrite Q.max_r; [done|by apply Qle_bool_iff].
  - rewrite Z.max_l by lia. unfold on_grid. rewrite Q.max_l; [done|]. apply not_qle in Hle. lra.
Qed.
Lemma grid_min x y a b : on_grid x a → on_grid y b → on_grid (Qmin x y) (Z.min a b).
Proof using u_pos.
  intros Hx Hy. pose proof (grid_le x y a b Hx Hy) as Hle. destruct (Z.leb_spec a b).
  - rewrite Z.min_l by lia. unfold on_grid. rewrite Q.min_l; [done|by apply Qle_bool_iff].
  - rewrite Z.min_r by lia. unfold on_grid. rewrite Q.min_r; [done|]. apply not_qle in Hle. lra.
Qed.

Definition instant (k : nat) : Q := (inject_Z (o + Z.of_nat k) * u)%Q.
(** The two samples around an instant, and the counts that hold there: those of the earlier one, unless a
    read between the two has failed *)
Definition around (samples : list GPUAllocationSample) (t : Q) : option (GPUAllocationSample * GPUAllocationSample) :=
  find (λ pf, Qle_bool (sampled_at pf.1) t && qlt t (sampled_at pf.2)) (pairwise samples).
Definition observed (samples : list GPUAllocationSample) (t : Q) : option (gmap string Z) :=
  match around samples t with
  | Some (p, f) => if interrupted failures stop p f then None else Some (gpu_counts p)
  | None => None
  end.

(** The time a pair of samples covers *)
Definition span (pf : GPUAllocationSample * GPUAllocationSample) : Q :=
  let left_ := Qmax origin (sampled_at pf.1) in
  let right_ := Qmin stop (sampled_at pf.2) in
  if Qle_bool right_ left_ then 0 else if interrupted failures stop pf.1 pf.2 then 0 else (right_ - left_)%Q.
Definition within_pair (pf : GPUAllocationSample * GPUAllocationSample) (t : Q) : Q :=
  if Qle_bool (sampled_at pf.1) t && qlt t (sampled_at pf.2)
  then if interrupted failures stop pf.1 pf.2 then 0 else 1 else 0.
Lemma span_instants pf a b :
  on_grid (sampled_at pf.1) a → on_grid (sampled_at pf.2) b → (span pf == u * total (λ k, within_pair pf (instant k)) n)%Q.
Proof using u_pos origin_grid stop_grid.
  intros Ha Hb. pose proof (grid_max _ _ _ _ origin_grid Ha) as Hl. pose proof (grid_min _ _ _ _ stop_grid Hb) as Hr.
  unfold span, within_pair. cbv zeta. rewrite (grid_le _ _ _ _ Hr Hl).
  rewrite (total_ext _ (λ k, if interrupted failures stop pf.1 pf.2 then 0 else
    if (a <=? o + Z.of_nat k)%Z && (o + Z.of_nat k <? b)%Z then 1 else 0)%Q).
  2:{ intros k _. assert (on_grid (instant k) (o + Z.of_nat k)) as Hk by reflexivity.
      rewrite (grid_le _ _ _ _ Ha Hk), (grid_lt _ _ _ _ Hk Hb). by destruct (_ && _), (interrupted _ _ _ _). }
  destruct (interrupted failures stop pf.1 pf.2); [rewrite total_zero; destruct (_ <=? _)%Z; ring|]. rewrite total_interval.
  destruct (Z.leb_spec (Z.min (o + Z.of_nat n) b) (Z.max o a)).
  - rewrite Z.max_l by lia. change (inject_Z 0) with 0%Q. ring.
  - rewrite Z.max_r by lia. unfold on_grid in Hl, Hr. rewrite Hl, Hr. unfold Zminus. rewrite inject_Z_plus, inject_Z_opp. ring.
Qed.

(** The sums over the pairs *)
Definition weighted (w : GPUAllocationSample * GPUAllocationSample → Q) (g : GPUAllocationSample * GPUAllocationSample → Q)
    (pairs : list (GPUAllocationSample * GPUAllocationSample)) : Q := qsum ((λ pf, w pf * g pf)%Q <$> pairs).
Lemma weighted_cons w g pf pairs : weighted w g (pf :: pairs) = (w pf * g pf + weighted w g pairs)%Q.
Proof. reflexivity. Qed.
Definition count_of (r : string) (c : gmap string Z) : Q := inject_Z (default 0 (c !! r)).
Lemma add_area_lookup d c area r :
  (default 0 (add_area d c area !! r) == default 0 (area !! r) + count_of r c * d)%Q.
Proof.
  unfold add_area, count_of. rewrite lookup_union_with, lookup_fmap. destruct (area !! r) as [x|], (c !! r) as [y|]; simpl;
    change (inject_Z 0) with 0%Q; ring.
Qed.
Lemma integrate_step_span r acc pf :
  ((integrate_step origin stop failures acc pf).1 == acc.1 + span pf)%Q ∧
  (default 0 ((integrate_step origin stop failures acc pf).2 !! r) == default 0 (acc.2 !! r) + count_of r (gpu_counts pf.1) * span pf)%Q.
Proof.
  destruct pf as [p f]. unfold integrate_step, span. cbn [fst snd]. cbv zeta.
  destruct (Qle_bool _ _); [split; ring|]. destruct (interrupted _ _ _ _); [split; ring|]. cbn [fst snd]. rewrite add_area_lookup. split; ring.
Qed.
Lemma integrate_sums r pairs acc :
  let result := foldl (integrate_step origin stop failures) acc pairs in
  (result.1 == acc.1 + weighted (λ _, 1) span pairs)%Q ∧
  (default 0 (result.2 !! r) == default 0 (acc.2 !! r) + weighted (λ pf, count_of r (gpu_counts pf.1)) span pairs)%Q.
Proof.
  revert acc. induction pairs as [|pf pairs IH]; intros acc; [unfold weighted; simpl; split; ring|].
  destruct (integrate_step_span r acc pf) as [S1 S2]. destruct (IH (integrate_step origin stop failures acc pf)) as [H1 H2].
  cbn [foldl]. rewrite H1, H2, S1, S2, !weighted_cons. split; ring.
Qed.
Lemma weighted_instants w pairs :
  (∀ pf, pf ∈ pairs → ∃ a b, on_grid (sampled_at pf.1) a ∧ on_grid (sampled_at pf.2) b) →
  (weighted w span pairs == u * total (λ k, weighted w (λ pf, within_pair pf (instant k)) pairs) n)%Q.
Proof using u_pos origin_grid stop_grid.
  induction pairs as [|pf pairs IH]; intros Hg; [unfold weighted; simpl; rewrite total_zero; ring|].
  rewrite weighted_cons, (total_ext _ (λ k, w pf * within_pair pf (instant k) + weighted w (λ pf, within_pair pf (instant k)) pairs)%Q) by done.
  rewrite IH by (intros x Hx; apply Hg; by right). destruct (Hg pf ltac:(left)) as (a & b & Ha & Hb).
  rewrite (span_instants pf a b Ha Hb), total_plus, total_scale. ring.
Qed.
(** At most one pair of sorted samples contains an instant. *)
Lemma pairwise_after samples t pf :
  StronglySorted (λ a b, by_time a b = true) samples → pf ∈ pairwise samples → Forall (λ s, (t < sampled_at s)%Q) samples →
  within_pair pf t = 0%Q.
Proof.
  intros _ Hin Hf. unfold within_pair. assert (qlt t (sampled_at pf.1) = true) as Ht.
  { apply qlt_true. apply (proj1 (Forall_forall _ _) Hf). clear Hf. induction samples as [|x l IH]; [by apply not_elem_of_nil in Hin|].
    destruct l as [|y l]; [by apply not_elem_of_nil in Hin|]. apply elem_of_cons in Hin as [->|Hin]; [left|right; by apply IH]. }
  unfold qlt in Ht. apply negb_true_iff in Ht. by rewrite Ht.
Qed.
Lemma weighted_around w samples t :
  StronglySorted (λ a b, by_time a b = true) samples →
  (weighted w (λ pf, within_pair pf t) (pairwise samples) ==
   match around samples t with Some pf => if interrupted failures stop pf.1 pf.2 then 0 else w pf | None => 0 end)%Q.
Proof.
  induction 1 as [|x l Hl IH Hx]; [reflexivity|]. destruct l as [|y l]; [reflexivity|].
  unfold around in *. change (pairwise (x :: y :: l)) with ((x, y) :: pairwise (y :: l)). rewrite weighted_cons. cbn [find fst snd].
  unfold within_pair at 1. cbn [fst snd]. destruct (Qle_bool (sampled_at x) t && qlt t (sampled_at y)) eqn:E; [|rewrite IH; ring].
  apply andb_true_iff in E as [_ Ey%qlt_true].
  assert (weighted w (λ pf, within_pair pf t) (pairwise (y :: l)) == 0)%Q as ->.
  { assert (Forall (λ s, (t < sampled_at s)%Q) (y :: l)) as Hf.
    { constructor; [done|]. inversion Hl as [|? ? _ Hy]; subst. eapply Forall_impl; [exact Hy|]. intros z Hz. apply Qle_bool_iff in Hz. lra. }
    assert (∀ pf, pf ∈ pairwise (y :: l) → within_pair pf t = 0%Q) as Hz by (intros pf Hpf; by eapply pairwise_after).
    revert Hz. generalize (pairwise (y :: l)). intros k Hz. induction k as [|pf k IHk]; [reflexivity|]. rewrite weighted_cons.
    rewrite (Hz pf) by left. rewrite IHk by (intros q Hq; apply Hz; by right). ring. }
  destruct (interrupted _ _ _ _); ring.
Qed.
End Integral.

Lemma pairwise_elem {A} (l : list A) pf : pf ∈ pairwise l → pf.1 ∈ l ∧ pf.2 ∈ l.
Proof.
  induction l as [|x l IH]; [by intros ?%not_elem_of_nil|]. destruct l as [|y l]; [by intros ?%not_elem_of_nil|].
  intros [->|Hin]%elem_of_cons; [split; [left|right; left]|]. destruct (IH Hin). split; by right.
Qed.
Lemma observed_perm stop failures failures' samples t : failures ≡ₚ failures' → observed stop failures samples t = observed stop failures' samples t.
Proof.
  intros Hp. unfold observed. destruct (around samples t) as [[p f]|]; [|done].
  assert (interrupted failures stop p f = interrupted failures' stop p f) as ->; [|done]. unfold interrupted.
  apply eq_true_iff_eq. rewrite !existsb_exists. setoid_rewrite <-list_elem_of_In. by setoid_rewrite Hp.
Qed.
(** A sum of ones that is as long as its range *)
Lemma total_full (p : nat → bool) n : (inject_Z (Z.of_nat n) - 1 < total (λ k, if p k then 1 else 0) n)%Q → ∀ k, (k < n)%nat → p k = true.
Proof.
  assert (∀ m, (total (λ k, if p k then 1 else 0) m <= inject_Z (Z.of_nat m))%Q) as Hle.
  { intros m. induction m as [|m IH]; simpl total; [apply Qle_refl|]. rewrite Nat2Z.inj_succ. unfold Z.succ. rewrite inject_Z_plus.
    destruct (p m); change (inject_Z 1) with 1%Q; lra. }
  induction n as [|n IH]; intros Hn k Hk; [lia|]. simpl total in Hn. rewrite Nat2Z.inj_succ in Hn. unfold Z.succ in Hn. rewrite inject_Z_plus in Hn.
  change (inject_Z 1) with 1%Q in Hn. specialize (Hle n). destruct (p n) eqn:E; [|lra]. destruct (decide (k = n)) as [->|Hne]; [done|].
  apply IH; [lra|lia].
Qed.
(** The fold of the integral in terms of the observed instants *)
Lemma integrate_observed u o n origin stop failures samples r :
  (0 < u)%Q → on_grid u origin o → on_grid u stop (o + Z.of_nat n) →
  StronglySorted (λ a b, by_time a b = true) samples → (∀ s, s ∈ samples → ∃ z, on_grid u (sampled_at s) z) →
  let result := foldl (integrate_step origin stop failures) (0%Q, ∅) (pairwise samples) in
  let at_instant k := observed stop failures samples (instant u o k) in
  (result.1 == u * total (λ k, if bool_decide (is_Some (at_instant k)) then 1 else 0) n)%Q ∧
  (default 0 (result.2 !! r) == u * total (λ k, match at_instant k with Some c => count_of r c | None => 0 end) n)%Q.
Proof.
  intros Hu Ho Hstop Hsort Hs result at_instant.
  assert (∀ pf, pf ∈ pairwise samples → ∃ a b, on_grid u (sampled_at pf.1) a ∧ on_grid u (sampled_at pf.2) b) as Hgrid.
  { intros pf [H1 H2]%pairwise_elem. destruct (Hs _ H1) as [a Ha], (Hs _ H2) as [b Hb]. eauto. }
  destruct (integrate_sums origin stop failures r (pairwise samples) (0%Q, ∅)) as [H1 H2]. fold result in H1, H2.
  rewrite H1, H2, !(weighted_instants u Hu origin stop o n failures Ho Hstop) by done. cbn [fst snd]. rewrite lookup_empty. cbn [default from_option].
  split; rewrite Qplus_0_l; (apply Qmult_comp; [reflexivity|]); apply total_ext; intros k _; rewrite weighted_around by done; unfold at_instant, observed;
    destruct (around samples (instant u o k)) as [[p f]|]; try reflexivity; cbn [fst snd]; by destruct (interrupted failures stop p f).
Qed.

(** C27: The GPU time is the sum over the observed instants.  For every clock resolution [u] on which the window and the samples
    lie, the covered duration counts the instants between two consecutive samples with no failed
    read between them, and the GPU seconds of a device resource add up, over these instants, the
    count of the earlier sample.  When the resolution is a microsecond or more, complete GPU seconds are
    reported only if every instant of the window was observed. *)
Theorem gpu_integral_exact (u : Q) (o : Z) (n : nat) (gpu_samples : list GPUAllocationSample) (gpu_failures : list Q) (origin duration : Q) :
  (0 < u)%Q → on_grid u origin o → on_grid u duration (Z.of_nat n) →
  (∀ s, s ∈ gpu_samples → ∃ z, on_grid u (sampled_at s) z) →
  let result := integrate_gpu gpu_samples gpu_failures origin duration in
  let at_instant k := observed (origin + duration) gpu_failures (isort by_time gpu_samples) (instant u o k) in
  (covered_duration_s result == u * total (λ k, if bool_decide (is_Some (at_instant k)) then 1 else 0) n)%Q ∧
  (∀ r, default 0 (observed_gpu_seconds result !! r) ==
        u * total (λ k, match at_instant k with Some c => count_of r c | None => 0 end) n)%Q ∧
  (∀ seconds, gpu_seconds result = Some seconds → (1 # 1000000 <= u)%Q →
     seconds = observed_gpu_seconds result ∧ ∀ k, (k < n)%nat → is_Some (at_instant k)).
Proof.
  intros Hu Ho Hd Hs result at_instant.
  assert (∀ r, (covered_duration_s result == u * total (λ k, if bool_decide (is_Some (at_instant k)) then 1 else 0) n)%Q ∧
    (default 0 (observed_gpu_seconds result !! r) == u * total (λ k, match at_instant k with Some c => count_of r c | None => 0 end) n)%Q) as Hboth.
  { intros r. destruct (integrate_observed u o n origin (origin + duration) (isort Qle_bool gpu_failures) (isort by_time gpu_samples) r Hu Ho) as [H1 H2].
    - unfold on_grid in *. rewrite Ho, Hd, inject_Z_plus. ring.
    - apply isort_sorted; unfold by_time; intros; [apply qle_total|by eapply qle_trans].
    - intros s. rewrite isort_perm. apply Hs.
    - unfold result, integrate_gpu. destruct (foldl _ _ _) as [covered area]. cbn [fst snd covered_duration_s observed_gpu_seconds] in *. rewrite H1, H2.
      split; (apply Qmult_comp; [reflexivity|]); apply total_ext; intros k _; unfold at_instant;
        by rewrite (observed_perm _ gpu_failures (isort Qle_bool gpu_failures)) by (symmetry; apply isort_perm). }
  split; [apply (Hboth "")|]. split; [intros r; apply Hboth|]. intros seconds Hsec Hres. destruct (Hboth "") as [Hc _].
  assert (seconds = observed_gpu_seconds result ∧ (Qabs (covered_duration_s result - duration) < 1 # 1000000)%Q) as [-> Habs].
  { unfold result, integrate_gpu in *. destruct (foldl _ _ _) as [covered area]. simpl in *. destruct (qlt 0 duration && _) eqn:E; [|done].
    injection Hsec as <-. split; [done|]. apply andb_true_iff in E as [_ E]. by apply qlt_true in E. }
  split; [done|]. intros k Hk.
  pose proof (total_full (λ k, bool_decide (is_Some (at_instant k))) n) as Hfull. apply (bool_decide_unpack _), Is_true_true, Hfull; [|done].
  apply Qabs_Qlt_condition in Habs as [Hlo _]. rewrite Hc in Hlo. unfold on_grid in Hd. rewrite Hd in Hlo.
  set (T := total _ n) in *. apply (Qmult_lt_l _ _ u Hu). lra.
Qed.

(** ** Attribution of GPUs *)

(** A pool of an answer that one of the given services controls, and a group of it traced through such a
    pool: every reference names the UID of the object it refers to, and is confirmed by its controller. *)
Definition owned_pool (items : list json) (services : gset (string * string)) (pref : string * string) : Prop :=
  ∃ pool sref, pool ∈ items ∧ kind_is "ModelPool" pool = Ok true ∧ identity pool = Ok pref ∧
    spec_ref "modelServiceRef" pool = Ok sref ∧ controlled_by pool "ModelService" sref.1 sref.2 = Ok true ∧ sref ∈ services.
Definition traced (items : list json) (services : gset (string * string)) (group : json) : Prop :=
  group ∈ items ∧ kind_is "ModelGroup" group = Ok true ∧
  ∃ pref, spec_ref "modelPoolRef" group = Ok pref ∧ controlled_by group "ModelPool" pref.1 pref.2 = Ok true ∧ owned_pool items services pref.
Definition owned_group (items : list json) (services : gset (string * string)) (uid device : string) : Prop :=
  ∃ group, traced items services group ∧ meta_text "uid" group = Ok uid ∧ device_resource group = Ok device.

Lemma owned_pools_spec services items pools p :
  owned_pools services items = Ok pools → p ∈ pools ↔ owned_pool items services p.
Proof.
  intros Ho. split.
  - revert p. revert Ho. apply (outcome_fold_inv (λ pools : gset (string * string), ∀ p, p ∈ pools → _)); [|by intros p ?%not_elem_of_empty].
    intros found item found' Hin Hf Hs. apply outcome_bind_Ok in Hs as (k & Hk & Hs). destruct k; cbn [negb] in Hs; [|by injection Hs as <-].
    apply outcome_bind_Ok in Hs as (ref & Hr & Hs). destruct (bool_decide (ref ∈ services)) eqn:Es; cbn [negb] in Hs; [|by injection Hs as <-].
    apply outcome_bind_Ok in Hs as (owned & Hc & Hs). destruct owned; cbn [negb] in Hs; [|by injection Hs as <-].
    apply outcome_bind_Ok in Hs as (self & Hself & Hs). injection Hs as <-. intros p [->%elem_of_singleton|Hp]%elem_of_union; [|by apply Hf].
    exists item, ref. split_and!; try done. by apply bool_decide_eq_true in Es.
  - intros (pool & sref & Hin & Hk & Hi & Hr & Hc & Hs). revert Ho. apply (outcome_fold_reaches (λ pools, p ∈ pools) _ _ pool); [done| |].
    + intros b b'. rewrite Hk. cbn [mbind outcome_bind negb]. rewrite Hr. cbn [mbind outcome_bind]. rewrite bool_decide_true by done. cbn [negb].
      rewrite Hc. cbn [mbind outcome_bind negb]. rewrite Hi. intros [= <-]. set_solver.
    + intros b y b' _ Hb Hs'. repeat (apply outcome_bind_Ok in Hs' as (? & _ & Hs'); repeat case_match; try by injection Hs' as <-).
      injection Hs' as <-. set_solver.
Qed.
(** One group: nothing is learned, or it is traced and remembered; a traced one always is. *)
Lemma learn_group_spec services items pools k item k' :
  owned_pools services items = Ok pools → item ∈ items → learn_group pools k item = Ok k' →
  (k' = k ∧ ¬ traced items services item) ∨
  ∃ uid device n, traced items services item ∧ meta_text "uid" item = Ok uid ∧ device_resource item = Ok device ∧ meta_text "name" item = Ok n ∧
    k' = Known (<[uid := device]> (known_groups k)) ({[n]} ∪ known_group_names k).
Proof.
  intros Ho Hin Hs. apply outcome_bind_Ok in Hs as (g & Hk & Hs).
  destruct g; cbn [negb] in Hs; [|injection Hs as <-; left; split; [done|]; intros (_ & ? & _); congruence].
  apply outcome_bind_Ok in Hs as (ref & Hr & Hs). pose proof (owned_pools_spec _ _ _ ref Ho) as Hp.
  destruct (bool_decide (ref ∈ pools)) eqn:Es; cbn [negb] in Hs.
  2:{ injection Hs as <-. left. split; [done|]. intros (_ & _ & pref & Hpr & _ & Hpool). apply bool_decide_eq_false in Es. apply Es, Hp. congruence. }
  apply outcome_bind_Ok in Hs as (owned & Hc & Hs).
  destruct owned; cbn [negb] in Hs; [|injection Hs as <-; left; split; [done|]; intros (_ & _ & pref & Hpr & ? & _); congruence].
  apply bool_decide_eq_true, Hp in Es. steps Hs. injection Hs as <-. right. do 3 eexists. split_and!; [|done..].
  split_and!; [done..|]. by exists ref.
Qed.
(** What is known after an answer: what was known, and the groups traced in it *)
Lemma learn_groups_spec services items pools k k' :
  owned_pools services items = Ok pools → learn_groups pools items k = Ok k' →
  (∀ uid d, known_groups k' !! uid = Some d → known_groups k !! uid = Some d ∨ owned_group items services uid d) ∧
  (∀ group uid, traced items services group → meta_text "uid" group = Ok uid →
     ∃ d, known_groups k' !! uid = Some d ∧ owned_group items services uid d) ∧
  (∀ group n, traced items services group → meta_text "name" group = Ok n → n ∈ known_group_names k') ∧
  dom (known_groups k) ⊆ dom (known_groups k').
Proof.
  intros Ho Hl. split_and!.
  - revert Hl. apply (outcome_fold_inv (λ k', ∀ uid d, known_groups k' !! uid = Some d → known_groups k !! uid = Some d ∨ owned_group items services uid d)); [|by left].
    intros now_ item next Hin Hf Hs. destruct (learn_group_spec _ _ _ _ _ _ Ho Hin Hs) as [[-> _]|(uid & d & n & Ht & Hu & Hd & _ & ->)]; [done|].
    intros uid' d'. simpl. rewrite lookup_insert_Some. intros [[<- <-]|[_ Hk]]; [right; by exists item|by apply Hf].
  - intros group uid Ht Hu. revert Hl. apply (outcome_fold_reaches (λ k', ∃ d, known_groups k' !! uid = Some d ∧ _) _ _ group); [apply Ht| |].
    + intros b b' Hs. destruct (learn_group_spec _ _ _ _ _ _ Ho (proj1 Ht) Hs) as [[_ []]|(uid' & d & n & _ & Hu' & Hd & _ & ->)]; [done|].
      assert (uid' = uid) as -> by congruence. exists d. split; [apply lookup_insert_eq|]. by exists group.
    + intros b y b' Hy (d & Hd & Hog) Hs. destruct (learn_group_spec _ _ _ _ _ _ Ho Hy Hs) as [[-> _]|(uid' & d' & n & Hty & Hu' & Hd' & _ & ->)]; [by exists d|].
      simpl. destruct (decide (uid' = uid)) as [->|Hne]; [|rewrite lookup_insert_ne by done; by exists d].
      exists d'. rewrite lookup_insert_eq. split; [done|]. by exists y.
  - intros group n Ht Hn. revert Hl. apply (outcome_fold_reaches (λ k', n ∈ known_group_names k') _ _ group); [apply Ht| |].
    + intros b b' Hs. destruct (learn_group_spec _ _ _ _ _ _ Ho (proj1 Ht) Hs) as [[_ []]|(? & ? & n' & _ & _ & _ & Hn' & ->)]; [done|]. assert (n' = n) as -> by congruence. set_solver.
    + intros b y b' Hy Hb Hs. destruct (learn_group_spec _ _ _ _ _ _ Ho Hy Hs) as [[-> _]|(? & ? & ? & _ & _ & _ & _ & ->)]; [done|]. set_solver.
  - revert Hl. apply (outcome_fold_inv (λ k', dom (known_groups k) ⊆ dom (known_groups k'))); [|done].
    intros b y b' Hy Hb Hs. destruct (learn_group_spec _ _ _ _ _ _ Ho Hy Hs) as [[-> _]|(? & ? & ? & _ & _ & _ & _ & ->)]; [done|]. set_solver.
Qed.

Section Pods.
Context `{PythonRepr}.
(** What a Pod holds: the device resource of its known group, and the number it requests *)
Definition pod_claim (groups : gmap string string) (item : json) : option (string * Z) :=
  match kind_is "Pod" item, holds_devices item, group_label item, model_server item with
  | Ok true, Ok true, Ok label, Ok server =>
      if is_none label then None else
      match declared_group server with
      | Ok (JStr uid) =>
          match groups !! uid with
          | Some d => match requested server d with Ok (Some n) => Some (d, n) | _ => None end
          | None => None
          end
      | _ => None
      end
  | _, _, _, _ => None
  end.
Definition claimed (groups : gmap string string) (d : string) (items : list json) : Z :=
  foldr Z.add 0 ((λ item, match pod_claim groups item with Some (e, n) => if eqb e d then n else 0 | None => 0 end) <$> items).
(** The counts of a sample, for exactly the resources of known groups *)
Definition counted (groups : gmap string string) (items : list json) (counts : gmap string Z) : Prop :=
  ∀ d n, counts !! d = Some n ↔ (∃ uid, groups !! uid = Some d) ∧ n = claimed groups d items.
(** A Pod that a node runs *)
Definition scheduled (item : json) : Prop :=
  ∃ spec node status phase, index "spec" item = Ok spec ∧ get "nodeName" spec = Ok node ∧ truthy node = true ∧
    index "status" item = Ok status ∧ index "phase" status = Ok phase ∧ phase ≠ JStr "Succeeded" ∧ phase ≠ JStr "Failed".
Lemma scheduled_holds item holds : holds_devices item = Ok holds → scheduled item → holds = true.
Proof.
  intros Hh (spec & node & status & phase & Hs & Hn & Ht & Hst & Hph & H1 & H2). unfold holds_devices in Hh.
  rewrite Hs in Hh. cbn [mbind outcome_bind] in Hh. rewrite Hn in Hh. cbn [mbind outcome_bind] in Hh. rewrite Ht in Hh. cbn [negb] in Hh.
  rewrite Hst in Hh. cbn [mbind outcome_bind] in Hh. rewrite Hph in Hh. cbn [mbind outcome_bind] in Hh.
  apply outcome_bind_Ok in Hh as (ended & Hi & [= <-]).
  assert (existsb (py_eqb phase) [JStr "Succeeded"; JStr "Failed"] = false) as Hnone.
  { destruct phase as [| | | |s| |]; try done. cbn [existsb py_eqb]. rewrite !(proj2 (eqb_false _ _)); [done|by intros ->..]. }
  destruct phase; try done; cbn [in_set] in Hi; rewrite Hnone in Hi; by injection Hi as <-.
Qed.
(** What a step has made sure of for its Pod *)
Definition accounted (live : gset string) (k : known) (item : json) : Prop :=
  ∀ label, kind_is "Pod" item = Ok true → scheduled item → group_label item = Ok label → is_none label = false →
  is_Some (pod_claim (known_groups k) item) ∨
  ∃ server uid, model_server item = Ok server ∧ declared_group server = Ok (JStr uid) ∧ known_groups k !! uid = None ∧
    foreign live k (JStr uid) label = Ok true.

Lemma claimed_cons groups d item items :
  claimed groups d (item :: items) = match pod_claim groups item with Some (e, n) => if eqb e d then n else 0 | None => 0 end + claimed groups d items.
Proof. reflexivity. Qed.
(** One Pod *)
Lemma pod_step_spec live k t item t' :
  pod_step live k t item = Ok t' → t_error t' = None →
  t_error t = None ∧ accounted live k item ∧
  match pod_claim (known_groups k) item with
  | Some (d, n) => (∃ uid, known_groups k !! uid = Some d) ∧ t_counts t' = count_device d n (t_counts t)
  | None => t_counts t' = t_counts t
  end.
Proof.
  unfold pod_step, accounted, pod_claim. intros Hs He. apply outcome_bind_Ok in Hs as (p & -> & Hs).
  destruct p; cbn [negb] in Hs; [|injection Hs as <-; by split_and!]. apply outcome_bind_Ok in Hs as (holds & Hh & Hs). rewrite Hh.
  destruct holds; cbn [negb] in Hs; [|injection Hs as <-; split_and!; [done| |done]; intros label _ Hsc; by apply (scheduled_holds _ _ Hh) in Hsc].
  apply outcome_bind_Ok in Hs as (label & -> & Hs).
  destruct (is_none label) eqn:El; [injection Hs as <-; destruct (model_server item); split_and!; try done; intros ? _ _ [= <-]; congruence|].
  apply outcome_bind_Ok in Hs as (server & -> & (uid & Hg & (device & Hd & Hs)%outcome_bind_Ok)%outcome_bind_Ok). rewrite Hg.
  unfold lookup_text in Hd. apply outcome_bind_Ok in Hd as (? & _ & [= <-]).
  destruct (match uid with JStr s => known_groups k !! s | _ => None end) as [d|] eqn:Eu.
  - destruct uid; try done. rewrite Eu. apply outcome_bind_Ok in Hs as (r & _ & (m & -> & [= <-])%outcome_bind_Ok).
    destruct m as [m|]; [|done]. simpl in He |- *. split_and!; [done|intros ? _ _ _ _; left; by eexists|by exists s|done].
  - assert (match uid with JStr uid => match known_groups k !! uid with Some d => match requested server d with Ok (Some n) => Some (d, n) | _ => None end | None => None end
             | _ => None end = None) as -> by (destruct uid; try done; by rewrite Eu).
    assert ((other ← foreign live k uid label;
      if (other : bool) then Ok t else Ok (Tally (t_pods t) (t_counts t) (Some (ValueError "Pod has unresolvable ModelGroup ownership")))) = Ok t') as Ho
      by (by destruct uid).
    apply outcome_bind_Ok in Ho as (other & Hf & Ho). destruct other; injection Ho as <-; [|done]. split_and!; [done| |done].
    intros label' _ _ [= <-] _. right. destruct uid as [| | | |uid| |]; try done. by exists server, uid.
Qed.
Lemma pods_spec live k items t t' :
  outcome_fold (pod_step live k) t items = Ok t' → t_error t' = None → (∀ uid d, known_groups k !! uid = Some d → is_Some (t_counts t !! d)) →
  t_error t = None ∧ Forall (accounted live k) items ∧
  ∀ d, t_counts t' !! d = (λ c, c + claimed (known_groups k) d items) <$> t_counts t !! d.
Proof.
  revert t. induction items as [|item items IH]; intros t Hf He Hr; simpl in Hf.
  { injection Hf as <-. split_and!; [done..|]. intros d. unfold claimed. simpl. destruct (t_counts t !! d); simpl; f_equal; lia. }
  apply outcome_bind_Ok in Hf as (t1 & Hs & Hf).
  assert (t_error t1 = None → accounted live k item ∧ t_error t = None ∧ (∀ uid d, known_groups k !! uid = Some d → is_Some (t_counts t1 !! d)) ∧
    ∀ d, t_counts t1 !! d = (λ c, c + match pod_claim (known_groups k) item with Some (e, n) => if eqb e d then n else 0 | None => 0 end) <$> t_counts t !! d) as Hstep.
  { intros He1. destruct (pod_step_spec _ _ _ _ _ Hs He1) as (Het & Ha & Hc). destruct (pod_claim (known_groups k) item) as [[e n]|].
    - destruct Hc as [[uid Hu] Hc]. rewrite Hc. unfold count_device. split_and!; [done..| |].
      + intros uid' d Hd. destruct (decide (e = d)) as [<-|Hne]; [rewrite lookup_insert_eq; by eexists|rewrite lookup_insert_ne by done; by eapply Hr].
      + intros d. destruct (decide (e = d)) as [<-|Hne].
        * rewrite lookup_insert_eq, eqb_refl. destruct (Hr _ _ Hu) as [c ->]. done.
        * rewrite lookup_insert_ne by done. rewrite (proj2 (eqb_false e d)) by done. destruct (t_counts t !! d); simpl; f_equal; lia.
    - rewrite Hc. split_and!; [done..|]. intros d. destruct (t_counts t !! d); simpl; f_equal; lia. }
  assert (t_error t1 = None) as He1.
  { clear -Hf He. revert t1 Hf. induction items as [|x items IH]; intros t1; simpl; [by intros [= ->]|].
    intros (t2 & Hs & Hf)%outcome_bind_Ok. apply (pod_step_spec _ _ _ _ _ Hs). by apply IH. }
  destruct (Hstep He1) as (Ha & Het & Hr1 & Hc). destruct (IH t1 Hf He Hr1) as (_ & Hall & Hcs). split_and!; [done|by constructor|].
  intros d. rewrite Hcs, Hc, claimed_cons. destruct (t_counts t !! d); simpl; [|done]. f_equal. lia.
Qed.
Lemma no_devices_spec groups d n : no_devices groups !! d = Some n ↔ (∃ uid, groups !! uid = Some d) ∧ n = 0.
Proof.
  unfold no_devices. set (l := _ <$> map_to_list groups). assert (∀ e, e ∈ l ↔ ∃ uid, groups !! uid = Some e.1 ∧ e.2 = 0) as Hl.
  { intros [e m]. unfold l. rewrite list_elem_of_fmap. split.
    - intros ([uid dev] & [= -> ->] & Hin). exists uid. simpl. split; [by apply elem_of_map_to_list|done].
    - intros (uid & Hu & Hm). simpl in *. subst. exists (uid, e). split; [done|]. by apply elem_of_map_to_list. }
  split.
  - intros Hd%elem_of_list_to_map_2. apply Hl in Hd as (uid & Hu & Hm). simpl in *. eauto.
  - intros [[uid Hu] ->]. destruct (list_to_map l !! d) as [m|] eqn:E.
    + apply elem_of_list_to_map_2, Hl in E as (? & _ & Hm). simpl in Hm. by rewrite Hm.
    + exfalso. apply not_elem_of_list_to_map in E. apply E, list_elem_of_fmap. exists (d, 0). split; [done|]. apply Hl. by exists uid.
Qed.
(** The Pod is one of a group of the answer that is not traced to the services, and its label is the name of
    no group that is. *)
Definition of_other_service (items : list json) (services : gset (string * string)) (label : json) (uid : string) : Prop :=
  (∃ group, group ∈ items ∧ kind_is "ModelGroup" group = Ok true ∧ meta_text "uid" group = Ok uid) ∧
  ∀ group, traced items services group → meta_text "uid" group ≠ Ok uid ∧ ∀ n, meta_text "name" group = Ok n → label ≠ JStr n.
(** Every Pod that holds devices is counted, or belongs to a live group of another service. *)
Definition resolved (items : list json) (services : gset (string * string)) (groups : gmap string string) (item : json) : Prop :=
  ∀ label, kind_is "Pod" item = Ok true → scheduled item → group_label item = Ok label → label ≠ JNull →
  is_Some (pod_claim groups item) ∨
  ∃ server uid, model_server item = Ok server ∧ declared_group server = Ok (JStr uid) ∧ of_other_service items services label uid.

Lemma live_group_uids_spec items live uid :
  live_group_uids items = Ok live → uid ∈ live → ∃ group, group ∈ items ∧ kind_is "ModelGroup" group = Ok true ∧ meta_text "uid" group = Ok uid.
Proof.
  intros Hl. revert uid. revert Hl. apply (outcome_fold_inv (λ live : gset string, ∀ uid, uid ∈ live → _)); [|by intros uid ?%not_elem_of_empty].
  intros found item found' Hin Hf Hs. apply outcome_bind_Ok in Hs as (g & Hk & Hs). destruct g; cbn [negb] in Hs; [|by injection Hs as <-].
  apply outcome_bind_Ok in Hs as (u & Hu & [= <-]). intros uid [->%elem_of_singleton|Hp]%elem_of_union; [|by apply Hf]. by exists item.
Qed.
Lemma accounted_resolved items services live k item :
  live_group_uids items = Ok live →
  (∀ group uid, traced items services group → meta_text "uid" group = Ok uid → ∃ d, known_groups k !! uid = Some d ∧ owned_group items services uid d) →
  (∀ group n, traced items services group → meta_text "name" group = Ok n → n ∈ known_group_names k) →
  accounted live k item → resolved items services (known_groups k) item.
Proof.
  intros Hlive Hgroups Hnames Ha label Hp Hs Hl Hn. destruct (Ha label Hp Hs Hl) as [Hc|(server & uid & Hm & Hd & Hk & Hf)]; [by destruct label|by left|].
  right. exists server, uid. split_and!; [done..|]. unfold foreign, in_texts in Hf. simpl in Hf.
  destruct (bool_decide (uid ∈ live)) eqn:El; cbn [negb] in Hf; [|done]. apply bool_decide_eq_true in El. split; [by eapply live_group_uids_spec|].
  intros group Ht. split; [intros Hu; destruct (Hgroups _ _ Ht Hu) as (d & ? & _); congruence|]. intros n Hgn ->.
  simpl in Hf. by rewrite bool_decide_true in Hf by eauto.
Qed.
(** One answer *)
Lemma read_answer_spec services k items k' snapshot t :
  read_answer services k items = Ok (k', (snapshot, t)) →
  (∀ uid d, known_groups k' !! uid = Some d → known_groups k !! uid = Some d ∨ owned_group items services uid d) ∧
  dom (known_groups k) ⊆ dom (known_groups k') ∧
  (∀ group uid, traced items services group → meta_text "uid" group = Ok uid →
     ∃ d, known_groups k' !! uid = Some d ∧ owned_group items services uid d) ∧
  (t_error t = None → counted (known_groups k') items (t_counts t) ∧ Forall (resolved items services (known_groups k')) items).
Proof.
  intros (live & Hlive & (pools & Hp & (k1 & Hk & (groups & _ & (t1 & Ht & Hr)%outcome_bind_Ok)%outcome_bind_Ok)%outcome_bind_Ok)%outcome_bind_Ok)%outcome_bind_Ok.
  injection Hr as -> _ ->. destruct (learn_groups_spec _ _ _ _ _ Hp Hk) as (Hsound & Hcomplete & Hnames & Hdom).
  split_and!; [done..|]. intros He. destruct (pods_spec _ _ _ _ _ Ht He) as (_ & Hall & Hc); [intros uid d Hu; exists 0; apply no_devices_spec; eauto|].
  split; [|eapply Forall_impl; [exact Hall|]; intros item Ha; by eapply accounted_resolved]. intros d n. rewrite Hc, fmap_Some. simpl. setoid_rewrite no_devices_spec. split.
  - intros (c & [Hu ->] & ->). done.
  - intros [Hu ->]. exists 0. done.
Qed.
End Pods.

Section Observing.
Context {C : Type} `{Kubectl C} `{PythonRepr} (resources : list ResourceRef) (model : string).
Abbreviation W := (world C observer).
Context (capture : json → IO W unit).
(** The record of application sources makes its own calls and keeps its own state. *)
Hypothesis capture_apart : ∀ snapshot w, self (capture snapshot w).2 = self w ∧ ∃ l, trace (capture snapshot w).2 = l ++ trace w.

Abbreviation calls := (list (call * reply)).
(** Answers of the trace: the selected services, and the pools, groups and Pods of their namespace *)
Definition services_read (tr : calls) (values : list json) : Prop :=
  (∃ r v, resources = [r] ∧ values = [v] ∧ (GetObject (kind r) (name r) (namespace r) false, Output (Some v)) ∈ tr) ∨
  (∃ j items, (GetObjects resources false, Output (Some j)) ∈ tr ∧ get "items" j = Ok items ∧ or_ items (JArr []) = JArr values).
Definition listed (tr : calls) (items : list json) : Prop :=
  ∃ ns j l, (ListObjects POOL_KINDS (Some ns) "", Output (Some j)) ∈ tr ∧ index "items" j = Ok l ∧ elements l = Ok items.
Definition uids_of (ids : list (string * string)) : gmap string string := foldl (λ m e, <[e.1 := e.2]> m) ∅ ids.
(** The services of an answer, with the UIDs they have for the whole run *)
Definition selected (tr : calls) (uids : gmap string string) (services : gset (string * string)) : Prop :=
  ∃ values ids, services_read tr values ∧ outcome_map identity values = Ok ids ∧ services = list_to_set ids ∧ uids_of ids = uids.
(** A group that some answers trace to the selected services *)
Definition verified (tr : calls) (uids : gmap string string) (uid device : string) : Prop :=
  ∃ services items, selected tr uids services ∧ listed tr items ∧ owned_group items services uid device.
(** The counts of a sample are those of one answer, over verified groups, all groups traced in this answer among
    them; every other Pod with devices is one of another service. *)
Definition attributed (tr : calls) (uids groups : gmap string string) (s : GPUAllocationSample) : Prop :=
  ∃ items services, listed tr items ∧ selected tr uids services ∧
    (∀ uid d, groups !! uid = Some d → verified tr uids uid d) ∧
    (∀ group uid, traced items services group → meta_text "uid" group = Ok uid → ∃ d, groups !! uid = Some d ∧ owned_group items services uid d) ∧
    counted groups items (gpu_counts s) ∧ Forall (resolved items services groups) items.
(** No group is forgotten from one sample to the next. *)
Definition remembers (g h : gmap string string) : Prop := dom g ⊆ dom h.
Definition attribution (w : W) : Prop :=
  match o_service_uids (self w) with
  | Some uids =>
      (∀ uid d, known_groups (o_known (self w)) !! uid = Some d → verified (trace w) uids uid d) ∧
      ∃ history, Forall2 (attributed (trace w) uids) history (o_gpu_samples (self w)) ∧
        Sorted remembers (history ++ [known_groups (o_known (self w))])
  | None => known_groups (o_known (self w)) = ∅ ∧ o_gpu_samples (self w) = []
  end.
(** The services of a sample *)
Definition selecting (services : gset (string * string)) (w : W) : Prop :=
  ∃ uids, o_service_uids (self w) = Some uids ∧ selected (trace w) uids services.

Lemma services_read_grow l tr values : services_read tr values → services_read (l ++ tr) values.
Proof. intros [(r & v & ? & ? & Hin)|(j & items & Hin & ?)]; [left; exists r, v|right; exists j, items]; rewrite elem_of_app; tauto. Qed.
Lemma listed_grow l tr items : listed tr items → listed (l ++ tr) items.
Proof. intros (ns & j & x & Hin & ?). exists ns, j, x. rewrite elem_of_app. tauto. Qed.
Lemma selected_grow l tr uids services : selected tr uids services → selected (l ++ tr) uids services.
Proof. intros (values & ids & Hs & ?). exists values, ids. split; [by apply services_read_grow|done]. Qed.
Lemma verified_grow l tr uids uid d : verified tr uids uid d → verified (l ++ tr) uids uid d.
Proof. intros (services & items & Hs & Hl & ?). exists services, items. split_and!; [by apply selected_grow|by apply listed_grow|done]. Qed.
Lemma attributed_grow l tr uids groups s : attributed tr uids groups s → attributed (l ++ tr) uids groups s.
Proof.
  intros (items & services & Hl & Hs & Hv & ?). exists items, services. split_and!; try tauto; [by apply listed_grow|by apply selected_grow|].
  intros uid d Hu. by apply verified_grow, Hv.
Qed.
Lemma Sorted_snoc_mono g h history : remembers g h → Sorted remembers (history ++ [g]) → Sorted remembers (history ++ [h]).
Proof.
  intros Hg Hs. induction history as [|x history IH]; simpl in *; [by repeat constructor|]. inversion_clear Hs as [|? ? Hs' Hhd].
  constructor; [by apply IH|]. destruct history; simpl in *; inversion_clear Hhd; constructor; [by unfold remembers in *; etransitivity|done].
Qed.
Lemma Sorted_snoc_again g history : Sorted remembers (history ++ [g]) → Sorted remembers ((history ++ [g]) ++ [g]).
Proof.
  intros Hs. induction history as [|x history IH]; simpl in *; [constructor; [done|constructor; unfold remembers; set_solver]|]. inversion_clear Hs as [|? ? Hs' Hhd].
  constructor; [by apply IH|]. destruct history; simpl in *; inversion_clear Hhd; by constructor.
Qed.
(** Both depend on the services, the groups and the samples only, and grow with the trace. *)
Lemma attribution_grow l w w' :
  attribution w → trace w' = l ++ trace w → o_service_uids (self w') = o_service_uids (self w) → o_known (self w') = o_known (self w) →
  o_gpu_samples (self w') = o_gpu_samples (self w) → attribution w'.
Proof.
  unfold attribution. intros Ha Ht -> -> ->. rewrite Ht. destruct (o_service_uids (self w)); [|done]. destruct Ha as [Hv (history & Hs & Hm)].
  split; [intros; by apply verified_grow, Hv|]. exists history. split; [|done]. eapply Forall2_impl; [exact Hs|]. intros; by apply attributed_grow.
Qed.
Lemma selecting_grow services l w w' :
  selecting services w → trace w' = l ++ trace w → o_service_uids (self w') = o_service_uids (self w) → selecting services w'.
Proof. intros (uids & Hu & Hs) Ht Hw. exists uids. rewrite Ht, Hw. split; [done|by apply selected_grow]. Qed.

Definition unrelated (f : observer → observer) : Prop :=
  ∀ o, o_service_uids (f o) = o_service_uids o ∧ o_known (f o) = o_known o ∧ o_gpu_samples (f o) = o_gpu_samples o.
Lemma stable_attribution_self f : unrelated f → stable attribution (on_self f : IO W unit).
Proof. intros Hf. apply stable_on_self. intros w Hw. destruct (Hf (self w)) as (? & ? & ?). by apply (attribution_grow [] w). Qed.
Lemma stable_attribution_run c : stable attribution (run c : IO W _).
Proof. apply stable_run. intros w r c' Hw. by apply (attribution_grow [(c, r)] w). Qed.
Lemma stable_attribution_now : stable attribution (now : IO W Q).
Proof. apply stable_now. intros w m Hw. by apply (attribution_grow [] w). Qed.
Lemma stable_selecting_now services : stable (selecting services) (now : IO W Q).
Proof. apply stable_now. intros w m Hw. by apply (selecting_grow services [] w). Qed.
Lemma stable_selecting_run services c : stable (selecting services) (run c : IO W _).
Proof. apply stable_run. intros w r c' Hw. by apply (selecting_grow services [(c, r)] w). Qed.

(** ** The commands *)

Lemma hoare_read_services :
  hoare attribution (read_services resources : IO W _) (λ values w, attribution w ∧ services_read (trace w) values) attribution.
Proof.
  unfold read_services. destruct (distinct (namespace <$> resources)) as [|ns []]; [by apply hoare_throw| |by apply hoare_throw].
  assert (hoare attribution (r ← run (GetObjects resources false); decode_resource_list r : IO W _)
    (λ values w, attribution w ∧ services_read (trace w) values) attribution) as Hmany.
  { apply (hoare_bind _ _ _ (λ r w, attribution w ∧ ∀ j, r = Some (Some j) → (GetObjects resources false, Output (Some j)) ∈ trace w)).
    - apply hoare_run. intros w r c' Hw w'. pose proof (attribution_grow [(GetObjects resources false, r)] w w' Hw) as Ha.
      destruct r; try (split; [by apply Ha|]); [intros j [= ->]; left|done|by apply Ha].
    - intros r w [Hw Hr]. unfold decode_resource_list, decode_object. destruct r as [[j|]|]; [|done|done].
      unfold mbind, IO_bind. destruct (is_dict j); [|done]. simpl. unfold pure. destruct (get "items" j) as [items|] eqn:Ei; [|done].
      destruct (or_ items (JArr [])) eqn:Eo; try done. destruct (forallb is_dict l); [|done]. split; [done|]. right. exists j, items. auto. }
  destruct resources as [|r [|]] eqn:Er; [exact Hmany| |exact Hmany]. unfold get_object.
  apply (hoare_bind _ _ _ (λ v w, attribution w ∧ (GetObject (kind r) (name r) (namespace r) false, Output (Some v)) ∈ trace w)).
  - apply (hoare_bind _ _ _ (λ x w, attribution w ∧ ∀ j, x = Some (Some j) → (GetObject (kind r) (name r) (namespace r) false, Output (Some j)) ∈ trace w)).
    + apply hoare_run. intros w x c' Hw w'. pose proof (attribution_grow [(GetObject (kind r) (name r) (namespace r) false, x)] w w' Hw) as Ha.
      destruct x; try (split; [by apply Ha|]); [intros j [= ->]; left|done|by apply Ha].
    + intros x w [Hw Hx]. unfold decode_object. destruct x as [[j|]|]; [|done|done]. destruct (is_dict j); [|done]. simpl. auto.
  - intros v. apply hoare_ret. intros w [Hw Hin]. split; [done|]. left. by exists r, v.
Qed.
Lemma check_services_spec values before services uids :
  check_services resources values before = Ok (services, uids) →
  ∃ ids, outcome_map identity values = Ok ids ∧ services = list_to_set ids ∧ uids = uids_of ids ∧ (∀ b, before = Some b → uids = b).
Proof.
  unfold check_services. intros (ids & Hi & Hc)%outcome_bind_Ok. destruct (negb _); [done|]. exists ids. fold (uids_of ids) in Hc.
  destruct before as [b|]; [destruct (bool_decide (uids_of ids = b)) eqn:E; [apply bool_decide_eq_true in E|done]|]; injection Hc as <- <-;
    split_and!; try done. by intros ? [= <-].
Qed.
Lemma hoare_select_services :
  hoare attribution (select_services resources : IO W _)
    (λ r w, attribution w ∧ ∀ values services, r = Some (values, services) → selecting services w) attribution.
Proof.
  unfold select_services. apply (hoare_try _ _ _ _ _ attribution); [|done|].
  - eapply hoare_bind; [apply hoare_read_services|]. intros values.
    apply (hoare_bind _ _ _ (λ o w, (o = self w ∧ services_read (trace w) values) ∧ attribution w)); [apply hoare_ask; tauto|]. intros o.
    apply hoare_pure_bind; [tauto|]. intros [services uids] Hc. destruct (check_services_spec _ _ _ _ Hc) as (ids & Hi & -> & -> & Hb).
    apply (hoare_bind _ _ _ (λ _ w, attribution w ∧ selecting (list_to_set ids) w)).
    + apply hoare_change. intros w [[-> Hs] Ha]. split.
      * unfold attribution in *. simpl. destruct (o_service_uids (self w)) as [b|]; [by rewrite (Hb b eq_refl)|].
        destruct Ha as [Hk Hl]. rewrite Hk, Hl. split; [by intros uid d ?%lookup_empty_Some|]. exists []. split; [constructor|by repeat constructor].
      * eexists. split; [reflexivity|]. exists values, ids. by split_and!.
    + intros ?. apply hoare_ret. intros w [Ha Hs]. split; [done|]. intros values' services' [= <- <-]. done.
  - intros e k He. destruct (observed_failure true e); [|done]. injection He as <-.
    eapply hoare_bind; [by apply stable_attribution_self|]. intros ?. eapply hoare_bind; [apply stable_attribution_now|]. intros ?.
    eapply hoare_bind; [by apply stable_attribution_self|]. intros ?. by apply hoare_ret.
Qed.

(** A GPU sample that is returned is attributed; one that raises leaves the invariant. *)
Lemma hoare_read_gpu_sample services :
  hoare (λ w, attribution w ∧ selecting services w) (read_gpu_sample resources services : IO W _)
    (λ s w, attribution w ∧ ∃ uids, o_service_uids (self w) = Some uids ∧ attributed (trace w) uids (known_groups (o_known (self w))) s) attribution.
Proof.
  unfold read_gpu_sample. apply (hoare_bind _ _ _ (λ _ w, attribution w ∧ selecting services w)).
  { destruct resources; [apply hoare_throw; tauto|by apply hoare_ret]. }
  intros ns. apply (hoare_bind _ _ _ (λ j w, (attribution w ∧ selecting services w) ∧ (ListObjects POOL_KINDS (Some ns) "", Output (Some j)) ∈ trace w)).
  { unfold run_json. apply (hoare_bind _ _ _ (λ r w, (attribution w ∧ selecting services w) ∧ ∀ j, r = Some (Some j) → (ListObjects POOL_KINDS (Some ns) "", Output (Some j)) ∈ trace w)).
    - apply hoare_run. intros w r c' [Ha Hs] w'. pose proof (attribution_grow [(ListObjects POOL_KINDS (Some ns) "", r)] w w' Ha) as Ha'.
      pose proof (selecting_grow services [(ListObjects POOL_KINDS (Some ns) "", r)] w w' Hs) as Hs'.
      destruct r; try (split; [split; [by apply Ha'|by apply Hs']|]); [intros j [= ->]; left|done|by apply Ha'].
    - intros r w [[Ha Hs] Hr]. destruct r as [[j|]|]; [|done|done]. split; [done|by apply Hr]. }
  intros j. apply hoare_pure_bind; [tauto|]. intros items Hitems.
  apply (hoare_bind _ _ _ (λ o w, o = self w ∧ attribution w ∧ selecting services w ∧ listed (trace w) items)).
  { apply hoare_ask. intros w [[Ha Hs] Hin]. split_and!; [done..|]. steps Hitems. exists ns, j, x. auto. }
  intros o. apply hoare_pure_bind; [tauto|]. intros [k [snapshot t]] Hr. destruct (read_answer_spec _ _ _ _ _ _ Hr) as (Hknown & Hdom & Hfull & Hcount).
  set (I := λ w : W, attribution w ∧ o_known (self w) = k ∧ listed (trace w) items ∧ selecting services w).
  apply (hoare_bind _ _ _ (λ _, I)).
  { apply hoare_change. intros w (-> & Ha & Hsel & Hl). split_and!; [|done..]. destruct Hsel as (uids & Hu & Hsv). unfold attribution in *. simpl.
    rewrite Hu in Ha |- *. destruct Ha as [Hv (history & Hs & Hm)]. split; [intros uid d [Hk|Ho]%Hknown; [by apply Hv|by exists services, items]|].
    exists history. split; [done|by apply (Sorted_snoc_mono _ _ _ Hdom)]. }
  intros ?. apply (hoare_bind _ _ _ (λ _, I)).
  { eapply hoare_weaken; [apply (stable_now I)|done|done|by intros w [? _]]. intros w m (Ha & ? & ? & Hs).
    split_and!; [by apply (attribution_grow [] w)|done..|by apply (selecting_grow services [] w)]. }
  intros at_. apply (hoare_bind _ _ _ (λ _, I)).
  { apply hoare_change. intros w (Ha & ? & ? & Hs). split_and!; [by apply (attribution_grow [] w)|done..|by apply (selecting_grow services [] w)]. }
  intros ?. destruct (t_error t) as [e|]; [apply hoare_throw; by intros w [? _]|]. destruct (Hcount eq_refl) as [Hc Hall].
  apply hoare_ret. intros w (Ha & Hk & Hl & (uids & Hu & Hs)). split; [done|]. exists uids. split; [done|]. exists items, services. rewrite Hk. split_and!; try done.
  unfold attribution in Ha. rewrite Hu, Hk in Ha. apply Ha.
Qed.
Lemma stable_record_gpus services :
  hoare (λ w, attribution w ∧ selecting services w) (record_gpus resources services : IO W unit) (λ _, attribution) attribution.
Proof.
  unfold record_gpus. apply (hoare_try _ _ _ _ _ attribution); [|done|].
  - eapply hoare_bind; [apply hoare_read_gpu_sample|]. intros s. apply hoare_change. intros w [Ha (uids & Hu & Hs)]. unfold attribution in *. simpl. rewrite Hu in *.
    destruct Ha as [Hv (history & Hall & Hm)]. split; [done|]. exists (history ++ [known_groups (o_known (self w))]). split.
    + apply Forall2_app; [done|]. constructor; [done|constructor].
    + by apply Sorted_snoc_again.
  - intros e k He. destruct (observed_failure true e); [|done]. injection He as <-.
    eapply hoare_bind; [apply stable_attribution_now|]. intros ?. by apply stable_attribution_self.
Qed.
Lemma stable_record_replicas values : stable attribution (record_replicas resources model values : IO W unit).
Proof.
  unfold record_replicas. apply stable_bind; [apply stable_attribution_now|]. intros t. apply stable_try.
  - apply stable_bind; [apply stable_pure|]. intros l. by apply stable_attribution_self.
  - intros e k He. destruct (observed_failure false e); [|done]. injection He as <-. by apply stable_attribution_self.
Qed.
Lemma stable_selecting_replicas services values : stable (selecting services) (record_replicas resources model values : IO W unit).
Proof.
  assert (∀ f, unrelated f → stable (selecting services) (on_self f : IO W unit)) as Hself.
  { intros f Hf. apply stable_on_self. intros w Hw. destruct (Hf (self w)) as (? & _). by apply (selecting_grow services [] w). }
  unfold record_replicas. apply stable_bind; [apply stable_selecting_now|]. intros t. apply stable_try.
  - apply stable_bind; [apply stable_pure|]. intros l. by apply Hself.
  - intros e k He. destruct (observed_failure false e); [|done]. injection He as <-. by apply Hself.
Qed.
Lemma stable_budget d : stable attribution (budget d : IO W Q).
Proof. unfold budget. repeat (apply stable_bind; [|intros ?]); [|apply stable_ask|apply stable_ret]. destruct d; [apply stable_ret|]. apply stable_bind; [apply stable_attribution_now|intros; apply stable_ret]. Qed.

Lemma stable_sample d : stable attribution (sample resources model capture d).
Proof using capture_apart.
  unfold sample. apply stable_bind; [apply stable_budget|]. intros ?. eapply hoare_bind; [apply hoare_select_services|].
  intros [[values services]|]; [|apply hoare_ret; by intros w [? _]].
  apply (hoare_bind _ _ _ (λ _ w, attribution w ∧ selecting services w)).
  - eapply hoare_weaken; [apply (hoare_conj _ _ _ _ _ _ _ (stable_record_replicas values) (stable_selecting_replicas services values))| |done|by intros w [? _]].
    intros w [Ha Hs]. split; [done|]. by eapply Hs.
  - intros ?. eapply hoare_bind; [apply stable_record_gpus|]. intros ?. apply stable_bind; [apply stable_ask|]. intros o.
    destruct (last (o_workload o)) as [[at_ s]|]; [|apply stable_ret]. intros w Hw. destruct (capture_apart s w) as [Hself [l Ht]].
    assert (attribution (capture s w).2) as Ha by (apply (attribution_grow l w); by rewrite ?Hself). simpl. by destruct (capture s w) as [[]].
Qed.

Lemma stable_close rounds d : stable attribution (close resources model capture rounds d).
Proof using capture_apart.
  unfold close. apply stable_bind; [apply stable_ask|]. intros o. apply stable_skip_unless.
  apply stable_bind; [by apply stable_attribution_self|]. intros ?.
  apply stable_bind; [destruct d; [apply stable_ret|apply stable_bind; [apply stable_attribution_now|intros; apply stable_ret]]|]. intros ?.
  apply stable_bind; [by apply stable_attribution_self|]. intros ?. apply stable_each. intros ? _. apply stable_sample.
Qed.
Lemma stable_observe rounds origin duration d d' :
  stable attribution (start resources model capture d ;; finish resources model capture rounds origin duration d').
Proof using capture_apart.
  apply stable_bind; [|intros ?].
  - unfold start. apply stable_bind; [apply stable_ask|]. intros o. destruct (o_active o); [apply stable_throw|].
    apply stable_bind; [apply stable_sample|]. intros ?. by apply stable_attribution_self.
  - unfold finish. apply stable_bind; [apply stable_close|]. intros ?. apply stable_bind; [apply stable_sample|]. intros ?.
    apply stable_bind; [apply stable_ask|]. intros o. apply stable_bind; [|intros ?; apply stable_ret].
    destruct duration; [by apply stable_attribution_self|apply stable_ret].
Qed.
End Observing.

(** C19: GPUs are attributed through verified owners, and none is missed.  Whatever the cluster answers, and whenever the
    observation ends or fails: every group whose Pods a GPU sample counts was listed under a pool that a
    selected ModelService controls, with matching UIDs in every reference, and the services had the same UIDs in
    all answers that count; conversely every group that the answer of the sample traces to the services in this
    way is among the counted ones, and a counted group stays so in all later samples.  The sample adds up
    exactly the requests of the scheduled Pods of those groups in that answer, and every other
    scheduled, labelled Pod declares a group of the answer that is not traced to the services, under a label that is
    the name of no traced group. *)
Theorem gpus_attributed {C} `{Kubectl C} `{PythonRepr} (resources : list ResourceRef) (model : string)
    (capture : json → IO (world C observer) unit) (rounds : nat) (origin : Q) (duration d d' : option Q) (w : world C observer) :
  (∀ snapshot w, self (capture snapshot w).2 = self w ∧ ∃ l, trace (capture snapshot w).2 = l ++ trace w) →
  self w = new_observer →
  attribution resources ((start resources model capture d ;; finish resources model capture rounds origin duration d') w).2.
Proof.
  intros Hc Hw. assert (attribution resources w) as Ha by (unfold attribution; by rewrite Hw).
  pose proof (stable_observe resources model capture Hc rounds origin duration d d' w Ha) as Hst. by destruct ((start resources model capture d ≫= _) w) as [[]].
Qed.

(** ** A concrete run

    A service with one group of two GPUs: the group is deleted after the first sample, its Pod outlives it until
    the third. *)

#[local] Instance plain_texts : PythonRepr := λ _, "".
Definition owner (k n uid : string) : string * json :=
  ("ownerReferences", JArr [JObj [("kind", JStr k); ("name", JStr n); ("uid", JStr uid); ("controller", JBool true)]]).
Definition reference (n uid : string) : json := JObj [("name", JStr n); ("uid", JStr uid)].
Definition a_service : json :=
  JObj [("metadata", JObj [("name", JStr "m"); ("uid", JStr "s1"); ("generation", JInt 1)]);
        ("status", JObj [("observedGeneration", JInt 1);
                         ("autoscaling", JArr [JObj [("id", JStr "all"); ("role", JStr "decode"); ("appliedReplicas", JInt 1); ("readyReplicas", JInt 1)]])])].
Definition a_pool : json :=
  JObj [("kind", JStr "ModelPool"); ("metadata", JObj [("name", JStr "p"); ("uid", JStr "p1"); owner "ModelService" "m" "s1"]);
        ("spec", JObj [("modelServiceRef", reference "m" "s1")])].
Definition a_group : json :=
  JObj [("kind", JStr "ModelGroup"); ("metadata", JObj [("name", JStr "g"); ("uid", JStr "g1"); owner "ModelPool" "p" "p1"]);
        ("spec", JObj [("modelPoolRef", reference "p" "p1"); ("accelerator", JObj [("deviceResourceName", JStr "gpu")]);
                       ("runtime", JObj []); ("artifacts", JObj [("model", JStr "x")])])].
Definition a_pod : json :=
  JObj [("kind", JStr "Pod"); ("metadata", JObj [("name", JStr "g-0"); ("uid", JStr "u1"); ("labels", JObj [(GROUP_LABEL, JStr "g")])]);
        ("spec", JObj [("nodeName", JStr "n1");
           ("containers", JArr [JObj [("name", JStr "model-server"); ("image", JStr "i");
              ("env", JArr [JObj [("name", JStr "FORETOKEN_MODEL_GROUP_UID"); ("value", JStr "g1")]]);
              ("resources", JObj [("requests", JObj [("gpu", JStr "2")])])]])]);
        ("status", JObj [("phase", JStr "Running")])].
Definition listing (items : list json) : reply := answer (JObj [("items", JArr items)]).
Definition observation_script : list reply :=
  [answer a_service; listing [a_pool; a_group; a_pod]; answer a_service; listing [a_pool; a_pod]; answer a_service; listing [a_pool]].
Definition one_service : list ResourceRef := [Ref "ModelService" "m" "ns"].
Definition observing : world (list reply) observer :=
  ((start one_service "m" (λ _, mret tt) None ;; finish one_service "m" (λ _, mret tt) 1 2 (Some 7%Q) None)
     (World observation_script 0 [] new_observer)).2.

Example group_outlived : map_to_list <$> (gpu_counts <$> o_gpu_samples (self observing)) = [[("gpu", 2)]; [("gpu", 2)]; [("gpu", 0)]].
Proof. vm_compute. reflexivity. Qed.
Lemma gpus_attributed_witness : o_service_uids (self observing) = Some {["m" := "s1"]} ∧ attribution one_service observing.
Proof.
  split; [vm_compute; reflexivity|].
  apply (gpus_attributed one_service "m" (λ _, mret tt) 1 2 (Some 7%Q) None None (World observation_script 0 [] new_observer)); [|reflexivity].
  intros snapshot w. split; [reflexivity|]. exists []. reflexivity.
Defined.

Definition some_samples : list GPUAllocationSample := [GPUSample 2 {["gpu" := 2]}; GPUSample 6 {["gpu" := 2]}; GPUSample 9 {["gpu" := 0]}].
Lemma gpu_integral_exact_witness :
  let result := integrate_gpu some_samples [] 2 7 in
  (∀ k, (k < 7)%nat → is_Some (observed (2 + 7) [] (isort by_time some_samples) (instant 1 2 k))) ∧
  (default 0 (observed_gpu_seconds result !! "gpu") == 14)%Q.
Proof.
  destruct (gpu_integral_exact 1 2 7 some_samples [] 2 7) as (_ & Harea & Hfull); [reflexivity|reflexivity|reflexivity| |].
  - intros s. unfold some_samples. rewrite !elem_of_cons, elem_of_nil. intros [->|[->|[->|[]]]]; [exists 2|exists 6|exists 9]; reflexivity.
  - intros result. split.
    + apply (Hfull (default ∅ (gpu_seconds result))); [vm_compute; reflexivity|]. unfold Qle. simpl. lia.
    + etransitivity; [apply Harea|]. vm_compute. reflexivity.
Defined.

Lemma gpu_chart_holds_witness :
  shown (gpu_allocation_history_rows (integrate_gpu some_samples [5%Q] 2 7)) 1 = Some [("Resources/gpu/Allocated GPUs", Some 2%Q)] ∧
  (shown (gpu_allocation_history_rows (integrate_gpu some_samples [5%Q] 2 7)) 3 = None ∨
   shown (gpu_allocation_history_rows (integrate_gpu some_samples [5%Q] 2 7)) 3 = Some [("Resources/gpu/Allocated GPUs", None)]).
Proof.
  assert (sample_resources (isort (λ a b, Qle_bool a.1 b.1) (result_samples (integrate_gpu some_samples [5%Q] 2 7))) = ["gpu"]) as Hr by (vm_compute; reflexivity).
  split.
  - apply (gpu_chart_holds (integrate_gpu some_samples [5%Q] 2 7) 1); [unfold Qle; simpl; lia|unfold Qle; simpl; lia|]. rewrite Hr. discriminate.
  - apply (gpu_chart_holds (integrate_gpu some_samples [5%Q] 2 7) 3); [unfold Qle; simpl; lia|unfold Qle; simpl; lia|]. rewrite Hr. discriminate.
Defined.
